(* ===== verification/_CoqProject ===== *)
-Q . S2P
Prelude.v
PyStr.v
PyFloat.v
Text.v
Errors.v
Identity.v
Config.v
Sha256.v
Wire.v
RpcProto.v
Admission.v
ClientConn.v
Delivery.v
ClientWire.v
NativeServer.v
ServerBudgets.v
ServerStream.v
Exchange.v
Timing.v
RequestId.v
Graph.v
Codec.v
SampleCodec.v
Rpc.v
Binding.v
Serve.v
FullStack.v
MethodServer.v
Objects.v
Encode.v
Decode.v
MsgpackCodec.v
Json.v
Cache.v
FilterIndex.v
Shared.v
Heartbeat.v
Registry.v
Sync.v
Views.v
World.v
Lookup.v
Watch.v
Waits.v
Member.v
RegistryServer.v
Standing.v
Session.v
Bell.v
LineCount.v
MutationCheck.v
Bench.v
BenchHarness.v
AgentPool.v
Fleet.v
Backpressure.v
Harness.v
ShardRouter.v
Lifecycle.v
Supervisor.v
