(* ===== verification/Prelude.v ===== *)
(** * tinyray: a verification development

    tinyray is service discovery and RPC for Python processes.  A process
    [join]s a named pool through a registry, publishes state about itself with
    heartbeats, reads the other members of any pool from a local cache that
    the heartbeats' answers keep up to date, waits for changes of it, and calls
    methods of other members over a native transport.  The Python package is
    [src/python/tinyray]; the registry, the heartbeat and the cache are Rust
    ([src/crates]), reached through an extension module.

    ** The program, and which file models what

    Language and standard library, as far as the code uses them: this file
    (results, the state-and-exception monad [M] and its weakest preconditions
    [wp], automation), [PyStr] and [Text] ([str], [int]), [PyFloat]
    (binary64), [Sha256] ([hashlib]), [Errors] (values, the exception classes
    of [_errors.py] and [issubclass]), [Json] ([serde_json::Value]).

    Calls, from the caller's side to the handler and back:
    - [Identity], [Config], [Timing], [RequestId]: fencing tokens and who reads
      them, addresses, environment and command line, time budgets, request ids
      and per-loop resources ([__init__.py], [registry.py], [_rpc.py],
      [_serve.py]).
    - [Codec] is the interface (a class) of a codec; [Rpc] ([_rpc.py]: prepare,
      ask the transport, read the outcome), [Binding] ([_coerce] and
      [inspect.Signature]) and [Serve] ([_Dispatch], the native listener's
      fence) are verified against it.  [MethodServer] is [scan], [Counters] and
      the life of the listener.
    - [Graph], [Objects], [Encode], [Decode] are [_msgpack.py]: the walks over
      objects and types, encoding with blob scopes and large integers, decoding
      with the blob budget.  [MsgpackCodec] shows that they implement the
      interface; [SampleCodec] is a concrete codec for examples.

    The transport those calls go through ([crates/tinyray-proto],
    [crates/tinyray/src/transport]):
    - [Wire] is [wire.rs]: frames over readers and writers that take what they
      like and may break; [RpcProto] is [rpc.rs]: the messages of a call.
    - [Admission]: the budgets for connections, frames and blobs of
      [transport.rs].
    - [ClientConn] is a connection of [transport/client.rs]: the callers, the
      writer and the reader that share it, as one step relation; [Delivery] has
      its theorems.
    - [NativeServer] is a connection of [transport/server.rs]: its loop and its
      requests' tasks; [ServerBudgets] and [ServerStream] have the theorems on
      what is counted and on what is sent.
    - [Exchange] puts the two ends of a connection and the socket between them
      together, with [ClientWire] for what the client shows the wire.
      [FullStack] adds the calls of [tinyray-client/src/rpc.rs] on both sides:
      a Python caller, the extension module, the connection, the listener and
      the Python process as one system, in which each dispatch runs in the
      state the process then has.

    Membership, from the registry to what a Python thread sees:
    - [Registry]: [state.rs] and [delta.rs] of [tinyray-registry]: pools, beats,
      seats and tenures, leases, deltas and their cache, parked requests.
      [RegistryServer]: a connection of its [server.rs], and [post], the
      client's side of the exchange.
    - [Cache]: [cache.rs] of [tinyray-membership]: the client's copy of a pool,
      its indexes and memos; [FilterIndex] adds the bounded index of filters,
      the serialized snapshots and the digests.  [Shared]: [shared.rs],
      [wait.rs] and what an answer does to the state the threads share.
      [Heartbeat]: the loop of [heartbeat.rs] with its clock.
    - [Sync]: the registry, the wire and one client as one transition system.
    - [Views], [Lookup], [Watch], [Waits]: handles, snapshots and epochs, [Pool]
      and [AsyncPool], watches, the native waits ([__init__.py]).  [World] is the
      world a thread runs in.
    - [Member], [Standing], [Session]: a process's own registration, its waits
      on it, and the module state with [join], [leave], exit hooks and fork.
    - [Bell]: the bell of an event loop as a state machine.

    Tools and examples: [LineCount] ([lines.py]), [MutationCheck]
    ([mutation_check.py]), [Bench] (the gate of [bench.py]), [BenchHarness]
    (its nested registries), [AgentPool] ([examples/agent_pool/pool.py]),
    [Fleet] (the dispatcher of [examples/async_rl_fleet.py]), [Backpressure]
    ([examples/10_backpressure.py]), [Harness] ([examples/_harness.py]),
    [ShardRouter] ([examples/03_shard_router.py]), [Supervisor]
    ([examples/20_restart_supervisor.py]) and [Lifecycle] (the loops of the
    examples that wait for peers to come and go).

    ** How code is modelled

    A pure function is a function.  A function that may raise returns
    [result]; one that also changes state is an [M]: the state survives an
    exception, [finally] and [catching] are [try].  Objects that are shared
    live in heaps and are named by position ([Views], [Objects]).  Integers
    are [Z]; where the native boundary has 64 bits the conversion that raises
    [OverflowError] is written out ([World.u64_arg]).  Versions, revisions and
    counters of 64 bits that count events are unbounded.  Floats are binary64.

    Code outside the repository is an argument: the transport, msgspec, the
    extension module's blobs, handlers, the JSON text of a float, a hash
    function, a random generator, the clock.  What is needed of them is a
    named hypothesis or a class, and a witness instantiates it.

    Concurrency.  A Python thread runs against a script of what the heartbeat
    and other threads do ([World]): before each native call the next batch of
    the script happens, so every interleaving at native calls is a script, and
    a theorem for every script is one for every interleaving.  A thread that
    still waits when the script is over is [Blocked].  The registry, the wire,
    the bell, the beat loop, the two ends of a native connection and the example
    pools are step relations or executable step functions over lists of events;
    their theorems quantify over every reachable state, that is over every
    interleaving.  A step is what the code does between two points where another
    thread or task can run: a critical section of a mutex, an operation on an
    atomic, a write under the writer's lock, and in [Fleet], whose object has no
    lock, one operation on a list or a dict.

    Fuel.  A loop that waits consumes its script: its fuel is the length of the
    script plus one, and the proofs show that a turn that goes round again has
    used up some of it, so [Blocked] is never an artefact.  The recursion over
    object graphs that rewrites large integers gets twice the number of objects
    plus two ([Encode.prepare_fuel]); [prepare_terminates] shows that it is
    never used up, on cyclic graphs either: what would be raised then makes no
    difference.  [Decode.decoder] has the
    interpreter's recursion budget as its fuel.  The walks of [Graph] are
    shown to end by the number of nodes.  The loops of [Wire] are defined by
    well-founded recursion on what is left of the buffer; the evictions of
    [FilterIndex] have the number of entries as their fuel.

    ** What the theorems show

    - Calls: a batch from client to handlers and back gives a result per call,
      or the index of the one that failed, or a refusal with nothing run, or
      [OutcomeUnknown] when an exception escaped the listener's callback
      ([Serve.batch_end_to_end], [Rpc.decode_batch_spec]); a refusal means that
      nothing ran ([Serve.refusal_means_not_run]) and [NotDelivered] is said
      only when the transport or the listener's status says so
      ([Rpc.not_delivered_honest]); the context injected is the transport's.
      The codec hands over each blob once, keeps to its budget of blobs and, for
      descriptors that name their size, of bytes ([Decode.blob_budget]; others
      escape it, [Decode.positional_descriptor_escapes]), ends on cycles,
      round-trips large integers, and refuses Pydantic types wherever they
      occur as long as [id()] is not reused ([Objects.pydantic_type_rejected],
      [Objects.reused_id_hides_model]); encoder, decoder and type checks
      together are the codec the calls were verified against
      ([MsgpackCodec.msgpack_codec_laws]).
    - Python to Python, in considerate runs: nobody registers a request id while
      an earlier call with it still runs or is queued, and no write of the
      listener is cut short.  (The step relations do not enforce this; the
      theorems have it as a hypothesis, [Exchange.considerate], and without it
      the traces below show what goes wrong.)  A call that was given a reply
      was refused before anything was started; or it is told what the dispatch
      of this very request answered, [OutcomeUnknown] in its place only when
      the answer came with blobs; or its worker failed and it is told
      [OutcomeUnknown] ([FullStack.call_reaches_the_listener]).  [NotDelivered]
      means that nothing ran ([FullStack.not_delivered_means_nothing_ran]);
      underneath, the same of a native call ([Exchange.native_call_end_to_end],
      [Exchange.not_delivered_never_runs]).
    - The transport: frames arrive whole or not at all
      ([Wire.messages_arrive_whole]); with ids that are not reused too early a
      reply is the call's own and [NotDelivered] said outside of a write is true
      ([Delivery.reply_is_ones_own], [Delivery.not_delivered_means_never_sent]);
      a call that waits is waiting for somebody
      ([Delivery.nobody_waits_on_nothing]); a listener runs what is well formed
      and addressed to it, once per id ([NativeServer.one_handler_for_each_id]),
      counts blobs and handlers exactly ([ServerBudgets]) and sends whole
      replies ([ServerStream.replies_whole_and_own]).  Where the code falls
      short a closed theorem has the trace: [Delivery.not_delivered_yet_sent],
      [Delivery.retry_answered_with_stale_frame],
      [Delivery.failure_while_writing_leaks],
      [ServerStream.cut_write_mixes_replies],
      [ServerStream.late_request_never_cancelled],
      [ServerStream.answered_id_still_taken].
    - The registry: [registry_invariant], [earlier_tenure_refused],
      [publications_only_advance], [parked_caller_not_missed]; an answer that
      is taken is the one to this beat ([exchange_answers_this_beat]); the beat
      loop keeps the lease through a lost beat and never cancels two requests
      running ([Heartbeat]).
    - Copies: [copy_is_a_past_pool], [one_beat_synchronises],
      [restart_leaves_no_mixture]; memos and lookups answer what the deltas
      say ([Cache.cache_memos_transparent], [FilterIndex.index_transparent],
      [Views.snapshot_lookup_stable]).
    - Waiting: no wait sleeps through what it waits for ([Watch], [Waits],
      [Standing], [Bell]): a watch that sleeps has no snapshot to hand over.
      The exception is the synchronous watch when the seat is lost or [close()]
      is called between its check and its sleep ([watch_late_fence_missed],
      [watch_late_close_missed]).
    - The process: at most one live membership, joins that are all or nothing,
      leaves that release everything, forked children that are nobody
      ([Session]); publications that are all or nothing and have a new version
      exactly when they differ ([Member]).
    - Tools: exit codes that mean what they say ([MutationCheck], [Bench],
      [LineCount]; a list of Rust mutants only is not checked for its crates,
      [MutationCheck.unknown_crate_counts_as_caught]) and work queues that lose nothing ([AgentPool],
      [Fleet.no_task_stranded], [Backpressure.queue_keeps_its_items]; the bound
      of the last is missed by concurrent offers,
      [Backpressure.capacity_exceeded]); a driver leaves no process running
      ([Harness.nothing_left_running]), nested benchmark registries leave
      nothing behind ([BenchHarness.contexts_leave_nothing_behind]), routed keys
      are found again ([ShardRouter.router_loses_nothing]), a supervisor acts
      once for each pool ([Supervisor.supervisor_acts_once]), and a worker
      leaves when its peers are done ([Lifecycle]).

    ** Not modelled

    The wording of messages and [__repr__]s (no code branches on it).  Sockets
    and timers are events; the encoding of [rmp_serde] is a parameter with named
    laws.  Of the native transport: choosing and opening connections in the
    client's pool, starting and stopping a listener, and the runtime, the
    tickets and the fork handling of [RpcGlobal].  The typed interface of
    the Rust library ([service.rs], [member.rs]), blob storage (memfd,
    descriptor passing) and the extension module's glue.  The scenarios of
    [bench.py], the table of mutants, the trainer of the data example, the
    engines and trainers of the fleet, the other example scripts and the
    tests. *)

From stdpp Require Export base tactics list gmap strings.
From Stdlib Require Export ZArith Lia.

#[global] Set Default Proof Using "Type".

(** ** Results: a value or a raised exception *)

Inductive result (E A : Type) : Type :=
| Ok (a : A)
| Raise (e : E).
Arguments Ok {E A} a.
Arguments Raise {E A} e.

#[global] Instance result_ret E : MRet (result E) := λ A, @Ok E A.
#[global] Instance result_bind E : MBind (result E) :=
  λ A B f m, match m with Ok a => f a | Raise e => Raise e end.
#[global] Instance result_fmap E : FMap (result E) :=
  λ A B f m, match m with Ok a => Ok (f a) | Raise e => Raise e end.

Definition is_ok {E A} (r : result E A) : bool :=
  match r with Ok _ => true | Raise _ => false end.

(** [except_ Exc as e: h] around [m]: [h] answers for the exceptions it
    catches, [None] lets the exception through. *)
Definition catch {E A} (m : result E A) (h : E → option (result E A)) : result E A :=
  match m with
  | Ok a => Ok a
  | Raise e => default (Raise e) (h e)
  end.

Lemma bind_ok {E A B} (f : A → result E B) (m : result E A) (b : B) :
  m ≫= f = Ok b ↔ ∃ a, m = Ok a ∧ f a = Ok b.
Proof. destruct m; simpl; naive_solver. Qed.

Lemma bind_raise {E A B} (f : A → result E B) (m : result E A) (e : E) :
  m ≫= f = Raise e ↔ m = Raise e ∨ ∃ a, m = Ok a ∧ f a = Raise e.
Proof. destruct m; simpl; naive_solver. Qed.

Lemma fmap_ok {E A B} (f : A → B) (m : result E A) (b : B) :
  f <$> m = Ok b ↔ ∃ a, m = Ok a ∧ b = f a.
Proof. destruct m; simpl; naive_solver. Qed.

Lemma fmap_raise {E A B} (f : A → B) (m : result E A) (e : E) : f <$> m = Raise e ↔ m = Raise e.
Proof. destruct m; simpl; naive_solver. Qed.

(** ** Stateful code: the state survives an exception *)

Definition M (S E A : Type) : Type := S → result E A * S.

#[global] Instance M_ret S E : MRet (M S E) := λ A a s, (Ok a, s).
#[global] Instance M_bind S E : MBind (M S E) :=
  λ A B f m s, match m s with
               | (Ok a, s') => f a s'
               | (Raise e, s') => (Raise e, s')
               end.

#[global] Instance M_fmap S E : FMap (M S E) :=
  λ A B f m s, match m s with
               | (Ok a, s') => (Ok (f a), s')
               | (Raise e, s') => (Raise e, s')
               end.

Section StateOps.
Context {S E : Type}.

Definition raise {A} (e : E) : M S E A := λ s, (Raise e, s).
Definition get : M S E S := λ s, (Ok s, s).
Definition gets {A} (f : S → A) : M S E A := λ s, (Ok (f s), s).
Definition modify (f : S → S) : M S E unit := λ s, (Ok tt, f s).
Definition lift {A} (r : result E A) : M S E A := λ s, (r, s).

(** [try: m finally: f] when [f] itself does not raise. *)
Definition finally {A} (m : M S E A) (f : S → S) : M S E A :=
  λ s, let '(r, s') := m s in (r, f s').

(** [try: m except ...: h e]. *)
Definition catching {A} (m : M S E A) (h : E → option (M S E A)) : M S E A :=
  λ s, match m s with
       | (Ok a, s') => (Ok a, s')
       | (Raise e, s') => match h e with
                          | Some k => k s'
                          | None => (Raise e, s')
                          end
       end.

(** Run [m] and look at how it ended. *)
Definition attempt {A} (m : M S E A) : M S E (result E A) := λ s, let '(r, s') := m s in (Ok r, s').

Lemma M_bind_unfold {A B} (m : M S E A) (f : A → M S E B) (s : S) :
  (m ≫= f) s = match m s with
               | (Ok a, s') => f a s'
               | (Raise e, s') => (Raise e, s')
               end.
Proof. reflexivity. Qed.

Lemma M_bind_ok {A B} (m : M S E A) (f : A → M S E B) s b s' :
  (m ≫= f) s = (Ok b, s') ↔ ∃ a s1, m s = (Ok a, s1) ∧ f a s1 = (Ok b, s').
Proof. unfold mbind, M_bind. destruct (m s) as [[a|e] s1]; naive_solver. Qed.

Lemma M_bind_raise {A B} (m : M S E A) (f : A → M S E B) s e s' :
  (m ≫= f) s = (Raise e, s') ↔
  m s = (Raise e, s') ∨ ∃ a s1, m s = (Ok a, s1) ∧ f a s1 = (Raise e, s').
Proof. unfold mbind, M_bind. destruct (m s) as [[a|e'] s1]; naive_solver. Qed.

(** Blocks that agree on every state. *)
Lemma M_bind_ext {A B} (m m' : M S E A) (f f' : A → M S E B) s :
  m s = m' s → (∀ a s', f a s' = f' a s') → (m ≫= f) s = (m' ≫= f') s.
Proof. intros Hm Hf. unfold mbind, M_bind. rewrite Hm. destruct (m' s) as [[a|e] s']; auto. Qed.

Lemma M_mapM_ext {A B} (f f' : A → M S E B) l s :
  (∀ a s', a ∈ l → f a s' = f' a s') → mapM f l s = mapM f' l s.
Proof.
  revert s. induction l as [|a l IH]; intros s Hf; [done|]. simpl.
  unfold mbind, M_bind. rewrite (Hf a s) by left. destruct (f' a s) as [[b|e] s']; [|done].
  rewrite IH; [done|]. intros a' s0 Ha'. apply Hf. by right.
Qed.

Lemma M_fmap_ok {A B} (m : M S E A) (f : A → B) s b s' :
  (f <$> m) s = (Ok b, s') ↔ ∃ a, m s = (Ok a, s') ∧ b = f a.
Proof. unfold fmap, M_fmap. destruct (m s) as [[a|e] s1]; naive_solver. Qed.
End StateOps.

(** ** Weakest preconditions *)

(** However [m] ends from [s], [Q] holds of the end. *)
Definition wp {S E A} (m : M S E A) (s : S) (Q : result E A → S → Prop) : Prop := Q (m s).1 (m s).2.

Section WeakestPre.
Context {S E : Type}.

Lemma wp_bind {A B} (m : M S E A) (f : A → M S E B) s Q :
  wp m s (λ r s1, match r with Ok a => wp (f a) s1 Q | Raise e => Q (Raise e) s1 end) →
  wp (m ≫= f) s Q.
Proof. unfold wp. rewrite M_bind_unfold. by destruct (m s) as [[a|e] s1]. Qed.

Lemma wp_mono {A} (m : M S E A) s (P Q : result E A → S → Prop) :
  wp m s P → (∀ r s1, P r s1 → Q r s1) → wp m s Q.
Proof. unfold wp. auto. Qed.

Lemma wp_ret {A} (a : A) s (Q : result E A → S → Prop) : Q (Ok a) s → wp (mret a) s Q.
Proof. done. Qed.

Lemma wp_raise {A} (e : E) s (Q : result E A → S → Prop) : Q (Raise e) s → wp (raise e) s Q.
Proof. done. Qed.

Lemma wp_get s (Q : result E S → S → Prop) : Q (Ok s) s → wp get s Q.
Proof. done. Qed.

Lemma wp_gets {A} (f : S → A) s (Q : result E A → S → Prop) : Q (Ok (f s)) s → wp (gets f) s Q.
Proof. done. Qed.

Lemma wp_modify (f : S → S) s (Q : result E unit → S → Prop) : Q (Ok tt) (f s) → wp (modify f) s Q.
Proof. done. Qed.
End WeakestPre.

(** ** Automation *)

(** Rewriting database for the list and option equations the components
    share, and the hint database of their preservation lemmas. *)
Create HintDb tinyray discriminated.

(** Split every conjunction and existential in the context, use the
    equations on results. *)
Ltac simplify_res :=
  repeat match goal with
  | H : Ok _ = Ok _ |- _ => injection H as H; subst
  | H : Raise _ = Raise _ |- _ => injection H as H; subst
  | H : Ok _ = Raise _ |- _ => discriminate H
  | H : Raise _ = Ok _ |- _ => discriminate H
  | H : _ ≫= _ = Ok _ |- _ => apply bind_ok in H; destruct H as (? & ? & ?)
  | H : _ <$> _ = Ok _ |- _ => apply fmap_ok in H; destruct H as (? & ? & ?)
  | H : _ <$> _ = Raise _ |- _ => apply fmap_raise in H
  | H : (_, _) = (_, _) |- _ => injection H as H; subst
  | H : Some _ = Some _ |- _ => injection H as H; subst
  | H : ∃ _, _ |- _ => destruct H
  | H : _ ∧ _ |- _ => destruct H
  end.

(** Case on the scrutinee of the match in the goal or in a hypothesis. *)
Ltac case_scrut :=
  match goal with
  | |- context [ if ?b then _ else _ ] => destruct b eqn:?
  | |- context [ match ?x with _ => _ end ] => destruct x eqn:?
  end.

Ltac case_scrut_in H :=
  match type of H with
  | context [ if ?b then _ else _ ] => destruct b eqn:?
  | context [ match ?x with _ => _ end ] => destruct x eqn:?
  end.

(** Run the first statement of a stateful block. *)
Tactic Notation "mstep" "as" simple_intropattern(p) "eqn" ":" ident(H) :=
  rewrite M_bind_unfold;
  lazymatch goal with
  | |- match ?ms with _ => _ end = _ → _ => destruct ms as p eqn:H
  end.

(** Cases of a membership in a list written out. *)
Ltac elem_cases H :=
  repeat (apply elem_of_cons in H as [H|H]; [try done|]); try by apply not_elem_of_nil in H.

(** Boolean facts as propositions. *)
Ltac bool_solve :=
  repeat (rewrite ?andb_true_iff, ?orb_true_iff, ?negb_true_iff,
          ?andb_false_iff, ?orb_false_iff, ?negb_false_iff in *;
          destruct_and?).

(** ** Lists *)

Lemma forallb_Forall {A} (f : A → bool) (l : list A) :
  forallb f l = true ↔ Forall (λ x, f x = true) l.
Proof.
  induction l as [|x l IH]; simpl; [split; auto|].
  rewrite andb_true_iff, IH, Forall_cons. done.
Qed.

Lemma existsb_Exists {A} (f : A → bool) (l : list A) :
  existsb f l = true ↔ Exists (λ x, f x = true) l.
Proof.
  induction l as [|x l IH]; simpl; [split; [done|inversion 1]|].
  rewrite orb_true_iff, IH, Exists_cons. done.
Qed.

Lemma elem_of_flat_map {A B} (f : A → list B) (l : list A) y :
  y ∈ flat_map f l ↔ ∃ x, x ∈ l ∧ y ∈ f x.
Proof.
  rewrite list_elem_of_In, in_flat_map. split; intros (x & Hx & Hy); exists x;
    by rewrite ?list_elem_of_In in *.
Qed.

(** The index of the first element that satisfies [f]. *)
Fixpoint find_index {A} (f : A → bool) (l : list A) : option nat :=
  match l with
  | [] => None
  | x :: l => if f x then Some 0 else S <$> find_index f l
  end.

Lemma find_index_Some {A} (f : A → bool) (l : list A) i :
  find_index f l = Some i ↔
  (∃ x, l !! i = Some x ∧ f x = true) ∧ Forall (λ x, f x = false) (take i l).
Proof.
  revert i. induction l as [|x l IH]; intros i; simpl.
  - split; [done|]. intros [(y & Hy & _) _]. by rewrite lookup_nil in Hy.
  - destruct (f x) eqn:Hfx.
    + split.
      * intros [= <-]. simpl. split; [eauto|constructor].
      * destruct i as [|i]; [done|]. simpl. rewrite Forall_cons. intros [_ [? _]]. congruence.
    + destruct i as [|i]; simpl.
      * split; [by destruct (find_index f l)|]. intros [(y & [= ->] & ?) _]. congruence.
      * rewrite Forall_cons. specialize (IH i).
        destruct (find_index f l) as [j|]; simpl; split.
        -- intros [= ->]. by destruct IH as [[? ?] _].
        -- intros [? [_ ?]]. destruct IH as [_ IH]. by injection IH as ->.
        -- done.
        -- intros [? [_ ?]]. destruct IH as [_ IH]. by discriminate IH.
Qed.

(** An invariant of a left fold. *)
Lemma fold_left_ind {A B} (P : A → Prop) (f : A → B → A) (l : list B) (a : A) :
  P a → (∀ a b, P a → P (f a b)) → P (fold_left f l a).
Proof. intros Ha Hf. revert a Ha. induction l as [|b l IH]; intros a Ha; simpl; auto. Qed.

(** Lengths as integers: Python's and Rust's [len]. *)
Definition len {A} (l : list A) : Z := Z.of_nat (length l).

Lemma len_app {A} (l k : list A) : len (l ++ k) = (len l + len k)%Z.
Proof. unfold len. rewrite length_app. lia. Qed.

Lemma len_cons {A} (x : A) (l : list A) : len (x :: l) = (len l + 1)%Z.
Proof. unfold len. simpl. lia. Qed.

Lemma len_nonneg {A} (l : list A) : (0 ≤ len l)%Z.
Proof. unfold len. lia. Qed.

Lemma len_zero {A} (l : list A) : len l = 0%Z ↔ l = [].
Proof. unfold len. destruct l; simpl; split; try done; lia. Qed.

(** Altering an entry that is known is writing it. *)
Lemma alter_known {K A} `{Countable K} (m : gmap K A) (i : K) (x : A) (f : A → A) :
  m !! i = Some x → alter f i m = <[i := f x]> m.
Proof.
  intros Hx. apply map_eq. intros j. destruct (decide (i = j)) as [->|Hne].
  - by rewrite lookup_alter_eq, lookup_insert_eq, Hx.
  - by rewrite lookup_alter_ne, lookup_insert_ne by done.
Qed.

(** ** Sums over finite maps *)

Definition map_sum {K A} `{Countable K} (f : A → Z) (m : gmap K A) : Z := map_fold (λ _ x n, f x + n)%Z 0%Z m.

Section MapSum.
Context {K A : Type} `{Countable K}.
Implicit Types m : gmap K A.
Local Open Scope Z_scope.

Lemma map_sum_empty (f : A → Z) : map_sum f (∅ : gmap K A) = 0.
Proof. apply map_fold_empty. Qed.

Lemma map_sum_insert (f : A → Z) m i x : m !! i = None → map_sum f (<[i := x]> m) = f x + map_sum f m.
Proof. intros Hi. unfold map_sum. rewrite map_fold_insert_L; [done| |done]. intros. lia. Qed.

Lemma map_sum_delete (f : A → Z) m i x : m !! i = Some x → map_sum f (delete i m) = map_sum f m - f x.
Proof.
  intros Hi. rewrite <- (insert_delete_id m i x) at 2 by done.
  rewrite map_sum_insert by apply lookup_delete_eq. lia.
Qed.

Lemma map_sum_replace (f : A → Z) m i x y :
  m !! i = Some x → map_sum f (<[i := y]> m) = map_sum f m - f x + f y.
Proof.
  intros Hi. rewrite <- insert_delete_eq, map_sum_insert by apply lookup_delete_eq.
  rewrite (map_sum_delete f m i x) by done. lia.
Qed.

Lemma map_sum_nonneg (f : A → Z) m : (∀ i x, m !! i = Some x → 0 ≤ f x) → 0 ≤ map_sum f m.
Proof.
  induction m as [|i x m Hi IH] using map_ind; intros Hf; [by rewrite map_sum_empty|].
  rewrite map_sum_insert by done. pose proof (Hf i x (lookup_insert_eq m i x)).
  enough (0 ≤ map_sum f m) by lia. apply IH. intros j y Hj. apply (Hf j). rewrite lookup_insert_ne; congruence.
Qed.

Lemma map_sum_le (f g : A → Z) m : (∀ i x, m !! i = Some x → f x ≤ g x) → map_sum f m ≤ map_sum g m.
Proof.
  induction m as [|i x m Hi IH] using map_ind; intros Hf; [by rewrite !map_sum_empty|].
  rewrite !map_sum_insert by done. pose proof (Hf i x (lookup_insert_eq m i x)).
  enough (map_sum f m ≤ map_sum g m) by lia. apply IH. intros j y Hj. apply (Hf j). rewrite lookup_insert_ne; congruence.
Qed.

(** Changing entries in place, without changing what each counts for. *)
Lemma map_sum_imap (f : A → Z) (g : K → A → A) m :
  (∀ i x, f (g i x) = f x) → map_sum f (map_imap (λ i x, Some (g i x)) m) = map_sum f m.
Proof.
  intros Hg. induction m as [|i x m Hi IH] using map_ind; [by rewrite map_imap_empty|].
  assert (map_imap (λ i x, Some (g i x)) (<[i := x]> m) = <[i := g i x]> (map_imap (λ i x, Some (g i x)) m)) as ->.
  { apply map_eq. intros j. rewrite map_lookup_imap. destruct (decide (i = j)) as [->|Hne].
    - by rewrite !lookup_insert_eq.
    - by rewrite !lookup_insert_ne, map_lookup_imap by done. }
  rewrite !map_sum_insert; [by rewrite Hg, IH|done|]. by rewrite map_lookup_imap, Hi.
Qed.
End MapSum.

Lemma elem_of_app_option {A} (x : A) l o : x ∈ l ++ option_list o ↔ x ∈ l ∨ o = Some x.
Proof.
  rewrite elem_of_app. destruct o as [y|]; simpl; [rewrite list_elem_of_singleton|rewrite elem_of_nil]; naive_solver.
Qed.

(** ** How often an element occurs *)

Definition times {A} `{EqDecision A} (x : A) (l : list A) : Z := len (filter (λ y, y = x) l).

Section Times.
Context {A : Type} `{EqDecision A}.
Implicit Types (x y : A) (l k : list A).
Local Open Scope Z_scope.

Lemma times_app x l k : times x (l ++ k) = times x l + times x k.
Proof. unfold times. by rewrite filter_app, len_app. Qed.

Lemma times_cons x y l : times x (y :: l) = (if bool_decide (y = x) then 1 else 0) + times x l.
Proof. unfold times. rewrite filter_cons. case_decide; case_bool_decide; try done. rewrite len_cons. lia. Qed.

Lemma times_nonneg x l : 0 ≤ times x l.
Proof. apply len_nonneg. Qed.

Lemma times_zero x l : x ∉ l → times x l = 0.
Proof.
  induction l as [|y l IH]; [done|]. intros [Hy Hl]%not_elem_of_cons. rewrite times_cons, bool_decide_false by congruence.
  by rewrite IH.
Qed.

Lemma times_pos x l : x ∈ l → 1 ≤ times x l.
Proof.
  induction l as [|y l IH]; [intros []%not_elem_of_nil|]. rewrite times_cons. pose proof (times_nonneg x l).
  intros [->|Hx]%elem_of_cons; [rewrite bool_decide_true by done; lia|]. specialize (IH Hx). case_bool_decide; lia.
Qed.

Lemma times_NoDup x l : NoDup l → times x l = if bool_decide (x ∈ l) then 1 else 0.
Proof.
  intros Hn. case_bool_decide as Hx; [|by apply times_zero]. induction Hn as [|y l Hy Hn IH]; [by apply not_elem_of_nil in Hx|].
  rewrite times_cons. apply elem_of_cons in Hx as [->|Hx]; [rewrite bool_decide_true by done; by rewrite times_zero|].
  rewrite bool_decide_false by congruence. by rewrite IH.
Qed.
End Times.
