(* ===== verification/PyStr.v ===== *)
(** * Python strings and integers

    The operations of [str] and [int] the package uses, over lists of
    Unicode code points: [isascii], [strip], [lstrip], [partition],
    [startswith], [in], [isdigit], [isidentifier], [int(s)] and [str(n)],
    and Rust's [rsplit_once] and [u64] parsing, which read the same
    identity strings.  The Unicode tables are the ones of the Unicode
    character database that [str.isdigit], [str.isdecimal] and
    [str.isspace] consult. *)

From S2P Require Import Prelude.
From Stdlib Require Ascii String.

Local Open Scope N_scope.

(** A Python [str]: a list of code points. *)
Notation pystr := (list N).

(** An ASCII literal. *)
Definition u (s : string) : pystr := map Stdlib.Strings.Ascii.N_of_ascii (Stdlib.Strings.String.list_ascii_of_string s).

(** ** Character classes *)

Definition in_ranges (rs : list (N * N)) (c : N) : bool :=
  existsb (λ r, (r.1 <=? c) && (c <=? r.2)) rs.

(** First code point of each run of ten decimal digits outside ASCII. *)
Definition decimal_bases : list N :=
  [0x660; 0x6f0; 0x7c0; 0x966; 0x9e6; 0xa66; 0xae6; 0xb66; 0xbe6; 0xc66; 0xce6;
   0xd66; 0xde6; 0xe50; 0xed0; 0xf20; 0x1040; 0x1090; 0x17e0; 0x1810; 0x1946;
   0x19d0; 0x1a80; 0x1a90; 0x1b50; 0x1bb0; 0x1c40; 0x1c50; 0xa620; 0xa8d0; 0xa900;
   0xa9d0; 0xa9f0; 0xaa50; 0xabf0; 0xff10; 0x104a0; 0x10d30; 0x11066; 0x110f0;
   0x11136; 0x111d0; 0x112f0; 0x11450; 0x114d0; 0x11650; 0x116c0; 0x11730; 0x118e0;
   0x11950; 0x11c50; 0x11d50; 0x11da0; 0x16a60; 0x16ac0; 0x16b50; 0x1d7ce; 0x1d7d8;
   0x1d7e2; 0x1d7ec; 0x1d7f6; 0x1e140; 0x1e2f0; 0x1e950; 0x1fbf0].

(** The value [int()] reads from one character, when it reads one. *)
Definition decimal_value (c : N) : option N :=
  if (48 <=? c) && (c <=? 57) then Some (c - 48)
  else if c <? 128 then None
  else option_map (λ b, c - b)
         (List.find (λ b, (b <=? c) && (c <? b + 10)) decimal_bases).

(** Digits for [isdigit] that [int()] refuses: superscripts and the like. *)
Definition other_digit_ranges : list (N * N) :=
  [(0xb2, 0xb3); (0xb9, 0xb9); (0x1369, 0x1371); (0x19da, 0x19da); (0x2070, 0x2070);
   (0x2074, 0x2079); (0x2080, 0x2089); (0x2460, 0x2468); (0x2474, 0x247c);
   (0x2488, 0x2490); (0x24ea, 0x24ea); (0x24f5, 0x24fd); (0x24ff, 0x24ff);
   (0x2776, 0x277e); (0x2780, 0x2788); (0x278a, 0x2792); (0x10a40, 0x10a43);
   (0x10e60, 0x10e68); (0x11052, 0x1105a); (0x1f100, 0x1f10a)].

Definition isdigit_char (c : N) : bool :=
  match decimal_value c with Some _ => true | None => in_ranges other_digit_ranges c end.

Definition isspace_char (c : N) : bool :=
  in_ranges [(9, 13); (28, 32); (0x85, 0x85); (0xa0, 0xa0); (0x1680, 0x1680);
             (0x2000, 0x200a); (0x2028, 0x2029); (0x202f, 0x202f); (0x205f, 0x205f);
             (0x3000, 0x3000)] c.

(** ** [str] methods *)

Definition isascii (s : pystr) : bool := forallb (λ c, c <? 128) s.

Definition isdigit (s : pystr) : bool :=
  match s with [] => false | _ => forallb isdigit_char s end.

(** [any(c < " " or c == "\x7f" for c in s)] *)
Definition has_control (s : pystr) : bool := existsb (λ c, (c <? 32) || (c =? 127)) s.

Fixpoint lstrip_by (p : N → bool) (s : pystr) : pystr :=
  match s with
  | [] => []
  | c :: s' => if p c then lstrip_by p s' else s
  end.

(** [s.lstrip(chars)] *)
Definition lstrip_chars (chars : pystr) (s : pystr) : pystr :=
  lstrip_by (λ c, bool_decide (c ∈ chars)) s.

(** [s.strip()] *)
Definition strip (s : pystr) : pystr :=
  reverse (lstrip_by isspace_char (reverse (lstrip_by isspace_char s))).

Fixpoint startswith (p s : pystr) : bool :=
  match p, s with
  | [], _ => true
  | a :: p', b :: s' => (a =? b) && startswith p' s'
  | _ :: _, [] => false
  end.

(** [p in s] *)
Fixpoint contains (p s : pystr) : bool :=
  startswith p s || match s with [] => false | _ :: s' => contains p s' end.

(** [s.partition(c)] for a one-character separator. *)
Fixpoint partition (c : N) (s : pystr) : pystr * pystr * pystr :=
  match s with
  | [] => ([], [], [])
  | x :: s' => if x =? c then ([], [c], s')
               else let '(a, sep, b) := partition c s' in (x :: a, sep, b)
  end.

(** Rust's [s.rsplit_once(c)]: split at the last occurrence. *)
Fixpoint rsplit_once (c : N) (s : pystr) : option (pystr * pystr) :=
  match s with
  | [] => None
  | x :: s' => match rsplit_once c s' with
               | Some (a, b) => Some (x :: a, b)
               | None => if x =? c then Some ([], s') else None
               end
  end.

(** [isidentifier], which the package only asks of ASCII strings. *)
Definition ident_start (c : N) : bool :=
  ((65 <=? c) && (c <=? 90)) || ((97 <=? c) && (c <=? 122)) || (c =? 95).
Definition ident_continue (c : N) : bool := ident_start c || ((48 <=? c) && (c <=? 57)).
Definition isidentifier (s : pystr) : bool :=
  match s with [] => false | c :: s' => ident_start c && forallb ident_continue s' end.

(** ** [int] and [str] *)

Definition digits_value (ds : list N) : N := fold_left (λ a d, a * 10 + d) ds 0.

(** Digits with single underscores between them. *)
Fixpoint read_digits (s : pystr) : option (list N) :=
  match s with
  | [] => None
  | c :: s' =>
      match decimal_value c with
      | None => None
      | Some d =>
          match s' with
          | [] => Some [d]
          | 95 :: s'' => cons d <$> read_digits s''
          | _ => cons d <$> read_digits s'
          end
      end
  end.

(** The interpreter's limit on the digits of a decimal conversion. *)
Definition max_str_digits : nat := 4300.

(** [int(s)]; [None] is the [ValueError]. *)
Definition int_of_str (s : pystr) : option Z :=
  let '(neg, body) := match strip s with
                      | 45 :: r => (true, r)
                      | 43 :: r => (false, r)
                      | r => (false, r)
                      end in
  match read_digits body with
  | None => None
  | Some ds =>
      if (length ds <=? max_str_digits)%nat
      then Some (if neg : bool then - Z.of_N (digits_value ds) else Z.of_N (digits_value ds))%Z
      else None
  end.

Fixpoint dec_go (fuel : nat) (n : N) : pystr :=
  match fuel with
  | O => []
  | S f => if n <? 10 then [48 + n] else dec_go f (n / 10) ++ [48 + n mod 10]
  end.

Definition dec (n : N) : pystr := dec_go (S (N.size_nat n)) n.

(** The decimal form of an integer, as an f-string prints it. *)
Definition str_of_int (z : Z) : pystr :=
  if (z <? 0)%Z then 45 :: dec (Z.abs_N z) else dec (Z.to_N z).

(** [str(n)]: [None] is the [ValueError] past the digit limit. *)
Definition checked_str_of_int (z : Z) : option pystr :=
  if (length (dec (Z.abs_N z)) <=? max_str_digits)%nat then Some (str_of_int z) else None.

(** Rust's [s.parse::<u64>()]: an optional plus sign, ASCII digits, no
    overflow. *)
Definition parse_u64 (s : pystr) : option Z :=
  let body := match s with 43 :: r => r | _ => s end in
  match body with
  | [] => None
  | _ => if forallb (λ c, (48 <=? c) && (c <=? 57)) body
         then let v := Z.of_N (digits_value (map (λ c, c - 48) body)) in
              if (v <? 2 ^ 64)%Z then Some v else None
         else None
  end.

(** ** Facts about decimal forms *)

Definition ascii_digit (c : N) : bool := (48 <=? c) && (c <=? 57).

Lemma digits_value_snoc ds d : digits_value (ds ++ [d]) = digits_value ds * 10 + d.
Proof. unfold digits_value. by rewrite fold_left_app. Qed.

Lemma size_nat_div10 n f : (10 <= n) → (N.size_nat n < S f)%nat → (N.size_nat (n / 10) < f)%nat.
Proof.
  intros Hn Hf.
  assert (N.size_nat (n / 10) < N.size_nat n)%nat; [|lia].
  assert (0 < n / 10) as Hpos by (apply N.div_str_pos; lia).
  assert (n / 10 <= N.div2 n) as Hle.
  { rewrite N.div2_div. apply N.div_le_compat_l. lia. }
  assert (∀ a b : N, a <= b → (N.size_nat a <= N.size_nat b)%nat) as Hmono.
  { intros a b Hab. destruct (decide (a = 0)) as [->|Ha]; [destruct b; simpl; lia|].
    pose proof (N.size_log2 a Ha). pose proof (N.size_log2 b ltac:(lia)).
    pose proof (N.log2_le_mono a b Hab).
    assert (∀ x, N.of_nat (N.size_nat x) = N.size x) as E.
    { intros [|p]; [done|]. simpl. induction p; simpl; lia. }
    pose proof (E a). pose proof (E b). lia. }
  specialize (Hmono _ _ Hle).
  assert (S (N.size_nat (N.div2 n)) = N.size_nat n) as <-; [|lia].
  destruct n as [|[p|p|]]; simpl; try lia; done.
Qed.

Lemma dec_go_spec f n : (N.size_nat n < f)%nat →
  forallb ascii_digit (dec_go f n) = true ∧ dec_go f n ≠ [] ∧
  digits_value (map (λ c, c - 48) (dec_go f n)) = n.
Proof.
  revert n. induction f as [|f IH]; intros n Hf; [lia|]. simpl.
  destruct (N.ltb_spec n 10) as [Hlt|Hge].
  - simpl. unfold ascii_digit, digits_value. simpl. split_and!; [|done|lia].
    rewrite andb_true_r, andb_true_iff, !N.leb_le. lia.
  - destruct (IH (n / 10)) as (Hd & Hne & Hv); [by apply size_nat_div10|].
    pose proof (N.mod_lt n 10 ltac:(lia)). split_and!.
    + rewrite forallb_app, Hd. unfold ascii_digit. cbn [forallb andb].
      generalize dependent (n mod 10). intros d Hlt.
      rewrite andb_true_r, andb_true_iff, !N.leb_le. lia.
    + intros ?%app_nil. naive_solver.
    + rewrite map_app. cbn [map]. rewrite digits_value_snoc, Hv.
      pose proof (N.div_mod n 10 ltac:(lia)) as Hdm. revert Hdm.
      generalize dependent (n mod 10). intros d _ Hdm.
      replace (48 + d - 48) with d by lia. lia.
Qed.

Lemma dec_digits n : forallb ascii_digit (dec n) = true.
Proof. apply dec_go_spec. lia. Qed.

Lemma dec_not_nil n : dec n ≠ [].
Proof. apply dec_go_spec. lia. Qed.

Lemma dec_value n : digits_value (map (λ c, c - 48) (dec n)) = n.
Proof. apply dec_go_spec. lia. Qed.

#[global] Instance dec_inj : Inj (=) (=) dec.
Proof. intros a b H. by rewrite <-(dec_value a), <-(dec_value b), H. Qed.

Lemma dec_go_length f n k :
  n < 10 ^ N.of_nat (S k) → (length (dec_go f n) <= S k)%nat.
Proof.
  revert n k. induction f as [|f IH]; intros n k Hn; simpl; [lia|].
  destruct (N.ltb_spec n 10); [simpl; lia|].
  destruct k as [|k]; [simpl in Hn; lia|].
  rewrite length_app. simpl.
  assert (length (dec_go f (n / 10)) <= S k)%nat; [|lia].
  apply IH. apply N.Div0.div_lt_upper_bound.
  rewrite (Nat2N.inj_succ (S k)), N.pow_succ_r' in Hn. lia.
Qed.

(** A number below [10^k] has at most [k] decimal digits. *)
Lemma dec_length n k : (0 < k)%nat → n < 10 ^ N.of_nat k → (length (dec n) <= k)%nat.
Proof. intros Hk Hn. destruct k as [|k]; [lia|]. by apply dec_go_length. Qed.

(** ** Reading back a decimal form *)

Lemma ascii_digit_decimal c : ascii_digit c = true → decimal_value c = Some (c - 48).
Proof. unfold ascii_digit, decimal_value. by intros ->. Qed.

Lemma ascii_digit_isdigit c : ascii_digit c = true → isdigit_char c = true.
Proof. intros H. unfold isdigit_char. by rewrite (ascii_digit_decimal _ H). Qed.

Lemma ascii_digit_bounds c : ascii_digit c = true ↔ 48 <= c <= 57.
Proof. unfold ascii_digit. rewrite andb_true_iff, !N.leb_le. done. Qed.

Lemma ascii_digit_not_space c : ascii_digit c = true → isspace_char c = false.
Proof.
  rewrite ascii_digit_bounds. intros H. unfold isspace_char, in_ranges. simpl.
  repeat match goal with |- context [?a <=? ?b] => destruct (N.leb_spec a b); simpl; try lia end; done.
Qed.

Lemma read_digits_ascii s :
  s ≠ [] → forallb ascii_digit s = true → read_digits s = Some (map (λ c, c - 48) s).
Proof.
  induction s as [|c s IH]; intros Hne Hd; [done|]. cbn [forallb] in Hd.
  apply andb_true_iff in Hd as [Hc Hs]. cbn [read_digits map].
  rewrite (ascii_digit_decimal _ Hc).
  destruct s as [|c' s]; [done|].
  rewrite IH by done. cbn [forallb] in Hs. apply andb_true_iff in Hs as [Hc' _].
  apply ascii_digit_bounds in Hc'.
  destruct c' as [|p]; [lia|]. do 8 (destruct p as [p|p|]; try lia; try done).
Qed.

Lemma lstrip_by_id p s :
  match s with [] => True | c :: _ => p c = false end → lstrip_by p s = s.
Proof. destruct s as [|c s]; [done|]. simpl. by intros ->. Qed.

Lemma strip_no_space s : forallb (λ c, negb (isspace_char c)) s = true → strip s = s.
Proof.
  intros H. unfold strip.
  assert (∀ t, forallb (λ c, negb (isspace_char c)) t = true → lstrip_by isspace_char t = t) as E.
  { intros [|c t]; [done|]. simpl. rewrite andb_true_iff, negb_true_iff. by intros [-> _]. }
  rewrite (E s H), E, reverse_involutive; [done|].
  rewrite forallb_Forall in *. by apply Forall_reverse.
Qed.

Lemma digits_no_space s :
  forallb ascii_digit s = true → forallb (λ c, negb (isspace_char c)) s = true.
Proof.
  rewrite !forallb_Forall. intros H. eapply Forall_impl; [exact H|]. intros c Hc. simpl.
  by rewrite (ascii_digit_not_space _ Hc).
Qed.

Lemma digits_isdigit s : s ≠ [] → forallb ascii_digit s = true → isdigit s = true.
Proof.
  intros Hne Hd. destruct s as [|c s]; [done|]. unfold isdigit.
  rewrite forallb_Forall in *. eapply Forall_impl; [done|]. apply ascii_digit_isdigit.
Qed.

(** [int()] reads a string of ASCII digits as the number it spells. *)
Lemma int_of_digits s :
  s ≠ [] → forallb ascii_digit s = true → (length s <= max_str_digits)%nat →
  int_of_str s = Some (Z.of_N (digits_value (map (λ c, c - 48) s))).
Proof.
  intros Hne Hd Hlen. unfold int_of_str.
  rewrite strip_no_space by by apply digits_no_space.
  destruct s as [|c s]; [done|].
  assert (match c :: s with 45 :: r => (true, r) | 43 :: r => (false, r) | r => (false, r) end
          = (false, c :: s)) as ->.
  { cbn [forallb] in Hd. apply andb_true_iff in Hd as [Hc _]. apply ascii_digit_bounds in Hc.
    destruct c as [|p]; [lia|]. do 8 (destruct p as [p|p|]; try lia; try done). }
  rewrite read_digits_ascii by done. rewrite length_map.
  destruct (Nat.leb_spec (length (c :: s)) max_str_digits); [done|lia].
Qed.

Lemma parse_u64_dec n : (n < 2 ^ 64) → parse_u64 (dec n) = Some (Z.of_N n).
Proof.
  intros Hn. unfold parse_u64. pose proof (dec_digits n) as Hd. pose proof (dec_not_nil n) as Hne.
  pose proof (dec_value n) as Hv.
  assert (match dec n with 43 :: r => r | _ => dec n end = dec n) as ->.
  { destruct (dec n) as [|c s]; [done|]. cbn [forallb] in Hd. apply andb_true_iff in Hd as [Hc _].
    apply ascii_digit_bounds in Hc.
    destruct c as [|p]; [lia|]. do 8 (destruct p as [p|p|]; try lia; try done). }
  destruct (dec n) as [|c s] eqn:E; [done|].
  change (forallb (λ c0, (48 <=? c0) && (c0 <=? 57)) (c :: s)) with (forallb ascii_digit (c :: s)).
  rewrite Hd, Hv. destruct (Z.ltb_spec (Z.of_N n) (2 ^ 64)); [done|lia].
Qed.

(** [int(str(z)) == z] whenever the decimal form is within the interpreter's
    digit limit. *)
Lemma int_of_str_of_int z :
  (length (dec (Z.abs_N z)) <= max_str_digits)%nat → int_of_str (str_of_int z) = Some z.
Proof.
  intros Hlen. unfold str_of_int.
  destruct (Z.ltb_spec z 0) as [Hneg|Hpos].
  - unfold int_of_str. rewrite strip_no_space.
    2:{ cbn [forallb]. rewrite (digits_no_space _ (dec_digits _)). reflexivity. }
    cbv iota. rewrite read_digits_ascii by (apply dec_not_nil || apply dec_digits).
    rewrite length_map.
    destruct (Nat.leb_spec (length (dec (Z.abs_N z))) max_str_digits); [|lia].
    rewrite dec_value. f_equal. lia.
  - replace (Z.abs_N z) with (Z.to_N z) in Hlen by lia.
    rewrite int_of_digits by (apply dec_not_nil || apply dec_digits || done).
    rewrite dec_value. f_equal. lia.
Qed.

(** ** Splitting *)

Lemma partition_split c a b : c ∉ a → partition c (a ++ c :: b) = (a, [c], b).
Proof.
  induction a as [|x a IH]; simpl; intros Hn.
  - by rewrite N.eqb_refl.
  - rewrite not_elem_of_cons in Hn. destruct Hn as [Hx Ha].
    destruct (N.eqb_spec x c); [congruence|]. by rewrite IH.
Qed.

Lemma partition_none c s : c ∉ s → partition c s = (s, [], []).
Proof.
  induction s as [|x s IH]; simpl; intros Hn; [done|].
  rewrite not_elem_of_cons in Hn. destruct Hn as [Hx Hs].
  destruct (N.eqb_spec x c); [congruence|]. by rewrite IH.
Qed.

Lemma rsplit_once_none c s : c ∉ s → rsplit_once c s = None.
Proof.
  induction s as [|x s IH]; simpl; intros Hn; [done|].
  rewrite not_elem_of_cons in Hn. destruct Hn as [Hx Hs]. rewrite IH by done.
  by destruct (N.eqb_spec x c); [congruence|].
Qed.

Lemma rsplit_once_split c a b : c ∉ b → rsplit_once c (a ++ c :: b) = Some (a, b).
Proof.
  intros Hn. induction a as [|x a IH]; simpl.
  - rewrite rsplit_once_none by done. by rewrite N.eqb_refl.
  - by rewrite IH.
Qed.

Lemma digits_not_elem c s :
  forallb ascii_digit s = true → ascii_digit c = false → c ∉ s.
Proof.
  rewrite forallb_Forall, Forall_forall. intros H Hc Hin. specialize (H _ Hin). simpl in H. congruence.
Qed.

Lemma dec_not_elem c n : ascii_digit c = false → c ∉ dec n.
Proof. apply digits_not_elem, dec_digits. Qed.

(** ** Stripping *)

Lemma lstrip_by_suffix p s : ∃ pre, s = pre ++ lstrip_by p s ∧ forallb p pre = true.
Proof.
  induction s as [|c s (pre & IH & Hp)]; simpl; [by exists []|].
  destruct (p c) eqn:Hc; [|by exists []].
  exists (c :: pre). simpl. by rewrite Hc, <-IH.
Qed.

Definition head_not (p : N → bool) (s : pystr) : Prop :=
  match s with [] => True | c :: _ => p c = false end.

Lemma lstrip_by_head p s : head_not p (lstrip_by p s).
Proof. induction s as [|c s IH]; simpl; [done|]. by destruct (p c) eqn:Hc. Qed.

(** A stripped string has no white space at either end, and stripping it again
    changes nothing. *)
Lemma strip_ends s :
  head_not isspace_char (strip s) ∧ head_not isspace_char (reverse (strip s)).
Proof.
  unfold strip. rewrite reverse_involutive. split; [|apply lstrip_by_head].
  destruct (lstrip_by_suffix isspace_char (reverse (lstrip_by isspace_char s))) as (pre & E & _).
  apply (f_equal reverse) in E. rewrite reverse_involutive, reverse_app in E.
  pose proof (lstrip_by_head isspace_char s) as Hh. rewrite E in Hh.
  by destruct (reverse (lstrip_by isspace_char (reverse _))).
Qed.

Lemma strip_id s :
  head_not isspace_char s → head_not isspace_char (reverse s) → strip s = s.
Proof.
  intros H1 H2. unfold strip. rewrite (lstrip_by_id _ s H1), (lstrip_by_id _ _ H2).
  apply reverse_involutive.
Qed.

Lemma strip_strip s : strip (strip s) = strip s.
Proof. destruct (strip_ends s). by apply strip_id. Qed.

(** ** Substrings *)

Lemma startswith_spec p s : startswith p s = true ↔ ∃ t, s = p ++ t.
Proof.
  revert s. induction p as [|a p IH]; intros s; simpl; [naive_solver|].
  destruct s as [|b s]; [split; [done|]; by intros (t & ?)|].
  rewrite andb_true_iff, N.eqb_eq, IH. naive_solver.
Qed.

Lemma contains_spec p s : contains p s = true ↔ ∃ a b, s = a ++ p ++ b.
Proof.
  induction s as [|c s IH]; simpl; rewrite orb_true_iff, startswith_spec.
  - split.
    + intros [[t Ht]|?]; [|done]. by exists [], t.
    + intros (a & b & E). left. exists []. destruct a; [|done]. destruct p; [done|]. done.
  - rewrite IH. split.
    + intros [[t Ht]|(a & b & ->)]; [by exists [], t|by exists (c :: a), b].
    + intros ([|x a] & b & E); simpl in E; simplify_eq; [left; eauto|right; eauto].
Qed.

Lemma contains_char c s : contains [c] s = true ↔ c ∈ s.
Proof.
  rewrite contains_spec. split.
  - intros (a & b & ->). set_solver.
  - intros (a & b & ->)%list_elem_of_split. by exists a, b.
Qed.

#[export] Hint Resolve dec_digits dec_not_nil dec_not_elem : tinyray.
