(* ===== verification/PyFloat.v ===== *)
(** * Python floats

    A Python [float] is an IEEE 754 binary64 number; the model is the
    executable specification [spec_float] of the Standard Library at
    precision 53 and exponent bound 1024, so a product or a difference is
    rounded the way the interpreter rounds it.  [int(x)] and [math.ceil(x)]
    answer exactly, or raise on an infinity and on a NaN. *)

From S2P Require Import Prelude.
From Stdlib Require Import SpecFloat.

Local Open Scope Z_scope.

Notation pyfloat := spec_float.

Definition prec : Z := 53.
Definition emax : Z := 1024.

Definition fmul : pyfloat → pyfloat → pyfloat := SFmul prec emax.
Definition fadd : pyfloat → pyfloat → pyfloat := SFadd prec emax.
Definition fsub : pyfloat → pyfloat → pyfloat := SFsub prec emax.
Definition fzero : pyfloat := S754_zero false.

(** The float nearest to an integer, an infinity when it is too large. *)
Definition round_int (z : Z) : pyfloat := binary_normalize prec emax z 0 false.

Definition f1000 : pyfloat := Eval vm_compute in round_int 1000.

Definition isfinite (x : pyfloat) : bool :=
  match x with S754_zero _ | S754_finite _ _ _ => true | _ => false end.

(** Neither negative nor a NaN: the sign bit is clear, or the value is a zero. *)
Definition nonneg (x : pyfloat) : bool :=
  match x with
  | S754_zero _ => true
  | S754_finite s _ _ | S754_infinity s => negb s
  | S754_nan => false
  end.

(** Why a float has no integer: the exceptions of [int()] and [math.ceil]. *)
Inductive conv_error := ConvNaN | ConvInfinity.

(** [int(x)]: towards zero. *)
Definition trunc (x : pyfloat) : result conv_error Z :=
  match x with
  | S754_zero _ => Ok 0
  | S754_infinity _ => Raise ConvInfinity
  | S754_nan => Raise ConvNaN
  | S754_finite s m e =>
      let v := if 0 <=? e then Z.pos m * 2 ^ e else Z.pos m / 2 ^ (- e) in
      Ok (if s then - v else v)
  end.

(** [math.ceil(x)]: towards positive infinity. *)
Definition ceil (x : pyfloat) : result conv_error Z :=
  match x with
  | S754_zero _ => Ok 0
  | S754_infinity _ => Raise ConvInfinity
  | S754_nan => Raise ConvNaN
  | S754_finite s m e =>
      let v := if s then - Z.pos m else Z.pos m in
      Ok (if 0 <=? e then v * 2 ^ e else - (- v / 2 ^ (- e)))
  end.

(** ** Rounding keeps the sign and never makes a NaN of a non-negative
    mantissa *)

Lemma shr_1_nonneg r : 0 ≤ shr_m r → 0 ≤ shr_m (shr_1 r).
Proof. destruct r as [[|[p|p|]|p] b s]; simpl; lia. Qed.

Lemma iter_pos_nonneg p r : 0 ≤ shr_m r → 0 ≤ shr_m (iter_pos shr_1 p r).
Proof. revert r. induction p as [p IH|p IH|]; simpl; auto using shr_1_nonneg. Qed.

Lemma shr_fexp_nonneg m e l : 0 ≤ m → 0 ≤ shr_m (shr_fexp prec emax m e l).1.
Proof.
  intros Hm. unfold shr_fexp, shr.
  assert (0 ≤ shr_m (shr_record_of_loc m l)) by (destruct l as [|[]]; simpl; lia).
  destruct (_ - e); simpl; auto using iter_pos_nonneg.
Qed.

Lemma round_nearest_even_nonneg m l : 0 ≤ m → 0 ≤ round_nearest_even m l.
Proof. intros. destruct l as [|[]]; simpl; try lia. destruct (Z.even m); lia. Qed.

Lemma binary_round_aux_sign s m e l :
  0 ≤ m → match binary_round_aux prec emax s m e l with
          | S754_zero s' | S754_infinity s' | S754_finite s' _ _ => s' = s
          | S754_nan => False
          end.
Proof.
  intros Hm. unfold binary_round_aux.
  pose proof (shr_fexp_nonneg m e l Hm) as H1.
  destruct (shr_fexp prec emax m e l) as [r1 e1]. simpl in H1.
  pose proof (shr_fexp_nonneg _ e1 loc_Exact
                (round_nearest_even_nonneg _ (loc_of_shr_record r1) H1)) as H2.
  destruct (shr_fexp _ _ _ e1 loc_Exact) as [r2 e2]. simpl in H2.
  destruct (shr_m r2) as [|m2|m2]; [done| |lia].
  by destruct (e2 <=? emax - prec).
Qed.

(** A product of non-negative finite floats is non-negative: possibly an
    infinity, never a NaN. *)
Lemma fmul_nonneg x y :
  isfinite x = true → isfinite y = true → nonneg x = true → nonneg y = true →
  nonneg (fmul x y) = true.
Proof.
  unfold fmul.
  destruct x as [sx|sx| |sx mx ex], y as [sy|sy| |sy my ey]; simpl; try done.
  intros _ _ ->%negb_true_iff ->%negb_true_iff.
  pose proof (binary_round_aux_sign false (Z.pos (mx * my)) (ex + ey) loc_Exact ltac:(lia)) as H.
  change (xorb false false) with false.
  by destruct (binary_round_aux _ _ _ _ _ _); simpl in *; subst.
Qed.

Lemma trunc_nonneg x z : nonneg x = true → trunc x = Ok z → 0 ≤ z.
Proof.
  destruct x as [s|s| |s m e]; simpl; try done; [by intros _ [= <-]|].
  intros ->%negb_true_iff [= <-].
  destruct (Z.leb_spec 0 e); [apply Z.mul_nonneg_nonneg; lia|].
  apply Z.div_pos; [lia|]. apply Z.pow_pos_nonneg; lia.
Qed.

Lemma ceil_nonneg x z : nonneg x = true → ceil x = Ok z → 0 ≤ z.
Proof.
  destruct x as [s|s| |s m e]; simpl; try done; [by intros _ [= <-]|].
  intros ->%negb_true_iff [= <-].
  destruct (Z.leb_spec 0 e); [apply Z.mul_nonneg_nonneg; lia|].
  assert (- Z.pos m / 2 ^ (- e) ≤ 0); [|lia].
  apply Z.div_le_upper_bound; [apply Z.pow_pos_nonneg; lia|lia].
Qed.

(** [x <= 0] fails exactly on the positive numbers and on NaN. *)
Lemma not_leb_zero x : SFleb x fzero = false → x = S754_nan ∨ nonneg x = true ∧ SFltb fzero x = true.
Proof. destruct x as [s|[]| |[] m e]; simpl; auto; done. Qed.

(** [x < 0] is false exactly when [x] is non-negative or a NaN. *)
Lemma not_ltb_zero x : SFltb x fzero = false → x = S754_nan ∨ nonneg x = true.
Proof. destruct x as [s|[]| |[] m e]; simpl; auto; done. Qed.
