(* ===== verification/Text.v ===== *)
(** * Text

    The string methods the project's tools use on whole files --
    [str.count], [str.replace] with a count of one, [str.splitlines],
    [str.split] -- and the size of a text in bytes. *)

From S2P Require Import Prelude PyStr.

Local Open Scope N_scope.

(** Bytes of UTF-8 a code point takes. *)
Definition char_bytes (c : N) : Z :=
  (if (c <? 128)%N then 1 else if (c <? 2048)%N then 2 else if (c <? 65536)%N then 3 else 4)%Z.

(** Rust's [str::len]: bytes of UTF-8. *)
Definition byte_len (s : pystr) : Z := fold_right (λ c n, char_bytes c + n)%Z 0%Z s.

(** Occurrences of [p], the next one looked for after [skip] characters. *)
Fixpoint count_from (p s : pystr) (skip : nat) : nat :=
  match s with
  | [] => 0
  | _ :: s' =>
      match skip with
      | S k => count_from p s' k
      | 0%nat => if startswith p s then S (count_from p s' (pred (length p))) else count_from p s' 0
      end
  end.

(** [s.count(p)]: occurrences that do not overlap. *)
Definition str_count (p s : pystr) : nat :=
  match p with [] => S (length s) | _ => count_from p s 0 end.

(** [s.replace(p, r, 1)] *)
Fixpoint replace_once (p r s : pystr) : pystr :=
  if startswith p s then r ++ drop (length p) s
  else match s with [] => [] | c :: s' => c :: replace_once p r s' end.

(** [s.endswith(p)] *)
Definition endswith (p s : pystr) : bool := startswith (reverse p) (reverse s).

(** The characters that end a line. *)
Definition line_breaks : list N := [10; 11; 12; 13; 28; 29; 30; 133; 8232; 8233].

Definition is_break (c : N) : bool := bool_decide (c ∈ line_breaks).

(** [s.splitlines()]; [cur] is the line read so far, backwards. *)
Fixpoint splitlines_go (cur s : pystr) : list pystr :=
  match s with
  | [] => match cur with [] => [] | _ => [reverse cur] end
  | c :: s' =>
      if is_break c
      then reverse cur :: match s' with
                          | d :: s'' => if (c =? 13) && (d =? 10) then splitlines_go [] s'' else splitlines_go [] s'
                          | [] => []
                          end
      else splitlines_go (c :: cur) s'
  end.

Definition splitlines (s : pystr) : list pystr := splitlines_go [] s.

(** [s.split(c, n)] for a one-character separator. *)
Fixpoint split_max (c : N) (n : nat) (s : pystr) : list pystr :=
  match n with
  | 0%nat => [s]
  | S n' => match partition c s with
            | (a, [], _) => [a]
            | (a, _, b) => a :: split_max c n' b
            end
  end.

(** [a <= b] on strings. *)
Fixpoint str_leb (a b : pystr) : bool :=
  match a, b with
  | [], _ => true
  | _ :: _, [] => false
  | x :: a', y :: b' => (x <? y) || ((x =? y) && str_leb a' b')
  end.

Fixpoint insert_str (x : pystr) (l : list pystr) : list pystr :=
  match l with
  | [] => [x]
  | y :: l' => if str_leb x y then x :: l else y :: insert_str x l'
  end.

(** [sorted] of strings *)
Definition sorted_strs (l : list pystr) : list pystr := fold_right insert_str [] l.

(** ** Facts *)

Lemma startswith_drop p s : startswith p s = true → s = p ++ drop (length p) s.
Proof. intros [t ->]%startswith_spec. by rewrite drop_app_length. Qed.

(** Where there is an occurrence, the first one is replaced. *)
Lemma replace_once_spec p r s :
  contains p s = true →
  ∃ a b, s = a ++ p ++ b ∧ replace_once p r s = a ++ r ++ b ∧ (∀ a' b', s = a' ++ p ++ b' → length a ≤ length a')%nat.
Proof.
  induction s as [|c s IH]; intros Hc.
  - simpl in *. rewrite orb_false_r in Hc. rewrite Hc. apply startswith_drop in Hc as He.
    exists [], (drop (length p) []). split_and!; [done|done|]. intros. simpl. lia.
  - cbn [replace_once contains] in *. destruct (startswith p (c :: s)) eqn:Hs.
    + exists [], (drop (length p) (c :: s)). split_and!; [by apply startswith_drop|done|]. intros. simpl. lia.
    + simpl in Hc. destruct (IH Hc) as (a & b & Hab & Hr & Hfirst). exists (c :: a), b.
      split_and!; [by rewrite Hab|by rewrite Hr|]. intros [|c' a'] b' Ha'.
      * exfalso. enough (startswith p (c :: s) = true) by congruence. apply startswith_spec. by exists b'.
      * injection Ha' as <- Ha'. simpl. apply le_n_S. by apply (Hfirst a' b').
Qed.

Lemma count_from_contains p s k : count_from p s k ≠ 0%nat → contains p s = true.
Proof.
  revert k. induction s as [|c s IH]; intros k Hk; [done|]. cbn [count_from contains] in *.
  destruct k as [|k]; [destruct (startswith p (c :: s)); [done|]|]; apply orb_true_iff; right; by eapply IH.
Qed.

Lemma str_count_contains p s : str_count p s ≠ 0%nat → contains p s = true.
Proof. destruct p as [|x p]; [by destruct s|]. apply count_from_contains. Qed.

Lemma sorted_strs_perm l : sorted_strs l ≡ₚ l.
Proof.
  assert (∀ x k, insert_str x k ≡ₚ x :: k) as Hi.
  { intros x k. induction k as [|y k IH]; simpl; [done|]. destruct (str_leb x y); [done|].
    rewrite IH. apply perm_swap. }
  induction l as [|x l IH]; [done|]. simpl. by rewrite Hi, IH.
Qed.

(** No line holds a character that ends one. *)
Lemma splitlines_go_no_break cur s :
  Forall (λ c, is_break c = false) cur → Forall (Forall (λ c, is_break c = false)) (splitlines_go cur s).
Proof.
  intros Hcur. remember (length s) as n eqn:Hn. revert cur s Hn Hcur.
  induction (lt_wf n) as [n _ IH]. intros cur s -> Hcur.
  destruct s as [|c s]; cbn [splitlines_go].
  - destruct cur; [done|]. apply Forall_singleton. by apply Forall_reverse.
  - destruct (is_break c) eqn:Hb.
    + apply Forall_cons. split; [by apply Forall_reverse|]. destruct s as [|d s]; [done|].
      destruct (_ && _); (eapply IH; [|reflexivity|done]); simpl; lia.
    + eapply IH; [|reflexivity|by apply Forall_cons]. simpl. lia.
Qed.
