(* ===== verification/Errors.v ===== *)
(** * Values and exceptions

    Python values as the RPC layer passes them around, and the exception
    classes of [_errors.py] in their place among the builtin ones, so that
    an [except] clause is the subclass test it is in Python.  The message
    text of an exception is not modelled: no code branches on it.  What the
    code does read is: [RemoteError]'s three attributes and [BatchError]'s
    index, results and cause. *)

From S2P Require Import Prelude PyStr PyFloat.

Local Open Scope Z_scope.

(** ** Values *)

Inductive pyval : Type :=
| VNone
| VBool (b : bool)
| VInt (z : Z)
| VFloat (x : pyfloat)
| VStr (s : pystr)
| VBytes (b : list N)
| VList (l : list pyval)
| VTuple (l : list pyval)
| VSet (l : list pyval)
| VFrozenset (l : list pyval)
| VDict (kvs : list (pyval * pyval))
| VExt (code : Z) (data : list N)
| VBlobRef (o : Z)
| VObject (o : Z).

(** Induction through the containers. *)
Section PyvalInd.
Context (P : pyval → Prop).
Context (Hnone : P VNone) (Hbool : ∀ b, P (VBool b)) (Hint : ∀ z, P (VInt z))
  (Hfloat : ∀ x, P (VFloat x)) (Hstr : ∀ s, P (VStr s)) (Hbytes : ∀ b, P (VBytes b))
  (Hlist : ∀ l, Forall P l → P (VList l)) (Htuple : ∀ l, Forall P l → P (VTuple l))
  (Hset : ∀ l, Forall P l → P (VSet l)) (Hfrozenset : ∀ l, Forall P l → P (VFrozenset l))
  (Hdict : ∀ kvs, Forall (λ kv, P kv.1 ∧ P kv.2) kvs → P (VDict kvs))
  (Hext : ∀ c d, P (VExt c d)) (Hblob : ∀ o, P (VBlobRef o)) (Hobject : ∀ o, P (VObject o)).

Fixpoint pyval_nested_ind (v : pyval) : P v :=
  let all := fix go (l : list pyval) : Forall P l :=
    match l with
    | [] => Forall_nil_2 _
    | x :: l' => Forall_cons_2 _ _ _ (pyval_nested_ind x) (go l')
    end in
  match v with
  | VNone => Hnone
  | VBool b => Hbool b
  | VInt z => Hint z
  | VFloat x => Hfloat x
  | VStr s => Hstr s
  | VBytes b => Hbytes b
  | VList l => Hlist l (all l)
  | VTuple l => Htuple l (all l)
  | VSet l => Hset l (all l)
  | VFrozenset l => Hfrozenset l (all l)
  | VDict kvs => Hdict kvs
      ((fix go (kvs : list (pyval * pyval)) : Forall (λ kv, P kv.1 ∧ P kv.2) kvs :=
          match kvs with
          | [] => Forall_nil_2 _
          | kv :: kvs' => Forall_cons_2 _ _ _
              (conj (pyval_nested_ind kv.1) (pyval_nested_ind kv.2)) (go kvs')
          end) kvs)
  | VExt c d => Hext c d
  | VBlobRef o => Hblob o
  | VObject o => Hobject o
  end.
End PyvalInd.

(** [d.get(key)] for a string key: dicts keep insertion order. *)
Fixpoint dict_get (key : pystr) (kvs : list (pyval * pyval)) : option pyval :=
  match kvs with
  | [] => None
  | (VStr k, v) :: kvs' => if bool_decide (k = key) then Some v else dict_get key kvs'
  | _ :: kvs' => dict_get key kvs'
  end.

Definition is_str (v : pyval) : bool := match v with VStr _ => true | _ => false end.

(** [set(d) <= keys] for a set of strings. *)
Definition keys_within (kvs : list (pyval * pyval)) (keys : list pystr) : bool :=
  forallb (λ kv, match kv.1 with VStr k => bool_decide (k ∈ keys) | _ => false end) kvs.

(** [set(d) == keys]. *)
Definition keys_are (kvs : list (pyval * pyval)) (keys : list pystr) : bool :=
  keys_within kvs keys && forallb (λ k, bool_decide (is_Some (dict_get k kvs))) keys.

(** ** Exception classes *)

Inductive exc_class : Type :=
(* builtins *)
| BaseException | Exception | CancelledError | KeyboardInterrupt | FuturesCancelledError
| TypeError | AttributeError | AssertionError | LookupError | KeyError | IndexError
| ValueError | UnicodeError | ArithmeticError | OverflowError
| RuntimeError | RecursionError | OSError | TimeoutError | StopIteration
| Warning | UserWarning
(* msgspec and argparse *)
| MsgspecError | DecodeError | ValidationError | ArgumentTypeError
(* the extension module, and _msgpack.py's own signal *)
| BlobError | BlobScopeRequired
(* _errors.py *)
| TinyrayError | Unreachable | NotDelivered | OutcomeUnknown | Fenced
| RemoteError | BatchError | Stale | SeatTaken | NotFound | PolicyError
| OversizeWarning | OldRegistryWarning.

#[global] Instance exc_class_eq_dec : EqDecision exc_class.
Proof. solve_decision. Defined.

(** The base class in each class statement. *)
Definition base_of (c : exc_class) : option exc_class :=
  match c with
  | BaseException => None
  | Exception | CancelledError | KeyboardInterrupt => Some BaseException
  | TypeError | AttributeError | AssertionError | LookupError | ValueError
  | ArithmeticError | RuntimeError | OSError | StopIteration | Warning
  | FuturesCancelledError | MsgspecError | ArgumentTypeError | BlobScopeRequired => Some Exception
  | KeyError | IndexError => Some LookupError
  | UnicodeError => Some ValueError
  | OverflowError => Some ArithmeticError
  | RecursionError | BlobError => Some RuntimeError
  | TimeoutError => Some OSError
  | UserWarning => Some Warning
  | DecodeError => Some MsgspecError
  | ValidationError => Some DecodeError
  | TinyrayError => Some Exception
  | Unreachable | Fenced | RemoteError | BatchError | Stale | SeatTaken => Some TinyrayError
  | NotDelivered | OutcomeUnknown => Some Unreachable
  | NotFound => Some LookupError
  | PolicyError => Some ValueError
  | OversizeWarning | OldRegistryWarning => Some UserWarning
  end.

(** How far a class is from the root: the walk below ends. *)
Definition class_depth : nat := 6.

Fixpoint subclass_go (fuel : nat) (c d : exc_class) : bool :=
  bool_decide (c = d) ||
  match fuel, base_of c with
  | S f, Some b => subclass_go f b d
  | _, _ => false
  end.

(** [issubclass(c, d)] *)
Definition issubclass (c d : exc_class) : bool := subclass_go class_depth c d.

(** ** Exceptions *)

Inductive exn : Type :=
| Exc (c : exc_class)
| RemoteExc (type_name message traceback : pystr)
| BatchExc (failed_index : Z) (completed_results : list pyval) (cause : exn).

Definition class_of (e : exn) : exc_class :=
  match e with
  | Exc c => c
  | RemoteExc _ _ _ => RemoteError
  | BatchExc _ _ _ => BatchError
  end.

(** [except (c1, c2, ...)] *)
Definition matches (cs : list exc_class) (e : exn) : bool :=
  existsb (issubclass (class_of e)) cs.

#[global] Arguments matches : simpl never.
#[global] Arguments issubclass : simpl never.

Notation res := (result exn).

(** [except cs as e: h e] *)
Definition except {A} (cs : list exc_class) (h : exn → res A) (m : res A) : res A :=
  catch m (λ e, if matches cs e then Some (h e) else None).

Lemma except_ok {A} cs h (m : res A) a :
  except cs h m = Ok a ↔ m = Ok a ∨ ∃ e, m = Raise e ∧ matches cs e = true ∧ h e = Ok a.
Proof.
  unfold except, catch. split.
  - destruct m as [b|e]; simpl; [by left|].
    destruct (matches cs e) eqn:Hm; simpl; [|done]. intros H. right. by exists e.
  - intros [->|(e & -> & Hm & H)]; [done|]. by rewrite Hm.
Qed.

(** The subclass test follows the base class, so a class is a subclass of
    its bases' bases. *)
Lemma issubclass_base c b d : base_of c = Some b → issubclass b d = true → issubclass c d = true.
Proof. destruct c, d; simpl; intros [= <-]; vm_compute; done. Qed.

(** Only [NotDelivered] says that nothing ran; [except Unreachable] also
    catches [OutcomeUnknown], and neither subclass catches the other. *)
Lemma retry_classes_apart c :
  issubclass c NotDelivered = true → issubclass c OutcomeUnknown = true → False.
Proof. destruct c; vm_compute; done. Qed.
