(* ===== verification/Identity.v ===== *)
(** * Identities: the fencing token and its readers

    [_identity] of [__init__.py] writes [pool/seat#tenure]; three readers take
    it apart again: [_seat_of] of [__init__.py], [CallContext] of [_serve.py]
    and [identity_parts] of the native cache.  [_checked_pool_name] is the one
    gate on the pool part. *)

From S2P Require Import Prelude PyStr Errors.

Local Open Scope Z_scope.

(** Separators. *)
Definition slash : N := 47.
Definition hash_sign : N := 35.

(** [f"{pool}/{slot if slot is not None else ident}#{incarnation}"] *)
Definition _identity (pool : pystr) (slot : option Z) (ident incarnation : Z) : pystr :=
  pool ++ slash :: str_of_int (default ident slot) ++ hash_sign :: str_of_int incarnation.

(** [_seat_of]: the seat number out of [pool/slot#tenure]. *)
Definition _seat_of (identity : pystr) : res Z :=
  let '(_, _, rest) := partition slash identity in
  let '(seat, _, _) := partition hash_sign rest in
  if negb (isdigit seat) then Raise (Exc ValueError)
  else match int_of_str seat with Some z => Ok z | None => Raise (Exc ValueError) end.

(** [class CallContext] *)
Record call_context := CallContext {
  cc_identity : pystr;
  cc_pool : pystr;
  cc_slot : option Z;
  cc_incarnation : Z;
  cc_request_id : pystr
}.

(** [int(s) if s.isdigit() else other]: [int] still refuses the digits that are
    not decimal. *)
Definition int_if_digits {A} (s : pystr) (f : Z → A) (other : A) : res A :=
  if isdigit s
  then match int_of_str s with Some z => Ok (f z) | None => Raise (Exc ValueError) end
  else Ok other.

(** [CallContext.__init__] *)
Definition new_call_context (identity request_id : pystr) : res call_context :=
  let '(pool, _, rest) := partition slash identity in
  let '(seat, _, tenure) := partition hash_sign rest in
  slot ← int_if_digits seat Some None;
  incarnation ← int_if_digits tenure id 0;
  Ok {| cc_identity := identity; cc_pool := pool; cc_slot := slot;
        cc_incarnation := incarnation; cc_request_id := request_id |}.

(** [identity_parts] of the native cache: split at the last [#], then at the
    last [/] before it. *)
Definition identity_parts (identity : pystr) : option (pystr * Z * Z) :=
  match rsplit_once hash_sign identity with
  | None => None
  | Some (head, incarnation) =>
      match rsplit_once slash head with
      | None => None
      | Some (pool, key) =>
          match parse_u64 key, parse_u64 incarnation with
          | Some k, Some i => Some (pool, k, i)
          | _, _ => None
          end
      end
  end.

(** [_checked_pool_name] *)
Definition _checked_pool_name (name : pystr) : res pystr :=
  match name with
  | [] => Raise (Exc ValueError)
  | _ => if negb (isascii name) || has_control name then Raise (Exc ValueError) else Ok name
  end.

(** A seat, an id or a tenure as the wire carries it: an unsigned 64-bit
    integer. *)
Definition is_u64 (z : Z) : bool := (0 <=? z) && (z <? 2 ^ 64).

(** ** Reading back what was written *)

Lemma str_of_nonneg z : 0 ≤ z → str_of_int z = dec (Z.to_N z).
Proof. intros Hz. unfold str_of_int. by destruct (Z.ltb_spec z 0); [lia|]. Qed.

Lemma u64_digits z : is_u64 z = true → (length (dec (Z.to_N z)) <= 20)%nat.
Proof.
  unfold is_u64. rewrite andb_true_iff, Z.leb_le, Z.ltb_lt. intros [H0 H1].
  apply dec_length; [lia|]. apply N.lt_trans with (2 ^ 64)%N; [lia|reflexivity].
Qed.

Lemma int_of_u64 z : is_u64 z = true → int_of_str (str_of_int z) = Some z.
Proof.
  intros Hz. pose proof (u64_digits z Hz).
  unfold is_u64 in Hz. rewrite andb_true_iff, Z.leb_le, Z.ltb_lt in Hz.
  apply int_of_str_of_int. replace (Z.abs_N z) with (Z.to_N z) by lia.
  unfold max_str_digits. lia.
Qed.

Lemma u64_isdigit z : is_u64 z = true → isdigit (str_of_int z) = true.
Proof.
  unfold is_u64. rewrite andb_true_iff, Z.leb_le. intros [Hz _].
  rewrite str_of_nonneg by done. apply digits_isdigit; auto with tinyray.
Qed.

Lemma nonneg_str_not_elem c z : 0 ≤ z → ascii_digit c = false → c ∉ str_of_int z.
Proof. intros Hz Hc. rewrite str_of_nonneg by done. by apply dec_not_elem. Qed.

Lemma is_u64_nonneg z : is_u64 z = true → 0 ≤ z.
Proof. unfold is_u64. rewrite andb_true_iff, Z.leb_le. tauto. Qed.

#[export] Hint Resolve is_u64_nonneg nonneg_str_not_elem : tinyray.

Section Readers.
Context (pool : pystr) (slot : option Z) (ident incarnation : Z).
Notation key := (default ident slot).
Context (Hkey : is_u64 key = true) (Hinc : is_u64 incarnation = true).

(** Split at the first slash, when the pool name has none. *)
Lemma identity_partition :
  slash ∉ pool →
  partition slash (_identity pool slot ident incarnation)
  = (pool, [slash], str_of_int key ++ hash_sign :: str_of_int incarnation).
Proof. intros Hp. unfold _identity. by rewrite partition_split. Qed.

Lemma identity_seat_partition :
  partition hash_sign (str_of_int key ++ hash_sign :: str_of_int incarnation)
  = (str_of_int key, [hash_sign], str_of_int incarnation).
Proof using Hkey. apply partition_split. by apply nonneg_str_not_elem; auto with tinyray. Qed.

Lemma identity_parts_ok :
  identity_parts (_identity pool slot ident incarnation) = Some (pool, key, incarnation).
Proof using Hkey Hinc.
  unfold identity_parts, _identity.
  rewrite app_comm_cons, app_assoc.
  rewrite rsplit_once_split by (apply nonneg_str_not_elem; auto with tinyray).
  rewrite rsplit_once_split by (apply nonneg_str_not_elem; auto with tinyray).
  pose proof (is_u64_nonneg _ Hkey) as H1. pose proof (is_u64_nonneg _ Hinc) as H2.
  rewrite !str_of_nonneg by done.
  unfold is_u64 in Hkey, Hinc. rewrite andb_true_iff, Z.ltb_lt in Hkey, Hinc.
  rewrite !parse_u64_dec by lia. by rewrite !Z2N.id.
Qed.
End Readers.

(** The first slash of a string that has one. *)
Lemma partition_first c s :
  c ∈ s → ∃ a b, s = a ++ c :: b ∧ c ∉ a ∧ partition c s = (a, [c], b).
Proof.
  induction s as [|x s IH]; intros Hin; [by apply not_elem_of_nil in Hin|].
  destruct (decide (x = c)) as [->|Hne].
  - exists [], s. simpl. rewrite N.eqb_refl. split_and!; [done|apply not_elem_of_nil|done].
  - destruct IH as (a & b & -> & Ha & Hp); [set_solver|].
    exists (x :: a), b. simpl. destruct (N.eqb_spec x c); [done|].
    rewrite Hp. split_and!; [done|set_solver|done].
Qed.

(** ** Properties *)

(** Whoever answers a call reads the caller's identity back: for a pool
    name without a slash, [CallContext] recovers the pool, the seat (or the id
    that stands for it) and the tenure that [_identity] wrote. *)
Theorem call_context_roundtrip (pool request_id : pystr) (slot : option Z) (ident incarnation : Z) :
  slash ∉ pool → is_u64 (default ident slot) = true → is_u64 incarnation = true →
  new_call_context (_identity pool slot ident incarnation) request_id
  = Ok {| cc_identity := _identity pool slot ident incarnation;
          cc_pool := pool; cc_slot := Some (default ident slot);
          cc_incarnation := incarnation; cc_request_id := request_id |}.
Proof.
  intros Hp Hk Hi. unfold new_call_context, int_if_digits.
  rewrite identity_partition, identity_seat_partition by done.
  by rewrite !u64_isdigit, !int_of_u64.
Qed.

Lemma call_context_roundtrip_witness :
  new_call_context (u "worker/3#1874") (u "r")
  = Ok {| cc_identity := u "worker/3#1874"; cc_pool := u "worker"; cc_slot := Some 3;
          cc_incarnation := 1874; cc_request_id := u "r" |}.
Proof.
  apply (call_context_roundtrip (u "worker") (u "r") (Some 3) 9 1874);
    [vm_compute; set_solver|reflexivity|reflexivity].
Defined.

(** The fencing token names one tenure: two equal identities have the same
    pool, the same seat and the same tenure, whatever characters the pool
    names hold. *)
Theorem identity_injective (p1 p2 : pystr) (s1 s2 : option Z) (i1 i2 n1 n2 : Z) :
  is_u64 (default i1 s1) = true → is_u64 n1 = true →
  is_u64 (default i2 s2) = true → is_u64 n2 = true →
  _identity p1 s1 i1 n1 = _identity p2 s2 i2 n2 →
  p1 = p2 ∧ default i1 s1 = default i2 s2 ∧ n1 = n2.
Proof.
  intros Hk1 Hn1 Hk2 Hn2 Heq.
  pose proof (identity_parts_ok p1 s1 i1 n1 Hk1 Hn1) as H1.
  rewrite Heq, (identity_parts_ok p2 s2 i2 n2 Hk2 Hn2) in H1. by simplify_eq.
Qed.

Lemma identity_injective_witness :
  u "a/b" = u "a/b" ∧ default 4 (Some 7) = default 7 None ∧ 9 = 9.
Proof.
  apply (identity_injective (u "a/b") (u "a/b") (Some 7) None 4 7 9 9);
    reflexivity.
Defined.

(** The native cache and [_seat_of] read the same seat: for a pool name
    without a slash, both recover the seat that was written. *)
Theorem seat_readers_agree (pool : pystr) (slot : option Z) (ident incarnation : Z) :
  slash ∉ pool → is_u64 (default ident slot) = true → is_u64 incarnation = true →
  _seat_of (_identity pool slot ident incarnation) = Ok (default ident slot) ∧
  identity_parts (_identity pool slot ident incarnation)
  = Some (pool, default ident slot, incarnation).
Proof.
  intros Hp Hk Hi. split; [|by apply identity_parts_ok].
  unfold _seat_of. rewrite identity_partition, identity_seat_partition by done.
  by rewrite u64_isdigit, int_of_u64.
Qed.

Lemma seat_readers_agree_witness :
  _seat_of (u "trainer/0#5") = Ok 0 ∧ identity_parts (u "trainer/0#5") = Some (u "trainer", 0, 5).
Proof.
  apply (seat_readers_agree (u "trainer") (Some 0) 3 5);
    [vm_compute; set_solver|reflexivity|reflexivity].
Defined.

(** A pool name with a slash passes [_checked_pool_name] but
    not its readers: [CallContext] never attributes a call to the pool that
    made it. *)
Theorem slash_pool_misread (pool request_id : pystr) (slot : option Z) (ident incarnation : Z)
    (cc : call_context) :
  slash ∈ pool →
  new_call_context (_identity pool slot ident incarnation) request_id = Ok cc →
  cc_pool cc ≠ pool.
Proof.
  intros Hin. unfold new_call_context, _identity.
  destruct (partition_first slash pool Hin) as (a & b & -> & Ha & _).
  rewrite <-(app_assoc a), <-app_comm_cons.
  rewrite partition_split by done.
  destruct (partition hash_sign _) as [[seat sep] tenure].
  intros H. simplify_res. simpl.
  intros Heq. apply (f_equal length) in Heq. rewrite length_app in Heq. simpl in Heq. lia.
Qed.

Lemma slash_pool_misread_witness :
  _checked_pool_name (u "a/b") = Ok (u "a/b") ∧
  ∃ cc, new_call_context (_identity (u "a/b") (Some 3) 0 7) [] = Ok cc ∧
        cc_pool cc ≠ u "a/b" ∧ cc_slot cc = None ∧
        _seat_of (_identity (u "a/b") (Some 3) 0 7) = Raise (Exc ValueError).
Proof.
  split; [reflexivity|]. eexists. split; [vm_compute; reflexivity|].
  split; [|split; reflexivity].
  apply (slash_pool_misread (u "a/b") [] (Some 3) 0 7); [vm_compute; set_solver|vm_compute; reflexivity].
Defined.

(** For a caller without a seat, [CallContext.slot] is not [None]: it is
    the random id that stands in the identity for the missing seat. *)
Theorem seatless_caller_has_slot (pool request_id : pystr) (ident incarnation : Z) :
  slash ∉ pool → is_u64 ident = true → is_u64 incarnation = true →
  ∃ cc, new_call_context (_identity pool None ident incarnation) request_id = Ok cc ∧
        cc_slot cc = Some ident.
Proof.
  intros Hp Hk Hi. unfold new_call_context, int_if_digits.
  rewrite identity_partition, identity_seat_partition by done.
  rewrite !u64_isdigit, !int_of_u64 by done. eexists. split; reflexivity.
Qed.

Lemma seatless_caller_has_slot_witness :
  ∃ cc, new_call_context (_identity (u "engine") None 81985529216486895 5) [] = Ok cc ∧
        cc_slot cc = Some 81985529216486895.
Proof.
  apply (seatless_caller_has_slot (u "engine") [] 81985529216486895 5);
    [vm_compute; set_solver|reflexivity|reflexivity].
Defined.

(** The accepted pool names are the non-empty printable ASCII strings. *)
Lemma checked_pool_name_spec (name : pystr) :
  is_ok (_checked_pool_name name) = true ↔
  name ≠ [] ∧ Forall (λ c, 32 ≤ c ≤ 126)%N name.
Proof.
  unfold _checked_pool_name. destruct name as [|c s]; [naive_solver|].
  set (l := c :: s). destruct (negb (isascii l) || has_control l) eqn:E; simpl.
  - split; [done|]. intros [_ HF]. exfalso. rewrite Forall_forall in HF.
    apply orb_true_iff in E as [E|E].
    + apply negb_true_iff in E. assert (isascii l = true); [|congruence].
      apply forallb_Forall, Forall_forall. intros x Hx. apply N.ltb_lt. specialize (HF x Hx). lia.
    + apply existsb_Exists, Exists_exists in E as (x & Hx & E). specialize (HF x Hx).
      apply orb_true_iff in E as [E%N.ltb_lt|E%N.eqb_eq]; lia.
  - split; [|done]. intros _. split; [done|].
    apply orb_false_iff in E as [E1 E2]. apply negb_false_iff in E1.
    apply forallb_Forall in E1. rewrite Forall_forall in E1. apply Forall_forall. intros x Hx.
    specialize (E1 x Hx). apply N.ltb_lt in E1.
    destruct ((x <? 32)%N || (x =? 127)%N) eqn:Ex.
    + assert (has_control l = true); [|congruence].
      apply existsb_Exists, Exists_exists. eauto.
    + apply orb_false_iff in Ex as [Ex1%N.ltb_ge Ex2%N.eqb_neq]. lia.
Qed.
