(* ===== verification/Config.v ===== *)
(** * Configuration: addresses, launcher variables, and the registry command

    The checks of [__init__.py] on what the environment and the caller of
    [join()] give it ([_endpoint], [_advertise], [_checked_method_endpoint],
    [_from_env], [_native_seat], [_native_threshold], [RegistryInfo]), the
    endpoint check [_rpc.py] makes before a call, and the [tinyray] command
    of [registry.py]. *)

From S2P Require Import Prelude PyStr PyFloat Errors Identity.
From Stdlib Require Import SpecFloat.

Local Open Scope Z_scope.

(** [os.environ] *)
Notation environ := (gmap pystr pystr).

Definition colon : N := 58.
Definition comma : N := 44.
Definition space : N := 32.
Definition scheme : pystr := u "://".

(** ** Addresses *)

(** [_endpoint]: where the registry is. *)
Definition _endpoint (env : environ) (explicit : option pystr) : res pystr :=
  let raw := match explicit with
             | Some e => e
             | None => default (u "127.0.0.1:8760") (env !! u "TINYRAY_REGISTRY")
             end in
  let raw := strip raw in
  match raw with
  | [] => Raise (Exc ValueError)
  | _ => if contains [comma] raw then Raise (Exc ValueError)
         else if contains scheme raw then Raise (Exc ValueError)
         else Ok raw
  end.

(** [_advertise]: the address peers should use; [probe] is what the routing
    table answers, [None] for the [OSError]. *)
Definition _advertise (env : environ) (probe : option pystr) : res pystr :=
  match default [] (env !! u "TINYRAY_ADVERTISE") with
  | [] => match probe with Some a => Ok a | None => Raise (Exc RuntimeError) end
  | explicit =>
      let host := strip explicit in
      match host with
      | [] => Raise (Exc ValueError)
      | _ => if existsb (λ c, bool_decide (c ∈ host)) [slash; colon; space]
             then Raise (Exc ValueError) else Ok host
      end
  end.

(** [_checked_method_endpoint] *)
Definition _checked_method_endpoint (endpoint : pystr) : res pystr :=
  let endpoint := strip endpoint in
  match endpoint with
  | [] => Raise (Exc ValueError)
  | _ => if contains scheme endpoint then Raise (Exc ValueError)
         else if contains [comma] endpoint || negb (contains [colon] endpoint)
         then Raise (Exc ValueError)
         else Ok endpoint
  end.

(** [_rpc._endpoint]: what a caller demands of the address it was given. *)
Definition rpc_endpoint (url : option pystr) : res pystr :=
  match url with
  | None => Raise (Exc NotDelivered)
  | Some endpoint =>
      if contains scheme endpoint then Raise (Exc NotDelivered)
      else if bool_decide (endpoint = []) || bool_decide (strip endpoint ≠ endpoint)
              || negb (contains [colon] endpoint)
      then Raise (Exc NotDelivered)
      else Ok endpoint
  end.

(** [MethodServer.url]: the advertised host and the listener's port. *)
Definition server_url (advertise : pystr) (port : Z) : pystr :=
  advertise ++ colon :: str_of_int port.

(** ** Seats and sizes *)

Definition _MAX_SEAT : Z := 2 ^ 63 - 1.

(** [_from_env] *)
Fixpoint _from_env (env : environ) (names : list pystr) : res (option Z) :=
  match names with
  | [] => Ok None
  | n :: names' =>
      match env !! n with
      | None => _from_env env names'
      | Some v =>
          let raw := strip v in
          if negb (isdigit (lstrip_chars (u "-") raw)) then _from_env env names'
          else match int_of_str raw with
               | None => Raise (Exc ValueError)
               | Some got => if (0 <=? got) && (got <=? _MAX_SEAT) then Ok (Some got)
                             else Raise (Exc ValueError)
               end
      end
  end.

(** [seat == value] for a float: the float is that integer. *)
Definition float_is_int (x : pyfloat) (z : Z) : bool :=
  match x with
  | S754_zero _ => z =? 0
  | S754_finite s m e =>
      let v := if s then - Z.pos m else Z.pos m in
      if 0 <=? e then z =? v * 2 ^ e else z * 2 ^ (- e) =? v
  | _ => false
  end.

(** [_native_seat]: the values [int()] refuses and the ones that are not the
    integer it makes of them name no seat. *)
Definition _native_seat (value : pyval) : option Z :=
  let in_range z := if (0 <=? z) && (z <? 2 ^ 64) then Some z else None in
  match value with
  | VInt z => in_range z
  | VBool b => in_range (if b then 1 else 0)
  | VFloat x => match trunc x with
                | Ok z => if float_is_int x z then in_range z else None
                | Raise _ => None
                end
  | _ => None
  end.

(** [_native_threshold]: clamped to an [i128]. *)
Definition _native_threshold (value : Z) : Z :=
  Z.max (- 2 ^ 127) (Z.min (2 ^ 127 - 1) value).

(** ** What the registry can do *)

Record registry_info := RegistryInfo { ri_protocol : Z; ri_version : pystr }.

Definition FEATURES : list (pystr * Z) :=
  [(u "long_poll", 1); (u "publication_ordering", 2); (u "native_registry", 3)].

(** [FEATURES.get(feature)] *)
Definition feature_protocol (feature : pystr) : option Z :=
  snd <$> List.find (λ f, bool_decide (f.1 = feature)) FEATURES.

(** [RegistryInfo.supports] *)
Definition supports (ri : registry_info) (feature : pystr) : res bool :=
  match feature_protocol feature with
  | None => Raise (Exc ValueError)
  | Some want => Ok (want <=? ri_protocol ri)
  end.

(** ** The [tinyray] command *)

Definition _not_a_length {A} (text : pystr) : res A := Raise (Exc ArgumentTypeError).

(** [_lease_ms] *)
Definition _lease_ms (text : pystr) : res Z :=
  ms ← (if isdigit (lstrip_chars (u "+-") text)
        then match int_of_str text with Some z => Ok z | None => Raise (Exc ValueError) end
        else _not_a_length text);
  if ms <? 0 then _not_a_length text else Ok ms.

(** How the process ends: [main] returned a code, [argparse] exited, or an
    exception escaped as a traceback. *)
Inductive ending := Returned (code : Z) | Exited (code : Z) | Traceback (e : exn).

(** The extension function: its second argument is an unsigned 64-bit integer. *)
Definition serve_registry (run : pystr → Z → res unit) (listen : pystr) (ttl_ms : Z) : res unit :=
  if is_u64 ttl_ms then run listen ttl_ms else Raise (Exc OverflowError).

(** [main]: [listen] and [ttl] are the texts of the two options, when given. *)
Definition registry_main (run : pystr → Z → res unit) (listen ttl : option pystr) : ending :=
  let ttl_ms := match ttl with None => Ok 20000 | Some text => _lease_ms text end in
  match ttl_ms with
  | Raise e => if matches [ArgumentTypeError; TypeError; ValueError] e then Exited 2 else Traceback e
  | Ok ms =>
      match serve_registry run (default (u "127.0.0.1:8760") listen) ms with
      | Ok _ => Returned 0
      | Raise e => if matches [KeyboardInterrupt] e then Returned 0
                   else if matches [OSError; ValueError; RuntimeError] e then Returned 2
                   else Traceback e
      end
  end.

(** ** Properties *)

Lemma endpoint_accepted env explicit e :
  _endpoint env explicit = Ok e →
  ∃ raw, e = strip raw ∧ e ≠ [] ∧ contains [comma] e = false ∧ contains scheme e = false.
Proof.
  unfold _endpoint. set (raw := match explicit with Some e => e | None => _ end).
  intros H. exists raw. revert H. cbv zeta. destruct (strip raw) as [|c r] eqn:E; [done|].
  destruct (contains [comma] (c :: r)) eqn:E1; [done|].
  destruct (contains scheme (c :: r)) eqn:E2; [done|]. intros [= <-]. auto.
Qed.

(** The registry address that [join()] dials and reports is one bare
    address: not empty, no white space at its ends, no list, no URL; and
    passing it on as [registry_url=] dials the same one. *)
Theorem endpoint_normal (env : environ) (explicit : option pystr) (e : pystr) :
  _endpoint env explicit = Ok e →
  e ≠ [] ∧ strip e = e ∧ comma ∉ e ∧ contains scheme e = false ∧
  ∀ env', _endpoint env' (Some e) = Ok e.
Proof.
  intros (raw & -> & Hne & Hc & Hs)%endpoint_accepted.
  split_and!; [done|apply strip_strip| |done|].
  - rewrite <-contains_char. congruence.
  - intros env'. unfold _endpoint. rewrite strip_strip. destruct (strip raw) as [|c r] eqn:E; [done|].
    by rewrite Hc, Hs.
Qed.

Lemma endpoint_normal_witness :
  u "h:1" ≠ [] ∧ strip (u "h:1") = u "h:1" ∧ comma ∉ u "h:1" ∧ contains scheme (u "h:1") = false ∧
  ∀ env', _endpoint env' (Some (u "h:1")) = Ok (u "h:1").
Proof. apply (endpoint_normal ∅ (Some (u " h:1 "))). vm_compute. reflexivity. Defined.

Lemma checked_endpoint_callable url e :
  _checked_method_endpoint url = Ok e → rpc_endpoint (Some e) = Ok e.
Proof.
  unfold _checked_method_endpoint, rpc_endpoint.
  pose proof (strip_strip url) as Hss. destruct (strip url) as [|c r] eqn:E; [done|].
  destruct (contains scheme (c :: r)) eqn:E1; [done|].
  destruct (contains [comma] (c :: r)); [done|].
  destruct (contains [colon] (c :: r)) eqn:E2; simpl; [|done].
  intros [= <-]. rewrite E1, E2, Hss.
  by rewrite bool_decide_eq_false_2, bool_decide_eq_false_2 by auto.
Qed.

Lemma server_url_callable host port :
  host ≠ [] → slash ∉ host → head_not isspace_char host → 0 ≤ port →
  rpc_endpoint (Some (server_url host port)) = Ok (server_url host port).
Proof.
  intros Hne Hsl Hh Hp. unfold rpc_endpoint, server_url.
  assert (contains scheme (host ++ colon :: str_of_int port) = false) as ->.
  { apply not_true_iff_false. rewrite contains_spec. intros (a & b & E).
    assert (slash ∈ host ++ colon :: str_of_int port) as Hin.
    { rewrite E. vm_compute (scheme). set_solver. }
    apply elem_of_app in Hin as [?|Hin]; [done|].
    apply elem_of_cons in Hin as [?|Hin]; [done|].
    revert Hin. by apply nonneg_str_not_elem. }
  assert (strip (host ++ colon :: str_of_int port) = host ++ colon :: str_of_int port) as ->.
  { apply strip_id; [by destruct host|].
    rewrite reverse_app, reverse_cons, str_of_nonneg by done.
    pose proof (dec_digits (Z.to_N port)) as Hd. pose proof (dec_not_nil (Z.to_N port)).
    destruct (reverse (dec (Z.to_N port))) as [|d r] eqn:E.
    - apply (f_equal reverse) in E. by rewrite reverse_involutive in E.
    - simpl. apply ascii_digit_not_space.
      rewrite forallb_Forall, Forall_forall in Hd. apply Hd.
      apply elem_of_reverse. rewrite E. set_solver. }
  assert (contains [colon] (host ++ colon :: str_of_int port) = true) as ->.
  { apply contains_char. set_solver. }
  rewrite bool_decide_eq_false_2 by (by destruct host).
  by rewrite bool_decide_eq_false_2 by (intros H; by apply H).
Qed.

(** An address that [join()] publishes is one a peer will dial: a given
    [url=] that passes the check, and the listener's own port on an advertised
    host, both pass the caller's endpoint check unchanged. *)
Theorem published_endpoint_callable (env : environ) (probe : option pystr) (url : option pystr)
    (port : Z) (e : pystr) :
  0 ≤ port →
  match probe with Some a => a ≠ [] ∧ slash ∉ a ∧ head_not isspace_char a | None => True end →
  match url with
  | Some given => _checked_method_endpoint given
  | None => (λ host, server_url host port) <$> _advertise env probe
  end = Ok e →
  rpc_endpoint (Some e) = Ok e.
Proof.
  intros Hport Hprobe. destruct url as [given|]; [apply checked_endpoint_callable|].
  unfold _advertise. destruct (default [] _) as [|c r] eqn:E.
  - destruct probe as [a|]; [|done]. intros [= <-]. destruct Hprobe as (?&?&?).
    by apply server_url_callable.
  - set (given := c :: r). pose proof (strip_ends given) as [Hh _].
    destruct (strip given) as [|d h] eqn:Es; [done|].
    destruct (existsb _ _) eqn:Eb; [done|]. intros [= <-].
    apply server_url_callable; try done. intros Hin.
    cbn [existsb] in Eb. rewrite bool_decide_eq_true_2 in Eb by done. done.
Qed.

Lemma published_endpoint_callable_witness :
  rpc_endpoint (Some (u "node7:8123")) = Ok (u "node7:8123").
Proof.
  apply (published_endpoint_callable {[u "TINYRAY_ADVERTISE" := u " node7 "]} None None 8123);
    [lia|done|vm_compute; reflexivity].
Defined.

(** What a launcher variable says: unset and non-numeric ones say nothing. *)
Definition env_says_nothing (env : environ) (n : pystr) : Prop :=
  match env !! n with
  | None => True
  | Some v => isdigit (lstrip_chars (u "-") (strip v)) = false
  end.

#[global] Instance env_says_nothing_dec env n : Decision (env_says_nothing env n).
Proof. unfold env_says_nothing. destruct (env !! n); apply _. Defined.

Lemma from_env_skip env n names :
  env_says_nothing env n → _from_env env (n :: names) = _from_env env names.
Proof.
  unfold env_says_nothing. cbn [_from_env]. destruct (env !! n); [|done]. by intros ->.
Qed.

(** [v] is the text of the first variable of the list that says something. *)
Definition first_said (env : environ) (names : list pystr) (v : pystr) : Prop :=
  ∃ before n after, names = before ++ n :: after ∧ Forall (env_says_nothing env) before ∧
    env !! n = Some v.

Lemma first_said_here env n names v : env !! n = Some v → first_said env (n :: names) v.
Proof. intros H. exists [], n, names. by split_and!. Qed.

Lemma first_said_later env n names v :
  env_says_nothing env n → first_said env names v → first_said env (n :: names) v.
Proof.
  intros Hn (b & n' & a & -> & Hb & Hv). exists (n :: b), n', a. split_and!; auto.
Qed.

(** A seat or size from the environment is the integer of the first
    variable that holds one, and is within the seat range; a variable that
    holds an integer outside it is refused, never skipped. *)
Theorem from_env_first (env : environ) (names : list pystr) :
  match _from_env env names with
  | Ok (Some k) => 0 ≤ k ≤ _MAX_SEAT ∧
      ∃ v, first_said env names v ∧ int_of_str (strip v) = Some k
  | Ok None => Forall (env_says_nothing env) names
  | Raise e => e = Exc ValueError ∧
      ∃ v, first_said env names v ∧ ∀ k, int_of_str (strip v) = Some k → k < 0 ∨ _MAX_SEAT < k
  end.
Proof.
  induction names as [|n names IH]; [by constructor|].
  destruct (decide (env_says_nothing env n)) as [Hs|Hs].
  - rewrite from_env_skip by done.
    destruct (_from_env env names) as [[k|]|e]; [| by constructor |];
      destruct IH as (? & v & ? & ?); split; eauto using first_said_later.
  - unfold env_says_nothing in Hs. cbn [_from_env].
    destruct (env !! n) as [v|] eqn:Ev; [|tauto].
    destruct (isdigit _) eqn:Ed; [cbn [negb]|done].
    destruct (int_of_str (strip v)) as [got|] eqn:Ei;
      [|split; [done|]; exists v; split; [by apply first_said_here|congruence]].
    destruct ((0 <=? got) && (got <=? _MAX_SEAT)) eqn:Er.
    + apply andb_true_iff in Er as [?%Z.leb_le ?%Z.leb_le]. split; [done|].
      exists v. split; [by apply first_said_here|done].
    + split; [done|]. exists v. split; [by apply first_said_here|]. intros k Hk.
      apply andb_false_iff in Er as [?%Z.leb_gt|?%Z.leb_gt]; simplify_eq; auto.
Qed.

(** A seat handed to the native side is an unsigned 64-bit integer and is
    the value asked for: no rounding, no parsing of text. *)
Theorem native_seat_exact (value : pyval) (seat : Z) :
  _native_seat value = Some seat →
  is_u64 seat = true ∧
  match value with
  | VInt z => z = seat
  | VBool b => seat = if b then 1 else 0
  | VFloat x => float_is_int x seat = true
  | _ => False
  end.
Proof.
  unfold _native_seat. destruct value as [|b|z|x| | | | | | | | | |]; try done.
  - destruct ((0 <=? _) && _) eqn:E; [|done]. by intros [= <-].
  - destruct ((0 <=? _) && _) eqn:E; [|done]. by intros [= <-].
  - destruct (trunc x) as [z|]; [|done]. destruct (float_is_int x z) eqn:Ex; [|done].
    destruct ((0 <=? _) && _) eqn:E; [|done]. by intros [= <-].
Qed.

Lemma native_seat_exact_witness :
  is_u64 3 = true ∧ float_is_int (round_int 3) 3 = true.
Proof. apply (native_seat_exact (VFloat (round_int 3)) 3). vm_compute. reflexivity. Defined.

Lemma lease_ms_errors text e :
  _lease_ms text = Raise e → matches [ArgumentTypeError; TypeError; ValueError] e = true.
Proof.
  unfold _lease_ms, _not_a_length. destruct (isdigit _); simpl.
  - destruct (int_of_str text) as [z|]; simpl; [|by intros [= <-]].
    destruct (z <? 0); [by intros [= <-]|done].
  - by intros [= <-].
Qed.

Lemma lease_ms_nonneg text ms : _lease_ms text = Ok ms → 0 ≤ ms.
Proof.
  unfold _lease_ms, _not_a_length. intros H. simplify_res.
  destruct (Z.ltb_spec x 0); [done|]. by simplify_res.
Qed.

(** When the server itself only fails with the [RuntimeError] the
    extension maps its errors to, the registry command ends in a traceback for
    exactly one kind of operator input: a lease length that is a number of
    milliseconds too large for 64 bits. *)
Theorem registry_main_traceback (run : pystr → Z → res unit) (listen ttl : option pystr) (e : exn) :
  (∀ l ms e', run l ms = Raise e' → matches [KeyboardInterrupt; RuntimeError] e' = true) →
  registry_main run listen ttl = Traceback e ↔
  e = Exc OverflowError ∧ ∃ text ms, ttl = Some text ∧ _lease_ms text = Ok ms ∧ 2 ^ 64 ≤ ms.
Proof.
  intros Hrun. unfold registry_main.
  assert (∀ ms, 0 ≤ ms →
    match serve_registry run (default (u "127.0.0.1:8760") listen) ms with
    | Ok _ => Returned 0
    | Raise e => if matches [KeyboardInterrupt] e then Returned 0
                 else if matches [OSError; ValueError; RuntimeError] e then Returned 2
                 else Traceback e
    end = Traceback e ↔ e = Exc OverflowError ∧ 2 ^ 64 ≤ ms) as Hserve.
  { intros ms Hms. unfold serve_registry, is_u64.
    destruct (Z.leb_spec 0 ms); [|lia]. destruct (Z.ltb_spec ms (2 ^ 64)); simpl.
    - split; [|intros [_ ?]; lia].
      destruct (run _ ms) as [[]|e'] eqn:Er; [done|].
      specialize (Hrun _ _ _ Er). unfold matches in *. cbn [existsb] in *.
      destruct (issubclass (class_of e') KeyboardInterrupt); [done|]. simpl in *.
      rewrite orb_false_r in Hrun. rewrite Hrun.
      by destruct (issubclass _ OSError), (issubclass _ ValueError).
    - split; [intros [= <-]; auto|]. by intros [-> _]. }
  destruct ttl as [text|].
  - destruct (_lease_ms text) as [ms|e'] eqn:El.
    + rewrite Hserve by by eapply lease_ms_nonneg. split.
      * intros [-> ?]. split; [done|]. by exists text, ms.
      * intros (-> & t & m & [= <-] & Hm & ?). split; [done|]. congruence.
    + rewrite (lease_ms_errors _ _ El). split; [done|].
      intros (_ & t & m & [= <-] & Hm & _). congruence.
  - rewrite Hserve by lia. split; [intros [_ ?]; lia|]. intros (_ & ? & ? & ? & _). done.
Qed.

Lemma registry_main_traceback_witness :
  registry_main (λ _ _, Ok tt) None (Some (u "18446744073709551616")) = Traceback (Exc OverflowError).
Proof.
  apply (registry_main_traceback (λ _ _, Ok tt) None (Some (u "18446744073709551616"))); [done|].
  split; [reflexivity|]. exists (u "18446744073709551616"), 18446744073709551616.
  split; [reflexivity|]. split; [vm_compute; reflexivity|lia].
Defined.
