(* ===== verification/Sha256.v ===== *)
(** * SHA-256

    [hashlib.sha256(data).hexdigest()], the standard-library call that request
    ids are shortened with: an executable definition over 32-bit words, and
    the shape of its answer (64 lower-case hexadecimal characters). *)

From S2P Require Import Prelude PyStr.

Local Open Scope N_scope.

Definition w32 (x : N) : N := x mod 2 ^ 32.
Definition add32 (x y : N) : N := w32 (x + y).
Definition rotr (n x : N) : N := N.lor (N.shiftr x n) (w32 (N.shiftl x (32 - n))).

Definition ch (x y z : N) : N := N.lxor (N.land x y) (N.land (N.lxor x (2 ^ 32 - 1)) z).
Definition maj (x y z : N) : N := N.lxor (N.lxor (N.land x y) (N.land x z)) (N.land y z).
Definition bsig0 (x : N) : N := N.lxor (N.lxor (rotr 2 x) (rotr 13 x)) (rotr 22 x).
Definition bsig1 (x : N) : N := N.lxor (N.lxor (rotr 6 x) (rotr 11 x)) (rotr 25 x).
Definition ssig0 (x : N) : N := N.lxor (N.lxor (rotr 7 x) (rotr 18 x)) (N.shiftr x 3).
Definition ssig1 (x : N) : N := N.lxor (N.lxor (rotr 17 x) (rotr 19 x)) (N.shiftr x 10).

(** The constants of the standard are the first 32 fractional bits of the cube
    roots of the first 64 primes, and of the square roots of the first eight. *)
Definition is_prime (n : nat) : bool :=
  (1 <? n)%nat && forallb (λ d, negb (n mod d =? 0)%nat) (seq 2 (n - 2)).

Definition primes : list N := Eval vm_compute in N.of_nat <$> List.filter is_prime (seq 0 312).

(** The largest [x] below [2^bits] above [acc] whose cube is at most [n]. *)
Fixpoint cube_root (bits : nat) (acc n : N) : N :=
  match bits with
  | O => acc
  | S b => let acc' := acc + 2 ^ N.of_nat b in
           cube_root b (if acc' * acc' * acc' <=? n then acc' else acc) n
  end.

Definition round_constants : list N :=
  Eval vm_compute in (λ p, w32 (cube_root 36 0 (p * 2 ^ 96))) <$> primes.

(** The eight words of the chaining value. *)
Record hash := Hash { ha : N; hb : N; hc : N; hd : N; he : N; hf : N; hg : N; hh : N }.

Definition initial_words : list N :=
  Eval vm_compute in (λ p, w32 (N.sqrt (p * 2 ^ 64))) <$> take 8 primes.

Definition initial : hash :=
  let w i := nth i initial_words 0 in Hash (w 0%nat) (w 1%nat) (w 2%nat) (w 3%nat) (w 4%nat) (w 5%nat) (w 6%nat) (w 7%nat).

(** [n] bytes of [x], most significant first. *)
Fixpoint be_bytes (n : nat) (x : N) : list N :=
  match n with O => [] | S n => be_bytes n (x / 256) ++ [x mod 256] end.

Definition padded (data : list N) : list N :=
  let zeros := Z.to_nat ((55 - Z.of_nat (length data)) mod 64) in
  data ++ 128 :: replicate zeros 0 ++ be_bytes 8 (8 * N.of_nat (length data)).

(** Big-endian words of a byte list, four bytes at a time. *)
Fixpoint words (bs : list N) : list N :=
  match bs with
  | a :: b :: c :: d :: rest => (((a * 256 + b) * 256 + c) * 256 + d) :: words rest
  | _ => []
  end.

(** The message schedule, kept newest first. *)
Fixpoint schedule (n : nat) (rev : list N) : list N :=
  match n with
  | O => reverse rev
  | S n =>
      let w i := nth i rev 0 in
      let next := add32 (add32 (ssig1 (w 1%nat)) (w 6%nat)) (add32 (ssig0 (w 14%nat)) (w 15%nat)) in
      schedule n (next :: rev)
  end.

Definition compress_round (s : hash) (kw : N * N) : hash :=
  let '(Hash a b c d e f g h) := s in
  let t1 := add32 (add32 (add32 h (bsig1 e)) (add32 (ch e f g) kw.1)) kw.2 in
  let t2 := add32 (bsig0 a) (maj a b c) in
  Hash (add32 t1 t2) a b c (add32 d t1) e f g.

Definition compress (s : hash) (block : list N) : hash :=
  let r := fold_left compress_round (zip round_constants (schedule 48 (reverse block))) s in
  Hash (add32 (ha s) (ha r)) (add32 (hb s) (hb r)) (add32 (hc s) (hc r)) (add32 (hd s) (hd r))
       (add32 (he s) (he r)) (add32 (hf s) (hf r)) (add32 (hg s) (hg r)) (add32 (hh s) (hh r)).

Fixpoint blocks (fuel : nat) (s : hash) (ws : list N) : hash :=
  match fuel, ws with
  | S f, _ :: _ => blocks f (compress s (take 16 ws)) (drop 16 ws)
  | _, _ => s
  end.

Definition hex_digit (d : N) : N := if d <? 10 then 48 + d else 87 + d.

(** [n] hexadecimal characters. *)
Fixpoint hex (n : nat) (x : N) : pystr :=
  match n with O => [] | S n => hex n (x / 16) ++ [hex_digit (x mod 16)] end.

Definition hash_hex (s : hash) : pystr :=
  hex 8 (ha s) ++ hex 8 (hb s) ++ hex 8 (hc s) ++ hex 8 (hd s) ++
  hex 8 (he s) ++ hex 8 (hf s) ++ hex 8 (hg s) ++ hex 8 (hh s).

(** [hashlib.sha256(data).hexdigest()] *)
Definition sha256_hexdigest (data : list N) : pystr :=
  let ws := words (padded data) in hash_hex (blocks (length ws) initial ws).

Example sha256_abc :
  sha256_hexdigest (u "abc")
  = u "ba7816bf8f01cfea414140de5dae2223b00361a396177a9cb410ff61f20015ad".
Proof. vm_compute. reflexivity. Qed.

(** The two-block test vector of the standard. *)
Example sha256_two_blocks :
  sha256_hexdigest (u "abcdbcdecdefdefgefghfghighijhijkijkljklmklmnlmnomnopnopq")
  = u "248d6a61d20638b8e5c026930c3e6039a33ce45964ff2167f6ecedd419db06c1".
Proof. vm_compute. reflexivity. Qed.

(** ** The shape of a digest *)

Definition hex_char (c : N) : bool := ((48 <=? c) && (c <=? 57)) || ((97 <=? c) && (c <=? 102)).

Lemma length_hex n x : length (hex n x) = n.
Proof.
  revert x. induction n as [|n IH]; intros x; simpl; [done|]. rewrite length_app, IH. simpl. lia.
Qed.

Lemma hex_digit_char d : d < 16 → hex_char (hex_digit d) = true.
Proof.
  intros Hd. unfold hex_digit, hex_char.
  destruct (N.ltb_spec d 10); rewrite orb_true_iff, !andb_true_iff, !N.leb_le; lia.
Qed.

Lemma hex_chars n x : forallb hex_char (hex n x) = true.
Proof.
  revert x. induction n as [|n IH]; intros x; simpl; [done|].
  rewrite forallb_app, IH. simpl. rewrite hex_digit_char; [done|]. apply N.mod_lt. lia.
Qed.

Lemma length_hexdigest data : length (sha256_hexdigest data) = 64%nat.
Proof. unfold sha256_hexdigest, hash_hex. rewrite !length_app, !length_hex. reflexivity. Qed.

Lemma hexdigest_chars data : forallb hex_char (sha256_hexdigest data) = true.
Proof. unfold sha256_hexdigest, hash_hex. by rewrite !forallb_app, !hex_chars. Qed.

(** Proofs use the two facts above; evaluation still computes the digest. *)
#[global] Opaque sha256_hexdigest.
