(* ===== verification/Wire.v ===== *)
(** * Frames on the registry's wire

    [tinyray-proto/src/wire.rs]: a message is encoded, prefixed with its
    length in four bytes, most significant first, and written through a writer
    that takes what it likes of what it is offered; the other side reads the
    prefix and then the body from a reader that hands over what has arrived.
    The theorems say that neither the pieces a writer takes nor the pieces a
    reader hands over can be seen through it: writing emits the frame or a
    proper part of it, and reading answers what a parser of the whole stream
    answers ([parse_frame]). *)

From S2P Require Import Prelude Sha256.
From Equations Require Import Equations.

Local Open Scope Z_scope.

Notation byte := N (only parsing).

(** ** Constants and errors *)

(** [LENGTH_PREFIX_BYTES] *)
Definition LENGTH_PREFIX_BYTES : nat := 4.
(** [MAX_REQUEST_FRAME_BYTES] *)
Definition MAX_REQUEST_FRAME_BYTES : Z := Z.shiftl 512 10.
(** [MAX_RESPONSE_FRAME_BYTES] *)
Definition MAX_RESPONSE_FRAME_BYTES : Z := Z.shiftl 64 20.
(** [u32::MAX] *)
Definition U32_MAX : Z := 2 ^ 32 - 1.

(** [io::ErrorKind], the kinds the code tells apart. *)
Inductive io_kind := ConnectionReset | BrokenPipe | NotConnected | UnexpectedEof | WriteZero | OtherKind.

#[global] Instance io_kind_eq_dec : EqDecision io_kind.
Proof. solve_decision. Defined.

(** [enum FrameError]; what is said about an encoding or decoding error is
    not. *)
Inductive frame_error :=
| Io (kind : io_kind)
| TruncatedPrefix (received : Z)
| EmptyFrame
| FrameTooLarge (length maximum : Z)
| TruncatedBody (expected received : Z)
| EncodeError
| DecodeError.

#[global] Instance frame_error_eq_dec : EqDecision frame_error.
Proof. solve_decision. Defined.

(** [u32::from_be_bytes] *)
Definition from_be_bytes (l : list byte) : Z := fold_left (λ acc b, acc * 256 + Z.of_N b) l 0.

(** [u32::to_be_bytes] *)
Definition to_be_bytes (z : Z) : list byte := be_bytes 4 (Z.to_N z).

(** ** Messages *)

(** [Serialize] and [DeserializeOwned] of a type through [rmp_serde]:
    [to_vec_named], and [deserialize] with the position the decoder stopped
    at. *)
Class Message (T : Type) := {
  to_vec_named : T → option (list byte);
  deserialize : list byte → option (T * Z)
}.

(** What a value is encoded to is read back to the end. *)
Class MessageLaws (T : Type) `{Message T} : Prop := {
  deserialize_to_vec : ∀ v b, to_vec_named v = Some b → deserialize b = Some (v, len b)
}.

(** The limits both [encode_message] and [write_frame_bytes] check. *)
Definition frame_limits (bytes : list byte) (maximum : Z) : result frame_error unit :=
  if bool_decide (bytes = []) then Raise EmptyFrame
  else if (maximum <? len bytes) || (U32_MAX <? len bytes)
  then Raise (FrameTooLarge (len bytes) (maximum `min` U32_MAX))
  else Ok tt.

(** [encode_message] *)
Definition encode_message {T} `{Message T} (value : T) (maximum : Z) : result frame_error (list byte) :=
  match to_vec_named value with
  | None => Raise EncodeError
  | Some bytes => frame_limits bytes maximum ≫= λ _, Ok bytes
  end.

(** [decode_message] *)
Definition decode_message (T : Type) `{Message T} (bytes : list byte) : result frame_error T :=
  match deserialize bytes with
  | None => Raise DecodeError
  | Some (value, consumed) => if negb (consumed =? len bytes) then Raise DecodeError else Ok value
  end.

(** ** Reading *)

(** What happens on the reading side of a stream: bytes arrive, or it breaks.
    When the list is over the peer has closed. *)
Inductive arrival := Bytes (chunk : list byte) | Broken (kind : io_kind).

Notation reader := (list arrival).

(** [reader.read(buf)] with [room] bytes in the buffer: at most that many of
    the bytes that arrived, nothing at the end. *)
Definition read (room : nat) (r : reader) : result io_kind (list byte) * reader :=
  match r with
  | [] => (Ok [], [])
  | Broken kind :: r' => (Raise kind, r')
  | Bytes chunk :: r' =>
      (Ok (take room chunk),
       match drop room chunk with [] => r' | rest => Bytes rest :: r' end)
  end.

(** How filling a buffer ended: full, at the end of the stream with what had
    been received, or on an error. *)
Inductive filled := Full (bytes : list byte) | Ended (received : Z) | Failed (kind : io_kind).

(** [while received < buf.len() { match reader.read(&mut buf[received..]) ... }],
    the loop of [read_frame_length] and of [read_frame_body]; [room] is what is
    left of the buffer. *)
Equations fill (room : nat) (received : list byte) (r : reader) : filled * reader by wf room lt :=
fill 0%nat received r => (Full received, r);
fill (S room) received r with read (S room) r => {
  | (Raise kind, r') => (Failed kind, r');
  | (Ok [], r') => (Ended (len received), r');
  | (Ok (b :: more), r') => fill (S room - S (length more)) (received ++ b :: more) r' }.
Next Obligation. lia. Qed.

(** [read_frame_length] *)
Definition read_frame_length (r : reader) (maximum : Z) : result frame_error (option Z) * reader :=
  match fill LENGTH_PREFIX_BYTES [] r with
  | (Ended received, r') =>
      if received =? 0 then (Ok None, r') else (Raise (TruncatedPrefix received), r')
  | (Failed kind, r') => (Raise (Io kind), r')
  | (Full prefix, r') =>
      let length := from_be_bytes prefix in
      if length =? 0 then (Raise EmptyFrame, r')
      else if maximum <? length then (Raise (FrameTooLarge length maximum), r')
      else (Ok (Some length), r')
  end.

(** [read_frame_body] *)
Definition read_frame_body (r : reader) (length : Z) : result frame_error (list byte) * reader :=
  match fill (Z.to_nat length) [] r with
  | (Ended received, r') => (Raise (TruncatedBody length received), r')
  | (Failed kind, r') => (Raise (Io kind), r')
  | (Full body, r') => (Ok body, r')
  end.

(** [read_frame] *)
Definition read_frame (r : reader) (maximum : Z) : result frame_error (option (list byte)) * reader :=
  match read_frame_length r maximum with
  | (Raise e, r') => (Raise e, r')
  | (Ok None, r') => (Ok None, r')
  | (Ok (Some length), r') =>
      let '(body, r'') := read_frame_body r' length in (Some <$> body, r'')
  end.

(** ** Writing *)

(** What a writer does with one call: take up to so many bytes, or break. *)
Inductive taking := Takes (n : nat) | Breaks (kind : io_kind).

(** A writer: what its next calls do -- after those it takes all it is offered
    -- and what it has taken. *)
Record writer := Writer { w_script : list taking; w_sent : list byte }.

(** [writer.write(offered)]; [write_vectored] offers its slices one after the
    other. *)
Definition write (w : writer) (offered : list byte) : result io_kind nat * writer :=
  match w_script w with
  | [] => (Ok (length offered), Writer [] (w_sent w ++ offered))
  | Breaks kind :: s => (Raise kind, Writer s (w_sent w))
  | Takes n :: s => (Ok (n `min` length offered)%nat, Writer s (w_sent w ++ take n offered))
  end.

(** The loop of [write_frame_bytes]: [todo] is what is left of the prefix,
    [body_todo] of the body. *)
Equations write_loop (w : writer) (prefix_todo body_todo : list byte) : result frame_error unit * writer
  by wf (length prefix_todo + length body_todo)%nat lt :=
write_loop w [] [] => (Ok tt, w);
write_loop w [] (b :: body) with write w (b :: body) => {
  | (Raise kind, w') => (Raise (Io kind), w');
  | (Ok 0%nat, w') => (Raise (Io WriteZero), w');
  | (Ok (S n), w') => write_loop w' [] (drop (S n) (b :: body)) };
write_loop w (p :: pre) body with write w ((p :: pre) ++ body) => {
  | (Raise kind, w') => (Raise (Io kind), w');
  | (Ok 0%nat, w') => (Raise (Io WriteZero), w');
  | (Ok (S n), w') =>
      let prefix_written := (S n `min` length (p :: pre))%nat in
      write_loop w' (drop prefix_written (p :: pre)) (drop (S n - prefix_written) body) }.
Next Obligation. rewrite length_drop. lia. Qed.
Next Obligation. rewrite !length_drop. lia. Qed.

(** [write_frame_bytes] *)
Definition write_frame_bytes (w : writer) (body : list byte) (maximum : Z) :
    result frame_error unit * writer :=
  match frame_limits body maximum with
  | Raise e => (Raise e, w)
  | Ok _ => write_loop w (to_be_bytes (len body)) body
  end.

(** [write_frame] *)
Definition write_frame {T} `{Message T} (w : writer) (value : T) (maximum : Z) :
    result frame_error unit * writer :=
  match encode_message value maximum with
  | Raise e => (Raise e, w)
  | Ok body => write_frame_bytes w body maximum
  end.

Example write_three : write_frame_bytes (Writer [Takes 2; Takes 3] []) [7; 8; 9]%N 100 =
  (Ok tt, Writer [] [0; 0; 0; 3; 7; 8; 9]%N).
Proof. vm_compute. reflexivity. Qed.

Example read_three : read_frame [Bytes [0; 0]; Bytes [0; 3; 7]; Bytes [8; 9; 1]]%N 100 =
  (Ok (Some [7; 8; 9]%N), [Bytes [1]%N]).
Proof. vm_compute. reflexivity. Qed.

(** ** The bytes behind the pieces *)

(** The bytes that will arrive and how they end: the peer closes, or the
    stream breaks. *)
Fixpoint pending (r : reader) : list byte * option io_kind :=
  match r with
  | [] => ([], None)
  | Broken kind :: _ => ([], Some kind)
  | Bytes chunk :: r' => let '(bytes, e) := pending r' in (chunk ++ bytes, e)
  end.

(** A read that returns no bytes is the end of the stream, so what arrives is
    not empty. *)
Definition arriving (r : reader) : Prop := Forall (λ a, a ≠ Bytes []) r.

(** The stream is over after [received] bytes of a buffer. *)
Definition cut_short {A} (e : option io_kind) (truncated : result frame_error A) : result frame_error A :=
  match e with None => truncated | Some kind => Raise (Io kind) end.

(** A parser of the whole stream: a frame, nothing at its end, or what is wrong
    with it. *)
Definition parse_frame (maximum : Z) (stream : list byte * option io_kind) :
    result frame_error (option (list byte)) :=
  let '(bytes, e) := stream in
  if len bytes <? 4
  then cut_short e (if bool_decide (bytes = []) then Ok None else Raise (TruncatedPrefix (len bytes)))
  else let length := from_be_bytes (take 4 bytes) in
       if length =? 0 then Raise EmptyFrame
       else if maximum <? length then Raise (FrameTooLarge length maximum)
       else if len (drop 4 bytes) <? length
       then cut_short e (Raise (TruncatedBody length (len (drop 4 bytes))))
       else Ok (Some (take (Z.to_nat length) (drop 4 bytes))).

(** What one read takes off the stream. *)
Lemma read_spec room r :
  (0 < room)%nat → arriving r →
  match read room r with
  | (Ok [], r') => pending r = ([], None)
  | (Ok got, r') =>
      (length got <= room)%nat ∧ arriving r' ∧
      pending r = (got ++ (pending r').1, (pending r').2)
  | (Raise kind, r') => pending r = ([], Some kind)
  end.
Proof.
  intros Hroom Har. destruct r as [|[chunk|kind] r]; simpl; [done| |done].
  apply Forall_cons in Har as [Hne Har].
  destruct chunk as [|b chunk]; [done|]. destruct room as [|room]; [lia|]. simpl.
  destruct (pending r) as [bytes e] eqn:Hp.
  split; [rewrite length_take; lia|].
  destruct (drop room chunk) as [|b' rest] eqn:Hd; simpl; rewrite ?Hp; simpl.
  - split; [done|]. f_equal. rewrite <-(take_drop room chunk) at 1. by rewrite Hd, app_nil_r.
  - split; [by constructor|]. f_equal. rewrite <-(take_drop room chunk) at 1. rewrite Hd.
    simpl. by rewrite <-app_assoc.
Qed.

(** Filling a buffer takes its size off the stream, or finds it too short. *)
Lemma fill_spec room received r :
  arriving r →
  let '(bytes, e) := pending r in
  if decide (room <= length bytes)%nat
  then ∃ r', fill room received r = (Full (received ++ take room bytes), r') ∧
             arriving r' ∧ pending r' = (drop room bytes, e)
  else ∃ r', fill room received r =
         (match e with None => Ended (len received + len bytes) | Some kind => Failed kind end, r').
Proof.
  funelim (fill room received r); intros Har.
  - destruct (pending r) as [bytes e] eqn:Hp. rewrite decide_True by lia.
    simp fill. rewrite take_0, app_nil_r, drop_0. eauto.
  - pose proof (read_spec (S room) r ltac:(lia) Har) as Hr. rewrite Heq in Hr.
    rewrite Hr. rewrite decide_False by (simpl; lia).
    exists r'. simpl. by rewrite Z.add_0_r.
  - pose proof (read_spec (S room) r ltac:(lia) Har) as Hr. rewrite Heq in Hr.
    destruct Hr as (Hle & Har' & Hp). specialize (H Har').
    destruct (pending r') as [bytes e] eqn:Hp'. simpl in Hp. rewrite Hp.
    clear Heqcall. revert H. change (S (length more)) with (length (b :: more)).
    change (b :: more ++ bytes) with ((b :: more) ++ bytes).
    set (got := b :: more) in *. assert (S room - length got + length got = S room)%nat as Hs by lia.
    destruct (decide (S room - length got <= length bytes)%nat) as [Hd|Hd].
    + rewrite decide_True by (rewrite length_app; lia). intros (r2 & -> & ? & ?). exists r2.
      rewrite <-app_assoc. rewrite (take_app_ge got) by lia. rewrite (drop_app_ge got) by lia. eauto.
    + rewrite decide_False by (rewrite length_app; lia). intros (r2 & ->). exists r2. destruct e; [done|].
      rewrite !len_app. do 2 f_equal. lia.
  - pose proof (read_spec (S room) r ltac:(lia) Har) as Hr. rewrite Heq in Hr.
    rewrite Hr. rewrite decide_False by (simpl; lia). by exists r'.
Qed.

(** Where the reader stands after a frame. *)
Definition after_frame (stream : list byte * option io_kind) (body : list byte) :
    list byte * option io_kind :=
  (drop (4 + length body) stream.1, stream.2).

Lemma read_frame_spec r maximum :
  arriving r →
  (read_frame r maximum).1 = parse_frame maximum (pending r) ∧
  ∀ body, (read_frame r maximum).1 = Ok (Some body) →
    0 < len body ≤ maximum ∧ arriving (read_frame r maximum).2 ∧
    pending (read_frame r maximum).2 = after_frame (pending r) body.
Proof.
  intros Har. pose proof (fill_spec LENGTH_PREFIX_BYTES [] r Har) as Hpre.
  unfold read_frame, read_frame_length, parse_frame, LENGTH_PREFIX_BYTES in *.
  destruct (pending r) as [bytes e]. unfold len at 1.
  destruct (decide (4 <= length bytes)%nat) as [Hd|Hd].
  - rewrite (proj2 (Z.ltb_ge _ _)) by lia.
    destruct Hpre as (r1 & -> & Har1 & Hp1). cbn [app].
    set (length0 := from_be_bytes (take 4 bytes)).
    destruct (length0 =? 0) eqn:H0; [by split|]. destruct (maximum <? length0) eqn:Hm; [by split|].
    apply Z.eqb_neq in H0. apply Z.ltb_ge in Hm.
    assert (0 ≤ length0) as Hnn.
    { unfold length0, from_be_bytes. apply (fold_left_ind (λ z, 0 ≤ z)); [lia|]. lia. }
    pose proof (fill_spec (Z.to_nat length0) [] r1 Har1) as Hbody. rewrite Hp1 in Hbody.
    unfold read_frame_body, len at 1. destruct (decide _) as [Hd2|Hd2].
    + rewrite (proj2 (Z.ltb_ge _ _)) by lia. destruct Hbody as (r2 & -> & Har2 & Hp2). cbn.
      split; [done|]. intros body [= <-]. unfold len. rewrite length_take.
      split; [lia|]. split; [done|]. rewrite Hp2. unfold after_frame. cbn [fst snd]. f_equal.
      rewrite drop_drop. f_equal. rewrite length_take. lia.
    + rewrite (proj2 (Z.ltb_lt _ _)) by lia. destruct Hbody as (r2 & ->).
      by destruct e; cbn.
  - rewrite (proj2 (Z.ltb_lt _ _)) by lia. destruct Hpre as (r1 & ->).
    destruct e as [kind|]; [by split|]. cbn [cut_short].
    change (len [] + len bytes) with (len bytes).
    destruct (Z.eqb_spec (len bytes) 0) as [Hz|Hz].
    + apply len_zero in Hz. subst. by split.
    + rewrite bool_decide_false by (by rewrite <-len_zero). by split.
Qed.

(** ** The length prefix *)

Lemma from_be_bytes_app l k :
  from_be_bytes (l ++ k) = from_be_bytes l * 256 ^ len k + from_be_bytes k.
Proof.
  revert l. induction k as [|b k IH] using rev_ind; intros l.
  - unfold len. rewrite app_nil_r. simpl. cbn. lia.
  - rewrite app_assoc. unfold from_be_bytes. rewrite !(fold_left_app _ _ [b]). cbn [fold_left].
    fold (from_be_bytes (l ++ k)) (from_be_bytes k) (from_be_bytes l). rewrite IH, len_app.
    change (len [b]) with 1.
    rewrite Z.pow_add_r, Z.pow_1_r by (apply len_nonneg || lia). ring.
Qed.

Lemma from_to_be n x : from_be_bytes (be_bytes n x) = Z.of_N x mod 256 ^ Z.of_nat n.
Proof.
  revert x. induction n as [|n IH]; intros x; [by rewrite Z.mod_1_r|].
  cbn [be_bytes]. rewrite from_be_bytes_app, IH.
  change (len [x mod 256]%N) with 1. rewrite Z.pow_1_r.
  replace (from_be_bytes [x mod 256]%N) with (Z.of_N x mod 256).
  2: { unfold from_be_bytes. cbn. rewrite N2Z.inj_mod. lia. }
  rewrite N2Z.inj_div. change (Z.of_N 256) with 256.
  rewrite Nat2Z.inj_succ, Z.pow_succ_r by lia.
  rewrite (Z.rem_mul_r (Z.of_N x) 256) by lia. lia.
Qed.

Lemma be_bytes_length n x : length (be_bytes n x) = n.
Proof. revert x. induction n as [|n IH]; intros x; [done|]. simpl. rewrite length_app, IH. simpl. lia. Qed.

Lemma to_be_bytes_length z : length (to_be_bytes z) = 4%nat.
Proof. apply be_bytes_length. Qed.

Lemma len_prefix z : len (to_be_bytes z) = 4.
Proof. unfold len. by rewrite to_be_bytes_length. Qed.

Lemma prefix_roundtrip z : 0 ≤ z ≤ U32_MAX → from_be_bytes (to_be_bytes z) = z.
Proof.
  unfold U32_MAX. intros Hz. unfold to_be_bytes. rewrite from_to_be, Z2N.id by lia.
  apply Z.mod_small. change (256 ^ Z.of_nat 4) with (2 ^ 32). lia.
Qed.

(** A frame as it stands in the stream. *)
Definition frame (body : list byte) : list byte := to_be_bytes (len body) ++ body.

Lemma frame_limits_ok body maximum :
  frame_limits body maximum = Ok tt ↔ 0 < len body ≤ maximum ∧ len body ≤ U32_MAX.
Proof.
  unfold frame_limits. pose proof (len_nonneg body). pose proof (len_zero body).
  case_bool_decide as Hb; [split; [done|]; intuition lia|].
  assert (len body ≠ 0) by tauto. destruct (Z.ltb_spec maximum (len body)), (Z.ltb_spec U32_MAX (len body)); simpl;
    (split; [try done|]); intuition lia.
Qed.

Lemma parse_frame_frame maximum body rest e :
  frame_limits body maximum = Ok tt → parse_frame maximum (frame body ++ rest, e) = Ok (Some body).
Proof.
  intros [Hb Hu]%frame_limits_ok. unfold parse_frame, frame. rewrite <-app_assoc.
  pose proof (to_be_bytes_length (len body)) as Hl.
  rewrite (proj2 (Z.ltb_ge _ _)).
  2: { rewrite len_app, len_prefix. pose proof (len_nonneg (body ++ rest)). lia. }
  rewrite (take_app_length' _ _ 4), (drop_app_length' _ _ 4) by done.
  rewrite prefix_roundtrip by lia.
  rewrite (proj2 (Z.eqb_neq _ _)), (proj2 (Z.ltb_ge maximum _)) by lia.
  rewrite (proj2 (Z.ltb_ge _ _)) by (rewrite len_app; pose proof (len_nonneg rest); lia).
  unfold len. by rewrite Nat2Z.id, take_app_length.
Qed.

(** A frame that was cut off is not a frame. *)
Lemma parse_frame_cut maximum body part e :
  frame_limits body maximum = Ok tt → part `prefix_of` frame body → part ≠ frame body →
  parse_frame maximum (part, e) =
  cut_short e (if bool_decide (part = []) then Ok None
               else if len part <? 4 then Raise (TruncatedPrefix (len part))
               else Raise (TruncatedBody (len body) (len part - 4))).
Proof.
  intros [Hb Hu]%frame_limits_ok [rest Hp] Hne. unfold parse_frame.
  pose proof (to_be_bytes_length (len body)) as Hl.
  destruct (Z.ltb_spec (len part) 4) as [H4|H4].
  { by destruct e, (bool_decide (part = [])). }
  assert (take 4 part = to_be_bytes (len body)) as Ht.
  { rewrite <-(take_app_le part rest 4) by (unfold len in H4; lia). rewrite <-Hp. unfold frame.
    by rewrite (take_app_length' _ _ 4). }
  rewrite Ht, prefix_roundtrip by lia.
  rewrite (proj2 (Z.eqb_neq _ _)), (proj2 (Z.ltb_ge maximum _)) by lia.
  assert (len (frame body) = 4 + len body) as Hf by (unfold frame; by rewrite len_app, len_prefix).
  assert (0 < len rest) as Hr.
  { pose proof (len_nonneg rest). destruct (Z.eq_dec (len rest) 0) as [Hz|]; [|lia].
    apply len_zero in Hz. subst. by rewrite app_nil_r in Hp. }
  assert (len (drop 4 part) = len part - 4) as Hdrop by (unfold len in *; rewrite length_drop; lia).
  rewrite Hp, len_app in Hf. rewrite Hdrop, (proj2 (Z.ltb_lt _ _)) by lia.
  rewrite bool_decide_false by (intros ->; unfold len in H4; simpl in H4; lia). done.
Qed.

(** ** What a writer has taken *)

Lemma write_spec w offered :
  match write w offered with
  | (Ok n, w') => (n <= length offered)%nat ∧ w_sent w' = w_sent w ++ take n offered
  | (Raise _, w') => w_sent w' = w_sent w
  end.
Proof.
  unfold write. destruct (w_script w) as [|[n|kind] s]; cbn; [by rewrite firstn_all| |done].
  split; [lia|]. f_equal. destruct (Nat.min_spec n (length offered)) as [[? ->]|[? ->]]; [done|].
  by rewrite firstn_all, take_ge.
Qed.

(** One turn of the loop: bytes taken off the front of what is left. *)
Lemma write_turn (w w' : writer) (todo rest : list byte) (n : nat) (res : result frame_error unit) :
  (n <= length todo)%nat → rest = drop n todo → w_sent w' = w_sent w ++ take n todo →
  ∀ w'', (∃ sent, w_sent w'' = w_sent w' ++ sent ∧ sent `prefix_of` rest ∧ (res = Ok tt ↔ sent = rest)) →
  ∃ sent, w_sent w'' = w_sent w ++ sent ∧ sent `prefix_of` todo ∧ (res = Ok tt ↔ sent = todo).
Proof.
  intros Hn -> Hs w'' (sent & Hs' & Hp & Hok). exists (take n todo ++ sent).
  rewrite Hs', Hs, app_assoc. split; [done|]. rewrite <-(take_drop n todo) at 2 4.
  split; [by apply prefix_app|]. rewrite Hok. split; [by intros ->|]. by intros ?%app_inv_head.
Qed.

Lemma write_loop_spec w prefix body :
  ∃ sent, w_sent (write_loop w prefix body).2 = w_sent w ++ sent ∧
    sent `prefix_of` prefix ++ body ∧
    ((write_loop w prefix body).1 = Ok tt ↔ sent = prefix ++ body).
Proof.
  assert (∀ (w w' : writer) (todo : list byte) (e : frame_error), w_sent w' = w_sent w → todo ≠ [] →
    ∃ sent, w_sent w' = w_sent w ++ sent ∧ sent `prefix_of` todo ∧
      ((Raise e : result frame_error unit) = Ok tt ↔ sent = todo)) as Hnone.
  { intros v v' todo e Hs Hne. exists []. rewrite app_nil_r. split; [done|]. split; [apply prefix_nil|].
    split; [done|]. by intros <-. }
  funelim (write_loop w prefix body).
  - exists []. simp write_loop. cbn. rewrite app_nil_r. done.
  - pose proof (write_spec w (b :: body)) as Hw. rewrite Heq in Hw. destruct Hw as [_ Hw].
    cbn [fst snd]. rewrite app_nil_r in Hw. by apply Hnone.
  - pose proof (write_spec w (b :: body)) as Hw. rewrite Heq in Hw. destruct Hw as [Hn Hw].
    specialize (H Hnone). cbn [app] in *. by eapply write_turn.
  - pose proof (write_spec w (b :: body)) as Hw. rewrite Heq in Hw. by apply Hnone.
  - pose proof (write_spec w ((p :: pre) ++ body)) as Hw. rewrite Heq in Hw. destruct Hw as [_ Hw].
    cbn [fst snd]. rewrite app_nil_r in Hw. by apply Hnone.
  - pose proof (write_spec w ((p :: pre) ++ body)) as Hw. rewrite Heq in Hw. destruct Hw as [Hn Hw].
    specialize (H Hnone). eapply write_turn; [done| |done|exact H].
    rewrite (drop_app (p :: pre)). f_equal.
    + destruct (Nat.min_spec (S n) (length (p :: pre))) as [[? ->]|[? ->]]; [done|].
      by rewrite !drop_ge.
    + f_equal. lia.
  - pose proof (write_spec w ((p :: pre) ++ body)) as Hw. rewrite Heq in Hw. by apply Hnone.
Qed.

Lemma write_loop_error w prefix body e :
  (write_loop w prefix body).1 = Raise e → ∃ kind, e = Io kind.
Proof.
  funelim (write_loop w prefix body); cbn [fst]; intros He; try discriminate He; eauto; injection He as <-; eauto.
Qed.

(** A writer that takes what it is offered takes the frame. *)
Lemma write_loop_unbroken w prefix body :
  w_script w = [] → (write_loop w prefix body).1 = Ok tt.
Proof.
  intros Hw. funelim (write_loop w prefix body); cbn [fst]; try done;
    unfold write in Heq; rewrite Hw in Heq; injection Heq as Hn <-; try done; by apply H.
Qed.

(** Writing a frame emits the frame, or a proper part of it and an error. *)
Lemma write_frame_bytes_spec w body maximum :
  ∃ sent, w_sent (write_frame_bytes w body maximum).2 = w_sent w ++ sent ∧
    sent `prefix_of` frame body ∧
    ((write_frame_bytes w body maximum).1 = Ok tt ↔
     frame_limits body maximum = Ok tt ∧ sent = frame body) ∧
    (frame_limits body maximum ≠ Ok tt → sent = []).
Proof.
  unfold write_frame_bytes. destruct (frame_limits body maximum) as [[]|e]; cbn [fst snd].
  - destruct (write_loop_spec w (to_be_bytes (len body)) body) as (sent & Hs & Hp & Hok).
    exists sent. split_and!; [done..| |done]. rewrite Hok. unfold frame. naive_solver.
  - exists []. rewrite app_nil_r. split_and!; [done|apply prefix_nil| |done].
    split; [done|]. by intros [? _].
Qed.

(** ** A conversation in one direction *)

Section Conversation.
#[local] Set Default Proof Using "Type*".
Context {T : Type} `{Message T, !MessageLaws T}.
Context (maximum : Z).

(** Write values until one fails; the values written. *)
Fixpoint write_all (w : writer) (values : list T) : list T * writer :=
  match values with
  | [] => ([], w)
  | v :: values' =>
      match write_frame w v maximum with
      | (Ok _, w') => let '(done, w'') := write_all w' values' in (v :: done, w'')
      | (Raise _, w') => ([], w')
      end
  end.

(** How a conversation ends for its reader: between frames, inside one, or on a
    broken stream. *)
Inductive receives : reader → list T → result frame_error unit → Prop :=
| receives_end r r' : read_frame r maximum = (Ok None, r') → receives r [] (Ok tt)
| receives_error r r' e : read_frame r maximum = (Raise e, r') → receives r [] (Raise e)
| receives_value r r' body v values e :
    read_frame r maximum = (Ok (Some body), r') → decode_message T body = Ok v →
    receives r' values e → receives r (v :: values) e.

(** The end a stream with no further whole frame has. *)
Definition cut_off (res : result frame_error unit) : Prop :=
  match res with
  | Ok _ | Raise (TruncatedPrefix _) | Raise (TruncatedBody _ _) | Raise (Io _) => True
  | _ => False
  end.

Lemma encode_message_ok v body :
  encode_message v maximum = Ok body → frame_limits body maximum = Ok tt ∧ decode_message T body = Ok v.
Proof.
  unfold encode_message, decode_message. destruct (to_vec_named v) as [b|] eqn:E; [|done].
  intros ([] & Hl & [= ->])%bind_ok. split; [done|].
  rewrite (deserialize_to_vec _ _ E). by rewrite Z.eqb_refl.
Qed.

(** What writing one value adds to the stream. *)
Lemma write_frame_spec w v :
  match write_frame w v maximum with
  | (Ok _, w') => ∃ body, frame_limits body maximum = Ok tt ∧ decode_message T body = Ok v ∧
                          w_sent w' = w_sent w ++ frame body
  | (Raise _, w') => ∃ part, w_sent w' = w_sent w ++ part ∧
      (part = [] ∨ ∃ body, frame_limits body maximum = Ok tt ∧ part `prefix_of` frame body ∧ part ≠ frame body)
  end.
Proof.
  unfold write_frame. destruct (encode_message v maximum) as [body|e] eqn:E.
  2: { exists []. rewrite app_nil_r. auto. }
  apply encode_message_ok in E as [Hl Hd].
  destruct (write_frame_bytes_spec w body maximum) as (sent & Hs & Hp & Hok & _).
  destruct (write_frame_bytes w body maximum) as [[[]|e] w']; cbn [fst snd] in *.
  - exists body. destruct Hok as [Hok _]. destruct (Hok eq_refl) as [_ ->]. auto.
  - exists sent. split; [done|]. right. exists body. split_and!; [done..|]. intros ->.
    destruct Hok as [_ Hok]. by specialize (Hok (conj Hl eq_refl)).
Qed.

(** A value that is too long is refused before anything is written. *)
Lemma write_frame_too_large w v w' length0 limit :
  write_frame w v maximum = (Raise (FrameTooLarge length0 limit), w') → w' = w.
Proof using Type.
  unfold write_frame. destruct (encode_message v maximum) as [body|e] eqn:E; [|by intros [= _ <-]].
  assert (frame_limits body maximum = Ok tt) as Hl.
  { revert E. unfold encode_message. destruct (to_vec_named v) as [b|]; [|done].
    by intros ([] & Hl & [= <-])%bind_ok. }
  unfold write_frame_bytes. rewrite Hl. intros Hw.
  destruct (write_loop_error w (to_be_bytes (len body)) body (FrameTooLarge length0 limit)) as [k Hk]; [|done].
  by rewrite Hw.
Qed.

(** What writing one value adds to the stream, whatever the outcome. *)
Lemma write_frame_adds w v r w' :
  write_frame w v maximum = (r, w') →
  ∃ part, w_sent w' = w_sent w ++ part ∧
    (part = [] ∨ ∃ body, to_vec_named v = Some body ∧ frame_limits body maximum = Ok tt ∧ part `prefix_of` frame body) ∧
    (r = Ok tt → ∃ body, to_vec_named v = Some body ∧ frame_limits body maximum = Ok tt ∧ part = frame body).
Proof using Type.
  unfold write_frame, encode_message. destruct (to_vec_named v) as [body|] eqn:E.
  2: { intros [= <- <-]. exists []. rewrite app_nil_r. split_and!; [done|auto|done]. }
  destruct (frame_limits body maximum) as [[]|e] eqn:Hl; simpl.
  2: { intros [= <- <-]. exists []. rewrite app_nil_r. split_and!; [done|auto|done]. }
  intros Hw. destruct (write_frame_bytes_spec w body maximum) as (sent & Hs & Hp & Hok & _).
  rewrite Hw in Hs, Hok. cbn [fst snd] in *. exists sent. split_and!; [done|right; eauto|].
  intros ->. exists body. split_and!; [done|done|]. by apply Hok.
Qed.

(** The stream of a conversation: whole frames, then a part of one. *)
Lemma write_all_spec values w :
  ∃ bodies part, w_sent (write_all w values).2 = w_sent w ++ concat (frame <$> bodies) ++ part ∧
    Forall2 (λ v body, frame_limits body maximum = Ok tt ∧ decode_message T body = Ok v)
      (write_all w values).1 bodies ∧
    (write_all w values).1 `prefix_of` values ∧ ((write_all w values).1 = values → part = []) ∧
    (part = [] ∨ ∃ body, frame_limits body maximum = Ok tt ∧ part `prefix_of` frame body ∧ part ≠ frame body).
Proof.
  revert w. induction values as [|v values IH]; intros w; simpl.
  { exists [], []. rewrite !app_nil_r. auto 7. }
  pose proof (write_frame_spec w v) as Hv.
  destruct (write_frame w v maximum) as [[[]|e] w'].
  - destruct Hv as (body & Hl & Hd & Hs). destruct (IH w') as (bodies & part & Hs' & Hf & Hpre & Hall & Hpart).
    destruct (write_all w' values) as [written w'']. cbn [fst snd] in *. exists (body :: bodies), part.
    split_and!; [|by constructor|by apply prefix_cons| |done].
    + rewrite Hs', Hs, fmap_cons. cbn [concat]. by rewrite <-!app_assoc.
    + intros [= Hw]. auto.
  - destruct Hv as (part & Hs & Hpart). exists [], part. split_and!; [done|done|apply prefix_nil|done|done].
Qed.

(** What is left behind the whole frames does not parse as one. *)
Lemma parse_part part e :
  (part = [] ∨ ∃ body, frame_limits body maximum = Ok tt ∧ part `prefix_of` frame body ∧ part ≠ frame body) →
  match parse_frame maximum (part, e) with
  | Ok None => part = [] ∧ e = None
  | Raise x => cut_off (Raise x) ∧ (e = None → part ≠ [])
  | Ok (Some _) => False
  end.
Proof.
  intros [->|(body & Hl & Hpre & Hne)]; [by destruct e|].
  rewrite (parse_frame_cut maximum body part) by done.
  destruct e as [kind|]; [done|]. cbn [cut_short]. case_bool_decide; [done|].
  by destruct (len part <? 4).
Qed.

Lemma receives_stream bodies values part r e :
  Forall2 (λ v body, frame_limits body maximum = Ok tt ∧ decode_message T body = Ok v) values bodies →
  (part = [] ∨ ∃ body, frame_limits body maximum = Ok tt ∧ part `prefix_of` frame body ∧ part ≠ frame body) →
  arriving r → pending r = (concat (frame <$> bodies) ++ part, e) →
  ∃ res, receives r values res ∧ cut_off res ∧
    (e = None → res = Ok tt ↔ part = []).
Proof.
  intros Hf Hpart. revert r. induction Hf as [|v body values bodies [Hl Hd] Hf IH]; intros r Har Hp.
  - simpl in Hp. destruct (read_frame_spec r maximum Har) as [Hr _]. rewrite Hp in Hr.
    pose proof (parse_part part e Hpart) as Hx. rewrite <-Hr in Hx.
    destruct (read_frame r maximum) as [[[body|]|x] r'] eqn:Hrf; cbn [fst] in Hx; [done|..].
    + exists (Ok tt). split_and!; [by eapply receives_end|done|]. by destruct Hx as [-> _].
    + exists (Raise x). split_and!; [by eapply receives_error|naive_solver|].
      intros He. split; [done|]. intros Hz. by destruct (proj2 Hx He).
  - destruct (read_frame_spec r maximum Har) as [Hr Hafter]. rewrite Hp in Hr, Hafter.
    rewrite fmap_cons in Hr. cbn [concat] in Hr. rewrite <-app_assoc, (parse_frame_frame maximum body) in Hr by done.
    destruct (Hafter body Hr) as (_ & Har' & Hp'). destruct (read_frame r maximum) as [out r'] eqn:Hrf.
    cbn [fst snd] in *. subst out. destruct (IH r' Har') as (res & Hrec & Hc & Hres).
    { rewrite Hp'. unfold after_frame. cbn [fst snd]. f_equal. rewrite fmap_cons. cbn [concat]. rewrite <-app_assoc.
      apply drop_app_length'. unfold frame. rewrite length_app, to_be_bytes_length. done. }
    exists res. split_and!; [by eapply receives_value|done..].
Qed.
End Conversation.

(** ** Properties *)

(** Reading does not depend on the pieces the bytes arrive in: a frame, the end
    of the stream and every error are those a parser of the whole stream finds;
    a body is never longer than the maximum, and the reader is left exactly
    behind it. *)
Theorem read_frame_is_parse (r : reader) (maximum : Z) :
  arriving r →
  (read_frame r maximum).1 = parse_frame maximum (pending r) ∧
  ∀ body, (read_frame r maximum).1 = Ok (Some body) →
    0 < len body ≤ maximum ∧ arriving (read_frame r maximum).2 ∧
    pending (read_frame r maximum).2 = after_frame (pending r) body.
Proof. apply read_frame_spec. Qed.

(** C27: messages arrive whole and in order: write values through a writer that takes
    what it likes and may break at any byte, let the bytes arrive in any pieces,
    and the reader gets exactly the values whose writing succeeded, then the
    clean end of the stream when nothing else was written and otherwise the
    error of a frame cut off -- never part of a value, or two of them in one. *)
Theorem messages_arrive_whole {T : Type} `{Message T, !MessageLaws T} (maximum : Z)
    (script : list taking) (values : list T) (r : reader) :
  let '(written, w) := write_all maximum (Writer script []) values in
  arriving r → pending r = (w_sent w, None) →
  written `prefix_of` values ∧
  ∃ res, receives maximum r written res ∧ cut_off res ∧
    (written = values → res = Ok tt).
Proof.
  pose proof (write_all_spec (T := T) maximum values (Writer script [])) as Hall.
  destruct (write_all maximum (Writer script []) values) as [written w] eqn:E.
  destruct Hall as (bodies & part & Hs & Hf & Hpre & Hall & Hpart). cbn [fst snd w_sent app] in *.
  intros Har Hp. split; [done|]. rewrite Hs in Hp.
  destruct (receives_stream (T := T) maximum bodies written part r None Hf Hpart Har Hp)
    as (res & Hrec & Hc & Hres).
  exists res. split_and!; [done..|]. intros Hw. apply Hres; auto.
Qed.

(** *** Two messages and a writer that breaks in the second *)

#[local] Instance raw_message : Message (list byte) :=
  {| to_vec_named := Some; deserialize := λ b, Some (b, len b) |}.
#[local] Instance raw_message_laws : MessageLaws (list byte).
Proof. split. by intros v b [= ->]. Qed.

Lemma messages_arrive_whole_witness :
  ∃ res, receives (T := list byte) 100 [Bytes [0; 0; 0]; Bytes [2; 7; 8; 0; 0]]%N [[7; 8]%N] res ∧ cut_off res.
Proof.
  assert (write_all (T := list byte) 100 (Writer [Takes 3; Takes 3; Takes 2; Breaks BrokenPipe] []) [[7; 8]%N; [9]%N] =
    ([[7; 8]%N], Writer [] [0; 0; 0; 2; 7; 8; 0; 0]%N)) as Hw by (vm_compute; reflexivity).
  pose proof (messages_arrive_whole (T := list byte) 100 [Takes 3; Takes 3; Takes 2; Breaks BrokenPipe]
    [[7; 8]%N; [9]%N] [Bytes [0; 0; 0]; Bytes [2; 7; 8; 0; 0]]%N) as H.
  rewrite Hw in H. destruct H as [_ (res & Hr & Hc & _)].
  - repeat (constructor; [done|]). constructor.
  - reflexivity.
  - exists res. split; [exact Hr|exact Hc].
Defined.

Lemma read_frame_is_parse_witness :
  (read_frame [Bytes [0; 0]; Bytes [0; 3; 7]]%N 100).1 = Raise (TruncatedBody 3 1).
Proof.
  destruct (read_frame_is_parse [Bytes [0; 0]; Bytes [0; 3; 7]]%N 100) as [H _].
  - repeat (constructor; [done|]). constructor.
  - rewrite H. reflexivity.
Defined.
