(* ===== verification/RpcProto.v ===== *)
(** * The messages of the call protocol

    [tinyray-proto/src/rpc.rs]: what a caller asks, what a listener answers,
    and the limits both sides keep.  Payloads are bytes. *)

From S2P Require Import Prelude PyStr.

Local Open Scope Z_scope.

Definition RPC_PROTOCOL : Z := 1.
Definition MAX_RPC_FRAME_BYTES : Z := Z.shiftl 32 20.
Definition MAX_RPC_REQUEST_ID_BYTES : Z := 200.
Definition MAX_RPC_BATCH : Z := 128.

(** [enum RpcOperation] *)
Inductive rpc_operation := Call | Batch | BlobAck.

#[global] Instance rpc_operation_eq_dec : EqDecision rpc_operation.
Proof. solve_decision. Defined.

(** [enum RpcStatus] *)
Inductive rpc_status :=
| Success
| MethodNotFound
| Fenced
| CallerFault
| ConcurrencyRefused
| RemoteError
| MalformedProtocol
| Internal.

#[global] Instance rpc_status_eq_dec : EqDecision rpc_status.
Proof. solve_decision. Defined.

(** [struct RpcError] *)
Record rpc_error := RpcError { re_type_name : pystr; re_message : pystr; re_traceback : pystr }.

#[global] Instance rpc_error_eq_dec : EqDecision rpc_error.
Proof. solve_decision. Defined.

(** [struct RpcRequest] *)
Record rpc_request := RpcRequest {
  rq_protocol : Z;
  rq_request_id : pystr;
  rq_caller : pystr;
  rq_target : pystr;
  rq_operation : rpc_operation;
  rq_method : option pystr;
  rq_batch_len : option Z;
  rq_payload : list N
}.

#[global] Instance rpc_request_eq_dec : EqDecision rpc_request.
Proof. solve_decision. Defined.

(** [RpcRequest::call] *)
Definition request_call (request_id caller target method : pystr) (payload : list N) : rpc_request :=
  RpcRequest RPC_PROTOCOL request_id caller target Call (Some method) None payload.

(** [RpcRequest::batch] *)
Definition request_batch (request_id caller target : pystr) (batch_len : Z) (payload : list N) : rpc_request :=
  RpcRequest RPC_PROTOCOL request_id caller target Batch None (Some batch_len) payload.

(** [RpcRequest::blob_ack] *)
Definition request_blob_ack (request_id : pystr) : rpc_request :=
  RpcRequest RPC_PROTOCOL request_id [] [] BlobAck None None [].

(** [struct RpcReply] *)
Record rpc_reply := RpcReply {
  rp_protocol : Z;
  rp_request_id : pystr;
  rp_status : rpc_status;
  rp_batch_index : option Z;
  rp_completed : option Z;
  rp_error : option rpc_error;
  rp_blob_refs : bool;
  rp_payload : list N
}.

#[global] Instance rpc_reply_eq_dec : EqDecision rpc_reply.
Proof. solve_decision. Defined.

(** [RpcReply::success] *)
Definition reply_success (request_id : pystr) (payload : list N) : rpc_reply :=
  RpcReply RPC_PROTOCOL request_id Success None None None false payload.

(** [RpcReply::error]; the wording of the listener's own messages is left
    out. *)
Definition reply_error (request_id : pystr) (status : rpc_status) (type_name : pystr) : rpc_reply :=
  RpcReply RPC_PROTOCOL request_id status None None (Some (RpcError type_name [] [])) false [].
