(* ===== verification/Admission.v ===== *)
(** * Admission: how much the transport takes on at once

    The budgets of [transport.rs], [transport/server.rs] and
    [transport/client.rs]: connections, frames and their bytes, calls in
    flight, and blobs a reply leaves pinned until they are acknowledged.  Each
    admission needs a permit at several levels (the process, the server or
    endpoint, the connection); a permit is given back when it is dropped, also
    when a later level refuses.  A semaphore is the number of permits it has
    left, and its operations are atomic. *)

From S2P Require Import Prelude PyStr RpcProto.

Local Open Scope Z_scope.

Definition GLOBAL_CONNECTION_LIMIT : Z := 2048.
Definition SERVER_CONNECTION_LIMIT : Z := 512.
Definition GLOBAL_FRAME_LIMIT : Z := 512.
Definition SERVER_FRAME_LIMIT : Z := 128.
Definition SMALL_FRAME_MAX_BYTES : Z := Z.shiftl 1 20.
Definition GLOBAL_SMALL_FRAME_BUDGET_BYTES : Z := Z.shiftl 32 20.
Definition SERVER_SMALL_FRAME_BUDGET_BYTES : Z := Z.shiftl 8 20.
Definition GLOBAL_BULK_FRAME_BUDGET_BYTES : Z := 4 * MAX_RPC_FRAME_BYTES.
Definition SERVER_BULK_FRAME_BUDGET_BYTES : Z := 2 * MAX_RPC_FRAME_BYTES.
Definition USIZE_MAX : Z := 2 ^ 64 - 1.
Definition U32_MAX : Z := 2 ^ 32 - 1.

(** ** Semaphores *)

(** [try_acquire_owned] and [try_acquire_many_owned] *)
Definition try_acquire_many (n available : Z) : option Z :=
  if n <=? available then Some (available - n) else None.

(** ** Connections *)

(** [try_admit_connection]: the two semaphores after it, and whether both
    gave a permit.  A refusal drops the permit it had. *)
Definition try_admit_connection (global server : Z) : bool * (Z * Z) :=
  match try_acquire_many 1 global with
  | None => (false, (global, server))
  | Some global' =>
      match try_acquire_many 1 server with
      | None => (false, (global' + 1, server))
      | Some server' => (true, (global', server'))
      end
  end.

(** ** Frames *)

(** [struct FrameBudgets] *)
Record frame_budgets := FrameBudgets {
  fb_frame_limit : Z; fb_small_limit : Z; fb_bulk_limit : Z;
  fb_frames : Z; fb_small_bytes : Z; fb_bulk_bytes : Z
}.

(** [FrameBudgets::new] *)
Definition new_frame_budgets (frame_limit small_limit bulk_limit : Z) : frame_budgets :=
  FrameBudgets frame_limit small_limit bulk_limit frame_limit small_limit bulk_limit.

Definition fb_in_flight (b : frame_budgets) : Z := fb_frame_limit b - fb_frames b.
Definition fb_small_used (b : frame_budgets) : Z := fb_small_limit b - fb_small_bytes b.
Definition fb_bulk_used (b : frame_budgets) : Z := fb_bulk_limit b - fb_bulk_bytes b.

Definition with_frames (n : Z) (b : frame_budgets) : frame_budgets :=
  FrameBudgets (fb_frame_limit b) (fb_small_limit b) (fb_bulk_limit b) n (fb_small_bytes b) (fb_bulk_bytes b).

(** The bytes of the lane a frame of this length uses. *)
Definition lane (length : Z) (b : frame_budgets) : Z :=
  if length <=? SMALL_FRAME_MAX_BYTES then fb_small_bytes b else fb_bulk_bytes b.
Definition with_lane (length n : Z) (b : frame_budgets) : frame_budgets :=
  if length <=? SMALL_FRAME_MAX_BYTES
  then FrameBudgets (fb_frame_limit b) (fb_small_limit b) (fb_bulk_limit b) (fb_frames b) n (fb_bulk_bytes b)
  else FrameBudgets (fb_frame_limit b) (fb_small_limit b) (fb_bulk_limit b) (fb_frames b) (fb_small_bytes b) n.

Definition take_frame (b : frame_budgets) : option frame_budgets :=
  n ← try_acquire_many 1 (fb_frames b); Some (with_frames n b).
Definition drop_frame (b : frame_budgets) : frame_budgets := with_frames (fb_frames b + 1) b.
Definition take_bytes (length : Z) (b : frame_budgets) : option frame_budgets :=
  n ← try_acquire_many length (lane length b); Some (with_lane length n b).
Definition drop_bytes (length : Z) (b : frame_budgets) : frame_budgets :=
  with_lane length (lane length b + length) b.

(** [try_admit_frame]: permits in the order the code takes them; the [?] of
    a refusal drops those it had. *)
Definition try_admit_frame (global endpoint : frame_budgets) (length : Z) : bool * (frame_budgets * frame_budgets) :=
  if negb ((0 <=? length) && (length <=? U32_MAX)) then (false, (global, endpoint))
  else match take_frame global with
       | None => (false, (global, endpoint))
       | Some g1 =>
           match take_frame endpoint with
           | None => (false, (drop_frame g1, endpoint))
           | Some e1 =>
               match take_bytes length g1 with
               | None => (false, (drop_frame g1, drop_frame e1))
               | Some g2 =>
                   match take_bytes length e1 with
                   | None => (false, (drop_frame (drop_bytes length g2), drop_frame e1))
                   | Some e2 => (true, (g2, e2))
                   end
               end
           end
       end.

(** Dropping a [FrameAdmission] *)
Definition drop_admission (length : Z) (b : frame_budgets) : frame_budgets := drop_bytes length (drop_frame b).

(** [try_admit_client]: the process's and the endpoint's calls in flight,
    then the frame. *)
Definition try_admit_client (global endpoint : Z) (gframes eframes : frame_budgets) (length : Z) :
    bool * (Z * Z * (frame_budgets * frame_budgets)) :=
  match try_acquire_many 1 global with
  | None => (false, (global, endpoint, (gframes, eframes)))
  | Some g =>
      match try_acquire_many 1 endpoint with
      | None => (false, (g + 1, endpoint, (gframes, eframes)))
      | Some e =>
          let '(ok, fs) := try_admit_frame gframes eframes length in
          if ok then (true, (g, e, fs)) else (false, (g + 1, e + 1, fs))
      end
  end.

(** ** Blobs *)

(** [struct BlobReplyBudget] and its state *)
Record blob_budget := BlobBudget { bb_max_refs : Z; bb_max_bytes : Z; bb_refs : Z; bb_bytes : Z }.

(** [BlobReplyBudget::new] *)
Definition new_blob_budget (max_refs max_bytes : Z) : blob_budget := BlobBudget max_refs max_bytes 0 0.

(** [usize::checked_add] *)
Definition checked_add (a b : Z) : option Z := if a + b <=? USIZE_MAX then Some (a + b) else None.

(** [BlobReplyBudget::try_acquire] *)
Definition try_acquire (refs bytes : Z) (b : blob_budget) : option blob_budget :=
  r ← checked_add (bb_refs b) refs;
  if bb_max_refs b <? r then None
  else
    y ← checked_add (bb_bytes b) bytes;
    if bb_max_bytes b <? y then None
    else Some (BlobBudget (bb_max_refs b) (bb_max_bytes b) r y).

(** [Drop for BlobReplyPermit] *)
Definition drop_permit (refs bytes : Z) (b : blob_budget) : blob_budget :=
  BlobBudget (bb_max_refs b) (bb_max_bytes b) (Z.max 0 (bb_refs b - refs)) (Z.max 0 (bb_bytes b - bytes)).

(** ** Many endpoints in one process *)

(** Frames admitted and not yet dropped: the endpoint and the length. *)
Record frames_world := FramesWorld {
  fw_global : frame_budgets;
  fw_endpoints : list frame_budgets;
  fw_live : list (nat * Z)
}.

Inductive frame_event := Admit (endpoint : nat) (length : Z) | Finish (i : nat).

Definition frame_step (w : frames_world) (e : frame_event) : frames_world :=
  match e with
  | Admit i length =>
      match fw_endpoints w !! i with
      | None => w
      | Some b =>
          let '(ok, (g, b)) := try_admit_frame (fw_global w) b length in
          FramesWorld g (<[i := b]> (fw_endpoints w)) (if ok then (i, length) :: fw_live w else fw_live w)
      end
  | Finish k =>
      match fw_live w !! k with
      | None => w
      | Some (i, length) =>
          FramesWorld (drop_admission length (fw_global w)) (alter (drop_admission length) i (fw_endpoints w))
            (delete k (fw_live w))
      end
  end.

Definition frames_run (w : frames_world) (es : list frame_event) : frames_world := fold_left frame_step es w.

(** The budgets of a process that serves [n] endpoints. *)
Definition new_frames (n : nat) : frames_world :=
  FramesWorld
    (new_frame_budgets GLOBAL_FRAME_LIMIT GLOBAL_SMALL_FRAME_BUDGET_BYTES GLOBAL_BULK_FRAME_BUDGET_BYTES)
    (replicate n (new_frame_budgets SERVER_FRAME_LIMIT SERVER_SMALL_FRAME_BUDGET_BYTES SERVER_BULK_FRAME_BUDGET_BYTES))
    [].

(** ** What the budgets promise *)

Definition sum_by {A} (f : A → Z) (l : list A) : Z := foldr (λ x n, f x + n) 0 l.

Lemma sum_by_perm {A} (f : A → Z) (l k : list A) : l ≡ₚ k → sum_by f l = sum_by f k.
Proof. induction 1; simpl; lia. Qed.

Lemma sum_by_nonneg {A} (f : A → Z) (l : list A) : Forall (λ x, 0 ≤ f x) l → 0 ≤ sum_by f l.
Proof. induction 1; simpl; lia. Qed.

(** What a frame weighs in each lane. *)
Definition small_weight (length : Z) : Z := if length <=? SMALL_FRAME_MAX_BYTES then length else 0.
Definition bulk_weight (length : Z) : Z := if length <=? SMALL_FRAME_MAX_BYTES then 0 else length.

(** A budget that has admitted exactly these frames. *)
Record holds (b : frame_budgets) (l : list Z) : Prop := Holds {
  h_frames : fb_in_flight b = len l;
  h_small : fb_small_used b = sum_by small_weight l;
  h_bulk : fb_bulk_used b = sum_by bulk_weight l;
  h_left : 0 ≤ fb_frames b ∧ 0 ≤ fb_small_bytes b ∧ 0 ≤ fb_bulk_bytes b
}.

Lemma holds_perm b l k : l ≡ₚ k → holds b l → holds b k.
Proof.
  intros Hp [H1 H2 H3 H4]. split; [|by rewrite <- (sum_by_perm _ _ _ Hp)..|done].
  rewrite H1. unfold len. by rewrite Hp.
Qed.

Ltac budgets :=
  unfold take_frame, take_bytes, drop_admission, drop_frame, drop_bytes, try_acquire_many, with_frames, with_lane,
    lane, fb_in_flight, fb_small_used, fb_bulk_used, small_weight, bulk_weight in *.

Lemma holds_drop b n l : 0 ≤ n → holds b (n :: l) → holds (drop_admission n b) l.
Proof.
  intros Hn [H1 H2 H3 H4]. rewrite len_cons in H1. simpl in H2, H3. destruct b. budgets. simpl in *.
  destruct (n <=? SMALL_FRAME_MAX_BYTES); split; budgets; simpl; lia.
Qed.

Lemma take_frame_Some b c : take_frame b = Some c → 1 ≤ fb_frames b ∧ c = with_frames (fb_frames b - 1) b.
Proof.
  unfold take_frame, try_acquire_many. destruct (Z.leb_spec 1 (fb_frames b)); [|done]. by intros [= <-].
Qed.

Lemma take_bytes_Some n b c :
  take_bytes n b = Some c → n ≤ lane n b ∧ c = with_lane n (lane n b - n) b.
Proof.
  unfold take_bytes, try_acquire_many. destruct (Z.leb_spec n (lane n b)); [|done]. by intros [= <-].
Qed.

Lemma drop_taken_frame b c : take_frame b = Some c → drop_frame c = b.
Proof. intros [_ ->]%take_frame_Some. destruct b. unfold drop_frame, with_frames. simpl. f_equal. lia. Qed.

Lemma drop_taken_bytes n b c : take_bytes n b = Some c → drop_bytes n c = b.
Proof.
  intros [_ ->]%take_bytes_Some. destruct b. unfold drop_bytes, with_lane, lane.
  destruct (n <=? SMALL_FRAME_MAX_BYTES); simpl; f_equal; lia.
Qed.

Lemma holds_take n b c d l :
  0 ≤ n → holds b l → take_frame b = Some c → take_bytes n c = Some d → holds d (n :: l).
Proof.
  intros Hn [H1 H2 H3 H4] [Hf ->]%take_frame_Some [Hb ->]%take_bytes_Some. destruct b. budgets. simpl in *.
  destruct (n <=? SMALL_FRAME_MAX_BYTES) eqn:E; split; budgets; rewrite ?len_cons; simpl; rewrite ?E; lia.
Qed.

(** An admission takes one frame and its bytes at both levels; a refusal
    takes nothing at either. *)
Lemma try_admit_frame_spec g e n lg le :
  holds g lg → holds e le →
  match try_admit_frame g e n with
  | (true, (g', e')) => 0 ≤ n ∧ holds g' (n :: lg) ∧ holds e' (n :: le)
  | (false, (g', e')) => g' = g ∧ e' = e
  end.
Proof.
  intros Hg He. unfold try_admit_frame.
  destruct (Z.leb_spec 0 n), (Z.leb_spec n U32_MAX); simpl; try done.
  destruct (take_frame g) as [g1|] eqn:Hg1; [|done].
  destruct (take_frame e) as [e1|] eqn:He1; [|split; [by apply drop_taken_frame|done]].
  destruct (take_bytes n g1) as [g2|] eqn:Hg2; [|split; by apply drop_taken_frame].
  destruct (take_bytes n e1) as [e2|] eqn:He2.
  - split_and!; [done|by eapply holds_take..].
  - rewrite (drop_taken_bytes _ _ _ Hg2). split; by apply drop_taken_frame.
Qed.

(** The frames an endpoint holds. *)
Definition lengths_of (i : nat) (l : list (nat * Z)) : list Z := (filter (λ p, p.1 = i) l).*2.

Record frames_ok (w : frames_world) : Prop := FramesOk {
  f_global : holds (fw_global w) (fw_live w).*2;
  f_endpoints : ∀ i b, fw_endpoints w !! i = Some b → holds b (lengths_of i (fw_live w));
  f_live : Forall (λ p, 0 ≤ p.2) (fw_live w)
}.

Lemma frames_ok_admit w i n : frames_ok w → frames_ok (frame_step w (Admit i n)).
Proof.
  intros [Hg He Hl]. cbn [frame_step]. destruct (fw_endpoints w !! i) as [b|] eqn:Hb; [|by split].
  pose proof (try_admit_frame_spec (fw_global w) b n _ _ Hg (He i b Hb)) as Hs.
  destruct (try_admit_frame (fw_global w) b n) as [[] [g' b']].
  - destruct Hs as (Hn & Hg' & Hb'). split; simpl; [done| |by constructor].
    intros j c. unfold lengths_of. rewrite filter_cons. simpl. destruct (decide (i = j)) as [<-|Hne].
    + rewrite list_lookup_insert_eq by (by eapply lookup_lt_Some). by intros [= <-].
    + rewrite list_lookup_insert_ne by done. apply He.
  - destruct Hs as [-> ->]. rewrite list_insert_id by done. by split.
Qed.

Lemma frames_ok_finish w k : frames_ok w → frames_ok (frame_step w (Finish k)).
Proof.
  intros [Hg He Hl]. cbn [frame_step]. destruct (fw_live w !! k) as [[i n]|] eqn:Hk; [|by split].
  pose proof (delete_Permutation _ _ _ Hk) as Hp.
  assert (0 ≤ n) as Hn by (rewrite Hp in Hl; by apply Forall_cons_1 in Hl as [? _]).
  split; simpl.
  - apply holds_drop; [done|]. eapply holds_perm; [|exact Hg]. by rewrite Hp at 1.
  - intros j c. unfold lengths_of. destruct (decide (i = j)) as [<-|Hne].
    + rewrite list_lookup_alter_eq. destruct (fw_endpoints w !! i) as [b|] eqn:Hb; [|done]. intros [= <-].
      apply holds_drop; [done|]. eapply holds_perm; [|exact (He i b Hb)]. unfold lengths_of.
      rewrite Hp at 1. rewrite filter_cons_True by done. done.
    + rewrite list_lookup_alter_ne by done. intros Hc. eapply holds_perm; [|exact (He j c Hc)].
      unfold lengths_of. rewrite Hp at 1. by rewrite filter_cons_False by done.
  - rewrite Hp in Hl. by apply Forall_cons_1 in Hl as [_ ?].
Qed.

Lemma frames_ok_run w es : frames_ok w → frames_ok (frames_run w es).
Proof.
  intros Hw. unfold frames_run. apply (fold_left_ind frames_ok); [done|]. intros v [i n|k]; [apply frames_ok_admit|apply frames_ok_finish].
Qed.

Lemma holds_new f s b : 0 ≤ f → 0 ≤ s → 0 ≤ b → holds (new_frame_budgets f s b) [].
Proof. intros. split; budgets; unfold len; simpl; lia. Qed.

Lemma frames_ok_new n : frames_ok (new_frames n).
Proof.
  split; simpl; [by apply holds_new| |constructor].
  intros i b [-> _]%lookup_replicate. by apply holds_new.
Qed.

(** Whatever frames come and go at however many endpoints, every budget
    counts exactly the frames that are held and none is exceeded; a small
    frame is refused only for want of frames or of the bytes of small ones,
    never because bulk frames are held. *)
Theorem frame_budgets_exact n es (w := frames_run (new_frames n) es) :
  holds (fw_global w) (fw_live w).*2 ∧
  (∀ i b, fw_endpoints w !! i = Some b →
     holds b (lengths_of i (fw_live w)) ∧
     ∀ length, 0 ≤ length ≤ SMALL_FRAME_MAX_BYTES →
       (try_admit_frame (fw_global w) b length).1 = true ↔
       1 ≤ fb_frames (fw_global w) ∧ 1 ≤ fb_frames b ∧
       length ≤ fb_small_bytes (fw_global w) ∧ length ≤ fb_small_bytes b).
Proof.
  destruct (frames_ok_run (new_frames n) es (frames_ok_new n)) as [Hg He _]. fold w in Hg, He.
  split; [done|]. intros i b Hb. split; [by apply He|]. intros x Hx.
  assert (SMALL_FRAME_MAX_BYTES ≤ U32_MAX) as Hu by (vm_compute; discriminate).
  unfold try_admit_frame, take_frame, take_bytes, try_acquire_many, lane, with_frames.
  destruct (Z.leb_spec 0 x), (Z.leb_spec x U32_MAX), (Z.leb_spec x SMALL_FRAME_MAX_BYTES); try lia. simpl.
  destruct (Z.leb_spec 1 (fb_frames (fw_global w))), (Z.leb_spec 1 (fb_frames b)); simpl;
    try (split; [done|intros ?; exfalso; lia]).
  destruct (Z.leb_spec x (fb_small_bytes (fw_global w))), (Z.leb_spec x (fb_small_bytes b)); simpl;
    (split; [try done; lia|intros ?; first [done|exfalso; lia]]).
Qed.

(** A connection or a call that is refused leaves every semaphore and budget
    as it was, at whichever level it was refused. *)
Theorem refused_admission_takes_nothing global server g e gf ef n lg le :
  holds gf lg → holds ef le →
  ((try_admit_connection global server).1 = false → (try_admit_connection global server).2 = (global, server)) ∧
  ((try_admit_client g e gf ef n).1 = false → (try_admit_client g e gf ef n).2 = (g, e, (gf, ef))).
Proof.
  intros Hg He. unfold try_admit_connection, try_admit_client, try_acquire_many. split.
  - destruct (1 <=? global); [|done]. destruct (1 <=? server); [done|]. intros _. simpl. f_equal. lia.
  - destruct (1 <=? g); [|done]. destruct (1 <=? e); [|intros _; simpl; f_equal; f_equal; lia].
    pose proof (try_admit_frame_spec gf ef n _ _ Hg He) as Hs.
    destruct (try_admit_frame gf ef n) as [[] [g' e']]; [done|]. intros _. destruct Hs as [-> ->]. simpl.
    f_equal. f_equal; lia.
Qed.

Lemma refused_admission_takes_nothing_witness :
  ((try_admit_connection 5 0).1 = false → (try_admit_connection 5 0).2 = (5, 0)) ∧
  ((try_admit_client 5 5 (new_frame_budgets 8 8 8) (new_frame_budgets 8 2 8) 4).1 = false →
   (try_admit_client 5 5 (new_frame_budgets 8 8 8) (new_frame_budgets 8 2 8) 4).2
     = (5, 5, (new_frame_budgets 8 8 8, new_frame_budgets 8 2 8))).
Proof. apply (refused_admission_takes_nothing _ _ _ _ _ _ _ [] []); apply holds_new; lia. Defined.
