(* ===== verification/ClientConn.v ===== *)
(** * A client's connection: many calls over one socket

    [transport/client.rs] of [crates/tinyray].  Calls share a connection: each
    reserves a slot, registers its request id, puts its frame in the writer's
    queue and waits for whoever settles it first, the reader with a reply, a
    failure of the connection, its own deadline, or its cancellation.  What a
    caller may conclude depends on how far its frame had come
    ([WriteProgress]): [NotDelivered] invites it to try again.

    The threads of the code are the callers ([exchange]), the writer, the
    reader and the idle timer; everything they share is behind one mutex or
    atomic.  A step of the model is one critical section, and [step] says what
    each may do next, so a list of events is an interleaving.  [poison] raises
    a flag and then, under the mutex, fails every call: two steps.  A call is
    known by a number, as request ids can be used again; a number stands for
    the call's oneshot channel, its frame and the blobs it keeps alive.
    Deadlines, write errors and the peer are events: when they happen is not
    the code's choice.  [Notify::notify_waiters] wakes the one who is waiting
    and leaves nothing for one who is not. *)

From S2P Require Import Prelude PyStr RpcProto.

Local Open Scope Z_scope.

Definition MAX_IDLE_CONNECTIONS : Z := 64.
Definition MAX_INFLIGHT_PER_CONNECTION : Z := 128.
Definition MAX_ABANDONED_PER_CONNECTION : Z := 256.

(** [enum WriteProgress] *)
Inductive write_progress := Queued | Writing | Written.

(** The two [CallError]s the transport itself answers with. *)
Inductive call_error := NotDelivered | OutcomeUnknown.

(** A reply off the wire, and the call whose frame the peer answers with it:
    [None] is a peer that makes one up. *)
Record received := Received { rv_reply : rpc_reply; rv_answers : option nat }.

Inductive delivery := Delivered (r : received) | Failed (e : call_error).

(** [oneshot::Sender]: not used yet, used, or dropped unused. *)
Inductive sender := Open | Sent (d : delivery) | Dropped.

(** [struct PendingCall]: whose it is and how far its frame has come. *)
Record pending_call := PendingCall { pc_call : nat; pc_progress : write_progress }.

(** [struct ClientConnectionState]; an entry of [abandoned] is the call whose
    blobs it keeps alive. *)
Record conn_state := ConnState {
  pending : gmap pystr pending_call;
  abandoned : gmap pystr nat;
  guarded_replies : gset pystr;
  counted_idle : bool
}.

(** [struct WriteCommand]: a request is [tracked] and names its call, an
    acknowledgement is not. *)
Record write_command := WriteCommand { wc_request_id : pystr; wc_frame : option nat }.

(** [client_writer]: in its [select!], inside [write_frame_bytes], past it and
    about to mark, or gone.  The flag is a notification that has arrived. *)
Inductive writer_at := WWaiting (notified : bool) | WWriting (c : write_command) | WWrote (c : write_command) | WFinished.

(** [client_reader]: in its [select!], holding a reply, past its loop and
    waiting for the writer, or gone with the socket and the permit. *)
Inductive reader_at := RReading (notified : bool) | RHolding (r : received) | RLeaving | RFinished.

(** [poisoned], and whether the calls have been failed yet. *)
Inductive poison_flag := Healthy | Draining (writing_unknown : bool) | Poisoned.

(** [struct ClientConnection] *)
Record connection := Connection {
  cn_state : conn_state;
  cn_outbound : list write_command;
  cn_slots : Z;
  cn_poisoned : poison_flag;
  cn_writer : writer_at;
  cn_reader : reader_at;
  cn_expiring : bool
}.

(** Where a call is in [exchange]. *)
Inductive caller_at := Reserved | Registered | Cancellable | Awaiting | Returned (d : delivery).

(** One call: its id, where it is, its oneshot channel, its
    [CallCancellation] and whether its reply's [BlobReplyAck] is alive. *)
Record caller := Caller {
  ca_id : pystr;
  ca_at : caller_at;
  ca_sender : sender;
  ca_requested : bool;
  ca_target : bool;
  ca_ack : bool
}.

(** The connection, what the client keeps for all its connections, the calls,
    the frames the peer has whole, and which of them it has not answered. *)
Record link := Link {
  conn : connection;
  idle_connections : Z;
  client_alive : bool;
  callers : gmap nat caller;
  sent : list nat;
  unanswered : gset nat
}.

Definition is_healthy (l : link) : bool := match cn_poisoned (conn l) with Healthy => true | _ => false end.

Definition st (l : link) : conn_state := cn_state (conn l).

Definition with_conn (c : connection) (l : link) : link :=
  Link c (idle_connections l) (client_alive l) (callers l) (sent l) (unanswered l).
Definition with_state (s : conn_state) (l : link) : link :=
  let c := conn l in
  with_conn (Connection s (cn_outbound c) (cn_slots c) (cn_poisoned c) (cn_writer c) (cn_reader c) (cn_expiring c)) l.
Definition with_outbound (q : list write_command) (l : link) : link :=
  let c := conn l in
  with_conn (Connection (cn_state c) q (cn_slots c) (cn_poisoned c) (cn_writer c) (cn_reader c) (cn_expiring c)) l.
Definition with_slots (n : Z) (l : link) : link :=
  let c := conn l in
  with_conn (Connection (cn_state c) (cn_outbound c) n (cn_poisoned c) (cn_writer c) (cn_reader c) (cn_expiring c)) l.
Definition with_poison (p : poison_flag) (l : link) : link :=
  let c := conn l in
  with_conn (Connection (cn_state c) (cn_outbound c) (cn_slots c) p (cn_writer c) (cn_reader c) (cn_expiring c)) l.
Definition with_writer (w : writer_at) (l : link) : link :=
  let c := conn l in
  with_conn (Connection (cn_state c) (cn_outbound c) (cn_slots c) (cn_poisoned c) w (cn_reader c) (cn_expiring c)) l.
Definition with_reader (r : reader_at) (l : link) : link :=
  let c := conn l in
  with_conn (Connection (cn_state c) (cn_outbound c) (cn_slots c) (cn_poisoned c) (cn_writer c) r (cn_expiring c)) l.
Definition with_expiring (b : bool) (l : link) : link :=
  let c := conn l in
  with_conn (Connection (cn_state c) (cn_outbound c) (cn_slots c) (cn_poisoned c) (cn_writer c) (cn_reader c) b) l.
Definition with_idle (n : Z) (l : link) : link :=
  Link (conn l) n (client_alive l) (callers l) (sent l) (unanswered l).
Definition with_callers (cs : gmap nat caller) (l : link) : link :=
  Link (conn l) (idle_connections l) (client_alive l) cs (sent l) (unanswered l).
Definition with_pending (m : gmap pystr pending_call) (l : link) : link :=
  with_state (ConnState m (abandoned (st l)) (guarded_replies (st l)) (counted_idle (st l))) l.
Definition with_counted (b : bool) (l : link) : link :=
  with_state (ConnState (pending (st l)) (abandoned (st l)) (guarded_replies (st l)) b) l.
Definition with_abandoned (m : gmap pystr nat) (l : link) : link :=
  with_state (ConnState (pending (st l)) m (guarded_replies (st l)) (counted_idle (st l))) l.
Definition with_guarded (g : gset pystr) (l : link) : link :=
  with_state (ConnState (pending (st l)) (abandoned (st l)) g (counted_idle (st l))) l.

Definition set_at (at_ : caller_at) (c : caller) : caller :=
  Caller (ca_id c) at_ (ca_sender c) (ca_requested c) (ca_target c) (ca_ack c).
Definition set_sender (s : sender) (c : caller) : caller :=
  Caller (ca_id c) (ca_at c) s (ca_requested c) (ca_target c) (ca_ack c).
Definition set_cancellation (requested target : bool) (c : caller) : caller :=
  Caller (ca_id c) (ca_at c) (ca_sender c) requested target (ca_ack c).
Definition set_ack (ack : bool) (c : caller) : caller :=
  Caller (ca_id c) (ca_at c) (ca_sender c) (ca_requested c) (ca_target c) ack.

(** Writing to the record of call [n]. *)
Definition on_caller (n : nat) (f : caller → caller) (l : link) : link := with_callers (alter f n (callers l)) l.

(** ** [impl ClientConnection] *)

(** [poison], up to its flag: the first one decides how calls are failed. *)
Definition poison (writing_unknown : bool) (l : link) : link :=
  if is_healthy l then with_poison (Draining writing_unknown) l else l.

(** What [poison] tells a call whose frame had come this far. *)
Definition poison_error (writing_unknown : bool) (p : write_progress) : call_error :=
  match p with
  | Queued => NotDelivered
  | Writing => if writing_unknown then OutcomeUnknown else NotDelivered
  | Written => OutcomeUnknown
  end.

(** [for (_, pending) in pending { pending.sender.send(Err(error)) }] *)
Definition fail_pending (writing_unknown : bool) (m : gmap pystr pending_call) (cs : gmap nat caller) : gmap nat caller :=
  map_imap (λ n c, Some
    match m !! ca_id c with
    | Some p => if bool_decide (pc_call p = n)
                then set_sender (Sent (Failed (poison_error writing_unknown (pc_progress p)))) c else c
    | None => c
    end) cs.

(** [shutdown.notify_waiters()] *)
Definition notify_shutdown (l : link) : link :=
  let l := match cn_writer (conn l) with WWaiting _ => with_writer (WWaiting true) l | _ => l end in
  match cn_reader (conn l) with RReading _ => with_reader (RReading true) l | _ => l end.

(** [poison], from the mutex on. *)
Definition drain (l : link) : option link :=
  match cn_poisoned (conn l) with
  | Draining writing_unknown =>
      let s := st l in
      let l := if counted_idle s && client_alive l then with_idle (idle_connections l - 1) l else l in
      let l := with_callers (fail_pending writing_unknown (pending s) (callers l)) l in
      let l := with_slots (cn_slots (conn l) + Z.of_nat (size (pending s))) l in
      let l := with_state (ConnState ∅ ∅ ∅ (counted_idle s)) l in
      Some (notify_shutdown (with_poison Poisoned l))
  | _ => None
  end.

(** [mark_idle]: whether the connection has to be closed instead. *)
Definition mark_idle (l : link) : bool * link :=
  if negb (bool_decide (pending (st l) = ∅)) || negb (bool_decide (guarded_replies (st l) = ∅))
     || counted_idle (st l) || negb (is_healthy l)
  then (false, l)
  else if negb (client_alive l) then (true, l)
  else if idle_connections l <? MAX_IDLE_CONNECTIONS
  then (false, with_counted true (with_idle (idle_connections l + 1) l))
  else (true, l).

(** [try_reserve]; the slot taken is given back when the id is in use. *)
Definition try_reserve (request_id : pystr) (l : link) : option link :=
  if negb (is_healthy l) then None
  else if cn_slots (conn l) <=? 0 then None
  else if bool_decide (is_Some (pending (st l) !! request_id))
       || bool_decide (is_Some (abandoned (st l) !! request_id))
       || bool_decide (request_id ∈ guarded_replies (st l)) then None
  else
    let l := if counted_idle (st l)
             then with_counted false (if client_alive l then with_idle (idle_connections l - 1) l else l)
             else l in
    Some (with_slots (cn_slots (conn l) - 1) l).

(** [register] *)
Definition register (n : nat) (request_id : pystr) (l : link) : option link :=
  if negb (is_healthy l) || bool_decide (is_Some (pending (st l) !! request_id))
     || bool_decide (is_Some (abandoned (st l) !! request_id)) then None
  else Some (with_pending (<[request_id := PendingCall n Queued]> (pending (st l))) l).

(** [mark_writing] *)
Definition mark_writing (request_id : pystr) (l : link) : option link :=
  match pending (st l) !! request_id with
  | None => None
  | Some p => Some (with_pending (<[request_id := PendingCall (pc_call p) Writing]> (pending (st l))) l)
  end.

(** [mark_written] *)
Definition mark_written (request_id : pystr) (l : link) : link :=
  with_pending (alter (λ p, PendingCall (pc_call p) Written) request_id (pending (st l))) l.

(** [outbound.try_send]: the queue is full, or nobody receives any more. *)
Definition try_send (c : write_command) (l : link) : option link :=
  if match cn_writer (conn l) with WFinished => true | _ => false end
     || (MAX_INFLIGHT_PER_CONNECTION <=? len (cn_outbound (conn l)))
  then None else Some (with_outbound (cn_outbound (conn l) ++ [c]) l).

(** [queue_blob_ack] *)
Definition queue_blob_ack (request_id : pystr) (l : link) : link :=
  match try_send (WriteCommand request_id None) l with Some l => l | None => poison false l end.

(** [send_blob_ack] *)
Definition send_blob_ack (request_id : pystr) (l : link) : link :=
  if negb (bool_decide (request_id ∈ guarded_replies (st l))) then l
  else
    let '(close, l) := mark_idle (with_guarded (guarded_replies (st l) ∖ {[request_id]}) l) in
    if close then poison true l else queue_blob_ack request_id l.

(** [abandon]: how far the frame had come, [None] for [Completed]. *)
Definition abandon (request_id : pystr) (l : link) : option write_progress * link :=
  match pending (st l) !! request_id with
  | None => (None, l)
  | Some p =>
      let l := with_pending (delete request_id (pending (st l))) l in
      let l := on_caller (pc_call p) (set_sender Dropped) (with_slots (cn_slots (conn l) + 1) l) in
      let l := match pc_progress p with
               | Queued => l
               | _ => with_abandoned (<[request_id := pc_call p]> (abandoned (st l))) l
               end in
      let overflow := MAX_ABANDONED_PER_CONNECTION <? Z.of_nat (size (abandoned (st l))) in
      let '(close, l) := mark_idle l in
      (Some (pc_progress p), if overflow || close then poison false l else l)
  end.

(** [route]: whether the reader stops. *)
Definition route (r : received) (l : link) : bool * link :=
  let request_id := rp_request_id (rv_reply r) in
  match pending (st l) !! request_id with
  | Some p =>
      let l := with_slots (cn_slots (conn l) + 1) (with_pending (delete request_id (pending (st l))) l) in
      let l := if rp_blob_refs (rv_reply r) then with_guarded ({[request_id]} ∪ guarded_replies (st l)) l else l in
      let '(close, l) := mark_idle l in
      let l := on_caller (pc_call p) (λ c, set_ack (rp_blob_refs (rv_reply r)) (set_sender (Sent (Delivered r)) c)) l in
      (bool_decide (rp_status (rv_reply r) = MalformedProtocol), if close then poison true l else l)
  | None =>
      match abandoned (st l) !! request_id with
      | Some _ =>
          let '(close, l) := mark_idle (with_abandoned (delete request_id (abandoned (st l))) l) in
          let l := if rp_blob_refs (rv_reply r) then queue_blob_ack request_id l else l in
          (false, if close then poison true l else l)
      | None => (true, poison true l)
      end
  end.

(** [timed_out_error] *)
Definition timed_out_error (request_id : pystr) (l : link) : call_error * link :=
  match abandon request_id l with
  | (Some Queued, l) => (NotDelivered, l)
  | (Some Writing, l) => (NotDelivered, poison false l)
  | (Some Written, l) | (None, l) => (OutcomeUnknown, l)
  end.

(** ** The threads *)

Inductive event :=
(* [exchange] *)
| Reserve (n : nat) (request_id : pystr)
| Register (n : nat)
| RegisterCancellation (n : nat)
| Enqueue (n : nat)
| Resolve (n : nat)
| Expire (n : nat)
| Cancel (n : nat)
| DropReply (n : nat)
(* [client_writer] *)
| Receive
| WriteDone
| WriteFailed
| Mark
| WriterShutdown
(* [client_reader] and the peer *)
| Arrive (n : nat) (r : rpc_reply)
| Invent (r : rpc_reply)
| Route
| PeerGone
| ReaderShutdown
| ReaderFinish
(* [poison] from the mutex on *)
| Drain
(* [client_idle] *)
| IdleCheck
| IdleExpired
(* the rest of the client *)
| PoolDropped
| ClientDropped
| OthersIdle (n : Z).

(** The caller of call [n], when it is at this point of [exchange]. *)
Definition caller_in (n : nat) (at_ : caller_at → bool) (l : link) : option caller :=
  match callers l !! n with Some c => if at_ (ca_at c) then Some c else None | None => None end.

Definition at_reserved (a : caller_at) : bool := match a with Reserved => true | _ => false end.
Definition at_registered (a : caller_at) : bool := match a with Registered => true | _ => false end.
Definition at_cancellable (a : caller_at) : bool := match a with Cancellable => true | _ => false end.
Definition at_awaiting (a : caller_at) : bool := match a with Awaiting => true | _ => false end.

(** What [exchange] returns: its cancellation is over. *)
Definition returns (n : nat) (d : delivery) (l : link) : link :=
  on_caller n (λ c, set_at (Returned d) (set_cancellation (ca_requested c) false c)) l.

(** [client_writer] after its loop: the queue goes with the receiver. *)
Definition writer_ends (l : link) : link := with_writer WFinished (with_outbound [] l).

Definition frame_arrived (c : write_command) (l : link) : link :=
  match wc_frame c with
  | Some n => Link (conn l) (idle_connections l) (client_alive l) (callers l) (sent l ++ [n]) ({[n]} ∪ unanswered l)
  | None => l
  end.

(** The steps of [exchange] for call [n], and of what outlives it. *)
Definition caller_step (l : link) (e : event) : option link :=
  match e with
  | Reserve n request_id =>
      if bool_decide (is_Some (callers l !! n)) then None
      else
        l ← try_reserve request_id l;
        Some (with_callers (<[n := Caller request_id Reserved Open false false false]> (callers l)) l)
  | Register n =>
      c ← caller_in n at_reserved l;
      match register n (ca_id c) l with
      | Some l => Some (on_caller n (set_at Registered) l)
      | None => Some (returns n (Failed NotDelivered)
                  (on_caller n (set_sender Dropped) (with_slots (cn_slots (conn l) + 1) l)))
      end
  | RegisterCancellation n =>
      c ← caller_in n at_registered l;
      if ca_requested c then Some (returns n (Failed NotDelivered) (abandon (ca_id c) l).2)
      else Some (on_caller n (λ c, set_at Cancellable (set_cancellation false true c)) l)
  | Enqueue n =>
      c ← caller_in n at_cancellable l;
      let l := match try_send (WriteCommand (ca_id c) (Some n)) l with Some l => l | None => poison false l end in
      Some (on_caller n (set_at Awaiting) l)
  | Resolve n =>
      c ← caller_in n at_awaiting l;
      match ca_sender c with
      | Sent d => Some (returns n d l)
      | Dropped => Some (returns n (Failed OutcomeUnknown) l)
      | Open => None
      end
  | Expire n =>
      c ← caller_in n at_awaiting l;
      let '(e, l) := timed_out_error (ca_id c) l in Some (returns n (Failed e) l)
  | Cancel n =>
      c ← callers l !! n;
      let l := on_caller n (set_cancellation true false) l in
      Some (if ca_target c then (abandon (ca_id c) l).2 else l)
  | DropReply n =>
      c ← callers l !! n;
      if ca_ack c then Some (send_blob_ack (ca_id c) (on_caller n (set_ack false) l)) else None
  | _ => None
  end.

(** The steps of [client_writer]. *)
Definition writer_step (l : link) (e : event) : option link :=
  match e, cn_writer (conn l) with
  | Receive, WWaiting _ =>
      match cn_outbound (conn l) with
      | [] => None
      | c :: rest =>
          let l := with_outbound rest l in
          match wc_frame c with
          | Some _ => match mark_writing (wc_request_id c) l with
                      | Some l => Some (with_writer (WWriting c) l)
                      | None => Some (with_writer (WWaiting false) l)
                      end
          | None => Some (with_writer (WWriting c) l)
          end
      end
  | WriteDone, WWriting c => Some (with_writer (WWrote c) (frame_arrived c l))
  | WriteFailed, WWriting _ => Some (writer_ends (poison false l))
  | Mark, WWrote c =>
      Some (with_writer (WWaiting false)
        (match wc_frame c with Some _ => mark_written (wc_request_id c) l | None => l end))
  | WriterShutdown, WWaiting true => Some (writer_ends l)
  | _, _ => None
  end.

(** A reply the reader has read. *)
Definition arrives (r : received) (l : link) : link :=
  if rp_protocol (rv_reply r) =? RPC_PROTOCOL then with_reader (RHolding r) l
  else with_reader RLeaving (poison true l).

(** The steps of [client_reader], and what the peer sends it. *)
Definition reader_step (l : link) (e : event) : option link :=
  match e, cn_reader (conn l) with
  | Arrive n r, RReading _ =>
      c ← callers l !! n;
      if bool_decide (n ∈ unanswered l) && bool_decide (rp_request_id r = ca_id c)
      then Some (arrives (Received r (Some n))
             (Link (conn l) (idle_connections l) (client_alive l) (callers l) (sent l) (unanswered l ∖ {[n]})))
      else None
  | Invent r, RReading _ => Some (arrives (Received r None) l)
  | Route, RHolding r =>
      let '(stop, l) := route r l in Some (with_reader (if stop then RLeaving else RReading false) l)
  | PeerGone, RReading _ => Some (with_reader RLeaving (poison true l))
  | ReaderShutdown, RReading true => Some (with_reader RLeaving l)
  | ReaderFinish, RLeaving =>
      match cn_writer (conn l) with WFinished => Some (with_reader RFinished l) | _ => None end
  | _, _ => None
  end.

Definition step (l : link) (e : event) : option link :=
  match e with
  | Receive | WriteDone | WriteFailed | Mark | WriterShutdown => writer_step l e
  | Arrive _ _ | Invent _ | Route | PeerGone | ReaderShutdown | ReaderFinish => reader_step l e
  | Drain => drain l
  | IdleCheck => Some (with_expiring (is_healthy l && bool_decide (pending (st l) = ∅)
                        && bool_decide (guarded_replies (st l) = ∅)) l)
  | IdleExpired => if cn_expiring (conn l) then Some (poison true (with_expiring false l)) else None
  | PoolDropped => Some (poison true l)
  | ClientDropped => Some (Link (conn l) (idle_connections l) false (callers l) (sent l) (unanswered l))
  | OthersIdle n => Some (with_idle n l)
  | _ => caller_step l e
  end.

(** [ClientConnection::new] *)
Definition new_link : link :=
  Link (Connection (ConnState ∅ ∅ ∅ false) [] MAX_INFLIGHT_PER_CONNECTION Healthy
          (WWaiting false) (RReading false) false) 0 true ∅ [] ∅.

Fixpoint run (l : link) (es : list event) : option link :=
  match es with [] => Some l | e :: es => l ← step l e; run l es end.

(** ** What the theorems speak about *)

(** The requests in the writer's queue, with the call each belongs to. *)
Definition queue (l : link) : list (pystr * nat) :=
  omap (λ c, n ← wc_frame c; Some (wc_request_id c, n)) (cn_outbound (conn l)).

(** The call whose frame the writer is inside of. *)
Definition at_hand (l : link) : option nat :=
  match cn_writer (conn l) with WWriting c | WWrote c => wc_frame c | _ => None end.

Definition has_returned (c : caller) : bool := match ca_at c with Returned _ => true | _ => false end.

(** An id is used again only when every call that used it has returned and
    none of them has a frame in the queue; the peer makes up no replies. *)
Definition careful (l : link) (e : event) : bool :=
  match e with
  | Register n =>
      match callers l !! n with
      | Some c => bool_decide (map_Forall (λ m c', m = n ∨ ca_id c' ≠ ca_id c ∨ has_returned c' = true) (callers l))
                  && bool_decide (ca_id c ∉ (queue l).*1)
      | None => true
      end
  | Invent _ => false
  | _ => true
  end.

Fixpoint careful_run (l : link) (es : list event) : bool :=
  match es with
  | [] => true
  | e :: es => careful l e && match step l e with Some l => careful_run l es | None => true end
  end.

(** What every operation but those on calls and frames leaves alone. *)
Record same (l k : link) : Prop := Same {
  same_pending : pending (st l) = pending (st k);
  same_abandoned : abandoned (st l) = abandoned (st k);
  same_callers : callers l = callers k;
  same_slots : cn_slots (conn l) = cn_slots (conn k);
  same_drained : cn_poisoned (conn l) = Poisoned ↔ cn_poisoned (conn k) = Poisoned;
  same_queue : queue l = queue k;
  same_writer : cn_writer (conn l) = cn_writer (conn k);
  same_reader : cn_reader (conn l) = cn_reader (conn k);
  same_sent : sent l = sent k;
  same_unanswered : unanswered l = unanswered k
}.

#[global] Instance same_equivalence : Equivalence same.
Proof.
  split.
  - by intros l.
  - intros l k []. by split.
  - intros l k m [] []. split; try congruence. by etrans.
Qed.

Lemma poison_same b l : same (poison b l) l.
Proof.
  unfold poison, is_healthy. destruct (cn_poisoned (conn l)) eqn:Hp; try done.
  split; try done. simpl. by rewrite Hp.
Qed.

Lemma mark_idle_same l : same (mark_idle l).2 l.
Proof. unfold mark_idle. repeat case_match; done. Qed.

Lemma try_send_ack_same x l k : try_send (WriteCommand x None) l = Some k → same k l.
Proof.
  unfold try_send. case_match; [done|]. intros [= <-]. split; try done.
  unfold queue. simpl. rewrite omap_app. simpl. by rewrite app_nil_r.
Qed.

Lemma queue_blob_ack_same x l : same (queue_blob_ack x l) l.
Proof.
  unfold queue_blob_ack. destruct (try_send _ l) eqn:H; [by apply try_send_ack_same in H|apply poison_same].
Qed.

Lemma send_blob_ack_same x l : same (send_blob_ack x l) l.
Proof.
  unfold send_blob_ack. case_match; [done|].
  pose proof (mark_idle_same (with_guarded (guarded_replies (st l) ∖ {[x]}) l)) as Hi.
  destruct (mark_idle _) as [close k]. simpl in Hi.
  assert (same k l) by (etrans; [exact Hi|done]).
  destruct close; etrans; eauto using poison_same, queue_blob_ack_same.
Qed.

(** [abandon] and [route] up to what they leave alone. *)
Definition abandoned_with (x : pystr) (p : pending_call) (l : link) : link :=
  let l := with_pending (delete x (pending (st l))) l in
  let l := on_caller (pc_call p) (set_sender Dropped) (with_slots (cn_slots (conn l) + 1) l) in
  match pc_progress p with
  | Queued => l
  | _ => with_abandoned (<[x := pc_call p]> (abandoned (st l))) l
  end.

Lemma abandon_spec x l :
  match pending (st l) !! x with
  | None => abandon x l = (None, l)
  | Some p => (abandon x l).1 = Some (pc_progress p) ∧ same (abandon x l).2 (abandoned_with x p l)
  end.
Proof.
  unfold abandon. destruct (pending (st l) !! x) as [p|] eqn:Hp; [|done].
  fold (abandoned_with x p l). cbv zeta.
  pose proof (mark_idle_same (abandoned_with x p l)) as Hi. revert Hi. unfold abandoned_with at 1 3. cbv zeta.
  destruct (mark_idle _) as [close k]. intros Hi. simpl in Hi. simpl. split; [done|].
  case_match; [|done]. etrans; [apply poison_same|done].
Qed.

Lemma on_caller_same n f l k : same l k → same (on_caller n f l) (on_caller n f k).
Proof. intros []. split; try done. simpl. by f_equal. Qed.

Definition settle (r : received) (c : caller) : caller :=
  set_ack (rp_blob_refs (rv_reply r)) (set_sender (Sent (Delivered r)) c).

Lemma route_spec r l (x := rp_request_id (rv_reply r)) :
  same (route r l).2
    match pending (st l) !! x with
    | Some p => on_caller (pc_call p) (settle r)
                  (with_slots (cn_slots (conn l) + 1) (with_pending (delete x (pending (st l))) l))
    | None => with_abandoned (delete x (abandoned (st l))) l
    end.
Proof.
  unfold route. fold x. destruct (pending (st l) !! x) as [p|] eqn:Hp; cbv zeta.
  - set (l1 := with_slots _ _). set (l2 := if rp_blob_refs _ then _ else l1).
    assert (same l2 l1) as H2 by (subst l2; by case_match).
    pose proof (mark_idle_same l2) as Hi. destruct (mark_idle l2) as [close k]. simpl in *.
    fold (settle r). assert (same (on_caller (pc_call p) (settle r) k) (on_caller (pc_call p) (settle r) l1)).
    { apply on_caller_same. by etrans. }
    destruct close; [etrans; [apply poison_same|done]|done].
  - destruct (abandoned (st l) !! x) eqn:Ha.
    + set (l1 := with_abandoned _ _). pose proof (mark_idle_same l1) as Hi.
      destruct (mark_idle l1) as [close k]. simpl in *.
      assert (same (if rp_blob_refs (rv_reply r) then queue_blob_ack x k else k) l1).
      { case_match; [etrans; [apply queue_blob_ack_same|done]|done]. }
      destruct close; [etrans; [apply poison_same|done]|done].
    + simpl. rewrite delete_id by done. etrans; [apply poison_same|done].
Qed.

(** ** Every call waits for something *)

Definition started (c : caller) : Prop :=
  match ca_at c with Registered | Cancellable | Awaiting => True | _ => False end.

(** A pending entry is a call that waits; a call that waits has one; after
    [poison] there are none left; an abandoned id is not pending. *)
Record sound (l : link) : Prop := Sound {
  s_pending : ∀ x p, pending (st l) !! x = Some p →
    ∃ c, callers l !! pc_call p = Some c ∧ ca_id c = x ∧ ca_sender c = Open ∧ started c;
  s_open : ∀ n c, callers l !! n = Some c → ca_sender c = Open →
    ca_at c = Reserved ∨ ∃ p, pending (st l) !! ca_id c = Some p ∧ pc_call p = n;
  s_reserved : ∀ n c, callers l !! n = Some c → ca_at c = Reserved → ca_sender c = Open;
  s_drained : cn_poisoned (conn l) = Poisoned → pending (st l) = ∅ ∧ abandoned (st l) = ∅;
  s_disjoint : ∀ x, is_Some (abandoned (st l) !! x) → pending (st l) !! x = None
}.

Lemma sound_same l k : same l k → sound k → sound l.
Proof.
  intros [Hp Ha Hc _ Hd _ _ _ _ _] [H1 H2 H3 H4 H5].
  split; rewrite ?Hp, ?Ha, ?Hc; [exact H1|exact H2|exact H3| |exact H5].
  intros HP. by apply H4, Hd.
Qed.

(** A caller goes on without touching its channel. *)
Lemma sound_on_caller n f l :
  sound l →
  (∀ c, callers l !! n = Some c → ca_id (f c) = ca_id c ∧ ca_sender (f c) = ca_sender c ∧
     (ca_at (f c) = ca_at c ∨ started c ∧ started (f c) ∨
      ca_sender c ≠ Open ∧ ca_at (f c) ≠ Reserved)) →
  sound (on_caller n f l).
Proof.
  intros [H1 H2 H3 H4 H5] Hf. split; simpl; [| | |done|done].
  - intros x p Hp. destruct (H1 x p Hp) as (c & Hc & Hx & Ho & Hs).
    destruct (decide (n = pc_call p)) as [->|Hne].
    + rewrite lookup_alter_eq, Hc. exists (f c). destruct (Hf c Hc) as (Hi & Hse & Hat).
      split_and!; [done|congruence|congruence|]. unfold started in *.
      destruct Hat as [->|[[_ ?]|[? _]]]; done.
    + rewrite lookup_alter_ne by done. eauto.
  - intros m c. destruct (decide (n = m)) as [->|Hne].
    + rewrite lookup_alter_eq. destruct (callers l !! m) as [c0|] eqn:Hc; [|done].
      intros [= <-] Ho. destruct (Hf c0 eq_refl) as (Hi & Hse & Hat). rewrite Hi.
      destruct (H2 m c0 Hc) as [Hr|Hr]; [congruence| |by right].
      destruct Hat as [->|[[? _]|[? _]]]; [by left| |congruence]. unfold started in *. by rewrite Hr in *.
    + rewrite lookup_alter_ne by done. apply H2.
  - intros m c. destruct (decide (n = m)) as [->|Hne].
    + rewrite lookup_alter_eq. destruct (callers l !! m) as [c0|] eqn:Hc; [|done].
      intros [= <-] Hr. destruct (Hf c0 eq_refl) as (Hi & -> & Hat).
      destruct Hat as [Hat|[[_ Hs]|[_ ?]]]; [|by unfold started in Hs; rewrite Hr in Hs|done].
      apply (H3 m c0 Hc). congruence.
    + rewrite lookup_alter_ne by done. apply H3.
Qed.

(** A pending call is taken out and its channel used or dropped. *)
Lemma sound_take x p f z l :
  sound l → pending (st l) !! x = Some p →
  (∀ c, ca_id (f c) = ca_id c ∧ ca_sender (f c) ≠ Open ∧ ca_at (f c) = ca_at c) →
  sound (on_caller (pc_call p) f (with_slots z (with_pending (delete x (pending (st l))) l))).
Proof.
  intros [H1 H2 H3 H4 H5] Hp Hf. split; simpl.
  - intros y q [Hne Hq]%lookup_delete_Some. destruct (H1 y q Hq) as (c & Hc & Hx & Ho & Hs).
    destruct (decide (pc_call p = pc_call q)) as [He|Hne'].
    + destruct (H1 x p Hp) as (c' & Hc' & Hx' & _). exfalso. rewrite He in Hc'. naive_solver.
    + rewrite lookup_alter_ne by done. eauto.
  - intros m c. destruct (decide (pc_call p = m)) as [<-|Hne].
    + rewrite lookup_alter_eq. destruct (callers l !! pc_call p) as [c0|]; [|done].
      intros [= <-] Ho. by destruct (Hf c0) as (_ & ? & _).
    + rewrite lookup_alter_ne by done. intros Hc Ho.
      destruct (H2 m c Hc Ho) as [?|(q & Hq & Hqm)]; [by left|]. right. exists q.
      split; [|done]. apply lookup_delete_Some. split; [|done]. intros ->. naive_solver.
  - intros m c. destruct (decide (pc_call p = m)) as [<-|Hne].
    + rewrite lookup_alter_eq. destruct (H1 x p Hp) as (c0 & -> & _ & _ & Hs).
      intros [= <-] Hr. destruct (Hf c0) as (_ & _ & Ha). unfold started in Hs. congruence || by rewrite <- Ha, Hr in Hs.
    + rewrite lookup_alter_ne by done. apply H3.
  - intros HP. destruct (H4 HP) as [Hp0 _]. by rewrite Hp0 in Hp.
  - intros y Hy. apply lookup_delete_None. right. eauto.
Qed.

Lemma sound_abandoned_with x p l :
  sound l → pending (st l) !! x = Some p → sound (abandoned_with x p l).
Proof.
  intros Hs Hp.
  assert (sound (abandoned_with x (PendingCall (pc_call p) Queued) l)) as [T1 T2 T3 T4 T5].
  { apply (sound_take x p (set_sender Dropped)); done. }
  destruct p as [n pr]. destruct pr; [done| |];
    (split; simpl in *; [exact T1|exact T2|exact T3| |];
     [intros HP; destruct (s_drained l Hs HP) as [Hp0 _]; by rewrite Hp0 in Hp|];
     intros y; destruct (decide (x = y)) as [->|Hne];
     [intros _; by rewrite lookup_delete_eq|rewrite lookup_insert_ne by done; apply T5]).
Qed.

Lemma sound_abandon x l : sound l → sound (abandon x l).2.
Proof.
  intros Hs. pose proof (abandon_spec x l) as H. destruct (pending (st l) !! x) as [p|] eqn:Hp.
  - destruct H as [_ H]. eapply sound_same; [exact H|]. by apply sound_abandoned_with.
  - by rewrite H.
Qed.

Lemma sound_route r l : sound l → sound (route r l).2.
Proof.
  intros Hs. eapply sound_same; [apply route_spec|]. destruct (pending _ !! _) as [p|] eqn:Hp.
  - apply sound_take; [done..|]. intros c. done.
  - destruct Hs as [H1 H2 H3 H4 H5]. split; simpl; [done..| |].
    + intros HP. destruct (H4 HP) as [? Ha]. rewrite Ha, delete_empty. done.
    + intros y [? [_ ?]%lookup_delete_Some]. apply H5. eauto.
Qed.

(** What only touches the writer, the reader, the queue and the figures. *)
Lemma sound_core l k :
  pending (st l) = pending (st k) → abandoned (st l) = abandoned (st k) → callers l = callers k →
  cn_poisoned (conn l) = cn_poisoned (conn k) → sound k → sound l.
Proof.
  intros Hp Ha Hc Hd [H1 H2 H3 H4 H5]. split; rewrite ?Hp, ?Ha, ?Hc, ?Hd; assumption.
Qed.

Lemma sound_poison b l : sound l → sound (poison b l).
Proof. apply sound_same, poison_same. Qed.

(** [mark_writing] and [mark_written] change how far a frame has come. *)
Lemma sound_progress x p pr l :
  sound l → pending (st l) !! x = Some p →
  sound (with_pending (<[x := PendingCall (pc_call p) pr]> (pending (st l))) l).
Proof.
  intros [H1 H2 H3 H4 H5] Hp. split; simpl; [| |done| |].
  - intros y q. destruct (decide (x = y)) as [->|Hne].
    + rewrite lookup_insert_eq. intros [= <-]. apply (H1 y p Hp).
    + rewrite lookup_insert_ne by done. apply H1.
  - intros n c Hc Ho. destruct (H2 n c Hc Ho) as [?|(q & Hq & Hn)]; [by left|right].
    destruct (decide (x = ca_id c)) as [->|Hne].
    + rewrite lookup_insert_eq. eexists. split; [done|]. simpl. congruence.
    + rewrite lookup_insert_ne by done. eauto.
  - intros HP. destruct (H4 HP) as [Hp0 _]. by rewrite Hp0 in Hp.
  - intros y Hy. destruct (decide (x = y)) as [->|Hne]; [|rewrite lookup_insert_ne by done; by apply H5].
    apply H5 in Hy. congruence.
Qed.

Lemma sound_mark_written x l : sound l → sound (mark_written x l).
Proof.
  intros Hs. unfold mark_written. destruct (pending (st l) !! x) as [p|] eqn:Hp.
  - rewrite (alter_known _ _ p) by done. by apply sound_progress.
  - eapply sound_core; [..|exact Hs]; try done. simpl. by rewrite alter_id by naive_solver.
Qed.

Lemma try_reserve_spec x l k :
  try_reserve x l = Some k →
  cn_poisoned (conn l) = Healthy ∧ 0 < cn_slots (conn l) ∧ pending (st l) !! x = None ∧
  abandoned (st l) !! x = None ∧ same k (with_slots (cn_slots (conn l) - 1) l).
Proof.
  unfold try_reserve, is_healthy. destruct (cn_poisoned (conn l)) eqn:HP; [|done|done]. simpl.
  destruct (Z.leb_spec (cn_slots (conn l)) 0); [done|].
  case_bool_decide as Hp; [done|]. case_bool_decide as Ha; [done|]. case_bool_decide; [done|]. simpl.
  apply eq_None_not_Some in Hp, Ha. intros [= <-]. split_and!; [done..|]. by repeat case_match.
Qed.

Lemma sound_reserve n x l k :
  sound l → callers l !! n = None → try_reserve x l = Some k →
  sound (with_callers (<[n := Caller x Reserved Open false false false]> (callers k)) k).
Proof.
  intros Hl Hn (_ & _ & _ & _ & Hsame)%try_reserve_spec.
  assert (sound k) as [H1 H2 H3 H4 H5].
  { eapply sound_same; [exact Hsame|]. by eapply sound_core; [..|exact Hl]. }
  pose proof (same_callers _ _ Hsame) as Hcs. simpl in Hcs. rewrite <- Hcs in Hn. split; simpl; [| | |exact H4|exact H5].
  - intros y p Hp. destruct (H1 y p Hp) as (c & Hc & ?). exists c.
    rewrite lookup_insert_ne; [done|]. intros ->. congruence.
  - intros m c [[<- <-]|[? Hc]]%lookup_insert_Some; [by left|by apply H2].
  - intros m c [[<- <-]|[? Hc]]%lookup_insert_Some; [done|by eapply H3].
Qed.

Lemma register_spec n x l k :
  register n x l = Some k →
  cn_poisoned (conn l) = Healthy ∧ pending (st l) !! x = None ∧ abandoned (st l) !! x = None ∧
  k = with_pending (<[x := PendingCall n Queued]> (pending (st l))) l.
Proof.
  unfold register, is_healthy. destruct (cn_poisoned (conn l)); [|done|done]. simpl.
  case_bool_decide as Hp; [done|]. case_bool_decide as Ha; [done|]. simpl.
  apply eq_None_not_Some in Hp, Ha. by intros [= <-].
Qed.

Lemma sound_register n c l k :
  sound l → callers l !! n = Some c → ca_at c = Reserved → register n (ca_id c) l = Some k →
  sound (on_caller n (set_at Registered) k).
Proof.
  intros [H1 H2 H3 H4 H5] Hc Hr (HP & Hp & Ha & ->)%register_spec. split; simpl.
  - intros y p [[<- <-]|[Hne Hq]]%lookup_insert_Some; simpl.
    + rewrite lookup_alter_eq, Hc. eexists. split; [done|]. split_and!; [done|exact (H3 n c Hc Hr)|done].
    + destruct (H1 y p Hq) as (c' & Hc' & Hx & Ho & Hs). exists c'.
      rewrite lookup_alter_ne; [done|]. intros ->. unfold started in Hs. rewrite Hc in Hc'.
      injection Hc' as <-. by rewrite Hr in Hs.
  - intros m c'. destruct (decide (n = m)) as [->|Hne].
    + rewrite lookup_alter_eq, Hc. intros [= <-] _. right. simpl. rewrite lookup_insert_eq. eauto.
    + rewrite lookup_alter_ne by done. intros Hc' Ho.
      destruct (H2 m c' Hc' Ho) as [?|(q & Hq & ?)]; [by left|right]. exists q.
      rewrite lookup_insert_ne; [done|]. congruence.
  - intros m c'. destruct (decide (n = m)) as [->|Hne].
    + rewrite lookup_alter_eq, Hc. by intros [= <-].
    + rewrite lookup_alter_ne by done. apply H3.
  - congruence.
  - intros y Hy. rewrite lookup_insert_ne; [by apply H5|]. intros <-. rewrite Ha in Hy. by destruct Hy.
Qed.

Lemma sound_turned_away n c l :
  sound l → callers l !! n = Some c → ca_at c = Reserved →
  sound (returns n (Failed NotDelivered) (on_caller n (set_sender Dropped) l)).
Proof.
  intros [H1 H2 H3 H4 H5] Hc Hr. split; simpl; [| | |done|done].
  - intros x p Hp. destruct (H1 x p Hp) as (c' & Hc' & Hx & Ho & Hs). exists c'.
    rewrite !lookup_alter_ne; [done|..]; intros ->; rewrite Hc in Hc'; injection Hc' as <-;
      unfold started in Hs; by rewrite Hr in Hs.
  - intros m c'. destruct (decide (n = m)) as [->|Hne].
    + rewrite !lookup_alter_eq, Hc. by intros [= <-].
    + rewrite !lookup_alter_ne by done. apply H2.
  - intros m c'. destruct (decide (n = m)) as [->|Hne].
    + rewrite !lookup_alter_eq, Hc. by intros [= <-].
    + rewrite !lookup_alter_ne by done. apply H3.
Qed.

(** What [poison] makes of one call. *)
Definition failed (writing_unknown : bool) (m : gmap pystr pending_call) (n : nat) (c : caller) : caller :=
  match m !! ca_id c with
  | Some p => if bool_decide (pc_call p = n)
              then set_sender (Sent (Failed (poison_error writing_unknown (pc_progress p)))) c else c
  | None => c
  end.

Lemma lookup_fail_pending b m cs n : fail_pending b m cs !! n = failed b m n <$> cs !! n.
Proof. unfold fail_pending. rewrite map_lookup_imap. by destruct (cs !! n). Qed.

Lemma failed_id b m n c : ca_id (failed b m n c) = ca_id c.
Proof. unfold failed. by repeat case_match. Qed.

Lemma failed_at b m n c : ca_at (failed b m n c) = ca_at c.
Proof. unfold failed. by repeat case_match. Qed.

Definition drained_with (b : bool) (l : link) : link :=
  notify_shutdown (with_poison Poisoned (with_state (ConnState ∅ ∅ ∅ (counted_idle (st l)))
    (with_slots (cn_slots (conn l) + Z.of_nat (size (pending (st l))))
      (with_callers (fail_pending b (pending (st l)) (callers l)) l)))).

Lemma notify_shutdown_fields l :
  st (notify_shutdown l) = st l ∧ callers (notify_shutdown l) = callers l ∧
  cn_poisoned (conn (notify_shutdown l)) = cn_poisoned (conn l) ∧
  cn_slots (conn (notify_shutdown l)) = cn_slots (conn l) ∧
  cn_outbound (conn (notify_shutdown l)) = cn_outbound (conn l) ∧
  sent (notify_shutdown l) = sent l ∧ unanswered (notify_shutdown l) = unanswered l.
Proof. unfold notify_shutdown. destruct (cn_writer _), (cn_reader (conn _)); done. Qed.

(** [drain] but for the figure of idle connections. *)
Lemma drain_spec l k :
  drain l = Some k → ∃ b, cn_poisoned (conn l) = Draining b ∧ same k (drained_with b l).
Proof.
  unfold drain. destruct (cn_poisoned (conn l)) as [|b|]; [done| |done]. intros [= <-].
  exists b. split; [done|]. unfold drained_with, notify_shutdown.
  destruct l as [[[pe ab gu ci] ou sl po wr re ex] id al cs se un]. simpl.
  by destruct ci, al, wr, re.
Qed.

Lemma sound_drain l k : sound l → drain l = Some k → sound k.
Proof.
  intros [H1 H2 H3 H4 H5] (b & HP & Hs)%drain_spec. eapply sound_same; [exact Hs|].
  destruct (notify_shutdown_fields (with_poison Poisoned (with_state (ConnState ∅ ∅ ∅ (counted_idle (st l)))
    (with_slots (cn_slots (conn l) + Z.of_nat (size (pending (st l))))
      (with_callers (fail_pending b (pending (st l)) (callers l)) l))))) as (Hst & Hcs & Hpo & _).
  unfold drained_with.
  split; rewrite ?Hst, ?Hcs, ?Hpo; simpl.
  - done.
  - intros n c. rewrite lookup_fail_pending. destruct (callers l !! n) as [c0|] eqn:Hc; [|done].
    intros [= <-] Ho. left. rewrite failed_at.
    destruct (H2 n c0 Hc) as [?|(p & Hp & Hn)]; [|done|].
    { unfold failed in Ho. by destruct (pending (st l) !! ca_id c0); [case_bool_decide|]. }
    exfalso. unfold failed in Ho. rewrite Hp, bool_decide_true in Ho by done. done.
  - intros n c. rewrite lookup_fail_pending. destruct (callers l !! n) as [c0|] eqn:Hc; [|done].
    intros [= <-]. rewrite failed_at. intros Hr. pose proof (H3 n c0 Hc Hr) as Ho.
    unfold failed. destruct (pending (st l) !! ca_id c0) as [p|] eqn:Hp; [|done].
    case_bool_decide as Hn; [|done]. destruct (H1 _ p Hp) as (c' & Hc' & _ & _ & Hst').
    rewrite Hn, Hc in Hc'. injection Hc' as <-. unfold started in Hst'. by rewrite Hr in Hst'.
  - done.
  - done.
Qed.

Lemma caller_in_Some n f l c : caller_in n f l = Some c ↔ callers l !! n = Some c ∧ f (ca_at c) = true.
Proof.
  unfold caller_in. destruct (callers l !! n) as [c'|]; [destruct (f (ca_at c')) eqn:?|].
  all: split; [try done; by intros [= ->]|intros [[= ->] ?]; congruence].
Qed.

(** A caller that is past its registration returns with a channel that has
    been used. *)
Lemma sound_returns n d l :
  sound l → (∀ c, callers l !! n = Some c → ca_sender c ≠ Open) → sound (returns n d l).
Proof. intros Hs Hn. apply sound_on_caller; [done|]. intros c Hc. split_and!; [done..|]. right. right. naive_solver. Qed.

(** After [abandon] the call it was meant for has no open channel. *)
Lemma abandon_closes n c l :
  sound l → callers l !! n = Some c → ca_at c ≠ Reserved →
  ∀ c', callers (abandon (ca_id c) l).2 !! n = Some c' → ca_sender c' ≠ Open ∧ ca_at c' = ca_at c ∧ ca_id c' = ca_id c.
Proof.
  intros Hs Hc Hr c'. pose proof (abandon_spec (ca_id c) l) as Ha.
  destruct (pending (st l) !! ca_id c) as [p|] eqn:Hp.
  - destruct Ha as [_ [_ _ -> _ _ _ _ _ _ _]].
    assert (callers (abandoned_with (ca_id c) p l) = alter (set_sender Dropped) (pc_call p) (callers l)) as ->
      by (unfold abandoned_with; by destruct (pc_progress p)).
    destruct (decide (pc_call p = n)) as [->|Hne].
    + rewrite lookup_alter_eq, Hc. by intros [= <-].
    + rewrite lookup_alter_ne, Hc by done. intros [= <-]. split; [|done]. intros Ho.
      destruct (s_open _ Hs n c Hc Ho) as [?|(q & Hq & ?)]; [done|congruence].
  - rewrite Ha. simpl. rewrite Hc. intros [= <-]. split; [|done]. intros Ho.
    destruct (s_open _ Hs n c Hc Ho) as [?|(q & Hq & ?)]; [done|congruence].
Qed.

(** What the writer, the reader and the timers change is none of [sound]'s. *)
Ltac by_core := intros Hs; match type of Hs with sound ?k => by apply (sound_core _ k) end.

Lemma sound_with_writer w l : sound l → sound (with_writer w l).
Proof. by_core. Qed.
Lemma sound_with_reader r l : sound l → sound (with_reader r l).
Proof. by_core. Qed.
Lemma sound_with_outbound q l : sound l → sound (with_outbound q l).
Proof. by_core. Qed.
Lemma sound_with_slots z l : sound l → sound (with_slots z l).
Proof. by_core. Qed.
Lemma sound_with_expiring b l : sound l → sound (with_expiring b l).
Proof. by_core. Qed.
Lemma sound_with_wire id al se un l : sound l → sound (Link (conn l) id al (callers l) se un).
Proof. by_core. Qed.
Lemma sound_frame_arrived c l : sound l → sound (frame_arrived c l).
Proof. unfold frame_arrived. destruct (wc_frame c); by_core. Qed.

#[local] Hint Resolve sound_with_writer sound_with_reader sound_with_outbound sound_with_slots
  sound_with_expiring sound_with_wire sound_frame_arrived sound_poison sound_mark_written
  sound_abandon sound_drain : tinyray.

Lemma sound_arrives r l : sound l → sound (arrives r l).
Proof. unfold arrives. intros Hs. case_match; eauto with tinyray. Qed.

#[local] Hint Resolve sound_arrives : tinyray.

Lemma sound_try_send c l k : sound l → try_send c l = Some k → sound k.
Proof. unfold try_send. intros Hs. case_match; [done|]. intros [= <-]. eauto with tinyray. Qed.

Lemma sound_expire n c l :
  sound l → callers l !! n = Some c → ca_at c = Awaiting →
  sound (returns n (Failed (timed_out_error (ca_id c) l).1) (timed_out_error (ca_id c) l).2).
Proof.
  intros Hs Hc Ha. assert (ca_at c ≠ Reserved) as Hr by (by rewrite Ha).
  pose proof (abandon_closes n c l Hs Hc Hr) as Hcl. pose proof (sound_abandon (ca_id c) l Hs) as Hab.
  assert (callers (timed_out_error (ca_id c) l).2 = callers (abandon (ca_id c) l).2 ∧
          sound (timed_out_error (ca_id c) l).2) as [Hcs Hso].
  { unfold timed_out_error. destruct (abandon (ca_id c) l) as [[[]|] k]; simpl in *; try done.
    split; [apply (same_callers _ _ (poison_same false k))|by apply sound_poison]. }
  apply sound_returns; [done|]. intros c' Hc'. rewrite Hcs in Hc'. by apply Hcl.
Qed.

Lemma sound_caller_step l e k : sound l → caller_step l e = Some k → sound k.
Proof.
  intros Hs. destruct e; try done; cbn [caller_step].
  - case_bool_decide as Hn; [done|]. apply eq_None_not_Some in Hn.
    destruct (try_reserve request_id l) as [l1|] eqn:Hr; [|done]. intros [= <-]. by eapply sound_reserve.
  - destruct (caller_in n at_reserved l) as [c|] eqn:Hc; [|done]. apply caller_in_Some in Hc as [Hc Hr].
    assert (ca_at c = Reserved) by (by destruct (ca_at c)). cbn [mbind option_bind].
    destruct (register n (ca_id c) l) as [l1|] eqn:Hg; intros [= <-]; [by eapply sound_register|].
    eapply sound_turned_away; [eauto with tinyray|done..].
  - destruct (caller_in n at_registered l) as [c|] eqn:Hc; [|done]. apply caller_in_Some in Hc as [Hc Hr].
    assert (ca_at c = Registered) as Ha by (by destruct (ca_at c)). cbn [mbind option_bind].
    destruct (ca_requested c); intros [= <-].
    + apply sound_returns; [by apply sound_abandon|]. intros c' Hc'.
      eapply (abandon_closes n c l Hs Hc); [by rewrite Ha|done].
    + apply sound_on_caller; [done|]. intros c' Hc'. split_and!; [done..|]. right. left.
      rewrite Hc in Hc'. injection Hc' as <-. unfold started. by rewrite Ha.
  - destruct (caller_in n at_cancellable l) as [c|] eqn:Hc; [|done]. apply caller_in_Some in Hc as [Hc Hr].
    assert (ca_at c = Cancellable) as Ha by (by destruct (ca_at c)). cbn [mbind option_bind].
    intros [= <-]. destruct (try_send _ l) as [l1|] eqn:Ht.
    + apply sound_on_caller; [by eapply sound_try_send|]. intros c' Hc'. split_and!; [done..|]. right. left.
      unfold try_send in Ht. case_match; [done|]. injection Ht as <-. simpl in Hc'.
      rewrite Hc in Hc'. injection Hc' as <-. unfold started. by rewrite Ha.
    + apply sound_on_caller; [by apply sound_poison|]. intros c' Hc'. split_and!; [done..|]. right. left.
      rewrite (same_callers _ _ (poison_same false l)), Hc in Hc'. injection Hc' as <-. unfold started. by rewrite Ha.
  - destruct (caller_in n at_awaiting l) as [c|] eqn:Hc; [|done]. apply caller_in_Some in Hc as [Hc Hr].
    cbn [mbind option_bind]. destruct (ca_sender c) eqn:Hse; [done|..]; intros [= <-];
      (apply sound_returns; [done|]; intros c' Hc'; rewrite Hc in Hc'; injection Hc' as <-; by rewrite Hse).
  - destruct (caller_in n at_awaiting l) as [c|] eqn:Hc; [|done]. apply caller_in_Some in Hc as [Hc Hr].
    cbn [mbind option_bind]. pose proof (sound_expire n c l Hs Hc ltac:(by destruct (ca_at c))) as He.
    destruct (timed_out_error _ l) as [er l1]. by intros [= <-].
  - destruct (callers l !! n) as [c|] eqn:Hc; [|done]. cbn [mbind option_bind]. intros [= <-].
    assert (sound (on_caller n (set_cancellation true false) l)).
    { apply sound_on_caller; [done|]. intros c' _. split_and!; [done..|by left]. }
    destruct (ca_target c); [by apply sound_abandon|done].
  - destruct (callers l !! n) as [c|] eqn:Hc; [|done]. cbn [mbind option_bind].
    destruct (ca_ack c); [|done]. intros [= <-]. eapply sound_same; [apply send_blob_ack_same|].
    apply sound_on_caller; [done|]. intros c' _. split_and!; [done..|by left].
Qed.

Lemma sound_writer_step l e k : sound l → writer_step l e = Some k → sound k.
Proof.
  intros Hs. destruct e; try done; cbn [writer_step]; destruct (cn_writer (conn l)) as [nt|c|c|] eqn:Hw; try done.
  - destruct (cn_outbound (conn l)) as [|c rest]; [done|]. cbv zeta.
    destruct (wc_frame c); [|intros [= <-]; eauto with tinyray].
    unfold mark_writing. destruct (pending (st (with_outbound rest l)) !! wc_request_id c) as [p|] eqn:Hp;
      intros [= <-]; [|eauto with tinyray].
    apply sound_with_writer, sound_progress; eauto with tinyray.
  - intros [= <-]. eauto with tinyray.
  - intros [= <-]. unfold writer_ends. eauto with tinyray.
  - intros [= <-]. destruct (wc_frame c); eauto with tinyray.
  - destruct nt; [|done]. intros [= <-]. unfold writer_ends. eauto with tinyray.
Qed.

Lemma sound_reader_step l e k : sound l → reader_step l e = Some k → sound k.
Proof.
  intros Hs. destruct e; try done; cbn [reader_step]; destruct (cn_reader (conn l)) as [nt|r'| |] eqn:Hw; try done.
  - destruct (callers l !! n); [|done]. cbn [mbind option_bind]. case_match; [|done].
    intros [= <-]. eauto with tinyray.
  - intros [= <-]. eauto with tinyray.
  - pose proof (sound_route r' l Hs) as Hr. destruct (route r' l) as [b l1]. intros [= <-]. eauto with tinyray.
  - intros [= <-]. eauto with tinyray.
  - destruct nt; [|done]. intros [= <-]. eauto with tinyray.
  - destruct (cn_writer (conn l)); try done. intros [= <-]. eauto with tinyray.
Qed.

Lemma sound_step l e k : sound l → step l e = Some k → sound k.
Proof.
  intros Hs. destruct e; cbn [step]; intros H;
    try (by eapply sound_caller_step); try (by eapply sound_writer_step); try (by eapply sound_reader_step);
    try (injection H as <-; unfold with_idle; by eauto with tinyray).
  - by eapply sound_drain.
  - destruct (cn_expiring (conn l)); [|done]. injection H as <-. eauto with tinyray.
Qed.

Lemma sound_new : sound new_link.
Proof. split; simpl; try done. Qed.
