(* ===== verification/Delivery.v ===== *)
(** * What a call over a shared connection may conclude

    The theorems about [ClientConn].  [orderly] is the invariant of careful
    runs: which call each frame in the queue, at the writer, at the peer and on
    its way back belongs to, and how that agrees with the pending and abandoned
    tables.  From it: a reply answers the call it is given to, and
    [NotDelivered] means the frame never arrives, unless the writer was inside
    it.  The last part holds the three ways in which the connection does not
    keep to this, as runs of the model. *)

From S2P Require Import Prelude PyStr RpcProto ClientConn.

Local Open Scope Z_scope.

(** ** Frames in order: what careful runs keep *)

(** A caller that has put its frame in the queue, or tried to. *)
Definition in_line (c : caller) : Prop :=
  match ca_at c with Awaiting | Returned _ => True | _ => False end.

(** Between its registration and its return. *)
Definition engaged (c : caller) : Prop :=
  match ca_at c with Reserved | Returned _ => False | _ => True end.

(** The writer has begun the frame of call [n]. *)
Definition begun (l : link) (n : nat) : Prop := at_hand l = Some n ∨ n ∈ sent l.

Definition is_writing (l : link) (n : nat) : Prop := ∃ c, cn_writer (conn l) = WWriting c ∧ wc_frame c = Some n.

Definition is_holding (l : link) (n : nat) : Prop := ∃ r, cn_reader (conn l) = RHolding r ∧ rv_answers r = Some n.

(** The frame of call [n] is on its way, at the peer, or its answer is here. *)
Definition in_flight (l : link) (n : nat) : Prop := is_writing l n ∨ n ∈ unanswered l ∨ is_holding l n.

Record orderly (l : link) : Prop := Orderly {
  o_queue : ∀ x n, (x, n) ∈ queue l → ∃ c, callers l !! n = Some c ∧ ca_id c = x ∧ in_line c;
  o_nodup : NoDup (queue l).*2;
  o_owner : ∀ x n p, (x, n) ∈ queue l → pending (st l) !! x = Some p → pc_call p = n;
  o_finished : cn_writer (conn l) = WFinished → queue l = [];
  o_begun : ∀ n, begun l n → n ∉ (queue l).*2 ∧ ∃ c, callers l !! n = Some c ∧ in_line c;
  o_once : NoDup (sent l) ∧ ∀ n, is_writing l n → n ∉ sent l;
  o_command : ∀ c n, cn_writer (conn l) = WWriting c ∨ cn_writer (conn l) = WWrote c → wc_frame c = Some n →
    ∃ a, callers l !! n = Some a ∧ ca_id a = wc_request_id c;
  o_unanswered : ∀ n, n ∈ unanswered l → n ∈ sent l;
  o_holding : ∀ r, cn_reader (conn l) = RHolding r → ∃ n c, rv_answers r = Some n ∧ n ∈ sent l ∧ n ∉ unanswered l ∧
    callers l !! n = Some c ∧ ca_id c = rp_request_id (rv_reply r);
  o_held : ∀ n c, in_flight l n → callers l !! n = Some c → cn_poisoned (conn l) ≠ Poisoned →
    (∃ p, pending (st l) !! ca_id c = Some p ∧ pc_call p = n ∧ pc_progress p ≠ Queued) ∨
    abandoned (st l) !! ca_id c = Some n;
  o_queued : ∀ x p, pending (st l) !! x = Some p → pc_progress p = Queued → ¬ begun l (pc_call p);
  o_writing : ∀ x p, pending (st l) !! x = Some p → pc_progress p = Writing →
    at_hand l = Some (pc_call p) ∨ cn_writer (conn l) = WFinished ∧ pc_call p ∉ sent l;
  o_alone : ∀ n c p, callers l !! n = Some c → engaged c → pending (st l) !! ca_id c = Some p → pc_call p = n;
  o_own : ∀ n c r, callers l !! n = Some c → ca_sender c = Sent (Delivered r) → rv_answers r = Some n ∧ n ∈ sent l
}.

(** What a caller's record may become without disturbing the order. *)
Record tame (c c' : caller) : Prop := Tame {
  t_id : ca_id c' = ca_id c;
  t_line : in_line c → in_line c';
  t_engaged : engaged c' → engaged c;
  t_own : ∀ r, ca_sender c' = Sent (Delivered r) → ca_sender c = Sent (Delivered r)
}.

Definition tamed (cs cs' : gmap nat caller) : Prop :=
  ∀ n, match cs !! n, cs' !! n with Some c, Some c' => tame c c' | None, None => True | _, _ => False end.

Lemma tamed_fwd cs cs' n c : tamed cs cs' → cs !! n = Some c → ∃ c', cs' !! n = Some c' ∧ tame c c'.
Proof. intros Ht Hc. specialize (Ht n). rewrite Hc in Ht. destruct (cs' !! n) as [c'|]; [by exists c'|done]. Qed.

Lemma tamed_back cs cs' n c' : tamed cs cs' → cs' !! n = Some c' → ∃ c, cs !! n = Some c ∧ tame c c'.
Proof. intros Ht Hc. specialize (Ht n). rewrite Hc in Ht. destruct (cs !! n) as [c|]; [by exists c|done]. Qed.

Lemma tamed_alter n f cs : (∀ c, cs !! n = Some c → tame c (f c)) → tamed cs (alter f n cs).
Proof.
  intros Hf m. destruct (decide (n = m)) as [->|Hne].
  - rewrite lookup_alter_eq. destruct (cs !! m) eqn:Hc; simpl; auto.
  - rewrite lookup_alter_ne by done. by destruct (cs !! m).
Qed.

Lemma orderly_tamed cs l : tamed (callers l) cs → orderly l → orderly (with_callers cs l).
Proof.
  intros Ht [H1 H2 H3 H4 H5 H6 H7 H8 H9 H10 H11 H12 H13 H14]. split; simpl; try done.
  - intros x n Hq. destruct (H1 x n Hq) as (c & Hc & Hx & Hl).
    destruct (tamed_fwd _ _ _ _ Ht Hc) as (c' & Hc' & []). exists c'. split_and!; [done|congruence|auto].
  - intros n Hn. destruct (H5 n Hn) as (Hq & c & Hc & Hl). split; [done|].
    destruct (tamed_fwd _ _ _ _ Ht Hc) as (c' & Hc' & []). eauto.
  - intros c n Hw Hf. destruct (H7 c n Hw Hf) as (a & Ha & Hi).
    destruct (tamed_fwd _ _ _ _ Ht Ha) as (c' & Hc' & []). exists c'. split; [done|congruence].
  - intros r Hr. destruct (H9 r Hr) as (n & c & Hr1 & Hr2 & Hr3 & Hc & Hi).
    destruct (tamed_fwd _ _ _ _ Ht Hc) as (c' & Hc' & []). exists n, c'. split_and!; [done..|congruence].
  - intros n c' Hn Hc' HP. destruct (tamed_back _ _ _ _ Ht Hc') as (c & Hc & [Hi _ _ _]).
    rewrite Hi. by eapply H10.
  - intros n c' p Hc' He. destruct (tamed_back _ _ _ _ Ht Hc') as (c & Hc & [Hi _ Hen _]).
    rewrite Hi. eauto.
  - intros n c' r Hc' He. destruct (tamed_back _ _ _ _ Ht Hc') as (c & Hc & [_ _ _ Hown]). eauto.
Qed.

Lemma orderly_on_caller n f l :
  orderly l → (∀ c, callers l !! n = Some c → tame c (f c)) → orderly (on_caller n f l).
Proof. intros Ho Hf. apply orderly_tamed; [by apply tamed_alter|done]. Qed.

Lemma orderly_same l k : same l k → orderly k → orderly l.
Proof.
  intros [Hp Ha Hc _ Hd Hq Hw Hr Hs Hu] [H1 H2 H3 H4 H5 H6 H7 H8 H9 H10 H11 H12 H13 H14].
  assert (at_hand l = at_hand k) as Hh by (unfold at_hand; by rewrite Hw).
  split; unfold begun, in_flight, is_writing, is_holding in *; rewrite ?Hp, ?Ha, ?Hc, ?Hq, ?Hw, ?Hr, ?Hs, ?Hu, ?Hh; try done.
  intros n c Hn Hcn HP. apply (H10 n c); [done..|]. by rewrite <- Hd.
Qed.

Lemma orderly_core l k :
  pending (st l) = pending (st k) → abandoned (st l) = abandoned (st k) → callers l = callers k →
  cn_poisoned (conn l) = cn_poisoned (conn k) → queue l = queue k → cn_writer (conn l) = cn_writer (conn k) →
  cn_reader (conn l) = cn_reader (conn k) → sent l = sent k → unanswered l = unanswered k →
  orderly k → orderly l.
Proof.
  intros Hp Ha Hc Hd Hq Hw Hr Hs Hu Ho. set (m := with_slots (cn_slots (conn k)) l).
  assert (orderly m) as [H1 H2 H3 H4 H5 H6 H7 H8 H9 H10 H11 H12 H13 H14]; [|by split].
  eapply orderly_same; [|exact Ho]. split; try done. simpl. by rewrite Hd.
Qed.

(** A call whose frame is on its way has a caller that is in line. *)
Lemma in_flight_begun l n : orderly l → in_flight l n → begun l n.
Proof.
  intros Ho [(c & Hw & Hc)|[Hu|(r & Hr & Hn)]].
  - left. unfold at_hand. by rewrite Hw.
  - right. by eapply o_unanswered.
  - right. destruct (o_holding _ Ho r Hr) as (m & c & Hm & Hs & _). naive_solver.
Qed.

Lemma begun_known l n : orderly l → begun l n → is_Some (callers l !! n).
Proof. intros Ho Hb. destruct (o_begun _ Ho n Hb) as (_ & c & -> & _). eauto. Qed.

Lemma orderly_forget x p l :
  orderly l → pending (st l) !! x = Some p → ¬ in_flight l (pc_call p) →
  orderly (with_pending (delete x (pending (st l))) l).
Proof.
  intros [H1 H2 H3 H4 H5 H6 H7 H8 H9 H10 H11 H12 H13 H14] Hp Hn. split; simpl; try done.
  - intros y n q Hq [_ ?]%lookup_delete_Some. eauto.
  - intros n c Hf Hc HP. destruct (H10 n c Hf Hc HP) as [(q & Hq & Hqn & Hpr)|?]; [left|by right].
    exists q. split; [|done]. apply lookup_delete_Some. split; [|done]. intros ->.
    assert (q = p) as -> by congruence. subst n. by apply Hn.
  - intros y q [_ ?]%lookup_delete_Some. eauto.
  - intros y q [_ ?]%lookup_delete_Some. eauto.
  - intros n c q Hc He [_ ?]%lookup_delete_Some. eauto.
Qed.

Lemma orderly_set_aside x p l :
  sound l → orderly l → pending (st l) !! x = Some p →
  orderly (with_abandoned (<[x := pc_call p]> (abandoned (st l))) (with_pending (delete x (pending (st l))) l)).
Proof.
  intros Hs [H1 H2 H3 H4 H5 H6 H7 H8 H9 H10 H11 H12 H13 H14] Hp. split; simpl; try done.
  - intros y n q Hq [_ ?]%lookup_delete_Some. eauto.
  - intros n c Hf Hc HP. destruct (H10 n c Hf Hc HP) as [(q & Hq & Hqn & Hpr)|Ha].
    + destruct (decide (ca_id c = x)) as [<-|Hne].
      * right. rewrite lookup_insert_eq. congruence.
      * left. exists q. by rewrite lookup_delete_ne by done.
    + right. rewrite lookup_insert_ne; [done|]. intros ->.
      pose proof (s_disjoint _ Hs (ca_id c) ltac:(eauto)). congruence.
  - intros y q [_ ?]%lookup_delete_Some. eauto.
  - intros y q [_ ?]%lookup_delete_Some. eauto.
  - intros n c q Hc He [_ ?]%lookup_delete_Some. eauto.
Qed.

Lemma tame_sender s c : (∀ r, s ≠ Sent (Delivered r)) → tame c (set_sender s c).
Proof. intros Hs. split; [done..|]. intros r Hr. by destruct (Hs r). Qed.

Lemma orderly_abandoned_with x p l :
  sound l → orderly l → pending (st l) !! x = Some p → orderly (abandoned_with x p l).
Proof.
  intros Hs Ho Hp.
  assert (orderly (on_caller (pc_call p) (set_sender Dropped)
    (match pc_progress p with
     | Queued => with_pending (delete x (pending (st l))) l
     | _ => with_abandoned (<[x := pc_call p]> (abandoned (st l))) (with_pending (delete x (pending (st l))) l)
     end))) as Hk.
  { apply orderly_on_caller; [|intros c _; by apply tame_sender].
    destruct (pc_progress p) eqn:Hpr; [|by apply orderly_set_aside..].
    apply (orderly_forget x p); [done..|]. intros Hf%in_flight_begun; [|done]. by eapply o_queued. }
  unfold abandoned_with. destruct (pc_progress p); (eapply orderly_core; [..|exact Hk]; done).
Qed.

Lemma orderly_abandon x l : sound l → orderly l → orderly (abandon x l).2.
Proof.
  intros Hs Ho. pose proof (abandon_spec x l) as H. destruct (pending (st l) !! x) as [p|] eqn:Hp.
  - destruct H as [_ H]. eapply orderly_same; [exact H|]. by apply orderly_abandoned_with.
  - by rewrite H.
Qed.

Lemma orderly_poison b l : orderly l → orderly (poison b l).
Proof. apply orderly_same, poison_same. Qed.

(** A writer that is inside no request's frame. *)
Definition no_request (w : writer_at) : Prop :=
  match w with WWriting c | WWrote c => wc_frame c = None | _ => True end.

(** The writer waits, writes an acknowledgement, or stops. *)
Lemma orderly_no_request w l :
  orderly l → no_request (cn_writer (conn l)) → cn_writer (conn l) ≠ WFinished → no_request w →
  (w = WFinished → queue l = []) → orderly (with_writer w l).
Proof.
  intros [H1 H2 H3 H4 H5 H6 H7 H8 H9 H10 H11 H12 H13 H14] Hq Hnf Hq' Hf.
  assert (at_hand l = None) as Hl by (unfold at_hand; by destruct (cn_writer (conn l))).
  assert (at_hand (with_writer w l) = None) as Hn by (by destruct w).
  assert (∀ n, begun (with_writer w l) n → begun l n) as Hb.
  { intros n [Hx|?]; [by rewrite Hn in Hx|by right]. }
  assert (∀ n, ¬ is_writing (with_writer w l) n) as Hnw.
  { intros n (c & Hc & Hcn). simpl in Hc. subst w. simpl in Hq'. congruence. }
  split; try done.
  - intros n Hx. apply H5; auto.
  - split; [apply H6|]. intros n Hx. by apply Hnw in Hx.
  - intros c n Hc Hcn. simpl in Hc. destruct Hc as [-> | ->]; simpl in Hq'; congruence.
  - intros n c [Hx|Hx] Hc HP; [by apply Hnw in Hx|]. apply (H10 n c); [by right|done..].
  - intros x p Hp Hpq Hx. apply (H11 x p Hp Hpq). auto.
  - intros x p Hp Hpq. destruct (H12 x p Hp Hpq) as [Hx|[Hx _]]; [congruence|done].
Qed.

(** The reader goes on reading, or leaves its loop, holding no answer. *)
Lemma orderly_idle_reader r l :
  orderly l → (∀ v, r ≠ RHolding v) → orderly (with_reader r l).
Proof.
  intros [H1 H2 H3 H4 H5 H6 H7 H8 H9 H10 H11 H12 H13 H14] Hr. split; try done.
  - intros v Hv. by apply Hr in Hv.
  - intros n c [Hx|[Hx|(v & Hv & _)]] Hc HP; [| |by apply Hr in Hv]; apply (H10 n c); unfold in_flight; auto.
Qed.

Lemma orderly_notify l : orderly l → orderly (notify_shutdown l).
Proof.
  intros Ho. unfold notify_shutdown. set (k := match cn_writer (conn l) with WWaiting _ => _ | _ => l end).
  assert (orderly k) by (subst k; destruct (cn_writer (conn l)) eqn:Hw; [by apply orderly_no_request; rewrite ?Hw|done..]).
  destruct (cn_reader (conn k)); [by apply orderly_idle_reader|done..].
Qed.

Lemma orderly_emptied b l :
  orderly l → orderly (with_poison Poisoned (with_state (ConnState ∅ ∅ ∅ b) l)).
Proof.
  intros [H1 H2 H3 H4 H5 H6 H7 H8 H9 H10 H11 H12 H13 H14]. by split.
Qed.

Lemma tamed_fail_pending b m cs : tamed cs (fail_pending b m cs).
Proof.
  intros n. rewrite lookup_fail_pending. destruct (cs !! n) as [c|]; [simpl|done]. unfold failed.
  destruct (m !! ca_id c); [|done]. case_bool_decide; [|done]. by apply tame_sender.
Qed.

Lemma orderly_drain l k : orderly l → drain l = Some k → orderly k.
Proof.
  intros Ho (b & HP & Hsame)%drain_spec. eapply orderly_same; [exact Hsame|].
  apply orderly_notify.
  pose proof (orderly_tamed _ l (tamed_fail_pending b (pending (st l)) (callers l)) Ho) as Hk.
  eapply orderly_core; [..|exact (orderly_emptied (counted_idle (st l)) _ Hk)]; done.
Qed.

Lemma orderly_reserve n x l k :
  orderly l → callers l !! n = None → try_reserve x l = Some k →
  orderly (with_callers (<[n := Caller x Reserved Open false false false]> (callers k)) k).
Proof.
  intros Ho Hn (_ & _ & _ & _ & Hsame)%try_reserve_spec.
  assert (orderly k) as Hk by (eapply orderly_same; [exact Hsame|]; by eapply orderly_core; [..|exact Ho]).
  pose proof (same_callers _ _ Hsame) as Hcs. simpl in Hcs. rewrite <- Hcs in Hn. clear Hcs Hsame Ho.
  assert (∀ m (P : caller → Prop), (∃ c, callers k !! m = Some c ∧ P c) →
    ∃ c, <[n := Caller x Reserved Open false false false]> (callers k) !! m = Some c ∧ P c) as Hkeep.
  { intros m P (c & Hc & HP). exists c. rewrite lookup_insert_ne; [done|]. intros ->. congruence. }
  pose proof Hk as [H1 H2 H3 H4 H5 H6 H7 H8 H9 H10 H11 H12 H13 H14]. split; simpl; try done.
  - intros y m Hq. apply Hkeep. by apply H1.
  - intros m Hm. destruct (H5 m Hm) as [? Hc]. split; [done|]. by apply Hkeep.
  - intros c m Hw Hf. apply Hkeep. by eapply H7.
  - intros r Hr. destruct (H9 r Hr) as (m & c & ? & ? & ? & Hc & ?). exists m, c.
    split_and!; try done. rewrite lookup_insert_ne; [done|]. intros ->. congruence.
  - intros m c Hf [[<- <-]|[_ Hc]]%lookup_insert_Some HP; [|by apply H10].
    destruct (begun_known k n Hk) as [? ?]; [by apply in_flight_begun|congruence].
  - intros m c p [[<- <-]|[_ Hc]]%lookup_insert_Some; [done|by apply H13].
  - intros m c r [[<- <-]|[_ Hc]]%lookup_insert_Some; [done|by apply H14].
Qed.

(** A careful registration: no call that still runs and no frame in the
    queue has the id. *)
Lemma orderly_register n c l k :
  orderly l → callers l !! n = Some c → ca_at c = Reserved → careful l (Register n) = true →
  register n (ca_id c) l = Some k → orderly (on_caller n (set_at Registered) k).
Proof.
  intros Ho Hc Hr Hcare (HP & Hp & Ha & ->)%register_spec. cbn [careful] in Hcare. rewrite Hc in Hcare.
  apply andb_prop in Hcare as [Hret Hq]. apply bool_decide_eq_true in Hret, Hq.
  pose proof Ho as [H1 H2 H3 H4 H5 H6 H7 H8 H9 H10 H11 H12 H13 H14].
  assert (¬ begun l n) as Hnb.
  { intros (_ & c' & Hc' & Hl)%H5. rewrite Hc in Hc'. injection Hc' as <-. unfold in_line in Hl. by rewrite Hr in Hl. }
  assert (∀ m (P : caller → Prop), (∀ a, P c → P (set_at a c)) → (∃ c, callers l !! m = Some c ∧ P c) →
    ∃ c, alter (set_at Registered) n (callers l) !! m = Some c ∧ P c) as Hkeep.
  { intros m P HPP (c' & Hc' & HPc). destruct (decide (n = m)) as [->|Hne].
    - rewrite lookup_alter_eq, Hc'. rewrite Hc in Hc'. injection Hc' as <-. eauto.
    - rewrite lookup_alter_ne by done. eauto. }
  split; simpl; try done.
  - intros y m Hym. destruct (H1 y m Hym) as (c' & Hc' & Hy & Hl). exists c'.
    rewrite lookup_alter_ne; [done|]. intros ->. rewrite Hc in Hc'. injection Hc' as <-.
    unfold in_line in Hl. by rewrite Hr in Hl.
  - intros y m p Hym [[<- <-]|[_ ?]]%lookup_insert_Some; [|eauto].
    destruct Hq. apply list_elem_of_fmap. by exists (ca_id c, m).
  - intros m Hm. destruct (H5 m Hm) as (? & c' & Hc' & Hl). split; [done|]. exists c'.
    rewrite lookup_alter_ne; [done|]. by intros ->.
  - intros w m Hw Hf. apply Hkeep; [done|]. by eapply H7.
  - intros r Hr'. destruct (H9 r Hr') as (m & c' & Hm1 & Hm2 & Hm3 & Hc' & Hx). exists m.
    destruct (Hkeep m (λ a, ca_id a = rp_request_id (rv_reply r))) as (a & Hb & Hi); [done|by exists c'|].
    exists a. done.
  - intros m c' Hf Hc' HPo. destruct (decide (n = m)) as [<-|Hne].
    { destruct Hnb. by apply (in_flight_begun l). }
    rewrite lookup_alter_ne in Hc' by done.
    destruct (H10 m c' Hf Hc' HPo) as [(p & Hpp & ?)|?]; [left|by right].
    exists p. rewrite lookup_insert_ne; [done|]. intros He. rewrite <- He in Hpp. congruence.
  - intros y p [[<- <-]|[_ Hpp]]%lookup_insert_Some; [done|]. by eapply H11.
  - intros y p [[<- <-]|[_ Hpp]]%lookup_insert_Some; [done|]. by eapply H12.
  - intros m c' p. destruct (decide (n = m)) as [<-|Hne].
    + rewrite lookup_alter_eq, Hc. intros [= <-] _. simpl. rewrite lookup_insert_eq. by intros [= <-].
    + rewrite lookup_alter_ne by done. intros Hc' He. destruct (decide (ca_id c = ca_id c')) as [Heq|Hid].
      * destruct (Hret m c' Hc') as [?|[?|Hx]]; [congruence..|].
        unfold has_returned in Hx. unfold engaged in He. by destruct (ca_at c').
      * rewrite lookup_insert_ne by done. eauto.
  - intros m c' r. destruct (decide (n = m)) as [<-|Hne].
    + rewrite lookup_alter_eq, Hc. intros [= <-]. simpl. by apply H14.
    + rewrite lookup_alter_ne by done. apply H14.
Qed.

Lemma tame_at a c : (in_line c → in_line (set_at a c)) → (engaged (set_at a c) → engaged c) → tame c (set_at a c).
Proof. by split. Qed.

Lemma tame_returns d c : tame c (set_at (Returned d) (set_cancellation (ca_requested c) false c)).
Proof. by split. Qed.

Lemma orderly_returns n d l : orderly l → orderly (returns n d l).
Proof. intros Ho. apply orderly_on_caller; [done|]. intros c _. apply tame_returns. Qed.

Lemma queue_app q c l :
  queue (with_outbound (q ++ [c]) l) =
  queue (with_outbound q l) ++ match wc_frame c with Some n => [(wc_request_id c, n)] | None => [] end.
Proof. unfold queue. simpl. rewrite omap_app. simpl. by destruct (wc_frame c). Qed.

Lemma try_send_Some c l k :
  try_send c l = Some k → cn_writer (conn l) ≠ WFinished ∧ k = with_outbound (cn_outbound (conn l) ++ [c]) l.
Proof. unfold try_send. destruct (cn_writer (conn l)); simpl; try done; case_match; try done; by intros [= <-]. Qed.

Lemma orderly_enqueue n c l k :
  orderly l → callers l !! n = Some c → ca_at c = Cancellable →
  try_send (WriteCommand (ca_id c) (Some n)) l = Some k → orderly (on_caller n (set_at Awaiting) k).
Proof.
  intros Ho Hc Ha [Hw ->]%try_send_Some.
  assert (orderly (on_caller n (set_at Awaiting) l)) as Hk.
  { apply orderly_on_caller; [done|]. intros c' Hc'. rewrite Hc in Hc'. injection Hc' as <-.
    apply tame_at; [done|]. unfold engaged. by rewrite Ha. }
  assert (¬ in_line c) as Hl by (unfold in_line; rewrite Ha; tauto).
  assert (∀ x, (x, n) ∉ queue l) as Hnq.
  { intros x Hx. destruct (o_queue _ Ho x n Hx) as (c' & Hc' & _ & ?). rewrite Hc in Hc'. by injection Hc' as <-. }
  assert (queue (on_caller n (set_at Awaiting) (with_outbound (cn_outbound (conn l) ++ [WriteCommand (ca_id c) (Some n)]) l))
          = queue l ++ [(ca_id c, n)]) as Hq by apply (queue_app (cn_outbound (conn l)) (WriteCommand (ca_id c) (Some n)) l).
  destruct Hk as [H1 H2 H3 H4 H5 H6 H7 H8 H9 H10 H11 H12 H13 H14].
  split; rewrite ?Hq; try done.
  - intros x m [Hx|[= -> ->]%list_elem_of_singleton]%elem_of_app; [by apply H1|].
    simpl. rewrite lookup_alter_eq, Hc. by exists (set_at Awaiting c).
  - rewrite fmap_app. apply NoDup_app. split_and!; [done| |apply NoDup_singleton].
    intros m Hm ->%list_elem_of_singleton. apply list_elem_of_fmap in Hm as ([x m] & Hm & Hx).
    simpl in Hm. subst m. by apply (Hnq x).
  - intros x m p [Hx|[= -> ->]%list_elem_of_singleton]%elem_of_app Hp; [by eapply H3|].
    apply (o_alone _ Ho n c p Hc); [|done]. unfold engaged. by rewrite Ha.
  - intros m Hm. destruct (H5 m Hm) as [Hmq Hmc]. split; [|done]. rewrite fmap_app. simpl.
    intros [?|Hmn%list_elem_of_singleton]%elem_of_app; [done|]. simpl in Hmn. subst m.
    destruct (o_begun _ Ho n Hm) as (_ & c' & Hc' & ?). rewrite Hc in Hc'. by injection Hc' as <-.
Qed.

(** The writer takes the next request and finds its call still pending. *)
Lemma orderly_take_request a x n q p l :
  sound l → orderly l → cn_writer (conn l) = WWaiting a →
  cn_outbound (conn l) = WriteCommand x (Some n) :: q → pending (st l) !! x = Some p →
  orderly (with_writer (WWriting (WriteCommand x (Some n)))
    (with_pending (<[x := PendingCall (pc_call p) Writing]> (pending (st l))) (with_outbound q l))).
Proof.
  intros Hs Ho Hw Hq Hp.
  assert (queue l = (x, n) :: queue (with_outbound q l)) as Hql by (unfold queue; by rewrite Hq).
  assert (pc_call p = n) as Hpn by (eapply (o_owner _ Ho); [rewrite Hql; left|done]).
  destruct (o_queue _ Ho x n) as (c & Hc & Hx & Hl); [rewrite Hql; left|].
  assert (¬ begun l n) as Hnb.
  { intros [Hn _]%(o_begun _ Ho). apply Hn. rewrite Hql. left. }
  pose proof Ho as [H1 H2 H3 H4 H5 H6 H7 H8 H9 H10 H11 H12 H13 H14].
  rewrite Hql in H2. apply NoDup_cons in H2 as [Hn2 H2].
  set (k := with_writer _ _).
  assert (queue k = queue (with_outbound q l)) as Hqk by done.
  assert (pending (st k) = <[x := PendingCall (pc_call p) Writing]> (pending (st l))) as Hpk by done.
  assert (callers k = callers l) as Hck by done.
  assert (∀ m, begun k m → m = n ∨ begun l m) as Hb.
  { intros m [[= <-]|?]; [by left|right; by right]. }
  split; rewrite ?Hqk, ?Hpk, ?Hck; try done.
  - intros y m Hy. apply H1. rewrite Hql. by right.
  - intros y m r Hy [[<- <-]|[_ Hr]]%lookup_insert_Some; [simpl; by eapply H3; [rewrite Hql; right|]|].
    eapply H3; [rewrite Hql; by right|done].
  - intros m [->|Hm]%Hb; [by eauto|]. destruct (H5 m Hm) as [Hmq ?]. split; [|done].
    intros ?. apply Hmq. rewrite Hql. by right.
  - split; [apply H6|]. intros m (w & [= <-] & [= <-]). intros ?. apply Hnb. by right.
  - intros w m [[= <-]|[=]] [= <-]. by exists c.
  - intros m c' Hf Hc' HP. destruct (decide (m = n)) as [->|Hne].
    + left. rewrite Hc in Hc'. injection Hc' as <-. rewrite Hx, lookup_insert_eq. by eexists.
    + assert (in_flight l m) as Hfl.
      { destruct Hf as [(w & [= <-] & [= ?])|?]; [congruence|by right]. }
      destruct (H10 m c' Hfl Hc' HP) as [(r & Hr & ? & ?)|?]; [left|by right]. exists r.
      rewrite lookup_insert_ne; [done|]. intros ->. congruence.
  - intros y r [[<- <-]|[Hyx Hr]]%lookup_insert_Some; [done|]. intros Hqd [Hrn|Hm]%Hb; [|by eapply H11].
    destruct (s_pending _ Hs y r Hr) as (c' & Hc' & Hy & _). congruence.
  - intros y r [[<- <-]|[Hyx Hr]]%lookup_insert_Some; [by left; simpl; rewrite Hpn|]. intros Hwr.
    destruct (H12 y r Hr Hwr) as [Hx'|[Hx' _]]; [unfold at_hand in Hx'|]; by rewrite Hw in Hx'.
  - intros m c' r Hc' He [[Hid <-]|[_ Hr]]%lookup_insert_Some; [|by eapply H13]. simpl.
    eapply H13; [done..|]. by rewrite <- Hid.
Qed.

Lemma orderly_tail c q l : orderly l → cn_outbound (conn l) = c :: q → orderly (with_outbound q l).
Proof.
  intros [H1 H2 H3 H4 H5 H6 H7 H8 H9 H10 H11 H12 H13 H14] Hq.
  assert (∃ h, queue l = h ++ queue (with_outbound q l)) as [h Hh].
  { unfold queue. rewrite Hq. simpl. destruct (wc_frame c) as [n|]; [by exists [(wc_request_id c, n)]|by exists []]. }
  assert (∀ xn, xn ∈ queue (with_outbound q l) → xn ∈ queue l) as Hin.
  { intros xn Hx. rewrite Hh. apply elem_of_app. by right. }
  split; try done.
  - intros x n Hx. by apply H1, Hin.
  - rewrite Hh, fmap_app in H2. by apply NoDup_app in H2 as (_ & _ & ?).
  - intros x n p Hx. apply H3. by apply Hin.
  - intros Hw. specialize (H4 Hw). rewrite Hh in H4. by apply app_eq_nil in H4 as [_ ?].
  - intros n Hn. destruct (H5 n Hn) as [Hx Hc]. split; [|done]. contradict Hx.
    rewrite Hh, fmap_app. apply elem_of_app. by right.
Qed.

Lemma orderly_no_queue l : orderly l → orderly (with_outbound [] l).
Proof.
  intros [H1 H2 H3 H4 H5 H6 H7 H8 H9 H10 H11 H12 H13 H14]. split; try done; simpl.
  - intros x n Hx. by apply not_elem_of_nil in Hx.
  - constructor.
  - intros x n p Hx. by apply not_elem_of_nil in Hx.
  - intros n Hn. split; [apply not_elem_of_nil|]. by apply H5.
Qed.

(** The whole frame has been handed over. *)
Lemma orderly_write_done x n l :
  orderly l → cn_writer (conn l) = WWriting (WriteCommand x (Some n)) →
  orderly (with_writer (WWrote (WriteCommand x (Some n))) (frame_arrived (WriteCommand x (Some n)) l)).
Proof.
  intros Ho Hw. pose proof Ho as [H1 H2 H3 H4 H5 [H6 H6'] H7 H8 H9 H10 H11 H12 H13 H14].
  assert (is_writing l n) as Hwn by (by exists (WriteCommand x (Some n))).
  assert (n ∉ sent l) as Hns by auto.
  set (k := with_writer _ _).
  assert (∀ m, begun k m ↔ begun l m) as Hb.
  { intros m. unfold begun, at_hand. subst k. simpl. rewrite Hw, elem_of_app, list_elem_of_singleton. simpl. naive_solver. }
  assert (∀ m, ¬ is_writing k m) as Hnw by (intros m (c & Hc & _); done).
  split; try done.
  - intros m Hm. by apply H5, Hb.
  - split; [|intros m Hm; by apply Hnw in Hm]. apply NoDup_app. split_and!; [done| |apply NoDup_singleton].
    intros m Hm ->%list_elem_of_singleton. done.
  - intros c m [[=]|[= <-]] [= <-]. by apply (H7 (WriteCommand x (Some n)) n); [left|].
  - intros m [->%elem_of_singleton|Hm]%elem_of_union; apply elem_of_app; [right; by left|left; by apply H8].
  - intros r Hr. destruct (H9 r Hr) as (m & c & ? & Hm & ? & ?). exists m, c.
    split_and!; [done|apply elem_of_app; by left| |naive_solver..].
    intros [->%elem_of_singleton|?]%elem_of_union; done.
  - intros m c Hf Hc HP. apply (H10 m c); [|done..].
    destruct Hf as [Hf|[[->%elem_of_singleton|?]%elem_of_union|Hf]]; [by apply Hnw in Hf|by left|by right; left|].
    right. by right.
  - intros y p Hp Hq Hbm. by eapply H11, Hb.
  - intros y p Hp Hq. destruct (H12 y p Hp Hq) as [Hx|[Hx _]]; [left|congruence].
    unfold at_hand in Hx. by rewrite Hw in Hx.
  - intros m c r Hc Hr. destruct (H14 m c r Hc Hr). split; [done|]. apply elem_of_app. by left.
Qed.

(** The call is marked, whoever has its id by now. *)
Lemma orderly_mark x n l :
  sound l → orderly l → cn_writer (conn l) = WWrote (WriteCommand x (Some n)) →
  orderly (with_writer (WWaiting false) (mark_written x l)).
Proof.
  intros Hs Ho Hw. pose proof Ho as [H1 H2 H3 H4 H5 [H6 H6'] H7 H8 H9 H10 H11 H12 H13 H14].
  set (k := with_writer _ _).
  assert (∀ m, begun k m → begun l m) as Hb by (intros m [[=]|?]; by right).
  assert (∀ m, ¬ is_writing k m) as Hnw by (intros m (c & Hc & _); done).
  assert (∀ y q, pending (st k) !! y = Some q → ∃ p, pending (st l) !! y = Some p ∧ pc_call p = pc_call q ∧
    (pc_progress q = Written ∨ pc_progress q = pc_progress p ∧ y ≠ x)) as Hpk.
  { intros y q. subst k. simpl. destruct (decide (x = y)) as [->|Hne].
    - rewrite lookup_alter_eq. destruct (pending (st l) !! y) as [p|]; [|done]. intros [= <-]. exists p. eauto.
    - rewrite lookup_alter_ne by done. intros Hq. exists q. eauto. }
  split; try done.
  - intros y m q Hy (p & Hp & <- & _)%Hpk. eauto.
  - intros m Hm. apply H5. auto.
  - split; [done|]. intros m Hm. by apply Hnw in Hm.
  - intros c m [[=]|[=]].
  - intros m c [Hf|Hf] Hc HP; [by apply Hnw in Hf|].
    destruct (H10 m c) as [(p & Hp & Hpm & Hpr)|?]; [by right|done|done|left|by right].
    subst k. simpl. destruct (decide (x = ca_id c)) as [->|Hne].
    + rewrite lookup_alter_eq, Hp. by eexists.
    + rewrite lookup_alter_ne by done. by eexists.
  - intros y q (p & Hp & <- & [Hq|[Hq _]])%Hpk Hqq; [congruence|]. intros Hbm. eapply H11; [done|congruence|]. auto.
  - intros y q (p & Hp & <- & [Hq|[Hq Hyx]])%Hpk Hqq; [congruence|].
    destruct (H12 y p Hp) as [Hx|[Hx _]]; [congruence| |congruence].
    unfold at_hand in Hx. rewrite Hw in Hx. simpl in Hx. injection Hx as Hx.
    destruct (H7 _ n (or_intror Hw) eq_refl) as (a & Ha & Hai). simpl in Hai.
    destruct (s_pending _ Hs y p Hp) as (a' & Ha' & Hai' & _). congruence.
  - intros m c q Hc He (p & Hp & <- & _)%Hpk. eauto.
Qed.

(** The frame could not be written: the writer is gone. *)
Lemma orderly_write_failed x n l :
  orderly l → cn_writer (conn l) = WWriting (WriteCommand x (Some n)) → orderly (writer_ends l).
Proof.
  intros Ho Hw. apply orderly_no_queue in Ho as [H1 H2 H3 H4 H5 [H6 H6'] H7 H8 H9 H10 H11 H12 H13 H14].
  set (k := writer_ends l).
  assert (∀ m, begun k m → begun l m) as Hb by (intros m [[=]|?]; by right).
  assert (∀ m, ¬ is_writing k m) as Hnw by (intros m (c & Hc & _); done).
  split; try done.
  - intros m Hm. by apply H5, Hb.
  - split; [done|]. intros m Hm. by apply Hnw in Hm.
  - intros c m [[=]|[=]].
  - intros m c [Hf|Hf] Hc HP; [by apply Hnw in Hf|]. apply (H10 m c); [by right|done..].
  - intros y p Hp Hq Hbm. eapply H11; [done..|]. by apply Hb.
  - intros y p Hp Hq. right. split; [done|]. destruct (H12 y p Hp Hq) as [Hx|[_ ?]]; [|done].
    apply H6'. exists (WriteCommand x (Some n)). split; [done|]. unfold at_hand in Hx. simpl in Hx. by rewrite Hw in Hx.
Qed.

(** An answer is read off the wire. *)
Lemma orderly_arrive n c r a l :
  orderly l → callers l !! n = Some c → cn_reader (conn l) = RReading a → n ∈ unanswered l →
  rp_request_id r = ca_id c →
  orderly (arrives (Received r (Some n))
    (Link (conn l) (idle_connections l) (client_alive l) (callers l) (sent l) (unanswered l ∖ {[n]}))).
Proof.
  intros Ho Hc Hr Hn Hid. pose proof Ho as [H1 H2 H3 H4 H5 [H6 H6'] H7 H8 H9 H10 H11 H12 H13 H14].
  assert (orderly (Link (conn l) (idle_connections l) (client_alive l) (callers l) (sent l) (unanswered l ∖ {[n]}))).
  { split; try done.
    - intros m [? _]%elem_of_difference. by apply H8.
    - intros v Hv. simpl in Hv. congruence.
    - intros m c' Hf Hc' HP. apply (H10 m c'); [|done..].
      destruct Hf as [?|[[? _]%elem_of_difference|?]]; [by left|right; by left|right; by right]. }
  unfold arrives. simpl. case_match; [|apply orderly_idle_reader; [by apply orderly_poison|done]].
  split; try done.
  - intros m [? _]%elem_of_difference. by apply H8.
  - intros v [= <-]. exists n, c. simpl. split_and!; [done|by apply H8|set_solver|done..].
  - intros m c' Hf Hc' HP. apply (H10 m c'); [|done..].
    destruct Hf as [?|[[? _]%elem_of_difference|(v & [= <-] & [= <-])]]; [by left|right; by left..].
Qed.

Lemma orderly_settle n r l :
  orderly l → rv_answers r = Some n → n ∈ sent l → orderly (on_caller n (settle r) l).
Proof.
  intros Ho Hr Hn. destruct (callers l !! n) as [c|] eqn:Hc.
  2: { unfold on_caller. rewrite alter_id by naive_solver. by eapply orderly_core; [..|exact Ho]. }
  assert (orderly (on_caller n (set_ack (rp_blob_refs (rv_reply r))) l))
    as [H1 H2 H3 H4 H5 H6 H7 H8 H9 H10 H11 H12 H13 H14] by (by apply orderly_on_caller).
  assert (∀ m a, callers (on_caller n (settle r) l) !! m = Some a → ∃ b,
    callers (on_caller n (set_ack (rp_blob_refs (rv_reply r))) l) !! m = Some b ∧ ca_id b = ca_id a ∧ ca_at b = ca_at a
    ∧ (m = n ∧ ca_sender a = Sent (Delivered r) ∨ ca_sender a = ca_sender b)) as Hback.
  { intros m a. simpl. destruct (decide (n = m)) as [<-|Hne].
    - rewrite !lookup_alter_eq, Hc. intros [= <-]. eexists. split; [done|]. simpl. eauto.
    - rewrite !lookup_alter_ne by done. intros ->. eauto 6. }
  assert (∀ m b, callers (on_caller n (set_ack (rp_blob_refs (rv_reply r))) l) !! m = Some b → ∃ a,
    callers (on_caller n (settle r) l) !! m = Some a ∧ ca_id a = ca_id b ∧ ca_at a = ca_at b) as Hfwd.
  { intros m b. simpl. destruct (decide (n = m)) as [<-|Hne].
    - rewrite !lookup_alter_eq, Hc. intros [= <-]. by eexists.
    - rewrite !lookup_alter_ne by done. intros ->. eauto. }
  split; try done.
  - intros x m Hq. destruct (H1 x m Hq) as (b & (a & Ha & Hi & Hat)%Hfwd & Hx & Hl). exists a.
    unfold in_line in *. rewrite Hat. split_and!; [done|congruence|done].
  - intros m Hm. destruct (H5 m Hm) as (Hq & b & (a & Ha & Hi & Hat)%Hfwd & Hl). split; [done|]. exists a.
    unfold in_line in *. by rewrite Hat.
  - intros w m Hw Hf. destruct (H7 w m Hw Hf) as (b & (a & Ha & Hi & _)%Hfwd & Hx). exists a. split; [done|congruence].
  - intros v Hv. destruct (H9 v Hv) as (m & b & ? & ? & ? & (a & Ha & Hi & _)%Hfwd & Hx). exists m, a.
    split_and!; [done..|congruence].
  - intros m a Hf (b & Hb & Hi & _)%Hback HP. rewrite <- Hi. by apply H10.
  - intros m a p (b & Hb & Hi & Hat & _)%Hback He. rewrite <- Hi. apply (H13 m b p Hb).
    unfold engaged in *. by rewrite Hat.
  - intros m a v (b & Hb & _ & _ & [[-> Hs]|Hs])%Hback Hv; [split; [congruence|done]|]. apply (H14 m b v Hb). congruence.
Qed.

Lemma with_reader_same q l k : same l k → same (with_reader q l) (with_reader q k).
Proof. intros []. by split. Qed.

Lemma orderly_route r q l :
  sound l → orderly l → cn_reader (conn l) = RHolding r → (∀ v, q ≠ RHolding v) →
  orderly (with_reader q (route r l).2).
Proof.
  intros Hs Ho Hr Hq. destruct (o_holding _ Ho r Hr) as (n & c & Hrn & Hsn & Hun & Hc & Hid).
  assert (in_flight l n) as Hf by (right; right; by exists r).
  pose proof (orderly_idle_reader q l Ho Hq) as Hk.
  assert (¬ in_flight (with_reader q l) n) as Hnf.
  { intros [Hw|[?|(v & Hv & _)]]; [|done|by apply Hq in Hv].
    destruct (o_once _ Hk) as [_ Hn]. by apply (Hn n). }
  eapply orderly_same; [apply with_reader_same, route_spec|].
  destruct (pending (st l) !! rp_request_id (rv_reply r)) as [p|] eqn:Hp.
  - assert (pc_call p = n) as Hpn.
    { destruct (o_held _ Ho n c Hf Hc) as [(p' & Hp' & ? & _)|Ha].
      - intros HP. apply (s_drained _ Hs) in HP as [HP _]. by rewrite HP in Hp.
      - congruence.
      - pose proof (s_disjoint _ Hs (ca_id c) ltac:(eauto)). congruence. }
    assert (orderly (on_caller n (settle r) (with_pending (delete (rp_request_id (rv_reply r)) (pending (st l))) (with_reader q l)))) as Hm.
    { apply orderly_settle; [|done..]. apply (orderly_forget _ p (with_reader q l)); [done..|]. by rewrite Hpn. }
    rewrite Hpn. eapply orderly_core; [..|exact Hm]; done.
  - pose proof Hk as [H1 H2 H3 H4 H5 H6 H7 H8 H9 H10 H11 H12 H13 H14]. split; try done.
    intros m c' Hfm Hcm HP. destruct (H10 m c' Hfm Hcm HP) as [?|Ha]; [by left|right].
    change (delete (rp_request_id (rv_reply r)) (abandoned (st l)) !! ca_id c' = Some m).
    change (abandoned (st l) !! ca_id c' = Some m) in Ha.
    rewrite lookup_delete_ne; [done|]. intros Heq.
    destruct (o_held _ Ho n c Hf Hc HP) as [(p' & Hp' & _)|Ha']; [congruence|].
    assert (m = n) by congruence. subst m. by apply Hnf.
Qed.

Lemma timed_out_error_orderly x l : sound l → orderly l → orderly (timed_out_error x l).2.
Proof.
  intros Hs Ho. pose proof (orderly_abandon x l Hs Ho) as Ha. unfold timed_out_error.
  destruct (abandon x l) as [[[]|] k]; simpl in *; try done. by apply orderly_poison.
Qed.

Lemma orderly_caller_step l e k :
  sound l → orderly l → careful l e = true → caller_step l e = Some k → orderly k.
Proof.
  intros Hs Ho Hca. destruct e; try done; cbn [caller_step].
  - case_bool_decide as Hn; [done|]. apply eq_None_not_Some in Hn.
    destruct (try_reserve request_id l) as [l1|] eqn:Hr; [|done]. intros [= <-]. by eapply orderly_reserve.
  - destruct (caller_in n at_reserved l) as [c|] eqn:Hc; [|done]. apply caller_in_Some in Hc as [Hc Hr].
    assert (ca_at c = Reserved) as Ha by (by destruct (ca_at c)). cbn [mbind option_bind].
    destruct (register n (ca_id c) l) as [l1|] eqn:Hg; intros [= <-]; [by eapply orderly_register|].
    apply orderly_returns, orderly_on_caller; [by eapply orderly_core; [..|exact Ho]|].
    intros c' _. by apply tame_sender.
  - destruct (caller_in n at_registered l) as [c|] eqn:Hc; [|done]. apply caller_in_Some in Hc as [Hc Hr].
    cbn [mbind option_bind].
    destruct (ca_requested c); intros [= <-]; [by apply orderly_returns, orderly_abandon|].
    apply orderly_on_caller; [done|]. intros c' Hc'. rewrite Hc in Hc'. injection Hc' as <-.
    split; try done; unfold in_line, engaged; by destruct (ca_at c).
  - destruct (caller_in n at_cancellable l) as [c|] eqn:Hc; [|done]. apply caller_in_Some in Hc as [Hc Hr].
    assert (ca_at c = Cancellable) as Ha by (by destruct (ca_at c)). cbn [mbind option_bind].
    intros [= <-]. destruct (try_send _ l) as [l1|] eqn:Ht; [by eapply orderly_enqueue|].
    apply orderly_on_caller; [by apply orderly_poison|]. intros c' Hc'.
    rewrite (same_callers _ _ (poison_same false l)), Hc in Hc'. injection Hc' as <-.
    apply tame_at; [done|]. unfold engaged. by rewrite Ha.
  - destruct (caller_in n at_awaiting l) as [c|] eqn:Hc; [|done]. cbn [mbind option_bind].
    destruct (ca_sender c); [done|..]; intros [= <-]; by apply orderly_returns.
  - destruct (caller_in n at_awaiting l) as [c|] eqn:Hc; [|done]. cbn [mbind option_bind].
    pose proof (timed_out_error_orderly (ca_id c) l Hs Ho). destruct (timed_out_error _ l) as [er l1].
    intros [= <-]. by apply orderly_returns.
  - destruct (callers l !! n) as [c|] eqn:Hc; [|done]. cbn [mbind option_bind]. intros [= <-].
    assert (orderly (on_caller n (set_cancellation true false) l)) by (by apply orderly_on_caller).
    destruct (ca_target c); [|done]. apply orderly_abandon; [|done].
    apply sound_on_caller; [done|]. intros c' _. split_and!; [done..|by left].
  - destruct (callers l !! n) as [c|] eqn:Hc; [|done]. cbn [mbind option_bind].
    destruct (ca_ack c); [|done]. intros [= <-]. eapply orderly_same; [apply send_blob_ack_same|].
    by apply orderly_on_caller.
Qed.

Lemma orderly_writer_step l e k : sound l → orderly l → writer_step l e = Some k → orderly k.
Proof.
  intros Hs Ho. destruct e; try done; cbn [writer_step]; destruct (cn_writer (conn l)) as [nt|c|c|] eqn:Hw; try done.
  - destruct (cn_outbound (conn l)) as [|c rest] eqn:Hq; [done|]. cbv zeta.
    pose proof (orderly_tail c rest l Ho Hq) as Ht.
    assert (∀ w, no_request w → w ≠ WFinished → orderly (with_writer w (with_outbound rest l))) as Hnr.
    { intros w Hnw Hnf. apply orderly_no_request; unfold no_request; simpl; rewrite ?Hw; done. }
    destruct c as [x [n|]]; cbn [wc_frame wc_request_id]; [|intros [= <-]; by apply Hnr].
    unfold mark_writing. destruct (pending (st (with_outbound rest l)) !! x) as [p|] eqn:Hp;
      intros [= <-]; [exact (orderly_take_request nt x n rest p l Hs Ho Hw Hq Hp)|by apply Hnr].
  - destruct c as [x [n|]]; intros [= <-]; [by apply orderly_write_done|].
    apply (orderly_no_request _ l); unfold no_request; simpl; rewrite ?Hw; done.
  - destruct c as [x [n|]]; intros [= <-].
    + apply (orderly_write_failed x n); [by apply orderly_poison|]. by rewrite (same_writer _ _ (poison_same false l)).
    + unfold writer_ends. apply orderly_no_request; unfold no_request; simpl; rewrite ?(same_writer _ _ (poison_same false l)), ?Hw; try done.
      by apply orderly_no_queue, orderly_poison.
  - destruct c as [x [n|]]; intros [= <-]; [by eapply orderly_mark|].
    apply orderly_no_request; unfold no_request; simpl; rewrite ?Hw; done.
  - destruct nt; [|done]. intros [= <-]. unfold writer_ends. apply orderly_no_request; unfold no_request; simpl; rewrite ?Hw; try done.
    by apply orderly_no_queue.
Qed.

Lemma orderly_reader_step l e k :
  sound l → orderly l → careful l e = true → reader_step l e = Some k → orderly k.
Proof.
  intros Hs Ho Hca. destruct e; try done; cbn [reader_step]; destruct (cn_reader (conn l)) as [nt|r'| |] eqn:Hw; try done.
  - destruct (callers l !! n) as [c|] eqn:Hc; [|done]. cbn [mbind option_bind].
    case_bool_decide; [|done]. case_bool_decide; [|done]. intros [= <-]. by eapply orderly_arrive.
  - assert (∀ q, (∀ v, q ≠ RHolding v) → orderly (with_reader q (route r' l).2)) as Hr.
    { intros q Hq. by apply orderly_route. }
    destruct (route r' l) as [b l1]. intros [= <-]. apply Hr. by destruct b.
  - intros [= <-]. apply orderly_idle_reader; [by apply orderly_poison|done].
  - destruct nt; [|done]. intros [= <-]. by apply orderly_idle_reader.
  - destruct (cn_writer (conn l)); try done. intros [= <-]. by apply orderly_idle_reader.
Qed.

Lemma orderly_step l e k : sound l → orderly l → careful l e = true → step l e = Some k → orderly k.
Proof.
  intros Hs Ho Hca. destruct e; cbn [step]; intros H;
    try (by eapply orderly_caller_step); try (by eapply orderly_writer_step); try (by eapply orderly_reader_step);
    try (injection H as <-; first [by apply orderly_poison|by eapply orderly_core; [..|exact Ho]]).
  - by eapply orderly_drain.
  - destruct (cn_expiring (conn l)); [|done]. injection H as <-. apply orderly_poison.
    by eapply orderly_core; [..|exact Ho].
Qed.

Lemma orderly_new : orderly new_link.
Proof.
  assert (∀ n, ¬ begun new_link n) as Hb by (intros n [[=]|[]%not_elem_of_nil]).
  split; try done; simpl.
  - intros x n []%not_elem_of_nil.
  - constructor.
  - intros n Hn. by apply Hb in Hn.
  - split; [constructor|]. intros n (c & [=] & _).
  - by intros c n [[=]|[=]].
Qed.

Lemma run_app l es es' : run l (es ++ es') = k ← run l es; run k es'.
Proof. revert l. induction es as [|e es IH]; intros l; [done|]. simpl. destruct (step l e); simpl; auto. Qed.

Lemma careful_run_app l es es' k :
  run l es = Some k → careful_run l (es ++ es') = careful_run l es && careful_run k es'.
Proof.
  revert l. induction es as [|e es IH]; intros l; simpl; [by intros [= ->]|].
  destruct (step l e) as [m|]; [|done]. simpl. intros Hr. rewrite (IH m) by done. by rewrite andb_assoc.
Qed.

Lemma sound_run es l k : sound l → run l es = Some k → sound k.
Proof.
  revert l. induction es as [|e es IH]; intros l Hs; simpl; [by intros [= <-]|].
  destruct (step l e) as [m|] eqn:Hm; [|done]. simpl. apply IH. by eapply sound_step.
Qed.

Lemma orderly_run es l k : sound l → orderly l → careful_run l es = true → run l es = Some k → orderly k.
Proof.
  revert l. induction es as [|e es IH]; intros l Hs Ho Hca; simpl; [by intros [= <-]|].
  simpl in Hca. apply andb_prop in Hca as [He Hca].
  destruct (step l e) as [m|] eqn:Hm; [|done]. simpl. apply IH; [by eapply sound_step|by eapply orderly_step|done].
Qed.

(** C21: whatever the interleaving, a call that waits is waiting for somebody: it
    is pending, so that a reply, a failure of the connection or its deadline
    will settle it, or its channel has been settled already and it returns.
    Once a connection is poisoned none of its calls is left waiting. *)
Theorem nobody_waits_on_nothing es l n c :
  run new_link es = Some l → callers l !! n = Some c → ca_at c = Awaiting →
  (∃ p, pending (st l) !! ca_id c = Some p ∧ pc_call p = n ∧ cn_poisoned (conn l) ≠ Poisoned) ∨
  ∃ d k, (ca_sender c = Sent d ∨ ca_sender c = Dropped ∧ d = Failed OutcomeUnknown) ∧
    step l (Resolve n) = Some k ∧ ca_at <$> callers k !! n = Some (Returned d).
Proof.
  intros Hr Hc Ha. pose proof (sound_run _ _ _ sound_new Hr) as Hs.
  destruct (ca_sender c) as [|d|] eqn:Hse.
  - left. destruct (s_open _ Hs n c Hc Hse) as [?|(p & Hp & Hn)]; [congruence|]. exists p. split_and!; try done.
    intros HP. destruct (s_drained _ Hs HP) as [He _]. by rewrite He in Hp.
  - right. exists d, (returns n d l). cbn [step caller_step]. unfold caller_in. rewrite Hc, Ha. simpl. rewrite Hse.
    split; [by left|]. split; [done|]. by rewrite lookup_alter_eq, Hc.
  - right. exists (Failed OutcomeUnknown), (returns n (Failed OutcomeUnknown) l). cbn [step caller_step].
    unfold caller_in. rewrite Hc, Ha. simpl. rewrite Hse. split; [by right|]. split; [done|].
    by rewrite lookup_alter_eq, Hc.
Qed.

(** In a careful run the reply a call is given answers the frame of that very
    call, and no frame is written twice. *)
Theorem reply_is_ones_own es l n c r :
  run new_link es = Some l → careful_run new_link es = true →
  callers l !! n = Some c → ca_sender c = Sent (Delivered r) →
  rv_answers r = Some n ∧ n ∈ sent l ∧ NoDup (sent l).
Proof.
  intros Hr Hca Hc Hse. pose proof (orderly_run _ _ _ sound_new orderly_new Hca Hr) as Ho.
  destruct (o_own _ Ho n c r Hc Hse). split_and!; [done..|]. apply (o_once _ Ho).
Qed.

(** ** What [NotDelivered] is worth *)

(** The call has been told, on its channel or as its result. *)
Definition told (c : caller) : Prop :=
  ca_sender c = Sent (Failed NotDelivered) ∨ ca_at c = Returned (Failed NotDelivered).

Definition told_not_delivered (l : link) (n : nat) : Prop := ∃ c, callers l !! n = Some c ∧ told c.

(** Channels are used once, and nobody is told who was not told before. *)
Definition kept (cs cs' : gmap nat caller) : Prop :=
  ∀ n c, cs !! n = Some c → ∃ c', cs' !! n = Some c' ∧ (ca_sender c ≠ Open → ca_sender c' ≠ Open).
Definition untold (cs cs' : gmap nat caller) : Prop :=
  ∀ n c', cs' !! n = Some c' → told c' → ∃ c, cs !! n = Some c ∧ told c.

#[global] Instance kept_preorder : PreOrder kept.
Proof.
  split; [by intros cs n c Hc; eauto|]. intros a b c Hab Hbc n x Hx.
  destruct (Hab n x Hx) as (y & Hy & ?). destruct (Hbc n y Hy) as (z & Hz & ?). eauto.
Qed.

#[global] Instance untold_preorder : PreOrder untold.
Proof.
  split; [by intros cs n c Hc; eauto|]. intros a b c Hab Hbc n x Hx Ht.
  destruct (Hbc n x Hx Ht) as (y & Hy & ?). eauto.
Qed.

Lemma kept_alter n f cs : (∀ c, ca_sender c ≠ Open → ca_sender (f c) ≠ Open) → kept cs (alter f n cs).
Proof.
  intros Hf m c Hc. destruct (decide (n = m)) as [<-|Hne].
  - rewrite lookup_alter_eq, Hc. eexists. split; [done|]. auto.
  - rewrite lookup_alter_ne by done. eauto.
Qed.

Lemma untold_alter n f cs : (∀ c, cs !! n = Some c → told (f c) → told c) → untold cs (alter f n cs).
Proof.
  intros Hf m c'. destruct (decide (n = m)) as [<-|Hne].
  - rewrite lookup_alter_eq. destruct (cs !! n) as [c|] eqn:Hc; [|done]. intros [= <-]. eauto.
  - rewrite lookup_alter_ne by done. eauto.
Qed.

(** What the operations do to the callers. *)
Lemma abandon_callers x l :
  callers (abandon x l).2 = match pending (st l) !! x with
                            | Some p => alter (set_sender Dropped) (pc_call p) (callers l)
                            | None => callers l
                            end.
Proof.
  pose proof (abandon_spec x l) as H. destruct (pending (st l) !! x) as [p|]; [|by rewrite H].
  destruct H as [_ H]. rewrite (same_callers _ _ H). unfold abandoned_with. by destruct (pc_progress p).
Qed.

Lemma abandon_kept x l : kept (callers l) (callers (abandon x l).2).
Proof. rewrite abandon_callers. case_match; [by apply kept_alter|done]. Qed.

Lemma abandon_untold x l : untold (callers l) (callers (abandon x l).2).
Proof.
  rewrite abandon_callers. case_match; [|done]. apply untold_alter. intros c _ [?|?]; [done|by right].
Qed.

Lemma timed_out_callers x l : callers (timed_out_error x l).2 = callers (abandon x l).2.
Proof.
  unfold timed_out_error. destruct (abandon x l) as [[[]|] k]; try done.
  apply (same_callers _ _ (poison_same false k)).
Qed.

Lemma route_callers r l :
  callers (route r l).2 = match pending (st l) !! rp_request_id (rv_reply r) with
                          | Some p => alter (settle r) (pc_call p) (callers l)
                          | None => callers l
                          end.
Proof. rewrite (same_callers _ _ (route_spec r l)). by case_match. Qed.

Lemma drain_callers l k :
  drain l = Some k → ∃ b, cn_poisoned (conn l) = Draining b ∧ callers k = fail_pending b (pending (st l)) (callers l).
Proof.
  intros (b & HP & Hsame)%drain_spec. exists b. split; [done|].
  rewrite (same_callers _ _ Hsame). unfold drained_with. by destruct (notify_shutdown_fields
    (with_poison Poisoned (with_state (ConnState ∅ ∅ ∅ (counted_idle (st l)))
      (with_slots (cn_slots (conn l) + Z.of_nat (size (pending (st l))))
        (with_callers (fail_pending b (pending (st l)) (callers l)) l))))) as (_ & -> & _).
Qed.

Lemma fail_pending_kept b m cs : kept cs (fail_pending b m cs).
Proof.
  intros n c Hc. rewrite lookup_fail_pending, Hc. eexists. split; [done|]. unfold failed.
  destruct (m !! ca_id c); [|done]. by case_bool_decide.
Qed.

Lemma arrives_callers r l : callers (arrives r l) = callers l.
Proof. unfold arrives. case_match; [done|]. apply (same_callers _ _ (poison_same true l)). Qed.

(** The writer touches no caller. *)
Lemma callers_writer_step l e k : writer_step l e = Some k → callers k = callers l.
Proof.
  destruct e; try done; cbn [writer_step]; intros H.
  - destruct (cn_writer (conn l)); try done. destruct (cn_outbound (conn l)) as [|c rest]; [done|].
    cbv zeta in H. destruct (wc_frame c); [|by injection H as <-].
    unfold mark_writing in H. by destruct (pending _ !! _); injection H as <-.
  - destruct (cn_writer (conn l)); try done. injection H as <-. unfold frame_arrived. simpl. by case_match.
  - destruct (cn_writer (conn l)); try done. injection H as <-. apply (same_callers _ _ (poison_same false l)).
  - destruct (cn_writer (conn l)); try done. injection H as <-. simpl. by case_match.
  - destruct (cn_writer (conn l)) as [[]| | |]; try done. by injection H as <-.
Qed.

(** What a step does to the callers: a call is told [NotDelivered] when it is
    turned away, when it times out, and when the connection fails. *)
Definition ending (d : delivery) (c : caller) : caller :=
  set_at (Returned d) (set_cancellation (ca_requested c) false c).

Lemma callers_step l e k :
  step l e = Some k →
  match e with
  | Reserve n x => callers l !! n = None ∧ callers k = <[n := Caller x Reserved Open false false false]> (callers l)
  | Register n => ∃ c, callers l !! n = Some c ∧ ca_at c = Reserved ∧
      (callers k = alter (set_at Registered) n (callers l) ∨
       callers k = alter (ending (Failed NotDelivered)) n (alter (set_sender Dropped) n (callers l)))
  | RegisterCancellation n => ∃ c, callers l !! n = Some c ∧ ca_at c = Registered ∧
      (callers k = alter (λ c, set_at Cancellable (set_cancellation false true c)) n (callers l) ∨
       callers k = alter (ending (Failed NotDelivered)) n (callers (abandon (ca_id c) l).2))
  | Enqueue n => callers k = alter (set_at Awaiting) n (callers l)
  | Resolve n => ∃ c d, callers l !! n = Some c ∧ (ca_sender c = Sent d ∨ d = Failed OutcomeUnknown) ∧
      callers k = alter (ending d) n (callers l)
  | Expire n => ∃ c, callers l !! n = Some c ∧ ca_at c = Awaiting ∧
      callers k = alter (ending (Failed (timed_out_error (ca_id c) l).1)) n (callers (abandon (ca_id c) l).2)
  | Cancel n => ∃ cs, callers k = cs ∧ kept (callers l) cs ∧ untold (callers l) cs
  | DropReply n => callers k = alter (set_ack false) n (callers l)
  | Route => ∃ r, callers k = callers (route r l).2
  | Drain => ∃ b, callers k = fail_pending b (pending (st l)) (callers l) ∧ cn_poisoned (conn l) = Draining b
  | _ => callers k = callers l
  end.
Proof.
  destruct e; cbn [step]; intros H; try (by apply callers_writer_step in H); cbn [caller_step reader_step] in H;
    try (injection H as <-; first [done|apply (same_callers _ _ (poison_same _ _))]).
  - case_bool_decide as Hn; [done|]. apply eq_None_not_Some in Hn. split; [done|].
    destruct (try_reserve request_id l) as [l1|] eqn:Hr; [|done]. injection H as <-. simpl.
    apply try_reserve_spec in Hr as (_ & _ & _ & _ & Hs). by rewrite (same_callers _ _ Hs).
  - destruct (caller_in n at_reserved l) as [c|] eqn:Hc; [|done]. apply caller_in_Some in Hc as [Hc Hr].
    exists c. split; [done|]. split; [by destruct (ca_at c)|]. cbn [mbind option_bind] in H.
    destruct (register n (ca_id c) l) as [l1|] eqn:Hg; injection H as <-; [left|by right].
    by apply register_spec in Hg as (_ & _ & _ & ->).
  - destruct (caller_in n at_registered l) as [c|] eqn:Hc; [|done]. apply caller_in_Some in Hc as [Hc Hr].
    exists c. split; [done|]. split; [by destruct (ca_at c)|]. cbn [mbind option_bind] in H.
    destruct (ca_requested c); injection H as <-; [by right|by left].
  - destruct (caller_in n at_cancellable l) as [c|] eqn:Hc; [|done]. cbn [mbind option_bind] in H.
    injection H as <-. destruct (try_send _ l) as [l1|] eqn:Ht; simpl.
    + by apply try_send_Some in Ht as [_ ->].
    + by rewrite (same_callers _ _ (poison_same false l)).
  - destruct (caller_in n at_awaiting l) as [c|] eqn:Hc; [|done]. apply caller_in_Some in Hc as [Hc Hr].
    cbn [mbind option_bind] in H. destruct (ca_sender c) as [|d|] eqn:Hse; [done|..]; injection H as <-; eauto 8.
  - destruct (caller_in n at_awaiting l) as [c|] eqn:Hc; [|done]. apply caller_in_Some in Hc as [Hc Hr].
    cbn [mbind option_bind] in H. exists c. split; [done|]. split; [by destruct (ca_at c)|].
    rewrite <- timed_out_callers. destruct (timed_out_error (ca_id c) l) as [er l1]. by injection H as <-.
  - destruct (callers l !! n) as [c|] eqn:Hc; [|done]. cbn [mbind option_bind] in H. injection H as <-.
    eexists. split; [done|].
    assert (kept (callers l) (callers (on_caller n (set_cancellation true false) l))) by (by apply kept_alter).
    assert (untold (callers l) (callers (on_caller n (set_cancellation true false) l))) by (by apply untold_alter).
    destruct (ca_target c); [|done]. split; etrans; eauto using abandon_kept, abandon_untold.
  - destruct (callers l !! n) as [c|] eqn:Hc; [|done]. cbn [mbind option_bind] in H.
    destruct (ca_ack c); [|done]. injection H as <-. by rewrite (same_callers _ _ (send_blob_ack_same _ _)).
  - destruct (cn_reader (conn l)); try done. destruct (callers l !! n); [|done]. cbn [mbind option_bind] in H.
    case_match; [|done]. injection H as <-. by rewrite arrives_callers.
  - destruct (cn_reader (conn l)); try done. injection H as <-. apply arrives_callers.
  - destruct (cn_reader (conn l)) as [|r| |]; try done. exists r. destruct (route r l) as [b l1]. by injection H as <-.
  - destruct (cn_reader (conn l)); try done. injection H as <-. apply (same_callers _ _ (poison_same true _)).
  - destruct (cn_reader (conn l)) as [[]| | |]; try done. by injection H as <-.
  - destruct (cn_reader (conn l)); try done. destruct (cn_writer (conn l)); try done. by injection H as <-.
  - apply drain_callers in H as (b & ? & ?). eauto.
  - destruct (cn_expiring (conn l)); [|done]. injection H as <-. by rewrite (same_callers _ _ (poison_same true _)).
Qed.

(** The writer and what it has written, outside of its own steps. *)
Definition still (l k : link) : Prop := cn_writer (conn k) = cn_writer (conn l) ∧ sent k = sent l.

#[global] Instance still_preorder : PreOrder still.
Proof. split; [by intros l|]. intros a b c [] []. split; congruence. Qed.

Lemma still_same l k : same k l → still l k.
Proof. intros Hs. split; [apply (same_writer _ _ Hs)|apply (same_sent _ _ Hs)]. Qed.

Lemma abandon_still x l : still l (abandon x l).2.
Proof.
  pose proof (abandon_spec x l) as H. destruct (pending (st l) !! x) as [p|]; [|by rewrite H].
  destruct H as [_ H]. etrans; [|by apply still_same, H]. unfold abandoned_with. by destruct (pc_progress p).
Qed.

Lemma timed_out_still x l : still l (timed_out_error x l).2.
Proof.
  pose proof (abandon_still x l) as H. unfold timed_out_error.
  destruct (abandon x l) as [[[]|] k]; simpl in *; try done. etrans; [exact H|]. apply still_same, poison_same.
Qed.

Lemma route_still r l : still l (route r l).2.
Proof. etrans; [|by apply still_same, route_spec]. by case_match. Qed.

Lemma caller_step_still l e k : caller_step l e = Some k → still l k.
Proof.
  destruct e; try done; cbn [caller_step]; intros H.
  - case_bool_decide; [done|]. destruct (try_reserve request_id l) as [l1|] eqn:Hr; [|done].
    injection H as <-. apply try_reserve_spec in Hr as (_ & _ & _ & _ & Hs).
    etrans; [|by etrans; [apply (still_same _ _ Hs)|]]. done.
  - destruct (caller_in n at_reserved l) as [c|]; [|done]. cbn [mbind option_bind] in H.
    destruct (register n (ca_id c) l) as [l1|] eqn:Hg; injection H as <-; [|done].
    by apply register_spec in Hg as (_ & _ & _ & ->).
  - destruct (caller_in n at_registered l) as [c|]; [|done]. cbn [mbind option_bind] in H.
    destruct (ca_requested c); injection H as <-; [apply (abandon_still (ca_id c) l)|done].
  - destruct (caller_in n at_cancellable l) as [c|]; [|done]. cbn [mbind option_bind] in H. injection H as <-.
    destruct (try_send _ l) as [l1|] eqn:Ht; [by apply try_send_Some in Ht as [_ ->]|].
    apply (still_same l (poison false l)), poison_same.
  - destruct (caller_in n at_awaiting l) as [c|]; [|done]. cbn [mbind option_bind] in H.
    by destruct (ca_sender c); [done|..]; injection H as <-.
  - destruct (caller_in n at_awaiting l) as [c|]; [|done]. cbn [mbind option_bind] in H.
    pose proof (timed_out_still (ca_id c) l). destruct (timed_out_error (ca_id c) l) as [er l1]. by injection H as <-.
  - destruct (callers l !! n) as [c|]; [|done]. cbn [mbind option_bind] in H. injection H as <-.
    destruct (ca_target c); [|done]. etrans; [|apply abandon_still]. done.
  - destruct (callers l !! n) as [c|]; [|done]. cbn [mbind option_bind] in H.
    destruct (ca_ack c); [|done]. injection H as <-. etrans; [|by apply still_same, send_blob_ack_same]. done.
Qed.

Lemma reader_step_still l e k : reader_step l e = Some k → still l k.
Proof.
  destruct e; try done; cbn [reader_step]; destruct (cn_reader (conn l)) as [nt|r'| |]; try done; intros H.
  - destruct (callers l !! n); [|done]. cbn [mbind option_bind] in H. case_match; [|done]. injection H as <-.
    unfold arrives. case_match; [done|]. etrans; [|by apply (still_same _ (poison true _)), poison_same]. done.
  - injection H as <-. unfold arrives. case_match; [done|].
    etrans; [by apply (still_same l (poison true l)), poison_same|done].
  - pose proof (route_still r' l). destruct (route r' l). by injection H as <-.
  - injection H as <-. apply (still_same l (poison true l)), poison_same.
  - destruct nt; [|done]. by injection H as <-.
  - destruct (cn_writer (conn l)) eqn:Hw; try done. by injection H as <-.
Qed.

Lemma drained_still b l : at_hand (drained_with b l) = at_hand l ∧ sent (drained_with b l) = sent l.
Proof.
  unfold drained_with, notify_shutdown, at_hand.
  destruct l as [[[pe ab gu ci] ou sl po wr re ex] id al cs se un]. by destruct wr, re.
Qed.

(** A frame is begun only when the writer takes it from the queue for a call
    that is pending under its id. *)
Lemma begun_step l e k n :
  step l e = Some k → begun k n →
  begun l n ∨ e = Receive ∧ ∃ x p, (x, n) ∈ queue l ∧ pending (st l) !! x = Some p.
Proof.
  assert (still l k → begun k n → begun l n) as Hstill.
  { unfold begun, at_hand. intros [-> ->]. done. }
  destruct e; cbn [step]; intros H;
    try (by left; apply Hstill; [eapply caller_step_still|]);
    try (by left; apply Hstill; [eapply reader_step_still|]);
    try (by left; apply Hstill; [injection H as <-; apply still_same, poison_same|]);
    try (by left; apply Hstill; [injection H as <-|]).
  - cbn [writer_step] in H. destruct (cn_writer (conn l)) eqn:Hw; try done.
    destruct (cn_outbound (conn l)) as [|[x f] rest] eqn:Hq; [done|]. cbv zeta in H. cbn [wc_frame wc_request_id] in H.
    destruct f as [m|]; [|injection H as <-; intros [?|?]; [done|left; by right]].
    unfold mark_writing in H. destruct (pending (st (with_outbound rest l)) !! x) as [p|] eqn:Hp; injection H as <-.
    + intros [[= <-]|?]; [right|left; by right]. split; [done|]. exists x, p. split; [|done]. unfold queue. rewrite Hq. left.
    + intros [[=]|?]; left; by right.
  - intros H0. cbn [writer_step] in H. destruct (cn_writer (conn l)) as [|c| |] eqn:Hw; try done. injection H as <-. left.
    unfold begun, at_hand in *. rewrite Hw. unfold frame_arrived in *. simpl in *.
    destruct (wc_frame c) as [m|]; simpl in *; [|done]. rewrite elem_of_app, list_elem_of_singleton in *. naive_solver.
  - intros H0. cbn [writer_step] in H. destruct (cn_writer (conn l)) as [|c| |] eqn:Hw; try done. injection H as <-. left.
    right. unfold writer_ends in *. destruct H0 as [[=]|H0]; simpl in H0.
    by rewrite (same_sent _ _ (poison_same false l)) in H0.
  - intros H0. cbn [writer_step] in H. destruct (cn_writer (conn l)) as [| |c|] eqn:Hw; try done. injection H as <-. left.
    right. destruct H0 as [[=]|H0]. by destruct (wc_frame c).
  - intros H0. cbn [writer_step] in H. destruct (cn_writer (conn l)) as [[]| | |] eqn:Hw; try done. injection H as <-. left.
    right. by destruct H0 as [[=]|H0].
  - intros H0. left. apply drain_spec in H as (b & _ & Hs).
    assert (at_hand k = at_hand (drained_with b l)) as Ha by (unfold at_hand; by rewrite (same_writer _ _ Hs)).
    destruct (drained_still b l) as [Hh Hse]. unfold begun in *. by rewrite Ha, (same_sent _ _ Hs), Hh, Hse in H0.
  - intros H0. left. destruct (cn_expiring (conn l)); [|done]. injection H as <-. unfold begun, at_hand in *.
    by rewrite (same_writer _ _ (poison_same true _)), (same_sent _ _ (poison_same true _)) in *.
Qed.

Lemma kept_step l e k : step l e = Some k → kept (callers l) (callers k).
Proof.
  intros H%callers_step. destruct e; simplify_res; try (by rewrite H); try (rewrite H; by apply kept_alter).
  - rewrite H0. intros m c Hc. exists c. rewrite lookup_insert_ne; [done|]. intros ->. congruence.
  - destruct H1 as [-> | ->]; [by apply kept_alter|]. etrans; [|by apply kept_alter]. by apply kept_alter.
  - destruct H1 as [-> | ->]; [by apply kept_alter|]. etrans; [apply abandon_kept|by apply kept_alter].
  - rewrite H1. by apply kept_alter.
  - rewrite H1. etrans; [apply abandon_kept|by apply kept_alter].
  - rewrite H, route_callers. case_match; [by apply kept_alter|done].
  - rewrite H. apply fail_pending_kept.
Qed.

(** A call that is settled and whose frame has not been begun. *)
Definition over (l : link) (n : nat) : Prop :=
  ¬ begun l n ∧ ∃ c, callers l !! n = Some c ∧ ca_sender c ≠ Open.

(** Its frame will never be begun. *)
Lemma over_step l e k n : sound l → orderly l → step l e = Some k → over l n → over k n.
Proof.
  intros Hs Ho Hk (Hb & c & Hc & Hse). split; [|by destruct (kept_step _ _ _ Hk n c Hc) as (c' & ? & ?); eauto].
  intros [?|(_ & x & p & Hq & Hp)]%(begun_step _ _ _ _ Hk); [done|].
  pose proof (o_owner _ Ho x n p Hq Hp) as <-. destruct (s_pending _ Hs x p Hp) as (c' & Hc' & _ & Hop & _). congruence.
Qed.

Lemma over_run es l k n :
  sound l → orderly l → careful_run l es = true → run l es = Some k → over l n → over k n.
Proof.
  revert l. induction es as [|e es IH]; intros l Hs Ho Hca; simpl; [by intros [= <-]|].
  simpl in Hca. apply andb_prop in Hca as [He Hca]. destruct (step l e) as [m|] eqn:Hm; [|done]. simpl.
  intros Hr Hov. apply (IH m); [by eapply sound_step|by eapply orderly_step|done..|by eapply over_step].
Qed.

(** Who is in line has been registered; who is not has not been begun. *)
Lemma not_begun l n c : orderly l → callers l !! n = Some c → ¬ in_line c → ¬ begun l n.
Proof. intros Ho Hc Hl (_ & c' & Hc' & ?)%(o_begun _ Ho). congruence. Qed.

(** Telling a pending call [NotDelivered] for its progress. *)
Lemma progress_not_begun l x p b :
  orderly l → pending (st l) !! x = Some p → poison_error b (pc_progress p) = NotDelivered →
  at_hand l ≠ Some (pc_call p) → ¬ begun l (pc_call p).
Proof.
  intros Ho Hp He Hh. destruct (pc_progress p) eqn:Hpr; simpl in He; [by eapply o_queued| |done].
  destruct (o_writing _ Ho x p Hp Hpr) as [?|[_ ?]]; [done|]. by intros [?|?].
Qed.

Lemma timed_out_told x l :
  (timed_out_error x l).1 = NotDelivered →
  ∃ p, pending (st l) !! x = Some p ∧ poison_error false (pc_progress p) = NotDelivered.
Proof.
  unfold timed_out_error. pose proof (abandon_spec x l) as H. destruct (pending (st l) !! x) as [p|]; [|by rewrite H].
  intros He. exists p. split; [done|]. destruct H as [H _]. destruct (abandon x l) as [r k]. simpl in H. subst r.
  by destruct (pc_progress p).
Qed.

(** The step that tells a call [NotDelivered] finds its frame not begun,
    unless the writer is inside it. *)
Lemma verdict_step l e k n :
  sound l → orderly l → step l e = Some k → told_not_delivered k n → ¬ told_not_delivered l n →
  at_hand l ≠ Some n → ¬ begun l n.
Proof.
  intros Hs Ho Hk (c' & Hc' & Ht) Hnt Hh. pose proof (callers_step _ _ _ Hk) as H.
  assert (∀ m f, (∀ c, callers l !! m = Some c → told (f c) → told c) → callers k = alter f m (callers l) → ¬ begun l n) as Hquiet.
  { intros m f Hf Hck. destruct Hnt. rewrite Hck in Hc'. by apply (untold_alter m f _ Hf n c'). }
  assert (∀ m d cs, kept (callers l) cs → untold (callers l) cs → callers k = alter (ending d) m cs →
    (∃ c, callers l !! m = Some c ∧ (n = m → d = Failed NotDelivered → ¬ begun l n)) → ¬ begun l n) as Hend.
  { intros m d cs Hkp Hun Hck (c & Hc & Hm). rewrite Hck in Hc'. destruct (decide (m = n)) as [->|Hne].
    - rewrite lookup_alter_eq in Hc'. destruct (cs !! n) as [c0|] eqn:Hc0; [|done]. injection Hc' as <-.
      destruct Ht as [Ht|[= Ht]]; [|by apply Hm]. destruct Hnt. apply (Hun n c0 Hc0). by left.
    - rewrite lookup_alter_ne in Hc' by done. destruct Hnt. by apply (Hun n c' Hc'). }
  destruct e; simplify_res; try (by destruct Hnt; rewrite H in Hc'; exists c');
    try (by eapply Hquiet; [|done]).
  - destruct Hnt. rewrite H0 in Hc'. apply lookup_insert_Some in Hc' as [[_ <-]|[_ ?]]; [by destruct Ht as [[=]|[=]]|by exists c'].
  - destruct H1 as [H1|H1]; [by eapply Hquiet; [|exact H1]; intros ? _ [?|[=]]; left|].
    eapply Hend; [| |exact H1|]; [by apply kept_alter| |].
    { apply untold_alter. intros c _ [?|?]; [done|by right]. }
    exists x. split; [done|]. intros -> _. eapply not_begun; [done..|]. unfold in_line. rewrite H0. tauto.
  - destruct H1 as [H1|H1]; [by eapply Hquiet; [|exact H1]; intros ? _ [?|[=]]; left|].
    eapply Hend; [| |exact H1|]; [apply abandon_kept|apply abandon_untold|].
    exists x. split; [done|]. intros -> _. eapply not_begun; [done..|]. unfold in_line. rewrite H0. tauto.
  - eapply Hquiet; [|exact H]. intros ? _ [?|[=]]. by left.
  - eapply Hend; [| |exact H1|]; [done..|]. exists x. split; [done|]. intros -> ->. destruct Hnt.
    destruct H0 as [H0|[=]]. exists x. split; [done|]. by left.
  - eapply Hend; [| |exact H1|]; [apply abandon_kept|apply abandon_untold|]. exists x. split; [done|].
    intros <- [= (p & Hp & Hpr)%timed_out_told].
    assert (pc_call p = n) as <-; [|by eapply progress_not_begun].
    apply (o_alone _ Ho n x p H); [|done]. unfold engaged. by rewrite H0.
  - subst x. destruct Hnt. by apply (H1 n c').
  - rewrite H, route_callers in Hc'. destruct Hnt. destruct (pending _ !! _) as [p|] eqn:Hp; [|by exists c'].
    eapply (untold_alter (pc_call p) (settle x)); [|done..]. intros c _ [[=]|?]. by right.
  - rewrite H, lookup_fail_pending in Hc'. destruct (callers l !! n) as [c|] eqn:Hc; [|done]. injection Hc' as <-.
    destruct Ht as [Ht|Ht]; [|rewrite failed_at in Ht; destruct Hnt; exists c; split; [done|by right]].
    unfold failed in Ht. destruct (pending (st l) !! ca_id c) as [p|] eqn:Hp; [|by destruct Hnt; exists c; split; [|left]].
    case_bool_decide as Hpn; [|by destruct Hnt; exists c; split; [|left]]. injection Ht as Ht. subst n.
    by eapply progress_not_begun.
Qed.

(** The step that tells a call [NotDelivered] while the writer is not inside
    its frame ends it for good. *)
Lemma told_over l e k n :
  sound l → orderly l → careful l e = true → step l e = Some k →
  told_not_delivered k n → ¬ told_not_delivered l n → at_hand l ≠ Some n → over k n.
Proof.
  intros Hs Ho He Hk Ht Hnt Hh. pose proof (verdict_step _ _ _ _ Hs Ho Hk Ht Hnt Hh) as Hb.
  pose proof (sound_step _ _ _ Hs Hk) as Hs'. destruct Ht as (c & Hc & Ht).
  assert (ca_sender c ≠ Open) as Hse.
  { intros Hop. destruct Ht as [?|Ht]; [congruence|]. destruct (s_open _ Hs' n c Hc Hop) as [?|(p & Hp & Hpn)]; [congruence|].
    destruct (s_pending _ Hs' _ p Hp) as (c' & Hc' & _ & _ & Hst). unfold started in Hst.
    rewrite Hpn, Hc in Hc'. injection Hc' as <-. by rewrite Ht in Hst. }
  split; [|eauto]. intros [?|(-> & _)]%(begun_step _ _ _ _ Hk); [done|].
  apply Hnt. exists c. split; [|done]. by rewrite <- (callers_step _ _ _ Hk).
Qed.

(** In a careful run a call that is told [NotDelivered] while the writer is
    not inside its frame was told the truth: the peer never gets that frame,
    whatever happens afterwards. *)
Theorem not_delivered_means_never_sent es l e k es' m n :
  run new_link es = Some l → step l e = Some k → run k es' = Some m →
  careful_run new_link (es ++ e :: es') = true →
  told_not_delivered k n → ¬ told_not_delivered l n → at_hand l ≠ Some n →
  n ∉ sent m.
Proof.
  intros Hl Hk Hm Hca Ht Hnt Hh. rewrite (careful_run_app _ _ _ _ Hl) in Hca.
  apply andb_prop in Hca as [Hca Hca']. simpl in Hca'. rewrite Hk in Hca'. apply andb_prop in Hca' as [He Hca'].
  pose proof (sound_run _ _ _ sound_new Hl) as Hs. pose proof (orderly_run _ _ _ sound_new orderly_new Hca Hl) as Ho.
  pose proof (sound_step _ _ _ Hs Hk) as Hs'. pose proof (orderly_step _ _ _ Hs Ho He Hk) as Ho'.
  pose proof (told_over _ _ _ _ Hs Ho He Hk Ht Hnt Hh) as Hov.
  destruct (over_run _ _ _ _ Hs' Ho' Hca' Hm Hov) as [Hn _]. intros Hin. apply Hn. by right.
Qed.

(** ** Where the connection falls short *)

Definition calls (n : nat) (request_id : pystr) : list event :=
  [Reserve n request_id; Register n; RegisterCancellation n; Enqueue n].

(** While the writer is inside a call's frame the answer [NotDelivered] is a
    guess: here the deadline passes while the last bytes are written, the
    caller is told [NotDelivered], and the frame is delivered whole. *)
Theorem not_delivered_yet_sent :
  ∃ es l, run new_link es = Some l ∧ careful_run new_link es = true ∧
    ca_at <$> callers l !! 0%nat = Some (Returned (Failed NotDelivered)) ∧ 0%nat ∈ sent l.
Proof.
  exists (calls 0 (u "job-7") ++ [Receive; Expire 0; Drain; WriteDone]). eexists.
  split; [vm_compute; reflexivity|]. split; [vm_compute; reflexivity|]. split; [vm_compute; reflexivity|].
  vm_compute. left.
Qed.

(** The writer finds the call of a request by its id.  A call times out while
    its frame is queued, is told [NotDelivered], and is tried again under the
    same id: the writer sends the frame of the first try after all, and the
    second try gets the answer to the first. *)
Theorem retry_answered_with_stale_frame :
  ∃ es l r, run new_link es = Some l ∧
    ca_at <$> callers l !! 1%nat = Some (Returned (Failed NotDelivered)) ∧
    ca_at <$> callers l !! 2%nat = Some (Returned (Delivered r)) ∧ rv_answers r = Some 1%nat ∧
    sent l = [0; 1]%nat.
Proof.
  exists (calls 0 (u "upload") ++ [Receive] ++ calls 1 (u "job-7") ++ [Expire 1] ++ calls 2 (u "job-7") ++
    [WriteDone; Mark; Receive; WriteDone; Mark; Arrive 1 (reply_success (u "job-7") []); Route; Resolve 2]).
  eexists _, _. split; [vm_compute; reflexivity|]. split; [vm_compute; reflexivity|].
  split; [vm_compute; reflexivity|]. split; vm_compute; reflexivity.
Qed.

(** A poisoned connection with nothing left to do, whose writer was busy when
    the shutdown was announced. *)
Record stranded (l : link) : Prop := Stranded {
  z_poisoned : cn_poisoned (conn l) = Poisoned;
  z_pending : pending (st l) = ∅;
  z_abandoned : abandoned (st l) = ∅;
  z_guarded : guarded_replies (st l) = ∅;
  z_outbound : Forall (λ c, is_Some (wc_frame c)) (cn_outbound (conn l));
  z_writer : cn_writer (conn l) = WWaiting false;
  z_reader : cn_reader (conn l) ≠ RFinished
}.

Lemma stranded_poison b l : stranded l → poison b l = l.
Proof. intros Hz. unfold poison, is_healthy. by rewrite (z_poisoned _ Hz). Qed.

Lemma stranded_abandon x l : stranded l → abandon x l = (None, l).
Proof. intros Hz. unfold abandon. by rewrite (z_pending _ Hz). Qed.

Lemma stranded_route r l : stranded l → route r l = (true, l).
Proof.
  intros Hz. unfold route. rewrite (z_pending _ Hz), (z_abandoned _ Hz), !lookup_empty. by rewrite stranded_poison.
Qed.

Lemma stranded_ack x l : stranded l → send_blob_ack x l = l.
Proof. intros Hz. unfold send_blob_ack. rewrite (z_guarded _ Hz). by rewrite bool_decide_false by set_solver. Qed.

Lemma stranded_callers cs l : stranded l → stranded (with_callers cs l).
Proof. intros []. by split. Qed.

Lemma stranded_on_caller n f l : stranded l → stranded (on_caller n f l).
Proof. apply stranded_callers. Qed.

Lemma stranded_reader r l : r ≠ RFinished → stranded l → stranded (with_reader r l).
Proof. intros Hr []. by split. Qed.

#[local] Hint Resolve stranded_callers stranded_on_caller : tinyray.

Lemma stranded_caller_step l e k : stranded l → caller_step l e = Some k → stranded k.
Proof.
  intros Hz. assert (is_healthy l = false) as Hh by (unfold is_healthy; by rewrite (z_poisoned _ Hz)).
  destruct e; try done; cbn [caller_step].
  - case_bool_decide; [done|]. unfold try_reserve. by rewrite Hh.
  - destruct (caller_in n at_reserved l) as [c|]; [|done]. cbn [mbind option_bind]. unfold register. rewrite Hh. simpl.
    intros [= <-]. unfold returns. apply stranded_on_caller, stranded_on_caller. destruct Hz. by split.
  - destruct (caller_in n at_registered l) as [c|]; [|done]. cbn [mbind option_bind].
    destruct (ca_requested c); intros [= <-]; [rewrite stranded_abandon by done|]; unfold returns; eauto with tinyray.
  - destruct (caller_in n at_cancellable l) as [c|]; [|done]. cbn [mbind option_bind]. intros [= <-].
    destruct (try_send _ l) as [l1|] eqn:Ht; [|rewrite stranded_poison by done; eauto with tinyray].
    apply try_send_Some in Ht as [_ ->]. apply stranded_on_caller. destruct Hz. split; try done. simpl.
    apply Forall_app. split; [done|]. apply Forall_singleton. simpl. eauto.
  - destruct (caller_in n at_awaiting l) as [c|]; [|done]. cbn [mbind option_bind].
    destruct (ca_sender c); [done|..]; intros [= <-]; unfold returns; eauto with tinyray.
  - destruct (caller_in n at_awaiting l) as [c|]; [|done]. cbn [mbind option_bind]. unfold timed_out_error.
    rewrite stranded_abandon by done. intros [= <-]. unfold returns. eauto with tinyray.
  - destruct (callers l !! n) as [c|]; [|done]. cbn [mbind option_bind]. intros [= <-].
    destruct (ca_target c); [rewrite stranded_abandon|]; eauto with tinyray.
  - destruct (callers l !! n) as [c|]; [|done]. cbn [mbind option_bind].
    destruct (ca_ack c); [|done]. intros [= <-]. rewrite stranded_ack; eauto with tinyray.
Qed.

Lemma stranded_step l e k : stranded l → step l e = Some k → stranded k.
Proof.
  intros Hz. destruct e; cbn [step]; try (by apply stranded_caller_step); cbn [writer_step reader_step];
    rewrite ?(z_writer _ Hz); try done.
  - destruct Hz as [H1 H2 H3 H4 H5 H6 H7]. destruct (cn_outbound (conn l)) as [|c rest]; [done|]. cbv zeta.
    apply Forall_cons in H5 as [[n Hn] H5]. rewrite Hn. unfold mark_writing.
    assert (pending (st (with_outbound rest l)) = ∅) as -> by done. rewrite lookup_empty. intros [= <-]. by split.
  - destruct (cn_reader (conn l)) eqn:Hr; try done. destruct (callers l !! n); [|done]. cbn [mbind option_bind].
    case_match; [|done]. intros [= <-]. unfold arrives. case_match; [destruct Hz; by split|].
    apply stranded_reader; [done|]. rewrite stranded_poison; destruct Hz; by split.
  - destruct (cn_reader (conn l)); try done. intros [= <-]. unfold arrives.
    case_match; apply stranded_reader; try done. by rewrite stranded_poison.
  - destruct (cn_reader (conn l)); try done. rewrite stranded_route by done. intros [= <-]. by apply stranded_reader.
  - destruct (cn_reader (conn l)); try done. intros [= <-]. rewrite stranded_poison by done. by apply stranded_reader.
  - destruct (cn_reader (conn l)) as [[]| | |]; try done. intros [= <-]. by apply stranded_reader.
  - by destruct (cn_reader (conn l)).
  - unfold drain. by rewrite (z_poisoned _ Hz).
  - intros [= <-]. destruct Hz. by split.
  - destruct (cn_expiring (conn l)); [|done]. intros [= <-]. rewrite stranded_poison; destruct Hz; by split.
  - intros [= <-]. by rewrite stranded_poison.
  - intros [= <-]. destruct Hz. by split.
  - intros [= <-]. destruct Hz. by split.
Qed.

Lemma stranded_run es l k : stranded l → run l es = Some k → stranded k.
Proof.
  revert l. induction es as [|e es IH]; intros l Hz; simpl; [by intros [= <-]|].
  destruct (step l e) as [m|] eqn:Hm; [|done]. simpl. apply IH. by eapply stranded_step.
Qed.

(** [notify_waiters] reaches the writer only in its [select!].  A peer that
    closes while the writer is inside a frame leaves the writer waiting for
    ever: the socket and the connection's permit are never given back, though
    every call has returned. *)
Theorem failure_while_writing_leaks :
  ∃ es l, run new_link es = Some l ∧ careful_run new_link es = true ∧
    ca_at <$> callers l !! 0%nat = Some (Returned (Failed OutcomeUnknown)) ∧
    cn_poisoned (conn l) = Poisoned ∧
    ∀ es' k, run l es' = Some k → cn_writer (conn k) ≠ WFinished ∧ cn_reader (conn k) ≠ RFinished.
Proof.
  set (es := calls 0 (u "job-7") ++ [Receive; WriteDone; PeerGone; Drain; Mark; Resolve 0]).
  destruct (run new_link es) as [l|] eqn:Hl; [|vm_compute in Hl; discriminate].
  exists es, l. split; [done|]. vm_compute in Hl. injection Hl as <-.
  split; [vm_compute; reflexivity|]. split; [reflexivity|]. split; [reflexivity|].
  intros es' k Hk. eapply stranded_run in Hk as Hz; [|split; try done; by constructor].
  rewrite (z_writer _ Hz). split; [done|apply (z_reader _ Hz)].
Qed.

(** ** Examples *)

Definition after (es : list event) : link := default new_link (run new_link es).

Definition sample_exchange : list event :=
  calls 0 (u "job-7") ++ [Receive; WriteDone; Mark; Arrive 0 (reply_success (u "job-7") [1%N]); Route].

Definition sample_caller (l : link) (n : nat) : caller :=
  default (Caller [] Reserved Open false false false) (callers l !! n).

Lemma nobody_waits_on_nothing_witness :
  ∃ d k, (ca_sender (sample_caller (after sample_exchange) 0) = Sent d ∨
          ca_sender (sample_caller (after sample_exchange) 0) = Dropped ∧ d = Failed OutcomeUnknown) ∧
    step (after sample_exchange) (Resolve 0) = Some k ∧ ca_at <$> callers k !! 0%nat = Some (Returned d).
Proof.
  destruct (nobody_waits_on_nothing sample_exchange (after sample_exchange) 0 (sample_caller (after sample_exchange) 0))
    as [(p & Hp & _)|H]; [vm_compute; reflexivity..| |exact H].
  vm_compute in Hp. discriminate Hp.
Defined.

Lemma reply_is_ones_own_witness :
  rv_answers (Received (reply_success (u "job-7") [1%N]) (Some 0%nat)) = Some 0%nat ∧
  0%nat ∈ sent (after sample_exchange) ∧ NoDup (sent (after sample_exchange)).
Proof.
  apply (reply_is_ones_own sample_exchange (after sample_exchange) 0 (sample_caller (after sample_exchange) 0));
    vm_compute; reflexivity.
Defined.

(** A call whose deadline passes while another's frame is being written. *)
Definition sample_late : list event := calls 0 (u "upload") ++ [Receive] ++ calls 1 (u "job-7").

Lemma not_delivered_means_never_sent_witness :
  1%nat ∉ sent (after (sample_late ++ [Expire 1; WriteDone; Mark; Receive])).
Proof.
  apply (not_delivered_means_never_sent sample_late (after sample_late) (Expire 1) (after (sample_late ++ [Expire 1]))
    [WriteDone; Mark; Receive]); try (vm_compute; reflexivity).
  - eexists. split; [vm_compute; reflexivity|]. right. reflexivity.
  - intros (c & Hc & Ht). vm_compute in Hc. injection Hc as <-. destruct Ht as [[=]|[=]].
  - vm_compute. congruence.
Defined.
