(* ===== verification/ClientWire.v ===== *)
(** * What a client connection shows the wire, and what it takes from it

    Three facts about every step of [ClientConn] that the other side of the
    connection relies on: the frames that have gone out grow by the one the
    writer completes and by nothing else; every id the connection holds
    anywhere, acknowledgements included, is one that some call brought; and a
    caller's reply was in the reader's hand before. *)

From S2P Require Import Prelude PyStr RpcProto ClientConn Delivery.

Local Open Scope Z_scope.

(** ** What a step of the client does to the wire *)

(** The frame a step finishes. *)
Definition finishes (l : link) (e : event) : option write_command :=
  match e, cn_writer (conn l) with WriteDone, WWriting c => Some c | _, _ => None end.

(** The call whose frame it is. *)
Definition finishes_call (l : link) (e : event) : option nat := c ← finishes l e; wc_frame c.

Definition quiet (l k : link) : Prop :=
  sent k = sent l ∧ unanswered k = unanswered l ∧ cn_reader (conn k) = cn_reader (conn l).

#[global] Instance quiet_preorder : PreOrder quiet.
Proof. split; [by intros l|]. intros a b c (H1 & H2 & H3) (H4 & H5 & H6). split_and!; congruence. Qed.

Lemma quiet_same l k : same k l → quiet l k.
Proof.
  intros Hs. split_and!; [apply (same_sent _ _ Hs)|apply (same_unanswered _ _ Hs)|apply (same_reader _ _ Hs)].
Qed.

Lemma abandon_quiet x l : quiet l (abandon x l).2.
Proof.
  pose proof (abandon_spec x l) as H. destruct (pending (st l) !! x) as [p|]; [|by rewrite H].
  destruct H as [_ H]. etrans; [|by apply quiet_same, H]. unfold abandoned_with. by destruct (pc_progress p).
Qed.

Lemma timed_out_quiet x l : quiet l (timed_out_error x l).2.
Proof.
  pose proof (abandon_quiet x l) as H. unfold timed_out_error.
  destruct (abandon x l) as [[[]|] k]; simpl in *; try done. etrans; [exact H|]. apply quiet_same, poison_same.
Qed.

Lemma route_quiet r l : quiet l (route r l).2.
Proof. etrans; [|by apply quiet_same, route_spec]. by case_match. Qed.

Lemma caller_step_quiet l e k : caller_step l e = Some k → quiet l k.
Proof.
  destruct e; try done; cbn [caller_step]; intros H.
  - case_bool_decide; [done|]. destruct (try_reserve request_id l) as [l1|] eqn:Hr; [|done].
    injection H as <-. apply try_reserve_spec in Hr as (_ & _ & _ & _ & Hs).
    etrans; [|by etrans; [apply (quiet_same _ _ Hs)|]]. done.
  - destruct (caller_in n at_reserved l) as [c|]; [|done]. cbn [mbind option_bind] in H.
    destruct (register n (ca_id c) l) as [l1|] eqn:Hg; injection H as <-; [|done].
    by apply register_spec in Hg as (_ & _ & _ & ->).
  - destruct (caller_in n at_registered l) as [c|]; [|done]. cbn [mbind option_bind] in H.
    destruct (ca_requested c); injection H as <-; [apply (abandon_quiet (ca_id c) l)|done].
  - destruct (caller_in n at_cancellable l) as [c|]; [|done]. cbn [mbind option_bind] in H. injection H as <-.
    destruct (try_send _ l) as [l1|] eqn:Ht; [by apply try_send_Some in Ht as [_ ->]|].
    apply (quiet_same l (poison false l)), poison_same.
  - destruct (caller_in n at_awaiting l) as [c|]; [|done]. cbn [mbind option_bind] in H.
    by destruct (ca_sender c); [done|..]; injection H as <-.
  - destruct (caller_in n at_awaiting l) as [c|]; [|done]. cbn [mbind option_bind] in H.
    pose proof (timed_out_quiet (ca_id c) l). destruct (timed_out_error (ca_id c) l) as [er l1]. by injection H as <-.
  - destruct (callers l !! n) as [c|]; [|done]. cbn [mbind option_bind] in H. injection H as <-.
    destruct (ca_target c); [|done]. etrans; [|apply abandon_quiet]. done.
  - destruct (callers l !! n) as [c|]; [|done]. cbn [mbind option_bind] in H.
    destruct (ca_ack c); [|done]. injection H as <-. etrans; [|by apply quiet_same, send_blob_ack_same]. done.
Qed.

(** A reply from the peer. *)
Definition from_peer (e : event) : bool := match e with Arrive _ _ | Invent _ => true | _ => false end.

Lemma writer_step_wire l e k :
  writer_step l e = Some k →
  sent k = sent l ++ option_list (finishes_call l e) ∧
  unanswered k = match finishes_call l e with Some n => {[n]} ∪ unanswered l | None => unanswered l end.
Proof.
  unfold finishes_call, finishes. destruct e; try done; cbn [writer_step]; intros H; destruct (cn_writer (conn l)) as [[]|c|c|] eqn:Hw; try done.
  all: try (destruct (cn_outbound (conn l)) as [|c q]; [done|]; cbv zeta in H; destruct (wc_frame c); [|injection H as <-; by rewrite app_nil_r];
    unfold mark_writing in H; by destruct (pending _ !! _); injection H as <-; rewrite app_nil_r).
  - injection H as <-. cbn [mbind option_bind]. unfold frame_arrived. simpl. destruct (wc_frame c); simpl; [done|by rewrite app_nil_r].
  - injection H as <-. cbn [mbind option_bind option_list]. rewrite app_nil_r. simpl.
    by destruct (quiet_same l (poison false l) (poison_same _ _)) as (? & ? & _).
  - injection H as <-. cbn [mbind option_bind option_list]. rewrite app_nil_r. simpl. by destruct (wc_frame c).
  - injection H as <-. by rewrite app_nil_r.
Qed.

(** Outside of its replies the peer's side of the wire changes only when a
    frame is complete. *)
Lemma step_wire l e k :
  step l e = Some k → from_peer e = false →
  sent k = sent l ++ option_list (finishes_call l e) ∧
  unanswered k = match finishes_call l e with Some n => {[n]} ∪ unanswered l | None => unanswered l end.
Proof.
  intros H He.
  assert (∀ q, quiet l q → sent k = sent q → unanswered k = unanswered q → finishes_call l e = None →
    sent k = sent l ++ option_list (finishes_call l e) ∧
    unanswered k = match finishes_call l e with Some n => {[n]} ∪ unanswered l | None => unanswered l end) as Hq.
  { intros q (H1 & H2 & _) Hk1 Hk2 ->. simpl. rewrite app_nil_r. split; congruence. }
  destruct e; try done; cbn [step] in H; try (by apply writer_step_wire);
    try (by apply (Hq k); [apply caller_step_quiet in H|..]); try (by apply (Hq l); [done|injection H as <-..|]).
  - cbn [reader_step] in H. destruct (cn_reader (conn l)) as [|r| |]; try done.
    apply (Hq (route r l).2); [apply route_quiet|destruct (route r l) as [b l1]; by injection H as <-..|done].
  - cbn [reader_step] in H. destruct (cn_reader (conn l)); try done. injection H as <-.
    by apply (Hq (poison true l)); [apply quiet_same, poison_same|..].
  - cbn [reader_step] in H. destruct (cn_reader (conn l)) as [[]| | |]; try done. injection H as <-. by apply (Hq l).
  - cbn [reader_step] in H. destruct (cn_reader (conn l)); try done. destruct (cn_writer (conn l)); try done.
    injection H as <-. by apply (Hq l).
  - apply drain_spec in H as (b & _ & Hs). apply (Hq l); [done|rewrite (same_sent _ _ Hs)|rewrite (same_unanswered _ _ Hs)|done];
      unfold drained_with, notify_shutdown; simpl; by repeat case_match.
  - destruct (cn_expiring (conn l)); [|done]. injection H as <-.
    by apply (Hq (poison true (with_expiring false l))); [etrans; [|apply quiet_same, poison_same]|..].
  - injection H as <-. by apply (Hq (poison true l)); [apply quiet_same, poison_same|..].
Qed.

(** ** The ids a client knows *)

(** Every id in the tables, the queue and the calls of a connection. *)
Record named (P : pystr → Prop) (l : link) : Prop := Named {
  nm_pending : ∀ x p, pending (st l) !! x = Some p → P x;
  nm_abandoned : ∀ x n, abandoned (st l) !! x = Some n → P x;
  nm_guarded : ∀ x, x ∈ guarded_replies (st l) → P x;
  nm_outbound : ∀ c, c ∈ cn_outbound (conn l) → P (wc_request_id c);
  nm_writer : ∀ c, cn_writer (conn l) = WWriting c ∨ cn_writer (conn l) = WWrote c → P (wc_request_id c);
  nm_callers : ∀ n c, callers l !! n = Some c → P (ca_id c)
}.

Section Names.
Context (P : pystr → Prop).
#[local] Set Default Proof Using "Type*".

Lemma named_poison b l : named P l → named P (poison b l).
Proof. intros [H1 H2 H3 H4 H5 H6]. unfold poison. by case_match. Qed.

Lemma named_mark_idle l : named P l → named P (mark_idle l).2.
Proof. intros [H1 H2 H3 H4 H5 H6]. unfold mark_idle. by repeat case_match. Qed.

Lemma named_callers f n l : (∀ c, ca_id (f c) = ca_id c) → named P l → named P (on_caller n f l).
Proof.
  intros Hf [H1 H2 H3 H4 H5 H6]. split; try done. intros m c. simpl. destruct (decide (n = m)) as [<-|Hne].
  - rewrite lookup_alter_eq. destruct (callers l !! n) as [c0|] eqn:Hc; [|done]. intros [= <-]. rewrite Hf. eauto.
  - rewrite lookup_alter_ne by done. eauto.
Qed.

Lemma named_try_send c l k : P (wc_request_id c) → named P l → try_send c l = Some k → named P k.
Proof.
  intros Hx [H1 H2 H3 H4 H5 H6] [_ ->]%try_send_Some. split; try done.
  simpl. intros c' [?| ->%list_elem_of_singleton]%elem_of_app; auto.
Qed.

Lemma named_queue_ack x l : P x → named P l → named P (queue_blob_ack x l).
Proof.
  intros Hx Hl. unfold queue_blob_ack. destruct (try_send _ l) as [k|] eqn:Hk; [|by apply named_poison].
  by eapply (named_try_send (WriteCommand x None)).
Qed.

Lemma named_guarded g l : (∀ x, x ∈ g → P x) → named P l → named P (with_guarded g l).
Proof. intros Hg [H1 H2 H3 H4 H5 H6]. by split. Qed.

Lemma named_send_ack x l : named P l → named P (send_blob_ack x l).
Proof.
  intros Hl. unfold send_blob_ack. case_bool_decide as Hx; [|done]. simpl. pose proof (nm_guarded _ _ Hl x Hx) as Hp.
  assert (named P (mark_idle (with_guarded (guarded_replies (st l) ∖ {[x]}) l)).2) as Hm.
  { apply named_mark_idle, named_guarded; [|done]. intros y [Hy _]%elem_of_difference. by apply (nm_guarded _ _ Hl). }
  destruct (mark_idle _) as [[] k]; [by apply named_poison|by apply named_queue_ack].
Qed.

Lemma named_forget x l : named P l → named P (with_pending (delete x (pending (st l))) l).
Proof. intros [H1 H2 H3 H4 H5 H6]. split; try done. simpl. intros y p [_ ?]%lookup_delete_Some. eauto. Qed.

Lemma named_set_aside x n l : P x → named P l → named P (with_abandoned (<[x := n]> (abandoned (st l))) l).
Proof. intros Hx [H1 H2 H3 H4 H5 H6]. split; try done. simpl. intros y m [[<- _]|[_ ?]]%lookup_insert_Some; eauto. Qed.

Lemma named_slots z l : named P l → named P (with_slots z l).
Proof. by intros []. Qed.

Lemma named_abandon x l : named P l → named P (abandon x l).2.
Proof.
  intros Hl. unfold abandon. destruct (pending (st l) !! x) as [p|] eqn:Hp; [|done]. cbv zeta.
  set (l1 := on_caller _ _ _). assert (named P l1) as H1.
  { apply named_callers; [done|]. apply named_slots. by apply named_forget. }
  set (l2 := match pc_progress p with Queued => l1 | _ => _ end). assert (named P l2) as H2.
  { unfold l2. destruct (pc_progress p); [done|..]; apply named_set_aside; try done; by eapply (nm_pending _ _ Hl). }
  pose proof (named_mark_idle l2 H2) as Hm. destruct (mark_idle l2) as [close k]. simpl in *.
  case_match; [by apply named_poison|done].
Qed.

Lemma named_timed_out x l : named P l → named P (timed_out_error x l).2.
Proof.
  intros Hl. pose proof (named_abandon x l Hl) as H. unfold timed_out_error.
  destruct (abandon x l) as [[[]|] k]; simpl in *; try done. by apply named_poison.
Qed.

Lemma named_route r l : named P l → named P (route r l).2.
Proof.
  intros Hl. unfold route. cbv zeta. set (x := rp_request_id (rv_reply r)).
  destruct (pending (st l) !! x) as [p|] eqn:Hp.
  - pose proof (nm_pending _ _ Hl x p Hp) as Hx.
    set (l1 := with_slots _ _). assert (named P l1) as H1 by (apply named_slots; by apply named_forget).
    set (l2 := if rp_blob_refs _ then _ else l1). assert (named P l2) as H2.
    { unfold l2. destruct (rp_blob_refs _); [|done]. apply named_guarded; [|done].
      intros y [->%elem_of_singleton|Hy]%elem_of_union; [done|]. by apply (nm_guarded _ _ H1). }
    pose proof (named_mark_idle l2 H2) as Hm. destruct (mark_idle l2) as [close k]. simpl in *.
    assert (named P (on_caller (pc_call p) (settle r) k)) by (by apply named_callers).
    destruct close; [by apply named_poison|done].
  - destruct (abandoned (st l) !! x) as [m|] eqn:Ha; [|by apply named_poison].
    pose proof (nm_abandoned _ _ Hl x m Ha) as Hx. set (l1 := with_abandoned _ _). assert (named P l1) as H1.
    { destruct Hl. split; try done. simpl. intros y z [_ ?]%lookup_delete_Some. eauto. }
    pose proof (named_mark_idle l1 H1) as Hm. destruct (mark_idle l1) as [close k]. simpl in *.
    set (l2 := if rp_blob_refs _ then _ else k). assert (named P l2) by (unfold l2; case_match; [by apply named_queue_ack|done]).
    destruct close; [by apply named_poison|done].
Qed.

Lemma named_reserve n x l k :
  P x → named P l → try_reserve x l = Some k →
  named P (with_callers (<[n := Caller x Reserved Open false false false]> (callers k)) k).
Proof.
  intros Hx [H1 H2 H3 H4 H5 H6] Hr. unfold try_reserve in Hr. repeat (case_match; try done); injection Hr as <-;
    split; try done; simpl; intros m c [[<- <-]|[_ ?]]%lookup_insert_Some; eauto.
Qed.

Lemma named_caller_step l e k :
  (∀ n x, e = Reserve n x → P x) → named P l → caller_step l e = Some k → named P k.
Proof.
  intros Hx Hl. destruct e; try done; cbn [caller_step]; intros H.
  - case_bool_decide; [done|]. destruct (try_reserve request_id l) as [l1|] eqn:Hr; [|done]. injection H as <-.
    eapply named_reserve; eauto.
  - destruct (caller_in n at_reserved l) as [c|] eqn:Hc; [|done]. apply caller_in_Some in Hc as [Hc _].
    cbn [mbind option_bind] in H. destruct (register n (ca_id c) l) as [l1|] eqn:Hg; injection H as <-.
    + apply register_spec in Hg as (_ & _ & _ & ->). apply named_callers; [done|]. pose proof (nm_callers _ _ Hl n c Hc).
      destruct Hl. split; try done. simpl. intros y p [[<- _]|[_ ?]]%lookup_insert_Some; eauto.
    + apply named_callers; [done|]. apply named_callers; [done|]. by apply named_slots.
  - destruct (caller_in n at_registered l) as [c|]; [|done]. cbn [mbind option_bind] in H.
    destruct (ca_requested c); injection H as <-; apply named_callers; try done. by apply named_abandon.
  - destruct (caller_in n at_cancellable l) as [c|] eqn:Hc; [|done]. apply caller_in_Some in Hc as [Hc _].
    cbn [mbind option_bind] in H. injection H as <-. apply named_callers; [done|].
    destruct (try_send _ l) as [l1|] eqn:Ht; [|by apply named_poison].
    eapply named_try_send; [|done|exact Ht]. by apply (nm_callers _ _ Hl n c).
  - destruct (caller_in n at_awaiting l) as [c|]; [|done]. cbn [mbind option_bind] in H.
    destruct (ca_sender c); [done|..]; injection H as <-; by apply named_callers.
  - destruct (caller_in n at_awaiting l) as [c|]; [|done]. cbn [mbind option_bind] in H.
    pose proof (named_timed_out (ca_id c) l Hl). destruct (timed_out_error (ca_id c) l) as [er l1].
    injection H as <-. by apply named_callers.
  - destruct (callers l !! n) as [c|]; [|done]. cbn [mbind option_bind] in H. injection H as <-.
    destruct (ca_target c); [apply named_abandon|]; by apply named_callers.
  - destruct (callers l !! n) as [c|]; [|done]. cbn [mbind option_bind] in H.
    destruct (ca_ack c); [|done]. injection H as <-. by apply named_send_ack, named_callers.
Qed.

Lemma named_outbound q l : (∀ c, c ∈ q → P (wc_request_id c)) → named P l → named P (with_outbound q l).
Proof. intros Hq []. by split. Qed.

Lemma named_with_writer w l :
  (∀ c, w = WWriting c ∨ w = WWrote c → P (wc_request_id c)) → named P l → named P (with_writer w l).
Proof. intros Hw []. by split. Qed.

Lemma named_progress x p l : P x → named P l → named P (with_pending (<[x := p]> (pending (st l))) l).
Proof. intros Hx []. split; try done. simpl. intros y q [[<- _]|[_ ?]]%lookup_insert_Some; eauto. Qed.

Lemma named_take w l :
  named P l → cn_writer (conn l) = WWaiting w → ∀ k, writer_step l Receive = Some k → named P k.
Proof.
  intros Hl Hw k. cbn [writer_step]. rewrite Hw. destruct (cn_outbound (conn l)) as [|c q] eqn:Hq; [done|]. cbv zeta.
  assert (P (wc_request_id c)) as Hc by (apply (nm_outbound _ _ Hl); rewrite Hq; by left).
  assert (named P (with_outbound q l)) as Hl1.
  { apply named_outbound; [|done]. intros c' Hc'. apply (nm_outbound _ _ Hl). rewrite Hq. by right. }
  assert (∀ l', named P l' → named P (with_writer (WWriting c) l')) as Hgo.
  { intros l' Hl'. apply named_with_writer; [|done]. by intros c' [[= <-]|[=]]. }
  destruct (wc_frame c); [|intros [= <-]; by apply Hgo].
  unfold mark_writing. destruct (pending _ !! _) as [p|]; intros [= <-].
  - apply Hgo. by apply named_progress.
  - apply named_with_writer; [|done]. by intros c' [[=]|[=]].
Qed.

Lemma named_writer_step l e k : named P l → writer_step l e = Some k → named P k.
Proof.
  intros Hl H. destruct e; try done.
  - destruct (cn_writer (conn l)) as [w| | |] eqn:Hw; [by eapply named_take|cbn [writer_step] in H; by rewrite Hw in H..].
  - cbn [writer_step] in H. destruct (cn_writer (conn l)) as [|c| |] eqn:Hw; try done. injection H as <-.
    apply named_with_writer; [intros c' [[=]|[= <-]]; apply (nm_writer _ _ Hl); by left|].
    unfold frame_arrived. destruct (wc_frame c); [|done]. by destruct Hl.
  - cbn [writer_step] in H. destruct (cn_writer (conn l)) as [|c| |] eqn:Hw; try done. injection H as <-.
    apply named_with_writer; [by intros c' [[=]|[=]]|]. apply named_outbound; [by intros c' ?%not_elem_of_nil|]. by apply named_poison.
  - cbn [writer_step] in H. destruct (cn_writer (conn l)) as [| |c|] eqn:Hw; try done. injection H as <-.
    apply named_with_writer; [by intros c' [[=]|[=]]|]. destruct (wc_frame c); [|done].
    destruct Hl. split; try done. simpl. intros y p. destruct (decide (wc_request_id c = y)) as [<-|Hne].
    + rewrite lookup_alter_eq. destruct (pending (st l) !! wc_request_id c) eqn:Hp; [|done]. eauto.
    + rewrite lookup_alter_ne by done. eauto.
  - cbn [writer_step] in H. destruct (cn_writer (conn l)) as [[]| | |] eqn:Hw; try done. injection H as <-.
    apply named_with_writer; [by intros c' [[=]|[=]]|]. by apply named_outbound; [intros c' ?%not_elem_of_nil|].
Qed.

Lemma named_with_reader r l : named P l → named P (with_reader r l).
Proof. by intros []. Qed.

Lemma named_arrives r l : named P l → named P (arrives r l).
Proof. intros Hl. unfold arrives. case_match; apply named_with_reader; [done|]. by apply named_poison. Qed.

Lemma named_drain l k : named P l → drain l = Some k → named P k.
Proof.
  intros Hl. unfold drain. destruct (cn_poisoned (conn l)) as [|b|]; try done. cbv zeta. intros [= <-].
  destruct Hl as [H1 H2 H3 H4 H5 H6]. unfold notify_shutdown.
  assert (∀ n c (cs : gmap nat caller), cs = fail_pending b (pending (st l)) (callers l) → cs !! n = Some c → P (ca_id c)) as Hf.
  { intros n c cs ->. rewrite lookup_fail_pending. destruct (callers l !! n) as [c0|] eqn:Hc; [|done]. intros [= <-].
    rewrite failed_id. eauto. }
  destruct (cn_writer (conn l)) as [w|c|c|] eqn:Hw, (cn_reader (conn l)) as [r| | |] eqn:Hr, (counted_idle (st l) && client_alive l);
    (split; simpl; rewrite ?Hw, ?Hr; simpl; rewrite ?Hw, ?Hr; simpl;
     [done|done|intros x []%not_elem_of_empty|done|intros c'; rewrite ?Hw; first [exact (H5 c')|by intros [[=]|[=]]]|intros n c' Hc'; by eapply Hf]).
Qed.

Lemma named_step l e k :
  (∀ n x, e = Reserve n x → P x) → named P l → step l e = Some k → named P k.
Proof.
  intros Hx Hl H. destruct e; cbn [step] in H;
    try (by eapply named_caller_step); try (by eapply named_writer_step); try (injection H as <-; by destruct Hl).
  - cbn [reader_step] in H. destruct (cn_reader (conn l)); try done. destruct (callers l !! n); [|done].
    cbn [mbind option_bind] in H. case_match; [|done]. injection H as <-. apply named_arrives. by destruct Hl.
  - cbn [reader_step] in H. destruct (cn_reader (conn l)); try done. injection H as <-. by apply named_arrives.
  - cbn [reader_step] in H. destruct (cn_reader (conn l)) as [|r| |]; try done. pose proof (named_route r l Hl).
    destruct (route r l) as [b l1]. injection H as <-. by apply named_with_reader.
  - cbn [reader_step] in H. destruct (cn_reader (conn l)); try done. injection H as <-. by apply named_with_reader, named_poison.
  - cbn [reader_step] in H. destruct (cn_reader (conn l)) as [[]| | |]; try done. injection H as <-. by apply named_with_reader.
  - cbn [reader_step] in H. destruct (cn_reader (conn l)); try done. destruct (cn_writer (conn l)); try done.
    injection H as <-. by apply named_with_reader.
  - by eapply named_drain.
  - destruct (cn_expiring (conn l)); [|done]. injection H as <-. apply named_poison. by destruct Hl.
  - injection H as <-. by apply named_poison.
Qed.
End Names.

(** ** Where a caller's record comes from *)

Lemma alter_back {K A} `{Countable K} (f : A → A) n m (cs : gmap K A) c' :
  alter f n cs !! m = Some c' → ∃ c, cs !! m = Some c ∧ (c' = c ∨ c' = f c).
Proof.
  destruct (decide (n = m)) as [<-|Hne].
  - rewrite lookup_alter_eq. destruct (cs !! n) as [c|]; [|done]. intros [= <-]. eauto.
  - rewrite lookup_alter_ne by done. eauto.
Qed.

(** A record with the same id, and no reply that was not there. *)
Definition descends (r : option received) (c c' : caller) : Prop :=
  ca_id c' = ca_id c ∧
  ∀ v, ca_sender c' = Sent (Delivered v) → ca_sender c = Sent (Delivered v) ∨ r = Some v.

Definition descend (r : option received) (cs cs' : gmap nat caller) : Prop :=
  ∀ n c', cs' !! n = Some c' → ∃ c, cs !! n = Some c ∧ descends r c c'.

#[global] Instance descend_preorder r : PreOrder (descend r).
Proof.
  split.
  - intros cs n c Hc. exists c. split; [done|]. split; [done|]. by left.
  - intros a b d Hab Hbd n c Hc. destruct (Hbd n c Hc) as (c1 & Hc1 & Hi1 & Hv1). destruct (Hab n c1 Hc1) as (c2 & Hc2 & Hi2 & Hv2).
    exists c2. split; [done|]. split; [congruence|]. intros v Hv. destruct (Hv1 v Hv) as [?|?]; [by apply Hv2|by right].
Qed.

Lemma descend_alter r f n cs : (∀ c, descends r c (f c)) → descend r cs (alter f n cs).
Proof.
  intros Hf m c' (c & Hc & [-> | ->])%alter_back; exists c; (split; [done|]); [|by apply Hf]. split; [done|]. by left.
Qed.

Lemma descend_abandon r x l : descend r (callers l) (callers (abandon x l).2).
Proof.
  rewrite abandon_callers. destruct (pending (st l) !! x); [|done]. apply descend_alter. intros c. split; [done|]. by intros v [=].
Qed.

Lemma descend_fail_pending r b m cs : descend r cs (fail_pending b m cs).
Proof.
  intros n c'. rewrite lookup_fail_pending. destruct (cs !! n) as [c|]; [|done]. intros [= <-]. exists c. split; [done|].
  split; [apply failed_id|]. intros v. unfold failed. repeat case_match; simpl; try (by left); by intros [=].
Qed.

(** The reply the reader is about to hand on. *)
Definition in_hand (l : link) : option received := match cn_reader (conn l) with RHolding r => Some r | _ => None end.

Lemma callers_back l e k n c' :
  step l e = Some k → callers k !! n = Some c' →
  (∃ c, callers l !! n = Some c ∧ descends (in_hand l) c c') ∨ e = Reserve n (ca_id c') ∧ ca_sender c' = Open.
Proof.
  intros H Hc. pose proof (callers_step l e k H) as Hs.
  assert (descend (in_hand l) (callers l) (callers k) → (∃ c, callers l !! n = Some c ∧ descends (in_hand l) c c') ∨
    e = Reserve n (ca_id c') ∧ ca_sender c' = Open) as Hd by (intros Hd; left; by apply Hd).
  assert (∀ d, descend (in_hand l) (callers l) (alter (ending d) n (callers l))) as Hend.
  { intros d. apply descend_alter. intros c. split; [done|]. by left. }
  assert (∀ f m, (∀ c, ca_id (f c) = ca_id c ∧ ca_sender (f c) = ca_sender c) →
    descend (in_hand l) (callers l) (alter f m (callers l))) as Halt.
  { intros f m Hf. apply descend_alter. intros c. destruct (Hf c) as [H1 H2]. split; [done|]. rewrite H2. by left. }
  assert (∀ d m cs, descend (in_hand l) cs (alter (ending d) m cs)) as Hret.
  { intros d m cs. apply descend_alter. intros c. split; [done|]. by left. }
  destruct e; try (apply Hd; rewrite Hs; done).
  - destruct Hs as [_ Hs]. rewrite Hs in Hc. apply lookup_insert_Some in Hc as [[-> <-]|[_ Hc]]; [by right|].
    left. exists c'. split; [done|]. split; [done|]. by left.
  - apply Hd. destruct Hs as (c & _ & _ & [-> | ->]); [by apply Halt|]. etrans; [|apply Hret].
    apply descend_alter. intros c0. split; [done|]. by intros v [=].
  - apply Hd. destruct Hs as (c & _ & _ & [-> | ->]); [by apply Halt|]. etrans; [|apply Hret]. apply descend_abandon.
  - apply Hd. rewrite Hs. by apply Halt.
  - apply Hd. destruct Hs as (c & d & _ & _ & ->). apply Hret.
  - apply Hd. destruct Hs as (c & _ & _ & ->). etrans; [|apply Hret]. apply descend_abandon.
  - apply Hd. cbn [step caller_step] in H. destruct (callers l !! n0) as [c|] eqn:Hc0; [|done].
    cbn [mbind option_bind] in H. injection H as <-.
    assert (descend (in_hand l) (callers l) (callers (on_caller n0 (set_cancellation true false) l))) as H1 by (by apply Halt).
    destruct (ca_target c); [|done]. etrans; [exact H1|]. apply descend_abandon.
  - apply Hd. rewrite Hs. by apply Halt.
  - apply Hd. cbn [step reader_step] in H. destruct (cn_reader (conn l)) as [|r| |] eqn:Hr; try done.
    destruct (route r l) as [b l1] eqn:Ho. injection H as <-. change (callers (with_reader _ l1)) with (callers l1).
    change l1 with (b, l1).2. rewrite <- Ho, route_callers. destruct (pending (st l) !! _); [|done].
    apply descend_alter. intros c. split; [done|]. intros v [= <-]. right. unfold in_hand. by rewrite Hr.
  - apply Hd. destruct Hs as (b & -> & _). apply descend_fail_pending.
Qed.

(** Only the peer puts a reply into the reader's hand. *)
Lemma holding_back l e k r :
  step l e = Some k → from_peer e = false → cn_reader (conn k) = RHolding r → cn_reader (conn l) = RHolding r.
Proof.
  intros H He. destruct e; try done; cbn [step] in H; try (injection H as <-; done);
    try (apply caller_step_quiet in H as (_ & _ & H); by rewrite H).
  - cbn [writer_step] in H. destruct (cn_writer (conn l)); try done. destruct (cn_outbound (conn l)) as [|c q]; [done|].
    cbv zeta in H. destruct (wc_frame c); [|by injection H as <-].
    unfold mark_writing in H. by destruct (pending _ !! _); injection H as <-.
  - cbn [writer_step] in H. destruct (cn_writer (conn l)); try done. injection H as <-. unfold frame_arrived. simpl. by case_match.
  - cbn [writer_step] in H. destruct (cn_writer (conn l)); try done. injection H as <-. simpl.
    by rewrite (same_reader _ _ (poison_same false l)).
  - cbn [writer_step] in H. destruct (cn_writer (conn l)); try done. injection H as <-. simpl. by case_match.
  - cbn [writer_step] in H. destruct (cn_writer (conn l)) as [[]| | |]; try done. by injection H as <-.
  - cbn [reader_step] in H. destruct (cn_reader (conn l)) as [|r'| |]; try done.
    destruct (route r' l) as [b l1]. injection H as <-. simpl. by destruct b.
  - cbn [reader_step] in H. destruct (cn_reader (conn l)); try done. by injection H as <-.
  - cbn [reader_step] in H. destruct (cn_reader (conn l)) as [[]| | |]; try done. by injection H as <-.
  - cbn [reader_step] in H. destruct (cn_reader (conn l)); try done. destruct (cn_writer (conn l)); try done. by injection H as <-.
  - apply drain_spec in H as (b & _ & Hs). rewrite (same_reader _ _ Hs). unfold drained_with, notify_shutdown.
    destruct (cn_writer (conn l)) eqn:Hw, (cn_reader (conn l)) eqn:Hr; simpl; rewrite ?Hw; simpl; rewrite ?Hr; simpl; by rewrite ?Hr.
  - destruct (cn_expiring (conn l)); [|done]. injection H as <-. by rewrite (same_reader _ _ (poison_same true _)).
  - injection H as <-. by rewrite (same_reader _ _ (poison_same true l)).
Qed.
