(* ===== verification/NativeServer.v ===== *)
(** * The native listener: one connection and its requests

    [transport/server.rs] of [crates/tinyray].  A connection has a loop that
    reads frames, answers what it refuses and spawns a task for what it
    accepts, and the tasks, which run the service and write their replies
    through the same socket.  They share the writer (behind an asynchronous
    mutex), the ids in flight, the cancellation tokens and the replies whose
    blobs wait for an acknowledgement; all connections share the budgets.

    A step is one critical section, so a list of events is an interleaving.
    Writing a reply is one step, as the writer is locked for the whole of it:
    the frame goes out whole, or it is cut after some bytes (the timeout, or an
    error of the socket).  What the peer sends, when timers fire, what the
    service answers and what the other connections of the process hold are
    events.  [rmp_serde] is a parameter: the record [server] holds the decoders
    and the encoder with the identity and the method names. *)

From S2P Require Import Prelude PyStr Text Wire RpcProto Admission.

Local Open Scope Z_scope.

(** ** [validate_request] *)

Definition printable (c : N) : bool := (32 <=? c)%N && (c <=? 126)%N.
Definition is_lower (c : N) : bool := (97 <=? c)%N && (c <=? 122)%N.
Definition is_upper (c : N) : bool := (65 <=? c)%N && (c <=? 90)%N.
Definition is_digit (c : N) : bool := (48 <=? c)%N && (c <=? 57)%N.

Definition valid_method (m : pystr) : bool :=
  match m with
  | [] => false
  | c :: rest => (is_lower c || is_upper c) &&
      forallb (λ c, is_lower c || is_upper c || is_digit c || (c =? 95)%N) rest
  end.

Definition validate_request (rq : rpc_request) : bool :=
  (rq_protocol rq =? RPC_PROTOCOL) &&
  negb (bool_decide (rq_request_id rq = [])) && (byte_len (rq_request_id rq) <=? MAX_RPC_REQUEST_ID_BYTES) &&
  forallb printable (rq_request_id rq) &&
  match rq_operation rq with
  | Call => negb (bool_decide (is_Some (rq_batch_len rq))) &&
      match rq_method rq with Some m => valid_method m | None => false end
  | Batch => negb (bool_decide (is_Some (rq_method rq))) &&
      match rq_batch_len rq with Some n => n <=? MAX_RPC_BATCH | None => false end
  | BlobAck => negb (bool_decide (is_Some (rq_method rq))) && negb (bool_decide (is_Some (rq_batch_len rq))) &&
      bool_decide (rq_caller rq = []) && bool_decide (rq_target rq = []) && bool_decide (rq_payload rq = [])
  end.

(** ** Blobs of a reply *)

Definition HEADER_BYTES : Z := 32.

(** [BlobRef]: the storage it shares, and its length. *)
Record blob := Blob { bl_storage : option nat; bl_len : N }.

(** [BlobRef::shares_storage] and [BlobRef::mapped_len] *)
Definition shares_storage (a b : blob) : bool :=
  match bl_storage a, bl_storage b with Some i, Some j => bool_decide (i = j) | _, _ => false end.
Definition mapped_len (b : blob) : Z := Z.min USIZE_MAX (Z.of_N (bl_len b) + HEADER_BYTES).

(** The loop that opens [admit_blob_response]: each storage once, and their
    bytes; [None] when the count overflows. *)
Fixpoint unique_blobs (owners unique : list blob) (bytes : Z) : option (list blob * Z) :=
  match owners with
  | [] => Some (unique, bytes)
  | o :: owners =>
      if existsb (λ e, shares_storage e o) unique then unique_blobs owners unique bytes
      else b ← checked_add bytes (mapped_len o); unique_blobs owners (unique ++ [o]) b
  end.

(** [struct ServiceResponse] *)
Record response := Response {
  rs_status : rpc_status; rs_payload : list N; rs_error : option rpc_error;
  rs_batch_index : option Z; rs_completed : option Z; rs_blob_owners : list blob
}.

(** The reply to a response, before its blobs are admitted. *)
Definition reply_of (request_id : pystr) (r : response) : rpc_reply :=
  RpcReply RPC_PROTOCOL request_id (rs_status r) (rs_batch_index r) (rs_completed r) (rs_error r) false (rs_payload r).

(** [reject_blob_response] *)
Definition reject_blob_response (r : rpc_reply) : rpc_reply :=
  RpcReply (rp_protocol r) (rp_request_id r) Internal None None (Some (RpcError (u "BlobError") [] [])) false [].

Definition with_blobs (r : rpc_reply) : rpc_reply :=
  RpcReply (rp_protocol r) (rp_request_id r) (rp_status r) (rp_batch_index r) (rp_completed r) (rp_error r) true (rp_payload r).

(** ** State *)

(** What does not change while a server runs. *)
Record server := Server {
  sv_identity : pystr;
  sv_methods : list pystr;
  sv_header : list N → option pystr;
  sv_request : list N → option rpc_request;
  sv_encode : rpc_reply → option (list N);
  sv_max_refs : Z;
  sv_max_bytes : Z
}.

(** [struct BlobResponseLease]: what it holds of the three budgets. *)
Record lease := Lease { ls_refs : Z; ls_bytes : Z }.

(** Where a request's task is.  [TAcquire k] holds the permits of the first
    [k] of process, server and connection. *)
Inductive task_at :=
| TSpawned
| TRunning
| TAcquire (held : nat) (r : rpc_reply) (refs bytes : Z)
| TAnswer (r : rpc_reply)
| TWrite (r : rpc_reply)
| TClose
| TUntoken
| TUnlist
| TDone
| TPanicked.

(** A spawned request: where it is, whether its [Flight] holds a permit, and
    its [CancellationToken]. *)
Record task := Task { tk_request : rpc_request; tk_at : task_at; tk_permit : bool; tk_cancelled : bool }.

(** Where the loop of [serve_connection] is. *)
Inductive loop_at :=
| LTop
| LWaiting
| LReading
| LFrame (bytes : list N)
| LRequest (rq : rpc_request)
| LOwned (rq : rpc_request)
| LClaim (rq : rpc_request)
| LPermit (rq : rpc_request)
| LBusy (rq : rpc_request)
| LSpawn (rq : rpc_request) (permit : bool)
| LWrite (r : rpc_reply) (leave : bool)
| LLeft
| LClosed
| LJoining
| LFinished.

(** [ServerCounters]; the time spent is left out. *)
Record counters := Counters { ct_calls : Z; ct_refused : Z; ct_failed : Z; ct_in_flight : Z; ct_peak : Z }.

(** [ServerConnection] with its loop and tasks, and what it shares with the
    others.  [out] is what the peer has been sent, [replied] the replies that
    went out whole. *)
Record world := World {
  w_loop : loop_at;
  w_tasks : gmap nat task;
  w_closed : bool;
  w_writer : bool;
  w_cancellations : gmap pystr nat;
  w_leases : gmap pystr lease;
  w_active : gset pystr;
  w_conn_blobs : blob_budget;
  w_server_blobs : blob_budget;
  w_process_blobs : blob_budget;
  w_admission : option Z;
  w_counters : counters;
  w_owned : option bool;
  w_server_closed : bool;
  w_out : list N;
  w_replied : list rpc_reply;
  w_others : list (bool * Z * Z);
  w_other_flights : Z
}.

Definition set_loop (l : loop_at) (w : world) : world :=
  World l (w_tasks w) (w_closed w) (w_writer w) (w_cancellations w) (w_leases w) (w_active w) (w_conn_blobs w)
    (w_server_blobs w) (w_process_blobs w) (w_admission w) (w_counters w) (w_owned w) (w_server_closed w) (w_out w)
    (w_replied w) (w_others w) (w_other_flights w).
Definition set_tasks (t : gmap nat task) (w : world) : world :=
  World (w_loop w) t (w_closed w) (w_writer w) (w_cancellations w) (w_leases w) (w_active w) (w_conn_blobs w)
    (w_server_blobs w) (w_process_blobs w) (w_admission w) (w_counters w) (w_owned w) (w_server_closed w) (w_out w)
    (w_replied w) (w_others w) (w_other_flights w).
Definition set_closed (b : bool) (w : world) : world :=
  World (w_loop w) (w_tasks w) b (w_writer w) (w_cancellations w) (w_leases w) (w_active w) (w_conn_blobs w)
    (w_server_blobs w) (w_process_blobs w) (w_admission w) (w_counters w) (w_owned w) (w_server_closed w) (w_out w)
    (w_replied w) (w_others w) (w_other_flights w).
Definition set_writer (b : bool) (w : world) : world :=
  World (w_loop w) (w_tasks w) (w_closed w) b (w_cancellations w) (w_leases w) (w_active w) (w_conn_blobs w)
    (w_server_blobs w) (w_process_blobs w) (w_admission w) (w_counters w) (w_owned w) (w_server_closed w) (w_out w)
    (w_replied w) (w_others w) (w_other_flights w).
Definition set_cancellations (m : gmap pystr nat) (w : world) : world :=
  World (w_loop w) (w_tasks w) (w_closed w) (w_writer w) m (w_leases w) (w_active w) (w_conn_blobs w)
    (w_server_blobs w) (w_process_blobs w) (w_admission w) (w_counters w) (w_owned w) (w_server_closed w) (w_out w)
    (w_replied w) (w_others w) (w_other_flights w).
Definition set_leases (m : gmap pystr lease) (w : world) : world :=
  World (w_loop w) (w_tasks w) (w_closed w) (w_writer w) (w_cancellations w) m (w_active w) (w_conn_blobs w)
    (w_server_blobs w) (w_process_blobs w) (w_admission w) (w_counters w) (w_owned w) (w_server_closed w) (w_out w)
    (w_replied w) (w_others w) (w_other_flights w).
Definition set_active (s : gset pystr) (w : world) : world :=
  World (w_loop w) (w_tasks w) (w_closed w) (w_writer w) (w_cancellations w) (w_leases w) s (w_conn_blobs w)
    (w_server_blobs w) (w_process_blobs w) (w_admission w) (w_counters w) (w_owned w) (w_server_closed w) (w_out w)
    (w_replied w) (w_others w) (w_other_flights w).
Definition set_blobs (process server conn : blob_budget) (w : world) : world :=
  World (w_loop w) (w_tasks w) (w_closed w) (w_writer w) (w_cancellations w) (w_leases w) (w_active w) conn server process
    (w_admission w) (w_counters w) (w_owned w) (w_server_closed w) (w_out w) (w_replied w) (w_others w) (w_other_flights w).
Definition set_flights (a : option Z) (c : counters) (n : Z) (w : world) : world :=
  World (w_loop w) (w_tasks w) (w_closed w) (w_writer w) (w_cancellations w) (w_leases w) (w_active w) (w_conn_blobs w)
    (w_server_blobs w) (w_process_blobs w) a c (w_owned w) (w_server_closed w) (w_out w)
    (w_replied w) (w_others w) n.
Definition set_server (owned : option bool) (closed : bool) (w : world) : world :=
  World (w_loop w) (w_tasks w) (w_closed w) (w_writer w) (w_cancellations w) (w_leases w) (w_active w) (w_conn_blobs w)
    (w_server_blobs w) (w_process_blobs w) (w_admission w) (w_counters w) owned closed (w_out w)
    (w_replied w) (w_others w) (w_other_flights w).
Definition set_out (bytes : list N) (rs : list rpc_reply) (w : world) : world :=
  World (w_loop w) (w_tasks w) (w_closed w) (w_writer w) (w_cancellations w) (w_leases w) (w_active w) (w_conn_blobs w)
    (w_server_blobs w) (w_process_blobs w) (w_admission w) (w_counters w) (w_owned w) (w_server_closed w) bytes
    rs (w_others w) (w_other_flights w).
Definition set_others (o : list (bool * Z * Z)) (w : world) : world :=
  World (w_loop w) (w_tasks w) (w_closed w) (w_writer w) (w_cancellations w) (w_leases w) (w_active w) (w_conn_blobs w)
    (w_server_blobs w) (w_process_blobs w) (w_admission w) (w_counters w) (w_owned w) (w_server_closed w) (w_out w)
    (w_replied w) o (w_other_flights w).

Definition task_to (n : nat) (a : task_at) (w : world) : world :=
  set_tasks (alter (λ t, Task (tk_request t) a (tk_permit t) (tk_cancelled t)) n (w_tasks w)) w.
Definition rid (t : task) : pystr := rq_request_id (tk_request t).

(** ** Operations of [ServerConnection] *)

(** Dropping the permits of the first [k] levels. *)
Definition drop_held (k : nat) (refs bytes : Z) (w : world) : world :=
  set_blobs
    (if bool_decide (1 ≤ k)%nat then drop_permit refs bytes (w_process_blobs w) else w_process_blobs w)
    (if bool_decide (2 ≤ k)%nat then drop_permit refs bytes (w_server_blobs w) else w_server_blobs w)
    (if bool_decide (3 ≤ k)%nat then drop_permit refs bytes (w_conn_blobs w) else w_conn_blobs w) w.

Definition drop_lease (l : lease) (w : world) : world := drop_held 3 (ls_refs l) (ls_bytes l) w.

(** [blob_responses.remove]: [acknowledge_blobs], and what [write] does when
    it fails. *)
Definition remove_lease (request_id : pystr) (w : world) : world :=
  match w_leases w !! request_id with
  | Some l => drop_lease l (set_leases (delete request_id (w_leases w)) w)
  | None => w
  end.

(** [blob_responses.clear()], and dropping the connection. *)
Definition clear_leases (w : world) : world :=
  foldr (λ p w, drop_lease p.2 w) (set_leases ∅ w) (map_to_list (w_leases w)).

(** [for token in cancellations.values() { token.cancel() }] *)
Definition cancel_tokens (w : world) : world :=
  set_tasks (map_imap (λ n t, Some (Task (tk_request t) (tk_at t) (tk_permit t)
    (tk_cancelled t || bool_decide (w_cancellations w !! rid t = Some n)))) (w_tasks w)) w.

(** [ServerConnection::close] *)
Definition close (w : world) : world :=
  if w_closed w then w else clear_leases (cancel_tokens (set_closed true w)).

(** How a write ends: the frame is out, or it was cut after [k] bytes. *)
Inductive wrote := Whole | Cut (k : nat).

(** [ServerConnection::write] *)
Definition write (s : server) (r : rpc_reply) (o : wrote) (w : world) : bool * world :=
  match sv_encode s r with
  | None => (false, remove_lease (rp_request_id r) w)
  | Some body =>
      if negb (w_writer w) then (false, remove_lease (rp_request_id r) w)
      else match o with
           | Whole => (true, set_out (w_out w ++ frame body) (w_replied w ++ [r]) w)
           | Cut k => (false, remove_lease (rp_request_id r)
                        (set_out (w_out w ++ take k (frame body)) (w_replied w) w))
           end
  end.

(** What [admit_blob_response] decides before it asks the budgets. *)
Definition admit_blobs (s : server) (r : rpc_reply) (owners : list blob) : task_at :=
  match unique_blobs owners [] 0 with
  | None => TAnswer (reject_blob_response r)
  | Some ([], _) => TAnswer r
  | Some (unique, bytes) =>
      if sv_max_refs s <? len unique then TAnswer (reject_blob_response r)
      else if sv_max_bytes s <? bytes then TAnswer (reject_blob_response r)
      else TAcquire 0 r (len unique) bytes
  end.

(** The next permit of [admit_blob_response]. *)
Definition acquire_next (n : nat) (held : nat) (r : rpc_reply) (refs bytes : Z) (w : world) : option world :=
  match held with
  | 0%nat => Some match try_acquire refs bytes (w_process_blobs w) with
      | Some b => task_to n (TAcquire 1 r refs bytes) (set_blobs b (w_server_blobs w) (w_conn_blobs w) w)
      | None => task_to n (TAnswer (reject_blob_response r)) w
      end
  | 1%nat => Some match try_acquire refs bytes (w_server_blobs w) with
      | Some b => task_to n (TAcquire 2 r refs bytes) (set_blobs (w_process_blobs w) b (w_conn_blobs w) w)
      | None => task_to n (TAnswer (reject_blob_response r)) (drop_held 1 refs bytes w)
      end
  | 2%nat => Some match try_acquire refs bytes (w_conn_blobs w) with
      | Some b => task_to n (TAcquire 3 r refs bytes) (set_blobs (w_process_blobs w) (w_server_blobs w) b w)
      | None => task_to n (TAnswer (reject_blob_response r)) (drop_held 2 refs bytes w)
      end
  | _ => None
  end.

(** [RpcBlobOwners::track] and the lease; an earlier lease of the id is
    dropped. *)
Definition track (n : nat) (r : rpc_reply) (refs bytes : Z) (ok : bool) (w : world) : world :=
  if ok then
    let w := remove_lease (rp_request_id r) w in
    task_to n (TAnswer (with_blobs r)) (set_leases (<[rp_request_id r := Lease refs bytes]> (w_leases w)) w)
  else task_to n (TAnswer (reject_blob_response r)) (drop_held 3 refs bytes w).

(** [Flight::new] *)
Definition flight_new (w : world) : world :=
  let c := w_counters w in
  let current := ct_in_flight c + 1 in
  set_flights (w_admission w) (Counters (ct_calls c) (ct_refused c) (ct_failed c) current (Z.max (ct_peak c) current))
    (w_other_flights w) w.

(** [Flight::answered] and its drop, with the permit it holds. *)
Definition flight_over (failed permit : bool) (w : world) : world :=
  let c := w_counters w in
  set_flights (if permit then (λ a, a + 1) <$> w_admission w else w_admission w)
    (Counters (ct_calls c + 1) (ct_refused c) (ct_failed c + Z.b2z failed) (ct_in_flight c - 1) (ct_peak c))
    (w_other_flights w) w.

(** ** Events *)

Inductive event :=
(* the loop of [serve_connection] *)
| LoopCheck | LoopReady | LoopActivity | LoopStop | LoopReadError
| FrameRead (bytes : list N) | FrameRefused | FrameBad
| Decide | CheckLease | CheckOwner | Claim | Acquire | Unclaim | Spawn (n : nat)
| LoopWrite (o : wrote) | LoopClose | TakeWriter | Finish
| Join (n : nat)
(* a request's task *)
| TaskStart (n : nat) | HandlerReturns (n : nat) (r : response) | HandlerPanics (n : nat)
| TaskAcquire (n : nat) | TaskTrack (n : nat) (ok : bool) | TaskAnswer (n : nat) | TaskWrite (n : nat) (o : wrote)
| TaskClose (n : nat) | TaskUntoken (n : nat) | TaskUnlist (n : nat)
(* the rest of the process *)
| SetOwned (owned : bool) | ServerClose
| OthersTake (at_server : bool) (refs bytes : Z) | OthersDrop (i : nat)
| OthersStart | OthersEnd.

Definition protocol_error (request_id : pystr) : rpc_reply := reply_error request_id MalformedProtocol (u "ProtocolError").
Definition fenced (request_id : pystr) : rpc_reply := reply_error request_id Fenced (u "Fenced").
Definition busy (request_id : pystr) : rpc_reply := reply_error request_id ConcurrencyRefused (u "Busy").

(** What the loop does with a frame it has read, up to the first shared
    state but for the acknowledgement. *)
Definition decide_frame (s : server) (bytes : list N) (w : world) : world :=
  match sv_header s bytes with
  | None => set_loop (LWrite (protocol_error []) true) w
  | Some header =>
      match sv_request s bytes with
      | None => set_loop (LWrite (protocol_error header) true) w
      | Some rq =>
          if negb (validate_request rq) then set_loop (LWrite (protocol_error (rq_request_id rq)) true) w
          else if bool_decide (rq_operation rq = BlobAck) then set_loop LTop (remove_lease (rq_request_id rq) w)
          else set_loop (LRequest rq) w
      end
  end.

(** The fence, the method and the tenure. *)
Definition check_owner (s : server) (rq : rpc_request) (w : world) : world :=
  set_loop
    (if negb (bool_decide (rq_target rq = sv_identity s)) then LWrite (fenced (rq_request_id rq)) false
     else if bool_decide (rq_operation rq = Call) &&
             negb match rq_method rq with Some m => bool_decide (m ∈ sv_methods s) | None => false end
     then LWrite (reply_error (rq_request_id rq) MethodNotFound (u "AttributeError")) false
     else if bool_decide (w_owned w = Some false) then LWrite (fenced (rq_request_id rq)) false
     else LClaim rq) w.

Definition loop_step (s : server) (w : world) (e : event) : option world :=
  match e, w_loop w with
  | LoopCheck, LTop => Some (set_loop (if w_server_closed w || w_closed w then LLeft else LWaiting) w)
  | LoopReady, LWaiting => Some (set_loop LReading w)
  | LoopActivity, LWaiting => Some (set_loop LTop w)
  | LoopStop, (LWaiting | LReading) => Some (set_loop LLeft w)
  | LoopReadError, LWaiting => Some (set_loop (LWrite (protocol_error []) true) w)
  | FrameRead bytes, LReading => Some (set_loop (LFrame bytes) w)
  | FrameRefused, LReading => Some (set_loop (LWrite (busy []) true) w)
  | FrameBad, LReading => Some (set_loop (LWrite (protocol_error []) true) w)
  | Decide, LFrame bytes => Some (decide_frame s bytes w)
  | CheckLease, LRequest rq =>
      Some (set_loop (if bool_decide (is_Some (w_leases w !! rq_request_id rq))
                      then LWrite (protocol_error (rq_request_id rq)) true else LOwned rq) w)
  | CheckOwner, LOwned rq => Some (check_owner s rq w)
  | Claim, LClaim rq =>
      Some (if bool_decide (rq_request_id rq ∈ w_active w)
            then set_loop (LWrite (protocol_error (rq_request_id rq)) true) w
            else set_loop (LPermit rq) (set_active ({[rq_request_id rq]} ∪ w_active w) w))
  | Acquire, LPermit rq =>
      Some match w_admission w with
           | None => set_loop (LSpawn rq false) w
           | Some a => match try_acquire_many 1 a with
                       | Some a => set_loop (LSpawn rq true) (set_flights (Some a) (w_counters w) (w_other_flights w) w)
                       | None => set_loop (LBusy rq) w
                       end
           end
  | Unclaim, LBusy rq =>
      let c := w_counters w in
      Some (set_loop (LWrite (busy (rq_request_id rq)) false)
        (set_flights (w_admission w) (Counters (ct_calls c) (ct_refused c + 1) (ct_failed c) (ct_in_flight c) (ct_peak c))
           (w_other_flights w) (set_active (w_active w ∖ {[rq_request_id rq]}) w)))
  | Spawn n, LSpawn rq permit =>
      if bool_decide (is_Some (w_tasks w !! n)) then None
      else Some (set_loop LTop (set_cancellations (<[rq_request_id rq := n]> (w_cancellations w))
                  (set_tasks (<[n := Task rq TSpawned permit false]> (w_tasks w)) w)))
  | LoopWrite o, LWrite r leave => Some (set_loop (if leave then LLeft else LTop) (write s r o w).2)
  | LoopClose, LLeft => Some (set_loop LClosed (close w))
  | TakeWriter, LClosed => Some (set_loop LJoining (set_writer false w))
  | Finish, LJoining => if bool_decide (w_tasks w = ∅) then Some (set_loop LFinished (clear_leases w)) else None
  | Join n, (LTop | LWaiting | LJoining) =>
      t ← w_tasks w !! n;
      match tk_at t, w_loop w with
      | TDone, LWaiting => Some (set_loop LTop (set_tasks (delete n (w_tasks w)) w))
      | TDone, _ => Some (set_tasks (delete n (w_tasks w)) w)
      | TPanicked, LTop => Some (close (set_tasks (delete n (w_tasks w)) w))
      | TPanicked, LWaiting => Some (set_loop LLeft (close (set_tasks (delete n (w_tasks w)) w)))
      | TPanicked, _ => Some (set_tasks (delete n (w_tasks w)) w)
      | _, _ => None
      end
  | _, _ => None
  end.

Definition task_step (s : server) (w : world) (n : nat) (t : task) (e : event) : option world :=
  match e, tk_at t with
  | TaskStart _, TSpawned => Some (task_to n TRunning (flight_new w))
  | HandlerReturns _ r, TRunning => Some (task_to n (admit_blobs s (reply_of (rid t) r) (rs_blob_owners r)) w)
  | HandlerPanics _, TRunning =>
      Some (set_tasks (<[n := Task (tk_request t) TPanicked false (tk_cancelled t)]> (w_tasks w))
        (flight_over true (tk_permit t) w))
  | TaskAcquire _, TAcquire held r refs bytes => acquire_next n held r refs bytes w
  | TaskTrack _ ok, TAcquire 3 r refs bytes => Some (track n r refs bytes ok w)
  | TaskAnswer _, TAnswer r =>
      Some (set_tasks (<[n := Task (tk_request t) (TWrite r) false (tk_cancelled t)]> (w_tasks w))
        (flight_over (negb (bool_decide (rp_status r = Success))) (tk_permit t) w))
  | TaskWrite _ o, TWrite r =>
      let '(ok, w) := write s r o w in Some (task_to n (if ok then TUntoken else TClose) w)
  | TaskClose _, TClose => Some (task_to n TUntoken (close w))
  | TaskUntoken _, TUntoken => Some (task_to n TUnlist (set_cancellations (delete (rid t) (w_cancellations w)) w))
  | TaskUnlist _, TUnlist => Some (task_to n TDone (set_active (w_active w ∖ {[rid t]}) w))
  | _, _ => None
  end.

(** A permit of [max_concurrency], when there is one. *)
Definition take_flight (admission : option Z) : option (option Z) :=
  match admission with
  | None => Some None
  | Some a => match try_acquire_many 1 a with Some a => Some (Some a) | None => None end
  end.

(** The other connections and servers of the process. *)
Definition others_step (w : world) (e : event) : option world :=
  match e with
  | SetOwned owned => Some (set_server (Some owned) (w_server_closed w) w)
  | ServerClose => Some (set_server (w_owned w) true w)
  | OthersTake at_server refs bytes =>
      p ← try_acquire refs bytes (w_process_blobs w);
      v ← (if at_server then try_acquire refs bytes (w_server_blobs w) else Some (w_server_blobs w));
      if (0 <=? refs) && (0 <=? bytes)
      then Some (set_others ((at_server, refs, bytes) :: w_others w) (set_blobs p v (w_conn_blobs w) w))
      else None
  | OthersDrop i =>
      match w_others w !! i with
      | Some (at_server, refs, bytes) =>
          Some (set_others (delete i (w_others w)) (drop_held (if at_server : bool then 2 else 1) refs bytes w))
      | None => None
      end
  | OthersStart =>
      a ← take_flight (w_admission w);
      let w := flight_new w in Some (set_flights a (w_counters w) (w_other_flights w + 1) w)
  | OthersEnd =>
      if 1 <=? w_other_flights w
      then let w := flight_over false true w in
           Some (set_flights (w_admission w) (w_counters w) (w_other_flights w - 1) w)
      else None
  | _ => None
  end.

Definition step (s : server) (w : world) (e : event) : option world :=
  match e with
  | TaskStart n | HandlerReturns n _ | HandlerPanics n | TaskAcquire n | TaskTrack n _ | TaskAnswer n
  | TaskWrite n _ | TaskClose n | TaskUntoken n | TaskUnlist n => t ← w_tasks w !! n; task_step s w n t e
  | SetOwned _ | ServerClose | OthersTake _ _ _ | OthersDrop _ | OthersStart | OthersEnd => others_step w e
  | _ => loop_step s w e
  end.

Fixpoint run (s : server) (w : world) (es : list event) : option world :=
  match es with [] => Some w | e :: es => w ← step s w e; run s w es end.

(** A connection that has just been accepted by an idle server. *)
Definition new_world (max_concurrency : option Z) (owned : option bool) (conn server process : Z * Z) : world :=
  World LTop ∅ false true ∅ ∅ ∅ (new_blob_budget conn.1 conn.2) (new_blob_budget server.1 server.2)
    (new_blob_budget process.1 process.2) max_concurrency (Counters 0 0 0 0 0) owned false [] [] [] 0.

(** ** What blobs and bytes leave alone *)

(** Everything but the leases, the budgets and what was written. *)
Record aside (w v : world) : Prop := Aside {
  a_loop : w_loop w = w_loop v;
  a_tasks : w_tasks w = w_tasks v;
  a_closed : w_closed w = w_closed v;
  a_cancellations : w_cancellations w = w_cancellations v;
  a_active : w_active w = w_active v;
  a_admission : w_admission w = w_admission v;
  a_counters : w_counters w = w_counters v;
  a_others : w_others w = w_others v;
  a_flights : w_other_flights w = w_other_flights v
}.

#[global] Instance aside_equivalence : Equivalence aside.
Proof.
  split.
  - by intros w.
  - intros w v []. by split.
  - intros w v u [] []. split; congruence.
Qed.

Lemma remove_lease_aside x w : aside (remove_lease x w) w.
Proof. unfold remove_lease. by case_match. Qed.

Lemma clear_leases_aside w : aside (clear_leases w) w.
Proof.
  unfold clear_leases. assert (aside (set_leases ∅ w) w) as Hw by done. revert Hw.
  generalize (set_leases ∅ w). induction (map_to_list (w_leases w)) as [|p l IH]; intros v Hv; [done|].
  simpl. etrans; [|by apply IH]. done.
Qed.

Lemma write_aside s r o w : aside (write s r o w).2 w.
Proof.
  unfold write. repeat case_match; try done; try apply remove_lease_aside. etrans; [apply remove_lease_aside|done].
Qed.

(** A task at another point. *)
Definition at_stage (t : task) (a : task_at) : task := Task (tk_request t) a (tk_permit t) (tk_cancelled t).

Lemma task_to_insert n a t w :
  w_tasks w !! n = Some t → w_tasks (task_to n a w) = <[n := at_stage t a]> (w_tasks w).
Proof. intros Ht. simpl. by rewrite (alter_known _ _ t). Qed.

(** ** One handler for each id *)

Definition plausible (rq : rpc_request) : Prop := validate_request rq = true ∧ rq_operation rq ≠ BlobAck.

(** What a request must be to reach the service. *)
Definition accepted (s : server) (rq : rpc_request) : Prop :=
  plausible rq ∧ rq_target rq = sv_identity s ∧
  (rq_operation rq = Call → ∃ m, rq_method rq = Some m ∧ m ∈ sv_methods s).

(** The id the loop has claimed and not yet handed to a task. *)
Definition claimed (w : world) : option pystr :=
  match w_loop w with LPermit rq | LBusy rq | LSpawn rq _ => Some (rq_request_id rq) | _ => None end.

(** A task that still owns its id. *)
Definition listed (t : task) : Prop := tk_at t ≠ TDone.

Definition loop_ok (s : server) (l : loop_at) : Prop :=
  match l with
  | LRequest rq | LOwned rq => plausible rq
  | LClaim rq | LPermit rq | LBusy rq | LSpawn rq _ => accepted s rq
  | _ => True
  end.

Record served (s : server) (w : world) : Prop := Served {
  v_task : ∀ n t, w_tasks w !! n = Some t → accepted s (tk_request t);
  v_loop : loop_ok s (w_loop w);
  v_active : ∀ n t, w_tasks w !! n = Some t → listed t → rid t ∈ w_active w;
  v_claimed : ∀ x, claimed w = Some x → x ∈ w_active w ∧ ∀ n t, w_tasks w !! n = Some t → listed t → rid t ≠ x;
  v_distinct : ∀ n m t t', w_tasks w !! n = Some t → w_tasks w !! m = Some t' → listed t → listed t' →
    rid t = rid t' → n = m
}.

(** The tasks of [v] go on from those of [w], and none is listed anew. *)
Definition continues (w v : world) : Prop :=
  ∀ n t', w_tasks v !! n = Some t' → ∃ t, w_tasks w !! n = Some t ∧ tk_request t' = tk_request t ∧ (listed t' → listed t).

Lemma served_continues s w v :
  served s w → continues w v → loop_ok s (w_loop v) → w_active v = w_active w →
  (claimed v = claimed w ∨ claimed v = None) → served s v.
Proof.
  intros [H1 H2 H3 H4 H5] Hc Hl Ha Hcl. split.
  - intros n t (t0 & Ht0 & -> & _)%Hc. eauto.
  - done.
  - intros n t (t0 & Ht0 & Hr & Hli)%Hc Hlt. rewrite Ha. unfold rid. rewrite Hr. by apply (H3 n t0); auto.
  - intros x Hx. destruct Hcl as [Hcl|Hcl]; [|congruence]. rewrite Hcl in Hx. destruct (H4 x Hx) as [? Hd].
    rewrite Ha. split; [done|]. intros n t (t0 & Ht0 & Hr & Hli)%Hc Hlt. unfold rid. rewrite Hr. by eapply Hd; auto.
  - intros n m t t' (t0 & Ht0 & Hr & Hli)%Hc (t1 & Ht1 & Hr1 & Hli1)%Hc Hlt Hlt'. unfold rid. rewrite Hr, Hr1.
    intros He. eapply H5; eauto.
Qed.

Lemma continues_same w v : w_tasks v = w_tasks w → continues w v.
Proof. intros Ht n t. rewrite Ht. eauto. Qed.

Lemma continues_aside w v : aside v w → continues w v.
Proof. intros Ha. apply continues_same, Ha. Qed.

Lemma served_aside s w v : aside v w → served s w → served s v.
Proof.
  intros Ha Hs. apply (served_continues s w); [done|by apply continues_aside|rewrite (a_loop _ _ Ha); apply Hs|apply Ha|].
  left. unfold claimed. by rewrite (a_loop _ _ Ha).
Qed.

Lemma continues_alter n f w v :
  w_tasks v = alter f n (w_tasks w) →
  (∀ t, w_tasks w !! n = Some t → tk_request (f t) = tk_request t ∧ (listed (f t) → listed t)) → continues w v.
Proof.
  intros Hv Hf m t'. rewrite Hv. destruct (decide (n = m)) as [<-|Hne].
  - rewrite lookup_alter_eq. destruct (w_tasks w !! n) as [t|] eqn:Ht; [|done]. intros [= <-]. eauto.
  - rewrite lookup_alter_ne by done. eauto.
Qed.

Lemma continues_insert n t t' w v :
  w_tasks w !! n = Some t → w_tasks v = <[n := t']> (w_tasks w) →
  tk_request t' = tk_request t → (listed t' → listed t) → continues w v.
Proof.
  intros Ht Hv Hr Hl m x. rewrite Hv. intros [[<- <-]|[_ Hx]]%lookup_insert_Some; eauto.
Qed.

Lemma continues_delete n w v : w_tasks v = delete n (w_tasks w) → continues w v.
Proof. intros Hv m t'. rewrite Hv. intros [_ ?]%lookup_delete_Some. eauto. Qed.

(** [close] cancels; it changes no request and finishes no task. *)
Lemma close_frame w :
  w_loop (close w) = w_loop w ∧ w_active (close w) = w_active w ∧ continues w (close w) ∧
  w_closed (close w) = true ∧ w_cancellations (close w) = w_cancellations w.
Proof.
  unfold close. destruct (w_closed w) eqn:Hc; [split_and!; try done; by apply continues_aside|].
  pose proof (clear_leases_aside (cancel_tokens (set_closed true w))) as Ha.
  split_and!; [apply Ha|apply Ha| |rewrite (a_closed _ _ Ha); done|apply Ha].
  intros n t'. rewrite (a_tasks _ _ Ha). simpl. rewrite map_lookup_imap.
  destruct (w_tasks w !! n) as [t|]; [|done]. intros [= <-]. by exists t.
Qed.

Lemma served_close s w : served s w → served s (close w).
Proof.
  intros Hs. destruct (close_frame w) as (Hl & Ha & Hc & _). eapply served_continues; [done..| |done|].
  - rewrite Hl. apply Hs.
  - left. unfold claimed. by rewrite Hl.
Qed.

(** The loop moves on without a claim. *)
Lemma served_loop s w l :
  served s w → loop_ok s l → claimed (set_loop l w) = None → served s (set_loop l w).
Proof. intros Hs Hl Hc. apply (served_continues s w); [done|by apply continues_same|done..|by right]. Qed.

Lemma served_task_to s n a w t :
  served s w → w_tasks w !! n = Some t → listed t → served s (task_to n a w).
Proof.
  intros Hs Ht Hl. apply (served_continues s w); [done| |apply Hs|done|by left].
  eapply continues_alter; [done|]. intros t0 Ht0. assert (t0 = t) as -> by congruence. done.
Qed.

Lemma accepted_owner s rq w :
  plausible rq → loop_ok s (w_loop (check_owner s rq w)) ∧ claimed (check_owner s rq w) = None.
Proof.
  intros Hp. unfold check_owner, claimed. cbn [set_loop w_loop].
  case_bool_decide as Ht; cbn [negb]; [|done].
  destruct (bool_decide (rq_operation rq = Call) && _) eqn:Hm; [done|].
  destruct (bool_decide (w_owned w = Some false)); [done|]. split; [|done]. split_and!; [done..|].
  intros Hcall. rewrite bool_decide_true in Hm by done. simpl in Hm. apply negb_false_iff in Hm.
  destruct (rq_method rq) as [m|]; [|done]. apply bool_decide_eq_true in Hm. eauto.
Qed.

(** A task the loop has joined. *)
Lemma served_join s w n v :
  served s w → (w_loop w = LTop ∨ w_loop w = LWaiting ∨ w_loop w = LJoining) →
  loop_step s w (Join n) = Some v → served s v.
Proof.
  intros Hs Hl H.
  assert (served s (set_tasks (delete n (w_tasks w)) w)) as Hdel.
  { apply (served_continues s w); [done|by eapply continues_delete|apply Hs|done|by left]. }
  assert (∀ l, l = LTop ∨ l = LLeft → served s (set_loop l (close (set_tasks (delete n (w_tasks w)) w)))) as Hcl.
  { intros l [-> | ->]; apply served_loop; try done; by apply served_close. }
  unfold loop_step in H. destruct (w_tasks w !! n) as [t|] eqn:Ht; destruct Hl as [Hl|[Hl|Hl]]; rewrite Hl in H;
    cbn [mbind option_bind] in H; try done; destruct (tk_at t); try done; injection H as <-; auto.
  - by apply served_close.
  - by apply served_loop.
Qed.

Lemma served_loop_step s w e v : served s w → loop_step s w e = Some v → served s v.
Proof.
  intros Hs H. destruct (match e with Join _ => true | _ => false end) eqn:Hj.
  { destruct e; try done. apply (served_join s w n); [done| |done]. unfold loop_step in H.
    destruct (w_loop w); try done; auto. }
  revert H. pose proof Hs as [H1 H2 H3 H4 H5]. unfold loop_step.
  destruct e, (w_loop w) eqn:Hl; try done; simpl in H2; try (intros [= <-]; by apply served_loop).
  - intros [= <-]. apply served_loop; [done|..]; by destruct (w_server_closed w || w_closed w).
  - intros [= <-]. unfold decide_frame.
    destruct (sv_header s bytes) as [h|]; [|by apply served_loop].
    destruct (sv_request s bytes) as [rq|]; [|by apply served_loop].
    destruct (validate_request rq) eqn:Hv; simpl; [|by apply served_loop].
    case_bool_decide; [|by apply served_loop].
    apply served_loop; [|done..]. eapply served_aside; [apply remove_lease_aside|done].
  - intros [= <-]. apply served_loop; [done|..]; by case_bool_decide.
  - intros [= <-]. destruct (accepted_owner s rq w H2) as [Hok Hcl]. unfold check_owner in *. by apply served_loop.
  - intros [= <-]. case_bool_decide as Hx; [by apply served_loop|]. split; simpl; try done.
    + intros n t Ht Hli. apply elem_of_union. right. eauto.
    + intros x [= <-]. split; [apply elem_of_union_l; by apply elem_of_singleton|].
      intros n t Ht Hli He. apply Hx. rewrite <- He. eauto.
  - intros [= <-]. assert (claimed w = Some (rq_request_id rq)) as Hc by (unfold claimed; by rewrite Hl).
    destruct (w_admission w) as [a|]; [destruct (try_acquire_many 1 a)|];
      (split; simpl; try done; intros x [= <-]; by apply H4).
  - intros [= <-]. assert (claimed w = Some (rq_request_id rq)) as Hc by (unfold claimed; by rewrite Hl).
    destruct (H4 _ Hc) as [_ Hd]. split; simpl; try done.
    intros n t Ht Hli. apply elem_of_difference. split; [eauto|]. rewrite elem_of_singleton. eauto.
  - case_bool_decide as Hn; [done|]. apply eq_None_not_Some in Hn. intros [= <-].
    assert (claimed w = Some (rq_request_id rq)) as Hc by (unfold claimed; by rewrite Hl).
    destruct (H4 _ Hc) as [Hin Hd]. split; simpl; try done.
    + intros m t [[<- <-]|[_ Ht]]%lookup_insert_Some; [done|eauto].
    + intros m t [[<- <-]|[_ Ht]]%lookup_insert_Some; [done|eauto].
    + intros m k t t' [[<- <-]|[_ Ht]]%lookup_insert_Some [[<- <-]|[_ Ht']]%lookup_insert_Some Hli Hli' He;
        [done|by destruct (Hd k t' Ht' Hli')|by destruct (Hd m t Ht Hli)|eauto].
  - intros [= <-]. apply served_loop; [|by destruct leave..]. eapply served_aside; [apply write_aside|done].
  - intros [= <-]. apply served_loop; [|done..]. by apply served_close.
  - intros [= <-]. apply served_loop; [|done..]. by eapply served_aside; [|exact Hs].
  - case_bool_decide; [|done]. intros [= <-]. apply served_loop; [|done..].
    eapply served_aside; [apply clear_leases_aside|done].
Qed.

Lemma served_fields s w v :
  w_loop v = w_loop w → w_tasks v = w_tasks w → w_active v = w_active w → served s w → served s v.
Proof.
  intros Hl Ht Ha Hs. apply (served_continues s w); [done|by apply continues_same|rewrite Hl; apply Hs|done|].
  left. unfold claimed. by rewrite Hl.
Qed.

Lemma served_insert s n t t' w v :
  served s w → w_tasks w !! n = Some t → tk_request t' = tk_request t → listed t →
  w_loop v = w_loop w → w_active v = w_active w →
  served s (set_tasks (<[n := t']> (w_tasks w)) v).
Proof.
  intros Hs Ht Hr Hl Hlo Ha. apply (served_continues s w); [done| |simpl; rewrite Hlo; apply Hs|done|].
  - by eapply continues_insert.
  - left. unfold claimed. simpl. by rewrite Hlo.
Qed.

Lemma task_lookup_aside w v n t : aside v w → w_tasks w !! n = Some t → w_tasks v !! n = Some t.
Proof. intros Ha. by rewrite (a_tasks _ _ Ha). Qed.

(** A task gives its id back. *)
Lemma served_unlist s n t w :
  served s w → w_tasks w !! n = Some t → listed t →
  served s (task_to n TDone (set_active (w_active w ∖ {[rid t]}) w)).
Proof.
  intros Hs Ht Hl. pose proof Hs as [H1 H2 H3 H4 H5].
  set (v := task_to n TDone _). assert (continues w v) as Hc.
  { eapply continues_alter; [done|]. intros t0 Ht0. assert (t0 = t) as -> by congruence. done. }
  assert (∀ m t', w_tasks v !! m = Some t' → listed t' → m ≠ n) as Hne.
  { intros m t' Hm Hli ->. subst v. simpl in Hm. rewrite lookup_alter_eq, Ht in Hm. injection Hm as <-. by apply Hli. }
  assert (∀ m t', w_tasks v !! m = Some t' → listed t' → rid t' ∈ w_active w ∧ rid t' ≠ rid t) as Hkeep.
  { intros m t' Hm Hli. pose proof (Hne m t' Hm Hli) as Hmn. destruct (Hc m t' Hm) as (t0 & Ht0 & Hr & Hl0).
    assert (rid t' = rid t0) as -> by (unfold rid; by rewrite Hr). split; [eauto|]. intros He. apply Hmn. eauto. }
  split.
  - intros m t' (t0 & Ht0 & -> & _)%Hc. eauto.
  - done.
  - intros m t' Hm Hli. apply elem_of_difference. rewrite elem_of_singleton. eauto.
  - intros x Hx. destruct (H4 x Hx) as [Hin Hd]. split.
    + apply elem_of_difference. split; [done|]. rewrite elem_of_singleton. intros ->. by apply (Hd n t).
    + intros m t' Hm Hli. destruct (Hc m t' Hm) as (t0 & Ht0 & Hr & Hl0). unfold rid. rewrite Hr.
      eapply (Hd m t0); auto.
  - intros m k t1 t2 Hm Hk Hl1 Hl2 He. destruct (Hc m t1 Hm) as (t3 & Ht3 & Hr3 & Hl3).
    destruct (Hc k t2 Hk) as (t4 & Ht4 & Hr4 & Hl4). apply (H5 m k t3 t4); auto.
    unfold rid in *. by rewrite <- Hr3, <- Hr4.
Qed.

Lemma served_task_step s w n t e v :
  served s w → w_tasks w !! n = Some t → task_step s w n t e = Some v → served s v.
Proof.
  intros Hs Ht. unfold task_step, listed. destruct e, (tk_at t) eqn:Hat; try done; intros H;
    assert (listed t) as Hl by (unfold listed; by rewrite Hat);
    try (injection H as <-; by eapply served_insert).
  - injection H as <-. eapply served_task_to; [|done..]. by eapply served_fields; [..|exact Hs].
  - injection H as <-. by eapply served_task_to.
  - unfold acquire_next in H. destruct held as [|[|[|k]]]; try done;
      destruct (try_acquire _ _ _); injection H as <-; (eapply served_task_to; [|done..]); try done;
      by eapply served_fields; [..|exact Hs].
  - destruct held as [|[|[|[|k]]]]; try done. injection H as <-. unfold track. destruct ok.
    + pose proof (remove_lease_aside (rp_request_id r) w) as Ha.
      eapply served_task_to; [|exact (task_lookup_aside _ _ _ _ Ha Ht)|done].
      eapply served_fields; [..|exact Hs]; apply Ha.
    + eapply served_task_to; [|done..]. by eapply served_fields; [..|exact Hs].
  - pose proof (write_aside s r o w) as Ha. destruct (write s r o w) as [ok w1]. injection H as <-. simpl in Ha.
    eapply served_task_to; [by eapply served_aside|by eapply task_lookup_aside|done].
  - injection H as <-. apply (served_continues s (close w)); [by apply served_close| | |done|by left].
    + eapply continues_alter; [done|]. intros t0 Ht0. split; [done|]. intros _.
      destruct (close_frame w) as (_ & _ & Hc & _). pose proof (Hc n t0 Ht0) as (t1 & Ht1 & _ & Hli).
      assert (t1 = t) as -> by congruence.
      unfold close in Ht0. destruct (w_closed w); [congruence|].
      rewrite (a_tasks _ _ (clear_leases_aside _)) in Ht0. simpl in Ht0. rewrite map_lookup_imap, Ht in Ht0.
      injection Ht0 as <-. unfold listed. simpl. by rewrite Hat.
    + simpl. apply (served_close s w Hs).
  - injection H as <-. eapply served_task_to; [|done..]. by eapply served_fields; [..|exact Hs].
  - injection H as <-. by apply served_unlist.
Qed.

Lemma served_others_step s w e v : served s w → others_step w e = Some v → served s v.
Proof.
  intros Hs. destruct e; try done; cbn [others_step].
  - intros [= <-]. by eapply served_fields; [..|exact Hs].
  - intros [= <-]. by eapply served_fields; [..|exact Hs].
  - destruct (try_acquire refs bytes (w_process_blobs w)); [|done]. cbn [mbind option_bind].
    destruct (if at_server then _ else _); [|done]. cbn [mbind option_bind]. case_match; [|done].
    intros [= <-]. by eapply served_fields; [..|exact Hs].
  - destruct (w_others w !! i) as [[[b r] y]|]; [|done]. intros [= <-]. by eapply served_fields; [..|exact Hs].
  - destruct (take_flight (w_admission w)); [|done]. intros [= <-]. by eapply served_fields; [..|exact Hs].
  - case_match; [|done]. intros [= <-]. by eapply served_fields; [..|exact Hs].
Qed.

Lemma served_step s w e v : served s w → step s w e = Some v → served s v.
Proof.
  intros Hs. destruct e; cbn [step]; try (by apply served_loop_step); try (by apply served_others_step);
    (destruct (w_tasks w !! n) as [t|] eqn:Ht; [|done]; cbn [mbind option_bind]; by apply served_task_step).
Qed.

Lemma served_run s es w v : served s w → run s w es = Some v → served s v.
Proof.
  revert w. induction es as [|e es IH]; intros w Hs; simpl; [by intros [= <-]|].
  destruct (step s w e) as [u|] eqn:Hu; [|done]. simpl. apply IH. by eapply served_step.
Qed.

Lemma served_new s mc owned c v p : served s (new_world mc owned c v p).
Proof. by split. Qed.

(** C22: a request reaches the service only when it is well formed, addressed to
    this tenure, and names a method that is served; and as long as a task has
    not given its id back no other task of the connection has the same id. *)
Theorem one_handler_for_each_id s mc owned c v p es w :
  run s (new_world mc owned c v p) es = Some w →
  (∀ n t, w_tasks w !! n = Some t → accepted s (tk_request t)) ∧
  (∀ n m t t', w_tasks w !! n = Some t → w_tasks w !! m = Some t' → tk_at t ≠ TDone → tk_at t' ≠ TDone →
     rq_request_id (tk_request t) = rq_request_id (tk_request t') → n = m).
Proof.
  intros Hr. destruct (served_run s es _ _ (served_new s mc owned c v p) Hr) as [H1 _ _ _ H5].
  split; [exact H1|exact H5].
Qed.

(** ** A server to try things on *)

Definition sample_server : server :=
  Server (u "engine/2#7") [u "generate"] (λ b, Some b)
    (λ b, Some (request_call b (u "driver/0#3") (u "engine/2#7") (u "generate") []))
    (λ r, Some (rp_request_id r ++ rp_payload r)) 64 1000.
Definition sample_world : world := new_world (Some 2) None (10, 1000) (10, 1000) (10, 1000).

(** A frame with this id is read, accepted and given to task [n]. *)
Definition accepts (n : nat) (id : pystr) : list event :=
  [LoopCheck; LoopReady; FrameRead id; Decide; CheckLease; CheckOwner; Claim; Acquire; Spawn n; TaskStart n].

(** The service answers task [n]. *)
Definition answers (n : nat) (payload : pystr) (owners : list blob) : list event :=
  HandlerReturns n (Response Success payload None None None owners) ::
  (if owners is [] then [] else [TaskAcquire n; TaskAcquire n; TaskAcquire n; TaskTrack n true]) ++ [TaskAnswer n].

Lemma one_handler_for_each_id_witness :
  ∃ w t t', run sample_server sample_world (accepts 0 (u "a") ++ accepts 1 (u "b")) = Some w ∧
    w_tasks w !! 0%nat = Some t ∧ w_tasks w !! 1%nat = Some t' ∧
    accepted sample_server (tk_request t) ∧ rq_request_id (tk_request t) ≠ rq_request_id (tk_request t').
Proof.
  destruct (run sample_server sample_world (accepts 0 (u "a") ++ accepts 1 (u "b"))) as [w|] eqn:Hr;
    [|exfalso; revert Hr; vm_compute; done].
  destruct (one_handler_for_each_id _ _ _ _ _ _ _ _ Hr) as [H1 H2].
  destruct (w_tasks w !! 0%nat) as [t|] eqn:Ht; [|exfalso; revert Ht; revert Hr; vm_compute; intros [= <-]; done].
  destruct (w_tasks w !! 1%nat) as [t'|] eqn:Ht'; [|exfalso; revert Ht'; revert Hr; vm_compute; intros [= <-]; done].
  exists w, t, t'. split_and!; [done..|by eapply H1|].
  intros He. assert (0%nat = 1%nat) as [=]. eapply H2; eauto; revert Ht Ht'; revert Hr; vm_compute; intros [= <-] [= <-] [= <-]; done.
Defined.
