(* ===== verification/ServerBudgets.v ===== *)
(** * The native listener's budgets

    Two invariants of every interleaving of [NativeServer].  [exact]: at each
    of the three levels (process, server, connection) the blob budget counts
    exactly what the replies waiting for an acknowledgement, the requests being
    admitted and the other connections hold.  [manned]: the semaphore of
    [max_concurrency] and the figure [in_flight] agree with the handlers that
    are running. *)

From S2P Require Import Prelude PyStr Text Wire RpcProto Admission NativeServer.

Local Open Scope Z_scope.

(** ** Blob budgets *)

(** References and bytes, counted alike. *)
Notation amount := (Z * Z)%type.
Definition counts (q : amount → Z) : Prop := q = fst ∨ q = snd.

Definition lease_amount (l : lease) : amount := (ls_refs l, ls_bytes l).

(** What a task holds at a level: 1 is the process, 2 the server, 3 the
    connection. *)
Definition held_at (level : nat) (t : task) : amount :=
  match tk_at t with
  | TAcquire k _ refs bytes => if bool_decide (level ≤ k)%nat then (refs, bytes) else (0, 0)
  | _ => (0, 0)
  end.
Definition other_at (level : nat) (o : bool * Z * Z) : amount :=
  if bool_decide (level ≤ if o.1.1 : bool then 2 else 1)%nat then (o.1.2, o.2) else (0, 0).

Definition level_budget (level : nat) (w : world) : blob_budget :=
  match level with 1%nat => w_process_blobs w | 2%nat => w_server_blobs w | _ => w_conn_blobs w end.
Definition used (b : blob_budget) : amount := (bb_refs b, bb_bytes b).
Definition limit (b : blob_budget) : amount := (bb_max_refs b, bb_max_bytes b).

(** What leases, tasks and the others hold at a level. *)
Definition in_use (q : amount → Z) (level : nat) (w : world) : Z :=
  map_sum (q ∘ lease_amount) (w_leases w) + map_sum (q ∘ held_at level) (w_tasks w)
  + sum_by (q ∘ other_at level) (w_others w).

Definition fair (a : amount) : Prop := 0 ≤ a.1 ∧ 0 ≤ a.2.

Record exact (w : world) : Prop := Exact {
  x_used : ∀ q level, counts q → (1 ≤ level ≤ 3)%nat → q (used (level_budget level w)) = in_use q level w;
  x_limit : ∀ q level, counts q → (1 ≤ level ≤ 3)%nat → q (used (level_budget level w)) ≤ q (limit (level_budget level w));
  x_leases : ∀ x l, w_leases w !! x = Some l → fair (lease_amount l);
  x_tasks : ∀ n t, w_tasks w !! n = Some t → fair (held_at 0 t);
  x_others : ∀ o, o ∈ w_others w → fair (other_at 0 o)
}.

Lemma fair_counts q a : counts q → fair a → 0 ≤ q a.
Proof. intros [-> | ->] []; done. Qed.

Lemma fair_held level t : fair (held_at 0 t) → fair (held_at level t).
Proof.
  unfold held_at. destruct (tk_at t); try done. rewrite bool_decide_true by lia. intros ?. by case_bool_decide.
Qed.

Lemma fair_other level o : fair (other_at 0 o) → fair (other_at level o).
Proof. unfold other_at. rewrite bool_decide_true by lia. intros ?. by case_bool_decide. Qed.

(** The parts of [in_use], and that they are not negative. *)
Lemma in_use_parts q level w :
  counts q → exact w →
  0 ≤ map_sum (q ∘ lease_amount) (w_leases w) ∧ 0 ≤ map_sum (q ∘ held_at level) (w_tasks w) ∧
  0 ≤ sum_by (q ∘ other_at level) (w_others w).
Proof.
  intros Hq [_ _ H1 H2 H3]. split_and!.
  - apply map_sum_nonneg. intros x l Hl. apply fair_counts; [done|]. by apply (H1 x).
  - apply map_sum_nonneg. intros n t Ht. apply fair_counts; [done|]. apply fair_held. by apply (H2 n).
  - apply sum_by_nonneg, Forall_forall. intros o Ho. apply fair_counts; [done|]. by apply fair_other, H3.
Qed.

Lemma try_acquire_used refs bytes b b' q :
  try_acquire refs bytes b = Some b' → counts q →
  q (used b') = q (used b) + q (refs, bytes) ∧ q (used b') ≤ q (limit b') ∧ limit b' = limit b.
Proof.
  unfold try_acquire, checked_add. destruct (bb_refs b + refs <=? USIZE_MAX); [|done]. cbn [mbind option_bind].
  destruct (Z.ltb_spec (bb_max_refs b) (bb_refs b + refs)); [done|].
  destruct (bb_bytes b + bytes <=? USIZE_MAX); [|done]. cbn [mbind option_bind].
  destruct (Z.ltb_spec (bb_max_bytes b) (bb_bytes b + bytes)); [done|].
  intros [= <-] [-> | ->]; simpl; (split_and!; [done|lia|done]).
Qed.

Lemma drop_permit_used refs bytes b q :
  counts q → q (refs, bytes) ≤ q (used b) → q (used (drop_permit refs bytes b)) = q (used b) - q (refs, bytes).
Proof. intros [-> | ->]; simpl; lia. Qed.

Lemma drop_held_used k refs bytes q level w :
  counts q → (1 ≤ level ≤ 3)%nat →
  ((level ≤ k)%nat → q (refs, bytes) ≤ q (used (level_budget level w))) →
  q (used (level_budget level (drop_held k refs bytes w))) =
    q (used (level_budget level w)) - (if bool_decide (level ≤ k)%nat then q (refs, bytes) else 0) ∧
  limit (level_budget level (drop_held k refs bytes w)) = limit (level_budget level w).
Proof.
  intros Hq Hl Hle. destruct level as [|[|[|[|level]]]]; try lia; simpl; case_bool_decide as Hk;
    (split; [rewrite ?drop_permit_used by auto; lia|done]).
Qed.

(** The budgets and what is held move together. *)
Lemma exact_shift w v (d : (amount → Z) → nat → Z) :
  exact w →
  (∀ q level, counts q → (1 ≤ level ≤ 3)%nat →
     q (used (level_budget level v)) = q (used (level_budget level w)) + d q level ∧
     in_use q level v = in_use q level w + d q level ∧
     q (used (level_budget level v)) ≤ q (limit (level_budget level v))) →
  (∀ x l, w_leases v !! x = Some l → fair (lease_amount l)) →
  (∀ n t, w_tasks v !! n = Some t → fair (held_at 0 t)) →
  (∀ o, o ∈ w_others v → fair (other_at 0 o)) → exact v.
Proof.
  intros Hw Hd H1 H2 H3. split; [| |done..].
  - intros q level Hq Hl. destruct (Hd q level Hq Hl) as (-> & -> & _). by rewrite (x_used _ Hw).
  - intros q level Hq Hl. by destruct (Hd q level Hq Hl) as (_ & _ & ?).
Qed.

Lemma exact_fields w v :
  w_leases v = w_leases w → w_tasks v = w_tasks w → w_others v = w_others w →
  w_process_blobs v = w_process_blobs w → w_server_blobs v = w_server_blobs w → w_conn_blobs v = w_conn_blobs w →
  exact w → exact v.
Proof.
  intros Hl Ht Ho Hp Hs Hc [H1 H2 H3 H4 H5].
  assert (∀ level, level_budget level v = level_budget level w) as Hb.
  { intros [|[|[|level]]]; simpl; congruence. }
  split; unfold in_use; rewrite ?Hl, ?Ht, ?Ho; try done; intros q level; rewrite Hb; [apply H1|apply H2].
Qed.

(** What is held changes with one task. *)
Lemma in_use_task q level n t t' w v :
  w_tasks w !! n = Some t → w_tasks v = <[n := t']> (w_tasks w) → w_leases v = w_leases w → w_others v = w_others w →
  in_use q level v = in_use q level w - q (held_at level t) + q (held_at level t').
Proof.
  intros Ht Hv Hl Ho. unfold in_use. rewrite Hv, Hl, Ho, (map_sum_replace _ _ _ t) by done. unfold compose. lia.
Qed.

Lemma fair_tasks_insert w n t' :
  exact w → fair (held_at 0 t') → ∀ m t, <[n := t']> (w_tasks w) !! m = Some t → fair (held_at 0 t).
Proof. intros Hw Ht m t [[_ <-]|[_ ?]]%lookup_insert_Some; [done|]. by eapply x_tasks. Qed.

(** A task moves on and holds what it held. *)
Lemma exact_retask n t t' w v :
  exact w → w_tasks w !! n = Some t → w_tasks v = <[n := t']> (w_tasks w) →
  (∀ level, (1 ≤ level ≤ 3)%nat → held_at level t' = held_at level t) → fair (held_at 0 t') →
  w_leases v = w_leases w → w_others v = w_others w →
  (∀ level, level_budget level v = level_budget level w) → exact v.
Proof.
  intros Hw Ht Hv Hh Hf Hl Ho Hb. apply (exact_shift w v (λ _ _, 0)); [done| | | |].
  - intros q level Hq Hle. rewrite (in_use_task q level n t t' w v) by done. rewrite Hh, Hb by done.
    pose proof (x_limit _ Hw q level Hq Hle). lia.
  - rewrite Hl. apply Hw.
  - rewrite Hv. by apply fair_tasks_insert.
  - rewrite Ho. apply Hw.
Qed.

Definition idle (a : task_at) : Prop := match a with TAcquire (S _) _ _ _ => False | _ => True end.

Lemma idle_held level t : idle (tk_at t) → (1 ≤ level)%nat → held_at level t = (0, 0).
Proof.
  unfold held_at, idle. destruct (tk_at t) as [| |[|k]| | | | | | |]; try done. intros _ ?. by rewrite bool_decide_false by lia.
Qed.

(** From one point without permits to another. *)
Lemma exact_idle n t t' w v :
  exact w → w_tasks w !! n = Some t → w_tasks v = <[n := t']> (w_tasks w) →
  idle (tk_at t) → idle (tk_at t') → fair (held_at 0 t') → w_leases v = w_leases w → w_others v = w_others w →
  (∀ level, level_budget level v = level_budget level w) → exact v.
Proof.
  intros Hw Ht Hv Hi Hi' Hf Hl Ho Hb. eapply exact_retask; [done..| |done|done|done|done].
  intros level Hle. rewrite !idle_held by (done || lia). done.
Qed.

Lemma level_set_leases level m w : level_budget level (set_leases m w) = level_budget level w.
Proof. by destruct level as [|[|[|level]]]. Qed.

(** A lease is dropped. *)
Lemma lease_in_use x l q level w :
  counts q → exact w → w_leases w !! x = Some l → (1 ≤ level ≤ 3)%nat →
  q (lease_amount l) ≤ q (used (level_budget level w)).
Proof.
  intros Hq Hw Hl Hle. rewrite (x_used _ Hw) by done. destruct (in_use_parts q level w Hq Hw) as (_ & H2 & H3).
  unfold in_use. rewrite <- (insert_delete_id (w_leases w) x l) by done.
  rewrite map_sum_insert by apply lookup_delete_eq.
  assert (0 ≤ map_sum (q ∘ lease_amount) (delete x (w_leases w))).
  { apply map_sum_nonneg. intros y m [_ Hm]%lookup_delete_Some. apply fair_counts; [done|]. by eapply x_leases. }
  unfold compose in *. lia.
Qed.

Lemma exact_remove_lease x w : exact w → exact (remove_lease x w).
Proof.
  intros Hw. unfold remove_lease. destruct (w_leases w !! x) as [l|] eqn:Hl; [|done].
  assert (fair (lease_amount l)) as Hf by (by eapply x_leases).
  apply (exact_shift w _ (λ q _, - q (lease_amount l))); [done| | |apply Hw|apply Hw].
  - intros q level Hq Hle. pose proof (lease_in_use x l q level w Hq Hw Hl Hle) as Hin.
    unfold drop_lease. destruct (drop_held_used 3 (ls_refs l) (ls_bytes l) q level
      (set_leases (delete x (w_leases w)) w) Hq Hle) as [Hu Hli]; [by rewrite level_set_leases|].
    rewrite bool_decide_true in Hu by lia. rewrite Hu, Hli, level_set_leases.
    pose proof (x_limit _ Hw q level Hq Hle). pose proof (fair_counts q _ Hq Hf).
    split_and!; [unfold lease_amount; lia| |unfold lease_amount in *; lia].
    unfold in_use. simpl. rewrite (map_sum_delete _ _ _ l) by done. unfold compose. lia.
  - simpl. intros y m [_ Hm]%lookup_delete_Some. by eapply x_leases.
Qed.

Lemma map_sum_list {A} (f : A → Z) (m : gmap pystr A) : map_sum f m = sum_by (f ∘ snd) (map_to_list m).
Proof.
  unfold map_sum. rewrite map_fold_foldr. unfold sum_by. induction (map_to_list m) as [|[x a] l IH]; [done|].
  simpl. by rewrite IH.
Qed.

Lemma drop_leases_used q level (l : list (pystr * lease)) rest w :
  counts q → (1 ≤ level ≤ 3)%nat → Forall (λ p, fair (lease_amount p.2)) l → 0 ≤ rest →
  q (used (level_budget level w)) = rest + sum_by (q ∘ lease_amount ∘ snd) l →
  q (used (level_budget level (foldr (λ p w, drop_lease p.2 w) w l))) = rest ∧
  limit (level_budget level (foldr (λ p w, drop_lease p.2 w) w l)) = limit (level_budget level w).
Proof.
  intros Hq Hle Hl. revert rest. induction Hl as [|p l Hp _ IH]; intros rest Hr Hu; simpl in *; [split; [lia|done]|].
  pose proof (fair_counts q _ Hq Hp) as Hn. unfold compose in Hu.
  destruct (IH (rest + q (lease_amount p.2))) as [Hu' Hli]; [lia|unfold compose; lia|].
  destruct (drop_held_used 3 (ls_refs p.2) (ls_bytes p.2) q level
    (foldr (λ p w, drop_lease p.2 w) w l) Hq Hle) as [Hd Hd']; [unfold lease_amount in *; lia|].
  unfold drop_lease at 1 3. rewrite Hd, Hd', bool_decide_true by lia. split; [unfold lease_amount in *; lia|done].
Qed.

Lemma exact_clear_leases w : exact w → exact (clear_leases w).
Proof.
  intros Hw. pose proof (clear_leases_aside w) as Ha.
  assert (Forall (λ p, fair (lease_amount p.2)) (map_to_list (w_leases w))) as Hf.
  { apply Forall_forall. intros [x l] Hx%elem_of_map_to_list. by eapply x_leases. }
  assert (w_leases (clear_leases w) = ∅) as He.
  { unfold clear_leases. induction (map_to_list (w_leases w)) as [|p l IH]; [done|]. simpl.
    apply IH. by apply Forall_cons_1 in Hf as [_ ?]. }
  apply (exact_shift w _ (λ q _, - map_sum (q ∘ lease_amount) (w_leases w))); [done| | | |].
  - intros q level Hq Hle. destruct (in_use_parts q level w Hq Hw) as (H1 & H2 & H3).
    pose proof (x_limit _ Hw q level Hq Hle) as Hx. pose proof (x_used _ Hw q level Hq Hle) as Hu.
    destruct (drop_leases_used q level (map_to_list (w_leases w))
      (map_sum (q ∘ held_at level) (w_tasks w) + sum_by (q ∘ other_at level) (w_others w))
      (set_leases ∅ w) Hq Hle Hf) as [Hu' Hl']; [lia| |].
    { rewrite level_set_leases, Hu. unfold in_use. rewrite map_sum_list. unfold compose in *. lia. }
    fold (clear_leases w) in Hu', Hl'. rewrite Hu', Hl', level_set_leases. unfold in_use in *.
    rewrite (a_tasks _ _ Ha), (a_others _ _ Ha), He, map_sum_empty. split_and!; lia.
  - rewrite He. intros x l. by rewrite lookup_empty.
  - rewrite (a_tasks _ _ Ha). apply Hw.
  - rewrite (a_others _ _ Ha). apply Hw.
Qed.

Lemma exact_close w : exact w → exact (close w).
Proof.
  intros Hw. unfold close. destruct (w_closed w); [done|]. apply exact_clear_leases.
  assert (∀ level, level_budget level (cancel_tokens (set_closed true w)) = level_budget level w) as Hb
    by (by intros [|[|[|level]]]).
  apply (exact_shift w _ (λ _ _, 0)); [done| |apply Hw| |apply Hw].
  - intros q level Hq Hle. rewrite Hb. pose proof (x_limit _ Hw q level Hq Hle). split_and!; [lia| |done].
    unfold in_use. simpl. rewrite map_sum_imap; [lia|]. by intros n t.
  - intros n t. simpl. rewrite map_lookup_imap. destruct (w_tasks w !! n) as [t0|] eqn:Ht; [|done].
    intros [= <-]. apply (x_tasks _ Hw n t0 Ht).
Qed.

Lemma exact_write s r o w : exact w → exact (write s r o w).2.
Proof.
  intros Hw. unfold write. destruct (sv_encode s r); [|by apply exact_remove_lease].
  destruct (w_writer w); simpl; [|by apply exact_remove_lease].
  destruct o; simpl; [|apply exact_remove_lease]; by eapply exact_fields; [..|exact Hw].
Qed.

Lemma task_in_use n t q level w :
  counts q → exact w → w_tasks w !! n = Some t → (1 ≤ level ≤ 3)%nat →
  q (held_at level t) ≤ q (used (level_budget level w)).
Proof.
  intros Hq Hw Ht Hle. rewrite (x_used _ Hw) by done. destruct (in_use_parts q level w Hq Hw) as (H1 & _ & H3).
  unfold in_use. rewrite <- (insert_delete_id (w_tasks w) n t) by done.
  rewrite map_sum_insert by apply lookup_delete_eq.
  assert (0 ≤ map_sum (q ∘ held_at level) (delete n (w_tasks w))).
  { apply map_sum_nonneg. intros y m [_ Hm]%lookup_delete_Some. apply fair_counts; [done|].
    apply fair_held. by eapply x_tasks. }
  unfold compose in *. lia.
Qed.

Lemma held_at_stage level t k r refs bytes :
  held_at level (at_stage t (TAcquire k r refs bytes)) = if bool_decide (level ≤ k)%nat then (refs, bytes) else (0, 0).
Proof. done. Qed.

Lemma fair_stage w n t k r refs bytes :
  exact w → w_tasks w !! n = Some t → tk_at t = TAcquire k r refs bytes → fair (refs, bytes).
Proof. intros Hw Ht Ha. pose proof (x_tasks _ Hw n t Ht) as Hf. unfold held_at in Hf. by rewrite Ha in Hf. Qed.

Lemma exact_acquire n t k r refs bytes b w v :
  exact w → w_tasks w !! n = Some t → tk_at t = TAcquire k r refs bytes →
  try_acquire refs bytes (level_budget (S k) w) = Some b →
  w_tasks v = <[n := at_stage t (TAcquire (S k) r refs bytes)]> (w_tasks w) →
  w_leases v = w_leases w → w_others v = w_others w →
  (∀ level, (1 ≤ level ≤ 3)%nat → level_budget level v = if bool_decide (level = S k) then b else level_budget level w) →
  exact v.
Proof.
  intros Hw Ht Ha Hb Hv Hl Ho Hbud. pose proof (fair_stage _ _ _ _ _ _ _ Hw Ht Ha) as Hf.
  apply (exact_shift w v (λ q level, if bool_decide (level = S k) then q (refs, bytes) else 0)); [done| | | |].
  - intros q level Hq Hle. rewrite Hbud by done.
    rewrite (in_use_task q level n t (at_stage t (TAcquire (S k) r refs bytes)) w v) by done.
    rewrite held_at_stage. unfold held_at. rewrite Ha.
    pose proof (x_limit _ Hw q level Hq Hle) as Hli. case_bool_decide as Hk.
    + subst level. destruct (try_acquire_used _ _ _ _ q Hb Hq) as (He & Hx & _). rewrite He.
      rewrite (bool_decide_false (S k ≤ k)%nat), (bool_decide_true (S k ≤ S k)%nat) by lia. split_and!; [done| |].
      * destruct Hq as [-> | ->]; simpl; lia.
      * lia.
    + rewrite (bool_decide_ext (level ≤ S k)%nat (level ≤ k)%nat) by lia. split_and!; lia.
  - rewrite Hl. apply Hw.
  - rewrite Hv. by apply fair_tasks_insert.
  - rewrite Ho. apply Hw.
Qed.

Lemma exact_reject n t k r refs bytes a w :
  exact w → w_tasks w !! n = Some t → tk_at t = TAcquire k r refs bytes → idle a → fair (held_at 0 (at_stage t a)) →
  exact (task_to n a (drop_held k refs bytes w)).
Proof.
  intros Hw Ht Ha Hi Hf.
  apply (exact_shift w _ (λ q level, - if bool_decide (level ≤ k)%nat then q (refs, bytes) else 0)); [done| |apply Hw| |apply Hw].
  - intros q level Hq Hle.
    rewrite (in_use_task q level n t (at_stage t a) w _ Ht
      (task_to_insert n a t (drop_held k refs bytes w) Ht) eq_refl eq_refl).
    rewrite (idle_held level (at_stage t a)) by (done || lia).
    pose proof (task_in_use n t q level w Hq Hw Ht Hle) as Hin. unfold held_at in *. rewrite Ha in *.
    pose proof (x_limit _ Hw q level Hq Hle). pose proof (fair_stage _ _ _ _ _ _ _ Hw Ht Ha) as Hfa.
    pose proof (fair_counts q _ Hq Hfa).
    destruct (drop_held_used k refs bytes q level w Hq Hle) as [Hu Hli].
    { intros Hk. by rewrite bool_decide_true in Hin. }
    assert (level_budget level (task_to n a (drop_held k refs bytes w)) = level_budget level (drop_held k refs bytes w))
      as -> by (by destruct level as [|[|[|level]]]).
    rewrite Hu, Hli. assert (q (0, 0) = 0) by (by destruct Hq as [-> | ->]).
    case_bool_decide; (split_and!; lia).
  - rewrite (task_to_insert _ _ t) by done. exact (fair_tasks_insert w n _ Hw Hf).
Qed.

Lemma exact_track n t r refs bytes ok w :
  exact w → w_tasks w !! n = Some t → tk_at t = TAcquire 3 r refs bytes → exact (track n r refs bytes ok w).
Proof.
  intros Hw Ht Ha. unfold track. destruct ok; [|by eapply exact_reject].
  pose proof (exact_remove_lease (rp_request_id r) w Hw) as Hv.
  pose proof (fair_stage _ _ _ _ _ _ _ Hw Ht Ha) as Hf.
  pose proof (a_tasks _ _ (remove_lease_aside (rp_request_id r) w)) as Hts.
  assert (w_leases (remove_lease (rp_request_id r) w) !! rp_request_id r = None) as Hn.
  { unfold remove_lease. destruct (w_leases w !! rp_request_id r) eqn:Hl; [|done]. simpl. apply lookup_delete_eq. }
  set (v := remove_lease (rp_request_id r) w) in *. rewrite <- Hts in Ht. clearbody v.
  set (a := TAnswer (with_blobs r)).
  apply (exact_shift v _ (λ _ _, 0)); [done| | | |apply Hv].
  - intros q level Hq Hle.
    assert (level_budget level (task_to n a (set_leases (<[rp_request_id r := Lease refs bytes]> (w_leases v)) v))
            = level_budget level v) as -> by (by destruct level as [|[|[|level]]]).
    pose proof (x_limit _ Hv q level Hq Hle). split_and!; [lia| |done]. unfold in_use.
    rewrite (task_to_insert _ _ t) by done. rewrite (map_sum_replace _ _ _ t) by done. simpl.
    rewrite map_sum_insert by done. unfold compose.
    rewrite (idle_held level (at_stage t a)) by (done || lia). unfold held_at, lease_amount. rewrite Ha.
    rewrite bool_decide_true by lia. destruct Hq as [-> | ->]; simpl; lia.
  - simpl. intros x l [[_ <-]|[_ ?]]%lookup_insert_Some; [done|]. by eapply x_leases.
  - rewrite (task_to_insert _ _ t) by done. by apply (fair_tasks_insert v).
Qed.

Lemma unique_blobs_nonneg owners unique bytes us y :
  0 ≤ bytes → unique_blobs owners unique bytes = Some (us, y) → 0 ≤ y.
Proof.
  revert unique bytes. induction owners as [|o owners IH]; intros unique bytes Hb; simpl; [by intros [= _ <-]|].
  case_match; [by apply IH|]. unfold checked_add. case_match; [|done]. cbn [mbind option_bind].
  apply IH. unfold mapped_len, HEADER_BYTES, USIZE_MAX in *. lia.
Qed.

Lemma admit_blobs_idle s r owners t :
  idle (admit_blobs s r owners) ∧ fair (held_at 0 (at_stage t (admit_blobs s r owners))).
Proof.
  unfold admit_blobs. destruct (unique_blobs owners [] 0) as [[us y]|] eqn:Hu; [|done].
  apply unique_blobs_nonneg in Hu; [|done]. destruct us as [|b us]; [done|].
  case_match; [done|]. case_match; [done|]. split; [done|]. split; simpl; [apply len_nonneg|done].
Qed.

Lemma exact_new_task n t w v :
  exact w → w_tasks w !! n = None → idle (tk_at t) → fair (held_at 0 t) → w_tasks v = <[n := t]> (w_tasks w) →
  w_leases v = w_leases w → w_others v = w_others w → (∀ level, level_budget level v = level_budget level w) → exact v.
Proof.
  intros Hw Hn Hi Hf Hv Hl Ho Hb. apply (exact_shift w v (λ _ _, 0)); [done| | | |].
  - intros q level Hq Hle. rewrite Hb. pose proof (x_limit _ Hw q level Hq Hle). split_and!; [lia| |done].
    unfold in_use. rewrite Hv, Hl, Ho, map_sum_insert by done. unfold compose. rewrite idle_held by (done || lia).
    destruct Hq as [-> | ->]; simpl; lia.
  - rewrite Hl. apply Hw.
  - rewrite Hv. by apply fair_tasks_insert.
  - rewrite Ho. apply Hw.
Qed.

Lemma exact_gone n t w : exact w → w_tasks w !! n = Some t → idle (tk_at t) → exact (set_tasks (delete n (w_tasks w)) w).
Proof.
  intros Hw Ht Hi. apply (exact_shift w _ (λ _ _, 0)); [done| |apply Hw| |apply Hw].
  - intros q level Hq Hle.
    assert (level_budget level (set_tasks (delete n (w_tasks w)) w) = level_budget level w) as ->
      by (by destruct level as [|[|[|level]]]).
    pose proof (x_limit _ Hw q level Hq Hle). split_and!; [lia| |done].
    unfold in_use. simpl. rewrite (map_sum_delete _ _ _ t) by done. unfold compose. rewrite idle_held by (done || lia).
    destruct Hq as [-> | ->]; simpl; lia.
  - simpl. intros m t' [_ ?]%lookup_delete_Some. by eapply x_tasks.
Qed.

Ltac same_blobs Hw := eapply exact_fields; [..|exact Hw]; done.

Lemma exact_loop_step s w e v : exact w → loop_step s w e = Some v → exact v.
Proof.
  intros Hw. assert (∀ l u, exact u → exact (set_loop l u)) as Hset by (intros l u Hu; same_blobs Hu).
  unfold loop_step. destruct e, (w_loop w) eqn:Hl; try done; try (intros [= <-]; by apply Hset).
  - intros [= <-]. unfold decide_frame. repeat case_match; apply Hset; try done. by apply exact_remove_lease.
  - intros [= <-]. case_bool_decide; apply Hset; [done|same_blobs Hw].
  - intros [= <-]. destruct (w_admission w) as [a|]; [destruct (try_acquire_many 1 a)|]; apply Hset; try done. same_blobs Hw.
  - intros [= <-]. apply Hset. same_blobs Hw.
  - case_bool_decide as Hn; [done|]. apply eq_None_not_Some in Hn. intros [= <-]. apply Hset.
    by apply (exact_new_task n (Task rq TSpawned permit false) w).
  - intros [= <-]. by apply Hset, exact_write.
  - intros [= <-]. by apply Hset, exact_close.
  - intros [= <-]. apply Hset. same_blobs Hw.
  - case_bool_decide; [|done]. intros [= <-]. by apply Hset, exact_clear_leases.
  - destruct (w_tasks w !! n) as [t|] eqn:Ht; [|done]. cbn [mbind option_bind].
    destruct (tk_at t) eqn:Hat; try done; intros [= <-]; [|apply exact_close]; (eapply exact_gone; [done..|by rewrite Hat]).
  - destruct (w_tasks w !! n) as [t|] eqn:Ht; [|done]. cbn [mbind option_bind].
    destruct (tk_at t) eqn:Hat; try done; intros [= <-]; apply Hset; [|apply exact_close];
      (eapply exact_gone; [done..|by rewrite Hat]).
  - destruct (w_tasks w !! n) as [t|] eqn:Ht; [|done]. cbn [mbind option_bind].
    destruct (tk_at t) eqn:Hat; try done; intros [= <-]; (eapply exact_gone; [done..|by rewrite Hat]).
Qed.

Lemma exact_advance n t a w v :
  exact w → w_tasks w !! n = Some t → idle (tk_at t) → idle a → fair (held_at 0 (at_stage t a)) →
  w_tasks v = w_tasks w → w_leases v = w_leases w → w_others v = w_others w →
  (∀ level, level_budget level v = level_budget level w) → exact (task_to n a v).
Proof.
  intros Hw Ht Hi Hi' Hf Hts Hl Ho Hb. eapply (exact_idle n t (at_stage t a) w); [done..| | | | | | |].
  - rewrite (task_to_insert _ _ t) by congruence. by rewrite Hts.
  - done.
  - done.
  - done.
  - done.
  - done.
  - intros level. rewrite <- Hb. by destruct level as [|[|[|level]]].
Qed.

Lemma exact_task_step s w n t e v :
  exact w → w_tasks w !! n = Some t → task_step s w n t e = Some v → exact v.
Proof.
  intros Hw Ht. unfold task_step. destruct e, (tk_at t) eqn:Hat; try done; intros H;
    try (assert (idle (tk_at t)) as Hi by (by rewrite Hat)).
  - injection H as <-. eapply exact_advance; [done..| |]; [done|]. by intros [|[|[|level]]].
  - injection H as <-. destruct (admit_blobs_idle s (reply_of (rid t) r) (rs_blob_owners r) t).
    by eapply exact_advance.
  - injection H as <-. eapply (exact_idle n); [exact Hw|done..|]. by intros [|[|[|level]]].
  - unfold acquire_next in H. destruct held as [|[|[|k]]]; try done; cbn [level_budget] in *.
    + destruct (try_acquire refs bytes (w_process_blobs w)) as [b|] eqn:Hb; injection H as <-.
      * eapply exact_acquire; [done..| | | |]; [exact (task_to_insert n _ t (set_blobs _ _ _ w) Ht)|done|done|].
        intros level Hle. by destruct level as [|[|[|[|level]]]]; try lia.
      * eapply exact_advance; [done|done| |done..]. by rewrite Hat.
    + destruct (try_acquire refs bytes (w_server_blobs w)) as [b|] eqn:Hb; injection H as <-; [|by eapply exact_reject].
      eapply exact_acquire; [done..| | | |]; [exact (task_to_insert n _ t (set_blobs _ _ _ w) Ht)|done|done|].
      intros level Hle. by destruct level as [|[|[|[|level]]]]; try lia.
    + destruct (try_acquire refs bytes (w_conn_blobs w)) as [b|] eqn:Hb; injection H as <-; [|by eapply exact_reject].
      eapply exact_acquire; [done..| | | |]; [exact (task_to_insert n _ t (set_blobs _ _ _ w) Ht)|done|done|].
      intros level Hle. by destruct level as [|[|[|[|level]]]]; try lia.
  - destruct held as [|[|[|[|k]]]]; try done. injection H as <-. by eapply exact_track.
  - injection H as <-. eapply (exact_idle n); [exact Hw|done..|]. by intros [|[|[|level]]].
  - pose proof (exact_write s r o w Hw) as Hx. pose proof (a_tasks _ _ (write_aside s r o w)) as Hts.
    destruct (write s r o w) as [ok w1]. injection H as <-. simpl in *.
    eapply exact_advance; [exact Hx|by rewrite Hts|done|by destruct ok|by destruct ok|done..].
  - injection H as <-. pose proof (exact_close w Hw) as Hx.
    destruct (w_tasks (close w) !! n) as [t'|] eqn:Ht'.
    + assert (idle (tk_at t')) as Hi'.
      { unfold close in Ht'. destruct (w_closed w); [congruence|].
        rewrite (a_tasks _ _ (clear_leases_aside _)) in Ht'. simpl in Ht'. rewrite map_lookup_imap, Ht in Ht'.
        injection Ht' as <-. done. }
      by eapply exact_advance.
    + unfold task_to. rewrite alter_id by naive_solver. same_blobs Hx.
  - injection H as <-. eapply exact_advance; [done..|]. by intros [|[|[|level]]].
  - injection H as <-. eapply exact_advance; [done..|]. by intros [|[|[|level]]].
Qed.

Lemma exact_others_take at_server refs bytes p b w :
  exact w → fair (refs, bytes) → try_acquire refs bytes (w_process_blobs w) = Some p →
  (if at_server : bool then try_acquire refs bytes (w_server_blobs w) = Some b else b = w_server_blobs w) →
  exact (set_others ((at_server, refs, bytes) :: w_others w) (set_blobs p b (w_conn_blobs w) w)).
Proof.
  intros Hw Hf Hp Hb.
  apply (exact_shift w _ (λ q level, q (other_at level (at_server, refs, bytes)))); [done| |apply Hw|apply Hw|].
  - intros q level Hq Hle. pose proof (x_limit _ Hw q level Hq Hle).
    assert (q (0, 0) = 0) by (by destruct Hq as [-> | ->]).
    split; [|split; [unfold in_use; simpl; unfold compose; lia|]];
      destruct level as [|[|[|[|level]]]]; try lia; unfold other_at; simpl in *; destruct at_server; simpl;
      rewrite ?Hb; try lia; repeat case_bool_decide; try lia;
      try (by destruct (try_acquire_used _ _ _ _ q Hp Hq) as (? & ? & _));
      try (by destruct (try_acquire_used _ _ _ _ q Hb Hq) as (? & ? & _)).
  - simpl. intros o [->|Ho]%elem_of_cons; [done|]. by apply (x_others _ Hw).
Qed.

Lemma exact_others_drop i at_server refs bytes w :
  exact w → w_others w !! i = Some (at_server, refs, bytes) →
  exact (set_others (delete i (w_others w)) (drop_held (if at_server : bool then 2 else 1) refs bytes w)).
Proof.
  intros Hw Hi. pose proof (delete_Permutation _ _ _ Hi) as Hp.
  assert (fair (refs, bytes)) as Hf by (apply (x_others _ Hw (at_server, refs, bytes)); by eapply list_elem_of_lookup_2).
  apply (exact_shift w _ (λ q level, - q (other_at level (at_server, refs, bytes)))); [done| |apply Hw|apply Hw|].
  - intros q level Hq Hle. pose proof (x_limit _ Hw q level Hq Hle). pose proof (fair_counts q _ Hq Hf).
    assert (q (0, 0) = 0) by (by destruct Hq as [-> | ->]).
    destruct (in_use_parts q level w Hq Hw) as (Hp1 & Hp2 & _).
    assert (0 ≤ sum_by (q ∘ other_at level) (delete i (w_others w))) as Hp3.
    { apply sum_by_nonneg, Forall_forall. intros o Ho. apply fair_counts; [done|]. apply fair_other, (x_others _ Hw).
      rewrite Hp. by right. }
    pose proof (x_used _ Hw q level Hq Hle) as Hu. unfold in_use in Hu. rewrite (sum_by_perm _ _ _ Hp) in Hu. simpl in Hu.
    set (k := (if at_server then 2 else 1)%nat).
    assert (q (other_at level (at_server, refs, bytes)) = if bool_decide (level ≤ k)%nat then q (refs, bytes) else 0) as Ho
      by (unfold other_at, k; simpl; by case_bool_decide).
    unfold compose in *. rewrite Ho in *.
    destruct (drop_held_used k refs bytes q level w Hq Hle) as [Hd Hli].
    { intros Hk. rewrite bool_decide_true in Hu by done. lia. }
    assert (level_budget level (set_others (delete i (w_others w)) (drop_held k refs bytes w))
            = level_budget level (drop_held k refs bytes w)) as -> by (by destruct level as [|[|[|level]]]).
    rewrite Hd, Hli. split_and!; [lia| |case_bool_decide; lia].
    unfold in_use. simpl. rewrite (sum_by_perm _ (w_others w) _ Hp). simpl. rewrite Ho. lia.
  - simpl. intros o Ho. apply (x_others _ Hw). rewrite Hp. by right.
Qed.

Lemma exact_others_step w e v : exact w → others_step w e = Some v → exact v.
Proof.
  intros Hw. destruct e; try done; cbn [others_step].
  - intros [= <-]. same_blobs Hw.
  - intros [= <-]. same_blobs Hw.
  - destruct (try_acquire refs bytes (w_process_blobs w)) as [p|] eqn:Hp; [|done]. cbn [mbind option_bind].
    destruct (if at_server then _ else _) as [b|] eqn:Hb; [|done]. cbn [mbind option_bind].
    destruct (Z.leb_spec 0 refs), (Z.leb_spec 0 bytes); simpl; try done. intros [= <-].
    apply exact_others_take; [done..|]. destruct at_server; [done|]. by injection Hb.
  - destruct (w_others w !! i) as [[[b r] y]|] eqn:Hi; [|done]. intros [= <-]. by apply exact_others_drop.
  - destruct (take_flight (w_admission w)); [|done]. intros [= <-]. same_blobs Hw.
  - case_match; [|done]. intros [= <-]. same_blobs Hw.
Qed.

Lemma exact_step s w e v : exact w → step s w e = Some v → exact v.
Proof.
  intros Hw. destruct e; cbn [step]; try (by apply exact_loop_step); try (by apply exact_others_step);
    (destruct (w_tasks w !! n) as [t|] eqn:Ht; [|done]; cbn [mbind option_bind]; by apply exact_task_step).
Qed.

Lemma exact_run s es w v : exact w → run s w es = Some v → exact v.
Proof.
  revert w. induction es as [|e es IH]; intros w Hs; simpl; [by intros [= <-]|].
  destruct (step s w e) as [u|] eqn:Hu; [|done]. simpl. apply IH. by eapply exact_step.
Qed.

Lemma exact_new mc owned c v p :
  fair c → fair v → fair p → exact (new_world mc owned c v p).
Proof.
  intros [] [] []. split.
  - intros q level [-> | ->] Hle; by destruct level as [|[|[|[|level]]]]; try lia.
  - intros q level [-> | ->] Hle; by destruct level as [|[|[|[|level]]]]; try lia.
  - intros x l. simpl. by rewrite lookup_empty.
  - intros n t. simpl. by rewrite lookup_empty.
  - simpl. intros o []%not_elem_of_nil.
Qed.

(** *** The limits, and the end of the connection *)

Definition limits (w : world) : amount * amount * amount :=
  (limit (w_process_blobs w), limit (w_server_blobs w), limit (w_conn_blobs w)).

Lemma try_acquire_limit refs bytes b b' : try_acquire refs bytes b = Some b' → limit b' = limit b.
Proof. intros H. by destruct (try_acquire_used _ _ _ _ fst H (or_introl eq_refl)) as (_ & _ & ?). Qed.

Lemma drop_held_limits k refs bytes w : limits (drop_held k refs bytes w) = limits w.
Proof. unfold limits, drop_held. simpl. by repeat case_bool_decide. Qed.

Lemma remove_lease_limits x w : limits (remove_lease x w) = limits w.
Proof. unfold remove_lease. by case_match. Qed.

Lemma clear_leases_limits w : limits (clear_leases w) = limits w.
Proof. unfold clear_leases. by induction (map_to_list (w_leases w)). Qed.

Lemma close_limits w : limits (close w) = limits w.
Proof. unfold close. case_match; [done|]. by rewrite clear_leases_limits. Qed.

Lemma write_limits s r o w : limits (write s r o w).2 = limits w.
Proof. unfold write. repeat case_match; simpl; by rewrite ?remove_lease_limits. Qed.

Lemma acquire_next_limits n k r refs bytes w v : acquire_next n k r refs bytes w = Some v → limits v = limits w.
Proof.
  unfold acquire_next. destruct k as [|[|[|k]]]; try done; destruct (try_acquire _ _ _) eqn:Hb; intros [= <-];
    try (by rewrite <- (drop_held_limits 1 refs bytes w)); try (by rewrite <- (drop_held_limits 2 refs bytes w)); try done;
    unfold limits; simpl; by rewrite (try_acquire_limit _ _ _ _ Hb).
Qed.

Lemma limits_loop_step s w e v : loop_step s w e = Some v → limits v = limits w.
Proof.
  intros H. unfold loop_step in H.
  destruct e, (w_loop w); try done; try (injection H as <-; done).
  - injection H as <-. unfold decide_frame. repeat case_match; try done. etrans; [apply remove_lease_limits|done].
  - injection H as <-. by case_bool_decide.
  - injection H as <-. by repeat case_match.
  - case_bool_decide; [done|]. by injection H as <-.
  - injection H as <-. etrans; [apply write_limits|done].
  - injection H as <-. etrans; [apply close_limits|done].
  - case_bool_decide; [|done]. injection H as <-. etrans; [apply clear_leases_limits|done].
  - destruct (w_tasks w !! n) as [t|]; [|done]. cbn [mbind option_bind] in H.
    destruct (tk_at t); try done; injection H as <-; [done|]. etrans; [apply close_limits|done].
  - destruct (w_tasks w !! n) as [t|]; [|done]. cbn [mbind option_bind] in H.
    destruct (tk_at t); try done; injection H as <-; [done|]. etrans; [apply close_limits|done].
  - destruct (w_tasks w !! n) as [t|]; [|done]. cbn [mbind option_bind] in H. by destruct (tk_at t); try done; injection H as <-.
Qed.

Lemma limits_task_step s w n t e v : task_step s w n t e = Some v → limits v = limits w.
Proof.
  unfold task_step. destruct e, (tk_at t); try done; intros H.
  - by injection H as <-.
  - by injection H as <-.
  - by injection H as <-.
  - by eapply acquire_next_limits.
  - destruct held as [|[|[|[|k]]]]; try done. injection H as <-. unfold track. destruct ok.
    + etrans; [apply remove_lease_limits|done].
    + etrans; [apply (drop_held_limits 3)|done].
  - by injection H as <-.
  - pose proof (write_limits s r o w) as Hw. destruct (write s r o w) as [ok u]. by injection H as <-.
  - injection H as <-. etrans; [apply close_limits|done].
  - by injection H as <-.
  - by injection H as <-.
Qed.

Lemma limits_others_step w e v : others_step w e = Some v → limits v = limits w.
Proof.
  destruct e; try done; cbn [others_step].
  - by intros [= <-].
  - by intros [= <-].
  - destruct (try_acquire refs bytes (w_process_blobs w)) as [p|] eqn:Hp; [|done]. cbn [mbind option_bind].
    destruct (if at_server then _ else _) as [b|] eqn:Hb; [|done]. cbn [mbind option_bind].
    assert (limit b = limit (w_server_blobs w)) as Hs.
    { destruct at_server; [by eapply try_acquire_limit|congruence]. }
    destruct ((0 <=? refs) && (0 <=? bytes)); [|done]. intros [= <-]. unfold limits. simpl.
    by rewrite (try_acquire_limit _ _ _ _ Hp), Hs.
  - destruct (w_others w !! i) as [[[b r] y]|]; [|done]. intros [= <-]. apply (drop_held_limits (if b then 2 else 1)).
  - destruct (take_flight (w_admission w)); [|done]. by intros [= <-].
  - case_match; [|done]. by intros [= <-].
Qed.

(** A connection that has been dropped holds nothing. *)
Definition ended (w : world) : Prop := w_loop w = LFinished → w_leases w = ∅ ∧ w_tasks w = ∅.

Lemma clear_leases_empty w : w_leases (clear_leases w) = ∅.
Proof. unfold clear_leases. induction (map_to_list (w_leases w)) as [|p l IH]; [done|]. exact IH. Qed.

Lemma ended_loop_step s w e v : loop_step s w e = Some v → ended v.
Proof.
  intros H Hv. unfold loop_step in H.
  destruct e, (w_loop w) eqn:Hl; try done; try (injection H as <-; done);
    try (destruct (w_tasks w !! n) as [t|]; [|done]; cbn [mbind option_bind] in H;
         destruct (tk_at t); try done; injection H as <-; simpl in Hv; try congruence;
         rewrite (proj1 (close_frame _)) in Hv; simpl in Hv; congruence).
  - injection H as <-. simpl in Hv. by destruct (w_server_closed w || w_closed w).
  - injection H as <-. unfold decide_frame in Hv. by repeat case_match.
  - injection H as <-. simpl in Hv. by case_bool_decide.
  - injection H as <-. simpl in Hv. by repeat case_match.
  - injection H as <-. by case_bool_decide.
  - injection H as <-. by repeat case_match.
  - case_bool_decide; [done|]. by injection H as <-.
  - injection H as <-. simpl in Hv. by destruct leave.
  - case_bool_decide as Ht; [|done]. injection H as <-. simpl. split; [apply clear_leases_empty|].
    by rewrite (a_tasks _ _ (clear_leases_aside w)).
Qed.

Lemma others_step_kept w e v :
  others_step w e = Some v → w_loop v = w_loop w ∧ w_leases v = w_leases w ∧ w_tasks v = w_tasks w.
Proof.
  destruct e; try done; cbn [others_step].
  - by intros [= <-].
  - by intros [= <-].
  - destruct (try_acquire refs bytes (w_process_blobs w)); [|done]. cbn [mbind option_bind].
    destruct (if at_server then _ else _); [|done]. cbn [mbind option_bind].
    destruct ((0 <=? refs) && (0 <=? bytes)); [|done]. by intros [= <-].
  - destruct (w_others w !! i) as [[[b r] y]|]; [|done]. by intros [= <-].
  - destruct (take_flight (w_admission w)); [|done]. by intros [= <-].
  - case_match; [|done]. by intros [= <-].
Qed.

Lemma task_step_loop s w n t e v : task_step s w n t e = Some v → w_loop v = w_loop w.
Proof.
  unfold task_step. destruct e, (tk_at t); try done; intros H; try (by injection H as <-).
  - unfold acquire_next in H. by destruct held as [|[|[|k]]]; try done; destruct (try_acquire _ _ _); injection H as <-.
  - destruct held as [|[|[|[|k]]]]; try done. injection H as <-. unfold track. destruct ok; [|done].
    apply (a_loop _ _ (remove_lease_aside _ _)).
  - pose proof (a_loop _ _ (write_aside s r o w)) as Hw. destruct (write s r o w) as [ok u]. by injection H as <-.
  - injection H as <-. apply close_frame.
Qed.

Lemma ended_step s w e v : ended w → step s w e = Some v → ended v.
Proof.
  intros Hw. destruct e; cbn [step]; try (by apply ended_loop_step);
    try (intros (Hl & Hs & Ht)%others_step_kept; unfold ended; by rewrite Hl, Hs, Ht);
    (destruct (w_tasks w !! n) as [t|] eqn:Ht; [|done]; cbn [mbind option_bind];
     intros H%task_step_loop Hv; rewrite H in Hv; destruct (Hw Hv) as [_ He]; by rewrite He in Ht).
Qed.

Lemma limits_step s w e v : step s w e = Some v → limits v = limits w.
Proof.
  destruct e; cbn [step]; try (by apply limits_loop_step); try (by apply limits_others_step);
    (destruct (w_tasks w !! n) as [t|]; [|done]; cbn [mbind option_bind]; by apply limits_task_step).
Qed.

Lemma ended_run s es w v : ended w → run s w es = Some v → ended v ∧ limits v = limits w.
Proof.
  revert w. induction es as [|e es IH]; intros w Hw; simpl; [by intros [= <-]|].
  destruct (step s w e) as [u|] eqn:Hu; [|done]. simpl. rewrite <- (limits_step s w e u Hu).
  apply IH. by eapply ended_step.
Qed.

Lemma ended_new mc owned c v p : ended (new_world mc owned c v p).
Proof. done. Qed.

(** The references and bytes that others hold at a level. *)
Definition others_hold (level : nat) (w : world) : amount :=
  (sum_by (fst ∘ other_at level) (w_others w), sum_by (snd ∘ other_at level) (w_others w)).

Definition within (a b : amount) : Prop := 0 ≤ a.1 ≤ b.1 ∧ 0 ≤ a.2 ≤ b.2.

Lemma in_use_nonneg q level w : exact w → counts q → 0 ≤ in_use q level w.
Proof.
  intros [_ _ H3 H4 H5] Hq. unfold in_use.
  assert (0 ≤ map_sum (q ∘ lease_amount) (w_leases w)).
  { apply map_sum_nonneg. intros x l Hl. apply (fair_counts q _ Hq), (H3 x l Hl). }
  assert (0 ≤ map_sum (q ∘ held_at level) (w_tasks w)).
  { apply map_sum_nonneg. intros x t Ht. apply (fair_counts q _ Hq), fair_held, (H4 x t Ht). }
  assert (0 ≤ sum_by (q ∘ other_at level) (w_others w)).
  { clear H3 H4. induction (w_others w) as [|o os IH]; [done|]. simpl.
    assert (0 ≤ q (other_at level o)) by (apply (fair_counts q _ Hq), fair_other, H5; left).
    enough (0 ≤ sum_by (q ∘ other_at level) os) by (unfold compose in *; lia). apply IH. intros x Hx. apply H5. by right. }
  lia.
Qed.

Lemma exact_within level w : exact w → (1 ≤ level ≤ 3)%nat → within (used (level_budget level w)) (limit (level_budget level w)).
Proof.
  intros Hx Hl. pose proof Hx as [H1 H2 _ _ _]. unfold within.
  pose proof (H1 fst level (or_introl eq_refl) Hl) as Hf. pose proof (H1 snd level (or_intror eq_refl) Hl) as Hg.
  pose proof (in_use_nonneg fst level w Hx (or_introl eq_refl)). pose proof (in_use_nonneg snd level w Hx (or_intror eq_refl)).
  pose proof (H2 fst level (or_introl eq_refl) Hl). pose proof (H2 snd level (or_intror eq_refl) Hl). lia.
Qed.

(** C24: at every level and at every moment the budget counts exactly what the
    replies that wait for an acknowledgement, the requests being admitted and
    the other connections hold, and stays within its limit; and once the
    connection is dropped it holds nothing: what is counted is what the others
    hold. *)
Theorem blob_budgets_exact s mc owned c v p es w :
  fair c → fair v → fair p → run s (new_world mc owned c v p) es = Some w →
  (∀ level, (1 ≤ level ≤ 3)%nat → used (level_budget level w) = (in_use fst level w, in_use snd level w)) ∧
  within (used (w_process_blobs w)) p ∧ within (used (w_server_blobs w)) v ∧ within (used (w_conn_blobs w)) c ∧
  (w_loop w = LFinished → ∀ level, (1 ≤ level ≤ 3)%nat → used (level_budget level w) = others_hold level w).
Proof.
  intros Hc Hv Hp Hr.
  assert (exact w) as Hx. { eapply exact_run; [|exact Hr]. by apply exact_new. }
  assert (∀ level, (1 ≤ level ≤ 3)%nat → used (level_budget level w) = (in_use fst level w, in_use snd level w)) as Hu.
  { intros level Hl. pose proof (x_used w Hx fst level (or_introl eq_refl) Hl) as H1.
    pose proof (x_used w Hx snd level (or_intror eq_refl) Hl) as H2. by rewrite <- H1, <- H2. }
  destruct (ended_run s es _ _ (ended_new mc owned c v p) Hr) as [He Hl].
  assert (limits w = (p, v, c)) as Hlim. { rewrite Hl. by destruct p, v, c. }
  injection Hlim as Hlp Hlv Hlc.
  split_and!; [done|rewrite <- Hlp; apply (exact_within 1)|rewrite <- Hlv; apply (exact_within 2)|rewrite <- Hlc; apply (exact_within 3)|];
    try done; try lia.
  intros Hf level Hlev. rewrite Hu by done. destruct (He Hf) as [H1 H2].
  unfold in_use, others_hold. by rewrite H1, H2, !map_sum_empty.
Qed.

(** ** Flights *)

(** The service is running for the task, or its answer is being made up. *)
Definition flying (t : task) : bool :=
  match tk_at t with TRunning | TAcquire _ _ _ _ | TAnswer _ => true | _ => false end.
Definition permit_due (t : task) : bool :=
  match tk_at t with TSpawned | TRunning | TAcquire _ _ _ _ | TAnswer _ => true | _ => false end.

Definition loop_permit (w : world) : bool := match w_loop w with LSpawn _ permit => permit | _ => false end.
Definition limited (m : option Z) : bool := match m with Some _ => true | None => false end.

Record manned (m : option Z) (w : world) : Prop := Manned {
  m_permits : match m, w_admission w with
              | Some m, Some a => a + map_sum (λ t, Z.b2z (tk_permit t)) (w_tasks w) + Z.b2z (loop_permit w)
                                    + w_other_flights w = m ∧ 0 ≤ a
              | None, None => True
              | _, _ => False
              end;
  m_in_flight : ct_in_flight (w_counters w) = map_sum (λ t, Z.b2z (flying t)) (w_tasks w) + w_other_flights w;
  m_due : ∀ n t, w_tasks w !! n = Some t → tk_permit t = permit_due t && limited m;
  m_loop : match w_loop w with LSpawn _ permit => permit = limited m | _ => True end;
  m_others : 0 ≤ w_other_flights w
}.

Lemma manned_fields m w v :
  w_tasks v = w_tasks w → w_admission v = w_admission w → w_counters v = w_counters w →
  w_other_flights v = w_other_flights w → loop_permit v = loop_permit w →
  match w_loop v with LSpawn _ permit => permit = limited m | _ => True end → manned m w → manned m v.
Proof.
  intros Ht Ha Hc Ho Hp Hl [H1 H2 H3 H4 H5]. split; rewrite ?Ht, ?Ha, ?Hc, ?Ho, ?Hp; done.
Qed.

Lemma manned_aside m w v : aside v w → manned m w → manned m v.
Proof.
  intros Ha Hm. eapply manned_fields; [..|exact Hm]; try apply Ha.
  - unfold loop_permit. by rewrite (a_loop _ _ Ha).
  - rewrite (a_loop _ _ Ha). apply Hm.
Qed.

(** A task moves on; the counters and the semaphore follow. *)
Lemma manned_task m n t t' w v :
  manned m w → w_tasks w !! n = Some t → w_tasks v = <[n := t']> (w_tasks w) → w_loop v = w_loop w →
  w_other_flights v = w_other_flights w → tk_permit t' = permit_due t' && limited m →
  Z.b2z (tk_permit t') ≤ Z.b2z (tk_permit t) →
  w_admission v = (λ a, a + (Z.b2z (tk_permit t) - Z.b2z (tk_permit t'))) <$> w_admission w →
  ct_in_flight (w_counters v) = ct_in_flight (w_counters w) - Z.b2z (flying t) + Z.b2z (flying t') → manned m v.
Proof.
  intros [H1 H2 H3 H4 H5] Ht Hv Hl Ho Hd Hle Ha Hc. split; rewrite ?Hv, ?Hl, ?Ho; try done.
  - unfold loop_permit in *. rewrite Hl, Ha, (map_sum_replace _ _ _ t) by done.
    destruct m as [m|], (w_admission w) as [a|]; simpl in *; try done. lia.
  - rewrite Hc, (map_sum_replace _ _ _ t) by done. lia.
  - intros k x [[_ <-]|[_ ?]]%lookup_insert_Some; [done|]. by eapply H3.
Qed.

Lemma manned_close m w : manned m w → manned m (close w).
Proof.
  intros [H1 H2 H3 H4 H5]. unfold close. destruct (w_closed w); [by split|].
  eapply manned_aside; [apply clear_leases_aside|]. split; simpl; try done.
  - rewrite map_sum_imap; [done|]. by intros n t.
  - rewrite map_sum_imap; [done|]. by intros n t.
  - intros n t. rewrite map_lookup_imap. destruct (w_tasks w !! n) as [t0|] eqn:Ht; [|done]. intros [= <-].
    by apply (H3 n t0).
Qed.

Lemma manned_gone m n t w :
  manned m w → w_tasks w !! n = Some t → tk_at t = TDone ∨ tk_at t = TPanicked → manned m (set_tasks (delete n (w_tasks w)) w).
Proof.
  intros [H1 H2 H3 H4 H5] Ht Hat. assert (tk_permit t = false ∧ flying t = false) as [Hp Hf].
  { rewrite (H3 n t Ht). unfold permit_due, flying. by destruct Hat as [-> | ->]. }
  split; simpl; try done.
  - unfold loop_permit. simpl. rewrite (map_sum_delete _ _ _ t) by done. rewrite Hp. simpl. rewrite Z.sub_0_r. exact H1.
  - rewrite (map_sum_delete _ _ _ t) by done. rewrite Hf. simpl. lia.
  - intros k x [_ ?]%lookup_delete_Some. by eapply H3.
Qed.

(** The loop moves on with no permit in hand. *)
Lemma manned_loop m l w v :
  manned m w → loop_permit w = false → w_loop v = l → (∀ rq b, l ≠ LSpawn rq b) → w_tasks v = w_tasks w →
  w_admission v = w_admission w → ct_in_flight (w_counters v) = ct_in_flight (w_counters w) →
  w_other_flights v = w_other_flights w → manned m v.
Proof.
  intros [H1 H2 H3 H4 H5] Hp Hl Hne Ht Ha Hc Ho.
  assert (loop_permit v = false) as Hv by (unfold loop_permit; rewrite Hl; destruct l; try done; by destruct (Hne rq permit)).
  split; rewrite ?Ht, ?Ha, ?Hc, ?Ho, ?Hv; try done.
  - by rewrite Hp in H1.
  - rewrite Hl. destruct l; try done. by destruct (Hne rq permit).
Qed.

Lemma manned_acquire m rq w :
  manned m w → w_loop w = LPermit rq →
  manned m match w_admission w with
           | None => set_loop (LSpawn rq false) w
           | Some a => match try_acquire_many 1 a with
                       | Some a => set_loop (LSpawn rq true) (set_flights (Some a) (w_counters w) (w_other_flights w) w)
                       | None => set_loop (LBusy rq) w
                       end
           end.
Proof.
  intros Hm Hl. pose proof Hm as [H1 H2 H3 H4 H5]. unfold loop_permit in H1. rewrite Hl in H1.
  destruct m as [m|], (w_admission w) as [a|] eqn:Ha; try done.
  - unfold try_acquire_many. destruct (Z.leb_spec 1 a).
    + split; unfold loop_permit; simpl in *; try done. lia.
    + eapply (manned_loop _ (LBusy rq) w); try done. unfold loop_permit. by rewrite Hl.
  - split; unfold loop_permit; simpl; try done. by rewrite Ha.
Qed.

Lemma manned_spawn m n rq permit w :
  manned m w → w_loop w = LSpawn rq permit → w_tasks w !! n = None →
  manned m (set_loop LTop (set_cancellations (<[rq_request_id rq := n]> (w_cancellations w))
             (set_tasks (<[n := Task rq TSpawned permit false]> (w_tasks w)) w))).
Proof.
  intros [H1 H2 H3 H4 H5] Hl Hn. rewrite Hl in H4. split; unfold loop_permit in *; simpl; try done.
  - rewrite map_sum_insert by done. rewrite Hl in H1. simpl in *.
    destruct m as [m|], (w_admission w); try done. lia.
  - rewrite map_sum_insert by done. done.
  - intros k x [[_ <-]|[_ ?]]%lookup_insert_Some; [by rewrite H4|]. by eapply H3.
Qed.

Lemma manned_loop_step m s w e v : manned m w → loop_step s w e = Some v → manned m v.
Proof.
  intros Hm H. unfold loop_step in H.
  destruct e, (w_loop w) eqn:Hl; try done;
    try (assert (loop_permit w = false) as Hp by (unfold loop_permit; by rewrite Hl));
    try (injection H as <-; by eapply (manned_loop _ _ w)).
  - injection H as <-. eapply (manned_loop _ _ w); try done. by destruct (w_server_closed w || w_closed w).
  - injection H as <-. unfold decide_frame.
    destruct (sv_header s bytes); [|by eapply (manned_loop _ _ w)].
    destruct (sv_request s bytes) as [rq|]; [|by eapply (manned_loop _ _ w)].
    destruct (validate_request rq); simpl; [|by eapply (manned_loop _ _ w)].
    case_bool_decide; [|by eapply (manned_loop _ _ w)].
    pose proof (remove_lease_aside (rq_request_id rq) w) as Ha.
    eapply (manned_loop _ LTop w); try done; try apply Ha. simpl. by rewrite (a_counters _ _ Ha).
  - injection H as <-. eapply (manned_loop _ _ w); try done. by case_bool_decide.
  - injection H as <-. unfold check_owner. eapply (manned_loop _ _ w); try done. by repeat case_match.
  - injection H as <-. case_bool_decide; by eapply (manned_loop _ _ w).
  - injection H as <-. by apply manned_acquire.
  - case_bool_decide as Hn; [done|]. apply eq_None_not_Some in Hn. injection H as <-. by apply manned_spawn.
  - injection H as <-. pose proof (write_aside s r o w) as Ha.
    eapply (manned_loop _ _ w); [done|done|done| |apply Ha|apply Ha|by simpl; rewrite (a_counters _ _ Ha)|apply Ha].
    by destruct leave.
  - injection H as <-. eapply (manned_loop _ LClosed (close w)); try done; [by apply manned_close|].
    unfold loop_permit. destruct (close_frame w) as (-> & _). by rewrite Hl.
  - case_bool_decide; [|done]. injection H as <-. pose proof (clear_leases_aside w) as Ha.
    eapply (manned_loop _ LFinished w); try done; try apply Ha. simpl. by rewrite (a_counters _ _ Ha).
  - destruct (w_tasks w !! n) as [t|] eqn:Ht; [|done]. cbn [mbind option_bind] in H.
    destruct (tk_at t) eqn:Hat; try done; injection H as <-; [|apply manned_close]; by eapply manned_gone; eauto.
  - destruct (w_tasks w !! n) as [t|] eqn:Ht; [|done]. cbn [mbind option_bind] in H.
    destruct (tk_at t) eqn:Hat; try done; injection H as <-.
    + eapply (manned_loop _ LTop (set_tasks (delete n (w_tasks w)) w)); try done. by eapply manned_gone; eauto.
    + eapply (manned_loop _ LLeft (close (set_tasks (delete n (w_tasks w)) w))); try done.
      * apply manned_close. by eapply manned_gone; eauto.
      * unfold loop_permit. destruct (close_frame (set_tasks (delete n (w_tasks w)) w)) as (-> & _). simpl. by rewrite Hl.
  - destruct (w_tasks w !! n) as [t|] eqn:Ht; [|done]. cbn [mbind option_bind] in H.
    destruct (tk_at t) eqn:Hat; try done; injection H as <-; by eapply manned_gone; eauto.
Qed.

(** A task goes from one point to another of the same flight. *)
Lemma manned_along m n t a w v :
  manned m w → w_tasks w !! n = Some t → permit_due (at_stage t a) = permit_due t → flying (at_stage t a) = flying t →
  w_tasks v = w_tasks w → w_loop v = w_loop w → w_other_flights v = w_other_flights w →
  w_admission v = w_admission w → ct_in_flight (w_counters v) = ct_in_flight (w_counters w) → manned m (task_to n a v).
Proof.
  intros Hm Ht Hp Hf Hts Hl Ho Ha Hc. eapply (manned_task m n t (at_stage t a) w); try done.
  - rewrite (task_to_insert _ _ t) by congruence. by rewrite Hts.
  - rewrite Hp. exact (m_due _ _ Hm n t Ht).
  - simpl. rewrite Ha. destruct (w_admission w); simpl; [f_equal; lia|done].
  - simpl. rewrite Hf, Hc. lia.
Qed.

Lemma manned_landing m n t a failed w :
  manned m w → w_tasks w !! n = Some t → flying t = true →
  flying (at_stage t a) = false → permit_due (at_stage t a) = false →
  manned m (set_tasks (<[n := Task (tk_request t) a false (tk_cancelled t)]> (w_tasks w)) (flight_over failed (tk_permit t) w)).
Proof.
  intros Hm Ht Hf Hf' Hp. assert (flying (Task (tk_request t) a false (tk_cancelled t)) = false) as Hf2 by done.
  assert (permit_due (Task (tk_request t) a false (tk_cancelled t)) = false) as Hp2 by done.
  eapply (manned_task m n t _ w); try done.
  - by rewrite Hp2.
  - simpl. by destruct (tk_permit t).
  - simpl. destruct (tk_permit t); simpl; [done|]. destruct (w_admission w); simpl; [f_equal; lia|done].
  - simpl. rewrite Hf2, Hf. simpl. lia.
Qed.

Lemma manned_task_step m s w n t e v :
  manned m w → w_tasks w !! n = Some t → task_step s w n t e = Some v → manned m v.
Proof.
  intros Hm Ht. unfold task_step. destruct e, (tk_at t) eqn:Hat; try done; intros H.
  - injection H as <-. eapply (manned_task m n t (at_stage t TRunning) w); try done.
    + by rewrite (task_to_insert _ _ t).
    + simpl. rewrite (m_due _ _ Hm n t Ht). unfold permit_due. by rewrite Hat.
    + simpl. destruct (w_admission w); simpl; [f_equal; lia|done].
    + unfold flying. simpl. rewrite Hat. simpl. lia.
  - injection H as <-. eapply (manned_along m n t); try done; unfold permit_due, flying, at_stage; simpl;
      rewrite Hat; unfold admit_blobs; by repeat case_match.
  - injection H as <-. apply manned_landing; try done. unfold flying. by rewrite Hat.
  - unfold acquire_next in H. destruct held as [|[|[|k]]]; try done;
      destruct (try_acquire _ _ _); injection H as <-;
      (eapply (manned_along m n t); try done; unfold permit_due, flying, at_stage; simpl; by rewrite Hat).
  - destruct held as [|[|[|[|k]]]]; try done. injection H as <-. unfold track. destruct ok.
    + pose proof (remove_lease_aside (rp_request_id r) w) as Ha.
      eapply (manned_along m n t); try done; try apply Ha; try (unfold permit_due, flying, at_stage; simpl; by rewrite Hat).
      simpl. by rewrite (a_counters _ _ Ha).
    + eapply (manned_along m n t); try done; unfold permit_due, flying, at_stage; simpl; by rewrite Hat.
  - injection H as <-. apply manned_landing; try done. unfold flying. by rewrite Hat.
  - pose proof (write_aside s r o w) as Ha. destruct (write s r o w) as [ok w1]. injection H as <-. simpl in Ha.
    eapply (manned_along m n t); [exact Hm|done|..]; try apply Ha; try (unfold permit_due, flying, at_stage; simpl; rewrite Hat; by destruct ok).
    by rewrite (a_counters _ _ Ha).
  - injection H as <-. pose proof (manned_close m w Hm) as Hc.
    destruct (w_tasks (close w) !! n) as [t'|] eqn:Ht'.
    + assert (tk_at t' = TClose) as Hat'.
      { unfold close in Ht'. destruct (w_closed w); [congruence|].
        rewrite (a_tasks _ _ (clear_leases_aside _)) in Ht'. simpl in Ht'. rewrite map_lookup_imap, Ht in Ht'.
        injection Ht' as <-. done. }
      eapply (manned_along m n t'); try done; unfold permit_due, flying, at_stage; simpl; by rewrite Hat'.
    + unfold task_to. rewrite alter_id by naive_solver. eapply manned_fields; [..|exact Hc]; try done. apply Hc.
  - injection H as <-. eapply (manned_along m n t); try done; unfold permit_due, flying, at_stage; simpl; by rewrite Hat.
  - injection H as <-. eapply (manned_along m n t); try done; unfold permit_due, flying, at_stage; simpl; by rewrite Hat.
Qed.

Lemma manned_others_step m w e v : manned m w → others_step w e = Some v → manned m v.
Proof.
  intros Hm. pose proof Hm as [H1 H2 H3 H4 H5]. destruct e; try done; cbn [others_step].
  - intros [= <-]. by split.
  - intros [= <-]. by split.
  - destruct (try_acquire refs bytes (w_process_blobs w)); [|done]. cbn [mbind option_bind].
    destruct (if at_server then _ else _); [|done]. cbn [mbind option_bind]. destruct ((0 <=? refs) && (0 <=? bytes)); [|done].
    intros [= <-]. by split.
  - destruct (w_others w !! i) as [[[b r] y]|]; [|done]. intros [= <-]. by split.
  - unfold take_flight, loop_permit in *. destruct m as [m|], (w_admission w) as [a|] eqn:Ha; try done.
    + unfold try_acquire_many. destruct (Z.leb_spec 1 a); [|done]. intros [= <-].
      split; unfold loop_permit; simpl in *; try done; lia.
    + intros [= <-]. split; unfold loop_permit; simpl in *; try done; lia.
  - destruct (Z.leb_spec 1 (w_other_flights w)); [|done]. intros [= <-]. unfold loop_permit in *.
    split; unfold loop_permit; simpl in *; try done; try lia.
    destruct m as [m|], (w_admission w) as [a|]; simpl; try done. lia.
Qed.

Lemma manned_run m s es w v : manned m w → run s w es = Some v → manned m v.
Proof.
  revert w. induction es as [|e es IH]; intros w Hs; simpl; [by intros [= <-]|].
  destruct (step s w e) as [u|] eqn:Hu; [|done]. simpl. apply IH. revert Hu.
  destruct e; cbn [step]; try (by apply manned_loop_step); try (by apply manned_others_step);
    (destruct (w_tasks w !! n) as [t|] eqn:Ht; [|done]; cbn [mbind option_bind]; by apply manned_task_step).
Qed.

Lemma manned_new mc owned c v p : match mc with Some m => 0 ≤ m | None => True end → manned mc (new_world mc owned c v p).
Proof. intros Hm. split; simpl; try done. destruct mc; [|done]. unfold loop_permit. simpl. rewrite map_sum_empty. lia. Qed.

(** C25: never more handlers run than [max_concurrency] allows, over all the
    connections of the server, and the figure [in_flight] is exact. *)
Theorem concurrency_bounded s m owned c v p es w :
  0 ≤ m → run s (new_world (Some m) owned c v p) es = Some w →
  ct_in_flight (w_counters w) = map_sum (λ t, Z.b2z (flying t)) (w_tasks w) + w_other_flights w ∧
  0 ≤ ct_in_flight (w_counters w) ≤ m.
Proof.
  intros Hm Hr. destruct (manned_run (Some m) s es _ _ (manned_new (Some m) owned c v p Hm) Hr) as [H1 H2 H3 _ H5].
  split; [done|]. rewrite H2. destruct (w_admission w) as [a|]; [|done].
  assert (0 ≤ map_sum (λ t, Z.b2z (flying t)) (w_tasks w)).
  { apply map_sum_nonneg. intros n t _. by destruct (flying t). }
  assert (map_sum (λ t, Z.b2z (flying t)) (w_tasks w) ≤ map_sum (λ t, Z.b2z (tk_permit t)) (w_tasks w)).
  { apply map_sum_le. intros n t Ht. rewrite (H3 n t Ht). unfold flying, permit_due. by destruct (tk_at t). }
  assert (0 ≤ Z.b2z (loop_permit w)) by (by destruct (loop_permit w)). lia.
Qed.

(** One reply with blobs is out and one request is running, beside another
    connection that holds blobs and runs a handler of its own. *)
Definition busy_run : list event :=
  [OthersTake true 2 70] ++ accepts 0 (u "a") ++ answers 0 (u "x") [Blob (Some 1%nat) 8; Blob (Some 1%nat) 8; Blob None 0] ++
  [TaskWrite 0 Whole; OthersStart] ++ accepts 1 (u "b").

Lemma blob_budgets_exact_witness :
  ∃ w, run sample_server sample_world busy_run = Some w ∧
    used (w_conn_blobs w) = (2, 72) ∧ used (w_server_blobs w) = (4, 142) ∧
    used (level_budget 2 w) = (in_use fst 2 w, in_use snd 2 w) ∧ within (used (w_process_blobs w)) (10, 1000).
Proof.
  destruct (run sample_server sample_world busy_run) as [w|] eqn:Hr; [|exfalso; revert Hr; vm_compute; done].
  assert (fair (10, 1000)) as Hf by (split; simpl; lia).
  destruct (blob_budgets_exact sample_server (Some 2) None (10, 1000) (10, 1000) (10, 1000) busy_run w Hf Hf Hf Hr)
    as (H1 & H2 & _).
  exists w. split_and!; [done| | |by apply H1; lia|exact H2]; revert Hr; vm_compute; by intros [= <-].
Defined.

Lemma concurrency_bounded_witness :
  ∃ w, run sample_server sample_world busy_run = Some w ∧ ct_in_flight (w_counters w) = 2 ∧ w_other_flights w = 1 ∧
    ct_in_flight (w_counters w) ≤ 2 ∧ try_acquire_many 1 (default 0 (w_admission w)) = None.
Proof.
  destruct (run sample_server sample_world busy_run) as [w|] eqn:Hr; [|exfalso; revert Hr; vm_compute; done].
  assert (0 ≤ 2) as H0 by lia.
  destruct (concurrency_bounded sample_server 2 None (10, 1000) (10, 1000) (10, 1000) busy_run w H0 Hr) as [H1 H2].
  exists w. split_and!; [done| | |by apply H2|]; revert Hr; vm_compute; by intros [= <-].
Defined.
