(* ===== verification/ServerStream.v ===== *)
(** * What a connection of the native listener sends

    [transport/server.rs] writes the loop's refusals and the tasks' replies
    through one socket, each under the writer's lock.  As long as no write is
    cut short the peer reads exactly the encoded replies, in the order they
    were written; a request whose task is over has been answered under its own
    id unless the connection is closed.  What happens after a write was cut,
    or when the connection is closed at an awkward moment, is at the end. *)

From S2P Require Import Prelude PyStr Text Wire RpcProto Admission NativeServer.

Local Open Scope Z_scope.

(** No write is cut short. *)
Definition uncut (e : event) : bool :=
  match e with LoopWrite (Cut _) | TaskWrite _ (Cut _) => false | _ => true end.

(** The reply a task carries. *)
Definition carries (t : task) : option rpc_reply :=
  match tk_at t with TAcquire _ r _ _ | TAnswer r | TWrite r => Some r | _ => None end.

(** A task that has written its reply, or tried to. *)
Definition replied (t : task) : bool :=
  match tk_at t with TUntoken | TUnlist | TDone => true | _ => false end.

Definition has_answer (w : world) (id : pystr) : Prop := ∃ r, r ∈ w_replied w ∧ rp_request_id r = id.

Record answered (w : world) : Prop := Answered {
  n_id : ∀ n t r, w_tasks w !! n = Some t → carries t = Some r → rp_request_id r = rid t;
  n_done : ∀ n t, w_tasks w !! n = Some t → replied t = true → w_closed w = true ∨ has_answer w (rid t)
}.

(** What a step keeps of what was answered. *)
Definition onward (w v : world) : Prop :=
  (w_closed w = true → w_closed v = true) ∧ ∀ r, r ∈ w_replied w → r ∈ w_replied v.

Lemma onward_same w v : w_closed v = w_closed w → w_replied v = w_replied w → onward w v.
Proof. intros Hc Hr. split; rewrite ?Hc, ?Hr; done. Qed.

(** Every task of [v] is one of [w] in the same condition, or is [n]. *)
Lemma answered_step n w v :
  answered w → onward w v →
  (∀ m t', w_tasks v !! m = Some t' → m ≠ n →
     ∃ t, w_tasks w !! m = Some t ∧ tk_at t' = tk_at t ∧ rid t' = rid t) →
  (∀ t', w_tasks v !! n = Some t' →
     (∀ r, carries t' = Some r → rp_request_id r = rid t') ∧
     (replied t' = true → w_closed v = true ∨ has_answer v (rid t'))) →
  answered v.
Proof.
  intros [H1 H2] [Hc Hr] Hm Hn. split.
  - intros m t' r Ht' Hcar. destruct (decide (m = n)) as [->|Hne]; [by apply (Hn t')|].
    destruct (Hm m t' Ht' Hne) as (t & Ht & Ha & ->). apply (H1 m t r Ht). unfold carries in *. by rewrite <- Ha.
  - intros m t' Ht' Hrep. destruct (decide (m = n)) as [->|Hne]; [by apply (Hn t')|].
    destruct (Hm m t' Ht' Hne) as (t & Ht & Ha & ->). destruct (H2 m t Ht) as [Hcl|(r & Hr1 & Hr2)].
    + unfold replied in *. by rewrite <- Ha.
    + left. by apply Hc.
    + right. exists r. by auto.
Qed.

(** Nothing happens to the tasks. *)
Lemma answered_still w v :
  answered w → onward w v → w_tasks v = w_tasks w → answered v.
Proof.
  intros [H1 H2] [Hc Hr] Ht. split.
  - intros n t r. rewrite Ht. apply H1.
  - intros n t. rewrite Ht. intros Hn Hrep. destruct (H2 n t Hn Hrep) as [?|(r & Hr1 & Hr2)]; [by left; apply Hc|].
    right. exists r. by auto.
Qed.

(** ** What was sent *)

Definition sent (w : world) : list N * list rpc_reply := (w_out w, w_replied w).

Lemma remove_lease_sent x w : sent (remove_lease x w) = sent w.
Proof. unfold remove_lease. by case_match. Qed.

Lemma clear_leases_sent w : sent (clear_leases w) = sent w.
Proof. unfold clear_leases. by induction (map_to_list (w_leases w)). Qed.

Lemma close_sent w : sent (close w) = sent w.
Proof. unfold close. case_match; [done|]. by rewrite clear_leases_sent. Qed.

(** A write that is not cut sends the frame of the reply, or nothing. *)
Lemma write_sent s r o w :
  (∃ body, sv_encode s r = Some body ∧ (write s r Whole w).1 = true ∧ o = Whole ∧
     sent (write s r o w).2 = (w_out w ++ frame body, w_replied w ++ [r])) ∨
  (write s r o w).1 = false ∧ w_replied (write s r o w).2 = w_replied w ∧ (o = Whole → sent (write s r o w).2 = sent w).
Proof.
  unfold write. destruct (sv_encode s r) as [body|].
  - destruct (w_writer w); simpl.
    + destruct o; [left; by exists body|right]. simpl. split_and!; [done| |done].
      by injection (remove_lease_sent (rp_request_id r) (set_out (w_out w ++ take k (frame body)) (w_replied w) w)) as _ ->.
    + right. rewrite remove_lease_sent. split_and!; [done| |done]. by injection (remove_lease_sent (rp_request_id r) w) as _ ->.
  - right. simpl. rewrite remove_lease_sent. split_and!; [done| |done]. by injection (remove_lease_sent (rp_request_id r) w) as _ ->.
Qed.

Lemma write_onward s r o w : onward w (write s r o w).2.
Proof.
  split; [by rewrite (a_closed _ _ (write_aside s r o w))|]. intros x Hx.
  destruct (write_sent s r o w) as [(body & _ & _ & _ & Hs)|(_ & -> & _)]; [|done].
  injection Hs as _ ->. apply elem_of_app. by left.
Qed.

Lemma onward_aside w v : aside v w → sent v = sent w → onward w v.
Proof. intros Ha Hs. injection Hs as _ Hr. apply onward_same; [apply Ha|done]. Qed.

Lemma close_onward w : onward w (close w).
Proof. destruct (close_frame w) as (_ & _ & _ & Hc & _). injection (close_sent w) as _ Hr. split; [done|by rewrite Hr]. Qed.

(** [close] leaves every task where it is. *)
Lemma close_tasks w n t' :
  w_tasks (close w) !! n = Some t' → ∃ t, w_tasks w !! n = Some t ∧ tk_at t' = tk_at t ∧ rid t' = rid t.
Proof.
  unfold close. destruct (w_closed w); [eauto|]. rewrite (a_tasks _ _ (clear_leases_aside _)). simpl.
  rewrite map_lookup_imap. destruct (w_tasks w !! n) as [t|]; [|done]. intros [= <-]. eauto.
Qed.

Lemma answered_close w : answered w → answered (close w).
Proof.
  intros Hw. split.
  - intros n t' r (t & Ht & Ha & ->)%close_tasks Hc. apply (n_id _ Hw n t r Ht). unfold carries in *. by rewrite <- Ha.
  - intros n t' _ _. left. apply close_frame.
Qed.

Lemma answered_delete n w : answered w → answered (set_tasks (delete n (w_tasks w)) w).
Proof.
  intros [H1 H2]. split; simpl.
  - intros m t r [_ Ht]%lookup_delete_Some. by apply (H1 m).
  - intros m t [_ Ht]%lookup_delete_Some. by apply (H2 m).
Qed.

(** One task moves on; [v] is what the rest of the step made of [w]. *)
Lemma answered_move n t t' w v :
  answered w → onward w v → w_tasks v = w_tasks w → w_tasks w !! n = Some t → rid t' = rid t →
  (∀ r, carries t' = Some r → rp_request_id r = rid t) →
  (replied t' = true → replied t = true ∨ w_closed v = true ∨ has_answer v (rid t)) →
  answered (set_tasks (<[n := t']> (w_tasks v)) v).
Proof.
  intros Hw Ho Hv Ht Hid Hr Hd. eapply (answered_step n w); [done|done|..]; simpl; rewrite Hv.
  - intros m x Hx Hne. rewrite lookup_insert_ne in Hx by done. eauto.
  - intros x. rewrite lookup_insert_eq. intros [= <-]. rewrite Hid. split; [done|]. intros Hrep.
    destruct (Hd Hrep) as [Hd'|Hd']; [|done]. destruct (n_done _ Hw n t Ht Hd') as [?|(r & ? & ?)]; [left; by apply Ho|].
    right. exists r. split; [by apply Ho|done].
Qed.

Lemma answered_to n t a w v :
  answered w → onward w v → w_tasks v = w_tasks w → w_tasks w !! n = Some t →
  (∀ r, carries (at_stage t a) = Some r → rp_request_id r = rid t) →
  (replied (at_stage t a) = true → replied t = true ∨ w_closed v = true ∨ has_answer v (rid t)) →
  answered (task_to n a v).
Proof. intros Hw Ho Hv Ht Hr Hd. unfold task_to. rewrite (alter_known _ _ t) by congruence. by eapply answered_move. Qed.

Lemma answered_loop_step s w e v : answered w → loop_step s w e = Some v → answered v.
Proof.
  intros Hw H. unfold loop_step in H.
  destruct e, (w_loop w); try done; try (injection H as <-; by apply (answered_still w); [|apply onward_same|]).
  - injection H as <-. unfold decide_frame. repeat case_match; try (by apply (answered_still w); [|apply onward_same|]).
    apply (answered_still w); [done|by apply (onward_aside w (remove_lease (rq_request_id r) w)); [apply remove_lease_aside|apply remove_lease_sent]|apply remove_lease_aside].
  - injection H as <-. case_bool_decide; by apply (answered_still w); [|apply onward_same|].
  - injection H as <-. repeat case_match; by apply (answered_still w); [|apply onward_same|].
  - case_bool_decide as Hn; [done|]. injection H as <-.
    eapply (answered_step n w); [done|by apply onward_same|..]; simpl.
    + intros m x Hx Hne. rewrite lookup_insert_ne in Hx by done. eauto.
    + intros x. rewrite lookup_insert_eq. by intros [= <-].
  - injection H as <-. apply (answered_still w); [done|apply write_onward|apply (write_aside s r o w)].
  - injection H as <-. apply (answered_still (close w)); [by apply answered_close|by apply onward_same|done].
  - case_bool_decide; [|done]. injection H as <-.
    apply (answered_still w); [done|by apply (onward_aside w (clear_leases w)); [apply clear_leases_aside|apply clear_leases_sent]|apply clear_leases_aside].
  - destruct (w_tasks w !! n) as [t|]; [|done]. cbn [mbind option_bind] in H.
    destruct (tk_at t); try done; injection H as <-; [|apply answered_close]; by apply answered_delete.
  - destruct (w_tasks w !! n) as [t|]; [|done]. cbn [mbind option_bind] in H.
    destruct (tk_at t); try done; injection H as <-.
    + eapply (answered_still (set_tasks (delete n (w_tasks w)) w)); [by apply answered_delete|by apply onward_same|done].
    + eapply (answered_still (close _)); [apply answered_close; by apply (answered_delete n)|by apply onward_same|done].
  - destruct (w_tasks w !! n) as [t|]; [|done]. cbn [mbind option_bind] in H.
    destruct (tk_at t); try done; injection H as <-; by apply answered_delete.
Qed.

Lemma admit_blobs_reply s r owners x t :
  carries (at_stage t (admit_blobs s r owners)) = Some x → rp_request_id x = rp_request_id r.
Proof.
  unfold admit_blobs, carries. destruct (unique_blobs owners [] 0) as [[[|o us] y]|]; simpl; try (by intros [= <-]).
  destruct (_ <? _); [by intros [= <-]|]. destruct (_ <? _); by intros [= <-].
Qed.

Lemma admit_blobs_replied s r owners t : replied (at_stage t (admit_blobs s r owners)) = false.
Proof.
  unfold admit_blobs, replied. destruct (unique_blobs owners [] 0) as [[[|o us] y]|]; simpl; try done.
  destruct (_ <? _); [done|]. by destruct (_ <? _).
Qed.

Lemma answered_acquire n t k r refs bytes w v :
  answered w → w_tasks w !! n = Some t → tk_at t = TAcquire k r refs bytes →
  acquire_next n k r refs bytes w = Some v → answered v.
Proof.
  intros Hw Ht Hat H. pose proof (n_id _ Hw n t r Ht) as Hid. unfold carries in Hid. rewrite Hat in Hid. specialize (Hid eq_refl).
  unfold acquire_next in H. destruct k as [|[|[|k]]]; try done; destruct (try_acquire _ _ _); injection H as <-;
    (eapply (answered_to n t _ w); [done|by apply onward_same|done|done| |done]; simpl; intros x [= <-]; done).
Qed.

Lemma answered_task_step s w n t e v :
  answered w → w_tasks w !! n = Some t → task_step s w n t e = Some v → answered v.
Proof.
  intros Hw Ht. pose proof (n_id _ Hw n t) as Hid. unfold carries in Hid.
  unfold task_step. destruct e, (tk_at t) eqn:Hat; try done; intros H.
  - injection H as <-. by eapply (answered_to n t _ w); try apply onward_same.
  - injection H as <-. eapply (answered_to n t _ w); [done|by apply onward_same|done|done|..].
    + by intros x Hx%admit_blobs_reply.
    + by rewrite admit_blobs_replied.
  - injection H as <-. by eapply (answered_move n t _ w (flight_over true (tk_permit t) w)); try apply onward_same.
  - by eapply answered_acquire.
  - destruct held as [|[|[|[|k]]]]; try done. injection H as <-. specialize (Hid r Ht eq_refl). unfold track. destruct ok.
    + pose proof (remove_lease_aside (rp_request_id r) w) as Ha. pose proof (remove_lease_sent (rp_request_id r) w) as Hs.
      eapply (answered_to n t _ w); [done|exact (onward_aside w (remove_lease (rp_request_id r) w) Ha Hs)|apply Ha|done| |done]. by intros x [= <-].
    + eapply (answered_to n t _ w); [done|by apply onward_same|done|done| |done]. by intros x [= <-].
  - injection H as <-. specialize (Hid r Ht eq_refl).
    eapply (answered_move n t _ w (flight_over _ (tk_permit t) w)); [done|by apply onward_same|done|done|done| |done]. by intros x [= <-].
  - specialize (Hid r Ht eq_refl). pose proof (write_sent s r o w) as Hs. pose proof (write_onward s r o w) as Ho.
    pose proof (a_tasks _ _ (write_aside s r o w)) as Hts. destruct (write s r o w) as [ok u] eqn:Hwr. injection H as <-. simpl in *.
    destruct Hs as [(body & _ & Hok & -> & Hs)|(-> & _)].
    + rewrite Hwr in Hok. simpl in Hok. subst ok. injection Hs as _ Hs.
      eapply (answered_to n t _ w); [done..|]. intros _. right. right. exists r. rewrite Hs. split; [|done].
      apply elem_of_app. right. by left.
    + by eapply (answered_to n t _ w).
  - injection H as <-. pose proof (answered_close w Hw) as Hc. destruct (w_tasks (close w) !! n) as [t'|] eqn:Ht'.
    + eapply (answered_to n t' _ (close w)); [done|by apply onward_same|done|done|done|]. intros _. right. left. apply close_frame.
    + unfold task_to. rewrite alter_id by naive_solver. by apply (answered_still (close w)); [|apply onward_same|].
  - injection H as <-. eapply (answered_to n t _ w); [done|by apply onward_same|done|done|done|]. intros _. left.
    unfold replied. by rewrite Hat.
  - injection H as <-. eapply (answered_to n t _ w); [done|by apply onward_same|done|done|done|]. intros _. left.
    unfold replied. by rewrite Hat.
Qed.

Lemma others_step_onward w e v : others_step w e = Some v → sent v = sent w ∧ w_closed v = w_closed w ∧ w_tasks v = w_tasks w.
Proof.
  destruct e; try done; cbn [others_step].
  - by intros [= <-].
  - by intros [= <-].
  - destruct (try_acquire refs bytes (w_process_blobs w)); [|done]. cbn [mbind option_bind].
    destruct (if at_server then _ else _); [|done]. cbn [mbind option_bind].
    destruct ((0 <=? refs) && (0 <=? bytes)); [|done]. by intros [= <-].
  - destruct (w_others w !! i) as [[[b r] y]|]; [|done]. by intros [= <-].
  - destruct (take_flight (w_admission w)); [|done]. by intros [= <-].
  - case_match; [|done]. by intros [= <-].
Qed.

Lemma answered_run s es w v : answered w → run s w es = Some v → answered v.
Proof.
  revert w. induction es as [|e es IH]; intros w Hw; simpl; [by intros [= <-]|].
  destruct (step s w e) as [x|] eqn:Hx; [|done]. simpl. apply IH. revert Hx.
  destruct e; cbn [step]; try (by apply answered_loop_step);
    try (intros (Hs & Hc & Ht)%others_step_onward; injection Hs as _ Hs; by apply (answered_still w); [|apply onward_same|]);
    (destruct (w_tasks w !! n) as [t|] eqn:Ht; [|done]; cbn [mbind option_bind]; by apply answered_task_step).
Qed.

(** ** The stream *)

(** The bytes are the frames of the replies. *)
Definition streamed (s : server) (w : world) : Prop :=
  ∃ bodies, Forall2 (λ r b, sv_encode s r = Some b) (w_replied w) bodies ∧ w_out w = concat (map frame bodies).

Lemma streamed_sent s w v : sent v = sent w → streamed s w → streamed s v.
Proof. intros [= Ho Hr]. unfold streamed. by rewrite Ho, Hr. Qed.

Lemma streamed_write s r w : streamed s w → streamed s (write s r Whole w).2.
Proof.
  intros Hw. destruct (write_sent s r Whole w) as [(body & He & _ & _ & Hs)|(_ & _ & Hs)];
    [|by eapply streamed_sent; [apply Hs|]]. injection Hs as Ho Hr.
  destruct Hw as (bodies & Hf & Hb). exists (bodies ++ [body]). rewrite Ho, Hr. split.
  - apply Forall2_app; [done|]. by constructor.
  - by rewrite map_app, concat_app, Hb; simpl; rewrite app_nil_r.
Qed.

Lemma streamed_loop_step s w e v : uncut e = true → streamed s w → loop_step s w e = Some v → streamed s v.
Proof.
  intros He Hw H. unfold loop_step in H.
  destruct e, (w_loop w); try done; try (injection H as <-; done).
  - injection H as <-. unfold decide_frame. repeat case_match; try done.
    eapply (streamed_sent s w); [|done]. exact (remove_lease_sent (rq_request_id r) w).
  - injection H as <-. by case_bool_decide.
  - injection H as <-. by repeat case_match.
  - case_bool_decide; [done|]. by injection H as <-.
  - destruct o; [|done]. injection H as <-. exact (streamed_write s r w Hw).
  - injection H as <-. eapply (streamed_sent s w); [exact (close_sent w)|done].
  - case_bool_decide; [|done]. injection H as <-. eapply (streamed_sent s w); [exact (clear_leases_sent w)|done].
  - destruct (w_tasks w !! n) as [t|]; [|done]. cbn [mbind option_bind] in H.
    destruct (tk_at t); try done; injection H as <-; [done|]. by eapply (streamed_sent s w); [rewrite close_sent|].
  - destruct (w_tasks w !! n) as [t|]; [|done]. cbn [mbind option_bind] in H.
    destruct (tk_at t); try done; injection H as <-; [done|].
    eapply (streamed_sent s w); [exact (close_sent (set_tasks (delete n (w_tasks w)) w))|done].
  - destruct (w_tasks w !! n) as [t|]; [|done]. cbn [mbind option_bind] in H. by destruct (tk_at t); try done; injection H as <-.
Qed.

Lemma streamed_task_step s w n t e v : uncut e = true → streamed s w → task_step s w n t e = Some v → streamed s v.
Proof.
  intros He Hw. unfold task_step. destruct e, (tk_at t); try done; intros H; try (by injection H as <-).
  - unfold acquire_next in H. by destruct held as [|[|[|k]]]; try done; destruct (try_acquire _ _ _); injection H as <-.
  - destruct held as [|[|[|[|k]]]]; try done. injection H as <-. unfold track. destruct ok; [|done].
    eapply (streamed_sent s w); [exact (remove_lease_sent (rp_request_id r) w)|done].
  - destruct o; [|done]. pose proof (streamed_write s r w Hw) as Hx. destruct (write s r Whole w) as [ok x]. by injection H as <-.
  - injection H as <-. eapply (streamed_sent s w); [exact (close_sent w)|done].
Qed.

Lemma streamed_run s es w v : forallb uncut es = true → streamed s w → run s w es = Some v → streamed s v.
Proof.
  revert w. induction es as [|e es IH]; intros w He Hw; simpl; [by intros [= <-]|].
  simpl in He. apply andb_prop in He as [He Hes].
  destruct (step s w e) as [x|] eqn:Hx; [|done]. simpl. apply (IH _ Hes). revert Hx.
  destruct e; cbn [step]; try (by apply streamed_loop_step);
    try (intros (Hs & _)%others_step_onward; by eapply streamed_sent);
    (destruct (w_tasks w !! n) as [t|] eqn:Ht; [|done]; cbn [mbind option_bind]; by apply streamed_task_step).
Qed.

Lemma answered_new mc owned c v p : answered (new_world mc owned c v p).
Proof. by split. Qed.

Lemma streamed_new s mc owned c v p : streamed s (new_world mc owned c v p).
Proof. exists []. by split. Qed.

(** C23: what the peer reads.  As long as no write is cut short, however the loop
    and the tasks interleave, the bytes on the wire are exactly the frames of
    the encoded replies in the order they were written; and a request whose
    task has given up its token or its id was answered under that id, unless
    the connection is closed. *)
Theorem replies_whole_and_own s mc owned c v p es w :
  forallb uncut es = true → run s (new_world mc owned c v p) es = Some w →
  (∃ bodies, Forall2 (λ r b, sv_encode s r = Some b) (w_replied w) bodies ∧ w_out w = concat (map frame bodies)) ∧
  (∀ n t, w_tasks w !! n = Some t → tk_at t ∈ [TUntoken; TUnlist; TDone] → w_closed w = false →
     ∃ r, r ∈ w_replied w ∧ rp_request_id r = rq_request_id (tk_request t)).
Proof.
  intros He Hr. split; [by eapply (streamed_run s es); [done|apply streamed_new|]|].
  intros n t Ht Ha Hc. destruct (n_done _ (answered_run s es _ _ (answered_new mc owned c v p) Hr) n t Ht) as [?|?]; [|congruence|done].
  unfold replied. by destruct (tk_at t); try done; repeat (apply elem_of_cons in Ha as [[=]|Ha]); apply not_elem_of_nil in Ha.
Qed.

Lemma replies_whole_and_own_witness :
  ∃ w, run sample_server sample_world
      (accepts 0 (u "a") ++ accepts 1 (u "b") ++ answers 1 (u "yes") [] ++ answers 0 (u "no") [] ++
       [TaskWrite 1 Whole; TaskWrite 0 Whole]) = Some w ∧
    w_out w = frame (u "byes") ++ frame (u "ano") ∧ ∃ r, r ∈ w_replied w ∧ rp_request_id r = u "a".
Proof.
  set (es := accepts 0 (u "a") ++ _). destruct (run sample_server sample_world es) as [w|] eqn:Hr;
    [|exfalso; revert Hr; vm_compute; done].
  destruct (replies_whole_and_own sample_server (Some 2) None (10, 1000) (10, 1000) (10, 1000) es w
    ltac:(vm_compute; reflexivity) Hr) as [H1 H2].
  destruct (w_tasks w !! 0%nat) as [t|] eqn:Ht; [|exfalso; revert Hr Ht; vm_compute; intros [= <-]; done].
  exists w. split_and!; [done|revert Hr; vm_compute; by intros [= <-]|].
  assert (rq_request_id (tk_request t) = u "a") as <-.
  { revert Hr Ht. vm_compute. intros [= <-] [= <-]. done. }
  apply (H2 0%nat t Ht); revert Hr Ht; vm_compute; intros [= <-] [= <-]; [by left|done].
Defined.

(** ** Writes that are cut, and late tasks *)

(** A write that times out leaves part of its frame on the wire; the next task
    writes its own frame behind it all the same.  The peer then reads, as one
    well-formed frame, a body that no reply has. *)
Theorem cut_write_mixes_replies :
  ∃ w body, run sample_server sample_world
      (accepts 0 (u "a") ++ accepts 1 (u "b") ++ answers 0 (u "0123456789") [] ++ answers 1 (u "ABCDEFGHIJKLMNOP") [] ++
       [TaskWrite 0 (Cut 8); TaskWrite 1 Whole]) = Some w ∧
    parse_frame MAX_RPC_FRAME_BYTES (w_out w, None) = Ok (Some body) ∧
    body ≠ u "a0123456789" ∧ body ≠ u "bABCDEFGHIJKLMNOP".
Proof. eexists _, _. split; [vm_compute; reflexivity|]. split; [vm_compute; reflexivity|]. split; vm_compute; discriminate. Qed.

(** A connection can be closed between the moment the loop finds no duplicate
    and the moment it spawns the request.  The token enters the table after
    [close] has walked it: the handler runs on, is never told, and the loop
    waits for it. *)
Theorem late_request_never_cancelled :
  ∃ w t, run sample_server sample_world
      (accepts 0 (u "a") ++ answers 0 (u "x") [] ++
       [LoopCheck; LoopReady; FrameRead (u "b"); Decide; CheckLease; CheckOwner; Claim; Acquire;
        TaskWrite 0 (Cut 0); TaskClose 0; Spawn 1; TaskStart 1; LoopCheck; LoopClose; TakeWriter;
        TaskUntoken 0; TaskUnlist 0; Join 0]) = Some w ∧
    w_closed w = true ∧ w_loop w = LJoining ∧ w_tasks w !! 1%nat = Some t ∧ tk_at t = TRunning ∧ tk_cancelled t = false.
Proof. eexists _, _. split; [vm_compute; reflexivity|]. by vm_compute. Qed.

(** An id is given back only after its reply is on the wire: a peer that uses
    the id again as soon as it has the answer can be refused, and loses the
    connection. *)
Theorem answered_id_still_taken :
  ∃ w, run sample_server sample_world
      (accepts 0 (u "a") ++ answers 0 (u "x") [] ++
       [TaskWrite 0 Whole; LoopCheck; LoopReady; FrameRead (u "a"); Decide; CheckLease; CheckOwner; Claim]) = Some w ∧
    w_out w = frame (u "ax") ∧ w_loop w = LWrite (protocol_error (u "a")) true.
Proof. eexists. split; [vm_compute; reflexivity|]. by vm_compute. Qed.
