(* ===== verification/Exchange.v ===== *)
(** * A call over the native transport, from end to end

    A connection of [transport/client.rs] ([ClientConn]) and the connection of
    [transport/server.rs] that serves it ([NativeServer]), with the socket
    between them: the frames the client has written and the listener has not
    read, the replies the listener has written and the client has not read, in
    order.  The steps of the system are the steps of the two sides; a frame is
    read when it is the next one, and so is a reply.  When a write of the
    listener is cut short, what the client reads behind it may be anything.

    The theorems are about runs that are [considerate]: a caller uses an id
    again only when the calls that had it have returned and no frame of theirs
    is queued, and no write of the listener is cut short.  Without the first
    [Delivery.retry_answered_with_stale_frame] is a run that breaks them,
    without the second [ServerStream.cut_write_mixes_replies].

    What each side was verified to do when the other behaves is discharged
    here: the listener makes up no replies, and every reply the client reads
    finds the frame it answers.  So what a caller is told can be traced to the
    handler: the reply is the response to this very request, whose handler was
    started once, or a refusal, and then the handler was not started at all. *)

From S2P Require Import Prelude PyStr Text Wire RpcProto Admission ClientConn Delivery ClientWire NativeServer ServerStream.

Local Open Scope Z_scope.

(** ** The two sides and the socket between them *)

(** A frame on its way to the listener: a call's, or an acknowledgement. *)
Inductive packet := UpCall (n : nat) | UpAck (request_id : pystr).

#[global] Instance packet_eq_dec : EqDecision packet.
Proof. solve_decision. Defined.

(** The listener's reading of a request id. *)
Definition valid_id (x : pystr) : bool :=
  negb (bool_decide (x = [])) && (byte_len x <=? MAX_RPC_REQUEST_ID_BYTES) && forallb printable x.

(** The client's connection and the listener's; the frames and the replies in
    between, a reply with the call whose frame it answers; the call whose frame
    the loop is at; and what has happened: the calls whose handlers were
    started, what the handlers returned, the calls the loop refused.  [sy_torn]:
    part of a reply has been written behind the replies in between. *)
Record system := System {
  sy_link : link;
  sy_world : world;
  sy_up : list packet;
  sy_down : list (option nat * rpc_reply);
  sy_reading : option nat;
  sy_started : list nat;
  sy_returned : list (nat * response);
  sy_refused : list nat;
  sy_torn : bool
}.

Definition with_link (l : link) (up : list packet) (down : list (option nat * rpc_reply)) (y : system) : system :=
  System l (sy_world y) up down (sy_reading y) (sy_started y) (sy_returned y) (sy_refused y) (sy_torn y).

Inductive event :=
| Client (e : ClientConn.event)
| Listener (e : NativeServer.event)
| Reads
| Delivers
| Garbles (o : option rpc_reply).

Section System.
(** The listener, how a client encodes a request, and the request of a call. *)
Context (s : server) (enc : rpc_request → list N) (requests : nat → rpc_request).

Definition call_id (n : nat) : pystr := rq_request_id (requests n).

Definition request_of (p : packet) : rpc_request :=
  match p with UpCall n => requests n | UpAck x => request_blob_ack x end.
Definition caller_of (p : packet) : option nat := match p with UpCall n => Some n | UpAck _ => None end.

(** What the client does by itself. *)
Definition by_client (e : ClientConn.event) : bool :=
  negb (from_peer e) &&
  match e with Reserve n x => bool_decide (x = call_id n) && valid_id x | _ => true end.

Definition packet_of (c : write_command) : packet :=
  match wc_frame c with Some n => UpCall n | None => UpAck (wc_request_id c) end.

(** What the listener does by itself; a task is known by the number of its
    call. *)
Definition by_listener (y : system) (e : NativeServer.event) : bool :=
  match e with FrameRead _ => false | Spawn k => bool_decide (sy_reading y = Some k) | _ => true end.

(** The call a reply answers; the loop's replies without an id answer none. *)
Definition answers_call (y : system) (e : NativeServer.event) (r : rpc_reply) : option nat :=
  match e with
  | TaskWrite n _ => Some n
  | _ => if bool_decide (rp_request_id r = []) then None else sy_reading y
  end.

(** The replies a step of the listener writes. *)
Definition writes (y : system) (e : NativeServer.event) (w : world) : list (option nat * rpc_reply) :=
  (λ r, (answers_call y e r, r)) <$> drop (length (w_replied (sy_world y))) (w_replied w).

(** Part of a reply has gone out. *)
Definition tears (y : system) (e : NativeServer.event) (w : world) : bool :=
  negb (uncut e) && negb (bool_decide (w_out w = w_out (sy_world y))).

(** Behind part of a reply nothing can be read as what it is. *)
Definition after_listener (y : system) (e : NativeServer.event) (w : world) : system :=
  System (sy_link y) w (sy_up y) (sy_down y ++ if sy_torn y then [] else writes y e w) (sy_reading y)
    (sy_started y ++ match e with TaskStart n => [n] | _ => [] end)
    (sy_returned y ++ match e with HandlerReturns n r => [(n, r)] | _ => [] end)
    (sy_refused y ++ match e with LoopWrite _ => omap fst (writes y e w) | _ => [] end)
    (sy_torn y || tears y e w).

Definition step (y : system) (e : event) : option system :=
  match e with
  | Client e =>
      if by_client e
      then l ← ClientConn.step (sy_link y) e;
           Some (with_link l (sy_up y ++ option_list (packet_of <$> finishes (sy_link y) e)) (sy_down y) y)
      else None
  | Listener e =>
      if by_listener y e then w ← NativeServer.step s (sy_world y) e; Some (after_listener y e w) else None
  | Reads =>
      match sy_up y with
      | [] => None
      | p :: up =>
          w ← NativeServer.step s (sy_world y) (FrameRead (enc (request_of p)));
          Some (System (sy_link y) w up (sy_down y) (caller_of p) (sy_started y) (sy_returned y) (sy_refused y) (sy_torn y))
      end
  | Delivers =>
      match sy_down y with
      | [] => None
      | (Some n, r) :: down => l ← ClientConn.step (sy_link y) (Arrive n r); Some (with_link l (sy_up y) down y)
      | (None, r) :: down => l ← ClientConn.step (sy_link y) PeerGone; Some (with_link l (sy_up y) down y)
      end
  | Garbles o =>
      if sy_torn y && bool_decide (sy_down y = [])
      then l ← ClientConn.step (sy_link y) (from_option Invent PeerGone o); Some (with_link l (sy_up y) [] y)
      else None
  end.

Fixpoint run (y : system) (es : list event) : option system :=
  match es with [] => Some y | e :: es => y ← step y e; run y es end.

(** A registration brings no id that is still in use, a write of the listener
    is not cut short. *)
Definition mannerly (y : system) (e : event) : bool :=
  match e with Client e => careful (sy_link y) e | Listener e => uncut e | _ => true end.

Fixpoint considerate (y : system) (es : list event) : bool :=
  match es with
  | [] => true
  | e :: es => mannerly y e && match step y e with Some y => considerate y es | None => true end
  end.

Definition new_system (mc : option Z) (owned : option bool) (c v p : Z * Z) : system :=
  System new_link (new_world mc owned c v p) [] [] None [] [] [] false.

(** ** Where a call is *)

(** The call the loop has in hand. *)
Definition loop_call (reading : option nat) (l : loop_at) : option nat :=
  match l with
  | LFrame _ | LRequest _ | LOwned _ | LClaim _ | LPermit _ | LBusy _ | LSpawn _ _ => reading
  | LWrite r _ => if bool_decide (rp_request_id r = []) then None else reading
  | _ => None
  end.

(** A task that has not written its reply. *)
Definition owes (t : task) : bool :=
  match tk_at t with TSpawned | TRunning | TAcquire _ _ _ _ | TAnswer _ | TWrite _ => true | _ => false end.

Definition at_loop (n : nat) (y : system) : Z :=
  if bool_decide (loop_call (sy_reading y) (w_loop (sy_world y)) = Some n) then 1 else 0.
Definition at_task (n : nat) (w : world) : Z :=
  match w_tasks w !! n with Some t => if owes t then 1 else 0 | None => 0 end.

(** How often the frame of a call, or the answer to it, is under way. *)
Definition under_way (n : nat) (y : system) : Z :=
  times (UpCall n) (sy_up y) + at_loop n y + at_task n (sy_world y) + times (Some n) (sy_down y).*1.

(** What a handler's response may be sent as: itself; when it carries blobs,
    with them or, when they are not admitted, as an error in its place. *)
Definition answer_of (x : pystr) (v : response) (r : rpc_reply) : Prop :=
  r = reply_of x v ∨
  rs_blob_owners v ≠ [] ∧ (r = with_blobs (reply_of x v) ∨ r = reject_blob_response (reply_of x v)).

(** What the loop refuses a request with. *)
Definition refusal (r : rpc_reply) : Prop :=
  ∃ status type_name, r = reply_error (rp_request_id r) status type_name ∧
    status ∈ [MalformedProtocol; Fenced; MethodNotFound; ConcurrencyRefused].

Definition answers (returned : list (nat * response)) (n : nat) (r : rpc_reply) : Prop :=
  ∃ v, (n, v) ∈ returned ∧ answer_of (call_id n) v r.

(** What a task bears: while its blobs are being admitted, the reply as the
    handler made it; then what became of it. *)
Definition bears (returned : list (nat * response)) (n : nat) (a : task_at) : Prop :=
  match a with
  | TAcquire _ r _ _ => ∃ v, (n, v) ∈ returned ∧ rs_blob_owners v ≠ [] ∧ r = reply_of (call_id n) v
  | TAnswer r | TWrite r => answers returned n r
  | _ => True
  end.

(** A reply that call [n] may be given. *)
Definition good (y : system) (n : nat) (r : rpc_reply) : Prop :=
  rp_request_id r = call_id n ∧ (n ∈ sy_refused y ∧ refusal r ∨ answers (sy_returned y) n r).

(** What the loop has in hand is the frame it read. *)
Definition loop_linked (reading : option nat) (l : loop_at) : Prop :=
  match l with
  | LFrame bytes => match reading with
                    | Some n => bytes = enc (requests n)
                    | None => ∃ x, valid_id x = true ∧ bytes = enc (request_blob_ack x)
                    end
  | LRequest rq | LOwned rq | LClaim rq | LPermit rq | LBusy rq | LSpawn rq _ =>
      ∃ n, reading = Some n ∧ rq = requests n
  | LWrite r _ => refusal r ∧ (rp_request_id r = [] ∨ ∃ n, reading = Some n ∧ rp_request_id r = call_id n)
  | _ => True
  end.

Record linked (y : system) : Prop := Linked {
  i_sound : sound (sy_link y);
  i_orderly : orderly (sy_link y);
  i_named : named (λ x, valid_id x = true) (sy_link y);
  i_ids : ∀ n c, callers (sy_link y) !! n = Some c → ca_id c = call_id n;
  i_acks : ∀ x, UpAck x ∈ sy_up y → valid_id x = true;
  i_one : ∀ n, under_way n y ≤ 1;
  i_open : ∀ n, 1 ≤ under_way n y → n ∈ unanswered (sy_link y);
  i_loop : loop_linked (sy_reading y) (w_loop (sy_world y));
  i_task : ∀ n t, w_tasks (sy_world y) !! n = Some t →
    tk_request t = requests n ∧ n ∉ sy_refused y ∧ n ∈ ClientConn.sent (sy_link y) ∧
    (tk_at t = TSpawned → n ∉ sy_started y) ∧ bears (sy_returned y) n (tk_at t);
  i_fresh : ∀ n, UpCall n ∈ sy_up y ∨ loop_call (sy_reading y) (w_loop (sy_world y)) = Some n →
    n ∉ sy_started y ∧ n ∉ sy_refused y ∧ w_tasks (sy_world y) !! n = None;
  i_started : NoDup (sy_started y) ∧ ∀ n, n ∈ sy_started y → n ∈ ClientConn.sent (sy_link y);
  i_refused : ∀ n, n ∈ sy_refused y → n ∈ ClientConn.sent (sy_link y) ∧ n ∉ sy_started y;
  i_down : ∀ n r, (Some n, r) ∈ sy_down y → good y n r;
  i_held : ∀ v, in_hand (sy_link y) = Some v → ∃ n, rv_answers v = Some n ∧ good y n (rv_reply v);
  i_told : ∀ n c v, callers (sy_link y) !! n = Some c → ca_sender c = Sent (Delivered v) →
    ∃ m, rv_answers v = Some m ∧ good y m (rv_reply v);
  i_whole : sy_torn y = false
}.

(** ** Lemmas *)

Lemma valid_not_nil x : valid_id x = true → x ≠ [].
Proof. intros Hv ->. unfold valid_id in Hv. by rewrite bool_decide_true in Hv. Qed.

Lemma ack_valid x : valid_id x = true → validate_request (request_blob_ack x) = true.
Proof.
  unfold valid_id, validate_request. simpl. intros [[-> ->]%andb_prop ->]%andb_prop. done.
Qed.

Lemma answer_of_id x v r : answer_of x v r → rp_request_id r = x.
Proof. by intros [-> |[_ [-> | ->]]]. Qed.

Lemma answers_grow l l' n r : (∀ a, a ∈ l → a ∈ l') → answers l n r → answers l' n r.
Proof. intros Hl (v & Hv & Ha). exists v. auto. Qed.

Lemma bears_app l l' n a : bears l n a → bears (l ++ l') n a.
Proof.
  destruct a; try done; cbn [bears]; [intros (v & Hv & Hb & Hr); exists v|..]; try (apply answers_grow; intros x);
    rewrite elem_of_app; auto.
Qed.

Lemma bears_carries l n t r : bears l n (tk_at t) → carries t = Some r → answers l n r.
Proof.
  unfold carries. destruct (tk_at t); try done; cbn [bears]; [|by intros ? [= <-]..].
  intros (v & Hv & _ & ->) [= <-]. exists v. split; [done|by left].
Qed.

Lemma good_grow y y' n r :
  (∀ m, m ∈ sy_refused y → m ∈ sy_refused y') → (∀ a, a ∈ sy_returned y → a ∈ sy_returned y') →
  good y n r → good y' n r.
Proof. intros Hf Hr [Hid [[Hn Hre]|Ha]]; (split; [done|]); [left; auto|right; by eapply answers_grow]. Qed.

Lemma at_loop_bounds n y : 0 ≤ at_loop n y ≤ 1.
Proof. unfold at_loop. by case_bool_decide. Qed.

Lemma at_task_bounds n w : 0 ≤ at_task n w ≤ 1.
Proof. unfold at_task. by repeat case_match. Qed.

Lemma under_way_nonneg n y : 0 ≤ under_way n y.
Proof.
  unfold under_way. pose proof (at_loop_bounds n y). pose proof (at_task_bounds n (sy_world y)).
  pose proof (times_nonneg (UpCall n) (sy_up y)). pose proof (times_nonneg (Some n) (sy_down y).*1). lia.
Qed.

(** A call whose frame has not gone out is nowhere. *)
Lemma unsent_nowhere y n :
  linked y → n ∉ ClientConn.sent (sy_link y) →
  under_way n y = 0 ∧ n ∉ sy_started y ∧ n ∉ sy_refused y ∧ w_tasks (sy_world y) !! n = None.
Proof.
  intros Hy Hn. pose proof (i_one _ Hy n). pose proof (under_way_nonneg n y). split_and!.
  - destruct (decide (1 ≤ under_way n y)) as [H1|]; [|lia]. destruct Hn.
    by apply (o_unanswered _ (i_orderly _ Hy)), (i_open _ Hy).
  - intros Hs. by apply Hn, (proj2 (i_started _ Hy)).
  - intros Hf. by apply Hn, (i_refused _ Hy n Hf).
  - destruct (w_tasks (sy_world y) !! n) as [t|] eqn:Ht; [|done]. destruct Hn. apply (i_task _ Hy n t Ht).
Qed.

(** The client's side alone moves: the packets it adds. *)
Lemma linked_link y k up down :
  linked y → sound k → orderly k → named (λ x, valid_id x = true) k →
  (∀ n c, callers k !! n = Some c → ca_id c = call_id n) →
  (∀ n, n ∈ ClientConn.sent (sy_link y) → n ∈ ClientConn.sent k) →
  (∀ x, UpAck x ∈ up → valid_id x = true) →
  (∀ n, let v := under_way n (with_link k up down y) in v ≤ 1 ∧ (1 ≤ v → n ∈ unanswered k)) →
  (∀ n, UpCall n ∈ up → UpCall n ∈ sy_up y ∨ n ∉ ClientConn.sent (sy_link y)) →
  (∀ n r, (Some n, r) ∈ down → (Some n, r) ∈ sy_down y) →
  (∀ v, in_hand k = Some v → ∃ n, rv_answers v = Some n ∧ good y n (rv_reply v)) →
  (∀ n c v, callers k !! n = Some c → ca_sender c = Sent (Delivered v) → ∃ m, rv_answers v = Some m ∧ good y m (rv_reply v)) →
  linked (with_link k up down y).
Proof.
  intros Hy Hs Ho Hn Hids Hgrow Hacks Hone Hup Hdown Hheld Htold. split; try done; try apply Hone.
  - apply Hy.
  - intros n t Ht. destruct (i_task _ Hy n t Ht) as (H1 & H2 & H3 & H4 & H5). split_and!; auto.
  - intros n [Hn'|Hl]; [|apply (i_fresh _ Hy); by right]. destruct (Hup n Hn') as [?|?]; [apply (i_fresh _ Hy); by left|].
    by destruct (unsent_nowhere y n Hy) as (_ & ?).
  - destruct (i_started _ Hy) as [H1 H2]. split; [done|]. intros n ?. by apply Hgrow, H2.
  - intros n Hf. destruct (i_refused _ Hy n Hf). split; [by apply Hgrow|done].
  - intros n r Hd. apply (i_down _ Hy), Hdown, Hd.
  - apply (i_whole _ Hy).
Qed.

Lemma under_way_link n k up down y :
  under_way n (with_link k up down y) =
    under_way n y + (times (UpCall n) up - times (UpCall n) (sy_up y)) + (times (Some n) down.*1 - times (Some n) (sy_down y).*1).
Proof. unfold under_way, at_loop. simpl. lia. Qed.

Lemma in_hand_back l e k v :
  ClientConn.step l e = Some k → from_peer e = false → in_hand k = Some v → in_hand l = Some v.
Proof.
  intros Hk Hp. unfold in_hand. destruct (cn_reader (conn k)) as [|r| |] eqn:Hr; try done. intros [= <-].
  by rewrite (holding_back _ _ _ _ Hk Hp Hr).
Qed.

(** A step of the client, seen from the socket. *)
Lemma linked_client y e y' : linked y → careful (sy_link y) e = true → step y (Client e) = Some y' → linked y'.
Proof.
  intros Hy Hca. cbn [step]. destruct (by_client e) eqn:Hb; [|done]. unfold by_client in Hb.
  apply andb_prop in Hb as [Hp Hr]. apply negb_true_iff in Hp.
  destruct (ClientConn.step (sy_link y) e) as [k|] eqn:Hk; [|done]. cbn [mbind option_bind]. intros [= <-].
  pose proof (i_sound _ Hy) as Hs. pose proof (i_orderly _ Hy) as Ho. destruct (step_wire _ _ _ Hk Hp) as [Hsent Hun].
  assert (∀ c, finishes (sy_link y) e = Some c → cn_writer (conn (sy_link y)) = WWriting c) as Hfin.
  { unfold finishes. intros c Hc. destruct e; try done. destruct (cn_writer (conn (sy_link y))); try done. congruence. }
  assert (∀ n, UpCall n ∈ option_list (packet_of <$> finishes (sy_link y) e) →
    finishes_call (sy_link y) e = Some n ∧ n ∉ ClientConn.sent (sy_link y)) as Hnew.
  { intros n. unfold finishes_call. destruct (finishes (sy_link y) e) as [c|] eqn:Hc; [|intros []%not_elem_of_nil].
    simpl. intros Hn%list_elem_of_singleton. unfold packet_of in Hn. destruct (wc_frame c) as [m|] eqn:Hm; [|done].
    injection Hn as ->. split; [done|]. apply (o_once _ Ho). exists c. auto. }
  assert (∀ n c', callers k !! n = Some c' → ca_id c' = call_id n ∧
    ∀ v, ca_sender c' = Sent (Delivered v) → ∃ m, rv_answers v = Some m ∧ good y m (rv_reply v)) as Hcall.
  { intros n c' Hc'. destruct (callers_back _ _ _ _ _ Hk Hc') as [(c & Hc & Hid & Hv)|[-> Hop]].
    - split; [rewrite Hid; by apply (i_ids _ Hy)|]. intros v Hse. destruct (Hv v Hse) as [?|?]; [by eapply (i_told _ Hy)|].
      by apply (i_held _ Hy).
    - apply andb_prop in Hr as [Hx%bool_decide_eq_true _]. split; [done|]. intros v. by rewrite Hop. }
  apply linked_link; try done.
  - by eapply sound_step.
  - by eapply orderly_step.
  - eapply named_step; [|apply Hy|exact Hk]. intros n x ->. apply andb_prop in Hr as [_ Hv]. done.
  - intros n c' Hc'. by apply (Hcall n c').
  - intros n Hn. rewrite Hsent. apply elem_of_app. by left.
  - intros x [Hx|Hx]%elem_of_app; [by apply (i_acks _ Hy)|]. destruct (finishes (sy_link y) e) as [c|] eqn:Hc; [|by apply not_elem_of_nil in Hx].
    simpl in Hx. apply list_elem_of_singleton in Hx. unfold packet_of in Hx. destruct (wc_frame c); [done|]. injection Hx as ->.
    apply (nm_writer _ _ (i_named _ Hy)). left. by apply Hfin.
  - intros n. cbv zeta. rewrite under_way_link, times_app. pose proof (i_one _ Hy n).
    destruct (decide (UpCall n ∈ option_list (packet_of <$> finishes (sy_link y) e))) as [Hin|Hin].
    + destruct (Hnew n Hin) as [Hf Hns]. destruct (unsent_nowhere y n Hy Hns) as [-> _]. rewrite Hun, Hf.
      destruct (finishes (sy_link y) e) as [c|]; [|by apply not_elem_of_nil in Hin]. simpl. rewrite times_cons.
      change (times (UpCall n) []) with 0. case_bool_decide; (split; [lia|set_solver]).
    + rewrite (times_zero _ _ Hin). replace (under_way n y + _ + _) with (under_way n y) by lia. split; [done|].
      intros Hw. apply (i_open _ Hy) in Hw. rewrite Hun. case_match; set_solver.
  - intros n [?|Hn]%elem_of_app; [by left|]. right. by apply Hnew.
  - intros v Hv. apply (i_held _ Hy). by eapply in_hand_back.
  - intros n c' v Hc' Hse. by apply (Hcall n c').
Qed.

(** A reply is delivered to the client. *)
Lemma linked_arrives y n r down k :
  linked y → sy_down y = (Some n, r) :: down → ClientConn.step (sy_link y) (Arrive n r) = Some k →
  linked (with_link k (sy_up y) down y).
Proof.
  intros Hy Hd Hk.
  pose proof (i_sound _ Hy) as Hs. pose proof (i_orderly _ Hy) as Ho. pose proof Hk as Hk'.
  cbn [ClientConn.step reader_step] in Hk'. destruct (cn_reader (conn (sy_link y))) eqn:Hr; try done.
  destruct (callers (sy_link y) !! n) as [c|] eqn:Hc; [|done]. cbn [mbind option_bind] in Hk'.
  case_bool_decide as Hun; [|done]. case_bool_decide as Hid; [|done]. simpl in Hk'. injection Hk' as Hk'.
  assert (in_hand (sy_link y) = None) as Hnone by (unfold in_hand; by rewrite Hr).
  assert (callers k = callers (sy_link y)) as Hcs by (by rewrite <- Hk', arrives_callers).
  assert (ClientConn.sent k = ClientConn.sent (sy_link y) ∧ unanswered k = unanswered (sy_link y) ∖ {[n]}) as [Hse Hku].
  { rewrite <- Hk'. unfold arrives. case_match; [done|]. unfold poison. simpl. by case_match. }
  apply linked_link; try done.
  - by eapply sound_step.
  - by apply (orderly_step _ _ _ Hs Ho) in Hk.
  - eapply named_step; [|apply Hy|exact Hk]. done.
  - intros m c' Hc'. rewrite Hcs in Hc'. by apply (i_ids _ Hy).
  - intros m Hm. by rewrite Hse.
  - apply Hy.
  - intros m. cbv zeta. rewrite under_way_link, Hd, fmap_cons, times_cons. cbn [fst]. pose proof (i_one _ Hy m). rewrite Hku.
    case_bool_decide as Hm; [injection Hm as ->; split; [lia|]; intros; lia|].
    split; [lia|]. intros Hw. apply elem_of_difference. split; [apply (i_open _ Hy); lia|]. set_solver.
  - intros m Hm. by left.
  - intros m q Hq. rewrite Hd. by right.
  - intros v Hv. unfold in_hand in Hv. rewrite <- Hk' in Hv. unfold arrives in Hv. simpl in Hv.
    destruct (rp_protocol r =? RPC_PROTOCOL); simpl in Hv; [|done]. injection Hv as <-. exists n. split; [done|]. apply (i_down _ Hy). rewrite Hd. by left.
  - intros m c' v Hc'. rewrite Hcs in Hc'. by apply (i_told _ Hy m c').
Qed.

(** A reply that nobody can place ends the client's reading. *)
Lemma linked_stray y r down k :
  linked y → sy_down y = (None, r) :: down → ClientConn.step (sy_link y) PeerGone = Some k →
  linked (with_link k (sy_up y) down y).
Proof.
  intros Hy Hd Hk.
  pose proof (i_sound _ Hy) as Hs. pose proof (i_orderly _ Hy) as Ho.
  destruct (step_wire _ _ _ Hk eq_refl) as [Hsent Hun]. cbn [finishes_call finishes mbind option_bind option_list] in Hsent, Hun.
  rewrite app_nil_r in Hsent.
  pose proof (callers_step _ _ _ Hk) as Hcs. simpl in Hcs.
  apply linked_link; try done.
  - by eapply sound_step.
  - by apply (orderly_step _ _ _ Hs Ho) in Hk.
  - eapply named_step; [|apply Hy|exact Hk]. done.
  - intros m c' Hc'. rewrite Hcs in Hc'. by apply (i_ids _ Hy).
  - intros m Hm. by rewrite Hsent.
  - apply Hy.
  - intros m. cbv zeta. rewrite under_way_link, Hd, fmap_cons, times_cons. cbn [fst]. pose proof (i_one _ Hy m). rewrite Hun.
    rewrite bool_decide_false by done. split; [lia|]. intros Hw. apply (i_open _ Hy). lia.
  - intros m Hm. by left.
  - intros m q Hq. rewrite Hd. by right.
  - intros v Hv. apply (i_held _ Hy). by eapply in_hand_back.
  - intros m c' v Hc'. rewrite Hcs in Hc'. by apply (i_told _ Hy m c').
Qed.

Lemma linked_delivers y y' : linked y → step y Delivers = Some y' → linked y'.
Proof.
  intros Hy. cbn [step]. destruct (sy_down y) as [|[[n|] r] down] eqn:Hd; [done|..];
    (destruct (ClientConn.step (sy_link y) _) as [k|] eqn:Hk; [|done]); cbn [mbind option_bind]; intros [= <-];
    [by apply (linked_arrives y n r)|by apply (linked_stray y r)].
Qed.

(** The listener reads the next frame. *)
Lemma linked_reads y y' : linked y → step y Reads = Some y' → linked y'.
Proof.
  intros Hy. cbn [step]. destruct (sy_up y) as [|p up] eqn:Hu; [done|]. cbn [NativeServer.step]. unfold loop_step.
  destruct (w_loop (sy_world y)) eqn:Hl; try done. cbn [mbind option_bind]. intros [= <-].
  assert (∀ n, caller_of p = Some n ↔ p = UpCall n) as Hp by (intros n; destruct p; simpl; naive_solver).
  set (y' := System _ _ _ _ _ _ _ _ _). assert (∀ n, under_way n y' = under_way n y) as Hw.
  { intros n. unfold under_way, at_loop, y'. simpl. rewrite Hu, Hl, times_cons. unfold loop_call. rewrite (bool_decide_false (None = Some n)) by done.
    rewrite (bool_decide_ext (caller_of p = Some n) (p = UpCall n)) by done.
    unfold at_task. simpl. lia. }
  destruct Hy. split; try done; subst y'; simpl.
  - intros x Hx. apply i_acks0. rewrite Hu. by right.
  - intros n. rewrite Hw. apply i_one0.
  - intros n. rewrite Hw. apply i_open0.
  - destruct p; simpl; [done|]. exists request_id. split; [|done]. apply i_acks0. rewrite Hu. by left.
  - intros n Hn. apply i_fresh0. left. rewrite Hu. destruct Hn as [?|Hn]; [by right|]. apply Hp in Hn as ->. by left.
Qed.

(** ** Steps of the listener *)

(** The call the loop has in hand was sent, and is nowhere else. *)
Lemma in_loop_only y n :
  linked y → loop_call (sy_reading y) (w_loop (sy_world y)) = Some n →
  n ∈ ClientConn.sent (sy_link y) ∧ n ∉ sy_started y ∧ w_tasks (sy_world y) !! n = None ∧ UpCall n ∉ sy_up y.
Proof.
  intros Hy Hn. destruct (i_fresh _ Hy n) as (H1 & _ & H3); [by right|].
  assert (at_loop n y = 1) as H4 by (unfold at_loop; by rewrite bool_decide_true). pose proof (i_one _ Hy n) as Hone.
  pose proof (at_task_bounds n (sy_world y)). pose proof (times_nonneg (UpCall n) (sy_up y)).
  pose proof (times_nonneg (Some n) (sy_down y).*1). split_and!; try done.
  - apply (o_unanswered _ (i_orderly _ Hy)), (i_open _ Hy). unfold under_way. lia.
  - intros Hu%times_pos. unfold under_way in Hone. lia.
Qed.

(** What a step of the listener must keep: the tasks go on from where they
    were, one of them may start or the loop may refuse, and what is written
    was owed. *)
Lemma linked_listener y v ds st rs fs
    (y' := System (sy_link y) v (sy_up y) (sy_down y ++ ds) (sy_reading y) (sy_started y ++ option_list st)
             (sy_returned y ++ rs) (sy_refused y ++ option_list fs) (sy_torn y)) :
  linked y →
  (∀ n t', w_tasks v !! n = Some t' → ∃ t, w_tasks (sy_world y) !! n = Some t ∧ tk_request t' = tk_request t ∧
     (tk_at t' = TSpawned → tk_at t = TSpawned ∧ st ≠ Some n) ∧
     bears (sy_returned y ++ rs) n (tk_at t')) →
  (∀ n, st = Some n → ∃ t, w_tasks (sy_world y) !! n = Some t ∧ tk_at t = TSpawned) →
  (∀ n, fs = Some n → loop_call (sy_reading y) (w_loop (sy_world y)) = Some n ∧ loop_call (sy_reading y) (w_loop v) = None) →
  (loop_call (sy_reading y) (w_loop v) = loop_call (sy_reading y) (w_loop (sy_world y)) ∨ loop_call (sy_reading y) (w_loop v) = None) →
  loop_linked (sy_reading y) (w_loop v) →
  (∀ n, at_loop n y' + at_task n v + times (Some n) ds.*1 ≤ at_loop n y + at_task n (sy_world y)) →
  (∀ n r, (Some n, r) ∈ ds → good y' n r) →
  linked y'.
Proof.
  intros Hy Hts Hst Hfs Hlc Hll Hle Hds.
  assert (∀ n, under_way n y' ≤ under_way n y) as Hw.
  { intros n. specialize (Hle n). unfold under_way. subst y'. cbn [sy_up sy_down sy_world]. rewrite fmap_app, times_app. lia. }
  assert (∀ n r, good y n r → good y' n r) as Hg.
  { intros n r. apply good_grow; intros a Ha; apply elem_of_app; by left. }
  assert (∀ n, st = Some n → ∃ t, w_tasks (sy_world y) !! n = Some t ∧ n ∉ sy_started y ∧ n ∈ ClientConn.sent (sy_link y)) as Hsn.
  { intros n (t & Ht & Ha)%Hst. exists t. split; [done|]. destruct (i_task _ Hy n t Ht) as (_ & _ & ? & Hs & _). auto. }
  pose proof Hy as [H1 H2 H3 H4 H5 H6 H7 H8 H9 H10 H11 H12 H13 H14 H15 H16]. split; try done.
  - intros n. specialize (Hw n). specialize (H6 n). lia.
  - intros n Hn. apply H7. specialize (Hw n). lia.
  - intros n t' Ht'. destruct (Hts n t' Ht') as (t & Ht & Hr & Hsp & Hc). destruct (H9 n t Ht) as (E1 & E2 & E3 & E4 & _).
    split_and!; [by rewrite Hr| |done| |done].
    + intros [?|[Hf _]%Hfs]%elem_of_app_option; [done|]. destruct (in_loop_only y n Hy Hf) as (_ & _ & ? & _). congruence.
    + intros [Ha Hb]%Hsp [?|?]%elem_of_app_option; [by apply E4|done].
  - intros n Hn. assert (UpCall n ∈ sy_up y ∨ loop_call (sy_reading y) (w_loop (sy_world y)) = Some n) as Hn'.
    { destruct Hn as [?|Hn]; [by left|]. right. simpl in Hn. destruct Hlc as [E|E]; congruence. }
    destruct (H10 n Hn') as (E1 & E2 & E3). split_and!.
    + intros [?|(t & ? & _)%Hsn]%elem_of_app_option; [done|congruence].
    + intros [?|[Hf Hno]%Hfs]%elem_of_app_option; [done|]. destruct (in_loop_only y n Hy Hf) as (_ & _ & _ & Hup).
      destruct Hn as [?|Hn]; [done|]. simpl in Hn. congruence.
    + destruct (w_tasks v !! n) as [t'|] eqn:Ht'; [|done]. destruct (Hts n t' Ht') as (t & ? & _). congruence.
  - split.
    + subst y'. simpl. apply NoDup_app. split_and!; [apply H11| |destruct st; simpl; [apply NoDup_singleton|constructor]].
      intros n Hn Hs. destruct (elem_of_app_option n [] st) as [Hso _]. destruct (Hso Hs) as [?%not_elem_of_nil|Hs']; [done|].
      by destruct (Hsn n Hs') as (_ & _ & ? & _).
    + intros n [Hn|(_ & _ & _ & ?)%Hsn]%elem_of_app_option; [by apply H11|done].
  - intros n Hn. apply elem_of_app_option in Hn as [Hn|[Hf _]%Hfs].
    + destruct (H12 n Hn) as [? Hns]. split; [done|]. intros [?|(t & Ht & _)%Hsn]%elem_of_app_option; [done|].
      by destruct (H9 n t Ht) as (_ & ? & _).
    + destruct (in_loop_only y n Hy Hf) as (? & ? & ? & _). split; [done|].
      intros [?|(t & Ht & _)%Hsn]%elem_of_app_option; [done|congruence].
  - intros n r [?|?]%elem_of_app; [by apply Hg, H13|by apply Hds].
  - intros r Hr. destruct (H14 r Hr) as (n & ? & ?). exists n. auto.
  - intros n c r Hc Hs. destruct (H15 n c r Hc Hs) as (m & ? & ?). exists m. auto.
Qed.

Lemma writes_none y e v : w_replied v = w_replied (sy_world y) → writes y e v = [].
Proof. intros Hv. unfold writes. by rewrite Hv, drop_all. Qed.

Lemma writes_one y e v r : w_replied v = w_replied (sy_world y) ++ [r] → writes y e v = [(answers_call y e r, r)].
Proof. intros Hv. unfold writes. by rewrite Hv, drop_app_length. Qed.

Lemma after_uncut y e v :
  linked y → uncut e = true →
  after_listener y e v =
    System (sy_link y) v (sy_up y) (sy_down y ++ writes y e v) (sy_reading y)
      (sy_started y ++ match e with TaskStart n => [n] | _ => [] end)
      (sy_returned y ++ match e with HandlerReturns n r => [(n, r)] | _ => [] end)
      (sy_refused y ++ match e with LoopWrite _ => omap fst (writes y e v) | _ => [] end) (sy_torn y).
Proof. intros Hy Hu. unfold after_listener, tears. by rewrite Hu, (i_whole _ Hy). Qed.

(** A task that is where it was. *)
Definition stays (w v : world) (n : nat) (t' : task) : Prop :=
  ∃ t, w_tasks w !! n = Some t ∧ tk_at t' = tk_at t ∧ tk_request t' = tk_request t.

Lemma stays_same w v : w_tasks v = w_tasks w → ∀ n t', w_tasks v !! n = Some t' → stays w v n t'.
Proof. intros Hv n t' Ht'. exists t'. by rewrite <- Hv. Qed.

Lemma stays_delete w v n : w_tasks v = delete n (w_tasks w) → ∀ m t', w_tasks v !! m = Some t' → stays w v m t'.
Proof. intros Hv m t'. rewrite Hv. intros [_ Ht']%lookup_delete_Some. by exists t'. Qed.

Lemma stays_close w n t' : w_tasks (close w) !! n = Some t' → stays w (close w) n t'.
Proof.
  unfold stays, close. destruct (w_closed w); [eauto|]. rewrite (a_tasks _ _ (clear_leases_aside _)). simpl.
  rewrite map_lookup_imap. destruct (w_tasks w !! n) as [t|]; [|done]. intros [= <-]. eauto.
Qed.

Lemma at_task_stays w v n : (∀ t', w_tasks v !! n = Some t' → stays w v n t') → at_task n v ≤ at_task n w.
Proof.
  intros Hs. unfold at_task at 1. destruct (w_tasks v !! n) as [t'|] eqn:Ht'; [|apply at_task_bounds].
  destruct (Hs t' eq_refl) as (t & Ht & Ha & _). unfold at_task. rewrite Ht. unfold owes. by rewrite Ha.
Qed.

Lemma stays_task y n t' v rs :
  linked y → stays (sy_world y) v n t' → ∃ t, w_tasks (sy_world y) !! n = Some t ∧ tk_request t' = tk_request t ∧
    (tk_at t' = TSpawned → tk_at t = TSpawned) ∧ bears (sy_returned y ++ rs) n (tk_at t').
Proof.
  intros Hy (t & Ht & Ha & Hr). exists t. split_and!; [done..|by rewrite Ha|]. rewrite Ha. apply bears_app, (i_task _ Hy n t Ht).
Qed.

(** Steps that write nothing and start nothing. *)
Definition silent (e : NativeServer.event) : bool :=
  match e with TaskStart _ | HandlerReturns _ _ | LoopWrite _ | TaskWrite _ _ => false | _ => true end.

(** The loop moves on, and no task does. *)
Lemma linked_quiet y e v :
  linked y → silent e = true → w_replied v = w_replied (sy_world y) →
  (∀ n t', w_tasks v !! n = Some t' → stays (sy_world y) v n t') →
  loop_linked (sy_reading y) (w_loop v) →
  (loop_call (sy_reading y) (w_loop v) = loop_call (sy_reading y) (w_loop (sy_world y)) ∨ loop_call (sy_reading y) (w_loop v) = None) →
  linked (after_listener y e v).
Proof.
  intros Hy He Hr Hts Hll Hlc. rewrite after_uncut by (done || by destruct e). rewrite (writes_none _ _ _ Hr).
  assert (linked (System (sy_link y) v (sy_up y) (sy_down y ++ []) (sy_reading y) (sy_started y ++ option_list None)
             (sy_returned y ++ []) (sy_refused y ++ option_list None) (sy_torn y))) as Hl; [|by destruct e].
  apply linked_listener; try done.
  - intros n t' Ht'. destruct (stays_task y n t' v [] Hy (Hts n t' Ht')) as (t & H1 & H2 & H3 & H4).
    exists t. split_and!; try done. auto.
  - intros n. pose proof (at_task_stays (sy_world y) v n (Hts n)). change (times (Some n) _) with 0. unfold at_loop. simpl.
    destruct Hlc as [-> | ->]; [lia|]. pose proof (at_loop_bounds n y). unfold at_loop in *. rewrite bool_decide_false by done. lia.
  - by intros n r ?%not_elem_of_nil.
Qed.

Lemma refusal_error x status type_name :
  status ∈ [MalformedProtocol; Fenced; MethodNotFound; ConcurrencyRefused] → refusal (reply_error x status type_name).
Proof. intros Hs. exists status, type_name. by split. Qed.

(** The loop turns a request down. *)
Lemma turned_down reading rq n status type_name leave :
  reading = Some n → rq = requests n → status ∈ [MalformedProtocol; Fenced; MethodNotFound; ConcurrencyRefused] →
  let l := LWrite (reply_error (rq_request_id rq) status type_name) leave in
  loop_linked reading l ∧ (loop_call reading l = reading ∨ loop_call reading l = None).
Proof.
  intros -> -> Hs. cbn [loop_linked loop_call]. split; [|case_bool_decide; auto]. split; [by apply refusal_error|].
  right. by exists n.
Qed.

(** A step of the loop that keeps the request in hand or turns it down. *)
Lemma linked_turn y e v :
  linked y → silent e = true → w_replied v = w_replied (sy_world y) → w_tasks v = w_tasks (sy_world y) →
  loop_call (sy_reading y) (w_loop (sy_world y)) = sy_reading y →
  loop_linked (sy_reading y) (w_loop v) ∧
    (loop_call (sy_reading y) (w_loop v) = sy_reading y ∨ loop_call (sy_reading y) (w_loop v) = None) →
  linked (after_listener y e v).
Proof. intros Hy He Hr Ht Hl [H1 H2]. apply linked_quiet; try done; [by apply stays_same|]. by rewrite Hl. Qed.

(** One task moves. *)
Lemma linked_move y v n t x ds st rs :
  linked y → w_tasks (sy_world y) !! n = Some t → w_loop v = w_loop (sy_world y) →
  (∀ m t', m ≠ n → w_tasks v !! m = Some t' → stays (sy_world y) v m t') →
  w_tasks v !! n = Some x → tk_request x = tk_request t → tk_at x ≠ TSpawned →
  bears (sy_returned y ++ rs) n (tk_at x) →
  (st = None ∨ st = Some n ∧ tk_at t = TSpawned) →
  (ds = [] ∧ (owes x = true → owes t = true) ∨
   owes x = false ∧ owes t = true ∧ ∃ r, ds = [(Some n, r)] ∧ carries t = Some r) →
  linked (System (sy_link y) v (sy_up y) (sy_down y ++ ds) (sy_reading y) (sy_started y ++ option_list st)
            (sy_returned y ++ rs) (sy_refused y ++ option_list None) (sy_torn y)).
Proof.
  intros Hy Ht Hl Hm Hx Hrq Hsp Hc Hst Hds. apply linked_listener; try done.
  - intros m t' Ht'. destruct (decide (m = n)) as [->|Hne].
    + assert (t' = x) as -> by congruence. exists t. by split_and!.
    + destruct (stays_task y m t' v rs Hy (Hm m t' Hne Ht')) as (t0 & H1 & H2 & H3 & H4). exists t0. split_and!; try done.
      intros Hs. split; [auto|]. destruct Hst as [->|[-> _]]; [done|]. by intros [= ->].
  - intros m ->. destruct Hst as [?|[[= ->] ?]]; [done|]. eauto.
  - left. by rewrite Hl.
  - rewrite Hl. apply Hy.
  - intros m. unfold at_loop. simpl. rewrite Hl. destruct (decide (m = n)) as [->|Hne].
    + unfold at_task. rewrite Hx, Ht. destruct Hds as [[-> Ho]|(-> & -> & r & -> & _)].
      * change (times (Some n) _) with 0. destruct (owes x); [rewrite Ho by done|destruct (owes t)]; lia.
      * cbn [fmap list_fmap fst]. rewrite times_cons, (bool_decide_true (Some n = Some n)) by done. change (times (Some n) []) with 0. lia.
    + pose proof (at_task_stays (sy_world y) v m (λ t', Hm m t' Hne)). rewrite times_zero; [lia|].
      destruct Hds as [[-> _]|(_ & _ & r & -> & _)]; [apply not_elem_of_nil|]. simpl. rewrite list_elem_of_singleton. congruence.
  - intros m r Hr. destruct Hds as [[-> _]|(_ & _ & r' & -> & Hcar)]; [by apply not_elem_of_nil in Hr|].
    apply list_elem_of_singleton in Hr as [= -> ->]. destruct (i_task _ Hy n t Ht) as (_ & _ & _ & _ & Ha).
    apply (bears_carries _ _ _ r') in Ha; [|done]. split; [destruct Ha as (w & _ & Ha); by apply answer_of_id in Ha|].
    right. eapply answers_grow; [|exact Ha]. intros a Hin. apply elem_of_app. by left.
Qed.

Lemma task_to_others n a t w :
  w_tasks w !! n = Some t → ∀ m t', m ≠ n → w_tasks (task_to n a w) !! m = Some t' → stays w (task_to n a w) m t'.
Proof. intros Ht m t' Hne. rewrite (task_to_insert _ _ t), lookup_insert_ne by done. by exists t'. Qed.

Lemma task_to_self n a t w : w_tasks w !! n = Some t → w_tasks (task_to n a w) !! n = Some (at_stage t a).
Proof. intros Ht. by rewrite (task_to_insert _ _ t), lookup_insert_eq. Qed.

(** A task moves to [a]; [u] is what the rest of the step made of the world. *)
Lemma linked_task_to y u n t a ds st rs :
  linked y → w_tasks (sy_world y) !! n = Some t → aside u (sy_world y) ∨ w_loop u = w_loop (sy_world y) ∧ w_tasks u = w_tasks (sy_world y) →
  a ≠ TSpawned → bears (sy_returned y ++ rs) n a → (st = None ∨ st = Some n ∧ tk_at t = TSpawned) →
  (ds = [] ∧ (owes (at_stage t a) = true → owes t = true) ∨
   owes (at_stage t a) = false ∧ owes t = true ∧ ∃ r, ds = [(Some n, r)] ∧ carries t = Some r) →
  linked (System (sy_link y) (task_to n a u) (sy_up y) (sy_down y ++ ds) (sy_reading y) (sy_started y ++ option_list st)
            (sy_returned y ++ rs) (sy_refused y ++ option_list None) (sy_torn y)).
Proof.
  intros Hy Ht Hu Ha Hb Hst Hds.
  assert (w_loop u = w_loop (sy_world y) ∧ w_tasks u = w_tasks (sy_world y)) as [Hl Hts] by (destruct Hu as [[]|]; done).
  apply (linked_move y _ n t (at_stage t a)); try done.
  - intros m t' Hne Ht'. destruct (task_to_others n a t u) with m t' as (t0 & H1 & H2); [by rewrite Hts|done..|].
    exists t0. by rewrite <- Hts.
  - apply task_to_self. by rewrite Hts.
Qed.

Lemma admit_blobs_at r owners :
  admit_blobs s r owners = TAnswer r ∨
  owners ≠ [] ∧ (admit_blobs s r owners = TAnswer (reject_blob_response r) ∨
    ∃ refs bytes, admit_blobs s r owners = TAcquire 0 r refs bytes).
Proof.
  unfold admit_blobs. destruct owners as [|b owners]; [by left|].
  destruct (unique_blobs (b :: owners) [] 0) as [[[|o us] y]|]; [by left|right; split; [done|]..|right; by split; [|left]].
  destruct (_ <? _); auto. destruct (_ <? _); eauto.
Qed.

(** The handler returns. *)
Lemma linked_returns y n t r :
  linked y → w_tasks (sy_world y) !! n = Some t → tk_at t = TRunning →
  linked (System (sy_link y) (task_to n (admit_blobs s (reply_of (rid t) r) (rs_blob_owners r)) (sy_world y)) (sy_up y)
            (sy_down y ++ []) (sy_reading y) (sy_started y ++ option_list None) (sy_returned y ++ [(n, r)])
            (sy_refused y ++ option_list None) (sy_torn y)).
Proof.
  intros Hy Ht Hat. destruct (i_task _ Hy n t Ht) as (Hrq & _).
  assert (rid t = call_id n) as -> by (unfold rid; by rewrite Hrq).
  assert ((n, r) ∈ sy_returned y ++ [(n, r)]) as Hin by (apply elem_of_app; right; by left).
  assert (owes t = true) as Ho by (unfold owes; by rewrite Hat).
  apply (linked_task_to y (sy_world y) n t); [done|done|by left| | |by left|by left].
  - destruct (admit_blobs_at (reply_of (call_id n) r) (rs_blob_owners r)) as [-> |(_ & [-> |(a & b & ->)])]; done.
  - destruct (admit_blobs_at (reply_of (call_id n) r) (rs_blob_owners r)) as [-> |(? & [-> |(a & b & ->)])]; cbn [bears];
      exists r; (split; [done|]); unfold answer_of; auto.
Qed.

Lemma linked_acquire y n t k r refs bytes v :
  linked y → w_tasks (sy_world y) !! n = Some t → tk_at t = TAcquire k r refs bytes →
  acquire_next n k r refs bytes (sy_world y) = Some v →
  linked (System (sy_link y) v (sy_up y) (sy_down y ++ []) (sy_reading y) (sy_started y ++ option_list None)
            (sy_returned y ++ []) (sy_refused y ++ option_list None) (sy_torn y)) ∧ w_replied v = w_replied (sy_world y).
Proof.
  intros Hy Ht Hat H. destruct (i_task _ Hy n t Ht) as (_ & _ & _ & _ & Hb). rewrite Hat in Hb. pose proof Hb as (v0 & Hv0 & Hb0 & Hr).
  assert (owes t = true) as Ho by (unfold owes; by rewrite Hat).
  assert (answers (sy_returned y ++ []) n (reject_blob_response r)) as Hrej.
  { exists v0. split; [apply elem_of_app; by left|]. right. split; [done|]. right. by rewrite Hr. }
  assert (∀ j, bears (sy_returned y ++ []) n (TAcquire j r refs bytes)) as Hacq by (intros j; by apply bears_app).
  unfold acquire_next in H. destruct k as [|[|[|k]]]; try done; destruct (try_acquire _ _ _); injection H as <-; (split; [|done]);
    apply (linked_task_to y _ n t); auto.
Qed.

Lemma linked_track y n t r refs bytes ok :
  linked y → w_tasks (sy_world y) !! n = Some t → tk_at t = TAcquire 3 r refs bytes →
  linked (System (sy_link y) (track n r refs bytes ok (sy_world y)) (sy_up y) (sy_down y ++ []) (sy_reading y)
            (sy_started y ++ option_list None) (sy_returned y ++ []) (sy_refused y ++ option_list None) (sy_torn y)) ∧
  w_replied (track n r refs bytes ok (sy_world y)) = w_replied (sy_world y).
Proof.
  intros Hy Ht Hat. destruct (i_task _ Hy n t Ht) as (_ & _ & _ & _ & Hb). rewrite Hat in Hb. destruct Hb as (v0 & Hv0 & Hb0 & Hr).
  assert (owes t = true) as Ho by (unfold owes; by rewrite Hat).
  assert (∀ q, answer_of (call_id n) v0 q → answers (sy_returned y ++ []) n q) as Hans.
  { intros q Hq. exists v0. split; [apply elem_of_app; by left|done]. }
  unfold track. destruct ok.
  - pose proof (remove_lease_aside (rp_request_id r) (sy_world y)) as Ha.
    split; [|simpl; by injection (remove_lease_sent (rp_request_id r) (sy_world y))].
    apply (linked_task_to y _ n t); try done; auto; [right; split; apply Ha|].
    apply Hans. right. split; [done|]. left. by rewrite Hr.
  - split; [|done]. apply (linked_task_to y _ n t); try done; auto. apply Hans. right. split; [done|]. right. by rewrite Hr.
Qed.

(** A task writes its reply, or finds that it cannot. *)
Lemma linked_task_write y n t r v :
  linked y → w_tasks (sy_world y) !! n = Some t → tk_at t = TWrite r →
  task_step s (sy_world y) n t (TaskWrite n Whole) = Some v → linked (after_listener y (TaskWrite n Whole) v).
Proof.
  intros Hy Ht Hat. unfold task_step. rewrite Hat. pose proof (write_sent s r Whole (sy_world y)) as Hs.
  pose proof (write_aside s r Whole (sy_world y)) as Ha. destruct (write s r Whole (sy_world y)) as [ok u]. intros [= <-].
  cbn [fst snd] in Hs, Ha. rewrite after_uncut by done. destruct Hs as [(body & _ & -> & _ & Hs)|(-> & Hs & _)].
  - rewrite (writes_one _ _ _ r) by (by injection Hs as _ Hs).
    apply (linked_task_to y u n t TUntoken _ None []); try done; [by left|by left|]. right. split_and!; [done| |].
    + unfold owes. by rewrite Hat.
    + exists r. split; [done|]. unfold carries. by rewrite Hat.
  - rewrite writes_none by done.
    apply (linked_task_to y u n t TClose _ None []); try done; [by left|by left|]. left. split; done.
Qed.

(** The other steps of a task. *)
Lemma linked_task_step y n t e v :
  linked y → w_tasks (sy_world y) !! n = Some t → task_step s (sy_world y) n t e = Some v → uncut e = true →
  (match e with TaskStart m | HandlerReturns m _ | TaskWrite m _ => m = n | _ => True end) →
  linked (after_listener y e v).
Proof.
  intros Hy Ht H Hu Hn. pose proof Ht as Ht'. pose proof H as Hst. unfold task_step in H.
  destruct (i_task _ Hy n t Ht) as (_ & _ & _ & _ & Hb).
  destruct e, (tk_at t) eqn:Hat; try done; try subst n0; rewrite after_uncut by done.
  - injection H as <-. rewrite writes_none by done. apply (linked_task_to y _ n t _ _ (Some n) []); auto. left. split; [done|].
    unfold owes. by rewrite Hat.
  - injection H as <-. rewrite writes_none by done. by apply (linked_returns y n t r).
  - injection H as <-. rewrite writes_none by done.
    apply (linked_move y _ n t (Task (tk_request t) TPanicked false (tk_cancelled t)) _ None []); try done; simpl; auto.
    + intros m t' Hne. rewrite lookup_insert_ne by done. by exists t'.
    + by rewrite lookup_insert_eq.
    + left. split; done.
  - destruct (linked_acquire y n t held r refs bytes v Hy Ht Hat H) as [Hl Hr]. by rewrite writes_none.
  - destruct held as [|[|[|[|k]]]]; try done. injection H as <-.
    destruct (linked_track y n t r refs bytes ok Hy Ht Hat) as [Hl Hr]. by rewrite writes_none.
  - injection H as <-. rewrite writes_none by done.
    apply (linked_move y _ n t (Task (tk_request t) (TWrite r) false (tk_cancelled t)) _ None []); try done; simpl; auto.
    + intros m t' Hne. rewrite lookup_insert_ne by done. by exists t'.
    + by rewrite lookup_insert_eq.
    + eapply answers_grow; [|exact Hb]. intros a Hin. apply elem_of_app. by left.
    + left. split; [done|]. unfold owes. by rewrite Hat.
  - destruct o; [|done]. rewrite <- (after_uncut y (TaskWrite n Whole) v Hy eq_refl). by apply (linked_task_write y n t r).
  - injection H as <-. destruct (close_frame (sy_world y)) as (Hcl & _). injection (close_sent (sy_world y)) as _ Hcs.
    rewrite writes_none by done. destruct (w_tasks (close (sy_world y)) !! n) as [x|] eqn:Hx.
    + destruct (stays_close _ _ _ Hx) as (t0 & Ht0 & Ha0 & Hr0). assert (t0 = t) as -> by congruence.
      apply (linked_move y _ n t (at_stage x TUntoken) _ None []); try done; simpl; auto.
      * intros m t' Hne. rewrite lookup_alter_ne by done. intros Hm. by destruct (stays_close _ _ _ Hm) as (t1 & ? & ?); exists t1.
      * by rewrite lookup_alter_eq, Hx.
      * left. split; done.
    + exfalso. revert Hx. unfold close. destruct (w_closed (sy_world y)); [by rewrite Ht|].
      rewrite (a_tasks _ _ (clear_leases_aside _)). simpl. by rewrite map_lookup_imap, Ht.
  - injection H as <-. rewrite writes_none by done. apply (linked_task_to y _ n t _ _ None []); auto. left. split; done.
  - injection H as <-. rewrite writes_none by done. apply (linked_task_to y _ n t _ _ None []); auto. left. split; done.
Qed.

(** The loop writes: what it refuses goes to the call whose frame it read. *)
Lemma linked_loop_write y r leave :
  linked y → w_loop (sy_world y) = LWrite r leave →
  linked (after_listener y (LoopWrite Whole) (set_loop (if leave then LLeft else LTop) (write s r Whole (sy_world y)).2)).
Proof.
  intros Hy Hl. set (v := set_loop _ _). pose proof (i_loop _ Hy) as Hll. rewrite Hl in Hll. destruct Hll as [Href Hid].
  assert (w_tasks v = w_tasks (sy_world y)) as Hts by apply (write_aside s r Whole (sy_world y)).
  assert (loop_call (sy_reading y) (w_loop v) = None) as Hno by (by destruct leave).
  assert (loop_linked (sy_reading y) (w_loop v)) as Hll' by (by destruct leave).
  assert (∀ rs n t', w_tasks v !! n = Some t' → ∃ t, w_tasks (sy_world y) !! n = Some t ∧ tk_request t' = tk_request t ∧
    (tk_at t' = TSpawned → tk_at t = TSpawned ∧ None ≠ Some n) ∧ bears (sy_returned y ++ rs) n (tk_at t')) as Htask.
  { intros rs n t' Ht'. destruct (stays_task y n t' v rs Hy (stays_same _ _ Hts n t' Ht')) as (t & ? & ? & ? & ?).
    exists t. split_and!; try done. auto. }
  assert (∀ n, at_task n v = at_task n (sy_world y)) as Hat by (intros n; unfold at_task; by rewrite Hts).
  rewrite after_uncut by done. destruct (write_sent s r Whole (sy_world y)) as [(body & _ & _ & _ & Hs)|(_ & Hs & _)].
  - rewrite (writes_one y _ v r) by (by injection Hs as _ Hs). cbn [answers_call]. case_bool_decide as Hnil.
    + apply (linked_listener y v [(None, r)] None [] None); auto; try done.
      * intros n. rewrite Hat. unfold at_loop. cbn [sy_reading sy_world]. rewrite Hno, Hl. simpl.
        rewrite times_cons. rewrite !(bool_decide_false (None = Some n)) by done. change (times (Some n) []) with 0.
        case_bool_decide; lia.
      * intros n q Hq%list_elem_of_singleton. done.
    + destruct Hid as [?|(n & Hn & Hid)]; [done|]. replace [(sy_reading y, r)] with [(Some n, r)] by (by rewrite Hn).
      apply (linked_listener y v [(Some n, r)] None [] (Some n)); auto; try done.
      * intros m [= <-]. rewrite Hl. simpl. rewrite bool_decide_false by done. auto.
      * intros m. rewrite Hat. unfold at_loop. cbn [sy_reading sy_world]. rewrite Hno, Hl. simpl.
        rewrite times_cons, Hn. rewrite (bool_decide_false (_ = [])) by done.
        change (times (Some m) []) with 0. lia.
      * intros m q [= -> ->]%list_elem_of_singleton. split; [done|]. left. split; [|done]. apply elem_of_app. right. by left.
  - rewrite writes_none by done. apply (linked_listener y v [] None [] None); auto; try done.
    + intros n. rewrite Hat. unfold at_loop at 1. cbn [sy_reading sy_world]. rewrite Hno. rewrite bool_decide_false by done.
      change (times (Some n) _) with 0. pose proof (at_loop_bounds n y). lia.
    + by intros n q ?%not_elem_of_nil.
Qed.

(** The loop hands the request it read to a task. *)
Lemma linked_spawn y n rq permit v :
  linked y → w_loop (sy_world y) = LSpawn rq permit → sy_reading y = Some n →
  loop_step s (sy_world y) (Spawn n) = Some v → linked (after_listener y (Spawn n) v).
Proof.
  intros Hy Hl Hr H. unfold loop_step in H. rewrite Hl in H. case_bool_decide as Hn; [done|]. apply eq_None_not_Some in Hn.
  injection H as <-. rewrite after_uncut by done. rewrite writes_none by done. rewrite !app_nil_r.
  assert (loop_call (sy_reading y) (w_loop (sy_world y)) = Some n) as Hlc by (by rewrite Hl).
  destruct (i_fresh _ Hy n (or_intror Hlc)) as (Hns & Hnf & _). pose proof (i_loop _ Hy) as Hll. rewrite Hl in Hll.
  destruct Hll as (n' & Hn' & Hrq). assert (n' = n) as -> by congruence.
  assert (at_loop n y = 1) as Hal by (unfold at_loop; by rewrite bool_decide_true).
  set (y' := System _ _ _ _ _ _ _ _ _). assert (∀ m, under_way m y' = under_way m y) as Hw.
  { intros m. unfold under_way, at_loop, at_task, y'. simpl. rewrite Hl. simpl. rewrite Hr.
    destruct (decide (m = n)) as [->|Hne].
    - rewrite lookup_insert_eq, Hn, bool_decide_true by done. simpl. lia.
    - rewrite lookup_insert_ne, bool_decide_false by congruence. lia. }
  assert (1 ≤ under_way n y ∧ (UpCall n ∈ sy_up y → 2 ≤ under_way n y)) as [Hone Htwo].
  { unfold under_way. pose proof (at_task_bounds n (sy_world y)). pose proof (times_nonneg (UpCall n) (sy_up y)).
    pose proof (times_nonneg (Some n) (sy_down y).*1). split; [lia|]. intros ?%times_pos. lia. }
  pose proof (i_one _ Hy n) as Hle. destruct Hy. split; try done; subst y'; simpl.
  - intros m. rewrite Hw. apply i_one0.
  - intros m. rewrite Hw. apply i_open0.
  - intros m t [[<- <-]|[_ Ht]]%lookup_insert_Some; [|by apply i_task0]. split_and!; try done.
    apply (o_unanswered _ i_orderly0), i_open0, Hone.
  - intros m [Hm|?]; [|done]. destruct (i_fresh0 m (or_introl Hm)) as (? & ? & ?). split_and!; try done.
    rewrite lookup_insert_ne; [done|]. intros ->. apply Htwo in Hm. lia.
Qed.

Lemma others_step_loop w e v : others_step w e = Some v → w_loop v = w_loop w ∧ silent e = true.
Proof.
  destruct e; try done; cbn [others_step].
  - by intros [= <-].
  - by intros [= <-].
  - destruct (try_acquire refs bytes (w_process_blobs w)); [|done]. cbn [mbind option_bind].
    destruct (if at_server then _ else _); [|done]. cbn [mbind option_bind].
    destruct ((0 <=? refs) && (0 <=? bytes)); [|done]. by intros [= <-].
  - destruct (w_others w !! i) as [[[b r] y]|]; [|done]. by intros [= <-].
  - destruct (take_flight (w_admission w)); [|done]. by intros [= <-].
  - case_match; [|done]. by intros [= <-].
Qed.

(** The loop joins a task that is over. *)
Lemma linked_join y n v : linked y → loop_step s (sy_world y) (Join n) = Some v → linked (after_listener y (Join n) v).
Proof.
  intros Hy H. unfold loop_step in H. set (d := set_tasks (delete n (w_tasks (sy_world y))) (sy_world y)) in *.
  injection (close_sent d) as _ Hcs. destruct (close_frame d) as (Hcl & _). pose proof (i_loop _ Hy) as Hll.
  assert (∀ m t', w_tasks d !! m = Some t' → stays (sy_world y) d m t') as Hd by (by apply (stays_delete _ _ n)).
  assert (∀ v m t', w_tasks v = w_tasks (close d) → w_tasks v !! m = Some t' → stays (sy_world y) v m t') as Hc.
  { intros u m t' -> Hm. destruct (stays_close _ _ _ Hm) as (t1 & Ht1 & Ha & Hr). destruct (Hd _ _ Ht1) as (t2 & ? & ? & ?).
    exists t2. split_and!; congruence. }
  destruct (w_loop (sy_world y)) eqn:Hl; try done; (destruct (w_tasks (sy_world y) !! n) as [t|]; [|done]; cbn [mbind option_bind] in H;
    destruct (tk_at t); try done; injection H as <-; apply linked_quiet; try done; try (by intros; eapply Hc); simpl; rewrite ?Hcl; simpl; rewrite ?Hl; auto).
Qed.

(** The tenure and the method are checked. *)
Lemma linked_check_owner y rq :
  linked y → w_loop (sy_world y) = LOwned rq → linked (after_listener y CheckOwner (check_owner s rq (sy_world y))).
Proof.
  intros Hy Hl. pose proof (i_loop _ Hy) as Hll. rewrite Hl in Hll. destruct Hll as (n & Hn & Hrq).
  assert (let l := w_loop (check_owner s rq (sy_world y)) in
    loop_linked (sy_reading y) l ∧ (loop_call (sy_reading y) l = sy_reading y ∨ loop_call (sy_reading y) l = None)) as [H1 H2].
  { unfold check_owner. cbn [set_loop w_loop]. repeat case_match; try (by apply (turned_down _ _ n); [..|set_solver]).
    all: split; [by exists n|by left]. }
  apply linked_quiet; try done; [by apply stays_same|]. by rewrite Hl.
Qed.

(** [rmp_serde] reads back what it wrote, a request whole or its id alone. *)
Hypothesis enc_header : ∀ p, sv_header s (enc (request_of p)) = Some (rq_request_id (request_of p)).
Hypothesis enc_request : ∀ p, sv_request s (enc (request_of p)) = Some (request_of p).
#[local] Set Default Proof Using "Type*".

(** The loop looks at the frame. *)
Lemma linked_decide y bytes :
  linked y → w_loop (sy_world y) = LFrame bytes → linked (after_listener y Decide (decide_frame s bytes (sy_world y))).
Proof.
  intros Hy Hl. pose proof (i_loop _ Hy) as Hll. rewrite Hl in Hll. set (v := decide_frame s bytes (sy_world y)).
  assert (w_replied v = w_replied (sy_world y) ∧ w_tasks v = w_tasks (sy_world y)) as [Hr Ht].
  { subst v. unfold decide_frame. repeat case_match; try done. simpl.
    injection (remove_lease_sent (rq_request_id r) (sy_world y)) as _ ->. split; [done|]. apply remove_lease_aside. }
  assert (loop_linked (sy_reading y) (w_loop v) ∧
    (loop_call (sy_reading y) (w_loop v) = sy_reading y ∨ loop_call (sy_reading y) (w_loop v) = None)) as [H1 H2].
  { subst v. simpl in Hll. destruct (sy_reading y) as [n|] eqn:Hn.
    - pose proof (enc_header (UpCall n)) as E1. pose proof (enc_request (UpCall n)) as E2. cbn [request_of] in E1, E2.
      unfold decide_frame. rewrite Hll, E1, E2. destruct (validate_request (requests n)); cbn [negb].
      + case_bool_decide; cbn [set_loop w_loop]; [by split; [|right]|]. split; [by exists n|by left].
      + by apply (turned_down _ _ n); [..|set_solver].
    - destruct Hll as (x & Hx & ->). pose proof (enc_header (UpAck x)) as E1. pose proof (enc_request (UpAck x)) as E2.
      cbn [request_of] in E1, E2. unfold decide_frame. rewrite E1, E2, ack_valid by done. by split; [|right]. }
  apply linked_quiet; try done; [by apply stays_same|]. by rewrite Hl.
Qed.

(** Every other step of the loop. *)
Lemma linked_loop_step y e v :
  linked y → by_listener y e = true → uncut e = true → loop_step s (sy_world y) e = Some v → linked (after_listener y e v).
Proof.
  intros Hy Hb Hu H. pose proof (i_loop _ Hy) as Hll. destruct e; try done; try (by apply linked_join).
  all: try (destruct (w_loop (sy_world y)) eqn:Hl; unfold loop_step in H; rewrite Hl in H; try done; injection H as <-).
  all: try (by apply linked_quiet; [..|auto]; try done; apply stays_same).
  - apply linked_quiet; try done; [by apply stays_same|..]; simpl; (destruct (w_server_closed (sy_world y) || w_closed (sy_world y)); auto).
  - apply linked_quiet; try done; [by apply stays_same|..|by right]. split; [apply refusal_error; set_solver|by left].
  - apply linked_quiet; try done; [by apply stays_same|..|by right]. split; [apply refusal_error; set_solver|by left].
  - apply linked_quiet; try done; [by apply stays_same|..|by right]. split; [apply refusal_error; set_solver|by left].
  - by apply linked_decide.
  - destruct Hll as (n & Hn & Hrq). apply linked_turn; try done; [by rewrite Hl|]. simpl. case_bool_decide.
    + by apply (turned_down _ _ n); [..|set_solver].
    + split; [by exists n|by left].
  - by apply linked_check_owner.
  - destruct Hll as (n & Hn & Hrq). case_bool_decide; (apply linked_turn; try done; [by rewrite Hl|]).
    + by apply (turned_down _ _ n); [..|set_solver].
    + split; [by exists n|by left].
  - destruct Hll as (n & Hn & Hrq).
    destruct (w_admission (sy_world y)) as [a|]; [destruct (try_acquire_many 1 a)|];
      (apply linked_turn; try done; [by rewrite Hl|]; split; [by exists n|by left]).
  - destruct Hll as (n & Hn & Hrq). apply linked_turn; try done; [by rewrite Hl|]. by apply (turned_down _ _ n); [..|set_solver].
  - cbn [by_listener] in Hb. apply bool_decide_eq_true in Hb. destruct (w_loop (sy_world y)) eqn:Hl;
      pose proof H as H'; unfold loop_step in H'; rewrite Hl in H'; try done. by apply (linked_spawn y n rq permit).
  - destruct o; [|done]. by apply linked_loop_write.
  - destruct (close_frame (sy_world y)) as (Hcl & _). injection (close_sent (sy_world y)) as _ Hcs.
    apply linked_quiet; try done; [|by right]. intros n t' Ht'. apply (stays_close _ _ _ Ht').
  - unfold loop_step in H. destruct (w_loop (sy_world y)) eqn:Hl; try done. case_bool_decide; [|done]. injection H as <-. injection (clear_leases_sent (sy_world y)) as _ Hcs.
    apply linked_quiet; try done; [|by right]. apply stays_same. apply clear_leases_aside.
Qed.

Lemma linked_step y e y' : linked y → mannerly y e = true → step y e = Some y' → linked y'.
Proof.
  intros Hy Hm H. destruct e as [e|e| | |o]; [by eapply linked_client| |by eapply linked_reads|by eapply linked_delivers|];
    [|cbn [step] in H; by rewrite (i_whole _ Hy) in H].
  cbn [step mannerly] in H, Hm. destruct (by_listener y e) eqn:Hb; [|done].
  destruct (NativeServer.step s (sy_world y) e) as [v|] eqn:Hv; [|done]. cbn [mbind option_bind] in H. injection H as <-.
  destruct e; cbn [NativeServer.step] in Hv; try (by apply linked_loop_step);
    try (destruct (w_tasks (sy_world y) !! n) as [t|] eqn:Ht; [|done]; cbn [mbind option_bind] in Hv; by apply (linked_task_step y n t)).
  all: destruct (others_step_onward _ _ _ Hv) as (Hs & _ & Ht); injection Hs as _ Hs; destruct (others_step_loop _ _ _ Hv) as [Hl _];
    apply linked_quiet; [done..|by apply stays_same|rewrite Hl; apply Hy|left; by rewrite Hl].
Qed.

Lemma linked_run es y y' : linked y → considerate y es = true → run y es = Some y' → linked y'.
Proof.
  revert y. induction es as [|e es IH]; intros y Hy; simpl; [by intros _ [= <-]|].
  destruct (step y e) as [x|] eqn:Hx; [|done]. simpl. intros [Hm Hc]%andb_prop. apply IH; [by eapply linked_step|done].
Qed.

Lemma considerate_app y es es' y' :
  run y es = Some y' → considerate y (es ++ es') = considerate y es && considerate y' es'.
Proof.
  revert y. induction es as [|e es IH]; intros y; simpl; [by intros [= <-]|].
  destruct (step y e) as [x|]; [|done]. simpl. intros Hr. by rewrite (IH x Hr), andb_assoc.
Qed.

Lemma linked_new mc owned c v p : linked (new_system mc owned c v p).
Proof.
  split; simpl; try (by intros * ?%not_elem_of_nil); try done.
  - apply orderly_new.
  - split; try done; simpl; [by intros c0 ?%not_elem_of_nil|by intros c0 [?|?]].
  - by intros n [?%not_elem_of_nil|?].
  - split; [constructor|]. by intros n ?%not_elem_of_nil.
Qed.

(** A reply on its way finds the call it answers. *)
Lemma delivers_enabled y n r down b :
  linked y → sy_down y = (Some n, r) :: down → cn_reader (conn (sy_link y)) = RReading b → is_Some (step y Delivers).
Proof.
  intros Hy Hd Hr. cbn [step]. rewrite Hd. cbn [ClientConn.step reader_step]. rewrite Hr.
  assert (n ∈ unanswered (sy_link y)) as Hn.
  { apply (i_open _ Hy). unfold under_way. rewrite Hd, fmap_cons, times_cons, (bool_decide_true (Some n = Some n)) by done.
    pose proof (at_loop_bounds n y). pose proof (at_task_bounds n (sy_world y)). pose proof (times_nonneg (UpCall n) (sy_up y)).
    pose proof (times_nonneg (Some n) down.*1). lia. }
  destruct (begun_known (sy_link y) n (i_orderly _ Hy)) as [c Hc]; [right; by apply (o_unanswered _ (i_orderly _ Hy))|].
  destruct (i_down _ Hy n r) as [Hid _]; [rewrite Hd; by left|]. rewrite Hc. cbn [mbind option_bind].
  rewrite (bool_decide_true _ Hn), bool_decide_true by (rewrite Hid; by rewrite (i_ids _ Hy n c Hc)). simpl. eauto.
Qed.

(** A request the loop has accepted finds its task's number free. *)
Lemma spawn_enabled y rq permit :
  linked y → w_loop (sy_world y) = LSpawn rq permit →
  ∃ n, sy_reading y = Some n ∧ is_Some (step y (Listener (Spawn n))).
Proof.
  intros Hy Hl. pose proof (i_loop _ Hy) as Hll. rewrite Hl in Hll. destruct Hll as (n & Hn & _). exists n. split; [done|].
  destruct (in_loop_only y n Hy) as (_ & _ & Ht & _); [by rewrite Hl|]. cbn [step by_listener].
  rewrite bool_decide_true by done. cbn [NativeServer.step]. unfold loop_step. rewrite Hl, Ht.
  rewrite bool_decide_false by (by intros []). simpl. eauto.
Qed.

(** A reply without an id is one the client cannot place: [route] does what
    the reader does when the peer is gone. *)
Lemma stray_ends_reading y r b :
  linked y → cn_reader (conn (sy_link y)) = RReading b → rp_protocol r = RPC_PROTOCOL → rp_request_id r = [] →
  (l ← ClientConn.step (sy_link y) (Invent r); ClientConn.step l Route) = ClientConn.step (sy_link y) PeerGone.
Proof.
  intros Hy Hr Hp Hid. cbn [ClientConn.step reader_step]. rewrite Hr. unfold arrives. cbn [rv_reply]. rewrite Hp.
  rewrite Z.eqb_refl. cbn [mbind option_bind ClientConn.step reader_step with_reader conn with_conn cn_reader].
  assert (∀ x, valid_id x = true → x ≠ []) as Hv by apply valid_not_nil. pose proof (i_named _ Hy) as Hn. unfold route.
  change (st (with_reader _ (sy_link y))) with (st (sy_link y)). cbn [rv_reply]. rewrite Hid.
  destruct (pending (st (sy_link y)) !! []) as [q|] eqn:Hq; [by destruct (Hv _ (nm_pending _ _ Hn _ _ Hq))|].
  destruct (abandoned (st (sy_link y)) !! []) as [q|] eqn:Ha; [by destruct (Hv _ (nm_abandoned _ _ Hn _ _ Ha))|].
  unfold poison, is_healthy. simpl. by destruct (cn_poisoned (conn (sy_link y))).
Qed.

(** What moves the client's connection. *)
Lemma step_link y e y' :
  linked y → mannerly y e = true → step y e = Some y' → sy_link y' = sy_link y ∨
  ∃ e', ClientConn.step (sy_link y) e' = Some (sy_link y') ∧ careful (sy_link y) e' = true.
Proof.
  intros Hy Hm. destruct e as [e|e| | |o]; cbn [step]; intros H; [| | | |by rewrite (i_whole _ Hy) in H].
  - destruct (by_client e) eqn:Hb; [|done]. destruct (ClientConn.step (sy_link y) e) as [l|] eqn:Hl; [|done].
    cbn [mbind option_bind] in H. injection H as <-. right. by exists e.
  - destruct (by_listener y e); [|done]. destruct (NativeServer.step s (sy_world y) e); [|done]. cbn [mbind option_bind] in H.
    injection H as <-. by left.
  - destruct (sy_up y); [done|]. destruct (NativeServer.step s (sy_world y) _); [|done]. cbn [mbind option_bind] in H.
    injection H as <-. by left.
  - destruct (sy_down y) as [|[[n|] r] down]; [done|..];
      (destruct (ClientConn.step (sy_link y) _) as [l|] eqn:Hl; [|done]; cbn [mbind option_bind] in H; injection H as <-; right; eauto).
Qed.

Lemma over_system es y y' n :
  linked y → considerate y es = true → over (sy_link y) n → run y es = Some y' → over (sy_link y') n.
Proof.
  revert y. induction es as [|e es IH]; intros y Hy; simpl; [by intros _ ? [= <-]|].
  destruct (step y e) as [x|] eqn:Hx; [|done]. simpl. intros [Hm Hc]%andb_prop Ho. apply IH; [by eapply linked_step|done|].
  destruct (step_link _ _ _ Hy Hm Hx) as [->|(e' & He' & _)]; [done|]. eapply over_step; [apply Hy|apply Hy|exact He'|done].
Qed.

(** ** The two sides together *)

(** Where a reply that a call was given comes from. *)
Lemma reply_traced mc owned c v p es y n a r :
  run (new_system mc owned c v p) es = Some y → considerate (new_system mc owned c v p) es = true →
  callers (sy_link y) !! n = Some a → ca_sender a = Sent (Delivered r) →
  rp_request_id (rv_reply r) = call_id n ∧
  (n ∉ sy_started y ∧ refusal (rv_reply r) ∨ answers (sy_returned y) n (rv_reply r)).
Proof.
  intros Hr Hco Ha Hse. pose proof (linked_run _ _ _ (linked_new mc owned c v p) Hco Hr) as Hy.
  destruct (i_told _ Hy n a r Ha Hse) as (m & Hm & Hid & Hg).
  destruct (o_own _ (i_orderly _ Hy) n a r Ha Hse) as [Hn _]. assert (m = n) as -> by congruence.
  split; [done|]. destruct Hg as [[Hf ?]|?]; [left|by right]. split; [|done]. apply (i_refused _ Hy n Hf).
Qed.

(** C19: over a connection of the native transport, in every interleaving of the
    two sides and the socket in which no id is registered while an earlier call
    with it still runs or is queued and no write of the listener is cut short, a
    call is given a reply only under its own id, and it is what became of a
    response that the handler returned to this very call, or a refusal of the
    listener, and then its handler was never started.  A handler is
    started at most once for a call, for a frame that was sent, with the request
    that the caller made; the reader never has a reply before it that it
    cannot place, except one that the listener sent without an id; and a
    request that the loop has accepted is given its task. *)
Theorem native_call_end_to_end mc owned c v p es y :
  run (new_system mc owned c v p) es = Some y → considerate (new_system mc owned c v p) es = true →
  (∀ n a r, callers (sy_link y) !! n = Some a → ca_sender a = Sent (Delivered r) →
     rp_request_id (rv_reply r) = call_id n ∧
     (n ∉ sy_started y ∧ refusal (rv_reply r) ∨ answers (sy_returned y) n (rv_reply r))) ∧
  NoDup (sy_started y) ∧ (∀ n, n ∈ sy_started y → n ∈ ClientConn.sent (sy_link y)) ∧
  (∀ n t, w_tasks (sy_world y) !! n = Some t → tk_request t = requests n) ∧
  (∀ n r down b, sy_down y = (Some n, r) :: down → cn_reader (conn (sy_link y)) = RReading b → is_Some (step y Delivers)) ∧
  (∀ rq permit, w_loop (sy_world y) = LSpawn rq permit → ∃ n, sy_reading y = Some n ∧ is_Some (step y (Listener (Spawn n)))).
Proof.
  intros Hr Hco. pose proof (linked_run _ _ _ (linked_new mc owned c v p) Hco Hr) as Hy. split_and!.
  - intros n a r. by eapply reply_traced.
  - apply (i_started _ Hy).
  - apply (i_started _ Hy).
  - intros n t Ht. apply (i_task _ Hy n t Ht).
  - intros n r down b Hd Hb. by eapply delivers_enabled.
  - intros rq permit. by apply spawn_enabled.
Qed.

(** C20: a call that is told [NotDelivered] while the writer is not inside its
    frame may be made again: no handler was started for it, and none will be in
    any continuation, as long as nobody registers its id again while its frame
    is still in the queue and no write of the listener is cut short. *)
Theorem not_delivered_never_runs mc owned c v p es y e y' es' z n :
  run (new_system mc owned c v p) es = Some y → step y e = Some y' → run y' es' = Some z →
  considerate (new_system mc owned c v p) (es ++ e :: es') = true →
  told_not_delivered (sy_link y') n → ¬ told_not_delivered (sy_link y) n → at_hand (sy_link y) ≠ Some n →
  n ∉ sy_started z.
Proof.
  intros Hy He Hz Hco Ht Hnt Hh. rewrite (considerate_app _ _ _ _ Hy) in Hco. apply andb_prop in Hco as [Hc1 Hco].
  cbn [considerate] in Hco. rewrite He in Hco. apply andb_prop in Hco as [Hm Hc2].
  apply (linked_run _ _ _ (linked_new mc owned c v p) Hc1) in Hy.
  pose proof (linked_step _ _ _ Hy Hm He) as Hy'. pose proof (linked_run _ _ _ Hy' Hc2 Hz) as Hlz.
  destruct (step_link _ _ _ Hy Hm He) as [Heq|(e' & He' & Hca)]; [by rewrite Heq in Ht|].
  assert (over (sy_link y') n) as Hov by (by eapply told_over; [apply Hy|apply Hy|..]).
  destruct (over_system _ _ _ _ Hy' Hc2 Hov Hz) as [Hn _]. intros Hs. apply Hn. right. by apply (i_started _ Hlz).
Qed.

End System.

(** ** An exchange to try things on *)

Definition sample_id (n : nat) : pystr := u "job-" ++ [N.of_nat (48 + n)].

(** Call 1 asks for a method that is not served. *)
Definition sample_request (n : nat) : rpc_request :=
  request_call (sample_id n) (u "driver/0#3") (u "engine/2#7") (if bool_decide (n = 1%nat) then u "forget" else u "generate") [].

Definition sample_enc (rq : rpc_request) : list N :=
  (if bool_decide (rq_operation rq = BlobAck) then 1 else 0)%N :: rq_request_id rq.

Definition sample_dec (bytes : list N) : option rpc_request :=
  match bytes with
  | 1%N :: x => Some (request_blob_ack x)
  | _ :: x => n ← last x; Some (sample_request (N.to_nat n - 48))
  | [] => None
  end.

Definition sample_listener : server :=
  Server (u "engine/2#7") [u "generate"] (λ b, rq_request_id <$> sample_dec b) sample_dec (λ r, Some (rp_request_id r ++ rp_payload r)) 64 1000.

Lemma sample_dec_enc p : sample_dec (sample_enc (request_of sample_request p)) = Some (request_of sample_request p).
Proof.
  destruct p as [n|x]; [|done]. change (sample_enc (request_of sample_request (UpCall n))) with (0%N :: sample_id n).
  cbn [sample_dec]. unfold sample_id at 1. rewrite last_snoc. cbn [mbind option_bind].
  replace (N.to_nat (N.of_nat (48 + n)) - 48)%nat with n by lia. done.
Qed.

Lemma sample_header_enc p :
  sv_header sample_listener (sample_enc (request_of sample_request p)) = Some (rq_request_id (request_of sample_request p)).
Proof. cbn [sv_header sample_listener]. by rewrite sample_dec_enc. Qed.

Definition sample_system : system := new_system (Some 2) None (10, 1000) (10, 1000) (10, 1000).

(** Call [n] goes out, and the listener reads its frame and looks at it. *)
Definition goes_out (n : nat) : list event :=
  map Client (calls n (sample_id n) ++ [Receive; WriteDone; Mark]) ++
  map Listener [LoopCheck; LoopReady] ++ [Reads] ++ map Listener [Decide; CheckLease; CheckOwner].

Definition sample_response : response := Response Success [7%N] None None None [].

(** Call 0 is served; call 1 is refused. *)
Definition sample_events : list event :=
  goes_out 0 ++ map Listener [Claim; Acquire; Spawn 0; TaskStart 0] ++ goes_out 1 ++
  map Listener [HandlerReturns 0 sample_response; LoopWrite Whole; TaskAnswer 0; TaskWrite 0 Whole] ++
  [Delivers; Client Route; Delivers; Client Route].

Definition served_system : system :=
  default sample_system (run sample_listener sample_enc sample_request sample_system sample_events).

Lemma native_call_end_to_end_witness :
  (answers sample_request (sy_returned served_system) 0 (reply_success (sample_id 0) [7%N])) ∧
  1%nat ∉ sy_started served_system ∧ NoDup (sy_started served_system) ∧ 0%nat ∈ sy_started served_system.
Proof.
  destruct (native_call_end_to_end sample_listener sample_enc sample_request sample_header_enc sample_dec_enc
    (Some 2) None (10, 1000) (10, 1000) (10, 1000) sample_events served_system) as (H1 & H2 & H3 & H4 & H5 & H6);
    [vm_compute; reflexivity..|].
  pose proof (H1 0%nat (sample_caller (sy_link served_system) 0)
    (Received (reply_success (sample_id 0) [7%N]) (Some 0%nat))) as E0.
  pose proof (H1 1%nat (sample_caller (sy_link served_system) 1)
    (Received (reply_error (sample_id 1) MethodNotFound (u "AttributeError")) (Some 1%nat))) as E1.
  destruct E0 as [_ [[Hn _]|E0]]; [vm_compute; reflexivity..| |]; [exfalso; apply Hn; vm_compute; by left|].
  destruct E1 as [_ [[Hn _]|(q & Hq & _)]]; [vm_compute; reflexivity..| |]; split_and!; try done.
  all: try (vm_compute; by left).
  vm_compute in Hq. apply list_elem_of_singleton in Hq. discriminate Hq.
Defined.

(** The deadline of call 2 passes while the frame of call 0 is being written. *)
Definition sample_queued : list event := map Client (calls 0 (sample_id 0) ++ [Receive] ++ calls 2 (sample_id 2)).
Definition sample_rest : list event :=
  map Client [WriteDone; Mark; Receive] ++ map Listener [LoopCheck; LoopReady] ++ [Reads] ++
  map Listener [Decide; CheckLease; CheckOwner; Claim; Acquire; Spawn 0; TaskStart 0].

Definition sample_after (es : list event) : system :=
  default sample_system (run sample_listener sample_enc sample_request sample_system es).

Lemma not_delivered_never_runs_witness :
  2%nat ∉ sy_started (sample_after (sample_queued ++ [Client (Expire 2)] ++ sample_rest)) ∧
  sy_started (sample_after (sample_queued ++ [Client (Expire 2)] ++ sample_rest)) = [0%nat].
Proof.
  split; [|vm_compute; reflexivity].
  apply (not_delivered_never_runs sample_listener sample_enc sample_request sample_header_enc sample_dec_enc
    (Some 2) None (10, 1000) (10, 1000) (10, 1000) sample_queued (sample_after sample_queued) (Client (Expire 2))
    (sample_after (sample_queued ++ [Client (Expire 2)])) sample_rest); try (vm_compute; reflexivity).
  - eexists. split; [vm_compute; reflexivity|]. right. reflexivity.
  - intros (c & Hc & Ht). vm_compute in Hc. injection Hc as <-. destruct Ht as [[=]|[=]].
  - vm_compute. congruence.
Defined.
