(* ===== verification/Timing.v ===== *)
(** * Time budgets: [_timeout_ms] and [_left_ms]

    Both turn a number of seconds into the whole milliseconds the native side
    waits for; both are computed in binary64, as the interpreter does. *)

From S2P Require Import Prelude PyStr PyFloat Errors.
From Stdlib Require Import SpecFloat.

Local Open Scope Z_scope.

(** What a caller can pass as a timeout: an int, a float, a string (with what
    [float()] reads from it), or something [float()] has no conversion for. *)
Inductive timeout_arg :=
| TInt (z : Z)
| TFloat (x : pyfloat)
| TStr (parsed : option pyfloat)
| TOther.

(** [float(x)] *)
Definition py_float (t : timeout_arg) : res pyfloat :=
  match t with
  | TInt z => let x := round_int z in
              if isfinite x then Ok x else Raise (Exc OverflowError)
  | TFloat x => Ok x
  | TStr (Some x) => Ok x
  | TStr None => Raise (Exc ValueError)
  | TOther => Raise (Exc TypeError)
  end.

(** The exception of [int(x)] and [math.ceil(x)]. *)
Definition conv (r : result conv_error Z) : res Z :=
  match r with
  | Ok z => Ok z
  | Raise ConvInfinity => Raise (Exc OverflowError)
  | Raise ConvNaN => Raise (Exc ValueError)
  end.

(** [_timeout_ms] *)
Definition _timeout_ms (timeout : timeout_arg) : res Z :=
  seconds ← except [TypeError; ValueError] (λ _, Raise (Exc ValueError)) (py_float timeout);
  if negb (isfinite seconds) || SFltb seconds fzero then Raise (Exc ValueError)
  else ms ← conv (ceil (fmul seconds f1000)); Ok (Z.min ms (2 ^ 64 - 1)).

(** [_left_ms] at the moment [now]; [Ok None] once the time is up. *)
Definition _left_ms (now : pyfloat) (deadline : option pyfloat) : res (option Z) :=
  match deadline with
  | None => Ok (Some 3600000)
  | Some d =>
      let left := fsub d now in
      if SFleb left fzero then Ok None
      else ms ← conv (trunc (fmul left f1000)); Ok (Some (ms + 1))
  end.

(** ** Properties *)

Lemma left_ms_raises now deadline e :
  _left_ms now deadline = Raise e → e = Exc OverflowError ∨ e = Exc ValueError.
Proof.
  unfold _left_ms. destruct deadline as [d|]; [|done]. cbv zeta. destruct (SFleb _ _); [done|].
  destruct (trunc _) as [z|[]]; cbn [conv mbind result_bind]; intros H; simplify_res; auto.
Qed.

Lemma conv_ok r z : conv r = Ok z → r = Ok z.
Proof. destruct r as [?|[]]; simpl; naive_solver. Qed.

Lemma f1000_ok : isfinite f1000 = true ∧ nonneg f1000 = true.
Proof. done. Qed.

Lemma timeout_ms_cases (timeout : timeout_arg) :
  match _timeout_ms timeout with
  | Ok ms => 0 ≤ ms < 2 ^ 64 ∧
      ∃ seconds, py_float timeout = Ok seconds ∧ isfinite seconds = true ∧ nonneg seconds = true
  | Raise e => e = Exc ValueError ∨ e = Exc OverflowError
  end.
Proof.
  unfold _timeout_ms, except, catch.
  destruct (py_float timeout) as [seconds|e] eqn:Ef; simpl.
  - destruct (isfinite seconds) eqn:Hf; simpl; [|by left].
    destruct (SFltb seconds fzero) eqn:Hn; [by left|].
    destruct (not_ltb_zero _ Hn) as [->|Hpos]; [done|].
    pose proof (fmul_nonneg _ _ Hf (proj1 f1000_ok) Hpos (proj2 f1000_ok)) as Hm.
    destruct (ceil (fmul seconds f1000)) as [ms|[]] eqn:Hc; simpl; [|auto..].
    pose proof (ceil_nonneg _ _ Hm Hc). split; [lia|]. by exists seconds.
  - destruct timeout as [z|x|[x|]|]; simpl in *; simplify_eq.
    + destruct (isfinite (round_int z)); simplify_eq. simpl. by right.
    + by left.
    + by left.
Qed.

(** A call's budget crosses to the native side as an unsigned 64-bit
    number of milliseconds, and every other argument is refused: with
    [ValueError], or with the [OverflowError] of a number too large for a
    float. *)
Theorem timeout_ms_bounds (timeout : timeout_arg) :
  match _timeout_ms timeout with
  | Ok ms => 0 ≤ ms < 2 ^ 64 ∧
      ∃ seconds, py_float timeout = Ok seconds ∧ isfinite seconds = true ∧ nonneg seconds = true
  | Raise e => e = Exc ValueError ∨ e = Exc OverflowError
  end.
Proof. apply timeout_ms_cases. Qed.

(** A finite timeout can still escape the documented [ValueError]: when a
    thousand times the number of seconds is past the largest float, the
    conversion raises [OverflowError] instead of being clamped. *)
Theorem timeout_ms_overflow (seconds : pyfloat) :
  isfinite seconds = true → nonneg seconds = true → fmul seconds f1000 = S754_infinity false →
  _timeout_ms (TFloat seconds) = Raise (Exc OverflowError).
Proof.
  intros Hf Hn Hm. unfold _timeout_ms. simpl. rewrite Hf.
  assert (SFltb seconds fzero = false) as ->.
  { destruct seconds as [|[]| |[] m e]; done. }
  simpl. by rewrite Hm.
Qed.

(** 2^1020 seconds: finite, positive, and not convertible. *)
Lemma timeout_ms_overflow_witness :
  _timeout_ms (TFloat (S754_finite false 4503599627370496 968)) = Raise (Exc OverflowError).
Proof. apply timeout_ms_overflow; vm_compute; reflexivity. Defined.

(** While time is left the native side is given at least one millisecond,
    so a budget that is not used up never reads as one that is; the answer
    [None] comes exactly when the deadline is reached. *)
Theorem left_ms_positive (now : pyfloat) (deadline : option pyfloat) :
  match _left_ms now deadline with
  | Ok (Some ms) => 1 ≤ ms
  | Ok None => ∃ d, deadline = Some d ∧ SFleb (fsub d now) fzero = true
  | Raise e => ∃ d, deadline = Some d ∧ SFleb (fsub d now) fzero = false ∧
                    isfinite (fmul (fsub d now) f1000) = false
  end.
Proof.
  unfold _left_ms. destruct deadline as [d|]; [|lia]. cbv zeta.
  destruct (SFleb (fsub d now) fzero) eqn:Hle; [by exists d|].
  destruct (not_leb_zero _ Hle) as [Hnan|[Hpos _]].
  - rewrite Hnan. cbn. exists d. by rewrite Hnan.
  - destruct (fmul (fsub d now) f1000) as [|[]| |[] m e] eqn:Hm; cbn [trunc conv mbind result_bind];
      try (exists d; by rewrite Hle, Hm).
    + lia.
    + destruct (isfinite (fsub d now)) eqn:Hfin.
      * pose proof (fmul_nonneg _ _ Hfin (proj1 f1000_ok) Hpos (proj2 f1000_ok)) as Hp.
        by rewrite Hm in Hp.
      * by destruct (fsub d now) as [|[]| |].
    + pose proof (trunc_nonneg (S754_finite false m e) _ eq_refl eq_refl). cbn in *. lia.
Qed.
