(* ===== verification/RequestId.v ===== *)
(** * Request ids and per-loop resources of [_rpc.py]

    The id a call travels under ([_generated_request_id], [_request_id],
    [request_id()], [_batch_request_id]), the oversize nudge, and the cache
    that keeps one resource per live event loop ([per_loop]). *)

From S2P Require Import Prelude PyStr Errors Identity Sha256.

Local Open Scope Z_scope.

Definition _MAX_REQUEST_ID : Z := 200.
Definition SOFT_BODY : Z := Z.shiftl 1 20.
Definition MAX_BATCH : Z := 128.

Definition dash : N := 45.
Definition tilde : N := 126.
Definition colon_sign : N := 58.

(** [s[:n]]: a negative bound counts from the end. *)
Definition slice_to (s : pystr) (n : Z) : pystr :=
  if 0 <=? n then take (Z.to_nat n) s else take (Z.to_nat (len s + n)) s.

(** [s.encode("ascii")] *)
Definition encode_ascii (s : pystr) : res (list N) :=
  if isascii s then Ok s else Raise (Exc UnicodeError).

(** [s.encode()]: UTF-8; a lone surrogate has no encoding. *)
Definition utf8_char (c : N) : option (list N) :=
  (if c <? 0x80 then Some [c]
   else if c <? 0x800 then Some [0xc0 + c / 64; 0x80 + c mod 64]
   else if (0xd800 <=? c) && (c <? 0xe000) then None
   else if c <? 0x10000 then Some [0xe0 + c / 4096; 0x80 + c / 64 mod 64; 0x80 + c mod 64]
   else Some [0xf0 + c / 262144; 0x80 + c / 4096 mod 64; 0x80 + c / 64 mod 64; 0x80 + c mod 64])%N.

Fixpoint utf8 (s : pystr) : res (list N) :=
  match s with
  | [] => Ok []
  | c :: s' => match utf8_char c with
               | None => Raise (Exc UnicodeError)
               | Some bs => rest ← utf8 s'; Ok (bs ++ rest)
               end
  end.

(** ** Generating ids *)

(** [_generated_request_id] *)
Definition _generated_request_id (identity : pystr) (sequence : Z) : res pystr :=
  let suffix := dash :: str_of_int sequence in
  let direct := identity ++ suffix in
  if len direct <=? _MAX_REQUEST_ID then Ok direct
  else
    data ← encode_ascii identity;
    let fixed := tilde :: sha256_hexdigest data ++ suffix in
    if len fixed <=? _MAX_REQUEST_ID
    then Ok (slice_to identity (_MAX_REQUEST_ID - len fixed) ++ fixed)
    else whole ← encode_ascii (identity ++ 0%N :: str_of_int sequence);
         Ok (sha256_hexdigest whole).

(** [_batch_request_id] *)
Definition _batch_request_id (root : pystr) (index : Z) : res pystr :=
  let suffix := colon_sign :: str_of_int index in
  if len root + len suffix <=? _MAX_REQUEST_ID then Ok (root ++ suffix)
  else
    data ← utf8 root;
    let digest := sha256_hexdigest data in
    let prefix := slice_to root (_MAX_REQUEST_ID - len digest - len suffix - 1) in
    Ok (prefix ++ tilde :: digest ++ suffix).

(** The module state calls share: who this process is, the sequence counter,
    the pinned id, and how warnings are handled. *)
Record rpc_state := RpcState {
  rs_identity : pystr;
  rs_seq : Z;
  rs_pinned : option pystr;
  rs_warnings_as_errors : bool;
  rs_warned : list Z
}.

Definition set_pinned (p : option pystr) (s : rpc_state) : rpc_state :=
  RpcState (rs_identity s) (rs_seq s) p (rs_warnings_as_errors s) (rs_warned s).

Notation RM := (M rpc_state exn).

(** [set_identity] *)
Definition set_identity (who : pystr) (s : rpc_state) : rpc_state :=
  RpcState who (rs_seq s) (rs_pinned s) (rs_warnings_as_errors s) (rs_warned s).

(** [next(_seq)] *)
Definition next_seq : RM Z := λ s,
  (Ok (rs_seq s), RpcState (rs_identity s) (rs_seq s + 1) (rs_pinned s)
                    (rs_warnings_as_errors s) (rs_warned s)).

(** [_request_id] *)
Definition _request_id : RM pystr :=
  fixed ← gets rs_pinned;
  match fixed with
  | Some f => mret f
  | None =>
      who ← gets rs_identity;
      n ← next_seq;
      lift (_generated_request_id (match who with [] => u "anon" | _ => who end) n)
  end.

(** The checks of [request_id()] *)
Definition checked_request_id (value : pystr) : res pystr :=
  match value with
  | [] => Raise (Exc ValueError)
  | _ => if negb (isascii value) || has_control value then Raise (Exc ValueError)
         else bs ← utf8 value;
              if _MAX_REQUEST_ID <? len bs then Raise (Exc ValueError) else Ok value
  end.

(** [with request_id(value): body]: the previous pin comes back however the
    body ends. *)
Definition request_id {A} (value : pystr) (body : pystr → RM A) : RM A :=
  checked ← lift (checked_request_id value);
  old ← gets rs_pinned;
  _ ← modify (set_pinned (Some checked));
  finally (body checked) (set_pinned old).

(** [_nudge]: a warning past the soft limit, an exception when the filters say so. *)
Definition _nudge (size : Z) : RM unit := λ s,
  if size <=? SOFT_BODY then (Ok tt, s)
  else if rs_warnings_as_errors s then (Raise (Exc OversizeWarning), s)
  else (Ok tt, RpcState (rs_identity s) (rs_seq s) (rs_pinned s) (rs_warnings_as_errors s)
                 (rs_warned s ++ [size])).

(** [_app_stacklevel]: how many frames, nearest first, belong to the library
    or to asyncio. *)
Fixpoint _app_stacklevel (level : Z) (frames : list pystr) : Z :=
  match frames with
  | [] => level
  | name :: rest => if startswith (u "tinyray") name || startswith (u "asyncio") name
                    then _app_stacklevel (level + 1) rest else level
  end.

(** ** One resource per event loop *)

Section PerLoop.
Context {T : Type}.

(** An event loop object: its own identity, its address [id(loop)], which a
    later object may reuse. *)
Record event_loop := EventLoop { loop_uid : Z; loop_addr : Z }.

(** What a weak reference answers: [None] once collected, else whether the
    loop is closed. *)
Definition loop_status := Z → option bool.

Notation cache := (list (Z * (Z * T))).

Definition loop_gone (st : loop_status) (uid : Z) : bool :=
  match st uid with None => true | Some closed => closed end.

Fixpoint cache_get (key : Z) (c : cache) : option (Z * T) :=
  match c with
  | [] => None
  | (k, e) :: c' => if k =? key then Some e else cache_get key c'
  end.

Definition cache_pop (key : Z) (c : cache) : cache := List.filter (λ ke, negb (ke.1 =? key)) c.

(** [per_loop]: the value for the running loop, the cache left behind, and the
    values handed to [drop], in order.  [made] is what [make(loop)] builds. *)
Definition per_loop (st : loop_status) (loop : event_loop) (reuse : T → bool) (made : T)
    (c : cache) : T * cache * list T :=
  let dead := List.filter (λ ke, loop_gone st ke.2.1) c in
  let live := List.filter (λ ke, negb (loop_gone st ke.2.1)) c in
  let dropped := map (λ ke, ke.2.2) dead in
  let key := loop_addr loop in
  match cache_get key live with
  | Some (uid, held) =>
      if uid =? loop_uid loop then
        if reuse held then (held, live, dropped)
        else (made, cache_pop key live ++ [(key, (loop_uid loop, made))], dropped ++ [held])
      else (made, cache_pop key live ++ [(key, (loop_uid loop, made))], dropped)
  | None => (made, live ++ [(key, (loop_uid loop, made))], dropped)
  end.

End PerLoop.

(** ** Facts *)

Lemma ascii_app s t : isascii (s ++ t) = isascii s && isascii t.
Proof. apply forallb_app. Qed.

Lemma digits_ascii s : forallb ascii_digit s = true → isascii s = true.
Proof.
  unfold isascii. rewrite !forallb_Forall. intros H. eapply Forall_impl; [exact H|].
  intros c Hc%ascii_digit_bounds. apply N.ltb_lt. lia.
Qed.

Lemma hex_ascii s : forallb hex_char s = true → isascii s = true.
Proof.
  unfold isascii. rewrite !forallb_Forall. intros H. eapply Forall_impl; [exact H|].
  unfold hex_char. intros c Hc. apply N.ltb_lt. simpl in Hc.
  rewrite orb_true_iff, !andb_true_iff, !N.leb_le in Hc. lia.
Qed.

Lemma hexdigest_ascii data : isascii (sha256_hexdigest data) = true.
Proof. apply hex_ascii, hexdigest_chars. Qed.

Lemma str_ascii z : isascii (str_of_int z) = true.
Proof.
  unfold str_of_int. destruct (z <? 0); [|apply digits_ascii, dec_digits].
  change (isascii ([45%N] ++ dec (Z.abs_N z)) = true). rewrite ascii_app.
  apply andb_true_iff. split; [done|]. apply digits_ascii, dec_digits.
Qed.

Lemma ascii_take n s : isascii s = true → isascii (take n s) = true.
Proof. unfold isascii. rewrite !forallb_Forall. apply Forall_take. Qed.

Lemma slice_to_ascii s n : isascii s = true → isascii (slice_to s n) = true.
Proof. unfold slice_to. destruct (0 <=? n); apply ascii_take. Qed.

Lemma length_slice_to s n : 0 ≤ n → len (slice_to s n) ≤ n.
Proof.
  intros Hn. unfold slice_to, len. destruct (Z.leb_spec 0 n); [|lia]. rewrite length_take. lia.
Qed.

Lemma len_hexdigest data : len (sha256_hexdigest data) = 64.
Proof. unfold len. by rewrite length_hexdigest. Qed.

(** The decimal suffix can be read back from a string it ends. *)
Lemma suffix_determined sep a b x y :
  ascii_digit sep = false → 0 ≤ x → 0 ≤ y →
  a ++ sep :: str_of_int x = b ++ sep :: str_of_int y → x = y.
Proof.
  intros Hs Hx Hy Heq.
  apply (f_equal (rsplit_once sep)) in Heq.
  rewrite !rsplit_once_split in Heq by (apply nonneg_str_not_elem; auto).
  injection Heq as _ Heq. rewrite !str_of_nonneg in Heq by done.
  apply dec_inj in Heq. lia.
Qed.

(** The two readable forms of a generated id, and how long they are. *)
Lemma generated_request_id_form identity sequence :
  isascii identity = true → 0 ≤ sequence →
  (∃ pre, _generated_request_id identity sequence = Ok (pre ++ dash :: str_of_int sequence) ∧
          isascii pre = true ∧ len pre + len (dash :: str_of_int sequence) ≤ _MAX_REQUEST_ID) ∨
  (_MAX_REQUEST_ID < 66 + len (str_of_int sequence) ∧
   ∃ data, _generated_request_id identity sequence = Ok (sha256_hexdigest data)).
Proof.
  intros Ha Hs. unfold _generated_request_id. cbv zeta.
  destruct (Z.leb_spec (len (identity ++ dash :: str_of_int sequence)) _MAX_REQUEST_ID) as [H|H].
  - left. exists identity. rewrite len_app in H. by split_and!.
  - unfold encode_ascii. rewrite Ha. cbn [mbind result_bind].
    set (fixed := tilde :: sha256_hexdigest identity ++ dash :: str_of_int sequence).
    assert (len fixed = 66 + len (str_of_int sequence)) as Hlen.
    { unfold fixed. rewrite len_cons, len_app, len_hexdigest, len_cons. lia. }
    destruct (Z.leb_spec (len fixed) _MAX_REQUEST_ID) as [Hf|Hf].
    + left. exists (slice_to identity (_MAX_REQUEST_ID - len fixed) ++
                    tilde :: sha256_hexdigest identity).
      split_and!.
      * unfold fixed. by rewrite <-app_assoc.
      * rewrite ascii_app, slice_to_ascii by done.
        change (isascii ([tilde] ++ sha256_hexdigest identity) = true).
        by rewrite ascii_app, hexdigest_ascii.
      * pose proof (length_slice_to identity (_MAX_REQUEST_ID - len fixed) ltac:(lia)).
        rewrite len_app, !len_cons, len_hexdigest. rewrite Hlen in *. lia.
    + right. split; [lia|].
      rewrite (ascii_app identity (0%N :: str_of_int sequence)), Ha.
      change (isascii (0%N :: str_of_int sequence)) with (true && isascii (str_of_int sequence)).
      rewrite str_ascii. simpl. eauto.
Qed.

(** ** Properties *)

(** Every generated request id fits the protocol: at most 200 ASCII
    characters, however long the identity and the sequence number are. *)
Theorem generated_request_id_fits (identity : pystr) (sequence : Z) :
  isascii identity = true → 0 ≤ sequence →
  ∃ id, _generated_request_id identity sequence = Ok id ∧
        len id ≤ _MAX_REQUEST_ID ∧ isascii id = true.
Proof.
  intros Ha Hs.
  destruct (generated_request_id_form identity sequence Ha Hs)
    as [(pre & -> & Hp & Hl)|(_ & data & ->)].
  - eexists. split; [done|]. rewrite len_app. split; [done|].
    rewrite ascii_app, Hp. apply (str_ascii sequence).
  - eexists. split; [done|]. rewrite len_hexdigest. split; [done|]. apply hexdigest_ascii.
Qed.

Lemma generated_request_id_fits_witness :
  ∃ id, _generated_request_id (replicate 300 97%N) 5 = Ok id ∧
        len id ≤ _MAX_REQUEST_ID ∧ isascii id = true.
Proof. apply generated_request_id_fits; [vm_compute; reflexivity|lia]. Defined.

(** One process never issues the same request id twice: ids generated for
    different sequence numbers differ (for every counter below 10^134). *)
Theorem generated_request_id_distinct (identity : pystr) (n1 n2 : Z) :
  isascii identity = true → 0 ≤ n1 < 10 ^ 134 → 0 ≤ n2 < 10 ^ 134 →
  _generated_request_id identity n1 = _generated_request_id identity n2 → n1 = n2.
Proof.
  intros Ha H1 H2 Heq.
  assert (∀ n, 0 ≤ n < 10 ^ 134 → 66 + len (str_of_int n) ≤ _MAX_REQUEST_ID) as Hshort.
  { intros n [Hn Hlt]. unfold len, _MAX_REQUEST_ID. rewrite str_of_nonneg by done.
    assert (length (dec (Z.to_N n)) <= 134)%nat; [|lia]. apply dec_length; [lia|].
    apply N2Z.inj_lt. rewrite Z2N.id by done. exact Hlt. }
  pose proof (Hshort n1 H1). pose proof (Hshort n2 H2).
  destruct (generated_request_id_form identity n1 Ha ltac:(lia)) as [(p1 & E1 & _)|[? _]]; [|lia].
  destruct (generated_request_id_form identity n2 Ha ltac:(lia)) as [(p2 & E2 & _)|[? _]]; [|lia].
  rewrite E1, E2 in Heq. injection Heq as Heq.
  by apply (suffix_determined dash) in Heq; [|done|lia|lia].
Qed.

Lemma generated_request_id_distinct_witness :
  7 = 7.
Proof.
  apply (generated_request_id_distinct (u "w/3#18") 7 7); [reflexivity|lia|lia|reflexivity].
Defined.

Lemma index_suffix_short index : 0 ≤ index < MAX_BATCH → 1 ≤ len (str_of_int index) ≤ 3.
Proof.
  intros [H0 H1]. unfold len. rewrite str_of_nonneg by done. unfold MAX_BATCH in H1.
  pose proof (dec_length (Z.to_N index) 3 ltac:(lia) ltac:(lia)).
  pose proof (dec_not_nil (Z.to_N index)) as Hn. destruct (dec _); [done|]. simpl in *. lia.
Qed.

Lemma batch_request_id_form root index id :
  0 ≤ index < MAX_BATCH → _batch_request_id root index = Ok id →
  ∃ pre, id = pre ++ colon_sign :: str_of_int index ∧ len id ≤ _MAX_REQUEST_ID.
Proof.
  intros Hi. pose proof (index_suffix_short index Hi). unfold _batch_request_id. cbv zeta.
  destruct (Z.leb_spec (len root + len (colon_sign :: str_of_int index)) _MAX_REQUEST_ID) as [H'|H'].
  - intros [= <-]. exists root. by rewrite len_app.
  - intros Hb. simplify_res.
    set (n := _MAX_REQUEST_ID - len (sha256_hexdigest x) - len (colon_sign :: str_of_int index) - 1).
    exists (slice_to root n ++ tilde :: sha256_hexdigest x).
    split; [by rewrite <-app_assoc|].
    assert (n = _MAX_REQUEST_ID - 66 - len (str_of_int index)) as Hn.
    { unfold n. rewrite len_hexdigest, len_cons. lia. }
    clearbody n. unfold _MAX_REQUEST_ID in *.
    pose proof (length_slice_to root n ltac:(lia)).
    rewrite len_app, len_cons, len_app, len_cons, len_hexdigest. lia.
Qed.

(** The items of one batch carry distinct ids within the protocol limit:
    each derived id is at most 200 characters, and two items of the same batch
    never share one. *)
Theorem batch_request_ids_distinct (root id1 id2 : pystr) (i1 i2 : Z) :
  0 ≤ i1 < MAX_BATCH → 0 ≤ i2 < MAX_BATCH →
  _batch_request_id root i1 = Ok id1 → _batch_request_id root i2 = Ok id2 →
  len id1 ≤ _MAX_REQUEST_ID ∧ (id1 = id2 → i1 = i2).
Proof.
  intros H1 H2 E1 E2.
  destruct (batch_request_id_form _ _ _ H1 E1) as (p1 & -> & Hl).
  destruct (batch_request_id_form _ _ _ H2 E2) as (p2 & -> & _).
  split; [done|]. intros Heq. by apply (suffix_determined colon_sign) in Heq; [|done|lia|lia].
Qed.

Lemma batch_request_ids_distinct_witness :
  len (u "r-1:0") ≤ _MAX_REQUEST_ID ∧ (u "r-1:0" = u "r-1:12" → 0 = 12).
Proof.
  apply (batch_request_ids_distinct (u "r-1") (u "r-1:0") (u "r-1:12") 0 12);
    [done|done|vm_compute; reflexivity|vm_compute; reflexivity].
Defined.

Lemma checked_request_id_same value v : checked_request_id value = Ok v → v = value.
Proof.
  unfold checked_request_id. destruct value as [|c r]; [done|].
  destruct (_ || _); [done|]. intros H. simplify_res.
  destruct (_MAX_REQUEST_ID <? len x); by simplify_res.
Qed.

Lemma request_id_unfold {A} value (body : pystr → RM A) s :
  request_id value body s =
  match checked_request_id value with
  | Raise e => (Raise e, s)
  | Ok v => let '(r, s') := body v (set_pinned (Some v) s) in (r, set_pinned (rs_pinned s) s')
  end.
Proof. unfold request_id, lift. rewrite M_bind_unfold. by destruct (checked_request_id value). Qed.

(** A pinned request id lasts exactly as long as its block: every id taken
    while the pin stands is the pinned one, and whatever the block does (even
    raise) the previous pin is back afterwards. *)
Theorem request_id_scoped {A} (value : pystr) (body : pystr → RM A) (s : rpc_state) :
  rs_pinned (request_id value body s).2 = rs_pinned s ∧
  (is_ok (checked_request_id value) = true →
   (request_id value body s).1 = (body value (set_pinned (Some value) s)).1 ∧
   _request_id (set_pinned (Some value) s) = (Ok value, set_pinned (Some value) s)).
Proof.
  rewrite request_id_unfold. destruct (checked_request_id value) as [v|e] eqn:Ec; [|done].
  apply checked_request_id_same in Ec as ->.
  by destruct (body value (set_pinned (Some value) s)) as [r s'].
Qed.

(** The resource handed out belongs to the running loop and to nobody
    else, dead and closed loops are forgotten, and what is forgotten is
    released: every entry left in the cache is for a live open loop, and every
    entry of a dead one has been dropped. *)
Theorem per_loop_fresh {T} (st : loop_status) (loop : event_loop) (reuse : T → bool) (made : T)
    (c : list (Z * (Z * T))) :
  st (loop_uid loop) = Some false →
  let '(got, c', dropped) := per_loop st loop reuse made c in
  (∀ k uid v, (k, (uid, v)) ∈ c' → st uid = Some false) ∧
  (loop_addr loop, (loop_uid loop, got)) ∈ c' ∧
  (got = made ∨ reuse got = true ∧ (loop_addr loop, (loop_uid loop, got)) ∈ c) ∧
  (∀ k uid v, (k, (uid, v)) ∈ c → loop_gone st uid = true → v ∈ dropped).
Proof.
  intros Hst. unfold per_loop. cbv zeta.
  set (live := List.filter _ c). set (dropped := map _ _).
  assert (∀ k uid v, (k, (uid, v)) ∈ live ↔ (k, (uid, v)) ∈ c ∧ st uid = Some false) as Hlive.
  { intros k uid v. unfold live. rewrite !list_elem_of_In, filter_In. simpl. unfold loop_gone.
    destruct (st uid) as [[]|]; simpl; naive_solver. }
  assert (∀ k uid v, (k, (uid, v)) ∈ c → loop_gone st uid = true → v ∈ dropped) as Hdrop.
  { intros k uid v Hin Hg. unfold dropped. apply list_elem_of_In, in_map_iff.
    exists (k, (uid, v)). split; [done|]. apply filter_In. rewrite <-list_elem_of_In. done. }
  assert (∀ k e, cache_get k live = Some e → (k, e) ∈ live) as Hget.
  { generalize live. intros l k e. induction l as [|[k' e'] l IH]; simpl; [done|].
    destruct (Z.eqb_spec k' k); [intros [= <-]; subst; set_solver|set_solver]. }
  assert (∀ k uid v, (k, (uid, v)) ∈ cache_pop (loop_addr loop) live → st uid = Some false) as Hpop.
  { intros k uid v Hin. unfold cache_pop in Hin. rewrite list_elem_of_In in Hin.
    apply filter_In in Hin as [Hin _]. rewrite <-list_elem_of_In in Hin. by apply Hlive in Hin as [_ ?]. }
  destruct (cache_get (loop_addr loop) live) as [[uid held]|] eqn:Eg.
  - apply Hget in Eg. destruct (Z.eqb_spec uid (loop_uid loop)) as [->|Hne];
      [destruct (reuse held) eqn:Hr|].
    + split_and!; [intros k uid v Hin; by apply Hlive in Hin as [_ ?]|done|right; split; [done|by apply Hlive in Eg as [? _]]|done].
    + split_and!; [|set_solver|by left|set_solver].
      intros k uid v [Hin|Hin]%elem_of_app; [eauto|].
      apply list_elem_of_singleton in Hin. by simplify_eq.
    + split_and!; [|set_solver|by left|done].
      intros k uid' v [Hin|Hin]%elem_of_app; [eauto|].
      apply list_elem_of_singleton in Hin. by simplify_eq.
  - split_and!; [|set_solver|by left|done].
    intros k uid' v [Hin|Hin]%elem_of_app; [by apply Hlive in Hin as [_ ?]|].
    apply list_elem_of_singleton in Hin. by simplify_eq.
Qed.

Lemma per_loop_fresh_witness :
  let '(got, c', dropped) :=
    per_loop (λ uid, if uid =? 1 then None else Some false) (EventLoop 2 64) (λ _, true) 9
      [(64, (1, 8))] in
  (∀ k uid v, (k, (uid, v)) ∈ c' → (if uid =? 1 then None else Some false) = Some false) ∧
  (64, (2, got)) ∈ c' ∧ (got = 9 ∨ true = true ∧ (64, (2, got)) ∈ [(64, (1, 8))]) ∧
  (∀ k uid v, (k, (uid, v)) ∈ [(64, (1, 8))] →
     loop_gone (λ uid, if uid =? 1 then None else Some false) uid = true → v ∈ dropped).
Proof.
  apply (per_loop_fresh (λ uid, if uid =? 1 then None else Some false) (EventLoop 2 64) (λ _, true) 9
           [(64, (1, 8))]). reflexivity.
Defined.
