(* ===== verification/Graph.v ===== *)
(** * Walks over object graphs

    Two loops recur in [_msgpack.py]: a worklist over the objects reachable
    from a value ([_reject_pydantic_values], [blob_refs]) and a depth-first
    search with a shared [seen] set over a type expression
    ([_contains_pydantic_type], [_contains_dataclass]).  Both are written here
    once, over a finite graph of numbered nodes, with their termination and
    what they find. *)

From S2P Require Import Prelude.

(** ** Reachability *)

(** [x] leads to [y] by the given successors. *)
Inductive reachable (succ : nat → list nat) (x : nat) : nat → Prop :=
| reach_refl : reachable succ x x
| reach_step y z : reachable succ x y → z ∈ succ y → reachable succ x z.

Lemma reachable_trans succ x y z : reachable succ x y → reachable succ y z → reachable succ x z.
Proof. intros Hxy. induction 1 as [|y' z' _ IH Hz]; [done|]. by eapply reach_step. Qed.

Lemma reachable_head succ x y z : y ∈ succ x → reachable succ y z → reachable succ x z.
Proof. intros Hy. apply reachable_trans. eapply reach_step; [apply reach_refl|done]. Qed.

(** A set closed under successors that holds [x] holds all [x] leads to. *)
Lemma reachable_closed succ (P : nat → Prop) x y :
  P x → (∀ a b, P a → b ∈ succ a → P b) → reachable succ x y → P y.
Proof. intros Hx Hc. induction 1 as [|y z _ IH Hz]; eauto. Qed.

(** ** The worklist *)

Section Walk.
Context {E : Type}.

(** What the loop does with one object. *)
Inductive visit :=
| Fail (e : E)
| Emit
| Skip
| Expand (children : list nat).

Context (look : nat → visit).

(** [while pending: current = pending.pop() ...]; the head of the list is the
    end of [pending], so [extend] pushes the children in reverse. [None] is an
    exhausted fuel. *)
Fixpoint walk (fuel : nat) (pending seen found : list nat) : option (result E (list nat)) :=
  match pending with
  | [] => Some (Ok (reverse found))
  | x :: pending =>
      match fuel with
      | O => None
      | S fuel =>
          match look x with
          | Fail e => Some (Raise e)
          | Emit => walk fuel pending seen (x :: found)
          | Skip => walk fuel pending seen found
          | Expand children =>
              if bool_decide (x ∈ seen) then walk fuel pending seen found
              else walk fuel (reverse children ++ pending) (x :: seen) found
          end
      end
  end.

(** The successors the walk follows. *)
Definition expanded (x : nat) : list nat := match look x with Expand cs => cs | _ => [] end.

(** The graph has [n] nodes: nothing else is expanded. *)
Context (n : nat) (Hn : ∀ x, n ≤ x → expanded x = []).

(** The edges not walked yet. *)
Definition edges_left (seen : list nat) : nat :=
  sum_list_with (λ x, if bool_decide (x ∈ seen) then 0 else length (expanded x)) (seq 0 n).

Lemma sum_list_with_le {A} (f g : A → nat) l :
  (∀ x, x ∈ l → f x ≤ g x) → sum_list_with f l ≤ sum_list_with g l.
Proof.
  induction l as [|x l IH]; intros Hfg; simpl; [lia|].
  pose proof (Hfg x ltac:(left)). assert (sum_list_with f l ≤ sum_list_with g l); [|lia].
  apply IH. intros y Hy. apply Hfg. by right.
Qed.

Lemma sum_list_with_drop {A} (f g : A → nat) l x k :
  x ∈ l → (∀ y, y ∈ l → g y ≤ f y) → g x + k ≤ f x → sum_list_with g l + k ≤ sum_list_with f l.
Proof.
  induction l as [|y l IH]; intros Hx Hle Hk; [by apply not_elem_of_nil in Hx|]. simpl.
  assert (∀ z, z ∈ l → g z ≤ f z) as Hle' by (intros; apply Hle; by right).
  apply elem_of_cons in Hx as [->|Hx].
  - pose proof (sum_list_with_le g f l Hle'). lia.
  - specialize (IH Hx Hle' Hk). pose proof (Hle y ltac:(left)). lia.
Qed.

Lemma edges_left_cons x cs seen :
  look x = Expand cs → x ∉ seen → edges_left (x :: seen) + length cs ≤ edges_left seen.
Proof using Hn.
  intros Hx Hs. assert (expanded x = cs) as Hex by (unfold expanded; by rewrite Hx).
  assert (∀ y, (if bool_decide (y ∈ x :: seen) then 0 else length (expanded y)) ≤
               (if bool_decide (y ∈ seen) then 0 else length (expanded y))) as Hle.
  { intros y. repeat case_bool_decide; try lia. set_solver. }
  unfold edges_left. destruct (decide (x < n)) as [Hlt|Hge].
  - apply (sum_list_with_drop _ _ _ x); [apply elem_of_seq; lia|auto|].
    rewrite bool_decide_eq_true_2 by left. rewrite bool_decide_eq_false_2 by done. rewrite Hex. lia.
  - rewrite <-Hex, Hn by lia. simpl. rewrite Nat.add_0_r. by apply sum_list_with_le.
Qed.

(** Enough fuel: one step per pending object and per edge. *)
Lemma walk_total fuel pending seen found :
  length pending + edges_left seen ≤ fuel → is_Some (walk fuel pending seen found).
Proof using Hn.
  revert pending seen found. induction fuel as [|fuel IH]; intros pending seen found Hf.
  { destruct pending; [by eexists|simpl in Hf; lia]. }
  destruct pending as [|x pending]; simpl; [by eexists|]. simpl in Hf.
  destruct (look x) as [e| | |cs] eqn:Hx; [by eexists|apply IH; lia..|].
  case_bool_decide as Hs; [apply IH; lia|]. apply IH.
  rewrite length_app, length_reverse. pose proof (edges_left_cons x cs seen Hx Hs). lia.
Qed.

(** The invariant of the loop, with [handled] the objects popped so far. *)
Record walk_inv (root : nat) (pending seen found handled : list nat) : Prop := {
  wi_pending : ∀ x, x ∈ pending → reachable expanded root x;
  wi_handled : ∀ x, x ∈ handled → reachable expanded root x;
  wi_seen : ∀ x, x ∈ seen → x ∈ handled;
  wi_root : root ∈ handled ∨ root ∈ pending;
  wi_closed : ∀ x y, x ∈ handled → y ∈ expanded x → y ∈ handled ∨ y ∈ pending;
  wi_fail : ∀ x e, x ∈ handled → look x ≠ Fail e;
  wi_found : ∀ x, x ∈ found ↔ x ∈ handled ∧ look x = Emit
}.

(** Handling the popped object: what it expands to is pending afterwards. *)
Lemma walk_inv_pop root x pending seen found handled pending' seen' found' :
  walk_inv root (x :: pending) seen found handled →
  (∀ e, look x ≠ Fail e) →
  (∀ y, y ∈ pending' ↔ y ∈ expanded x ∨ y ∈ pending) →
  (∀ y, y ∈ seen' → y = x ∨ y ∈ seen) →
  (∀ y, y ∈ found' ↔ y = x ∧ look x = Emit ∨ y ∈ found) →
  walk_inv root pending' seen' found' (x :: handled).
Proof using Type.
  intros [Hp Hh Hs Hr Hc Hf Hfd] Hx Hp' Hs' Hf'.
  assert (reachable expanded root x) as Hrx by (apply Hp; left).
  split.
  - intros y [Hy|Hy]%Hp'; [by eapply reach_step|apply Hp; by right].
  - intros y [->|Hy]%elem_of_cons; auto.
  - intros y [->|Hy]%Hs'; [left|right; auto].
  - rewrite elem_of_cons, Hp'. destruct Hr as [?|[->|?]%elem_of_cons]; auto.
  - intros y z Hy Hz. rewrite elem_of_cons, Hp'. apply elem_of_cons in Hy as [->|Hy]; [auto|].
    destruct (Hc y z Hy Hz) as [?|[->|?]%elem_of_cons]; auto.
  - intros y e [->|Hy]%elem_of_cons; auto.
  - intros y. rewrite Hf', elem_of_cons, Hfd. split.
    + intros [[-> ?]|[? ?]]; auto.
    + intros [[->|?] ?]; auto.
Qed.

(** What is found when nothing is pending. *)
Lemma walk_inv_done root seen found handled :
  walk_inv root [] seen found handled →
  (∀ x e, reachable expanded root x → look x ≠ Fail e) ∧
  (∀ x, x ∈ reverse found ↔ reachable expanded root x ∧ look x = Emit).
Proof using Type.
  intros [Hp Hh Hs Hr Hc Hf Hfd].
  assert (∀ y, reachable expanded root y → y ∈ handled) as Hall.
  { intros y. apply (reachable_closed _ (λ y, y ∈ handled)).
    - destruct Hr as [?|?%not_elem_of_nil]; done.
    - intros a b Ha Hb. destruct (Hc a b Ha Hb) as [?|?%not_elem_of_nil]; done. }
  split; [intros y e Hy; apply Hf; auto|].
  intros y. rewrite elem_of_reverse, Hfd. split; intros [? ?]; auto.
Qed.

Lemma walk_correct fuel root pending seen found handled r :
  walk fuel pending seen found = Some r → walk_inv root pending seen found handled →
  match r with
  | Ok l => (∀ x e, reachable expanded root x → look x ≠ Fail e) ∧
            (∀ x, x ∈ l ↔ reachable expanded root x ∧ look x = Emit)
  | Raise e => ∃ x, reachable expanded root x ∧ look x = Fail e
  end.
Proof using Type.
  revert pending seen found handled.
  induction fuel as [|fuel IH]; intros pending seen found handled Hw Hi;
    destruct pending as [|x pending]; simpl in Hw; try done.
  1,2: injection Hw as <-; by eapply walk_inv_done.
  assert (∀ cs, look x = Expand cs → expanded x = cs) as Hex by (intros cs Hx; unfold expanded; by rewrite Hx).
  assert (look x = Emit ∨ look x = Skip → expanded x = []) as Hno
    by (unfold expanded; intros [-> | ->]; done).
  destruct (look x) as [e| | |cs] eqn:Hx.
  - injection Hw as <-. exists x. split; [apply (wi_pending _ _ _ _ _ Hi); left|done].
  - apply (IH _ _ _ (x :: handled) Hw). eapply walk_inv_pop; [done|congruence|..]; intros y.
    + rewrite Hno by auto. rewrite elem_of_nil. tauto.
    + auto.
    + rewrite elem_of_cons. tauto.
  - apply (IH _ _ _ (x :: handled) Hw). eapply walk_inv_pop; [done|congruence|..]; intros y.
    + rewrite Hno by auto. rewrite elem_of_nil. tauto.
    + auto.
    + rewrite Hx. split; [auto|]. by intros [[_ ?]|?].
  - case_bool_decide as Hseen.
    + apply (IH _ _ _ handled Hw). destruct Hi as [Hp Hh Hs Hr Hc Hf Hfd].
      split; auto; [intros; apply Hp; by right|..].
      * destruct Hr as [?|[->|?]%elem_of_cons]; auto.
      * intros y z Hy Hz. destruct (Hc y z Hy Hz) as [?|[->|?]%elem_of_cons]; auto.
    + apply (IH _ _ _ (x :: handled) Hw). eapply walk_inv_pop; [done|congruence|..]; intros y.
      * by rewrite (Hex cs), elem_of_app, elem_of_reverse.
      * by rewrite elem_of_cons.
      * rewrite Hx. split; [auto|]. by intros [[_ ?]|?].
Qed.

(** The walk from one object ends, and finds exactly what is reachable. *)
Lemma walk_spec root :
  ∃ r, walk (S (edges_left [])) [root] [] [] = Some r ∧
  match r with
  | Ok l => (∀ x e, reachable expanded root x → look x ≠ Fail e) ∧
            (∀ x, x ∈ l ↔ reachable expanded root x ∧ look x = Emit)
  | Raise e => ∃ x, reachable expanded root x ∧ look x = Fail e
  end.
Proof using Hn.
  destruct (walk_total (S (edges_left [])) [root] [] []) as [r Hr]; [simpl; lia|].
  exists r. split; [done|].
  apply (walk_correct _ root _ _ _ [] r Hr). split; try (by intros ? ?%not_elem_of_nil).
  - intros x ->%list_elem_of_singleton. apply reach_refl.
  - right. left.
  - by intros ? ? ?%not_elem_of_nil.
  - by intros ? ? ?%not_elem_of_nil.
  - intros x. rewrite !elem_of_nil. tauto.
Qed.
End Walk.
Arguments visit : clear implicits.

(** ** Search with a shared [seen] set *)

Section Search.
Context (verdict : nat → option bool) (children : nat → list nat).

(** [id()] of each node, as the interpreter chose it: an object that is gone
    may leave its number to a later one. *)
Context (ident : nat → nat).

(** [any(f(x, seen) for x in l)]: the set is shared, the first hit ends it. *)
Fixpoint search_any (f : list nat → nat → option (bool * list nat)) (seen l : list nat)
    : option (bool * list nat) :=
  match l with
  | [] => Some (false, seen)
  | x :: l => match f seen x with
              | None => None
              | Some (true, seen') => Some (true, seen')
              | Some (false, seen') => search_any f seen' l
              end
  end.

Fixpoint search (fuel : nat) (seen : list nat) (v : nat) : option (bool * list nat) :=
  if bool_decide (ident v ∈ seen) then Some (false, seen)
  else match fuel with
       | O => None
       | S fuel => match verdict v with
                   | Some b => Some (b, ident v :: seen)
                   | None => search_any (search fuel) (ident v :: seen) (children v)
                   end
       end.

Definition follow (x : nat) : list nat := match verdict x with None => children x | _ => [] end.

Context (n : nat).

(** The nodes not seen yet bound the depth. *)
Definition unseen (seen : list nat) : nat :=
  length (List.filter (λ x : nat, negb (bool_decide (ident x ∈ seen))) (seq 0 n)).

Lemma unseen_mono seen seen' : seen ⊆ seen' → unseen seen' ≤ unseen seen.
Proof.
  intros Hs. unfold unseen. induction (seq 0 n) as [|x l IH]; simpl; [lia|].
  repeat case_bool_decide; simpl; try lia. exfalso. auto.
Qed.

Lemma unseen_cons seen v : v < n → ident v ∉ seen → S (unseen (ident v :: seen)) ≤ unseen seen.
Proof.
  intros Hv Hs. unfold unseen.
  assert (∀ x : nat, x ∈ seen → x ∈ ident v :: seen) as Hfur by (intros; by right).
  assert (∀ l, v ∈ l → S (length (List.filter (λ x : nat, negb (bool_decide (ident x ∈ ident v :: seen))) l))
                     ≤ length (List.filter (λ x : nat, negb (bool_decide (ident x ∈ seen))) l)) as Hl.
  { assert (∀ l, length (List.filter (λ x : nat, negb (bool_decide (ident x ∈ ident v :: seen))) l)
                 ≤ length (List.filter (λ x : nat, negb (bool_decide (ident x ∈ seen))) l)) as Hle.
    { induction l as [|x l IH]; simpl; [lia|].
      repeat case_bool_decide; simpl; try lia. exfalso. auto. }
    induction l as [|x l IH]; intros Hin; [by apply not_elem_of_nil in Hin|]. simpl.
    specialize (Hle l). apply elem_of_cons in Hin as [->|Hin].
    - rewrite bool_decide_eq_true_2 by left. rewrite bool_decide_eq_false_2 by done. simpl. lia.
    - specialize (IH Hin). repeat case_bool_decide; simpl; try lia. exfalso. auto. }
  apply Hl, elem_of_seq. lia.
Qed.

Lemma search_any_total fuel l seen :
  (∀ seen' x, seen ⊆ seen' → ∃ b s', search fuel seen' x = Some (b, s') ∧ seen' ⊆ s') →
  ∃ b s', search_any (search fuel) seen l = Some (b, s') ∧ seen ⊆ s'.
Proof using Type.
  revert seen. induction l as [|x l IH]; intros seen Hf; simpl; [eauto|].
  destruct (Hf seen x) as (b & s' & -> & Hs); [done|]. simpl. destruct b; [eauto|].
  destruct (IH s') as (b' & s'' & -> & ?); [|eexists _, _; split; [done|by etrans]].
  intros seen' y Hsy. apply Hf. by etrans.
Qed.

(** The graph has [n] nodes. *)
Context (Hn : ∀ x, n ≤ x → follow x = []).

(** Enough fuel: two levels more than the nodes not seen yet. *)
Lemma search_total fuel seen v :
  unseen seen + 2 ≤ fuel → ∃ b s', search fuel seen v = Some (b, s') ∧ seen ⊆ s'.
Proof using Hn.
  revert seen v. induction fuel as [|fuel IH]; intros seen v Hf; [lia|]. simpl.
  case_bool_decide as Hv; [eauto|]. destruct (verdict v) as [b|] eqn:Hd.
  { eexists _, _. split; [done|]. intros x. by right. }
  assert (∃ b s', search_any (search fuel) (ident v :: seen) (children v) = Some (b, s') ∧
          ident v :: seen ⊆ s')
    as (b & s' & -> & Hs).
  { destruct (decide (v < n)) as [Hlt|Hge].
    - apply search_any_total. intros seen' x Hs'. apply IH.
      pose proof (unseen_cons seen v Hlt Hv). pose proof (unseen_mono _ _ Hs'). lia.
    - specialize (Hn v ltac:(lia)). unfold follow in Hn. rewrite Hd in Hn. rewrite Hn. simpl. eauto. }
  eexists _, _. split; [done|]. etrans; [|done]. intros x. by right.
Qed.

Lemma search_any_sound fuel seen l s' :
  (∀ seen x s', search fuel seen x = Some (true, s') →
     ∃ y, reachable follow x y ∧ verdict y = Some true) →
  search_any (search fuel) seen l = Some (true, s') →
  ∃ x y, x ∈ l ∧ reachable follow x y ∧ verdict y = Some true.
Proof using Type.
  intros Hf. revert seen. induction l as [|x l IH]; intros seen Hs; simpl in Hs; [done|].
  destruct (search fuel seen x) as [[[] s1]|] eqn:Hx; [..|done].
  - destruct (Hf _ _ _ Hx) as (y & ? & ?). exists x, y. split; [left|done].
  - destruct (IH _ Hs) as (z & y & ? & ?). exists z, y. split; [by right|done].
Qed.

Lemma search_sound fuel seen v s' :
  search fuel seen v = Some (true, s') → ∃ x, reachable follow v x ∧ verdict x = Some true.
Proof using Type.
  revert seen v s'. induction fuel as [|fuel IH]; intros seen v s' Hs; simpl in Hs;
    case_bool_decide; try done.
  destruct (verdict v) as [b|] eqn:Hd.
  - injection Hs as -> _. exists v. split; [apply reach_refl|done].
  - apply search_any_sound in Hs as (x & y & Hx & Hy & Hv); [|by eauto].
    exists y. split; [|done]. eapply reachable_head; [|done]. unfold follow. by rewrite Hd.
Qed.

(** A miss leaves behind a set that is closed except for what was there before. *)
Definition missed (seen s' : list nat) : Prop :=
  seen ⊆ s' ∧
  ∀ x, ident x ∈ s' → ident x ∈ seen ∨ (verdict x ≠ Some true ∧ ∀ y, y ∈ follow x → ident y ∈ s').

Lemma missed_trans s1 s2 s3 : missed s1 s2 → missed s2 s3 → missed s1 s3.
Proof using Type.
  intros [H1 H2] [H3 H4]. split; [by etrans|]. intros x Hx.
  destruct (H4 x Hx) as [Hx2|?]; [|by right].
  destruct (H2 x Hx2) as [?|[Hv Hy]]; [by left|right]. split; [done|]. intros y Hyx. auto.
Qed.

Lemma search_any_complete fuel seen l s' :
  (∀ seen x s', search fuel seen x = Some (false, s') → missed seen s' ∧ ident x ∈ s') →
  search_any (search fuel) seen l = Some (false, s') → missed seen s' ∧ ∀ x, x ∈ l → ident x ∈ s'.
Proof using Type.
  intros Hf. revert seen. induction l as [|x l IH]; intros seen Hs; simpl in Hs.
  { injection Hs as <-. split; [split; [done|auto]|by intros x ?%not_elem_of_nil]. }
  destruct (search fuel seen x) as [[[] s1]|] eqn:Hx; [done| |done].
  destruct (Hf _ _ _ Hx) as [Hm1 Hx1]. destruct (IH _ Hs) as [Hm2 Hl].
  split; [by eapply missed_trans|]. intros y [->|Hy]%elem_of_cons; [|auto].
  destruct Hm2 as [Hsub _]. auto.
Qed.

(** The numbers tell the nodes apart. *)
Context (Hid : Inj eq eq ident).

Lemma search_complete fuel seen v s' :
  search fuel seen v = Some (false, s') → missed seen s' ∧ ident v ∈ s'.
Proof using Hid.
  revert seen v s'. induction fuel as [|fuel IH]; intros seen v s' Hs; simpl in Hs;
    case_bool_decide as Hv; try done.
  1,2: injection Hs as <-; split; [split; [done|auto]|done].
  destruct (verdict v) as [b|] eqn:Hd.
  - injection Hs as -> <-. split; [|left]. split; [intros x; by right|].
    intros x [Hx%(inj ident)|Hx]%elem_of_cons; [right; subst|by left]. unfold follow. rewrite Hd.
    split; [done|by intros y ?%not_elem_of_nil].
  - apply search_any_complete in Hs as [[Hsub Hm] Hc]; [|done].
    assert (ident v ∈ s') as Hvs by (apply Hsub; left).
    split; [|done]. split; [intros x Hx; apply Hsub; by right|].
    intros x Hx. destruct (Hm x Hx) as [[Hxv%(inj ident)|?]%elem_of_cons|?]; [right; subst|by left|by right].
    unfold follow. rewrite Hd. done.
Qed.

Lemma search_misses root fuel s' x :
  search fuel [] root = Some (false, s') → reachable follow root x → verdict x ≠ Some true.
Proof using Hid.
  intros Hs Hx. destruct (search_complete _ _ _ _ Hs) as [[_ Hm] Hr].
  assert (ident x ∈ s') as Hxs.
  { apply (reachable_closed follow (λ y, ident y ∈ s') root x); [done| |done].
    intros a c Ha Hc. destruct (Hm a Ha) as [?%not_elem_of_nil|[_ Hf]]; [done|auto]. }
  by destruct (Hm x Hxs) as [?%not_elem_of_nil|[? _]].
Qed.
End Search.

(** The search from one node ends; a hit it reports is there, and one that is
    there is reported when the numbers tell the nodes apart. *)
Lemma search_spec verdict children ident n :
  (∀ x, n ≤ x → follow verdict children x = []) → ∀ root,
  ∃ b s', search verdict children ident (n + 2) [] root = Some (b, s') ∧
  (b = true → ∃ x, reachable (follow verdict children) root x ∧ verdict x = Some true) ∧
  (Inj eq eq ident → (∃ x, reachable (follow verdict children) root x ∧ verdict x = Some true) → b = true).
Proof.
  intros Hn root. destruct (search_total verdict children ident n Hn (n + 2) [] root) as (b & s' & Hs & _).
  { assert (unseen ident n [] ≤ n); [|lia]. unfold unseen.
    etrans; [apply List.filter_length_le|]. by rewrite length_seq. }
  exists b, s'. split_and!; [done| |].
  - intros ->. by eapply search_sound.
  - intros Hid (x & Hx & Hv). destruct b; [done|]. exfalso. by eapply search_misses.
Qed.
