(* ===== verification/Codec.v ===== *)
(** * The codec interface

    What [_msgpack.py] promises to its two clients, [_rpc.py] and
    [_serve.py]: encoding and decoding of one application value, conversion
    to an annotated type, and arrays of already encoded items.  The calling
    and serving layers are verified against this interface.  Decoding runs in
    a scope, the blob budget of one message: [blob_decode_scope] opens one
    unless the thread is inside one already. *)

From S2P Require Import Prelude PyStr Errors.

(** A type annotation, as an opaque label. *)
Notation pytype := Z (only parsing).

Class Codec := {
  (** The per-message decoding state, and the one a scope starts with. *)
  scope : Type;
  fresh_scope : scope;
  (** [loads(raw)] and [convert_msgpack(raw, want)] inside a scope. *)
  loads_in : list N → M scope exn pyval;
  convert_msgpack_in : list N → pytype → M scope exn pyval;
  (** [dumps_with_blob_refs(value)]: the bytes and the blob owners met. *)
  dumps_with_blob_refs : pyval → res (list N * list Z);
  (** [dumps([msgspec.Raw(b) for b in items])] *)
  dumps_raws : list (list N) → list N;
  (** [convert(value, want)] *)
  convert : pyval → pytype → res pyval;
  (** [validate_type(want)] and [is_model_type(want)] *)
  validate_type : pytype → res unit;
  is_model_type : pytype → bool;
  (** [msgspec.msgpack.Decoder(_RawCall).decode]: the two fields, their
      elements still encoded. *)
  decode_raw_call : list N → res (option (list (list N)) * option (list (pystr * list N)))
}.

Section Scopes.
Context `{Codec}.

(** Outside any scope, decoding opens one of its own. *)
Definition loads (raw : list N) : res pyval := (loads_in raw fresh_scope).1.

Definition convert_msgpack (raw : list N) (want : pytype) : res pyval :=
  (convert_msgpack_in raw want fresh_scope).1.

(** Bytes that decode to [v] in any scope and leave it as it was: a value with
    no BlobRef in it. *)
Definition plain (raw : list N) (v : pyval) : Prop := ∀ sc, loads_in raw sc = (Ok v, sc).

Lemma plain_loads raw v : plain raw v → loads raw = Ok v.
Proof. intros Hp. unfold loads. by rewrite Hp. Qed.

(** Decoding where a scope may be open. *)
Definition scoped {A} (m : M scope exn A) : M (option scope) exn A := λ s,
  match s with
  | None => ((m fresh_scope).1, None)
  | Some sc => let '(r, sc') := m sc in (r, Some sc')
  end.
End Scopes.

(** What the clients rely on. *)
Class CodecLaws (C : Codec) : Prop := {
  (** [msgspec.Raw] items are inserted unaltered, so an array of them decodes to
      the array of what each decodes to, as long as they take nothing from the
      blob budget they would share. *)
  loads_raws : ∀ bs vs, Forall2 plain bs vs → loads (dumps_raws bs) = Ok (VList vs);
  (** Decoding raises builtin, msgspec and blob errors, never one of the
      library's own RPC errors. *)
  loads_raises : ∀ b e, loads b = Raise e → issubclass (class_of e) TinyrayError = false;
  convert_msgpack_raises : ∀ b want e,
    convert_msgpack b want = Raise e → issubclass (class_of e) TinyrayError = false;
  (** So does encoding. *)
  dumps_raises : ∀ v e, dumps_with_blob_refs v = Raise e → issubclass (class_of e) TinyrayError = false
}.
