(* ===== verification/SampleCodec.v ===== *)
(** * A concrete codec

    A small self-delimiting encoding that satisfies the laws of the codec
    interface: it shows that they can hold, and lets the calling and serving
    layers be evaluated on concrete payloads.  It stands for no code of the
    repository. *)

From S2P Require Import Prelude PyStr PyFloat Errors Codec.

Local Open Scope Z_scope.

(** A chunk is its length and its content. *)
Definition chunk (b : list N) : list N := N.of_nat (length b) :: b.

Definition chunks (bs : list (list N)) : list N := concat (map chunk bs).

Fixpoint unchunk (fuel : nat) (b : list N) : option (list (list N)) :=
  match fuel, b with
  | _, [] => Some []
  | O, _ => None
  | S f, n :: rest =>
      if (length rest <? N.to_nat n)%nat then None
      else (λ cs, take (N.to_nat n) rest :: cs) <$> unchunk f (drop (N.to_nat n) rest)
  end.

Lemma unchunk_chunks bs fuel :
  (length (chunks bs) <= fuel)%nat → unchunk fuel (chunks bs) = Some bs.
Proof.
  revert fuel. induction bs as [|b bs IH]; intros fuel Hf; [by destruct fuel|].
  unfold chunks in *. simpl in *. destruct fuel as [|fuel]; [lia|]. simpl.
  rewrite length_app in *. destruct (Nat.ltb_spec (length b + length (concat (map chunk bs)))
    (N.to_nat (N.of_nat (length b)))); [lia|].
  rewrite Nat2N.id, take_app_length, drop_app_length, IH by lia. done.
Qed.

(** Pairs out of a flat list. *)
Fixpoint pair_up {A} (l : list A) : list (A * A) :=
  match l with
  | a :: b :: l' => (a, b) :: pair_up l'
  | _ => []
  end.

Fixpoint dec_value (fuel : nat) (b : list N) : option pyval :=
  match fuel, b with
  | S f, [0%N] => Some VNone
  | S f, [1%N; n] => Some (VInt (Z.of_N n))
  | S f, [2%N; n] => Some (VInt (- Z.of_N n))
  | S f, 3%N :: s => Some (VStr s)
  | S f, 4%N :: rest => cs ← unchunk (length rest) rest; VList <$> mapM (dec_value f) cs
  | S f, 5%N :: rest => cs ← unchunk (length rest) rest;
                        VDict ∘ pair_up <$> mapM (dec_value f) cs
  | _, _ => None
  end.

Fixpoint enc_value (v : pyval) : option (list N) :=
  match v with
  | VNone => Some [0%N]
  | VInt z => Some (if 0 <=? z then [1%N; Z.to_N z] else [2%N; Z.to_N (- z)])
  | VStr s => Some (3%N :: s)
  | VList l => bs ← mapM enc_value l; Some (4%N :: chunks bs)
  | VDict kvs =>
      bs ← mapM (λ kv, k ← enc_value kv.1; x ← enc_value kv.2; Some (chunk k ++ chunk x)) kvs;
      Some (5%N :: concat bs)
  | _ => None
  end.

Definition sample_loads (b : list N) : res pyval :=
  match dec_value (length b) b with Some v => Ok v | None => Raise (Exc DecodeError) end.

Definition sample_dumps (v : pyval) : res (list N * list Z) :=
  match enc_value v with Some b => Ok (b, []) | None => Raise (Exc TypeError) end.

Definition sample_raw_call (b : list N) : res (option (list (list N)) * option (list (pystr * list N))) :=
  match b with
  | 5%N :: rest =>
      match unchunk (length rest) rest with
      | Some [_; 4%N :: args; _; 5%N :: kwargs] =>
          match unchunk (length args) args, unchunk (length kwargs) kwargs with
          | Some a, Some k => Ok (Some a, Some (map (λ p, (tail p.1, p.2)) (pair_up k)))
          | _, _ => Raise (Exc DecodeError)
          end
      | _ => Raise (Exc DecodeError)
      end
  | _ => Raise (Exc DecodeError)
  end.

(** Type 0 accepts anything, type 1 integers, any other type nothing. *)
Definition sample_convert (v : pyval) (want : Z) : res pyval :=
  match want, v with
  | 0, _ => Ok v
  | 1, VInt _ => Ok v
  | _, _ => Raise (Exc ValidationError)
  end.

Definition sample_codec : Codec := {|
  scope := unit;
  fresh_scope := tt;
  loads_in := λ b, lift (sample_loads b);
  convert_msgpack_in := λ b want, lift (v ← sample_loads b; sample_convert v want);
  dumps_with_blob_refs := sample_dumps;
  dumps_raws := λ bs, 4%N :: chunks bs;
  convert := sample_convert;
  validate_type := λ _, Ok tt;
  is_model_type := λ want, want =? 7;
  decode_raw_call := sample_raw_call
|}.

Lemma mapM_impl {A B} (f g : A → option B) l k :
  (∀ x y, x ∈ l → f x = Some y → g x = Some y) → mapM f l = Some k → mapM g l = Some k.
Proof.
  intros Hfg. rewrite !mapM_Some. intros HF. induction HF as [|x y l k Hxy HF IH]; constructor.
  - apply Hfg; [left|done].
  - apply IH. intros. apply Hfg; [by right|done].
Qed.

Lemma dec_value_mono f f' b v :
  (f <= f')%nat → dec_value f b = Some v → dec_value f' b = Some v.
Proof.
  revert f' b v. induction f as [|f IH]; intros f' b v Hf; [by destruct b|].
  destruct f' as [|f']; [lia|].
  assert (∀ cs vs, mapM (dec_value f) cs = Some vs → mapM (dec_value f') cs = Some vs) as Hm.
  { intros cs vs. apply mapM_impl. intros x y _. apply IH. lia. }
  destruct b as [|t rest]; [done|]. simpl.
  repeat case_match; try done; intros Hd.
  all: apply bind_Some in Hd as (cs & -> & (vs & ? & ->)%fmap_Some); simpl.
  all: by rewrite (Hm cs vs).
Qed.

Lemma unchunk_length fuel b cs c : unchunk fuel b = Some cs → c ∈ cs → (length c <= length b)%nat.
Proof.
  revert b cs. induction fuel as [|f IH]; intros b cs; destruct b as [|n rest]; simpl.
  1-3: intros Hd Hin; try done; simplify_eq; by apply not_elem_of_nil in Hin.
  destruct (_ <? _)%nat; [done|]. intros (cs' & Hc & ->)%fmap_Some [->|Hin]%elem_of_cons.
  - rewrite length_take. lia.
  - apply (IH _ _ Hc) in Hin. rewrite length_drop in Hin. lia.
Qed.

Lemma chunks_length bs b : b ∈ bs → (length b <= length (chunks bs))%nat.
Proof.
  intros Hin. apply (unchunk_length (length (chunks bs)) _ bs); [|done].
  by apply unchunk_chunks.
Qed.

Lemma sample_loads_ok b v : sample_loads b = Ok v ↔ dec_value (length b) b = Some v.
Proof. unfold sample_loads. destruct (dec_value _ _); split; congruence. Qed.

Lemma sample_loads_raise b e : sample_loads b = Raise e → e = Exc DecodeError.
Proof. unfold sample_loads. destruct (dec_value _ _); [done|]. by intros [= <-]. Qed.

Lemma decoded_chunks bs vs :
  Forall2 (λ b v, sample_loads b = Ok v) bs vs → mapM (dec_value (length (chunks bs))) bs = Some vs.
Proof.
  intros HF. apply mapM_Some. apply Forall2_same_length_lookup_2; [by eapply Forall2_length|].
  intros i b v Hb Hv. pose proof (Forall2_lookup_lr _ _ _ _ _ _ HF Hb Hv) as Hl.
  apply sample_loads_ok in Hl. apply (dec_value_mono (length b)); [|done].
  apply chunks_length. by eapply list_elem_of_lookup_2.
Qed.

Lemma sample_laws : CodecLaws sample_codec.
Proof.
  constructor.
  - intros bs vs HF. change (sample_loads (4%N :: chunks bs) = Ok (VList vs)).
    assert (Forall2 (λ b v, sample_loads b = Ok v) bs vs) as HF'.
    { eapply Forall2_impl; [exact HF|]. intros b v Hp. by injection (Hp tt). }
    clear HF. rename HF' into HF.
    apply sample_loads_ok. cbn [length dec_value].
    rewrite unchunk_chunks by done. cbn [mbind option_bind].
    by rewrite (decoded_chunks bs vs HF).
  - by intros b e ->%sample_loads_raise.
  - intros b want e Hd. change ((v ← sample_loads b; sample_convert v want) = Raise e) in Hd.
    apply bind_raise in Hd as [->%sample_loads_raise|(v & _ & Hd)]; [done|].
    assert (e = Exc ValidationError) as ->; [|done].
    destruct want as [|[]|], v; simpl in Hd; simplify_res; done.
  - intros v e. simpl. unfold sample_dumps. case_match; [done|]. by intros [= <-].
Qed.

Definition decodes (b : list N) : Prop := ∃ v, sample_loads b = Ok v.

Lemma decodes_all bs : Forall decodes bs → ∃ vs, Forall2 (λ b v, sample_loads b = Ok v) bs vs.
Proof.
  induction 1 as [|b bs [v Hv] HF [vs IH]]; [by exists []|]. exists (v :: vs). by constructor.
Qed.

Lemma decodes_list bs : Forall decodes bs → decodes (4%N :: chunks bs) ∧ decodes (5%N :: chunks bs).
Proof.
  intros [vs HF]%decodes_all. pose proof (decoded_chunks bs vs HF) as Hm.
  split; [exists (VList vs)|exists (VDict (pair_up vs))]; apply sample_loads_ok; cbn [length dec_value];
    rewrite unchunk_chunks by done; cbn [mbind option_bind]; by rewrite Hm.
Qed.

(** Whatever it encodes, it decodes. *)
Lemma sample_roundtrip v b : enc_value v = Some b → decodes b.
Proof.
  revert b. induction v using pyval_nested_ind; intros bb Hb; simpl in Hb; simplify_eq.
  - by exists VNone.
  - case_match; eexists; reflexivity.
  - by exists (VStr s).
  - apply bind_Some in Hb as (bs & Hbs & [= <-]). apply decodes_list.
    apply mapM_Some in Hbs. revert bs Hbs. induction H as [|v l Hv HF IH]; intros bs Hbs.
    + by apply Forall2_nil_inv_l in Hbs as ->.
    + apply Forall2_cons_inv_l in Hbs as (b & bs' & Hb & Hbs & ->). constructor; eauto.
  - apply bind_Some in Hb as (bs & Hbs & [= <-]). apply mapM_Some in Hbs.
    assert (∃ cs, concat bs = chunks cs ∧ Forall decodes cs) as (cs & -> & Hcs); [|by apply decodes_list].
    revert bs Hbs. induction H as [|[k v] l [Hk Hv] HF IH]; intros bs Hbs.
    + apply Forall2_nil_inv_l in Hbs as ->. by exists [].
    + apply Forall2_cons_inv_l in Hbs as (b & bs' & Hb & Hbs & ->).
      apply bind_Some in Hb as (bk & Hbk & (bv & Hbv & [= <-])%bind_Some).
      destruct (IH _ Hbs) as (cs & Hc & Hcs). exists (bk :: bv :: cs).
      unfold chunks in *. simpl. rewrite Hc, <-app_assoc. split; [done|].
      constructor; [by eapply Hk|]. constructor; [by eapply Hv|done].
Qed.
