(* ===== verification/Rpc.v ===== *)
(** * Calling: [_rpc.py]

    A call is prepared (endpoint check, encoding, request id), handed to the
    native transport, and its outcome read back: a transport failure, a reply
    status, a decoded value or a batch of them.  The transport is an argument:
    what the network does with a request is the environment's choice. *)

From S2P Require Import Prelude PyStr PyFloat Errors Identity Config Sha256 Timing RequestId Codec SampleCodec.

Local Open Scope Z_scope.

(** ** Outcomes of the native transport *)

Definition RPC_OUTCOME_REPLY : Z := 0.
Definition RPC_OUTCOME_NOT_DELIVERED : Z := 1.
Definition RPC_STATUS_SUCCESS : Z := 0.
Definition RPC_STATUS_METHOD_NOT_FOUND : Z := 1.
Definition RPC_STATUS_FENCED : Z := 2.
Definition RPC_STATUS_CALLER_FAULT : Z := 3.
Definition RPC_STATUS_CONCURRENCY_REFUSED : Z := 4.
Definition RPC_STATUS_REMOTE_ERROR : Z := 5.
Definition RPC_STATUS_MALFORMED_PROTOCOL : Z := 6.
Definition RPC_STATUS_INTERNAL : Z := 7.

(** [RpcOutcome] *)
Record outcome := Outcome {
  o_kind : Z;
  o_status : option Z;
  o_error_type : pystr;
  o_message : pystr;
  o_traceback : pystr;
  o_batch_index : option Z;
  o_completed : option Z;
  o_payload : list N
}.

(** What a call sees of the handle it is made on. *)
Record target := Target { t_url : option pystr; t_identity : pystr }.

(** The arguments of [rpc_call_sync] and [rpc_call_async]. *)
Record call_request := CallRequest {
  rq_endpoint : pystr;
  rq_request : pystr;
  rq_caller : pystr;
  rq_target : pystr;
  rq_body : list N;
  rq_timeout_ms : Z;
  rq_method : option pystr;
  rq_batch_len : option Z;
  rq_owners : list Z
}.

Section Calling.
Context `{Codec}.

(** ** Reading an outcome *)

(** [_transport_error] *)
Definition _transport_error (o : outcome) : exn :=
  if o_kind o =? RPC_OUTCOME_NOT_DELIVERED then Exc NotDelivered else Exc OutcomeUnknown.

Definition or_else (s other : pystr) : pystr := match s with [] => other | _ => s end.

Definition has_status (o : outcome) (s : Z) : bool := bool_decide (o_status o = Some s).

(** [_raise_reply]: it always raises, so it is the exception raised. *)
Definition _raise_reply (o : outcome) : exn :=
  if has_status o RPC_STATUS_METHOD_NOT_FOUND then Exc AttributeError
  else if has_status o RPC_STATUS_FENCED then Exc Fenced
  else if has_status o RPC_STATUS_CALLER_FAULT then Exc TypeError
  else if has_status o RPC_STATUS_CONCURRENCY_REFUSED then Exc NotDelivered
  else if has_status o RPC_STATUS_REMOTE_ERROR
  then RemoteExc (or_else (o_error_type o) (u "Exception")) (o_message o) (o_traceback o)
  else if has_status o RPC_STATUS_MALFORMED_PROTOCOL then Exc NotDelivered
  else if has_status o RPC_STATUS_INTERNAL then Exc OutcomeUnknown
  else Exc OutcomeUnknown.

(** [_reply_payload] *)
Definition _reply_payload (o : outcome) (raw : option (list N)) : res (list N) :=
  if negb (o_kind o =? RPC_OUTCOME_REPLY) then Raise (Exc AssertionError)
  else if negb (has_status o RPC_STATUS_SUCCESS) then Raise (_raise_reply o)
  else Ok (default (o_payload o) raw).

(** The exceptions [loads] reports malformed MessagePack with. *)
Definition malformed : list exc_class := [DecodeError; UnicodeError; ValueError; RecursionError].

(** [_decode] *)
Definition _decode (o : outcome) (raw : option (list N)) : res pyval :=
  raw ← _reply_payload o raw;
  except malformed (λ _, Raise (Exc OutcomeUnknown)) (loads raw).

(** [_decode_typed]: the clauses are tried in order. *)
Definition _decode_typed (o : outcome) (want : Z) (raw : option (list N)) : res pyval :=
  raw ← _reply_payload o raw;
  catch (convert_msgpack raw want) (λ e,
    if matches [ValidationError] e then Some (Raise (Exc TypeError))
    else if matches [TypeError] e then Some (Raise (Exc TypeError))
    else if matches malformed e then Some (Raise (Exc OutcomeUnknown))
    else None).

(** [loads] of a batch reply: anything but a list of the right length leaves
    the outcome of the items unknown. *)
Definition batch_results (raw : list N) (expected : Z) : res (list pyval) :=
  results ← except malformed (λ _, Raise (Exc OutcomeUnknown)) (loads raw);
  match results with
  | VList l => if len l =? expected then Ok l else Raise (Exc OutcomeUnknown)
  | _ => Raise (Exc OutcomeUnknown)
  end.

(** [_decode_batch] *)
Definition _decode_batch (o : outcome) (expected : Z) (raw : option (list N)) : res (list pyval) :=
  if negb (o_kind o =? RPC_OUTCOME_REPLY) then Raise (Exc AssertionError)
  else
    let raw := default (o_payload o) raw in
    if has_status o RPC_STATUS_SUCCESS then batch_results raw expected
    else match o_batch_index o, o_completed o with
         | None, None => Raise (_raise_reply o)
         | Some index, Some completed =>
             if negb (index =? completed) || negb ((0 <=? index) && (index <? expected))
             then Raise (Exc OutcomeUnknown)
             else
               results ← batch_results raw completed;
               let exc := _raise_reply o in
               if matches [AttributeError; TypeError; Fenced; RemoteError] exc
               then Raise (BatchExc index results exc)
               else Raise exc
         | _, _ => Raise (Exc OutcomeUnknown)
         end.

(** ** Making a call *)

(** [_prepare]: endpoint, body, request id, blob owners. *)
Definition _prepare (h : target) (payload : pyval) : RM (pystr * list N * pystr * list Z) :=
  endpoint ← lift (rpc_endpoint (t_url h));
  body ← lift (dumps_with_blob_refs payload);
  request ← _request_id;
  mret (endpoint, body.1, request, body.2).

(** [_native_sync] over a given transport. *)
Definition _native_sync (transport : call_request → outcome) (h : target) (name : pystr)
    (body : list N) (request : pystr) (timeout : timeout_arg) (batch_size : option Z)
    (blob_owners : list Z) : RM outcome :=
  endpoint ← lift (rpc_endpoint (t_url h));
  who ← gets rs_identity;
  timeout_ms ← lift (_timeout_ms timeout);
  let o := transport (CallRequest endpoint request who (t_identity h) body timeout_ms
             (match batch_size with Some _ => None | None => Some name end)
             batch_size blob_owners) in
  if negb (o_kind o =? RPC_OUTCOME_REPLY) then raise (_transport_error o) else mret o.

(** [_return_type]: [None] stands for [_RAW_RETURN]. *)
Definition decode_reply (o : outcome) (batch_size : option Z) (return_type : option Z)
    (raw : list N) : res pyval :=
  match batch_size with
  | Some n => VList <$> _decode_batch o n (Some raw)
  | None => match return_type with
            | Some want => _decode_typed o want (Some raw)
            | None => _decode o (Some raw)
            end
  end.

(** [invoke] *)
Definition invoke (transport : call_request → outcome) (h : target) (name : pystr)
    (payload : pyval) (timeout : timeout_arg) (batch_size return_type : option Z) : RM pyval :=
  prepared ← _prepare h payload;
  let '(endpoint, body, request, keepalive) := prepared in
  _ ← _nudge (len body);
  o ← _native_sync transport h name body request timeout batch_size keepalive;
  let raw := o_payload o in
  _ ← _nudge (len raw);
  lift (decode_reply o batch_size return_type raw).

(** ** The asynchronous completion *)

(** The future a call awaits. *)
Inductive future := FPending | FResult (o : outcome) | FException (e : exn) | FCancelled.

Definition future_done (f : future) : bool := match f with FPending => false | _ => true end.

(** [complete]: the native side delivers once; the flag is what [resolve] is
    told, whether anybody will use the answer. *)
Definition complete (f : future) (resolve : bool → res outcome) : future * bool :=
  if future_done f then (f, false)
  else (match resolve true with Ok o => FResult o | Raise e => FException e end, true).

Inductive await_event := Completion (resolve : bool → res outcome) | Cancellation.

Definition await_step (f : future) (e : await_event) : future :=
  match e with
  | Completion resolve => (complete f resolve).1
  | Cancellation => if future_done f then f else FCancelled
  end.

(** [await future] then the checks of [_await_native]: what it answers and
    whether it cancelled the ticket. *)
Definition _await_native (events : list await_event) : option (res outcome * bool) :=
  match fold_left await_step events FPending with
  | FPending => None
  | FCancelled => Some (Raise (Exc CancelledError), true)
  | FException e => Some (Raise e, false)
  | FResult o => if negb (o_kind o =? RPC_OUTCOME_REPLY) then Some (Raise (_transport_error o), false)
                 else Some (Ok o, false)
  end.

(** [ainvoke]: [invoke] with the await in the place of the blocking call. *)
Definition ainvoke (events : call_request → list await_event) (h : target) (name : pystr)
    (payload : pyval) (timeout : timeout_arg) (batch_size return_type : option Z)
    : RM (option pyval) :=
  prepared ← _prepare h payload;
  let '(endpoint, body, request, keepalive) := prepared in
  _ ← _nudge (len body);
  endpoint' ← lift (rpc_endpoint (t_url h));
  who ← gets rs_identity;
  timeout_ms ← lift (_timeout_ms timeout);
  match _await_native (events (CallRequest endpoint' request who (t_identity h) body timeout_ms
             (match batch_size with Some _ => None | None => Some name end)
             batch_size keepalive)) with
  | None => mret None
  | Some (r, _) =>
      o ← lift r;
      let raw := o_payload o in
      _ ← _nudge (len raw);
      Some <$> lift (decode_reply o batch_size return_type raw)
  end.

(** ** Batches *)

(** [class Call] before its check: any three values. *)
Record call := Call { c_method : pyval; c_args : pyval; c_kwargs : pyval }.

(** A public ASCII method name. *)
Definition public_name (name : pystr) : bool :=
  isascii name && isidentifier name && negb (startswith (u "_") name).

(** [_call_payload] *)
Definition _call_payload (c : call) : res pyval :=
  match c_method c with
  | VStr name =>
      if negb (public_name name) then Raise (Exc ValueError)
      else
        args ← match c_args c with
               | VTuple l | VList l => Ok l
               | _ => Raise (Exc TypeError)
               end;
        kwargs ← match c_kwargs c with
                 | VNone => Ok []
                 | VDict kvs => if forallb (λ kv, is_str kv.1) kvs then Ok kvs
                                else Raise (Exc TypeError)
                 | _ => Raise (Exc TypeError)
                 end;
        Ok (VDict [(VStr (u "method"), VStr name); (VStr (u "args"), VList args);
                   (VStr (u "kwargs"), VDict kwargs)])
  | _ => Raise (Exc TypeError)
  end.

(** [Call(method, args, kwargs)]: [__post_init__] runs the check. *)
Definition new_call (method args kwargs : pyval) : res call :=
  let c := Call method args kwargs in
  _ ← _call_payload c;
  Ok c.

(** An element of the iterable given to [batch()]. *)
Inductive batch_item := ItemCall (c : call) | ItemOther.

Fixpoint batch_payload_from (index : Z) (calls : list batch_item) : res (list pyval) :=
  match calls with
  | [] => Ok []
  | it :: rest =>
      if MAX_BATCH <=? index then Raise (Exc ValueError)
      else match it with
           | ItemOther => Raise (Exc TypeError)
           | ItemCall c => item ← _call_payload c;
                           items ← batch_payload_from (index + 1) rest;
                           Ok (item :: items)
           end
  end.

(** [_batch_payload] *)
Definition _batch_payload (calls : list batch_item) : res (list pyval) := batch_payload_from 0 calls.

(** [batch] *)
Definition batch (transport : call_request → outcome) (h : target) (calls : list batch_item)
    (timeout : timeout_arg) : RM pyval :=
  items ← lift (_batch_payload calls);
  match items with
  | [] => mret (VList [])
  | _ => invoke transport h (u "batch") (VDict [(VStr (u "calls"), VList items)]) timeout
           (Some (len items)) None
  end.

(** [abatch] *)
Definition abatch (events : call_request → list await_event) (h : target) (calls : list batch_item)
    (timeout : timeout_arg) : RM (option pyval) :=
  items ← lift (_batch_payload calls);
  match items with
  | [] => mret (Some (VList []))
  | _ => ainvoke events h (u "batch") (VDict [(VStr (u "calls"), VList items)]) timeout
           (Some (len items)) None
  end.

(** [_restore_return] *)
Definition _restore_return (value : pyval) (want : Z) : res pyval :=
  except [ValidationError; TypeError] (λ _, Raise (Exc TypeError)) (convert value want).

(** ** Bound methods *)

Record bound_method := BoundMethod {
  bm_handle : target;
  bm_name : pystr;
  bm_timeout : timeout_arg;
  bm_return_type : option Z
}.

(** [BoundMethod.timeout], [.returns] and [.__call__] *)
Definition bm_with_timeout (seconds : timeout_arg) (bm : bound_method) : bound_method :=
  BoundMethod (bm_handle bm) (bm_name bm) seconds (bm_return_type bm).

Definition bm_returns (want : Z) (bm : bound_method) : res bound_method :=
  _ ← validate_type want;
  Ok (BoundMethod (bm_handle bm) (bm_name bm) (bm_timeout bm) (Some want)).

Definition bm_call (transport : call_request → outcome) (bm : bound_method)
    (args : list pyval) (kwargs : list (pyval * pyval)) : RM pyval :=
  let payload := VDict [(VStr (u "args"), VList args); (VStr (u "kwargs"), VDict kwargs)] in
  invoke transport (bm_handle bm) (bm_name bm) payload (bm_timeout bm) None (bm_return_type bm).

(** ** Reading outcomes: lemmas *)

Lemma has_status_eq o z : has_status o z = true ↔ o_status o = Some z.
Proof. apply bool_decide_eq_true. Qed.

Lemma batch_results_ok raw n l :
  batch_results raw n = Ok l ↔ loads raw = Ok (VList l) ∧ len l = n.
Proof.
  unfold batch_results, except, catch. destruct (loads raw) as [v|e]; simpl.
  - split.
    + intros Hv. repeat case_match; simplify_res. split; [done|by apply Z.eqb_eq].
    + intros [[= ->] Hl]. by rewrite (proj2 (Z.eqb_eq _ _) Hl).
  - destruct (matches malformed e); simpl; (split; [done|by intros [? _]]).
Qed.

(** Whatever goes wrong in a batch payload is reported as an unknown outcome
    or is the decoder's own error. *)
Lemma batch_results_raise raw n e :
  batch_results raw n = Raise e →
  e = Exc OutcomeUnknown ∨ (loads raw = Raise e ∧ matches malformed e = false).
Proof.
  unfold batch_results, except, catch. destruct (loads raw) as [v|e']; simpl.
  - intros Hv. repeat case_match; simplify_res; auto.
  - destruct (matches malformed e') eqn:?; simpl; intros [= <-]; auto.
Qed.

(** The status decides the class of the exception a reply is read as. *)
Lemma raise_reply_class o :
  class_of (_raise_reply o) = NotDelivered ↔
  o_status o = Some RPC_STATUS_CONCURRENCY_REFUSED ∨ o_status o = Some RPC_STATUS_MALFORMED_PROTOCOL.
Proof.
  rewrite <-!has_status_eq. unfold _raise_reply, has_status.
  repeat case_bool_decide; simpl; (split; [first [tauto|discriminate]|]).
  all: intros Hs; first [reflexivity|exfalso; revert Hs; naive_solver].
Qed.

Lemma raise_reply_batchable o :
  matches [AttributeError; TypeError; Fenced; RemoteError] (_raise_reply o) = true ↔
  o_status o = Some RPC_STATUS_METHOD_NOT_FOUND ∨ o_status o = Some RPC_STATUS_FENCED ∨
  o_status o = Some RPC_STATUS_CALLER_FAULT ∨ o_status o = Some RPC_STATUS_REMOTE_ERROR.
Proof.
  unfold _raise_reply, has_status. repeat case_bool_decide.
  all: split; [intros Hm; first [tauto|vm_compute in Hm; discriminate]|].
  all: intros Hs; first [reflexivity|exfalso; revert Hs; naive_solver].
Qed.

Lemma raise_reply_not_batch o i rs c : _raise_reply o ≠ BatchExc i rs c.
Proof. unfold _raise_reply. by repeat case_match. Qed.

(** ** Calls: lemmas *)

(** What [rpc_endpoint] lets through. *)
Lemma rpc_endpoint_ok url e :
  rpc_endpoint url = Ok e →
  url = Some e ∧ e ≠ [] ∧ strip e = e ∧ contains scheme e = false ∧ contains [colon] e = true.
Proof.
  unfold rpc_endpoint. destruct url as [s|]; [|done].
  destruct (contains scheme s) eqn:?; [done|].
  destruct (_ || negb (contains [colon] _)) eqn:Hb; [done|].
  intros [= <-]. rewrite !orb_false_iff, negb_false_iff, !bool_decide_eq_false in Hb.
  destruct Hb as [[Hne Hs%dec_stable] Hc]. done.
Qed.

(** What becomes of a call once the transport has answered [o]. *)
Definition settled (o : outcome) (batch_size return_type : option Z) : RM pyval :=
  if negb (o_kind o =? RPC_OUTCOME_REPLY) then raise (_transport_error o)
  else (_ ← _nudge (len (o_payload o)); lift (decode_reply o batch_size return_type (o_payload o))).

(** The request of a call: callable, addressed to the handle's tenure, signed
    with this process's identity. *)
Definition request_for (h : target) (name : pystr) (batch_size : option Z) (rq : call_request)
    (s : rpc_state) : Prop :=
  rpc_endpoint (t_url h) = Ok (rq_endpoint rq) ∧ rq_target rq = t_identity h ∧
  rq_caller rq = rs_identity s ∧ rq_batch_len rq = batch_size ∧
  rq_method rq = match batch_size with Some _ => None | None => Some name end.

Lemma timeout_ms_ok t z : _timeout_ms t = Ok z → 0 ≤ z < 2 ^ 64.
Proof. intros Ht. pose proof (timeout_ms_cases t) as Hc. rewrite Ht in Hc. tauto. Qed.

Lemma timeout_ms_raise t e : _timeout_ms t = Raise e → class_of e ≠ NotDelivered.
Proof.
  intros Ht. pose proof (timeout_ms_cases t) as Hc. rewrite Ht in Hc. destruct Hc as [Hc | Hc]; rewrite Hc; done.
Qed.

Lemma generated_request_id_raise i n e : _generated_request_id i n = Raise e → e = Exc UnicodeError.
Proof.
  unfold _generated_request_id, encode_ascii. cbv zeta. case_match; [done|].
  destruct (isascii i); cbn [mbind result_bind]; [|by intros [= <-]].
  case_match; [done|]. destruct (isascii _); cbn [mbind result_bind]; by intros [= <-].
Qed.

Lemma request_id_raise s e s' : _request_id s = (Raise e, s') → class_of e ≠ NotDelivered.
Proof.
  unfold _request_id, gets, mbind, M_bind, lift, mret, M_ret.
  destruct (rs_pinned s); [done|]. simpl. intros [= Hr _].
  by rewrite (generated_request_id_raise _ _ _ Hr).
Qed.

Lemma library_not_delivered e :
  issubclass (class_of e) TinyrayError = false → class_of e ≠ NotDelivered.
Proof. intros Hf Hc. by rewrite Hc in Hf. Qed.

Lemma request_id_state s r s' : _request_id s = (r, s') → rs_identity s' = rs_identity s.
Proof.
  unfold _request_id, gets, next_seq, mbind, M_bind. simpl.
  destruct (rs_pinned s); simpl; intros [= <- <-]; done.
Qed.

Lemma nudge_state n s r s' :
  _nudge n s = (r, s') → rs_identity s' = rs_identity s ∧ (r = Ok tt ∨ r = Raise (Exc OversizeWarning)).
Proof. unfold _nudge. intros H1. repeat case_match; simplify_res; auto. Qed.


(** A call that fails before the transport is asked fails the same whatever
    the transport would do; otherwise the transport is asked exactly once. *)
Lemma invoke_shape `{!CodecLaws H} h name payload timeout bs rt s :
  (∃ e s', (∀ t, invoke t h name payload timeout bs rt s = (Raise e, s')) ∧
           (class_of e = NotDelivered → ∃ e', rpc_endpoint (t_url h) = Raise e')) ∨
  (∃ rq s', request_for h name bs rq s ∧ 0 ≤ rq_timeout_ms rq < 2 ^ 64 ∧
            dumps_with_blob_refs payload = Ok (rq_body rq, rq_owners rq) ∧
            ∀ t, invoke t h name payload timeout bs rt s = settled (t rq) bs rt s').
Proof.
  unfold invoke, _prepare, _native_sync, settled, mbind, M_bind, lift, gets, mret, M_ret, raise.
  destruct (rpc_endpoint (t_url h)) as [ep|e] eqn:Hep.
  2:{ left. exists e, s. simpl. eauto. }
  destruct (dumps_with_blob_refs payload) as [[body owners]|e] eqn:Hd.
  2:{ left. exists e, s. split; [done|]. intros Hc. by destruct (library_not_delivered e (dumps_raises _ _ Hd)). }
  destruct (_request_id s) as [[rid|e] s1] eqn:Hr.
  2:{ left. exists e, s1. split; [done|]. intros Hc. by destruct (request_id_raise _ _ _ Hr). }
  simpl. destruct (_nudge (len body) s1) as [r s2] eqn:Hn.
  pose proof (request_id_state _ _ _ Hr) as Hi1.
  destruct (nudge_state _ _ _ _ Hn) as [Hi2 [-> | ->]].
  2:{ left. by eexists _, s2. }
  destruct (_timeout_ms timeout) as [ms|e] eqn:Ht.
  2:{ left. exists e, s2. split; [done|]. intros Hc. by destruct (timeout_ms_raise _ _ Ht). }
  right. eexists (CallRequest ep rid (rs_identity s2) (t_identity h) body ms _ bs owners), s2.
  unfold request_for. split_and!; simpl; try done; [congruence|apply (timeout_ms_ok _ _ Ht)..|].
  intros t. destruct (negb _); done.
Qed.

(** A reply is read as [NotDelivered] only for the two statuses the listener
    sends before it dispatches. *)
Lemma decode_reply_not_delivered `{!CodecLaws H} o bs rt raw e :
  o_kind o = RPC_OUTCOME_REPLY → decode_reply o bs rt raw = Raise e → class_of e = NotDelivered →
  o_status o = Some RPC_STATUS_CONCURRENCY_REFUSED ∨ o_status o = Some RPC_STATUS_MALFORMED_PROTOCOL.
Proof.
  intros Hk Hd Hc. apply raise_reply_class.
  assert (∀ n e, batch_results raw n = Raise e → class_of e ≠ NotDelivered) as Hb.
  { intros n e' [-> |[Hl _]]%batch_results_raise; [done|].
    by apply library_not_delivered, (loads_raises _ _ Hl). }
  unfold decode_reply, _decode_batch, _decode_typed, _decode, _reply_payload in Hd.
  rewrite Hk, Z.eqb_refl in Hd. simpl in Hd.
  destruct bs as [n|].
  - destruct (has_status o RPC_STATUS_SUCCESS).
    { apply fmap_raise in Hd. by destruct (Hb _ _ Hd). }
    apply fmap_raise in Hd.
    destruct (o_batch_index o) as [i|], (o_completed o) as [c|]; simplify_res; try done.
    destruct (_ || _); simplify_res; [done|].
    apply bind_raise in Hd as [Hr|(rs & Hr & Hd)]; [by destruct (Hb _ _ Hr)|].
    simpl in Hd. destruct (matches _ _); simplify_res; done.
  - destruct (has_status o RPC_STATUS_SUCCESS); simpl in Hd.
    2:{ by destruct rt; simplify_res. }
    destruct rt as [want|]; simpl in Hd.
    + destruct (convert_msgpack raw want) as [|e'] eqn:Hv; [done|].
      pose proof (library_not_delivered _ (convert_msgpack_raises _ _ _ Hv)).
      simpl in Hd. repeat (destruct (matches _ _); simpl in Hd; [by simplify_res|]).
      by simplify_res.
    + unfold except in Hd. destruct (loads raw) as [|e'] eqn:Hv; [done|].
      pose proof (library_not_delivered _ (loads_raises _ _ Hv)).
      simpl in Hd. destruct (matches _ _); simpl in Hd; by simplify_res.
Qed.

(** The failing half of [_decode_batch]. *)
Lemma batch_failed_iff `{!CodecLaws H} o expected raw i rs cause :
  match o_batch_index o, o_completed o with
  | None, None => Raise (_raise_reply o)
  | Some index, Some completed =>
      if negb (index =? completed) || negb ((0 <=? index) && (index <? expected))
      then Raise (Exc OutcomeUnknown)
      else
        results ← batch_results raw completed;
        if matches [AttributeError; TypeError; Fenced; RemoteError] (_raise_reply o)
        then Raise (BatchExc index results (_raise_reply o))
        else Raise (_raise_reply o)
  | _, _ => Raise (Exc OutcomeUnknown)
  end = @Raise exn (list pyval) (BatchExc i rs cause) ↔
  cause = _raise_reply o ∧
  o_status o ∈ [Some RPC_STATUS_METHOD_NOT_FOUND; Some RPC_STATUS_FENCED;
                Some RPC_STATUS_CALLER_FAULT; Some RPC_STATUS_REMOTE_ERROR] ∧
  o_batch_index o = Some i ∧ o_completed o = Some i ∧ 0 ≤ i < expected ∧
  loads raw = Ok (VList rs) ∧ len rs = i.
Proof.
  pose proof (raise_reply_batchable o) as Hb.
  assert (∀ i rs c, Raise (_raise_reply o) ≠ @Raise exn (list pyval) (BatchExc i rs c)) as Hn.
  { intros ??? [= Hr]. by apply raise_reply_not_batch in Hr. }
  destruct (o_batch_index o) as [i'|], (o_completed o) as [c|].
  2-4: split; [intros Hd; first [by apply Hn in Hd|discriminate Hd]|intros (_ & _ & ? & ? & _); congruence].
  destruct (negb _ || _) eqn:Hg.
  { split; [done|]. intros (_ & _ & [= ->] & [= ->] & Hr & _). exfalso.
    rewrite orb_true_iff, !negb_true_iff, Z.eqb_neq, andb_false_iff, Z.leb_gt, Z.ltb_ge in Hg. lia. }
  rewrite orb_false_iff, !negb_false_iff, Z.eqb_eq, andb_true_iff, Z.leb_le, Z.ltb_lt in Hg.
  destruct Hg as [<- Hr]. split.
  - intros [[?|[Hl _]]%batch_results_raise|(rs' & [Hl Hlen]%batch_results_ok & Hd)]%bind_raise;
      [done|by pose proof (loads_raises _ _ Hl)|].
    destruct (matches _ _); [|by apply Hn in Hd]. injection Hd as -> -> <-.
    split_and!; try done; [|lia..]. rewrite !elem_of_cons. tauto.
  - intros (-> & Hst & [= ->] & _ & _ & Hl & Hlen).
    rewrite (proj2 (batch_results_ok _ _ _) (conj Hl Hlen)). simpl.
    rewrite (proj2 Hb); [done|]. rewrite !elem_of_cons, elem_of_nil in Hst. tauto.
Qed.

Lemma decode_batch_ok_iff o expected raw l :
  _decode_batch o expected (Some raw) = Ok l ↔
  o_kind o = RPC_OUTCOME_REPLY ∧ o_status o = Some RPC_STATUS_SUCCESS ∧
  loads raw = Ok (VList l) ∧ len l = expected.
Proof.
  unfold _decode_batch. simpl.
  destruct (Z.eqb_spec (o_kind o) RPC_OUTCOME_REPLY) as [Hk|Hk]; simpl; [|by split; [|intros [? _]]].
  destruct (has_status o RPC_STATUS_SUCCESS) eqn:Hs.
  - apply has_status_eq in Hs. rewrite batch_results_ok. tauto.
  - split; [|intros (_ & Ho%has_status_eq & _); congruence].
    intros Hd. repeat case_match; simplify_res; repeat case_match; simplify_res.
Qed.

Lemma decode_batch_failed_iff `{!CodecLaws H} o expected raw i rs cause :
  _decode_batch o expected (Some raw) = Raise (BatchExc i rs cause) ↔
  o_kind o = RPC_OUTCOME_REPLY ∧ cause = _raise_reply o ∧
  o_status o ∈ [Some RPC_STATUS_METHOD_NOT_FOUND; Some RPC_STATUS_FENCED;
                Some RPC_STATUS_CALLER_FAULT; Some RPC_STATUS_REMOTE_ERROR] ∧
  o_batch_index o = Some i ∧ o_completed o = Some i ∧ 0 ≤ i < expected ∧
  loads raw = Ok (VList rs) ∧ len rs = i.
Proof.
  unfold _decode_batch. simpl.
  destruct (Z.eqb_spec (o_kind o) RPC_OUTCOME_REPLY) as [Hk|Hk]; simpl; [|by split; [|intros [? _]]].
  destruct (has_status o RPC_STATUS_SUCCESS) eqn:Hs.
  - apply has_status_eq in Hs. split; [|rewrite Hs; set_solver].
    intros [?|[Hl _]]%batch_results_raise; [done|]. by pose proof (loads_raises _ _ Hl).
  - pose proof (batch_failed_iff o expected raw i rs cause) as Hf. rewrite Hf. tauto.
Qed.

(** The statuses that the failure of one item can have. *)
Definition item_statuses : list (option Z) :=
  [Some RPC_STATUS_METHOD_NOT_FOUND; Some RPC_STATUS_FENCED; Some RPC_STATUS_CALLER_FAULT; Some RPC_STATUS_REMOTE_ERROR].

(** The other ways a batch reply is read. *)
Definition batch_refused (o : outcome) (raw : list N) (e : exn) : Prop :=
  o_kind o ≠ RPC_OUTCOME_REPLY ∧ e = Exc AssertionError ∨
  o_kind o = RPC_OUTCOME_REPLY ∧
  (e = _raise_reply o ∧ o_status o ≠ Some RPC_STATUS_SUCCESS ∧
     (o_batch_index o = None ∧ o_completed o = None ∨ o_status o ∉ item_statuses) ∨
   loads raw = Raise e ∧ matches malformed e = false ∨
   e = Exc OutcomeUnknown ∧ ¬ (o_batch_index o = None ∧ o_completed o = None ∧ o_status o ≠ Some RPC_STATUS_SUCCESS)).

Lemma decode_batch_otherwise o expected raw e :
  _decode_batch o expected (Some raw) = Raise e → (∃ i rs cause, e = BatchExc i rs cause) ∨ batch_refused o raw e.
Proof.
  unfold _decode_batch. simpl. destruct (Z.eqb_spec (o_kind o) RPC_OUTCOME_REPLY) as [Hk|Hk]; simpl; [|by intros [= <-]; right; left].
  destruct (has_status o RPC_STATUS_SUCCESS) eqn:Hs.
  { apply has_status_eq in Hs. intros [-> |[Hl Hm]]%batch_results_raise; right; right; (split; [done|]).
    - right. right. split; [done|]. by intros (_ & _ & ?).
    - right. by left. }
  assert (o_status o ≠ Some RPC_STATUS_SUCCESS) as Hns by (intros Ho%has_status_eq; congruence).
  assert (¬ (o_batch_index o = None ∧ o_completed o = None ∧ o_status o ≠ Some RPC_STATUS_SUCCESS) →
    Raise (Exc OutcomeUnknown) = @Raise exn (list pyval) e → batch_refused o raw e) as Hout.
  { intros Hn [= <-]. right. split; [done|]. by right; right. }
  destruct (o_batch_index o) as [i|] eqn:Hi, (o_completed o) as [c|] eqn:Hc.
  - destruct (_ || _); [intros He; right; apply Hout; [naive_solver|done]|].
    intros [[-> |[Hl Hm]]%batch_results_raise|(rs & _ & Hd)]%bind_raise.
    + right. right. split; [done|]. right. right. split; [done|naive_solver].
    + right. right. split; [done|]. right. by left.
    + destruct (matches _ _) eqn:Hm; injection Hd as <-; [left; eauto|right; right]. split; [done|]. left. split_and!; try done. right.
      intros Hin. apply not_true_iff_false in Hm. apply Hm, raise_reply_batchable. unfold item_statuses in Hin. set_solver.
  - intros He. right. apply Hout; [naive_solver|done].
  - intros He. right. apply Hout; [naive_solver|done].
  - intros [= <-]. right. right. split; [done|]. left. auto.
Qed.

(** ** Properties *)

(** C13: how a batch reply is read.  The caller gets a list exactly when the
    reply is a success whose payload decodes to as many results as calls
    were sent, and a [BatchError] exactly when one item failed in a way the
    protocol allows: its index is in range, equal to the number of results
    the payload holds, and its cause is the exception of that item.  Everything
    else is about the whole batch: the exception of the reply's status, when it
    names no item or the status is none that an item can have; what the decoder
    raised, when that does not mean malformed data; [OutcomeUnknown] for the
    rest of the replies; [AssertionError] for what is not a reply. *)
Theorem decode_batch_spec `{!CodecLaws H} (o : outcome) (expected : Z) (raw : list N) :
  (∀ l, _decode_batch o expected (Some raw) = Ok l ↔
     o_kind o = RPC_OUTCOME_REPLY ∧ o_status o = Some RPC_STATUS_SUCCESS ∧
     loads raw = Ok (VList l) ∧ len l = expected) ∧
  (∀ i rs cause, _decode_batch o expected (Some raw) = Raise (BatchExc i rs cause) ↔
     o_kind o = RPC_OUTCOME_REPLY ∧ cause = _raise_reply o ∧ o_status o ∈ item_statuses ∧
     o_batch_index o = Some i ∧ o_completed o = Some i ∧ 0 ≤ i < expected ∧
     loads raw = Ok (VList rs) ∧ len rs = i) ∧
  (∀ e, _decode_batch o expected (Some raw) = Raise e → (∃ i rs cause, e = BatchExc i rs cause) ∨ batch_refused o raw e).
Proof. split_and!; intros *; [apply decode_batch_ok_iff|apply decode_batch_failed_iff|apply decode_batch_otherwise]. Qed.

(** The transport is asked at most once per call, and only with a request
    whose endpoint is callable, whose time budget is an unsigned 64-bit
    number and which carries the caller's identity and the tenure it is
    addressed to; a call refused earlier fails the same way whatever the
    transport would have done. *)
Theorem invoke_asks_once `{!CodecLaws H} (h : target) (name : pystr) (payload : pyval)
    (timeout : timeout_arg) (bs rt : option Z) (s : rpc_state) :
  (∃ e s', ∀ t, invoke t h name payload timeout bs rt s = (Raise e, s')) ∨
  (∃ rq s', request_for h name bs rq s ∧ 0 ≤ rq_timeout_ms rq < 2 ^ 64 ∧
            dumps_with_blob_refs payload = Ok (rq_body rq, rq_owners rq) ∧
            ∀ t, invoke t h name payload timeout bs rt s = settled (t rq) bs rt s').
Proof.
  destruct (invoke_shape h name payload timeout bs rt s) as [(e & s' & He & _)|Hr]; [left|right]; eauto.
Qed.

(** When a call that was sent ends in [NotDelivered]. *)
Lemma settled_not_delivered `{!CodecLaws H} o bs rt s e s' :
  settled o bs rt s = (Raise e, s') → class_of e = NotDelivered →
  o_kind o = RPC_OUTCOME_NOT_DELIVERED ∨
  o_kind o = RPC_OUTCOME_REPLY ∧
  (o_status o = Some RPC_STATUS_CONCURRENCY_REFUSED ∨ o_status o = Some RPC_STATUS_MALFORMED_PROTOCOL).
Proof.
  intros Hs Hc. unfold settled, mbind, M_bind, lift, raise in Hs.
  destruct (Z.eqb_spec (o_kind o) RPC_OUTCOME_REPLY) as [Hk|Hk]; simpl in Hs.
  - right. split; [done|]. destruct (_nudge _ s) as [r s2] eqn:Hnd.
    destruct (nudge_state _ _ _ _ Hnd) as [_ [-> | ->]]; [|by simplify_res].
    injection Hs as Hd _. by apply (decode_reply_not_delivered _ _ _ _ _ Hk Hd).
  - left. injection Hs as <- _. unfold _transport_error in Hc.
    destruct (Z.eqb_spec (o_kind o) RPC_OUTCOME_NOT_DELIVERED); done.
Qed.

(** C14: [NotDelivered], the one failure a caller may blindly retry, is raised
    only when the address cannot be called, when the transport reported the
    request as not delivered, or when the status of the listener's reply is
    that the request was turned away: too many at once, or malformed.  No
    error of the listener, the handler or the codec is read as it. *)
Theorem not_delivered_honest `{!CodecLaws H} (transport : call_request → outcome) (h : target)
    (name : pystr) (payload : pyval) (timeout : timeout_arg) (bs rt : option Z)
    (s s' : rpc_state) (e : exn) :
  invoke transport h name payload timeout bs rt s = (Raise e, s') → class_of e = NotDelivered →
  (∃ e', rpc_endpoint (t_url h) = Raise e') ∨
  ∃ rq, request_for h name bs rq s ∧
        (o_kind (transport rq) = RPC_OUTCOME_NOT_DELIVERED ∨
         o_kind (transport rq) = RPC_OUTCOME_REPLY ∧
         (o_status (transport rq) = Some RPC_STATUS_CONCURRENCY_REFUSED ∨
          o_status (transport rq) = Some RPC_STATUS_MALFORMED_PROTOCOL)).
Proof.
  destruct (invoke_shape h name payload timeout bs rt s)
    as [(e1 & s1 & He & Hn)|(rq & s1 & Hrq & _ & _ & Ht)].
  - rewrite He. intros [= <- <-] Hc. left. auto.
  - rewrite Ht. intros Hs Hc. right. exists rq. split; [done|]. by eapply settled_not_delivered.
Qed.

End Calling.

(** ** Instances on concrete calls *)

(** A reply that says the second of three calls raised. *)
Definition sample_failed : outcome :=
  Outcome RPC_OUTCOME_REPLY (Some RPC_STATUS_REMOTE_ERROR) (u "KeyError") (u "x") [] (Some 1) (Some 1)
    (4%N :: chunks [[1%N; 5%N]]).

Lemma decode_batch_spec_witness :
  @_decode_batch sample_codec sample_failed 3 (Some (o_payload sample_failed))
  = Raise (BatchExc 1 [VInt 5] (RemoteExc (u "KeyError") (u "x") [])).
Proof.
  apply (@decode_batch_spec sample_codec sample_laws sample_failed 3 (o_payload sample_failed)).
  split_and!; try first [reflexivity|lia]. vm_compute. set_solver.
Defined.

Definition sample_target : target := Target (Some (u "10.0.0.7:4000")) (u "engine/2#7").
Definition sample_state : rpc_state := RpcState (u "driver/0#3") 1 None false [].
Definition sample_refused : outcome :=
  Outcome RPC_OUTCOME_REPLY (Some RPC_STATUS_CONCURRENCY_REFUSED) [] [] [] None None [].

Lemma invoke_asks_once_witness :
  (∃ e s', ∀ t, @invoke sample_codec t sample_target (u "step") (VList [VInt 4]) (TInt 2) None None
                  sample_state = (Raise e, s')) ∨
  (∃ rq s', request_for sample_target (u "step") None rq sample_state ∧
            0 ≤ rq_timeout_ms rq < 2 ^ 64 ∧
            @dumps_with_blob_refs sample_codec (VList [VInt 4]) = Ok (rq_body rq, rq_owners rq) ∧
            ∀ t, @invoke sample_codec t sample_target (u "step") (VList [VInt 4]) (TInt 2) None None
                   sample_state = @settled sample_codec (t rq) None None s').
Proof. apply (@invoke_asks_once sample_codec sample_laws). Defined.

Lemma not_delivered_honest_witness :
  (∃ e', rpc_endpoint (t_url sample_target) = Raise e') ∨
  ∃ rq, request_for sample_target (u "step") None rq sample_state ∧
        (o_kind sample_refused = RPC_OUTCOME_NOT_DELIVERED ∨
         o_kind sample_refused = RPC_OUTCOME_REPLY ∧
         (o_status sample_refused = Some RPC_STATUS_CONCURRENCY_REFUSED ∨
          o_status sample_refused = Some RPC_STATUS_MALFORMED_PROTOCOL)).
Proof.
  apply (@not_delivered_honest sample_codec sample_laws (λ _, sample_refused) sample_target (u "step")
           (VList [VInt 4]) (TInt 2) None None sample_state
           (RpcState (u "driver/0#3") 2 None false []) (Exc NotDelivered)); vm_compute; reflexivity.
Defined.

(** ** Batches: what is sent *)

(** A well-formed batch item: what the client sends and the server takes. *)
Definition item_ok (v : pyval) : Prop :=
  ∃ name args kwargs, v = VDict [(VStr (u "method"), VStr name); (VStr (u "args"), VList args);
                                 (VStr (u "kwargs"), VDict kwargs)] ∧
    public_name name = true ∧ Forall (λ kv, is_str kv.1 = true) kwargs.

Lemma call_payload_ok c v : _call_payload c = Ok v → item_ok v.
Proof.
  unfold _call_payload. destruct (c_method c); try done.
  destruct (public_name _) eqn:Hp; [|done]. simpl. intros Hd.
  apply bind_ok in Hd as (args & _ & Hd). apply bind_ok in Hd as (kwargs & Hk & Hd). simplify_res.
  eexists _, args, kwargs. split_and!; [done|done|].
  destruct (c_kwargs c); simplify_res; [constructor|].
  destruct (forallb _ _) eqn:Hf; simplify_res. by apply forallb_Forall.
Qed.

Lemma batch_payload_from_ok k calls items :
  0 ≤ k → batch_payload_from k calls = Ok items ↔
  Forall2 (λ it v, ∃ c, it = ItemCall c ∧ _call_payload c = Ok v) calls items ∧
  (calls = [] ∨ k + len calls ≤ MAX_BATCH).
Proof.
  revert k items. induction calls as [|it calls IH]; intros k items Hk; simpl.
  { split; [intros [= <-]; auto|]. intros [Hf _]. by apply Forall2_nil_inv_l in Hf as ->. }
  destruct (Z.leb_spec MAX_BATCH k) as [Hm|Hm].
  { split; [done|]. intros [_ [?|Hl]]; [done|]. unfold len in Hl. simpl in Hl. lia. }
  assert (k + len (it :: calls) = (k + 1) + len calls) as -> by (unfold len; simpl; lia).
  split.
  - destruct it as [c|]; [|done].
    intros (v & Hv & (vs & Hvs & [= <-])%bind_ok)%bind_ok.
    apply IH in Hvs as [Hf Hl]; [|lia]. split; [by constructor; eauto|]. right.
    destruct Hl as [-> | Hl]; [unfold len; simpl; lia|done].
  - intros [Hf [?|Hl]]; [done|]. apply Forall2_cons_inv_l in Hf as (v & vs & (c & -> & Hv) & Hf & ->).
    rewrite Hv. simpl. rewrite (proj2 (IH (k + 1) vs ltac:(lia))); [done|]. auto.
Qed.

(** A batch is accepted exactly when every element is a valid [Call] and
    there are at most 128; the payload holds one item per call, in order, and
    each is in the form the server takes. *)
Theorem batch_payload_spec (calls : list batch_item) (items : list pyval) :
  _batch_payload calls = Ok items ↔
  Forall2 (λ it v, ∃ c, it = ItemCall c ∧ _call_payload c = Ok v ∧ item_ok v) calls items ∧
  len calls ≤ 128.
Proof.
  unfold _batch_payload. rewrite batch_payload_from_ok by lia. split.
  - intros [Hf Hl]. split; [|destruct Hl as [-> | Hl]; [done|unfold MAX_BATCH in Hl; lia]].
    eapply Forall2_impl; [done|]. intros it v (c & -> & Hv). eauto using call_payload_ok.
  - intros [Hf Hl]. split; [|right; unfold MAX_BATCH; lia].
    eapply Forall2_impl; [done|]. naive_solver.
Qed.

(** ** Awaiting *)

Lemma await_done events f : future_done f = true → fold_left await_step events f = f.
Proof.
  revert f. induction events as [|[r|] events IH]; intros f Hf; [done|..]; simpl.
  - unfold complete. rewrite Hf. by apply IH.
  - rewrite Hf. by apply IH.
Qed.

(** The awaited call answers once: the first of completion and
    cancellation decides, whatever follows; a cancellation that comes first
    also cancels the ticket, and every later completion is told that nobody
    will use it. *)
Theorem await_first_event (ev : await_event) (events : list await_event) :
  _await_native (ev :: events) =
    match ev with
    | Cancellation => Some (Raise (Exc CancelledError), true)
    | Completion resolve =>
        match resolve true with
        | Raise e => Some (Raise e, false)
        | Ok o => if o_kind o =? RPC_OUTCOME_REPLY then Some (Ok o, false)
                  else Some (Raise (_transport_error o), false)
        end
    end ∧
  ∀ resolve, complete (fold_left await_step (ev :: events) FPending) resolve
             = (fold_left await_step (ev :: events) FPending, false).
Proof.
  assert (future_done (await_step FPending ev) = true) as Hd.
  { destruct ev as [r|]; [|done]. simpl. unfold complete. simpl. by destruct (r true). }
  unfold _await_native. simpl. rewrite (await_done _ _ Hd). split.
  - destruct ev as [r|]; [|done]. simpl. unfold complete. simpl.
    destruct (r true) as [o|]; simpl; [|done]. by destruct (o_kind o =? RPC_OUTCOME_REPLY).
  - intros r. unfold complete. by rewrite Hd.
Qed.
