(* ===== verification/Binding.v ===== *)
(** * Binding arguments: [inspect.Signature] and [_coerce]

    The part of [_serve.py] between the wire and a handler: the argument
    envelope, the signature it is bound to, annotation conversion, and the
    injected [CallContext].  [inspect.Signature.bind] and [BoundArguments] are
    the standard library's, written out as they behave. *)

From S2P Require Import Prelude PyStr PyFloat Errors Identity Codec SampleCodec.

Local Open Scope Z_scope.

(** ** Signatures *)

(** A value on its way to a handler: decoded, still encoded
    ([msgspec.Raw]), or the injected context. *)
Inductive argval := AVal (v : pyval) | ARaw (b : list N) | ACtx (c : call_context).

Inductive param_kind :=
| POSITIONAL_ONLY | POSITIONAL_OR_KEYWORD | VAR_POSITIONAL | KEYWORD_ONLY | VAR_KEYWORD.

#[global] Instance param_kind_eq_dec : EqDecision param_kind.
Proof. solve_decision. Defined.

Record param := Param { p_name : pystr; p_kind : param_kind; p_default : option argval }.

Notation signature := (list param).

(** [typing.get_type_hints]: the annotation of [CallContext] is a type like any other. *)
Definition CALL_CONTEXT : Z := -1.
Notation hints := (list (pystr * Z)).

Fixpoint alist_get {A} (key : pystr) (l : list (pystr * A)) : option A :=
  match l with
  | [] => None
  | (k, a) :: l' => if bool_decide (k = key) then Some a else alist_get key l'
  end.

Definition alist_pop {A} (key : pystr) (l : list (pystr * A)) : list (pystr * A) :=
  List.filter (λ ka, negb (bool_decide (ka.1 = key))) l.

Definition in_alist {A} (key : pystr) (l : list (pystr * A)) : bool :=
  bool_decide (is_Some (alist_get key l)).

(** The value bound to a parameter: one, a tuple, or a dict. *)
Inductive bound_value :=
| BOne (a : argval)
| BMany (l : list argval)
| BMap (kvs : list (pystr * argval)).

Notation arguments := (list (pystr * bound_value)).

(** ** [Signature.bind] *)

(** The first loop of [_bind]: the positional arguments.  It leaves the
    parameters the keyword arguments are matched with. *)
Fixpoint bind_positional (params : signature) (args : list argval) (kw : list (pystr * argval))
    : res (arguments * signature) :=
  match args, params with
  | [], [] => Ok ([], [])
  | [], p :: ps =>
      if bool_decide (p_kind p = VAR_POSITIONAL) then Ok ([], ps)
      else if in_alist (p_name p) kw then
        if bool_decide (p_kind p = POSITIONAL_ONLY) then Raise (Exc TypeError) else Ok ([], p :: ps)
      else if bool_decide (p_kind p = VAR_KEYWORD) || bool_decide (is_Some (p_default p))
      then Ok ([], p :: ps)
      else Raise (Exc TypeError)
  | _ :: _, [] => Raise (Exc TypeError)
  | a :: rest, p :: ps =>
      match p_kind p with
      | VAR_KEYWORD | KEYWORD_ONLY => Raise (Exc TypeError)
      | VAR_POSITIONAL => Ok ([(p_name p, BMany (a :: rest))], ps)
      | POSITIONAL_OR_KEYWORD =>
          if in_alist (p_name p) kw then Raise (Exc TypeError)
          else b ← bind_positional ps rest kw; Ok ((p_name p, BOne a) :: b.1, b.2)
      | POSITIONAL_ONLY =>
          b ← bind_positional ps rest kw; Ok ((p_name p, BOne a) :: b.1, b.2)
      end
  end.

(** The second loop: what it bound, the keyword arguments left, the [**kwargs] parameter. *)
Fixpoint bind_keywords (params : signature) (kw : list (pystr * argval)) (kwargs_param : option pystr)
    : res (arguments * list (pystr * argval) * option pystr) :=
  match params with
  | [] => Ok ([], kw, kwargs_param)
  | p :: ps =>
      match p_kind p with
      | VAR_KEYWORD => bind_keywords ps kw (Some (p_name p))
      | VAR_POSITIONAL => bind_keywords ps kw kwargs_param
      | kind =>
          match alist_get (p_name p) kw with
          | None => if bool_decide (p_default p = None) then Raise (Exc TypeError)
                    else bind_keywords ps kw kwargs_param
          | Some a =>
              if bool_decide (kind = POSITIONAL_ONLY) then Raise (Exc TypeError)
              else b ← bind_keywords ps (alist_pop (p_name p) kw) kwargs_param;
                   Ok ((p_name p, BOne a) :: b.1.1, b.1.2, b.2)
          end
      end
  end.

(** [sig.bind(args, kwargs)] *)
Definition bind (sig : signature) (args : list argval) (kw : list (pystr * argval)) : res arguments :=
  pos ← bind_positional sig args kw;
  rest ← bind_keywords pos.2 kw None;
  let '(named, others, kwargs_param) := rest in
  match others, kwargs_param with
  | [], _ => Ok (pos.1 ++ named)
  | _, Some name => Ok (pos.1 ++ named ++ [(name, BMap others)])
  | _, None => Raise (Exc TypeError)
  end.

(** [BoundArguments.apply_defaults] *)
Definition apply_defaults (sig : signature) (given : arguments) : arguments :=
  omap (λ p, match alist_get (p_name p) given with
             | Some b => Some (p_name p, b)
             | None => match p_default p, p_kind p with
                       | Some a, _ => Some (p_name p, BOne a)
                       | None, VAR_POSITIONAL => Some (p_name p, BMany [])
                       | None, VAR_KEYWORD => Some (p_name p, BMap [])
                       | None, _ => None
                       end
             end) sig.

(** [BoundArguments.args] *)
Fixpoint bound_args (sig : signature) (given : arguments) : list argval :=
  match sig with
  | [] => []
  | p :: ps =>
      match p_kind p with
      | VAR_KEYWORD | KEYWORD_ONLY => []
      | _ => match alist_get (p_name p) given with
             | None => []
             | Some (BOne a) => a :: bound_args ps given
             | Some (BMany l) => l ++ bound_args ps given
             | Some (BMap _) => bound_args ps given
             end
      end
  end.

(** [d[key] = value] and [d.update(other)] *)
Fixpoint alist_set {A} (key : pystr) (a : A) (l : list (pystr * A)) : list (pystr * A) :=
  match l with
  | [] => [(key, a)]
  | (k, b) :: l' => if bool_decide (k = key) then (k, a) :: l' else (k, b) :: alist_set key a l'
  end.

Definition alist_update {A} (l other : list (pystr * A)) : list (pystr * A) :=
  fold_left (λ d ka, alist_set ka.1 ka.2 d) other l.

(** [BoundArguments.kwargs] *)
Fixpoint bound_kwargs (sig : signature) (given : arguments) (started : bool)
    (kwargs : list (pystr * argval)) : list (pystr * argval) :=
  match sig with
  | [] => kwargs
  | p :: ps =>
      let got := alist_get (p_name p) given in
      let keyword := match p_kind p with VAR_KEYWORD | KEYWORD_ONLY => true | _ => false end in
      if negb started && negb keyword then
        bound_kwargs ps given (bool_decide (got = None)) kwargs
      else
        bound_kwargs ps given true
          match got with
          | None => kwargs
          | Some (BMap kvs) => alist_update kwargs kvs
          | Some (BOne a) => alist_set (p_name p) a kwargs
          | Some (BMany _) => kwargs
          end
  end.

(** ** The serving state *)

Section Coercion.
Context `{Codec} {W : Type}.

(** What calling a function gives: a value, or a coroutine still to be run. *)
Inductive returned := RValue (v : pyval) | RCoroutine (body : M W exn pyval).

(** A served function: the object its shape is cached under, what
    [get_type_hints] and [inspect.signature] answer for it, its code. *)
Record handler := Handler {
  h_key : Z;
  h_type_hints : res hints;
  h_signature : res signature;
  h_code : list argval → list (pystr * argval) → M W exn returned
}.

Notation shape := (hints * option signature)%type.

(** [_SHAPES], [_RAW_INPUTS], the thread's decode scope, the application's own
    state; [sv_ran] records which handler was entered under which request id. *)
Record serving := Serving {
  sv_shapes : gmap Z shape;
  sv_raw_inputs : gmap Z bool;
  sv_scope : option scope;
  sv_world : W;
  sv_ran : list (pystr * pystr)
}.

Notation SM := (M serving exn).

Definition set_shapes (m : gmap Z shape) (s : serving) : serving :=
  Serving m (sv_raw_inputs s) (sv_scope s) (sv_world s) (sv_ran s).
Definition set_raw_inputs (m : gmap Z bool) (s : serving) : serving :=
  Serving (sv_shapes s) m (sv_scope s) (sv_world s) (sv_ran s).
Definition set_scope (sc : option scope) (s : serving) : serving :=
  Serving (sv_shapes s) (sv_raw_inputs s) sc (sv_world s) (sv_ran s).
Definition set_world (w : W) (s : serving) : serving :=
  Serving (sv_shapes s) (sv_raw_inputs s) (sv_scope s) w (sv_ran s).
Definition set_ran (l : list (pystr * pystr)) (s : serving) : serving :=
  Serving (sv_shapes s) (sv_raw_inputs s) (sv_scope s) (sv_world s) l.

(** Code that only touches the application, or only the decode scope. *)
Definition on_world {A} (m : M W exn A) : SM A := λ s,
  let '(r, w) := m (sv_world s) in (r, set_world w s).
Definition on_scope {A} (m : M (option scope) exn A) : SM A := λ s,
  let '(r, sc) := m (sv_scope s) in (r, set_scope sc s).

(** ** Shapes *)

(** What [_shape] computes when it has nothing cached. *)
Definition shape_of (fn : handler) : res shape :=
  hints ← except [Exception] (λ _, Ok []) (h_type_hints fn);
  sig ← except [TypeError; ValueError] (λ _, Ok None) (Some <$> h_signature fn);
  Ok (hints, sig).

(** [_shape] *)
Definition _shape (fn : handler) : SM shape :=
  cached ← gets sv_shapes;
  match cached !! h_key fn with
  | Some got => mret got
  | None =>
      got ← lift (shape_of fn);
      _ ← modify (λ s, set_shapes (<[h_key fn := got]> (sv_shapes s)) s);
      mret got
  end.

(** [is_model_type(hints.get(name))] *)
Definition hint_is_model (hs : hints) (p : param) : bool :=
  match alist_get (p_name p) hs with Some want => is_model_type want | None => false end.

(** [_takes_model] *)
Definition _takes_model (fn : handler) : SM bool :=
  cached ← gets sv_raw_inputs;
  match cached !! h_key fn with
  | Some b => mret b
  | None =>
      shape ← _shape fn;
      let b := match shape.2 with None => false | Some sig => existsb (hint_is_model shape.1) sig end in
      _ ← modify (λ s, set_raw_inputs (<[h_key fn := b]> (sv_raw_inputs s)) s);
      mret b
  end.

(** ** Coercion *)

(** [_coerce_value] *)
Definition _coerce_value (value : argval) (want : option Z) : M (option scope) exn argval :=
  match value, want with
  | ARaw b, None => AVal <$> scoped (loads_in b)
  | ARaw b, Some t => AVal <$> scoped (convert_msgpack_in b t)
  | AVal v, Some t => AVal <$> lift (convert v t)
  | _, _ => mret value
  end.

Fixpoint coerce_values (l : list argval) (want : option Z) : M (option scope) exn (list argval) :=
  match l with
  | [] => mret []
  | a :: l' => b ← _coerce_value a want; bs ← coerce_values l' want; mret (b :: bs)
  end.

Fixpoint coerce_map (l : list (pystr * argval)) (want : option Z)
    : M (option scope) exn (list (pystr * argval)) :=
  match l with
  | [] => mret []
  | (k, a) :: l' => b ← _coerce_value a want; bs ← coerce_map l' want; mret ((k, b) :: bs)
  end.

(** A payload as [_call] hands it over: a [_RawCall], or a decoded value. *)
Inductive payload :=
| PRaw (args : option (list (list N))) (kwargs : option (list (pystr * list N)))
| PVal (v : pyval).

Definition is_raw (p : payload) : bool := match p with PRaw _ _ => true | PVal _ => false end.

(** The argument envelope: positional and keyword arguments. *)
Definition unpack (p : payload) : res (list argval * list (pyval * argval)) :=
  match p with
  | PRaw args kwargs =>
      Ok (map ARaw (default [] args), map (λ kb, (VStr kb.1, ARaw kb.2)) (default [] kwargs))
  | PVal (VDict kvs) =>
      if keys_within kvs [u "args"; u "kwargs"] then
        args ← match dict_get (u "args") kvs with
               | None | Some VNone => Ok []
               | Some (VList l) => Ok l
               | Some _ => Raise (Exc ValidationError)
               end;
        kwargs ← match dict_get (u "kwargs") kvs with
                 | None | Some VNone => Ok []
                 | Some (VDict d) => Ok d
                 | Some _ => Raise (Exc ValidationError)
                 end;
        Ok (map AVal args, map (λ kv, (kv.1, AVal kv.2)) kwargs)
      else Ok ([], map (λ kv, (kv.1, AVal kv.2)) kvs)
  | PVal (VList l) => Ok (map AVal l, [])
  | PVal v => Ok ([AVal v], [])
  end.

(** Passing keyword arguments takes string keys. *)
Fixpoint string_keys (kw : list (pyval * argval)) : res (list (pystr * argval)) :=
  match kw with
  | [] => Ok []
  | (VStr k, a) :: kw' => rest ← string_keys kw'; Ok ((k, a) :: rest)
  | _ => Raise (Exc TypeError)
  end.

Definition is_injected (hs : hints) (p : param) : bool :=
  bool_decide (alist_get (p_name p) hs = Some CALL_CONTEXT).

Definition variadic (p : param) : bool :=
  match p_kind p with VAR_POSITIONAL | VAR_KEYWORD => true | _ => false end.

(** [key not in injected] for a keyword argument. *)
Definition not_injected (injected : signature) (kv : pyval * argval) : bool :=
  match kv.1 with VStr k => negb (existsb (λ p, bool_decide (p_name p = k)) injected) | _ => true end.

(** Conversion of what was bound to one parameter. *)
Definition coerce_bound (hs : hints) (raw_values : bool) (entry : pystr * bound_value)
    : M (option scope) exn (pystr * bound_value) :=
  let '(name, value) := entry in
  let want := alist_get name hs in
  if bool_decide (want = None) && negb raw_values then mret entry
  else match value with
       | BMany l => (λ l', (name, BMany l')) <$> coerce_values l want
       | BMap kvs => (λ kvs', (name, BMap kvs')) <$> coerce_map kvs want
       | BOne a => (λ a', (name, BOne a')) <$> _coerce_value a want
       end.

Fixpoint coerce_arguments (hs : hints) (raw_values : bool) (bound : arguments)
    : M (option scope) exn arguments :=
  match bound with
  | [] => mret []
  | e :: bound' =>
      e' ← coerce_bound hs raw_values e;
      bound'' ← coerce_arguments hs raw_values bound';
      mret (e' :: bound'')
  end.

(** The arguments with the context in its place: [bound.arguments[name]] for
    every other parameter of the whole signature. *)
Fixpoint inject (hs : hints) (context : call_context) (sig : signature) (bound : arguments)
    : res arguments :=
  match sig with
  | [] => Ok []
  | p :: ps =>
      b ← (if is_injected hs p then Ok (BOne (ACtx context))
           else match alist_get (p_name p) bound with
                | Some b => Ok b
                | None => Raise (Exc KeyError)
                end);
      rest ← inject hs context ps bound;
      Ok ((p_name p, b) :: rest)
  end.

(** [_coerce] *)
Definition _coerce (fn : handler) (p : payload) (caller request_id : pystr)
    : SM (list argval * list (pyval * argval)) :=
  given ← lift (unpack p);
  let '(args, kwargs) := given in
  shape ← _shape fn;
  let '(hs, sig) := shape in
  match sig with
  | None => mret (args, kwargs)
  | Some sig =>
      let injected := List.filter (is_injected hs) sig in
      if existsb variadic injected then raise (Exc ValidationError)
      else
        let public := List.filter (λ q, negb (is_injected hs q)) sig in
        bound ← lift (except [BlobError; TypeError] (λ _, Raise (Exc ValidationError))
                        (kw ← string_keys (List.filter (not_injected injected) kwargs);
                         bind public args kw));
        bound ← on_scope (coerce_arguments hs (is_raw p) bound);
        bound ← match injected with
                | [] => mret bound
                | _ => context ← lift (new_call_context caller request_id);
                       lift (inject hs context sig (apply_defaults public bound))
                end;
        mret (bound_args sig bound,
              map (λ ka, (VStr ka.1, ka.2)) (bound_kwargs sig bound false []))
  end.

End Coercion.

(** ** Association lists *)

Section Alist.
Context {A : Type}.
Implicit Types (l : list (pystr * A)) (k : pystr) (a : A).

Lemma alist_get_is_Some k l : is_Some (alist_get k l) ↔ k ∈ l.*1.
Proof.
  induction l as [|[k' a] l IH]; simpl.
  - split; [by intros []|by intros ?%not_elem_of_nil].
  - rewrite elem_of_cons. case_bool_decide; [subst; split; [by left|by eexists]|].
    rewrite IH. split; [by right|]. by intros [->|].
Qed.

Lemma alist_get_elem k l a : alist_get k l = Some a → (k, a) ∈ l.
Proof.
  induction l as [|[k' b] l IH]; simpl; [done|].
  case_bool_decide; [subst; intros [= ->]; left|]. intros. right. auto.
Qed.

Lemma in_alist_iff k l : in_alist k l = true ↔ k ∈ l.*1.
Proof. unfold in_alist. by rewrite bool_decide_eq_true, alist_get_is_Some. Qed.

Lemma alist_get_set k k' a l :
  alist_get k (alist_set k' a l) = if bool_decide (k' = k) then Some a else alist_get k l.
Proof.
  induction l as [|[k1 b] l IH]; simpl; [done|].
  destruct (decide (k1 = k')) as [->|Hne].
  - rewrite (bool_decide_eq_true_2 (k' = k')) by done. simpl. by case_bool_decide.
  - rewrite (bool_decide_eq_false_2 (k1 = k')) by done. simpl. rewrite IH.
    repeat case_bool_decide; congruence.
Qed.

Lemma alist_get_update k l other :
  k ∉ other.*1 → alist_get k (alist_update l other) = alist_get k l.
Proof.
  unfold alist_update. revert l. induction other as [|[k' a] other IH]; intros l Hk; simpl; [done|].
  rewrite fmap_cons, elem_of_cons in Hk. rewrite IH by tauto. rewrite alist_get_set.
  rewrite bool_decide_eq_false_2; [done|]. intros ->. apply Hk. by left.
Qed.

Lemma alist_pop_keys k l : (alist_pop k l).*1 ⊆ l.*1.
Proof.
  unfold alist_pop. intros x Hx. apply list_elem_of_fmap in Hx as ([k' a] & -> & Hin).
  apply list_elem_of_In, filter_In in Hin as [Hin _]. apply list_elem_of_fmap.
  exists (k', a). split; [done|by apply list_elem_of_In].
Qed.
End Alist.

(** ** What binding promises *)

Section Binding.
Implicit Types (sig : signature) (kw : list (pystr * argval)) (b : arguments).

(** A parameter that may go without an argument. *)
Definition optional (q : param) : Prop := is_Some (p_default q) ∨ variadic q = true.

Lemma bind_positional_complete sig args kw b rest :
  bind_positional sig args kw = Ok (b, rest) →
  ∀ q, q ∈ sig → p_name q ∈ b.*1 ∨ q ∈ rest ∨ p_kind q = VAR_POSITIONAL.
Proof.
  revert args b rest. induction sig as [|p ps IH]; intros args b rest Hb q Hq.
  { by apply not_elem_of_nil in Hq. }
  apply elem_of_cons in Hq as [->|Hq]; destruct args as [|a args]; simpl in Hb.
  - case_bool_decide; [auto|]. repeat case_match; simplify_res; right; left; left.
  - destruct (p_kind p) eqn:Hk; simplify_res; simpl; auto.
    + left. left.
    + case_match; simplify_res. left. left.
  - case_bool_decide; [simplify_res; auto|].
    repeat case_match; simplify_res; right; left; by right.
  - destruct (p_kind p) eqn:Hk; simplify_res; simpl; auto.
    + destruct x as [b' r']. destruct (IH _ _ _ H q Hq) as [?|?]; [left; by right|by right].
    + case_match; simplify_res. destruct x as [b' r'].
      destruct (IH _ _ _ H0 q Hq) as [?|?]; [left; by right|by right].
Qed.

(** One parameter of the second loop. *)
Lemma bind_keywords_cons p ps kw o r :
  bind_keywords (p :: ps) kw o = Ok r →
  (optional p ∧ ∃ o', bind_keywords ps kw o' = Ok r) ∨
  (∃ a b others name, bind_keywords ps (alist_pop (p_name p) kw) o = Ok (b, others, name) ∧
                      r = ((p_name p, BOne a) :: b, others, name) ∧ alist_get (p_name p) kw = Some a).
Proof.
  unfold optional, variadic. simpl. intros Hb.
  destruct (p_kind p) eqn:Hk; [..|]; eauto.
  all: destruct (alist_get (p_name p) kw) as [a|] eqn:Ha.
  2,4,6: case_bool_decide as Hd; [done|]; left; split; [left; by apply not_eq_None_Some|eauto].
  1: done.
  all: apply bind_ok in Hb as ([[b others] name] & Hb & [= <-]).
  all: right; by exists a, b, others, name.
Qed.

Lemma bind_keywords_complete ps kw o b others name :
  bind_keywords ps kw o = Ok (b, others, name) →
  (∀ q, q ∈ ps → p_name q ∈ b.*1 ∨ optional q) ∧ others.*1 ⊆ kw.*1.
Proof.
  revert kw o b others name. induction ps as [|p ps IH]; intros kw o b others name Hb.
  { simpl in Hb. simplify_res. split; [by intros q ?%not_elem_of_nil|done]. }
  apply bind_keywords_cons in Hb as [[Ho [o' Hb]]|(a & b' & others' & name' & Hb & [= -> -> ->] & Ha)];
    apply IH in Hb as (H1 & H2).
  - split; [|done]. intros q [->|Hq]%elem_of_cons; [by right|auto].
  - split.
    + intros q [->|Hq]%elem_of_cons; [left; left|]. destruct (H1 q Hq); [left; by right|by right].
    + etrans; [done|apply alist_pop_keys].
Qed.

(** The form of the value follows the kind of the parameter. *)
Definition fits (p : param) (v : bound_value) : bool :=
  match p_kind p, v with
  | VAR_POSITIONAL, BMany _ | VAR_KEYWORD, BMap _ => true
  | VAR_POSITIONAL, _ | VAR_KEYWORD, _ => false
  | _, BOne _ => true
  | _, _ => false
  end.

Definition fitting (sig : signature) (nv : pystr * bound_value) : Prop :=
  ∃ p, p ∈ sig ∧ p_name p = nv.1 ∧ fits p nv.2 = true.

Definition is_map (v : bound_value) : bool := match v with BMap _ => true | _ => false end.

Definition plainly_fitting (sig : signature) (nv : pystr * bound_value) : Prop :=
  fitting sig nv ∧ is_map nv.2 = false.

Lemma fitting_mono sig sig' nv : sig ⊆ sig' → fitting sig nv → fitting sig' nv.
Proof. intros Hs (p & ? & ? & ?). exists p. auto. Qed.

Lemma plainly_fitting_mono sig sig' b :
  sig ⊆ sig' → Forall (plainly_fitting sig) b → Forall (plainly_fitting sig') b.
Proof.
  intros Hs HF. eapply Forall_impl; [done|]. intros nv [? ?]. split; [by eapply fitting_mono|done].
Qed.

Lemma bind_positional_fits sig args kw b rest :
  bind_positional sig args kw = Ok (b, rest) → Forall (plainly_fitting sig) b ∧ rest ⊆ sig.
Proof.
  revert args b rest. induction sig as [|p ps IH]; intros args b rest Hb.
  { destruct args; simpl in Hb; simplify_res. by split. }
  destruct args as [|a args]; simpl in Hb.
  { repeat case_match; simplify_res; (split; [constructor|set_solver]). }
  assert (∀ x, fits p (BOne a) = true → bind_positional ps args kw = Ok x →
    b = (p_name p, BOne a) :: x.1 → rest = x.2 → Forall (plainly_fitting (p :: ps)) b ∧ rest ⊆ p :: ps) as Hx.
  { intros [b' r'] Hf Hb' -> ->. apply IH in Hb' as [HF Hr]. split; [|set_solver].
    constructor; [split; [exists p; split; [left|done]|done]|].
    by apply (plainly_fitting_mono ps); [set_solver|]. }
  unfold fits in Hx. destruct (p_kind p) eqn:Hk; simplify_res; eauto.
  - case_match; simplify_res; eauto.
  - split; [|set_solver]. constructor; [|constructor]. split; [|done]. exists p. unfold fits. rewrite Hk.
    split; [left|done].
Qed.

Lemma bind_keywords_fits ps kw o b others name :
  bind_keywords ps kw o = Ok (b, others, name) →
  Forall (plainly_fitting ps) b ∧
  (∀ n, name = Some n → o = Some n ∨ ∃ p, p ∈ ps ∧ p_kind p = VAR_KEYWORD ∧ p_name p = n).
Proof.
  revert kw o b others name. induction ps as [|p ps IH]; intros kw o b others name Hb.
  { simpl in Hb. simplify_res. auto. }
  assert (ps ⊆ p :: ps) as Hsub by set_solver.
  assert (∀ kw o', bind_keywords ps kw o' = Ok (b, others, name) →
            (o' = o ∨ (o' = Some (p_name p) ∧ p_kind p = VAR_KEYWORD)) →
            Forall (plainly_fitting (p :: ps)) b ∧
            (∀ n, name = Some n →
               o = Some n ∨ ∃ q, q ∈ p :: ps ∧ p_kind q = VAR_KEYWORD ∧ p_name q = n)) as Hx.
  { intros kw' o' [HF Hn]%IH Ho. split; [by eapply plainly_fitting_mono|].
    intros n Hnm. destruct (Hn n Hnm) as [->|(q & ? & ? & ?)]; [|right; exists q; auto].
    destruct Ho as [<-|[[= ->] Hk]]; [by left|]. right. exists p. split; [left|done]. }
  simpl in Hb. destruct (p_kind p) eqn:Hk; [..|]; eauto.
  all: destruct (alist_get (p_name p) kw) as [a|] eqn:Ha; simpl in Hb.
  2,4,6: case_bool_decide as Hd; [done|]; eauto.
  1: done.
  all: apply bind_ok in Hb as ([[b' others'] name'] & Hb & [= <- <- <-]).
  all: apply IH in Hb as [HF Hn]; split.
  2,4: intros n Hnm; destruct (Hn n Hnm) as [->|(q & ? & ? & ?)]; [by left|right; exists q; auto].
  all: constructor; [split; [exists p; unfold fits; rewrite Hk; split; [left|done]|done]|].
  all: by apply (plainly_fitting_mono ps).
Qed.

(** A successful [bind] has an argument for every parameter that needs one;
    a [**kwargs] parameter only ever receives keyword arguments given. *)
Lemma bind_complete sig args kw b :
  bind sig args kw = Ok b →
  (∀ q, q ∈ sig → p_name q ∈ b.*1 ∨ optional q) ∧ Forall (fitting sig) b ∧
  (∀ n kvs, (n, BMap kvs) ∈ b → kvs.*1 ⊆ kw.*1).
Proof.
  unfold bind. intros ([pos rest] & Hp & ([[named others] name] & Hk & Hb)%bind_ok)%bind_ok.
  simpl in *. pose proof (bind_positional_complete _ _ _ _ _ Hp) as Hpc.
  destruct (bind_positional_fits _ _ _ _ _ Hp) as [Hpf Hrest].
  destruct (bind_keywords_complete _ _ _ _ _ _ Hk) as [Hkc Ho].
  destruct (bind_keywords_fits _ _ _ _ _ _ Hk) as [Hkf Hn].
  assert (∃ extra, b = pos ++ named ++ extra ∧ Forall (fitting sig) extra ∧
                   ∀ n kvs, (n, BMap kvs) ∈ extra → kvs = others) as (extra & -> & Hef & He).
  { destruct others as [|o os].
    { exists []. simplify_res. rewrite app_nil_r. split_and!; [done|constructor|set_solver]. }
    destruct name as [n|]; simplify_res. eexists. split; [done|]. split.
    - constructor; [|constructor]. destruct (Hn n eq_refl) as [?|(q & Hq & Hqk & <-)]; [done|].
      exists q. unfold fits. rewrite Hqk. auto.
    - intros ?? [= _ ->]%list_elem_of_singleton. done. }
  split_and!.
  - intros q Hq. rewrite !fmap_app, !elem_of_app. unfold optional, variadic.
    destruct (Hpc q Hq) as [?|[Hr| ->]]; [tauto| |by right; right].
    destruct (Hkc q Hr); unfold optional, variadic in *; tauto.
  - apply Forall_app. split; [eapply Forall_impl; [done|]; by intros ? []|].
    apply Forall_app. split; [|done].
    eapply Forall_impl; [done|]. intros nv [Hf _]. by eapply fitting_mono.
  - rewrite Forall_forall in Hpf, Hkf. intros n kvs. rewrite !elem_of_app. intros [Hin|[Hin|Hin]].
    + by destruct (Hpf _ Hin).
    + by destruct (Hkf _ Hin).
    + by rewrite (He _ _ Hin).
Qed.

(** With distinct names the value of a parameter fits it. *)
Lemma fitting_unique sig q v :
  NoDup (p_name <$> sig) → q ∈ sig → fitting sig (p_name q, v) → fits q v = true.
Proof.
  intros Hnd Hq (p & Hp & Hn & Hf). simpl in *.
  assert (p = q) as ->; [|done].
  apply list_elem_of_lookup in Hp as [i Hi]. apply list_elem_of_lookup in Hq as [j Hj].
  assert (i = j) as ->; [|congruence].
  eapply NoDup_lookup; [done|..]; rewrite list_lookup_fmap, ?Hi, ?Hj; simpl; by rewrite ?Hn.
Qed.

Lemma apply_defaults_complete sig b q :
  q ∈ sig → p_name q ∈ b.*1 ∨ optional q → p_name q ∈ (apply_defaults sig b).*1.
Proof.
  intros Hq Ho. apply list_elem_of_fmap.
  assert (∃ v, (p_name q, v) ∈ apply_defaults sig b) as [v Hv]; [|by exists (p_name q, v)].
  setoid_rewrite list_elem_of_omap.
  destruct (alist_get (p_name q) b) as [v|] eqn:Hg.
  { exists v, q. by rewrite Hg. }
  destruct Ho as [Hin|Ho]; [apply alist_get_is_Some in Hin; rewrite Hg in Hin; by destruct Hin|].
  unfold optional, variadic in Ho. destruct (p_default q) as [a|] eqn:Hd.
  { exists (BOne a), q. by rewrite Hg, Hd. }
  destruct Ho as [[]|Ho]; [done|]. destruct (p_kind q) eqn:Hk; try done.
  - exists (BMany []), q. by rewrite Hg, Hd, Hk.
  - exists (BMap []), q. by rewrite Hg, Hd, Hk.
Qed.

Lemma apply_defaults_fits sig b :
  Forall (fitting sig) b → (∀ q, q ∈ sig → variadic q = true → p_default q = None) →
  Forall (fitting sig) (apply_defaults sig b) ∧
  (∀ n kvs, (n, BMap kvs) ∈ apply_defaults sig b → kvs = [] ∨ (n, BMap kvs) ∈ b).
Proof.
  intros HF Hvar. rewrite Forall_forall in HF.
  assert (∀ nv, nv ∈ apply_defaults sig b →
            nv ∈ b ∨ fitting sig nv ∧ ∀ kvs, nv.2 = BMap kvs → kvs = []) as Hall.
  { intros nv (q & Hq & Hv)%list_elem_of_omap. unfold fitting, fits, variadic in *.
    specialize (Hvar q Hq).
    destruct (alist_get (p_name q) b) as [v|] eqn:Hg; simplify_eq.
    { left. by apply alist_get_elem. }
    right. destruct (p_default q) as [a|] eqn:Hd; simplify_eq.
    - split; [|done]. exists q. split_and!; [done..|]. simpl.
      by destruct (p_kind q); try done; discriminate Hvar.
    - destruct (p_kind q) eqn:Hk; simplify_eq; simpl.
      all: split; [exists q; by rewrite Hk|]; intros; by simplify_eq. }
  split.
  - apply Forall_forall. intros nv Hin. destruct (Hall nv Hin) as [?|[? _]]; auto.
  - intros n kvs Hin. destruct (Hall _ Hin) as [?|[_ Hk]]; [by right|left; by apply Hk].
Qed.
End Binding.

(** ** What conversion and injection preserve *)

Section Injection.
Context `{Codec}.
Implicit Types (b : arguments) (hs : hints).

(** Conversion keeps the form of a bound value, and a dict's keys. *)
Definition same_form (v v' : bound_value) : Prop :=
  match v, v' with
  | BOne _, BOne _ | BMany _, BMany _ => True
  | BMap kvs, BMap kvs' => kvs.*1 = kvs'.*1
  | _, _ => False
  end.

Lemma coerce_map_keys l want sc l' sc' : coerce_map l want sc = (Ok l', sc') → l.*1 = l'.*1.
Proof.
  revert sc l' sc'. induction l as [|[k a] l IH]; intros sc l' sc' Hc; simpl in Hc.
  { unfold mret, M_ret in Hc. by simplify_res. }
  apply M_bind_ok in Hc as (a' & s1 & _ & (l1 & s2 & Hl & Hr)%M_bind_ok).
  unfold mret, M_ret in Hr. simplify_res. simpl. f_equal. eauto.
Qed.

Lemma coerce_bound_form hs raw nv sc nv' sc' :
  coerce_bound hs raw nv sc = (Ok nv', sc') → nv'.1 = nv.1 ∧ same_form nv.2 nv'.2.
Proof.
  unfold coerce_bound. destruct nv as [n v]. destruct (_ && _).
  { unfold mret, M_ret. intros [= <- <-]. split; [done|]. by destruct v. }
  destruct v; intros (x & Hx & ->)%M_fmap_ok; split; try done.
  simpl. by eapply coerce_map_keys.
Qed.

Lemma coerce_arguments_form hs raw b sc b' sc' :
  coerce_arguments hs raw b sc = (Ok b', sc') →
  Forall2 (λ nv nv', nv'.1 = nv.1 ∧ same_form nv.2 nv'.2) b b'.
Proof.
  revert sc b' sc'. induction b as [|nv b IH]; intros sc b' sc' Hc; simpl in Hc.
  { unfold mret, M_ret in Hc. simplify_res. constructor. }
  apply M_bind_ok in Hc as (nv' & s1 & Hnv & (b1 & s2 & Hb & Hr)%M_bind_ok).
  unfold mret, M_ret in Hr. simplify_res. constructor; [by eapply coerce_bound_form|eauto].
Qed.

Lemma same_form_fits q v v' : same_form v v' → fits q v' = fits q v.
Proof. unfold fits. by destruct (p_kind q), v, v'. Qed.

Lemma coerce_arguments_keeps sig hs raw b sc b' sc' (keys : list pystr) :
  coerce_arguments hs raw b sc = (Ok b', sc') →
  Forall (fitting sig) b → (∀ n kvs, (n, BMap kvs) ∈ b → kvs.*1 ⊆ keys) →
  b'.*1 = b.*1 ∧ Forall (fitting sig) b' ∧ (∀ n kvs, (n, BMap kvs) ∈ b' → kvs.*1 ⊆ keys).
Proof.
  intros HF2%coerce_arguments_form HF Hk.
  induction HF2 as [|[n v] [n' v'] b b' [Hn Hf] HF2 IH]; simpl in *; [done|].
  apply Forall_cons in HF as [(q & Hq & Hqn & Hqf) HF]. subst n'.
  destruct IH as (H1 & H2 & H3); [done|intros; eapply Hk; by right|].
  split_and!; [by f_equal| |].
  - constructor; [|done]. exists q. simpl in *. by rewrite (same_form_fits q v v').
  - intros m kvs [[= -> <-]|Hin]%elem_of_cons; [|eauto].
    destruct v; simpl in Hf; try done. rewrite <-Hf. eapply Hk. by left.
Qed.

(** Injection succeeds when every other parameter has a value. *)
Lemma inject_ok hs ctx ps b :
  (∀ q, q ∈ ps → is_injected hs q = false → p_name q ∈ b.*1) →
  ∃ r, inject hs ctx ps b = Ok r ∧ r.*1 = p_name <$> ps ∧
       (∀ nv, nv ∈ r → nv.2 = BOne (ACtx ctx) ∨ nv ∈ b) ∧
       (∀ q, q ∈ ps → is_injected hs q = true → (p_name q, BOne (ACtx ctx)) ∈ r).
Proof.
  induction ps as [|p ps IH]; intros Hall; simpl.
  { exists []. split_and!; [done..|set_solver|set_solver]. }
  destruct IH as (r & Hr & Hn & Hv & Hi); [intros; apply Hall; [by right|done]|].
  rewrite Hr. destruct (is_injected hs p) eqn:Hp; simpl.
  - eexists. split_and!; [done|simpl; by f_equal|..].
    + intros nv [->|?]%elem_of_cons; auto.
    + intros q [->|Hq]%elem_of_cons Hqi; [left|right; auto].
  - assert (p_name p ∈ b.*1) as [v Hg]%alist_get_is_Some by (apply Hall; [left|done]).
    rewrite Hg. simpl. eexists. split_and!; [done|simpl; by f_equal|..].
    + intros nv [->|?]%elem_of_cons; [right; by apply alist_get_elem|auto].
    + intros q [->|Hq]%elem_of_cons Hqi; [congruence|right; auto].
Qed.

Lemma alist_get_NoDup {A} (l : list (pystr * A)) k a : NoDup l.*1 → (k, a) ∈ l → alist_get k l = Some a.
Proof.
  induction l as [|[k' a'] l IH]; simpl; [by intros _ ?%not_elem_of_nil|].
  intros [Hn Hnd]%NoDup_cons [[= -> ->]|Hin]%elem_of_cons; [by rewrite bool_decide_eq_true_2|].
  rewrite bool_decide_eq_false_2; [auto|]. intros ->. apply Hn, list_elem_of_fmap.
  by exists (k, a).
Qed.

(** ** What [BoundArguments] passes on *)

Definition positional (q : param) : bool :=
  match p_kind q with POSITIONAL_ONLY | POSITIONAL_OR_KEYWORD => true | _ => false end.

Lemma bound_args_at pre q post b a :
  Forall (λ p, positional p = true ∧ ∃ x, alist_get (p_name p) b = Some (BOne x)) (pre ++ [q]) →
  alist_get (p_name q) b = Some (BOne a) →
  bound_args (pre ++ q :: post) b !! length pre = Some a.
Proof.
  induction pre as [|p pre IH]; simpl; intros HF Hq.
  - apply Forall_cons in HF as [[Hp _] _]. unfold positional in Hp. rewrite Hq.
    by destruct (p_kind q).
  - apply Forall_cons in HF as [[Hp [x Hx]] HF]. unfold positional in Hp. rewrite Hx.
    destruct (p_kind p); try done; simpl; auto.
Qed.

Lemma bound_kwargs_keeps ps b started kw k :
  k ∉ p_name <$> ps → (∀ n kvs, (n, BMap kvs) ∈ b → k ∉ kvs.*1) →
  alist_get k (bound_kwargs ps b started kw) = alist_get k kw.
Proof.
  revert started kw. induction ps as [|p ps IH]; intros started kw Hk Hb; simpl; [done|].
  rewrite fmap_cons, elem_of_cons in Hk. case_match; [apply IH; tauto|].
  rewrite IH by tauto.
  destruct (alist_get (p_name p) b) as [[a|l|kvs]|] eqn:Hg; try done.
  - rewrite alist_get_set, bool_decide_eq_false_2; [done|]. intros <-. tauto.
  - apply alist_get_update. eapply Hb. by eapply alist_get_elem.
Qed.

Lemma bound_kwargs_at pre q post b started kw a :
  p_kind q = KEYWORD_ONLY → p_name q ∉ p_name <$> post →
  (∀ n kvs, (n, BMap kvs) ∈ b → p_name q ∉ kvs.*1) →
  alist_get (p_name q) b = Some (BOne a) →
  alist_get (p_name q) (bound_kwargs (pre ++ q :: post) b started kw) = Some a.
Proof.
  intros Hk Hpost Hb Hq. revert started kw. induction pre as [|p pre IH]; intros started kw; simpl.
  - rewrite Hk, Hq. simpl. rewrite andb_false_r.
    rewrite bound_kwargs_keeps by done. by rewrite alist_get_set, bool_decide_eq_true_2.
  - case_match; apply IH.
Qed.
End Injection.

(** ** [_coerce] *)

Section CoerceLaws.
Context `{Codec} {W : Type}.
Implicit Types (fn : @handler W) (s : @serving _ W).

(** A signature as Python builds them. *)
Definition wf_signature (sig : signature) : Prop :=
  NoDup (p_name <$> sig) ∧ (∀ q, q ∈ sig → variadic q = true → p_default q = None).

Lemma string_keys_elem kw l k : string_keys kw = Ok l → k ∈ l.*1 → ∃ a, (VStr k, a) ∈ kw.
Proof.
  revert l. induction kw as [|[x a] kw IH]; intros l Hs Hk; simpl in Hs.
  { simplify_res. by apply not_elem_of_nil in Hk. }
  destruct x; simplify_res. rewrite fmap_cons in Hk. apply elem_of_cons in Hk as [->|Hk].
  - exists a. left.
  - destruct (IH _ ltac:(done) Hk) as [a' ?]. exists a'. by right.
Qed.

Lemma public_keys injected kw l q :
  string_keys (List.filter (not_injected injected) kw) = Ok l → q ∈ injected → p_name q ∉ l.*1.
Proof.
  intros Hs Hq Hk. destruct (string_keys_elem _ _ _ Hs Hk) as [a Hin].
  apply list_elem_of_In, filter_In in Hin as [_ Hn]. unfold not_injected in Hn. simpl in Hn.
  apply negb_true_iff in Hn. assert (existsb (λ p, bool_decide (p_name p = p_name q)) injected = true); [|congruence].
  apply existsb_Exists, Exists_exists. exists q. split; [done|]. by apply bool_decide_eq_true.
Qed.

Section Bound.
Context (hs : hints) (sig : signature) (Hwf : wf_signature sig).
Notation injected := (List.filter (is_injected hs) sig).
Notation public := (List.filter (λ q, negb (is_injected hs q)) sig).

Lemma elem_of_injected q : q ∈ injected ↔ q ∈ sig ∧ is_injected hs q = true.
Proof. by rewrite list_elem_of_In, filter_In, <-list_elem_of_In. Qed.

Lemma elem_of_public q : q ∈ public ↔ q ∈ sig ∧ is_injected hs q = false.
Proof. by rewrite list_elem_of_In, filter_In, <-list_elem_of_In, negb_true_iff. Qed.

(** The arguments after injection, whatever the caller sent: every parameter
    has a value of its form, the injected ones have the context, and no
    [**kwargs] carries an injected name. *)
Lemma injected_arguments ctx args kwargs kw b raw sc b' sc' :
  string_keys (List.filter (not_injected injected) kwargs) = Ok kw →
  bind public args kw = Ok b → coerce_arguments hs raw b sc = (Ok b', sc') →
  ∃ r, inject hs ctx sig (apply_defaults public b') = Ok r ∧
       (∀ q, q ∈ sig → is_injected hs q = true → alist_get (p_name q) r = Some (BOne (ACtx ctx))) ∧
       (∀ q, q ∈ sig → positional q = true → ∃ x, alist_get (p_name q) r = Some (BOne x)) ∧
       (∀ n kvs q, (n, BMap kvs) ∈ r → q ∈ sig → is_injected hs q = true → p_name q ∉ kvs.*1).
Proof using Hwf.
  destruct Hwf as [Hnd Hvar]. intros Hkw Hb Hc.
  destruct (bind_complete _ _ _ _ Hb) as (Hcomp & Hfit & Hmap).
  destruct (coerce_arguments_keeps _ _ _ _ _ _ _ _ Hc Hfit Hmap) as (Hn' & Hfit' & Hmap').
  destruct (apply_defaults_fits public b' Hfit') as [Hfd Hmd].
  { intros q [Hq _]%elem_of_public. by apply Hvar. }
  destruct (inject_ok hs ctx sig (apply_defaults public b')) as (r & Hr & Hrn & Hrv & Hri).
  { intros q Hq Hqi. apply apply_defaults_complete; [by apply elem_of_public|].
    rewrite Hn'. apply Hcomp. by apply elem_of_public. }
  assert (NoDup r.*1) as Hndr by (by rewrite Hrn).
  exists r. split_and!; [done|..].
  - intros q Hq Hqi. apply alist_get_NoDup; auto.
  - intros q Hq Hp. assert (p_name q ∈ r.*1) as [v Hv]%alist_get_is_Some.
    { rewrite Hrn. apply list_elem_of_fmap. eauto. }
    rewrite Hv. destruct (Hrv _ (alist_get_elem _ _ _ Hv)) as [Hctx|Hin]; simpl in *; [subst; eauto|].
    assert (fits q v = true) as Hf.
    { apply (fitting_unique sig); [done|done|]. rewrite Forall_forall in Hfd.
      eapply fitting_mono; [|by apply Hfd]. intros x Hx. by apply elem_of_public in Hx as [? _]. }
    unfold fits, positional in *. destruct (p_kind q), v; eauto; done.
  - intros n kvs q Hin Hq Hqi Hk. destruct (Hrv _ Hin) as [?|Hd]; [done|].
    destruct (Hmd _ _ Hd) as [->|Hb']; [by apply not_elem_of_nil in Hk|].
    apply (Hmap' _ _ Hb') in Hk. revert Hk. eapply public_keys; [done|]. by apply elem_of_injected.
Qed.
End Bound.

(** [_coerce] once the shape is known and the context has to be injected. *)
Lemma coerce_injecting fn p caller rid s hs sig s1 args kw s' q :
  _shape fn s = (Ok (hs, Some sig), s1) → wf_signature sig → q ∈ sig → is_injected hs q = true →
  _coerce fn p caller rid s = (Ok (args, kw), s') →
  ∃ ctx r, new_call_context caller rid = Ok ctx ∧
    args = bound_args sig r ∧ kw = map (λ ka, (VStr ka.1, ka.2)) (bound_kwargs sig r false []) ∧
    (∀ q, q ∈ sig → is_injected hs q = true → alist_get (p_name q) r = Some (BOne (ACtx ctx))) ∧
    (∀ q, q ∈ sig → positional q = true → ∃ x, alist_get (p_name q) r = Some (BOne x)) ∧
    (∀ n kvs q, (n, BMap kvs) ∈ r → q ∈ sig → is_injected hs q = true → p_name q ∉ kvs.*1).
Proof.
  intros Hsh Hwf Hq Hqi Hc. unfold _coerce in Hc.
  apply M_bind_ok in Hc as ([args0 kwargs0] & s0 & Hu & Hc). injection Hu as _ <-.
  apply M_bind_ok in Hc as (shape & s2 & Hs2 & Hc). rewrite Hsh in Hs2. injection Hs2 as <- <-.
  destruct (existsb variadic _); [done|].
  apply M_bind_ok in Hc as (b & s3 & Hb & Hc). injection Hb as Hb <-.
  unfold except, catch in Hb.
  destruct (string_keys _) as [kws|e] eqn:Hkw; simpl in Hb.
  2:{ destruct (matches _ e); done. }
  destruct (bind _ args0 kws) as [b1|e] eqn:Hbind; simpl in Hb.
  2:{ destruct (matches _ e); done. }
  injection Hb as ->.
  apply M_bind_ok in Hc as (b' & s4 & Hco & Hc). unfold on_scope in Hco.
  destruct (coerce_arguments hs (is_raw p) b (sv_scope s1)) as [[b1|] sc] eqn:Hca; [|done].
  injection Hco as -> <-.
  assert (q ∈ List.filter (is_injected hs) sig) as Hin by (by apply elem_of_injected).
  destruct (List.filter (is_injected hs) sig) as [|i inj] eqn:Hinj; [by apply not_elem_of_nil in Hin|].
  apply M_bind_ok in Hc as (r & s5 & (ctx & s6 & Hctx & Hr)%M_bind_ok & Hc).
  injection Hctx as Hctx <-. injection Hr as Hr <-. injection Hc as <- <- <-.
  rewrite <-Hinj in Hkw.
  destruct (injected_arguments hs sig Hwf ctx _ _ _ _ _ _ _ _ Hkw Hbind Hca)
    as (r' & Hr' & ? & ? & ?).
  rewrite Hr in Hr'. injection Hr' as <-. exists ctx, r. done.
Qed.

(** No caller can forge or displace the [CallContext] of a handler:
    whatever arguments arrive, a parameter annotated with it receives the
    context of the transport's caller and request id, at its own position, or
    under its own name when it is keyword-only. *)
Theorem context_injected fn (p : payload) (caller rid : pystr) s (hs : hints)
    (pre post : signature) (q : param) s1 (args : list argval) (kw : list (pyval * argval)) s' :
  _shape fn s = (Ok (hs, Some (pre ++ q :: post)), s1) → wf_signature (pre ++ q :: post) →
  is_injected hs q = true →
  _coerce fn p caller rid s = (Ok (args, kw), s') →
  ∃ ctx, new_call_context caller rid = Ok ctx ∧
    (Forall (λ x, positional x = true) (pre ++ [q]) → args !! length pre = Some (ACtx ctx)) ∧
    (p_kind q = KEYWORD_ONLY →
     ∃ named, kw = map (λ ka, (VStr ka.1, ka.2)) named ∧ alist_get (p_name q) named = Some (ACtx ctx)).
Proof.
  intros Hsh Hwf Hqi Hc. assert (q ∈ pre ++ q :: post) as Hq by set_solver.
  destruct (coerce_injecting _ _ _ _ _ _ _ _ _ _ _ _ Hsh Hwf Hq Hqi Hc)
    as (ctx & r & Hctx & -> & -> & Hget & Hpos & Hmap).
  exists ctx. split_and!; [done|..].
  - intros HF. apply bound_args_at; [|auto]. apply Forall_forall. intros x Hx.
    rewrite Forall_forall in HF. split; [auto|]. apply Hpos; [set_solver|auto].
  - intros Hk. eexists. split; [done|]. apply bound_kwargs_at; [done| | |auto].
    + destruct Hwf as [Hnd _]. rewrite fmap_app, fmap_cons in Hnd.
      apply NoDup_app in Hnd as (_ & _ & [? _]%NoDup_cons). done.
    + intros n kvs Hin. by eapply Hmap.
Qed.
End CoerceLaws.

(** A handler [f(ctx: CallContext, x, *, k=0)] called with a forged [ctx]. *)
Definition sample_signature : signature :=
  [Param (u "ctx") POSITIONAL_OR_KEYWORD None; Param (u "x") POSITIONAL_OR_KEYWORD None;
   Param (u "k") KEYWORD_ONLY (Some (AVal (VInt 0)))].

Definition sample_handler : @handler unit :=
  Handler 1 (Ok [(u "ctx", CALL_CONTEXT)]) (Ok sample_signature) (λ _ _, mret (RValue VNone)).

Definition forged : payload :=
  PVal (VDict [(VStr (u "args"), VList [VInt 5]);
               (VStr (u "kwargs"), VDict [(VStr (u "ctx"), VStr (u "root/0#1"))])]).

Definition sample_serving : @serving sample_codec unit := Serving ∅ ∅ None tt [].

Lemma context_injected_witness :
  ∃ ctx, new_call_context (u "worker/3#18") (u "r-1") = Ok ctx ∧
    (@_coerce sample_codec unit sample_handler forged (u "worker/3#18") (u "r-1") sample_serving).1
    = Ok ([ACtx ctx; AVal (VInt 5)], [(VStr (u "k"), AVal (VInt 0))]) ∧
    [ACtx ctx; AVal (VInt 5)] !! 0%nat = Some (ACtx ctx).
Proof.
  set (ctx := {| cc_identity := u "worker/3#18"; cc_pool := u "worker"; cc_slot := Some 3;
                 cc_incarnation := 18; cc_request_id := u "r-1" |}).
  assert (new_call_context (u "worker/3#18") (u "r-1") = Ok ctx) as Hctx by (vm_compute; reflexivity).
  destruct (@context_injected sample_codec unit sample_handler forged (u "worker/3#18") (u "r-1")
    sample_serving [(u "ctx", CALL_CONTEXT)] []
    [Param (u "x") POSITIONAL_OR_KEYWORD None; Param (u "k") KEYWORD_ONLY (Some (AVal (VInt 0)))]
    (Param (u "ctx") POSITIONAL_OR_KEYWORD None)
    (set_shapes (<[1 := ([(u "ctx", CALL_CONTEXT)], Some sample_signature)]> ∅) sample_serving)
    [ACtx ctx; AVal (VInt 5)] [(VStr (u "k"), AVal (VInt 0))]
    (set_shapes (<[1 := ([(u "ctx", CALL_CONTEXT)], Some sample_signature)]> ∅) sample_serving))
    as (ctx' & Hctx' & Hpos & _).
  - vm_compute. reflexivity.
  - split; [vm_compute; apply (bool_decide_unpack _); reflexivity|].
    intros q Hq Hv. vm_compute in Hq. repeat (apply elem_of_cons in Hq as [->|Hq]; [done|]).
    by apply not_elem_of_nil in Hq.
  - reflexivity.
  - vm_compute. reflexivity.
  - exists ctx. split; [done|]. split; [vm_compute; reflexivity|].
    rewrite Hctx in Hctx'. injection Hctx' as <-. apply Hpos. repeat constructor.
Defined.
