(* ===== verification/Serve.v ===== *)
(** * Serving: [_serve.py] and the native listener's callback

    [scan] decides what is served; [_Dispatch] answers one request: it
    decodes the payload, binds the arguments, runs the handler and encodes
    what it returned, one call or a batch.  [python_service] is the native
    side of the callback ([PythonService::dispatch] of the extension module):
    the fence before dispatching and the reply to an exception that escapes.
    [Counters] and the life of [MethodServer] follow. *)

From S2P Require Import Prelude PyStr PyFloat Errors Identity Config RequestId Codec SampleCodec.
From S2P Require Import Rpc Binding.

Local Open Scope Z_scope.

(** ** [scan] *)

(** What [inspect.getattr_static] finds under a name. *)
Inductive static_attr := Absent | Static (is_callable is_classmethod : bool).

(** What [getattr] gives: whether it is callable, whether it is a class. *)
Record live_attr (F : Type) := LiveAttr { la_callable : bool; la_is_type : bool; la_value : F }.
Arguments LiveAttr {F} _ _ _.
Arguments la_callable {F} _.
Arguments la_is_type {F} _.
Arguments la_value {F} _.

(** One attribute: its name, its static form, and what reading it gives:
    [None] is an attribute whose getter raised [AttributeError]. *)
Record attribute (F : Type) := Attribute {
  at_name : pystr;
  at_static : static_attr;
  at_get : option (live_attr F)
}.
Arguments Attribute {F} _ _ _.
Arguments at_name {F} _.
Arguments at_static {F} _.
Arguments at_get {F} _.

(** The attribute [scan] looks at, if it reads it at all. *)
Definition scanned {F} (a : attribute F) : res (option (live_attr F)) :=
  match at_static a with
  | Absent => Ok (at_get a)
  | Static is_callable is_classmethod =>
      if is_callable || is_classmethod
      then match at_get a with Some l => Ok (Some l) | None => Raise (Exc AttributeError) end
      else Ok None
  end.

(** [scan], over [dir(obj)] in order. *)
Fixpoint scan {F} (attrs : list (attribute F)) : res (list (pystr * F)) :=
  match attrs with
  | [] => Ok []
  | a :: rest =>
      if startswith (u "_") (at_name a) then scan rest
      else
        got ← scanned a;
        match got with
        | None => scan rest
        | Some l =>
            if negb (la_callable l) || la_is_type l then scan rest
            else if negb (isascii (at_name a) && isidentifier (at_name a)) then Raise (Exc ValueError)
            else out ← scan rest; Ok ((at_name a, la_value l) :: out)
        end
  end.

(** ** [Counters] *)

Record counters := Counters {
  ct_calls : Z; ct_refused : Z; ct_failed : Z;
  ct_in_flight : Z; ct_peak : Z; ct_busy_ns : Z
}.

Definition new_counters : counters := Counters 0 0 0 0 0 0.

Definition entered (c : counters) : counters :=
  let n := ct_in_flight c + 1 in
  Counters (ct_calls c) (ct_refused c) (ct_failed c) n (Z.max (ct_peak c) n) (ct_busy_ns c).
Definition answered (failed : bool) (c : counters) : counters :=
  Counters (ct_calls c + 1) (ct_refused c) (ct_failed c + Z.b2z failed)
    (ct_in_flight c) (ct_peak c) (ct_busy_ns c).
Definition left_ (spent_ns : Z) (c : counters) : counters :=
  Counters (ct_calls c) (ct_refused c) (ct_failed c) (ct_in_flight c - 1) (ct_peak c)
    (ct_busy_ns c + spent_ns).
Definition refuse (c : counters) : counters :=
  Counters (ct_calls c) (ct_refused c + 1) (ct_failed c) (ct_in_flight c) (ct_peak c) (ct_busy_ns c).

(** [Counters.snapshot] without a native listener behind it. *)
Definition snapshot (c : counters) : list (pystr * Z) :=
  [(u "calls", ct_calls c); (u "refused", ct_refused c); (u "failed", ct_failed c);
   (u "in_flight", ct_in_flight c); (u "peak_in_flight", ct_peak c);
   (u "busy_ms", ct_busy_ns c / 1000000)].

(** ** Replies *)

(** [_Reply] *)
Record reply := Reply {
  r_status : Z;
  r_payload : list N;
  r_error_type : pystr;
  r_message : pystr;
  r_traceback : pystr;
  r_batch_index : option Z;
  r_completed : option Z;
  r_owners : list Z
}.

(** [_reply] for a failed call: no payload, no owners. *)
Definition _reply (status : Z) (error_type message traceback_text : pystr) : reply :=
  Reply status [] error_type message traceback_text None None [].

(** The text of an exception: [type(exc).__name__], [str(exc)] and
    [traceback.format_exc()]; nothing branches on it. *)
Class ExcText := {
  type_name : exn → pystr;
  exc_str : exn → pystr;
  format_exc : exn → pystr
}.

Section Dispatching.
Context `{Codec} `{ExcText} {W : Type}.
Notation handler := (@handler W).
Notation serving := (@serving _ W).
Notation SM := (M serving exn).

(** ** [_Dispatch] *)

(** The event loop [self.loop]: whether there is one and whether it runs. *)
Record dispatch := Dispatch {
  d_dispatch : list (pystr * handler);
  d_identity : pystr;
  d_loop_running : option bool;
  d_still_ours : W → bool * W
}.

(** [self.still_ours()] *)
Definition still_ours (d : dispatch) : SM bool :=
  on_world (λ w, let '(b, w') := d_still_ours d w in (Ok b, w')).

(** A coroutine run by [asyncio.run], or on the served loop and waited for:
    there a cancelled task is reported as the future's own exception. *)
Definition run_coroutine (d : dispatch) (body : M W exn pyval) : M W exn pyval :=
  match d_loop_running d with
  | Some true => λ w, match body w with
                      | (Raise (Exc CancelledError), w') => (Raise (Exc FuturesCancelledError), w')
                      | other => other
                      end
  | _ => body
  end.

(** [fn(args, kwargs)], and what it returned awaited when it is a coroutine. *)
Definition run_handler (d : dispatch) (fn : handler) (name rid : pystr)
    (args : list argval) (kwargs : list (pyval * argval)) : SM pyval :=
  kw ← lift (string_keys kwargs);
  _ ← modify (λ s, set_ran (sv_ran s ++ [(name, rid)]) s);
  result ← on_world (h_code fn args kw);
  match result with
  | RValue v => mret v
  | RCoroutine body => on_world (run_coroutine d body)
  end.

(** [_invoke] *)
Definition _invoke (d : dispatch) (fn : handler) (name : pystr) (p : payload)
    (caller rid : pystr) : SM reply :=
  coerced ← attempt (_coerce fn p caller rid);
  match coerced with
  | Raise e =>
      if matches [BlobError; ValidationError; TypeError; ValueError] e
      then mret (_reply RPC_STATUS_CALLER_FAULT (u "TypeError") (name ++ u "(): " ++ exc_str e) [])
      else raise e
  | Ok (args, kwargs) =>
      ran ← attempt (run_handler d fn name rid args kwargs);
      match ran with
      | Raise e =>
          if matches [Exception] e
          then mret (_reply RPC_STATUS_REMOTE_ERROR (type_name e) (exc_str e) (format_exc e))
          else raise e
      | Ok result =>
          match dumps_with_blob_refs result with
          | Ok (body, owners) => mret (Reply RPC_STATUS_SUCCESS body [] [] [] None None owners)
          | Raise e =>
              if matches [TypeError; ValueError; OverflowError; RecursionError] e
              then mret (_reply RPC_STATUS_REMOTE_ERROR (u "TypeError")
                           (u "the return value cannot be sent as MessagePack: " ++ exc_str e) [])
              else raise e
          end
      end
  end.

(** The reply to a payload that does not decode. *)
Definition malformed_payload (e : exn) : option reply :=
  if matches [BlobError; TypeError] e
  then Some (_reply RPC_STATUS_CALLER_FAULT (u "TypeError") (exc_str e) [])
  else if matches malformed e
  then Some (_reply RPC_STATUS_CALLER_FAULT (u "ValidationError") (exc_str e) [])
  else None.

(** [with blob_decode_scope(): m] *)
Definition blob_decode_scope {A} (m : SM A) : SM A := λ s,
  match sv_scope s with
  | Some _ => m s
  | None => let '(r, s') := m (set_scope (Some fresh_scope) s) in (r, set_scope None s')
  end.

(** [_call] *)
Definition _call (d : dispatch) (fn : handler) (name : pystr) (raw : list N)
    (caller rid : pystr) : SM reply :=
  blob_decode_scope (
    model ← (match raw with [] => mret false | _ => _takes_model fn end);
    envelope ← (if model : bool then
                  lift (except [DecodeError] (λ _, Ok None)
                          ((λ ak, Some (PRaw ak.1 ak.2)) <$> decode_raw_call raw))
                else mret None);
    match envelope with
    | Some p => _invoke d fn name p caller rid
    | None =>
        decoded ← attempt (on_scope (scoped (loads_in raw)));
        match decoded with
        | Ok v => _invoke d fn name (PVal v) caller rid
        | Raise e => match malformed_payload e with Some r => mret r | None => raise e end
        end
    end).

(** The checks [_batch] makes before it runs anything. *)
Definition item_valid (item : pyval) : bool :=
  match item with
  | VDict kvs =>
      keys_are kvs [u "method"; u "args"; u "kwargs"] &&
      match dict_get (u "method") kvs, dict_get (u "args") kvs, dict_get (u "kwargs") kvs with
      | Some (VStr name), Some (VList _), Some (VDict kw) =>
          public_name name && forallb (λ kv, is_str kv.1) kw
      | _, _, _ => false
      end
  | _ => false
  end.

(** The parts of a valid item. *)
Definition item_method (item : pyval) : pystr :=
  match item with
  | VDict kvs => match dict_get (u "method") kvs with Some (VStr s) => s | _ => [] end
  | _ => []
  end.

Definition item_payload (item : pyval) : payload :=
  match item with
  | VDict kvs =>
      PVal (VDict [(VStr (u "args"), default VNone (dict_get (u "args") kvs));
                   (VStr (u "kwargs"), default VNone (dict_get (u "kwargs") kvs))])
  | _ => PVal VNone
  end.

(** The reply that stops a batch at [index]: the results so far. *)
Definition stopped (status : Z) (error_type message traceback_text : pystr) (index : Z)
    (completed : list (list N)) (owners : list Z) : reply :=
  Reply status (dumps_raws completed) error_type message traceback_text
    (Some index) (Some index) owners.

(** The loop of [_batch]. *)
Fixpoint batch_from (d : dispatch) (caller rid : pystr) (index : Z)
    (completed : list (list N)) (owners : list Z) (items : list pyval) : SM reply :=
  match items with
  | [] => mret (Reply RPC_STATUS_SUCCESS (dumps_raws completed) [] [] [] None None owners)
  | item :: rest =>
      ours ← still_ours d;
      if negb ours then
        mret (stopped RPC_STATUS_FENCED (u "Fenced") (d_identity d) [] index completed owners)
      else
        let name := item_method item in
        match alist_get name (d_dispatch d) with
        | None => mret (stopped RPC_STATUS_METHOD_NOT_FOUND (u "AttributeError") name [] index
                          completed owners)
        | Some fn =>
            item_id ← lift (_batch_request_id rid index);
            result ← _invoke d fn name (item_payload item) caller item_id;
            if negb (r_status result =? RPC_STATUS_SUCCESS) then
              mret (stopped (r_status result) (r_error_type result) (r_message result)
                      (r_traceback result) index completed owners)
            else batch_from d caller rid (index + 1) (completed ++ [r_payload result])
                   (owners ++ r_owners result) rest
        end
  end.

(** [_batch] *)
Definition _batch (d : dispatch) (raw : list N) (caller rid : pystr) (batch_len : option Z)
    : SM reply :=
  decoded ← attempt (on_scope (scoped (loads_in raw)));
  match decoded with
  | Raise e => match malformed_payload e with Some r => mret r | None => raise e end
  | Ok (VDict kvs) =>
      match keys_are kvs [u "calls"], dict_get (u "calls") kvs with
      | true, Some (VList calls) =>
          if negb (bool_decide (batch_len = Some (len calls))) then
            mret (_reply RPC_STATUS_MALFORMED_PROTOCOL (u "ProtocolError") [] [])
          else if MAX_BATCH <? len calls then
            mret (_reply RPC_STATUS_CALLER_FAULT (u "ValueError") [] [])
          else if negb (forallb item_valid calls) then
            mret (_reply RPC_STATUS_CALLER_FAULT (u "ValidationError") [] [])
          else batch_from d caller rid 0 [] [] calls
      | _, _ => mret (_reply RPC_STATUS_CALLER_FAULT (u "ValidationError") [] [])
      end
  | Ok _ => mret (_reply RPC_STATUS_CALLER_FAULT (u "ValidationError") [] [])
  end.

(** [_Dispatch.__call__] *)
Definition dispatch_call (d : dispatch) (operation : pystr) (method : option pystr) (raw : list N)
    (caller rid : pystr) (batch_len : option Z) : SM reply :=
  if bool_decide (operation = u "batch") then _batch d raw caller rid batch_len
  else match method with
       | Some m =>
           if negb (bool_decide (operation = u "call"))
           then mret (_reply RPC_STATUS_MALFORMED_PROTOCOL (u "ProtocolError") [] [])
           else match alist_get m (d_dispatch d) with
                | None => mret (_reply RPC_STATUS_METHOD_NOT_FOUND (u "AttributeError") m [])
                | Some fn => _call d fn m raw caller rid
                end
       | None => mret (_reply RPC_STATUS_MALFORMED_PROTOCOL (u "ProtocolError") [] [])
       end.

(** [PythonService::dispatch]: the fence comes first, and an exception that
    escapes the callback is an internal error. *)
Definition python_service (d : dispatch) (operation : pystr) (method : option pystr) (raw : list N)
    (caller rid : pystr) (batch_len : option Z) : serving → reply * serving := λ s,
  match (ours ← still_ours d;
         if negb ours then mret (_reply RPC_STATUS_FENCED (u "Fenced") (u "the member is held by a later tenure") [])
         else dispatch_call d operation method raw caller rid batch_len) s with
  | (Ok r, s') => (r, s')
  | (Raise e, s') => (_reply RPC_STATUS_INTERNAL (u "RuntimeError") (exc_str e) [], s')
  end.

(** The outcome the caller's transport reports for a reply. *)
Definition outcome_of (r : reply) : outcome :=
  Outcome RPC_OUTCOME_REPLY (Some (r_status r)) (r_error_type r) (r_message r) (r_traceback r)
    (r_batch_index r) (r_completed r) (r_payload r).

(** ** Which handlers ran *)

(** Code that leaves the record of handler invocations alone. *)
Definition quiet {A} (m : SM A) : Prop := ∀ s r s', m s = (r, s') → sv_ran s' = sv_ran s.

Lemma quiet_ret {A} (a : A) : quiet (mret a).
Proof. by intros s r s' [= <- <-]. Qed.
Lemma quiet_raise {A} e : quiet (@raise _ _ A e).
Proof. by intros s r s' [= <- <-]. Qed.
Lemma quiet_lift {A} (m : res A) : quiet (lift m).
Proof. by intros s r s' [= <- <-]. Qed.
Lemma quiet_gets {A} (f : serving → A) : quiet (gets f).
Proof. by intros s r s' [= <- <-]. Qed.
Lemma quiet_bind {A B} (m : SM A) (f : A → SM B) : quiet m → (∀ a, quiet (f a)) → quiet (m ≫= f).
Proof.
  intros Hm Hf s r s'. rewrite M_bind_unfold. destruct (m s) as [[a|e] s1] eqn:E.
  - intros H1. rewrite (Hf a _ _ _ H1). by eapply Hm.
  - intros [= <- <-]. by eapply Hm.
Qed.
Lemma quiet_on_scope {A} (m : M (option scope) exn A) : quiet (on_scope m).
Proof. intros s r s'. unfold on_scope. destruct (m _). by intros [= <- <-]. Qed.
Lemma quiet_on_world {A} (m : M W exn A) : quiet (on_world m).
Proof. intros s r s'. unfold on_world. destruct (m _). by intros [= <- <-]. Qed.
Lemma quiet_attempt {A} (m : SM A) : quiet m → quiet (attempt m).
Proof.
  intros Hm s r s'. unfold attempt. destruct (m s) eqn:E. intros [= <- <-]. by eapply Hm.
Qed.
Lemma quiet_modify f : (∀ s, sv_ran (f s) = sv_ran s) → quiet (modify f).
Proof. by intros Hf s r s' [= <- <-]. Qed.

#[local] Hint Resolve quiet_ret quiet_raise quiet_lift quiet_gets quiet_bind quiet_on_scope
  quiet_on_world quiet_attempt quiet_modify : tinyray.

Lemma quiet_shape fn : quiet (_shape fn).
Proof.
  unfold _shape. apply quiet_bind; [auto with tinyray|]. intros c.
  destruct (c !! _); auto 10 with tinyray.
Qed.
#[local] Hint Resolve quiet_shape : tinyray.

Lemma quiet_takes_model fn : quiet (_takes_model fn).
Proof.
  unfold _takes_model. apply quiet_bind; [auto with tinyray|]. intros c.
  destruct (c !! _); auto 10 with tinyray.
Qed.

Lemma quiet_coerce fn p caller rid : quiet (_coerce fn p caller rid).
Proof.
  unfold _coerce. apply quiet_bind; [auto with tinyray|]. intros [args kwargs].
  apply quiet_bind; [auto with tinyray|]. intros [hs [sig|]]; [|auto with tinyray].
  case_match; [auto with tinyray|].
  do 2 (apply quiet_bind; [auto with tinyray|intros ?]).
  apply quiet_bind; [|auto with tinyray].
  destruct (List.filter _ _); auto with tinyray.
Qed.

Lemma quiet_still_ours d : quiet (still_ours d).
Proof. unfold still_ours. auto with tinyray. Qed.

(** The handler is entered at most once, and before its first effect. *)
Lemma run_handler_ran d fn name rid args kwargs s r s' :
  run_handler d fn name rid args kwargs s = (r, s') →
  (sv_ran s' = sv_ran s ∧ r = Raise (Exc TypeError)) ∨ sv_ran s' = sv_ran s ++ [(name, rid)].
Proof.
  unfold run_handler. rewrite M_bind_unfold. unfold lift.
  destruct (string_keys kwargs) as [kw|e] eqn:Hk.
  - rewrite M_bind_unfold. simpl. intros Hr. right.
    match type of Hr with ?m ?s0 = _ => assert (quiet m) as Hq end.
    { apply quiet_bind; [auto with tinyray|]. intros []; auto with tinyray. }
    by rewrite (Hq _ _ _ Hr).
  - intros [= <- <-]. left. split; [done|]. f_equal.
    revert Hk. clear. induction kwargs as [|[k a] kw IH]; [done|]. simpl.
    destruct k; try (by intros [= <-]). intros [?|(x & ? & ?)]%bind_raise; [auto|done].
Qed.

(** ** One call *)

(** What the reply to one call says about its handler: it was entered at most
    once; not at all when the caller is at fault; once when it succeeded, and
    then the payload encodes a value. *)
Definition call_end (name rid : pystr) (r : res reply) (ran ran' : list (pystr * pystr)) : Prop :=
  (ran' = ran ∨ ran' = ran ++ [(name, rid)]) ∧
  ∀ rep, r = Ok rep →
    (r_batch_index rep = None ∧ r_completed rep = None) ∧
    ((r_status rep = RPC_STATUS_CALLER_FAULT ∧ ran' = ran) ∨
     r_status rep = RPC_STATUS_REMOTE_ERROR ∨
     (r_status rep = RPC_STATUS_SUCCESS ∧ ran' = ran ++ [(name, rid)] ∧
      ∃ v owners, dumps_with_blob_refs v = Ok (r_payload rep, owners))).

Lemma invoke_ran d fn name p caller rid s r s' :
  _invoke d fn name p caller rid s = (r, s') → call_end name rid r (sv_ran s) (sv_ran s').
Proof.
  unfold _invoke, call_end. rewrite M_bind_unfold. unfold attempt at 1.
  destruct (_coerce fn p caller rid s) as [c s1] eqn:Hc. apply quiet_coerce in Hc.
  destruct c as [[args kwargs]|e].
  2:{ destruct (matches _ e); intros [= <- <-]; (split; [auto|]); [|done].
      intros rep [= <-]. rewrite Hc. auto. }
  rewrite M_bind_unfold. unfold attempt.
  destruct (run_handler d fn name rid args kwargs s1) as [h s2] eqn:Hh.
  apply run_handler_ran in Hh. rewrite Hc in Hh.
  destruct h as [v|e].
  - destruct Hh as [[_ ?]|Hh]; [done|].
    destruct (dumps_with_blob_refs v) as [[body owners]|e] eqn:Hd.
    + intros [= <- <-]. split; [auto|]. intros rep [= <-]. simpl. eauto 10.
    + destruct (matches _ e); intros [= <- <-]; (split; [auto|]); [|done].
      intros rep [= <-]. simpl. auto.
  - destruct (matches _ e); intros [= <- <-]; (split; [destruct Hh as [[? _]|?]; auto|]); [|done].
    intros rep [= <-]. simpl. auto.
Qed.

Lemma malformed_payload_status e r :
  malformed_payload e = Some r →
  r_status r = RPC_STATUS_CALLER_FAULT ∧ r_batch_index r = None ∧ r_completed r = None.
Proof. unfold malformed_payload. repeat case_match; intros [= <-]; done. Qed.

Lemma scope_ran {A} (m : SM A) (P : result exn A → list (pystr * pystr) → list (pystr * pystr) → Prop) :
  (∀ s r s', m s = (r, s') → P r (sv_ran s) (sv_ran s')) →
  ∀ s r s', blob_decode_scope m s = (r, s') → P r (sv_ran s) (sv_ran s').
Proof.
  intros Hm s r s'. unfold blob_decode_scope. destruct (sv_scope s); [apply Hm|].
  destruct (m (set_scope _ s)) as [r1 s1] eqn:E. intros [= <- <-]. apply Hm in E. done.
Qed.

(** ** Batches *)

(** The handlers entered by a batch: the [j]-th entry is the [j]-th item, under
    the id derived for its index. *)
Definition ran_items (rid : pystr) (index : Z) (items : list pyval) (es : list (pystr * pystr)) : Prop :=
  ∀ j e, es !! j = Some e →
    ∃ item, items !! j = Some item ∧ e.1 = item_method item ∧
            _batch_request_id rid (index + Z.of_nat j) = Ok e.2.

Lemma ran_items_nil rid index items : ran_items rid index items [].
Proof. by intros j e. Qed.

Lemma ran_items_cons rid index item items name id es :
  name = item_method item → _batch_request_id rid index = Ok id →
  ran_items rid (index + 1) items es → ran_items rid index (item :: items) ((name, id) :: es).
Proof.
  intros -> Hid Hes [|j] e He; simpl in *.
  - simplify_eq. exists item. by rewrite Z.add_0_r.
  - destruct (Hes j e He) as (it & Hit & He1 & He2). exists it. split_and!; [done..|].
    rewrite <-He2. f_equal. lia.
Qed.

(** An encoded value. *)
Definition encoded (b : list N) : Prop := ∃ v owners, dumps_with_blob_refs v = Ok (b, owners).

(** How the loop of [_batch] can end from item [index] on: with [es] the
    handlers it entered and [new] the results it added. *)
Inductive batch_end (index : Z) (completed : list (list N)) (items : list pyval)
    (es : list (pystr * pystr)) : reply → Prop :=
| batch_done new owners :
    length new = length items → length es = length items → Forall encoded new →
    batch_end index completed items es
      (Reply RPC_STATUS_SUCCESS (dumps_raws (completed ++ new)) [] [] [] None None owners)
| batch_stopped new status error_type message traceback owners :
    (length new < length items)%nat → Forall encoded new →
    (length es = length new ∨ length es = S (length new)) →
    (length es = S (length new) → status = RPC_STATUS_REMOTE_ERROR) →
    status ∈ [RPC_STATUS_METHOD_NOT_FOUND; RPC_STATUS_FENCED; RPC_STATUS_CALLER_FAULT;
              RPC_STATUS_REMOTE_ERROR] →
    batch_end index completed items es
      (stopped status error_type message traceback (index + Z.of_nat (length new))
         (completed ++ new) owners).

Lemma batch_stopped_here index completed item items es status error_type message traceback owners :
  (es = [] ∨ (length es = 1%nat ∧ status = RPC_STATUS_REMOTE_ERROR)) →
  status ∈ [RPC_STATUS_METHOD_NOT_FOUND; RPC_STATUS_FENCED; RPC_STATUS_CALLER_FAULT;
            RPC_STATUS_REMOTE_ERROR] →
  batch_end index completed (item :: items) es
    (stopped status error_type message traceback index completed owners).
Proof.
  intros Hes Hst.
  pose proof (batch_stopped index completed (item :: items) es [] status error_type message traceback owners) as Hb.
  simpl in Hb. rewrite Z.add_0_r, app_nil_r in Hb.
  apply Hb; [lia|constructor| | |done]; destruct Hes as [->|[Hl ->]]; simpl; auto; lia.
Qed.

Lemma batch_end_cons index completed item items e es b r :
  encoded b → batch_end (index + 1) (completed ++ [b]) items es r →
  batch_end index completed (item :: items) (e :: es) r.
Proof.
  intros Hb. destruct 1 as [new owners Hn He HF|new st et msg tb owners Hn HF He Hr Hst].
  - rewrite <-app_assoc. simpl. apply batch_done; simpl; auto.
  - rewrite <-app_assoc. simpl.
    replace (index + 1 + Z.of_nat (length new)) with (index + Z.of_nat (length (b :: new))) by (simpl; lia).
    apply batch_stopped; simpl; auto; lia.
Qed.

Lemma batch_from_spec d caller rid items : ∀ index completed owners s out s',
  batch_from d caller rid index completed owners items s = (out, s') →
  ∃ es, sv_ran s' = sv_ran s ++ es ∧ ran_items rid index items es ∧
        ∀ r, out = Ok r → batch_end index completed items es r.
Proof.
  induction items as [|item items IH]; intros index completed owners s out s'; simpl.
  { intros [= <- <-]. exists []. rewrite app_nil_r. split_and!; [done|apply ran_items_nil|].
    intros r [= <-]. pose proof (batch_done index completed [] [] [] owners) as Hd.
    rewrite app_nil_r in Hd. auto. }
  assert (∀ (out : res reply) (s2 : serving), sv_ran s2 = sv_ran s →
            (∀ r, out = Ok r → ∃ st et msg tb, r = stopped st et msg tb index completed owners ∧
               st ∈ [RPC_STATUS_METHOD_NOT_FOUND; RPC_STATUS_FENCED; RPC_STATUS_CALLER_FAULT;
                     RPC_STATUS_REMOTE_ERROR]) →
            ∃ es, sv_ran s2 = sv_ran s ++ es ∧ ran_items rid index (item :: items) es ∧
              ∀ r, out = Ok r → batch_end index completed (item :: items) es r) as Hstop.
  { intros res0 s2 Hs2 Hr. exists []. rewrite app_nil_r.
    split_and!; [done|apply ran_items_nil|]. intros r Hr'.
    destruct (Hr r Hr') as (st & et & msg & tb & -> & ?). apply batch_stopped_here; auto. }
  mstep as [[ours|e] s1] eqn:Ho; apply quiet_still_ours in Ho.
  2:{ intros [= <- <-]. by apply Hstop. }
  destruct ours; simpl.
  2:{ intros [= <- <-]. apply Hstop; [done|]. intros r [= <-]. repeat eexists. set_solver. }
  destruct (alist_get (item_method item) (d_dispatch d)) as [fn|].
  2:{ intros [= <- <-]. apply Hstop; [done|]. intros r [= <-]. repeat eexists. set_solver. }
  mstep as [[item_id|e] s2] eqn:Hid; injection Hid as Hid <-.
  2:{ intros [= <- <-]. by apply Hstop. }
  mstep as [rr s3] eqn:Hi. apply invoke_ran in Hi as [Hran Hrep]. rewrite Ho in *.
  destruct rr as [rep|e].
  2:{ intros [= <- <-]. destruct Hran as [Hran|Hran]; [by apply Hstop|].
      exists [(item_method item, item_id)]. split_and!; [done| |done].
      apply ran_items_cons; [done..|apply ran_items_nil]. }
  destruct (Hrep rep eq_refl) as [_ Hst].
  destruct (Z.eqb_spec (r_status rep) RPC_STATUS_SUCCESS) as [Hok|Hno]; simpl.
  - destruct Hst as [[Hf _]|[Hf|(_ & Hran' & Henc)]]; [rewrite Hok in Hf; discriminate..|].
    intros (es & Hes & Hri & Hend)%IH. exists ((item_method item, item_id) :: es).
    rewrite Hes, Hran', <-app_assoc. split_and!; [done|by apply ran_items_cons|].
    intros r Hr. eapply batch_end_cons; eauto.
  - intros [= <- <-]. destruct Hran as [Hran|Hran].
    + apply Hstop; [done|]. intros r [= <-]. repeat eexists.
      destruct Hst as [[-> _]|[->|[? _]]]; [set_solver..|done].
    + exists [(item_method item, item_id)].
      split_and!; [done|apply ran_items_cons; [done..|apply ran_items_nil]|].
      assert (r_status rep = RPC_STATUS_REMOTE_ERROR) as ->.
      { destruct Hst as [[_ Hs]|[?|[? _]]]; [|done|done].
        rewrite Hs in Hran. apply (f_equal length) in Hran. rewrite length_app in Hran. simpl in Hran. lia. }
      intros r [= <-]. apply batch_stopped_here; [by right|set_solver].
Qed.

Lemma call_end_fault name rid e rep ran :
  malformed_payload e = Some rep → call_end name rid (Ok rep) ran ran.
Proof.
  intros (Hs & Hi & Hc)%malformed_payload_status. split; [auto|]. intros ? [= <-]. auto.
Qed.

Lemma call_ran d fn name raw caller rid s r s' :
  _call d fn name raw caller rid s = (r, s') → call_end name rid r (sv_ran s) (sv_ran s').
Proof.
  unfold _call. apply (scope_ran _ (call_end name rid)). clear s r s'. intros s r s'.
  assert (quiet (match raw with [] => mret false | _ => _takes_model fn end)) as Hq.
  { destruct raw; [apply quiet_ret|apply quiet_takes_model]. }
  mstep as [[model|e] s1] eqn:Hm.
  2:{ intros [= <- <-]. rewrite (Hq _ _ _ Hm). split; [auto|done]. }
  rewrite <-(Hq _ _ _ Hm). mstep as [[env|e] s2] eqn:He.
  2:{ intros [= <- <-]. destruct model; injection He as _ <-; (split; [auto|done]). }
  assert (s2 = s1) as -> by (destruct model; by injection He).
  destruct env as [p|]; [apply invoke_ran|].
  mstep as [dec s2] eqn:Hd.
  assert (sv_ran s2 = sv_ran s1) as Hs2.
  { revert Hd. apply quiet_attempt, quiet_on_scope. }
  destruct dec as [[v|e]|e].
  - rewrite <-Hs2. apply invoke_ran.
  - destruct (malformed_payload e) as [rep|] eqn:Hmp; intros [= <- <-]; rewrite Hs2.
    + by eapply call_end_fault.
    + split; [auto|done].
  - intros [= <- <-]. rewrite Hs2. split; [auto|done].
Qed.

(** A request refused before anything ran. *)
Definition refused (ran ran' : list (pystr * pystr)) (r : reply) : Prop :=
  ran' = ran ∧ r_batch_index r = None ∧ r_completed r = None ∧
  r_status r ∈ [RPC_STATUS_CALLER_FAULT; RPC_STATUS_MALFORMED_PROTOCOL].

(** How a batch request can end: refused before anything ran, or run item by
    item, to [batch_end] unless an exception escapes. *)
Lemma batch_ran d raw caller rid bl s out s' :
  _batch d raw caller rid bl s = (out, s') →
  (∃ r, out = Ok r ∧ refused (sv_ran s) (sv_ran s') r) ∨
  (∃ e, out = Raise e ∧ sv_ran s' = sv_ran s) ∨
  ∃ kvs items es, (on_scope (scoped (loads_in raw)) s).1 = Ok (VDict kvs) ∧
    dict_get (u "calls") kvs = Some (VList items) ∧ bl = Some (len items) ∧
    sv_ran s' = sv_ran s ++ es ∧ ran_items rid 0 items es ∧
    ∀ r, out = Ok r → batch_end 0 [] items es r.
Proof.
  unfold _batch. mstep as [dec s1] eqn:Hd.
  assert (sv_ran s1 = sv_ran s) as Hs1 by (revert Hd; apply quiet_attempt, quiet_on_scope).
  unfold attempt in Hd. destruct (on_scope _ s) as [d0 s0] eqn:Hl. injection Hd as <- ->.
  assert (RPC_STATUS_CALLER_FAULT ∈ [RPC_STATUS_CALLER_FAULT; RPC_STATUS_MALFORMED_PROTOCOL]) as Hcf
    by left.
  assert (∀ st et m t, st ∈ [RPC_STATUS_CALLER_FAULT; RPC_STATUS_MALFORMED_PROTOCOL] →
    (mret (_reply st et m t) : SM reply) s1 = (out, s') →
    ∃ r, out = Ok r ∧ refused (sv_ran s) (sv_ran s') r) as Href.
  { intros st et m t Hst [= <- <-]. eexists. split; [done|]. by rewrite <-Hs1. }
  destruct d0 as [v|e].
  2:{ destruct (malformed_payload e) as [rep|] eqn:Hm; intros [= <- <-]; [left|right; left; eauto].
      apply malformed_payload_status in Hm as (Hst & ? & ?). eexists. split; [done|].
      unfold refused. by rewrite Hst. }
  destruct v; try (intros Hb; left; by eapply Href).
  destruct (keys_are kvs [u "calls"]); [|intros Hb; left; by eapply Href].
  destruct (dict_get (u "calls") kvs) as [[| | | | | |calls| | | | | | |]|] eqn:Hc;
    try (intros Hb; left; by eapply Href).
  case_bool_decide as Hbl; simpl; [|intros Hb; left; eapply Href; [right; left|done]].
  destruct (MAX_BATCH <? len calls); [intros Hb; left; by eapply Href|].
  destruct (forallb item_valid calls); simpl; [|intros Hb; left; by eapply Href].
  intros (es & Hes & Hr & Hend)%batch_from_spec. right; right.
  exists kvs, calls, es. rewrite Hes, Hs1. done.
Qed.

(** ** The client's items are the server's *)

Lemma item_ok_valid v : item_ok v → item_valid v = true.
Proof.
  intros (name & args & kwargs & -> & Hn & Hk). cbn [item_valid].
  rewrite (eq_refl : keys_are [(VStr (u "method"), VStr name); (VStr (u "args"), VList args);
    (VStr (u "kwargs"), VDict kwargs)] [u "method"; u "args"; u "kwargs"] = true).
  rewrite (eq_refl : dict_get (u "method") [(VStr (u "method"), VStr name); (VStr (u "args"), VList args);
    (VStr (u "kwargs"), VDict kwargs)] = Some (VStr name)).
  rewrite (eq_refl : dict_get (u "args") [(VStr (u "method"), VStr name); (VStr (u "args"), VList args);
    (VStr (u "kwargs"), VDict kwargs)] = Some (VList args)).
  rewrite (eq_refl : dict_get (u "kwargs") [(VStr (u "method"), VStr name); (VStr (u "args"), VList args);
    (VStr (u "kwargs"), VDict kwargs)] = Some (VDict kwargs)).
  cbn [andb]. rewrite Hn. by apply forallb_Forall.
Qed.

(** ** Properties *)

(** A reply with one of these statuses that names no item, or whose status no
    item can have, was made without entering a handler. *)
Lemma python_service_refused d operation method raw caller rid batch_len s r s' :
  python_service d operation method raw caller rid batch_len s = (r, s') →
  r_status r ∈ [RPC_STATUS_CONCURRENCY_REFUSED; RPC_STATUS_MALFORMED_PROTOCOL; RPC_STATUS_FENCED;
                RPC_STATUS_METHOD_NOT_FOUND; RPC_STATUS_CALLER_FAULT] →
  r_batch_index r = None ∨ r_status r ∈ [RPC_STATUS_CONCURRENCY_REFUSED; RPC_STATUS_MALFORMED_PROTOCOL] →
  sv_ran s' = sv_ran s.
Proof.
  unfold python_service. rewrite M_bind_unfold.
  destruct (still_ours d s) as [[ours|e] s1] eqn:Ho; apply quiet_still_ours in Ho.
  2:{ by intros [= <- <-]. }
  destruct ours; simpl; [|by intros [= <- <-]].
  destruct (dispatch_call d operation method raw caller rid batch_len s1) as [[rep|e] s2] eqn:Hd.
  2:{ intros [= <- <-] Hst. simpl in Hst. elem_cases Hst. }
  intros [= <- <-] Hst Hi. rewrite <-Ho. unfold dispatch_call in Hd.
  case_bool_decide.
  - apply batch_ran in Hd as [(? & _ & ? & _)|[(? & ? & _)|(kvs & items & es & _ & _ & _ & Hr & _ & Hend)]];
      [done|done|].
    rewrite Hr. destruct (Hend rep eq_refl) as [|new st et ms tr ow _ _ _ _ Hin]; simpl in Hst; [elem_cases Hst|].
    destruct Hi as [?|Hi]; [done|]. simpl in Hi. elem_cases Hi; subst st; elem_cases Hin.
  - destruct method as [m|]; [|by injection Hd as <- <-].
    case_bool_decide; simpl in Hd; [|by injection Hd as <- <-].
    destruct (alist_get m (d_dispatch d)); [|by injection Hd as <- <-].
    apply call_ran in Hd as [_ Hd]. destruct (Hd rep eq_refl) as [_ [[_ ?]|[Hs|[Hs _]]]]; [done|..].
    all: rewrite Hs in Hst; elem_cases Hst.
Qed.

(** Every reply has a status of the protocol. *)
Lemma python_service_status d operation method raw caller rid batch_len s r s' :
  python_service d operation method raw caller rid batch_len s = (r, s') → 0 ≤ r_status r ≤ RPC_STATUS_INTERNAL.
Proof.
  unfold python_service. rewrite M_bind_unfold. destruct (still_ours d s) as [[ours|e] s1]; [|by intros [= <- _]].
  destruct ours; simpl; [|by intros [= <- _]].
  destruct (dispatch_call d operation method raw caller rid batch_len s1) as [[rep|e] s2] eqn:Hd; [|by intros [= <- _]].
  intros [= <- _]. unfold dispatch_call in Hd. case_bool_decide.
  - apply batch_ran in Hd as [(? & [= <-] & _ & _ & _ & Hst)|[(? & ? & _)|(kvs & items & es & _ & _ & _ & _ & _ & Hend)]]; [|done|].
    + elem_cases Hst; by rewrite Hst.
    + destruct (Hend rep eq_refl) as [|new st et ms tr ow _ _ _ _ Hin]; simpl; [done|]. by elem_cases Hin; subst st.
  - destruct method as [m|]; [|by injection Hd as <- _].
    case_bool_decide; simpl in Hd; [|by injection Hd as <- _].
    destruct (alist_get m (d_dispatch d)); [|by injection Hd as <- _].
    apply call_ran in Hd as [_ Hd]. destruct (Hd rep eq_refl) as [_ [[Hs _]|[Hs|[Hs _]]]]; by rewrite Hs.
Qed.

(** C4: a reply that tells the caller nothing ran is true: when the listener's
    answer to a request is read as a refusal, a fence, a missing method or a
    caller's fault, and names no batch item, no handler was entered. *)
Theorem refusal_means_not_run (d : dispatch) (operation : pystr) (method : option pystr)
    (raw : list N) (caller rid : pystr) (batch_len : option Z) (s : serving) (r : reply) (s' : serving) :
  python_service d operation method raw caller rid batch_len s = (r, s') →
  r_status r ∈ [RPC_STATUS_CONCURRENCY_REFUSED; RPC_STATUS_MALFORMED_PROTOCOL; RPC_STATUS_FENCED;
                RPC_STATUS_METHOD_NOT_FOUND; RPC_STATUS_CALLER_FAULT] →
  r_batch_index r = None → sv_ran s' = sv_ran s.
Proof. intros Hp Hst Hi. eapply python_service_refused; eauto. Qed.

(** What a batch that was run is answered with, and what the client makes of
    it: [new] are the encoded results, which decode one by one when they take
    nothing from the blob budget they share. *)
Definition batch_answered (items : list pyval) (es : list (pystr * pystr)) (new : list (list N)) (r : reply) : Prop :=
  let read := _decode_batch (outcome_of r) (len items) (Some (r_payload r)) in
  let cause := _raise_reply (outcome_of r) in
  Forall encoded new ∧ r_payload r = dumps_raws new ∧
  (r_status r = RPC_STATUS_SUCCESS ∧ len new = len items ∧ len es = len items ∧
     (∀ vs, Forall2 plain new vs → read = Ok vs) ∨
   Some (r_status r) ∈ item_statuses ∧ r_batch_index r = Some (len new) ∧ len new < len items ∧
     (len es = len new ∨ len es = len new + 1 ∧ class_of cause = RemoteError) ∧
     (∀ vs, Forall2 plain new vs → read = Raise (BatchExc (len new) vs cause))).

Lemma batch_end_answered `{!CodecLaws H} items es r :
  batch_end 0 [] items es r → ∃ new, batch_answered items es new r.
Proof.
  destruct 1 as [new owners Hn He HF|new st et msg tb owners Hn HF He Hr Hst]; exists new;
    (split; [done|]); (split; [done|]); [left|right]; simpl.
  - unfold len. split_and!; [done|lia..|]. intros vs Hvs. apply decode_batch_ok_iff. simpl.
    apply Forall2_length in Hvs as Hlen. split_and!; [done..|by apply loads_raws|]. unfold len. lia.
  - assert (Some st ∈ item_statuses) as Hst' by (unfold item_statuses; elem_cases Hst; subst; set_solver).
    unfold len. split_and!; [done|f_equal; lia|lia| |].
    + destruct He as [He|He]; [left; lia|right]. split; [lia|]. by rewrite (Hr He).
    + intros vs Hvs. apply decode_batch_failed_iff. simpl. apply Forall2_length in Hvs as Hlen. unfold len.
      split_and!; try done; [lia..|by apply loads_raws|lia].
Qed.

Lemma batch_items_valid calls items :
  _batch_payload calls = Ok items → Forall (λ v, item_valid v = true) items ∧ len items ≤ MAX_BATCH.
Proof.
  intros [HF Hl]%batch_payload_from_ok; [|lia]. split.
  - clear Hl. induction HF as [|it v calls items (c & -> & Hv) HF IH]; constructor; [|done].
    by apply item_ok_valid, (call_payload_ok c).
  - apply Forall2_length in HF. unfold len in *. unfold MAX_BATCH in *.
    destruct Hl as [->|Hl]; simpl in *; lia.
Qed.

(** What the client sends is taken by the server. *)
Lemma batch_accepted d calls items raw caller rid s :
  _batch_payload calls = Ok items → sv_scope s = None →
  loads raw = Ok (VDict [(VStr (u "calls"), VList items)]) →
  _batch d raw caller rid (Some (len items)) s = batch_from d caller rid 0 [] [] items s.
Proof.
  intros [HF Hl]%batch_items_valid Hs Hr. unfold _batch. rewrite M_bind_unfold.
  unfold attempt, on_scope, scoped. rewrite Hs. unfold loads in Hr. rewrite Hr.
  rewrite (eq_refl : keys_are [(VStr (u "calls"), VList items)] [u "calls"] = true).
  rewrite (eq_refl : dict_get (u "calls") [(VStr (u "calls"), VList items)] = Some (VList items)).
  rewrite bool_decide_eq_true_2 by done. simpl.
  destruct (Z.ltb_spec MAX_BATCH (len items)); [lia|].
  rewrite (proj2 (forallb_Forall _ _) HF). simpl.
  destruct s; simpl in Hs; subst; done.
Qed.

End Dispatching.

(** ** A batch on a concrete listener *)

Definition sample_text : ExcText :=
  {| type_name := λ _, u "KeyError"; exc_str := λ _, u "x"; format_exc := λ _, [] |}.

(** [add] counts its calls, [boom] raises. *)
Definition one_parameter : signature := [Param (u "x") POSITIONAL_OR_KEYWORD None].
Definition sample_add : @handler Z :=
  Handler 1 (Ok []) (Ok one_parameter) (λ _ _ w, (Ok (RValue (VInt (w + 1))), w + 1)).
Definition sample_boom : @handler Z :=
  Handler 2 (Ok []) (Ok one_parameter) (λ _ _, raise (Exc KeyError)).

Definition sample_dispatch : @dispatch Z :=
  Dispatch [(u "add", sample_add); (u "boom", sample_boom)] (u "engine/0#1") None (λ w, (true, w)).

Definition sample_calls : list batch_item :=
  map (λ m, ItemCall (Call (VStr m) (VTuple [VInt 7]) VNone)) [u "add"; u "boom"; u "add"].

Definition sample_items : list pyval :=
  map (λ m, VDict [(VStr (u "method"), VStr m); (VStr (u "args"), VList [VInt 7]);
                   (VStr (u "kwargs"), VDict [])]) [u "add"; u "boom"; u "add"].

Definition sample_body : list N :=
  default [] (enc_value (VDict [(VStr (u "calls"), VList sample_items)])).

Definition sample_start : @serving sample_codec Z := Serving ∅ ∅ None 0 [].

Definition sample_run : reply * @serving sample_codec Z :=
  @python_service sample_codec sample_text Z sample_dispatch (u "batch") None sample_body
    (u "driver/0#9") (u "r") (Some (len sample_items)) sample_start.


Definition sample_fenced : @dispatch Z :=
  Dispatch [(u "add", sample_add)] (u "engine/0#1") None (λ w, (false, w)).

Definition sample_fenced_run : reply * @serving sample_codec Z :=
  @python_service sample_codec sample_text Z sample_fenced (u "call") (Some (u "add")) [3%N]
    (u "driver/0#9") (u "r") None sample_start.

Lemma refusal_means_not_run_witness : sv_ran sample_fenced_run.2 = sv_ran sample_start.
Proof.
  apply (@refusal_means_not_run sample_codec sample_text Z sample_fenced (u "call") (Some (u "add"))
    [3%N] (u "driver/0#9") (u "r") None sample_start sample_fenced_run.1).
  - apply surjective_pairing.
  - vm_compute. set_solver.
  - reflexivity.
Defined.
