(* ===== verification/FullStack.v ===== *)
(** * A call from Python to Python

    The two ends of the extension module meet over the native transport: a
    call of [_rpc.py] becomes a request ([make_request] of
    [tinyray-client/src/rpc.rs]), the listener gives it to [_serve.py]
    ([PythonService::dispatch]), the reply becomes an [RpcOutcome], and
    [invoke] reads it.  [Exchange] says what the connection does in between,
    [Serve] and [Rpc] what the two Python sides do; here they are put
    together.  What [Serve] assumes the transport to report ([outcome_of]) is
    what it reports, and [NotDelivered] means that nothing ran.

    The state of the Python process is part of the system, and a handler takes
    effect in the state the process is in when it runs: one step, as the whole
    of [python_service] is one function of that state.  Between two of them
    other threads change the application's state as they like.  The runs are
    those of [Exchange] that are [considerate]. *)

From S2P Require Import Prelude PyStr PyFloat Errors Identity Config RequestId Codec SampleCodec.
From S2P Require Import Text Wire RpcProto Admission ClientConn Delivery ClientWire NativeServer ServerStream Exchange.
From S2P Require Import Timing Rpc Binding Serve.

Local Open Scope Z_scope.

(** ** The extension module *)

Definition RPC_OUTCOME_UNKNOWN : Z := 2.

(** [status_code] and [status_from_code] *)
Definition status_code (status : rpc_status) : Z :=
  match status with
  | Success => 0
  | MethodNotFound => 1
  | RpcProto.Fenced => 2
  | CallerFault => 3
  | ConcurrencyRefused => 4
  | RpcProto.RemoteError => 5
  | MalformedProtocol => 6
  | Internal => 7
  end.

Definition status_from_code (code : Z) : option rpc_status :=
  match code with
  | 0 => Some Success
  | 1 => Some MethodNotFound
  | 2 => Some RpcProto.Fenced
  | 3 => Some CallerFault
  | 4 => Some ConcurrencyRefused
  | 5 => Some RpcProto.RemoteError
  | 6 => Some MalformedProtocol
  | 7 => Some Internal
  | _ => None
  end.

(** [make_request]; [None] for [Err].  Its [validate_request] asks what the
    listener's asks. *)
Definition make_request (c : call_request) : option rpc_request :=
  let request :=
    match Rpc.rq_method c, Rpc.rq_batch_len c with
    | Some method, None => Some (request_call (rq_request c) (Rpc.rq_caller c) (Rpc.rq_target c) method (rq_body c))
    | None, Some batch_len => Some (request_batch (rq_request c) (Rpc.rq_caller c) (Rpc.rq_target c) batch_len (rq_body c))
    | _, _ => None
    end in
  rq ← request; if validate_request rq then Some rq else None.

(** [str::trim]: Unicode's white space, which leaves out four separators that
    Python's [strip] takes. *)
Definition white_space (c : N) : bool :=
  in_ranges [(9, 13); (32, 32); (0x85, 0x85); (0xa0, 0xa0); (0x1680, 0x1680); (0x2000, 0x200a); (0x2028, 0x2029);
             (0x202f, 0x202f); (0x205f, 0x205f); (0x3000, 0x3000)]%N c.
Definition trim (s : pystr) : pystr := reverse (lstrip_by white_space (reverse (lstrip_by white_space s))).

(** [valid_endpoint] *)
Definition valid_endpoint (endpoint : pystr) : bool :=
  bool_decide (trim endpoint = endpoint) && negb (bool_decide (endpoint = [])) &&
  negb (contains scheme endpoint) && contains [colon] endpoint.

(** [RpcOutcome::from_result] and the getters of [RpcOutcome]; the wording of
    [transport_message] is left out. *)
Definition outcome_from (d : delivery) : outcome :=
  match d with
  | Delivered r =>
      let reply := rv_reply r in
      Outcome RPC_OUTCOME_REPLY (Some (status_code (rp_status reply)))
        (from_option re_type_name [] (rp_error reply)) (from_option re_message [] (rp_error reply))
        (from_option re_traceback [] (rp_error reply)) (rp_batch_index reply) (rp_completed reply) (rp_payload reply)
  | Failed ClientConn.NotDelivered => Outcome RPC_OUTCOME_NOT_DELIVERED None [] [] [] None None []
  | Failed ClientConn.OutcomeUnknown => Outcome RPC_OUTCOME_UNKNOWN None [] [] [] None None []
  end.

(** [rpc_call_sync] over a given exchange. *)
Definition rpc_call_sync (exchange : rpc_request → delivery) (c : call_request) : res outcome :=
  match make_request c with
  | None => Raise (Exc ValueError)
  | Some request =>
      if negb (valid_endpoint (rq_endpoint c)) then Ok (outcome_from (Failed ClientConn.NotDelivered))
      else Ok (outcome_from (exchange request))
  end.

(** The operation as [PythonService::dispatch] names it to Python. *)
Definition operation_name (operation : rpc_operation) : pystr :=
  match operation with RpcProto.Call => u "call" | Batch => u "batch" | BlobAck => u "blob_ack" end.

(** [ServiceResponse::error(ServiceError::Internal(_))], the answer to a status
    that Python made up and to a worker that failed. *)
Definition internal_error : response := Response Internal [] (Some (RpcError (u "RuntimeError") [] [])) None None [].

(** The rest of [PythonService::dispatch]: the tuple as a [ServiceResponse].
    [owners] are the blobs behind the Python objects. *)
Definition response_of (owners : list Z → list blob) (r : reply) : response :=
  match status_from_code (r_status r) with
  | None => internal_error
  | Some status =>
      Response status (r_payload r)
        (if bool_decide (status = Success) then None
         else Some (RpcError (r_error_type r) (r_message r) (r_traceback r)))
        (r_batch_index r) (r_completed r) (owners (r_owners r))
  end.

(** ** Lemmas *)

Lemma status_round_trip status : status_from_code (status_code status) = Some status.
Proof. by destruct status. Qed.

Lemma status_from_code_Some code status : status_from_code code = Some status → code = status_code status.
Proof.
  unfold status_from_code. by destruct code as [|[[[p|p|]|[p|p|]|]|[[p|p|]|[p|p|]|]|]|p]; intros [= <-].
Qed.

Lemma lstrip_length p s : (length (lstrip_by p s) ≤ length s)%nat.
Proof. induction s as [|c s IH]; simpl; [done|]. destruct (p c); simpl; lia. Qed.

Lemma lstrip_still p s : length (lstrip_by p s) = length s → ∀ q : N → bool, (∀ c, q c = true → p c = true) → lstrip_by q s = s.
Proof.
  destruct s as [|c s]; [done|]. simpl. intros Hl q Hq. destruct (p c) eqn:Hp.
  - pose proof (lstrip_length p s). lia.
  - destruct (q c) eqn:Hqc; [|done]. apply Hq in Hqc. congruence.
Qed.

Lemma white_space_isspace c : white_space c = true → isspace_char c = true.
Proof.
  unfold white_space, isspace_char, in_ranges. rewrite !existsb_exists. intros ([a b] & Hin & Hc). simpl in Hin.
  destruct Hin as [[= <- <-]|[[= <- <-]|Hin]].
  - exists (9, 13)%N. simpl. auto.
  - exists (28, 32)%N. split; [simpl; auto|]. cbn [fst snd] in *. apply andb_prop in Hc as [H1%N.leb_le H2%N.leb_le]. apply andb_true_iff. rewrite !N.leb_le. lia.
  - exists (a, b). split; [simpl; tauto|done].
Qed.

(** What [_endpoint] lets pass, [valid_endpoint] does. *)
Lemma endpoint_valid url e : rpc_endpoint url = Ok e → valid_endpoint e = true.
Proof.
  destruct url as [x|]; [|done]. unfold rpc_endpoint. destruct (contains scheme x) eqn:Hs; [done|].
  destruct (bool_decide (x = [])) eqn:Hn; [done|]. cbn [orb]. destruct (bool_decide (strip x ≠ x)) eqn:Hst; [done|].
  apply bool_decide_eq_false in Hst. cbn [orb].
  destruct (contains [colon] x) eqn:Hc; cbn [negb]; [|done].
  intros [= <-]. unfold valid_endpoint. rewrite Hs, Hc, Hn. apply dec_stable in Hst. rewrite bool_decide_true; [done|].
  assert (length (lstrip_by isspace_char x) = length x ∧ length (lstrip_by isspace_char (reverse (lstrip_by isspace_char x))) = length x)
    as [H1 H2].
  { assert (length (strip x) = length x) as Hl by (by rewrite Hst). unfold strip in Hl. rewrite length_reverse in Hl.
    pose proof (lstrip_length isspace_char x). pose proof (lstrip_length isspace_char (reverse (lstrip_by isspace_char x))) as H2.
    rewrite length_reverse in H2. lia. }
  unfold trim. rewrite (lstrip_still _ _ H1 _ white_space_isspace).
  assert (lstrip_by isspace_char x = x) as Hx by (by apply (lstrip_still isspace_char)). rewrite Hx in H2.
  rewrite (lstrip_still isspace_char (reverse x)); [apply reverse_involutive| |apply white_space_isspace].
  by rewrite length_reverse.
Qed.

(** ** What the caller reads *)

Section Stack.
Context `{Codec} `{ExcText} {W : Type}.
Notation dispatch := (@dispatch W).
Notation serving := (@serving _ W).

(** [PythonService::dispatch] on the request the listener decoded. *)
Definition service_dispatch (d : dispatch) (rq : rpc_request) : serving → reply * serving :=
  python_service d (operation_name (rq_operation rq)) (RpcProto.rq_method rq) (rq_payload rq) (RpcProto.rq_caller rq)
    (rq_request_id rq) (RpcProto.rq_batch_len rq).

(** Two outcomes that [invoke] cannot tell apart. *)
Definition reads_alike (o o' : outcome) : Prop :=
  o_kind o = o_kind o' ∧ o_status o = o_status o' ∧ o_batch_index o = o_batch_index o' ∧ o_completed o = o_completed o' ∧
  o_payload o = o_payload o' ∧
  (o_status o ≠ Some RPC_STATUS_SUCCESS →
   o_error_type o = o_error_type o' ∧ o_message o = o_message o' ∧ o_traceback o = o_traceback o').

Lemma alike_raise o o' : reads_alike o o' → o_status o ≠ Some RPC_STATUS_SUCCESS → _raise_reply o = _raise_reply o'.
Proof.
  intros (_ & Hs & _ & _ & _ & Ht) Hn. destruct (Ht Hn) as (H1 & H2 & H3). unfold _raise_reply, has_status.
  by rewrite Hs, H1, H2, H3.
Qed.

Lemma alike_decode o o' bs rt raw : reads_alike o o' → decode_reply o bs rt raw = decode_reply o' bs rt raw.
Proof.
  intros Ha. pose proof (alike_raise o o' Ha) as Hr. destruct Ha as (Hk & Hs & Hi & Hc & Hp & _).
  assert (has_status o RPC_STATUS_SUCCESS = has_status o' RPC_STATUS_SUCCESS) as Hh by (unfold has_status; by rewrite Hs).
  assert (has_status o RPC_STATUS_SUCCESS = false → _raise_reply o = _raise_reply o') as Hr'.
  { intros Hf. apply Hr. intros He. apply has_status_eq in He. congruence. }
  unfold decode_reply, _decode_batch, _decode_typed, _decode, _reply_payload. rewrite Hk, Hi, Hc, Hp, <- Hh.
  destruct (has_status o RPC_STATUS_SUCCESS); [done|]. by rewrite Hr'.
Qed.

Lemma alike_settled o o' bs rt st : reads_alike o o' → settled o bs rt st = settled o' bs rt st.
Proof.
  intros Ha. pose proof (alike_decode o o' bs rt (o_payload o) Ha) as Hd. pose proof Ha as (Hk & _ & _ & _ & Hp & _).
  unfold settled. rewrite <- Hp, Hd, Hk. destruct (o_kind o' =? RPC_OUTCOME_REPLY) eqn:Hr; [done|].
  unfold _transport_error. by rewrite Hk.
Qed.

(** The reply that is sent when the one the service made cannot be. *)
Definition could_not_send (o : outcome) : Prop :=
  o_kind o = RPC_OUTCOME_REPLY ∧ o_status o = Some RPC_STATUS_INTERNAL ∧ o_batch_index o = None ∧ o_completed o = None ∧
  o_payload o = [].

Lemma could_not_send_settled o bs rt st : could_not_send o → settled o bs rt st = (Raise (Exc Errors.OutcomeUnknown), st).
Proof.
  intros (Hk & Hs & Hi & Hc & Hp). unfold settled. rewrite Hk, Hp. cbn [negb Z.eqb RPC_OUTCOME_REPLY].
  unfold mbind, M_bind, _nudge. cbn [len]. change (len [] <=? SOFT_BODY) with true. cbn [lift].
  unfold lift, decode_reply, _decode_batch, _decode_typed, _decode, _reply_payload, _raise_reply, has_status.
  rewrite Hk, Hs, Hi, Hc. simpl. by destruct bs, rt.
Qed.

(** What the listener refuses with, as the caller sees it. *)
Definition refused_before (o : outcome) : Prop :=
  o_kind o = RPC_OUTCOME_REPLY ∧ o_batch_index o = None ∧ o_completed o = None ∧
  ∃ status, o_status o = Some status ∧
    status ∈ [RPC_STATUS_MALFORMED_PROTOCOL; RPC_STATUS_FENCED; RPC_STATUS_METHOD_NOT_FOUND; RPC_STATUS_CONCURRENCY_REFUSED].

Lemma refusal_refused p answers : refusal p → refused_before (outcome_from (Delivered (Received p answers))).
Proof.
  intros (st & ty & Hp & Hst). rewrite Hp. split_and!; try done. exists (status_code st). split; [done|].
  elem_cases Hst; subst st; simpl; set_solver.
Qed.

(** ** The connection in between *)

Context (owners : list Z → list blob) (d : dispatch).
Context (s : server) (enc : rpc_request → list N) (requests : nat → rpc_request).

(** The connection, and the Python process behind the listener. *)
Record stack := Stack { sk_system : Exchange.system; sk_python : serving }.

(** [Handles n]: [PythonService::dispatch] on the request of call [n].
    [WorkerFails]: its blocking task fails, or Python's answer is not the tuple
    it should be; what Python did until then is any state.  [Elsewhere]: other
    threads of the process. *)
Inductive stack_event :=
| Native (e : Exchange.event)
| Handles (n : nat)
| WorkerFails (n : nat) (q : serving)
| Elsewhere (w : W).

(** What the connection sees of a step. *)
Definition native_event (z : stack) (e : stack_event) : option Exchange.event :=
  match e with
  | Native e => Some e
  | Handles n => Some (Listener (HandlerReturns n (response_of owners (service_dispatch d (requests n) (sk_python z)).1)))
  | WorkerFails n _ => Some (Listener (HandlerReturns n internal_error))
  | Elsewhere _ => None
  end.

Definition python_after (z : stack) (e : stack_event) : serving :=
  match e with
  | Native _ => sk_python z
  | Handles n => (service_dispatch d (requests n) (sk_python z)).2
  | WorkerFails _ q => q
  | Elsewhere w => set_world w (sk_python z)
  end.

(** What a handler returns is Python's, and nobody else's. *)
Definition by_stack (e : stack_event) : bool :=
  match e with Native (Listener (HandlerReturns _ _)) => false | _ => true end.

Definition stack_step (z : stack) (e : stack_event) : option stack :=
  if by_stack e then
    y ← match native_event z e with Some e => Exchange.step s enc requests (sk_system z) e | None => Some (sk_system z) end;
    Some (Stack y (python_after z e))
  else None.

Fixpoint stack_run (z : stack) (es : list stack_event) : option stack :=
  match es with [] => Some z | e :: es => z ← stack_step z e; stack_run z es end.

Fixpoint stack_considerate (z : stack) (es : list stack_event) : bool :=
  match es with
  | [] => true
  | e :: es =>
      match native_event z e with Some e => mannerly (sk_system z) e | None => true end &&
      match stack_step z e with Some z => stack_considerate z es | None => true end
  end.

(** In the run [es] from [z], call [n] was dispatched in state [q] of the Python
    process, answered with [rep], and left it in [q']. *)
Definition handled (z : stack) (es : list stack_event) (n : nat) (q : serving) (rep : reply) (q' : serving) : Prop :=
  ∃ es1 es2 z1, es = es1 ++ Handles n :: es2 ∧ stack_run z es1 = Some z1 ∧ q = sk_python z1 ∧
    service_dispatch d (requests n) q = (rep, q').

(** The connection's part of a run. *)
Lemma stack_native es z z' :
  stack_run z es = Some z' → stack_considerate z es = true →
  ∃ ns, Exchange.run s enc requests (sk_system z) ns = Some (sk_system z') ∧
    Exchange.considerate s enc requests (sk_system z) ns = true.
Proof.
  revert z. induction es as [|e es IH]; intros z; simpl; [intros [= <-] _; by exists []|].
  destruct (stack_step z e) as [x|] eqn:Hx; [|done]. simpl. intros Hr [Hm Hc]%andb_prop.
  destruct (IH x Hr Hc) as (ns & Hrun & Hco). unfold stack_step in Hx. destruct (by_stack e); [|done].
  destruct (native_event z e) as [ne|].
  - destruct (Exchange.step s enc requests (sk_system z) ne) as [y|] eqn:Hy; [|done]. injection Hx as <-. exists (ne :: ns).
    simpl. rewrite Hy, Hm. done.
  - injection Hx as <-. by exists ns.
Qed.

Lemma returned_step y e y' :
  Exchange.step s enc requests y e = Some y' →
  sy_returned y' = sy_returned y ++ match e with Listener (HandlerReturns n v) => [(n, v)] | _ => [] end.
Proof.
  destruct e as [e|e| | |o]; cbn [Exchange.step]; intros Hs.
  - destruct (by_client _ e); [|done]. destruct (ClientConn.step (sy_link y) e); [|done].
    cbn [mbind option_bind] in Hs. injection Hs as <-. by rewrite app_nil_r.
  - destruct (by_listener y e); [|done]. destruct (NativeServer.step s (sy_world y) e); [|done].
    cbn [mbind option_bind] in Hs. injection Hs as <-. done.
  - destruct (sy_up y); [done|]. destruct (NativeServer.step s (sy_world y) _); [|done].
    cbn [mbind option_bind] in Hs. injection Hs as <-. by rewrite app_nil_r.
  - destruct (sy_down y) as [|[[n|] r] down]; [done|..];
      (destruct (ClientConn.step (sy_link y) _); [|done]; cbn [mbind option_bind] in Hs; injection Hs as <-; by rewrite app_nil_r).
  - destruct (_ && _); [|done]. destruct (ClientConn.step (sy_link y) _); [|done].
    cbn [mbind option_bind] in Hs. injection Hs as <-. by rewrite app_nil_r.
Qed.

(** What was returned to a call was returned in a step of the run. *)
Lemma returned_stack es z z' n v :
  stack_run z es = Some z' → (n, v) ∈ sy_returned (sk_system z') →
  (n, v) ∈ sy_returned (sk_system z) ∨ (∃ q rep q', handled z es n q rep q' ∧ v = response_of owners rep) ∨
  (∃ q, WorkerFails n q ∈ es) ∧ v = internal_error.
Proof.
  revert z. induction es as [|e es IH]; intros z; simpl; [intros [= <-]; by left|].
  destruct (stack_step z e) as [x|] eqn:Hx; [|done]. simpl. intros Hr Hin.
  destruct (IH x Hr Hin) as [Hi|[(q & rep & q' & (es1 & es2 & z1 & -> & Hz1 & Hq & Hd) & Hv)|((q & Hq) & Hv)]].
  - unfold stack_step in Hx. destruct (by_stack e) eqn:Hb; [|done].
    destruct (native_event z e) as [ne|] eqn:Hne; [|injection Hx as <-; by left].
    destruct (Exchange.step s enc requests (sk_system z) ne) as [y|] eqn:Hy; [|done]. injection Hx as <-. simpl in Hi.
    rewrite (returned_step _ _ _ Hy) in Hi. apply elem_of_app in Hi as [Hi|Hi]; [by left|right].
    destruct e as [e|m|m q|w]; simpl in Hne; simplify_eq.
    + by destruct ne as [|[]| | |]; try (by apply not_elem_of_nil in Hi).
    + apply list_elem_of_singleton in Hi as [= -> ->]. left. destruct (service_dispatch d (requests m) (sk_python z)) as [rep q'] eqn:Hd.
      exists (sk_python z), rep, q'. split; [|done]. by exists [], es, z.
    + apply list_elem_of_singleton in Hi as [= -> ->]. right. split; [|done]. exists q. by left.
  - right. left. exists q, rep, q'. split; [|done]. exists (e :: es1), es2, z1. split_and!; try done. simpl. by rewrite Hx.
  - right. right. split; [|done]. exists q. by right.
Qed.

Lemma internal_not_sent x p answers :
  answer_of x internal_error p → could_not_send (outcome_from (Delivered (Received p answers))).
Proof. by intros [-> |[? [-> | ->]]]. Qed.

(** A reply made from a response of the Python listener: it says the same, or
    the blobs it came with were turned down. *)
Lemma answer_reads_alike x rq q r q' p answers :
  service_dispatch d rq q = (r, q') → answer_of x (response_of owners r) p →
  reads_alike (outcome_from (Delivered (Received p answers))) (outcome_of r) ∨
  owners (r_owners r) ≠ [] ∧ could_not_send (outcome_from (Delivered (Received p answers))).
Proof.
  intros [Hlo Hhi]%python_service_status. unfold response_of. destruct (status_from_code (r_status r)) as [st|] eqn:Hst.
  - apply status_from_code_Some in Hst. intros [-> |[Hb [-> | ->]]]; [left|left|by right];
      (unfold reads_alike; simpl; rewrite Hst; split_and!; try done; intros Hn; rewrite bool_decide_false; [done|]; by intros ->).
  - exfalso. assert (r_status r ∈ [0; 1; 2; 3; 4; 5; 6; 7]) as Hin.
    { rewrite !elem_of_cons. unfold RPC_STATUS_INTERNAL in Hhi. lia. }
    elem_cases Hin; rewrite Hin in Hst; discriminate Hst.
Qed.

(** [rmp_serde] reads back what it wrote. *)
Hypothesis enc_header : ∀ p, sv_header s (enc (request_of requests p)) = Some (rq_request_id (request_of requests p)).
Hypothesis enc_request : ∀ p, sv_request s (enc (request_of requests p)) = Some (request_of requests p).
#[local] Set Default Proof Using "Type*".

(** A listener and a Python process that have just been started. *)
Definition new_stack (mc : option Z) (owned : option bool) (c v p : Z * Z) (q : serving) : stack := Stack (new_system mc owned c v p) q.

(** The outcome of a call that was given a reply. *)
Lemma outcome_traced mc owned c v p q0 (z0 := new_stack mc owned c v p q0) es z n a r :
  stack_run z0 es = Some z → stack_considerate z0 es = true →
  callers (sy_link (sk_system z)) !! n = Some a → ca_sender a = Sent (Delivered r) →
  n ∉ sy_started (sk_system z) ∧ refused_before (outcome_from (Delivered r)) ∨
  (∃ q rep q', handled z0 es n q rep q' ∧
     (reads_alike (outcome_from (Delivered r)) (outcome_of rep) ∨
      owners (r_owners rep) ≠ [] ∧ could_not_send (outcome_from (Delivered r)))) ∨
  (∃ q, WorkerFails n q ∈ es) ∧ could_not_send (outcome_from (Delivered r)).
Proof.
  intros Hrun Hco Ha Hse. destruct r as [pr ans]. destruct (stack_native _ _ _ Hrun Hco) as (ns & Hns & Hcn).
  destruct (reply_traced s enc requests enc_header enc_request mc owned c v p ns _ n a _ Hns Hcn Ha Hse)
    as [_ [[Hn Hf]|(w & Hw & Hans)]].
  - left. split; [done|]. by apply refusal_refused.
  - right. destruct (returned_stack es _ _ n w Hrun Hw) as [?%not_elem_of_nil|[(q & rep & q' & Hh & ->)|(Hq & ->)]]; [done|left|right].
    + exists q, rep, q'. split; [done|]. destruct Hh as (? & ? & ? & _ & _ & _ & Hd). by eapply answer_reads_alike.
    + split; [done|]. by eapply internal_not_sent.
Qed.

(** [rq] is the request that [invoke] sends. *)
Definition asks (h : target) (name : pystr) (payload : pyval) (timeout : timeout_arg) (bs rt : option Z) (st : rpc_state)
    (rq : call_request) : Prop :=
  request_for h name bs rq st ∧
  ∃ st', ∀ t, invoke t h name payload timeout bs rt st = settled (t rq) bs rt st'.

(** What the extension module reports when the exchange was answered. *)
Lemma answered_outcome h name payload timeout bs rt st rq request exchange o :
  asks h name payload timeout bs rt st rq → make_request rq = Some request → rpc_call_sync exchange rq = Ok o →
  o = outcome_from (exchange request).
Proof.
  intros [(Hep & _) _] Hm Hc. apply endpoint_valid in Hep. unfold rpc_call_sync in Hc. rewrite Hm, Hep in Hc. by injection Hc as <-.
Qed.

(** ** Theorems *)

(** C1: from Python to Python, in every considerate run (no id is registered
    while an earlier call with it still runs or is queued, no write of the
    listener is cut short).  A call that was given a reply ends in one of three
    ways.  The listener refused it before any handler was started.  Or it was
    dispatched in the run, in the state the Python process then had, and the
    caller is told what it would be if it were handed the very [_Reply] this
    dispatch returned; only when that reply came with blobs may it be
    [OutcomeUnknown] in its place, as the listener may have no room for them.
    Or the worker of the dispatch failed, and the caller is told
    [OutcomeUnknown]. *)
Theorem call_reaches_the_listener mc owned c v p q0 (z0 := new_stack mc owned c v p q0) es z n a r
    (transport : call_request → outcome) exchange h name payload timeout bs rt st rq :
  stack_run z0 es = Some z → stack_considerate z0 es = true →
  callers (sy_link (sk_system z)) !! n = Some a → ca_sender a = Sent (Delivered r) →
  asks h name payload timeout bs rt st rq → make_request rq = Some (requests n) → exchange (requests n) = Delivered r →
  rpc_call_sync exchange rq = Ok (transport rq) →
  let told := invoke transport h name payload timeout bs rt st in
  let unknown := ∃ st', told = (Raise (Exc Errors.OutcomeUnknown), st') in
  n ∉ sy_started (sk_system z) ∧ refused_before (transport rq) ∨
  (∃ q rep q', handled z0 es n q rep q' ∧
     (told = invoke (λ _, outcome_of rep) h name payload timeout bs rt st ∨ owners (r_owners rep) ≠ [] ∧ unknown)) ∨
  (∃ q, WorkerFails n q ∈ es) ∧ unknown.
Proof.
  intros Hrun Hco Ha Hse Has Hm Hex Hc told unknown. pose proof (answered_outcome _ _ _ _ _ _ _ _ _ _ _ Has Hm Hc) as Ho.
  rewrite Hex in Ho. rewrite Ho. destruct Has as [_ (st1 & Hinv)].
  assert (could_not_send (transport rq) → unknown) as Hun.
  { intros Hn. exists st1. unfold told. rewrite Hinv. by apply could_not_send_settled. }
  rewrite Ho in Hun. destruct (outcome_traced _ _ _ _ _ _ _ _ _ _ _ Hrun Hco Ha Hse) as [?|[(q & rep & q' & Hh & Hal)|[? ?]]];
    [by left|right; left|right; right; auto].
  exists q, rep, q'. split; [done|]. destruct Hal as [Hal|[? ?]]; [left|right; auto].
  unfold told. rewrite !Hinv, Ho. by apply alike_settled.
Qed.

(** C2: the whole stack, in the same runs: when [invoke] raises [NotDelivered] for
    a call that was given a reply, the listener had started no handler for it,
    or the dispatch of it in this run entered no method of the served object: it
    may be made again. *)
Theorem not_delivered_means_nothing_ran `{!CodecLaws H} mc owned c v p q0 (z0 := new_stack mc owned c v p q0) es z n a r
    (transport : call_request → outcome) exchange h name payload timeout bs rt st rq e st' :
  stack_run z0 es = Some z → stack_considerate z0 es = true →
  callers (sy_link (sk_system z)) !! n = Some a → ca_sender a = Sent (Delivered r) →
  asks h name payload timeout bs rt st rq → make_request rq = Some (requests n) → exchange (requests n) = Delivered r →
  rpc_call_sync exchange rq = Ok (transport rq) →
  invoke transport h name payload timeout bs rt st = (Raise e, st') → class_of e = Errors.NotDelivered →
  n ∉ sy_started (sk_system z) ∨
  ∃ q rep q', handled z0 es n q rep q' ∧ sv_ran q' = sv_ran q.
Proof.
  intros Hrun Hco Ha Hse Has Hm Hex Hc Hi Hcl. pose proof (answered_outcome _ _ _ _ _ _ _ _ _ _ _ Has Hm Hc) as Ho.
  rewrite Hex in Ho. destruct Has as [_ (st1 & Hinv)]. rewrite Hinv, Ho in Hi.
  assert (¬ could_not_send (outcome_from (Delivered r))) as Hcan.
  { intros Hno. rewrite could_not_send_settled in Hi by done. by simplify_res. }
  destruct (outcome_traced _ _ _ _ _ _ _ _ _ _ _ Hrun Hco Ha Hse) as [[? _]|[(q & rep & q' & Hh & [Hal|[_ ?]])|[_ ?]]];
    [by left| |done|done].
  right. exists q, rep, q'. split; [done|]. destruct Hh as (_ & _ & _ & _ & _ & _ & Hq).
  rewrite (alike_settled _ _ _ _ _ Hal) in Hi. destruct (settled_not_delivered _ _ _ _ _ _ Hi Hcl) as [?|[_ Hst]]; [done|].
  assert (r_status rep ∈ [RPC_STATUS_CONCURRENCY_REFUSED; RPC_STATUS_MALFORMED_PROTOCOL]) as Hin.
  { simpl in Hst. destruct Hst as [[= ->]|[= ->]]; set_solver. }
  eapply python_service_refused; [exact Hq| |by right]. set_solver.
Qed.

End Stack.

(** ** A call to try things on *)

Definition stack_payload : pyval := VDict [(VStr (u "args"), VList [VInt 7]); (VStr (u "kwargs"), VDict [])].

(** What [engine.add(7)] sends. *)
Definition stack_rq : call_request :=
  CallRequest (u "10.0.0.7:4000") (u "driver/0#3-1") (u "driver/0#3") (u "engine/2#7")
    (default [] (enc_value stack_payload)) 2000 (Some (u "add")) None [].

Definition stack_request : rpc_request := default (request_blob_ack []) (make_request stack_rq).
Definition stack_requests (n : nat) : rpc_request := stack_request.

(** Its encoding, as far as this listener reads it. *)
Definition stack_enc (rq : rpc_request) : list N :=
  (if bool_decide (rq_operation rq = BlobAck) then 1 else 0)%N :: rq_request_id rq.
Definition stack_dec (bytes : list N) : option rpc_request :=
  match bytes with 1%N :: x => Some (request_blob_ack x) | _ => Some stack_request end.

Definition stack_listener : server :=
  Server (u "engine/2#7") [u "add"; u "boom"] (λ b, rq_request_id <$> stack_dec b) stack_dec
    (λ r, Some (rp_request_id r ++ rp_payload r)) 64 1000.

Lemma stack_dec_enc p : sv_request stack_listener (stack_enc (request_of stack_requests p)) = Some (request_of stack_requests p).
Proof. by destruct p. Qed.

Lemma stack_header_enc p :
  sv_header stack_listener (stack_enc (request_of stack_requests p)) = Some (rq_request_id (request_of stack_requests p)).
Proof. by destruct p. Qed.

Definition stack_out : list Exchange.event :=
  map Client (calls 0 (u "driver/0#3-1") ++ [Receive; WriteDone; Mark]) ++
  map Listener [LoopCheck; LoopReady] ++ [Reads] ++ map Listener [Decide; CheckLease; CheckOwner; Claim; Acquire].

Notation sample_stack := (@stack sample_codec Z).
Notation sample_stack_event := (@stack_event sample_codec Z).

(** The call is served. *)
Definition stack_events : list sample_stack_event :=
  map Native (stack_out ++ map Listener [Spawn 0; TaskStart 0]) ++ [Handles 0] ++
  map Native (map Listener [TaskAnswer 0; TaskWrite 0 Whole] ++ [Delivers; Client Route]).

(** Another connection has the only permit, and the call is refused. *)
Definition stack_busy : list sample_stack_event :=
  map Native (Listener OthersStart :: stack_out ++ map Listener [Unclaim; LoopWrite Whole] ++ [Delivers; Client Route]).

Definition stack_start : sample_stack := new_stack (Some 1) None (10, 1000) (10, 1000) (10, 1000) sample_start.
Definition stack_after (es : list sample_stack_event) : sample_stack :=
  default stack_start
    (@stack_run sample_codec sample_text Z (λ _, []) sample_dispatch stack_listener stack_enc stack_requests stack_start es).

Definition stack_reply (es : list sample_stack_event) : received :=
  match ca_sender (sample_caller (sy_link (sk_system (stack_after es))) 0) with
  | Sent (Delivered r) => r
  | _ => Received (reply_success [] []) None
  end.

Definition stack_transport (es : list sample_stack_event) (q : call_request) : outcome := outcome_from (Delivered (stack_reply es)).

Lemma stack_asks : @asks sample_codec sample_target (u "add") stack_payload (TInt 2) None None sample_state stack_rq.
Proof.
  split; [by vm_compute|]. exists (RpcState (u "driver/0#3") 2 None false []). intros t.
  assert (@_prepare sample_codec sample_target stack_payload sample_state =
    (Ok (rq_endpoint stack_rq, rq_body stack_rq, rq_request stack_rq, []), RpcState (u "driver/0#3") 2 None false [])) as Hp
    by (vm_compute; reflexivity).
  assert (∀ x, _nudge (len (rq_body stack_rq)) x = (Ok tt, x)) as Hn by done.
  unfold invoke, settled. rewrite M_bind_unfold, Hp. cbn [mbind]. unfold M_bind at 1.
  unfold _native_sync. unfold mbind, M_bind, lift, gets. cbn [rpc_endpoint].
  change (rpc_endpoint (t_url sample_target)) with (Ok (rq_endpoint stack_rq) : res pystr).
  change (_timeout_ms (TInt 2)) with (Ok 2000 : res Z). cbn [rs_identity].
  rewrite Hn. cbn [rs_identity]. change (CallRequest _ _ _ _ _ _ _ _ _) with stack_rq. by destruct (negb _).
Qed.

(** [add] was dispatched in the state the process started in, and the caller
    is given what it returned, 1. *)
Lemma call_reaches_the_listener_witness :
  @invoke sample_codec (stack_transport stack_events) sample_target (u "add") stack_payload (TInt 2) None None sample_state =
    (Ok (VInt 1), RpcState (u "driver/0#3") 2 None false []) ∧
  ∃ q rep q', @handled sample_codec sample_text Z (λ _, []) sample_dispatch stack_listener stack_enc stack_requests
      stack_start stack_events 0 q rep q' ∧
    @invoke sample_codec (stack_transport stack_events) sample_target (u "add") stack_payload (TInt 2) None None sample_state =
    @invoke sample_codec (λ _, outcome_of rep) sample_target (u "add") stack_payload (TInt 2) None None sample_state.
Proof.
  split; [vm_compute; reflexivity|].
  destruct (@call_reaches_the_listener sample_codec sample_text Z (λ _, []) sample_dispatch stack_listener stack_enc stack_requests
    stack_header_enc stack_dec_enc (Some 1) None (10, 1000) (10, 1000) (10, 1000) sample_start stack_events (stack_after stack_events) 0
    (sample_caller (sy_link (sk_system (stack_after stack_events))) 0) (stack_reply stack_events) (stack_transport stack_events)
    (λ _, Delivered (stack_reply stack_events)) sample_target (u "add") stack_payload (TInt 2) None None sample_state stack_rq)
    as [[Hn _]|[(q & rep & q' & Hh & [Hi|[Hb _]])|[(q & Hq) _]]];
    [vm_compute; reflexivity|vm_compute; reflexivity|vm_compute; reflexivity|vm_compute; reflexivity|exact stack_asks
    |vm_compute; reflexivity|reflexivity|reflexivity|..].
  - destruct Hn. vm_compute. by left.
  - exists q, rep, q'. by split.
  - done.
  - unfold stack_events in Hq. apply elem_of_app in Hq as [Hq|[Hq|Hq]%elem_of_app].
    + by apply list_elem_of_fmap in Hq as (? & [=] & _).
    + by apply list_elem_of_singleton in Hq.
    + by apply list_elem_of_fmap in Hq as (? & [=] & _).
Defined.

Lemma not_delivered_means_nothing_ran_witness :
  0%nat ∉ sy_started (sk_system (stack_after stack_busy)) ∨
  ∃ q rep q', @handled sample_codec sample_text Z (λ _, []) sample_dispatch stack_listener stack_enc stack_requests
      stack_start stack_busy 0 q rep q' ∧ sv_ran q' = sv_ran q.
Proof.
  apply (@not_delivered_means_nothing_ran sample_codec sample_text Z (λ _, []) sample_dispatch stack_listener stack_enc stack_requests
    stack_header_enc stack_dec_enc sample_laws (Some 1) None (10, 1000) (10, 1000) (10, 1000) sample_start stack_busy (stack_after stack_busy) 0
    (sample_caller (sy_link (sk_system (stack_after stack_busy))) 0) (stack_reply stack_busy) (stack_transport stack_busy)
    (λ _, Delivered (stack_reply stack_busy)) sample_target (u "add") stack_payload (TInt 2) None None sample_state stack_rq
    (Exc Errors.NotDelivered) (RpcState (u "driver/0#3") 2 None false []));
    [vm_compute; reflexivity..|exact stack_asks|vm_compute; reflexivity|reflexivity|reflexivity|vm_compute; reflexivity|reflexivity].
Defined.
