(* ===== verification/MethodServer.v ===== *)
(** * The listener object: [scan], [Counters] and [MethodServer] of [_serve.py]

    What an object serves, the counters of the serving loop, and the life of
    the listener: created, advertised under endpoints, closed or abandoned.
    The native listener and the connection pool are reached through a log of
    the calls made to them. *)

From S2P Require Import Prelude PyStr PyFloat Errors Identity Config RequestId Codec Rpc Binding Serve.

Local Open Scope Z_scope.

(** ** [MethodServer] *)

(** The calls into the extension module. *)
Inductive native_call :=
| NativeListen (methods : list pystr) (host : pystr) (limit : option Z)
| NativeClose
| NativeAbandon
| NativeDrop (endpoint : pystr).

Record method_server (F : Type) := MethodServer {
  ms_dispatch : list (pystr * F);
  ms_identity : pystr;
  ms_limit : option Z;
  ms_port : Z;
  ms_endpoints : gset pystr;
  ms_closed : bool
}.
Arguments MethodServer {F} _ _ _ _ _ _.
Arguments ms_dispatch {F} _.
Arguments ms_identity {F} _.
Arguments ms_limit {F} _.
Arguments ms_port {F} _.
Arguments ms_endpoints {F} _.
Arguments ms_closed {F} _.

(** Lexicographic order of strings, and [sorted]. *)
Fixpoint str_le (a b : pystr) : bool :=
  match a, b with
  | [], _ => true
  | _ :: _, [] => false
  | x :: a', y :: b' => (x <? y)%N || ((x =? y)%N && str_le a' b')
  end.

Fixpoint insert_sorted (x : pystr) (l : list pystr) : list pystr :=
  match l with
  | [] => [x]
  | y :: l' => if str_le x y then x :: l else y :: insert_sorted x l'
  end.

Definition sorted (l : list pystr) : list pystr := foldr insert_sorted [] l.

Section Server.
Context {F : Type}.
Implicit Types m : method_server F.

(** [MethodServer.__init__]; [port] is what the listener was bound to. *)
Definition new_method_server (attrs : list (attribute F)) (identity host : pystr)
    (max_concurrency : option Z) (port : Z) : res (method_server F * list native_call) :=
  if match max_concurrency with Some n => n <=? 0 | None => false end then Raise (Exc ValueError)
  else
    table ← scan attrs;
    Ok (MethodServer table identity max_concurrency port ∅ false,
        [NativeListen (sorted table.*1) host max_concurrency]).

(** [methods] *)
Definition methods m : list pystr := sorted (ms_dispatch m).*1.

(** [track_endpoint] *)
Definition track_endpoint (endpoint : pystr) m : method_server F :=
  MethodServer (ms_dispatch m) (ms_identity m) (ms_limit m) (ms_port m)
    ({[endpoint]} ∪ ms_endpoints m) (ms_closed m).

(** [url] *)
Definition url (advertise : pystr) m : pystr * method_server F :=
  let endpoint := server_url advertise (ms_port m) in (endpoint, track_endpoint endpoint m).

(** [close] *)
Definition close m : method_server F * list native_call :=
  if ms_closed m then (m, [])
  else (MethodServer [] (ms_identity m) (ms_limit m) (ms_port m) ∅ true,
        NativeClose :: map NativeDrop (elements (ms_endpoints m))).

(** [abandon] *)
Definition abandon m : method_server F * list native_call :=
  (MethodServer (ms_dispatch m) (ms_identity m) (ms_limit m) (ms_port m) (ms_endpoints m) true,
   [NativeAbandon]).

(** What can be done with a listener, in any order. *)
Inductive server_op := OpUrl (advertise : pystr) | OpTrack (endpoint : pystr) | OpClose | OpAbandon.

Definition server_step m (o : server_op) : method_server F * list native_call :=
  match o with
  | OpUrl a => ((url a m).2, [])
  | OpTrack e => (track_endpoint e m, [])
  | OpClose => close m
  | OpAbandon => abandon m
  end.

Fixpoint server_run m (ops : list server_op) : method_server F * list native_call :=
  match ops with
  | [] => (m, [])
  | o :: ops' => let '(m1, l1) := server_step m o in
                 let '(m2, l2) := server_run m1 ops' in (m2, l1 ++ l2)
  end.

Definition is_close (c : native_call) : bool := match c with NativeClose => true | _ => false end.

(** ** Lemmas *)

Lemma closed_stays m ops :
  ms_closed m = true → ms_closed (server_run m ops).1 = true ∧
  Forall (λ c, c = NativeAbandon) (server_run m ops).2.
Proof.
  revert m. induction ops as [|o ops IH]; intros m Hm; simpl; [by split|].
  destruct (server_step m o) as [m1 l1] eqn:Hs.
  assert (ms_closed m1 = true ∧ Forall (λ c, c = NativeAbandon) l1) as [H1 H2].
  { destruct o; simpl in Hs; unfold close, abandon in Hs; rewrite ?Hm in Hs; injection Hs as <- <-; simpl;
      by rewrite ?Forall_nil, ?Forall_singleton. }
  destruct (IH m1 H1) as [H3 H4]. destruct (server_run m1 ops) as [m2 l2]. simpl in *.
  split; [done|]. by apply Forall_app.
Qed.

(** The endpoints a listener published so far. *)
Fixpoint published m (ops : list server_op) : gset pystr :=
  match ops with
  | [] => ∅
  | OpUrl a :: ops' => {[server_url a (ms_port m)]} ∪ published m ops'
  | OpTrack e :: ops' => {[e]} ∪ published m ops'
  | _ :: ops' => published m ops'
  end.

Definition no_end (o : server_op) : bool :=
  match o with OpClose | OpAbandon => false | _ => true end.

Lemma published_port m m' ops : ms_port m = ms_port m' → published m ops = published m' ops.
Proof. intros Hp. induction ops as [|[] ops IH]; simpl; by rewrite ?Hp, ?IH. Qed.

Lemma open_run m ops :
  Forall (λ o, no_end o = true) ops →
  server_run m ops = (MethodServer (ms_dispatch m) (ms_identity m) (ms_limit m) (ms_port m)
                        (published m ops ∪ ms_endpoints m) (ms_closed m), []).
Proof.
  revert m. induction ops as [|o ops IH]; intros m HF; simpl.
  { rewrite union_empty_l_L. by destruct m. }
  apply Forall_cons in HF as [Ho HF]. destruct o; try done; simpl; rewrite IH by done; simpl.
  - rewrite (published_port _ m) by done. do 2 f_equal. set_solver.
  - rewrite (published_port _ m) by done. do 2 f_equal. set_solver.
Qed.

(** ** Properties *)

(** Closing releases everything once: after any sequence of advertisements
    the first [close] stops the native listener, forgets the methods and drops
    exactly the endpoints that were published; whatever is called afterwards
    never closes or drops anything again. *)
Theorem close_releases_once m (before after : list server_op) :
  ms_closed m = false → ms_endpoints m = ∅ → Forall (λ o, no_end o = true) before →
  let '(m', log) := server_run m (before ++ OpClose :: after) in
  ms_closed m' = true ∧
  ∃ dropped rest, log = NativeClose :: map NativeDrop dropped ++ rest ∧
    NoDup dropped ∧ (∀ e, e ∈ dropped ↔ e ∈ published m before) ∧
    Forall (λ c, c = NativeAbandon) rest.
Proof.
  intros Hc He HF.
  assert (∀ m l1 l2, server_run m (l1 ++ l2) =
    ((server_run (server_run m l1).1 l2).1, (server_run m l1).2 ++ (server_run (server_run m l1).1 l2).2))
    as Happ.
  { clear. intros m l1. revert m. induction l1 as [|o l1 IH]; intros m l2; simpl.
    { by destruct (server_run m l2). }
    destruct (server_step m o) as [m1 k1]. rewrite IH.
    destruct (server_run m1 l1) as [m2 k2]. simpl. by rewrite app_assoc. }
  rewrite Happ, (open_run m before HF). simpl. unfold close. simpl. rewrite Hc, He. simpl.
  rewrite union_empty_r_L.
  set (m1 := MethodServer [] _ _ _ _ true).
  destruct (closed_stays m1 after eq_refl) as [H1 H2].
  destruct (server_run m1 after) as [m2 rest]. simpl in *. split; [done|].
  exists (elements (published m before)), rest. split_and!; [done|apply NoDup_elements|set_solver|done].
Qed.
End Server.

(** [url], [url], [close], then a second [close]. *)
Lemma close_releases_once_witness :
  let m : method_server unit := MethodServer [(u "step", tt)] (u "engine/0#1") None 4000 ∅ false in
  let '(m', log) := server_run m ([OpUrl (u "10.0.0.1")] ++ OpClose :: [OpClose; OpAbandon]) in
  ms_closed m' = true ∧
  ∃ dropped rest, log = NativeClose :: map NativeDrop dropped ++ rest ∧
    NoDup dropped ∧ (∀ e, e ∈ dropped ↔ e ∈ published m [OpUrl (u "10.0.0.1")]) ∧
    Forall (λ c, c = NativeAbandon) rest.
Proof.
  apply (close_releases_once
    (MethodServer [(u "step", tt)] (u "engine/0#1") None 4000 ∅ false) [OpUrl (u "10.0.0.1")]
    [OpClose; OpAbandon]); [reflexivity|reflexivity|repeat constructor].
Defined.

(** ** What is served *)

(** Attributes that look alike to [scan]: the same name and static form, and the
    same value unless the static form is neither callable nor a classmethod. *)
Definition scan_alike {F} (a b : attribute F) : Prop :=
  at_name a = at_name b ∧ at_static a = at_static b ∧
  (at_static a ≠ Static false false → at_get a = at_get b).

Lemma scanned_alike {F} (a b : attribute F) : scan_alike a b → scanned a = scanned b.
Proof.
  intros (_ & Hs & Hg). unfold scanned. rewrite <-Hs.
  destruct (at_static a) as [|[] []]; simpl; rewrite ?Hg by done; done.
Qed.

Lemma scan_spec {F} (attrs : list (attribute F)) out :
  scan attrs = Ok out →
  Forall (λ nf, public_name nf.1 = true) out ∧
  ∀ n f, (n, f) ∈ out ↔ ∃ a l, a ∈ attrs ∧ at_name a = n ∧ startswith (u "_") n = false ∧
    scanned a = Ok (Some l) ∧ la_callable l = true ∧ la_is_type l = false ∧ la_value l = f.
Proof.
  revert out. induction attrs as [|a attrs IH]; intros out Hs; cbn [scan] in Hs.
  { simplify_res. split; [constructor|]. intros n f. split; [by intros ?%not_elem_of_nil|].
    by intros (a & l & ?%not_elem_of_nil & _). }
  assert (∀ out', scan attrs = Ok out' → out = out' →
    (∀ l, startswith (u "_") (at_name a) = false → scanned a = Ok (Some l) →
       la_callable l = true → la_is_type l = false → False) →
    Forall (λ nf, public_name nf.1 = true) out ∧
    ∀ n f, (n, f) ∈ out ↔ ∃ b l, b ∈ a :: attrs ∧ at_name b = n ∧ startswith (u "_") n = false ∧
      scanned b = Ok (Some l) ∧ la_callable l = true ∧ la_is_type l = false ∧ la_value l = f) as Hskip.
  { intros out' Ho -> Hno. destruct (IH _ Ho) as [H1 H2]. split; [done|].
    intros n f. rewrite H2. split.
    - intros (b & l & Hb & ?). exists b, l. split; [by right|done].
    - intros (b & l & [->|Hb]%elem_of_cons & Hr); [|by exists b, l].
      destruct Hr as (<- & ? & ? & ? & ? & ?). by destruct (Hno l). }
  destruct (startswith (u "_") (at_name a)) eqn:Hu; [apply (Hskip out); [done|done|congruence]|].
  apply bind_ok in Hs as (got & Hg & Hs). destruct got as [l|]; [|apply (Hskip out); congruence].
  destruct (la_callable l) eqn:Hc, (la_is_type l) eqn:Ht; simpl in Hs;
    try (apply (Hskip out); [done|done|intros ? _ [= <-]%(eq_trans (eq_sym Hg)); congruence]).
  destruct (isascii (at_name a) && isidentifier (at_name a)) eqn:Hn; [|done]. simpl in Hs.
  apply bind_ok in Hs as (out' & Ho & Hs). injection Hs as <-.
  destruct (IH _ Ho) as [H1 H2]. split.
  - constructor; [|done]. simpl. unfold public_name. by rewrite Hn, Hu.
  - intros n f. rewrite elem_of_cons, H2. split.
    + intros [[= -> ->]|(b & l' & Hb & ?)].
      * exists a, l. split; [left|done].
      * exists b, l'. split; [by right|done].
    + intros (b & l' & [->|Hb]%elem_of_cons & Hr); [|right; by exists b, l'].
      left. destruct Hr as (<- & _ & Hg' & _ & _ & <-). congruence.
Qed.

(** What an object serves.  Exactly its public attributes that are callable
    and not classes, each under a name that a batch may call; and building
    the table never evaluates a property: two objects that differ only in what
    their non-callable attributes evaluate to serve the same. *)
Theorem scan_serves {F} (attrs attrs' : list (attribute F)) (out : list (pystr * F)) :
  scan attrs = Ok out → Forall2 scan_alike attrs attrs' →
  scan attrs' = Ok out ∧ Forall (λ nf, public_name nf.1 = true) out ∧
  ∀ n f, (n, f) ∈ out ↔ ∃ a l, a ∈ attrs ∧ at_name a = n ∧ startswith (u "_") n = false ∧
    scanned a = Ok (Some l) ∧ la_callable l = true ∧ la_is_type l = false ∧ la_value l = f.
Proof.
  intros Hs HF. split; [|by apply scan_spec]. rewrite <-Hs. clear Hs.
  induction HF as [|a b attrs attrs' Hab HF IH]; simpl; [done|].
  rewrite <-(scanned_alike _ _ Hab), IH. destruct Hab as [-> _]. done.
Qed.

(** An object with a method, a property, a private method and a nested class. *)
Definition sample_attributes (v : Z) : list (attribute Z) :=
  [Attribute (u "Inner") (Static true false) (Some (LiveAttr true true 0));
   Attribute (u "_private") (Static true false) (Some (LiveAttr true false 1));
   Attribute (u "size") (Static false false) (Some (LiveAttr false false v));
   Attribute (u "step") (Static true false) (Some (LiveAttr true false 2))].

Lemma scan_serves_witness :
  scan (sample_attributes 9) = Ok [(u "step", 2)] ∧
  Forall (λ nf, public_name nf.1 = true) [(u "step", 2)] ∧
  ∀ n f, (n, f) ∈ [(u "step", 2)] ↔
    ∃ a l, a ∈ sample_attributes 5 ∧ at_name a = n ∧ startswith (u "_") n = false ∧
      scanned a = Ok (Some l) ∧ la_callable l = true ∧ la_is_type l = false ∧ la_value l = f.
Proof.
  apply (scan_serves (sample_attributes 5) (sample_attributes 9)); [vm_compute; reflexivity|].
  repeat constructor; simpl; intros Hne; congruence.
Defined.

(** ** Counting *)

(** What the serving loop reports, in any interleaving of calls. *)
Inductive count_event := Entered | Answered (failed : bool) | Left (spent_ns : Z) | Refused.

Definition count (c : counters) (e : count_event) : counters :=
  match e with
  | Entered => entered c
  | Answered f => answered f c
  | Left ns => left_ ns c
  | Refused => refuse c
  end.

Definition in_flight_after (es : list count_event) : Z :=
  foldr (λ e n, match e with Entered => n + 1 | Left _ => n - 1 | _ => n end) 0 es.

Definition count_of (f : count_event → bool) (es : list count_event) : Z := len (List.filter f es).

Lemma count_of_snoc f es e : count_of f (es ++ [e]) = count_of f es + Z.b2z (f e).
Proof.
  unfold count_of, len. rewrite List.filter_app, length_app. simpl. destruct (f e); simpl; lia.
Qed.

Lemma in_flight_snoc es e :
  in_flight_after (es ++ [e]) = in_flight_after es + in_flight_after [e].
Proof. unfold in_flight_after. induction es as [|[] es IH]; simpl in *; lia. Qed.

Definition is_answer (e : count_event) : bool := match e with Answered _ => true | _ => false end.
Definition is_failure (e : count_event) : bool := match e with Answered f => f | _ => false end.
Definition is_refusal (e : count_event) : bool := match e with Refused => true | _ => false end.

(** The serving counters are exact after any sequence of reports: calls,
    failures and refusals are the numbers reported, [in_flight] is how many
    calls were entered and not left, and [peak_in_flight] is reached by some
    moment and exceeded by none. *)
Theorem counters_exact (es : list count_event) :
  let c := fold_left count es new_counters in
  ct_calls c = count_of is_answer es ∧ ct_failed c = count_of is_failure es ∧
  ct_refused c = count_of is_refusal es ∧ ct_in_flight c = in_flight_after es ∧
  (∀ k, in_flight_after (take k es) ≤ ct_peak c) ∧
  (∃ k, in_flight_after (take k es) = ct_peak c).
Proof.
  induction es as [|e es IH] using rev_ind; simpl.
  { split_and!; try done; [intros [|k]; simpl; lia|by exists 0%nat]. }
  rewrite fold_left_app. simpl. set (c := fold_left count es new_counters) in *.
  destruct IH as (H1 & H2 & H3 & H4 & H5 & [k Hk]).
  rewrite !count_of_snoc, in_flight_snoc, <-H1, <-H2, <-H3, <-H4.
  split_and!; [destruct e as [|[]| |]; simpl; lia..| |].
  - intros j. destruct (decide (j <= length es)%nat) as [Hj|Hj].
    + rewrite take_app_le by done. specialize (H5 j). destruct e; simpl; lia.
    + rewrite take_ge by (rewrite length_app; simpl; lia). rewrite in_flight_snoc, <-H4.
      specialize (H5 (length es)). rewrite take_ge, <-H4 in H5 by done.
      destruct e; simpl in *; lia.
  - assert (∃ j, (j <= length es)%nat ∧ in_flight_after (take j es) = ct_peak c) as (j & Hj & Hp).
    { destruct (decide (k <= length es)%nat) as [?|?]; [by exists k|].
      exists (length es). rewrite take_ge in Hk by lia. by rewrite take_ge. }
    destruct e; simpl; try (exists j; by rewrite take_app_le).
    destruct (Z.max_spec (ct_peak c) (ct_in_flight c + 1)) as [[_ ->]|[_ ->]].
    + exists (length (es ++ [Entered])). rewrite take_ge, in_flight_snoc, <-H4 by done. simpl. lia.
    + exists j. by rewrite take_app_le.
Qed.
