(* ===== verification/Objects.v ===== *)
(** * Python objects and types as [_msgpack.py] looks at them

    The heap of application objects, identified by [id()], with the two
    worklists that walk it; and the graph of type expressions with the two
    searches over it. *)

From S2P Require Import Prelude PyStr PyFloat Errors Graph.

Local Open Scope Z_scope.

(** ** Types *)

(** A type expression: what the module asks of it. *)
Record type_node := TypeNode {
  tn_is_type : bool;
  tn_attrs : list pystr;
  tn_mro_modules : list pystr;
  tn_args : list nat;
  tn_is_dataclass : bool;
  tn_type_hints : option (list nat);
  tn_annotations : list nat
}.

Definition tn_hasattr (t : type_node) (name : pystr) : bool := bool_decide (name ∈ tn_attrs t).

(** [_is_pydantic_type] *)
Definition _is_pydantic_type (t : type_node) : bool :=
  tn_is_type t &&
  (tn_hasattr t (u "__pydantic_validator__") || tn_hasattr t (u "__pydantic_core_schema__") ||
   tn_hasattr t (u "__pydantic_model__") ||
   (tn_hasattr t (u "model_fields") && tn_hasattr t (u "model_validate")) ||
   existsb (startswith (u "pydantic.")) (tn_mro_modules t)).

Section Types.
Context (types : list type_node).

(** [id()] of each part of the type expressions: the hints that
    [get_type_hints] evaluates are gone when the call that made them returns,
    and their numbers may be taken again. *)
Context (ident : nat → nat).

(** [typing.get_type_hints(value)], or the raw annotations when it fails. *)
Definition annotation_types (t : type_node) : list nat := default (tn_annotations t) (tn_type_hints t).

(** What [_contains_pydantic_type] decides at once, and where it looks next. *)
Definition pydantic_verdict (v : nat) : option bool :=
  match types !! v with
  | None => Some false
  | Some t => if _is_pydantic_type t then Some true else None
  end.

Definition pydantic_children (v : nat) : list nat :=
  match types !! v with
  | None => []
  | Some t => tn_args t ++ (if negb (tn_is_type t) || negb (tn_is_dataclass t) then []
                            else annotation_types t)
  end.

(** [_contains_pydantic_type] with an empty [seen] set ([_uses_pydantic_type]). *)
Definition _contains_pydantic_type (v : nat) : option bool :=
  fst <$> search pydantic_verdict pydantic_children ident (length types + 2) [] v.

(** What [_contains_dataclass] decides at once, and where it looks next. *)
Definition dataclass_verdict (v : nat) : option bool :=
  match types !! v with
  | None => Some false
  | Some t => if _is_pydantic_type t then Some false
              else if tn_is_type t && tn_is_dataclass t then Some true else None
  end.

Definition dataclass_children (v : nat) : list nat :=
  match types !! v with
  | None => []
  | Some t => tn_args t ++ (if negb (tn_is_type t) || bool_decide (tn_annotations t = []) then []
                            else annotation_types t)
  end.

(** [_contains_dataclass] with an empty [seen] set ([is_model_type]). *)
Definition _contains_dataclass (v : nat) : option bool :=
  fst <$> search dataclass_verdict dataclass_children ident (length types + 2) [] v.

(** [_reject_pydantic_type], which is [validate_type]. *)
Definition _reject_pydantic_type (v : nat) : option (res unit) :=
  (λ b : bool, if b then Raise (Exc TypeError) else Ok tt) <$> _contains_pydantic_type v.
End Types.

(** ** Objects *)

Inductive seq_kind := KList | KTuple | KSet | KFrozenset.

#[global] Instance seq_kind_eq_dec : EqDecision seq_kind.
Proof. solve_decision. Defined.

(** The content of an object: an atom msgspec encodes by itself, an integer, a
    sequence or dict ([exact] when its type is the builtin itself and not a
    subclass), an instance of a dataclass, a [BlobRef], or something no
    encoder takes. *)
Inductive body :=
| BAtom
| BInt (z : Z)
| BSeq (k : seq_kind) (exact : bool) (items : list nat)
| BDict (exact : bool) (pairs : list (nat * nat))
| BData (fields : list (pystr * nat))
| BBlob (closed : bool)
| BOther.

(** An object: whether [_is_pydantic_type(type(value))], and its content. *)
Record object := Object { ob_pydantic : bool; ob_body : body }.

Notation heap := (list object).

Section Walks.
Context (h : heap).

(** [pending.extend(d.keys()); pending.extend(d.values())] *)
Definition dict_children (pairs : list (nat * nat)) : list nat := pairs.*1 ++ pairs.*2.

(** One turn of [_reject_pydantic_values]. *)
Definition look_pydantic (x : nat) : visit exn :=
  match h !! x with
  | None => Skip
  | Some o =>
      if ob_pydantic o then Fail (Exc TypeError)
      else match ob_body o with
           | BSeq _ true items => Expand items
           | BDict true pairs => Expand (dict_children pairs)
           | BData fields => Expand fields.*2
           | _ => Skip
           end
  end.

(** One turn of [blob_refs]. *)
Definition look_blob (x : nat) : visit exn :=
  match h !! x with
  | None => Skip
  | Some o =>
      match ob_body o with
      | BBlob true => Fail (Exc BlobError)
      | BBlob false => Emit
      | BSeq _ _ items => Expand items
      | BDict _ pairs => Expand (dict_children pairs)
      | BData fields => Expand fields.*2
      | _ => Skip
      end
  end.

(** The fuel of a walk: one step per object pushed. *)
Definition walk_fuel (look : nat → visit exn) : nat := S (edges_left look (length h) []).

(** [_reject_pydantic_values]; [imported] is ["pydantic" in sys.modules]. *)
Definition _reject_pydantic_values (imported : bool) (x : nat) : option (res unit) :=
  if negb imported then Some (Ok tt)
  else (λ r : res (list nat), _ ← r; Ok tt) <$> walk look_pydantic (walk_fuel look_pydantic) [x] [] [].

(** [blob_refs] *)
Definition blob_refs (x : nat) : option (res (list nat)) :=
  walk look_blob (walk_fuel look_blob) [x] [] [].
End Walks.

(** ** Properties *)

Lemma expanded_out {E} (look : nat → visit E) n :
  (∀ x, (n <= x)%nat → look x = Skip) → ∀ x, (n <= x)%nat → expanded look x = [].
Proof. intros Hs x Hx. unfold expanded. by rewrite Hs. Qed.

(** A Pydantic type occurs in a type expression: as the expression itself, in
    one of its type arguments, or in the annotation of a field when it is a
    dataclass, evaluated if it can be. *)
Inductive pydantic_occurs (types : list type_node) : nat → Prop :=
| occurs_here v t :
    types !! v = Some t → _is_pydantic_type t = true → pydantic_occurs types v
| occurs_arg v t a :
    types !! v = Some t → a ∈ tn_args t → pydantic_occurs types a → pydantic_occurs types v
| occurs_hint v t hints a :
    types !! v = Some t → tn_is_type t = true → tn_is_dataclass t = true →
    tn_type_hints t = Some hints → a ∈ hints → pydantic_occurs types a → pydantic_occurs types v
| occurs_annotation v t a :
    types !! v = Some t → tn_is_type t = true → tn_is_dataclass t = true →
    tn_type_hints t = None → a ∈ tn_annotations t → pydantic_occurs types a → pydantic_occurs types v.

Lemma occurs_child types v t a :
  types !! v = Some t → a ∈ pydantic_children types v → pydantic_occurs types a → pydantic_occurs types v.
Proof.
  unfold pydantic_children. intros Ht. rewrite Ht. intros [Ha|Ha]%elem_of_app Ho; [by eapply occurs_arg|].
  destruct (negb (tn_is_type t) || negb (tn_is_dataclass t)) eqn:Hn; [by apply not_elem_of_nil in Ha|].
  apply orb_false_iff in Hn as [H1%negb_false_iff H2%negb_false_iff].
  unfold annotation_types in Ha. destruct (tn_type_hints t) as [hints|] eqn:Hh; simpl in Ha;
    [by eapply occurs_hint|by eapply occurs_annotation].
Qed.

Lemma follow_pydantic types v t :
  types !! v = Some t → _is_pydantic_type t = false →
  follow (pydantic_verdict types) (pydantic_children types) v = pydantic_children types v.
Proof. intros Ht Hp. unfold follow, pydantic_verdict. by rewrite Ht, Hp. Qed.

(** The occurrences are what the search follows. *)
Lemma occurs_reachable types v :
  pydantic_occurs types v ↔
  ∃ x, reachable (follow (pydantic_verdict types) (pydantic_children types)) v x ∧
       pydantic_verdict types x = Some true.
Proof.
  split.
  - assert (∀ v t a x, types !! v = Some t → a ∈ pydantic_children types v →
              reachable (follow (pydantic_verdict types) (pydantic_children types)) a x ∧
              pydantic_verdict types x = Some true →
              ∃ x, reachable (follow (pydantic_verdict types) (pydantic_children types)) v x ∧
                   pydantic_verdict types x = Some true) as Hstep.
    { intros w t a x Ht Ha [Hr Hx]. destruct (_is_pydantic_type t) eqn:Hp.
      - exists w. split; [apply reach_refl|]. unfold pydantic_verdict. by rewrite Ht, Hp.
      - exists x. split; [|done]. eapply reachable_head; [|done]. by rewrite (follow_pydantic _ _ t). }
    unfold pydantic_children, annotation_types in Hstep.
    induction 1 as [w t Ht Hp|w t a Ht Ha _ [x Hx]|w t hints a Ht H1 H2 Hh Ha _ [x Hx]
                   |w t a Ht H1 H2 Hh Ha _ [x Hx]].
    + exists w. split; [apply reach_refl|]. unfold pydantic_verdict. by rewrite Ht, Hp.
    + eapply Hstep; [done| |done]. rewrite Ht. apply elem_of_app. by left.
    + eapply Hstep; [done| |done]. rewrite Ht, H1, H2, Hh. apply elem_of_app. by right.
    + eapply Hstep; [done| |done]. rewrite Ht, H1, H2, Hh. apply elem_of_app. by right.
  - intros (x & Hr & Hx).
    assert (pydantic_occurs types x) as Ho.
    { unfold pydantic_verdict in Hx. repeat case_match; simplify_eq. by eapply occurs_here. }
    clear Hx. induction Hr as [|y z Hr IH Hz]; [done|]. apply IH. revert Hz.
    unfold follow, pydantic_verdict. destruct (types !! y) as [t|] eqn:Ht; [|by intros ?%not_elem_of_nil].
    destruct (_is_pydantic_type t); [by intros ?%not_elem_of_nil|]. intros Hz. by eapply occurs_child.
Qed.


(** A class, a generic alias and a dataclass whose annotations are evaluated. *)
Definition class_node (attrs : list pystr) : type_node := TypeNode true attrs [] [] false None [].
Definition alias_node (args : list nat) : type_node := TypeNode false [] [] args false None [].
Definition dataclass_node (hints : list nat) : type_node := TypeNode true [] [] [] true (Some hints) hints.

(** [tuple[A, B]] for dataclasses [A] with a field ["list[int]"] and [B] with a
    field ["list[Model]"], [Model] being a Pydantic model. *)
Definition two_dataclasses : list type_node :=
  [alias_node [1%nat; 2%nat]; dataclass_node [3%nat]; dataclass_node [4%nat];
   alias_node [5%nat]; alias_node [6%nat]; class_node []; class_node [u "__pydantic_validator__"]].

(** A number taken again hides a model: the evaluated hint of [A] is gone when
    [B] is looked at, and when the hint of [B] gets its [id()] it counts as
    seen and the type is let through. *)
Theorem reused_id_hides_model :
  pydantic_occurs two_dataclasses 0 ∧
  _reject_pydantic_type two_dataclasses (λ x, if (x =? 4)%nat then 3%nat else x) 0 = Some (Ok tt) ∧
  _reject_pydantic_type two_dataclasses (λ x, x) 0 = Some (Raise (Exc TypeError)).
Proof.
  split; [|done]. apply (occurs_arg _ 0 (alias_node [1%nat; 2%nat]) 2); [done|set_solver|].
  apply (occurs_hint _ 2 (dataclass_node [4%nat]) [4%nat] 4); try done; [set_solver|].
  apply (occurs_arg _ 4 (alias_node [6%nat]) 6); [done|set_solver|].
  by apply (occurs_here _ 6 (class_node [u "__pydantic_validator__"])).
Qed.

(** [is_model_type] ends; what it answers is whether a dataclass occurs in the
    type expression, without looking inside a Pydantic type. *)
Theorem model_type_found (types : list type_node) (ident : nat → nat) (v : nat) :
  ∃ b, _contains_dataclass types ident v = Some b ∧
  (Inj eq eq ident →
   b = true ↔
   ∃ x t, reachable (follow (dataclass_verdict types) (dataclass_children types)) v x ∧
          types !! x = Some t ∧ _is_pydantic_type t = false ∧
          tn_is_type t = true ∧ tn_is_dataclass t = true).
Proof.
  destruct (search_spec (dataclass_verdict types) (dataclass_children types) ident (length types)) with (root := v)
    as (b & s' & Hs & Hb & Hi).
  { intros x Hx. unfold follow, dataclass_verdict. by rewrite lookup_ge_None_2. }
  unfold _contains_dataclass. rewrite Hs. exists b. split; [done|]. intros Hinj. split.
  - intros (x & Hx & Hv)%Hb. unfold dataclass_verdict in Hv. destruct (types !! x) as [t|] eqn:Ht; [|done].
    destruct (_is_pydantic_type t) eqn:Hp; [done|].
    destruct (tn_is_type t && tn_is_dataclass t) eqn:Hd; [|done]. apply andb_true_iff in Hd as [??].
    exists x, t. done.
  - intros (x & t & Hx & Ht & Hp & H1 & H2). apply Hi; [done|]. exists x. split; [done|].
    unfold dataclass_verdict. by rewrite Ht, Hp, H1, H2.
Qed.

(** With Pydantic loaded, a value is refused exactly when a Pydantic object
    is reachable from it through builtin containers and dataclasses; the walk
    ends, on cyclic values too. *)
Theorem pydantic_value_rejected (h : heap) (x : nat) :
  ∃ r, _reject_pydantic_values h true x = Some r ∧
  (r = Ok tt ∨ r = Raise (Exc TypeError)) ∧
  (r = Raise (Exc TypeError) ↔
   ∃ y o, reachable (expanded (look_pydantic h)) x y ∧ h !! y = Some o ∧ ob_pydantic o = true).
Proof.
  assert (∀ y e, look_pydantic h y = Fail e ↔
            e = Exc TypeError ∧ ∃ o, h !! y = Some o ∧ ob_pydantic o = true) as Hfail.
  { intros y e. unfold look_pydantic. destruct (h !! y) as [o|]; [|split; [done|naive_solver]].
    destruct (ob_pydantic o) eqn:Hp; [split; [intros [= <-]; eauto|by intros [-> _]]|].
    split; [destruct (ob_body o) as [| |? [] ?|[] ?| | |]; done|].
    intros (_ & o' & [= <-] & ?). congruence. }
  destruct (walk_spec (look_pydantic h) (length h)) with (root := x) as (r & Hr & Hs).
  { apply expanded_out. intros y Hy. unfold look_pydantic. by rewrite lookup_ge_None_2. }
  unfold _reject_pydantic_values, walk_fuel. cbn [negb]. rewrite Hr. eexists. split; [done|].
  destruct r as [l|e]; simpl.
  - destruct Hs as [Hno _]. split; [by left|]. split; [done|].
    intros (y & o & Hy & Ho). exfalso. apply (Hno y (Exc TypeError) Hy), Hfail. eauto.
  - destruct Hs as (y & Hy & [-> (o & Ho)]%Hfail). split; [by right|]. split; [|done].
    intros _. eauto.
Qed.

(** [blob_refs] ends and finds exactly the BlobRefs reachable from the
    outgoing value, through dataclasses and the subclasses of the containers
    too; it refuses the value exactly when one of them is closed. *)
Theorem blob_refs_exact (h : heap) (x : nat) :
  ∃ r, blob_refs h x = Some r ∧
  match r with
  | Ok l => ∀ y, y ∈ l ↔ reachable (expanded (look_blob h)) x y ∧
                         ob_body <$> h !! y = Some (BBlob false)
  | Raise e => e = Exc BlobError ∧
      ∃ y, reachable (expanded (look_blob h)) x y ∧ ob_body <$> h !! y = Some (BBlob true)
  end.
Proof.
  assert (∀ y, look_blob h y = Emit ↔ ob_body <$> h !! y = Some (BBlob false)) as Hemit.
  { intros y. unfold look_blob. destruct (h !! y) as [o|]; simpl; [|split; done].
    destruct (ob_body o) as [| |? [] ?|[] ?| |[]|]; split; congruence. }
  assert (∀ y e, look_blob h y = Fail e ↔ e = Exc BlobError ∧ ob_body <$> h !! y = Some (BBlob true)) as Hfail.
  { intros y e. unfold look_blob. destruct (h !! y) as [o|]; simpl; [|naive_solver].
    destruct (ob_body o) as [| |? [] ?|[] ?| |[]|]; naive_solver. }
  destruct (walk_spec (look_blob h) (length h)) with (root := x) as (r & Hr & Hs).
  { apply expanded_out. intros y Hy. unfold look_blob. by rewrite lookup_ge_None_2. }
  unfold blob_refs, walk_fuel. rewrite Hr. exists r. split; [done|]. destruct r as [l|e].
  - intros y. rewrite <-Hemit. apply Hs.
  - destruct Hs as (y & Hy & [-> ?]%Hfail). eauto.
Qed.
