(* ===== verification/Encode.v ===== *)
(** * Encoding: the outgoing half of [_msgpack.py]

    [dumps] first tries the plain encoder.  A [BlobRef] or an integer outside
    the native range makes it start again inside an encode scope, which
    collects the blobs met, with the out-of-range integers and the containers
    msgspec could not key rewritten as extensions ([_prepare_bigints]).

    msgspec itself is an argument: [pack] is the bytes it writes for a value,
    [depth] how deep it recurses.  What it does on the way is written out as
    the sequence of events it meets: the blobs it hands to the hook, integers
    it cannot write, objects nobody can. *)

From S2P Require Import Prelude PyStr PyFloat Errors Graph Objects.

Local Open Scope Z_scope.

Definition _EXT_BIG_INT : Z := 121.
Definition _EXT_BIG_DICT : Z := 122.
Definition _EXT_BIG_SET : Z := 123.
Definition _EXT_BLOB_REF : Z := 124.
Definition _EXT_TUPLE_KEY : Z := 125.
Definition _EXT_FROZENSET_KEY : Z := 126.

(** [-(1 << 63) <= value < (1 << 64)] *)
Definition native_int (z : Z) : bool := (- Z.shiftl 1 63 <=? z) && (z <? Z.shiftl 1 64).

(** The state of [_encode_with_blob_scope]. *)
Record enc_scope := EncScope { es_owners : list nat; es_seen : list nat }.

Definition empty_scope : enc_scope := EncScope [] [].

Notation EM := (M (option enc_scope) exn).

(** What the encoder meets, in order. *)
Inductive event :=
| EvBlob (x : nat) (closed : bool)
| EvOverflow
| EvUnsupported
| EvRecursion.

Section Encoding.
Context (h : heap) (depth : nat) (pack : pyval → list N).

(** Encoding the object [x], at most [d] levels deep. *)
Fixpoint obj_events (d : nat) (x : nat) : list event :=
  match d with
  | O => [EvRecursion]
  | S d =>
      match ob_body <$> h !! x with
      | None | Some BAtom => []
      | Some (BInt z) => if native_int z then [] else [EvOverflow]
      | Some (BSeq _ _ items) => flat_map (obj_events d) items
      | Some (BDict _ pairs) => flat_map (λ kv, obj_events d kv.1 ++ obj_events d kv.2) pairs
      | Some (BData fields) => flat_map (λ f, obj_events d f.2) fields
      | Some (BBlob closed) => [EvBlob x closed]
      | Some BOther => [EvUnsupported]
      end
  end.

(** Encoding a prepared value; an unchanged object is kept by reference. *)
Fixpoint events (v : pyval) : list event :=
  match v with
  | VObject x => obj_events depth (Z.to_nat x)
  | VInt z => if native_int z then [] else [EvOverflow]
  | VList l | VTuple l | VSet l | VFrozenset l => flat_map events l
  | VDict kvs => flat_map (λ kv, events kv.1 ++ events kv.2) kvs
  | _ => []
  end.

(** [_enc_hook], and the encoder's own errors. *)
Definition _enc_hook (e : event) : EM unit :=
  match e with
  | EvBlob x closed =>
      if closed then raise (Exc BlobError)
      else modify (λ s, match s with
                        | Some sc => if bool_decide (x ∈ es_seen sc) then Some sc
                                     else Some (EncScope (es_owners sc ++ [x]) (x :: es_seen sc))
                        | None => None
                        end)
  | EvUnsupported => raise (Exc TypeError)
  | EvOverflow => raise (Exc OverflowError)
  | EvRecursion => raise (Exc RecursionError)
  end.

(** [_enc_hook_fast] *)
Definition _enc_hook_fast (e : event) : EM unit :=
  match e with EvBlob _ _ => raise (Exc BlobScopeRequired) | _ => _enc_hook e end.

Fixpoint run_events (hook : event → EM unit) (es : list event) : EM unit :=
  match es with
  | [] => mret tt
  | e :: es => _ ← hook e; run_events hook es
  end.

(** [Encoder(enc_hook=hook).encode(value)] *)
Definition encode (hook : event → EM unit) (v : pyval) : EM (list N) :=
  _ ← run_events hook (events v); mret (pack v).

(** [_encoded_item] *)
Definition _encoded_item (v : pyval) : EM (list N) := encode _enc_hook v.

(** Whether a converted member can be hashed: an extension, a list, a dict or a
    set cannot; what was left unchanged was hashed before. *)
Fixpoint hashable (v : pyval) : bool :=
  match v with
  | VTuple l => forallb hashable l
  | VList _ | VSet _ | VDict _ | VExt _ _ => false
  | _ => true
  end.

(** [if marker in active: raise ...; active.add(marker); try: body finally:
    active.remove(marker)] *)
Definition guarded {A} (x : nat) (active : list nat) (body : list nat → EM A) : EM A :=
  if bool_decide (x ∈ active) then raise (Exc ValueError) else body (x :: active).

(** [_prepare_bigints] and [_prepare_hashable], with [_big_dict] and [_big_set]
    in their places; [fuel] is the interpreter's recursion budget, [out] what is
    raised when it is used up. *)
Fixpoint _prepare_bigints (out : exn) (fuel : nat) (x : nat) (active : list nat) {struct fuel} : EM pyval :=
  match fuel with
  | O => raise out
  | S fuel =>
      match ob_body <$> h !! x with
      | Some (BInt z) =>
          if native_int z then mret (VObject (Z.of_nat x))
          else match checked_str_of_int z with
               | Some digits => mret (VExt _EXT_BIG_INT digits)
               | None => raise (Exc ValueError)
               end
      | Some (BDict true pairs) =>
          guarded x active (λ active,
            converted ← mapM (λ kv, k ← _prepare_bigints out fuel kv.1 active;
                                    v ← _prepare_bigints out fuel kv.2 active; mret (k, v)) pairs;
            if forallb (λ kv, hashable kv.1) converted then mret (VDict converted)
            else
              items ← mapM (λ kv, k ← _prepare_hashable out fuel kv.1 active; kb ← _encoded_item k;
                                  v ← _prepare_bigints out fuel kv.2 active; vb ← _encoded_item v;
                                  mret (VTuple [VBytes kb; VBytes vb])) pairs;
              mret (VExt _EXT_BIG_DICT (pack (VList items))))
      | Some (BSeq k true items) =>
          guarded x active (λ active,
            converted ← mapM (λ i, _prepare_bigints out fuel i active) items;
            match k with
            | KList => mret (VList converted)
            | KTuple => mret (VTuple converted)
            | KSet | KFrozenset =>
                if forallb hashable converted
                then mret (if decide (k = KSet) then VSet converted else VFrozenset converted)
                else
                  encoded ← mapM (λ i, m ← _prepare_hashable out fuel i active; b ← _encoded_item m;
                                       mret (VBytes b)) items;
                  mret (VExt _EXT_BIG_SET (pack (VList encoded)))
            end)
      | Some (BData fields) =>
          guarded x active (λ active,
            converted ← mapM (λ f, v ← _prepare_bigints out fuel f.2 active; mret (VStr f.1, v)) fields;
            mret (VDict converted))
      | _ => mret (VObject (Z.of_nat x))
      end
  end
with _prepare_hashable (out : exn) (fuel : nat) (x : nat) (active : list nat) {struct fuel} : EM pyval :=
  match fuel with
  | O => raise out
  | S fuel =>
      match ob_body <$> h !! x with
      | Some (BSeq KTuple true items) =>
          guarded x active (λ active,
            members ← mapM (λ i, _prepare_hashable out fuel i active) items;
            b ← encode _enc_hook (VList members);
            mret (VExt _EXT_TUPLE_KEY b))
      | Some (BSeq KFrozenset true items) =>
          guarded x active (λ active,
            members ← mapM (λ i, _prepare_hashable out fuel i active) items;
            b ← encode _enc_hook (VList members);
            mret (VExt _EXT_FROZENSET_KEY b))
      | _ => _prepare_bigints out fuel x active
      end
  end.

(** The recursion budget that is always enough. *)
Definition prepare_fuel : nat := 2 * length h + 2.

(** [_encode_with_blob_scope] *)
Definition _encode_with_blob_scope (x : nat) : EM (list N * list nat) := λ s,
  let own_scope := bool_decide (s = None) in
  let '(r, s') :=
    (encoded ← catching (encode _enc_hook (VObject (Z.of_nat x)))
                 (λ e, if matches [OverflowError] e
                       then Some (prepared ← _prepare_bigints (Exc RecursionError) prepare_fuel x [];
                                  encode _enc_hook prepared)
                       else None);
     owners ← gets (λ s, from_option es_owners [] s);
     mret (encoded, owners)) (Some (default empty_scope s)) in
  (r, if own_scope then None else s').

(** [_encode_prepared] *)
Definition _encode_prepared (x : nat) : EM (list N * list nat) :=
  catching (b ← encode _enc_hook_fast (VObject (Z.of_nat x)); mret (b, []))
    (λ e, if matches [BlobScopeRequired; OverflowError] e then Some (_encode_with_blob_scope x) else None).

(** [dumps_with_blob_refs]; [imported] is ["pydantic" in sys.modules]. *)
Definition dumps_with_blob_refs (imported : bool) (x : nat) : EM (list N * list nat) :=
  match _reject_pydantic_values h imported x with
  | Some (Raise e) => raise e
  | _ => _encode_prepared x
  end.

(** [dumps] *)
Definition dumps (imported : bool) (x : nat) : EM (list N) :=
  fst <$> dumps_with_blob_refs imported x.

(** ** The blobs of a value *)

(** The objects an encoder goes through. *)
Definition kids (x : nat) : list nat := expanded (look_blob h) x.

(** [y] is a blob inside [x]. *)
Definition blob_in (x y : nat) (closed : bool) : Prop :=
  reachable kids x y ∧ ob_body <$> h !! y = Some (BBlob closed).

Lemma kids_eq x :
  kids x = match ob_body <$> h !! x with
           | Some (BSeq _ _ items) => items
           | Some (BDict _ pairs) => dict_children pairs
           | Some (BData fields) => fields.*2
           | _ => []
           end.
Proof.
  unfold kids, expanded, look_blob. destruct (h !! x) as [o|]; simpl; [|done].
  by destruct (ob_body o) as [| | | | |[]|].
Qed.

Lemma blob_in_kid x k y c : k ∈ kids x → blob_in k y c → blob_in x y c.
Proof. intros Hk [Hr Hb]. split; [|done]. by eapply reachable_head. Qed.

(** A blob inside [x] is [x] itself or inside one of its members. *)
Lemma blob_in_cases x y c :
  blob_in x y c → (x = y ∧ ob_body <$> h !! x = Some (BBlob c)) ∨ ∃ k, k ∈ kids x ∧ blob_in k y c.
Proof.
  intros [Hr Hb]. induction Hr as [|y z Hr IH Hz]; [by left|]. right.
  assert (x = y ∨ ∃ k, k ∈ kids x ∧ reachable kids k y) as [->|(k & Hk & Hky)].
  { clear -Hr. induction Hr as [|y z Hr IH Hz]; [by left|]. right.
    destruct IH as [->|(k & Hk & Hky)].
    - exists z. split; [done|apply reach_refl].
    - exists k. split; [done|by eapply reach_step]. }
  - exists z. split; [done|]. split; [apply reach_refl|done].
  - exists k. split; [done|]. split; [by eapply reach_step|done].
Qed.

Lemma blob_in_leaf x y c : kids x = [] → blob_in x y c → y = x ∧ ob_body <$> h !! x = Some (BBlob c).
Proof. intros Hk [[-> ?]|(k & Hin & _)]%blob_in_cases; [done|]. by rewrite Hk, elem_of_nil in Hin. Qed.

(** The events of an object are those of its blobs. *)
Lemma obj_events_sound d x y c : EvBlob y c ∈ obj_events d x → blob_in x y c.
Proof.
  revert x. induction d as [|d IH]; intros x; simpl; [intros ?%list_elem_of_singleton; done|].
  pose proof (kids_eq x) as Hk. destruct (ob_body <$> h !! x) as [b|] eqn:Hb; [|by intros ?%not_elem_of_nil].
  destruct b as [|z|k ex items|ex pairs|fields|closed|].
  - by intros ?%not_elem_of_nil.
  - case_match; [by intros ?%not_elem_of_nil|by intros ?%list_elem_of_singleton].
  - intros (i & Hi & He)%elem_of_flat_map. eapply blob_in_kid; [|by apply IH]. by rewrite Hk.
  - intros ([k v] & Hi & He)%elem_of_flat_map. apply elem_of_app in He as [He|He].
    all: eapply blob_in_kid; [|by apply IH]; rewrite Hk; unfold dict_children.
    all: rewrite elem_of_app, !list_elem_of_fmap.
    + left. by exists (k, v).
    + right. by exists (k, v).
  - intros ([n v] & Hi & He)%elem_of_flat_map. eapply blob_in_kid; [|by apply IH].
    rewrite Hk, list_elem_of_fmap. by exists (n, v).
  - intros [= -> ->]%list_elem_of_singleton. split; [apply reach_refl|done].
  - by intros ?%list_elem_of_singleton.
Qed.

(** Every blob of an object is among its events, unless the recursion ends first. *)
Definition covers (es : list event) (y : nat) (c : bool) : Prop := EvRecursion ∈ es ∨ EvBlob y c ∈ es.

Lemma covers_mono es es' y c : (∀ e, e ∈ es → e ∈ es') → covers es y c → covers es' y c.
Proof. intros Hs [?|?]; [left|right]; auto. Qed.

Lemma obj_events_complete d x y c : blob_in x y c → covers (obj_events d x) y c.
Proof.
  revert x. induction d as [|d IH]; intros x Hb; simpl; [left; left|].
  pose proof (kids_eq x) as Hk.
  apply blob_in_cases in Hb as [[-> Hb]|(k & Hkin & Hb)].
  { rewrite Hb. right. left. }
  apply IH in Hb. rewrite Hk in Hkin.
  destruct (ob_body <$> h !! x) as [[|z|kd ex items|ex pairs|fields|closed|]|];
    try by apply not_elem_of_nil in Hkin.
  - eapply covers_mono; [|done]. intros e He. apply elem_of_flat_map. eauto.
  - eapply covers_mono; [|done]. intros e He. apply elem_of_flat_map. unfold dict_children in Hkin.
    rewrite elem_of_app, !list_elem_of_fmap in Hkin.
    destruct Hkin as [([k' v'] & -> & Hin)|([k' v'] & -> & Hin)]; exists (k', v');
      (split; [done|]); rewrite elem_of_app; auto.
  - eapply covers_mono; [|done]. intros e He. apply elem_of_flat_map.
    apply list_elem_of_fmap in Hkin as ([n v] & -> & Hin). by exists (n, v).
Qed.

(** ** What a scope collects *)

(** A scope lists each owner once. *)
Definition scope_ok (sc : enc_scope) : Prop :=
  NoDup (es_owners sc) ∧ ∀ x, x ∈ es_seen sc ↔ x ∈ es_owners sc.

(** The scope grew by blobs satisfying [P] only. *)
Definition grows (P : nat → Prop) (sc sc' : enc_scope) : Prop :=
  scope_ok sc' ∧ (∀ x, x ∈ es_owners sc → x ∈ es_owners sc') ∧
  (∀ x, x ∈ es_owners sc' → x ∈ es_owners sc ∨ P x).

Lemma grows_refl P sc : scope_ok sc → grows P sc sc.
Proof. intros Hok. split_and!; auto. Qed.

Lemma grows_trans P sc1 sc2 sc3 : grows P sc1 sc2 → grows P sc2 sc3 → grows P sc1 sc3.
Proof.
  intros (_ & H1 & H2) (Hok & H3 & H4). split_and!; [done|auto|].
  intros x Hx. destruct (H4 x Hx) as [?|?]; auto.
Qed.

Lemma grows_impl (P Q : nat → Prop) sc sc' : (∀ x, P x → Q x) → grows P sc sc' → grows Q sc sc'.
Proof. intros HPQ (Hok & H1 & H2). split_and!; [done|done|]. intros x Hx. destruct (H2 x Hx); auto. Qed.

(** Running the hook over events that all succeed records exactly their blobs. *)
Lemma run_events_grows es sc r s' :
  scope_ok sc → run_events _enc_hook es (Some sc) = (Ok r, s') →
  ∃ sc', s' = Some sc' ∧ grows (λ y, EvBlob y false ∈ es) sc sc' ∧
         (∀ e, e ∈ es → ∃ y, e = EvBlob y false ∧ y ∈ es_owners sc').
Proof.
  revert sc. induction es as [|e es IH]; intros sc Hok Hr; simpl in Hr.
  { injection Hr as _ <-. exists sc. split_and!; [done|by apply grows_refl|by intros ? ?%not_elem_of_nil]. }
  apply M_bind_ok in Hr as ([] & s1 & He & Hr).
  destruct e as [y closed| | |]; simpl in He; [|done..]. destruct closed; [done|].
  assert (∃ sc1, s1 = Some sc1 ∧ grows (λ z, z = y) sc sc1 ∧ y ∈ es_owners sc1) as (sc1 & -> & Hg & Hy).
  { injection He as <-. destruct Hok as [Hnd Hs]. case_bool_decide as Hin.
    - exists sc. split_and!; [done|by apply grows_refl|by apply Hs].
    - eexists. split; [done|]. simpl. rewrite elem_of_app. split; [|right; left].
      split_and!; simpl.
      + split; simpl.
        * apply NoDup_app. split_and!; [done|intros z Hz ->%list_elem_of_singleton|apply NoDup_singleton].
          by apply Hin, Hs.
        * intros z. rewrite elem_of_cons, elem_of_app, list_elem_of_singleton, Hs. tauto.
      + intros z Hz. rewrite elem_of_app. by left.
      + intros z. rewrite elem_of_app, list_elem_of_singleton. tauto. }
  destruct (IH sc1 (proj1 Hg) Hr) as (sc' & -> & Hg' & Hall). exists sc'. split_and!; [done|..].
  - eapply grows_trans; (eapply grows_impl; [|done]); simpl.
    + intros z ->. left.
    + intros z Hz. by right.
  - intros e [->|He']%elem_of_cons; [|auto]. exists y. split; [done|]. by apply Hg'.
Qed.

(** What encoding [v] in a scope records. *)
Lemma encode_grows v sc b s' :
  scope_ok sc → encode _enc_hook v (Some sc) = (Ok b, s') →
  ∃ sc', s' = Some sc' ∧ grows (λ y, EvBlob y false ∈ events v) sc sc' ∧
         (∀ y c, covers (events v) y c → y ∈ es_owners sc').
Proof.
  intros Hok Hr. unfold encode in Hr. apply M_bind_ok in Hr as ([] & s1 & He & Hr).
  injection Hr as _ <-. destruct (run_events_grows _ _ _ _ Hok He) as (sc' & -> & Hg & Hall).
  exists sc'. split_and!; [done|done|]. intros y c [Hc|Hc]; apply Hall in Hc as (z & Hz & Hin); [done|].
  injection Hz as -> _. done.
Qed.

(** A prepared form of [x]: its blobs are blobs of [x], and every blob of [x]
    is recorded already or still in it. *)
Definition prepared (x : nat) (v : pyval) (sc : enc_scope) : Prop :=
  (∀ y c, EvBlob y c ∈ events v → blob_in x y c) ∧
  (∀ y c, blob_in x y c → y ∈ es_owners sc ∨ covers (events v) y c).

Lemma prepared_mono P x v sc sc' : grows P sc sc' → prepared x v sc → prepared x v sc'.
Proof. intros (_ & Hg & _) [H1 H2]. split; [done|]. intros y c Hy. destruct (H2 y c Hy); auto. Qed.

Lemma prepared_object x sc : prepared x (VObject (Z.of_nat x)) sc.
Proof.
  split; simpl; rewrite Nat2Z.id; intros y c.
  - apply obj_events_sound.
  - intros Hy. right. by apply obj_events_complete.
Qed.

(** A form with nothing left in it: every blob is recorded. *)
Lemma prepared_recorded x v sc :
  events v = [] → (∀ y c, blob_in x y c → y ∈ es_owners sc) → prepared x v sc.
Proof. intros Hv Hall. split; intros y c; [rewrite Hv; by intros ?%not_elem_of_nil|eauto]. Qed.

(** A container is prepared when its members are, and recorded when they are. *)
Lemma prepared_seq x v sc vs :
  (∀ c, ob_body <$> h !! x ≠ Some (BBlob c)) →
  (∀ e, e ∈ events v ↔ e ∈ flat_map events vs) →
  Forall2 (λ k w, prepared k w sc) (kids x) vs → prepared x v sc.
Proof.
  intros Hne He HF. split.
  - intros y c Hy. apply He, elem_of_flat_map in Hy as (w & Hw & Hy).
    apply list_elem_of_lookup in Hw as [i Hi].
    destruct (Forall2_lookup_r _ _ _ _ _ HF Hi) as (k & Hk & Hp).
    eapply blob_in_kid; [by eapply list_elem_of_lookup_2|]. by apply Hp.
  - intros y c Hb. apply blob_in_cases in Hb as [[-> Hb]|(k & Hk & Hb)]; [by apply Hne in Hb|].
    apply list_elem_of_lookup in Hk as [i Hi].
    destruct (Forall2_lookup_l _ _ _ _ _ HF Hi) as (w & Hw & Hp).
    destruct (proj2 Hp y c Hb) as [?|Hc]; [by left|right].
    eapply covers_mono; [|done]. intros e Hew. apply He, elem_of_flat_map.
    exists w. split; [by eapply list_elem_of_lookup_2|done].
Qed.

Lemma prepared_all_recorded x v sc :
  (∀ c, ob_body <$> h !! x ≠ Some (BBlob c)) → events v = [] →
  (∀ k, k ∈ kids x → ∀ y c, blob_in k y c → y ∈ es_owners sc) → prepared x v sc.
Proof.
  intros Hne Hv HF. apply prepared_recorded; [done|]. intros y c Hb.
  apply blob_in_cases in Hb as [[-> Hb]|(k & Hk & Hb)]; [by apply Hne in Hb|]. by eapply HF.
Qed.

(** A sequence of stateful steps: each one's blobs are recorded, and what holds
    of its result survives the rest. *)
Lemma mapM_grows {A B} (f : A → EM B) (R : A → nat → Prop) (Q : A → B → enc_scope → Prop) l :
  (∀ a sc b s', scope_ok sc → f a (Some sc) = (Ok b, s') →
     ∃ sc', s' = Some sc' ∧ grows (R a) sc sc' ∧ Q a b sc') →
  (∀ P a b sc sc', grows P sc sc' → Q a b sc → Q a b sc') →
  ∀ sc bs s', scope_ok sc → mapM f l (Some sc) = (Ok bs, s') →
  ∃ sc', s' = Some sc' ∧ grows (λ y, ∃ a, a ∈ l ∧ R a y) sc sc' ∧ Forall2 (λ a b, Q a b sc') l bs.
Proof.
  intros Hf Hmono. induction l as [|a l IH]; intros sc bs s' Hok Hm; simpl in Hm.
  { injection Hm as <- <-. exists sc. split_and!; [done|by apply grows_refl|constructor]. }
  apply M_bind_ok in Hm as (b & s1 & Ha & Hm).
  apply M_bind_ok in Hm as (bs' & s2 & Hl & Hm). injection Hm as <- <-.
  destruct (Hf _ _ _ _ Hok Ha) as (sc1 & -> & Hg1 & Hq).
  destruct (IH _ _ _ (proj1 Hg1) Hl) as (sc2 & -> & Hg2 & HF).
  exists sc2. split_and!; [done|..].
  - eapply grows_trans; (eapply grows_impl; [|done]); simpl.
    + intros y Hy. exists a. split; [left|done].
    + intros y (a' & Ha' & Hy). exists a'. split; [by right|done].
  - constructor; [by eapply Hmono|done].
Qed.

(** Every blob of [x] is recorded. *)
Definition recorded (x : nat) (sc : enc_scope) : Prop := ∀ y c, blob_in x y c → y ∈ es_owners sc.

Lemma recorded_mono P x sc sc' : grows P sc sc' → recorded x sc → recorded x sc'.
Proof. intros (_ & Hg & _) Hr y c Hy. eapply Hg, Hr, Hy. Qed.

(** Encoding a prepared form records what is left in it. *)
Lemma encode_prepared_ok x v sc b s' :
  scope_ok sc → prepared x v sc → encode _enc_hook v (Some sc) = (Ok b, s') →
  ∃ sc', s' = Some sc' ∧ grows (λ y, blob_in x y false) sc sc' ∧ recorded x sc'.
Proof.
  intros Hok [Hp1 Hp2] He. destruct (encode_grows _ _ _ _ Hok He) as (sc' & -> & Hg & Hall).
  exists sc'. split_and!; [done|eapply grows_impl; [|done]; auto|].
  intros y c Hy. destruct (Hp2 y c Hy) as [?|Hc]; [by apply Hg|by eapply Hall].
Qed.

(** What both preparations promise. *)
Definition prepares (f : nat → list nat → EM pyval) : Prop :=
  ∀ x active sc v s', scope_ok sc → f x active (Some sc) = (Ok v, s') →
  ∃ sc', s' = Some sc' ∧ grows (λ y, blob_in x y false) sc sc' ∧ prepared x v sc'.

(** Prepare a member and encode it at once. *)
Lemma prepare_encode f x active sc b s' :
  prepares f → scope_ok sc → (m ← f x active; encode _enc_hook m) (Some sc) = (Ok b, s') →
  ∃ sc', s' = Some sc' ∧ grows (λ y, blob_in x y false) sc sc' ∧ recorded x sc'.
Proof.
  intros Hf Hok Hr. apply M_bind_ok in Hr as (m & s1 & Hm & Hr).
  destruct (Hf _ _ _ _ _ Hok Hm) as (sc1 & -> & Hg & Hp).
  destruct (encode_prepared_ok _ _ _ _ _ (proj1 Hg) Hp Hr) as (sc2 & -> & Hg2 & Hrec).
  exists sc2. split_and!; [done|by eapply grows_trans|done].
Qed.

(** *** The containers *)

Section Members.
Context (prep hash : nat → list nat → EM pyval) (Hprep : prepares prep) (Hhash : prepares hash).

Lemma members_prepared f l active sc vs s' :
  prepares f → scope_ok sc → mapM (λ i, f i active) l (Some sc) = (Ok vs, s') →
  ∃ sc', s' = Some sc' ∧ grows (λ y, ∃ k, k ∈ l ∧ blob_in k y false) sc sc' ∧
         Forall2 (λ k w, prepared k w sc') l vs.
Proof using Type.
  intros Hf. apply (mapM_grows _ (λ k y, blob_in k y false) prepared).
  - intros a sc0 b s0 Hok Ha. by eapply Hf.
  - intros *. apply prepared_mono.
Qed.

Lemma pairs_prepared pairs active sc kvs s' :
  scope_ok sc →
  mapM (λ kv, k ← prep kv.1 active; v ← prep kv.2 active; mret (k, v)) pairs (Some sc) = (Ok kvs, s') →
  ∃ sc', s' = Some sc' ∧ grows (λ y, ∃ k, k ∈ dict_children pairs ∧ blob_in k y false) sc sc' ∧
         Forall2 (λ k w, prepared k w sc') (dict_children pairs) (kvs.*1 ++ kvs.*2).
Proof using Hprep.
  intros Hok Hm.
  eapply (mapM_grows _ (λ kv y, blob_in kv.1 y false ∨ blob_in kv.2 y false)
    (λ kv w sc, prepared kv.1 w.1 sc ∧ prepared kv.2 w.2 sc)) in Hm as (sc' & -> & Hg & HF);
    [| | |exact Hok].
  2:{ intros [k v] sc0 [k' v'] s0 Hok0 Hr. simpl in *.
    apply M_bind_ok in Hr as (k1 & s1 & Hk & Hr). apply M_bind_ok in Hr as (v1 & s2 & Hv & Hr).
    injection Hr as -> -> <-.
    destruct (Hprep _ _ _ _ _ Hok0 Hk) as (sc1 & -> & Hg1 & Hp1).
    destruct (Hprep _ _ _ _ _ (proj1 Hg1) Hv) as (sc2 & -> & Hg2 & Hp2).
    exists sc2. split_and!; [done| |by eapply prepared_mono|done].
    eapply grows_trans; (eapply grows_impl; [|done]); auto. }
  2:{ intros P a b sc0 sc1 Hg [??]. split; by eapply prepared_mono. }
  exists sc'. split_and!; [done|..].
  - eapply grows_impl; [|done]. simpl. intros y ([k v] & Hin & Hy). unfold dict_children.
    setoid_rewrite elem_of_app. setoid_rewrite list_elem_of_fmap.
    destruct Hy as [Hy|Hy]; [exists k|exists v]; simpl in Hy; (split; [|done]);
      [left|right]; by exists (k, v).
  - unfold dict_children. apply Forall2_app; apply Forall2_fmap; eapply Forall2_impl; try done;
      by intros ? ? [? ?].
Qed.

(** Members prepared and encoded one by one are all recorded. *)
Lemma members_recorded {A B} (f : A → EM B) (ks : A → list nat) l sc bs s' :
  (∀ a sc b s', scope_ok sc → f a (Some sc) = (Ok b, s') →
     ∃ sc', s' = Some sc' ∧ grows (λ y, ∃ k, k ∈ ks a ∧ blob_in k y false) sc sc' ∧
            (∀ k, k ∈ ks a → recorded k sc')) →
  scope_ok sc → mapM f l (Some sc) = (Ok bs, s') →
  ∃ sc', s' = Some sc' ∧ grows (λ y, ∃ a k, a ∈ l ∧ k ∈ ks a ∧ blob_in k y false) sc sc' ∧
         (∀ a k, a ∈ l → k ∈ ks a → recorded k sc').
Proof using Type.
  intros Hf Hok Hm.
  eapply (mapM_grows f (λ a y, ∃ k, k ∈ ks a ∧ blob_in k y false)
    (λ a (_ : B) sc, ∀ k, k ∈ ks a → recorded k sc)) in Hm as (sc' & -> & Hg & HF); [|done| |done].
  2:{ intros P a b sc0 sc1 Hg Hr k Hk. eapply recorded_mono; [done|auto]. }
  exists sc'. split_and!; [done|..].
  - eapply grows_impl; [|done]. intros y (a & Ha & k & Hk & Hy). eauto.
  - intros a k Ha Hk. apply list_elem_of_lookup in Ha as [i Hi].
    destruct (Forall2_lookup_l _ _ _ _ _ HF Hi) as (b & _ & Hr). auto.
Qed.

Lemma hash_member_recorded i active sc b s' :
  scope_ok sc →
  (m ← hash i active; b ← _encoded_item m; mret (VBytes b)) (Some sc) = (Ok b, s') →
  ∃ sc', s' = Some sc' ∧ grows (λ y, ∃ k, k ∈ [i] ∧ blob_in k y false) sc sc' ∧
         (∀ k, k ∈ [i] → recorded k sc').
Proof using Hhash.
  intros Hok Hr. apply M_bind_ok in Hr as (m & s1 & Hm & Hr).
  apply M_bind_ok in Hr as (b' & s2 & Hb & Hr). injection Hr as <- <-.
  assert ((m ← hash i active; encode _enc_hook m) (Some sc) = (Ok b', s2)) as Hboth
    by (apply M_bind_ok; eauto).
  destruct (prepare_encode _ _ _ _ _ _ Hhash Hok Hboth) as (sc' & -> & Hg & Hrec).
  exists sc'. split_and!; [done|..].
  - eapply grows_impl; [|done]. intros y Hy. exists i. split; [left|done].
  - by intros k ->%list_elem_of_singleton.
Qed.

Lemma hash_pair_recorded kv active sc b s' :
  scope_ok sc →
  (k ← hash kv.1 active; kb ← _encoded_item k; v ← prep kv.2 active; vb ← _encoded_item v;
   mret (VTuple [VBytes kb; VBytes vb])) (Some sc) = (Ok b, s') →
  ∃ sc', s' = Some sc' ∧ grows (λ y, ∃ k, k ∈ [kv.1; kv.2] ∧ blob_in k y false) sc sc' ∧
         (∀ k, k ∈ [kv.1; kv.2] → recorded k sc').
Proof using Hhash Hprep.
  intros Hok Hr. apply M_bind_ok in Hr as (k & s1 & Hk & Hr).
  apply M_bind_ok in Hr as (kb & s2 & Hkb & Hr). apply M_bind_ok in Hr as (v & s3 & Hv & Hr).
  apply M_bind_ok in Hr as (vb & s4 & Hvb & Hr). injection Hr as <- <-.
  assert ((m ← hash kv.1 active; encode _enc_hook m) (Some sc) = (Ok kb, s2)) as H1
    by (apply M_bind_ok; eauto).
  assert ((m ← prep kv.2 active; encode _enc_hook m) s2 = (Ok vb, s4)) as H2
    by (apply M_bind_ok; eauto).
  destruct (prepare_encode _ _ _ _ _ _ Hhash Hok H1) as (sc1 & -> & Hg1 & Hr1).
  destruct (prepare_encode _ _ _ _ _ _ Hprep (proj1 Hg1) H2) as (sc2 & -> & Hg2 & Hr2).
  exists sc2. split_and!; [done|..].
  - eapply grows_trans; (eapply grows_impl; [|done]); intros y Hy.
    + exists kv.1. split; [left|done].
    + exists kv.2. split; [right; left|done].
  - intros x [->| ->%list_elem_of_singleton]%elem_of_cons; [by eapply recorded_mono|done].
Qed.
End Members.

Lemma guarded_ok {A} x active (f : list nat → EM A) s a s' :
  guarded x active f s = (Ok a, s') → x ∉ active ∧ f (x :: active) s = (Ok a, s').
Proof. unfold guarded. by case_bool_decide. Qed.

Section Levels.
Context (prep hash : nat → list nat → EM pyval) (Hprep : prepares prep) (Hhash : prepares hash).
Context (x : nat) (sc : enc_scope) (Hok : scope_ok sc).

Notation goal v s' := (∃ sc', s' = Some sc' ∧ grows (λ y, blob_in x y false) sc sc' ∧ prepared x v sc').

(** A container whose members were converted in place. *)
Lemma converted_container sc' v ws :
  (∀ c, ob_body <$> h !! x ≠ Some (BBlob c)) →
  grows (λ y, ∃ k, k ∈ kids x ∧ blob_in k y false) sc sc' →
  (∀ e, e ∈ events v ↔ e ∈ flat_map events ws) →
  Forall2 (λ k w, prepared k w sc') (kids x) ws → goal v (Some sc').
Proof using Type.
  intros Hne Hg He HF. exists sc'. split_and!; [done|..].
  - eapply grows_impl; [|done]. intros y (k & Hk & Hy). by eapply blob_in_kid.
  - by eapply prepared_seq.
Qed.

(** A container replaced by an extension, its members encoded on the way. *)
Lemma encoded_container sc1 sc' v :
  (∀ c, ob_body <$> h !! x ≠ Some (BBlob c)) → events v = [] →
  grows (λ y, ∃ k, k ∈ kids x ∧ blob_in k y false) sc sc1 →
  grows (λ y, ∃ k, k ∈ kids x ∧ blob_in k y false) sc1 sc' →
  (∀ k, k ∈ kids x → recorded k sc') → goal v (Some sc').
Proof using Type.
  intros Hne Hv Hg1 Hg2 Hrec. exists sc'. split_and!; [done|..].
  - eapply grows_impl; [|by eapply grows_trans]. intros y (k & Hk & Hy). by eapply blob_in_kid.
  - apply prepared_all_recorded; [done|done|]. intros k Hk. by apply Hrec.
Qed.

Lemma prepare_dict active ex pairs v s' :
  ob_body <$> h !! x = Some (BDict ex pairs) →
  (converted ← mapM (λ kv, k ← prep kv.1 active; v ← prep kv.2 active; mret (k, v)) pairs;
   if forallb (λ kv, hashable kv.1) converted then mret (VDict converted)
   else
     items ← mapM (λ kv, k ← hash kv.1 active; kb ← _encoded_item k;
                         v ← prep kv.2 active; vb ← _encoded_item v;
                         mret (VTuple [VBytes kb; VBytes vb])) pairs;
     mret (VExt _EXT_BIG_DICT (pack (VList items)))) (Some sc) = (Ok v, s') → goal v s'.
Proof using Hprep Hhash Hok.
  intros Hb Hr. assert (kids x = dict_children pairs) as Hk by (by rewrite kids_eq, Hb).
  assert (∀ c, ob_body <$> h !! x ≠ Some (BBlob c)) as Hne by (by rewrite Hb).
  apply M_bind_ok in Hr as (kvs & s1 & Hm & Hr).
  apply (pairs_prepared prep Hprep) in Hm as (sc1 & -> & Hg1 & HF); [|done].
  rewrite <-Hk in *. destruct (forallb _ kvs).
  - injection Hr as <- <-. apply (converted_container _ _ (kvs.*1 ++ kvs.*2)); try done.
    intros e. simpl. rewrite flat_map_app, elem_of_app, !elem_of_flat_map.
    setoid_rewrite elem_of_app. setoid_rewrite list_elem_of_fmap. split.
    + intros (kv & Hin & [He|He]); [left; exists kv.1|right; exists kv.2]; eauto.
    + intros [(w & (kv & -> & Hin) & He)|(w & (kv & -> & Hin) & He)]; exists kv; auto.
  - apply M_bind_ok in Hr as (items & s2 & Hi & Hr). injection Hr as <- <-.
    apply (members_recorded _ (λ kv, [kv.1; kv.2])) in Hi as (sc2 & -> & Hg2 & Hrec);
      [|intros; by eapply (hash_pair_recorded prep hash)|apply Hg1].
    assert (∀ k, k ∈ kids x ↔ ∃ kv, kv ∈ pairs ∧ k ∈ [kv.1; kv.2]) as Hkids.
    { intros k. rewrite Hk. unfold dict_children. rewrite elem_of_app, !list_elem_of_fmap.
      setoid_rewrite elem_of_cons. setoid_rewrite list_elem_of_singleton. naive_solver. }
    apply (encoded_container sc1); try done.
    + eapply grows_impl; [|done]. intros y (kv & k & Hin & Hkk & Hy). exists k.
      split; [|done]. apply Hkids. eauto.
    + intros k (kv & Hin & Hkk)%Hkids. eauto.
Qed.

Lemma prepare_set active k ex items v s' :
  ob_body <$> h !! x = Some (BSeq k ex items) →
  (converted ← mapM (λ i, prep i active) items;
   match k with
   | KList => mret (VList converted)
   | KTuple => mret (VTuple converted)
   | KSet | KFrozenset =>
       if forallb hashable converted
       then mret (if decide (k = KSet) then VSet converted else VFrozenset converted)
       else
         encoded ← mapM (λ i, m ← hash i active; b ← _encoded_item m; mret (VBytes b)) items;
         mret (VExt _EXT_BIG_SET (pack (VList encoded)))
   end) (Some sc) = (Ok v, s') → goal v s'.
Proof using Hprep Hhash Hok.
  intros Hb Hr. assert (kids x = items) as Hk by (by rewrite kids_eq, Hb).
  assert (∀ c, ob_body <$> h !! x ≠ Some (BBlob c)) as Hne by (by rewrite Hb).
  apply M_bind_ok in Hr as (ws & s1 & Hm & Hr).
  apply (members_prepared prep) in Hm as (sc1 & -> & Hg1 & HF); [|done..]. rewrite <-Hk in Hg1, HF.
  assert (∀ v, events v = flat_map events ws → (mret v : EM pyval) (Some sc1) = (Ok v, s') → goal v s')
    as Hconv.
  { intros v' Hv Hr'. injection Hr' as <-. eapply converted_container; try done. by rewrite Hv. }
  assert ((if forallb hashable ws
           then mret (if decide (k = KSet) then VSet ws else VFrozenset ws)
           else encoded ← mapM (λ i, m ← hash i active; b ← _encoded_item m; mret (VBytes b)) items;
                mret (VExt _EXT_BIG_SET (pack (VList encoded)))) (Some sc1) = (Ok v, s') → goal v s') as Hset.
  { destruct (forallb hashable ws).
    - intros Hr'. injection Hr' as <- <-. apply Hconv; [by destruct (decide _)|done].
    - clear Hr. intros Hr. apply M_bind_ok in Hr as (enc & s2 & Hi & Hr). injection Hr as <- <-.
      apply (members_recorded _ (λ i, [i])) in Hi as (sc2 & -> & Hg2 & Hrec);
        [|intros; by eapply (hash_member_recorded hash)|apply Hg1].
      apply (encoded_container sc1); try done.
      + eapply grows_impl; [|done]. intros y (i & k' & Hin & ->%list_elem_of_singleton & Hy).
        rewrite Hk. eauto.
      + intros k' Hk'. rewrite Hk in Hk'. eapply Hrec; [done|left]. }
  destruct k; [| |by apply Hset..]; injection Hr as <- <-; by apply Hconv.
Qed.

Lemma prepare_fields active fields kvs s' :
  ob_body <$> h !! x = Some (BData fields) →
  mapM (λ f, v ← prep f.2 active; mret (VStr f.1, v)) fields (Some sc) = (Ok kvs, s') →
  goal (VDict kvs) s'.
Proof using Hprep Hok.
  intros Hb Hm. assert (kids x = fields.*2) as Hk by (by rewrite kids_eq, Hb).
  eapply (mapM_grows _ (λ f y, blob_in f.2 y false)
    (λ f w sc, prepared f.2 w.2 sc ∧ events w.1 = [])) in Hm as (sc' & -> & Hg & HF); [| | |done].
  2:{ intros [n i] sc0 [k w] s0 Hok0 Hr. simpl in *. apply M_bind_ok in Hr as (w' & s1 & Hw & Hr).
      injection Hr as <- <- <-. destruct (Hprep _ _ _ _ _ Hok0 Hw) as (sc1 & -> & Hg1 & Hp1).
      exists sc1. done. }
  2:{ intros P a b sc0 sc1 Hg [??]. split; [by eapply prepared_mono|done]. }
  apply (converted_container _ _ kvs.*2); [by rewrite Hb|..].
  - eapply grows_impl; [|done]. intros y ([n i] & Hin & Hy). exists i. split; [|done].
    rewrite Hk, list_elem_of_fmap. by exists (n, i).
  - intros e. simpl. rewrite !elem_of_flat_map. setoid_rewrite elem_of_app.
    setoid_rewrite list_elem_of_fmap. split.
    + intros (kv & Hin & [He|He]); [|eauto]. exfalso.
      apply list_elem_of_lookup in Hin as [i Hi].
      destruct (Forall2_lookup_r _ _ _ _ _ HF Hi) as (f & _ & _ & Hnil).
      by rewrite Hnil, elem_of_nil in He.
    + intros (w & (kv & -> & Hin) & He). eauto.
  - rewrite Hk. apply Forall2_fmap. eapply Forall2_impl; [done|]. by intros ? ? [? _].
Qed.

Lemma prepare_key active k ex items code v s' :
  ob_body <$> h !! x = Some (BSeq k ex items) →
  (members ← mapM (λ i, hash i active) items;
   b ← encode _enc_hook (VList members); mret (VExt code b)) (Some sc) = (Ok v, s') → goal v s'.
Proof using Hhash Hok.
  intros Hb Hr. assert (kids x = items) as Hk by (by rewrite kids_eq, Hb).
  assert (∀ c, ob_body <$> h !! x ≠ Some (BBlob c)) as Hne by (by rewrite Hb).
  apply M_bind_ok in Hr as (ws & s1 & Hm & Hr). apply M_bind_ok in Hr as (b & s2 & He & Hr).
  injection Hr as <- <-. apply (members_prepared hash) in Hm as (sc1 & -> & Hg1 & HF); [|done..].
  rewrite <-Hk in Hg1, HF.
  assert (prepared x (VList ws) sc1) as Hp by (by eapply prepared_seq).
  destruct (encode_prepared_ok _ _ _ _ _ (proj1 Hg1) Hp He) as (sc2 & -> & Hg2 & Hrec).
  exists sc2. split_and!; [done| |by apply prepared_recorded].
  eapply grows_trans; [|done]. eapply grows_impl; [|done]. intros y (k' & Hk' & Hy).
  by eapply blob_in_kid.
Qed.
End Levels.

(** Both preparations account for every blob of the value. *)
Lemma prepare_accounts out fuel : prepares (_prepare_bigints out fuel) ∧ prepares (_prepare_hashable out fuel).
Proof.
  induction fuel as [|fuel [IHb IHh]]; [split; intros x active sc v s' _; done|].
  assert (∀ x sc s', scope_ok sc → ∀ v, (mret (VObject (Z.of_nat x)) : EM pyval) (Some sc) = (Ok v, s') →
    ∃ sc', s' = Some sc' ∧ grows (λ y, blob_in x y false) sc sc' ∧ prepared x v sc') as Hid.
  { intros x sc s' Hok v Hr. injection Hr as <- <-. exists sc.
    split_and!; [done|by apply grows_refl|apply prepared_object]. }
  split.
  - intros x active sc v s' Hok Hr. simpl in Hr.
    destruct (ob_body <$> h !! x) as [[|z|k [] items|[] pairs|fields|closed|]|] eqn:Hb;
      try by eapply Hid.
    + destruct (native_int z); [by eapply Hid|].
      destruct (checked_str_of_int z) as [digits|]; [|done]. injection Hr as <- <-.
      exists sc. split_and!; [done|by apply grows_refl|]. apply prepared_recorded; [done|].
      intros y c Hy. apply blob_in_leaf in Hy as [_ Hy]; [congruence|by rewrite kids_eq, Hb].
    + apply guarded_ok in Hr as [_ Hr]. by eapply (prepare_set _ _ IHb IHh x sc Hok).
    + apply guarded_ok in Hr as [_ Hr]. by eapply (prepare_dict _ _ IHb IHh x sc Hok).
    + apply guarded_ok in Hr as [_ Hr]. apply M_bind_ok in Hr as (kvs & s1 & Hm & Hr).
      injection Hr as <- <-. by eapply (prepare_fields _ IHb x sc Hok).
  - intros x active sc v s' Hok Hr. simpl in Hr.
    assert (∀ k ex items code, ob_body <$> h !! x = Some (BSeq k ex items) →
      guarded x active (λ active, members ← mapM (λ i, _prepare_hashable out fuel i active) items;
        b ← encode _enc_hook (VList members); mret (VExt code b)) (Some sc) = (Ok v, s') →
      ∃ sc', s' = Some sc' ∧ grows (λ y, blob_in x y false) sc sc' ∧ prepared x v sc') as Hseq.
    { intros k ex items code Hb [_ Hg]%guarded_ok. by eapply (prepare_key _ IHh x sc Hok). }
    destruct (ob_body <$> h !! x) as [[|z|[] [] items|[] pairs|fields|closed|]|] eqn:Hb;
      try (by eapply IHb); by eapply Hseq.
Qed.

(** ** What a successful encoding shows *)

Lemma run_fast_state es s r s' : run_events _enc_hook_fast es s = (r, s') → s' = s ∧ (is_ok r = true → es = []).
Proof. destruct es as [|[] es]; simpl; by intros [= <- <-]. Qed.

(** The paths a successful [_encode_prepared] can have taken. *)
Lemma encode_prepared_cases x s b owners s' :
  _encode_prepared x s = (Ok (b, owners), s') →
  (obj_events depth x = [] ∧ owners = [] ∧ s' = s) ∨ _encode_with_blob_scope x s = (Ok (b, owners), s').
Proof.
  unfold _encode_prepared, catching, encode. rewrite !M_bind_unfold.
  destruct (run_events _enc_hook_fast _ s) as [r s1] eqn:Hr.
  apply run_fast_state in Hr as [-> He]. destruct r as [[]|e].
  - specialize (He eq_refl). simpl in He. rewrite Nat2Z.id in He. intros [= _ <- <-]. auto.
  - destruct (matches _ e); [auto|done].
Qed.

(** Even when it fails, the hook only records blobs it met. *)
Lemma hook_grows e sc r s' :
  scope_ok sc → _enc_hook e (Some sc) = (r, s') →
  ∃ sc', s' = Some sc' ∧ grows (λ y, e = EvBlob y false) sc sc'.
Proof.
  intros Hok Hr. assert (run_events _enc_hook [e] (Some sc) = (r, s')) as Hrun.
  { simpl. rewrite M_bind_unfold, Hr. by destruct r as [[]|]. }
  destruct r as [[]|ex].
  - destruct (run_events_grows [e] sc tt s' Hok Hrun) as (sc' & -> & Hg & _). exists sc'.
    split; [done|]. eapply grows_impl; [|done]. by intros y ->%list_elem_of_singleton.
  - exists sc. split; [|by apply grows_refl].
    destruct e as [y []| | |]; simpl in Hr; unfold raise, modify in Hr; by simplify_res.
Qed.

Lemma run_events_state es sc r s' :
  scope_ok sc → run_events _enc_hook es (Some sc) = (r, s') →
  ∃ sc', s' = Some sc' ∧ grows (λ y, EvBlob y false ∈ es) sc sc'.
Proof.
  revert sc. induction es as [|e es IH]; intros sc Hok Hr; simpl in Hr.
  { injection Hr as _ <-. exists sc. split; [done|by apply grows_refl]. }
  rewrite M_bind_unfold in Hr. destruct (_enc_hook e (Some sc)) as [r1 s1] eqn:He.
  destruct (hook_grows _ _ _ _ Hok He) as (sc1 & -> & Hg1).
  assert (grows (λ y, EvBlob y false ∈ e :: es) sc sc1) as Hg1'
    by (eapply grows_impl; [|done]; intros y ->; left).
  destruct r1 as [[]|ex].
  - destruct (IH sc1 (proj1 Hg1) Hr) as (sc2 & -> & Hg2). exists sc2. split; [done|].
    eapply grows_trans; [done|]. eapply grows_impl; [|done]. intros y Hy. by right.
  - injection Hr as _ <-. eauto.
Qed.

(** The scope of a whole message: empty at first, it ends with the blobs of the
    value, and is closed again. *)
Lemma encode_scope_ok x b owners s' :
  _encode_with_blob_scope x None = (Ok (b, owners), s') →
  ∃ sc', grows (λ y, blob_in x y false) empty_scope sc' ∧ recorded x sc' ∧
         owners = es_owners sc' ∧ s' = None.
Proof.
  intros Hs. revert Hs. unfold _encode_with_blob_scope. rewrite M_bind_unfold. unfold catching. simpl default.
  assert (scope_ok empty_scope) as Hok0 by (split; [constructor|done]).
  destruct (encode _enc_hook (VObject (Z.of_nat x)) (Some empty_scope)) as [[b1|e] s1] eqn:He.
  - destruct (encode_prepared_ok x _ _ _ _ Hok0 (prepared_object x _) He) as (sc1 & -> & Hg & Hrec).
    simpl. intros [= _ <- <-]. exists sc1. done.
  - destruct (matches _ e); [|done]. rewrite M_bind_unfold.
    assert (∃ sc1, s1 = Some sc1 ∧ grows (λ y, blob_in x y false) empty_scope sc1) as (sc1 & -> & Hg1).
    { unfold encode in He. rewrite M_bind_unfold in He.
      destruct (run_events _ _ _) as [[[]|e1] s2] eqn:Hr; [done|].
      destruct (run_events_state _ _ _ _ Hok0 Hr) as (sc1 & -> & Hg1). injection He as _ <-.
      exists sc1. split; [done|]. eapply grows_impl; [|done]. simpl. rewrite Nat2Z.id.
      intros y. apply obj_events_sound. }
    destruct (_prepare_bigints (Exc RecursionError) prepare_fuel x [] (Some sc1)) as [[v|e2] s2] eqn:Hp; [|done].
    destruct (proj1 (prepare_accounts _ _) _ _ _ _ _ (proj1 Hg1) Hp) as (sc2 & -> & Hg2 & Hpv).
    destruct (encode _enc_hook v (Some sc2)) as [[b2|e2] s3] eqn:He2; [|done].
    destruct (encode_prepared_ok _ _ _ _ _ (proj1 Hg2) Hpv He2) as (sc3 & -> & Hg3 & Hrec).
    simpl. intros [= _ <- <-]. exists sc3. split_and!; [|done..].
    eapply grows_trans; [done|]. by eapply grows_trans.
Qed.

(** C18: sending a value keeps alive exactly what it refers to.  When an
    application value is encoded, the blob owners handed to the transport are
    each listed once, and they are precisely the BlobRefs inside the value,
    whether it was encoded directly or had to be rewritten for its large
    integers; none of them is closed, and no scope is left open behind. *)
Theorem blob_owners_exact (imported : bool) (x : nat) (b : list N) (owners : list nat)
    (s' : option enc_scope) :
  dumps_with_blob_refs imported x None = (Ok (b, owners), s') →
  NoDup owners ∧ (∀ y, y ∈ owners ↔ blob_in x y false) ∧ (∀ y, ¬ blob_in x y true) ∧ s' = None.
Proof.
  unfold dumps_with_blob_refs.
  assert (_encode_prepared x None = (Ok (b, owners), s') →
    NoDup owners ∧ (∀ y, y ∈ owners ↔ blob_in x y false) ∧ (∀ y, ¬ blob_in x y true) ∧ s' = None) as Hmain.
  2:{ destruct (_reject_pydantic_values h imported x) as [[[]|e]|]; [exact Hmain|done|exact Hmain]. }
  intros [(He & -> & ->)|Hs]%encode_prepared_cases.
  { assert (∀ y c, ¬ blob_in x y c) as Hno.
    { intros y c Hy. apply (obj_events_complete depth) in Hy as [Hc|Hc]; by rewrite He, elem_of_nil in Hc. }
    split_and!; [constructor| |by intros y ?%Hno|done]. intros y. rewrite elem_of_nil.
    split; [done|by intros ?%Hno]. }
  destruct (encode_scope_ok _ _ _ _ Hs) as (sc' & (Hok & _ & Hg) & Hrec & -> & ->).
  assert (∀ y, y ∈ es_owners sc' → blob_in x y false) as Hin.
  { intros y Hy. destruct (Hg y Hy) as [?%not_elem_of_nil|?]; done. }
  split_and!; [apply Hok| | |done].
  - intros y. split; [auto|]. apply Hrec.
  - intros y Hy. pose proof (Hrec y true Hy) as [_ Hb]%Hin. destruct Hy as [_ Hb']. congruence.
Qed.

(** ** Recursive values *)

(** The members [_prepare_bigints] follows. *)
Definition exact_kids (x : nat) : list nat :=
  match ob_body <$> h !! x with
  | Some (BSeq _ true items) => items
  | Some (BDict true pairs) => dict_children pairs
  | Some (BData fields) => fields.*2
  | _ => []
  end.

(** [x] contains an object that contains itself. *)
Definition recursive (succ : nat → list nat) (x : nat) : Prop :=
  ∃ y z, reachable succ x y ∧ z ∈ succ y ∧ reachable succ z y.

(** A recursive value has a recursive member. *)
Lemma recursive_member succ x : recursive succ x → ∃ k, k ∈ succ x ∧ recursive succ k.
Proof.
  intros (y & z & Hxy & Hz & Hzy).
  assert (x = y ∨ ∃ k, k ∈ succ x ∧ reachable succ k y) as [->|(k & Hk & Hky)].
  { clear -Hxy. induction Hxy as [|y z Hr IH Hz]; [by left|]. right.
    destruct IH as [->|(k & Hk & Hky)].
    - exists z. split; [done|apply reach_refl].
    - exists k. split; [done|by eapply reach_step]. }
  - exists z. split; [done|]. exists y, z. done.
  - exists k. split; [done|]. exists y, z. done.
Qed.

Lemma obj_events_kid d x k e : k ∈ kids x → e ∈ obj_events d k → e ∈ obj_events (S d) x.
Proof.
  intros Hk He. rewrite kids_eq in Hk. simpl.
  destruct (ob_body <$> h !! x) as [[|z|kd ex items|ex pairs|fields|closed|]|];
    try by apply not_elem_of_nil in Hk.
  - apply elem_of_flat_map. eauto.
  - apply elem_of_flat_map. unfold dict_children in Hk. rewrite elem_of_app, !list_elem_of_fmap in Hk.
    destruct Hk as [([k' v'] & -> & Hin)|([k' v'] & -> & Hin)]; exists (k', v');
      (split; [done|]); rewrite elem_of_app; auto.
  - apply list_elem_of_fmap in Hk as ([n v] & -> & Hin). apply elem_of_flat_map. by exists (n, v).
Qed.

(** The encoder runs out of depth on a recursive value. *)
Lemma recursive_events d x : recursive kids x → EvRecursion ∈ obj_events d x.
Proof.
  revert x. induction d as [|d IH]; intros x Hx; [left|].
  destruct (recursive_member _ _ Hx) as (k & Hk & Hrk). eapply obj_events_kid; [done|auto].
Qed.

Lemma exact_kids_sub x k : k ∈ exact_kids x → k ∈ kids x.
Proof.
  unfold exact_kids. rewrite kids_eq.
  destruct (ob_body <$> h !! x) as [[|z|kd [] items|[] pairs|fields|closed|]|]; auto; by intros ?%not_elem_of_nil.
Qed.

Lemma recursive_exact x : recursive exact_kids x → recursive kids x.
Proof.
  assert (∀ a b, reachable exact_kids a b → reachable kids a b) as Hr.
  { intros a b. induction 1 as [|b c _ IH Hc]; [apply reach_refl|].
    eapply reach_step; [done|by apply exact_kids_sub]. }
  intros (y & z & Hxy & Hz & Hzy). exists y, z. split_and!; auto using exact_kids_sub.
Qed.

(** A successful preparation entered every member with the container active. *)
Definition prepared_at (active : list nat) (x : nat) : Prop :=
  ∃ out fuel s v s', _prepare_bigints out fuel x active s = (Ok v, s').

Lemma mapM_each {A B} (f : A → EM B) l s bs s' a :
  mapM f l s = (Ok bs, s') → a ∈ l → ∃ s1 b s2, f a s1 = (Ok b, s2).
Proof.
  revert s bs. induction l as [|a' l IH]; intros s bs Hm Ha; [by apply not_elem_of_nil in Ha|].
  simpl in Hm. apply M_bind_ok in Hm as (b & s1 & Hb & Hm).
  apply M_bind_ok in Hm as (bs' & s2 & Hl & Hm). injection Hm as _ ->.
  apply elem_of_cons in Ha as [->|Ha]; eauto.
Qed.

Lemma prepared_at_kids active x :
  prepared_at active x →
  ∀ k, k ∈ exact_kids x → x ∉ active ∧ prepared_at (x :: active) k.
Proof.
  intros (out & fuel & s & v & s' & Hp) k Hk. unfold exact_kids in Hk.
  destruct fuel as [|fuel]; [done|]. simpl in Hp.
  destruct (ob_body <$> h !! x) as [[|z|kd [] items|[] pairs|fields|closed|]|];
    try by apply not_elem_of_nil in Hk.
  all: apply guarded_ok in Hp as [Hx Hp]; split; [done|].
  all: apply M_bind_ok in Hp as (ws & s1 & Hm & _).
  - destruct (mapM_each _ _ _ _ _ _ Hm Hk) as (s2 & b & s3 & Hb). by exists out, fuel, s2, b, s3.
  - unfold dict_children in Hk. rewrite elem_of_app, !list_elem_of_fmap in Hk.
    destruct Hk as [(kv & -> & Hin)|(kv & -> & Hin)];
      destruct (mapM_each _ _ _ _ _ _ Hm Hin) as (s2 & b & s3 & Hb);
      apply M_bind_ok in Hb as (kk & s4 & H1 & Hb); apply M_bind_ok in Hb as (vv & s5 & H2 & _).
    + by exists out, fuel, s2, kk, s4.
    + by exists out, fuel, s4, vv, s5.
  - apply list_elem_of_fmap in Hk as (f & -> & Hin).
    destruct (mapM_each _ _ _ _ _ _ Hm Hin) as (s2 & b & s3 & Hb).
    apply M_bind_ok in Hb as (w & s4 & H1 & _). by exists out, fuel, s2, w, s4.
Qed.

Lemma prepared_at_reachable active x y :
  prepared_at active x → reachable exact_kids x y →
  ∃ active', prepared_at active' y ∧ ∀ a, a ∈ active → a ∈ active'.
Proof.
  intros Hp. induction 1 as [|y z _ (a & Ha & Hsub) Hz]; [by exists active|].
  destruct (prepared_at_kids _ _ Ha z Hz) as [_ Hz']. exists (y :: a). split; [done|].
  intros w Hw. right. auto.
Qed.

Lemma prepared_not_recursive x : prepared_at [] x → ¬ recursive exact_kids x.
Proof.
  intros Hp (y & z & Hxy & Hz & Hzy).
  destruct (prepared_at_reachable _ _ _ Hp Hxy) as (a & Ha & _).
  destruct (prepared_at_kids _ _ Ha z Hz) as [_ Hpz].
  destruct (prepared_at_reachable _ _ _ Hpz Hzy) as (a' & Ha' & Hsub).
  destruct (prepared_at_kids _ _ Ha' z Hz) as [Hn _]. apply Hn, Hsub. left.
Qed.

(** A recursive value is never sent: whatever encodes does not contain, by
    way of builtin containers and dataclasses, an object that contains itself,
    neither on the direct path nor after the rewriting of large integers. *)
Theorem recursive_value_refused (imported : bool) (x : nat) (s s' : option enc_scope)
    (r : list N * list nat) :
  dumps_with_blob_refs imported x s = (Ok r, s') → ¬ recursive exact_kids x.
Proof.
  unfold dumps_with_blob_refs. destruct r as [b owners]. intros Hd Hrec.
  assert (_encode_prepared x s = (Ok (b, owners), s')) as He
    by (destruct (_reject_pydantic_values h imported x) as [[[]|e]|]; [done|discriminate|done]).
  pose proof (recursive_events depth x (recursive_exact x Hrec)) as Hev.
  apply encode_prepared_cases in He as [(He & _)|He]; [by rewrite He, elem_of_nil in Hev|].
  revert He. unfold _encode_with_blob_scope. rewrite M_bind_unfold. unfold catching.
  destruct (encode _enc_hook (VObject (Z.of_nat x)) _) as [[b1|e] s1] eqn:He.
  - exfalso. unfold encode in He. apply M_bind_ok in He as ([] & s2 & Hr & _). revert Hr.
    simpl. rewrite Nat2Z.id. revert Hev. generalize (obj_events depth x) as es, (Some (default empty_scope s)) as s0.
    clear. induction es as [|e es IH]; intros s0 Hin Hr; [by apply not_elem_of_nil in Hin|].
    simpl in Hr. apply M_bind_ok in Hr as ([] & s1 & Hh & Hr).
    apply elem_of_cons in Hin as [<-|Hin]; [done|eauto].
  - destruct (matches _ e); [|done]. rewrite M_bind_unfold.
    destruct (_prepare_bigints (Exc RecursionError) prepare_fuel x [] s1) as [[v|e2] s2] eqn:Hp; [|done].
    intros _. apply (prepared_not_recursive x); [|done]. by exists (Exc RecursionError), prepare_fuel, s1, v, s2.
Qed.

(** ** The recursion budget *)

(** Objects not yet active: each level of containers uses one up. *)
Definition inactive (active : list nat) : nat := unseen (λ x, x) (length h) active.

Lemma inactive_cons x active b :
  ob_body <$> h !! x = Some b → x ∉ active → (S (inactive (x :: active)) <= inactive active)%nat.
Proof.
  intros Hb Hx. apply (unseen_cons (λ x, x)); [|done].
  destruct (h !! x) as [o|] eqn:Hh; [|done]. by eapply lookup_lt_Some.
Qed.

(** One level of containers, when the next level agrees. *)
Section Budget.
Context (out out' : exn) (f f' : nat) (x : nat) (active : list nat).
Context (Hb : ∀ k s, _prepare_bigints out f k (x :: active) s = _prepare_bigints out' f' k (x :: active) s).
Context (Hh : ∀ k s, _prepare_hashable out f k (x :: active) s = _prepare_hashable out' f' k (x :: active) s).

Lemma guarded_ext {A} (g g' : list nat → EM A) s :
  (∀ s, g (x :: active) s = g' (x :: active) s) → guarded x active g s = guarded x active g' s.
Proof using Type. intros Hg. unfold guarded. case_bool_decide; [done|apply Hg]. Qed.

Lemma prepare_step_agrees s :
  (∃ b, ob_body <$> h !! x = Some b) →
  _prepare_bigints out (S f) x active s = _prepare_bigints out' (S f') x active s.
Proof using Hb Hh.
  intros [b Hx]. simpl. rewrite Hx. destruct b as [|z|k [] items|[] pairs|fields|closed|]; try done.
  - apply guarded_ext. intros s1. apply M_bind_ext; [by apply M_mapM_ext|]. intros ws s2.
    assert ((encoded ← mapM (λ i, m ← _prepare_hashable out f i (x :: active); b ← _encoded_item m;
                                  mret (VBytes b)) items;
             mret (VExt _EXT_BIG_SET (pack (VList encoded)))) s2 =
            (encoded ← mapM (λ i, m ← _prepare_hashable out' f' i (x :: active); b ← _encoded_item m;
                                  mret (VBytes b)) items;
             mret (VExt _EXT_BIG_SET (pack (VList encoded)))) s2) as Henc.
    { apply M_bind_ext; [|done]. apply M_mapM_ext. intros i s3 _. by apply M_bind_ext. }
    destruct k; try done; by destruct (forallb hashable ws).
  - apply guarded_ext. intros s1. apply M_bind_ext.
    { apply M_mapM_ext. intros kv s2 _. apply M_bind_ext; [done|]. intros k s3. by apply M_bind_ext. }
    intros kvs s2. destruct (forallb _ kvs); [done|]. apply M_bind_ext; [|done].
    apply M_mapM_ext. intros kv s3 _. apply M_bind_ext; [done|]. intros k s4.
    apply M_bind_ext; [done|]. intros kb s5. by apply M_bind_ext.
  - apply guarded_ext. intros s1. apply M_bind_ext; [|done]. apply M_mapM_ext.
    intros fd s2 _. by apply M_bind_ext.
Qed.

Lemma prepare_key_agrees code items s :
  guarded x active (λ active, members ← mapM (λ i, _prepare_hashable out f i active) items;
    b ← encode _enc_hook (VList members); mret (VExt code b)) s =
  guarded x active (λ active, members ← mapM (λ i, _prepare_hashable out' f' i active) items;
    b ← encode _enc_hook (VList members); mret (VExt code b)) s.
Proof using Hh. apply guarded_ext. intros s1. apply M_bind_ext; [by apply M_mapM_ext|done]. Qed.
End Budget.

(** Two budgets that are enough give the same result. *)
Lemma prepare_budget out out' n : ∀ f f' x active s,
  (inactive active < n)%nat →
  ((2 * inactive active + 1 <= f)%nat → (2 * inactive active + 1 <= f')%nat →
   _prepare_bigints out f x active s = _prepare_bigints out' f' x active s) ∧
  ((2 * inactive active + 2 <= f)%nat → (2 * inactive active + 2 <= f')%nat →
   _prepare_hashable out f x active s = _prepare_hashable out' f' x active s).
Proof.
  induction n as [|n IH]; intros f f' x active s Hn; [lia|].
  assert (∀ f f' b, ob_body <$> h !! x = Some b → x ∉ active →
    (2 * inactive active <= f)%nat → (2 * inactive active <= f')%nat →
    (∀ k s, _prepare_bigints out f k (x :: active) s = _prepare_bigints out' f' k (x :: active) s) ∧
    (∀ k s, _prepare_hashable out f k (x :: active) s = _prepare_hashable out' f' k (x :: active) s)) as Hnext.
  { intros g g' b Hb Hx Hg Hg'. pose proof (inactive_cons x active b Hb Hx).
    split; intros k s0; apply IH; lia. }
  assert (∀ g g' s, (2 * inactive active + 1 <= g)%nat → (2 * inactive active + 1 <= g')%nat →
    _prepare_bigints out g x active s = _prepare_bigints out' g' x active s) as Hbig.
  { intros [|g] [|g'] s0 Hg Hg'; try lia.
    destruct (ob_body <$> h !! x) as [b|] eqn:Hb; [|simpl; by rewrite Hb].
    destruct (decide (x ∈ active)) as [Hx|Hx].
    - simpl. rewrite Hb. unfold guarded. rewrite bool_decide_eq_true_2 by done. done.
    - destruct (Hnext g g' b eq_refl Hx) as [H1 H2]; [lia..|]. apply prepare_step_agrees; eauto. }
  split; [intros; by apply Hbig|]. destruct f as [|f], f' as [|f']; try lia. intros Hf Hf'. simpl.
  destruct (ob_body <$> h !! x) as [b|] eqn:Hb; [|apply Hbig; lia].
  destruct (decide (x ∈ active)) as [Hx|Hx].
  - unfold guarded. rewrite bool_decide_eq_true_2 by done.
    destruct b as [|z|[] [] items|[] pairs|fields|closed|]; try done; apply Hbig; lia.
  - destruct (Hnext f f' b eq_refl Hx) as [H1 H2]; [lia..|].
    destruct b as [|z|[] [] items|[] pairs|fields|closed|]; try (apply Hbig; lia);
      by apply prepare_key_agrees.
Qed.

(** C34: the rewriting of large integers terminates: its recursion is never
    deeper than twice the number of objects.  With that budget or any larger one
    it is never used up: what would be raised then makes no difference to the
    result, nor does the size of the budget.  A value that contains itself is
    not rewritten but refused. *)
Theorem prepare_terminates (out : exn) (fuel : nat) (x : nat) (s : option enc_scope) :
  (prepare_fuel <= fuel)%nat →
  _prepare_bigints out fuel x [] s = _prepare_bigints (Exc RecursionError) prepare_fuel x [] s ∧
  (recursive exact_kids x → is_ok (_prepare_bigints out fuel x [] s).1 = false).
Proof.
  intros Hf. split.
  - assert (inactive [] <= length h)%nat as Hi.
    { unfold inactive, unseen. etrans; [apply List.filter_length_le|]. by rewrite length_seq. }
    apply (prepare_budget out (Exc RecursionError) (S (inactive []))); unfold prepare_fuel in *; lia.
  - intros Hx. destruct (_prepare_bigints out fuel x [] s) as [[v|e] s'] eqn:Hp; [|done]. exfalso.
    apply (prepared_not_recursive x); [|done]. by exists out, fuel, s, v, s'.
Qed.

End Encoding.

(** ** A concrete value *)

(** [[blob, 2**70, blob, {2**70: blob2}]] *)
Definition sample_heap : heap :=
  [Object false (BSeq KList true [1; 2; 1; 3]%nat); Object false (BBlob false);
   Object false (BInt (2 ^ 70)); Object false (BDict true [(2, 4)%nat]); Object false (BBlob false)].

Lemma blob_owners_exact_witness :
  NoDup [1; 4]%nat ∧ (∀ y, y ∈ [1; 4]%nat ↔ blob_in sample_heap 0 y false) ∧
  (∀ y, ¬ blob_in sample_heap 0 y true) ∧ @None enc_scope = None.
Proof.
  apply (blob_owners_exact sample_heap 50 (λ _, []) true 0 [] [1; 4]%nat None). vm_compute. reflexivity.
Defined.

Lemma recursive_value_refused_witness : ¬ recursive (exact_kids sample_heap) 0.
Proof.
  apply (recursive_value_refused sample_heap 50 (λ _, []) true 0 None None ([], [1; 4]%nat)).
  vm_compute. reflexivity.
Defined.

(** A list that holds itself and a large integer: refused, the budget unused. *)
Definition cyclic_heap : heap := [Object false (BSeq KList true [1; 0]%nat); Object false (BInt (2 ^ 70))].

Lemma prepare_terminates_witness :
  _prepare_bigints cyclic_heap 50 (λ _, []) (Exc KeyError) 500 0 [] (Some empty_scope) =
    (Raise (Exc ValueError), Some empty_scope) ∧
  _prepare_bigints cyclic_heap 50 (λ _, []) (Exc KeyError) 500 0 [] (Some empty_scope) =
    _prepare_bigints cyclic_heap 50 (λ _, []) (Exc RecursionError) (prepare_fuel cyclic_heap) 0 [] (Some empty_scope) ∧
  is_ok (_prepare_bigints cyclic_heap 50 (λ _, []) (Exc KeyError) 500 0 [] (Some empty_scope)).1 = false.
Proof.
  split; [vm_compute; reflexivity|].
  destruct (prepare_terminates cyclic_heap 50 (λ _, []) (Exc KeyError) 500 0 (Some empty_scope)) as [H1 H2]; [vm_compute; lia|].
  split; [exact H1|]. apply H2. exists 0%nat, 0%nat. split_and!; [apply reach_refl| |apply reach_refl].
  vm_compute. right. left.
Defined.
