(* ===== verification/Decode.v ===== *)
(** * Decoding: the incoming half of [_msgpack.py]

    A message is decoded by the plain decoder when it holds no extension;
    otherwise again inside a blob decode scope, where [_decode_ext] turns each
    extension into the value it stands for and counts what the message may
    map.  msgspec's parser and [BlobRef.from_descriptor] are arguments; a
    message is parsed before its extensions are looked at. *)

From S2P Require Import Prelude PyStr PyFloat Errors Codec Graph Objects Encode.

Local Open Scope Z_scope.

Definition _MAX_BLOB_REFS_PER_MESSAGE : Z := 64.
Definition _MAX_BLOB_MAPPED_BYTES_PER_MESSAGE : Z := 512 * 1024 * 1024.
Definition _BLOB_HEADER_BYTES : Z := 32.

(** [_codec_local.decode] *)
Record dec_scope := DecScope {
  ds_refs : Z;
  ds_mapped : Z;
  ds_cache : list (list N * Z)
}.

Definition new_dec_scope : dec_scope := DecScope 0 0 [].

Notation DM := (M (option dec_scope) exn).

Fixpoint cache_find (raw : list N) (c : list (list N * Z)) : option Z :=
  match c with
  | [] => None
  | (r, o) :: c' => if bool_decide (r = raw) then Some o else cache_find raw c'
  end.

Lemma cache_find_None raw c : cache_find raw c = None → raw ∉ c.*1.
Proof.
  induction c as [|[r o] c IH]; simpl; [intros _; apply not_elem_of_nil|].
  case_bool_decide; [done|]. intros Hf. rewrite elem_of_cons. intros [->|?]; [done|by apply IH].
Qed.

Lemma cache_find_Some raw c o : cache_find raw c = Some o → o ∈ c.*2.
Proof.
  induction c as [|[r o'] c IH]; simpl; [done|]. case_bool_decide; [intros [= <-]; set_solver|].
  intros Hf. apply IH in Hf. set_solver.
Qed.

(** ** Where the blobs of decoded values come from *)

(** The blobs in a value. *)
Fixpoint blobs_of (v : pyval) : list Z :=
  match v with
  | VBlobRef o => [o]
  | VList l | VTuple l | VSet l | VFrozenset l => flat_map blobs_of l
  | VDict kvs => flat_map (λ kv, blobs_of kv.1 ++ blobs_of kv.2) kvs
  | _ => []
  end.

(** A step that keeps the scope open, forgets no blob, and whose result holds
    only blobs of the scope, when the ones in [C] already are. *)
Definition brings {A} (C : list Z) (bl : A → list Z) (m : DM A) : Prop :=
  ∀ sc r s', C ⊆ (ds_cache sc).*2 → m (Some sc) = (r, s') →
  ∃ sc', s' = Some sc' ∧ (ds_cache sc).*2 ⊆ (ds_cache sc').*2 ∧
         ∀ a, r = Ok a → bl a ⊆ (ds_cache sc').*2.

Definition blobs_of_all (l : list pyval) : list Z := flat_map blobs_of l.
Definition blobs_of_pairs (l : list (pyval * pyval)) : list Z :=
  flat_map (λ kv, blobs_of kv.1 ++ blobs_of kv.2) l.

Section Brings.
Context {A : Type} (C : list Z) (bl : A → list Z).

Lemma brings_ret a : bl a ⊆ C → brings C bl (mret a).
Proof. intros Ha sc r s' HC [= <- <-]. exists sc. split_and!; [done..|]. intros b [= <-]. set_solver. Qed.
Lemma brings_raise e : brings C bl (raise e).
Proof. intros sc r s' HC [= <- <-]. exists sc. split_and!; done. Qed.
Lemma brings_lift (r : res A) : (∀ a, r = Ok a → bl a ⊆ C) → brings C bl (lift r).
Proof. intros Hr sc r' s' HC [= <- <-]. exists sc. split_and!; [done..|]. set_solver. Qed.
Lemma brings_bind {B} (bl' : B → list Z) (m : DM B) (f : B → DM A) :
  brings C bl' m → (∀ b, brings (C ++ bl' b) bl (f b)) → brings C bl (m ≫= f).
Proof.
  intros Hm Hf sc r s' HC. rewrite M_bind_unfold. destruct (m (Some sc)) as [[b|e] s1] eqn:Hb;
    destruct (Hm _ _ _ HC Hb) as (sc1 & -> & Hg & Ho).
  - intros Hr. destruct (Hf b sc1 r s') as (sc2 & -> & Hg2 & Ho2); [|done|].
    + specialize (Ho b eq_refl). set_solver.
    + exists sc2. split_and!; [done|set_solver|done].
  - intros [= <- <-]. exists sc1. split_and!; done.
Qed.
Lemma brings_fmap {B} (bl' : B → list Z) (f : B → A) (m : DM B) :
  brings C bl' m → (∀ b, bl (f b) ⊆ bl' b) → brings C bl (f <$> m).
Proof.
  intros Hm Hf sc r s' HC. unfold fmap, M_fmap. destruct (m (Some sc)) as [[b|e] s1] eqn:Hb;
    intros [= <- <-]; destruct (Hm _ _ _ HC Hb) as (sc1 & -> & Hg & Ho);
    exists sc1; (split_and!; [done..|]); [|done].
  intros a [= <-]. specialize (Ho b eq_refl). specialize (Hf b). set_solver.
Qed.
Lemma brings_mapM {B} (f : B → DM A) l :
  Forall (λ b, ∀ C', C ⊆ C' → brings C' bl (f b)) l → brings C (flat_map bl) (mapM f l).
Proof.
  intros HF. enough (∀ C', C ⊆ C' → brings C' (flat_map bl) (mapM f l)) by set_solver.
  induction HF as [|b l Hb HF IH]; intros C' HC'; simpl.
  - intros sc r s' HC [= <- <-]. exists sc. split_and!; [done..|]. intros a [= <-]. set_solver.
  - intros sc r s' HC. rewrite M_bind_unfold. destruct (f b (Some sc)) as [[a|e] s1] eqn:Ha;
      destruct (Hb C' HC' _ _ _ HC Ha) as (sc1 & -> & Hg & Ho).
    2: { intros [= <- <-]. exists sc1. split_and!; done. }
    rewrite M_bind_unfold. destruct (mapM f l (Some sc1)) as [[al|e] s2] eqn:Hl;
      destruct (IH C' HC' sc1 _ _ ltac:(set_solver) Hl) as (sc2 & -> & Hg2 & Ho2);
      intros [= <- <-]; exists sc2; (split_and!; [done|set_solver|]); [|done].
    intros l' [= <-]. simpl. specialize (Ho a eq_refl). specialize (Ho2 al eq_refl). set_solver.
Qed.
Lemma brings_catching (m : DM A) h :
  brings C bl m → (∀ e k, h e = Some k → brings C bl k) → brings C bl (catching m h).
Proof.
  intros Hm Hh sc r s' HC. unfold catching. destruct (m (Some sc)) as [[a|e] s1] eqn:Ha;
    destruct (Hm _ _ _ HC Ha) as (sc1 & -> & Hg & Ho).
  - intros [= <- <-]. exists sc1. split_and!; done.
  - destruct (h e) as [k|] eqn:He; [|intros [= <- <-]; exists sc1; split_and!; done].
    intros Hk. destruct (Hh e k He sc1 r s') as (sc2 & -> & Hg2 & Ho2); [set_solver|done|].
    exists sc2. split_and!; [done|set_solver|done].
Qed.
End Brings.


(** ** Decoding a message *)

(** The pieces a message is decoded by: [loads] and [convert_msgpack]. *)
Inductive decode_op := OpLoads (raw : list N) | OpConvert (raw : list N) (want : Z).

Section Decoding.
Context (unpack : list N → res pyval) (from_descriptor : list N → res Z).

(** [_descriptor_size] *)
Definition _descriptor_size (raw : list N) : res (option Z) :=
  match unpack raw with
  | Ok (VDict kvs) => match dict_get (u "size") kvs with
                      | Some (VInt z) => Ok (if 0 <=? z then Some z else None)
                      | _ => Ok None
                      end
  | Ok _ => Ok None
  | Raise e => if matches [DecodeError] e then Ok None else Raise e
  end.

(** The accounting [_decode_ext] does before it maps a blob: the cached blob if
    the message named it before. *)
Definition account (raw : list N) (sc : dec_scope) : res (option Z) * dec_scope :=
  let sc1 := DecScope (ds_refs sc + 1) (ds_mapped sc) (ds_cache sc) in
  if _MAX_BLOB_REFS_PER_MESSAGE <? ds_refs sc1 then (Raise (Exc BlobError), sc1)
  else match cache_find raw (ds_cache sc1) with
       | Some cached => (Ok (Some cached), sc1)
       | None =>
           match _descriptor_size raw with
           | Raise e => (Raise e, sc1)
           | Ok None => (Ok None, sc1)
           | Ok (Some size) =>
               let mapped := ds_mapped sc1 + _BLOB_HEADER_BYTES + size in
               if _MAX_BLOB_MAPPED_BYTES_PER_MESSAGE <? mapped then (Raise (Exc BlobError), sc1)
               else (Ok None, DecScope (ds_refs sc1) mapped (ds_cache sc1))
           end
       end.

Definition remember (raw : list N) (o : Z) (sc : dec_scope) : dec_scope :=
  DecScope (ds_refs sc) (ds_mapped sc) ((raw, o) :: ds_cache sc).

(** The [_EXT_BLOB_REF] branch of [_decode_ext]. *)
Definition decode_blob (raw : list N) : DM pyval := λ s,
  if 4096 <? Z.of_nat (length raw) then (Raise (Exc BlobError), s)
  else match s with
       | None => (VBlobRef <$> from_descriptor raw, None)
       | Some sc =>
           match account raw sc with
           | (Raise e, sc1) => (Raise e, Some sc1)
           | (Ok (Some cached), sc1) => (Ok (VBlobRef cached), Some sc1)
           | (Ok None, sc1) =>
               match from_descriptor raw with
               | Raise e => (Raise e, Some sc1)
               | Ok o => (Ok (VBlobRef o), Some (remember raw o sc1))
               end
           end
       end.

(** Whether a decoded value can be a key or a set member. *)
Fixpoint hashable_value (v : pyval) : bool :=
  match v with
  | VTuple l | VFrozenset l => forallb hashable_value l
  | VList _ | VSet _ | VDict _ | VExt _ _ => false
  | _ => true
  end.

(** Iterating a decoded array of byte strings, and of pairs of them. *)
Fixpoint byte_items (l : list pyval) : res (list (list N)) :=
  match l with
  | [] => Ok []
  | VBytes b :: l' => rest ← byte_items l'; Ok (b :: rest)
  | _ => Raise (Exc TypeError)
  end.

Fixpoint byte_pairs (l : list pyval) : res (list (list N * list N)) :=
  match l with
  | [] => Ok []
  | VList [VBytes k; VBytes v] :: l' => rest ← byte_pairs l'; Ok ((k, v) :: rest)
  | VList [_; _] :: _ => Raise (Exc TypeError)
  | VList _ :: _ => Raise (Exc ValueError)
  | _ => Raise (Exc TypeError)
  end.

(** A sequence of items out of a decoded value. *)
Definition items_of (v : pyval) : res (list pyval) :=
  match v with
  | VList l | VTuple l | VSet l | VFrozenset l => Ok l
  | VDict kvs => Ok kvs.*1
  | _ => Raise (Exc TypeError)
  end.

Section Ext.
Context (decode : list N → DM pyval).

(** [{k: v for ...}] and [{x for ...}]: an unhashable member raises. *)
Fixpoint decode_pairs (l : list (list N * list N)) : DM (list (pyval * pyval)) :=
  match l with
  | [] => mret []
  | (kb, vb) :: l' =>
      k ← decode kb; v ← decode vb;
      if hashable_value k then rest ← decode_pairs l'; mret ((k, v) :: rest)
      else raise (Exc TypeError)
  end.

Fixpoint decode_members (l : list (list N)) : DM (list pyval) :=
  match l with
  | [] => mret []
  | b :: l' =>
      v ← decode b;
      if hashable_value v then rest ← decode_members l'; mret (v :: rest)
      else raise (Exc TypeError)
  end.

(** [_decode_ext] *)
Definition _decode_ext (code : Z) (data : list N) : DM pyval :=
  if code =? _EXT_BLOB_REF then decode_blob data
  else if code =? _EXT_BIG_INT then
    if isascii data then match int_of_str data with
                         | Some z => mret (VInt z)
                         | None => raise (Exc ValueError)
                         end
    else raise (Exc UnicodeError)
  else if code =? _EXT_BIG_DICT then
    raw ← lift (unpack data); items ← lift (items_of raw); pairs ← lift (byte_pairs items);
    kvs ← decode_pairs pairs; mret (VDict kvs)
  else if code =? _EXT_BIG_SET then
    raw ← lift (unpack data); items ← lift (items_of raw); bs ← lift (byte_items items);
    l ← decode_members bs; mret (VSet l)
  else if code =? _EXT_TUPLE_KEY then
    v ← decode data; l ← lift (items_of v); mret (VTuple l)
  else if code =? _EXT_FROZENSET_KEY then
    v ← decode data; l ← lift (items_of v);
    if forallb hashable_value l then mret (VFrozenset l) else raise (Exc TypeError)
  else mret (VExt code data).
End Ext.

(** The extensions of a parsed message, replaced in order. *)
Fixpoint apply_hooks (ext : Z → list N → DM pyval) (v : pyval) : DM pyval :=
  match v with
  | VExt code data => ext code data
  | VList l => VList <$> mapM (apply_hooks ext) l
  | VDict kvs =>
      VDict <$> mapM (λ kv, k ← apply_hooks ext kv.1; x ← apply_hooks ext kv.2; mret (k, x)) kvs
  | _ => mret v
  end.

(** [_decoder.decode(raw)]; [fuel] is the interpreter's recursion budget. *)
Fixpoint decoder (fuel : nat) (raw : list N) : DM pyval :=
  match fuel with
  | O => raise (Exc RecursionError)
  | S fuel => v ← lift (unpack raw); apply_hooks (_decode_ext (decoder fuel)) v
  end.

Fixpoint has_ext (v : pyval) : bool :=
  match v with
  | VExt _ _ => true
  | VList l => existsb has_ext l
  | VDict kvs => existsb (λ kv, has_ext kv.1 || has_ext kv.2) kvs
  | _ => false
  end.

(** [_fast_decoder.decode(raw)]: [_decode_ext_fast] refuses every extension. *)
Definition fast_decoder (raw : list N) : DM pyval :=
  v ← lift (unpack raw); if has_ext v then raise (Exc BlobScopeRequired) else mret v.

(** [blob_decode_scope] *)
Definition blob_scope {A} (m : DM A) : DM A := λ s,
  match s with
  | Some _ => m s
  | None => let '(r, _) := m (Some new_dec_scope) in (r, None)
  end.

(** [_decode_with_scope] and [_decode_maybe_scoped] *)
Definition _decode_maybe_scoped (dec fast : list N → DM pyval) (raw : list N) : DM pyval :=
  catching (fast raw)
    (λ e, if matches [BlobScopeRequired] e then Some (blob_scope (dec raw)) else None).

Context (depth : nat).

(** [loads] *)
Definition loads_msgpack (raw : list N) : DM pyval :=
  _decode_maybe_scoped (decoder depth) fast_decoder raw.

(** msgspec's conversion to a type, and the check on the type itself. *)
Context (msgspec_convert : pyval → Z → res pyval) (reject_type : Z → res unit).

(** [convert] *)
Definition convert_value (v : pyval) (want : Z) : res pyval :=
  _ ← reject_type want; msgspec_convert v want.

(** [_typed_decoder(want).decode(raw)] and [_typed_fast_decoder(want).decode(raw)] *)
Definition _typed_decoder (want : Z) (raw : list N) : DM pyval :=
  v ← decoder depth raw; lift (msgspec_convert v want).
Definition _typed_fast_decoder (want : Z) (raw : list N) : DM pyval :=
  v ← fast_decoder raw; lift (msgspec_convert v want).

(** [convert_msgpack] *)
Definition convert_msgpack_value (raw : list N) (want : Z) : DM pyval :=
  _ ← lift (reject_type want);
  catching (_decode_maybe_scoped (_typed_decoder want) (_typed_fast_decoder want) raw)
    (λ e, if matches [ValidationError] e
          then Some (v ← loads_msgpack raw; lift (convert_value v want))
          else None).

(** ** The budget of a message *)

(** Whether a descriptor is a map that names its size, as the ones that
    [descriptor_bytes] writes are. *)
Definition names_size (raw : list N) : bool :=
  match unpack raw with Ok (VDict kvs) => bool_decide (is_Some (dict_get (u "size") kvs)) | _ => false end.

(** What mapping the blobs of such descriptors takes, [native_size] being the
    size the extension module reads in a descriptor: the header and the blob. *)
Definition named_bytes (native_size : list N → Z) (c : list (list N * Z)) : Z :=
  foldr (λ e n, (if names_size e.1 then _BLOB_HEADER_BYTES + native_size e.1 else 0) + n) 0 c.

(** *** Invariants of an open scope *)

Section Within.
Context (I : dec_scope → Prop).

(** A step that keeps the scope open, and [I] true of it. *)
Definition within {A} (m : DM A) : Prop :=
  ∀ sc r s', I sc → m (Some sc) = (r, s') → ∃ sc', s' = Some sc' ∧ I sc'.

Lemma within_ret {A} (a : A) : within (mret a).
Proof. intros sc b s' Hok [= <- <-]. eauto. Qed.
Lemma within_raise {A} e : within (@raise _ _ A e).
Proof. intros sc b s' Hok [= <- <-]. eauto. Qed.
Lemma within_lift {A} (r : res A) : within (lift r).
Proof. intros sc b s' Hok [= _ <-]. eauto. Qed.
Lemma within_bind {A B} (m : DM A) (f : A → DM B) : within m → (∀ a, within (f a)) → within (m ≫= f).
Proof.
  intros Hm Hf sc b s' Hok. rewrite M_bind_unfold. destruct (m (Some sc)) as [[a|e] s1] eqn:Ha;
    destruct (Hm _ _ _ Hok Ha) as (sc1 & -> & Hok1).
  - by apply Hf.
  - intros [= <- <-]. eauto.
Qed.
Lemma within_fmap {A B} (f : A → B) (m : DM A) : within m → within (f <$> m).
Proof.
  intros Hm sc b s' Hok. unfold fmap, M_fmap. destruct (m (Some sc)) as [[a|e] s1] eqn:Ha;
    intros [= <- <-]; by eapply Hm.
Qed.
Lemma within_mapM {A B} (f : A → DM B) l : Forall (λ a, within (f a)) l → within (mapM f l).
Proof.
  induction 1 as [|a l Ha HF IH]; simpl; [apply within_ret|].
  apply within_bind; [done|]. intros b. apply within_bind; [done|]. intros bs. apply within_ret.
Qed.
Lemma within_catching {A} (m : DM A) h :
  within m → (∀ e k, h e = Some k → within k) → within (catching m h).
Proof.
  intros Hm Hh sc r s' Hok. unfold catching. destruct (m (Some sc)) as [[a|e] s1] eqn:Ha;
    destruct (Hm _ _ _ Hok Ha) as (sc1 & -> & Hok1).
  - intros [= <- <-]. eauto.
  - destruct (h e) as [k|] eqn:He; [by eapply Hh|]. intros [= <- <-]. eauto.
Qed.
Lemma within_scope {A} (m : DM A) : within m → within (blob_scope m).
Proof. intros Hm sc r s' Hok. simpl. by apply Hm. Qed.

#[local] Hint Resolve within_ret within_raise within_lift within_bind within_fmap within_scope : tinyray.

Context (Hblob : ∀ raw, within (decode_blob raw)).

Lemma within_ext dec code data : (∀ b, within (dec b)) → within (_decode_ext dec code data).
Proof using Hblob.
  intros Hd. unfold _decode_ext.
  assert (∀ l, within (decode_pairs dec l)) as Hp.
  { induction l as [|[kb vb] l IH]; simpl; [auto with tinyray|].
    apply within_bind; [done|]. intros k. apply within_bind; [done|]. intros v.
    case_match; auto with tinyray. }
  assert (∀ l, within (decode_members dec l)) as Hm.
  { induction l as [|b l IH]; simpl; [auto with tinyray|].
    apply within_bind; [done|]. intros v. case_match; auto with tinyray. }
  repeat case_match; auto with tinyray; auto 8 with tinyray.
  apply within_bind; [done|]. intros v. apply within_bind; [auto with tinyray|]. intros l.
  case_match; auto with tinyray.
Qed.

Lemma within_hooks ext v : (∀ c d, within (ext c d)) → within (apply_hooks ext v).
Proof.
  intros He. induction v using pyval_nested_ind; simpl; auto with tinyray.
  - apply within_fmap, within_mapM. done.
  - apply within_fmap, within_mapM. eapply Forall_impl; [done|]. intros [k x] [Hk Hx]. simpl in *.
    apply within_bind; [done|]. intros k'. apply within_bind; [done|]. auto with tinyray.
Qed.

Lemma within_decoder fuel raw : within (decoder fuel raw).
Proof using Hblob.
  revert raw. induction fuel as [|fuel IH]; intros raw; simpl; [apply within_raise|].
  apply within_bind; [apply within_lift|]. intros v. apply within_hooks. intros c d. by apply within_ext.
Qed.

Lemma within_fast raw : within (fast_decoder raw).
Proof. unfold fast_decoder. apply within_bind; [auto with tinyray|]. intros v. case_match; auto with tinyray. Qed.

Lemma within_maybe dec fast raw :
  within (dec raw) → within (fast raw) → within (_decode_maybe_scoped dec fast raw).
Proof.
  intros Hd Hf. apply within_catching; [done|]. intros e k. case_match; [|done].
  intros [= <-]. by apply within_scope.
Qed.

Lemma within_loads raw : within (loads_msgpack raw).
Proof using Hblob. apply within_maybe; [apply within_decoder|apply within_fast]. Qed.

Lemma within_convert raw want : within (convert_msgpack_value raw want).
Proof using Hblob.
  unfold convert_msgpack_value. apply within_bind; [auto with tinyray|]. intros _.
  apply within_catching.
  - apply within_maybe; unfold _typed_decoder, _typed_fast_decoder;
      (apply within_bind; [auto using within_decoder, within_fast|auto with tinyray]).
  - intros e k. case_match; [|done]. intros [= <-].
    apply within_bind; [apply within_loads|auto with tinyray].
Qed.
End Within.

(** *** Every blob of a decoded value is one the scope opened *)

Lemma account_cache raw sc r sc1 : account raw sc = (r, sc1) → ds_cache sc1 = ds_cache sc.
Proof using Type. unfold account. cbv zeta. repeat case_match; by intros [= <- <-]. Qed.

Lemma account_cached raw sc o sc1 : account raw sc = (Ok (Some o), sc1) → o ∈ (ds_cache sc1).*2.
Proof using Type.
  intros Ha. rewrite (account_cache _ _ _ _ Ha). revert Ha. unfold account. simpl.
  case_match; [done|]. destruct (cache_find raw (ds_cache sc)) as [c|] eqn:Hc.
  - intros [= <- <-]. by eapply cache_find_Some.
  - repeat case_match; by intros [= <- <-].
Qed.

Lemma brings_blob C raw : brings C blobs_of (decode_blob raw).
Proof using Type.
  clear reject_type msgspec_convert depth.
  intros sc r s' HC. unfold decode_blob. case_match; [intros [= <- <-]; exists sc; split_and!; done|].
  destruct (account raw sc) as [r1 sc1] eqn:Ha. pose proof (account_cache _ _ _ _ Ha) as Hca.
  destruct r1 as [[cached|]|e].
  - apply account_cached in Ha. intros [= <- <-]. exists sc1.
    split_and!; [done|by rewrite Hca|]. intros a [= <-]. simpl. set_solver.
  - destruct (from_descriptor raw) as [o|e] eqn:Ho; intros [= <- <-].
    + exists (remember raw o sc1). split_and!; [done| |].
      * simpl. rewrite Hca. set_solver.
      * intros a [= <-]. simpl. set_solver.
    + exists sc1. split_and!; [done|by rewrite Hca|done].
  - intros [= <- <-]. exists sc1. split_and!; [done|by rewrite Hca|done].
Qed.
Lemma blobs_of_items v l : items_of v = Ok l → blobs_of_all l ⊆ blobs_of v.
Proof using Type.
  clear reject_type msgspec_convert depth unpack from_descriptor.
  destruct v; simpl; try done; intros [= <-]; try done.
  induction kvs as [|[k x] kvs IH]; simpl; set_solver.
Qed.

Lemma brings_ext dec C code data :
  (∀ C' b, brings C' blobs_of (dec b)) → brings C blobs_of (_decode_ext dec code data).
Proof using Type.
  clear reject_type msgspec_convert depth. intros Hd. unfold _decode_ext.
  assert (∀ l C', brings C' blobs_of_pairs (decode_pairs dec l)) as Hp.
  { induction l as [|[kb vb] l IH]; intros C'; simpl; [apply brings_ret; set_solver|].
    eapply brings_bind; [done|]. intros k. eapply brings_bind; [done|]. intros v.
    case_match; [|apply brings_raise]. eapply brings_bind; [done|]. intros rest.
    apply brings_ret. simpl. set_solver. }
  assert (∀ l C', brings C' blobs_of_all (decode_members dec l)) as Hm.
  { induction l as [|b l IH]; intros C'; simpl; [apply brings_ret; set_solver|].
    eapply brings_bind; [done|]. intros v. case_match; [|apply brings_raise].
    eapply brings_bind; [done|]. intros rest. apply brings_ret. simpl. set_solver. }
  assert (∀ C' v, blobs_of v ⊆ C' → brings C' blobs_of_all (lift (items_of v))) as Hi.
  { intros C' v Hv. apply brings_lift. intros l Hl%blobs_of_items. set_solver. }
  assert (∀ A C' (r : res A), brings C' (λ _, []) (lift r)) as Hl
    by (intros A C' r; apply brings_lift; set_solver).
  case_match; [apply brings_blob|].
  case_match; [repeat case_match; (apply brings_raise || apply brings_ret; simpl; set_solver)|].
  case_match.
  { do 3 (eapply brings_bind; [apply Hl|intros ?]). eapply brings_bind; [apply Hp|intros kvs].
    apply brings_ret. simpl. set_solver. }
  case_match.
  { do 3 (eapply brings_bind; [apply Hl|intros ?]). eapply brings_bind; [apply Hm|intros l].
    apply brings_ret. simpl. set_solver. }
  case_match; [|case_match; [|apply brings_ret; simpl; set_solver]].
  all: eapply brings_bind; [apply Hd|intros v]; (eapply brings_bind; [apply Hi; set_solver|intros l]);
    try case_match; (apply brings_raise || apply brings_ret; simpl; set_solver).
Qed.

Lemma brings_hooks ext C v :
  (∀ C' c d, brings C' blobs_of (ext c d)) → blobs_of v ⊆ C → brings C blobs_of (apply_hooks ext v).
Proof using Type.
  clear reject_type msgspec_convert depth unpack from_descriptor.
  intros He. revert C. induction v using pyval_nested_ind; intros C HC; simpl; try (by apply brings_ret || apply He).
  - apply (brings_fmap _ _ blobs_of_all); [|done]. apply brings_mapM, Forall_forall.
    intros v Hv C' HC'. rewrite Forall_forall in H. apply H; [done|].
    etrans; [|done]. etrans; [|done]. intros o Ho. simpl. apply list_elem_of_In, in_flat_map.
    exists v. by rewrite <-!list_elem_of_In.
  - apply (brings_fmap _ _ blobs_of_pairs); [|done].
    apply brings_mapM, Forall_forall. intros [k x] Hkx C' HC'. rewrite Forall_forall in H.
    destruct (H _ Hkx) as [Hk Hx]. simpl in *.
    assert (blobs_of k ++ blobs_of x ⊆ C') as Hin.
    { etrans; [|done]. etrans; [|done]. intros o Ho. apply list_elem_of_In, in_flat_map.
      exists (k, x). by rewrite <-!list_elem_of_In. }
    eapply brings_bind; [apply Hk; set_solver|]. intros k'.
    eapply brings_bind; [apply Hx; set_solver|]. intros x'. apply brings_ret. simpl. set_solver.
Qed.

(** *** The budget *)

(** What msgspec and the extension module promise: parsing makes no BlobRef,
    converting makes none that was not there, and a descriptor that opens and
    names its size under [size] was opened with that size. *)
Record descriptors_ok (native_size : list N → Z) : Prop := {
  parsed_blobs : ∀ raw v, unpack raw = Ok v → blobs_of v = [];
  converted_blobs : ∀ v want w, msgspec_convert v want = Ok w → blobs_of w ⊆ blobs_of v;
  named_size : ∀ raw o kvs v, from_descriptor raw = Ok o → unpack raw = Ok (VDict kvs) →
    dict_get (u "size") kvs = Some v → v = VInt (native_size raw) ∧ 0 ≤ native_size raw
}.

Section Budget.
Context (native_size : list N → Z) (Hnat : descriptors_ok native_size).

(** What a scope has mapped stays within the limits, whatever failed: at most
    so many distinct descriptors, the bytes of those that name them counted. *)
Definition budget_ok (sc : dec_scope) : Prop :=
  NoDup (ds_cache sc).*1 ∧ Forall (λ e, from_descriptor e.1 = Ok e.2) (ds_cache sc) ∧
  Z.of_nat (length (ds_cache sc)) ≤ _MAX_BLOB_REFS_PER_MESSAGE ∧
  Z.of_nat (length (ds_cache sc)) ≤ ds_refs sc ∧
  named_bytes native_size (ds_cache sc) ≤ ds_mapped sc ≤ _MAX_BLOB_MAPPED_BYTES_PER_MESSAGE.

Lemma new_dec_scope_ok : budget_ok new_dec_scope.
Proof using Type. unfold budget_ok. split_and!; try constructor; done. Qed.

(** A descriptor that names its size and opens announces what is mapped. *)
Lemma named_descriptor_size raw o :
  from_descriptor raw = Ok o → names_size raw = true →
  _descriptor_size raw = Ok (Some (native_size raw)) ∧ 0 ≤ native_size raw.
Proof using Hnat.
  intros Ho. unfold names_size, _descriptor_size. destruct (unpack raw) as [v|] eqn:Hu; [|done].
  destruct v; try done. intros [v Hv]%bool_decide_eq_true. rewrite Hv.
  destruct (named_size _ Hnat _ _ _ _ Ho Hu Hv) as [-> Hz]. split; [|done].
  by rewrite (proj2 (Z.leb_le _ _) Hz).
Qed.

(** Counting keeps the scope within its limits, and leaves room for the blob
    when it lets it be mapped. *)
Lemma account_ok raw sc r sc1 :
  budget_ok sc → account raw sc = (r, sc1) →
  budget_ok sc1 ∧ (r = Ok None → ∀ o, from_descriptor raw = Ok o → budget_ok (remember raw o sc1)).
Proof using Hnat.
  intros (Hnd & Hfrom & Hlen & Hrefs & Hsum & Hmax). unfold account. simpl.
  assert (budget_ok (DecScope (ds_refs sc + 1) (ds_mapped sc) (ds_cache sc))) as Hok1
    by (unfold budget_ok; simpl; split_and!; auto; lia).
  destruct (Z.ltb_spec _MAX_BLOB_REFS_PER_MESSAGE (ds_refs sc + 1)); [by intros [= <- <-]|].
  destruct (cache_find raw (ds_cache sc)) as [cached|] eqn:Hc; [by intros [= <- <-]|].
  apply cache_find_None in Hc.
  destruct (_descriptor_size raw) as [[size|]|e] eqn:Hs; [| |by intros [= <- <-]].
  - assert (0 ≤ size) as Hsize.
    { unfold _descriptor_size in Hs. repeat case_match; simplify_eq. by apply Z.leb_le. }
    destruct (Z.ltb_spec _MAX_BLOB_MAPPED_BYTES_PER_MESSAGE (ds_mapped sc + _BLOB_HEADER_BYTES + size));
      intros [= <- <-]; [done|]. unfold budget_ok, remember, _BLOB_HEADER_BYTES in *. simpl.
    split; [split_and!; auto; lia|]. intros _ o Ho.
    split_and!; try lia; [by constructor|by constructor|]. unfold _BLOB_HEADER_BYTES.
    destruct (names_size raw) eqn:Hname; [|lia].
    destruct (named_descriptor_size raw o Ho Hname) as [Hz _]. rewrite Hs in Hz. injection Hz as ->. lia.
  - intros [= <- <-]. split; [done|]. intros _ o Ho. unfold budget_ok, remember. simpl.
    assert (names_size raw = false) as ->.
    { destruct (names_size raw) eqn:Hname; [|done].
      destruct (named_descriptor_size raw o Ho Hname) as [Hz _]. by rewrite Hs in Hz. }
    split_and!; try lia; by constructor.
Qed.

Lemma within_blob raw : within budget_ok (decode_blob raw).
Proof using Hnat.
  intros sc v s' Hok. unfold decode_blob. case_match; [intros [= <- <-]; eauto|].
  destruct (account raw sc) as [r sc1] eqn:Ha. destruct (account_ok _ _ _ _ Hok Ha) as [Hok1 Hrem].
  destruct r as [[cached|]|e]; [intros [= <- <-]; eauto| |intros [= <- <-]; eauto].
  destruct (from_descriptor raw) as [o|e] eqn:Ho; intros [= <- <-]; eauto.
Qed.

Lemma brings_unpack C raw : brings C blobs_of (lift (unpack raw)).
Proof using Hnat.
  apply brings_lift. intros v Hv. rewrite (parsed_blobs _ Hnat raw v Hv). apply list_subseteq_nil.
Qed.

Lemma brings_decoder fuel C raw : brings C blobs_of (decoder fuel raw).
Proof using Hnat.
  revert C raw. induction fuel as [|fuel IH]; intros C raw; simpl; [apply brings_raise|].
  apply (brings_bind _ _ blobs_of); [apply brings_unpack|].
  intros v. apply brings_hooks; [|by apply list_subseteq_app_r]. intros C' c d. by apply brings_ext.
Qed.

Lemma brings_fast C raw : brings C blobs_of (fast_decoder raw).
Proof using Hnat.
  unfold fast_decoder. apply (brings_bind _ _ blobs_of);
    [apply brings_unpack|].
  intros v. case_match; [apply brings_raise|]. apply brings_ret. by apply list_subseteq_app_r.
Qed.

Lemma brings_maybe C dec fast raw :
  brings C blobs_of (dec raw) → brings C blobs_of (fast raw) →
  brings C blobs_of (_decode_maybe_scoped dec fast raw).
Proof using Type.
  intros Hd Hf. apply brings_catching; [done|]. intros e k. case_match; [|done].
  intros [= <-]. done.
Qed.

Lemma brings_loads C raw : brings C blobs_of (loads_msgpack raw).
Proof using Hnat. apply brings_maybe; [apply brings_decoder|apply brings_fast]. Qed.

Lemma brings_converted C v want : brings (C ++ blobs_of v) blobs_of (lift (msgspec_convert v want)).
Proof using Hnat.
  apply brings_lift. intros w Hw%(converted_blobs _ Hnat). etrans; [done|]. by apply list_subseteq_app_r.
Qed.

Lemma brings_convert C raw want : brings C blobs_of (convert_msgpack_value raw want).
Proof using Hnat.
  unfold convert_msgpack_value.
  apply (brings_bind _ _ (λ _, [])); [apply brings_lift; intros; apply list_subseteq_nil|]. intros _.
  apply brings_catching.
  - apply brings_maybe; unfold _typed_decoder, _typed_fast_decoder;
      (apply (brings_bind _ _ blobs_of); [auto using brings_decoder, brings_fast|]);
      intros v; apply brings_converted.
  - intros e k. case_match; [|done]. intros [= <-].
    apply (brings_bind _ _ blobs_of); [apply brings_loads|]. intros v.
    unfold convert_value. destruct (reject_type want); [|apply brings_raise]. apply brings_converted.
Qed.

(** Decoding one message piece by piece: [loads] and [convert_msgpack] of its
    parts, each of which may fail. *)
Definition decode_one (op : decode_op) : DM pyval :=
  match op with OpLoads raw => loads_msgpack raw | OpConvert raw want => convert_msgpack_value raw want end.

Fixpoint decode_all (ops : list decode_op) : DM (list (res pyval)) :=
  match ops with
  | [] => mret []
  | op :: ops' => r ← attempt (decode_one op); rs ← decode_all ops'; mret (r :: rs)
  end.

(** The blobs in what was decoded. *)
Definition given (rs : list (res pyval)) : list Z :=
  flat_map (λ r, match r with Ok v => blobs_of v | Raise _ => [] end) rs.

Lemma decode_one_ok op sc :
  budget_ok sc →
  ∃ r sc', decode_one op (Some sc) = (r, Some sc') ∧ budget_ok sc' ∧
    (ds_cache sc).*2 ⊆ (ds_cache sc').*2 ∧ ∀ v, r = Ok v → blobs_of v ⊆ (ds_cache sc').*2.
Proof using Hnat.
  intros Hok.
  assert (within budget_ok (decode_one op)) as Hw
    by (destruct op; [apply within_loads|apply within_convert]; apply within_blob).
  assert (brings [] blobs_of (decode_one op)) as Hb
    by (destruct op; [apply brings_loads|apply brings_convert]).
  destruct (decode_one op (Some sc)) as [r s'] eqn:Hd.
  destruct (Hw _ _ _ Hok Hd) as (sc' & -> & Hok').
  destruct (Hb _ _ _ (list_subseteq_nil _) Hd) as (? & [= <-] & Hg & Ho). eauto 10.
Qed.

Lemma decode_all_ok ops sc :
  budget_ok sc →
  ∃ rs sc', decode_all ops (Some sc) = (Ok rs, Some sc') ∧ budget_ok sc' ∧
    (ds_cache sc).*2 ⊆ (ds_cache sc').*2 ∧ given rs ⊆ (ds_cache sc').*2.
Proof using Hnat.
  revert sc. induction ops as [|op ops IH]; intros sc Hok; simpl.
  { exists [], sc. split_and!; [done..|apply list_subseteq_nil]. }
  destruct (decode_one_ok op sc Hok) as (r & sc1 & Hd & Hok1 & Hg & Ho).
  destruct (IH sc1 Hok1) as (rs & sc2 & Ha & Hok2 & Hg2 & Ho2).
  exists (r :: rs), sc2. split_and!; [|done|by etrans|].
  - rewrite M_bind_unfold. unfold attempt. rewrite Hd. rewrite M_bind_unfold, Ha. done.
  - simpl. apply list_subseteq_app_iff_l. split; [|done]. destruct r as [v|]; [|apply list_subseteq_nil].
    etrans; [by apply Ho|done].
Qed.

(** C35: however a message is taken apart inside one scope, and whatever fails
    on the way, the blobs of everything it decodes to are among those the
    scope opened, at most 64 of them and no descriptor twice; those whose
    descriptors are maps that name their size, as this library writes them,
    map together at most 512 MiB, headers included.  Outside the scope
    nothing of it remains. *)
Theorem blob_budget (ops : list decode_op) :
  (∃ rs sc, decode_all ops (Some new_dec_scope) = (Ok rs, Some sc) ∧
     given rs ⊆ (ds_cache sc).*2 ∧
     Forall (λ e, from_descriptor e.1 = Ok e.2) (ds_cache sc) ∧
     NoDup (ds_cache sc).*1 ∧ Z.of_nat (length (ds_cache sc)) ≤ 64 ∧
     named_bytes native_size (ds_cache sc) ≤ 512 * 1024 * 1024) ∧
  (blob_scope (decode_all ops) None).2 = None.
Proof using Hnat.
  destruct (decode_all_ok ops new_dec_scope new_dec_scope_ok)
    as (rs & sc & Hd & (Hnd & Hfrom & Hlen & _ & Hsum & Hmax) & _ & Hin).
  unfold _MAX_BLOB_REFS_PER_MESSAGE, _MAX_BLOB_MAPPED_BYTES_PER_MESSAGE in *. split.
  - exists rs, sc. split_and!; [done..|lia].
  - simpl. by rewrite Hd.
Qed.
End Budget.
End Decoding.

(** A parser with three messages: descriptor [1] names 100 bytes, descriptors
    [2] and [3] give their fields by position, as serde's derived
    [Deserialize] takes them too, and [9] is a message with two BlobRefs. *)
Definition sample_unpack (raw : list N) : res pyval :=
  match raw with
  | [1%N] => Ok (VDict [(VStr (u "version"), VInt 1); (VStr (u "size"), VInt 100)])
  | [2%N] | [3%N] => Ok (VList [VInt 1; VInt (300 * 1024 * 1024)])
  | [8%N] => Ok (VList [VExt _EXT_BLOB_REF [1%N]; VExt _EXT_BLOB_REF [1%N]])
  | [9%N] => Ok (VList [VExt _EXT_BLOB_REF [2%N]; VExt _EXT_BLOB_REF [3%N]])
  | _ => Raise (Exc DecodeError)
  end.

Definition sample_open (raw : list N) : res Z :=
  match raw with
  | [1%N] => Ok 11
  | [2%N] => Ok 12
  | [3%N] => Ok 13
  | _ => Raise (Exc BlobError)
  end.

Definition sample_size (raw : list N) : Z :=
  match raw with [1%N] => 100 | _ => 300 * 1024 * 1024 end.

Lemma sample_descriptors_ok :
  descriptors_ok sample_unpack sample_open (λ v _, Ok v) sample_size.
Proof.
  split.
  - intros raw v. unfold sample_unpack. repeat case_match; by intros [= <-].
  - by intros v want w [= <-].
  - intros raw o kvs v. unfold sample_open, sample_unpack, sample_size.
    repeat case_match; try done. intros _ [= <-] [= <-]. done.
Qed.

Lemma blob_budget_witness :
  (∃ rs sc,
     decode_all sample_unpack sample_open 9 (λ v _, Ok v) (λ _, Ok tt) [OpLoads [8%N]; OpConvert [8%N] 0]
       (Some new_dec_scope) = (Ok rs, Some sc) ∧
     given rs ⊆ (ds_cache sc).*2 ∧
     Forall (λ e, sample_open e.1 = Ok e.2) (ds_cache sc) ∧
     NoDup (ds_cache sc).*1 ∧ Z.of_nat (length (ds_cache sc)) ≤ 64 ∧
     named_bytes sample_unpack sample_size (ds_cache sc) ≤ 512 * 1024 * 1024) ∧
  (blob_scope (decode_all sample_unpack sample_open 9 (λ v _, Ok v) (λ _, Ok tt)
                 [OpLoads [8%N]; OpConvert [8%N] 0]) None).2 = None.
Proof. apply blob_budget, sample_descriptors_ok. Defined.

(** A descriptor whose fields are given by position costs nothing in the
    byte budget of a message, although the extension module opens it: two of
    300 MiB are mapped by one message. *)
Theorem positional_descriptor_escapes :
  ∃ sc, decode_all sample_unpack sample_open 9 (λ v _, Ok v) (λ _, Ok tt) [OpLoads [9%N]]
          (Some new_dec_scope) = (Ok [Ok (VList [VBlobRef 12; VBlobRef 13])], Some sc) ∧
  ds_mapped sc = 0 ∧
  512 * 1024 * 1024 < foldr (λ e n, _BLOB_HEADER_BYTES + sample_size e.1 + n) 0 (ds_cache sc).
Proof. eexists. vm_compute. done. Qed.

(** ** Large integers *)

Lemma checked_str_Some z s :
  checked_str_of_int z = Some s → int_of_str s = Some z ∧ isascii s = true.
Proof.
  unfold checked_str_of_int.
  destruct (Nat.leb_spec (length (dec (Z.abs_N z))) max_str_digits) as [Hl|]; [|done].
  intros [= <-]. split; [by apply int_of_str_of_int|].
  assert (∀ n, isascii (dec n) = true) as Hd.
  { intros n. apply forallb_Forall. pose proof (dec_digits n) as Hn. apply forallb_Forall in Hn.
    eapply Forall_impl; [done|]. intros c Hc. unfold ascii_digit in Hc.
    apply andb_true_iff in Hc as [_ Hc%N.leb_le]. apply N.ltb_lt. lia. }
  unfold str_of_int. destruct (z <? 0); [|done]. unfold isascii in *. simpl. by rewrite Hd.
Qed.

(** An integer outside the native range survives the trip: what
    [_prepare_bigints] writes for it is read back as the same integer; past
    the interpreter's digit limit it is refused with [ValueError] before
    anything is sent. *)
Theorem bigint_roundtrip (h : heap) (depth : nat) (pack : pyval → list N)
    (unpack : list N → res pyval) (from_descriptor : list N → res Z)
    (decode : list N → M (option dec_scope) exn pyval)
    (out : exn) (fuel x : nat) (active : list nat) (z : Z) (s : option enc_scope) (s' : option dec_scope) :
  ob_body <$> h !! x = Some (BInt z) → native_int z = false →
  (_prepare_bigints h depth pack out (S fuel) x active s = (Raise (Exc ValueError), s) ∧
   (max_str_digits < length (dec (Z.abs_N z)))%nat) ∨
  (∃ data, _prepare_bigints h depth pack out (S fuel) x active s = (Ok (VExt _EXT_BIG_INT data), s) ∧
           _decode_ext unpack from_descriptor decode _EXT_BIG_INT data s' = (Ok (VInt z), s')).
Proof.
  intros Hb Hn. simpl. rewrite Hb, Hn. destruct (checked_str_of_int z) as [data|] eqn:Hc.
  - right. exists data. split; [done|]. destruct (checked_str_Some _ _ Hc) as (Hi & Ha).
    unfold _decode_ext. simpl. by rewrite Ha, Hi.
  - left. split; [done|]. unfold checked_str_of_int in Hc.
    destruct (Nat.leb_spec (length (dec (Z.abs_N z))) max_str_digits); [done|lia].
Qed.

Lemma bigint_roundtrip_witness :
  (_prepare_bigints [Object false (BInt (2 ^ 70))] 9 (λ _, []) (Exc RecursionError) 1 0 [] None = (Raise (Exc ValueError), None) ∧
   (max_str_digits < length (dec (Z.abs_N (2 ^ 70))))%nat) ∨
  (∃ data, _prepare_bigints [Object false (BInt (2 ^ 70))] 9 (λ _, []) (Exc RecursionError) 1 0 [] None
           = (Ok (VExt _EXT_BIG_INT data), None) ∧
           _decode_ext (λ _, Ok VNone) (λ _, Ok 0) (λ _, mret VNone) _EXT_BIG_INT data None
           = (Ok (VInt (2 ^ 70)), None)).
Proof.
  apply (bigint_roundtrip [Object false (BInt (2 ^ 70))] 9 (λ _, []) (λ _, Ok VNone) (λ _, Ok 0)
    (λ _, mret VNone) (Exc RecursionError) 0 0 [] (2 ^ 70) None None); reflexivity.
Defined.
