(* ===== verification/MsgpackCodec.v ===== *)
(** * [_msgpack.py] implements the codec interface

    The interface that [_rpc.py] and [_serve.py] are verified against is
    discharged here by the definitions of [Decode], [Encode] and [Objects];
    what is needed of msgspec and of the extension module is stated as
    hypotheses. *)

From S2P Require Import Prelude PyStr PyFloat Errors Codec Graph Objects Encode Decode SampleCodec.

Local Open Scope Z_scope.

(** The libraries underneath and the interpreter: msgspec's parser, encoder and
    conversion, the extension module's blobs, how a value lies in the heap,
    and what the annotations stand for. *)
Record msgpack_parts := MsgpackParts {
  mp_unpack : list N → res pyval;
  mp_from_descriptor : list N → res Z;
  mp_depth : nat;
  mp_convert : pyval → Z → res pyval;
  mp_layout : pyval → heap * nat;
  mp_pack : heap → pyval → list N;
  mp_imported : bool;
  mp_types : list type_node;
  mp_ident : nat → nat;
  mp_type : Z → nat;
  mp_raws : list (list N) → list N;
  mp_raw_call : list N → res (option (list (list N)) * option (list (pystr * list N)))
}.

(** [dumps_with_blob_refs], outside any encode scope. *)
Definition mp_dumps (p : msgpack_parts) (v : pyval) : res (list N * list Z) :=
  let '(h, x) := mp_layout p v in
  (λ r : list N * list nat, (r.1, Z.of_nat <$> r.2)) <$>
    (Encode.dumps_with_blob_refs h (mp_depth p) (mp_pack p h) (mp_imported p) x None).1.

(** [validate_type] and [is_model_type] *)
Definition mp_reject_type (p : msgpack_parts) (want : Z) : res unit :=
  default (Ok tt) (_reject_pydantic_type (mp_types p) (mp_ident p) (mp_type p want)).
Definition mp_is_model (p : msgpack_parts) (want : Z) : bool :=
  default false (_contains_dataclass (mp_types p) (mp_ident p) (mp_type p want)).

Definition foreign (e : exn) : Prop := issubclass (class_of e) TinyrayError = false.

(** What msgspec and the extension module promise: their own exceptions only,
    and an array of raw items parses to the array of the items. *)
Record parts_ok (p : msgpack_parts) : Prop := {
  po_unpack : ∀ b e, mp_unpack p b = Raise e → foreign e;
  po_from_descriptor : ∀ b e, mp_from_descriptor p b = Raise e → foreign e;
  po_convert : ∀ v t e, mp_convert p v t = Raise e → foreign e;
  po_raws : ∀ bs vs, Forall2 (λ b v, mp_unpack p b = Ok v) bs vs → mp_unpack p (mp_raws p bs) = Ok (VList vs)
}.

(** Decoding inside a scope. *)
Definition in_scope {A} (m : M (option dec_scope) exn A) : M dec_scope exn A := λ sc,
  let '(r, s) := m (Some sc) in (r, default sc s).

Definition msgpack_codec (p : msgpack_parts) : Codec := {|
  scope := dec_scope;
  fresh_scope := new_dec_scope;
  loads_in := λ raw, in_scope (loads_msgpack (mp_unpack p) (mp_from_descriptor p) (mp_depth p) raw);
  convert_msgpack_in := λ raw want,
    in_scope (convert_msgpack_value (mp_unpack p) (mp_from_descriptor p) (mp_depth p)
                (mp_convert p) (mp_reject_type p) raw want);
  Codec.dumps_with_blob_refs := mp_dumps p;
  dumps_raws := mp_raws p;
  convert := convert_value (mp_convert p) (mp_reject_type p);
  validate_type := mp_reject_type p;
  is_model_type := mp_is_model p;
  decode_raw_call := mp_raw_call p
|}.

(** ** The exceptions of decoding and encoding *)

Section Raises.
Context {S : Type}.
Notation DM := (M S exn).

Definition raises_foreign {A} (m : DM A) : Prop := ∀ s e s', m s = (Raise e, s') → foreign e.

Lemma rf_ret {A} (a : A) : raises_foreign (mret a).
Proof. by intros s e s'. Qed.
Lemma rf_raise {A} e : foreign e → raises_foreign (@raise _ _ A e).
Proof. by intros He s e' s' [= <- <-]. Qed.
Lemma rf_lift {A} (r : res A) : (∀ e, r = Raise e → foreign e) → raises_foreign (lift r).
Proof. intros Hr s e s' [= H _]. eauto. Qed.
Lemma rf_bind {A B} (m : DM A) (f : A → DM B) :
  raises_foreign m → (∀ a, raises_foreign (f a)) → raises_foreign (m ≫= f).
Proof. intros Hm Hf s e s' [H|(a & s1 & _ & H)]%M_bind_raise; [by eapply Hm|by eapply Hf]. Qed.
Lemma rf_fmap {A B} (f : A → B) (m : DM A) : raises_foreign m → raises_foreign (f <$> m).
Proof.
  intros Hm s e s'. unfold fmap, M_fmap. destruct (m s) as [[a|e1] s1] eqn:Ha; [done|].
  intros [= <- <-]. by eapply Hm.
Qed.
Lemma rf_mapM {A B} (f : A → DM B) l : Forall (λ a, raises_foreign (f a)) l → raises_foreign (mapM f l).
Proof.
  induction 1 as [|a l Ha HF IH]; simpl; [apply rf_ret|].
  apply rf_bind; [done|]. intros b. apply rf_bind; [done|]. intros bs. apply rf_ret.
Qed.
Lemma rf_catching {A} (m : DM A) h :
  raises_foreign m → (∀ e k, h e = Some k → raises_foreign k) → raises_foreign (catching m h).
Proof.
  intros Hm Hh s e s'. unfold catching. destruct (m s) as [[a|e1] s1] eqn:Ha; [done|].
  destruct (h e1) as [k|] eqn:He; [by eapply Hh|]. intros [= <- <-]. by eapply Hm.
Qed.
End Raises.

Lemma rf_scope {A} (m : M (option dec_scope) exn A) : raises_foreign m → raises_foreign (blob_scope m).
Proof.
  intros Hm s e s'. unfold blob_scope. destruct s; [by apply Hm|].
  destruct (m _) as [r s1] eqn:Ha. intros [= -> <-]. by eapply Hm.
Qed.

#[export] Hint Resolve rf_ret rf_raise rf_lift rf_bind rf_fmap rf_scope : tinyray.

(** *** Encoding *)

Section Encodes.
Context (h : heap) (depth : nat) (pack : pyval → list N).

Lemma rf_hook e : raises_foreign (_enc_hook e).
Proof. destruct e as [x []| | |]; simpl; try (by apply rf_raise). by intros s e s'. Qed.

Lemma rf_hook_fast e : raises_foreign (_enc_hook_fast e).
Proof. destruct e; simpl; try (by apply rf_raise). Qed.

Lemma rf_encode hook v : (∀ e, raises_foreign (hook e)) → raises_foreign (encode h depth pack hook v).
Proof.
  intros Hh. unfold encode. apply rf_bind; [|intros ?; apply rf_ret].
  induction (events h depth v) as [|e es IH]; simpl; auto with tinyray.
Qed.

Lemma rf_guarded {A} x active (body : list nat → M (option enc_scope) exn A) :
  (∀ active', raises_foreign (body active')) → raises_foreign (guarded x active body).
Proof. intros Hb. unfold guarded. case_match; [by apply rf_raise|auto]. Qed.

#[local] Hint Resolve rf_hook rf_hook_fast rf_encode : tinyray.

(** [auto] through one mapM, whose elements the hypotheses cover. *)
Ltac each := apply rf_mapM, Forall_forall; intros ? _.

Lemma rf_prepare out fuel :
  foreign out →
  (∀ x active, raises_foreign (_prepare_bigints h depth pack out fuel x active)) ∧
  (∀ x active, raises_foreign (_prepare_hashable h depth pack out fuel x active)).
Proof.
  intros Ho. induction fuel as [|fuel [IHb IHh]]; [split; intros; by apply rf_raise|].
  assert (∀ v, raises_foreign (_encoded_item h depth pack v)) as Hi by (intros; apply rf_encode, rf_hook).
  split; intros x active; simpl.
  - destruct (ob_body <$> h !! x) as [[|z|k [] items|[] pairs|fields|closed|]|]; auto with tinyray.
    + repeat case_match; auto with tinyray. by apply rf_raise.
    + apply rf_guarded. intros active'. apply rf_bind; [each; apply IHb|]. intros converted.
      assert (raises_foreign (mapM (λ i, m ← _prepare_hashable h depth pack out fuel i active';
                 b ← _encoded_item h depth pack m; mret (VBytes b)) items)) as Hs
        by (each; auto with tinyray).
      destruct k; try case_match; auto with tinyray.
    + apply rf_guarded. intros active'. apply rf_bind; [each; auto with tinyray|]. intros converted.
      case_match; [auto with tinyray|]. apply rf_bind; [each; auto 8 with tinyray|auto with tinyray].
    + apply rf_guarded. intros active'. apply rf_bind; [each; auto with tinyray|auto with tinyray].
  - destruct (ob_body <$> h !! x) as [[|z|[] [] items|[] pairs|fields|closed|]|]; try apply IHb.
    all: apply rf_guarded; intros active'; apply rf_bind; [each; apply IHh|auto with tinyray].
Qed.

Lemma rf_with_scope x : raises_foreign (_encode_with_blob_scope h depth pack x).
Proof.
  intros s e s'. unfold _encode_with_blob_scope.
  match goal with |- context [(?m : M _ _ _) (Some _)] => assert (raises_foreign m) as Hm end.
  { apply rf_bind; [apply rf_catching; [auto with tinyray|]|by intros b s1 e1 s1'].
    intros e1 k. case_match; [|done]. intros [= <-].
    apply rf_bind; [by apply rf_prepare|auto with tinyray]. }
  match goal with |- context [?m (Some ?a)] => destruct (m (Some a)) as [r s1] eqn:Hr end.
  intros [= -> _]. by eapply Hm.
Qed.

Lemma rf_dumps imported x : raises_foreign (Encode.dumps_with_blob_refs h depth pack imported x).
Proof.
  unfold Encode.dumps_with_blob_refs.
  assert (raises_foreign (_encode_prepared h depth pack x)) as He.
  { apply rf_catching; [auto with tinyray|]. intros e k. case_match; [|done]. intros [= <-].
    apply rf_with_scope. }
  destruct (_reject_pydantic_values h imported x) as [[r|e]|] eqn:Hr; [done| |done].
  apply rf_raise. unfold _reject_pydantic_values in Hr. destruct imported; simpl in Hr; [|done].
  destruct (pydantic_value_rejected h x) as (r1 & Hr1 & [-> | ->] & _);
    unfold _reject_pydantic_values in Hr1; simpl in Hr1; rewrite Hr in Hr1; by simplify_eq.
Qed.
End Encodes.

Lemma mp_dumps_raises p v e : mp_dumps p v = Raise e → foreign e.
Proof.
  unfold mp_dumps. destruct (mp_layout p v) as [h x]. intros He%fmap_raise.
  destruct (Encode.dumps_with_blob_refs _ _ _ _ x None) as [r s'] eqn:Hd. simpl in He. subst.
  by eapply rf_dumps.
Qed.

(** *** Decoding *)

Section Discharge.
Context (p : msgpack_parts) (Hp : parts_ok p).
Notation unpack := (mp_unpack p).
Notation decode_ext := (_decode_ext unpack (mp_from_descriptor p)).

Lemma items_of_raises v e : items_of v = Raise e → foreign e.
Proof using Type. by destruct v; simpl; intros [= <-]. Qed.
Lemma byte_items_raises l e : byte_items l = Raise e → foreign e.
Proof using Type.
  induction l as [|v l IH]; simpl; [done|]. destruct v; try (by intros [= <-]).
  intros [?|(x & ? & ?)]%bind_raise; [auto|done].
Qed.
Lemma byte_pairs_raises l e : byte_pairs l = Raise e → foreign e.
Proof using Type.
  induction l as [|v l IH]; simpl; [done|].
  destruct v as [| | | | | |vs| | | | | | |]; try (by intros [= <-]).
  destruct vs as [|k vs]; [by intros [= <-]|].
  destruct k; try (by destruct vs as [|? [|]]; intros [= <-]).
  destruct vs as [|x vs]; [by intros [= <-]|].
  destruct x; try (by destruct vs; intros [= <-]).
  destruct vs; [|by intros [= <-]].
  intros Hb. apply bind_raise in Hb as [?|(y & ? & ?)]; [auto|done].
Qed.

Lemma size_raises raw e : _descriptor_size unpack raw = Raise e → foreign e.
Proof using Hp.
  unfold _descriptor_size. destruct (unpack raw) as [[]|e1] eqn:Hu; try done.
  - by destruct (dict_get _ kvs) as [[]|].
  - case_match; [done|]. intros [= <-]. by eapply po_unpack.
Qed.

Lemma account_raises raw sc e sc1 : account unpack raw sc = (Raise e, sc1) → foreign e.
Proof using Hp.
  unfold account. cbv zeta. destruct (_ <? _); [by intros [= <- <-]|].
  destruct (cache_find raw _); [done|].
  destruct (_descriptor_size unpack raw) as [[size|]|e1] eqn:Hs; [|done|].
  - destruct (_ <? _); [by intros [= <- <-]|done].
  - intros [= <- <-]. by eapply size_raises.
Qed.

Lemma rf_blob raw : raises_foreign (decode_blob unpack (mp_from_descriptor p) raw).
Proof using Hp.
  intros s e s'. unfold decode_blob. destruct (_ <? _); [by intros [= <- <-]|].
  destruct s as [sc|].
  - destruct (account unpack raw sc) as [[[cached|]|e1] sc1] eqn:Ha; [done| |].
    + destruct (mp_from_descriptor p raw) eqn:Hf; intros [= <- <-]. by eapply po_from_descriptor.
    + intros [= <- <-]. by eapply account_raises.
  - intros [= Hf <-]. apply fmap_raise in Hf. by eapply po_from_descriptor.
Qed.

Lemma rf_ext dec code data :
  (∀ b, raises_foreign (dec b)) → raises_foreign (decode_ext dec code data).
Proof using Hp.
  intros Hd. unfold _decode_ext.
  assert (∀ l, raises_foreign (decode_pairs dec l)) as Hps.
  { induction l as [|[kb vb] l IH]; simpl; [apply rf_ret|].
    apply rf_bind; [done|]. intros k. apply rf_bind; [done|]. intros v.
    case_match; [auto with tinyray|by apply rf_raise]. }
  assert (∀ l, raises_foreign (decode_members dec l)) as Hm.
  { induction l as [|b l IH]; simpl; [apply rf_ret|].
    apply rf_bind; [done|]. intros v. case_match; [auto with tinyray|by apply rf_raise]. }
  assert (raises_foreign (lift (unpack data) : M (option dec_scope) exn pyval)) as Hu by (apply rf_lift; intros; by eapply po_unpack).
  assert (∀ v, raises_foreign (lift (items_of v) : M (option dec_scope) exn (list pyval))) as Hi by (intros; apply rf_lift, items_of_raises).
  case_match; [apply rf_blob|].
  case_match; [repeat case_match; try apply rf_ret; by apply rf_raise|].
  case_match.
  { apply rf_bind; [done|]. intros raw. apply rf_bind; [done|]. intros items.
    apply rf_bind; [apply rf_lift, byte_pairs_raises|]. auto with tinyray. }
  case_match.
  { apply rf_bind; [done|]. intros raw. apply rf_bind; [done|]. intros items.
    apply rf_bind; [apply rf_lift, byte_items_raises|]. auto with tinyray. }
  case_match; [auto with tinyray|].
  case_match; [|apply rf_ret].
  apply rf_bind; [done|]. intros v. apply rf_bind; [done|]. intros l.
  case_match; [apply rf_ret|by apply rf_raise].
Qed.

Lemma rf_hooks ext v : (∀ c d, raises_foreign (ext c d)) → raises_foreign (apply_hooks ext v).
Proof using Type.
  intros He. induction v using pyval_nested_ind; simpl; auto with tinyray.
  - apply rf_fmap, rf_mapM. done.
  - apply rf_fmap, rf_mapM. eapply Forall_impl; [done|]. intros [k x] [Hk Hx]. simpl in *. auto with tinyray.
Qed.

Lemma rf_decoder fuel raw : raises_foreign (decoder unpack (mp_from_descriptor p) fuel raw).
Proof using Hp.
  revert raw. induction fuel as [|fuel IH]; intros raw; simpl; [by apply rf_raise|].
  apply rf_bind; [apply rf_lift; intros; by eapply po_unpack|]. intros v.
  apply rf_hooks. intros c d. by apply rf_ext.
Qed.

Lemma rf_fast raw : raises_foreign (fast_decoder unpack raw).
Proof using Hp.
  unfold fast_decoder. apply rf_bind; [apply rf_lift; intros; by eapply po_unpack|]. intros v.
  case_match; [by apply rf_raise|apply rf_ret].
Qed.

Lemma rf_maybe dec fast raw :
  raises_foreign (dec raw) → raises_foreign (fast raw) →
  raises_foreign (_decode_maybe_scoped dec fast raw).
Proof using Type.
  intros Hd Hf. apply rf_catching; [done|]. intros e k. case_match; [|done]. intros [= <-].
  by apply rf_scope.
Qed.

Lemma rf_loads raw : raises_foreign (loads_msgpack unpack (mp_from_descriptor p) (mp_depth p) raw).
Proof using Hp. apply rf_maybe; [apply rf_decoder|apply rf_fast]. Qed.

Lemma reject_raises t e : mp_reject_type p t = Raise e → foreign e.
Proof using Type.
  unfold mp_reject_type, _reject_pydantic_type. destruct (_contains_pydantic_type _ _ _) as [[]|]; simpl; try done.
  by intros [= <-].
Qed.

Lemma rf_convert raw want :
  raises_foreign (convert_msgpack_value unpack (mp_from_descriptor p) (mp_depth p)
                    (mp_convert p) (mp_reject_type p) raw want).
Proof using Hp.
  assert (∀ v, raises_foreign (lift (mp_convert p v want) : M (option dec_scope) exn pyval)) as Hc
    by (intros v; apply rf_lift; intros; by eapply po_convert).
  unfold convert_msgpack_value.
  apply rf_bind; [apply rf_lift; intros; by eapply reject_raises|]. intros _. apply rf_catching.
  - apply rf_maybe; unfold _typed_decoder, _typed_fast_decoder;
      (apply rf_bind; [auto using rf_decoder, rf_fast|done]).
  - intros e k. case_match; [|done]. intros [= <-]. apply rf_bind; [apply rf_loads|].
    intros v. apply rf_lift. unfold convert_value. intros e' [?|(t & _ & ?)]%bind_raise;
      [by eapply reject_raises|by eapply po_convert].
Qed.

(** ** Arrays of raw items *)

Lemma open_blob raw : within (λ _, True) (decode_blob unpack (mp_from_descriptor p) raw).
Proof using Type.
  intros sc r s' _. unfold decode_blob. destruct (_ <? _); [intros [= <- <-]; eauto|].
  destruct (account unpack raw sc) as [[[cached|]|e] sc1].
  2: destruct (mp_from_descriptor p raw).
  all: intros [= <- <-]; eauto.
Qed.

(** A message in an open scope: parsed, then its extensions replaced. *)
Lemma loads_open raw sc :
  loads_msgpack unpack (mp_from_descriptor p) (mp_depth p) raw (Some sc) =
  match unpack raw with
  | Raise e => if matches [BlobScopeRequired] e
               then decoder unpack (mp_from_descriptor p) (mp_depth p) raw (Some sc)
               else (Raise e, Some sc)
  | Ok t => if has_ext t then decoder unpack (mp_from_descriptor p) (mp_depth p) raw (Some sc)
            else (Ok t, Some sc)
  end.
Proof using Type.
  unfold loads_msgpack, _decode_maybe_scoped, catching, fast_decoder. rewrite M_bind_unfold. unfold lift.
  destruct (unpack raw) as [t|e]; [|by destruct (matches _ e)].
  destruct (has_ext t); [|done]. simpl. done.
Qed.

(** The decoding of a parsed value in an open scope. *)
Definition replaced (t v : pyval) : Prop :=
  if has_ext t
  then ∃ fuel, mp_depth p = S fuel ∧
       ∀ sc, apply_hooks (decode_ext (decoder unpack (mp_from_descriptor p) fuel)) t (Some sc) = (Ok v, Some sc)
  else t = v.

Lemma plain_parsed raw v :
  @plain (msgpack_codec p) raw v → ∃ t, unpack raw = Ok t ∧ replaced t v.
Proof using Type.
  intros Hpl. unfold plain in Hpl. simpl in Hpl. unfold in_scope in Hpl.
  assert (∀ sc, loads_msgpack unpack (mp_from_descriptor p) (mp_depth p) raw (Some sc) = (Ok v, Some sc)) as Hl.
  { intros sc. specialize (Hpl sc).
    destruct (loads_msgpack _ _ _ raw (Some sc)) as [r s1] eqn:Hd.
    destruct (within_loads unpack (mp_from_descriptor p) (mp_depth p) (λ _, True) open_blob raw sc r s1 I Hd)
      as (sc1 & -> & _). simpl in Hpl. congruence. }
  clear Hpl. setoid_rewrite loads_open in Hl. unfold replaced.
  destruct (mp_depth p) as [|fuel]; simpl in Hl.
  - destruct (unpack raw) as [t|e]; [exists t; split; [done|]|].
    + pose proof (Hl new_dec_scope) as H0. destruct (has_ext t); [done|congruence].
    + pose proof (Hl new_dec_scope) as H0. by destruct (matches _ e).
  - destruct (unpack raw) as [t|e].
    + exists t. split; [done|]. destruct (has_ext t).
      * exists fuel. split; [done|]. intros sc. apply (Hl sc).
      * pose proof (Hl new_dec_scope) as H0. congruence.
    + pose proof (Hl new_dec_scope) as H0. destruct (matches _ e); done.
Qed.

(** Hooks leave a value without extensions as it is. *)
Lemma hooks_none ext t s : has_ext t = false → apply_hooks ext t s = (Ok t, s).
Proof using Type.
  revert s. induction t using pyval_nested_ind; intros st Hn; simpl in *; try done.
  - assert (mapM (apply_hooks ext) l st = (Ok l, st)) as Hm.
    { revert st. induction H as [|t l Ht HF IH]; intros st; [done|]. simpl in *.
      apply orb_false_iff in Hn as [H1 H2]. rewrite M_bind_unfold, Ht by done.
      rewrite M_bind_unfold, IH by done. done. }
    unfold fmap, M_fmap. by rewrite Hm.
  - match goal with |- (_ <$> ?m) st = _ => assert (m st = (Ok kvs, st)) as Hm end.
    { revert st. induction H as [|[k x] l [Hk Hx] HF IH]; intros st; [done|]. simpl in *.
      apply orb_false_iff in Hn as [[H1 H2]%orb_false_iff H3].
      rewrite M_bind_unfold. rewrite M_bind_unfold, Hk by done. rewrite M_bind_unfold, Hx by done.
      simpl. rewrite M_bind_unfold, IH by done. done. }
    unfold fmap, M_fmap. by rewrite Hm.
Qed.

Lemma replaced_list ts vs : Forall2 replaced ts vs → replaced (VList ts) (VList vs).
Proof using Type.
  intros HF. unfold replaced. simpl. destruct (existsb has_ext ts) eqn:He.
  - assert (∃ fuel, mp_depth p = S fuel) as [fuel Hf].
    { apply existsb_Exists, Exists_exists in He as (t & Ht & Hx).
      apply list_elem_of_lookup in Ht as [i Hi].
      destruct (Forall2_lookup_l _ _ _ _ _ HF Hi) as (v & _ & Hr). unfold replaced in Hr.
      rewrite Hx in Hr. naive_solver. }
    exists fuel. split; [done|]. intros sc. unfold fmap, M_fmap.
    assert (mapM (apply_hooks (decode_ext (decoder unpack (mp_from_descriptor p) fuel))) ts (Some sc)
            = (Ok vs, Some sc)) as ->; [|done].
    clear He. induction HF as [|t v ts vs Hr HF IH]; [done|]. simpl.
    assert (apply_hooks (decode_ext (decoder unpack (mp_from_descriptor p) fuel)) t (Some sc)
            = (Ok v, Some sc)) as Ht.
    { unfold replaced in Hr. destruct (has_ext t) eqn:Hx; [|subst; by apply hooks_none].
      destruct Hr as (f & Hf' & Hr). rewrite Hf in Hf'. injection Hf' as <-. apply Hr. }
    rewrite M_bind_unfold, Ht. rewrite M_bind_unfold, IH. done.
  - f_equal. revert He. induction HF as [|t v ts vs Hr HF IH]; [done|]. simpl. intros [H1 H2]%orb_false_iff.
    unfold replaced in Hr. rewrite H1 in Hr. subst. f_equal. auto.
Qed.

(** C30: the MessagePack codec keeps what its clients were verified against: an
    array of raw items that carry no blob decodes to the array of their
    values, and decoding, converting and encoding raise only builtin, msgspec
    and blob errors, never one of the library's RPC errors.  Of msgspec and
    the extension module this needs their own errors only, and that an array
    of raw items parses to the array of what the items parse to. *)
Theorem msgpack_codec_laws : CodecLaws (msgpack_codec p).
Proof using Hp.
  constructor.
  - intros bs vs HF.
    assert (∃ ts, Forall2 (λ b t, unpack b = Ok t) bs ts ∧ Forall2 replaced ts vs) as (ts & Hts & Hrs).
    { induction HF as [|b v bs vs (t & Ht & Hr)%plain_parsed HF (ts & Hts & Hrs)]; [by exists []|].
      exists (t :: ts). split; by constructor. }
    apply replaced_list in Hrs. unfold loads. simpl. unfold in_scope.
    rewrite loads_open, (po_raws p Hp bs ts Hts). unfold replaced in Hrs.
    destruct (has_ext (VList ts)).
    + destruct Hrs as (fuel & -> & Hr). simpl decoder. rewrite M_bind_unfold. unfold lift.
      by rewrite (po_raws p Hp bs ts Hts), Hr.
    + simpl. by rewrite Hrs.
  - intros b e. unfold loads. simpl. unfold in_scope.
    destruct (loads_msgpack _ _ _ b _) as [r s1] eqn:Hl. simpl. intros ->. by eapply rf_loads.
  - intros b want e. unfold convert_msgpack. simpl. unfold in_scope.
    destruct (convert_msgpack_value _ _ _ _ _ b want _) as [r s1] eqn:Hl. simpl. intros ->.
    by eapply rf_convert.
  - apply mp_dumps_raises.
Qed.
End Discharge.

(** The sample encoding as the parser.  A value is laid out as one atom, which
    [pack] writes as the empty array; annotation 7 stands for a dataclass,
    8 for a Pydantic model. *)
Definition sample_parts : msgpack_parts := {|
  mp_unpack := sample_loads;
  mp_from_descriptor := λ _, Raise (Exc BlobError);
  mp_depth := 20;
  mp_convert := sample_convert;
  mp_layout := λ v, match v with
                    | VBlobRef _ => ([Object false (BBlob false)], 0%nat)
                    | VInt z => ([Object false (BInt z)], 0%nat)
                    | VObject _ => ([Object false BOther], 0%nat)
                    | _ => ([Object false BAtom], 0%nat)
                    end;
  mp_pack := λ h v, match v with VExt code data => Z.to_N code :: data | _ => [4%N] end;
  mp_imported := true;
  mp_types := [class_node []; dataclass_node []; class_node [u "__pydantic_validator__"]];
  mp_ident := λ x, x;
  mp_type := λ want, if want =? 7 then 1%nat else if want =? 8 then 2%nat else 0%nat;
  mp_raws := λ bs, 4%N :: chunks bs;
  mp_raw_call := sample_raw_call
|}.

Lemma msgpack_codec_laws_witness : CodecLaws (msgpack_codec sample_parts).
Proof.
  apply (msgpack_codec_laws sample_parts). split; simpl.
  - intros b e ->%sample_loads_raise. reflexivity.
  - intros b e [= <-]. reflexivity.
  - intros v t e Hc. destruct t as [|[]|], v; simpl in Hc; simplify_res; reflexivity.
  - intros bs vs HF. apply sample_loads_ok. cbn [length dec_value].
    rewrite unchunk_chunks by done. cbn [mbind option_bind].
    by rewrite (decoded_chunks bs vs HF).
Defined.

(** The instance at work: a blob is collected as an owner, an object nobody
    encodes and a Pydantic annotation are refused, a large integer goes out as
    an extension. *)
Example sample_parts_run :
  (mp_dumps sample_parts (VBlobRef 0), mp_dumps sample_parts (VObject 0),
   mp_dumps sample_parts (VInt (2 ^ 64)), mp_reject_type sample_parts 8, mp_is_model sample_parts 7)
  = (Ok ([4%N], [0]), Raise (Exc TypeError),
     Ok (121%N :: str_of_int (2 ^ 64), []), Raise (Exc TypeError), true).
Proof. vm_compute. reflexivity. Qed.
