(* ===== verification/Json.v ===== *)
(** * JSON values

    [serde_json::Value], the form a member's published state and a lookup's
    filter have on the native side, and the comparison a filter uses:
    [same_value] of [tinyray-proto], which compares numbers by value and
    everything else exactly. *)

From S2P Require Import Prelude PyStr PyFloat Errors.
From Stdlib Require Import SpecFloat.

Local Open Scope Z_scope.

(** [serde_json::Value].  A number is an integer of [-2^63, 2^64) or a finite
    float; an object is its entries, one per key. *)
Inductive value : Type :=
| Null
| Bool (b : bool)
| Int (z : Z)
| Float (x : pyfloat)
| Str (s : pystr)
| Array (l : list value)
| Object (kvs : list (pystr * value)).

Section ValueInd.
Context (P : value → Prop).
Context (Hnull : P Null) (Hbool : ∀ b, P (Bool b)) (Hint : ∀ z, P (Int z))
  (Hfloat : ∀ x, P (Float x)) (Hstr : ∀ s, P (Str s))
  (Harray : ∀ l, Forall P l → P (Array l))
  (Hobject : ∀ kvs, Forall (λ kv, P kv.2) kvs → P (Object kvs)).

Fixpoint value_nested_ind (v : value) : P v :=
  match v with
  | Null => Hnull
  | Bool b => Hbool b
  | Int z => Hint z
  | Float x => Hfloat x
  | Str s => Hstr s
  | Array l => Harray l
      ((fix go (l : list value) : Forall P l :=
          match l with
          | [] => Forall_nil_2 _
          | x :: l' => Forall_cons_2 _ _ _ (value_nested_ind x) (go l')
          end) l)
  | Object kvs => Hobject kvs
      ((fix go (kvs : list (pystr * value)) : Forall (λ kv, P kv.2) kvs :=
          match kvs with
          | [] => Forall_nil_2 _
          | kv :: kvs' => Forall_cons_2 _ _ _ (value_nested_ind kv.2) (go kvs')
          end) kvs)
  end.
End ValueInd.

(** [map.get(key)] *)
Fixpoint assoc {A} (key : pystr) (kvs : list (pystr * A)) : option A :=
  match kvs with
  | [] => None
  | (k, v) :: kvs' => if bool_decide (k = key) then Some v else assoc key kvs'
  end.

(** [d[key] = v]: a key keeps its place. *)
Fixpoint assoc_set {A} (key : pystr) (v : A) (kvs : list (pystr * A)) : list (pystr * A) :=
  match kvs with
  | [] => [(key, v)]
  | (k, w) :: kvs' => if bool_decide (k = key) then (key, v) :: kvs' else (k, w) :: assoc_set key v kvs'
  end.

Definition assoc_all {A} (kvs : list (pystr * A)) : list (pystr * A) :=
  fold_left (λ acc kv, assoc_set kv.1 kv.2 acc) kvs [].

(** [value.get(key)]: only an object has keys. *)
Definition value_get (v : value) (key : pystr) : option value :=
  match v with Object kvs => assoc key kvs | _ => None end.

(** Two sequences of the same length, element by element. *)
Fixpoint forallb2 {A B} (f : A → B → bool) (l : list A) (k : list B) : bool :=
  match l, k with
  | [], [] => true
  | a :: l', b :: k' => f a b && forallb2 f l' k'
  | _, _ => false
  end.

(** [float.fract() == 0.0]: the float is a whole number. *)
Definition whole (x : pyfloat) : bool :=
  match x with
  | S754_zero _ => true
  | S754_finite _ m e => (0 <=? e) || (Z.pos m mod 2 ^ (- e) =? 0)
  | _ => false
  end.

(** A whole float as the integer it is. *)
Definition whole_value (x : pyfloat) : Z :=
  match x with
  | S754_finite s m e =>
      let v := if 0 <=? e then Z.pos m * 2 ^ e else Z.pos m / 2 ^ (- e) in
      if s then - v else v
  | _ => 0
  end.

(** [Number::as_i64], [Number::as_u64] of an integer *)
Definition as_i64 (z : Z) : option Z := if (- 2 ^ 63 <=? z) && (z <? 2 ^ 63) then Some z else None.
Definition as_u64 (z : Z) : option Z := if (0 <=? z) && (z <? 2 ^ 64) then Some z else None.

Definition f_i64_min : pyfloat := Eval vm_compute in round_int (- 2 ^ 63).
Definition f_u64_max : pyfloat := Eval vm_compute in round_int (2 ^ 64 - 1).

(** [integer_matches_float] *)
Definition integer_matches_float (integer : Z) (float : pyfloat) : bool :=
  if negb (whole float) then false
  else if SFltb float fzero
  then SFleb f_i64_min float && bool_decide (as_i64 integer = Some (whole_value float))
  else SFltb float f_u64_max && bool_decide (as_u64 integer = Some (whole_value float)).

(** [Value == Value] *)
Fixpoint value_eq (a b : value) : bool :=
  match a, b with
  | Null, Null => true
  | Bool x, Bool y => Bool.eqb x y
  | Int x, Int y => x =? y
  | Float x, Float y => SFeqb x y
  | Str x, Str y => bool_decide (x = y)
  | Array x, Array y =>
      (fix go (x y : list value) : bool :=
         match x, y with
         | [], [] => true
         | p :: x', q :: y' => value_eq p q && go x' y'
         | _, _ => false
         end) x y
  | Object x, Object y =>
      (length x =? length y)%nat &&
      (fix go (x : list (pystr * value)) : bool :=
         match x with
         | [] => true
         | (k, v) :: x' =>
             match assoc k y with Some w => value_eq v w | None => false end && go x'
         end) x
  | _, _ => false
  end.

(** [same_value] *)
Fixpoint same_value (a b : value) : bool :=
  match a, b with
  | Int x, Int y => x =? y
  | Float x, Float y => SFeqb x y
  | Int x, Float y => integer_matches_float x y
  | Float x, Int y => integer_matches_float y x
  | Array x, Array y =>
      (fix go (x y : list value) : bool :=
         match x, y with
         | [], [] => true
         | p :: x', q :: y' => same_value p q && go x' y'
         | _, _ => false
         end) x y
  | Object x, Object y =>
      (length x =? length y)%nat &&
      (fix go (x : list (pystr * value)) : bool :=
         match x with
         | [] => true
         | (k, v) :: x' =>
             match assoc k y with Some w => same_value v w | None => false end && go x'
         end) x
  | _, _ => value_eq a b
  end.

(** ** Numbers compare by value *)

Definition number_ok (z : Z) : Prop := - 2 ^ 63 ≤ z < 2 ^ 64.

(** A float of binary64: at most 53 bits, an exponent in range. *)
Definition canonical (x : pyfloat) : Prop := valid_binary prec emax x = true.

(** The magnitude of a finite float, towards zero. *)
Definition mag (m : positive) (e : Z) : Z :=
  if 0 <=? e then Z.pos m * 2 ^ e else Z.pos m / 2 ^ (- e).

Lemma digits2_bounds m : 2 ^ (Z.pos (digits2_pos m) - 1) ≤ Z.pos m < 2 ^ Z.pos (digits2_pos m).
Proof.
  induction m as [m IH|m IH|]; simpl digits2_pos; [| |done].
  all: rewrite Pos2Z.inj_succ, Z.pow_succ_r by lia.
  all: replace (Z.succ (Z.pos (digits2_pos m)) - 1) with (Z.succ (Z.pos (digits2_pos m) - 1)) by lia.
  all: rewrite Z.pow_succ_r by lia; lia.
Qed.

(** A normal float has its leading bit set. *)
Lemma canonical_mantissa_bounds s m e :
  canonical (S754_finite s m e) → Z.pos m < 2 ^ 53 ∧ (0 ≤ e → 2 ^ 52 ≤ Z.pos m).
Proof.
  unfold canonical, valid_binary, bounded, canonical_mantissa, fexp, SpecFloat.emin, prec, emax.
  rewrite andb_true_iff, Z.eqb_eq. intros [Hc _]. pose proof (digits2_bounds m) as [Hlo Hhi].
  split.
  - eapply Z.lt_le_trans; [exact Hhi|]. apply Z.pow_le_mono_r; lia.
  - intros He. etransitivity; [|exact Hlo]. apply Z.pow_le_mono_r; lia.
Qed.

(** Comparing exponents first is comparing magnitudes: here with a power of
    two, [2^52 * 2^e0]. *)
Lemma mag_compare s m e e0 :
  canonical (S754_finite s m e) → 1 ≤ e0 →
  (e < e0 → mag m e < 2 ^ (52 + e0)) ∧
  (e = e0 → mag m e = Z.pos m * 2 ^ e0) ∧
  (e0 < e → 2 ^ (52 + e0) < mag m e).
Proof.
  intros Hc H0. destruct (canonical_mantissa_bounds _ _ _ Hc) as [Hhi Hlo]. unfold mag.
  split_and!.
  - intros He. destruct (Z.leb_spec 0 e).
    + apply Z.lt_le_trans with (2 ^ 53 * 2 ^ e); [apply Z.mul_lt_mono_pos_r; [lia|done]|].
      rewrite <-Z.pow_add_r by lia. apply Z.pow_le_mono_r; lia.
    + pose proof (Z.pow_pos_nonneg 2 (- e) ltac:(lia) ltac:(lia)).
      apply Z.le_lt_trans with (Z.pos m); [apply Z.div_le_upper_bound; nia|].
      apply Z.lt_le_trans with (2 ^ 53); [done|]. apply Z.pow_le_mono_r; lia.
  - intros ->. by destruct (Z.leb_spec 0 e0); [|lia].
  - intros He. destruct (Z.leb_spec 0 e); [|lia]. specialize (Hlo ltac:(lia)).
    apply Z.lt_le_trans with (2 ^ 52 * 2 ^ e).
    + rewrite <-Z.pow_add_r by lia. apply Z.pow_lt_mono_r; lia.
    + apply Z.mul_le_mono_nonneg_r; lia.
Qed.

Lemma whole_value_finite s m e :
  whole_value (S754_finite s m e) = if s then - mag m e else mag m e.
Proof. done. Qed.

(** A whole float that is not zero is at least one in magnitude. *)
Lemma whole_mag_pos s m e : whole (S754_finite s m e) = true → 1 ≤ mag m e.
Proof.
  simpl. unfold mag. rewrite orb_true_iff, Z.leb_le, Z.eqb_eq. intros Hw.
  destruct (Z.leb_spec 0 e) as [He|He].
  - pose proof (Z.pow_pos_nonneg 2 e ltac:(lia) He). nia.
  - destruct Hw as [|Hw]; [lia|]. pose proof (Z.pow_pos_nonneg 2 (- e) ltac:(lia) ltac:(lia)).
    apply Z.div_exact in Hw; [|lia]. nia.
Qed.

(** Comparing two floats of the same sign: the exponents, then the
    mantissas. *)
Lemma SFltb_pos m e k e0 :
  SFltb (S754_finite false m e) (S754_finite false k e0) = true ↔
  e < e0 ∨ e = e0 ∧ Z.pos m < Z.pos k.
Proof.
  unfold SFltb, SFcompare. change (Pos.compare_cont Eq m k) with (Pos.compare m k).
  destruct (Z.compare_spec e e0); [destruct (Pos.compare_spec m k)|..]; naive_solver lia.
Qed.

Lemma SFleb_neg m e k e0 :
  SFleb (S754_finite true k e0) (S754_finite true m e) = true ↔
  e < e0 ∨ e = e0 ∧ Z.pos m ≤ Z.pos k.
Proof.
  unfold SFleb, SFcompare. change (Pos.compare_cont Eq k m) with (Pos.compare k m).
  destruct (Z.compare_spec e0 e); [destruct (Pos.compare_spec k m)|..]; naive_solver lia.
Qed.

(** The lower bound tested before the cast is the lower bound of [i64]. *)
Lemma i64_min_bound x :
  canonical x → whole x = true → SFltb x fzero = true →
  whole_value x < 0 ∧ (SFleb f_i64_min x = true ↔ - 2 ^ 63 ≤ whole_value x).
Proof.
  intros Hc Hw. destruct x as [|[]| |[] m e]; try done. intros _.
  rewrite whole_value_finite. pose proof (whole_mag_pos _ _ _ Hw). split; [lia|].
  destruct (mag_compare _ m e 11 Hc ltac:(lia)) as (H1 & H2 & H3).
  unfold f_i64_min. rewrite SFleb_neg. lia.
Qed.

(** The upper bound tested before the cast is the upper bound of [u64]. *)
Lemma u64_max_bound x :
  canonical x → whole x = true → SFltb x fzero = false →
  0 ≤ whole_value x ∧ (SFltb x f_u64_max = true ↔ whole_value x < 2 ^ 64).
Proof.
  intros Hc Hw. destruct x as [|[]| |[] m e]; try done. intros _.
  rewrite whole_value_finite. pose proof (whole_mag_pos _ _ _ Hw). split; [lia|].
  destruct (mag_compare _ m e 12 Hc ltac:(lia)) as (H1 & H2 & H3).
  unfold f_u64_max. rewrite SFltb_pos. lia.
Qed.

(** An integer and a float are the same label exactly when the float is a
    whole number and it is that integer: nothing is rounded. *)
Lemma integer_matches_float_exact z x :
  number_ok z → canonical x →
  integer_matches_float z x = true ↔ whole x = true ∧ whole_value x = z.
Proof.
  unfold number_ok. intros Hz Hc. unfold integer_matches_float.
  destruct (whole x) eqn:Hw; simpl; [|naive_solver].
  destruct (SFltb x fzero) eqn:Hneg.
  - destruct (i64_min_bound x Hc Hw Hneg) as [H1 H2].
    rewrite andb_true_iff, bool_decide_eq_true, H2. unfold as_i64.
    destruct (Z.leb_spec (- 2 ^ 63) z), (Z.ltb_spec z (2 ^ 63)); simpl; naive_solver lia.
  - destruct (u64_max_bound x Hc Hw Hneg) as [H1 H2].
    rewrite andb_true_iff, bool_decide_eq_true, H2. unfold as_u64.
    destruct (Z.leb_spec 0 z), (Z.ltb_spec z (2 ^ 64)); simpl; naive_solver lia.
Qed.

(** ** Entries by key *)

Lemma assoc_elem {A} k (v : A) kvs : NoDup kvs.*1 → (k, v) ∈ kvs → assoc k kvs = Some v.
Proof.
  induction kvs as [|[k' v'] kvs IH]; intros Hn Hin; [by apply not_elem_of_nil in Hin|].
  apply NoDup_cons in Hn as [Hk Hn]. cbn [assoc].
  apply elem_of_cons in Hin as [[= -> ->]|Hin]; [by rewrite bool_decide_true|].
  rewrite bool_decide_false; [by apply IH|]. intros ->. apply Hk.
  by apply (list_elem_of_fmap_2 fst kvs (k, v)).
Qed.

Lemma assoc_set_keys {A} k (v : A) kvs : NoDup kvs.*1 → NoDup (assoc_set k v kvs).*1 ∧
  ∀ k', k' ∈ (assoc_set k v kvs).*1 → k' = k ∨ k' ∈ kvs.*1.
Proof.
  induction kvs as [|[k' v'] kvs IH]; intros Hn; cbn [assoc_set].
  - split; [apply NoDup_singleton|]. intros k' Hk. apply list_elem_of_singleton in Hk. by left.
  - cbn [fmap list_fmap fst] in Hn. apply NoDup_cons in Hn as [Hk Hn]. destruct (IH Hn) as [IH1 IH2].
    case_bool_decide as He.
    + subst k'. cbn [fmap list_fmap fst]. split; [by apply NoDup_cons|]. intros k' Hin. by right.
    + cbn [fmap list_fmap fst]. split.
      * apply NoDup_cons. split; [|done]. intros [?|?]%IH2; congruence.
      * intros k'' [->|Hin]%elem_of_cons; [right; left|]. apply IH2 in Hin as [->|?]; [by left|].
        right. by right.
Qed.

Lemma assoc_set_forall {A} (P : A → Prop) k v kvs :
  P v → Forall (λ kv, P kv.2) kvs → Forall (λ kv, P kv.2) (assoc_set k v kvs).
Proof.
  intros Hv. induction 1 as [|[k' v'] kvs Hkv HF IH]; cbn [assoc_set]; [by repeat constructor|].
  case_bool_decide; constructor; done.
Qed.

Lemma assoc_set_lookup {A} k k' (v : A) kvs :
  assoc k' (assoc_set k v kvs) = if bool_decide (k = k') then Some v else assoc k' kvs.
Proof.
  induction kvs as [|[k0 v0] kvs IH]; cbn [assoc_set assoc]; [done|].
  destruct (bool_decide (k0 = k)) eqn:E; cbn [assoc].
  - apply bool_decide_eq_true in E as ->. by case_bool_decide.
  - rewrite IH. apply bool_decide_eq_false in E. repeat case_bool_decide; congruence.
Qed.

Lemma assoc_key {A} k (v : A) kvs : assoc k kvs = Some v → (k, v) ∈ kvs.
Proof.
  induction kvs as [|[k' v'] kvs IH]; cbn [assoc]; [done|]. case_bool_decide as He; [subst; intros [= ->]; left|].
  intros H. right. auto.
Qed.
