(* ===== verification/Cache.v ===== *)
(** * The local cache of a pool

    [tinyray-membership/src/cache.rs] and the [Member] of [tinyray-proto]:
    the copy of a pool every lookup reads.  A pool is its members by id, an
    index from seats to ids, and memos (sorted ids, ready ids, the frozen
    views) that a delta invalidates.  A read answers from a memo when there is
    one and computes the same thing when there is not: [cache_ok] is the
    invariant that makes the two agree, and [apply] preserves it. *)

From S2P Require Import Prelude PyStr PyFloat Errors Identity Json.
From stdpp Require Import sorting.

Local Open Scope Z_scope.

(** ** Members *)

(** [struct Member] *)
Record member := Member {
  m_id : Z;
  m_slot : option Z;
  m_incarnation : Z;
  m_url : option pystr;
  m_state : value;
  m_ready : bool
}.

(** [u64::to_le_bytes] *)
Definition to_le_bytes (z : Z) : list Z :=
  map (λ i : nat, Z.land (Z.shiftr z (8 * Z.of_nat i)) 255) (seq 0 8).

(** [h ^= *b as u64; h = h.wrapping_mul(1099511628211)] *)
Definition fnv_step (h b : Z) : Z := (Z.lxor h b * 1099511628211) mod 2 ^ 64.

(** [Member::roster_hash] *)
Definition roster_hash (m : member) : Z :=
  fold_left fnv_step (to_le_bytes (m_id m) ++ to_le_bytes (m_incarnation m)) 1469598103934665603.

(** [Member::matches] *)
Definition member_matches (m : member) (filter : value) : bool :=
  match filter with
  | Object f =>
      forallb (λ kv, match value_get (m_state m) kv.1 with
                     | Some got => same_value got kv.2
                     | None => false
                     end) f
  | _ => true
  end.

(** [member_identity], and the getter [NativeMember::identity] *)
Definition member_identity (pool : pystr) (m : member) : pystr :=
  _identity pool (m_slot m) (m_id m) (m_incarnation m).

(** [identity_matches] *)
Definition identity_matches (pool : pystr) (m : member) (identity : pystr) : bool :=
  match identity_parts identity with
  | Some (named_pool, key, incarnation) =>
      bool_decide (named_pool = pool) && (key =? default (m_id m) (m_slot m)) &&
      (incarnation =? m_incarnation m)
  | None => false
  end.

(** ** Frozen views *)

Definition id_le (a b : member) : Prop := m_id a ≤ m_id b.
#[global] Instance id_le_dec : RelDecision id_le.
Proof. intros a b. unfold id_le. apply _. Defined.

(** [struct FrozenMembers] *)
Record frozen_members := FrozenMembers {
  fm_members : list member;
  fm_ids : gmap Z nat;
  fm_slots : gmap Z (list nat);
  fm_roster : Z
}.

(** One iteration of the loop in [FrozenMembers::new]. *)
Definition freeze_step (acc : gmap Z nat * gmap Z (list nat) * Z) (im : nat * member) :
    gmap Z nat * gmap Z (list nat) * Z :=
  let '(ids, slots, roster) := acc in
  let '(index, m) := im in
  (<[m_id m := index]> ids,
   match m_slot m with
   | Some s => <[s := default [] (slots !! s) ++ [index]]> slots
   | None => slots
   end,
   Z.lxor roster (roster_hash m)).

(** [FrozenMembers::new] *)
Definition freeze (members : list member) : frozen_members :=
  let sorted := merge_sort id_le members in
  let '(ids, slots, roster) := fold_left freeze_step (imap pair sorted) (∅, ∅, 0) in
  FrozenMembers sorted ids slots roster.

(** [FrozenMembers::slot_arc] *)
Definition frozen_slot (f : frozen_members) (slot : Z) : option member :=
  indices ← fm_slots f !! slot; index ← head indices; fm_members f !! index.

(** The first of some members with this tenure. *)
Definition with_tenure (incarnation : Z) (ms : list member) : option member :=
  head (filter (λ m, m_incarnation m = incarnation) ms).

(** [FrozenMembers::get_arc] *)
Definition frozen_get (f : frozen_members) (pool identity : pystr) : option member :=
  match identity_parts identity with
  | None => None
  | Some (named_pool, key, incarnation) =>
      if negb (bool_decide (named_pool = pool)) then None
      else match indices ← fm_slots f !! key; with_tenure incarnation (omap (fm_members f !!.) indices) with
           | Some m => Some m
           | None =>
               index ← fm_ids f !! key; m ← fm_members f !! index;
               if bool_decide (m_slot m = None) && (m_incarnation m =? incarnation)
               then Some m else None
           end
  end.

(** [struct FrozenPool] *)
Record frozen_pool := FrozenPool {
  fp_members : frozen_members;
  fp_roster : Z;
  fp_version : Z;
  fp_size : option Z;
  fp_methods : list pystr
}.

(** ** The cached pool *)

(** [struct CachedPool]; the serialized snapshots, the digests and the filter
    index are in [FilterIndex]. *)
Record cached_pool := CachedPool {
  cp_version : Z;
  cp_roster : Z;
  cp_methods : list pystr;
  cp_size : option Z;
  cp_members : gmap Z member;
  cp_slots : gmap Z (gset Z);
  cp_ids : option (list Z);
  cp_ready_ids : option (list Z);
  cp_native : option frozen_members;
  cp_native_ready : option frozen_members
}.

(** [CachedPool::default] *)
Definition empty_pool : cached_pool := CachedPool 0 0 [] None ∅ ∅ None None None None.

(** [struct PoolDelta] *)
Record pool_delta := PoolDelta {
  d_version : Z;
  d_roster : Z;
  d_policy : pystr;
  d_methods : list pystr;
  d_size : option Z;
  d_changed : list member;
  d_removed : list Z;
  d_full : bool
}.

Definition sorted_ids (ids : list Z) : list Z := merge_sort Z.le ids.

(** [self.members[id]] answers [f]. *)
Definition at_id (p : cached_pool) (f : member → bool) (i : Z) : bool :=
  match cp_members p !! i with Some m => f m | None => false end.

(** [CachedPool::ids] *)
Definition ids (p : cached_pool) (require_ready : bool) : list Z :=
  let all := match cp_ids p with
             | Some l => l
             | None => sorted_ids (map fst (map_to_list (cp_members p)))
             end in
  if require_ready
  then match cp_ready_ids p with
       | Some l => l
       | None => filter (λ i, at_id p m_ready i = true) all
       end
  else all.

(** [ids.iter().map(|id| self.members[id].clone())]: every id is a key of
    [members], as [cache_ok] says. *)
Definition members_of (p : cached_pool) (l : list Z) : list member := omap (cp_members p !!.) l.

(** [CachedPool::slot] and [CachedPool::slot_owned] *)
Definition cached_slot (p : cached_pool) (slot : Z) (require_ready : bool) : option member :=
  held ← cp_slots p !! slot;
  head (filter (λ m, require_ready = false ∨ m_ready m = true)
          (members_of p (sorted_ids (elements held)))).

(** [CachedPool::get] *)
Definition cached_get (p : cached_pool) (pool identity : pystr) : option member :=
  match identity_parts identity with
  | None => None
  | Some (named_pool, key, incarnation) =>
      if negb (bool_decide (named_pool = pool)) then None
      else match held ← cp_slots p !! key;
                 with_tenure incarnation (members_of p (sorted_ids (elements held))) with
           | Some m => Some m
           | None =>
               m ← cp_members p !! key;
               if bool_decide (m_slot m = None) && (m_incarnation m =? incarnation)
               then Some m else None
           end
  end.

(** [filter.as_object().is_none_or(|fields| fields.is_empty())] *)
Definition no_filter (filter : value) : bool :=
  match filter with Object (_ :: _) => false | _ => true end.

(** [CachedPool::scan_ids] *)
Definition scan_ids (p : cached_pool) (f : value) (require_ready : bool) : list Z :=
  filter (λ i, at_id p (λ m, member_matches m f) i = true) (ids p require_ready).

(** [CachedPool::native] *)
Definition native (p : cached_pool) (require_ready : bool) : frozen_members :=
  match (if require_ready then cp_native_ready p else cp_native p) with
  | Some f => f
  | None => freeze (members_of p (ids p require_ready))
  end.

(** [CachedPool::frozen] *)
Definition frozen (p : cached_pool) (require_ready : bool) : frozen_pool :=
  FrozenPool (native p require_ready) (cp_roster p) (cp_version p) (cp_size p) (cp_methods p).

(** [CachedPool::filtered] *)
Definition filtered (p : cached_pool) (f : value) (require_ready : bool) : frozen_pool :=
  if no_filter f then frozen p require_ready
  else FrozenPool (freeze (members_of p (scan_ids p f require_ready)))
         (cp_roster p) (cp_version p) (cp_size p) (cp_methods p).

(** [CachedPool::count] *)
Definition count (p : cached_pool) (f : value) (require_ready : bool) : nat :=
  if no_filter f then length (ids p require_ready) else length (scan_ids p f require_ready).

(** Draw from a list with the generator's next answer. *)
Definition draw (p : cached_pool) (found : list Z) (rng : nat → nat → nat) : option member :=
  match found with
  | [] => None
  | _ => i ← found !! rng 0%nat (length found); cp_members p !! i
  end.

(** The loop over [self.members.values()] in the order the map yields them:
    the [count]-th match replaces the choice with probability [1/count]. *)
Fixpoint reservoir (f : value) (require_ready : bool) (rng : nat → nat → nat)
    (order : list member) (cnt : nat) (chosen : option member) : option member :=
  match order with
  | [] => chosen
  | m :: order' =>
      if (negb require_ready || m_ready m) && member_matches m f
      then reservoir f require_ready rng order' (S cnt)
             (if (rng cnt (S cnt) =? 0)%nat then Some m else chosen)
      else reservoir f require_ready rng order' cnt chosen
  end.

(** [CachedPool::choose_arc].  [rng n b] is the generator's answer to its
    [n]-th question [rng.usize(..b)], [order] the order the hash map yields
    the members in, [indexed] whether the filter made an index key. *)
Definition choose (p : cached_pool) (f : value) (require_ready indexed : bool)
    (rng : nat → nat → nat) (order : list member) : option member :=
  if no_filter f then draw p (ids p require_ready) rng
  else if indexed then draw p (scan_ids p f require_ready) rng
  else reservoir f require_ready rng order 0 None.

(** ** Applying a delta *)

(** [CachedPool::unindex] *)
Definition unindex (slots : gmap Z (gset Z)) (slot i : Z) : gmap Z (gset Z) :=
  match slots !! slot with
  | None => slots
  | Some held =>
      let left := held ∖ {[i]} in
      if decide (left = ∅) then delete slot slots else <[slot := left]> slots
  end.

(** [self.slots.entry(slot).or_default().insert(id)] *)
Definition index (slots : gmap Z (gset Z)) (slot i : Z) : gmap Z (gset Z) :=
  <[slot := {[i]} ∪ default ∅ (slots !! slot)]> slots.

(** What the loops of [apply] carry. *)
Record applying := Applying {
  ap_members : gmap Z member;
  ap_slots : gmap Z (gset Z);
  ap_membership : bool;
  ap_readiness : bool
}.

(** One member of [d.changed]. *)
Definition apply_changed (a : applying) (m : member) : applying :=
  let old := ap_members a !! m_id m in
  let old_slot := old ≫= m_slot in
  {| ap_members := <[m_id m := m]> (ap_members a);
     ap_slots :=
       if decide (old_slot = m_slot m) then ap_slots a
       else let freed := match old_slot with
                         | Some s => unindex (ap_slots a) s (m_id m)
                         | None => ap_slots a
                         end in
            match m_slot m with
            | Some s => index freed s (m_id m)
            | None => freed
            end;
     ap_membership := ap_membership a || bool_decide (old = None);
     ap_readiness := ap_readiness a || negb (bool_decide (m_ready <$> old = Some (m_ready m))) |}.

(** One id of [d.removed]: [CachedPool::remove]. *)
Definition apply_removed (a : applying) (i : Z) : applying :=
  match ap_members a !! i with
  | None => a
  | Some m =>
      {| ap_members := delete i (ap_members a);
         ap_slots := match m_slot m with
                     | Some s => unindex (ap_slots a) s i
                     | None => ap_slots a
                     end;
         ap_membership := true;
         ap_readiness := ap_readiness a |}
  end.

(** [if d.full { clear }] and the two loops. *)
Definition apply_loops (p : cached_pool) (d : pool_delta) : applying :=
  let start := if d_full d then Applying ∅ ∅ true false
               else Applying (cp_members p) (cp_slots p) false false in
  fold_left apply_removed (d_removed d) (fold_left apply_changed (d_changed d) start).

(** [d.full || !d.changed.is_empty() || !d.removed.is_empty()] *)
Definition touches (d : pool_delta) : bool :=
  d_full d || negb (bool_decide (d_changed d = [])) || negb (bool_decide (d_removed d = [])).

(** [CachedPool::apply] *)
Definition apply (p : cached_pool) (d : pool_delta) : cached_pool :=
  let a := apply_loops p d in
  {| cp_version := d_version d;
     cp_roster := d_roster d;
     cp_methods := d_methods d;
     cp_size := d_size d;
     cp_members := ap_members a;
     cp_slots := ap_slots a;
     cp_ids := if ap_membership a then None else cp_ids p;
     cp_ready_ids := if ap_membership a || ap_readiness a then None else cp_ready_ids p;
     cp_native := if touches d then None else cp_native p;
     cp_native_ready := if touches d then None else cp_native_ready p |}.

(** ** The invariant *)

Definition all_ids (ms : gmap Z member) : list Z := sorted_ids (map fst (map_to_list ms)).

Definition is_ready (ms : gmap Z member) (i : Z) : bool :=
  match ms !! i with Some m => m_ready m | None => false end.

(** The seat index lists exactly the members that hold a seat. *)
Record indexed (ms : gmap Z member) (slots : gmap Z (gset Z)) : Prop := {
  ix_keyed : ∀ i m, ms !! i = Some m → m_id m = i;
  ix_slots : ∀ s i, i ∈ default ∅ (slots !! s) ↔ ∃ m, ms !! i = Some m ∧ m_slot m = Some s;
  ix_nonempty : ∀ s, slots !! s ≠ Some ∅
}.

Record cache_ok (p : cached_pool) : Prop := {
  co_indexed : indexed (cp_members p) (cp_slots p);
  co_ids : ∀ l, cp_ids p = Some l → l = all_ids (cp_members p);
  co_ready_ids : ∀ l, cp_ready_ids p = Some l →
    l = filter (λ i, is_ready (cp_members p) i = true) (all_ids (cp_members p));
  co_native : ∀ f, cp_native p = Some f →
    f = freeze (omap (cp_members p !!.) (all_ids (cp_members p)));
  co_native_ready : ∀ f, cp_native_ready p = Some f →
    f = freeze (omap (cp_members p !!.)
          (filter (λ i, is_ready (cp_members p) i = true) (all_ids (cp_members p))))
}.

(** *** Sorted keys *)

#[global] Instance Z_le_trans' : Transitive Z.le.
Proof. intros x y z. apply Z.le_trans. Qed.
#[global] Instance Z_le_total : Total Z.le.
Proof. intros x y. lia. Qed.
#[global] Instance Z_le_antisymm : AntiSymm (=) Z.le.
Proof. intros x y. lia. Qed.

Lemma sorted_ids_perm l k : l ≡ₚ k → sorted_ids l = sorted_ids k.
Proof.
  intros Hp. unfold sorted_ids. apply (StronglySorted_unique Z.le).
  - apply StronglySorted_merge_sort; apply _.
  - apply StronglySorted_merge_sort; apply _.
  - by rewrite !merge_sort_Permutation.
Qed.

Lemma elem_of_sorted_ids l i : i ∈ sorted_ids l ↔ i ∈ l.
Proof. unfold sorted_ids. by rewrite merge_sort_Permutation. Qed.

Lemma elem_of_keys {A} (ms : gmap Z A) i : i ∈ map fst (map_to_list ms) ↔ is_Some (ms !! i).
Proof.
  rewrite list_elem_of_fmap. split.
  - intros ([j m] & -> & Hm%elem_of_map_to_list). by exists m.
  - intros [m Hm]. exists (i, m). split; [done|]. by apply elem_of_map_to_list.
Qed.

Lemma elem_of_all_ids ms i : i ∈ all_ids ms ↔ is_Some (ms !! i).
Proof. unfold all_ids. by rewrite elem_of_sorted_ids, elem_of_keys. Qed.

Lemma NoDup_all_ids ms : NoDup (all_ids ms).
Proof. unfold all_ids, sorted_ids. rewrite merge_sort_Permutation. apply NoDup_fst_map_to_list. Qed.

(** The sorted keys depend on the keys alone. *)
Lemma all_ids_dom ms ms' : (∀ i, is_Some (ms !! i) ↔ is_Some (ms' !! i)) → all_ids ms = all_ids ms'.
Proof.
  intros Hd. apply sorted_ids_perm, NoDup_Permutation; [apply NoDup_fst_map_to_list..|].
  intros i. by rewrite !elem_of_keys.
Qed.

Lemma at_id_ready p i : at_id p m_ready i = is_ready (cp_members p) i.
Proof. done. Qed.

(** Under the invariant a memo answers what would be computed. *)
Lemma ids_spec p rr : cache_ok p →
  ids p rr = if rr then filter (λ i, is_ready (cp_members p) i = true) (all_ids (cp_members p))
             else all_ids (cp_members p).
Proof.
  intros [_ Hi Hr _ _]. unfold ids.
  assert (match cp_ids p with Some l => l
          | None => sorted_ids (map fst (map_to_list (cp_members p))) end
          = all_ids (cp_members p)) as ->.
  { destruct (cp_ids p) as [l|]; [by apply Hi|done]. }
  destruct rr; [|done]. destruct (cp_ready_ids p) as [l|]; [by apply Hr|done].
Qed.

Lemma native_spec p rr : cache_ok p → native p rr = freeze (members_of p (ids p rr)).
Proof.
  intros Hok. pose proof (co_native _ Hok) as Hn. pose proof (co_native_ready _ Hok) as Hr.
  unfold native, members_of. rewrite ids_spec by done.
  destruct rr; [destruct (cp_native_ready p)|destruct (cp_native p)]; auto.
Qed.

(** *** The seat index *)

Lemma default_unindex slots s i s' :
  default ∅ (unindex slots s i !! s') =
  (if decide (s' = s) then default ∅ (slots !! s') ∖ {[i]} else default ∅ (slots !! s') : gset Z).
Proof.
  unfold unindex. destruct (slots !! s) as [held|] eqn:E; cycle 1.
  { destruct (decide (s' = s)) as [->|]; [|done]. rewrite E. simpl. set_solver. }
  case_decide as Hl; destruct (decide (s' = s)) as [->|Hne].
  - rewrite lookup_delete_eq, E. simpl. by rewrite Hl.
  - by rewrite lookup_delete_ne.
  - rewrite lookup_insert_eq, E. done.
  - by rewrite lookup_insert_ne.
Qed.

Lemma default_index slots s i s' :
  default ∅ (index slots s i !! s') =
  (if decide (s' = s) then {[i]} ∪ default ∅ (slots !! s') else default ∅ (slots !! s') : gset Z).
Proof.
  unfold index. destruct (decide (s' = s)) as [->|Hne].
  - by rewrite lookup_insert_eq.
  - by rewrite lookup_insert_ne.
Qed.

Lemma unindex_nonempty slots s i :
  (∀ s', slots !! s' ≠ Some ∅) → ∀ s', unindex slots s i !! s' ≠ Some ∅.
Proof.
  intros Hn s'. unfold unindex. destruct (slots !! s) as [held|] eqn:E; [|done].
  case_decide as Hl; destruct (decide (s' = s)) as [->|Hne].
  - by rewrite lookup_delete_eq.
  - by rewrite lookup_delete_ne.
  - rewrite lookup_insert_eq. congruence.
  - by rewrite lookup_insert_ne.
Qed.

Lemma index_nonempty slots s i :
  (∀ s', slots !! s' ≠ Some ∅) → ∀ s', index slots s i !! s' ≠ Some ∅.
Proof.
  intros Hn s'. unfold index. destruct (decide (s' = s)) as [->|Hne].
  - rewrite lookup_insert_eq. intros [= H]. set_solver.
  - by rewrite lookup_insert_ne.
Qed.

Definition a_indexed (a : applying) : Prop := indexed (ap_members a) (ap_slots a).

Lemma apply_removed_indexed a i : a_indexed a → a_indexed (apply_removed a i).
Proof.
  intros [Hk Hs Hn]. unfold apply_removed. destruct (ap_members a !! i) as [m|] eqn:E; [|done].
  split; simpl.
  - intros j m' [_ Hj]%lookup_delete_Some. by apply Hk.
  - intros s j. setoid_rewrite lookup_delete_Some. destruct (m_slot m) as [s0|] eqn:Em.
    + rewrite default_unindex. case_decide as Hd.
      * subst s0. rewrite elem_of_difference, elem_of_singleton, Hs. naive_solver.
      * rewrite Hs. split; [|naive_solver]. intros (m' & Hm' & Hsl). exists m'.
        split; [|done]. split; [|done]. intros ->. congruence.
    + rewrite Hs. split; [|naive_solver]. intros (m' & Hm' & Hsl). exists m'.
      split; [|done]. split; [|done]. intros ->. congruence.
  - destruct (m_slot m); [by apply unindex_nonempty|done].
Qed.

(** After a member has changed, a seat lists it exactly when it holds it; the
    others are untouched. *)
Lemma apply_changed_slots a m s j :
  a_indexed a →
  j ∈ default ∅ (ap_slots (apply_changed a m) !! s) ↔
  (j = m_id m ∧ m_slot m = Some s) ∨ (j ≠ m_id m ∧ j ∈ default ∅ (ap_slots a !! s)).
Proof.
  intros [Hk Hs Hn]. simpl.
  assert (m_id m ∈ default ∅ (ap_slots a !! s) ↔ ap_members a !! m_id m ≫= m_slot = Some s) as Hold.
  { rewrite Hs, bind_Some. done. }
  destruct (decide (ap_members a !! m_id m ≫= m_slot = m_slot m)) as [He|He].
  { rewrite He in Hold. destruct (decide (j = m_id m)) as [->|]; naive_solver. }
  destruct (ap_members a !! m_id m ≫= m_slot) as [so|], (m_slot m) as [sn|];
    rewrite ?default_index, ?default_unindex; repeat case_decide; subst;
    rewrite ?elem_of_union, ?elem_of_difference, ?elem_of_singleton;
    destruct (decide (j = m_id m)) as [->|]; naive_solver.
Qed.

Lemma apply_changed_indexed a m : a_indexed a → a_indexed (apply_changed a m).
Proof.
  intros Ha. pose proof (apply_changed_slots a m) as Hsl. destruct Ha as [Hk Hs Hn]. split.
  - simpl. intros i m' [[<- <-]|[_ ?]]%lookup_insert_Some; auto.
  - intros s j. rewrite Hsl by done. rewrite Hs. simpl. setoid_rewrite lookup_insert_Some.
    split; [naive_solver|]. intros (m' & [[? ->]|[? ?]] & ?); naive_solver.
  - simpl. case_decide; [done|].
    destruct (ap_members a !! m_id m ≫= m_slot) as [so|], (m_slot m) as [sn|];
      auto using index_nonempty, unindex_nonempty.
Qed.

(** What the two flags promise about the state the loops started from. *)
Record tracked (ms : gmap Z member) (a : applying) : Prop := {
  tr_membership : ap_membership a = false →
    ∀ i, is_Some (ap_members a !! i) ↔ is_Some (ms !! i);
  tr_readiness : ap_membership a = false → ap_readiness a = false →
    ∀ i, m_ready <$> ap_members a !! i = m_ready <$> ms !! i
}.

Lemma apply_changed_tracked ms a m : tracked ms a → tracked ms (apply_changed a m).
Proof.
  intros [Hm Hr]. split; simpl.
  - intros [H1 H2]%orb_false_iff i. apply bool_decide_eq_false in H2.
    rewrite lookup_insert_is_Some, Hm by done. split; [|by destruct (decide (m_id m = i)); auto].
    intros [<-|[_ ?]]; [|done]. apply Hm; [done|]. by apply not_eq_None_Some.
  - intros [H1 _]%orb_false_iff [H2 H3]%orb_false_iff i.
    apply negb_false_iff, bool_decide_eq_true in H3.
    destruct (decide (m_id m = i)) as [<-|Hne].
    + rewrite lookup_insert_eq. simpl. rewrite <-H3. by apply Hr.
    + rewrite lookup_insert_ne by done. by apply Hr.
Qed.

Lemma apply_removed_tracked ms a i : tracked ms a → tracked ms (apply_removed a i).
Proof. intros [Hm Hr]. unfold apply_removed. destruct (ap_members a !! i); split; auto; done. Qed.

Lemma apply_loops_ok p d :
  indexed (cp_members p) (cp_slots p) →
  a_indexed (apply_loops p d) ∧ tracked (cp_members p) (apply_loops p d).
Proof.
  intros Hp. unfold apply_loops.
  apply (fold_left_ind (λ a, a_indexed a ∧ tracked (cp_members p) a));
    [apply (fold_left_ind (λ a, a_indexed a ∧ tracked (cp_members p) a))|].
  - destruct (d_full d); (split; [|by split]); [|done].
    unfold a_indexed; simpl. split; simpl.
    + intros i m. by rewrite lookup_empty.
    + intros s i. rewrite lookup_empty. simpl. setoid_rewrite lookup_empty. set_solver.
    + intros s. by rewrite lookup_empty.
  - intros a m [? ?]. auto using apply_changed_indexed, apply_changed_tracked.
  - intros a i [? ?]. auto using apply_removed_indexed, apply_removed_tracked.
Qed.

(** A delta that touches nothing leaves the members as they are. *)
Lemma apply_untouched p d : touches d = false → ap_members (apply_loops p d) = cp_members p ∧
  ap_membership (apply_loops p d) = false ∧ ap_readiness (apply_loops p d) = false.
Proof.
  unfold touches, apply_loops. intros [[H1 H2]%orb_false_iff H3]%orb_false_iff.
  apply negb_false_iff, bool_decide_eq_true in H2, H3. by rewrite H1, H2, H3.
Qed.

Lemma is_ready_spec ms i : is_ready ms i = default false (m_ready <$> ms !! i).
Proof. unfold is_ready. by destruct (ms !! i). Qed.

Lemma ready_ids_same ms ms' :
  (∀ i, is_Some (ms !! i) ↔ is_Some (ms' !! i)) →
  (∀ i, m_ready <$> ms !! i = m_ready <$> ms' !! i) →
  filter (λ i, is_ready ms i = true) (all_ids ms) = filter (λ i, is_ready ms' i = true) (all_ids ms').
Proof.
  intros Hd Hr. rewrite (all_ids_dom ms ms') by done. apply list_filter_iff. intros i.
  by rewrite !is_ready_spec, Hr.
Qed.

(** Applying a delta keeps the index exact and drops every memo it may have
    made wrong. *)
Lemma apply_cache_ok p d : cache_ok p → cache_ok (apply p d).
Proof.
  intros [Hix Hi Hr Hn Hnr]. destruct (apply_loops_ok p d Hix) as [Ha [Hm Hrd]].
  split; [done|..]; unfold apply; cbn [cp_members cp_ids cp_ready_ids cp_native cp_native_ready].
  - destruct (ap_membership _); [done|]. intros l Hl. rewrite (Hi l Hl). apply all_ids_dom.
    intros i. symmetry. by apply Hm.
  - destruct (ap_membership _); [done|]. destruct (ap_readiness _); [done|]. simpl.
    intros l Hl. rewrite (Hr l Hl). apply ready_ids_same; intros i; symmetry; auto.
  - destruct (touches d) eqn:Ht; [done|]. destruct (apply_untouched p d Ht) as (-> & _). done.
  - destruct (touches d) eqn:Ht; [done|]. destruct (apply_untouched p d Ht) as (-> & _). done.
Qed.

Lemma empty_pool_ok : cache_ok empty_pool.
Proof.
  split; [|done..]. split; simpl.
  - intros i m. by rewrite lookup_empty.
  - intros s i. rewrite lookup_empty. simpl. setoid_rewrite lookup_empty. set_solver.
  - intros s. by rewrite lookup_empty.
Qed.

#[export] Hint Resolve apply_cache_ok empty_pool_ok : tinyray.

(** ** Frozen views answer like a scan of their members *)

(** The indices of the pairs whose member satisfies [P]. *)
Definition positions (P : member → bool) (ps : list (nat * member)) : list nat :=
  omap (λ im, if P im.2 then Some im.1 else None) ps.

#[local] Arguments positions : simpl never.
#[global] Arguments roster_hash : simpl never.
#[local] Opaque roster_hash.

Definition holds_slot (s : Z) (m : member) : bool := bool_decide (m_slot m = Some s).

Lemma positions_cons P k m ps :
  positions P ((k, m) :: ps) = if P m then k :: positions P ps else positions P ps.
Proof. unfold positions. simpl. by destruct (P m). Qed.

Lemma freeze_fold ps ids0 slots0 r0 :
  let '(ids, slots, roster) := fold_left freeze_step ps (ids0, slots0, r0) in
  (∀ s, default [] (slots !! s) = default [] (slots0 !! s) ++ positions (holds_slot s) ps) ∧
  (∀ i k, ids !! i = Some k →
     ids0 !! i = Some k ∨ ∃ m, (k, m) ∈ ps ∧ m_id m = i) ∧
  (∀ i, is_Some (ids0 !! i) ∨ i ∈ map (m_id ∘ snd) ps → is_Some (ids !! i)) ∧
  roster = fold_left Z.lxor (map (roster_hash ∘ snd) ps) r0.
Proof.
  revert ids0 slots0 r0. induction ps as [|[k m] ps IH]; intros ids0 slots0 r0; simpl.
  { split_and!; [intros s; by rewrite app_nil_r|auto| |done].
    intros i [?|?%not_elem_of_nil]; done. }
  specialize (IH (<[m_id m:=k]> ids0)
    (match m_slot m with
     | Some s => <[s:=default [] (slots0 !! s) ++ [k]]> slots0
     | None => slots0
     end) (Z.lxor r0 (roster_hash m))).
  destruct (fold_left _ ps _) as [[ids slots] roster].
  destruct IH as (H1 & H2 & H3 & H4). split_and!; [| | |done].
  - intros s. rewrite H1, positions_cons. unfold holds_slot at 2.
    destruct (m_slot m) as [s'|].
    + destruct (decide (s' = s)) as [->|Hne].
      * rewrite lookup_insert_eq, bool_decide_true by done. simpl. by rewrite <-app_assoc.
      * rewrite lookup_insert_ne, bool_decide_false by congruence. done.
    + by rewrite bool_decide_false.
  - intros i k' Hk. destruct (H2 i k' Hk) as [[[<- <-]|[? ?]]%lookup_insert_Some|(m' & ? & ?)].
    + right. exists m. split; [left|done].
    + by left.
    + right. exists m'. split; [by right|done].
  - intros i Hi. apply H3. rewrite lookup_insert_is_Some. destruct (decide (m_id m = i)); [by left; left|].
    destruct Hi as [|[->|]%elem_of_cons]; auto.
Qed.

Lemma elem_of_imap_pair {A} (l : list A) i x : (i, x) ∈ imap pair l → l !! i = Some x.
Proof. intros (j & y & [= -> ->] & Hj)%elem_of_lookup_imap_1. done. Qed.

Lemma imap_pair_snd {A} (l : list A) : (imap pair l).*2 = l.
Proof.
  apply list_eq. intros i. rewrite list_lookup_fmap, list_lookup_imap. by destruct (l !! i).
Qed.

Lemma map_snd_imap {A B} (f : A → B) (l : list A) : map (f ∘ snd) (imap pair l) = map f l.
Proof.
  apply list_eq. intros i. rewrite !list_lookup_fmap, list_lookup_imap. by destruct (l !! i).
Qed.

(** Looking the positions up gives the members back, in order. *)
Lemma positions_lookup P (l : list member) ps :
  (∀ i m, (i, m) ∈ ps → l !! i = Some m) →
  omap (l !!.) (positions P ps) = filter (λ m, P m = true) (ps.*2).
Proof.
  induction ps as [|[i m] ps IH]; intros Hps; [done|].
  assert (∀ j m', (j, m') ∈ ps → l !! j = Some m') as Hps' by (intros; apply Hps; by right).
  rewrite positions_cons. cbn [fmap list_fmap snd]. rewrite filter_cons.
  destruct (P m) eqn:HP; case_decide; try congruence; [|by apply IH].
  cbn. rewrite (Hps i m) by left. f_equal. by apply IH.
Qed.

Section Freeze.
Context (ms : list member).

Lemma freeze_members : fm_members (freeze ms) = merge_sort id_le ms.
Proof. unfold freeze. by destruct (fold_left _ _ _) as [[? ?] ?]. Qed.

Lemma freeze_slots s :
  default [] (fm_slots (freeze ms) !! s) = positions (holds_slot s) (imap pair (fm_members (freeze ms))).
Proof.
  rewrite freeze_members. unfold freeze.
  pose proof (freeze_fold (imap pair (merge_sort id_le ms)) ∅ ∅ 0) as H.
  destruct (fold_left _ _ _) as [[? ?] ?]. destruct H as (H & _). simpl.
  by rewrite H, lookup_empty.
Qed.

Lemma freeze_ids i k :
  fm_ids (freeze ms) !! i = Some k → ∃ m, fm_members (freeze ms) !! k = Some m ∧ m_id m = i.
Proof.
  rewrite freeze_members. unfold freeze.
  pose proof (freeze_fold (imap pair (merge_sort id_le ms)) ∅ ∅ 0) as H.
  destruct (fold_left _ _ _) as [[? ?] ?]. destruct H as (_ & H & _). simpl.
  intros [Hi|(m & Hm & Hid)]%H; [by rewrite lookup_empty in Hi|].
  exists m. split; [by apply elem_of_imap_pair|done].
Qed.

Lemma freeze_ids_some m : m ∈ fm_members (freeze ms) → is_Some (fm_ids (freeze ms) !! m_id m).
Proof.
  rewrite freeze_members. unfold freeze.
  pose proof (freeze_fold (imap pair (merge_sort id_le ms)) ∅ ∅ 0) as H.
  destruct (fold_left _ _ _) as [[? ?] ?]. destruct H as (_ & _ & H & _). simpl.
  intros Hm. apply H. right. rewrite map_snd_imap.
  by apply list_elem_of_fmap_2.
Qed.

(** The fingerprint is the exclusive or of the members' hashes. *)
Lemma freeze_roster :
  fm_roster (freeze ms) = fold_left Z.lxor (map roster_hash (fm_members (freeze ms))) 0.
Proof.
  rewrite freeze_members. unfold freeze.
  pose proof (freeze_fold (imap pair (merge_sort id_le ms)) ∅ ∅ 0) as H.
  destruct (fold_left _ _ _) as [[? ?] ?]. destruct H as (_ & _ & _ & H). simpl.
  by rewrite H, map_snd_imap.
Qed.

Lemma freeze_elem m : m ∈ fm_members (freeze ms) ↔ m ∈ ms.
Proof. rewrite freeze_members. by rewrite merge_sort_Permutation. Qed.

Lemma freeze_slot_members s :
  omap (fm_members (freeze ms) !!.) (default [] (fm_slots (freeze ms) !! s))
  = filter (λ m, holds_slot s m = true) (fm_members (freeze ms)).
Proof.
  rewrite freeze_slots, positions_lookup by (intros; by apply elem_of_imap_pair).
  by rewrite imap_pair_snd.
Qed.

(** The seat index of a view finds the first member in id order that holds
    the seat. *)
Lemma frozen_slot_spec s :
  frozen_slot (freeze ms) s = head (filter (λ m, m_slot m = Some s) (fm_members (freeze ms))).
Proof.
  transitivity (head (omap (fm_members (freeze ms) !!.) (default [] (fm_slots (freeze ms) !! s)))).
  - unfold frozen_slot. pose proof (freeze_slots s) as Hp.
    destruct (fm_slots (freeze ms) !! s) as [[|k ks]|]; [done| |done]. simpl in *.
    assert (∃ m, fm_members (freeze ms) !! k = Some m) as [m Hm].
    { assert (k ∈ positions (holds_slot s) (imap pair (fm_members (freeze ms)))) as Hk
        by (rewrite <-Hp; left).
      apply list_elem_of_omap in Hk as ([k' m] & Hkm & Hsel). simpl in Hsel.
      destruct (holds_slot s m); simplify_eq. exists m. by apply elem_of_imap_pair. }
    by rewrite Hm.
  - rewrite freeze_slot_members. f_equal. apply list_filter_iff. intros m.
    unfold holds_slot. by rewrite bool_decide_eq_true.
Qed.
End Freeze.

(** ** Finding a tenure *)

Lemma head_filter_some {A} (P : A → Prop) `{∀ x, Decision (P x)} (l : list A) x :
  head (filter P l) = Some x → x ∈ l ∧ P x.
Proof.
  intros Hh. assert (x ∈ filter P l) as [? ?]%list_elem_of_filter; [|done].
  destruct (filter P l); [done|]. simpl in Hh. simplify_eq. left.
Qed.

Lemma head_filter_is_some {A} (P : A → Prop) `{∀ x, Decision (P x)} (l : list A) x :
  x ∈ l → P x → is_Some (head (filter P l)).
Proof.
  intros Hx HP. assert (x ∈ filter P l) as Hin by by apply list_elem_of_filter.
  destruct (filter P l) as [|y l']; [by apply not_elem_of_nil in Hin|]. by exists y.
Qed.

(** What both [get]s do once the identity is taken apart: the holders of the
    seat first, then the member keyed by its id. *)
Definition pick_tenure (seated : list member) (keyed : option member) (incarnation : Z) : option member :=
  match with_tenure incarnation seated with
  | Some m => Some m
  | None => m ← keyed; if bool_decide (m_slot m = None) && (m_incarnation m =? incarnation)
                       then Some m else None
  end.

Lemma pick_tenure_sound seated keyed key incarnation m :
  (∀ m', m' ∈ seated → m_slot m' = Some key) → (∀ m', keyed = Some m' → m_id m' = key) →
  pick_tenure seated keyed incarnation = Some m →
  (m ∈ seated ∨ keyed = Some m) ∧ default (m_id m) (m_slot m) = key ∧ m_incarnation m = incarnation.
Proof.
  intros Hs Hk. unfold pick_tenure. destruct (with_tenure incarnation seated) as [m'|] eqn:E.
  - intros [= ->]. apply head_filter_some in E as [Hin Hinc]. rewrite (Hs _ Hin). auto.
  - destruct keyed as [m'|]; simpl; [|done].
    destruct (bool_decide_reflect (m_slot m' = None)) as [Hn|]; simpl; [|done].
    destruct (Z.eqb_spec (m_incarnation m') incarnation); [|done].
    intros [= ->]. rewrite Hn. simpl. auto.
Qed.

Lemma pick_tenure_complete seated keyed incarnation m :
  m_incarnation m = incarnation → m ∈ seated ∨ keyed = Some m ∧ m_slot m = None →
  is_Some (pick_tenure seated keyed incarnation).
Proof.
  intros Hi Hm. unfold pick_tenure. destruct (with_tenure incarnation seated) as [m'|] eqn:E; [done|].
  destruct Hm as [Hm|[-> Hn]].
  - destruct (head_filter_is_some (λ m, m_incarnation m = incarnation) seated m Hm Hi) as [m' Hm'].
    unfold with_tenure in E. congruence.
  - simpl. rewrite bool_decide_true, (proj2 (Z.eqb_eq _ _) Hi) by done. done.
Qed.

Lemma identity_matches_true pool m identity :
  identity_matches pool m identity = true ↔
  identity_parts identity = Some (pool, default (m_id m) (m_slot m), m_incarnation m).
Proof.
  unfold identity_matches. destruct (identity_parts identity) as [[[np key] inc]|]; [|naive_solver].
  rewrite !andb_true_iff, bool_decide_eq_true, !Z.eqb_eq. naive_solver.
Qed.

Lemma frozen_get_pick f pool identity :
  frozen_get f pool identity =
  match identity_parts identity with
  | Some (named_pool, key, incarnation) =>
      if bool_decide (named_pool = pool)
      then pick_tenure (omap (fm_members f !!.) (default [] (fm_slots f !! key)))
             (fm_ids f !! key ≫= (fm_members f !!.)) incarnation
      else None
  | None => None
  end.
Proof.
  unfold frozen_get, pick_tenure. destruct (identity_parts identity) as [[[np key] inc]|]; [|done].
  destruct (bool_decide (np = pool)); [|done]. simpl.
  destruct (fm_slots f !! key) as [held|]; simpl; [|by destruct (fm_ids f !! key)].
  destruct (with_tenure inc _); [done|]. by destruct (fm_ids f !! key).
Qed.

(** A view finds a member with this exact identity whenever it holds one, and
    only then. *)
Lemma frozen_get_sound ms pool identity m :
  frozen_get (freeze ms) pool identity = Some m → m ∈ ms ∧ identity_matches pool m identity = true.
Proof.
  rewrite frozen_get_pick, identity_matches_true.
  destruct (identity_parts identity) as [[[np key] inc]|]; [|done].
  case_bool_decide; [|done]. subst. rewrite freeze_slot_members.
  intros H. eapply (pick_tenure_sound _ _ key) in H as ([Hm|Hm] & <- & <-).
  - split; [|done]. apply list_elem_of_filter in Hm as [_ ?]. by apply freeze_elem.
  - split; [|done]. apply bind_Some in Hm as (k & _ & Hk). apply freeze_elem. by eapply list_elem_of_lookup_2.
  - intros m' [Hs _]%list_elem_of_filter. by apply bool_decide_eq_true in Hs.
  - intros m' (k & Hk & Hm')%bind_Some. apply freeze_ids in Hk as (m'' & ? & ?). congruence.
Qed.

Lemma frozen_get_complete ms pool identity m :
  (∀ a b, a ∈ ms → b ∈ ms → m_id a = m_id b → a = b) →
  m ∈ ms → identity_matches pool m identity = true →
  is_Some (frozen_get (freeze ms) pool identity).
Proof.
  intros Hu Hm Hid%identity_matches_true. rewrite frozen_get_pick, Hid, bool_decide_true by done.
  rewrite freeze_slot_members. apply (pick_tenure_complete _ _ _ m); [done|].
  destruct (m_slot m) as [s|] eqn:Es; simpl; [left|right].
  - apply list_elem_of_filter. split; [by apply bool_decide_eq_true|by apply freeze_elem].
  - split; [|done]. destruct (freeze_ids_some ms m) as [k Hk]; [by apply freeze_elem|].
    rewrite Hk. simpl. destruct (freeze_ids ms _ _ Hk) as (m' & Hm' & He). rewrite Hm'. f_equal.
    apply Hu; [|done..]. apply freeze_elem. by eapply list_elem_of_lookup_2.
Qed.

Lemma cached_get_pick p pool identity :
  cached_get p pool identity =
  match identity_parts identity with
  | Some (named_pool, key, incarnation) =>
      if bool_decide (named_pool = pool)
      then pick_tenure (members_of p (sorted_ids (elements (default ∅ (cp_slots p !! key)))))
             (cp_members p !! key) incarnation
      else None
  | None => None
  end.
Proof.
  unfold cached_get, pick_tenure. destruct (identity_parts identity) as [[[np key] inc]|]; [|done].
  destruct (bool_decide (np = pool)); [|done]. simpl. by destruct (cp_slots p !! key).
Qed.

(** The holders of a seat, through the index. *)
Lemma seat_holders p s m :
  cache_ok p →
  m ∈ members_of p (sorted_ids (elements (default ∅ (cp_slots p !! s)))) ↔
  cp_members p !! m_id m = Some m ∧ m_slot m = Some s.
Proof.
  intros Hok. destruct (co_indexed _ Hok) as [Hk Hs Hn]. unfold members_of.
  rewrite list_elem_of_omap. setoid_rewrite elem_of_sorted_ids. setoid_rewrite elem_of_elements.
  split.
  - intros (i & (m' & Hm' & Hsl)%Hs & Hm). assert (m' = m) as -> by congruence. by rewrite (Hk _ _ Hm).
  - intros [Hm Hsl]. exists (m_id m). split; [|done]. apply Hs. by exists m.
Qed.

(** The cache finds a tenure exactly when it holds a member with that
    identity. *)
Lemma cached_get_spec p pool identity :
  cache_ok p →
  match cached_get p pool identity with
  | Some m => cp_members p !! m_id m = Some m ∧ identity_matches pool m identity = true
  | None => ∀ i m, cp_members p !! i = Some m → identity_matches pool m identity = false
  end.
Proof.
  intros Hok. pose proof (ix_keyed _ _ (co_indexed _ Hok)) as Hk.
  destruct (cached_get p pool identity) as [m|] eqn:E.
  - rewrite cached_get_pick in E. rewrite identity_matches_true.
    destruct (identity_parts identity) as [[[np key] inc]|]; [|done].
    case_bool_decide; [|done]. subst.
    eapply (pick_tenure_sound _ _ key) in E as ([Hm|Hm] & <- & <-).
    + split; [|done]. by apply seat_holders in Hm as [? _].
    + split; [|done]. by rewrite (Hk _ _ Hm).
    + intros m' [_ ?]%seat_holders; done.
    + intros m' Hm'. by apply Hk.
  - intros i m Hm. apply not_true_iff_false. intros Hid%identity_matches_true.
    rewrite cached_get_pick, Hid, bool_decide_true in E by done.
    pose proof (Hk _ _ Hm) as <-.
    destruct (pick_tenure_complete
      (members_of p (sorted_ids (elements (default ∅ (cp_slots p !! default (m_id m) (m_slot m))))))
      (cp_members p !! default (m_id m) (m_slot m)) (m_incarnation m) m) as [? ?]; [done| |congruence].
    destruct (m_slot m) as [s|] eqn:Es; simpl; [left|right; done].
    by apply seat_holders.
Qed.

(** ** Reads fill the memos *)

Definition set_memos (p : cached_pool) i r n nr : cached_pool :=
  {| cp_version := cp_version p; cp_roster := cp_roster p; cp_methods := cp_methods p;
     cp_size := cp_size p; cp_members := cp_members p; cp_slots := cp_slots p;
     cp_ids := i; cp_ready_ids := r; cp_native := n; cp_native_ready := nr |}.

(** What [ids] leaves behind: [get_or_init] on each list it reads. *)
Definition ids_filled (p : cached_pool) (require_ready : bool) : cached_pool :=
  set_memos p (Some (ids p false))
    (if require_ready then Some (ids p true) else cp_ready_ids p) (cp_native p) (cp_native_ready p).

(** What [native] leaves behind; a view that is there is not rebuilt. *)
Definition native_filled (p : cached_pool) (require_ready : bool) : cached_pool :=
  let f := native p require_ready in
  match (if require_ready then cp_native_ready p else cp_native p) with
  | Some _ => p
  | None =>
      let q := ids_filled p require_ready in
      if require_ready then set_memos q (cp_ids q) (cp_ready_ids q) (cp_native q) (Some f)
      else set_memos q (cp_ids q) (cp_ready_ids q) (Some f) (cp_native_ready q)
  end.

(** What happens to a cached pool: a delta arrives, or somebody reads. *)
Inductive cache_event :=
| Delta (d : pool_delta)
| ReadIds (require_ready : bool)
| ReadNative (require_ready : bool).

Definition cache_run (p : cached_pool) (e : cache_event) : cached_pool :=
  match e with
  | Delta d => apply p d
  | ReadIds rr => ids_filled p rr
  | ReadNative rr => native_filled p rr
  end.

#[global] Arguments ids : simpl never.
#[global] Arguments native : simpl never.

Lemma ids_filled_ok p rr : cache_ok p → cache_ok (ids_filled p rr).
Proof.
  intros Hok. pose proof Hok as [Hix Hi Hr Hn Hnr]. split; [done|..|done|done]; simpl.
  - intros l [= <-]. by rewrite ids_spec.
  - destruct rr; [|done]. intros l [= <-]. by rewrite ids_spec.
Qed.

Lemma native_filled_ok p rr : cache_ok p → cache_ok (native_filled p rr).
Proof.
  intros Hok. pose proof (native_spec p rr Hok) as Hf. pose proof (ids_spec p rr Hok) as Hids.
  unfold members_of in Hf. rewrite Hids in Hf. unfold native_filled.
  pose proof (ids_filled_ok p rr Hok) as [Hix Hi Hr Hn Hnr].
  destruct rr; [destruct (cp_native_ready p); [done|]|destruct (cp_native p); [done|]];
    (split; [done|..]); try done; intros f [= <-]; exact Hf.
Qed.

#[export] Hint Resolve ids_filled_ok native_filled_ok : tinyray.

Lemma cache_run_ok p e : cache_ok p → cache_ok (cache_run p e).
Proof. destruct e; simpl; auto with tinyray. Qed.

Lemma cache_runs_ok evs p : cache_ok p → cache_ok (fold_left cache_run evs p).
Proof. intros Hp. apply (fold_left_ind cache_ok); auto using cache_run_ok. Qed.

(** Two pools that differ in their memos alone. *)
Definition same_pool (p q : cached_pool) : Prop :=
  cp_version p = cp_version q ∧ cp_roster p = cp_roster q ∧ cp_methods p = cp_methods q ∧
  cp_size p = cp_size q ∧ cp_members p = cp_members q ∧ cp_slots p = cp_slots q.

#[global] Instance same_pool_equiv : Equivalence same_pool.
Proof.
  unfold same_pool. split.
  - by intros p.
  - intros p q H. naive_solver.
  - intros p q r H1 H2. destruct_and!. split_and!; by etransitivity.
Qed.

Lemma apply_loops_same p q d : same_pool p q → apply_loops p d = apply_loops q d.
Proof. intros (_ & _ & _ & _ & Hm & Hs). unfold apply_loops. by rewrite Hm, Hs. Qed.

#[global] Instance apply_proper : Proper (same_pool ==> (=) ==> same_pool) apply.
Proof.
  intros p q Hpq d _ <-. unfold apply. rewrite (apply_loops_same p q d Hpq). by unfold same_pool.
Qed.

Definition is_delta (e : cache_event) : bool := match e with Delta _ => true | _ => false end.

Lemma native_filled_same p rr : same_pool (native_filled p rr) p.
Proof. unfold native_filled. destruct rr; [destruct (cp_native_ready p)|destruct (cp_native p)]; done. Qed.

Lemma cache_runs_same evs p q :
  same_pool p q →
  same_pool (fold_left cache_run evs p)
    (fold_left cache_run (filter (λ e, is_delta e = true) evs) q).
Proof.
  revert p q. induction evs as [|e evs IH]; intros p q Hpq; [done|].
  rewrite filter_cons. destruct e as [d|rr|rr]; simpl; apply IH.
  - by rewrite Hpq.
  - by transitivity p.
  - etransitivity; [apply native_filled_same|done].
Qed.

Lemma same_pool_reads p q rr : cache_ok p → cache_ok q → same_pool p q →
  ids p rr = ids q rr ∧ frozen p rr = frozen q rr.
Proof.
  intros Hp Hq Hpq. assert (ids p rr = ids q rr) as Hids.
  { rewrite !ids_spec by done. destruct Hpq as (_ & _ & _ & _ & -> & _). done. }
  split; [done|]. unfold frozen. rewrite !native_spec, Hids by done. unfold members_of.
  by destruct Hpq as (-> & -> & -> & -> & -> & _).
Qed.

(** ** Properties *)

(** C12: the memos of the cache are invisible: whatever reads were interleaved
    with the deltas that arrived, the sorted ids and the frozen views are the
    ones the deltas alone give, and no delta leaves a stale view behind. *)
Theorem cache_memos_transparent (evs : list cache_event) (require_ready : bool) :
  let p := fold_left cache_run evs empty_pool in
  let q := fold_left cache_run (filter (λ e, is_delta e = true) evs) empty_pool in
  same_pool p q ∧ ids p require_ready = ids q require_ready ∧
  frozen p require_ready = frozen q require_ready ∧
  fm_members (native p require_ready) = merge_sort id_le (members_of q (ids q require_ready)).
Proof.
  intros p q.
  assert (cache_ok p) as Hp by (apply cache_runs_ok, empty_pool_ok).
  assert (cache_ok q) as Hq by (apply cache_runs_ok, empty_pool_ok).
  assert (same_pool p q) as Hpq by (by apply cache_runs_same).
  destruct (same_pool_reads p q require_ready Hp Hq Hpq) as [Hids Hf].
  split_and!; [done..|]. rewrite native_spec by done. rewrite freeze_members, Hids.
  unfold members_of. by destruct Hpq as (_ & _ & _ & _ & -> & _).
Qed.

(** The cache answers about a tenure exactly: after any deltas and reads,
    [get] returns a member the pool holds with that pool name, seat and
    tenure, and returns nothing only when no member has them. *)
Theorem cache_get_exact (evs : list cache_event) (pool identity : pystr) :
  let p := fold_left cache_run evs empty_pool in
  match cached_get p pool identity with
  | Some m => cp_members p !! m_id m = Some m ∧ identity_matches pool m identity = true
  | None => ∀ i m, cp_members p !! i = Some m → identity_matches pool m identity = false
  end.
Proof. apply cached_get_spec, cache_runs_ok, empty_pool_ok. Qed.
