(* ===== verification/FilterIndex.v ===== *)
(** * The index over filtered lookups, and the other bounded memos

    [tinyray-membership/src/cache.rs]: a filter made of a few scalar fields is
    a key, and the ids it matched are remembered under it, least recently used
    first out, within a bound on entries, ids and bytes; any delta that touches
    members drops them all.  The serialized members and the digest of some
    fields are remembered in the same way.  [index_transparent] says that
    no reader can tell: whatever reads and deltas came before, an answer is the
    one the deltas alone give, as [Cache] computes it. *)

From S2P Require Import Prelude PyStr PyFloat Text Errors Identity Json Cache.
From stdpp Require Import sorting.
From Stdlib Require Import SpecFloat.

Local Open Scope Z_scope.

(** ** Keys *)

(** [SNAPSHOT_BYTES] *)
Definition SNAPSHOT_BYTES : Z := 1024 * 1024.
(** [FILTER_INDEX_MAX_ENTRIES] *)
Definition FILTER_INDEX_MAX_ENTRIES : nat := 32.
(** [FILTER_INDEX_MAX_FIELDS] *)
Definition FILTER_INDEX_MAX_FIELDS : nat := 8.
(** [FILTER_INDEX_MAX_KEY_BYTES] *)
Definition FILTER_INDEX_MAX_KEY_BYTES : Z := 4096.
(** [FILTER_INDEX_MAX_IDS_PER_ENTRY] *)
Definition FILTER_INDEX_MAX_IDS_PER_ENTRY : Z := 8192.
(** [FILTER_INDEX_MAX_BYTES] *)
Definition FILTER_INDEX_MAX_BYTES : Z := 1024 * 1024.
(** [FILTER_INDEX_ENTRY_OVERHEAD] *)
Definition FILTER_INDEX_ENTRY_OVERHEAD : Z := 128.

(** [enum IndexedScalar].  A finite float stands for its bits. *)
Inductive indexed_scalar :=
| SNull
| SBool (b : bool)
| SString (s : pystr)
| SI64 (z : Z)
| SU64 (z : Z)
| SF64 (x : pyfloat).

#[global] Instance spec_float_eq_dec : EqDecision spec_float.
Proof. solve_decision. Defined.
#[global] Instance indexed_scalar_eq_dec : EqDecision indexed_scalar.
Proof. solve_decision. Defined.

(** [Number::is_i64] of an integer *)
Definition is_i64 (z : Z) : bool := (- 2 ^ 63 <=? z) && (z <? 2 ^ 63).

(** [IndexedScalar::from_value] *)
Definition scalar_from_value (v : value) : option indexed_scalar :=
  match v with
  | Null => Some SNull
  | Bool b => Some (SBool b)
  | Str s => Some (SString s)
  | Int z => if is_i64 z then Some (SI64 z) else if is_u64 z then Some (SU64 z) else None
  | Float x => if isfinite x then Some (SF64 x) else None
  | Array _ | Object _ => None
  end.

(** [IndexedScalar::estimated_bytes] *)
Definition scalar_bytes (s : indexed_scalar) : Z :=
  match s with
  | SNull => 1
  | SBool _ => 2
  | SString s => byte_len s + 1
  | SI64 _ | SU64 _ | SF64 _ => 9
  end.

(** [struct IndexedFilterKey] *)
Record filter_key := FilterKey { fk_ready : bool; fk_fields : list (pystr * indexed_scalar) }.

#[global] Instance filter_key_eq_dec : EqDecision filter_key.
Proof. solve_decision. Defined.

(** The loop of [from_filter]: the fields in order and the running size. *)
Fixpoint index_fields (fields : list (pystr * value)) (estimated : Z) :
    option (list (pystr * indexed_scalar) * Z) :=
  match fields with
  | [] => Some ([], estimated)
  | (field, v) :: fields' =>
      s ← scalar_from_value v;
      let estimated' := estimated + (byte_len field + scalar_bytes s) in
      if FILTER_INDEX_MAX_KEY_BYTES <? estimated' then None
      else '(rest, total) ← index_fields fields' estimated'; Some ((field, s) :: rest, total)
  end.

(** [indexed.sort_unstable_by(|left, right| left.0.cmp(&right.0))] *)
Fixpoint insert_field (x : pystr * indexed_scalar) (l : list (pystr * indexed_scalar)) :
    list (pystr * indexed_scalar) :=
  match l with
  | [] => [x]
  | y :: l' => if str_leb x.1 y.1 then x :: l else y :: insert_field x l'
  end.

Definition sort_fields (l : list (pystr * indexed_scalar)) : list (pystr * indexed_scalar) :=
  fold_right insert_field [] l.

(** [IndexedFilterKey::from_filter] *)
Definition from_filter (filter : value) (require_ready : bool) : option (filter_key * Z) :=
  match filter with
  | Object fields =>
      if bool_decide (fields = []) || (FILTER_INDEX_MAX_FIELDS <? length fields)%nat then None
      else '(indexed, estimated) ← index_fields fields 1;
           Some (FilterKey require_ready (sort_fields indexed), estimated)
  | _ => None
  end.

(** ** The index *)

(** [struct FilterIndexEntry] *)
Record index_entry := IndexEntry { ie_ids : list Z; ie_bytes : Z; ie_last_used : Z }.

(** [struct FilterIndexCache]; the map is its entries, one per key. *)
Record filter_index := FilterIndex {
  fi_entries : list (filter_key * index_entry);
  fi_bytes : Z;
  fi_clock : Z;
  fi_hits : Z;
  fi_builds : Z;
  fi_evictions : Z;
  fi_invalidations : Z;
  fi_fallbacks : Z;
  fi_uncached : Z
}.

(** [FilterIndexCache::default] *)
Definition empty_index : filter_index := FilterIndex [] 0 0 0 0 0 0 0 0.

(** The table and the clock written, the counters kept. *)
Definition with_table (c : filter_index) (entries : list (filter_key * index_entry)) (bytes clock : Z) :
    filter_index :=
  FilterIndex entries bytes clock (fi_hits c) (fi_builds c) (fi_evictions c) (fi_invalidations c)
    (fi_fallbacks c) (fi_uncached c).

(** The counters incremented by so much. *)
Definition counted (c : filter_index) (hits builds evictions invalidations fallbacks uncached : Z) :
    filter_index :=
  FilterIndex (fi_entries c) (fi_bytes c) (fi_clock c) (fi_hits c + hits) (fi_builds c + builds)
    (fi_evictions c + evictions) (fi_invalidations c + invalidations) (fi_fallbacks c + fallbacks)
    (fi_uncached c + uncached).

(** [FilterIndexCache::next_clock] *)
Definition next_clock (c : filter_index) : filter_index :=
  let clock := (fi_clock c + 1) mod 2 ^ 64 in
  if clock =? 0
  then with_table c (prod_map id (λ e, IndexEntry (ie_ids e) (ie_bytes e) 0) <$> fi_entries c) (fi_bytes c) 1
  else with_table c (fi_entries c) (fi_bytes c) clock.

Definition lookup_key (key : filter_key) (entries : list (filter_key * index_entry)) : option index_entry :=
  snd <$> List.find (λ ke, bool_decide (ke.1 = key)) entries.

Definition remove_key (key : filter_key) (entries : list (filter_key * index_entry)) :
    list (filter_key * index_entry) :=
  List.filter (λ ke, negb (bool_decide (ke.1 = key))) entries.

(** [FilterIndexCache::get] *)
Definition index_get (c : filter_index) (key : filter_key) : option (list Z) * filter_index :=
  let c1 := next_clock c in
  match lookup_key key (fi_entries c1) with
  | None => (None, c1)
  | Some e =>
      let touched := (λ ke, if bool_decide (ke.1 = key)
                            then (ke.1, IndexEntry (ie_ids ke.2) (ie_bytes ke.2) (fi_clock c1)) else ke)
                     <$> fi_entries c1 in
      (Some (ie_ids e), counted (with_table c1 touched (fi_bytes c1) (fi_clock c1)) 1 0 0 0 0 0)
  end.

(** [Iterator::min_by_key]: the first of the least. *)
Definition min_by_key {A} (f : A → Z) (l : list A) : option A :=
  match l with
  | [] => None
  | x :: l' => Some (fold_left (λ best y, if f y <? f best then y else best) l' x)
  end.

(** [usize::saturating_sub] *)
Definition saturating_sub (a b : Z) : Z := 0 `max` (a - b).

Section Index.
(** The order a hash map yields its entries in. *)
Context (yields : list (filter_key * index_entry) → list (filter_key * index_entry)).

(** The [while] loop of [insert]; every turn removes an entry, so the number of
    entries is fuel enough. *)
Fixpoint evict (fuel : nat) (c : filter_index) (estimated : Z) : filter_index :=
  match fuel with
  | O => c
  | S fuel' =>
      if (FILTER_INDEX_MAX_ENTRIES <=? length (fi_entries c))%nat ||
         (FILTER_INDEX_MAX_BYTES <? fi_bytes c + estimated)
      then match min_by_key (λ ke, ie_last_used ke.2) (yields (fi_entries c)) with
           | None => c
           | Some (oldest, removed) =>
               evict fuel'
                 (counted (with_table c (remove_key oldest (fi_entries c))
                             (saturating_sub (fi_bytes c) (ie_bytes removed)) (fi_clock c)) 0 0 1 0 0 0)
                 estimated
           end
      else c
  end.

(** [FilterIndexCache::insert] *)
Definition index_insert (c : filter_index) (key : filter_key) (key_bytes : Z) (ids : list Z) : filter_index :=
  let c0 := counted c 0 1 0 0 0 0 in
  let n := Z.of_nat (length ids) in
  let estimated := FILTER_INDEX_ENTRY_OVERHEAD + key_bytes + n * 8 in
  if (FILTER_INDEX_MAX_IDS_PER_ENTRY <? n) || (FILTER_INDEX_MAX_BYTES <? estimated)
  then counted c0 0 0 0 0 0 1
  else
    let c1 := match lookup_key key (fi_entries c0) with
              | Some previous =>
                  with_table c0 (remove_key key (fi_entries c0))
                    (saturating_sub (fi_bytes c0) (ie_bytes previous)) (fi_clock c0)
              | None => c0
              end in
    let c2 := evict (length (fi_entries c1)) c1 estimated in
    if FILTER_INDEX_MAX_BYTES <? fi_bytes c2 + estimated then counted c2 0 0 0 0 0 1
    else let c3 := next_clock c2 in
         with_table c3 (fi_entries c3 ++ [(key, IndexEntry ids estimated (fi_clock c3))])
           (fi_bytes c3 + estimated) (fi_clock c3).
End Index.

(** [FilterIndexCache::invalidate] *)
Definition index_invalidate (c : filter_index) : filter_index :=
  counted (with_table c [] 0 (fi_clock c)) 0 0 0 1 0 0.

(** [FilterIndexCache::fallback] *)
Definition index_fallback (c : filter_index) : filter_index := counted c 0 0 0 0 1 0.

Example key_order_is_forgotten :
  from_filter (Object [([98%N], Int 1); ([97%N], Bool true)]) true =
  from_filter (Object [([97%N], Bool true); ([98%N], Int 1)]) true.
Proof. vm_compute. reflexivity. Qed.

(** [FilterIndexCache::stats] *)
Definition index_stats (c : filter_index) : list (pystr * Z) :=
  [(u "entries", Z.of_nat (length (fi_entries c)));
   (u "bytes", fi_bytes c);
   (u "hits", fi_hits c);
   (u "builds", fi_builds c);
   (u "evictions", fi_evictions c);
   (u "invalidations", fi_invalidations c);
   (u "fallbacks", fi_fallbacks c);
   (u "uncached", fi_uncached c);
   (u "max_entries", Z.of_nat FILTER_INDEX_MAX_ENTRIES);
   (u "max_fields", Z.of_nat FILTER_INDEX_MAX_FIELDS);
   (u "max_key_bytes", FILTER_INDEX_MAX_KEY_BYTES);
   (u "max_ids_per_entry", FILTER_INDEX_MAX_IDS_PER_ENTRY);
   (u "max_bytes", FILTER_INDEX_MAX_BYTES)].

(** ** The pool with all its memos *)

(** [struct CachedPool]: the part [Cache] models, and the rest. *)
Record full_pool := FullPool {
  fl_pool : cached_pool;
  fl_index : filter_index;
  fl_snapshot : option (list N * Z);
  fl_snapshot_ready : option (list N * Z);
  fl_digest : option (list pystr * Z)
}.

(** [CachedPool::default] *)
Definition empty_full : full_pool := FullPool empty_pool empty_index None None None.

(** What [field_digest] feeds its hasher. *)
Inductive hashed :=
| HNumber (z : Z)
| HReady (ready : bool)
| HUrl (url : option pystr)
| HText (s : pystr).

Section Reads.
(** The order a hash map yields its entries in, [rmp_serde::to_vec_named] of
    members, the text of a JSON value and the standard hasher. *)
Context (yields : list (filter_key * index_entry) → list (filter_key * index_entry)).
Context (to_vec_named : list member → list N).
Context (value_text : value → pystr).
Context (finish : list hashed → Z).

(** [CachedPool::apply] *)
Definition full_apply (p : full_pool) (d : pool_delta) : full_pool :=
  if touches d
  then FullPool (Cache.apply (fl_pool p) d) (index_invalidate (fl_index p)) None None None
  else FullPool (Cache.apply (fl_pool p) d) (fl_index p) (fl_snapshot p) (fl_snapshot_ready p) (fl_digest p).

Definition set_index (p : full_pool) (pool : cached_pool) (c : filter_index) : full_pool :=
  FullPool pool c (fl_snapshot p) (fl_snapshot_ready p) (fl_digest p).

(** [CachedPool::matching_ids] *)
Definition matching_ids (p : full_pool) (f : value) (require_ready : bool) : option (list Z) * full_pool :=
  match from_filter f require_ready with
  | None => (None, set_index p (fl_pool p) (index_fallback (fl_index p)))
  | Some (key, key_bytes) =>
      match index_get (fl_index p) key with
      | (Some found, c) => (Some found, set_index p (fl_pool p) c)
      | (None, c) =>
          let found := scan_ids (fl_pool p) f require_ready in
          (Some found, set_index p (ids_filled (fl_pool p) require_ready) (index_insert yields c key key_bytes found))
      end
  end.

(** Members that are looked for, in whatever order the map yields them. *)
Definition wanted (f : value) (require_ready : bool) (m : member) : bool :=
  (negb require_ready || m_ready m) && member_matches m f.

(** [CachedPool::count] *)
Definition full_count (p : full_pool) (f : value) (require_ready : bool) : nat * full_pool :=
  if no_filter f
  then (length (ids (fl_pool p) require_ready), set_index p (ids_filled (fl_pool p) require_ready) (fl_index p))
  else match matching_ids p f require_ready with
       | (Some found, p') => (length found, p')
       | (None, p') =>
           (length (List.filter (wanted f require_ready) (map_to_list (cp_members (fl_pool p'))).*2), p')
       end.

(** [CachedPool::frozen] *)
Definition full_frozen (p : full_pool) (require_ready : bool) : frozen_pool * full_pool :=
  (frozen (fl_pool p) require_ready,
   set_index p (native_filled (fl_pool p) require_ready) (fl_index p)).

(** [CachedPool::filtered] *)
Definition full_filtered (p : full_pool) (f : value) (require_ready : bool) : frozen_pool * full_pool :=
  if no_filter f then full_frozen p require_ready
  else
    let view (q : full_pool) (ms : list member) :=
      FrozenPool (freeze ms) (cp_roster (fl_pool q)) (cp_version (fl_pool q)) (cp_size (fl_pool q))
        (cp_methods (fl_pool q)) in
    match matching_ids p f require_ready with
    | (Some found, p') => (view p' (members_of (fl_pool p') found), p')
    | (None, p') =>
        (view p' (List.filter (λ m, member_matches m f)
                    (members_of (fl_pool p') (ids (fl_pool p') require_ready))),
         set_index p' (ids_filled (fl_pool p') require_ready) (fl_index p'))
    end.

(** [CachedPool::choose] and [choose_arc] *)
Definition full_choose (p : full_pool) (f : value) (require_ready : bool) (rng : nat → nat → nat)
    (order : list member) : option member * full_pool :=
  if no_filter f
  then (draw (fl_pool p) (ids (fl_pool p) require_ready) rng,
        set_index p (ids_filled (fl_pool p) require_ready) (fl_index p))
  else match matching_ids p f require_ready with
       | (Some found, p') => (draw (fl_pool p') found rng, p')
       | (None, p') => (reservoir f require_ready rng order 0 None, p')
       end.

(** [CachedPool::debug_scan_ids] *)
Definition debug_scan_ids (p : full_pool) (f : value) (require_ready : bool) : list Z * full_pool :=
  (if no_filter f then ids (fl_pool p) require_ready else scan_ids (fl_pool p) f require_ready,
   set_index p (ids_filled (fl_pool p) require_ready) (fl_index p)).

(** [CachedPool::clear_filter_index] *)
Definition clear_filter_index (p : full_pool) : full_pool :=
  set_index p (fl_pool p) (index_invalidate (fl_index p)).

(** What [serialized] computes. *)
Definition serialize_members (p : cached_pool) (require_ready : bool) : list N * Z :=
  let members := members_of p (ids p require_ready) in
  (to_vec_named members, fold_left (λ h m, Z.lxor h (roster_hash m)) members 0).

(** [CachedPool::serialized] *)
Definition serialized (p : full_pool) (require_ready : bool) : (list N * Z) * full_pool :=
  match (if require_ready then fl_snapshot_ready p else fl_snapshot p) with
  | Some cached => (cached, p)
  | None =>
      let made := serialize_members (fl_pool p) require_ready in
      let pool := ids_filled (fl_pool p) require_ready in
      let kept := if Z.of_nat (length made.1) <=? SNAPSHOT_BYTES then Some made else None in
      (made, if require_ready
             then FullPool pool (fl_index p) (fl_snapshot p) kept (fl_digest p)
             else FullPool pool (fl_index p) kept (fl_snapshot_ready p) (fl_digest p))
  end.

(** What one field of one member contributes to the digest. *)
Definition field_hashed (m : member) (f : pystr) : hashed :=
  if bool_decide (f = u "ready") then HReady (m_ready m)
  else if bool_decide (f = u "url") then HUrl (m_url m)
  else HText (default [] (value_text <$> value_get (m_state m) f)).

(** What [field_digest] computes. *)
Definition digest_fields (p : cached_pool) (fields : list pystr) : Z :=
  finish (flat_map (λ m, HNumber (m_id m) :: HNumber (m_incarnation m) :: (field_hashed m <$> fields))
            (members_of p (ids p false))).

(** A digest that is not remembered is computed, and remembered when the list of
    fields is small. *)
Definition digest_miss (p : full_pool) (fields : list pystr) : Z * full_pool :=
  let made := digest_fields (fl_pool p) fields in
  (made, FullPool (ids_filled (fl_pool p) false) (fl_index p) (fl_snapshot p) (fl_snapshot_ready p)
           (if (length fields <=? 64)%nat && (fold_right Z.add 0 (byte_len <$> fields) <=? 4096)
            then Some (fields, made) else fl_digest p)).

(** [CachedPool::field_digest] *)
Definition field_digest (p : full_pool) (fields : list pystr) : Z * full_pool :=
  match fl_digest p with
  | Some (keys, digest) => if bool_decide (keys = fields) then (digest, p) else digest_miss p fields
  | None => digest_miss p fields
  end.

(** ** What happens to a pool *)

Inductive pool_event :=
| PDelta (d : pool_delta)
| PCount (f : value) (require_ready : bool)
| PFrozen (require_ready : bool)
| PFiltered (f : value) (require_ready : bool)
| PChoose (f : value) (require_ready : bool) (rng : nat → nat → nat) (order : list member)
| PScan (f : value) (require_ready : bool)
| PClear
| PSerialized (require_ready : bool)
| PDigest (fields : list pystr).

(** What a reader gets. *)
Inductive pool_answer :=
| ANothing
| ACount (n : nat)
| AView (v : frozen_pool)
| AMember (m : option member)
| AIds (l : list Z)
| ABytes (b : list N * Z)
| ADigest (z : Z).

Definition full_run (p : full_pool) (e : pool_event) : pool_answer * full_pool :=
  match e with
  | PDelta d => (ANothing, full_apply p d)
  | PCount f rr => prod_map ACount id (full_count p f rr)
  | PFrozen rr => prod_map AView id (full_frozen p rr)
  | PFiltered f rr => prod_map AView id (full_filtered p f rr)
  | PChoose f rr rng order => prod_map AMember id (full_choose p f rr rng order)
  | PScan f rr => prod_map AIds id (debug_scan_ids p f rr)
  | PClear => (ANothing, clear_filter_index p)
  | PSerialized rr => prod_map ABytes id (serialized p rr)
  | PDigest fields => prod_map ADigest id (field_digest p fields)
  end.

(** The same on the pool [Cache] models, remembering nothing. *)
Definition plain_answer (p : cached_pool) (e : pool_event) : pool_answer :=
  match e with
  | PDelta _ | PClear => ANothing
  | PCount f rr => ACount (count p f rr)
  | PFrozen rr => AView (frozen p rr)
  | PFiltered f rr => AView (filtered p f rr)
  | PChoose f rr rng order => AMember (choose p f rr (bool_decide (is_Some (from_filter f rr))) rng order)
  | PScan f rr => AIds (if no_filter f then ids p rr else scan_ids p f rr)
  | PSerialized rr => ABytes (serialize_members p rr)
  | PDigest fields => ADigest (digest_fields p fields)
  end.

Definition plain_run (p : cached_pool) (e : pool_event) : cached_pool :=
  match e with PDelta d => Cache.apply p d | _ => p end.
End Reads.

(** ** Keys determine filters *)

(** The value a scalar was made from. *)
Definition scalar_value (s : indexed_scalar) : value :=
  match s with
  | SNull => Null
  | SBool b => Bool b
  | SString s => Str s
  | SI64 z | SU64 z => Int z
  | SF64 x => Float x
  end.

Lemma scalar_from_value_inv v s : scalar_from_value v = Some s → v = scalar_value s.
Proof. destruct v; simpl; repeat case_match; intros; simplify_eq; done. Qed.

Lemma insert_field_perm x l : insert_field x l ≡ₚ x :: l.
Proof.
  induction l as [|y l IH]; simpl; [done|]. destruct (str_leb x.1 y.1); [done|].
  rewrite IH. apply perm_swap.
Qed.

Lemma sort_fields_perm l : sort_fields l ≡ₚ l.
Proof. induction l as [|x l IH]; simpl; [done|]. by rewrite insert_field_perm, IH. Qed.

Lemma byte_len_nonneg s : 0 ≤ byte_len s.
Proof.
  unfold byte_len. induction s as [|c s IH]; simpl; [done|].
  assert (0 ≤ char_bytes c) by (unfold char_bytes; repeat case_match; lia). lia.
Qed.

Lemma scalar_bytes_nonneg s : 0 ≤ scalar_bytes s.
Proof. destruct s; simpl; try lia. pose proof (byte_len_nonneg s). lia. Qed.

Lemma index_fields_spec fields e indexed total :
  index_fields fields e = Some (indexed, total) →
  fields = prod_map id scalar_value <$> indexed ∧
  e ≤ total ∧ (e ≤ FILTER_INDEX_MAX_KEY_BYTES → total ≤ FILTER_INDEX_MAX_KEY_BYTES).
Proof.
  revert e indexed total. induction fields as [|[k v] fields IH]; intros e indexed total; simpl.
  { intros [= <- <-]. split; [done|lia]. }
  destruct (scalar_from_value v) as [s|] eqn:Hs; simpl; [|done].
  destruct (Z.ltb_spec FILTER_INDEX_MAX_KEY_BYTES (e + (byte_len k + scalar_bytes s))) as [|Hle]; [done|].
  intros ([rest total'] & Hr & [= <- <-])%bind_Some.
  apply IH in Hr as (-> & Hle1 & Hmax). rewrite (scalar_from_value_inv _ _ Hs). split; [done|].
  pose proof (byte_len_nonneg k). pose proof (scalar_bytes_nonneg s). lia.
Qed.

(** Equal keys come from filters that match the same members. *)
Lemma from_filter_matches f1 f2 rr1 rr2 key n1 n2 m :
  from_filter f1 rr1 = Some (key, n1) → from_filter f2 rr2 = Some (key, n2) →
  rr1 = rr2 ∧ member_matches m f1 = member_matches m f2.
Proof.
  destruct f1 as [| | | | | |fields1], f2 as [| | | | | |fields2]; simpl; try done.
  destruct (_ || _); [done|]. destruct (_ || _); [done|].
  intros ([i1 t1] & H1 & Hk1)%bind_Some ([i2 t2] & H2 & Hk2)%bind_Some.
  assert (sort_fields i1 = sort_fields i2) as Hs by congruence.
  assert (rr1 = rr2) as -> by congruence.
  apply index_fields_spec in H1 as [-> _], H2 as [-> _]. split; [done|].
  apply eq_true_iff_eq. rewrite !forallb_Forall.
  assert (i1 ≡ₚ i2) as -> by by rewrite <-(sort_fields_perm i1), Hs, sort_fields_perm.
  done.
Qed.

Lemma from_filter_bytes f rr key n :
  from_filter f rr = Some (key, n) → 0 < n ≤ FILTER_INDEX_MAX_KEY_BYTES.
Proof.
  destruct f as [| | | | | |fields]; simpl; try done. destruct (_ || _); [done|].
  intros ([i t] & H & [= _ <-])%bind_Some. apply index_fields_spec in H as (_ & ? & Hmax).
  unfold FILTER_INDEX_MAX_KEY_BYTES in *. lia.
Qed.

(** ** The table *)

(** What [scan_ids] answers, from the members alone. *)
Definition scan_members (ms : gmap Z member) (f : value) (require_ready : bool) : list Z :=
  filter (λ i, match ms !! i with Some m => member_matches m f | None => false end = true)
    (if require_ready then filter (λ i, is_ready ms i = true) (all_ids ms) else all_ids ms).

Lemma scan_ids_spec p f rr : cache_ok p → scan_ids p f rr = scan_members (cp_members p) f rr.
Proof. intros Hok. unfold scan_ids, scan_members, at_id. by rewrite ids_spec. Qed.

(** The estimated bytes of all entries. *)
Definition total_bytes (entries : list (filter_key * index_entry)) : Z :=
  fold_right (λ ke n, ie_bytes ke.2 + n) 0 entries.

(** The ids of a key are what scanning finds for any filter with that key. *)
Definition entry_ok (ms : gmap Z member) (ke : filter_key * index_entry) : Prop :=
  0 ≤ ie_bytes ke.2 ∧ Z.of_nat (length (ie_ids ke.2)) ≤ FILTER_INDEX_MAX_IDS_PER_ENTRY ∧
  ∀ f rr n, from_filter f rr = Some (ke.1, n) → ie_ids ke.2 = scan_members ms f rr.

(** The invariant of the index over some members. *)
Record index_ok (ms : gmap Z member) (c : filter_index) : Prop := {
  io_keys : NoDup (fi_entries c).*1;
  io_entries : Forall (entry_ok ms) (fi_entries c);
  io_bytes : fi_bytes c = total_bytes (fi_entries c);
  io_max_bytes : fi_bytes c ≤ FILTER_INDEX_MAX_BYTES;
  io_max_entries : (length (fi_entries c) <= FILTER_INDEX_MAX_ENTRIES)%nat;
  io_clock : 0 ≤ fi_clock c < 2 ^ 64
}.

Lemma empty_index_ok ms : index_ok ms empty_index.
Proof. split; simpl; try done; try lia. apply NoDup_nil_2. Qed.

Lemma counted_ok ms c a b d e f g : index_ok ms c → index_ok ms (counted c a b d e f g).
Proof. by intros []. Qed.

Lemma index_invalidate_ok ms ms' c : index_ok ms c → index_ok ms' (index_invalidate c).
Proof. intros []. split; simpl; try done; try lia. apply NoDup_nil_2. Qed.

(** Entries whose keys, ids and sizes are the same. *)
Definition same_entry (a b : filter_key * index_entry) : Prop :=
  a.1 = b.1 ∧ ie_ids a.2 = ie_ids b.2 ∧ ie_bytes a.2 = ie_bytes b.2.

Lemma same_entries_keys l k : Forall2 same_entry l k → l.*1 = k.*1.
Proof. induction 1 as [|a b l k [? _] _ IH]; [done|]. rewrite !fmap_cons. by f_equal. Qed.

Lemma same_entries_bytes l k : Forall2 same_entry l k → total_bytes l = total_bytes k.
Proof. induction 1 as [|a b l k (_ & _ & ?) _ IH]; [done|]. simpl. lia. Qed.

Lemma retimed_ok ms c entries clock :
  index_ok ms c → Forall2 same_entry (fi_entries c) entries → 0 ≤ clock < 2 ^ 64 →
  index_ok ms (with_table c entries (fi_bytes c) clock).
Proof.
  intros [] Hs Hc. split; simpl; try done.
  - by rewrite <-(same_entries_keys _ _ Hs).
  - eapply Forall2_Forall_r; [done|]. eapply Forall_impl; [done|]. intros [k e] (? & ? & Hf) [k' e'].
    unfold same_entry, entry_ok in *. simpl in *. intros (-> & <- & <-). auto.
  - by rewrite <-(same_entries_bytes _ _ Hs).
  - by rewrite <-(Forall2_length _ _ _ Hs).
Qed.

Lemma same_entries_fmap f l : (∀ ke, same_entry ke (f ke)) → Forall2 same_entry l (f <$> l).
Proof. intros Hf. induction l; [constructor|]. constructor; auto. Qed.

Lemma same_entries_refl l : Forall2 same_entry l l.
Proof. induction l; constructor; [by split_and!|done]. Qed.

Lemma next_clock_ok ms c : index_ok ms c → index_ok ms (next_clock c).
Proof.
  intros Hok. unfold next_clock. pose proof (Z.mod_pos_bound (fi_clock c + 1) (2 ^ 64) ltac:(lia)).
  destruct (_ =? 0); (apply retimed_ok; [done| |lia]).
  - by apply same_entries_fmap.
  - apply same_entries_refl.
Qed.

Lemma lookup_key_elem key entries e : lookup_key key entries = Some e → (key, e) ∈ entries.
Proof.
  unfold lookup_key. destruct (find _ entries) as [[k e']|] eqn:Hf; simpl; [|done].
  intros [= ->]. apply find_some in Hf as [Hin Hk]. apply bool_decide_eq_true in Hk. simpl in Hk. subst.
  by apply list_elem_of_In.
Qed.

Lemma lookup_key_none key entries : lookup_key key entries = None → key ∉ entries.*1.
Proof.
  unfold lookup_key. destruct (find _ entries) as [[k e']|] eqn:Hf; simpl; [done|]. intros _ Hin.
  apply list_elem_of_fmap in Hin as (ke & -> & Hin). eapply find_none in Hf; [|by apply list_elem_of_In].
  by rewrite bool_decide_eq_false in Hf.
Qed.

Lemma remove_key_subseteq key entries : remove_key key entries ⊆ entries.
Proof. intros ke [Hin _]%list_elem_of_In%filter_In. by apply list_elem_of_In. Qed.

Lemma keys_subseteq (l k : list (filter_key * index_entry)) : l ⊆ k → l.*1 ⊆ k.*1.
Proof.
  intros Hs key (ke & -> & Hin)%list_elem_of_fmap. apply list_elem_of_fmap. exists ke. auto.
Qed.

Lemma remove_key_nodup key entries : NoDup entries.*1 → NoDup (remove_key key entries).*1.
Proof.
  induction entries as [|ke l IH]; [done|]. rewrite fmap_cons. intros [Hk Hnd]%NoDup_cons.
  unfold remove_key. simpl. fold (remove_key key l). destruct (negb _); [|by apply IH].
  rewrite fmap_cons. apply NoDup_cons. split; [|by apply IH].
  intros Hin. apply Hk. by apply (keys_subseteq _ _ (remove_key_subseteq key l)).
Qed.

Lemma remove_key_absent key entries : key ∉ (remove_key key entries).*1.
Proof.
  intros (ke & -> & Hin)%list_elem_of_fmap. apply list_elem_of_In, filter_In in Hin as [_ Hk].
  by rewrite bool_decide_true in Hk.
Qed.

Lemma remove_key_id key entries : key ∉ entries.*1 → remove_key key entries = entries.
Proof.
  unfold remove_key. induction entries as [|ke l IH]; simpl; [done|].
  rewrite not_elem_of_cons. intros [Hk Hl]. rewrite bool_decide_false by done. simpl. by rewrite IH.
Qed.

(** An entry taken out of the table takes its bytes with it, so the subtraction
    does not saturate. *)
Lemma remove_key_bytes key e entries :
  NoDup entries.*1 → (key, e) ∈ entries →
  total_bytes (remove_key key entries) = total_bytes entries - ie_bytes e ∧
  S (length (remove_key key entries)) = length entries.
Proof.
  induction entries as [|[k' e'] l IH]; [by intros _ ?%not_elem_of_nil|].
  rewrite fmap_cons. intros [Hk Hnd]%NoDup_cons Hin. unfold remove_key. simpl.
  fold (remove_key key l). destruct (bool_decide_reflect (k' = key)) as [->|Hne]; simpl.
  - apply elem_of_cons in Hin as [[= ->]|Hin].
    + rewrite remove_key_id by done. split; [lia|done].
    + exfalso. apply Hk. apply list_elem_of_fmap. by exists (key, e).
  - apply elem_of_cons in Hin as [[= <- _]|Hin]; [done|]. destruct (IH Hnd Hin). split; lia.
Qed.

Lemma total_bytes_nonneg ms entries : Forall (entry_ok ms) entries → 0 ≤ total_bytes entries.
Proof. induction 1 as [|ke l [? _] _ IH]; simpl; lia. Qed.

Lemma remove_ok ms c key e :
  index_ok ms c → (key, e) ∈ fi_entries c →
  let c' := with_table c (remove_key key (fi_entries c)) (saturating_sub (fi_bytes c) (ie_bytes e)) (fi_clock c) in
  index_ok ms c' ∧ S (length (fi_entries c')) = length (fi_entries c) ∧ key ∉ (fi_entries c').*1.
Proof.
  intros [Hk He Hb Hmb Hme Hc] Hin. pose proof (remove_key_subseteq key (fi_entries c)) as Hsub.
  destruct (remove_key_bytes key e (fi_entries c) Hk Hin) as [Htb Hlen].
  assert (Forall (entry_ok ms) (remove_key key (fi_entries c))) as Hf
    by (apply Forall_forall; intros ke Hke; apply (proj1 (Forall_forall _ _) He); auto).
  pose proof (total_bytes_nonneg _ _ Hf). pose proof (proj1 (Forall_forall _ _) He _ Hin) as [? _]. simpl in *.
  unfold saturating_sub. split; [split; simpl; try done; try lia|split; [done|apply remove_key_absent]].
  by apply remove_key_nodup.
Qed.

Lemma index_get_spec ms c key :
  index_ok ms c →
  index_ok ms (index_get c key).2 ∧
  match (index_get c key).1 with
  | Some found => ∀ f rr n, from_filter f rr = Some (key, n) → found = scan_members ms f rr
  | None => key ∉ (fi_entries (index_get c key).2).*1
  end.
Proof.
  intros Hok. apply next_clock_ok in Hok. unfold index_get.
  destruct (lookup_key key (fi_entries (next_clock c))) as [e|] eqn:Hl; simpl.
  - apply lookup_key_elem in Hl. split.
    + apply counted_ok, retimed_ok; [done| |by apply (io_clock ms)].
      apply same_entries_fmap. intros ke. case_bool_decide; by split_and!.
    + intros f rr n Hf. pose proof (proj1 (Forall_forall _ _) (io_entries _ _ Hok) _ Hl) as (_ & _ & H).
      by apply (H f rr n).
  - split; [done|]. by apply lookup_key_none.
Qed.

Lemma min_by_key_elem {A} (f : A → Z) l x : min_by_key f l = Some x → x ∈ l.
Proof.
  destruct l as [|y l]; simpl; [done|]. intros [= <-].
  assert (∀ k z, fold_left (λ best y, if f y <? f best then y else best) k z ∈ z :: k) as H; [|apply H].
  induction k as [|w k IH]; intros z; simpl; [left|]. destruct (f w <? f z).
  - right. apply IH.
  - specialize (IH z). apply elem_of_cons in IH as [->|IH]; [left|by do 2 right].
Qed.

Section Inserting.
#[local] Set Default Proof Using "Type*".
Context (yields : list (filter_key * index_entry) → list (filter_key * index_entry)).
Context (Hyields : ∀ l, yields l ≡ₚ l).
Context (ms : gmap Z member).

(** The loop leaves room for the new entry. *)
Lemma evict_spec fuel c estimated :
  index_ok ms c → (length (fi_entries c) <= fuel)%nat → estimated ≤ FILTER_INDEX_MAX_BYTES →
  let c' := evict yields fuel c estimated in
  index_ok ms c' ∧ (length (fi_entries c') < FILTER_INDEX_MAX_ENTRIES)%nat ∧
  fi_bytes c' + estimated ≤ FILTER_INDEX_MAX_BYTES ∧ fi_entries c' ⊆ fi_entries c.
Proof.
  revert c. induction fuel as [|fuel IH]; intros c Hok Hlen Hest; cbv zeta; cbn [evict].
  { assert (fi_entries c = []) as He by (destruct (fi_entries c); [done|simpl in *; lia]).
    rewrite (io_bytes _ _ Hok), He. simpl. unfold FILTER_INDEX_MAX_ENTRIES. split_and!; [done|lia|lia|done]. }
  destruct (Nat.leb_spec FILTER_INDEX_MAX_ENTRIES (length (fi_entries c))) as [Hn|Hn]; cbn [orb].
  2: destruct (Z.ltb_spec FILTER_INDEX_MAX_BYTES (fi_bytes c + estimated)) as [Hb|Hb];
     [|split_and!; [done|lia|lia|by intros ?]].
  all: destruct (min_by_key (λ ke, ie_last_used ke.2) (yields (fi_entries c))) as [[oldest removed]|] eqn:Hmin.
  1,3: apply min_by_key_elem in Hmin; rewrite Hyields in Hmin;
       destruct (remove_ok ms c oldest removed Hok Hmin) as (Hok' & Hlen' & _);
       match goal with |- context [evict _ _ ?c1 _] => destruct (IH c1) as (H1 & H2 & H3 & H4) end;
       [by apply counted_ok|simpl in *; lia|done|];
       split_and!; [done..|]; etransitivity; [exact H4|apply remove_key_subseteq].
  all: assert (fi_entries c = []) as He by (pose proof (Hyields (fi_entries c)) as Hp;
       destruct (yields (fi_entries c)); [by apply Permutation_nil in Hp|done]).
  all: rewrite (io_bytes _ _ Hok), He in *; simpl in *; unfold FILTER_INDEX_MAX_ENTRIES in *; lia.
Qed.

Lemma index_insert_ok c f rr key n :
  index_ok ms c → from_filter f rr = Some (key, n) →
  index_ok ms (index_insert yields c key n (scan_members ms f rr)).
Proof.
  intros Hok Hf. pose proof (from_filter_bytes _ _ _ _ Hf) as Hn. unfold index_insert.
  set (found := scan_members ms f rr). set (est := FILTER_INDEX_ENTRY_OVERHEAD + n + _ * 8).
  destruct (Z.ltb_spec FILTER_INDEX_MAX_IDS_PER_ENTRY (Z.of_nat (length found))) as [|Hids];
    [by do 2 apply counted_ok|].
  destruct (Z.ltb_spec FILTER_INDEX_MAX_BYTES est) as [|Hest]; [by do 2 apply counted_ok|]. cbn [orb].
  set (c1 := match lookup_key key _ with Some _ => _ | None => _ end).
  assert (index_ok ms c1 ∧ key ∉ (fi_entries c1).*1) as [Hok1 Hk1].
  { unfold c1. destruct (lookup_key key (fi_entries (counted c 0 1 0 0 0 0))) as [e|] eqn:Hl.
    - apply lookup_key_elem in Hl. pose proof (counted_ok ms c 0 1 0 0 0 0 Hok) as Hc0.
      destruct (remove_ok ms _ key e Hc0 Hl) as (H1 & _ & H2). exact (conj H1 H2).
    - split; [by apply counted_ok|by apply lookup_key_none]. }
  destruct (evict_spec (length (fi_entries c1)) c1 est Hok1 ltac:(done) Hest) as (Hok2 & Hlen2 & Hb2 & Hsub).
  set (c2 := evict _ _ _ _) in *. rewrite (proj2 (Z.ltb_ge _ _)) by done.
  assert (same : Forall2 same_entry (fi_entries c2) (fi_entries (next_clock c2)) ∧
                 fi_bytes (next_clock c2) = fi_bytes c2).
  { unfold next_clock. destruct (_ =? 0); simpl; (split; [|done]); [by apply same_entries_fmap|apply same_entries_refl]. }
  destruct same as [Hs Hbs]. apply next_clock_ok in Hok2.
  destruct Hok2 as [Hk He Hb Hmb Hme Hc]. split; simpl; try done.
  - rewrite fmap_app. apply NoDup_app. split_and!; [done| |apply NoDup_singleton].
    simpl. intros k Hin ->%list_elem_of_singleton. apply Hk1. rewrite <-(same_entries_keys _ _ Hs) in Hin.
    by apply (keys_subseteq _ _ Hsub).
  - apply Forall_app. split; [done|]. constructor; [|constructor]. unfold entry_ok. simpl.
    split; [unfold est, FILTER_INDEX_ENTRY_OVERHEAD; lia|]. split; [done|].
    intros f' rr' n' Hf'. unfold found, scan_members.
    assert (rr = rr') as <- by (by destruct (from_filter_matches f f' rr rr' key n n' (Member 0 None 0 None Null true) Hf Hf')).
    apply list_filter_iff. intros i. destruct (ms !! i) as [m|]; [|done].
    by destruct (from_filter_matches f f' rr rr key n n' m Hf Hf') as [_ ->].
  - rewrite Hb. clear. generalize (fi_entries (next_clock c2)). intros l.
    induction l as [|ke l IH]; simpl in *; lia.
  - lia.
  - rewrite length_app. simpl. rewrite <-(Forall2_length _ _ _ Hs). lia.
Qed.
End Inserting.

(** ** The memos of a pool *)

(** A count over the members in any order is the number of ids a scan finds. *)
Lemma wanted_count p f rr : cache_ok p →
  length (List.filter (wanted f rr) (map_to_list (cp_members p)).*2) = length (scan_ids p f rr).
Proof.
  intros Hok. rewrite scan_ids_spec by done. unfold scan_members.
  set (ms := cp_members p).
  transitivity (length (filter (λ i, match ms !! i with Some m => wanted f rr m | None => false end = true)
                          (map_to_list ms).*1)).
  - assert (∀ kv, kv ∈ map_to_list ms → ms !! kv.1 = Some kv.2) as Hl
      by (intros [k m]; apply elem_of_map_to_list).
    revert Hl. generalize (map_to_list ms). intros l. induction l as [|[k m] l IH]; intros Hl; [done|].
    rewrite !fmap_cons, filter_cons. cbn [List.filter fst snd].
    pose proof (Hl (k, m) ltac:(left)) as Hkm. cbn [fst snd] in Hkm. rewrite Hkm. assert (∀ kv, kv ∈ l → ms !! kv.1 = Some kv.2) as Hl'
      by (intros kv Hin; apply Hl; by right).
    destruct (wanted f rr m); simpl; by rewrite IH.
  - transitivity (length (filter (λ i, match ms !! i with Some m => wanted f rr m | None => false end = true)
                            (all_ids ms))).
    { apply Permutation_length, filter_Permutation. unfold all_ids, sorted_ids.
      by rewrite merge_sort_Permutation. }
    f_equal. destruct rr; [rewrite list_filter_filter|]; apply list_filter_iff; intros i;
      unfold is_ready, wanted; destruct (ms !! i) as [m|]; simpl; try tauto.
    rewrite andb_true_iff. tauto.
Qed.

Lemma untouched_members p d : touches d = false → cp_members (Cache.apply p d) = cp_members p.
Proof.
  unfold touches. rewrite !orb_false_iff, !negb_false_iff, !bool_decide_eq_true.
  intros [[Hf Hc] Hr]. unfold Cache.apply, apply_loops. by rewrite Hf, Hc, Hr.
Qed.

(** Filtering members is filtering their ids. *)
Lemma filter_members p f l :
  List.filter (λ m, member_matches m f) (members_of p l) =
  members_of p (filter (λ i, at_id p (λ m, member_matches m f) i = true) l).
Proof.
  unfold members_of, at_id. induction l as [|i l IH]; [done|]. rewrite filter_cons. simpl.
  destruct (cp_members p !! i) as [m|] eqn:Hi; simpl; [|exact IH].
  destruct (member_matches m f); simpl; [|exact IH]. rewrite Hi. f_equal. exact IH.
Qed.

Section Transparent.
#[local] Set Default Proof Using "Type*".
Context (yields : list (filter_key * index_entry) → list (filter_key * index_entry)).
Context (to_vec_named : list member → list N).
Context (value_text : value → pystr).
Context (finish : list hashed → Z).
Context (Hyields : ∀ l, yields l ≡ₚ l).

#[local] Notation serialize_members := (serialize_members to_vec_named).
#[local] Notation digest_fields := (digest_fields value_text finish).
#[local] Notation plain_answer := (plain_answer to_vec_named value_text finish).
#[local] Notation full_run := (full_run yields to_vec_named value_text finish).

(** Every memo holds what would be computed now. *)
Record full_ok (p : full_pool) : Prop := {
  fo_pool : cache_ok (fl_pool p);
  fo_index : index_ok (cp_members (fl_pool p)) (fl_index p);
  fo_snapshot : ∀ b, fl_snapshot p = Some b → b = serialize_members (fl_pool p) false;
  fo_snapshot_ready : ∀ b, fl_snapshot_ready p = Some b → b = serialize_members (fl_pool p) true;
  fo_digest : ∀ keys d, fl_digest p = Some (keys, d) → d = digest_fields (fl_pool p) keys
}.

Lemma empty_full_ok : full_ok empty_full.
Proof. split; try done; [apply empty_pool_ok|apply empty_index_ok]. Qed.

(** Memos aside, equal pools serialize and digest alike. *)
Lemma same_serialized p q rr : cache_ok p → cache_ok q → same_pool p q →
  serialize_members p rr = serialize_members q rr.
Proof.
  intros Hp Hq Hpq. destruct (same_pool_reads p q rr Hp Hq Hpq) as [Hids _].
  unfold FilterIndex.serialize_members, members_of. rewrite Hids.
  by destruct Hpq as (_ & _ & _ & _ & -> & _).
Qed.

Lemma same_digest p q fields : cache_ok p → cache_ok q → same_pool p q →
  digest_fields p fields = digest_fields q fields.
Proof.
  intros Hp Hq Hpq. destruct (same_pool_reads p q false Hp Hq Hpq) as [Hids _].
  unfold FilterIndex.digest_fields, members_of. rewrite Hids.
  by destruct Hpq as (_ & _ & _ & _ & -> & _).
Qed.

Lemma same_scan p q f rr : cache_ok p → cache_ok q → same_pool p q → scan_ids p f rr = scan_ids q f rr.
Proof.
  intros Hp Hq (_ & _ & _ & _ & Hm & _). by rewrite !scan_ids_spec, Hm.
Qed.

Lemma same_answer p q e : cache_ok p → cache_ok q → same_pool p q → plain_answer p e = plain_answer q e.
Proof.
  intros Hp Hq Hpq.
  assert (∀ rr, ids p rr = ids q rr ∧ frozen p rr = frozen q rr) as Hr by (intros rr; by apply same_pool_reads).
  assert (∀ f rr, scan_ids p f rr = scan_ids q f rr) as Hs by (intros f rr; by apply same_scan).
  assert (cp_members p = cp_members q) as Hm by (by destruct Hpq as (_ & _ & _ & _ & ? & _)).
  destruct e as [d|f rr|rr|f rr|f rr rng order|f rr| |rr|fields]; simpl; try done; f_equal.
  - unfold count. by rewrite (proj1 (Hr rr)), Hs.
  - apply Hr.
  - unfold filtered, members_of. rewrite (proj2 (Hr rr)), Hs, Hm.
    by destruct Hpq as (-> & -> & -> & -> & _).
  - unfold choose, draw. by rewrite (proj1 (Hr rr)), Hs, Hm.
  - by rewrite (proj1 (Hr rr)), Hs.
  - by apply same_serialized.
  - by apply same_digest.
Qed.

(** A read that fills memos of the pool itself keeps the rest. *)
Lemma refill_ok p pool c :
  full_ok p → cache_ok pool → same_pool pool (fl_pool p) → index_ok (cp_members (fl_pool p)) c →
  full_ok (set_index p pool c).
Proof.
  intros [Hp Hi Hs Hsr Hd] Hok Hsame Hc. pose proof Hsame as (_ & _ & _ & _ & Hm & _).
  split; simpl; [done|by rewrite Hm|..].
  - intros b Hb. rewrite (same_serialized pool (fl_pool p)) by done. auto.
  - intros b Hb. rewrite (same_serialized pool (fl_pool p)) by done. auto.
  - intros keys d Hkd. rewrite (same_digest pool (fl_pool p)) by done. auto.
Qed.

Lemma ids_filled_same p rr : same_pool (ids_filled p rr) p.
Proof. done. Qed.

Lemma matching_ids_spec p f rr :
  full_ok p →
  let '(found, p') := matching_ids yields p f rr in
  full_ok p' ∧ same_pool (fl_pool p') (fl_pool p) ∧
  found = (if decide (is_Some (from_filter f rr)) then Some (scan_ids (fl_pool p) f rr) else None).
Proof.
  intros Hok. pose proof Hok as [Hp Hi _ _ _]. unfold matching_ids.
  destruct (from_filter f rr) as [[key n]|] eqn:Hf.
  - rewrite decide_True by done. rewrite scan_ids_spec by done.
    pose proof (index_get_spec _ _ key Hi) as [Hi' Hget].
    destruct (index_get (fl_index p) key) as [[found|] c]; cbn [fst snd] in *.
    + split_and!; [by apply refill_ok|done|]. f_equal. by eapply Hget.
    + split_and!; [|done|done]. apply refill_ok; [done|by apply ids_filled_ok|done|].
      by apply index_insert_ok.
  - rewrite decide_False by (intros [? ?]; done). split_and!; [|done|done].
    by apply refill_ok; [..|apply counted_ok].
Qed.

Lemma full_apply_ok p d : full_ok p → full_ok (full_apply p d).
Proof.
  intros [Hp Hi Hs Hsr Hd]. unfold full_apply.
  pose proof (cache_run_ok _ (Delta d) Hp) as Hok. cbn [cache_run] in Hok.
  destruct (touches d) eqn:Ht.
  { split; simpl; try done. by eapply index_invalidate_ok. }
  pose proof (untouched_members (fl_pool p) d Ht) as Hm.
  assert (∀ rr, ids (Cache.apply (fl_pool p) d) rr = ids (fl_pool p) rr) as Hids
    by (intros rr; by rewrite !ids_spec, Hm).
  split; cbn [fl_pool fl_index fl_snapshot fl_snapshot_ready fl_digest]; [done|by rewrite Hm|..];
    unfold FilterIndex.serialize_members, FilterIndex.digest_fields, members_of;
    rewrite Hids, Hm; auto.
Qed.

(** A read of [p] that answers [a] and leaves memos behind. *)
Definition reads {A} (p : full_pool) (r : A * full_pool) (a : A) : Prop :=
  r.1 = a ∧ full_ok r.2 ∧ same_pool (fl_pool r.2) (fl_pool p).

Lemma filled_ok p rr : full_ok p → full_ok (set_index p (ids_filled (fl_pool p) rr) (fl_index p)).
Proof. intros Hok. pose proof Hok as []. apply refill_ok; try done. by apply ids_filled_ok. Qed.

Lemma full_frozen_spec p rr : full_ok p → reads p (full_frozen p rr) (frozen (fl_pool p) rr).
Proof.
  intros Hok. pose proof Hok as []. split_and!; [done| |apply native_filled_same].
  apply refill_ok; try done; [by apply native_filled_ok|apply native_filled_same].
Qed.

(** What the three filtered reads share: the index's answer, or a fallback that
    gives the same. *)
Lemma matching_reads {A} p f rr (use : list Z → full_pool → A) (fall : full_pool → A * full_pool) (a : A) :
  full_ok p →
  (∀ p', full_ok p' → same_pool (fl_pool p') (fl_pool p) → use (scan_ids (fl_pool p) f rr) p' = a) →
  (∀ p', full_ok p' → same_pool (fl_pool p') (fl_pool p) → from_filter f rr = None → reads p' (fall p') a) →
  reads p (match matching_ids yields p f rr with
           | (Some found, p') => (use found p', p')
           | (None, p') => fall p'
           end) a.
Proof.
  intros Hok Huse Hfall. pose proof (matching_ids_spec p f rr Hok) as Hm.
  destruct (matching_ids yields p f rr) as [found p']. destruct Hm as (Hok' & Hsame & ->).
  destruct (decide (is_Some (from_filter f rr))) as [Hs|Hs].
  - split_and!; [by apply Huse|done|done].
  - apply eq_None_not_Some in Hs. destruct (Hfall p' Hok' Hsame Hs) as (? & ? & ?).
    split_and!; [done|done|by etransitivity].
Qed.

Lemma full_count_spec p f rr : full_ok p → reads p (full_count yields p f rr) (count (fl_pool p) f rr).
Proof.
  intros Hok. unfold full_count, count.
  destruct (no_filter f); [split_and!; [done|by apply filled_ok|done]|].
  apply (matching_reads p f rr (λ found _, length found)
    (λ p', (length (List.filter (wanted f rr) (map_to_list (cp_members (fl_pool p'))).*2), p')));
    [done..|]. intros p' Hok' Hsame _. split_and!; [|done|done]. cbn [fst].
  rewrite wanted_count by apply Hok'. by rewrite (same_scan (fl_pool p') (fl_pool p)) by (done || apply Hok' || apply Hok).
Qed.

Lemma full_filtered_spec p f rr :
  full_ok p → reads p (full_filtered yields p f rr) (filtered (fl_pool p) f rr).
Proof.
  intros Hok. unfold full_filtered, filtered. destruct (no_filter f); [by apply full_frozen_spec|].
  apply (matching_reads p f rr (λ found q, FrozenPool (freeze (members_of (fl_pool q) found))
    (cp_roster (fl_pool q)) (cp_version (fl_pool q)) (cp_size (fl_pool q)) (cp_methods (fl_pool q)))
    (λ p', (FrozenPool (freeze (List.filter (λ m, member_matches m f) (members_of (fl_pool p') (ids (fl_pool p') rr))))
    (cp_roster (fl_pool p')) (cp_version (fl_pool p')) (cp_size (fl_pool p')) (cp_methods (fl_pool p')),
    set_index p' (ids_filled (fl_pool p') rr) (fl_index p')))); [done|..].
  - intros p' Hok' Hsame. unfold members_of. by destruct Hsame as (-> & -> & -> & -> & -> & _).
  - intros p' Hok' Hsame _. split_and!; [|by apply filled_ok|done]. cbn [fst].
    assert (ids (fl_pool p') rr = ids (fl_pool p) rr) as Hids
      by (apply same_pool_reads; [apply Hok'|apply Hok|done]).
    rewrite filter_members, Hids. unfold scan_ids, members_of, at_id.
    by destruct Hsame as (-> & -> & -> & -> & -> & _).
Qed.

Lemma full_choose_spec p f rr rng order :
  full_ok p →
  reads p (full_choose yields p f rr rng order)
    (choose (fl_pool p) f rr (bool_decide (is_Some (from_filter f rr))) rng order).
Proof.
  intros Hok. unfold full_choose, choose.
  destruct (no_filter f); [split_and!; [done|by apply filled_ok|done]|].
  pose proof (matching_ids_spec p f rr Hok) as Hm.
  destruct (matching_ids yields p f rr) as [found p']. destruct Hm as (Hok' & Hsame & ->).
  destruct (decide (is_Some (from_filter f rr))) as [Hs|Hs].
  - rewrite bool_decide_true by done. split_and!; [|done|done]. cbn [fst]. unfold draw.
    by destruct Hsame as (_ & _ & _ & _ & -> & _).
  - rewrite bool_decide_false by done. by split_and!.
Qed.

Lemma serialized_spec p rr :
  full_ok p → reads p (serialized to_vec_named p rr) (serialize_members (fl_pool p) rr).
Proof.
  intros Hok. pose proof Hok as [Hp Hi Hs Hsr Hd]. pose proof (filled_ok p rr Hok) as [Hp' Hi' Hs' Hsr' Hd'].
  unfold serialized. destruct rr.
  - destruct (fl_snapshot_ready p) as [b|] eqn:E; [split_and!; [by apply Hsr|done|done]|].
    split_and!; [done| |done]. split; try done. simpl. case_match; [|done]. intros b [= <-]. symmetry.
    apply same_serialized; [by apply ids_filled_ok|done|done].
  - destruct (fl_snapshot p) as [b|] eqn:E; [split_and!; [by apply Hs|done|done]|].
    split_and!; [done| |done]. split; try done. simpl. case_match; [|done]. intros b [= <-]. symmetry.
    apply same_serialized; [by apply ids_filled_ok|done|done].
Qed.

Lemma field_digest_spec p fields :
  full_ok p → reads p (field_digest value_text finish p fields) (digest_fields (fl_pool p) fields).
Proof.
  intros Hok. pose proof Hok as [Hp Hi Hs Hsr Hd]. pose proof (filled_ok p false Hok) as [Hp' Hi' Hs' Hsr' Hd'].
  assert (reads p (digest_miss value_text finish p fields) (digest_fields (fl_pool p) fields)) as Hmiss.
  { split_and!; [done| |done]. split; try done. simpl. case_match; [|done].
    intros keys d [= <- <-]. symmetry. apply same_digest; [by apply ids_filled_ok|done|done]. }
  unfold field_digest. destruct (fl_digest p) as [[keys d]|] eqn:E; [|done].
  case_bool_decide; [|done]. subst. split_and!; [by apply Hd|done|done].
Qed.

(** An answer after any reads is the one the pool gives without memos. *)
Lemma full_run_spec p e :
  full_ok p →
  (full_run p e).1 = plain_answer (fl_pool p) e ∧ full_ok (full_run p e).2 ∧
  same_pool (fl_pool (full_run p e).2) (plain_run (fl_pool p) e).
Proof.
  intros Hok.
  assert (∀ A (c : A → pool_answer) (r : A * full_pool) a, reads p r a →
    (prod_map c id r).1 = c a ∧ full_ok (prod_map c id r).2 ∧ same_pool (fl_pool (prod_map c id r).2) (fl_pool p))
    as Hreads by (intros A c [a' p'] a (? & ? & ?); simpl in *; subst; by split_and!).
  destruct e as [d|f rr|rr|f rr|f rr rng order|f rr| |rr|fields];
    cbn [FilterIndex.full_run FilterIndex.plain_answer plain_run].
  - split_and!; [done|by apply full_apply_ok|]. cbn [snd]. unfold full_apply. by destruct (touches d).
  - by apply Hreads, full_count_spec.
  - by apply Hreads, full_frozen_spec.
  - by apply Hreads, full_filtered_spec.
  - by apply Hreads, full_choose_spec.
  - apply Hreads. split_and!; [done|by apply filled_ok|done].
  - split_and!; [done| |done]. apply refill_ok; [done|apply Hok|done|].
    by eapply index_invalidate_ok, fo_index.
  - by apply Hreads, serialized_spec.
  - by apply Hreads, field_digest_spec.
Qed.

(** The answers to a sequence of events. *)
Fixpoint answers (p : full_pool) (evs : list pool_event) : list pool_answer :=
  match evs with
  | [] => []
  | e :: evs' => let '(a, p') := full_run p e in a :: answers p' evs'
  end.

Fixpoint plain_answers (p : cached_pool) (evs : list pool_event) : list pool_answer :=
  match evs with
  | [] => []
  | e :: evs' => plain_answer p e :: plain_answers (plain_run p e) evs'
  end.

Lemma plain_run_ok p e : cache_ok p → cache_ok (plain_run p e).
Proof. destruct e; simpl; try done. apply (cache_run_ok _ (Delta _)). Qed.

Lemma answers_transparent evs p q :
  full_ok p → cache_ok q → same_pool (fl_pool p) q → answers p evs = plain_answers q evs.
Proof.
  revert p q. induction evs as [|e evs IH]; intros p q Hp Hq Hpq; [done|]. simpl.
  destruct (full_run_spec p e Hp) as (Ha & Hp' & Hsame).
  destruct (FilterIndex.full_run yields to_vec_named value_text finish p e) as [a p']. cbn [fst snd] in *.
  subst a. f_equal; [by apply same_answer; [apply Hp|..]|].
  apply IH; [done|by apply plain_run_ok|]. etransitivity; [done|].
  destruct e; simpl; try done. by rewrite Hpq.
Qed.

Lemma full_runs_ok evs p : full_ok p → full_ok (fold_left (λ p e, (full_run p e).2) evs p).
Proof. intros Hp. apply (fold_left_ind full_ok); [done|]. intros q e Hq. by apply full_run_spec. Qed.
End Transparent.

(** ** Properties *)

(** C28: nothing the cache remembers can be seen: for any sequence of deltas and
    reads (counts, views, filtered views, random choices, scans, serialized
    members, field digests), every answer is the one the deltas alone give, and
    what is remembered for filters stays within its bounds: 32 entries, 8192 ids
    each, a mebibyte in all, accounted exactly. *)
Theorem index_transparent (yields : list (filter_key * index_entry) → list (filter_key * index_entry))
    (to_vec_named : list member → list N) (value_text : value → pystr) (finish : list hashed → Z)
    (evs : list pool_event) :
  (∀ l, yields l ≡ₚ l) →
  answers yields to_vec_named value_text finish empty_full evs =
    plain_answers to_vec_named value_text finish empty_pool evs ∧
  let c := fl_index (fold_left (λ p e, (full_run yields to_vec_named value_text finish p e).2) evs empty_full) in
  (length (fi_entries c) <= FILTER_INDEX_MAX_ENTRIES)%nat ∧
  fi_bytes c = total_bytes (fi_entries c) ∧ fi_bytes c ≤ FILTER_INDEX_MAX_BYTES ∧
  Forall (λ ke, Z.of_nat (length (ie_ids ke.2)) ≤ FILTER_INDEX_MAX_IDS_PER_ENTRY) (fi_entries c).
Proof.
  intros Hy. split.
  - apply answers_transparent; [done|apply empty_full_ok|apply empty_pool_ok|done].
  - pose proof (full_runs_ok yields to_vec_named value_text finish Hy evs empty_full (empty_full_ok _ _ _)) as Hok.
    intros c. destruct (fo_index _ _ _ _ Hok) as [_ He Hb Hmb Hme _]. split_and!; try done.
    eapply Forall_impl; [exact He|]. by intros ke (_ & ? & _).
Qed.

(** A pool of two, asked twice for the members of one group, then changed. *)
Definition sample_events : list pool_event :=
  let m i g := Member i None 1 None (Object [(u "group", Int g)]) true in
  let group g := Object [(u "group", Int g)] in
  [PDelta (PoolDelta 1 0 [] [] None [m 1 7; m 2 8] [] true);
   PCount (group 7) true; PCount (group 7) true; PCount (Object [(u "group", Float (round_int 7))]) true;
   PDelta (PoolDelta 2 0 [] [] None [m 2 7] [] false); PCount (group 7) true; PDigest [u "ready"]].

Example sample_hits :
  let c := fl_index (fold_left (λ p e, (full_run id (λ _, []) (λ _, []) (λ _, 0) p e).2) sample_events empty_full) in
  (fi_hits c, fi_builds c, fi_invalidations c, length (fi_entries c)) = (1, 3, 2, 1%nat).
Proof. vm_compute. reflexivity. Qed.

Lemma index_transparent_witness :
  answers id (λ _, []) (λ _, []) (λ _, 0) empty_full sample_events =
    plain_answers (λ _, []) (λ _, []) (λ _, 0) empty_pool sample_events ∧
  plain_answers (λ _, []) (λ _, []) (λ _, 0) empty_pool sample_events =
    [ANothing; ACount 1; ACount 1; ACount 1; ANothing; ACount 2; ADigest 0].
Proof.
  split.
  - apply (index_transparent id (λ _, []) (λ _, []) (λ _, 0) sample_events). intros l. reflexivity.
  - vm_compute. reflexivity.
Defined.
