(* ===== verification/Shared.v ===== *)
(** * The client's shared state

    [tinyray-membership/src/shared.rs], [wait.rs] and the heartbeat's two
    arms: everything the heartbeat and the Python threads share, what an
    answered or lost beat does to it, and what a look at it decides
    ([CacheWaiter::check], one turn of [wait_epoch]). *)

From S2P Require Import Prelude PyStr PyFloat Errors Identity Json Cache.

Local Open Scope Z_scope.

(** [struct Published] *)
Record published := Published {
  pb_state : value;
  pb_ready : bool;
  pb_url : option pystr;
  pb_version : Z
}.

(** [struct Shared], what its operations read and write.  [sh_now_ms] is
    [started.elapsed()], [sh_in_flight] the publication each beat on the wire
    is showing. *)
Record shared := Shared {
  sh_pool : pystr;
  sh_published : published;
  sh_watch : list pystr;
  sh_cache : gmap pystr cached_pool;
  sh_accepted : bool;
  sh_refused : pystr;
  sh_beats_ok : Z;
  sh_beats_failed : Z;
  sh_confirmed : Z;
  sh_interval_ms : Z;
  sh_last_ok_ms : Z;
  sh_seen_epoch : Z;
  sh_protocol : Z;
  sh_registry_version : pystr;
  sh_revision : Z;
  sh_beat_revision : Z;
  sh_now_ms : Z;
  sh_in_flight : list Z
}.

(** [Shared::new] *)
Definition new_shared (pool : pystr) (url : option pystr) : shared :=
  {| sh_pool := pool;
     sh_published := Published (Object []) false url 0;
     sh_watch := []; sh_cache := ∅; sh_accepted := true; sh_refused := [];
     sh_beats_ok := 0; sh_beats_failed := 0; sh_confirmed := 0; sh_interval_ms := 1000;
     sh_last_ok_ms := 0; sh_seen_epoch := 0; sh_protocol := 0; sh_registry_version := [];
     sh_revision := 0; sh_beat_revision := 0; sh_now_ms := 0; sh_in_flight := [] |}.

(** Field updates. *)
Definition with_published (s : shared) (p : published) : shared :=
  {| sh_pool := sh_pool s; sh_published := p; sh_watch := sh_watch s;
     sh_cache := sh_cache s; sh_accepted := sh_accepted s; sh_refused := sh_refused s;
     sh_beats_ok := sh_beats_ok s; sh_beats_failed := sh_beats_failed s;
     sh_confirmed := sh_confirmed s; sh_interval_ms := sh_interval_ms s;
     sh_last_ok_ms := sh_last_ok_ms s; sh_seen_epoch := sh_seen_epoch s;
     sh_protocol := sh_protocol s; sh_registry_version := sh_registry_version s;
     sh_revision := sh_revision s; sh_beat_revision := sh_beat_revision s;
     sh_now_ms := sh_now_ms s; sh_in_flight := sh_in_flight s |}.

Definition with_watch (s : shared) (w : list pystr) : shared :=
  {| sh_pool := sh_pool s; sh_published := sh_published s;
     sh_watch := w; sh_cache := sh_cache s; sh_accepted := sh_accepted s;
     sh_refused := sh_refused s; sh_beats_ok := sh_beats_ok s;
     sh_beats_failed := sh_beats_failed s; sh_confirmed := sh_confirmed s;
     sh_interval_ms := sh_interval_ms s; sh_last_ok_ms := sh_last_ok_ms s;
     sh_seen_epoch := sh_seen_epoch s; sh_protocol := sh_protocol s;
     sh_registry_version := sh_registry_version s; sh_revision := sh_revision s;
     sh_beat_revision := sh_beat_revision s; sh_now_ms := sh_now_ms s;
     sh_in_flight := sh_in_flight s |}.

(** The parts [Shared::apply] writes. *)
Definition with_view (s : shared) (cache : gmap pystr cached_pool) (accepted : bool)
    (refused : pystr) (epoch : Z) : shared :=
  {| sh_pool := sh_pool s; sh_published := sh_published s;
     sh_watch := sh_watch s; sh_cache := cache; sh_accepted := accepted; sh_refused := refused;
     sh_beats_ok := sh_beats_ok s; sh_beats_failed := sh_beats_failed s;
     sh_confirmed := sh_confirmed s; sh_interval_ms := sh_interval_ms s;
     sh_last_ok_ms := sh_last_ok_ms s; sh_seen_epoch := epoch; sh_protocol := sh_protocol s;
     sh_registry_version := sh_registry_version s; sh_revision := sh_revision s;
     sh_beat_revision := sh_beat_revision s; sh_now_ms := sh_now_ms s;
     sh_in_flight := sh_in_flight s |}.

(** [ring]: one more revision, every waiter woken. *)
Definition ring (s : shared) : shared :=
  {| sh_pool := sh_pool s; sh_published := sh_published s;
     sh_watch := sh_watch s; sh_cache := sh_cache s; sh_accepted := sh_accepted s;
     sh_refused := sh_refused s; sh_beats_ok := sh_beats_ok s;
     sh_beats_failed := sh_beats_failed s; sh_confirmed := sh_confirmed s;
     sh_interval_ms := sh_interval_ms s; sh_last_ok_ms := sh_last_ok_ms s;
     sh_seen_epoch := sh_seen_epoch s; sh_protocol := sh_protocol s;
     sh_registry_version := sh_registry_version s; sh_revision := sh_revision s + 1;
     sh_beat_revision := sh_beat_revision s; sh_now_ms := sh_now_ms s;
     sh_in_flight := sh_in_flight s |}.

(** The bookkeeping of a beat's outcome: counters, interval, the
    registry's word about itself, [note_beat]. *)
Definition with_outcome (s : shared) (ok failed confirmed interval last_ok protocol : Z)
    (version : pystr) (in_flight : list Z) : shared :=
  {| sh_pool := sh_pool s; sh_published := sh_published s;
     sh_watch := sh_watch s; sh_cache := sh_cache s; sh_accepted := sh_accepted s;
     sh_refused := sh_refused s; sh_beats_ok := ok; sh_beats_failed := failed;
     sh_confirmed := confirmed; sh_interval_ms := interval; sh_last_ok_ms := last_ok;
     sh_seen_epoch := sh_seen_epoch s; sh_protocol := protocol; sh_registry_version := version;
     sh_revision := sh_revision s; sh_beat_revision := sh_beat_revision s + 1;
     sh_now_ms := sh_now_ms s; sh_in_flight := in_flight |}.

Definition with_in_flight (s : shared) (in_flight : list Z) (now_ms : Z) : shared :=
  {| sh_pool := sh_pool s; sh_published := sh_published s;
     sh_watch := sh_watch s; sh_cache := sh_cache s; sh_accepted := sh_accepted s;
     sh_refused := sh_refused s; sh_beats_ok := sh_beats_ok s;
     sh_beats_failed := sh_beats_failed s; sh_confirmed := sh_confirmed s;
     sh_interval_ms := sh_interval_ms s; sh_last_ok_ms := sh_last_ok_ms s;
     sh_seen_epoch := sh_seen_epoch s; sh_protocol := sh_protocol s;
     sh_registry_version := sh_registry_version s; sh_revision := sh_revision s;
     sh_beat_revision := sh_beat_revision s; sh_now_ms := now_ms; sh_in_flight := in_flight |}.

(** [struct BeatAck] *)
Record beat_ack := BeatAck {
  ack_epoch : Z;
  ack_protocol : Z;
  ack_version : pystr;
  ack_ttl_ms : Z;
  ack_accepted : bool;
  ack_refused : option pystr;
  ack_pools : list (pystr * pool_delta)
}.

(** One entry of [ack.pools]. *)
Definition apply_pool (restarted : bool) (acc : gmap pystr cached_pool * bool)
    (nd : pystr * pool_delta) : gmap pystr cached_pool * bool :=
  let '(cache, changed) := acc in
  let '(name, d) := nd in
  if restarted && negb (d_full d) then acc
  else let c := default empty_pool (cache !! name) in
       if d_version d <? cp_version c then (<[name := c]> cache, changed)
       else (<[name := apply c d]> cache, true).

(** [Shared::apply]: whether the seat is still ours, whether anything moved,
    and the new state. *)
Definition apply_ack (s : shared) (ack : beat_ack) : bool * bool * shared :=
  let previous := sh_seen_epoch s in
  let restarted := negb (previous =? 0) && negb (previous =? ack_epoch ack) in
  let changed := restarted && negb (bool_decide (sh_cache s = ∅)) in
  let cache := if restarted then ∅ else sh_cache s in
  if negb (ack_accepted ack)
  then (false, changed || sh_accepted s,
        with_view s cache false (default (sh_refused s) (ack_refused ack)) (ack_epoch ack))
  else
    let '(cache', changed') := fold_left (apply_pool restarted) (ack_pools ack) (cache, changed) in
    (true, changed', with_view s cache' (sh_accepted s) (sh_refused s) (ack_epoch ack)).

(** The [Ok] arm of the beat loop, and of [beat_once]: apply the answer to a
    beat that was showing publication [showing]. *)
Definition beat_landed (s : shared) (showing : Z) (in_flight : list Z) (ack : beat_ack) : shared :=
  let '(alive, changed, s1) := apply_ack s ack in
  let s2 := with_outcome s1 (sh_beats_ok s + 1) (sh_beats_failed s)
              (if alive then Z.max (sh_confirmed s) showing else sh_confirmed s)
              (ack_ttl_ms ack / 4) (sh_now_ms s) (ack_protocol ack) (ack_version ack) in_flight in
  if changed then ring s2 else s2.

(** The [Err] arm. *)
Definition beat_lost (s : shared) (in_flight : list Z) : shared :=
  with_outcome s (sh_beats_ok s) (sh_beats_failed s + 1) (sh_confirmed s) (sh_interval_ms s)
    (sh_last_ok_ms s) (sh_protocol s) (sh_registry_version s) in_flight.

(** [compose]: the beat shows the publication as it is now. *)
Definition beat_sent (s : shared) : shared :=
  with_in_flight s (sh_in_flight s ++ [pb_version (sh_published s)]) (sh_now_ms s).

(** [silence_ms] *)
Definition silence_ms (s : shared) : Z := Z.max 0 (sh_now_ms s - sh_last_ok_ms s).

(** [epoch_valid] *)
Definition epoch_valid (s : shared) (pool : pystr) (roster : Z) : bool :=
  sh_accepted s &&
  match sh_cache s !! pool with None => true | Some cached => cp_roster cached =? roster end.

(** ** Publishing *)

(** [Client::set_state] on a decoded state. *)
Definition set_state (s : shared) (state : value) (ready : bool) : bool * shared :=
  let cur := sh_published s in
  if value_eq (pb_state cur) state && Bool.eqb (pb_ready cur) ready then (false, s)
  else (true, with_published s (Published state ready (pb_url cur) (pb_version cur + 1))).

(** [Client::set_state_only] *)
Definition set_state_only (s : shared) (state : value) : bool * shared :=
  let cur := sh_published s in
  if value_eq (pb_state cur) state then (false, s)
  else (true, with_published s (Published state (pb_ready cur) (pb_url cur) (pb_version cur + 1))).

(** [MAX_WATCH] *)
Definition MAX_WATCH : nat := 64.

(** [Client::watch]: the names added before the one over the limit stay. *)
Fixpoint watch (s : shared) (pools : list pystr) : res unit * shared :=
  match pools with
  | [] => (Ok tt, s)
  | p :: pools' =>
      if bool_decide (p ∈ sh_watch s) then watch s pools'
      else if (MAX_WATCH <=? length (sh_watch s))%nat then (Raise (Exc RuntimeError), s)
      else watch (with_watch s (sh_watch s ++ [p])) pools'
  end.

(** ** Waiting on the cache *)

(** [enum WaitStatus] *)
Inductive wait_status :=
| Pending | WReady | WTimeout | WFenced | WClosed | WStale | WNoSize | WMismatch.

#[global] Instance wait_status_eq_dec : EqDecision wait_status.
Proof. solve_decision. Defined.

(** [struct WaitResult] *)
Record wait_result := WaitResult {
  wr_status : wait_status;
  wr_view : option frozen_pool;
  wr_matched : Z;
  wr_total : Z;
  wr_version : Z
}.

(** [enum ReplacementBaseline] *)
Inductive baseline := Capture | Watching (previous : option pystr).

(** [enum WaitCondition] *)
Inductive wait_condition :=
| WCount (filter : value) (target : Z)
| WDeparture (identity : pystr)
| WReplacement (slot : Z) (base : baseline).

(** [struct CacheWaiter] *)
Record cache_waiter := CacheWaiter {
  wt_pool : pystr;
  wt_condition : wait_condition;
  wt_closed : bool
}.

(** [(pool.ids(false).len(), pool.version)], or zeros *)
Definition totals (s : shared) (pool : pystr) : Z * Z :=
  match sh_cache s !! pool with
  | Some p => (Z.of_nat (length (ids p false)), cp_version p)
  | None => (0, 0)
  end.

(** [CacheWaiter::observe]; the waiter comes back because the first look of a
    replacement records who holds the seat. *)
Definition observe (s : shared) (w : cache_waiter) : wait_result * cache_waiter :=
  let '(total, version) := totals s (wt_pool w) in
  match wt_condition w with
  | WCount f target =>
      match sh_cache s !! wt_pool w with
      | Some p =>
          let matched := Z.of_nat (count p f true) in
          if target <=? matched
          then (WaitResult WReady (Some (filtered p f true)) matched total version, w)
          else (WaitResult Pending None matched total version, w)
      | None => (WaitResult Pending None 0 total version, w)
      end
  | WDeparture identity =>
      match sh_cache s !! wt_pool w with
      | Some p =>
          if bool_decide (cached_get p (wt_pool w) identity = None)
          then (WaitResult WReady None 0 total version, w)
          else (WaitResult Pending None 1 total version, w)
      | None => (WaitResult Pending None 1 total version, w)
      end
  | WReplacement slot base =>
      match sh_cache s !! wt_pool w with
      | None => (WaitResult Pending None 0 total version, w)
      | Some p =>
          let current := cached_slot p slot false in
          match base with
          | Capture =>
              (WaitResult Pending None (if current then 1 else 0) total version,
               CacheWaiter (wt_pool w)
                 (WReplacement slot (Watching (member_identity (wt_pool w) <$> current)))
                 (wt_closed w))
          | Watching previous =>
              let replaced :=
                match current, previous with
                | None, _ => false
                | Some _, None => true
                | Some m, Some identity => negb (identity_matches (wt_pool w) m identity)
                end in
              if replaced then (WaitResult WReady (Some (frozen p false)) 1 total version, w)
              else (WaitResult Pending None 0 total version, w)
          end
      end
  end.

(** [CacheWaiter::with_status] *)
Definition with_status (s : shared) (w : cache_waiter) (status : wait_status) : wait_result :=
  let '(total, version) := totals s (wt_pool w) in WaitResult status None 0 total version.

(** [CacheWaiter::check] *)
Definition check (s : shared) (w : cache_waiter) (initial : bool) : wait_result * cache_waiter :=
  if wt_closed w then (with_status s w WClosed, w)
  else if negb initial && negb (sh_accepted s) then (with_status s w WFenced, w)
  else let '(result, w') := observe s w in
       if decide (wr_status result = WReady) then (result, w')
       else if initial && negb (sh_accepted s) then (with_status s w WFenced, w')
       else (result, w').

(** [struct EpochWaitResult] *)
Record epoch_result := EpochResult {
  er_status : wait_status;
  er_view : option frozen_pool;
  er_found : Z;
  er_target : Z;
  er_mismatched : bool;
  er_seen_pool : bool;
  er_silence_ms : Z
}.

(** The lease as [wait_epoch] and [Pool._lease_ms] reckon it. *)
Definition lease_ms (s : shared) : Z := Z.max (sh_interval_ms s * 4) 1000.

(** One turn of the loop in [wait_epoch]: an answer, or the result so far when
    there is nothing to answer yet. *)
Definition epoch_look (s : shared) (pool : pystr) (minimum : option Z) : epoch_result * bool :=
  let silence := silence_ms s in
  if negb (sh_accepted s)
  then (EpochResult WFenced None 0 (default 0 minimum) false false silence, true)
  else if lease_ms s <? silence
  then (EpochResult WStale None 0 (default 0 minimum) false false silence, true)
  else match sh_cache s !! pool with
       | None => (EpochResult Pending None 0 (default 0 minimum) false false silence, false)
       | Some cached =>
           match (match minimum with Some m => Some m | None => cp_size cached end) with
           | None => (EpochResult WNoSize None 0 0 false true silence, true)
           | Some target =>
               let view := frozen cached true in
               let found := Z.of_nat (length (fm_members (fp_members view))) in
               let mismatched := negb (fm_roster (fp_members view) =? fp_roster view) in
               if (target <=? found) && negb mismatched
               then (EpochResult WReady (Some view) found target mismatched true silence, true)
               else (EpochResult Pending None found target mismatched true silence, false)
           end
       end.

(** The answer once the deadline has passed. *)
Definition epoch_expired (r : epoch_result) : epoch_result :=
  EpochResult (if er_mismatched r && (er_target r <=? er_found r) then WMismatch else WTimeout)
    (er_view r) (er_found r) (er_target r) (er_mismatched r) (er_seen_pool r) (er_silence_ms r).
