(* ===== verification/Heartbeat.v ===== *)
(** * The heartbeat loop

    [tinyray-membership/src/heartbeat.rs]: one task per process that beats for
    as long as the process is a member.  It asks the registry to hold a beat
    back while there is nothing to say, so a held request is where it rests; a
    publication interrupts it, and the request that replaces an interrupted one
    is not held.  The loop is a state machine with a clock in milliseconds.
    Time passes only while the loop waits, and never past a deadline or while
    it has been woken: the runtime runs timers and wake-ups when they are due.

    The theorems: no publisher, however fast, keeps the loop from completing
    requests ([never_cancelled_twice]); once it has been answered it starts a
    request at least every half lease ([beats_every_half_lease]), so one lost
    request does not cost the lease ([one_lost_beat_keeps_the_lease]); a
    publication is on its way within a quarter of one
    ([publication_leaves_soon]); and it never polls again
    ([no_polling_once_answered]). *)

From S2P Require Import Prelude PyStr PyFloat Errors Identity Json Cache Shared.

Local Open Scope Z_scope.

(** ** Time budgets *)

(** [Ord::clamp] *)
Definition clamp (x lo hi : Z) : Z := if x <? lo then lo else if hi <? x then hi else x.

(** [coalesce_gap] *)
Definition coalesce_gap (requested_ms interval_ms : Z) : Z := requested_ms `min` interval_ms `min` 30000.

(** [beat_timeout] *)
Definition beat_timeout (interval_ms hold_ms : Z) : Z :=
  if hold_ms =? 0 then clamp interval_ms 50 30000 * 3 / 4
  else hold_ms + hold_ms / 2 + (hold_ms / 2) `min` 200.

(** [MIN_TTL_MS], the registry's floor of a lease. *)
Definition MIN_TTL_MS : Z := 200.

(** How long the registry's [hold] keeps an answer back that says nothing. *)
Definition hold_budget (ttl_ms hold_ms : Z) : Z := hold_ms `min` (ttl_ms / 2).
Definition hold_jitter (i budget : Z) : Z := i mod (budget / 8 + 1).
Definition held_for (ttl_ms hold_ms i : Z) : Z :=
  let budget := hold_budget ttl_ms hold_ms in
  if budget =? 0 then 0 else budget + hold_jitter i budget.

(** ** The loop *)

(** Where the loop stands: about to go round, waiting for an answer, waiting
    before it goes round, or gone. *)
Inductive phase :=
| Idle
| Sending (started showing hold budget : Z)
| Sleeping (started until : Z) (interruptible : bool)
| Stopped.

(** What the loop keeps and reads; [bl_wake] is the permit of [wake], the clock
    is the one of [shared]. *)
Record beat_loop := BeatLoop {
  bl_shared : shared;
  bl_hold_ms : Z;
  bl_coalesce_ms : Z;
  bl_leaving : bool;
  bl_wake : bool;
  bl_short_polls : Z;
  bl_reuses : Z;
  bl_cancelled_last : bool;
  bl_connection : bool;
  bl_phase : phase
}.

Definition now (b : beat_loop) : Z := sh_now_ms (bl_shared b).

(** [spawn] over a fresh [Shared]. *)
Definition new_loop (s : shared) (coalesce_ms : Z) : beat_loop :=
  BeatLoop s 0 coalesce_ms false false 0 0 false false Idle.

Definition with_phase (b : beat_loop) (p : phase) : beat_loop :=
  BeatLoop (bl_shared b) (bl_hold_ms b) (bl_coalesce_ms b) (bl_leaving b) (bl_wake b) (bl_short_polls b)
    (bl_reuses b) (bl_cancelled_last b) (bl_connection b) p.

Definition with_shared (b : beat_loop) (s : shared) (hold_ms : Z) (wake : bool) : beat_loop :=
  BeatLoop s hold_ms (bl_coalesce_ms b) (bl_leaving b) wake (bl_short_polls b)
    (bl_reuses b) (bl_cancelled_last b) (bl_connection b) (bl_phase b).

(** [coalesce(&shared, started, interruptible).await] *)
Definition coalesce (b : beat_loop) (started : Z) (interruptible : bool) : beat_loop :=
  let gap := coalesce_gap (bl_coalesce_ms b) (sh_interval_ms (bl_shared b)) in
  let delay := 0 `max` (gap - (now b - started)) in
  with_phase b (if delay =? 0 then Idle else Sleeping started (now b + delay) interruptible).

(** The top of the loop: stop, or compose a beat and send it. *)
Definition start (b : beat_loop) : beat_loop :=
  let s := bl_shared b in
  if bl_leaving b && (0 <? sh_beats_ok s) then with_phase b Stopped
  else
    let hold := if bl_cancelled_last b then 0 else bl_hold_ms b in
    BeatLoop s (bl_hold_ms b) (bl_coalesce_ms b) (bl_leaving b) (bl_wake b) (bl_short_polls b)
      (if bl_connection b then bl_reuses b + 1 else bl_reuses b) (bl_cancelled_last b) false
      (Sending (now b) (pb_version (sh_published s)) hold (beat_timeout (sh_interval_ms s) hold)).

(** The end of the loop: sleep when nothing has ever been answered, otherwise
    keep the gap. *)
Definition rest (b : beat_loop) (started : Z) : beat_loop :=
  if bl_hold_ms b =? 0
  then BeatLoop (bl_shared b) (bl_hold_ms b) (bl_coalesce_ms b) (bl_leaving b) (bl_wake b)
         (bl_short_polls b + 1) (bl_reuses b) (bl_cancelled_last b) (bl_connection b)
         (Sleeping started (now b + clamp (sh_interval_ms (bl_shared b)) 50 30000) true)
  else coalesce b started true.

(** [shared.hold_ms.store((ack.ttl_ms / 4).clamp(50, 30_000))] *)
Definition hold_of (ttl_ms : Z) : Z := clamp (ttl_ms / 4) 50 30000.

(** The arm for an answer. *)
Definition landed (b : beat_loop) (started showing : Z) (ack : beat_ack) : beat_loop :=
  let s := bl_shared b in
  let restarted := negb (sh_seen_epoch s =? 0) && negb (sh_seen_epoch s =? ack_epoch ack) in
  let alive := (apply_ack s ack).1.1 in
  let b' := BeatLoop (beat_landed s showing (sh_in_flight s) ack) (hold_of (ack_ttl_ms ack))
              (bl_coalesce_ms b) (bl_leaving b) (bl_wake b) (bl_short_polls b) (bl_reuses b) false
              (negb restarted) (bl_phase b) in
  if alive then rest b' started else with_phase b' Stopped.

(** The arm for an error. *)
Definition failed (b : beat_loop) (started : Z) : beat_loop :=
  rest (BeatLoop (beat_lost (bl_shared b) (sh_in_flight (bl_shared b))) (bl_hold_ms b) (bl_coalesce_ms b)
          (bl_leaving b) (bl_wake b) (bl_short_polls b) (bl_reuses b) false (bl_connection b) (bl_phase b))
    started.

(** The arm for [wake]: the request is dropped, the permit consumed. *)
Definition woken (b : beat_loop) (started : Z) : beat_loop :=
  coalesce (BeatLoop (bl_shared b) (bl_hold_ms b) (bl_coalesce_ms b) (bl_leaving b) false (bl_short_polls b)
              (bl_reuses b) true (bl_connection b) (bl_phase b)) started false.

(** [Client::set_url] *)
Definition set_url (s : shared) (url : option pystr) : bool * shared :=
  let cur := sh_published s in
  if bool_decide (pb_url cur = url) then (false, s)
  else (true, with_published s (Published (pb_state cur) (pb_ready cur) url (pb_version cur + 1))).

(** How the request of [beat_once] ends: the loop is answered first, it is
    answered itself, or it fails. *)
Inductive once_outcome := OAcked | OAnswered (ack : beat_ack) | OError.

(** [beat_once], by another thread: what it returns and leaves behind.  Only a
    caller that waits to be registered watches [acked]. *)
Definition beat_once (b : beat_loop) (stop_when_registered : bool) (showing : Z) (outcome : once_outcome) :
    option (bool * beat_loop) :=
  let s := bl_shared b in
  if stop_when_registered && (0 <? sh_beats_ok s) then Some (true, b)
  else match outcome with
       | OAcked => if stop_when_registered then Some (true, b) else None
       | OAnswered ack =>
           Some (true, with_shared b (beat_landed s showing (sh_in_flight s) ack)
                         (hold_of (ack_ttl_ms ack)) (bl_wake b))
       | OError =>
           let b' := with_shared b (beat_lost s (sh_in_flight s)) (bl_hold_ms b) (bl_wake b) in
           Some (stop_when_registered && (0 <? sh_beats_ok (bl_shared b')), b')
       end.

(** What happens: to the loop's own waits, and by the other threads. *)
Inductive loop_event :=
| ETick (ms : Z)
| EStart
| ELanded (ack : beat_ack)
| EFailed
| EWoken
| ESlept
| ERoused
| EPublish (state : value) (ready : bool)
| EPublishState (state : value)
| EPublishUrl (url : option pystr)
| EWatch (pools : list pystr)
| ELeave
| EOnce (stop_when_registered : bool) (showing : Z) (outcome : once_outcome).

(** Time passes while the loop waits for nothing that is due. *)
Definition may_tick (b : beat_loop) (ms : Z) : bool :=
  match bl_phase b with
  | Idle => false
  | Sending started _ hold budget => (now b + ms <=? started + budget) && negb (bl_wake b && (0 <? hold))
  | Sleeping _ until interruptible => (now b + ms <=? until) && negb (bl_wake b && interruptible)
  | Stopped => true
  end.

(** A publication by another thread, and its [wake.notify_one()]. *)
Definition published_by (b : beat_loop) (r : bool * shared) : beat_loop :=
  with_shared b r.2 (bl_hold_ms b) (bl_wake b || r.1).

Definition step (b : beat_loop) (e : loop_event) : option beat_loop :=
  let s := bl_shared b in
  match e with
  | ETick ms =>
      if (0 <? ms) && may_tick b ms
      then Some (with_shared b (with_in_flight s (sh_in_flight s) (now b + ms)) (bl_hold_ms b) (bl_wake b))
      else None
  | EStart => match bl_phase b with Idle => Some (start b) | _ => None end
  | ELanded ack => match bl_phase b with Sending started showing _ _ => Some (landed b started showing ack) | _ => None end
  | EFailed => match bl_phase b with Sending started _ _ _ => Some (failed b started) | _ => None end
  | EWoken =>
      match bl_phase b with
      | Sending started _ hold _ => if bl_wake b && (0 <? hold) then Some (woken b started) else None
      | _ => None
      end
  | ESlept =>
      match bl_phase b with
      | Sleeping _ until _ => if until <=? now b then Some (with_phase b Idle) else None
      | _ => None
      end
  | ERoused =>
      match bl_phase b with
      | Sleeping _ _ true =>
          if bl_wake b then Some (with_phase (with_shared b s (bl_hold_ms b) false) Idle) else None
      | _ => None
      end
  | EPublish state ready => Some (published_by b (set_state s state ready))
  | EPublishState state => Some (published_by b (set_state_only s state))
  | EPublishUrl url => Some (published_by b (set_url s url))
  | EWatch pools =>
      match watch s pools with
      | (Ok _, s') => Some (published_by b (negb (bool_decide (sh_watch s' = sh_watch s)), s'))
      | (Raise _, s') => Some (published_by b (false, s'))
      end
  | ELeave => Some (BeatLoop s (bl_hold_ms b) (bl_coalesce_ms b) true (bl_wake b) (bl_short_polls b)
                      (bl_reuses b) (bl_cancelled_last b) (bl_connection b) (bl_phase b))
  | EOnce stop showing outcome => snd <$> beat_once b stop showing outcome
  end.

Fixpoint run (b : beat_loop) (evs : list loop_event) : option beat_loop :=
  match evs with
  | [] => Some b
  | e :: evs' => b' ← step b e; run b' evs'
  end.

(** ** Budgets fit into the lease *)

#[local] Ltac Zify.zify_post_hook ::= Z.to_euclidean_division_equations.

(** The numbers of a lease that is not below the floor. *)
Section Lease.
Context (T : Z) (Hfloor : MIN_TTL_MS ≤ T).
#[local] Set Default Proof Using "Type*".

Lemma quarter_lease : 50 ≤ T / 4 ∧ 4 * (T / 4) ≤ T.
Proof. unfold MIN_TTL_MS in Hfloor. pose proof (Z.mul_div_le T 4). lia. Qed.

Lemma hold_of_lease : 50 ≤ hold_of T ≤ 30000 ∧ hold_of T ≤ T / 4.
Proof.
  pose proof quarter_lease. unfold hold_of, clamp. destruct (Z.ltb_spec (T / 4) 50), (Z.ltb_spec 30000 (T / 4)); lia.
Qed.

(** A request is given up within half a lease, an unheld one within a quarter. *)
Lemma beat_timeout_lease h :
  h = 0 ∨ h = hold_of T →
  0 ≤ beat_timeout (T / 4) h ≤ T / 2 ∧ (h = 0 → beat_timeout (T / 4) h ≤ T / 4).
Proof.
  intros Hh. pose proof quarter_lease. pose proof hold_of_lease.
  unfold beat_timeout. destruct (Z.eqb_spec h 0) as [->|Hn].
  - change (clamp (T / 4) 50 30000) with (hold_of T). lia.
  - destruct Hh as [->| ->]; [done|]. lia.
Qed.

Lemma coalesce_gap_lease c : coalesce_gap c (T / 4) ≤ T / 4.
Proof. unfold coalesce_gap. lia. Qed.

(** The registry answers a held beat before the client gives up on it, and
    before the lease it renewed can run out, with time to spare for the way. *)
Lemma held_for_lease i :
  0 ≤ i →
  let held := held_for T (hold_of T) i in
  held ≤ hold_of T + hold_of T / 8 ∧ held + 3 * hold_of T / 8 ≤ beat_timeout (T / 4) (hold_of T) ∧
  16 * held ≤ 9 * T.
Proof.
  intros Hi. pose proof quarter_lease. pose proof hold_of_lease. unfold held_for, hold_budget, hold_jitter.
  set (h := hold_of T) in *. rewrite (Z.min_l h) by lia.
  rewrite (proj2 (Z.eqb_neq h 0)) by lia. cbv zeta.
  assert (0 ≤ i mod (h / 8 + 1) ≤ h / 8) by (pose proof (Z.mod_pos_bound i (h / 8 + 1)); lia).
  unfold beat_timeout. rewrite (proj2 (Z.eqb_neq h 0)) by lia. lia.
Qed.
End Lease.

Example timeout_at_the_floor : beat_timeout (200 / 4) (hold_of 200) = 100.
Proof. reflexivity. Qed.

(** ** What the events change *)

(** The acks of an event carry this lease. *)
Definition leased (T : Z) (e : loop_event) : Prop :=
  match e with
  | ELanded ack | EOnce _ _ (OAnswered ack) => ack_ttl_ms ack = T
  | _ => True
  end.

Lemma beat_landed_clock s showing fl ack :
  sh_interval_ms (beat_landed s showing fl ack) = ack_ttl_ms ack / 4 ∧
  sh_now_ms (beat_landed s showing fl ack) = sh_now_ms s ∧
  sh_published (beat_landed s showing fl ack) = sh_published s.
Proof.
  unfold beat_landed. destruct (apply_ack s ack) as [[alive changed] s1] eqn:E.
  assert (sh_now_ms s1 = sh_now_ms s ∧ sh_published s1 = sh_published s) as [? ?].
  { revert E. unfold apply_ack. destruct (negb (ack_accepted ack)); [by intros [= _ _ <-]|].
    destruct (fold_left _ _ _) as [cache' changed']. by intros [= _ _ <-]. }
  by destruct changed.
Qed.

Lemma set_state_clock s v r : let s' := (set_state s v r).2 in
  sh_interval_ms s' = sh_interval_ms s ∧ sh_now_ms s' = sh_now_ms s ∧
  pb_version (sh_published s) ≤ pb_version (sh_published s').
Proof. unfold set_state. destruct (_ && _); simpl; split_and!; try done; lia. Qed.

Lemma set_state_only_clock s v : let s' := (set_state_only s v).2 in
  sh_interval_ms s' = sh_interval_ms s ∧ sh_now_ms s' = sh_now_ms s ∧
  pb_version (sh_published s) ≤ pb_version (sh_published s').
Proof. unfold set_state_only. destruct (value_eq _ _); simpl; split_and!; try done; lia. Qed.

Lemma set_url_clock s url : let s' := (set_url s url).2 in
  sh_interval_ms s' = sh_interval_ms s ∧ sh_now_ms s' = sh_now_ms s ∧
  pb_version (sh_published s) ≤ pb_version (sh_published s').
Proof. unfold set_url. case_bool_decide; simpl; split_and!; try done; lia. Qed.

Lemma watch_clock s pools : let s' := (watch s pools).2 in
  sh_interval_ms s' = sh_interval_ms s ∧ sh_now_ms s' = sh_now_ms s ∧ sh_published s' = sh_published s.
Proof.
  revert s. induction pools as [|p pools IH]; intros s; simpl; [done|].
  case_bool_decide; [apply IH|]. case_match; [done|]. apply (IH (with_watch s _)).
Qed.

(** Everything other threads do leaves the loop where it stands. *)
Definition by_others (e : loop_event) : bool :=
  match e with
  | EPublish _ _ | EPublishState _ | EPublishUrl _ | EWatch _ | ELeave | EOnce _ _ _ => true
  | _ => false
  end.

(** What other threads' events preserve, and what they may move forward. *)
Record undisturbed (T : Z) (b b' : beat_loop) : Prop := {
  ud_phase : bl_phase b' = bl_phase b;
  ud_now : now b' = now b;
  ud_cancelled : bl_cancelled_last b' = bl_cancelled_last b;
  ud_polls : bl_short_polls b' = bl_short_polls b;
  ud_coalesce : bl_coalesce_ms b' = bl_coalesce_ms b;
  ud_wake : bl_wake b = true → bl_wake b' = true;
  ud_version : pb_version (sh_published (bl_shared b)) ≤ pb_version (sh_published (bl_shared b'));
  ud_hold : sh_interval_ms (bl_shared b) = T / 4 → bl_hold_ms b = hold_of T →
    sh_interval_ms (bl_shared b') = T / 4 ∧ bl_hold_ms b' = hold_of T
}.

Lemma published_by_undisturbed T b changed s :
  sh_interval_ms s = sh_interval_ms (bl_shared b) → sh_now_ms s = now b →
  pb_version (sh_published (bl_shared b)) ≤ pb_version (sh_published s) →
  undisturbed T b (published_by b (changed, s)).
Proof.
  intros Hi Hn Hv. split; try done.
  - simpl. by intros ->.
  - simpl. rewrite Hi. auto.
Qed.

Lemma others_spec T b e b' :
  by_others e = true → leased T e → step b e = Some b' → undisturbed T b b'.
Proof.
  destruct e as [ms| |ack| | | | |st r|st|url|pools| |stop showing out]; try done; intros _ Hl; simpl.
  - intros [= <-]. destruct (set_state (bl_shared b) st r) as [c s'] eqn:E.
    pose proof (set_state_clock (bl_shared b) st r) as H. rewrite E in H. destruct H as (? & ? & ?).
    by apply published_by_undisturbed.
  - intros [= <-]. destruct (set_state_only (bl_shared b) st) as [c s'] eqn:E.
    pose proof (set_state_only_clock (bl_shared b) st) as H. rewrite E in H. destruct H as (? & ? & ?).
    by apply published_by_undisturbed.
  - intros [= <-]. destruct (set_url (bl_shared b) url) as [c s'] eqn:E.
    pose proof (set_url_clock (bl_shared b) url) as H. rewrite E in H. destruct H as (? & ? & ?).
    by apply published_by_undisturbed.
  - pose proof (watch_clock (bl_shared b) pools) as H.
    destruct (watch (bl_shared b) pools) as [[?|?] s']; simpl in H; destruct H as (? & ? & Hp);
      intros [= <-]; apply published_by_undisturbed; rewrite ?Hp; done.
  - intros [= <-]. by split.
  - unfold beat_once. destruct (stop && _); [intros [= <-]; by split|].
    destruct out as [|ack|]; simpl in *.
    + destruct stop; [intros [= <-]; by split|done].
    + intros [= <-]. destruct (beat_landed_clock (bl_shared b) showing (sh_in_flight (bl_shared b)) ack) as (Hi & Hn & Hp).
      split; simpl; rewrite ?Hp, ?Hi, ?Hl; done.
    + intros [= <-]. by split.
Qed.

(** Every event takes a definite lease, if any. *)
Lemma leased_some e : ∃ T, leased T e.
Proof.
  destruct e as [ms| |ack| | | | |st r|st|url|pools| |stop showing [|ack|]];
    first [by exists (ack_ttl_ms ack) | by exists 0].
Qed.

(** The moves of the machine, one case each. *)
Inductive moves (b : beat_loop) : loop_event → beat_loop → Prop :=
| mv_tick ms : 0 < ms → may_tick b ms = true →
    moves b (ETick ms)
      (with_shared b (with_in_flight (bl_shared b) (sh_in_flight (bl_shared b)) (now b + ms)) (bl_hold_ms b) (bl_wake b))
| mv_start : bl_phase b = Idle → moves b EStart (start b)
| mv_landed started showing hold budget ack :
    bl_phase b = Sending started showing hold budget → moves b (ELanded ack) (landed b started showing ack)
| mv_failed started showing hold budget :
    bl_phase b = Sending started showing hold budget → moves b EFailed (failed b started)
| mv_woken started showing hold budget :
    bl_phase b = Sending started showing hold budget → bl_wake b = true → 0 < hold →
    moves b EWoken (woken b started)
| mv_slept started until i :
    bl_phase b = Sleeping started until i → until ≤ now b → moves b ESlept (with_phase b Idle)
| mv_roused started until :
    bl_phase b = Sleeping started until true → bl_wake b = true →
    moves b ERoused (with_phase (with_shared b (bl_shared b) (bl_hold_ms b) false) Idle)
| mv_others e b' :
    by_others e = true → (∀ T, leased T e → undisturbed T b b') → moves b e b'.

Lemma step_moves b e b' : step b e = Some b' → moves b e b'.
Proof.
  intros Hs. destruct (by_others e) eqn:Ho; [apply mv_others; [done|]; intros T Hl; by eapply others_spec|].
  destruct e; try done; unfold step in Hs.
  - destruct (Z.ltb_spec 0 ms), (may_tick b ms) eqn:Hm; cbn [andb] in Hs; simplify_eq. by apply mv_tick.
  - destruct (bl_phase b) eqn:Hp; simplify_eq. by constructor.
  - destruct (bl_phase b) eqn:Hp; simplify_eq. by econstructor.
  - destruct (bl_phase b) eqn:Hp; simplify_eq. by econstructor.
  - destruct (bl_phase b) eqn:Hp; simplify_eq. destruct (bl_wake b) eqn:Hw, (Z.ltb_spec 0 hold);
      cbn [andb] in Hs; simplify_eq. by econstructor.
  - destruct (bl_phase b) eqn:Hp; simplify_eq. destruct (Z.leb_spec until (now b)); simplify_eq. by econstructor.
  - destruct (bl_phase b) as [| |? ? [|]|] eqn:Hp; simplify_eq. destruct (bl_wake b) eqn:Hw; simplify_eq.
    by econstructor.
Qed.

(** ** A publisher cannot starve the loop *)

(** The request after a cancelled one is not held. *)
Definition replacement_unheld (b : beat_loop) : Prop :=
  match bl_phase b with
  | Sending _ _ hold _ => bl_cancelled_last b = true → hold = 0
  | _ => True
  end.

Definition completes (e : loop_event) : bool :=
  match e with ELanded _ | EFailed => true | _ => false end.

Lemma coalesce_keeps b started i :
  bl_shared (coalesce b started i) = bl_shared b ∧ bl_hold_ms (coalesce b started i) = bl_hold_ms b ∧
  bl_cancelled_last (coalesce b started i) = bl_cancelled_last b ∧
  bl_short_polls (coalesce b started i) = bl_short_polls b ∧ bl_wake (coalesce b started i) = bl_wake b ∧
  bl_coalesce_ms (coalesce b started i) = bl_coalesce_ms b ∧
  let gap := coalesce_gap (bl_coalesce_ms b) (sh_interval_ms (bl_shared b)) in
  (bl_phase (coalesce b started i) = Idle ∧ started + gap ≤ now b ∨
   bl_phase (coalesce b started i) = Sleeping started (started + gap) i ∧ now b < started + gap).
Proof.
  split_and!; try done. cbv zeta. unfold coalesce. set (gap := coalesce_gap _ _).
  destruct (Z.eqb_spec (0 `max` (gap - (now b - started))) 0); simpl; [left|right]; split; try done; try lia.
  f_equal. lia.
Qed.

Lemma rest_unheld b started : replacement_unheld (rest b started).
Proof.
  unfold rest. destruct (_ =? 0); [done|]. unfold replacement_unheld.
  destruct (coalesce_keeps b started true) as (_ & _ & _ & _ & _ & _ & [[-> _]|[-> _]]); done.
Qed.

Lemma step_unheld b e b' : step b e = Some b' → replacement_unheld b → replacement_unheld b'.
Proof.
  intros Hs%step_moves. unfold replacement_unheld. destruct Hs as [ms _ _|Hp|st sh h bud ack Hp|st sh h bud Hp|
    st sh h bud Hp Hw Hh|st until i Hp Hle|st until Hp Hw|e b' Ho Hu].
  - done.
  - intros _. unfold start. destruct (_ && _); [done|]. simpl. by intros ->.
  - intros _. unfold landed. destruct (_.1); [apply rest_unheld|done].
  - intros _. apply rest_unheld.
  - intros _. unfold woken.
    match goal with |- context [coalesce ?c ?st ?i] =>
      destruct (coalesce_keeps c st i) as (_ & _ & _ & _ & _ & _ & [[-> _]|[-> _]]) end; done.
  - done.
  - done.
  - destruct (leased_some e) as [T Hl]. destruct (Hu T Hl) as [-> _ -> _ _ _ _ _]. done.
Qed.

Lemma rest_cancelled b started : bl_cancelled_last (rest b started) = bl_cancelled_last b.
Proof. unfold rest. by destruct (_ =? 0). Qed.

(** Only a completed request clears the mark of a cancelled one. *)
Lemma step_cancelled b e b' :
  step b e = Some b' → completes e = false → bl_cancelled_last b = true → bl_cancelled_last b' = true.
Proof.
  intros Hs%step_moves. destruct Hs as [ms _ _|Hp|st sh h bud ack Hp|st sh h bud Hp|
    st sh h bud Hp Hw Hh|st until i Hp Hle|st until Hp Hw|e b' Ho Hu]; try done.
  - intros _ Hc. unfold start. by destruct (_ && _).
  - intros _ Hc. destruct (leased_some e) as [T Hl]. by destruct (Hu T Hl) as [_ _ -> _ _ _ _ _].
Qed.

Lemma beats_app b evs1 evs2 : run b (evs1 ++ evs2) = run b evs1 ≫= λ b', run b' evs2.
Proof.
  revert b. induction evs1 as [|e evs1 IH]; intros b; [done|]. simpl. destruct (step b e); simpl; auto.
Qed.

(** An invariant of the steps is one of the runs. *)
Lemma run_ind (P : beat_loop → Prop) (Q : loop_event → Prop) evs b b' :
  (∀ b e b', step b e = Some b' → Q e → P b → P b') → Forall Q evs → run b evs = Some b' → P b → P b'.
Proof.
  intros Hstep HQ. revert b. induction HQ as [|e evs He HQ IH]; intros b; simpl; [by intros [= ->]|].
  intros (b1 & Hs & Hr)%bind_Some Hb. eapply IH; [done|]. by eapply Hstep.
Qed.

(** ** A loop that has been answered *)

Section Settled.
Context (T : Z) (Hfloor : MIN_TTL_MS ≤ T).
#[local] Set Default Proof Using "Type*".

(** Its numbers are the lease's, and its waits are within their deadlines. *)
Record settled (b : beat_loop) : Prop := {
  sd_interval : sh_interval_ms (bl_shared b) = T / 4;
  sd_hold : bl_hold_ms b = hold_of T;
  sd_phase : match bl_phase b with
             | Sending started _ hold budget =>
                 (hold = 0 ∨ hold = hold_of T) ∧ budget = beat_timeout (T / 4) hold ∧
                 started ≤ now b ≤ started + budget
             | Sleeping started until _ => now b ≤ until ∧ until ≤ started + T / 4 ∧ started ≤ now b
             | _ => True
             end
}.

(** Going to rest. *)
Lemma coalesce_settled b started i :
  sh_interval_ms (bl_shared b) = T / 4 → bl_hold_ms b = hold_of T → started ≤ now b →
  settled (coalesce b started i).
Proof.
  intros Hi Hh Hst. destruct (coalesce_keeps b started i) as (Es & Eh & _ & _ & _ & _ & Hp).
  split; rewrite ?Es, ?Eh; try done. pose proof (coalesce_gap_lease T Hfloor (bl_coalesce_ms b)).
  rewrite Hi in Hp. unfold now. rewrite Es. fold (now b).
  destruct Hp as [[-> ?]|[-> ?]]; [done|]. split_and!; lia.
Qed.

Lemma rest_settled b started :
  sh_interval_ms (bl_shared b) = T / 4 → bl_hold_ms b = hold_of T → started ≤ now b →
  settled (rest b started) ∧ rest b started = coalesce b started true.
Proof.
  intros Hi Hh Hst. pose proof (hold_of_lease T Hfloor). unfold rest.
  rewrite (proj2 (Z.eqb_neq (bl_hold_ms b) 0)) by lia. split; [by apply coalesce_settled|done].
Qed.

Lemma landed_settled b started showing hold budget ack :
  ack_ttl_ms ack = T → started ≤ now b → bl_phase b = Sending started showing hold budget →
  settled (landed b started showing ack).
Proof.
  intros Hl Hst Hp. destruct (beat_landed_clock (bl_shared b) showing (sh_in_flight (bl_shared b)) ack) as (Hi & Hn & _).
  unfold landed. rewrite Hl in *. destruct (_.1).
  - apply rest_settled; simpl; [done|done|]. unfold now. simpl. by rewrite Hn.
  - by split.
Qed.

Lemma step_settled b e b' : step b e = Some b' → leased T e → settled b → settled b'.
Proof.
  intros Hs%step_moves Hl [Hi Hh Hp]. destruct Hs as [ms Hms Hm|E|st sh h bud ack E|st sh h bud E|
    st sh h bud E Hw Hpos|st until i E Hle|st until E Hw|e b' Ho Hu].
  - split; [done|done|]. unfold may_tick, now in *. simpl. destruct (bl_phase b); [done| | |done]; simpl.
    + bool_solve. lia.
    + bool_solve. lia.
  - unfold start. destruct (_ && _); [by split|]. split; [done|done|]. simpl. unfold now. simpl.
    pose proof (beat_timeout_lease T Hfloor (if bl_cancelled_last b then 0 else bl_hold_ms b)) as Ht.
    rewrite Hi, Hh in *. destruct (bl_cancelled_last b); (split; [auto|split; [done|]]);
      destruct Ht as [Ht _]; auto; lia.
  - rewrite E in Hp. eapply landed_settled; [done|lia|done].
  - rewrite E in Hp. unfold failed. apply rest_settled; simpl; [done|done|]. unfold now in *. simpl. lia.
  - rewrite E in Hp. unfold woken. apply coalesce_settled; simpl; [done|done|]. unfold now in *. simpl. lia.
  - by split.
  - by split.
  - destruct (Hu T Hl) as [Ep En _ _ _ _ _ Ehold]. destruct (Ehold Hi Hh) as [Hi' Hh'].
    split; [done|done|]. rewrite Ep, En. done.
Qed.

(** *** Deadlines *)

(** The loop is back at its top by [D], unless it starts a request first. *)
Definition back_by (D : Z) (b : beat_loop) : Prop :=
  match bl_phase b with
  | Idle => now b ≤ D
  | Sending started _ _ budget => started + budget ≤ D ∧ started + T / 4 ≤ D
  | Sleeping _ until _ => until ≤ D
  | Stopped => True
  end.

Lemma coalesce_back_by D b started i :
  sh_interval_ms (bl_shared b) = T / 4 → now b ≤ D → started + T / 4 ≤ D → back_by D (coalesce b started i).
Proof.
  intros Hi Hn HD. destruct (coalesce_keeps b started i) as (Es & _ & _ & _ & _ & _ & Hp).
  pose proof (coalesce_gap_lease T Hfloor (bl_coalesce_ms b)). unfold back_by, now in *. rewrite Es.
  rewrite Hi in Hp. destruct Hp as [[-> ?]|[-> ?]]; lia.
Qed.

Lemma landed_back_by D b started showing hold budget ack :
  ack_ttl_ms ack = T → started ≤ now b → bl_phase b = Sending started showing hold budget →
  now b ≤ D → started + T / 4 ≤ D → back_by D (landed b started showing ack).
Proof.
  intros Hl Hst Hp Hn HD.
  destruct (beat_landed_clock (bl_shared b) showing (sh_in_flight (bl_shared b)) ack) as (Hi & Hn' & _).
  unfold landed. rewrite Hl in *. destruct (_.1); [|done].
  match goal with |- back_by D (rest ?c started) =>
    destruct (rest_settled c started) as [_ ->]; [done|done|unfold now; simpl; by rewrite Hn'|] end.
  apply coalesce_back_by; [done|unfold now; simpl; by rewrite Hn'|done].
Qed.

Lemma step_back_by D b e b' :
  step b e = Some b' → leased T e → e ≠ EStart → settled b ∧ back_by D b → settled b' ∧ back_by D b'.
Proof.
  intros Hs Hl Hne [Hset Hb]. split; [by eapply step_settled|]. destruct Hset as [Hi Hh Hp].
  destruct (step_moves _ _ _ Hs) as [ms Hms Hm|E|st sh h bud ack E|st sh h bud E|
    st sh h bud E Hw Hpos|st until i E Hle|st until E Hw|e b' Ho Hu]; [| done|..].
  - unfold back_by, may_tick, now in *. simpl. destruct (bl_phase b); simpl; [done|..]; bool_solve; lia.
  - unfold back_by in Hb. rewrite E in Hb, Hp. eapply landed_back_by; [done|lia|done|lia|lia].
  - unfold back_by in Hb. rewrite E in Hb, Hp. unfold failed.
    match goal with |- back_by D (rest ?c st) =>
      destruct (rest_settled c st) as [_ ->]; [done|done|unfold now in *; simpl; lia|] end.
    apply coalesce_back_by; [done|unfold now in *; simpl; lia|lia].
  - unfold back_by in Hb. rewrite E in Hb, Hp. unfold woken.
    apply coalesce_back_by; [done|unfold now in *; simpl; lia|lia].
  - unfold back_by in *. rewrite E in Hb, Hp. unfold now in *. simpl. lia.
  - unfold back_by in *. rewrite E in Hb, Hp. unfold now in *. simpl. lia.
  - destruct (Hu T Hl) as [Ep En _ _ _ _ _ _]. unfold back_by in *. by rewrite Ep, En.
Qed.

Lemma run_back_by D b evs b' :
  Forall (leased T) evs → EStart ∉ evs → run b evs = Some b' → settled b → back_by D b →
  settled b' ∧ back_by D b'.
Proof.
  intros Hl Hne Hr Hset Hb.
  eapply (run_ind (λ b, settled b ∧ back_by D b) (λ e, leased T e ∧ e ≠ EStart)); [|..|done|done].
  - intros b0 e b0' Hs [? ?]. by eapply step_back_by.
  - apply Forall_forall. intros e He. split; [by eapply Forall_forall in Hl|]. by intros ->.
Qed.

Lemma start_back_by b : settled b → back_by (now b + T / 2) (start b).
Proof.
  intros [Hi Hh _]. unfold start. destruct (_ && _); [done|]. unfold back_by. simpl. rewrite Hi, Hh.
  pose proof (beat_timeout_lease T Hfloor (if bl_cancelled_last b then 0 else hold_of T)) as Ht.
  assert (T / 4 ≤ T / 2) by (pose proof (quarter_lease T Hfloor); lia).
  destruct (bl_cancelled_last b); destruct Ht as [Ht _]; auto; lia.
Qed.

(** *** Publications *)

(** After a publication: a held request is about to be dropped, and whatever
    else the loop waits for is over by [D]. *)
Definition noticed_by (D : Z) (b : beat_loop) : Prop :=
  match bl_phase b with
  | Idle => now b ≤ D
  | Sending started _ hold _ => started + T / 4 ≤ D ∧ now b ≤ D ∧ (0 < hold → bl_wake b = true)
  | Sleeping _ until _ => until ≤ D
  | Stopped => True
  end.

Lemma back_by_noticed D b : (∀ st sh h bud, bl_phase b ≠ Sending st sh h bud) → back_by D b → noticed_by D b.
Proof. unfold back_by, noticed_by. destruct (bl_phase b); try done. intros Hne. by destruct (Hne _ _ _ _ eq_refl). Qed.

Lemma coalesce_not_sending b started i st sh h bud : bl_phase (coalesce b started i) ≠ Sending st sh h bud.
Proof. destruct (coalesce_keeps b started i) as (_ & _ & _ & _ & _ & _ & [[-> _]|[-> _]]); done. Qed.

Lemma landed_not_sending b started showing ack st sh h bud :
  bl_phase (landed b started showing ack) ≠ Sending st sh h bud.
Proof.
  unfold landed. destruct (_.1); [|done]. unfold rest. destruct (_ =? 0); [done|]. apply coalesce_not_sending.
Qed.

Lemma step_noticed_by D b e b' :
  step b e = Some b' → leased T e → e ≠ EStart → settled b ∧ noticed_by D b → settled b' ∧ noticed_by D b'.
Proof.
  intros Hs Hl Hne [Hset Hb]. split; [by eapply step_settled|]. destruct Hset as [Hi Hh Hp].
  destruct (step_moves _ _ _ Hs) as [ms Hms Hm|E|st sh h bud ack E|st sh h bud E|
    st sh h bud E Hw Hpos|st until i E Hle|st until E Hw|e b' Ho Hu]; [| done|..].
  - unfold noticed_by, may_tick, now in *. simpl. destruct (bl_phase b) as [|st sh h bud|st until i|]; simpl; [done|..|done].
    + destruct Hb as (Hb1 & Hb2 & Hb3), Hp as ([->| ->] & -> & Hp).
      * destruct (beat_timeout_lease T Hfloor 0) as [_ Hq]; [auto|]. specialize (Hq eq_refl). bool_solve.
        split_and!; [done|lia|done].
      * pose proof (hold_of_lease T Hfloor). rewrite Hb3 in Hm by lia.
        rewrite (proj2 (Z.ltb_lt 0 (hold_of T))) in Hm by lia. by rewrite andb_false_r in Hm.
    + bool_solve. lia.
  - unfold noticed_by in Hb. rewrite E in Hb, Hp. apply back_by_noticed; [intros; apply landed_not_sending|].
    eapply landed_back_by; [done|lia|done|lia|lia].
  - unfold noticed_by in Hb. rewrite E in Hb, Hp. unfold failed.
    match goal with |- noticed_by D (rest ?c st) =>
      destruct (rest_settled c st) as [_ ->]; [done|done|unfold now in *; simpl; lia|] end.
    apply back_by_noticed; [intros; apply coalesce_not_sending|].
    apply coalesce_back_by; [done|unfold now in *; simpl; lia|lia].
  - unfold noticed_by in Hb. rewrite E in Hb, Hp. unfold woken.
    apply back_by_noticed; [intros; apply coalesce_not_sending|].
    apply coalesce_back_by; [done|unfold now in *; simpl; lia|lia].
  - unfold noticed_by in *. rewrite E in Hb, Hp. unfold now in *. simpl. lia.
  - unfold noticed_by in *. rewrite E in Hb, Hp. unfold now in *. simpl. lia.
  - destruct (Hu T Hl) as [Ep En _ _ _ Hw _ _]. unfold noticed_by in *. rewrite Ep, En.
    destruct (bl_phase b); naive_solver.
Qed.

Lemma run_noticed_by D b evs b' :
  Forall (leased T) evs → EStart ∉ evs → run b evs = Some b' → settled b → noticed_by D b →
  settled b' ∧ noticed_by D b'.
Proof.
  intros Hl Hne Hr Hset Hb.
  eapply (run_ind (λ b, settled b ∧ noticed_by D b) (λ e, leased T e ∧ e ≠ EStart)); [|..|done|done].
  - intros b0 e b0' Hs [? ?]. by eapply step_noticed_by.
  - apply Forall_forall. intros e He. split; [by eapply Forall_forall in Hl|]. by intros ->.
Qed.

(** A woken loop that is settled notices within a quarter of the lease. *)
Lemma wake_noticed b : settled b → bl_wake b = true → noticed_by (now b + T / 4) b.
Proof.
  intros [_ _ Hp] Hw. pose proof (quarter_lease T Hfloor). unfold noticed_by.
  destruct (bl_phase b); [lia| |lia|done]. split_and!; [lia|lia|done].
Qed.

(** *** No polling *)

Lemma step_polls b e b' :
  step b e = Some b' → leased T e → settled b → bl_short_polls b' = bl_short_polls b.
Proof.
  intros Hs Hl [Hi Hh Hp]. pose proof (hold_of_lease T Hfloor).
  destruct (step_moves _ _ _ Hs) as [ms Hms Hm|E|st sh h bud ack E|st sh h bud E|
    st sh h bud E Hw Hpos|st until i E Hle|st until E Hw|e b' Ho Hu]; try done.
  - unfold start. by destruct (_ && _).
  - unfold landed. simpl in Hl. rewrite Hl. destruct (_.1); [|done]. unfold rest. simpl.
    by rewrite (proj2 (Z.eqb_neq (hold_of T) 0)) by lia.
  - unfold failed, rest. simpl. by rewrite Hh, (proj2 (Z.eqb_neq (hold_of T) 0)) by lia.
  - by destruct (Hu T Hl) as [_ _ _ -> _ _ _ _].
Qed.
End Settled.

(** *** From the first answer on *)

(** A request was started before now. *)
Definition started_before (b : beat_loop) : Prop :=
  match bl_phase b with Sending started _ _ _ => started ≤ now b | _ => True end.

Lemma step_started_before b e b' : step b e = Some b' → started_before b → started_before b'.
Proof.
  intros Hs. unfold started_before.
  destruct (step_moves _ _ _ Hs) as [ms Hms Hm|E|st sh h bud ack E|st sh h bud E|
    st sh h bud E Hw Hpos|st until i E Hle|st until E Hw|e b' Ho Hu]; intros Hb; try done.
  - unfold now in *. simpl. destruct (bl_phase b); lia.
  - unfold start, now. destruct (_ && _); simpl; [done|lia].
  - destruct (bl_phase (landed _ _ _ _)) eqn:El; try done. by apply landed_not_sending in El.
  - destruct (bl_phase (failed _ _)) eqn:El; try done. unfold failed, rest in El. destruct (_ =? 0); [done|].
    by apply coalesce_not_sending in El.
  - destruct (bl_phase (woken _ _)) eqn:El; try done. unfold woken in El. by apply coalesce_not_sending in El.
  - destruct (leased_some e) as [T Hl]. destruct (Hu T Hl) as [-> -> _ _ _ _ _ _]. done.
Qed.

Lemma run_settled T s c evs1 ack evs2 b :
  MIN_TTL_MS ≤ T → Forall (leased T) (evs1 ++ ELanded ack :: evs2) →
  run (new_loop s c) (evs1 ++ ELanded ack :: evs2) = Some b → settled T b.
Proof.
  intros HT [Hl1 [Hl Hl2]%Forall_cons]%Forall_app. rewrite beats_app. intros (b1 & H1 & H2)%bind_Some.
  cbn [run] in H2. apply bind_Some in H2 as (b2 & Hs & H2).
  assert (started_before b1) as Hsb.
  { eapply (run_ind started_before (λ _, True)); [|..|done|done].
    - intros; by eapply step_started_before.
    - by apply Forall_true. }
  eapply (run_ind (settled T) (leased T)); [|done|done|].
  - intros b0 e b0' ? ? ?. by eapply step_settled.
  - pose proof (step_moves _ _ _ Hs) as Hm. inversion Hm as [| |st sh h bud ack' E| | | | |e b' Ho]; subst; [|done].
    unfold started_before in Hsb. rewrite E in Hsb. by eapply landed_settled.
Qed.

Lemma step_version b e b' : step b e = Some b' →
  pb_version (sh_published (bl_shared b)) ≤ pb_version (sh_published (bl_shared b')).
Proof.
  intros Hs. destruct (step_moves _ _ _ Hs) as [ms Hms Hm|E|st sh h bud ack E|st sh h bud E|
    st sh h bud E Hw Hpos|st until i E Hle|st until E Hw|e b' Ho Hu]; try (simpl; lia).
  - unfold start. destruct (_ && _); simpl; lia.
  - destruct (beat_landed_clock (bl_shared b) sh (sh_in_flight (bl_shared b)) ack) as (_ & _ & Hp).
    unfold landed. destruct (_.1); [unfold rest; destruct (_ =? 0)|]; simpl; rewrite Hp; lia.
  - unfold failed, rest. destruct (_ =? 0); simpl; lia.
  - destruct (leased_some e) as [T Hl]. by destruct (Hu T Hl).
Qed.

(** One round, from the top of the loop. *)
Lemma round_trip T (HT : MIN_TTL_MS ≤ T) b evs b' :
  settled T b → bl_phase b = Idle → Forall (leased T) evs → run b (EStart :: evs) = Some b' → EStart ∉ evs →
  settled T b' ∧ back_by T (now b + T / 2) b'.
Proof.
  intros Hset Hp Hl Hr Hne. cbn [run] in Hr. apply bind_Some in Hr as (b1 & Hs & Hr).
  assert (settled T b1) as Hset1 by (by eapply step_settled).
  assert (b1 = start b) as -> by (unfold step in Hs; rewrite Hp in Hs; congruence).
  eapply run_back_by; [done..|]. by apply start_back_by.
Qed.

(** Within the round, a request in flight is the one it started. *)
Lemma still_sending b evs b' st sh h bud :
  bl_phase b = Idle → run b (EStart :: evs) = Some b' → EStart ∉ evs →
  bl_phase b' = Sending st sh h bud → st = now b.
Proof.
  intros Hp Hr Hne. cbn [run] in Hr. apply bind_Some in Hr as (b1 & Hs & Hr).
  set (P := λ b0, ∀ st sh h bud, bl_phase b0 = Sending st sh h bud → st = now b).
  assert (P b') as HP; [|apply HP].
  eapply (run_ind P (λ e, e ≠ EStart)); [| |done|].
  - intros b0 e b0' Hs0 Hn HP st' sh' h' bud' E'.
    destruct (step_moves _ _ _ Hs0) as [ms Hms Hm|E|st0 sh0 h0 bud0 ack E|st0 sh0 h0 bud0 E|
      st0 sh0 h0 bud0 E Hw Hpos|st0 until i E Hle|st0 until E Hw|e b0' Ho Hu]; try done.
    + by eapply HP.
    + by apply landed_not_sending in E'.
    + unfold failed, rest in E'. destruct (_ =? 0); [done|]. by apply coalesce_not_sending in E'.
    + unfold woken in E'. by apply coalesce_not_sending in E'.
    + destruct (leased_some e) as [T Hl]. destruct (Hu T Hl) as [Ep _ _ _ _ _ _ _]. rewrite Ep in E'. by eapply HP.
  - apply Forall_forall. intros e He ->. done.
  - unfold step in Hs. rewrite Hp in Hs. injection Hs as <-. unfold start. intros st' sh' h' bud'.
    destruct (_ && _); simpl; [done|]. by intros [= <- _ _ _].
Qed.

(** ** Properties *)

(** However often other threads publish, the loop never abandons two requests in
    a row: between two requests that a publication cut short there is one that
    was answered or failed on its own. *)
Theorem never_cancelled_twice (s : shared) (coalesce_ms : Z) (evs1 evs2 : list loop_event) (b : beat_loop) :
  run (new_loop s coalesce_ms) (evs1 ++ EWoken :: evs2 ++ [EWoken]) = Some b →
  ∃ e, e ∈ evs2 ∧ completes e = true.
Proof.
  rewrite beats_app. intros (b1 & H1 & H2)%bind_Some. cbn [run] in H2. apply bind_Some in H2 as (b2 & Hs & H2).
  rewrite beats_app in H2. apply bind_Some in H2 as (b3 & H3 & H4). cbn [run] in H4.
  apply bind_Some in H4 as (b4 & H4 & _).
  destruct (decide (Exists (λ e, completes e = true) evs2)) as [He|Hne]; [by apply Exists_exists in He|].
  exfalso. apply not_Exists_Forall in Hne; [|apply _].
  assert (replacement_unheld b3) as Hu.
  { eapply (run_ind replacement_unheld (λ _, True)); [intros; by eapply step_unheld|by apply Forall_true|done|].
    eapply step_unheld; [done|].
    eapply (run_ind replacement_unheld (λ _, True)); [intros; by eapply step_unheld|by apply Forall_true|done|done]. }
  assert (bl_cancelled_last b3 = true) as Hc.
  { eapply (run_ind (λ b, bl_cancelled_last b = true) (λ e, completes e = false)); [| |done|].
    - intros b0 e b0' ? ? ?. by eapply step_cancelled.
    - eapply Forall_impl; [done|]. intros e. apply not_true_is_false.
    - apply step_moves in Hs. inversion Hs; subst; done. }
  apply step_moves in H4. inversion H4 as [| | | |st sh h bud E Hw Hpos| | |e b' Ho]; subst; [|done].
  unfold replacement_unheld in Hu. rewrite E in Hu. specialize (Hu Hc). lia.
Qed.

(** Once its own request has been answered, the loop starts a request at least
    every half lease, for every lease the registry accepts, whatever is lost or
    published: time cannot pass half a lease from one start without the loop
    being back at its top. *)
Theorem beats_every_half_lease (T : Z) (s : shared) (coalesce_ms : Z) (evs1 evs2 evs3 : list loop_event)
    (ack : beat_ack) (b1 b2 : beat_loop) :
  MIN_TTL_MS ≤ T → Forall (leased T) (evs1 ++ ELanded ack :: evs2) → Forall (leased T) evs3 →
  run (new_loop s coalesce_ms) (evs1 ++ ELanded ack :: evs2) = Some b1 → bl_phase b1 = Idle →
  run b1 (EStart :: evs3) = Some b2 → EStart ∉ evs3 → bl_phase b2 = Idle →
  now b2 ≤ now b1 + T / 2.
Proof.
  intros HT Hl12 Hl3 H1 Hp1 H2 Hne Hp2. pose proof (run_settled _ _ _ _ _ _ _ HT Hl12 H1) as Hset.
  destruct (round_trip T HT b1 evs3 b2) as [_ Hb]; try done.
  unfold back_by in Hb. by rewrite Hp2 in Hb.
Qed.

(** C29: one lost request does not cost the lease.  Say a request was answered no
    later than the registry may hold it, plus [slack] for the way, and the next
    one is lost altogether: the one after that still starts, and has [slack]
    to arrive, before the lease that the first one renewed is over. *)
Theorem one_lost_beat_keeps_the_lease (T slack i : Z) (s : shared) (coalesce_ms : Z)
    (evs1 evs2 waiting resting lost : list loop_event) (ack1 ack2 : beat_ack) (b1 b2 b3 b4 : beat_loop) :
  MIN_TTL_MS ≤ T → 0 ≤ i → 32 * slack ≤ 3 * T →
  Forall (leased T) (evs1 ++ ELanded ack1 :: evs2) → Forall (leased T) (waiting ++ ELanded ack2 :: resting) →
  Forall (leased T) lost →
  EStart ∉ waiting → EStart ∉ resting → EStart ∉ lost →
  run (new_loop s coalesce_ms) (evs1 ++ ELanded ack1 :: evs2) = Some b1 → bl_phase b1 = Idle →
  run b1 (EStart :: waiting) = Some b2 → now b2 ≤ now b1 + held_for T (hold_of T) i + slack →
  run b2 (ELanded ack2 :: resting) = Some b3 → bl_phase b3 = Idle →
  run b3 (EStart :: lost) = Some b4 → bl_phase b4 = Idle →
  now b4 + slack < now b1 + T.
Proof.
  intros HT Hi Hslack Hl12 [Hlw [Hla Hlr]%Forall_cons]%Forall_app Hll Hnw Hnr Hnl H1 Hp1 H2 Hheld H3 Hp3 H4 Hp4.
  pose proof (run_settled _ _ _ _ _ _ _ HT Hl12 H1) as Hset1.
  destruct (round_trip T HT b1 waiting b2) as [Hset2 _]; [done..|].
  pose proof (λ st sh h bud, still_sending b1 waiting b2 st sh h bud Hp1 H2 Hnw) as Hst.
  cbn [run] in H3. apply bind_Some in H3 as (b2' & Hs & H3). pose proof (step_moves _ _ _ Hs) as Hm.
  inversion Hm as [| |st sh h bud ack' E| | | | |e b' Ho]; subst; [|done].
  pose proof (Hst _ _ _ _ E). subst st.
  destruct (held_for_lease T HT i Hi) as (Hh & _ & _). pose proof (hold_of_lease T HT).
  destruct (run_back_by T HT (now b2 `max` (now b1 + T / 4)) (landed b2 (now b1) sh ack2) resting b3)
    as [Hset3 Hb3]; [done..| | |].
  { by eapply step_settled. }
  { destruct Hset2 as [_ _ Hp2]. rewrite E in Hp2. eapply landed_back_by; [done|done|lia|done|lia|lia]. }
  unfold back_by in Hb3. rewrite Hp3 in Hb3.
  destruct (round_trip T HT b3 lost b4) as [_ Hb4]; [done..|]. unfold back_by in Hb4. rewrite Hp4 in Hb4.
  unfold MIN_TTL_MS in HT. lia.
Qed.

(** A publication is on its way within a quarter of a lease: once the loop's own
    request has been answered, a publication made at any moment is carried by a
    request that starts no later than that, unless the loop has stopped. *)
Theorem publication_leaves_soon (T : Z) (s : shared) (coalesce_ms : Z) (evs1 evs2 evs3 : list loop_event)
    (ack : beat_ack) (b1 b2 : beat_loop) :
  MIN_TTL_MS ≤ T → Forall (leased T) (evs1 ++ ELanded ack :: evs2) → Forall (leased T) evs3 →
  run (new_loop s coalesce_ms) (evs1 ++ ELanded ack :: evs2) = Some b1 → bl_wake b1 = true →
  run b1 evs3 = Some b2 → EStart ∉ evs3 → bl_phase b2 ≠ Stopped →
  now b2 ≤ now b1 + T / 4 ∧
  ∀ started showing hold budget, bl_phase (start b2) = Sending started showing hold budget →
    started = now b2 ∧ pb_version (sh_published (bl_shared b1)) ≤ showing.
Proof.
  intros HT Hl12 Hl3 H1 Hw H2 Hne Hp2. pose proof (run_settled _ _ _ _ _ _ _ HT Hl12 H1) as Hset.
  destruct (run_noticed_by T HT (now b1 + T / 4) b1 evs3 b2) as [[Hi Hh Hp] Hb]; try done.
  { by apply wake_noticed. }
  split.
  - unfold noticed_by in Hb. destruct (bl_phase b2); [done|lia|lia|done].
  - assert (pb_version (sh_published (bl_shared b1)) ≤ pb_version (sh_published (bl_shared b2))) as Hv.
    { eapply (run_ind (λ b, pb_version (sh_published (bl_shared b1)) ≤ pb_version (sh_published (bl_shared b)))
                (λ _, True)); [|by apply Forall_true|done|done].
      intros b0 e b0' Hs _ ?. apply step_version in Hs. lia. }
    unfold start. destruct (_ && _); simpl; [done|]. by intros st sh h bud [= <- <- _ _].
Qed.

(** Once the loop's own request has been answered it never waits on a timer
    instead of on the registry again: the count of short polls stands still. *)
Theorem no_polling_once_answered (T : Z) (s : shared) (coalesce_ms : Z) (evs1 evs2 evs3 : list loop_event)
    (ack : beat_ack) (b1 b2 : beat_loop) :
  MIN_TTL_MS ≤ T → Forall (leased T) (evs1 ++ ELanded ack :: evs2) → Forall (leased T) evs3 →
  run (new_loop s coalesce_ms) (evs1 ++ ELanded ack :: evs2) = Some b1 → run b1 evs3 = Some b2 →
  bl_short_polls b2 = bl_short_polls b1.
Proof.
  intros HT Hl12 Hl3 H1 H2. pose proof (run_settled _ _ _ _ _ _ _ HT Hl12 H1) as Hset.
  eapply (run_ind (λ b, settled T b ∧ bl_short_polls b = bl_short_polls b1) (leased T)); [|done|done|done].
  intros b0 e b0' Hs Hl [? <-]. split; [by eapply step_settled|by eapply step_polls].
Qed.

(** *** A member with the shortest lease *)

Definition sample_shared : shared := new_shared (u "engine") None.
Definition sample_answer : beat_ack := BeatAck 5 3 [] 200 true None [].
Definition say (n : Z) : loop_event := EPublish (Object [(u "step", Int n)]) true.

(** Join, be answered, rest for the gap. *)
Definition sample_opening : list loop_event := [EStart; ELanded sample_answer; ETick 50; ESlept].
Definition sample_loop : beat_loop :=
  Eval vm_compute in default (new_loop sample_shared 50) (run (new_loop sample_shared 50) sample_opening).

Lemma sample_loop_run : run (new_loop sample_shared 50) ([EStart] ++ ELanded sample_answer :: [ETick 50; ESlept]) = Some sample_loop.
Proof. vm_compute. reflexivity. Defined.

Lemma never_cancelled_twice_witness :
  ∃ e, e ∈ [ETick 50; ESlept; EStart; say 2; EFailed; ERoused; EStart; say 3] ∧ completes e = true.
Proof.
  apply (never_cancelled_twice sample_shared 50 (sample_opening ++ [EStart; say 1])
    [ETick 50; ESlept; EStart; say 2; EFailed; ERoused; EStart; say 3]
    (default sample_loop (run (new_loop sample_shared 50) ((sample_opening ++ [EStart; say 1]) ++ EWoken ::
      [ETick 50; ESlept; EStart; say 2; EFailed; ERoused; EStart; say 3] ++ [EWoken])))).
  vm_compute. reflexivity.
Defined.

Lemma one_lost_beat_keeps_the_lease_witness :
  let b2 := default sample_loop (run sample_loop [EStart; ETick 56]) in
  let b3 := default sample_loop (run b2 [ELanded sample_answer]) in
  let b4 := default sample_loop (run b3 [EStart; ETick 100; EFailed]) in
  bl_phase b4 = Idle ∧ now b4 + 18 < now sample_loop + 200.
Proof.
  intros b2 b3 b4. split; [vm_compute; reflexivity|].
  apply (one_lost_beat_keeps_the_lease 200 18 5 sample_shared 50 [EStart] [ETick 50; ESlept]
           [ETick 56] [] [ETick 100; EFailed] sample_answer sample_answer sample_loop b2 b3 b4).
  1-3: vm_compute; congruence.
  1-3: repeat constructor.
  1-3: set_solver.
  1: apply sample_loop_run.
  all: vm_compute; congruence.
Defined.

Lemma publication_leaves_soon_witness :
  let b1 := default sample_loop (run sample_loop [EStart; ETick 10; say 1]) in
  let b2 := default b1 (run b1 [EWoken; ETick 40; ESlept]) in
  bl_wake b1 = true ∧ now b2 ≤ now b1 + 50 ∧
  ∀ started showing hold budget, bl_phase (start b2) = Sending started showing hold budget →
    started = now b2 ∧ pb_version (sh_published (bl_shared b1)) ≤ showing.
Proof.
  intros b1 b2. split; [vm_compute; reflexivity|].
  apply (publication_leaves_soon 200 sample_shared 50 [EStart] [ETick 50; ESlept; EStart; ETick 10; say 1]
    [EWoken; ETick 40; ESlept] sample_answer b1 b2).
  - vm_compute. congruence.
  - repeat constructor.
  - repeat constructor.
  - vm_compute. reflexivity.
  - vm_compute. reflexivity.
  - vm_compute. reflexivity.
  - set_solver.
  - vm_compute. congruence.
Defined.

Lemma beats_every_half_lease_witness :
  let b2 := default sample_loop (run sample_loop [EStart; ETick 100; EFailed]) in
  bl_phase b2 = Idle ∧ now b2 ≤ now sample_loop + 100.
Proof.
  intros b2. split; [vm_compute; reflexivity|].
  apply (beats_every_half_lease 200 sample_shared 50 [EStart] [ETick 50; ESlept] [ETick 100; EFailed]
    sample_answer sample_loop b2).
  - vm_compute. congruence.
  - repeat constructor.
  - repeat constructor.
  - apply sample_loop_run.
  - vm_compute. reflexivity.
  - vm_compute. reflexivity.
  - set_solver.
  - vm_compute. reflexivity.
Defined.

Lemma no_polling_once_answered_witness :
  let b2 := default sample_loop (run sample_loop [EStart; EFailed; ETick 50]) in
  bl_short_polls b2 = bl_short_polls sample_loop.
Proof.
  intros b2.
  apply (no_polling_once_answered 200 sample_shared 50 [EStart] [ETick 50; ESlept] [EStart; EFailed; ETick 50]
    sample_answer sample_loop b2).
  - vm_compute. congruence.
  - repeat constructor.
  - repeat constructor.
  - apply sample_loop_run.
  - vm_compute. reflexivity.
Defined.
