(* ===== verification/Registry.v ===== *)
(** * The registry

    [tinyray-registry/src/state.rs] and [delta.rs]: what the registry keeps of
    each pool, what a beat does to it, how leases run out, and the deltas
    subscribers are sent.  A pool has a version that every change a
    subscriber should learn about raises, a bounded log of which member each
    version touched, and a small cache of deltas already built.  Hash maps are
    finite maps; the order one is walked in is the maps' own. *)

From S2P Require Import Prelude PyStr PyFloat Text Errors Identity Json Cache Shared.
From stdpp Require Import sorting.

Local Open Scope Z_scope.

Definition LOG_CAP : nat := 4096.
Definition MAX_INCARNATION : Z := Z.shiftl 4000000000000 20.
Definition MAX_NAME : Z := 512.
Definition MAX_STATE : Z := Z.shiftl 16 10.
Definition MAX_METHODS : Z := 256.
Definition CACHE_ENTRIES : nat := 8.
Definition CACHE_BYTES : Z := Z.shiftl 2 20.
Definition PROTOCOL : Z := 3.

(** [struct Beat] *)
Record beat := Beat {
  b_pool : pystr;
  b_slot : option Z;
  b_id : Z;
  b_incarnation : Z;
  b_publication : option Z;
  b_policy : pystr;
  b_size : option Z;
  b_url : option pystr;
  b_state : value;
  b_ready : bool;
  b_leaving : bool;
  b_exclusive : bool;
  b_methods : list pystr;
  b_watch : list pystr;
  b_seen : gmap pystr Z
}.

(** [struct Record]; moments are milliseconds. *)
Record record := Record_ {
  rc_member : member;
  rc_publication : option Z;
  rc_expires_at : Z;
  rc_state_bytes : Z
}.

(** [Record::delta_bytes] *)
Definition record_bytes (r : record) : Z :=
  256 + rc_state_bytes r + match m_url (rc_member r) with Some u => byte_len u * 6 | None => 0 end.

(** [struct Cached], [struct DeltaCache] *)
Record cached_delta := CachedDelta { cd_since : option Z; cd_delta : pool_delta; cd_bytes : Z }.
Record delta_cache := DeltaCache { dc_entries : list cached_delta; dc_bytes : Z }.

Definition no_deltas : delta_cache := DeltaCache [] 0.

(** [DeltaCache::get] *)
Definition dc_get (c : delta_cache) (since : option Z) : option pool_delta :=
  cd_delta <$> List.find (λ e, bool_decide (cd_since e = since)) (dc_entries c).

(** The loop of [DeltaCache::insert]: [None] is [pop_front] of an empty
    queue, whose [unwrap] panics. *)
Fixpoint evict (entries : list cached_delta) (held bytes : Z) : option (list cached_delta * Z) :=
  if (CACHE_ENTRIES <=? length entries)%nat || (CACHE_BYTES <? held + bytes)
  then match entries with
       | [] => None
       | old :: rest => evict rest (held - cd_bytes old) bytes
       end
  else Some (entries, held).

(** [DeltaCache::insert] *)
Definition dc_insert (c : delta_cache) (since : option Z) (d : pool_delta) (bytes : Z) : option delta_cache :=
  if CACHE_BYTES <? bytes then Some c
  else '(entries, held) ← evict (dc_entries c) (dc_bytes c) bytes;
       Some (DeltaCache (entries ++ [CachedDelta since d bytes]) (held + bytes)).

(** [struct Pool]; a parked caller is a number. *)
Record rpool := RPool {
  rp_version : Z;
  rp_roster : Z;
  rp_policy : pystr;
  rp_methods : list pystr;
  rp_size : option Z;
  rp_members : gmap Z record;
  rp_high : gmap Z Z;
  rp_gone : gmap Z (Z * Z);
  rp_log : list (Z * Z);
  rp_waiters : list nat;
  rp_cache : delta_cache
}.

Definition new_rpool : rpool := RPool 0 0 [] [] None ∅ ∅ ∅ [] [] no_deltas.

(** [Pool::bump]: the pool, and the callers to wake. *)
Definition bump (i : Z) (p : rpool) : rpool * list nat :=
  let log := rp_log p ++ [(rp_version p + 1, i)] in
  (RPool (rp_version p + 1) (rp_roster p) (rp_policy p) (rp_methods p) (rp_size p) (rp_members p)
     (rp_high p) (rp_gone p) (drop (length log - LOG_CAP) log) [] no_deltas,
   rp_waiters p).

(** [Vec::dedup] of a sorted list. *)
Fixpoint dedup (l : list Z) : list Z :=
  match l with
  | x :: rest => match rest with
                 | y :: _ => if x =? y then dedup rest else x :: dedup rest
                 | [] => [x]
                 end
  | [] => []
  end.

(** [self.log.front().map(|(v, _)| *v).unwrap_or(0)] *)
Definition oldest (p : rpool) : Z := match rp_log p with (v, _) :: _ => v | [] => 0 end.

(** The ids a delta since [v] is about. *)
Definition ids_since (p : rpool) (v : Z) : list Z :=
  dedup (merge_sort Z.le (drop (Z.to_nat (v + 1 - oldest p)) (rp_log p)).*2).

(** [Pool::build_delta] *)
Definition build_delta (p : rpool) (since : option Z) : pool_delta * Z :=
  let base := 256 + byte_len (rp_policy p) * 6 + fold_right (λ m n, byte_len m * 6 + 3 + n) 0 (rp_methods p) in
  let held := λ i, rp_members p !! i in
  match since with
  | Some v =>
      let ids := ids_since p v in
      let changed := omap held ids in
      let removed := List.filter (λ i, bool_decide (held i = None)) ids in
      (PoolDelta (rp_version p) (rp_roster p) (rp_policy p) (rp_methods p) (rp_size p)
         (map rc_member changed) removed false,
       base + fold_right (λ r n, record_bytes r + n) 0 changed + 21 * Z.of_nat (length removed))
  | None =>
      let records := (map_to_list (rp_members p)).*2 in
      (PoolDelta (rp_version p) (rp_roster p) (rp_policy p) (rp_methods p) (rp_size p)
         (map rc_member records) [] true,
       base + fold_right (λ r n, record_bytes r + n) 0 records)
  end.

Definition with_rcache (p : rpool) (c : delta_cache) : rpool :=
  RPool (rp_version p) (rp_roster p) (rp_policy p) (rp_methods p) (rp_size p) (rp_members p)
    (rp_high p) (rp_gone p) (rp_log p) (rp_waiters p) c.

(** The cursor a delta is built from: one this log still reaches back to. *)
Definition cursor (p : rpool) (seen : option Z) : option Z :=
  v ← seen; if (v <? rp_version p) && (oldest p <=? v + 1) then Some v else None.

(** Whether [self.log.range(start..)] of [build_delta] starts within the log:
    past its end the call panics. *)
Definition reaches (p : rpool) (since : option Z) : bool :=
  match since with Some v => (Z.to_nat (v + 1 - oldest p) <=? length (rp_log p))%nat | None => true end.

(** [Pool::delta]: the answer, and the pool with its cache; [None] outside is
    a panic, of [build_delta] or of [dc_insert]. *)
Definition delta (p : rpool) (seen : option Z) : option (option pool_delta * rpool) :=
  if bool_decide (seen = Some (rp_version p)) then Some (None, p)
  else
    let since := cursor p seen in
    match dc_get (rp_cache p) since with
    | Some d => Some (Some d, p)
    | None =>
        if negb (reaches p since) then None else
        let '(d, bytes) := build_delta p since in
        c ← dc_insert (rp_cache p) since d bytes;
        Some (Some d, with_rcache p c)
    end.

(** ** Beats *)

(** [struct Registry] *)
Record registry := Registry_ { rg_pools : gmap pystr rpool; rg_ttl : Z; rg_epoch : Z }.

(** [disagreement], without its wording *)
Definition disagreement (p : rpool) (b : beat) : bool :=
  negb (bool_decide (rp_policy p = b_policy b)) ||
  match b_size b with Some want => negb (bool_decide (rp_size p = Some want)) | None => false end.

Definition with_shape (p : rpool) (policy : pystr) (methods : list pystr) (size : option Z) : rpool :=
  RPool (rp_version p) (rp_roster p) policy methods size (rp_members p) (rp_high p) (rp_gone p)
    (rp_log p) (rp_waiters p) no_deltas.

(** The shape of the pool the beat is for: [None] is the refusal. *)
Definition shape_for (p : rpool) (b : beat) : option rpool :=
  if bool_decide (rp_members p = ∅)
  then Some (if bool_decide (rp_policy p = b_policy b) && bool_decide (rp_size p = b_size b) &&
                bool_decide (rp_methods p = b_methods b)
             then p else with_shape p (b_policy b) (b_methods b) (b_size b))
  else if disagreement p b then None
  else Some (if bool_decide (rp_methods p = []) && negb (bool_decide (b_methods b = []))
             then with_shape p (rp_policy p) (b_methods b) (rp_size p) else p).

Definition with_members (p : rpool) (roster : Z) (ms : gmap Z record) : rpool :=
  RPool (rp_version p) roster (rp_policy p) (rp_methods p) (rp_size p) ms (rp_high p) (rp_gone p)
    (rp_log p) (rp_waiters p) (rp_cache p).

Definition with_gone (p : rpool) (g : gmap Z (Z * Z)) : rpool :=
  RPool (rp_version p) (rp_roster p) (rp_policy p) (rp_methods p) (rp_size p) (rp_members p) (rp_high p) g
    (rp_log p) (rp_waiters p) (rp_cache p).

Definition with_high (p : rpool) (h : gmap Z Z) : rpool :=
  RPool (rp_version p) (rp_roster p) (rp_policy p) (rp_methods p) (rp_size p) (rp_members p) h (rp_gone p)
    (rp_log p) (rp_waiters p) (rp_cache p).

(** [p.members.remove(&id)], the roster with it. *)
Definition remove_member (p : rpool) (i : Z) : rpool :=
  match rp_members p !! i with
  | Some r => with_members p (Z.lxor (rp_roster p) (roster_hash (rc_member r))) (delete i (rp_members p))
  | None => p
  end.

(** Whether a later tenure holds or held the seat. *)
Definition superseded (p : rpool) (b : beat) : bool :=
  let stored := (λ r, m_incarnation (rc_member r)) <$> rp_members p !! b_id b in
  let watermark := default 0 (rp_high p !! b_id b) in
  let straggler := negb (b_leaving b) &&
    match rp_gone p !! b_id b with Some (t, _) => b_incarnation b <=? t | None => false end in
  let occupied := b_exclusive b &&
    match stored with Some cur => negb (cur =? b_incarnation b) | None => false end in
  occupied || straggler || (b_incarnation b <? watermark) ||
  match stored with Some cur => b_incarnation b <? cur | None => false end.

(** The member a beat describes. *)
Definition beat_member (b : beat) : member :=
  Member (b_id b) (b_slot b) (b_incarnation b) (b_url b) (b_state b) (b_ready b).

(** Whether the publication of a beat is newer than the one held. *)
Definition newer (held incoming : option Z) : bool :=
  match held, incoming with
  | None, _ => true
  | Some h, Some i => h <? i
  | Some _, None => false
  end.

(** A beat that says goodbye. *)
Definition goodbye (p : rpool) (b : beat) (forget_at : Z) : rpool * list nat :=
  let '(p1, rung) := match rp_members p !! b_id b with
                     | Some _ => bump (b_id b) (remove_member p (b_id b))
                     | None => (p, [])
                     end in
  (with_gone p1 (<[b_id b := (b_incarnation b, forget_at)]> (rp_gone p1)), rung).

(** A beat of the tenure that holds the seat. *)
Definition renew (p : rpool) (b : beat) (r : record) (expires_at state_bytes : Z) : rpool * list nat :=
  let m := rc_member r in
  if negb (newer (rc_publication r) (b_publication b))
  then (with_members p (rp_roster p)
          (<[b_id b := Record_ m (rc_publication r) expires_at (rc_state_bytes r)]> (rp_members p)), [])
  else if bool_decide (m_url m = b_url b) && value_eq (m_state m) (b_state b) &&
          Bool.eqb (m_ready m) (b_ready b)
  then (with_members p (rp_roster p)
          (<[b_id b := Record_ m (b_publication b) expires_at (rc_state_bytes r)]> (rp_members p)), [])
  else bump (b_id b) (with_members p (rp_roster p)
         (<[b_id b := Record_ (Member (m_id m) (m_slot m) (m_incarnation m) (b_url b) (b_state b) (b_ready b))
                        (b_publication b) expires_at state_bytes]> (rp_members p))).

(** A new arrival, or a replacement taking over the seat. *)
Definition arrive (p : rpool) (b : beat) (expires_at state_bytes : Z) : rpool * list nat :=
  let p1 := remove_member p (b_id b) in
  let m := beat_member b in
  bump (b_id b) (with_members p1 (Z.lxor (rp_roster p1) (roster_hash m))
    (<[b_id b := Record_ m (b_publication b) expires_at state_bytes]> (rp_members p1))).

(** The beat, on the pool it is for. *)
Definition take_seat (ttl now : Z) (p : rpool) (b : beat) (state_bytes : Z) : bool * rpool * list nat :=
  if superseded p b then (false, p, [])
  else
    let watermark := default 0 (rp_high p !! b_id b) in
    let '(p1, rung) :=
      if b_leaving b then goodbye p b (now + ttl)
      else match rp_members p !! b_id b with
           | Some r => if m_incarnation (rc_member r) =? b_incarnation b
                       then renew p b r (now + ttl) state_bytes
                       else arrive p b (now + ttl) state_bytes
           | None => arrive p b (now + ttl) state_bytes
           end in
    (true,
     if bool_decide (is_Some (b_slot b)) && (watermark <? b_incarnation b)
     then with_high p1 (<[b_id b := b_incarnation b]> (rp_high p1)) else p1,
     rung).

(** The deltas of the pools a beat watches. *)
Fixpoint deltas_for (watch : list pystr) (seen : gmap pystr Z) (pools : gmap pystr rpool)
    (out : gmap pystr pool_delta) : option (gmap pystr pool_delta * gmap pystr rpool) :=
  match watch with
  | [] => Some (out, pools)
  | name :: rest =>
      match pools !! name with
      | None => deltas_for rest seen pools out
      | Some wp =>
          '(d, wp') ← delta wp (seen !! name);
          deltas_for rest seen (<[name := wp']> pools)
            (match d with Some d => <[name := d]> out | None => out end)
      end
  end.

Section Beats.
(** [serde_json]'s text of a value, in bytes; the wording of a refusal; the
    registry's own version. *)
Context (json_len : value → Z) (why : rpool → beat → pystr) (version_text : pystr).

(** [serialized_len] *)
Definition serialized_len (v : value) (limit : Z) : option Z :=
  if json_len v <=? limit then Some (json_len v) else None.

(** [Registry::admissible] *)
Definition admissible (b : beat) : option Z :=
  if (byte_len (b_pool b) <=? MAX_NAME) && (b_incarnation b <=? MAX_INCARNATION) &&
     (length (b_watch b) <=? MAX_WATCH)%nat && forallb (λ w, byte_len w <=? MAX_NAME) (b_watch b) &&
     match b_url b with Some u => byte_len u <=? MAX_NAME | None => true end &&
     (Z.of_nat (length (b_methods b)) <=? MAX_METHODS) &&
     forallb (λ m, byte_len m <=? MAX_NAME) (b_methods b)
  then serialized_len (b_state b) MAX_STATE else None.

Definition ack_of (r : registry) (accepted : bool) (refused : option pystr)
    (pools : gmap pystr pool_delta) : beat_ack :=
  BeatAck (rg_epoch r) PROTOCOL version_text (rg_ttl r) accepted refused (map_to_list pools).

(** [Registry::beat_shared]: the answer, the registry, the callers woken. *)
Definition beat_shared (r : registry) (now : Z) (b : beat) : option (beat_ack * registry * list nat) :=
  match admissible b with
  | None => Some (ack_of r false None ∅, r, [])
  | Some state_bytes =>
      let p := default new_rpool (rg_pools r !! b_pool b) in
      match shape_for p b with
      | None => Some (ack_of r false (Some (why p b)) ∅,
                      Registry_ (<[b_pool b := p]> (rg_pools r)) (rg_ttl r) (rg_epoch r), [])
      | Some p1 =>
          let '(accepted, p2, rung) := take_seat (rg_ttl r) now p1 b state_bytes in
          '(out, pools) ← deltas_for (b_watch b) (b_seen b) (<[b_pool b := p2]> (rg_pools r)) ∅;
          Some (ack_of r accepted None out, Registry_ pools (rg_ttl r) (rg_epoch r), rung)
      end
  end.
End Beats.

(** One iteration of the loop of [Registry::park]. *)
Definition park_at (bell : nat) (pools : gmap pystr rpool) (name : pystr) : gmap pystr rpool :=
  let p := default new_rpool (pools !! name) in
  <[name := RPool (rp_version p) (rp_roster p) (rp_policy p) (rp_methods p) (rp_size p) (rp_members p)
              (rp_high p) (rp_gone p) (rp_log p) (rp_waiters p ++ [bell]) (rp_cache p)]> pools.

(** [Registry::park] *)
Definition park (r : registry) (watch : list pystr) (bell : nat) : registry :=
  Registry_ (fold_left (park_at bell) watch (rg_pools r)) (rg_ttl r) (rg_epoch r).

(** One dead member of [sweep]. *)
Definition expire (acc : rpool * (list nat * nat)) (i : Z) : rpool * (list nat * nat) :=
  let '(p, (rung, dropped)) := acc in
  match rp_members p !! i with
  | Some _ => let '(p', woken) := bump i (remove_member p i) in (p', (rung ++ woken, S dropped))
  | None => acc
  end.

(** The ids whose lease ran out. *)
Definition dead (p : rpool) (now : Z) : list Z :=
  (List.filter (λ kr, rc_expires_at kr.2 <=? now) (map_to_list (rp_members p))).*1.

(** [Registry::sweep] on one pool; [alive] says which callers still wait.
    The callers woken and the members dropped come with it. *)
Definition sweep_pool (alive : nat → bool) (now : Z) (p : rpool) : rpool * (list nat * nat) :=
  let p0 := RPool (rp_version p) (rp_roster p) (rp_policy p) (rp_methods p) (rp_size p) (rp_members p)
              (rp_high p) (filter (λ kv, now < kv.2.2) (rp_gone p)) (rp_log p)
              (List.filter alive (rp_waiters p)) (rp_cache p) in
  fold_left expire (dead p0 now) (p0, ([], 0%nat)).

(** [Registry::sweep] *)
Definition sweep (alive : nat → bool) (now : Z) (r : registry) : registry * (list nat * nat) :=
  let swept := sweep_pool alive now <$> rg_pools r in
  (Registry_ (fst <$> swept) (rg_ttl r) (rg_epoch r),
   (concat (map (λ kp, kp.2.2.1) (map_to_list swept)),
    sum_list_with (λ kp, kp.2.2.2) (map_to_list swept))).

(** [Registry::snapshot] *)
Definition snapshot (r : registry) : gmap pystr (Z * Z * nat) :=
  (λ p, (rp_version p, rp_roster p, size (rp_members p))) <$> rg_pools r.

(** [Registry::deltas_shared_for] *)
Definition deltas_shared_for (r : registry) (b : beat) : option (gmap pystr pool_delta * registry) :=
  '(out, pools) ← deltas_for (b_watch b) (b_seen b) (rg_pools r) ∅;
  Some (out, Registry_ pools (rg_ttl r) (rg_epoch r)).

(** ** What a subscriber can see of a pool *)

Definition rmembers (p : rpool) : gmap Z member := rc_member <$> rp_members p.

(** XOR of what [h] gives the entries. *)
Definition xor_all {A} (h : A → Z) (ms : gmap Z A) : Z := map_fold (λ _ m acc, Z.lxor (h m) acc) 0 ms.

Lemma xor_all_insert {A} (h : A → Z) ms i m :
  ms !! i = None → xor_all h (<[i := m]> ms) = Z.lxor (h m) (xor_all h ms).
Proof.
  intros Hi. apply (map_fold_insert_L (λ _ m acc, Z.lxor (h m) acc) 0 i m ms); [|done].
  intros j1 j2 z1 z2 y _ _ _. by rewrite <-!Z.lxor_assoc, (Z.lxor_comm (h z1)).
Qed.

Lemma xor_all_delete {A} (h : A → Z) ms i m :
  ms !! i = Some m → xor_all h (delete i ms) = Z.lxor (xor_all h ms) (h m).
Proof.
  intros Hi. rewrite <-(insert_delete_id ms i m Hi) at 2. rewrite xor_all_insert by apply lookup_delete_eq.
  by rewrite Z.lxor_comm, <-Z.lxor_assoc, Z.lxor_nilpotent, Z.lxor_0_l.
Qed.

(** XOR of the hashes of the members. *)
Definition roster_of (ms : gmap Z member) : Z := xor_all roster_hash ms.

(** Sum of what the entries of a delta cache were charged. *)
Definition charged (l : list cached_delta) : Z := fold_right (λ e n, cd_bytes e + n) 0 l.

(** The invariant of a pool: members under their own id, the roster hash of
    exactly those members, a log of consecutive versions that ends at the
    pool's, and a delta cache that holds nothing but what would be built
    again, within its two limits. *)
Record pool_ok (p : rpool) : Prop := {
  po_ids : ∀ i m, rmembers p !! i = Some m → m_id m = i;
  po_roster : rp_roster p = roster_of (rmembers p);
  po_log : ∀ k w i, rp_log p !! k = Some (w, i) →
    w = rp_version p - Z.of_nat (length (rp_log p)) + 1 + Z.of_nat k;
  po_length : Z.of_nat (length (rp_log p)) ≤ rp_version p;
  po_started : rp_log p = [] → rp_version p = 0;
  po_cache : Forall (λ e, cd_delta e = (build_delta p (cd_since e)).1) (dc_entries (rp_cache p));
  po_charged : dc_bytes (rp_cache p) = charged (dc_entries (rp_cache p));
  po_entries : (length (dc_entries (rp_cache p)) <= CACHE_ENTRIES)%nat;
  po_bytes : dc_bytes (rp_cache p) ≤ CACHE_BYTES
}.

(** What a delta is built from. *)
Definition visible (p : rpool) :=
  (rp_version p, rp_roster p, rp_policy p, rp_methods p, rp_size p, rmembers p, rp_log p).

Lemma build_delta_visible p q since : visible p = visible q → (build_delta p since).1 = (build_delta q since).1.
Proof.
  intros H. injection H as Hv Hr Hp Hm Hs Hms Hl.
  assert (∀ i, rc_member <$> rp_members p !! i = rc_member <$> rp_members q !! i) as Hi.
  { intros i. rewrite <-!lookup_fmap. change (rmembers p !! i = rmembers q !! i). by rewrite Hms. }
  assert (∀ v, ids_since p v = ids_since q v) as Hids by (intros v; unfold ids_since, oldest; by rewrite Hl).
  unfold build_delta. destruct since as [v|]; cbn [fst]; rewrite ?Hids; f_equal; try done.
  - generalize (ids_since q v). intros ids. induction ids as [|i ids IH]; [done|]. simpl.
    specialize (Hi i). destruct (rp_members p !! i), (rp_members q !! i); simpl in *; try done.
    injection Hi as Hi. by f_equal.
  - apply filter_ext. intros i. specialize (Hi i).
    destruct (rp_members p !! i), (rp_members q !! i); simpl in Hi; simplify_eq; done.
  - assert (∀ r : rpool, map rc_member (map_to_list (rp_members r)).*2 = (map_to_list (rmembers r)).*2) as Hx.
    { intros r. unfold rmembers. rewrite map_to_list_fmap.
      generalize (map_to_list (rp_members r)). intros l. induction l as [|[k x] l IH]; [done|].
      simpl. by f_equal. }
    by rewrite !Hx, Hms.
Qed.

(** A change nobody can see keeps the invariant. *)
Lemma visible_ok p q : visible p = visible q → rp_cache q = rp_cache p → pool_ok p → pool_ok q.
Proof.
  intros Hv Hc []. pose proof Hv as H. injection H as Ev Er Ep Em Es Ems El.
  split; rewrite ?Hc; try done; try (by rewrite <-?Ev, <-?Er, <-?Ems, <-?El).
  eapply Forall_impl; [done|]. intros e He. simpl. rewrite He. by apply build_delta_visible.
Qed.

Lemma no_deltas_ok p :
  (∀ i m, rmembers p !! i = Some m → m_id m = i) → rp_roster p = roster_of (rmembers p) →
  (∀ k w i, rp_log p !! k = Some (w, i) →
     w = rp_version p - Z.of_nat (length (rp_log p)) + 1 + Z.of_nat k) →
  Z.of_nat (length (rp_log p)) ≤ rp_version p → (rp_log p = [] → rp_version p = 0) →
  rp_cache p = no_deltas → pool_ok p.
Proof. intros ? ? ? ? ? Hc. split; rewrite ?Hc; simpl; try done. unfold CACHE_ENTRIES. lia. Qed.

(** ** How a pool moves *)

(** Every member that differs between [p] and the later [q] is in the log of
    [q] under a version after [p]'s -- as far back as that log reaches. *)
Record tracks (p q : rpool) : Prop := {
  tk_version : rp_version p ≤ rp_version q;
  tk_members : oldest q ≤ rp_version p + 1 →
    ∀ i, rmembers q !! i = rmembers p !! i ∨ ∃ v, rp_version p < v ∧ (v, i) ∈ rp_log q
}.

(** A move that keeps the invariant and the record of every earlier moment. *)
Definition evolves (p q : rpool) : Prop :=
  pool_ok p → pool_ok q ∧ ∀ p0, tracks p0 p → tracks p0 q.

#[global] Instance evolves_preorder : PreOrder evolves.
Proof.
  split; [by intros p Hp|]. intros p q r Hpq Hqr Hp. destruct (Hpq Hp) as [Hq Ht].
  destruct (Hqr Hq) as [Hr Ht']. eauto.
Qed.

Lemma tracks_refl p : tracks p p.
Proof. split; [done|by left]. Qed.

(** Nothing a subscriber can see. *)
Lemma evolves_visible p q : visible p = visible q → rp_cache q = rp_cache p → evolves p q.
Proof.
  intros Hv Hc Hp. split; [by eapply visible_ok|]. injection Hv as Ev Er Ep Em Es Ems El.
  intros p0 [H1 H2]. split; [by rewrite <-Ev|]. unfold oldest. rewrite <-El, <-Ems. exact H2.
Qed.

Lemma log_bounds p v i : pool_ok p → (v, i) ∈ rp_log p → oldest p ≤ v ≤ rp_version p.
Proof.
  intros Hp [k Hk]%list_elem_of_lookup. pose proof (po_log _ Hp k v i Hk) as ->.
  apply lookup_lt_Some in Hk as Hlt. unfold oldest.
  destruct (rp_log p) as [|[v0 i0] log] eqn:El; [done|].
  pose proof (po_log _ Hp 0 v0 i0) as H0. rewrite El in H0. specialize (H0 eq_refl). lia.
Qed.

Lemma oldest_value p : pool_ok p →
  oldest p = if decide (rp_log p = []) then 0 else rp_version p - Z.of_nat (length (rp_log p)) + 1.
Proof.
  intros Hp. unfold oldest. pose proof (po_log _ Hp 0) as H0.
  destruct (rp_log p) as [|[v0 i0] log]; [done|]. specialize (H0 v0 i0 eq_refl). rewrite decide_False by done. lia.
Qed.

(** The log after [bump]. *)
Lemma bump_log p i :
  pool_ok p →
  let q := (bump i p).1 in
  (∀ k w j, rp_log q !! k = Some (w, j) → w = rp_version q - Z.of_nat (length (rp_log q)) + 1 + Z.of_nat k) ∧
  Z.of_nat (length (rp_log q)) ≤ rp_version q ∧ rp_log q ≠ [] ∧
  (rp_version q, i) ∈ rp_log q ∧
  (∀ w j, (w, j) ∈ rp_log p → oldest q ≤ w → (w, j) ∈ rp_log q).
Proof.
  intros Hp. set (l := rp_log p ++ [(rp_version p + 1, i)]).
  assert (length l = S (length (rp_log p))) as Hlen by (unfold l; rewrite length_app; simpl; lia).
  assert (∀ k w j, l !! k = Some (w, j) → w = rp_version p + 1 - Z.of_nat (length l) + 1 + Z.of_nat k) as Hl.
  { intros k w j Hk. pose proof Hk as Hlt%lookup_lt_Some. unfold l in Hk.
    apply lookup_app_Some in Hk as [Hk|[Hge Hk]].
    - rewrite (po_log _ Hp k w j Hk). lia.
    - apply list_lookup_singleton_Some in Hk as [Hk [= <- <-]]. lia. }
  cbv zeta. simpl. fold l. set (n := (length l - LOG_CAP)%nat).
  assert (1 ≤ LOG_CAP)%nat as Hcap by (unfold LOG_CAP; lia).
  assert (∀ k w j, drop n l !! k = Some (w, j) →
    w = rp_version p + 1 - Z.of_nat (length (drop n l)) + 1 + Z.of_nat k) as Hd.
  { intros k w j. rewrite lookup_drop. intros Hk. pose proof Hk as Hlt%lookup_lt_Some.
    rewrite (Hl _ _ _ Hk), length_drop. lia. }
  assert (l !! length (rp_log p) = Some (rp_version p + 1, i)) as Hlast.
  { unfold l. by rewrite list_lookup_middle. }
  pose proof (po_length _ Hp) as Hpl.
  split_and!; [exact Hd|rewrite length_drop; lia| | |].
  - intros He. apply (f_equal length) in He. rewrite length_drop in He. simpl in He. lia.
  - apply list_elem_of_lookup. exists (length (rp_log p) - n)%nat. rewrite lookup_drop.
    replace (n + (length (rp_log p) - n))%nat with (length (rp_log p)) by lia. done.
  - intros w j Hin Hold. unfold oldest in Hold. simpl in Hold.
    assert ((w, j) ∈ l) as [k Hk]%list_elem_of_lookup by (unfold l; apply elem_of_app; by left).
    pose proof (Hl _ _ _ Hk) as Hw. pose proof Hk as Hlt%lookup_lt_Some.
    apply list_elem_of_lookup. exists (k - n)%nat. rewrite lookup_drop.
    destruct (drop n l) as [|[v0 i0] l'] eqn:Ed.
    { apply (f_equal length) in Ed. rewrite length_drop in Ed. simpl in Ed. lia. }
    assert (drop n l !! 0%nat = Some (v0, i0)) as H0 by (by rewrite Ed).
    rewrite lookup_drop in H0. apply Hl in H0.
    replace (n + (k - n))%nat with k by lia. done.
Qed.

(** A change of the one member [i], announced by [bump]. *)
Lemma evolves_bump p q i :
  rp_version q = rp_version p → rp_log q = rp_log p →
  (pool_ok p → ∀ j, j ≠ i → rmembers q !! j = rmembers p !! j) →
  (pool_ok p → ∀ m, rmembers q !! i = Some m → m_id m = i) →
  (pool_ok p → rp_roster q = roster_of (rmembers q)) →
  evolves p (bump i q).1.
Proof.
  intros Ev El Hms Hid Hro Hp. specialize (Hms Hp). specialize (Hid Hp). specialize (Hro Hp).
  assert (rp_log (bump i q).1 = rp_log (bump i p).1 ∧ rp_version (bump i q).1 = rp_version (bump i p).1) as [El' Ev'].
  { simpl. by rewrite El, Ev. }
  destruct (bump_log p i Hp) as (Hb1 & Hb2 & Hb3 & Hb4 & Hb5). rewrite <-El' in Hb1, Hb2, Hb3, Hb4.
  rewrite <-Ev' in Hb1, Hb2, Hb4.
  assert (oldest (bump i q).1 = oldest (bump i p).1) as Eo by (unfold oldest; by rewrite El').
  rewrite <-Eo, <-El' in Hb5.
  assert (pool_ok (bump i q).1) as Hq.
  { apply no_deltas_ok; [|exact Hro|exact Hb1|exact Hb2|done|done].
    change (rmembers (bump i q).1) with (rmembers q). intros j m Hj.
    destruct (decide (j = i)) as [->|Hne]; [by apply Hid|]. rewrite Hms in Hj by done. by eapply po_ids. }
  split; [done|]. intros p0 [Hv Ht]. split; [rewrite Ev'; simpl; lia|]. intros Hold j.
  assert (oldest p ≤ oldest (bump i q).1) as Hmono.
  { rewrite (oldest_value _ Hp), (oldest_value _ Hq), (decide_False (P := rp_log (bump i q).1 = [])) by done.
    rewrite El', Ev'. simpl. rewrite length_drop, length_app. simpl.
    pose proof (po_length _ Hp). case_decide; lia. }
  change (rmembers (bump i q).1) with (rmembers q).
  destruct (decide (j = i)) as [->|Hne].
  - right. exists (rp_version (bump i q).1). split; [rewrite Ev'; simpl; lia|done].
  - rewrite Hms by done. destruct (Ht ltac:(lia) j) as [?|(v & Hlt & Hin)]; [by left|right].
    exists v. split; [done|]. apply Hb5; [done|lia].
Qed.

Lemma rmembers_insert p ro i r :
  rmembers (with_members p ro (<[i := r]> (rp_members p))) = <[i := rc_member r]> (rmembers p).
Proof. unfold rmembers. simpl. by rewrite fmap_insert. Qed.

Lemma remove_member_some p i r :
  rp_members p !! i = Some r →
  remove_member p i = with_members p (Z.lxor (rp_roster p) (roster_hash (rc_member r))) (delete i (rp_members p)).
Proof. intros Hi. unfold remove_member. by rewrite Hi. Qed.

(** Removing a member keeps the roster right. *)
Lemma remove_member_facts p i :
  pool_ok p →
  rmembers (remove_member p i) = delete i (rmembers p) ∧
  rp_roster (remove_member p i) = roster_of (delete i (rmembers p)) ∧
  rp_version (remove_member p i) = rp_version p ∧ rp_log (remove_member p i) = rp_log p ∧
  rp_high (remove_member p i) = rp_high p.
Proof.
  intros Hp. destruct (rp_members p !! i) as [r|] eqn:Hi.
  - rewrite (remove_member_some _ _ _ Hi).
    assert (rmembers p !! i = Some (rc_member r)) as Hm by (unfold rmembers; by rewrite lookup_fmap, Hi).
    split_and!; [unfold rmembers; simpl; by rewrite fmap_delete| |done|done|done].
    unfold roster_of. rewrite (xor_all_delete _ _ _ _ Hm). simpl. by rewrite (po_roster _ Hp).
  - assert (rmembers p !! i = None) as Hm by (unfold rmembers; by rewrite lookup_fmap, Hi).
    assert (remove_member p i = p) as -> by (unfold remove_member; by rewrite Hi).
    rewrite delete_id by done. split_and!; try done. apply (po_roster _ Hp).
Qed.

Lemma evolves_remove p i : evolves p (bump i (remove_member p i)).1.
Proof.
  apply evolves_bump.
  - unfold remove_member. by destruct (_ !! _).
  - unfold remove_member. by destruct (_ !! _).
  - intros Hp j Hne. destruct (remove_member_facts p i Hp) as (-> & _). by apply lookup_delete_ne.
  - intros Hp m. destruct (remove_member_facts p i Hp) as (-> & _). by rewrite lookup_delete_eq.
  - intros Hp. by destruct (remove_member_facts p i Hp) as (-> & -> & _).
Qed.

Lemma evolves_gone p g : evolves p (with_gone p g).
Proof. by apply evolves_visible. Qed.

Lemma evolves_high p h : evolves p (with_high p h).
Proof. by apply evolves_visible. Qed.

Lemma evolves_shape p policy methods size : evolves p (with_shape p policy methods size).
Proof.
  intros Hp. split; [by apply no_deltas_ok; try apply Hp|]. intros p0 [H1 H2]. by split.
Qed.

Lemma evolves_goodbye p b forget_at : evolves p (goodbye p b forget_at).1.
Proof.
  unfold goodbye. destruct (rp_members p !! b_id b); simpl.
  - etransitivity; [apply (evolves_remove p (b_id b))|apply evolves_gone].
  - apply evolves_gone.
Qed.

Lemma evolves_arrive p b e n : evolves p (arrive p b e n).1.
Proof.
  unfold arrive. apply evolves_bump; simpl.
  - unfold remove_member. by destruct (_ !! _).
  - unfold remove_member. by destruct (_ !! _).
  - intros Hp j Hne. rewrite rmembers_insert, lookup_insert_ne by done.
    destruct (remove_member_facts p (b_id b) Hp) as (-> & _). by apply lookup_delete_ne.
  - intros Hp m. rewrite rmembers_insert, lookup_insert_eq. by intros [= <-].
  - intros Hp. rewrite rmembers_insert. destruct (remove_member_facts p (b_id b) Hp) as (-> & -> & _).
    cbn [rc_member]. unfold roster_of. rewrite xor_all_insert by apply lookup_delete_eq. apply Z.lxor_comm.
Qed.

Lemma roster_hash_same m m' :
  m_id m = m_id m' → m_incarnation m = m_incarnation m' → roster_hash m = roster_hash m'.
Proof. intros H1 H2. unfold roster_hash. by rewrite H1, H2. Qed.

Lemma evolves_renew p b r e n :
  rp_members p !! b_id b = Some r → evolves p (renew p b r e n).1.
Proof.
  intros Hr. assert (rmembers p !! b_id b = Some (rc_member r)) as Hm
    by (unfold rmembers; by rewrite lookup_fmap, Hr).
  unfold renew. cbv zeta. destruct (negb (newer _ _)); [|destruct (_ && _)]; cbn [fst].
  - apply evolves_visible; [|done]. unfold visible. rewrite rmembers_insert. cbn [rc_member].
    rewrite (insert_id _ _ _ Hm). reflexivity.
  - apply evolves_visible; [|done]. unfold visible. rewrite rmembers_insert. cbn [rc_member].
    rewrite (insert_id _ _ _ Hm). reflexivity.
  - apply evolves_bump; [done|done|..].
    + intros Hp j Hne. by rewrite rmembers_insert, lookup_insert_ne.
    + intros Hp m. rewrite rmembers_insert, lookup_insert_eq. intros [= <-]. simpl. by apply (po_ids _ Hp).
    + intros Hp. rewrite rmembers_insert. cbn [rc_member]. unfold roster_of.
      rewrite <-(insert_delete_eq (rmembers p)), xor_all_insert by apply lookup_delete_eq.
      rewrite (xor_all_delete _ _ _ _ Hm). cbn [rp_roster with_members]. rewrite (po_roster _ Hp). unfold roster_of.
      rewrite (roster_hash_same _ (rc_member r)) by done.
      by rewrite Z.lxor_comm, Z.lxor_assoc, Z.lxor_nilpotent, Z.lxor_0_r.
Qed.

(** ** The delta cache *)

Lemma evict_ok entries held bytes :
  held = charged entries → bytes ≤ CACHE_BYTES →
  ∃ pre entries' held', evict entries held bytes = Some (entries', held') ∧ entries = pre ++ entries' ∧
    held' = charged entries' ∧ (length entries' < CACHE_ENTRIES)%nat ∧ held' + bytes ≤ CACHE_BYTES.
Proof.
  revert held. induction entries as [|e entries IH]; intros held Hh Hb; cbn [evict].
  - simpl in Hh. subst held. rewrite (proj2 (Z.ltb_ge _ _)) by lia. simpl.
    exists [], [], 0. split_and!; try done; try lia. all: unfold CACHE_ENTRIES; simpl; try lia.
  - destruct (Nat.leb_spec CACHE_ENTRIES (length (e :: entries))) as [Hl|Hl]; cbn [orb];
      [|destruct (Z.ltb_spec CACHE_BYTES (held + bytes)) as [Hc|Hc]].
    1-2: destruct (IH (held - cd_bytes e)) as (pre & es & h & He & -> & Hh' & Hlen & Hle);
      [subst held; simpl; lia|done|exists (e :: pre), es, h; done].
    exists [], (e :: entries), held. done.
Qed.

Lemma charged_app l l' : charged (l ++ l') = charged l + charged l'.
Proof. induction l as [|e l IH]; simpl; [lia|]. rewrite IH. lia. Qed.

Lemma cursor_reaches p seen : pool_ok p → reaches p (cursor p seen) = true.
Proof.
  intros Hp. destruct seen as [v|]; [|done]. unfold cursor. simpl.
  destruct ((v <? rp_version p) && (oldest p <=? v + 1)) eqn:E; [|done].
  apply andb_true_iff in E as [Hlt%Z.ltb_lt _]. apply Nat.leb_le. rewrite (oldest_value p Hp).
  case_decide as Hl; [pose proof (po_started _ Hp Hl); lia|lia].
Qed.

(** Building a delta never panics; the answer is the one a fresh build gives,
    remembered or not. *)
Lemma delta_spec p seen :
  pool_ok p →
  ∃ d q, delta p seen = Some (d, q) ∧ evolves p q ∧ visible q = visible p ∧
    rp_high q = rp_high p ∧ rp_members q = rp_members p ∧ rp_waiters q = rp_waiters p ∧
    d = if bool_decide (seen = Some (rp_version p)) then None else Some (build_delta p (cursor p seen)).1.
Proof.
  intros Hp. unfold delta. case_bool_decide as Hs; [by exists None, p|]. cbv zeta.
  destruct (dc_get (rp_cache p) (cursor p seen)) as [d|] eqn:Hg.
  - exists (Some d), p. split_and!; try done. f_equal.
    unfold dc_get in Hg. apply fmap_Some in Hg as (e & He & ->). apply find_some in He as [Hin Hsince].
    apply bool_decide_eq_true in Hsince. rewrite <-Hsince.
    pose proof (po_cache _ Hp) as Hf. rewrite Forall_forall in Hf. by apply Hf, list_elem_of_In.
  - rewrite cursor_reaches by done. cbn [negb].
    destruct (build_delta p (cursor p seen)) as [d bytes] eqn:Hb. cbn [fst].
    assert (∃ c, dc_insert (rp_cache p) (cursor p seen) d bytes = Some c ∧
      Forall (λ e, cd_delta e = (build_delta p (cd_since e)).1) (dc_entries c) ∧
      dc_bytes c = charged (dc_entries c) ∧ (length (dc_entries c) <= CACHE_ENTRIES)%nat ∧
      dc_bytes c ≤ CACHE_BYTES) as (c & Hc & Hcf & Hcc & Hce & Hcb).
    { unfold dc_insert. destruct (Z.ltb_spec CACHE_BYTES bytes) as [Hlt|Hge].
      - exists (rp_cache p). destruct Hp. done.
      - destruct (evict_ok (dc_entries (rp_cache p)) (dc_bytes (rp_cache p)) bytes (po_charged _ Hp) Hge)
          as (pre & es & h & -> & Hpre & Hh & Hlen & Hle).
        eexists. split; [reflexivity|]. simpl. split_and!; [|rewrite charged_app; simpl; lia| |lia].
        + apply Forall_app. split; [|by apply Forall_singleton; simpl; rewrite Hb].
          pose proof (po_cache _ Hp) as Hf. rewrite Hpre in Hf. by apply Forall_app in Hf as [_ ?].
        + rewrite length_app. simpl. lia. }
    exists (Some d), (with_rcache p c). rewrite Hc. split_and!; try done.
    intros _. split; [|intros p0 [H1 H2]; by split]. destruct Hp. split; simpl; try done.
Qed.

(** ** The operations of the registry *)

Lemma evolves_seat ttl now p b n : evolves p (take_seat ttl now p b n).1.2.
Proof.
  unfold take_seat. destruct (superseded p b); [done|]. cbv zeta.
  destruct (if b_leaving b then _ else _) as [p1 rung] eqn:E.
  assert (evolves p p1) as H1.
  { change p1 with (p1, rung).1. rewrite <-E. destruct (b_leaving b); [apply evolves_goodbye|].
    destruct (rp_members p !! b_id b) as [r|] eqn:Hr; [|apply evolves_arrive].
    destruct (_ =? _); [by apply evolves_renew|apply evolves_arrive]. }
  cbn [fst snd]. destruct (_ && _); [|done]. etransitivity; [exact H1|apply evolves_high].
Qed.

Lemma evolves_shape_for p b q : shape_for p b = Some q → evolves p q.
Proof.
  unfold shape_for. case_bool_decide.
  - intros [= <-]. destruct (_ && _ && _); [done|apply evolves_shape].
  - destruct (disagreement p b); [done|]. intros [= <-]. destruct (_ && _); [apply evolves_shape|done].
Qed.

(** The shape is all [shape_for] touches. *)
Lemma shape_same p b q : shape_for p b = Some q →
  rp_high q = rp_high p ∧ rp_members q = rp_members p ∧ rp_version q = rp_version p ∧ rp_waiters q = rp_waiters p.
Proof.
  unfold shape_for. case_bool_decide; [intros [= <-]; by destruct (_ && _ && _)|].
  destruct (disagreement p b); [done|]. intros [= <-]. by destruct (_ && _).
Qed.

Lemma evolves_sweep alive now p : evolves p (sweep_pool alive now p).1.
Proof.
  unfold sweep_pool. cbv zeta. set (p0 := RPool _ _ _ _ _ _ _ _ _ _ _).
  assert (evolves p p0) as H0 by (by apply evolves_visible).
  assert (∀ l acc, evolves p acc.1 → evolves p (fold_left expire l acc).1) as Hfold.
  { induction l as [|i l IH]; intros [q [rung n]] Hq; [done|]. simpl. apply IH. unfold expire.
    destruct (rp_members q !! i); [|done]. simpl in *.
    etransitivity; [exact Hq|]. apply (evolves_remove q i). }
  by apply Hfold.
Qed.

(** A registry: what it keeps of the pool called [name]. *)
Definition pool_of (r : registry) (name : pystr) : rpool := default new_rpool (rg_pools r !! name).

Definition reg_ok (r : registry) : Prop := ∀ name, pool_ok (pool_of r name).

Definition reg_evolves (r r' : registry) : Prop := ∀ name, evolves (pool_of r name) (pool_of r' name).

Lemma new_rpool_ok : pool_ok new_rpool.
Proof. by apply no_deltas_ok. Qed.

Definition pool_in (pools : gmap pystr rpool) (name : pystr) : rpool := default new_rpool (pools !! name).

(** What a subscriber at [seen] is told of the pool. *)
Definition answer (p : rpool) (seen : option Z) : option pool_delta :=
  if bool_decide (seen = Some (rp_version p)) then None else Some (build_delta p (cursor p seen)).1.

Lemma answer_visible p q seen : visible p = visible q → answer p seen = answer q seen.
Proof.
  intros Hv. pose proof Hv as H. injection H as Ev Er Ep Em Es Ems El. unfold answer. rewrite Ev.
  case_bool_decide; [done|]. f_equal. rewrite (build_delta_visible p q) by done. do 2 f_equal.
  unfold cursor, oldest. by rewrite Ev, El.
Qed.

(** A pool after its deltas were read: only its delta cache may differ. *)
Definition reread (p q : rpool) : Prop := evolves p q ∧ visible q = visible p ∧ rp_high q = rp_high p ∧ rp_waiters q = rp_waiters p ∧
  rp_members q = rp_members p.

#[global] Instance reread_preorder : PreOrder reread.
Proof.
  split; [done|]. intros p q r (H1 & H2 & H3 & H4 & H5) (H6 & H7 & H8 & H9 & H10). split_and!; [by transitivity q|congruence..].
Qed.

(** The pools after answering the watched ones, and the answers. *)
Lemma deltas_for_spec watch seen pools out :
  (∀ name, pool_ok (pool_in pools name)) →
  ∃ out' pools', deltas_for watch seen pools out = Some (out', pools') ∧
    (∀ name, reread (pool_in pools name) (pool_in pools' name)) ∧
    (∀ name, is_Some (pools' !! name) ↔ is_Some (pools !! name)) ∧
    (∀ name, out' !! name = out !! name ∨
       name ∈ watch ∧ is_Some (pools !! name) ∧ out' !! name = answer (pool_in pools name) (seen !! name)) ∧
    (∀ name, name ∈ watch → is_Some (pools !! name) → out !! name = None →
       out' !! name = answer (pool_in pools name) (seen !! name)).
Proof.
  revert pools out. induction watch as [|name watch IH]; intros pools out Hok; cbn [deltas_for].
  { exists out, pools. split_and!; [done|done|done|by left|]. intros name Hin. by apply not_elem_of_nil in Hin. }
  destruct (pools !! name) as [wp|] eqn:Hn.
  2: { destruct (IH pools out Hok) as (o & ps & -> & H1 & H0 & H2 & H3). exists o, ps. split_and!; try done.
       { intros n. destruct (H2 n) as [?|(? & ? & ?)]; [by left|right]. split_and!; [by right|done|done]. }
       intros n [->|Hin]%elem_of_cons [x Hx]; [congruence|]. eauto. }
  assert (pool_in pools name = wp) as Hwp by (unfold pool_in; by rewrite Hn).
  assert (pool_ok wp) as Hw by (rewrite <-Hwp; apply Hok).
  destruct (delta_spec wp (seen !! name) Hw) as (d & wp' & -> & Hev & Hvis & Hhi & Hmem & Hwt & Hd).
  fold (answer wp (seen !! name)) in Hd. cbn [mbind option_bind]. subst d.
  set (pools1 := <[name := wp']> pools).
  assert (∀ n, reread (pool_in pools n) (pool_in pools1 n)) as Hre.
  { intros n. unfold pools1, pool_in. destruct (decide (n = name)) as [->|Hne].
    - rewrite lookup_insert_eq, Hn. done.
    - by rewrite lookup_insert_ne. }
  assert (∀ n, is_Some (pools1 !! n) ↔ is_Some (pools !! n)) as Hsome.
  { intros n. unfold pools1. destruct (decide (n = name)) as [->|Hne].
    - rewrite lookup_insert_eq, Hn. split; eauto.
    - by rewrite lookup_insert_ne. }
  assert (∀ n, answer (pool_in pools1 n) (seen !! n) = answer (pool_in pools n) (seen !! n)) as Hans.
  { intros n. apply answer_visible. by destruct (Hre n) as (_ & ? & _ & _). }
  destruct (IH pools1 (match answer wp (seen !! name) with Some d => <[name := d]> out | None => out end))
    as (o & ps & -> & H1 & H0 & H2 & H3).
  { intros n. destruct (Hre n) as (He & _ & _ & _). by apply He. }
  assert (∀ n, n ≠ name →
    match answer wp (seen !! name) with Some d => <[name := d]> out | None => out end !! n = out !! n) as Hother.
  { intros n Hne. destruct (answer wp _); [by rewrite lookup_insert_ne|done]. }
  exists o, ps. split_and!; [done|intros n; by transitivity (pool_in pools1 n)|intros n; by rewrite H0|..].
  - intros n. destruct (H2 n) as [H|(Hi & Hs & H)]; [|right; rewrite H; split_and!; [by right|by apply Hsome|apply Hans]].
    destruct (decide (n = name)) as [->|Hne]; [|left; rewrite H; by apply Hother].
    rewrite H. destruct (answer wp (seen !! name)) eqn:Ea; [|by left].
    right. rewrite lookup_insert_eq, Hwp. split_and!; [by left|by eexists|done].
  - intros n Hin Hs Ho. destruct (decide (n = name)) as [->|Hne].
    + destruct (H2 name) as [H|(_ & _ & H)]; [|rewrite H; apply Hans]. rewrite H, Hwp.
      destruct (answer wp (seen !! name)); [by rewrite lookup_insert_eq|done].
    + apply elem_of_cons in Hin as [?|Hin]; [done|]. rewrite <-Hans. apply H3; [done|by apply Hsome|].
      by rewrite Hother.
Qed.

(** ** Seats are never handed back *)

(** The watermark of a seat only rises. *)
Definition rises (p q : rpool) : Prop :=
  ∀ i t, rp_high p !! i = Some t → ∃ t', rp_high q !! i = Some t' ∧ t ≤ t'.

#[global] Instance rises_preorder : PreOrder rises.
Proof.
  split; [intros p i t Ht; by exists t|]. intros p q r H1 H2 i t Ht.
  destruct (H1 i t Ht) as (t1 & Ht1 & ?). destruct (H2 i t1 Ht1) as (t2 & ? & ?). exists t2. split; [done|lia].
Qed.

Lemma rises_same p q : rp_high q = rp_high p → rises p q.
Proof. intros H i t. rewrite H. by exists t. Qed.

Lemma bump_high i p : rp_high (bump i p).1 = rp_high p.
Proof. done. Qed.

Lemma remove_high i p : rp_high (remove_member p i) = rp_high p.
Proof. unfold remove_member. by destruct (_ !! _). Qed.

(** What a beat that is not superseded does before the watermark. *)
Lemma seat_high p b (e n f : Z) r :
  rp_high (goodbye p b f).1 = rp_high p ∧ rp_high (renew p b r e n).1 = rp_high p ∧
  rp_high (arrive p b e n).1 = rp_high p.
Proof.
  split_and!.
  - unfold goodbye. destruct (rp_members p !! b_id b); simpl; by rewrite ?remove_high.
  - unfold renew. destruct (negb _); [done|]. by destruct (_ && _).
  - unfold arrive. simpl. apply remove_high.
Qed.

Lemma rises_seat ttl now p b n :
  let '(accepted, q, _) := take_seat ttl now p b n in
  rises p q ∧
  (accepted = true → is_Some (b_slot b) → 0 < b_incarnation b →
   ∃ t, rp_high q !! b_id b = Some t ∧ b_incarnation b ≤ t).
Proof.
  unfold take_seat. destruct (superseded p b) eqn:Hs; [by split|]. cbv zeta.
  destruct (if b_leaving b then _ else _) as [p1 rung] eqn:E.
  assert (rp_high p1 = rp_high p) as H1.
  { change p1 with (p1, rung).1. rewrite <-E.
    destruct (b_leaving b); [apply (seat_high p b 0 0 _ (Record_ (beat_member b) None 0 0))|].
    destruct (rp_members p !! b_id b) as [r|]; [destruct (_ =? _)|].
    - apply (seat_high p b _ _ 0 r).
    - apply (seat_high p b _ _ 0 r).
    - apply (seat_high p b _ _ 0 (Record_ (beat_member b) None 0 0)). }
  assert (default 0 (rp_high p !! b_id b) ≤ b_incarnation b) as Hw.
  { unfold superseded in Hs. apply orb_false_iff in Hs as [Hs _]. apply orb_false_iff in Hs as [_ Hs].
    by apply Z.ltb_ge in Hs. }
  destruct (Z.ltb_spec (default 0 (rp_high p !! b_id b)) (b_incarnation b)) as [Hlt|Hge].
  - rewrite andb_true_r. case_bool_decide as Hslot; simpl; [|by split; [apply rises_same|]].
    split; [|intros _ _ _; rewrite lookup_insert_eq; by eexists].
    intros i t. simpl. rewrite H1. destruct (decide (i = b_id b)) as [->|Hne].
    + intros Ht. rewrite Ht in Hlt. simpl in Hlt. rewrite lookup_insert_eq. eexists. split; [done|lia].
    + rewrite lookup_insert_ne by done. by exists t.
  - rewrite andb_false_r. split; [by apply rises_same|]. intros _ _ Hpos. rewrite H1.
    destruct (rp_high p !! b_id b) as [t|]; simpl in *; [by exists t|lia].
Qed.

Lemma rises_sweep alive now p : rises p (sweep_pool alive now p).1.
Proof.
  unfold sweep_pool. cbv zeta. apply rises_same.
  assert (∀ l acc, rp_high (fold_left expire l acc).1 = rp_high acc.1) as H.
  { induction l as [|i l IH]; intros [q [rung n]]; [done|]. simpl. rewrite IH. unfold expire.
    destruct (rp_members q !! i); simpl; [apply remove_high|done]. }
  by rewrite H.
Qed.

Lemma superseded_below p b t :
  rp_high p !! b_id b = Some t → b_incarnation b < t → superseded p b = true.
Proof.
  intros Ht Hlt. unfold superseded. rewrite Ht. simpl. rewrite (proj2 (Z.ltb_lt _ _) Hlt).
  by rewrite orb_true_r.
Qed.

(** ** A registry over time *)

Section Life.
Context (json_len : value → Z) (why : rpool → beat → pystr) (version_text : pystr).

(** What reaches a registry; [rung] are the callers it wakes, [alive] says
    which of the parked ones still wait. *)
Inductive reg_act (alive : nat → bool) (r : registry) : list nat → registry → Prop :=
| act_beat now b ack r' rung :
    beat_shared json_len why version_text r now b = Some (ack, r', rung) → reg_act alive r rung r'
| act_sweep now r' rung dropped : sweep alive now r = (r', (rung, dropped)) → reg_act alive r rung r'
| act_park watch bell : reg_act alive r [] (park r watch bell)
| act_deltas b out r' : deltas_shared_for r b = Some (out, r') → reg_act alive r [] r'.

Definition reg_step (r r' : registry) : Prop := ∃ alive rung, reg_act alive r rung r'.

(** A registry that has just started. *)
Definition new_registry (ttl epoch : Z) : registry := Registry_ ∅ ttl epoch.

Definition pools_evolve (r r' : registry) : Prop :=
  ∀ name, evolves (pool_of r name) (pool_of r' name) ∧ rises (pool_of r name) (pool_of r' name).

#[global] Instance pools_evolve_preorder : PreOrder pools_evolve.
Proof.
  split; [by intros r name|]. intros r1 r2 r3 H1 H2 name. destruct (H1 name), (H2 name).
  split; etransitivity; eauto.
Qed.

Lemma evolve_ok r r' : pools_evolve r r' → reg_ok r → reg_ok r'.
Proof. intros He Hr name. destruct (He name) as [Hn _]. by apply Hn. Qed.

(** A beat is answered, and by the pool it has just moved. *)
Lemma beat_spec r now b :
  reg_ok r →
  ∃ ack r' rung, beat_shared json_len why version_text r now b = Some (ack, r', rung) ∧
    pools_evolve r r' ∧ ack_epoch ack = rg_epoch r ∧
    (∀ name d, (name, d) ∈ ack_pools ack → answer (pool_of r' name) (b_seen b !! name) = Some d) ∧
    (ack_accepted ack = true →
     (∀ name, name ∈ b_watch b → is_Some (rg_pools r' !! name) →
        (list_to_map (ack_pools ack) : gmap pystr pool_delta) !! name = answer (pool_of r' name) (b_seen b !! name)) ∧
     (is_Some (b_slot b) → 0 < b_incarnation b →
        ∃ t, rp_high (pool_of r' (b_pool b)) !! b_id b = Some t ∧ b_incarnation b ≤ t)).
Proof.
  intros Hr. unfold beat_shared. destruct (admissible json_len b) as [n|].
  2: { eexists _, _, _. split; [reflexivity|]. split_and!; try done. intros name d Hin.
       simpl in Hin. rewrite map_to_list_empty in Hin. by apply not_elem_of_nil in Hin. }
  cbv zeta. fold (pool_of r (b_pool b)). set (p := pool_of r (b_pool b)).
  assert (pool_ok p) as Hp by apply Hr.
  assert (∀ q, pools_evolve r (Registry_ (<[b_pool b := q]> (rg_pools r)) (rg_ttl r) (rg_epoch r)) ↔
               evolves p q ∧ rises p q) as Hput.
  { intros q. split.
    - intros H. specialize (H (b_pool b)). unfold pool_of in H at 2 4. simpl in H.
      by rewrite lookup_insert_eq in H.
    - intros Hq name. unfold pool_of. simpl. destruct (decide (name = b_pool b)) as [->|Hne].
      + by rewrite lookup_insert_eq.
      + by rewrite lookup_insert_ne. }
  destruct (shape_for p b) as [p1|] eqn:Hsh.
  2: { eexists _, _, _. split; [reflexivity|]. split_and!; [by apply Hput|done| |done]. intros name d Hin.
       simpl in Hin. rewrite map_to_list_empty in Hin. by apply not_elem_of_nil in Hin. }
  pose proof (evolves_shape_for _ _ _ Hsh) as He1.
  assert (rises p p1) as Hr1.
  { apply rises_same. by destruct (shape_same _ _ _ Hsh) as (? & _). }
  pose proof (evolves_seat (rg_ttl r) now p1 b n) as He2. pose proof (rises_seat (rg_ttl r) now p1 b n) as Hr2.
  destruct (take_seat (rg_ttl r) now p1 b n) as [[acc p2] rung]. cbn [fst snd] in He2.
  destruct Hr2 as [Hr2 Hhigh].
  assert (pools_evolve r (Registry_ (<[b_pool b := p2]> (rg_pools r)) (rg_ttl r) (rg_epoch r))) as Hev.
  { apply Hput. split; etransitivity; eauto. }
  destruct (deltas_for_spec (b_watch b) (b_seen b) (<[b_pool b := p2]> (rg_pools r)) ∅)
    as (out & pools & -> & Hre & Hdom & Hany & Hout).
  { apply (evolve_ok _ _ Hev Hr). }
  eexists _, _, _. split; [reflexivity|]. split_and!; [|done| |].
  - etransitivity; [exact Hev|]. intros name. destruct (Hre name) as (? & _ & ? & _).
    split; [done|]. by apply rises_same.
  - intros name d Hin. simpl in Hin. apply elem_of_map_to_list in Hin.
    destruct (Hany name) as [H|(Hw & _ & H)]; [by rewrite H, lookup_empty in Hin|].
    rewrite <-Hin, H. apply answer_visible. by destruct (Hre name) as (_ & ? & _ & _).
  - simpl. intros Hacc. split.
    + intros name Hin Hs. rewrite list_to_map_to_list. unfold pool_of. simpl.
      destruct (Hre name) as (_ & Hvis & _ & _). fold (pool_in pools name).
      rewrite (answer_visible (pool_in pools name) (pool_in (<[b_pool b := p2]> (rg_pools r)) name)) by done.
      apply Hout; [done|by apply Hdom|apply lookup_empty].
    + intros Hslot Hpos. unfold pool_of. simpl. destruct (Hre (b_pool b)) as (_ & _ & Hhi & _).
      fold (pool_in pools (b_pool b)). rewrite Hhi. unfold pool_in. rewrite lookup_insert_eq. simpl. by apply Hhigh.
Qed.

(** A relation between a pool before and after a beat, from the pool the
    beat is for. *)
Lemma beat_lift (R : list nat → rpool → rpool → Prop) r now b ack r' rung :
  reg_ok r → beat_shared json_len why version_text r now b = Some (ack, r', rung) →
  (∀ rg p, R rg p p) → (∀ rg p q q', R rg p q → reread q q' → R rg p q') →
  (∀ p p1 n, shape_for p b = Some p1 →
     R (take_seat (rg_ttl r) now p1 b n).2 p (take_seat (rg_ttl r) now p1 b n).1.2) →
  ∀ name, R rung (pool_of r name) (pool_of r' name).
Proof.
  intros Hr E Hrefl Hre Hseat name. revert E. unfold beat_shared.
  destruct (admissible json_len b) as [n|]; [|intros [= <- <- <-]; apply Hrefl].
  cbv zeta. fold (pool_of r (b_pool b)). set (p := pool_of r (b_pool b)).
  assert (∀ q rg, R rg p q → R rg (pool_of r name) (pool_in (<[b_pool b := q]> (rg_pools r)) name)) as Hput.
  { intros q rg Hq. unfold pool_in. destruct (decide (name = b_pool b)) as [->|Hne].
    - by rewrite lookup_insert_eq.
    - rewrite lookup_insert_ne by done. apply Hrefl. }
  destruct (shape_for p b) as [p1|] eqn:Hsh; [|intros [= <- <- <-]; apply Hput, Hrefl].
  specialize (Hseat p p1 n Hsh). pose proof (evolves_shape_for _ _ _ Hsh) as He1.
  pose proof (evolves_seat (rg_ttl r) now p1 b n) as He2.
  destruct (take_seat _ _ _ _ _) as [[acc p2] rg]. cbn [fst snd] in Hseat, He2.
  destruct (deltas_for_spec (b_watch b) (b_seen b) (<[b_pool b := p2]> (rg_pools r)) ∅)
    as (out & pools & -> & Hpools & _).
  { intros nm. unfold pool_in. destruct (decide (nm = b_pool b)) as [->|Hne].
    - rewrite lookup_insert_eq. apply He2, He1, Hr.
    - rewrite lookup_insert_ne by done. apply Hr. }
  intros [= <- <- <-]. eapply Hre; [by apply Hput|apply (Hpools name)].
Qed.

(** Reading the pools that are watched. *)
Lemma deltas_spec r b :
  reg_ok r →
  ∃ out r', deltas_shared_for r b = Some (out, r') ∧ pools_evolve r r' ∧
    rg_epoch r' = rg_epoch r ∧
    ∀ name d, out !! name = Some d → answer (pool_of r' name) (b_seen b !! name) = Some d.
Proof.
  intros Hr. unfold deltas_shared_for.
  destruct (deltas_for_spec (b_watch b) (b_seen b) (rg_pools r) ∅ Hr) as (out & pools & -> & Hre & _ & Hany & _).
  eexists _, _. split; [reflexivity|]. split_and!; [|done|].
  - intros name. destruct (Hre name) as (? & _ & ? & _). split; [done|by apply rises_same].
  - intros name d Hd. destruct (Hany name) as [H|(Hw & _ & H)]; [by rewrite H, lookup_empty in Hd|].
    rewrite <-Hd, H. apply answer_visible. by destruct (Hre name) as (_ & ? & _ & _).
Qed.

(** What parking does to the pool [name]. *)
Lemma park_spec bell watch pools name :
  let p := pool_in pools name in
  let q := pool_in (fold_left (park_at bell) watch pools) name in
  visible p = visible q ∧ rp_cache q = rp_cache p ∧ rp_high q = rp_high p ∧ rp_members q = rp_members p ∧
  (∀ w, w ∈ rp_waiters p → w ∈ rp_waiters q) ∧
  (is_Some (pools !! name) → is_Some (fold_left (park_at bell) watch pools !! name)) ∧
  (name ∈ watch → bell ∈ rp_waiters q ∧ is_Some (fold_left (park_at bell) watch pools !! name)).
Proof.
  cbv zeta. revert pools. induction watch as [|n watch IH]; intros pools; simpl.
  { split_and!; try done. intros H. by apply not_elem_of_nil in H. }
  destruct (IH (park_at bell pools n)) as (Hv & Hc & Hh & Hm & Hw & Hs & Hin).
  assert (visible (pool_in pools name) = visible (pool_in (park_at bell pools n) name) ∧
    rp_cache (pool_in (park_at bell pools n) name) = rp_cache (pool_in pools name) ∧
    rp_high (pool_in (park_at bell pools n) name) = rp_high (pool_in pools name) ∧
    rp_members (pool_in (park_at bell pools n) name) = rp_members (pool_in pools name) ∧
    (∀ w, w ∈ rp_waiters (pool_in pools name) → w ∈ rp_waiters (pool_in (park_at bell pools n) name)) ∧
    (is_Some (pools !! name) → is_Some (park_at bell pools n !! name)) ∧
    (name = n → bell ∈ rp_waiters (pool_in (park_at bell pools n) name) ∧
                is_Some (park_at bell pools n !! name))) as (Hv' & Hc' & Hh' & Hm' & Hw' & Hs' & Hin').
  { unfold park_at, pool_in. destruct (decide (name = n)) as [->|Hne].
    - rewrite lookup_insert_eq. split_and!; try done; [intros w H; apply elem_of_app; by left|].
      intros _. split; [apply elem_of_app; right; by left|done].
    - rewrite lookup_insert_ne by done. done. }
  split_and!; [congruence..|auto|auto|].
  intros [H|H]%elem_of_cons; [destruct (Hin' H); auto|auto].
Qed.

Lemma park_pools r watch bell : pools_evolve r (park r watch bell).
Proof.
  intros name. destruct (park_spec bell watch (rg_pools r) name) as (Hv & Hc & Hh & _).
  split; [by apply evolves_visible|by apply rises_same].
Qed.

Lemma sweep_pools alive now r : pools_evolve r (sweep alive now r).1.
Proof.
  intros name. unfold pool_of, sweep. simpl. rewrite !lookup_fmap.
  destruct (rg_pools r !! name) as [p|]; simpl; [|done]. split; [apply evolves_sweep|apply rises_sweep].
Qed.

Lemma reg_step_evolves r r' : reg_ok r → reg_step r r' → pools_evolve r r' ∧ rg_epoch r' = rg_epoch r.
Proof.
  intros Hr Hs. destruct Hs as (alive & rung & Ha). destruct Ha as [now b ack r' rg E|now r' rg n E|watch bell|b out r' E].
  - destruct (beat_spec r now b Hr) as (a & r1 & rg1 & E' & Hev & _).
    rewrite E in E'. injection E' as <- <- <-. split; [done|].
    unfold beat_shared in E. destruct (admissible json_len b); [|by injection E as <- <- <-].
    cbv zeta in E. destruct (shape_for _ b) as [p1|]; [|by injection E as <- <- <-].
    destruct (take_seat _ _ _ _ _) as [[acc p2] rg']. destruct (deltas_for _ _ _ _) as [[o ps]|]; [|done].
    simpl in E. by injection E as <- <- <-.
  - change r' with (r', (rg, n)).1. rewrite <-E. split; [apply sweep_pools|done].
  - split; [apply park_pools|done].
  - destruct (deltas_spec r b Hr) as (o & r1 & E' & Hev & He & _). rewrite E in E'. by injection E' as <- <-.
Qed.

Lemma new_registry_ok ttl epoch : reg_ok (new_registry ttl epoch).
Proof. intros name. apply new_rpool_ok. Qed.

Lemma reg_steps_evolve r r' : reg_ok r → rtc reg_step r r' → pools_evolve r r' ∧ rg_epoch r' = rg_epoch r.
Proof.
  intros Hr Hs. induction Hs as [r|r r1 r2 H1 _ IH]; [done|].
  destruct (reg_step_evolves r r1 Hr H1) as [He Hep]. destruct (IH (evolve_ok _ _ He Hr)) as [He' Hep'].
  split; [by transitivity r1|congruence].
Qed.

(** ** Theorems *)

(** A beat below the watermark of its seat. *)
Lemma fenced_beat r now b t :
  reg_ok r → rp_high (pool_of r (b_pool b)) !! b_id b = Some t → b_incarnation b < t →
  ∃ ack r' , beat_shared json_len why version_text r now b = Some (ack, r', []) ∧
    ack_accepted ack = false ∧
    ∀ name, rmembers (pool_of r' name) = rmembers (pool_of r name) ∧
            rp_version (pool_of r' name) = rp_version (pool_of r name).
Proof.
  intros Hr Ht Hlt. unfold beat_shared. destruct (admissible json_len b) as [n|]; [|by eexists _, _].
  cbv zeta. fold (pool_of r (b_pool b)). set (p := pool_of r (b_pool b)) in *.
  assert (∀ q, rmembers q = rmembers p ∧ rp_version q = rp_version p →
    ∀ name, rmembers (pool_in (<[b_pool b := q]> (rg_pools r)) name) = rmembers (pool_of r name) ∧
            rp_version (pool_in (<[b_pool b := q]> (rg_pools r)) name) = rp_version (pool_of r name)) as Hput.
  { intros q Hq name. unfold pool_in. destruct (decide (name = b_pool b)) as [->|Hne].
    - by rewrite lookup_insert_eq.
    - by rewrite lookup_insert_ne. }
  destruct (shape_for p b) as [p1|] eqn:Hsh.
  2: { eexists _, _. split; [reflexivity|]. split; [done|]. by apply Hput. }
  assert (rp_high p1 = rp_high p ∧ rmembers p1 = rmembers p ∧ rp_version p1 = rp_version p) as (Hh & Hm & Hv).
  { destruct (shape_same _ _ _ Hsh) as (? & Hm & ? & _). unfold rmembers. by rewrite Hm. }
  assert (superseded p1 b = true) as Hsup by (apply (superseded_below _ _ t); [by rewrite Hh|done]).
  unfold take_seat. rewrite Hsup.
  destruct (deltas_for_spec (b_watch b) (b_seen b) (<[b_pool b := p1]> (rg_pools r)) ∅)
    as (out & pools & -> & Hre & _).
  { intros name. unfold pool_in. destruct (decide (name = b_pool b)) as [->|Hne].
    - rewrite lookup_insert_eq. simpl. apply (evolves_shape_for _ _ _ Hsh), Hr.
    - rewrite lookup_insert_ne by done. apply Hr. }
  eexists _, _. split; [reflexivity|]. split; [done|]. intros name.
  destruct (Hre name) as (_ & Hvis & _ & _). injection Hvis as Ev _ _ _ _ Em _.
  change (pool_of (Registry_ pools (rg_ttl r) (rg_epoch r)) name) with (pool_in pools name).
  rewrite Em, Ev. by apply Hput.
Qed.

(** C11: in every registry that can come about, each pool is well kept: members
    under their own ids, the fingerprint of exactly those members, a log that
    ends at the pool's version, a delta cache within its limits that holds
    only what would be built again.  And every beat is answered: neither
    the delta cache nor the log panics, whatever the beat says. *)
Theorem registry_invariant ttl epoch r :
  rtc reg_step (new_registry ttl epoch) r →
  (∀ name, pool_ok (pool_of r name)) ∧
  ∀ now b, ∃ ack r' rung, beat_shared json_len why version_text r now b = Some (ack, r', rung).
Proof.
  intros Hs. destruct (reg_steps_evolve _ _ (new_registry_ok ttl epoch) Hs) as [He _].
  pose proof (evolve_ok _ _ He (new_registry_ok ttl epoch)) as Hr. split; [done|]. intros now b.
  destruct (beat_spec r now b Hr) as (ack & r' & rung & H & _). eauto.
Qed.

(** C8: a seat is never handed back: once a tenure of a seat was accepted, no
    beat of an earlier tenure of it is, however long ago the later one left
    and whatever happened in between; such a beat moves no member and no
    version of any pool, and wakes nobody. *)
Theorem earlier_tenure_refused ttl epoch r now b ack r1 rung r2 now' b' :
  rtc reg_step (new_registry ttl epoch) r →
  beat_shared json_len why version_text r now b = Some (ack, r1, rung) →
  ack_accepted ack = true → is_Some (b_slot b) → 0 < b_incarnation b →
  rtc reg_step r1 r2 →
  b_pool b' = b_pool b → b_id b' = b_id b → b_incarnation b' < b_incarnation b →
  ∃ ack' r3, beat_shared json_len why version_text r2 now' b' = Some (ack', r3, []) ∧
    ack_accepted ack' = false ∧
    ∀ name, rmembers (pool_of r3 name) = rmembers (pool_of r2 name) ∧
            rp_version (pool_of r3 name) = rp_version (pool_of r2 name).
Proof.
  intros Hs Hb Hacc Hslot Hpos Hs' Ep Ei Hlt.
  destruct (reg_steps_evolve _ _ (new_registry_ok ttl epoch) Hs) as [He _].
  pose proof (evolve_ok _ _ He (new_registry_ok ttl epoch)) as Hr.
  destruct (beat_spec r now b Hr) as (a & r1' & rg & Hb' & Hev & _ & _ & Hk).
  rewrite Hb in Hb'. injection Hb' as <- <- <-.
  destruct (Hk Hacc) as [_ Hhigh]. destruct (Hhigh Hslot Hpos) as (t & Ht & Hle).
  pose proof (evolve_ok _ _ Hev Hr) as Hr1. destruct (reg_steps_evolve _ _ Hr1 Hs') as [He' _].
  destruct (He' (b_pool b)) as [_ Hrise]. destruct (Hrise _ _ Ht) as (t' & Ht' & Hle').
  apply (fenced_beat r2 now' b' t'); [by apply (evolve_ok r1)|by rewrite Ep, Ei|lia].
Qed.

(** ** Parked callers *)

(** The parked caller stays parked while the pool stands still, and is woken
    when it moves. *)
Definition keeps (bell : nat) (p q : rpool) (rung : list nat) : Prop :=
  bell ∈ rp_waiters p → bell ∈ rung ∨ rp_version q = rp_version p ∧ bell ∈ rp_waiters q.

Lemma keeps_bump bell p q i : rp_waiters q = rp_waiters p → keeps bell p (bump i q).1 (bump i q).2.
Proof. intros Hw Hb. left. simpl. by rewrite Hw. Qed.

Lemma keeps_same bell p q rung :
  rp_version q = rp_version p → rp_waiters q = rp_waiters p → keeps bell p q rung.
Proof. intros Hv Hw Hb. right. by rewrite Hw. Qed.

Lemma keeps_trans bell p q r rung rung' :
  keeps bell p q rung → keeps bell q r rung' → keeps bell p r (rung ++ rung').
Proof.
  intros H1 H2 Hb. rewrite elem_of_app. destruct (H1 Hb) as [?|[Hv Hq]]; [by do 2 left|].
  destruct (H2 Hq) as [?|[Hv' Hr]]; [by left; right|]. right. by rewrite Hv'.
Qed.

Lemma remove_waiters p i : rp_waiters (remove_member p i) = rp_waiters p.
Proof. unfold remove_member. by destruct (_ !! _). Qed.

Lemma keeps_seat bell ttl now p b n :
  keeps bell p (take_seat ttl now p b n).1.2 (take_seat ttl now p b n).2.
Proof.
  unfold take_seat. destruct (superseded p b); [by apply keeps_same|]. cbv zeta.
  destruct (if b_leaving b then _ else _) as [p1 rung] eqn:E.
  assert (keeps bell p p1 rung) as H1.
  { change (keeps bell p (p1, rung).1 (p1, rung).2). rewrite <-E. clear E p1 rung.
    pose proof (remove_waiters p (b_id b)) as Hrm.
    assert (keeps bell p (arrive p b (now + ttl) n).1 (arrive p b (now + ttl) n).2) as Ha
      by (apply keeps_bump; exact Hrm).
    destruct (b_leaving b).
    - unfold goodbye. destruct (rp_members p !! b_id b); [|by apply keeps_same].
      intros Hb. left. simpl. by rewrite Hrm.
    - destruct (rp_members p !! b_id b) as [r|]; [|exact Ha]. destruct (_ =? _); [|exact Ha].
      unfold renew. cbv zeta. destruct (negb _); [by apply keeps_same|].
      destruct (_ && _); [by apply keeps_same|by apply keeps_bump]. }
  cbn [fst snd]. destruct (_ && _); [|done]. intros Hb. destruct (H1 Hb) as [?|[? ?]]; [by left|by right].
Qed.

Lemma keeps_sweep bell alive now p :
  alive bell = true → keeps bell p (sweep_pool alive now p).1 (sweep_pool alive now p).2.1.
Proof.
  intros Ha. unfold sweep_pool. cbv zeta. set (p0 := RPool _ _ _ _ _ _ _ _ _ _ _).
  apply (fold_left_ind (λ acc, keeps bell p acc.1 acc.2.1)).
  - intros Hb. right. split; [done|]. simpl. apply list_elem_of_In, filter_In. by split; [apply list_elem_of_In|].
  - intros [q [rung n]] i H. unfold expire. destruct (rp_members q !! i); [|done]. cbn [fst snd] in *.
    eapply keeps_trans; [exact H|]. apply (keeps_bump bell q (remove_member q i) i), remove_waiters.
Qed.

(** One step of the registry, and the caller parked at the pool [name]. *)
Lemma reg_act_keeps bell alive r rung r' name :
  reg_ok r → alive bell = true → reg_act alive r rung r' → keeps bell (pool_of r name) (pool_of r' name) rung.
Proof.
  intros Hr Hal Hact. destruct Hact as [now b ack r' rung E|now r' rung n E|watch bell'|b out r' E].
  - apply (beat_lift (λ rg p q, keeps bell p q rg) r now b ack r' rung Hr E).
    + intros rg p. by apply keeps_same.
    + intros rg p q q' H (_ & Hvis & _ & Hwt & _). injection Hvis as Ev _ _ _ _ _ _.
      rewrite <-(app_nil_r rg). eapply keeps_trans; [exact H|by apply keeps_same].
    + intros p p1 n Hsh. destruct (shape_same _ _ _ Hsh) as (_ & _ & Hv & Hw).
      apply (keeps_trans bell p p1 _ []); [by apply keeps_same|apply keeps_seat].
  - injection E as <- <- <-. intros Hb. unfold pool_of in *. simpl. rewrite !lookup_fmap.
    destruct (rg_pools r !! name) as [p|] eqn:Hp; simpl in *; [|by apply not_elem_of_nil in Hb].
    destruct (keeps_sweep bell alive now p Hal Hb) as [Hin|?]; [left|by right].
    apply list_elem_of_In, in_concat. exists (sweep_pool alive now p).2.1. split; [|by apply list_elem_of_In].
    apply in_map_iff. exists (name, sweep_pool alive now p). split; [done|].
    apply list_elem_of_In, elem_of_map_to_list. by rewrite lookup_fmap, Hp.
  - intros Hb. right. destruct (park_spec bell' watch (rg_pools r) name) as (Hv & _ & _ & _ & Hw & _).
    injection Hv as Ev _ _ _ _ _ _. split; [by symmetry|by apply Hw].
  - destruct (deltas_for_spec (b_watch b) (b_seen b) (rg_pools r) ∅ Hr) as (o & pools & E' & Hre & _).
    unfold deltas_shared_for in E. rewrite E' in E. injection E as <- <-.
    destruct (Hre name) as (_ & Hvis & _ & Hwt & _). injection Hvis as Ev _ _ _ _ _ _. by apply keeps_same.
Qed.

(** Nothing woke the caller. *)
Definition quiet (bell : nat) (r r' : registry) : Prop :=
  ∃ alive rung, reg_act alive r rung r' ∧ alive bell = true ∧ bell ∉ rung.

Lemma quiet_keeps bell r r' name :
  reg_ok r → rtc (quiet bell) r r' → bell ∈ rp_waiters (pool_of r name) →
  rp_version (pool_of r' name) = rp_version (pool_of r name).
Proof.
  intros Hr Hq. induction Hq as [r|r r1 r2 (alive & rung & Hact & Hal & Hno) _ IH]; [done|].
  intros Hb. destruct (reg_step_evolves r r1 Hr) as [Hev _]; [by exists alive, rung|].
  destruct (reg_act_keeps bell alive r rung r1 name Hr Hal Hact Hb) as [?|[Hv Hb1]]; [done|].
  by rewrite (IH (evolve_ok _ _ Hev Hr) Hb1).
Qed.

(** C32: a parked request misses nothing.  [hold] parks, then reads, then
    waits: if the read found nothing and the caller has not been woken since,
    then reading again would still find nothing, whoever beat, left or ran
    out of lease in the meantime. *)
Theorem parked_caller_not_missed ttl epoch r b bell r1 r2 :
  rtc reg_step (new_registry ttl epoch) r →
  deltas_shared_for (park r (b_watch b) bell) b = Some (∅, r1) →
  rtc (quiet bell) r1 r2 →
  ∃ r3, deltas_shared_for r2 b = Some (∅, r3).
Proof.
  intros Hs H1 Hq. destruct (reg_steps_evolve _ _ (new_registry_ok ttl epoch) Hs) as [He _].
  pose proof (evolve_ok _ _ He (new_registry_ok ttl epoch)) as Hr.
  pose proof (evolve_ok _ _ (park_pools r (b_watch b) bell) Hr) as Hp.
  set (r0 := park r (b_watch b) bell) in *. unfold deltas_shared_for in H1.
  destruct (deltas_for_spec (b_watch b) (b_seen b) (rg_pools r0) ∅ Hp) as (o & pools & E & Hre & _ & _ & Hout).
  rewrite E in H1. simpl in H1. injection H1 as -> <-. set (r1 := Registry_ pools _ _) in *.
  assert (reg_ok r1) as Hr1 by (intros name; destruct (Hre name) as (Hn & _ & _ & _); apply Hn, Hp).
  assert (reg_ok r2) as Hr2.
  { apply (evolve_ok r1); [|done]. apply reg_steps_evolve; [done|]. eapply rtc_subrel; [|exact Hq].
    intros x y (alive & rung & Hact & _). by exists alive, rung. }
  assert (∀ name, name ∈ b_watch b → b_seen b !! name = Some (rp_version (pool_of r2 name))) as Hsame.
  { intros name Hin. destruct (park_spec bell (b_watch b) (rg_pools r) name) as (_ & _ & _ & _ & _ & _ & Hw).
    destruct (Hw Hin) as [Hbell Hex]. destruct (Hre name) as (_ & Hvis & _ & Hwt & _).
    injection Hvis as Ev _ _ _ _ _ _. rewrite (quiet_keeps bell r1 r2 name Hr1 Hq).
    - specialize (Hout name Hin Hex (lookup_empty _)). rewrite lookup_empty in Hout.
      unfold answer in Hout. case_bool_decide as Hseen; [|done]. rewrite Hseen. f_equal. symmetry. exact Ev.
    - change (bell ∈ rp_waiters (pool_in pools name)). by rewrite Hwt. }
  unfold deltas_shared_for.
  destruct (deltas_for_spec (b_watch b) (b_seen b) (rg_pools r2) ∅ Hr2) as (o & ps & -> & _ & _ & Hany & _).
  eexists. simpl. do 2 f_equal. apply map_empty. intros name. destruct (Hany name) as [->|(Hin & _ & ->)]; [done|].
  unfold answer. rewrite (Hsame name Hin). by rewrite bool_decide_eq_true_2.
Qed.

(** ** Publications *)

(** Within a tenure: a later publication, or the one held and nothing moved. *)
Definition ordered (p q : rpool) : Prop :=
  ∀ i rec rec' h, rp_members p !! i = Some rec → rp_members q !! i = Some rec' →
    m_incarnation (rc_member rec') = m_incarnation (rc_member rec) → rc_publication rec = Some h →
    ∃ h', rc_publication rec' = Some h' ∧ (h < h' ∨ h' = h ∧ rc_member rec' = rc_member rec).

Lemma ordered_sub p q : rp_members q ⊆ rp_members p → ordered p q.
Proof.
  intros Hsub i rec rec' h Hp Hq _ Hh. pose proof (lookup_weaken _ _ _ _ Hq Hsub) as Hq'.
  rewrite Hp in Hq'. injection Hq' as ->. exists h. auto.
Qed.

Lemma ordered_insert p q i rec' :
  rp_members q = <[i := rec']> (rp_members p) →
  (∀ rec h, rp_members p !! i = Some rec → m_incarnation (rc_member rec') = m_incarnation (rc_member rec) →
     rc_publication rec = Some h →
     ∃ h', rc_publication rec' = Some h' ∧ (h < h' ∨ h' = h ∧ rc_member rec' = rc_member rec)) →
  ordered p q.
Proof.
  intros Hm Hi j rec rec2 h Hp Hq Hinc Hh. rewrite Hm in Hq. destruct (decide (j = i)) as [->|Hne].
  - rewrite lookup_insert_eq in Hq. injection Hq as <-. eauto.
  - rewrite lookup_insert_ne in Hq by done. rewrite Hp in Hq. injection Hq as ->. exists h. auto.
Qed.

Lemma remove_sub p i : rp_members (remove_member p i) = delete i (rp_members p).
Proof.
  unfold remove_member. destruct (rp_members p !! i) eqn:E; [done|]. by rewrite delete_id.
Qed.

Lemma ordered_renew p b r e n : rp_members p !! b_id b = Some r → ordered p (renew p b r e n).1.
Proof.
  intros Hr. unfold renew. cbv zeta.
  destruct (newer (rc_publication r) (b_publication b)) eqn:Hn; cbn [negb].
  2: { eapply ordered_insert; [reflexivity|]. intros rec h. rewrite Hr. intros [= <-] _ Hh. exists h. auto. }
  assert (∀ h, rc_publication r = Some h → ∃ h', b_publication b = Some h' ∧ h < h') as Hlt.
  { intros h Hh. rewrite Hh in Hn. unfold newer in Hn. destruct (b_publication b) as [h'|]; [|done].
    exists h'. by apply Z.ltb_lt in Hn. }
  destruct (_ && _); (eapply ordered_insert; [reflexivity|]; intros rec h; rewrite Hr; intros [= <-] _ Hh;
    destruct (Hlt h Hh) as (h' & ? & ?); exists h'; auto).
Qed.

Lemma ordered_seat ttl now p b n : ordered p (take_seat ttl now p b n).1.2.
Proof.
  unfold take_seat. destruct (superseded p b); [by apply ordered_sub|]. cbv zeta.
  destruct (if b_leaving b then _ else _) as [p1 rung] eqn:E.
  assert (ordered p p1) as H1.
  { change p1 with (p1, rung).1. rewrite <-E. clear E p1 rung.
    assert (∀ e, (∀ r, rp_members p !! b_id b = Some r → m_incarnation (rc_member r) ≠ b_incarnation b) →
      ordered p (arrive p b e n).1) as Ha.
    { intros e Hne. eapply ordered_insert; [simpl; rewrite remove_sub; apply insert_delete_eq|].
      intros rec h Hrec Hinc. simpl in Hinc. by destruct (Hne rec Hrec). }
    destruct (b_leaving b).
    - apply ordered_sub. unfold goodbye. destruct (rp_members p !! b_id b); [|done].
      simpl. rewrite remove_sub. apply delete_subseteq.
    - destruct (rp_members p !! b_id b) as [r|] eqn:Hr; [|by apply Ha].
      destruct (Z.eqb_spec (m_incarnation (rc_member r)) (b_incarnation b)); [by apply ordered_renew|].
      apply Ha. by intros r' [= <-]. }
  cbn [fst snd]. by destruct (_ && _).
Qed.

Lemma sweep_sub alive now p : rp_members (sweep_pool alive now p).1 ⊆ rp_members p.
Proof.
  unfold sweep_pool. cbv zeta. apply (fold_left_ind (λ acc, rp_members acc.1 ⊆ rp_members p)); [done|].
  intros [q [rung n]] i H. unfold expire. destruct (rp_members q !! i); [|done].
  simpl. rewrite remove_sub. etransitivity; [apply delete_subseteq|exact H].
Qed.

Lemma step_ordered r r' name : reg_ok r → reg_step r r' → ordered (pool_of r name) (pool_of r' name).
Proof.
  intros Hr (alive & rung & Hact).
  destruct Hact as [now b ack r' rung E|now r' rung n E|watch bell|b out r' E].
  - apply (beat_lift (λ _, ordered) r now b ack r' rung Hr E).
    + intros _ p. by apply ordered_sub.
    + intros _ p q q' H (_ & _ & _ & _ & Hm). unfold ordered. by rewrite Hm.
    + intros p p1 n Hsh. destruct (shape_same _ _ _ Hsh) as (_ & Hm & _ & _).
      pose proof (ordered_seat (rg_ttl r) now p1 b n) as H. unfold ordered in *. by rewrite Hm in H.
  - injection E as <- <- <-. unfold pool_of. simpl. rewrite !lookup_fmap.
    destruct (rg_pools r !! name) as [p|]; simpl; [apply ordered_sub, sweep_sub|by apply ordered_sub].
  - destruct (park_spec bell watch (rg_pools r) name) as (_ & _ & _ & Hm & _). apply ordered_sub.
    change (rp_members (pool_in (fold_left (park_at bell) watch (rg_pools r)) name) ⊆
            rp_members (pool_in (rg_pools r) name)). by rewrite Hm.
  - destruct (deltas_for_spec (b_watch b) (b_seen b) (rg_pools r) ∅ Hr) as (o & pools & E' & Hre & _).
    unfold deltas_shared_for in E. rewrite E' in E. injection E as <- <-.
    destruct (Hre name) as (_ & _ & _ & _ & Hm). apply ordered_sub. unfold pool_in, pool_of in *. simpl. by rewrite Hm.
Qed.

(** What a tenure shows moves only forward.  Between one moment of the
    registry and the next, a member that keeps its tenure shows a publication
    that is later than the one held, or the one held with its url, state and
    readiness untouched: a beat that was overtaken on the way renews the
    lease and nothing else. *)
Theorem publications_only_advance ttl epoch r r' name i rec rec' h :
  rtc reg_step (new_registry ttl epoch) r → reg_step r r' →
  rp_members (pool_of r name) !! i = Some rec → rp_members (pool_of r' name) !! i = Some rec' →
  m_incarnation (rc_member rec') = m_incarnation (rc_member rec) → rc_publication rec = Some h →
  ∃ h', rc_publication rec' = Some h' ∧ (h < h' ∨ h' = h ∧ rc_member rec' = rc_member rec).
Proof.
  intros Hs Hstep. apply step_ordered; [|done].
  destruct (reg_steps_evolve _ _ (new_registry_ok ttl epoch) Hs) as [He _]. apply (evolve_ok _ _ He), new_registry_ok.
Qed.
End Life.

(** ** Examples *)

(** A registry whose beats are all two bytes of state. *)
Definition demo_len : value → Z := λ _, 2.
Definition demo_why : rpool → beat → pystr := λ _ _, [].
Definition demo_pool : pystr := u "p".

Definition demo_beat (tenure publication : Z) (ready leaving : bool) (seen : gmap pystr Z) : beat :=
  Beat demo_pool (Some 0) 7 tenure (Some publication) (u "r") None None (Object []) ready leaving false []
    [demo_pool] seen.

Definition demo_shared (r : registry) (now : Z) (b : beat) : option (beat_ack * registry * list nat) :=
  beat_shared demo_len demo_why [] r now b.

Definition demo_after (r : registry) (now : Z) (b : beat) : registry :=
  match demo_shared r now b with Some (_, r', _) => r' | None => r end.

Lemma demo_steps r now b : rtc (reg_step demo_len demo_why []) r (demo_after r now b).
Proof.
  unfold demo_after. destruct (demo_shared r now b) as [[[ack r'] rung]|] eqn:E; [|done].
  apply rtc_once. exists (λ _, true), rung. by apply (act_beat _ _ _ _ _ now b ack).
Qed.

(** Somebody arrives and says goodbye. *)
Definition demo_first : registry := demo_after (new_registry 1000 3) 0 (demo_beat 5 0 true false ∅).
Definition demo_second : registry := demo_after demo_first 10 (demo_beat 5 1 true true ∅).

Lemma demo_first_steps : rtc (reg_step demo_len demo_why []) (new_registry 1000 3) demo_first.
Proof. apply demo_steps. Qed.

Lemma demo_second_steps : rtc (reg_step demo_len demo_why []) (new_registry 1000 3) demo_second.
Proof. etransitivity; [apply demo_first_steps|apply demo_steps]. Qed.

Lemma registry_invariant_witness :
  rp_version (pool_of demo_second demo_pool) = 2 ∧ pool_ok (pool_of demo_second demo_pool).
Proof.
  split; [vm_compute; reflexivity|].
  apply (registry_invariant demo_len demo_why [] 1000 3 demo_second demo_second_steps).
Defined.

(** The tenure that left still bars the one before it. *)
Lemma earlier_tenure_refused_witness :
  ∃ ack r, demo_shared demo_second 20 (demo_beat 4 9 true false ∅) = Some (ack, r, []) ∧ ack_accepted ack = false.
Proof.
  destruct (demo_shared (new_registry 1000 3) 0 (demo_beat 5 0 true false ∅)) as [[[ack r1] rung]|] eqn:E.
  - assert (r1 = demo_first) as -> by (unfold demo_first, demo_after; by rewrite E).
    destruct (earlier_tenure_refused demo_len demo_why [] 1000 3 (new_registry 1000 3) 0 (demo_beat 5 0 true false ∅)
      ack demo_first rung demo_second 20 (demo_beat 4 9 true false ∅)) as (ack' & r3 & H & Hn & _).
    + apply rtc_refl.
    + exact E.
    + vm_compute in E. injection E as <- _. reflexivity.
    + by eexists.
    + reflexivity.
    + apply demo_steps.
    + reflexivity.
    + reflexivity.
    + reflexivity.
    + exists ack', r3. by split.
  - vm_compute in E. discriminate E.
Defined.

(** A subscriber that is up to date is parked. *)
Lemma parked_caller_not_missed_witness :
  ∃ r, deltas_shared_for
         (sweep (λ _, true) 20 (park demo_first [demo_pool] 1)).1
         (demo_beat 5 0 true false (<[demo_pool := 1]> ∅)) = Some (∅, r).
Proof.
  set (b := demo_beat 5 0 true false (<[demo_pool := 1]> ∅)).
  destruct (deltas_shared_for (park demo_first (b_watch b) 1) b) as [[out r1]|] eqn:E.
  - assert (out = ∅) as -> by (vm_compute in E; by injection E as <- _).
    assert (r1 = park demo_first (b_watch b) 1) as -> by (vm_compute in E; injection E as <-; vm_compute; reflexivity).
    apply (parked_caller_not_missed demo_len demo_why [] 1000 3 demo_first b 1 _ _ demo_first_steps E).
    apply rtc_once. exists (λ _, true), []. split_and!; [|reflexivity|apply not_elem_of_nil].
    apply (act_sweep _ _ _ _ _ 20 _ _ 0). vm_compute. reflexivity.
  - vm_compute in E. discriminate E.
Defined.

(** A beat overtaken on the way leaves what is shown. *)
Definition demo_third : registry := demo_after demo_first 10 (demo_beat 5 4 false false ∅).
Definition demo_stale : registry := demo_after demo_third 20 (demo_beat 5 2 true false ∅).

Lemma publications_only_advance_witness :
  ∃ h, rc_publication <$> rp_members (pool_of demo_stale demo_pool) !! 7 = Some (Some h) ∧ 4 ≤ h.
Proof.
  destruct (rp_members (pool_of demo_third demo_pool) !! 7) as [rec|] eqn:E; [|vm_compute in E; discriminate E].
  destruct (rp_members (pool_of demo_stale demo_pool) !! 7) as [rec'|] eqn:E'; [|vm_compute in E'; discriminate E'].
  destruct (demo_shared demo_third 20 (demo_beat 5 2 true false ∅)) as [[[ack r'] rung]|] eqn:Eb;
    [|vm_compute in Eb; discriminate Eb].
  destruct (publications_only_advance demo_len demo_why [] 1000 3 demo_third demo_stale demo_pool 7 rec rec' 4)
    as (h & Hh & Hle).
  - etransitivity; [apply demo_first_steps|apply demo_steps].
  - exists (λ _, true), rung. apply (act_beat _ _ _ _ _ 20 (demo_beat 5 2 true false ∅) ack).
    unfold demo_stale, demo_after. rewrite Eb. exact Eb.
  - exact E.
  - exact E'.
  - vm_compute in E, E'. injection E as <-. injection E' as <-. reflexivity.
  - vm_compute in E. injection E as <-. reflexivity.
  - exists h. split; [simpl; by rewrite Hh|]. destruct Hle as [Hlt|[-> _]]; lia.
Defined.
