(* ===== verification/Sync.v ===== *)
(** * A client's copy of a pool

    The registry ([Registry]) and the client's cache ([Cache], [Shared])
    together: beats and answers on the wire, in any order, some of them lost
    or parked.  A copy is always one past state of the registry's pool,
    complete and unmixed, whichever deltas it was put together from; copies
    only move forward; and one answered beat brings a copy up to date. *)

From S2P Require Import Prelude PyStr PyFloat Errors Identity Json Cache Shared Registry.
From stdpp Require Import sorting.

Local Open Scope Z_scope.

(** ** Beats and answers on the wire *)

(** What a session never changes about itself. *)
Record seat := Seat {
  st_slot : option Z;
  st_id : Z;
  st_incarnation : Z;
  st_policy : pystr;
  st_size : option Z;
  st_exclusive : bool;
  st_methods : list pystr
}.

(** The versions a beat says it has. *)
Definition seen_of (s : shared) : gmap pystr Z :=
  list_to_map (omap (λ n, (λ c, (n, cp_version c)) <$> sh_cache s !! n) (sh_watch s)).

(** [Shared::compose] *)
Definition compose (st : seat) (leaving : bool) (s : shared) : beat :=
  let p := sh_published s in
  {| b_pool := sh_pool s; b_slot := st_slot st; b_id := st_id st; b_incarnation := st_incarnation st;
     b_publication := Some (pb_version p); b_policy := st_policy st; b_size := st_size st;
     b_url := pb_url p; b_state := pb_state p; b_ready := pb_ready p; b_leaving := leaving;
     b_exclusive := st_exclusive st; b_methods := st_methods st; b_watch := sh_watch s;
     b_seen := seen_of s |}.

(** A request, a request parked at the registry with the answer it has so
    far, an answer on its way back; each with the beat it goes back to. *)
Inductive message :=
| Request (b : beat)
| Parked (b : beat) (ack : beat_ack)
| Reply (b : beat) (ack : beat_ack).

(** [ack.pools = fresh] *)
Definition with_pools (ack : beat_ack) (pools : gmap pystr pool_delta) : beat_ack :=
  BeatAck (ack_epoch ack) (ack_protocol ack) (ack_version ack) (ack_ttl_ms ack) (ack_accepted ack)
    (ack_refused ack) (map_to_list pools).

(** The registry, one client of it, what is between them, and -- nothing any
    of them can read -- every state the registry has been in. *)
Record system := System {
  sy_registry : registry;
  sy_client : shared;
  sy_wire : list message;
  sy_past : list registry
}.

(** ** Deltas *)

(** [c] is the pool as it stands in [p]. *)
Record copy_of (c : cached_pool) (p : rpool) : Prop := {
  cy_version : cp_version c = rp_version p;
  cy_members : cp_members c = rmembers p;
  cy_roster : cp_roster c = rp_roster p;
  cy_methods : cp_methods c = rp_methods p;
  cy_size : cp_size c = rp_size p;
  cy_ok : cache_ok c
}.

Lemma fold_changed l a (ms : gmap Z member) :
  (∀ m, m ∈ l → ms !! m_id m = Some m) →
  ∀ i, ap_members (fold_left apply_changed l a) !! i =
       if decide (i ∈ map m_id l) then ms !! i else ap_members a !! i.
Proof.
  revert a. induction l as [|m l IH]; intros a Hl i; cbn [map fold_left].
  { rewrite decide_False; [done|]. by intros ?%not_elem_of_nil. }
  rewrite IH by (intros; apply Hl; by right). cbn [apply_changed ap_members]. destruct (decide (i ∈ map m_id l)) as [Hin|Hout].
  - rewrite decide_True; [done|]. by right.
  - destruct (decide (i = m_id m)) as [->|Hne].
    + rewrite lookup_insert_eq, decide_True by (by left). symmetry. apply Hl. by left.
    + rewrite lookup_insert_ne, decide_False; [done| |done]. by intros [?|?]%elem_of_cons.
Qed.

Lemma fold_removed l a i :
  ap_members (fold_left apply_removed l a) !! i = if decide (i ∈ l) then None else ap_members a !! i.
Proof.
  revert a. induction l as [|j l IH]; intros a; cbn [fold_left].
  { rewrite decide_False; [done|]. by intros ?%not_elem_of_nil. }
  rewrite IH.
  assert (ap_members (apply_removed a j) !! i = if decide (i = j) then None else ap_members a !! i) as ->.
  { unfold apply_removed. destruct (ap_members a !! j) eqn:Hj; cbn [ap_members];
      destruct (decide (i = j)) as [->|Hne]; [apply lookup_delete_eq|by apply lookup_delete_ne|done|done]. }
  destruct (decide (i ∈ l)) as [Hin|Hout]; [by rewrite decide_True by (by right)|].
  destruct (decide (i = j)) as [->|Hne]; [by rewrite decide_True by (by left)|].
  rewrite decide_False; [done|]. by intros [?|?]%elem_of_cons.
Qed.

Lemma dedup_elem l i : i ∈ dedup l ↔ i ∈ l.
Proof.
  induction l as [|x l IH]; [done|]. destruct l as [|y l]; [done|].
  change (i ∈ (if x =? y then dedup (y :: l) else x :: dedup (y :: l)) ↔ i ∈ x :: y :: l).
  destruct (Z.eqb_spec x y) as [->|Hne].
  - rewrite IH, (elem_of_cons (y :: l)). split; [by right|]. intros [->|?]; [by left|done].
  - rewrite !(elem_of_cons _ _ x), IH. done.
Qed.

(** Every version after [v] is one the delta looks at. *)
Lemma ids_since_elem p v w i :
  pool_ok p → oldest p ≤ v + 1 → v < w → (w, i) ∈ rp_log p → i ∈ ids_since p v.
Proof.
  intros Hp Hold Hlt Hin. unfold ids_since. rewrite dedup_elem, merge_sort_Permutation.
  apply list_elem_of_lookup in Hin as [k Hk]. pose proof (po_log _ Hp k w i Hk) as Hw.
  apply list_elem_of_fmap. exists (w, i). split; [done|]. apply list_elem_of_lookup.
  set (n := Z.to_nat (v + 1 - oldest p)). exists (k - n)%nat. rewrite lookup_drop.
  replace (n + (k - n))%nat with k; [done|].
  assert (n ≤ k)%nat; [|lia]. pose proof (oldest_value p Hp) as Ho. rewrite decide_False in Ho.
  - unfold n. lia.
  - intros He. by rewrite He in Hk.
Qed.

(** The members a full delta brings. *)
Lemma full_members c p : pool_ok p →
  ap_members (apply_loops c (build_delta p None).1) = rmembers p.
Proof.
  intros Hp. apply map_eq. intros i. unfold apply_loops. simpl.
  rewrite (fold_changed _ _ (rmembers p)).
  - simpl. rewrite lookup_empty. case_decide as Hin; [done|]. symmetry.
    destruct (rmembers p !! i) as [m|] eqn:Hm; [exfalso; apply Hin|done].
    pose proof (po_ids _ Hp i m Hm) as <-. unfold rmembers in Hm. rewrite lookup_fmap in Hm.
    apply fmap_Some in Hm as (r & Hr & Em). apply list_elem_of_In, in_map, in_map_iff.
    exists r. split; [done|]. apply list_elem_of_In, list_elem_of_fmap. exists (m_id m, r).
    split; [done|]. by apply elem_of_map_to_list.
  - intros m Hin. apply list_elem_of_In, in_map_iff in Hin as (r & <- & Hr%list_elem_of_In).
    apply list_elem_of_fmap in Hr as ([k r'] & -> & Hk%elem_of_map_to_list). simpl in *.
    assert (rmembers p !! k = Some (rc_member r')) as Hm by (unfold rmembers; by rewrite lookup_fmap, Hk).
    by rewrite (po_ids _ Hp k _ Hm).
Qed.

(** The members an incremental delta brings to a copy of [p1], which is no
    older than the version the delta starts from. *)
Lemma incremental_members c p1 p v :
  pool_ok p → tracks p1 p → cp_members c = rmembers p1 → v ≤ rp_version p1 → oldest p ≤ v + 1 →
  ap_members (apply_loops c (build_delta p (Some v)).1) = rmembers p.
Proof.
  intros Hp [_ Ht] Hc Hv Hold. apply map_eq. intros i. unfold apply_loops. cbn [build_delta fst d_full d_removed d_changed].
  rewrite fold_removed, (fold_changed _ _ (rmembers p)).
  - cbn [ap_members]. rewrite Hc. case_decide as Hrm.
    + apply list_elem_of_In, filter_In in Hrm as [_ Hrm%bool_decide_eq_true].
      unfold rmembers. by rewrite lookup_fmap, Hrm.
    + case_decide as Hch; [done|]. destruct (Ht ltac:(lia) i) as [->|(w & Hlt & Hin)]; [done|exfalso].
      assert (i ∈ ids_since p v) as Hi by (apply (ids_since_elem p v w i); [done|done|lia|done]).
      destruct (rp_members p !! i) as [r|] eqn:Hr.
      * apply Hch. apply list_elem_of_In, in_map_iff. exists (rc_member r). split.
        -- apply (po_ids _ Hp). unfold rmembers. by rewrite lookup_fmap, Hr.
        -- apply in_map_iff. exists r. split; [done|]. apply list_elem_of_In, list_elem_of_omap. by exists i.
      * apply Hrm. apply list_elem_of_In, filter_In. split; [by apply list_elem_of_In|].
        by rewrite bool_decide_eq_true, Hr.
  - intros m Hin. apply list_elem_of_In, in_map_iff in Hin as (r & <- & Hr%list_elem_of_In).
    apply list_elem_of_omap in Hr as (k & _ & Hk).
    assert (rmembers p !! k = Some (rc_member r)) as Hm by (unfold rmembers; by rewrite lookup_fmap, Hk).
    by rewrite (po_ids _ Hp k _ Hm).
Qed.

(** Applying an answer: a copy of [p1] that has seen [seen] becomes a copy of
    [p], which gave the answer. *)
Lemma apply_answer c p1 p seen d :
  pool_ok p → cache_ok c →
  answer p seen = Some d →
  (∀ v, seen = Some v → copy_of c p1 ∧ tracks p1 p ∧ v ≤ rp_version p1) →
  copy_of (Cache.apply c d) p.
Proof.
  intros Hp Hc Ha Hseen. unfold answer in Ha. case_bool_decide as Hne; [done|]. injection Ha as <-.
  assert (ap_members (apply_loops c (build_delta p (cursor p seen)).1) = rmembers p) as Hm.
  { destruct (cursor p seen) as [v|] eqn:Hcur; [|by apply full_members].
    unfold cursor in Hcur. destruct seen as [v'|]; [|done]. simpl in Hcur.
    destruct ((v' <? rp_version p) && (oldest p <=? v' + 1)) eqn:E; [|done]. injection Hcur as <-.
    apply andb_true_iff in E as [_ E%Z.leb_le]. destruct (Hseen v' eq_refl) as ([_ Hcm _ _ _ _] & Ht & Hle).
    by apply (incremental_members c p1). }
  split; [..|by apply apply_cache_ok]; [|exact Hm|..]; by destruct (cursor p seen).
Qed.

(** Two states of one pool. *)
Lemma tracks_back p q : pool_ok q → tracks p q → rp_version q ≤ rp_version p →
  rmembers q = rmembers p ∧ tracks q p.
Proof.
  intros Hq [Hv Ht] Hle. assert (rmembers q = rmembers p) as Hm.
  { apply map_eq. intros i. destruct (Ht) with (i := i) as [?|(w & Hlt & Hin)]; [|done|].
    - rewrite (oldest_value q Hq). case_decide; pose proof (po_length _ Hq); [lia|].
      destruct (rp_log q); [done|]. simpl length. lia.
    - pose proof (log_bounds q w i Hq Hin). lia. }
  split; [done|]. split; [lia|]. intros _ i. left. by rewrite Hm.
Qed.

(** ** One registry, one client *)

Section System.
Context (json_len : value → Z) (why : rpool → beat → pystr) (version_text : pystr) (st : seat).

Notation beat_shared := (beat_shared json_len why version_text).
Notation reg_step := (reg_step json_len why version_text).

(** What can happen. *)
Inductive sys_step : system → system → Prop :=
| sys_others r s w past r' :                  (* other members, the sweeper *)
    reg_step r r' → sys_step (System r s w past) (System r' s w (past ++ [r']))
| sys_compose r s w past leaving :            (* the client sends a beat *)
    sys_step (System r s w past) (System r s (w ++ [Request (compose st leaving s)]) past)
| sys_answer r s pre b post past now ack r' rung :
    beat_shared r now b = Some (ack, r', rung) →
    sys_step (System r s (pre ++ Request b :: post) past)
             (System r' s (pre ++ Reply b ack :: post) (past ++ [r']))
| sys_hold r s pre b post past now ack r' rung bell : (* accepted, and nothing to tell yet *)
    beat_shared r now b = Some (ack, r', rung) → ack_accepted ack = true → ack_pools ack = [] →
    sys_step (System r s (pre ++ Request b :: post) past)
             (System (park r' (b_watch b) bell) s (pre ++ Parked b ack :: post)
                (past ++ [r'; park r' (b_watch b) bell]))
| sys_fresh r s pre b ack post past out r' :  (* there is something to tell *)
    deltas_shared_for r b = Some (out, r') →
    sys_step (System r s (pre ++ Parked b ack :: post) past)
             (System r' s (pre ++ Reply b (with_pools ack out) :: post) (past ++ [r']))
| sys_expired r s pre b ack post past :       (* parked long enough *)
    sys_step (System r s (pre ++ Parked b ack :: post) past)
             (System r s (pre ++ Reply b ack :: post) past)
| sys_deliver r s pre b ack post past showing in_flight :
    sys_step (System r s (pre ++ Reply b ack :: post) past)
             (System r (beat_landed s showing in_flight ack) (pre ++ post) past)
| sys_lost r s pre m post past :              (* lost, or abandoned by the client *)
    sys_step (System r s (pre ++ m :: post) past) (System r s (pre ++ post) past)
| sys_client r s w past s' :                  (* the client publishes, watches, waits *)
    sh_cache s' = sh_cache s → sh_seen_epoch s' = sh_seen_epoch s →
    sys_step (System r s w past) (System r s' w past).

(** A registry and a client that have just started. *)
Definition sys_start (ttl epoch : Z) (pool : pystr) (url : option pystr) : system :=
  let r := new_registry ttl epoch in System r (new_shared pool url) [] [r].

(** What a beat says it has seen, the client has, or had and moved on from. *)
Definition based (b : beat) (cache : gmap pystr cached_pool) : Prop :=
  ∀ name v, b_seen b !! name = Some v → ∃ c, cache !! name = Some c ∧ v ≤ cp_version c.

(** An answer says what some past state of the registry would. *)
Definition answered (past : list registry) (b : beat) (ack : beat_ack) : Prop :=
  ∀ name d, (name, d) ∈ ack_pools ack →
    ∃ r, r ∈ past ∧ answer (pool_of r name) (b_seen b !! name) = Some d.

Definition message_ok (epoch : Z) (past : list registry) (cache : gmap pystr cached_pool) (m : message) : Prop :=
  match m with
  | Request b => based b cache
  | Parked b ack | Reply b ack => based b cache ∧ ack_epoch ack = epoch ∧ answered past b ack
  end.

(** The past of a registry: every state sound, and of two states the one with
    the later version tracks the other. *)
Record past_ok (past : list registry) (r : registry) : Prop := {
  pa_now : r ∈ past;
  pa_sound : ∀ r', r' ∈ past → reg_ok r';
  pa_tracks : ∀ r1 r2 name, r1 ∈ past → r2 ∈ past →
    rp_version (pool_of r1 name) ≤ rp_version (pool_of r2 name) → tracks (pool_of r1 name) (pool_of r2 name);
  pa_latest : ∀ r' name, r' ∈ past → tracks (pool_of r' name) (pool_of r name)
}.

Definition copies (past : list registry) (cache : gmap pystr cached_pool) : Prop :=
  ∀ name c, cache !! name = Some c → ∃ r, r ∈ past ∧ copy_of c (pool_of r name).

Record sys_ok (epoch : Z) (s : system) : Prop := {
  so_past : past_ok (sy_past s) (sy_registry s);
  so_epoch : rg_epoch (sy_registry s) = epoch;
  so_seen : sh_seen_epoch (sy_client s) = 0 ∨ sh_seen_epoch (sy_client s) = epoch;
  so_copies : copies (sy_past s) (sh_cache (sy_client s));
  so_wire : Forall (message_ok epoch (sy_past s) (sh_cache (sy_client s))) (sy_wire s)
}.

Lemma past_extend past r r' : past_ok past r → pools_evolve r r' → past_ok (past ++ [r']) r'.
Proof.
  intros [Hnow Hsound Htr Hlast] Hev.
  assert (reg_ok r') as Hr' by (apply (evolve_ok r); [done|by apply Hsound]).
  assert (∀ x name, x ∈ past → tracks (pool_of x name) (pool_of r' name)) as Hlast'.
  { intros x name Hx. destruct (Hev name) as [He _]. apply (He (Hsound r Hnow name)). by apply Hlast. }
  split.
  - apply elem_of_app. right. by left.
  - intros x [Hx| ->%list_elem_of_singleton]%elem_of_app; [by apply Hsound|done].
  - intros x y name [Hx| ->%list_elem_of_singleton]%elem_of_app [Hy| ->%list_elem_of_singleton]%elem_of_app Hle;
      [by apply Htr|by apply Hlast'| |apply tracks_refl].
    apply tracks_back; [apply Hr'|by apply Hlast'|done].
  - intros x name [Hx| ->%list_elem_of_singleton]%elem_of_app; [by apply Hlast'|apply tracks_refl].
Qed.

Lemma message_ok_past epoch past past' cache m :
  past ⊆ past' → message_ok epoch past cache m → message_ok epoch past' cache m.
Proof.
  intros Hsub. assert (∀ b ack, answered past b ack → answered past' b ack) as Ha.
  { intros b ack H name d Hin. destruct (H name d Hin) as (r & Hr & ?). exists r. auto. }
  destruct m; simpl; [done| |]; intros (? & ? & ?); auto.
Qed.

Lemma copies_past past past' cache : past ⊆ past' → copies past cache → copies past' cache.
Proof. intros Hsub H name c Hc. destruct (H name c Hc) as (r & ? & ?). eauto. Qed.

(** Copies only move forward. *)
Definition grows (cache cache' : gmap pystr cached_pool) : Prop :=
  ∀ name c, cache !! name = Some c → ∃ c', cache' !! name = Some c' ∧ cp_version c ≤ cp_version c'.

#[local] Instance grows_preorder : PreOrder grows.
Proof.
  split; [intros cache name c Hc; by exists c|]. intros x y z H1 H2 name c Hc.
  destruct (H1 name c Hc) as (c1 & Hc1 & ?). destruct (H2 name c1 Hc1) as (c2 & ? & ?). exists c2. split; [done|lia].
Qed.

Lemma message_ok_grows epoch past cache cache' m :
  grows cache cache' → message_ok epoch past cache m → message_ok epoch past cache' m.
Proof.
  intros Hg. assert (∀ b, based b cache → based b cache') as Hb.
  { intros b H name v Hv. destruct (H name v Hv) as (c & Hc & ?). destruct (Hg name c Hc) as (c' & ? & ?).
    exists c'. split; [done|lia]. }
  destruct m; simpl; [auto| |]; intros (? & ? & ?); auto.
Qed.

(** One pool of an answer. *)
Lemma apply_pool_ok past r b name d cache changed :
  past_ok past r → copies past cache → based b cache →
  (∃ r', r' ∈ past ∧ answer (pool_of r' name) (b_seen b !! name) = Some d) →
  let cache' := (apply_pool false (cache, changed) (name, d)).1 in
  copies past cache' ∧ grows cache cache' ∧
  ∃ c', cache' !! name = Some c' ∧ d_version d ≤ cp_version c'.
Proof.
  intros Hpast Hcopies Hbase (r' & Hr' & Hans). cbv zeta. unfold apply_pool. cbn [andb].
  set (c := default empty_pool (cache !! name)).
  assert (pool_ok (pool_of r' name)) as Hp by (by apply (pa_sound _ _ Hpast)).
  assert (d_version d = rp_version (pool_of r' name)) as Hdv.
  { unfold answer in Hans. case_bool_decide; [done|]. injection Hans as <-. by destruct (cursor _ _). }
  assert (0 ≤ d_version d) as Hpos by (rewrite Hdv; pose proof (po_length _ Hp); lia).
  destruct (Z.ltb_spec (d_version d) (cp_version c)) as [Hlt|Hge]; cbn [fst].
  - unfold c in *. destruct (cache !! name) as [c0|] eqn:Hc; simpl in *; [|lia].
    rewrite insert_id by done. split_and!; [done|done|]. exists c0. split; [done|lia].
  - assert (copy_of (Cache.apply c d) (pool_of r' name)) as Hcopy.
    { destruct (cache !! name) as [c0|] eqn:Hc; simpl in c; subst c.
      - destruct (Hcopies name c0 Hc) as (r1 & Hr1 & Hc1).
        apply (apply_answer c0 (pool_of r1 name) _ (b_seen b !! name)); [done|apply Hc1|done|].
        intros v Hv. destruct (Hbase name v Hv) as (c2 & Hc2 & Hle). rewrite Hc in Hc2. injection Hc2 as <-.
        pose proof (cy_version _ _ Hc1) as Hv1. split_and!; [done| |lia].
        apply (pa_tracks _ _ Hpast); [done|done|lia].
      - apply (apply_answer empty_pool (pool_of r' name) _ (b_seen b !! name)); [done|apply empty_pool_ok|done|].
        intros v Hv. destruct (Hbase name v Hv) as (c2 & Hc2 & _). congruence. }
    split_and!.
    + intros n c2. destruct (decide (n = name)) as [->|Hne].
      * rewrite lookup_insert_eq. intros [= <-]. by exists r'.
      * rewrite lookup_insert_ne by done. apply Hcopies.
    + intros n c2 Hc2. destruct (decide (n = name)) as [->|Hne].
      * rewrite lookup_insert_eq. eexists. split; [done|]. unfold c in Hge. rewrite Hc2 in Hge. exact Hge.
      * rewrite lookup_insert_ne by done. by exists c2.
    + rewrite lookup_insert_eq. eexists. by split.
Qed.

Lemma based_grows b cache cache' : grows cache cache' → based b cache → based b cache'.
Proof. intros Hg Hb. exact (message_ok_grows 0 [] cache cache' (Request b) Hg Hb). Qed.

(** All pools of an answer. *)
Lemma apply_pools_ok past r b pools cache changed :
  past_ok past r → copies past cache → based b cache →
  (∀ name d, (name, d) ∈ pools → ∃ r', r' ∈ past ∧ answer (pool_of r' name) (b_seen b !! name) = Some d) →
  let cache' := (fold_left (apply_pool false) pools (cache, changed)).1 in
  copies past cache' ∧ grows cache cache' ∧
  ∀ name d, (name, d) ∈ pools → ∃ c', cache' !! name = Some c' ∧ d_version d ≤ cp_version c'.
Proof.
  intros Hpast. cbv zeta. revert cache changed. induction pools as [|[n d] pools IH]; intros cache changed Hc Hb Hans.
  { split_and!; [done|done|]. intros name d Hin. by apply not_elem_of_nil in Hin. }
  cbn [fold_left].
  destruct (apply_pool_ok past r b n d cache changed Hpast Hc Hb) as (Hc1 & Hg1 & Hv1); [apply Hans; by left|].
  destruct (apply_pool false (cache, changed) (n, d)) as [cache1 changed1]. cbn [fst] in *.
  destruct (IH cache1 changed1) as (Hc2 & Hg2 & Hv2);
    [done|by apply (based_grows b cache)|intros; apply Hans; by right|].
  split_and!; [done|by transitivity cache1|]. intros name d' [[= -> ->]|Hin]%elem_of_cons; [|by apply Hv2].
  destruct Hv1 as (c' & Hc' & ?). destruct (Hg2 _ _ Hc') as (c2 & ? & ?). exists c2. split; [done|lia].
Qed.

(** A delivered answer. *)
Lemma landed_ok epoch past r b ack s showing in_flight :
  past_ok past r → copies past (sh_cache s) → based b (sh_cache s) →
  (sh_seen_epoch s = 0 ∨ sh_seen_epoch s = epoch) → ack_epoch ack = epoch → answered past b ack →
  let s' := beat_landed s showing in_flight ack in
  copies past (sh_cache s') ∧ grows (sh_cache s) (sh_cache s') ∧ sh_seen_epoch s' = epoch ∧
  (ack_accepted ack = true → ∀ name d, (name, d) ∈ ack_pools ack →
     ∃ c', sh_cache s' !! name = Some c' ∧ d_version d ≤ cp_version c').
Proof.
  intros Hpast Hc Hb Hep Hack Hans. cbv zeta. unfold beat_landed, apply_ack.
  assert (negb (sh_seen_epoch s =? 0) && negb (sh_seen_epoch s =? ack_epoch ack) = false) as ->.
  { rewrite Hack. destruct Hep as [->| ->]; [done|]. by rewrite Z.eqb_refl, andb_false_r. }
  cbn [andb]. destruct (ack_accepted ack); cbn [negb].
  - destruct (apply_pools_ok past r b (ack_pools ack) (sh_cache s) false Hpast Hc Hb Hans) as (H1 & H2 & H3).
    destruct (fold_left _ _ _) as [cache' changed']. cbn [fst] in *.
    destruct changed'; simpl; auto.
  - destruct (false || sh_accepted s); simpl; by split_and!.
Qed.

(** What a beat says it has seen of a pool it has a copy of. *)
Lemma seen_exact leaving s name v :
  b_seen (compose st leaving s) !! name = Some v → ∃ c, sh_cache s !! name = Some c ∧ cp_version c = v.
Proof.
  unfold compose, seen_of. cbn [b_seen]. intros H. apply elem_of_list_to_map_2 in H.
  apply list_elem_of_omap in H as (n & _ & Hn). apply fmap_Some in Hn as (c & Hc & [= -> ->]). by exists c.
Qed.

Lemma compose_based leaving s : based (compose st leaving s) (sh_cache s).
Proof. intros name v H. destruct (seen_exact _ _ _ _ H) as (c & Hc & <-). by exists c. Qed.

(** A registry that took a step. *)
Lemma sys_ok_others epoch r s w past r' :
  sys_ok epoch (System r s w past) → pools_evolve r r' → rg_epoch r' = rg_epoch r →
  sys_ok epoch (System r' s w (past ++ [r'])).
Proof.
  intros [Hp He Hs Hc Hw] Hev Hre. simpl in *.
  assert (past ⊆ past ++ [r']) as Hsub by (intros x ?; apply elem_of_app; by left).
  split; simpl; [by apply (past_extend past r)|by rewrite Hre|done|by apply (copies_past past)|].
  eapply Forall_impl; [exact Hw|]. intros x. by apply message_ok_past.
Qed.

(** A message that became another. *)
Lemma sys_ok_message epoch r s pre m post past m' :
  sys_ok epoch (System r s (pre ++ m :: post) past) →
  (message_ok epoch past (sh_cache s) m → message_ok epoch past (sh_cache s) m') →
  sys_ok epoch (System r s (pre ++ m' :: post) past).
Proof.
  intros [Hp He Hs Hc Hw] Hm. simpl in *. split; simpl; [done..|].
  apply Forall_app in Hw as [H1 [H2 H3]%Forall_cons_1]. apply Forall_app. split; [done|].
  apply Forall_cons. auto.
Qed.

Lemma sys_ok_drop epoch r s pre m post past :
  sys_ok epoch (System r s (pre ++ m :: post) past) → sys_ok epoch (System r s (pre ++ post) past).
Proof.
  intros [Hp He Hs Hc Hw]. simpl in *. split; simpl; [done..|].
  apply Forall_app in Hw as [H1 [_ H3]%Forall_cons_1]. by apply Forall_app.
Qed.

(** The registry takes up a request. *)
Lemma sys_ok_beat epoch r s pre b post past now ack r' rung :
  sys_ok epoch (System r s (pre ++ Request b :: post) past) →
  beat_shared r now b = Some (ack, r', rung) →
  sys_ok epoch (System r' s (pre ++ Reply b ack :: post) (past ++ [r'])).
Proof.
  intros Hok E. assert (reg_ok r) as Hr by (destruct Hok as [Hp _ _ _ _]; apply (pa_sound _ _ Hp), Hp).
  destruct (beat_spec json_len why version_text r now b Hr) as (a & r1 & rg & E' & Hev & Hea & Hans & _).
  rewrite E in E'. injection E' as <- <- <-.
  destruct (reg_step_evolves json_len why version_text r r' Hr) as [_ Hre].
  { exists (λ _, true), rung. by apply (act_beat _ _ _ _ _ now b ack). }
  pose proof (so_epoch _ _ Hok) as Hep. simpl in Hep.
  apply (sys_ok_message _ _ _ _ (Request b)); [by apply (sys_ok_others epoch r)|].
  simpl. intros Hb. split_and!; [done|congruence|]. intros name d Hin. exists r'.
  split; [apply elem_of_app; right; by left|auto].
Qed.

Lemma sys_step_ok epoch s s' : sys_ok epoch s → sys_step s s' →
  sys_ok epoch s' ∧ grows (sh_cache (sy_client s)) (sh_cache (sy_client s')).
Proof.
  intros Hok Hst. assert (reg_ok (sy_registry s)) as Hr by (destruct Hok as [Hp _ _ _ _]; apply (pa_sound _ _ Hp), Hp).
  destruct Hst as [r c w past r' Hstep|r c w past leaving|r c pre b post past now ack r' rung E
    |r c pre b post past now ack r' rung bell E Hacc Hnil|r c pre b ack post past out r' E
    |r c pre b ack post past|r c pre b ack post past showing in_flight|r c pre m post past|r c w past c' H1 H2]; simpl in *.
  - destruct (reg_step_evolves _ _ _ _ _ Hr Hstep) as [Hev Hre]. split; [by apply (sys_ok_others epoch r)|done].
  - split; [|done]. destruct Hok as [Hp He Hs Hc Hw]. split; simpl; try done.
    apply Forall_app. split; [done|]. apply Forall_singleton. apply compose_based.
  - split; [|done]. by apply (sys_ok_beat epoch r c pre b post past now ack r' rung).
  - split; [|done]. change [r'; park r' (b_watch b) bell] with ([r'] ++ [park r' (b_watch b) bell]).
    rewrite app_assoc. apply (sys_ok_others epoch r'); [|apply park_pools|done].
    apply (sys_ok_message _ _ _ _ (Reply b ack)); [|done].
    by apply (sys_ok_beat epoch r c pre b post past now ack r' rung).
  - split; [|done]. destruct (deltas_spec r b Hr) as (o & r1 & E' & Hev & Hre & Hans).
    rewrite E in E'. injection E' as <- <-.
    apply (sys_ok_message _ _ _ _ (Parked b ack)); [by apply (sys_ok_others epoch r)|].
    simpl. intros (Hb & Hea & _). split_and!; [done|done|]. intros name d Hin. simpl in Hin.
    apply elem_of_map_to_list in Hin. exists r'. split; [apply elem_of_app; right; by left|auto].
  - split; [|done]. by apply (sys_ok_message _ _ _ _ (Parked b ack)).
  - pose proof (sys_ok_drop _ _ _ _ _ _ _ Hok) as [Hp He Hs Hc Hw].
    destruct Hok as [_ _ _ _ Hm]. simpl in *. apply Forall_app in Hm as [_ [(Hb & Hea & Hans) _]%Forall_cons_1].
    destruct (landed_ok epoch past r b ack c showing in_flight Hp Hc Hb Hs Hea Hans) as (H1 & H2 & H3 & _).
    split; [|done]. split; simpl; [done|done|by right|done|].
    eapply Forall_impl; [exact Hw|]. intros x. by apply message_ok_grows.
  - split; [|done]. by eapply sys_ok_drop.
  - destruct Hok as [Hp He Hs Hc Hw]. simpl in *. rewrite H1. split; [|done]. split; simpl; rewrite ?H1, ?H2; done.
Qed.

Lemma sys_start_ok ttl epoch pool url : sys_ok epoch (sys_start ttl epoch pool url).
Proof.
  split; simpl; [|done|by left|by intros name c Hc|done]. split.
  - by left.
  - intros r ->%list_elem_of_singleton. apply new_registry_ok.
  - intros r1 r2 name ->%list_elem_of_singleton ->%list_elem_of_singleton _. apply tracks_refl.
  - intros r name ->%list_elem_of_singleton. apply tracks_refl.
Qed.

Lemma sys_steps_ok epoch s s' : sys_ok epoch s → rtc sys_step s s' →
  sys_ok epoch s' ∧ grows (sh_cache (sy_client s)) (sh_cache (sy_client s')).
Proof.
  intros Hok Hs. induction Hs as [s|s s1 s2 H1 _ IH]; [done|].
  destruct (sys_step_ok _ _ _ Hok H1) as [Hok1 Hg]. destruct (IH Hok1) as [? ?]. split; [done|by etransitivity].
Qed.

(** A copy against the registry as it is now. *)
Lemma copy_now epoch s name c :
  sys_ok epoch s → sh_cache (sy_client s) !! name = Some c →
  let p := pool_of (sy_registry s) name in
  cp_version c ≤ rp_version p ∧
  (rp_version p ≤ cp_version c → cp_members c = rmembers p ∧ cp_roster c = rp_roster p).
Proof.
  intros [Hp _ _ Hc _] Hl. cbv zeta. destruct (Hc name c Hl) as (r & Hr & [Hv Hm Hro _ _ _]).
  pose proof (pa_latest _ _ Hp r name Hr) as Ht. rewrite Hv, Hm, Hro. split; [apply Ht|]. intros Hle.
  assert (pool_ok (pool_of (sy_registry s) name)) as Hok by (apply (pa_sound _ _ Hp), Hp).
  destruct (tracks_back _ _ Hok Ht Hle) as [Heq _]. split; [done|].
  rewrite (po_roster _ Hok), (po_roster _ (pa_sound _ _ Hp r Hr name)). by rewrite Heq.
Qed.

(** C6: a copy is one past state of the pool.  However the beats and answers of a
    client were delayed, reordered, parked or lost, and whichever full and
    incremental deltas its copy of a pool was put together from, that copy has
    exactly the members, fingerprint, methods and size the pool had in some
    one state the registry was in, with its indexes in order; it is never
    ahead of the registry; and a copy at the registry's version holds the
    registry's members. *)
Theorem copy_is_a_past_pool ttl epoch pool url s name c :
  rtc sys_step (sys_start ttl epoch pool url) s →
  sh_cache (sy_client s) !! name = Some c →
  (∃ r, r ∈ sy_past s ∧ copy_of c (pool_of r name)) ∧
  cp_version c ≤ rp_version (pool_of (sy_registry s) name) ∧
  (cp_version c = rp_version (pool_of (sy_registry s) name) →
   cp_members c = rmembers (pool_of (sy_registry s) name) ∧
   cp_roster c = rp_roster (pool_of (sy_registry s) name)).
Proof.
  intros Hs Hc. destruct (sys_steps_ok epoch _ _ (sys_start_ok ttl epoch pool url) Hs) as [Hok _].
  destruct (copy_now _ _ _ _ Hok Hc) as [Hle Heq]. split_and!; [|done|].
  - destruct Hok as [_ _ _ Hcopies _]. by apply Hcopies.
  - intros Hv. apply Heq. lia.
Qed.

(** A copy never goes back, and never goes away. *)
Theorem copies_only_advance ttl epoch pool url s s' name c :
  rtc sys_step (sys_start ttl epoch pool url) s → rtc sys_step s s' →
  sh_cache (sy_client s) !! name = Some c →
  ∃ c', sh_cache (sy_client s') !! name = Some c' ∧ cp_version c ≤ cp_version c'.
Proof.
  intros Hs Hs' Hc. destruct (sys_steps_ok epoch _ _ (sys_start_ok ttl epoch pool url) Hs) as [Hok _].
  destruct (sys_steps_ok epoch _ _ Hok Hs') as [_ Hg]. by apply Hg.
Qed.

(** C16: one answered beat brings every watched pool up to date: if the client
    composes a beat, the registry accepts it and the answer is applied with
    nothing in between, then the client's copy of each pool it watches is the
    registry's -- whatever the client had before, however far behind. *)
Theorem one_beat_synchronises ttl epoch pool url r s w past leaving now ack r' rung showing in_flight name :
  rtc sys_step (sys_start ttl epoch pool url) (System r s w past) →
  beat_shared r now (compose st leaving s) = Some (ack, r', rung) → ack_accepted ack = true →
  name ∈ sh_watch s → is_Some (rg_pools r' !! name) →
  ∃ c, sh_cache (beat_landed s showing in_flight ack) !! name = Some c ∧
    cp_version c = rp_version (pool_of r' name) ∧ cp_members c = rmembers (pool_of r' name) ∧
    cp_roster c = rp_roster (pool_of r' name).
Proof.
  intros Hs E Hacc Hin Hex. destruct (sys_steps_ok epoch _ _ (sys_start_ok ttl epoch pool url) Hs) as [Hok _].
  set (b := compose st leaving s) in *.
  assert (reg_ok r) as Hr by (destruct Hok as [Hp _ _ _ _]; apply (pa_sound _ _ Hp), Hp).
  destruct (sys_step_ok _ _ _ Hok (sys_compose r s w past leaving)) as [Hok1 _].
  destruct (sys_step_ok _ _ _ Hok1 (sys_answer r s w b [] past now ack r' rung E)) as [Hok2 _].
  destruct (sys_step_ok _ _ _ Hok2 (sys_deliver r' s w b ack [] (past ++ [r']) showing in_flight)) as [Hok3 Hg].
  set (s' := beat_landed s showing in_flight ack) in *. simpl in Hg.
  assert (∃ c, sh_cache s' !! name = Some c ∧ rp_version (pool_of r' name) ≤ cp_version c) as (c & Hc & Hle).
  { destruct (beat_spec json_len why version_text r now b Hr) as (a & r1 & rg & E' & _ & _ & _ & Hk).
    rewrite E in E'. injection E' as <- <- <-. destruct (Hk Hacc) as [Hanswer _].
    specialize (Hanswer name Hin Hex). unfold answer in Hanswer. case_bool_decide as Hseen.
    - destruct (seen_exact leaving s name _ Hseen) as (c & Hc & Hv). destruct (Hg name c Hc) as (c' & ? & ?).
      exists c'. split; [done|lia].
    - apply elem_of_list_to_map_2 in Hanswer.
      destruct Hok2 as [Hp He Hsn Hcp Hw]. simpl in *. apply Forall_app in Hw as [_ [(Hb & Hea & Hans) _]%Forall_cons_1].
      destruct (landed_ok epoch _ r' b ack s showing in_flight Hp Hcp Hb Hsn Hea Hans) as (_ & _ & _ & Hv).
      destruct (Hv Hacc _ _ Hanswer) as (c & Hc & Hle). exists c. split; [done|]. by destruct (cursor _ _). }
  destruct (copy_now _ _ _ _ Hok3 Hc) as [Hup Heq]. simpl in *. exists c. split; [done|]. split; [lia|]. by apply Heq.
Qed.

(** The first answer of a restarted registry, applied pool by pool. *)
Lemma restarted_pools r b pools cache changed :
  reg_ok r →
  (∀ name c, cache !! name = Some c → copy_of c (pool_of r name)) →
  (∀ name d, (name, d) ∈ pools → answer (pool_of r name) (b_seen b !! name) = Some d) →
  ∀ name c, (fold_left (apply_pool true) pools (cache, changed)).1 !! name = Some c → copy_of c (pool_of r name).
Proof.
  intros Hr. revert cache changed. induction pools as [|[n d] pools IH]; intros cache changed Hc Hans; [done|].
  assert (∀ m e, (m, e) ∈ pools → answer (pool_of r m) (b_seen b !! m) = Some e) as Hans' by (intros; apply Hans; by right).
  specialize (Hans n d ltac:(by left)). cbn [fold_left apply_pool].
  destruct (d_full d) eqn:Hf; cbn [andb negb]; [|by apply IH].
  assert (copy_of (Cache.apply (default empty_pool (cache !! n)) d) (pool_of r n)) as Hcopy.
  { apply (apply_answer _ (pool_of r n) _ None); [apply Hr| |unfold answer in *; rewrite bool_decide_eq_false_2 by done|done].
    - destruct (cache !! n) as [c|] eqn:E; simpl; [apply (Hc n c E)|apply empty_pool_ok].
    - case_bool_decide; [done|]. rewrite <-Hans. f_equal. injection Hans as <-. by destruct (cursor _ (b_seen b !! n)). }
  destruct (Z.ltb_spec (d_version d) (cp_version (default empty_pool (cache !! n)))) as [Hlt|Hge];
    apply IH; try done; intros m c; (destruct (decide (m = n)) as [->|Hne];
      [rewrite lookup_insert_eq; intros [= <-]|rewrite lookup_insert_ne by done; apply Hc]); [|done].
  destruct (cache !! n) as [c|] eqn:E; [by apply Hc|]. simpl in Hlt. exfalso.
  pose proof (cy_version _ _ Hcopy) as Hv. simpl in Hv. pose proof (po_length _ (Hr n)). lia.
Qed.

(** C17: a restarted registry counts from zero again, so nothing the client kept of
    the old numbering may mix with what the new one says: whatever the client
    held, and whatever position its beat asked from, after the first answer
    of a registry with another epoch every copy it holds is the new
    registry's pool. *)
Theorem restart_leaves_no_mixture ttl epoch r now b ack r' rung s showing in_flight name c :
  rtc reg_step (new_registry ttl epoch) r →
  beat_shared r now b = Some (ack, r', rung) →
  sh_seen_epoch s ≠ 0 → sh_seen_epoch s ≠ epoch →
  sh_cache (beat_landed s showing in_flight ack) !! name = Some c →
  copy_of c (pool_of r' name).
Proof.
  intros Hs E Hne0 Hne. destruct (reg_steps_evolve _ _ _ _ _ (new_registry_ok ttl epoch) Hs) as [He Hep].
  pose proof (evolve_ok _ _ He (new_registry_ok ttl epoch)) as Hr. simpl in Hep.
  destruct (beat_spec json_len why version_text r now b Hr) as (a & r1 & rg & E' & Hev & Hea & Hans & _).
  rewrite E in E'. injection E' as <- <- <-. pose proof (evolve_ok _ _ Hev Hr) as Hr'.
  unfold beat_landed, apply_ack. rewrite Hea, Hep.
  rewrite (proj2 (Z.eqb_neq _ _) Hne0), (proj2 (Z.eqb_neq _ _) Hne). cbn [negb andb].
  destruct (ack_accepted ack); cbn [negb].
  - pose proof (restarted_pools r' b (ack_pools ack) ∅ (negb (bool_decide (sh_cache s = ∅))) Hr') as H.
    destruct (fold_left _ _ _) as [cache' changed']. cbn [fst] in H.
    assert (∀ (x y : shared), sh_cache (if changed' then x else y) = if changed' then sh_cache x else sh_cache y) as -> by (by destruct changed').
    intros Hc. apply H; [by intros ? ? ?|done|]. by destruct changed'.
  - destruct (_ || _); simpl; by rewrite lookup_empty.
Qed.
End System.

(** ** Examples *)

Definition demo_seat : seat := Seat (Some 0) 7 5 (u "r") None false [].

(** A client of the demonstration pool that watches it. *)
Definition demo_client : shared := with_watch (new_shared demo_pool None) [demo_pool].

Definition demo_request : beat := compose demo_seat false demo_client.

Definition demo_registry : registry := demo_after (new_registry 1000 3) 0 demo_request.

Definition demo_ack : beat_ack :=
  match demo_shared (new_registry 1000 3) 0 demo_request with
  | Some (ack, _, _) => ack
  | None => BeatAck 0 0 [] 0 false None []
  end.

Definition demo_copy : shared := beat_landed demo_client 0 [] demo_ack.

Notation demo_step := (sys_step demo_len demo_why [] demo_seat).

Lemma demo_answer : ∃ rung, demo_shared (new_registry 1000 3) 0 demo_request = Some (demo_ack, demo_registry, rung).
Proof.
  unfold demo_ack, demo_registry, demo_after.
  destruct (demo_shared _ 0 demo_request) as [[[ack r] rung]|] eqn:E; [by exists rung|vm_compute in E; discriminate E].
Qed.

Lemma demo_watching : rtc demo_step (sys_start 1000 3 demo_pool None)
  (System (new_registry 1000 3) demo_client [] [new_registry 1000 3]).
Proof. apply rtc_once. by apply sys_client. Qed.

(** One round trip. *)
Lemma demo_round_trip : rtc demo_step (sys_start 1000 3 demo_pool None)
  (System demo_registry demo_copy [] [new_registry 1000 3; demo_registry]).
Proof.
  destruct demo_answer as [rung E]. etransitivity; [apply demo_watching|].
  eapply rtc_l; [apply (sys_compose _ _ _ _ _ _ [] _ false)|].
  eapply rtc_l; [apply (sys_answer _ _ _ _ _ _ [] demo_request [] [new_registry 1000 3] 0 demo_ack demo_registry rung E)|].
  apply rtc_once. apply (sys_deliver _ _ _ _ demo_registry demo_client [] demo_request demo_ack []).
Qed.

Lemma copy_is_a_past_pool_witness :
  ∃ c, sh_cache demo_copy !! demo_pool = Some c ∧ cp_version c = 1 ∧
       cp_members c = rmembers (pool_of demo_registry demo_pool).
Proof.
  destruct (sh_cache demo_copy !! demo_pool) as [c|] eqn:E; [|vm_compute in E; discriminate E].
  assert (cp_version c = 1) as Hv by (vm_compute in E; injection E as <-; reflexivity).
  exists c. split; [done|]. split; [done|].
  apply (copy_is_a_past_pool demo_len demo_why [] demo_seat 1000 3 demo_pool None _ demo_pool c demo_round_trip E).
  rewrite Hv. vm_compute. reflexivity.
Defined.

Lemma copies_only_advance_witness :
  ∃ c, sh_cache (beat_lost demo_copy []) !! demo_pool = Some c ∧ 1 ≤ cp_version c.
Proof.
  destruct (sh_cache demo_copy !! demo_pool) as [c|] eqn:E; [|vm_compute in E; discriminate E].
  assert (cp_version c = 1) as Hv by (vm_compute in E; injection E as <-; reflexivity).
  rewrite <-Hv.
  apply (copies_only_advance demo_len demo_why [] demo_seat 1000 3 demo_pool None _
    (System demo_registry (beat_lost demo_copy []) [] [new_registry 1000 3; demo_registry])
    demo_pool c demo_round_trip); [|exact E].
  apply rtc_once. by apply sys_client.
Defined.

Lemma one_beat_synchronises_witness :
  ∃ c, sh_cache demo_copy !! demo_pool = Some c ∧ cp_members c = rmembers (pool_of demo_registry demo_pool).
Proof.
  destruct demo_answer as [rung E].
  destruct (one_beat_synchronises demo_len demo_why [] demo_seat 1000 3 demo_pool None (new_registry 1000 3)
    demo_client [] [new_registry 1000 3] false 0 demo_ack demo_registry rung 0 [] demo_pool demo_watching E)
    as (c & Hc & _ & Hm & _).
  - vm_compute. reflexivity.
  - by left.
  - vm_compute. by eexists.
  - exists c. split; [exact Hc|exact Hm].
Defined.

(** A client of another registry hears from this one. *)
Lemma restart_leaves_no_mixture_witness :
  ∃ c, sh_cache (beat_landed (with_view demo_client ∅ true [] 9) 0 [] demo_ack) !! demo_pool = Some c ∧
       copy_of c (pool_of demo_registry demo_pool).
Proof.
  destruct demo_answer as [rung E].
  destruct (sh_cache (beat_landed (with_view demo_client ∅ true [] 9) 0 [] demo_ack) !! demo_pool) as [c|] eqn:Ec;
    [|vm_compute in Ec; discriminate Ec].
  exists c. split; [done|].
  apply (restart_leaves_no_mixture demo_len demo_why [] 1000 3 (new_registry 1000 3) 0 demo_request demo_ack
    demo_registry rung (with_view demo_client ∅ true [] 9) 0 []); [apply rtc_refl|exact E|done|done|exact Ec].
Defined.
