(* ===== verification/Views.v ===== *)
(** * Handles, snapshots and epochs

    The objects of [__init__.py] a lookup hands out.  A handle reads a native
    member through until somebody writes to it; a snapshot and an epoch answer
    from the native view until their members have been materialised, and from
    the handles afterwards.  Handles and state batches are objects: they live
    in a heap and are named by their position, so that two answers that are
    the same object share what is written to it. *)

From S2P Require Import Prelude PyStr PyFloat Errors Identity Config Json Cache Shared.
From stdpp Require Import sorting.

Local Open Scope Z_scope.

(** [json_to_py] *)
Fixpoint json_to_py (v : value) : pyval :=
  match v with
  | Null => VNone
  | Bool b => VBool b
  | Int z => VInt z
  | Float x => VFloat x
  | Str s => VStr s
  | Array l => VList (map json_to_py l)
  | Object kvs => VDict (map (λ kv, (VStr kv.1, json_to_py kv.2)) kvs)
  end.

(** [bool(v)] for what JSON can carry. *)
Definition truthy (v : pyval) : bool :=
  match v with
  | VNone => false
  | VBool b => b
  | VInt z => negb (z =? 0)
  | VFloat x => negb (SpecFloat.SFeqb x fzero)
  | VStr s => negb (bool_decide (s = []))
  | VList [] | VTuple [] | VDict [] | VBytes [] | VSet [] | VFrozenset [] => false
  | _ => true
  end.

(** [v or {}] *)
Definition or_dict (v : pyval) : pyval := if truthy v then v else VDict [].

(** ** Objects *)

(** [class _StateBatch]: the states of a view, decoded on the first read. *)
Record state_batch := StateBatch {
  sb_native : option (list value);
  sb_states : option (list pyval)
}.

(** [struct NativeMember] *)
Record native_member := NativeMember {
  nm_pool : pystr;
  nm_member : member;
  nm_batch : option (nat * nat)
}.

(** [Handle._overrides]: the fields somebody wrote. *)
Record overrides := Overrides {
  o_pool : option pystr;
  o_id : option Z;
  o_slot : option (option Z);
  o_incarnation : option Z;
  o_url : option (option pystr);
  o_ready : option bool
}.

Definition no_overrides : overrides := Overrides None None None None None None.

(** [class Handle]; [h_async] says that it is an [AsyncHandle], [h_state] is
    the attribute [state] once it is there. *)
Record handle := Handle {
  h_native : option native_member;
  h_methods : list pystr;
  h_state : option pyval;
  h_overrides : option overrides;
  h_async : bool
}.

Record heap := Heap { hp_handles : list handle; hp_batches : list state_batch }.

Notation V := (M heap exn).

(** [Handle.__init__]: what [raw] holds under each key. *)
Record raw_member := RawMember {
  rw_id : option Z;
  rw_slot : option Z;
  rw_incarnation : option Z;
  rw_url : option pystr;
  rw_ready : option bool;
  rw_state : option pyval
}.

Definition need {A} (o : option A) : res A :=
  match o with Some a => Ok a | None => Raise (Exc KeyError) end.

Definition new_handle (is_async : bool) (pool_name : pystr) (raw : raw_member) (methods : list pystr) :
    res handle :=
  let state := or_dict (default VNone (rw_state raw)) in
  id ← need (rw_id raw);
  incarnation ← need (rw_incarnation raw);
  ready ← need (rw_ready raw);
  Ok {| h_native := None; h_methods := methods; h_state := Some state;
        h_overrides := Some (Overrides (Some pool_name) (Some id) (Some (rw_slot raw))
                               (Some incarnation) (Some (rw_url raw)) (Some ready));
        h_async := is_async |}.

(** [Handle._from_native] *)
Definition handle_from_native (is_async : bool) (member : native_member) (methods : list pystr) : handle :=
  Handle (Some member) methods None None is_async.

(** [Handle._read]: an override first, the native member otherwise. *)
Definition _read {A} (h : handle) (override : overrides → option A) (getter : native_member → A) : res A :=
  match h_overrides h ≫= override with
  | Some a => Ok a
  | None => match h_native h with
            | Some nm => Ok (getter nm)
            | None => Raise (Exc AssertionError)
            end
  end.

(** [Handle._write] *)
Definition _write (h : handle) (set : overrides → overrides) : handle :=
  Handle (h_native h) (h_methods h) (h_state h)
    (Some (set (default no_overrides (h_overrides h)))) (h_async h).

(** The properties. *)
Definition h_pool (h : handle) : res pystr := _read h o_pool nm_pool.
Definition h_id (h : handle) : res Z := _read h o_id (m_id ∘ nm_member).
Definition h_slot (h : handle) : res (option Z) := _read h o_slot (m_slot ∘ nm_member).
Definition h_incarnation (h : handle) : res Z := _read h o_incarnation (m_incarnation ∘ nm_member).
Definition h_url (h : handle) : res (option pystr) := _read h o_url (m_url ∘ nm_member).
Definition h_ready (h : handle) : res bool := _read h o_ready (m_ready ∘ nm_member).

(** The setters. *)
Definition set_pool (h : handle) (v : pystr) : handle :=
  _write h (λ o, Overrides (Some v) (o_id o) (o_slot o) (o_incarnation o) (o_url o) (o_ready o)).
Definition set_id (h : handle) (v : Z) : handle :=
  _write h (λ o, Overrides (o_pool o) (Some v) (o_slot o) (o_incarnation o) (o_url o) (o_ready o)).
Definition set_slot (h : handle) (v : option Z) : handle :=
  _write h (λ o, Overrides (o_pool o) (o_id o) (Some v) (o_incarnation o) (o_url o) (o_ready o)).
Definition set_incarnation (h : handle) (v : Z) : handle :=
  _write h (λ o, Overrides (o_pool o) (o_id o) (o_slot o) (Some v) (o_url o) (o_ready o)).
Definition set_url (h : handle) (v : option pystr) : handle :=
  _write h (λ o, Overrides (o_pool o) (o_id o) (o_slot o) (o_incarnation o) (Some v) (o_ready o)).
Definition set_handle_ready (h : handle) (v : bool) : handle :=
  _write h (λ o, Overrides (o_pool o) (o_id o) (o_slot o) (o_incarnation o) (o_url o) (Some v)).

(** [Handle.identity] *)
Definition handle_identity (h : handle) : res pystr :=
  match h_native h, h_overrides h with
  | Some nm, None => Ok (member_identity (nm_pool nm) (nm_member nm))
  | _, _ =>
      pool ← h_pool h; slot ← h_slot h; ident ← h_id h; incarnation ← h_incarnation h;
      Ok (_identity pool slot ident incarnation)
  end.

(** Hexadecimal digits, most significant first, at least [width] of them:
    [f"{z:0{width}x}"] for a [z] of at most [width] digits. *)
Definition hex_pad (width : nat) (z : Z) : pystr :=
  map (λ i : nat, let d := Z.to_N (Z.land (Z.shiftr z (4 * Z.of_nat i)) 15) in
                  if (d <? 10)%N then (48 + d)%N else (87 + d)%N)
      (rev (seq 0 width)).

(** The label of both sides. *)
Definition label_of (pool : pystr) (slot : option Z) (ident incarnation : Z) : pystr :=
  pool ++ slash ::
  match slot with Some s => str_of_int s | None => hex_pad 4 (Z.land ident 65535) end ++
  hash_sign :: hex_pad 3 (Z.land incarnation 4095).

(** [NativeMember::label] *)
Definition native_label (nm : native_member) : pystr :=
  label_of (nm_pool nm) (m_slot (nm_member nm)) (m_id (nm_member nm)) (m_incarnation (nm_member nm)).

(** [Handle.label] *)
Definition handle_label (h : handle) : res pystr :=
  match h_native h, h_overrides h with
  | Some nm, None => Ok (native_label nm)
  | _, _ =>
      slot ← h_slot h; ident ← h_id h; pool ← h_pool h; incarnation ← h_incarnation h;
      Ok (label_of pool slot ident incarnation)
  end.

(** [Handle.__eq__] and the key of [Handle.__hash__] *)
Definition handle_key (h : handle) : res (pystr * Z * Z) :=
  pool ← h_pool h; ident ← h_id h; incarnation ← h_incarnation h; Ok (pool, ident, incarnation).

Definition handle_eq (a b : handle) : res bool :=
  ka ← handle_key a; kb ← handle_key b; Ok (bool_decide (ka = kb)).

Section Views.
(** The codec of a batch of states: [rmp_serde] writes, [msgspec] reads. *)
Context (to_vec_named : list value → list N) (msgpack_decode : list N → res (list pyval)).

(** [_StateBatch.get] *)
Definition batch_get (b index : nat) : V pyval :=
  h ← get;
  match hp_batches h !! b with
  | None => raise (Exc AssertionError)
  | Some sb =>
      states ← match sb_states sb with
               | Some states => mret states
               | None =>
                   states ← lift (msgpack_decode (to_vec_named (default [] (sb_native sb))));
                   _ ← modify (λ h, Heap (hp_handles h)
                                      (<[b := StateBatch None (Some states)]> (hp_batches h)));
                   mret states
               end;
      match states !! index with
      | Some v => mret v
      | None => raise (Exc LookupError)
      end
  end.

(** [NativeMember::materialize_state] *)
Definition materialize_state (nm : native_member) : V pyval :=
  match nm_batch nm with
  | Some (b, index) => batch_get b index
  | None => mret (json_to_py (m_state (nm_member nm)))
  end.

(** What reading an attribute of a handle gives. *)
Inductive attribute :=
| AState (v : pyval)
| AMethod (name : pystr) (is_async : bool).

(** [Handle.__getattr__], with the attribute [state] in its slot once it is
    there. *)
Definition handle_getattr (l : nat) (name : pystr) : V attribute :=
  hp ← get;
  match hp_handles hp !! l with
  | None => raise (Exc AssertionError)
  | Some h =>
      if bool_decide (name = u "state")
      then match h_state h with
           | Some v => mret (AState v)
           | None =>
               match h_native h with
               | None => raise (Exc AssertionError)
               | Some nm =>
                   v ← materialize_state nm;
                   let state := or_dict v in
                   _ ← modify (λ hp, Heap (<[l := Handle (h_native h) (h_methods h) (Some state)
                                                    (h_overrides h) (h_async h)]> (hp_handles hp))
                                          (hp_batches hp));
                   mret (AState state)
               end
           end
      else if startswith (u "_") name then raise (Exc AttributeError)
      else if negb (bool_decide (name ∈ h_methods h))
      then _ ← lift (handle_identity h); raise (Exc AttributeError)
      else mret (AMethod name (h_async h))
  end.

(** A new object on the heap. *)
Definition alloc (h : handle) : V nat :=
  hp ← get; _ ← modify (λ hp, Heap (hp_handles hp ++ [h]) (hp_batches hp));
  mret (length (hp_handles hp)).

(** [NativeSnapshot::handle] *)
Definition native_handle (is_async : bool) (pool : pystr) (view : frozen_pool) (m : member)
    (batch : option (nat * nat)) : V nat :=
  alloc (handle_from_native is_async (NativeMember pool m batch) (fp_methods view)).

(** [NativeSnapshot::materialize] and [materialize_ready]: one batch, one
    handle per member that [keep] admits, each with its place in the batch. *)
Definition materialize_if (keep : member → bool) (is_async : bool) (pool : pystr) (view : frozen_pool) :
    V (list nat) :=
  hp ← get;
  let b := length (hp_batches hp) in
  _ ← modify (λ hp, Heap (hp_handles hp)
        (hp_batches hp ++ [StateBatch (Some (map m_state (fm_members (fp_members view)))) None]));
  mapM (λ im, native_handle is_async pool view im.2 (Some (b, im.1)))
    (filter (λ im, keep im.2 = true) (imap pair (fm_members (fp_members view)))).

Definition materialize : bool → pystr → frozen_pool → V (list nat) := materialize_if (λ _, true).
Definition materialize_ready : bool → pystr → frozen_pool → V (list nat) := materialize_if m_ready.

(** [NativeSnapshot::slot], [NativeSnapshot::get] *)
Definition view_slot (is_async : bool) (pool : pystr) (view : frozen_pool) (slot : Z) : V (option nat) :=
  match frozen_slot (fp_members view) slot with
  | Some m => Some <$> native_handle is_async pool view m None
  | None => mret None
  end.

Definition view_get (is_async : bool) (pool : pystr) (view : frozen_pool) (identity : pystr) :
    V (option nat) :=
  match frozen_get (fp_members view) pool identity with
  | Some m => Some <$> native_handle is_async pool view m None
  | None => mret None
  end.

(** ** Snapshots *)

(** [class Snapshot] *)
Record snapshot := Snapshot {
  sn_pool : pystr;
  sn_revision : Z;
  sn_view : option frozen_pool;
  sn_materialized : option (list nat);
  sn_async : bool
}.

(** [Snapshot.__init__], [Snapshot._from_native] *)
Definition new_snapshot (pool_name : pystr) (revision : Z) (members : list nat) : snapshot :=
  Snapshot pool_name revision None (Some members) false.

Definition snapshot_from_native (pool_name : pystr) (view : frozen_pool) (is_async : bool) : snapshot :=
  Snapshot pool_name (fp_version view) (Some view) None is_async.

(** [Snapshot.members] *)
Definition sn_members (s : snapshot) : V (list nat * snapshot) :=
  match sn_materialized s with
  | Some l => mret (l, s)
  | None =>
      match sn_view s with
      | None => raise (Exc AssertionError)
      | Some view =>
          l ← materialize (sn_async s) (sn_pool s) view;
          mret (l, Snapshot (sn_pool s) (sn_revision s) (sn_view s) (Some l) (sn_async s))
      end
  end.

(** [Snapshot.__len__] *)
Definition sn_len (s : snapshot) : V (nat * snapshot) :=
  match sn_view s with
  | Some view => mret (length (fm_members (fp_members view)), s)
  | None => '(l, s') ← sn_members s; mret (length l, s')
  end.

(** The first object of a list whose handle passes a test. *)
Fixpoint first_handle (test : handle → res bool) (l : list nat) : V (option nat) :=
  match l with
  | [] => mret None
  | x :: l' =>
      hp ← get;
      match hp_handles hp !! x with
      | None => raise (Exc AssertionError)
      | Some h => ok ← lift (test h); if ok : bool then mret (Some x) else first_handle test l'
      end
  end.

(** All the objects of a list whose handle passes a test. *)
Fixpoint filter_handles (test : handle → res bool) (l : list nat) : V (list nat) :=
  match l with
  | [] => mret []
  | x :: l' =>
      hp ← get;
      match hp_handles hp !! x with
      | None => raise (Exc AssertionError)
      | Some h => ok ← lift (test h); rest ← filter_handles test l';
                  mret (if ok : bool then x :: rest else rest)
      end
  end.

(** [Snapshot.ready] *)
Definition sn_ready (s : snapshot) : V (list nat) :=
  match sn_materialized s, sn_view s with
  | Some l, _ => filter_handles h_ready l
  | None, Some view => materialize_ready (sn_async s) (sn_pool s) view
  | None, None => raise (Exc AssertionError)
  end.

(** [h.slot == k] *)
Definition slot_is (slot : option Z) (k : pyval) : bool :=
  match k, slot with
  | VNone, None => true
  | VInt z, Some s => s =? z
  | VBool b, Some s => s =? (if b then 1 else 0)
  | VFloat x, Some s => float_is_int x s
  | _, _ => false
  end.

Definition has_slot (k : pyval) (h : handle) : res bool := (λ s, slot_is s k) <$> h_slot h.

(** [Snapshot.slot] *)
Definition sn_slot (s : snapshot) (k : pyval) : V (option nat) :=
  match sn_materialized s, sn_view s with
  | Some l, _ => first_handle (has_slot k) l
  | None, Some view =>
      match _native_seat k with
      | None => mret None
      | Some seat => view_slot (sn_async s) (sn_pool s) view seat
      end
  | None, None => raise (Exc AssertionError)
  end.

Definition has_identity (identity : pystr) (h : handle) : res bool :=
  (λ i, bool_decide (i = identity)) <$> handle_identity h.

(** [Snapshot.get] of a string. *)
Definition sn_get (s : snapshot) (identity : pystr) : V (option nat) :=
  match sn_materialized s, sn_view s with
  | Some l, _ => first_handle (has_identity identity) l
  | None, Some view => view_get (sn_async s) (sn_pool s) view identity
  | None, None => raise (Exc AssertionError)
  end.

(** ** Epochs *)

(** [class Epoch] *)
Record epoch := Epoch {
  ep_pool : pystr;
  ep_roster : Z;
  ep_view : option frozen_pool;
  ep_materialized : option (list nat);
  ep_async : bool
}.

(** [Epoch.__init__], [Epoch._from_native] *)
Definition new_epoch (pool_name : pystr) (members : list nat) (roster : Z) : epoch :=
  Epoch pool_name roster None (Some members) false.

Definition epoch_from_native (pool_name : pystr) (view : frozen_pool) (is_async : bool) : epoch :=
  Epoch pool_name (fp_roster view) (Some view) None is_async.

(** [Epoch.members] *)
Definition ep_members (e : epoch) : V (list nat * epoch) :=
  match ep_materialized e with
  | Some l => mret (l, e)
  | None =>
      match ep_view e with
      | None => raise (Exc AssertionError)
      | Some view =>
          l ← materialize (ep_async e) (ep_pool e) view;
          mret (l, Epoch (ep_pool e) (ep_roster e) (ep_view e) (Some l) (ep_async e))
      end
  end.

(** [Epoch.valid] *)
Definition ep_valid (s : shared) (e : epoch) : bool := epoch_valid s (ep_pool e) (ep_roster e).

(** [Epoch.__len__] *)
Definition ep_len (e : epoch) : V (nat * epoch) :=
  match ep_view e with
  | Some view => mret (length (fm_members (fp_members view)), e)
  | None => '(l, e') ← ep_members e; mret (length l, e')
  end.

(** [Epoch.slot] *)
Definition ep_slot (e : epoch) (k : pyval) : V nat :=
  found ← match ep_materialized e, ep_view e with
          | Some l, _ => first_handle (has_slot k) l
          | None, Some view =>
              match _native_seat k with
              | None => mret None
              | Some seat => view_slot (ep_async e) (ep_pool e) view seat
              end
          | None, None => mret None
          end;
  match found with
  | Some l => mret l
  | None => raise (Exc NotFound)
  end.
End Views.

(** ** Handles *)

(** A handle can always be read: it has a native member, or every field was
    given to it. *)
Definition handle_ok (h : handle) : Prop :=
  is_Some (h_native h) ∨
  ∃ o, h_overrides h = Some o ∧ is_Some (o_pool o) ∧ is_Some (o_id o) ∧ is_Some (o_slot o) ∧
       is_Some (o_incarnation o) ∧ is_Some (o_url o) ∧ is_Some (o_ready o).

Lemma read_ok {A} h (f : overrides → option A) g :
  (is_Some (h_native h) ∨ ∃ o, h_overrides h = Some o ∧ is_Some (f o)) → ∃ a, _read h f g = Ok a.
Proof.
  unfold _read. intros [[nm Hn]|(o & Ho & [a Ha])].
  - rewrite Hn. destruct (h_overrides h ≫= f); eauto.
  - rewrite Ho. simpl. rewrite Ha. eauto.
Qed.

(** The identity of a handle is made of what its four properties read, on
    both of its paths. *)
Lemma handle_identity_reads h pool slot ident incarnation :
  h_pool h = Ok pool → h_slot h = Ok slot → h_id h = Ok ident → h_incarnation h = Ok incarnation →
  handle_identity h = Ok (_identity pool slot ident incarnation) ∧
  handle_label h = Ok (label_of pool slot ident incarnation).
Proof.
  intros H1 H2 H3 H4. unfold handle_identity, handle_label. rewrite H1, H2, H3, H4. simpl.
  destruct (h_native h) as [nm|] eqn:En; [|done]. destruct (h_overrides h) as [o|] eqn:Eo; [done|].
  unfold h_pool, h_slot, h_id, h_incarnation, _read in *. rewrite Eo, En in *. simpl in *.
  unfold member_identity, native_label. by simplify_res.
Qed.

Lemma handle_identity_ok h : handle_ok h → ∃ i, handle_identity h = Ok i.
Proof.
  intros Hok.
  assert ((∃ a, h_pool h = Ok a) ∧ (∃ a, h_slot h = Ok a) ∧ (∃ a, h_id h = Ok a) ∧
          (∃ a, h_incarnation h = Ok a)) as ((? & H1) & (? & H2) & (? & H3) & (? & H4)).
  { split_and!; apply read_ok; destruct Hok as [?|(o & ? & ? & ? & ? & ? & ? & ?)]; eauto. }
  destruct (handle_identity_reads _ _ _ _ _ H1 H2 H3 H4) as [-> _]. eauto.
Qed.

(** A handle made of a native member that nobody has written to. *)
Definition fresh_handle (is_async : bool) (pool : pystr) (view : frozen_pool) (b : option nat)
    (im : nat * member) : handle :=
  handle_from_native is_async (NativeMember pool im.2 ((λ b, (b, im.1)) <$> b)) (fp_methods view).

(** ** Materialising *)

Lemma mapM_alloc {A} (f : A → handle) (l : list A) hp :
  mapM (λ a, alloc (f a)) l hp =
  (Ok (seq (length (hp_handles hp)) (length l)),
   Heap (hp_handles hp ++ map f l) (hp_batches hp)).
Proof.
  revert hp. induction l as [|a l IH]; intros [hs bs]; simpl; [by rewrite app_nil_r|].
  unfold mbind, M_bind, alloc, get, modify, mret, M_ret. simpl.
  rewrite IH. simpl. rewrite length_app. simpl. rewrite Nat.add_1_r, <-app_assoc. done.
Qed.

(** What materialising a view does: one new batch, and one new handle per
    member kept, in the order of the view. *)
Lemma materialize_if_spec keep is_async pool view hp :
  let kept := filter (λ im, keep im.2 = true) (imap pair (fm_members (fp_members view))) in
  materialize_if keep is_async pool view hp =
  (Ok (seq (length (hp_handles hp)) (length kept)),
   Heap (hp_handles hp ++ map (fresh_handle is_async pool view (Some (length (hp_batches hp)))) kept)
     (hp_batches hp ++ [StateBatch (Some (map m_state (fm_members (fp_members view)))) None])).
Proof.
  intros kept. unfold materialize_if. rewrite M_bind_unfold. unfold get at 1.
  rewrite M_bind_unfold. unfold modify at 1. cbv zeta. fold kept.
  exact (mapM_alloc (fresh_handle is_async pool view (Some (length (hp_batches hp)))) kept _).
Qed.

Lemma filter_all {A} (l : list A) : filter (λ _, true = true) l = l.
Proof. induction l as [|a l IH]; [done|]. by rewrite filter_cons_True, IH. Qed.

Lemma materialize_spec is_async pool view hp :
  let ms := fm_members (fp_members view) in
  materialize is_async pool view hp =
  (Ok (seq (length (hp_handles hp)) (length ms)),
   Heap (hp_handles hp ++ map (fresh_handle is_async pool view (Some (length (hp_batches hp)))) (imap pair ms))
     (hp_batches hp ++ [StateBatch (Some (map m_state ms)) None])).
Proof.
  intros ms. unfold materialize. rewrite materialize_if_spec. rewrite filter_all.
  by rewrite length_imap.
Qed.

(** The member an object stands for. *)
Definition handle_member (hp : heap) (l : nat) : option member :=
  h ← hp_handles hp !! l; nm_member <$> h_native h.

(** What a search found, as a member: [None] when it raised. *)
Definition member_found (r : res (option nat) * heap) : option (option member) :=
  match r with
  | (Ok (Some l), hp) => Some (handle_member hp l)
  | (Ok None, _) => Some None
  | (Raise _, _) => None
  end.

(** The same, as the identity of the member. *)
Definition identity_found (pool : pystr) (r : res (option nat) * heap) : option (option pystr) :=
  option_map (option_map (member_identity pool)) (member_found r).

(** Searching freshly materialised handles is searching the members. *)
Lemma first_handle_fresh is_async pool view b test P ims pre post bs :
  (∀ im, im ∈ ims → test (fresh_handle is_async pool view b im) = Ok (P im.2)) →
  member_found (first_handle test (seq (length pre) (length ims))
    (Heap (pre ++ map (fresh_handle is_async pool view b) ims ++ post) bs))
  = Some (head (filter (λ m, P m = true) (ims.*2))).
Proof.
  revert pre. induction ims as [|im ims IH]; intros pre Ht; [done|].
  cbn [length seq first_handle map app]. rewrite M_bind_unfold. unfold get. cbn [hp_handles].
  rewrite list_lookup_middle by done.
  rewrite M_bind_unfold. unfold lift. rewrite Ht by left.
  cbn [fmap list_fmap]. rewrite filter_cons. destruct (P im.2) eqn:HP; case_decide; try congruence.
  - unfold mret, M_ret. cbn [member_found]. unfold handle_member. cbn [hp_handles].
    by rewrite list_lookup_middle.
  - rewrite cons_middle, app_assoc. specialize (IH (pre ++ [fresh_handle is_async pool view b im])).
    rewrite length_app in IH. cbn [length] in IH. rewrite Nat.add_1_r in IH. apply IH.
    intros im' Him'. apply Ht. by right.
Qed.

Lemma fresh_reads is_async pool view b im :
  let h := fresh_handle is_async pool view b im in
  h_slot h = Ok (m_slot im.2) ∧ handle_identity h = Ok (member_identity pool im.2) ∧
  h_ready h = Ok (m_ready im.2).
Proof. done. Qed.

Lemma float_is_int_trunc x z : float_is_int x z = true → trunc x = Ok z.
Proof.
  destruct x as [sg|sg| |sg m e]; simpl; try done; [by intros ->%Z.eqb_eq|].
  destruct (Z.leb_spec 0 e) as [He|He]; intros Hz%Z.eqb_eq; f_equal.
  - destruct sg; lia.
  - pose proof (Z.pow_pos_nonneg 2 (- e) ltac:(lia) ltac:(lia)).
    destruct sg.
    + replace (Z.pos m) with (- z * 2 ^ (- e)) by lia. rewrite Z.div_mul by lia. lia.
    + replace (Z.pos m) with (z * 2 ^ (- e)) by lia. rewrite Z.div_mul by lia. lia.
Qed.

(** A seat the native side can be asked for, and the comparison Python makes,
    pick the same members. *)
Lemma slot_is_seat k seat s : _native_seat k = Some seat → slot_is s k = true ↔ s = Some seat.
Proof.
  unfold _native_seat. destruct k as [|b|z|x| | | | | | | | | |]; try done; intros Hs.
  - destruct ((0 <=? _) && _); simplify_eq. destruct s as [s|]; simpl; [|done].
    rewrite Z.eqb_eq. naive_solver.
  - destruct ((0 <=? _) && _); simplify_eq. destruct s as [s|]; simpl; [|done].
    rewrite Z.eqb_eq. naive_solver.
  - destruct (trunc x) as [z|] eqn:Et; [|done].
    destruct (float_is_int x z) eqn:Ex; [|done]. destruct ((0 <=? _) && _); simplify_eq.
    destruct s as [s|]; simpl; [|done]. split; [|by intros [= ->]].
    intros Hs%float_is_int_trunc. congruence.
Qed.

Lemma slot_is_no_seat k s :
  _native_seat k = None → k ≠ VNone → (∀ z, s = Some z → is_u64 z = true) → slot_is s k = false.
Proof.
  unfold _native_seat, is_u64.
  destruct k as [|b|z|x| | | | | | | | | |], s as [s|]; try done; simpl; intros Hs _ Hu;
    specialize (Hu s eq_refl).
  - destruct b; [|done]. by vm_compute in Hs.
  - destruct (Z.eqb_spec s z) as [->|]; [|done]. by rewrite Hu in Hs.
  - destruct (float_is_int x s) eqn:Ex; [|done]. rewrite (float_is_int_trunc _ _ Ex), Ex, Hu in Hs. done.
Qed.

Lemma found_native is_async pool view m b hp :
  member_found ((Some <$> native_handle is_async pool view m b) hp) = Some (Some m).
Proof.
  unfold native_handle, alloc. unfold fmap, M_fmap, mbind, M_bind, get, modify, mret, M_ret.
  cbn [member_found]. unfold handle_member. cbn [hp_handles].
  by rewrite list_lookup_middle.
Qed.

(** The members as a snapshot of this view hands them out. *)
Lemma snapshot_materialized pool view is_async hp :
  let ms := fm_members (fp_members view) in
  let l := seq (length (hp_handles hp)) (length ms) in
  sn_members (snapshot_from_native pool view is_async) hp =
  (Ok (l, Snapshot pool (fp_version view) (Some view) (Some l) is_async),
   Heap (hp_handles hp ++
         map (fresh_handle is_async pool view (Some (length (hp_batches hp)))) (imap pair ms))
     (hp_batches hp ++ [StateBatch (Some (map m_state ms)) None])).
Proof.
  intros ms l. unfold sn_members, snapshot_from_native. cbn [sn_materialized sn_view].
  rewrite M_bind_unfold. cbn [sn_async sn_pool]. by rewrite materialize_spec.
Qed.

(** Searching the materialised members of a view. *)
Lemma search_materialized is_async pool view b test P pre bs :
  (∀ m, m ∈ fm_members (fp_members view) →
     ∀ i, test (fresh_handle is_async pool view b (i, m)) = Ok (P m)) →
  member_found (first_handle test (seq (length pre) (length (fm_members (fp_members view))))
    (Heap (pre ++ map (fresh_handle is_async pool view b) (imap pair (fm_members (fp_members view)))) bs))
  = Some (head (filter (λ m, P m = true) (fm_members (fp_members view)))).
Proof.
  intros Ht. set (ms := fm_members (fp_members view)) in *.
  pose proof (first_handle_fresh is_async pool view b test P (imap pair ms) pre [] bs) as H.
  rewrite app_nil_r, length_imap, imap_pair_snd in H. apply H.
  intros [i m] Him. apply Ht. by eapply list_elem_of_lookup_2, elem_of_imap_pair.
Qed.

(** What the wire can carry: unsigned 64-bit ids, seats and tenures, ids
    unique. *)
Record members_ok (ms : list member) : Prop := {
  mo_key : ∀ m, m ∈ ms → is_u64 (default (m_id m) (m_slot m)) = true;
  mo_incarnation : ∀ m, m ∈ ms → is_u64 (m_incarnation m) = true;
  mo_unique : ∀ a b, a ∈ ms → b ∈ ms → m_id a = m_id b → a = b
}.

(** On an identity as [_identity] writes it, taking it apart and comparing
    the strings agree. *)
Lemma identity_matches_canonical pool m q k n :
  is_u64 (default (m_id m) (m_slot m)) = true → is_u64 (m_incarnation m) = true →
  is_u64 k = true → is_u64 n = true →
  identity_matches pool m (_identity q (Some k) 0 n) = bool_decide (member_identity pool m = _identity q (Some k) 0 n).
Proof.
  intros Hk Hi Hk' Hn. apply eq_true_iff_eq.
  rewrite identity_matches_true, bool_decide_eq_true, (identity_parts_ok q (Some k) 0 n) by done.
  simpl. unfold member_identity. split.
  - intros [= -> -> ->]. unfold _identity. by destruct (m_slot m).
  - intros Heq. pose proof (identity_parts_ok pool (m_slot m) (m_id m) (m_incarnation m) Hk Hi) as H.
    rewrite Heq, (identity_parts_ok q (Some k) 0 n) in H by done. exact H.
Qed.

(** ** Properties *)

Lemma snapshot_slot_same (ms : list member) (view : frozen_pool) (pool : pystr) (is_async : bool)
    (k : pyval) (hp : heap) :
  fp_members view = freeze ms → members_ok ms → k ≠ VNone →
  let s := snapshot_from_native pool view is_async in
  ∃ l s' hp', sn_members s hp = (Ok (l, s'), hp') ∧
    member_found (sn_slot s k hp) = member_found (sn_slot s' k hp').
Proof.
  intros Hv Hms Hk s. eexists _, _, _. split; [apply snapshot_materialized|].
  unfold sn_slot. cbn [sn_materialized sn_view].
  rewrite (search_materialized _ _ _ _ _ (λ m, slot_is (m_slot m) k)) by done.
  unfold s, snapshot_from_native. cbn [sn_materialized sn_view].
  destruct (_native_seat k) as [seat|] eqn:Ek.
  - unfold view_slot. rewrite Hv, frozen_slot_spec. cbn [sn_async sn_pool].
    rewrite (list_filter_iff (λ m, m_slot m = Some seat) (λ m, slot_is (m_slot m) k = true))
      by (intros m; by rewrite (slot_is_seat k seat)).
    destruct (head _) as [m|]; [apply found_native|done].
  - destruct (head (filter (λ m, slot_is (m_slot m) k = true) _)) as [m|] eqn:E; [|done].
    apply head_filter_some in E as [Hin Hs]. exfalso.
    rewrite Hv, freeze_elem in Hin. rewrite (slot_is_no_seat k) in Hs; [done..|].
    intros z Hz. pose proof (mo_key _ Hms m Hin) as Hu. by rewrite Hz in Hu.
Qed.

Lemma snapshot_get_same (ms : list member) (view : frozen_pool) (pool q : pystr) (is_async : bool)
    (key incarnation : Z) (hp : heap) :
  fp_members view = freeze ms → members_ok ms → is_u64 key = true → is_u64 incarnation = true →
  let s := snapshot_from_native pool view is_async in
  let identity := _identity q (Some key) 0 incarnation in
  ∃ l s' hp', sn_members s hp = (Ok (l, s'), hp') ∧
    identity_found pool (sn_get s identity hp)
    = identity_found pool (sn_get s' identity hp').
Proof.
  intros Hv Hms Hk Hi s identity. eexists _, _, _. split; [apply snapshot_materialized|].
  unfold identity_found, sn_get. cbn [sn_materialized sn_view].
  rewrite (search_materialized _ _ _ _ _ (λ m, bool_decide (member_identity pool m = identity))) by done.
  unfold s, snapshot_from_native. cbn [sn_materialized sn_view]. unfold view_get.
  rewrite Hv. cbn [sn_async sn_pool].
  assert (∀ m, m ∈ ms → identity_matches pool m identity = bool_decide (member_identity pool m = identity))
    as Hcan.
  { intros m Hm. apply identity_matches_canonical; [by apply (mo_key _ Hms)|by apply (mo_incarnation _ Hms)|done|done]. }
  destruct (frozen_get (freeze ms) pool identity) as [m|] eqn:E.
  - rewrite found_native. apply frozen_get_sound in E as [Hm Hmat]. rewrite Hcan in Hmat by done.
    destruct (head_filter_is_some (λ m, bool_decide (member_identity pool m = identity) = true)
                (fm_members (freeze ms)) m) as [m' Hm']; [by apply freeze_elem|done|].
    rewrite Hm'. apply head_filter_some in Hm' as [_ Hm'].
    apply bool_decide_eq_true in Hmat, Hm'. simpl. by rewrite Hmat, Hm'.
  - destruct (head _) as [m|] eqn:Eh; [|done]. exfalso.
    apply head_filter_some in Eh as [Hin Hid]. rewrite freeze_elem in Hin. rewrite <-Hcan in Hid by done.
    destruct (frozen_get_complete ms pool identity m) as [? ?]; [apply (mo_unique _ Hms)|done|done|congruence].
Qed.

(** A snapshot answers about a moment, and touching its members does not
    change the answer: looking a seat up by number, or a tenure up by its
    identity, finds the same member before the members have been materialised
    (natively, through the indexes) and after (by scanning the handles). *)
Theorem snapshot_lookup_stable (ms : list member) (view : frozen_pool) (pool q : pystr)
    (is_async : bool) (k : pyval) (key incarnation : Z) (hp : heap) :
  fp_members view = freeze ms → members_ok ms → k ≠ VNone →
  is_u64 key = true → is_u64 incarnation = true →
  let s := snapshot_from_native pool view is_async in
  let identity := _identity q (Some key) 0 incarnation in
  ∃ l s' hp', sn_members s hp = (Ok (l, s'), hp') ∧
    member_found (sn_slot s k hp) = member_found (sn_slot s' k hp') ∧
    identity_found pool (sn_get s identity hp)
    = identity_found pool (sn_get s' identity hp').
Proof.
  intros Hv Hms Hk Hkey Hi s identity.
  destruct (snapshot_slot_same ms view pool is_async k hp Hv Hms Hk) as (l & s' & hp' & Hm & Hs).
  destruct (snapshot_get_same ms view pool q is_async key incarnation hp Hv Hms Hkey Hi)
    as (l2 & s2 & hp2 & Hm2 & Hg).
  exists l, s', hp'. split; [done|]. split; [done|]. subst s. rewrite Hm in Hm2. by simplify_eq.
Qed.

Definition sample_members : list member :=
  [Member 7 (Some 7) 42 (Some (u "10.0.0.1:80")) (Object [(u "step", Int 3)]) true;
   Member 5 (Some 5) 41 None (Object []) false].

Definition sample_view : frozen_pool := FrozenPool (freeze sample_members) 0 9 (Some 8) [u "infer"].

Lemma sample_members_ok : members_ok sample_members.
Proof.
  split.
  - intros m Hm. by elem_cases Hm; subst.
  - intros m Hm. by elem_cases Hm; subst.
  - intros a b Ha Hb. by elem_cases Ha; elem_cases Hb; subst.
Qed.

Lemma snapshot_lookup_stable_witness :
  let s := snapshot_from_native (u "engine") sample_view false in
  let identity := _identity (u "engine") (Some 5) 0 41 in
  ∃ l s' hp', sn_members s (Heap [] []) = (Ok (l, s'), hp') ∧
    member_found (sn_slot s (VInt 7) (Heap [] [])) = member_found (sn_slot s' (VInt 7) hp') ∧
    identity_found (u "engine") (sn_get s identity (Heap [] []))
    = identity_found (u "engine") (sn_get s' identity hp').
Proof.
  apply (snapshot_lookup_stable sample_members sample_view (u "engine") (u "engine") false
           (VInt 7) 5 41 (Heap [] [])); [reflexivity|apply sample_members_ok|discriminate|reflexivity|reflexivity].
Defined.

(** An identity that is not spelled the way [_identity] spells it is found
    natively and not by the scan: the answer of [Snapshot.get] then depends on
    whether the members were touched before. *)
Lemma snapshot_get_spelling :
  let s := snapshot_from_native (u "engine") sample_view false in
  let identity := u "engine/007#42" in
  ∃ l s' hp', sn_members s (Heap [] []) = (Ok (l, s'), hp') ∧
    is_Some (member_found (sn_get s identity (Heap [] [])) ≫= id) ∧
    member_found (sn_get s' identity hp') = Some None.
Proof.
  eexists _, _, _. split; [vm_compute; reflexivity|]. split; vm_compute; [by eexists|reflexivity].
Qed.

(** ** States are decoded once, and each handle gets its own *)

Section States.
Context (to_vec_named : list value → list N) (msgpack_decode : list N → res (list pyval)).
Context (is_async : bool) (pool : pystr) (view : frozen_pool) (base b : nat).
Notation ms := (fm_members (fp_members view)).
Notation states := (map m_state ms).
Context (Hcodec : msgpack_decode (to_vec_named states) = Ok (map json_to_py states)).

Definition own_state (m : member) : pyval := or_dict (json_to_py (m_state m)).

(** The handles of one materialisation and their batch, at any point of being
    read. *)
Record reading (decoded : bool) (hp : heap) : Prop := {
  rd_handles : ∀ i m, ms !! i = Some m → ∃ st,
    hp_handles hp !! (base + i)%nat =
      Some (Handle (Some (NativeMember pool m (Some (b, i)))) (fp_methods view) st None is_async) ∧
    (st = None ∨ st = Some (own_state m));
  rd_batch : hp_batches hp !! b =
    Some (if decoded then StateBatch None (Some (map json_to_py states))
          else StateBatch (Some states) None)
}.

Lemma batch_get_reading d hp i m :
  reading d hp → ms !! i = Some m →
  ∃ hp', batch_get to_vec_named msgpack_decode b i hp = (Ok (json_to_py (m_state m)), hp') ∧
         hp_handles hp' = hp_handles hp ∧ reading true hp'.
Proof using Hcodec.
  intros [Hh Hb] Hm. assert (map json_to_py states !! i = Some (json_to_py (m_state m))) as Hi.
  { rewrite !list_lookup_fmap, Hm. done. }
  unfold batch_get. rewrite M_bind_unfold. unfold get. rewrite Hb.
  destruct d; cbn [sb_states sb_native default].
  - rewrite M_bind_unfold. unfold mret at 1, M_ret at 1. rewrite Hi. exists hp. split_and!; done.
  - rewrite M_bind_unfold, M_bind_unfold. unfold lift. cbn [from_option id]. rewrite Hcodec.
    rewrite M_bind_unfold. unfold modify, mret, M_ret. rewrite Hi.
    eexists. split_and!; [done|done|]. split; [done|]. cbn [hp_batches].
    apply list_lookup_insert_eq. by eapply lookup_lt_Some.
Qed.

Lemma getattr_reading d hp i m :
  reading d hp → ms !! i = Some m →
  ∃ hp' d', handle_getattr to_vec_named msgpack_decode (base + i) (u "state") hp
            = (Ok (AState (own_state m)), hp') ∧ reading d' hp'.
Proof using Hcodec.
  intros Hr Hm. destruct (rd_handles _ _ Hr i m Hm) as (st & Hl & Hst).
  unfold handle_getattr. rewrite M_bind_unfold. unfold get. rewrite Hl.
  rewrite bool_decide_true by done. cbn [h_state h_native h_methods h_overrides h_async].
  destruct Hst as [-> | ->]; [|by exists hp, d].
  rewrite M_bind_unfold. cbn [materialize_state nm_batch].
  destruct (batch_get_reading d hp i m Hr Hm) as (hp' & -> & Hhs & Hr').
  rewrite M_bind_unfold. unfold modify, mret, M_ret. eexists _, true. split; [done|].
  split; [|apply Hr']. intros j m' Hm'. cbn [hp_handles].
  destruct (decide (j = i)) as [->|Hne].
  - assert (m' = m) as -> by congruence. eexists. split; [|by right].
    apply list_lookup_insert_eq. rewrite Hhs. by eapply lookup_lt_Some.
  - rewrite list_lookup_insert_ne by lia. by apply Hr'.
Qed.

Lemma getattrs_reading d hp (reads : list nat) :
  reading d hp → Forall (λ i, is_Some (ms !! i)) reads →
  ∃ hp', mapM (λ i, handle_getattr to_vec_named msgpack_decode (base + i) (u "state")) reads hp
         = (Ok (omap (λ i, AState ∘ own_state <$> ms !! i) reads), hp').
Proof using Hcodec.
  intros Hr HF. revert d hp Hr. induction HF as [|i reads [m Hm] HF IH]; intros d hp Hr; [by eexists|].
  simpl. rewrite M_bind_unfold.
  destruct (getattr_reading d hp i m Hr Hm) as (hp1 & d1 & -> & Hr1).
  rewrite M_bind_unfold. destruct (IH d1 hp1 Hr1) as [hp2 ->]. exists hp2.
  rewrite Hm. done.
Qed.
End States.

Lemma materialize_reading is_async pool view hp :
  ∃ hp', materialize is_async pool view hp
         = (Ok (seq (length (hp_handles hp)) (length (fm_members (fp_members view)))), hp') ∧
         reading is_async pool view (length (hp_handles hp)) (length (hp_batches hp)) false hp'.
Proof.
  rewrite materialize_spec. eexists. split; [done|]. split.
  - intros i m Hm. cbn [hp_handles]. exists None. split; [|by left].
    rewrite lookup_app_r by lia. rewrite Nat.add_sub', list_lookup_fmap, list_lookup_imap, Hm. done.
  - cbn [hp_batches]. by rewrite list_lookup_middle.
Qed.

(** Reading the published state of the handles of a lookup, in any order
    and any number of times, gives each handle the state its own member
    published, although all of them share one lazily decoded batch; the codec
    of the batch is asked about that batch's states alone. *)
Theorem handle_states_exact (to_vec_named : list value → list N)
    (msgpack_decode : list N → res (list pyval)) (is_async : bool) (pool : pystr)
    (view : frozen_pool) (hp : heap) (reads : list nat) :
  let ms := fm_members (fp_members view) in
  msgpack_decode (to_vec_named (map m_state ms)) = Ok (map json_to_py (map m_state ms)) →
  Forall (λ i, is_Some (ms !! i)) reads →
  ∃ hp1 hp2,
    materialize is_async pool view hp = (Ok (seq (length (hp_handles hp)) (length ms)), hp1) ∧
    mapM (λ i, handle_getattr to_vec_named msgpack_decode (length (hp_handles hp) + i) (u "state"))
      reads hp1
    = (Ok (omap (λ i, AState ∘ own_state <$> ms !! i) reads), hp2).
Proof.
  intros ms Hc Hr. destruct (materialize_reading is_async pool view hp) as (hp1 & Hm & Hrd).
  destruct (getattrs_reading to_vec_named msgpack_decode is_async pool view _ _ Hc _ _ reads Hrd Hr)
    as [hp2 Hg]. by exists hp1, hp2.
Qed.

Lemma handle_states_exact_witness :
  ∃ hp1 hp2,
    materialize false (u "engine") sample_view (Heap [] []) = (Ok [0; 1]%nat, hp1) ∧
    mapM (λ i, handle_getattr (λ _, []) (λ _, Ok [VDict []; VDict [(VStr (u "step"), VInt 3)]]) i (u "state"))
      [1; 0; 1]%nat hp1
    = (Ok [AState (VDict [(VStr (u "step"), VInt 3)]); AState (VDict []);
           AState (VDict [(VStr (u "step"), VInt 3)])], hp2).
Proof.
  apply (handle_states_exact (λ _, []) (λ _, Ok [VDict []; VDict [(VStr (u "step"), VInt 3)]])
           false (u "engine") sample_view (Heap [] []) [1; 0; 1]%nat).
  - vm_compute. reflexivity.
  - repeat constructor; vm_compute; by eexists.
Defined.
