(* ===== verification/World.v ===== *)
(** * The world a Python thread runs in

    The heartbeat is modelled by its effect on the shared state: a beat is
    composed ([EvSend]), answered ([EvAck]) or lost ([EvFail]); time passes
    ([EvTime]); another thread leaves ([EvLeave]), closes a watch ([EvClose])
    or rings the bell ([EvRing]); a sleeper wakes for no reason ([EvSpurious]).
    (A native wait is closed by [leave] alone.)
    A Python thread runs against a script of such events: before each native call the next batch of the script happens, so every
    interleaving of the two is some script.  A thread that is still waiting
    when the script has run out is [Blocked]: nothing more will happen. *)

From S2P Require Import Prelude PyStr PyFloat Errors Identity Json Cache Shared Views.

Local Open Scope Z_scope.

Inductive event :=
| EvSend
| EvAck (k : nat) (ack : beat_ack)
| EvFail (k : nat)
| EvTime (mono : pyfloat) (ms : Z)
| EvRing
| EvLeave
| EvClose (i : nat)
| EvSpurious.

(** [class _Watching]: the pool it follows, the revision it has seen, its
    deadline, its baseline digest ([None]: [_NO_DIGEST]). *)
Record watching := Watching_ {
  wa_pool : pystr;
  wa_seen : Z;
  wa_deadline : option pyfloat;
  wa_closed : bool;
  wa_tick : Z;
  wa_fields : option (list pystr);
  wa_digest : option (option Z)
}.

(** The client's shared state, the monotonic clock, the watches and native
    waits of this process with the ones still live, whether this client is the
    process's current one, the objects it handed out, and what is still to
    happen. *)
Record world := World {
  w_sh : shared;
  w_mono : pyfloat;
  w_watches : list watching;
  w_live_watches : list nat;
  w_waits : list cache_waiter;
  w_live_waits : list nat;
  w_current : bool;
  w_heap : heap;
  w_script : list (list event)
}.

Definition with_sh (w : world) (s : shared) : world :=
  World s (w_mono w) (w_watches w) (w_live_watches w) (w_waits w) (w_live_waits w) (w_current w) (w_heap w) (w_script w).

Definition with_watches (w : world) (l : list watching) (live : list nat) : world :=
  World (w_sh w) (w_mono w) l live (w_waits w) (w_live_waits w) (w_current w) (w_heap w) (w_script w).

Definition with_waits (w : world) (l : list cache_waiter) (live : list nat) : world :=
  World (w_sh w) (w_mono w) (w_watches w) (w_live_watches w) l live (w_current w) (w_heap w) (w_script w).

Definition with_script (w : world) (l : list (list event)) : world :=
  World (w_sh w) (w_mono w) (w_watches w) (w_live_watches w) (w_waits w) (w_live_waits w) (w_current w) (w_heap w) l.

(** The in-flight publication at position [k], taken off the wire. *)
Definition take_off (k : nat) (l : list Z) : option (Z * list Z) :=
  showing ← l !! k; Some (showing, take k l ++ drop (S k) l).

Definition close_watching (wa : watching) : watching :=
  Watching_ (wa_pool wa) (wa_seen wa) (wa_deadline wa) true (wa_tick wa) (wa_fields wa) (wa_digest wa).

Definition close_waiter (wt : cache_waiter) : cache_waiter :=
  CacheWaiter (wt_pool wt) (wt_condition wt) true.

(** Close the live ones of a list. *)
Definition close_live {A} (close : A → A) (live : list nat) (l : list A) : list A :=
  imap (λ i a, if bool_decide (i ∈ live) then close a else a) l.

(** How often a leaving thread rings: once per watch and once per open native
    wait it closes. *)
Definition leave_rings (w : world) : nat :=
  length (w_live_watches w) +
  length (filter (λ i, wt_closed <$> w_waits w !! i = Some false) (w_live_waits w)).

(** One event. *)
Definition happen (w : world) (e : event) : world :=
  match e with
  | EvSend => with_sh w (beat_sent (w_sh w))
  | EvAck k ack =>
      match take_off k (sh_in_flight (w_sh w)) with
      | Some (showing, rest) => with_sh w (beat_landed (w_sh w) showing rest ack)
      | None => w
      end
  | EvFail k =>
      match take_off k (sh_in_flight (w_sh w)) with
      | Some (_, rest) => with_sh w (beat_lost (w_sh w) rest)
      | None => w
      end
  | EvTime mono ms =>
      World (with_in_flight (w_sh w) (sh_in_flight (w_sh w)) (Z.max (sh_now_ms (w_sh w)) ms)) mono
        (w_watches w) (w_live_watches w) (w_waits w) (w_live_waits w) (w_current w) (w_heap w) (w_script w)
  | EvRing => with_sh w (ring (w_sh w))
  | EvLeave =>
      World (Nat.iter (leave_rings w) ring (w_sh w)) (w_mono w)
        (close_live close_watching (w_live_watches w) (w_watches w)) []
        (close_live close_waiter (w_live_waits w) (w_waits w)) (w_live_waits w)
        false (w_heap w) (w_script w)
  | EvClose i =>
      match w_watches w !! i with
      | Some wa =>
          if wa_closed wa then w
          else with_sh (with_watches w (alter close_watching i (w_watches w)) (filter (λ j, j ≠ i) (w_live_watches w)))
                 (ring (w_sh w))
      | None => w
      end
  | EvSpurious => w
  end.

(** ** Python code over the world *)

(** How a piece of code ends early: an exception, or still waiting when
    nothing more will happen. *)
Inductive halt := Exn (e : exn) | Blocked.

Notation W := (M world halt).

Definition throw {A} (c : exc_class) : W A := raise (Exn (Exc c)).

Definition lift_res {A} (r : res A) : W A :=
  match r with Ok a => mret a | Raise e => raise (Exn e) end.

(** The next batch of the script happens. *)
Definition tick : W unit := λ w,
  match w_script w with
  | [] => (Ok tt, w)
  | batch :: script => (Ok tt, fold_left happen batch (with_script w script))
  end.

(** A native read: whatever happened before it, then the answer. *)
Definition native_read {A} (f : shared → A) : W A := tick ;; gets (λ w, f (w_sh w)).

(** A native call that changes the shared state. *)
Definition native_call {A} (f : shared → res A * shared) : W A := λ w,
  let w1 := (tick w).2 in let '(r, s) := f (w_sh w1) in lift_res r (with_sh w1 s).

(** Code that only touches the objects. *)
Definition on_heap {A} (m : V A) : W A := λ w,
  let '(r, hp) := m (w_heap w) in
  (match r with Ok a => Ok a | Raise e => Raise (Exn e) end,
   World (w_sh w) (w_mono w) (w_watches w) (w_live_watches w) (w_waits w) (w_live_waits w)
     (w_current w) hp (w_script w)).

Definition monotonic : W pyfloat := gets w_mono.

Definition is_spurious (e : event) : bool := match e with EvSpurious => true | _ => false end.

(** The deadline has passed, when there is one. *)
Definition due (deadline : option Z) (s : shared) : bool :=
  match deadline with Some d => d <=? sh_now_ms s | None => false end.

(** Asleep on a bell: batches happen until one of them rings it (its count is
    no longer [since]), the time is up, or the wakeup is spurious.  The bell
    of the cache counts [sh_revision], the one of the beats
    [sh_beat_revision]. *)
Fixpoint sleep_go (bell : shared → Z) (since : Z) (deadline : option Z) (script : list (list event)) (w : world) :
    result halt unit * world :=
  match script with
  | [] => (Raise Blocked, with_script w [])
  | batch :: rest =>
      let w' := fold_left happen batch (with_script w rest) in
      if negb (bell (w_sh w') =? since) || due deadline (w_sh w') ||
         existsb is_spurious batch
      then (Ok tt, w')
      else sleep_go bell since deadline rest w'
  end.

Definition sleep_until (since : Z) (deadline : option Z) : W unit := λ w,
  sleep_go sh_revision since deadline (w_script w) w.

Definition sleep (since ms : Z) : W unit := λ w,
  sleep_until since (Some (sh_now_ms (w_sh w) + ms)) w.

(** A number crossing to the native side as a [u64]. *)
Definition u64_arg (z : Z) : W Z :=
  if (0 <=? z) && (z <? 2 ^ 64) then mret z else throw OverflowError.

(** [Client::wait_revision] *)
Definition wait_revision (since ms : Z) : W Z :=
  ms ← u64_arg ms;
  rev ← native_read sh_revision;
  if negb (rev =? since) then mret rev
  else sleep since ms ;; gets (λ w, sh_revision (w_sh w)).

(** A loop whose every turn that does not answer consumes a batch: with one
    turn more than there are batches, running out means that nothing more
    will happen. *)
Fixpoint loop_go {A} (fuel : nat) (body : W (option A)) : W A :=
  match fuel with
  | O => raise Blocked
  | S fuel' => r ← body; match r with Some a => mret a | None => loop_go fuel' body end
  end.

Definition loop {A} (body : W (option A)) : W A := λ w, loop_go (S (length (w_script w))) body w.

(** ** What the other threads can do *)

(** On the wire a version is unsigned. *)
Definition event_ok (e : event) : Prop :=
  match e with
  | EvAck _ ack => Forall (λ nd, 0 ≤ d_version nd.2) (ack_pools ack)
  | _ => True
  end.

Definition script_ok (w : world) : Prop := Forall (Forall event_ok) (w_script w).

Definition wrev (w : world) : Z := sh_revision (w_sh w).

(** The watch is live and nobody has closed it. *)
Definition open_watch (w : world) (i : nat) : Prop :=
  i ∈ w_live_watches w ∧ ∃ wa, w_watches w !! i = Some wa ∧ wa_closed wa = false.

(** The watch exists, and is closed or live. *)
Definition known_watch (w : world) (i : nat) : Prop :=
  ∃ wa, w_watches w !! i = Some wa ∧ (wa_closed wa = true ∨ i ∈ w_live_watches w).

(** While others run: the revision does not go back; while it stands still,
    neither the cache nor the acceptance of the seat nor any open watch has
    changed. *)
Record passed (w w' : world) : Prop := {
  pt_rev : wrev w ≤ wrev w';
  pt_quiet : wrev w = wrev w' →
    sh_cache (w_sh w') = sh_cache (w_sh w) ∧ sh_accepted (w_sh w') = sh_accepted (w_sh w) ∧
    ∀ i, open_watch w i → open_watch w' i;
  pt_watch : ∀ i wa, w_watches w !! i = Some wa →
    w_watches w' !! i = Some wa ∨ w_watches w' !! i = Some (close_watching wa);
  pt_known : ∀ i, known_watch w i → known_watch w' i;
  pt_waits : wrev w = wrev w' → w_waits w' = w_waits w;
  pt_waits_some : ∀ j, is_Some (w_waits w !! j) → is_Some (w_waits w' !! j)
}.

#[global] Instance passed_preorder : PreOrder passed.
Proof.
  split.
  - intros w. split; [done|done|auto|done|done|done].
  - intros w1 w2 w3 H12 H23. split.
    + etransitivity; [apply H12|apply H23].
    + intros Heq. pose proof (pt_rev _ _ H12). pose proof (pt_rev _ _ H23).
      destruct (pt_quiet _ _ H12) as (E1 & E2 & Ho); [lia|].
      destruct (pt_quiet _ _ H23) as (E3 & E4 & Ho'); [lia|]. split_and!; [congruence..|auto].
    + intros i wa Hi. destruct (pt_watch _ _ H12 i wa Hi) as [H|H];
        destruct (pt_watch _ _ H23 i _ H) as [H'|H']; auto.
    + intros i Hi. by apply (pt_known _ _ H23), (pt_known _ _ H12).
    + intros Heq. pose proof (pt_rev _ _ H12). pose proof (pt_rev _ _ H23).
      rewrite (pt_waits _ _ H23) by lia. apply (pt_waits _ _ H12). lia.
    + intros j Hj. by apply (pt_waits_some _ _ H23), (pt_waits_some _ _ H12).
Qed.

(** From [w] to [w'], this thread not writing: exactly the events of the
    batches taken off the script happened. *)
Definition elapsed (w w' : world) : Prop :=
  ∃ pre, w_script w = pre ++ w_script w' ∧
         w' = with_script (fold_left happen (concat pre) w) (w_script w').

Lemma happen_with_script w e sc : happen (with_script w sc) e = with_script (happen w e) sc.
Proof.
  destruct e as [|k ack|k|mono ms| | |i|]; try done; simpl; [by destruct (take_off k _) as [[]|]..|].
  destruct (w_watches w !! i) as [wa|]; [|done]. by destruct (wa_closed wa).
Qed.

Lemma happens_with_script es w sc :
  fold_left happen es (with_script w sc) = with_script (fold_left happen es w) sc.
Proof. revert w. induction es as [|e es IH]; intros w; [done|]. simpl. by rewrite happen_with_script. Qed.

Lemma with_script_same w : with_script w (w_script w) = w.
Proof. by destruct w. Qed.

#[global] Instance elapsed_preorder : PreOrder elapsed.
Proof.
  split.
  - intros w. exists []. simpl. by rewrite with_script_same.
  - intros w1 w2 w3 (p1 & H1 & E1) (p2 & H2 & E2). exists (p1 ++ p2). split.
    + by rewrite H1, H2, app_assoc.
    + rewrite concat_app, fold_left_app, E2 at 1. rewrite E1, happens_with_script. done.
Qed.

Lemma happens_script batch w : w_script (fold_left happen batch w) = w_script w.
Proof.
  revert w. induction batch as [|e batch IH]; intros w; simpl; [done|]. rewrite IH.
  destruct e; simpl; try done; [by destruct (take_off _ _) as [[? ?]|]..|].
  destruct (w_watches w !! i) as [wa|]; [|done]. by destruct (wa_closed wa).
Qed.

Lemma elapsed_batch w batch rest :
  w_script w = batch :: rest → elapsed w (fold_left happen batch (with_script w rest)).
Proof.
  intros Hs. exists [batch]. rewrite happens_script. simpl. split; [done|].
  by rewrite app_nil_r, happens_with_script.
Qed.

Lemma elapsed_tick w : elapsed w (tick w).2.
Proof.
  unfold tick. destruct (w_script w) as [|batch rest] eqn:E; [done|]. by apply elapsed_batch.
Qed.

Lemma elapsed_sleep bell since deadline w :
  elapsed w (sleep_go bell since deadline (w_script w) w).2.
Proof.
  remember (w_script w) as script eqn:Hs. revert w Hs.
  induction script as [|batch rest IH]; intros w Hs; cbn [sleep_go].
  - rewrite Hs, with_script_same. done.
  - pose proof (elapsed_batch w batch rest (eq_sym Hs)) as He.
    destruct (_ || _); [done|]. etransitivity; [exact He|]. apply IH. by rewrite happens_script.
Qed.

(** From one moment to a later one, this thread not running. *)
Record later (w w' : world) : Prop := {
  lt_passed : passed w w';
  lt_elapsed : elapsed w w'
}.

#[global] Instance later_preorder : PreOrder later.
Proof.
  split; [by split|]. intros w1 w2 w3 [P1 E1] [P2 E2]. split; [by transitivity w2|by transitivity w2].
Qed.

Section Later.
Context {w w' : world} (Hl : later w w').
#[local] Set Default Proof Using "Type*".

Lemma lt_rev : wrev w ≤ wrev w'.
Proof. apply (pt_rev _ _ (lt_passed _ _ Hl)). Qed.
Lemma lt_quiet :
  wrev w = wrev w' →
  sh_cache (w_sh w') = sh_cache (w_sh w) ∧ sh_accepted (w_sh w') = sh_accepted (w_sh w) ∧
  ∀ i, open_watch w i → open_watch w' i.
Proof. apply (pt_quiet _ _ (lt_passed _ _ Hl)). Qed.
Lemma lt_watch i wa :
  w_watches w !! i = Some wa → w_watches w' !! i = Some wa ∨ w_watches w' !! i = Some (close_watching wa).
Proof. apply (pt_watch _ _ (lt_passed _ _ Hl)). Qed.
Lemma lt_known i : known_watch w i → known_watch w' i.
Proof. apply (pt_known _ _ (lt_passed _ _ Hl)). Qed.
Lemma lt_waits : wrev w = wrev w' → w_waits w' = w_waits w.
Proof. apply (pt_waits _ _ (lt_passed _ _ Hl)). Qed.
Lemma lt_waits_some j : is_Some (w_waits w !! j) → is_Some (w_waits w' !! j).
Proof. apply (pt_waits_some _ _ (lt_passed _ _ Hl)). Qed.
Lemma lt_script : ∃ pre, w_script w = pre ++ w_script w'.
Proof. destruct (lt_elapsed _ _ Hl) as (pre & ? & _). by exists pre. Qed.
End Later.

(** Folding the pools of an answer in: when nothing changed, the cache is what
    it was. *)
Lemma apply_pools_quiet restarted pools cache changed cache' :
  Forall (λ nd, 0 ≤ d_version nd.2) pools →
  fold_left (apply_pool restarted) pools (cache, changed) = (cache', false) →
  cache' = cache ∧ changed = false.
Proof.
  intros HF. revert cache changed. induction HF as [|[name d] pools Hd HF IH]; intros cache changed; simpl.
  { by intros [= <- <-]. }
  destruct (restarted && negb (d_full d)); [by apply IH|].
  destruct (Z.ltb_spec (d_version d) (cp_version (default empty_pool (cache !! name)))) as [Hlt|Hge].
  - intros [-> ->]%IH. split; [|done]. simpl in Hd.
    destruct (cache !! name) as [c|] eqn:Ec; simpl in *; [by apply insert_id|lia].
  - intros [_ ?]%IH. done.
Qed.

Lemma apply_ack_quiet s ack alive s' :
  Forall (λ nd, 0 ≤ d_version nd.2) (ack_pools ack) →
  apply_ack s ack = (alive, false, s') →
  sh_cache s' = sh_cache s ∧ sh_accepted s' = sh_accepted s.
Proof.
  intros HF. unfold apply_ack.
  set (restarted := negb (sh_seen_epoch s =? 0) && negb (sh_seen_epoch s =? ack_epoch ack)).
  assert (restarted && negb (bool_decide (sh_cache s = ∅)) = false →
          (if restarted then ∅ else sh_cache s) = sh_cache s) as Hc.
  { destruct restarted; simpl; [|done]. by intros ->%negb_false_iff%bool_decide_eq_true. }
  destruct (ack_accepted ack); simpl.
  - destruct (fold_left _ _ _) as [cache' changed'] eqn:E. intros [= _ -> <-]. simpl. split; [|done].
    apply apply_pools_quiet in E as [-> Hch]; [|done]. auto.
  - intros [= _ [Hr Ha]%orb_false_iff <-]. simpl. rewrite Ha. auto.
Qed.

Lemma apply_ack_revision s ack : sh_revision (apply_ack s ack).2 = sh_revision s.
Proof.
  unfold apply_ack. destruct (ack_accepted ack); simpl; [|done].
  by destruct (fold_left _ _ _) as [? ?].
Qed.

Lemma beat_landed_quiet s showing fl ack :
  Forall (λ nd, 0 ≤ d_version nd.2) (ack_pools ack) →
  let s' := beat_landed s showing fl ack in
  sh_revision s ≤ sh_revision s' ∧
  (sh_revision s = sh_revision s' →
   sh_cache s' = sh_cache s ∧ sh_accepted s' = sh_accepted s).
Proof.
  intros HF. unfold beat_landed. pose proof (apply_ack_revision s ack) as Hrev.
  destruct (apply_ack s ack) as [[alive changed] s1] eqn:E. simpl in Hrev.
  destruct changed; simpl.
  - split; [lia|]. intros Heq. lia.
  - split; [lia|]. intros _. by eapply apply_ack_quiet.
Qed.

Lemma iter_ring_revision n s : sh_revision (Nat.iter n ring s) = sh_revision s + Z.of_nat n.
Proof. induction n as [|n IH]; simpl; [lia|]. rewrite IH. lia. Qed.

Lemma close_live_lookup {A} (f : A → A) live l i (a : A) :
  l !! i = Some a → close_live f live l !! i = Some a ∨ close_live f live l !! i = Some (f a).
Proof.
  intros Hi. unfold close_live. rewrite list_lookup_imap, Hi. simpl. case_bool_decide; auto.
Qed.

Lemma close_live_closed live (l : list cache_waiter) :
  (∀ j wt, j ∈ live → l !! j = Some wt → wt_closed wt = true) → close_live close_waiter live l = l.
Proof.
  intros H. apply list_eq. intros j. unfold close_live. rewrite list_lookup_imap.
  destruct (l !! j) as [wt|] eqn:E; [|done]. simpl. case_bool_decide as Hj; [|done].
  specialize (H j wt Hj E). unfold close_waiter. destruct wt. simpl in *. by rewrite H.
Qed.

(** An event that leaves the watches alone. *)
Lemma passed_shared w s :
  sh_revision (w_sh w) ≤ sh_revision s →
  (sh_revision (w_sh w) = sh_revision s →
   sh_cache s = sh_cache (w_sh w) ∧ sh_accepted s = sh_accepted (w_sh w)) →
  passed w (with_sh w s).
Proof.
  intros Hr Hq. split; [done| |by auto|done|done|done].
  intros Heq. destruct (Hq Heq) as [E1 E2]. split_and!; [done|done|]. by intros i Hi.
Qed.

Lemma happen_passed w e : event_ok e → passed w (happen w e).
Proof.
  intros He. destruct e as [|k ack|k|mono ms| | |i|]; simpl.
  - by apply passed_shared.
  - destruct (take_off k _) as [[showing fl]|]; [|done].
    destruct (beat_landed_quiet (w_sh w) showing fl ack He). by apply passed_shared.
  - destruct (take_off k _) as [[showing fl]|]; [|done]. by apply passed_shared.
  - split; simpl; [done|done|by auto|done|done|done].
  - apply passed_shared; simpl; lia.
  - split; unfold wrev; simpl; rewrite ?iter_ring_revision; [lia| | | | |].
    + unfold leave_rings. intros Heq. destruct (w_live_watches w) as [|j live] eqn:El; simpl in Heq; [|lia].
      assert (length (filter (λ i, wt_closed <$> w_waits w !! i = Some false) (w_live_waits w)) = 0%nat)
        as Hz by lia.
      simpl. rewrite Hz. simpl. split_and!; [done|done|].
      intros i [Hi _]. rewrite El in Hi. by apply not_elem_of_nil in Hi.
    + intros i wa. apply close_live_lookup.
    + intros i (wa & Hwa & Hk). unfold known_watch. simpl. unfold close_live.
      rewrite list_lookup_imap, Hwa. simpl. eexists. split; [done|]. left.
      case_bool_decide; [done|]. by destruct Hk.
    + unfold leave_rings. intros Heq. apply close_live_closed. intros j wt Hj Hwt.
      destruct (wt_closed wt) eqn:Hc; [done|]. exfalso.
      assert (j ∈ filter (λ i, wt_closed <$> w_waits w !! i = Some false) (w_live_waits w)) as Hin.
      { apply list_elem_of_filter. split; [|done]. rewrite Hwt. simpl. by rewrite Hc. }
      destruct (filter _ (w_live_waits w)); [by apply not_elem_of_nil in Hin|]. simpl in Heq. lia.
    + intros j [wt Hwt]. destruct (close_live_lookup close_waiter (w_live_waits w) _ j wt Hwt); eauto.
  - destruct (w_watches w !! i) as [wa|] eqn:Ei; [|done]. destruct (wa_closed wa) eqn:Ec; [done|].
    assert (∀ j wb, w_watches w !! j = Some wb → alter close_watching i (w_watches w) !! j = Some (if bool_decide (j = i) then close_watching wb else wb)) as Ha.
    { intros j wb Hj. case_bool_decide as Hij; [subst j; by rewrite list_lookup_alter_eq, Hj|by rewrite list_lookup_alter_ne]. }
    split; unfold wrev; simpl; [lia|lia| | |lia|done].
    + intros j wb Hj. rewrite (Ha j wb Hj). case_bool_decide; auto.
    + intros j (wb & Hj & Hk). unfold known_watch. simpl. rewrite (Ha j wb Hj). eexists. split; [done|].
      case_bool_decide as Hij; [by left|]. destruct Hk as [?|Hk]; [by left|right]. apply list_elem_of_filter. done.
  - done.
Qed.

Lemma happens_passed batch w : Forall event_ok batch → passed w (fold_left happen batch w).
Proof.
  intros HF. revert w. induction HF as [|e batch He HF IH]; intros w; simpl; [done|].
  transitivity (happen w e); [by apply happen_passed|apply IH].
Qed.

(** ** Reasoning about a thread *)

Lemma wp_throw {A} c w (Q : result halt A → world → Prop) :
  Q (Raise (Exn (Exc c))) w → wp (throw c) w Q.
Proof. done. Qed.

Lemma wp_u64_arg z w Q :
  Q (Ok z) w → Q (Raise (Exn (Exc OverflowError))) w → wp (u64_arg z) w Q.
Proof. unfold u64_arg. by destruct (_ && _). Qed.

Lemma wp_lift_res {A} (r : res A) w Q :
  (∀ a, r = Ok a → Q (Ok a) w) → (∀ e, r = Raise e → Q (Raise (Exn e)) w) → wp (lift_res r) w Q.
Proof. intros H1 H2. destruct r; [by apply H1|by apply H2]. Qed.

(** What a batch takes off the script. *)
Definition shorter (w w1 : world) : Prop :=
  (length (w_script w1) <= pred (length (w_script w)))%nat.

Lemma later_script_ok w w1 : later w w1 → script_ok w → script_ok w1.
Proof.
  intros Hl. unfold script_ok. destruct (lt_script Hl) as [pre ->]. by intros [_ ?]%Forall_app.
Qed.

Lemma later_le w w1 : later w w1 → (length (w_script w1) <= length (w_script w))%nat.
Proof. intros Hl. destruct (lt_script Hl) as [pre ->]. rewrite length_app. lia. Qed.

Lemma batch_later w batch rest :
  w_script w = batch :: rest → script_ok w →
  let w1 := fold_left happen batch (with_script w rest) in
  later w w1 ∧ shorter w w1 ∧ (length (w_script w1) < length (w_script w))%nat.
Proof.
  intros Hs Hok. unfold script_ok in Hok. rewrite Hs in Hok. apply Forall_cons in Hok as [Hb _].
  pose proof (happens_passed batch (with_script w rest) Hb) as Hp. cbv zeta.
  assert (passed w (with_script w rest)) as Hw by (split; [done|done|by auto|done|done|done]).
  split_and!; [split; [by transitivity (with_script w rest)|by apply elapsed_batch]|..]; unfold shorter;
    rewrite happens_script, Hs; simpl; lia.
Qed.

Lemma tick_later w :
  script_ok w →
  (tick w).1 = Ok tt ∧ later w (tick w).2 ∧ shorter w (tick w).2 ∧ (w_script w = [] → (tick w).2 = w).
Proof.
  intros Hok. unfold tick. destruct (w_script w) as [|batch rest] eqn:Hs.
  { split_and!; [done|done| |done]. unfold shorter. simpl. rewrite Hs. simpl. lia. }
  destruct (batch_later w batch rest Hs Hok) as (? & ? & ?). split_and!; [done|done|done|discriminate].
Qed.

(** A native read sees some later moment. *)
Lemma wp_native_read {A} (f : shared → A) w Q :
  script_ok w →
  (∀ w1, later w w1 → script_ok w1 → shorter w w1 → (w_script w = [] → w1 = w) →
     Q (Ok (f (w_sh w1))) w1) →
  wp (native_read f) w Q.
Proof.
  intros Hok HQ. destruct (tick_later w Hok) as (Ht & Hl & Hs & He).
  unfold native_read, wp. rewrite M_bind_unfold. destruct (tick w) as [r w1]. simpl in *. subst r.
  apply HQ; eauto using later_script_ok.
Qed.

Lemma sleep_go_spec bell since deadline w :
  script_ok w →
  match sleep_go bell since deadline (w_script w) w with
  | (Ok _, w1) => later w w1 ∧ (length (w_script w1) < length (w_script w))%nat
  | (Raise h, w1) => h = Blocked ∧ later w w1 ∧ w_script w1 = [] ∧
      (bell (w_sh w) = since → bell (w_sh w1) = since)
  end.
Proof.
  remember (w_script w) as script eqn:Hs. revert w Hs. induction script as [|batch rest IH]; intros w Hs Hok.
  - simpl. split_and!; try done. split; [split; [done|done|by auto|done|done|done]|]. exists []. simpl. split; [by rewrite <-Hs|done].
  - destruct (batch_later w batch rest (eq_sym Hs) Hok) as (Hl & Hsh & Hlt). cbn [sleep_go].
    set (w1 := fold_left happen batch (with_script w rest)) in *. rewrite <-Hs in Hlt.
    destruct (Z.eqb_spec (bell (w_sh w1)) since) as [Hr|Hr]; simpl; [|done].
    destruct (due deadline _ || _); [done|].
    assert (w_script w1 = rest) as Hw1 by (unfold w1; by rewrite happens_script).
    specialize (IH w1 (eq_sym Hw1) (later_script_ok _ _ Hl Hok)).
    destruct (sleep_go bell since deadline rest w1) as [[[]|h] w2].
    + destruct IH as [Hl2 Hlen]. split; [by transitivity w1|]. simpl. lia.
    + destruct IH as (-> & Hl2 & He & Hrev). split_and!; [done|by transitivity w1|done|by auto].
Qed.

Lemma wp_sleep_until since deadline w Q :
  script_ok w →
  (∀ w1, later w w1 → script_ok w1 → (length (w_script w1) < length (w_script w))%nat → Q (Ok tt) w1) →
  (∀ w1, later w w1 → script_ok w1 → w_script w1 = [] → (wrev w = since → wrev w1 = since) →
     Q (Raise Blocked) w1) →
  wp (sleep_until since deadline) w Q.
Proof.
  intros Hok Hwake Hblock. unfold wp, sleep_until.
  pose proof (sleep_go_spec sh_revision since deadline w Hok) as Hs.
  destruct (sleep_go _ _ _ _ w) as [[[]|h] w1]; simpl.
  - destruct Hs. apply Hwake; eauto using later_script_ok.
  - destruct Hs as (-> & ? & ? & ?). apply Hblock; eauto using later_script_ok.
Qed.

Lemma wp_sleep since ms w Q :
  script_ok w →
  (∀ w1, later w w1 → script_ok w1 → (length (w_script w1) < length (w_script w))%nat → Q (Ok tt) w1) →
  (∀ w1, later w w1 → script_ok w1 → w_script w1 = [] → (wrev w = since → wrev w1 = since) →
     Q (Raise Blocked) w1) →
  wp (sleep since ms) w Q.
Proof. apply wp_sleep_until. Qed.

(** Waiting for the revision to leave [since]: it comes back at a later
    moment, or stays asleep because nothing rang. *)
Lemma wp_wait_revision since ms w Q :
  script_ok w →
  (∀ r w1, later w w1 → script_ok w1 → (length (w_script w1) <= length (w_script w))%nat →
     (wrev w = since → (length (w_script w1) < length (w_script w))%nat) → Q (Ok r) w1) →
  (∀ w1, later w w1 → script_ok w1 → wrev w1 = since → Q (Raise Blocked) w1) →
  Q (Raise (Exn (Exc OverflowError))) w →
  wp (wait_revision since ms) w Q.
Proof.
  intros Hok Hwake Hblock Hover. unfold wait_revision. apply wp_bind, wp_u64_arg; [|done]. apply wp_bind, wp_native_read; [done|].
  intros w1 Hl Hok1 Hs He. destruct (Z.eqb_spec (sh_revision (w_sh w1)) since) as [Hr|Hr]; simpl.
  - apply wp_bind, wp_sleep; [done|..].
    + intros w2 Hl2 Hok2 Hlen. pose proof (later_le _ _ Hl).
      apply wp_gets, Hwake; [by transitivity w1|done|lia|lia].
    + intros w2 Hl2 Hok2 He2 Hrev. apply Hblock; [by transitivity w1|done|by apply Hrev].
  - apply wp_ret, Hwake; [done|done|by apply later_le|].
    intros Hw. unfold shorter in Hs. destruct (w_script w) as [|b l] eqn:E; simpl in *; [|lia].
    rewrite (He eq_refl) in Hr. done.
Qed.

(** A loop keeps its invariant, and every turn that does not answer takes
    something off the script: it ends only when its body does. *)
Lemma wp_loop {A} (body : W (option A)) (I : world → Prop) w Q :
  I w →
  (∀ w, I w → wp body w (λ r w1,
     match r with
     | Ok (Some a) => Q (Ok a) w1
     | Ok None => I w1 ∧ (length (w_script w1) < length (w_script w))%nat
     | Raise e => Q (Raise e) w1
     end)) →
  wp (loop body) w Q.
Proof.
  intros HI Hbody. unfold wp, loop.
  assert (∀ n w, I w → (length (w_script w) < n)%nat → Q (loop_go n body w).1 (loop_go n body w).2) as Hgo.
  { clear w HI. induction n as [|n IH]; intros w HI Hn; [lia|]. cbn [loop_go]. rewrite M_bind_unfold.
    specialize (Hbody w HI). unfold wp in Hbody. destruct (body w) as [[[a|]|e] w1]; simpl in Hbody.
    - done.
    - destruct Hbody as [HI1 Hlt]. apply IH; [done|lia].
    - done. }
  apply Hgo; [done|lia].
Qed.

(** Run the next native read of the thread: [w1] is the moment it sees. *)
Tactic Notation "wread" ident(w1) :=
  apply wp_bind, wp_native_read; [by eauto|];
  let Hl := fresh "Hl" w1 in let Hok := fresh "Hok" w1 in
  let Hs := fresh "Hs" w1 in let He := fresh "He" w1 in
  intros w1 Hl Hok Hs He; cbv beta.

(** Chain the moments. *)
Ltac later_trans :=
  repeat match goal with
  | H : later ?a ?b |- later ?a ?c => first [exact H | transitivity b; [exact H|]]
  end; try reflexivity.

(** What the events of the others depend on: of a watch, its flag alone. *)
Definition shadow (w : world) : shared * list bool * list nat * list cache_waiter * list nat :=
  (w_sh w, wa_closed <$> w_watches w, w_live_watches w, w_waits w, w_live_waits w).

Lemma close_live_shadow live (l l' : list watching) :
  wa_closed <$> l = wa_closed <$> l' → wa_closed <$> close_live close_watching live l = wa_closed <$> close_live close_watching live l'.
Proof.
  intros H. apply list_eq. intros i. apply (f_equal (.!! i)) in H. rewrite !list_lookup_fmap in *. unfold close_live.
  rewrite !list_lookup_imap. destruct (l !! i), (l' !! i); simpl in *; try done. f_equal. case_bool_decide; simpl; [done|congruence].
Qed.

Lemma happen_shadow w v e : shadow w = shadow v → shadow (happen w e) = shadow (happen v e).
Proof.
  unfold shadow. intros [= Hs Hc Hl Hw Hlw]. destruct e as [|k ack|k|mono ms| | |i|]; simpl; rewrite ?Hs, ?Hc, ?Hl, ?Hw, ?Hlw; try done.
  - destruct (take_off k _) as [[]|]; simpl; by rewrite ?Hs, ?Hc, ?Hl, ?Hw, ?Hlw.
  - destruct (take_off k _) as [[]|]; simpl; by rewrite ?Hs, ?Hc, ?Hl, ?Hw, ?Hlw.
  - unfold leave_rings. rewrite Hl, Hw, Hlw. by rewrite (close_live_shadow _ _ _ Hc).
  - pose proof (f_equal (.!! i) Hc) as Hi. rewrite !list_lookup_fmap in Hi.
    destruct (w_watches w !! i) as [a|] eqn:Ea, (w_watches v !! i) as [b|] eqn:Eb; simpl in Hi; try done; simpl; rewrite ?Hs, ?Hc, ?Hl, ?Hw, ?Hlw; [|done].
    injection Hi as Hi. rewrite Hi. destruct (wa_closed b); simpl; rewrite ?Hs, ?Hc, ?Hl, ?Hw, ?Hlw; [done|]. do 4 f_equal.
    apply list_eq. intros j. apply (f_equal (.!! j)) in Hc. rewrite !list_lookup_fmap in *.
    destruct (decide (j = i)) as [->|Hne]; [by rewrite !list_lookup_alter_eq, Ea, Eb|by rewrite !list_lookup_alter_ne].
Qed.

Lemma happens_shadow es w v : shadow w = shadow v → shadow (fold_left happen es w) = shadow (fold_left happen es v).
Proof. revert w v. induction es as [|e es IH]; intros w v Hs; simpl; [done|]. by apply IH, happen_shadow. Qed.

(** This thread having run: it may have written to its watches, and the rest
    is what the events taken off the script made of it. *)
Definition ran (w w' : world) : Prop :=
  ∃ pre, w_script w = pre ++ w_script w' ∧ shadow w' = shadow (fold_left happen (concat pre) w).

(** From one moment to a later one of this thread's run. *)
Record moved (w w' : world) : Prop := {
  mv_rev : wrev w ≤ wrev w';
  mv_quiet : wrev w = wrev w' →
    sh_cache (w_sh w') = sh_cache (w_sh w) ∧ sh_accepted (w_sh w') = sh_accepted (w_sh w) ∧
    ∀ i, open_watch w i → open_watch w' i;
  mv_known : ∀ i, known_watch w i → known_watch w' i;
  mv_ran : ran w w'
}.

Lemma mv_script w w' : moved w w' → ∃ pre, w_script w = pre ++ w_script w'.
Proof. intros [_ _ _ (pre & ? & _)]. by exists pre. Qed.

Lemma later_moved w w' : later w w' → moved w w'.
Proof.
  intros Hl. split; [apply (lt_rev Hl)|apply (lt_quiet Hl)|apply (lt_known Hl)|].
  destruct (lt_elapsed _ _ Hl) as (pre & Hp & Hw). exists pre. split; [done|]. by rewrite Hw.
Qed.

#[global] Instance moved_preorder : PreOrder moved.
Proof.
  split.
  - intros w. by apply later_moved.
  - intros w1 w2 w3 H12 H23. split.
    + etransitivity; [apply H12|apply H23].
    + intros Heq. pose proof (mv_rev _ _ H12). pose proof (mv_rev _ _ H23).
      destruct (mv_quiet _ _ H12) as (E1 & E2 & Ho); [lia|].
      destruct (mv_quiet _ _ H23) as (E3 & E4 & Ho'); [lia|]. split_and!; [congruence..|auto].
    + intros i Hi. by apply (mv_known _ _ H23), (mv_known _ _ H12).
    + destruct (mv_ran _ _ H12) as (p1 & E1 & S1), (mv_ran _ _ H23) as (p2 & E2 & S2).
      exists (p1 ++ p2). rewrite E1, E2, app_assoc. split; [done|]. rewrite S2, concat_app, fold_left_app.
      by apply happens_shadow.
Qed.

Lemma moved_le w w1 : moved w w1 → (length (w_script w1) <= length (w_script w))%nat.
Proof. intros Hl. destruct (mv_script _ _ Hl) as [pre ->]. rewrite length_app. lia. Qed.

Lemma moved_script_ok w w1 : moved w w1 → script_ok w → script_ok w1.
Proof.
  intros Hl. unfold script_ok. destruct (mv_script _ _ Hl) as [pre ->]. by intros [_ ?]%Forall_app.
Qed.

(** Writing to a watch, without closing or opening it. *)
Lemma moved_alter w f i :
  (∀ wa, wa_closed (f wa) = wa_closed wa) →
  moved w (with_watches w (alter f i (w_watches w)) (w_live_watches w)).
Proof.
  intros Hf. assert (∀ j wa, w_watches w !! j = Some wa →
    ∃ wa', alter f i (w_watches w) !! j = Some wa' ∧ wa_closed wa' = wa_closed wa) as Ha.
  { intros j wa Hj. destruct (decide (j = i)) as [->|Hne].
    - exists (f wa). rewrite list_lookup_alter_eq, Hj. auto.
    - exists wa. by rewrite list_lookup_alter_ne. }
  split; [done| | |].
  - intros _. split_and!; [done|done|]. intros j (Hj & wa & Hwa & Hc). split; [done|].
    destruct (Ha j wa Hwa) as (wa' & ? & ?). exists wa'. simpl. split; congruence.
  - intros j (wa & Hwa & Hc). destruct (Ha j wa Hwa) as (wa' & ? & ?). exists wa'. simpl.
    split; [done|]. destruct Hc; [left; congruence|by right].
  - exists []. split; [done|]. unfold shadow. simpl. do 4 f_equal. apply list_eq. intros j. rewrite !list_lookup_fmap.
    destruct (decide (j = i)) as [->|Hne]; [rewrite list_lookup_alter_eq|by rewrite list_lookup_alter_ne].
    destruct (w_watches w !! i); simpl; [|done]. by rewrite Hf.
Qed.

Ltac moved_trans :=
  repeat match goal with
  | H : later ?a ?b |- moved ?a ?c =>
      first [exact (later_moved _ _ H) | transitivity b; [exact (later_moved _ _ H)|]]
  | H : moved ?a ?b |- moved ?a ?c => first [exact H | transitivity b; [exact H|]]
  end; try reflexivity.
