(* ===== verification/Lookup.v ===== *)
(** * Lookups

    [Pool] of [__init__.py]: one group of members, read from the local cache.
    The first lookup of a pool waits, boundedly, for the registry's first
    answer ([_settle]); everything else is a read under one lock. *)

From S2P Require Import Prelude PyStr PyFloat Errors Identity Config Timing Json Cache Shared Views World.
From Stdlib Require Import SpecFloat.

Local Open Scope Z_scope.

(** [class Pool], and [AsyncPool] when [po_async] *)
Record pool := Pool { po_name : pystr; po_async : bool }.

(** [_FIRST_ANSWER_S = 2.0] *)
Definition _FIRST_ANSWER_S : pyfloat := Eval vm_compute in round_int 2.

(** [client.watch(pools)] *)
Definition client_watch (pools : list pystr) : W unit :=
  native_call (λ s, watch s pools).

(** [Pool.__init__] *)
Definition new_pool (name : pystr) (is_async : bool) : W pool :=
  client_watch [name] ;; mret (Pool name is_async).

(** [client.pool_info(pool)]: version, roster, size and methods *)
Definition pool_info (name : pystr) (s : shared) : option (Z * Z * option Z * list pystr) :=
  (λ c, (cp_version c, cp_roster c, cp_size c, cp_methods c)) <$> sh_cache s !! name.

(** [Pool._lease_ms] *)
Definition _lease_ms (p : pool) : W Z :=
  interval ← native_read sh_interval_ms; mret (Z.max (interval * 4) 1000).

(** [Pool._settle] *)
Definition settle_turn (p : pool) (deadline : pyfloat) : W (option unit) :=
  rev ← native_read sh_revision;
  info ← native_read (pool_info (po_name p));
  if (info : option _) then mret (Some tt)
  else
    silence ← native_read silence_ms;
    lease ← _lease_ms p;
    if lease / 2 <? silence then mret (Some tt)
    else
      now ← monotonic;
      left ← lift_res (_left_ms now (Some deadline));
      match left with
      | None => mret (Some tt)
      | Some ms => wait_revision rev ms ;; mret None
      end.

Definition _settle (p : pool) : W unit :=
  now ← monotonic;
  let deadline := fadd now _FIRST_ANSWER_S in
  loop (settle_turn p deadline).

(** [client.snapshot_view(name, filter, require_ready)] *)
Definition snapshot_view (name : pystr) (filter : value) (require_ready : bool) (s : shared) :
    option frozen_pool :=
  (λ c, filtered c filter require_ready) <$> sh_cache s !! name.

(** [None if not filt else _msgpack_encode(filt)], decoded on the other side:
    no filter is the empty object. *)
Definition filter_value (filt : list (pystr * value)) : value := Object filt.

(** [Pool._members] *)
Definition _members (p : pool) (filt : list (pystr * value)) (require_ready : bool) : W (list nat) :=
  _settle p ;;
  view ← native_read (snapshot_view (po_name p) (filter_value filt) require_ready);
  match view with
  | None => mret []
  | Some view => on_heap (materialize (po_async p) (po_name p) view)
  end.

(** [Pool.snapshot] *)
Definition snapshot_ (p : pool) (include_unready : bool) : W snapshot :=
  _settle p ;;
  view ← native_read (snapshot_view (po_name p) (filter_value []) (negb include_unready));
  match view with
  | None => mret (new_snapshot (po_name p) 0 [])
  | Some view => mret (snapshot_from_native (po_name p) view (po_async p))
  end.

(** [Pool.all] *)
Definition all (p : pool) (filt : list (pystr * value)) : W (list nat) := _members p filt true.

(** The methods a handle of this pool serves. *)
Definition methods_of (info : option (Z * Z * option Z * list pystr)) : list pystr :=
  match info with Some (_, _, _, methods) => methods | None => [] end.

(** [Pool.pick]; [rng], [order] and [indexed] are what the native choice
    depends on besides the cache. *)
Definition pick (rng : nat → nat → nat) (order : gmap Z member → list member)
    (indexed : value → bool) (p : pool) (filt : list (pystr * value)) : W nat :=
  _settle p ;;
  let f := filter_value filt in
  m ← native_read (λ s, c ← sh_cache s !! po_name p;
                         choose c f true (indexed f) rng (order (cp_members c)));
  match m with
  | None => throw NotFound
  | Some m =>
      info ← native_read (pool_info (po_name p));
      on_heap (alloc (handle_from_native (po_async p) (NativeMember (po_name p) m None) (methods_of info)))
  end.

(** [Pool.slot] *)
Definition slot (p : pool) (k : pyval) (require_ready : bool) : W nat :=
  _settle p ;;
  m ← match _native_seat k with
      | Some seat => native_read (λ s, c ← sh_cache s !! po_name p; cached_slot c seat require_ready)
      | None => mret None
      end;
  match m with
  | Some m =>
      info ← native_read (pool_info (po_name p));
      on_heap (alloc (handle_from_native (po_async p) (NativeMember (po_name p) m None) (methods_of info)))
  | None => throw NotFound
  end.

(** [Pool.__len__] *)
Definition pool_len (p : pool) : W Z :=
  _settle p ;;
  native_read (λ s, match sh_cache s !! po_name p with
                    | Some c => Z.of_nat (count c (filter_value []) true)
                    | None => 0
                    end).

(** [Pool._replacement_target] *)
Definition _replacement_target (slot : option pyval) (identity : option pystr) :
    res (Z * option pystr * bool) :=
  match slot, identity with
  | None, None | Some _, Some _ => Raise (Exc TypeError)
  | None, Some identity => seat ← _seat_of identity; Ok (seat, Some identity, false)
  | Some k, None =>
      match _native_seat k with
      | None => Raise (Exc ValueError)
      | Some seat => Ok (seat, None, true)
      end
  end.

(** [Pool._check_fenced] *)
Definition _check_fenced (p : pool) : W unit :=
  accepted ← native_read sh_accepted;
  if (accepted : bool) then mret tt else throw Fenced.

(** ** Settling *)

(** Waiting for the first answer about a pool ends at a later moment; a thread
    that stays asleep in it has a cache without that pool. *)
Lemma wp_settle p w Q :
  script_ok w →
  (∀ w1, later w w1 → script_ok w1 → Q (Ok tt) w1) →
  (∀ e w1, later w w1 → script_ok w1 → Q (Raise (Exn e)) w1) →
  (∀ w1, later w w1 → script_ok w1 → sh_cache (w_sh w1) !! po_name p = None → Q (Raise Blocked) w1) →
  wp (_settle p) w Q.
Proof.
  intros Hok Hret Hexn Hblk. unfold _settle. apply wp_bind, wp_gets.
  apply (wp_loop _ (λ w1, later w w1 ∧ script_ok w1)); [done|].
  intros w0 [Hl0 Hok0]. unfold settle_turn. wread w1. wread w2.
  destruct (pool_info (po_name p) (w_sh w2)) as [info|] eqn:Ei.
  { apply wp_ret, Hret; [later_trans|done]. }
  wread w3. apply wp_bind. unfold _lease_ms. wread w4. apply wp_ret.
  destruct (_ <? _); [apply wp_ret, Hret; [later_trans|done]|].
  apply wp_bind, wp_gets, wp_bind, wp_lift_res.
  2: { intros e _. apply Hexn; [later_trans|done]. }
  intros [ms|] _; [|apply wp_ret, Hret; [later_trans|done]].
  apply wp_bind, wp_wait_revision; [done|..].
  - intros r w5 Hl5 Hok5 Hle Hlt. apply wp_ret. split; [split; [later_trans|done]|].
    pose proof (later_le _ _ Hlw1). pose proof (later_le _ _ Hlw2). pose proof (later_le _ _ Hlw3).
    pose proof (later_le _ _ Hlw4). unfold shorter in Hsw1.
    destruct (w_script w0) as [|b0 l0] eqn:E0; simpl in *; [|lia].
    assert (w1 = w0) as -> by auto. assert (w2 = w0) as -> by auto.
    assert (w3 = w0) as -> by auto. assert (w4 = w0) as -> by auto. rewrite E0 in Hlt. by apply Hlt.
  - intros w5 Hl5 Hok5 Hrev. apply Hblk; [later_trans|done|].
    assert (later w2 w5) as Hl25 by later_trans. pose proof (lt_rev Hl25). pose proof (lt_rev Hlw2).
    destruct (lt_quiet Hl25) as (-> & _); [unfold wrev in *; lia|].
    unfold pool_info in Ei. by destruct (sh_cache (w_sh w2) !! po_name p).
  - apply Hexn; [later_trans|done].
Qed.

(** [Pool.snapshot] likewise. *)
Lemma wp_snapshot p b w Q :
  script_ok w →
  (∀ s w1, later w w1 → script_ok w1 → Q (Ok s) w1) →
  (∀ e w1, later w w1 → script_ok w1 → Q (Raise (Exn e)) w1) →
  (∀ w1, later w w1 → script_ok w1 → sh_cache (w_sh w1) !! po_name p = None → Q (Raise Blocked) w1) →
  wp (snapshot_ p b) w Q.
Proof.
  intros Hok Hret Hexn Hblk. unfold snapshot_. apply wp_bind, wp_settle; auto.
  intros w1 Hl1 Hok1. wread w2.
  destruct (snapshot_view _ _ _ _); apply wp_ret, Hret; (later_trans || done).
Qed.
