(* ===== verification/Watch.v ===== *)
(** * Watches

    [_Watching], [Watch] and [AsyncWatch] of [__init__.py]: a stream of
    snapshots, one every time the pool moves.  The heart of it is one turn,
    [_step], and the order of its reads: the local revision is read before
    the pool, so that a change the turn did not see rings a bell the sleep
    after it hears. *)

From S2P Require Import Prelude PyStr PyFloat Errors Identity Config Timing Json Cache Shared Views World Lookup.
From Stdlib Require Import SpecFloat.

Local Open Scope Z_scope.

(** What [field_digest] feeds its hasher, in order. *)
Inductive hash_item :=
| HNumber (z : Z)
| HReady (b : bool)
| HUrl (url : option pystr)
| HText (s : pystr).

Section Watch.
(** The hasher of the native side, and [Value::to_string]. *)
Context (hasher : list hash_item → Z) (to_string : value → pystr).

Definition field_item (m : member) (f : pystr) : hash_item :=
  if bool_decide (f = u "ready") then HReady (m_ready m)
  else if bool_decide (f = u "url") then HUrl (m_url m)
  else HText (default [] (to_string <$> value_get (m_state m) f)).

(** [CachedPool::field_digest] *)
Definition field_digest (c : cached_pool) (fields : list pystr) : Z :=
  hasher (flat_map (λ m, HNumber (m_id m) :: HNumber (m_incarnation m) :: map (field_item m) fields)
            (members_of c (ids c false))).

(** [client.field_digest(pool, fields)] *)
Definition client_digest (name : pystr) (fields : list pystr) (s : shared) : option Z :=
  (λ c, field_digest c fields) <$> sh_cache s !! name.

(** Changing one watch, whatever happened to it meanwhile. *)
Definition update_watch (i : nat) (f : watching → watching) : W unit :=
  modify (λ w, with_watches w (alter f i (w_watches w)) (w_live_watches w)).

Definition set_seen (seen : Z) (wa : watching) : watching :=
  Watching_ (wa_pool wa) seen (wa_deadline wa) (wa_closed wa) (wa_tick wa) (wa_fields wa) (wa_digest wa).
Definition set_tick (t : Z) (wa : watching) : watching :=
  Watching_ (wa_pool wa) (wa_seen wa) (wa_deadline wa) (wa_closed wa) t (wa_fields wa) (wa_digest wa).
Definition set_digest (d : option (option Z)) (wa : watching) : watching :=
  Watching_ (wa_pool wa) (wa_seen wa) (wa_deadline wa) (wa_closed wa) (wa_tick wa) (wa_fields wa) d.

Definition get_watch (i : nat) : W watching := λ w,
  match w_watches w !! i with
  | Some wa => (Ok wa, w)
  | None => (Raise (Exn (Exc AssertionError)), w)
  end.

(** [_Watching.__init__] *)
Definition new_watching (p : pool) (since : option Z) (timeout : option pyfloat)
    (fields : option (list pystr)) : W nat :=
  now ← monotonic;
  let deadline := (λ t, fadd now t) <$> timeout in
  digest ← match fields, since with
           | None, _ => mret (Some None)
           | Some fs, None => d ← native_read (client_digest (po_name p) fs); mret (Some d)
           | Some _, Some _ => mret None
           end;
  seen ← match since with
         | None => snap ← snapshot_ p true; mret (sn_revision snap)
         | Some rev => mret rev
         end;
  i ← gets (λ w, length (w_watches w));
  modify (λ w, with_watches w (w_watches w ++ [Watching_ (po_name p) seen deadline false 0 fields digest])
                 (w_live_watches w ++ [i])) ;;
  mret i.

(** [Pool.changes], and [AsyncPool.achanges], which only an [AsyncPool] has. *)
Definition changes (p : pool) (since : option Z) (timeout : option pyfloat) (fields : option (list pystr)) : W nat :=
  new_watching p since timeout fields.

Definition achanges (p : pool) (since : option Z) (timeout : option pyfloat) (fields : option (list pystr)) : W nat :=
  if po_async p then new_watching p since timeout fields else throw AttributeError.

(** [_Watching.close] *)
Definition close_watch (i : nat) : W unit :=
  wa ← get_watch i;
  if wa_closed wa then mret tt
  else modify (λ w, with_watches w (alter close_watching i (w_watches w))
                      (filter (λ j, j ≠ i) (w_live_watches w))) ;;
       native_call (λ s, (Ok tt, ring s)).

(** The rest of [_step], the tick stored: has the pool moved? *)
Definition step_look (p : pool) (i : nat) (wa : watching) : W (option snapshot * Z) :=
  info ← native_read (pool_info (po_name p));
  let rest :=
    now' ← monotonic;
    left' ← lift_res (_left_ms now' (wa_deadline wa));
    mret (None, default 0 left') in
  match info with
  | Some (version, _, _, _) =>
      if negb (version =? wa_seen wa)
      then
        update_watch i (set_seen version) ;;
        match wa_fields wa with
        | None => snap ← snapshot_ p true; mret (Some snap, 0)
        | Some fs =>
            digest ← native_read (client_digest (po_name p) fs);
            if negb (bool_decide (Some digest = wa_digest wa))
            then update_watch i (set_digest (Some digest)) ;;
                 snap ← snapshot_ p true; mret (Some snap, 0)
            else rest
        end
      else rest
  | None => rest
  end.

(** [_Watching._step]: a snapshot, or how many milliseconds to wait for one;
    zero means the stream is over. *)
Definition _step (p : pool) (i : nat) : W (option snapshot * Z) :=
  wa ← get_watch i;
  if wa_closed wa then mret (None, 0)
  else
  accepted ← native_read sh_accepted;
  if negb accepted then throw Fenced
  else
  now ← monotonic;
  left ← lift_res (_left_ms now (wa_deadline wa));
  match left with
  | None => mret (None, 0)
  | Some _ =>
      t ← native_read sh_revision;
      update_watch i (set_tick t) ;;
      step_look p i wa
  end.

(** One turn of [Watch.__next__]. *)
Definition next_turn (p : pool) (i : nat) : W (option snapshot) :=
  '(snap, ms) ← _step p i;
  match snap with
  | Some snap => mret (Some snap)
  | None =>
      if ms =? 0 then throw StopIteration
      else wa ← get_watch i; wait_revision (wa_tick wa) ms ;; mret None
  end.

(** [Watch.__next__] *)
Definition watch_next (p : pool) (i : nat) : W snapshot := loop (next_turn p i).

(** [_loop_bell(self._c)]: refused once this client is not the process's; the
    answer is the moment the bell was registered at, for the sleep on it. *)
Definition loop_bell : W Z :=
  current ← gets w_current;
  if negb current then throw RuntimeError else native_read sh_revision.

(** [bell.wait(ms / 1000)]: a ring since the bell was registered left a byte
    in the pipe, so it is heard even if it came before the [await]. *)
Definition bell_sleep (registered ms : Z) : W unit :=
  rev ← gets (λ w, sh_revision (w_sh w));
  if negb (rev =? registered) then mret tt else sleep registered ms.

(** One turn of [AsyncWatch.__anext__]. *)
Definition anext_turn (p : pool) (i : nat) : W (option snapshot) :=
  wa ← get_watch i;
  if wa_closed wa then throw StopIteration
  else
  registered ← loop_bell;
  '(snap, ms) ← _step p i;
  match snap with
  | Some snap => mret (Some snap)
  | None =>
      if ms =? 0 then throw StopIteration
      else bell_sleep registered ms ;; mret None
  end.

(** [AsyncWatch.__anext__] *)
Definition watch_anext (p : pool) (i : nat) : W snapshot := loop (anext_turn p i).

(** ** What a turn that found nothing knows *)

(** The shared state after the first batches of the script. *)
Definition shared_after (w : world) (batches : list (list event)) : shared := w_sh (fold_left happen (concat batches) w).

(** The revision the pool stands at, when it is in the cache. *)
Definition version_in (p : pool) (s : shared) : option Z := cp_version <$> sh_cache s !! po_name p.

(** The pool is not in the cache, or stands at the revision this watch has
    noted. *)
Definition nothing_new (p : pool) (w : world) (wa : watching) : Prop :=
  version_in p (w_sh w) = None ∨ version_in p (w_sh w) = Some (wa_seen wa).

(** A watch of some fields came to revision [v] without handing it over: at some
    moment after [w] the pool stood at [v], and at that moment or after it the
    digest of the fields was the one the watch had in [w]. *)
Definition fields_same (p : pool) (w : world) (wa : watching) (v : Z) : Prop :=
  ∃ fs pre more post, wa_fields wa = Some fs ∧ w_script w = pre ++ more ++ post ∧
    version_in p (shared_after w pre) = Some v ∧
    Some (client_digest (po_name p) fs (shared_after w (pre ++ more))) = wa_digest wa.

(** The revision noted is the one noted in [b], unless only other fields than
    the watch's have changed. *)
Definition held_back (p : pool) (b : world) (wb wa : watching) : Prop :=
  wa_fields wa = wa_fields wb ∧ wa_digest wa = wa_digest wb ∧
  (wa_seen wa = wa_seen wb ∨ fields_same p b wb (wa_seen wa)).

(** Asleep in [w'], in a call that was made in [w]: the pool is not in the cache,
    or at a revision that this call has no snapshot to hand over for. *)
Definition nothing_to_tell (p : pool) (i : nat) (w w' : world) : Prop :=
  ∃ wa wa', w_watches w !! i = Some wa ∧ w_watches w' !! i = Some wa' ∧ nothing_new p w' wa' ∧
    (wa_seen wa' = wa_seen wa ∨ fields_same p w wa (wa_seen wa')).

(** The pool has left the cache during the call: [snapshot()] waits for the
    first answer about it. *)
Definition pool_left (p : pool) (w w' : world) : Prop :=
  version_in p (w_sh w') = None ∧
  ∃ pre post, w_script w = pre ++ post ∧ is_Some (version_in p (shared_after w pre)).

Lemma moved_twice b w w1 :
  moved b w → moved w w1 →
  ∃ pre more, w_script b = pre ++ more ++ w_script w1 ∧ w_sh w = shared_after b pre ∧ w_sh w1 = shared_after b (pre ++ more).
Proof.
  intros Hb Hw. destruct (mv_ran _ _ Hb) as (pre & E1 & S1), (mv_ran _ _ Hw) as (more & E2 & S2).
  exists pre, more. rewrite E1, E2. split_and!; [done|by injection S1|].
  apply (happens_shadow (concat more)) in S1. rewrite <- S2 in S1. unfold shared_after. rewrite concat_app, fold_left_app. by injection S1.
Qed.

Lemma wp_get_watch i w Q :
  (∀ wa, w_watches w !! i = Some wa → Q (Ok wa) w) →
  (w_watches w !! i = None → Q (Raise (Exn (Exc AssertionError))) w) → wp (get_watch i) w Q.
Proof. intros H1 H2. unfold wp, get_watch. destruct (w_watches w !! i); simpl; auto. Qed.

(** The end of a turn that found nothing, started at [w]: nothing has happened
    to the pool since the tick it will sleep on, and nothing at all when the
    revision is still the one it started at. *)
Record idle (p : pool) (i : nat) (b : world) (wb : watching) (w w1 : world) : Prop := {
  id_moved : moved w w1;
  id_watch : ∃ wa, w_watches w1 !! i = Some wa ∧ wrev w ≤ wa_tick wa ≤ wrev w1 ∧
    (wrev w1 = wa_tick wa → nothing_new p w1 wa) ∧ (w_script w = [] → wrev w1 = wa_tick wa) ∧ held_back p b wb wa;
  id_start : wrev w = wrev w1 → open_watch w1 i ∧ sh_accepted (w_sh w1) = true;
  id_script : shorter w w1;
  id_quiet : w_script w = [] → wrev w1 = wrev w
}.

(** From the tick to the end of the turn. *)
Lemma idle_end p i b wb w wt w1 t :
  moved w wt → script_ok wt → shorter w wt → (w_script w = [] → wt = w) → wrev wt = t →
  let wt' := with_watches wt (alter (set_tick t) i (w_watches wt)) (w_live_watches wt) in
  moved wt' w1 → (w_script w = [] → wrev w1 = t) →
  (∃ wa, w_watches w1 !! i = Some wa ∧ wa_tick wa = t ∧ (wrev w1 = t → nothing_new p w1 wa) ∧ held_back p b wb wa) →
  (wrev w = wrev wt → open_watch wt i ∧ sh_accepted (w_sh wt) = true) →
  idle p i b wb w w1.
Proof.
  intros Hm Hok Hsh He Ht wt' Hm1 Hq (wa & Hwa & Htick & Hn & Htold) Hopen.
  assert (moved wt wt') as Hwt by (by apply moved_alter).
  assert (moved wt w1) as Hm2 by (by transitivity wt').
  pose proof (mv_rev _ _ Hm). pose proof (mv_rev _ _ Hm2).
  split.
  - by transitivity wt.
  - exists wa. rewrite Htick. split_and!; [done|lia|lia|done|done|apply Htold..].
  - intros Heq. destruct (Hopen ltac:(lia)) as [Ho Ha].
    destruct (mv_quiet _ _ Hm2) as (_ & Hacc & Hop); [lia|]. rewrite Hacc. auto.
  - pose proof (moved_le _ _ Hm2). unfold shorter in *. lia.
  - intros Hw. rewrite (He Hw) in Ht. by rewrite (Hq Hw).
Qed.

(** The watch's own entry, later: only its flag can have changed. *)
Lemma later_entry w w1 i wa :
  later w w1 → w_watches w !! i = Some wa →
  ∃ wa1, w_watches w1 !! i = Some wa1 ∧ wa_tick wa1 = wa_tick wa ∧ wa_seen wa1 = wa_seen wa ∧
    wa_fields wa1 = wa_fields wa ∧ wa_digest wa1 = wa_digest wa.
Proof. intros Hl Hi. destruct (lt_watch Hl i wa Hi) as [H|H]; eexists; split_and!; done. Qed.

Lemma alter_entry w f i wa :
  w_watches w !! i = Some wa → alter f i (w_watches w) !! i = Some (f wa).
Proof. intros Hi. by rewrite list_lookup_alter_eq, Hi. Qed.

Lemma nothing_new_later p w w1 wa wa1 :
  moved w w1 → wrev w = wrev w1 → wa_seen wa1 = wa_seen wa → nothing_new p w wa → nothing_new p w1 wa1.
Proof.
  intros Hm Hr Hs. unfold nothing_new, version_in. destruct (mv_quiet _ _ Hm Hr) as (-> & _). by rewrite Hs.
Qed.

(** A turn's end, [now] read and the deadline compared. *)
Lemma wp_rest (deadline : option pyfloat) w (Q : result halt (option snapshot * Z) → world → Prop) :
  (∀ ms, Q (Ok (None, ms)) w) → (∀ e, Q (Raise (Exn e)) w) →
  wp (now' ← monotonic; left' ← lift_res (_left_ms now' deadline); mret (None, default 0 left')) w Q.
Proof.
  intros H1 H2. apply wp_bind, wp_gets, wp_bind, wp_lift_res; [|auto].
  intros budget _. apply wp_ret, H1.
Qed.

(** Handing over a snapshot, the pool seen in the cache at [w3]. *)
Lemma wp_hand_over p b w0 w3 w (Q : result halt (option snapshot * Z) → world → Prop) :
  script_ok w → moved b w3 → moved w0 w → moved w3 w → is_Some (version_in p (w_sh w3)) →
  (∀ s w1, moved w0 w1 → Q (Ok (Some s, 0)) w1) →
  (∀ e w1, moved w0 w1 → Q (Raise (Exn e)) w1) →
  (∀ w1, moved w0 w1 → pool_left p b w1 → Q (Raise Blocked) w1) →
  wp (snap ← snapshot_ p true; mret (Some snap, 0)) w Q.
Proof.
  intros Hok Hb Hm Hm3 Hv Hsnap Hexn Hblk. apply wp_bind, wp_snapshot; [done|..].
  - intros s w1 Hl1 Hok1. apply wp_ret, Hsnap. moved_trans.
  - intros e w1 Hl1 Hok1. apply Hexn. moved_trans.
  - intros w1 Hl1 Hok1 Hc. apply Hblk; [moved_trans|]. split; [unfold version_in; by rewrite Hc|].
    destruct (moved_twice b w3 w1) as (pre & more & Hs & H3 & _); [done|moved_trans|].
    exists pre, (more ++ w_script w1). split; [done|]. by rewrite <- H3.
Qed.

(** A look that found nothing, since the tick [t] was stored at [w]. *)
Definition looked (p : pool) (i : nat) (b : world) (wb : watching) (w w1 : world) (t : Z) : Prop :=
  (w_script w = [] → wrev w1 = t) ∧
  ∃ wa, w_watches w1 !! i = Some wa ∧ wa_tick wa = t ∧ (wrev w1 = t → nothing_new p w1 wa) ∧ held_back p b wb wa.

Lemma wp_step_look p i b wb w wa wa0 Q :
  script_ok w → moved b w → w_watches w !! i = Some wa0 → wa_tick wa0 = wrev w → wa_seen wa0 = wa_seen wa →
  wa_fields wa0 = wa_fields wa → wa_digest wa0 = wa_digest wa → held_back p b wb wa0 →
  (∀ s w1, moved w w1 → Q (Ok (Some s, 0)) w1) →
  (∀ ms w1, moved w w1 → looked p i b wb w w1 (wrev w) → Q (Ok (None, ms)) w1) →
  (∀ e w1, moved w w1 → Q (Raise (Exn e)) w1) →
  (∀ w1, moved w w1 → pool_left p b w1 → Q (Raise Blocked) w1) →
  wp (step_look p i wa) w Q.
Proof.
  intros Hok Hbw Hwa0 Ht0 Hs0 Hf0 Hd0 Hheld Hsnap Hnone Hexn Hblk. unfold step_look. wread w3.
  destruct (later_entry _ _ _ _ Hlw3 Hwa0) as (wa3 & Hwa3 & Ht3 & Hs3 & Hf3 & Hd3).
  assert (moved w w3) as Hm3 by moved_trans. assert (moved b w3) as Hb3 by moved_trans.
  assert (held_back p b wb wa3) as Hheld3.
  { unfold held_back in *. by rewrite Hf3, Hd3, Hs3. }
  assert (nothing_new p w3 wa3 → looked p i b wb w w3 (wrev w)) as Hl3.
  { intros Hn. split; [intros Hw; by rewrite (Hew3 Hw)|]. exists wa3. split_and!; [done|congruence|done|apply Hheld3..]. }
  destruct (pool_info (po_name p) (w_sh w3)) as [[[[version ?] ?] ?]|] eqn:Ei; cycle 1.
  { apply wp_rest; [|by intros; apply Hexn]. intros ms. apply Hnone, Hl3; [done|].
    unfold nothing_new, version_in, pool_info in *. destruct (sh_cache (w_sh w3) !! po_name p); [done|by left]. }
  assert (version_in p (w_sh w3) = Some version) as Hv.
  { unfold pool_info, version_in in *. by destruct (sh_cache (w_sh w3) !! po_name p) as [c|]; simplify_eq/=. }
  destruct (Z.eqb_spec version (wa_seen wa)) as [Heq|Hne]; simpl.
  { apply wp_rest; [|by intros; apply Hexn]. intros ms. apply Hnone, Hl3; [done|]. right. rewrite Hv. congruence. }
  apply wp_bind. unfold update_watch. apply wp_modify. cbv beta.
  set (w3' := with_watches w3 (alter (set_seen version) i (w_watches w3)) (w_live_watches w3)).
  assert (moved w3 w3') as Hm3' by (by apply moved_alter).
  assert (script_ok w3') as Hok3' by (by eapply moved_script_ok).
  destruct (wa_fields wa) as [fs|] eqn:Hfs; cycle 1.
  { apply (wp_hand_over p b w w3 w3'); [done|done|by transitivity w3|done|by exists version|done..]. }
  wread w4. assert (moved w w4) as Hm4 by moved_trans. case_bool_decide as Hd; simpl; cycle 1.
  { apply wp_bind, wp_modify. cbv beta. set (w4' := with_watches w4 _ _).
    assert (moved w4 w4') as Hm4' by (by apply moved_alter).
    apply (wp_hand_over p b w w3 w4'); [by eapply moved_script_ok|done|by transitivity w4|moved_trans|by exists version|done..]. }
  apply wp_rest; [|by intros; apply Hexn]. intros ms. apply Hnone; [done|].
  assert (w_watches w3' !! i = Some (set_seen version wa3)) as Hwa3'.
  { unfold w3'. cbn [w_watches with_watches]. by apply alter_entry. }
  destruct (later_entry _ _ _ _ Hlw4 Hwa3') as (wa4 & Hwa4 & Ht4 & Hs4 & Hf4 & Hd4). simpl in Hs4, Hf4, Hd4.
  assert (moved w3 w4) as Hm34 by moved_trans. split.
  - intros Hw. rewrite (Hew4 ltac:(unfold w3'; simpl; by rewrite (Hew3 Hw))). unfold wrev, w3'. simpl. by rewrite (Hew3 Hw).
  - exists wa4. split; [done|]. split; [rewrite Ht4; simpl; congruence|]. split.
    + intros Hr. right. pose proof (mv_rev _ _ Hm34). pose proof (mv_rev _ _ Hm3).
      unfold version_in. destruct (mv_quiet _ _ Hm34) as (-> & _); [lia|]. rewrite Hs4. exact Hv.
    + destruct Hheld3 as (E1 & E2 & _). split_and!; [congruence..|]. right. rewrite Hs4.
      destruct (moved_twice b w3 w4) as (pre & more & Hscr & H3 & H4); [done..|].
      exists fs, pre, more, (w_script w4). split_and!; [congruence|done|by rewrite <- H3|]. rewrite <- H4. congruence.
Qed.

Lemma wp_step p i b wb w wa Q :
  script_ok w → moved b w → known_watch w i → w_watches w !! i = Some wa → held_back p b wb wa →
  (∀ s w1, moved w w1 → Q (Ok (Some s, 0)) w1) →
  (∀ ms w1, moved w w1 → ms = 0 ∨ idle p i b wb w w1 → Q (Ok (None, ms)) w1) →
  (∀ e w1, moved w w1 → Q (Raise (Exn e)) w1) →
  (∀ w1, moved w w1 → pool_left p b w1 → Q (Raise Blocked) w1) →
  wp (_step p i) w Q.
Proof.
  intros Hok Hb Hk Hwa Hheld Hsnap Hnone Hexn Hblk. unfold _step.
  apply wp_bind, wp_get_watch; [|by intros; apply Hexn].
  intros wa' Hwa'. assert (wa' = wa) as -> by congruence. clear Hwa'.
  destruct (wa_closed wa) eqn:Hcl; [apply wp_ret, Hnone; [done|by left]|].
  assert (open_watch w i) as Hopen.
  { destruct Hk as (wa' & Hwa' & Hk). split; [|by exists wa]. destruct Hk; [congruence|done]. }
  wread w1. destruct (sh_accepted (w_sh w1)) eqn:Hacc; simpl; cycle 1.
  { apply wp_throw, Hexn. moved_trans. }
  apply wp_bind, wp_gets, wp_bind, wp_lift_res; [|intros e _; apply Hexn; moved_trans].
  intros [budget|] _; [|apply wp_ret, Hnone; [moved_trans|by left]].
  wread w2. apply wp_bind. unfold update_watch. apply wp_modify. cbv beta.
  set (w2' := with_watches w2 (alter (set_tick (sh_revision (w_sh w2))) i (w_watches w2)) (w_live_watches w2)).
  assert (moved w2 w2') as Hm2 by (by apply moved_alter).
  assert (later w w2) as Hl02 by later_trans.
  destruct (later_entry _ _ _ _ Hl02 Hwa) as (wa2 & H2 & _ & Hs & Hf & Hd).
  apply (wp_step_look p i b wb w2' wa (set_tick (sh_revision (w_sh w2)) wa2)); try done.
  - moved_trans.
  - by apply (alter_entry w2).
  - unfold held_back in *. simpl. by rewrite Hf, Hd, Hs.
  - intros s w9 Hm9. apply Hsnap. moved_trans.
  - intros ms w9 Hm9 [Hq9 Hw9]. apply Hnone; [moved_trans|right].
    eapply (idle_end p i b wb w w2 w9); [moved_trans|done| | |reflexivity|done| |done|].
    + pose proof (later_le _ _ Hlw2). unfold shorter in *. lia.
    + intros Hw. rewrite (Hew2 ltac:(by rewrite (Hew1 Hw))). auto.
    + intros Hw. apply Hq9. unfold w2'. simpl. rewrite (Hew2 ltac:(by rewrite (Hew1 Hw))). by rewrite (Hew1 Hw).
    + intros Heq. pose proof (lt_rev Hlw1). pose proof (lt_rev Hlw2).
      destruct (lt_quiet Hl02 Heq) as (_ & _ & Ho). split; [by apply Ho|].
      destruct (lt_quiet Hlw2) as (_ & -> & _); [lia|done].
  - intros e w9 Hm9. apply Hexn. moved_trans.
  - intros w9 Hm9. apply Hblk. moved_trans.
Qed.

(** ** Asleep only when there is nothing to say *)

(** What the turns of a call that was made in [b] keep. *)
Record watch_inv (p : pool) (i : nat) (b : world) (w : world) : Prop := {
  wi_script : script_ok w;
  wi_moved : moved b w;
  wi_known : known_watch w i;
  wi_entry : ∃ wb wa, w_watches b !! i = Some wb ∧ w_watches w !! i = Some wa ∧ held_back p b wb wa
}.

Lemma watch_inv_start p i w : script_ok w → known_watch w i → watch_inv p i w w.
Proof.
  intros Hok Hk. split; [done|done|done|]. destruct Hk as (wa & Hwa & _). exists wa, wa. unfold held_back. auto 10.
Qed.

(** A turn that found nothing, later. *)
Lemma idle_later p i b wb w w1 w2 :
  w_watches b !! i = Some wb → watch_inv p i b w → idle p i b wb w w1 → later w1 w2 → script_ok w2 →
  watch_inv p i b w2.
Proof.
  intros Hwb Hw Hid Hl Hok. pose proof (wi_moved _ _ _ _ Hw). pose proof (id_moved _ _ _ _ _ _ Hid).
  assert (moved w w2) as Hm by (transitivity w1; [done|by apply later_moved]). split; [done|by transitivity w|by eapply mv_known, wi_known|].
  destruct (id_watch _ _ _ _ _ _ Hid) as (wa & Hwa & _ & _ & _ & Hheld).
  destruct (later_entry _ _ _ _ Hl Hwa) as (wa2 & H2 & _ & Hs & Hf & Hd). exists wb, wa2. split_and!; [done..|].
  unfold held_back in *. by rewrite Hf, Hd, Hs.
Qed.

Lemma idle_asleep p i b wb w w1 w2 t :
  w_watches b !! i = Some wb → idle p i b wb w w1 → later w1 w2 → wrev w1 = wrev w2 →
  (∀ wa, w_watches w1 !! i = Some wa → wa_tick wa = t) → wrev w1 = t →
  nothing_to_tell p i b w2.
Proof.
  intros Hwb Hid Hl Hr Ht Hrev. destruct (id_watch _ _ _ _ _ _ Hid) as (wa & Hwa & _ & Hnn & _ & _ & _ & Hseen).
  destruct (later_entry _ _ _ _ Hl Hwa) as (wa2 & H2 & _ & Hs & _). exists wb, wa2. rewrite Hs. split_and!; [done..| |done].
  apply (nothing_new_later p w1 w2 wa); [by apply later_moved|done|done|]. apply Hnn. rewrite (Ht wa Hwa). done.
Qed.

Lemma next_turn_spec p i b w :
  watch_inv p i b w →
  wp (next_turn p i) w (λ r w1,
    match r with
    | Ok None => watch_inv p i b w1 ∧ (length (w_script w1) < length (w_script w))%nat
    | Raise Blocked => nothing_to_tell p i b w1 ∨ pool_left p b w1
    | _ => True
    end).
Proof.
  intros Hw. pose proof Hw as [Hok Hb Hk (wb & wa0 & Hwb & Hwa0 & Hh0)]. unfold next_turn.
  apply wp_bind, (wp_step p i b wb w wa0); [done..| |done|by intros w1 _ Hn; right].
  intros ms w1 Hm Hms. destruct (Z.eqb_spec ms 0) as [->|Hne]; [done|].
  destruct Hms as [?|Hid]; [done|].
  destruct (id_watch _ _ _ _ _ _ Hid) as (wa & Hwa & Hle & Hnn & Hq & _). pose proof (id_script _ _ _ _ _ _ Hid) as Hsh.
  apply wp_bind, wp_get_watch; [|congruence]. intros wa' Hwa'. assert (wa' = wa) as -> by congruence.
  assert (script_ok w1) as Hok1 by (by eapply moved_script_ok).
  apply wp_bind, wp_wait_revision; [done|..].
  - intros r w2 Hl2 Hok2 Hlen Hlt. apply wp_ret. split; [by eapply idle_later|].
    unfold shorter in Hsh. destruct (w_script w) as [|bt l]; simpl in *; [|lia].
    specialize (Hlt (Hq eq_refl)). lia.
  - intros w2 Hl2 Hok2 Hrev. pose proof (lt_rev Hl2). left.
    apply (idle_asleep p i b wb w w1 w2 (wa_tick wa)); [done|done|done|lia|congruence|lia].
  - done.
Qed.

Lemma anext_turn_spec p i b w :
  watch_inv p i b w →
  wp (anext_turn p i) w (λ r w1,
    match r with
    | Ok None => watch_inv p i b w1 ∧ (length (w_script w1) < length (w_script w))%nat
    | Raise Blocked =>
        nothing_to_tell p i b w1 ∧ open_watch w1 i ∧ sh_accepted (w_sh w1) = true ∨ pool_left p b w1
    | _ => True
    end).
Proof.
  intros Hw. pose proof Hw as [Hok Hb Hk (wb & wa0 & Hwb & Hwa0 & Hh0)]. unfold anext_turn. apply wp_bind, wp_get_watch; [|done].
  intros wa0' _. destruct (wa_closed wa0'); [done|]. unfold loop_bell.
  apply wp_bind, wp_bind, wp_gets. destruct (w_current w); [|done]. simpl.
  apply wp_native_read; [done|]. intros w0 Hl0 Hok0 Hs0 He0. cbv beta.
  destruct (later_entry _ _ _ _ Hl0 Hwa0) as (wa1 & Hwa1 & _ & Es & Ef & Ed).
  assert (held_back p b wb wa1) as Hh1 by (unfold held_back in *; by rewrite Ef, Ed, Es).
  assert (moved b w0) as Hb0 by moved_trans. assert (known_watch w0 i) as Hk0 by (by apply (lt_known Hl0)).
  assert (watch_inv p i b w0) as Hw0 by (split; [done..|]; by exists wb, wa1).
  apply wp_bind, (wp_step p i b wb w0 wa1); [done..| |done|by intros w1 _ Hn; right].
  intros ms w1 Hm Hms. destruct (Z.eqb_spec ms 0) as [->|Hne]; [done|].
  destruct Hms as [?|Hid]; [done|].
  destruct (id_watch _ _ _ _ _ _ Hid) as (wa & Hwa & Hle & Hnn & Hq & _). pose proof (id_start _ _ _ _ _ _ Hid) as Hst.
  pose proof (id_script _ _ _ _ _ _ Hid) as Hsh. pose proof (mv_rev _ _ Hm) as Hmr.
  assert (script_ok w1) as Hok1 by (by eapply moved_script_ok).
  pose proof (later_le _ _ Hl0) as Hle0. pose proof (moved_le _ _ Hm) as Hle1.
  unfold bell_sleep. apply wp_bind, wp_bind, wp_gets.
  destruct (Z.eqb_spec (sh_revision (w_sh w1)) (sh_revision (w_sh w0))) as [Hr|Hr]; simpl; cycle 1.
  { apply wp_ret, wp_ret. split; [by eapply (idle_later p i b wb w0 w1 w1)|]. unfold shorter in *.
    destruct (w_script w) as [|bt l] eqn:E; simpl in *; [|lia].
    rewrite (He0 eq_refl) in *. pose proof (id_quiet _ _ _ _ _ _ Hid E). done. }
  apply wp_sleep; [done|..].
  - intros w2 Hl2 Hok2 Hlt. apply wp_ret. split; [by eapply (idle_later p i b wb w0 w1 w2)|lia].
  - intros w2 Hl2 Hok2 He2 Hrev. left. pose proof (lt_rev Hl2). specialize (Hrev Hr).
    destruct (Hst ltac:(unfold wrev in *; lia)) as [Hop Hac].
    destruct (lt_quiet Hl2) as (_ & Hac2 & Hop2); [unfold wrev in *; lia|].
    split_and!; [|by apply Hop2|by rewrite Hac2].
    apply (idle_asleep p i b wb w0 w1 w2 (wa_tick wa)); [done|done|done|unfold wrev in *; lia|congruence|unfold wrev in *; lia].
Qed.
End Watch.

(** ** Properties *)

(** C31: a [Watch] never sleeps through a change of its pool.  However beats,
    restarts, other threads and spurious wakeups interleave with its reads, a
    [__next__] still waiting when nothing more will happen has no snapshot to
    hand over: its pool is not in the cache, or stands at the revision the watch
    stood at when it was called; or, when it watches fields, at a revision that
    was reached with their digest where it was.  (The one other place it can be
    asleep in is [snapshot()], waiting for the first answer about a pool that has
    left the cache during the call.) *)
Theorem watch_next_not_missed (hasher : list hash_item → Z) (to_string : value → pystr)
    (p : pool) (i : nat) (w w' : world) :
  script_ok w → known_watch w i →
  watch_next hasher to_string p i w = (Raise Blocked, w') →
  nothing_to_tell hasher to_string p i w w' ∨ pool_left p w w'.
Proof.
  intros Hok Hk Hn.
  assert (wp (watch_next hasher to_string p i) w (λ r w1, r = Raise Blocked →
    nothing_to_tell hasher to_string p i w w1 ∨ pool_left p w w1)) as H.
  { apply (wp_loop _ (watch_inv hasher to_string p i w)); [by apply watch_inv_start|]. intros w0 Hw0.
    eapply wp_mono; [by apply next_turn_spec|]. intros [[s|]|[e|]] w1; try done; auto. }
  unfold wp in H. rewrite Hn in H. by apply H.
Qed.

(** C9: an [AsyncWatch] sleeps on its bell only while it has no snapshot to hand
    over, nobody has closed it and this process still holds its seat: it
    registers with the bell before it looks, so that a change, a [close()] by
    another thread or a fencing between the look and the sleep wakes it.  No
    snapshot to hand over means that its pool is not in the cache, or stands at
    the revision the watch stood at when it was called, or, when it watches
    fields, at one that was reached with their digest where it was.  (The one
    other place it can be asleep in is [snapshot()], waiting for the first answer
    about a pool that has left the cache during the call; there nothing is said
    of the seat.) *)
Theorem watch_anext_not_missed (hasher : list hash_item → Z) (to_string : value → pystr)
    (p : pool) (i : nat) (w w' : world) :
  script_ok w → known_watch w i →
  watch_anext hasher to_string p i w = (Raise Blocked, w') →
  nothing_to_tell hasher to_string p i w w' ∧ open_watch w' i ∧ sh_accepted (w_sh w') = true ∨ pool_left p w w'.
Proof.
  intros Hok Hk Hn.
  assert (wp (watch_anext hasher to_string p i) w (λ r w1, r = Raise Blocked →
    nothing_to_tell hasher to_string p i w w1 ∧ open_watch w1 i ∧ sh_accepted (w_sh w1) = true ∨ pool_left p w w1)) as H.
  { apply (wp_loop _ (watch_inv hasher to_string p i w)); [by apply watch_inv_start|]. intros w0 Hw0.
    eapply wp_mono; [by apply anext_turn_spec|]. intros [[s|]|[e|]] w1; try done; auto. }
  unfold wp in H. rewrite Hn in H. by apply H.
Qed.

(** A pool of one member at revision 5, and a watch that has seen it. *)
Definition sample_delta (version : Z) (m : member) : pool_delta :=
  PoolDelta version (roster_hash m) (u "churn") [] None [m] [] true.

Definition sample_ack (epoch version : Z) (m : member) : beat_ack :=
  BeatAck epoch 3 (u "1.0") 2000 true None [(u "engine", sample_delta version m)].

Definition sample_refusal : beat_ack := BeatAck 9 3 (u "1.0") 2000 false None [].

Definition member_a : member := Member 1 None 10 None (Object []) true.
Definition member_b : member := Member 2 None 20 None (Object []) true.

Definition sample_world (script : list (list event)) : world :=
  World
    (beat_sent (beat_landed (new_shared (u "engine") None) 0 [] (sample_ack 9 5 member_a)))
    fzero [Watching_ (u "engine") 5 None false 0 None (Some None)] [0%nat] [] [] true (Heap [] []) script.

Definition sample_pool : pool := Pool (u "engine") false.

Definition no_hash (_ : list hash_item) : Z := 0.
Definition no_text (_ : value) : pystr := [].

Lemma watch_next_not_missed_witness :
  let w := sample_world [[EvRing]; [EvSpurious]] in
  let w' := (watch_next no_hash no_text sample_pool 0 w).2 in
  nothing_to_tell no_hash no_text sample_pool 0 w w' ∨ pool_left sample_pool w w'.
Proof.
  apply (watch_next_not_missed no_hash no_text sample_pool 0 (sample_world [[EvRing]; [EvSpurious]])).
  - repeat constructor.
  - eexists. split; [reflexivity|right; left].
  - vm_compute. reflexivity.
Defined.

Lemma watch_anext_not_missed_witness :
  let w := sample_world [[EvRing]; []; [EvSpurious]] in
  let w' := (watch_anext no_hash no_text sample_pool 0 w).2 in
  nothing_to_tell no_hash no_text sample_pool 0 w w' ∧ open_watch w' 0 ∧ sh_accepted (w_sh w') = true ∨
  pool_left sample_pool w w'.
Proof.
  apply (watch_anext_not_missed no_hash no_text sample_pool 0 (sample_world [[EvRing]; []; [EvSpurious]])).
  - repeat constructor.
  - eexists. split; [reflexivity|right; left].
  - vm_compute. reflexivity.
Defined.

(** The same window, and [close()] from another thread: the watch looks at its
    flag before it reads the revision it will sleep on, and sleeps on although
    it is closed and the bell was rung for it.  The asynchronous one ends. *)
Theorem watch_late_close_missed :
  let w := sample_world [[]; [EvClose 0]] in
  open_watch w 0 ∧
  (watch_next no_hash no_text sample_pool 0 w).1 = Raise Blocked ∧
  (wa_closed <$> w_watches (watch_next no_hash no_text sample_pool 0 w).2 !! 0%nat) = Some true ∧
  (watch_anext no_hash no_text sample_pool 0 w).1 = Raise (Exn (Exc StopIteration)).
Proof.
  split_and!; [|vm_compute; reflexivity..]. split; [left|]. eexists. by split.
Qed.

(** The synchronous [Watch] checks whether it was closed or fenced before
    it reads the revision it will sleep on: when the refusal of the seat
    arrives between the two, the watch sleeps on although the seat is lost:
    no further beat will ring, so only its own timeout (an hour, when it has
    none) wakes it.  The asynchronous one raises [Fenced] on the same
    script. *)
Theorem watch_late_fence_missed :
  let script := [[]; [EvAck 0 sample_refusal]] in
  let w := sample_world script in
  open_watch w 0 ∧
  (watch_next no_hash no_text sample_pool 0 w).1 = Raise Blocked ∧
  sh_accepted (w_sh (watch_next no_hash no_text sample_pool 0 w).2) = false ∧
  (watch_anext no_hash no_text sample_pool 0 w).1 = Raise (Exn (Exc Fenced)).
Proof.
  split_and!; [|vm_compute; reflexivity..]. split; [left|]. eexists. by split.
Qed.

(** A watch compares revisions, and a restarted registry counts from zero
    again: when the first answer of the new registry happens to carry the
    revision the watch has seen, the roster it brings is never handed over,
    although another member is now in it. *)
Theorem watch_restart_missed :
  let script := [[EvAck 0 (sample_ack 11 5 member_b)]] in
  let w := sample_world script in
  let w' := (watch_next no_hash no_text sample_pool 0 w).2 in
  (watch_next no_hash no_text sample_pool 0 w).1 = Raise Blocked ∧
  (cp_members <$> sh_cache (w_sh w) !! u "engine") = Some {[1 := member_a]} ∧
  (cp_members <$> sh_cache (w_sh w') !! u "engine") = Some {[2 := member_b]}.
Proof. split_and!; vm_compute; reflexivity. Qed.
