(* ===== verification/Waits.v ===== *)
(** * Waiting on a pool

    The waits of [Pool] and [AsyncPool]: [until], which follows a watch, and
    the ones whose condition the native side decides ([CacheWaiter]): a count
    of members, a departure, a replacement, and the freezing of a round. *)

From S2P Require Import Prelude PyStr PyFloat Errors Identity Config Timing Json Cache Shared Views World Lookup Watch.
From Stdlib Require Import SpecFloat.

Local Open Scope Z_scope.

(** ** Native waits *)

Definition get_wait (j : nat) : W cache_waiter := λ w,
  match w_waits w !! j with
  | Some wt => (Ok wt, w)
  | None => (Raise (Exn (Exc AssertionError)), w)
  end.

(** [client.count_waiter(...)] and its siblings: a new waiter. *)
Definition new_waiter (name : pystr) (c : wait_condition) : W nat :=
  j ← gets (λ w, length (w_waits w));
  modify (λ w, with_waits w (w_waits w ++ [CacheWaiter name c false]) (w_live_waits w)) ;;
  mret j.

(** [_live_native_waits.add(waiter)], [.discard(waiter)] *)
Definition live_add (j : nat) : W unit :=
  modify (λ w, with_waits w (w_waits w) (w_live_waits w ++ [j])).
Definition live_discard (j : nat) (w : world) : world :=
  with_waits w (w_waits w) (filter (λ k, k ≠ j) (w_live_waits w)).

(** [NativeWait.check(initial)]: one look, at one moment. *)
Definition look (j : nat) (initial : bool) (w : world) : result halt wait_result * world :=
  match w_waits w !! j with
  | None => (Raise (Exn (Exc AssertionError)), w)
  | Some wt =>
      let '(r, wt') := check (w_sh w) wt initial in
      (Ok r, with_waits w (<[j := wt']> (w_waits w)) (w_live_waits w))
  end.

Definition native_check (j : nat) (initial : bool) : W wait_result := tick ;; (look j initial : W wait_result).

(** The answer without a look. *)
Definition status_of (j : nat) (status : wait_status) : W wait_result :=
  wt ← get_wait j; gets (λ w, with_status (w_sh w) wt status).

(** One turn of [CacheWaiter::wait] called with [initial = false]: it holds
    the revision's lock from its look to its sleep, so no ring falls between
    them. *)
Definition wait_turn (j : nat) (deadline : option Z) : W (option wait_result) :=
  tick ;;
  wt ← get_wait j;
  w ← get;
  let s := w_sh w in
  if wt_closed wt then Some <$> status_of j WClosed
  else if negb (sh_accepted s) then Some <$> status_of j WFenced
  else if due deadline s
  then Some <$> status_of j WTimeout
  else
  r ← (look j false : W wait_result);
  if decide (wr_status r = WReady) then mret (Some r)
  else
  sleep_until (sh_revision s) deadline ;; mret None.

(** [NativeWait.wait(timeout_ms, initial=False)] *)
Definition native_wait (j : nat) (timeout_ms : option Z) : W wait_result :=
  tick ;;
  deadline ← gets (λ w, (λ ms, sh_now_ms (w_sh w) + ms) <$> timeout_ms);
  loop (wait_turn j deadline).

(** [_wait_native] *)
Definition _wait_native (j : nat) (deadline : option pyfloat) : W wait_result :=
  live_add j ;;
  finally
    (result ← native_check j true;
     if negb (bool_decide (wr_status result = Pending)) then mret result
     else match deadline with
          | None => native_wait j None
          | Some _ =>
              now ← monotonic;
              ms ← lift_res (_left_ms now deadline);
              ms ← u64_arg (default 0 ms);
              native_wait j (Some ms)
          end)
    (live_discard j).

(** [_timed_out] *)
Definition _timed_out (r : wait_result) : wait_result :=
  WaitResult WTimeout None (wr_matched r) (wr_total r) (wr_version r).

(** One turn of [_await_native]; the flag says whether it is the first. *)
Definition await_turn (j : nat) (deadline : option pyfloat) (initial : bool) : W (option wait_result) :=
  registered ← loop_bell;
  result ← native_check j initial;
  let answer :=
    if negb (bool_decide (wr_status result = Pending)) then mret (Some result)
    else
    now ← monotonic;
    left ← lift_res (_left_ms now deadline);
    match left with
    | None => mret (Some (_timed_out result))
    | Some ms => bell_sleep registered ms ;; mret None
    end in
  if negb initial && negb (bool_decide (wr_status result ∈ [WFenced; WClosed]))
  then now ← monotonic;
       left ← lift_res (_left_ms now deadline);
       match left with
       | None => mret (Some (_timed_out result))
       | Some _ => answer
       end
  else answer.

(** [_await_native] *)
Definition _await_native (j : nat) (deadline : option pyfloat) : W wait_result :=
  live_add j ;;
  finally
    (first ← await_turn j deadline true;
     match first with
     | Some r => mret r
     | None => loop (await_turn j deadline false)
     end)
    (live_discard j).

(** [deadline = None if timeout is None else time.monotonic() + timeout] *)
Definition deadline_of (timeout : option pyfloat) : W (option pyfloat) :=
  now ← monotonic; mret ((λ t, fadd now t) <$> timeout).

(** How a wait is carried out: [_wait_native] or [_await_native]. *)
Definition waiting (is_async : bool) : nat → option pyfloat → W wait_result :=
  if is_async then _await_native else _wait_native.

(** [_fenced_wait] *)
Definition _fenced_wait {A} : W A := throw Fenced.

(** The waits of a pool, blocking or on an event loop. *)
Definition replacement_by (is_async : bool) (p : pool) (slot : option pyval) (identity : option pystr)
    (timeout : option pyfloat) : W (option nat) :=
  deadline ← deadline_of timeout;
  '(seat, was, capture) ← lift_res (_replacement_target slot identity);
  j ← new_waiter (po_name p) (WReplacement seat (if capture : bool then Capture else Watching was));
  result ← waiting is_async j deadline;
  if bool_decide (wr_status result = WFenced) then _fenced_wait
  else match wr_status result, wr_view result with
       | WReady, Some view => on_heap (view_slot (po_async p) (po_name p) view seat)
       | _, _ => mret None
       end.

Definition departure_by (is_async : bool) (p : pool) (identity : pystr) (timeout : option pyfloat) : W bool :=
  deadline ← deadline_of timeout;
  j ← new_waiter (po_name p) (WDeparture identity);
  result ← waiting is_async j deadline;
  if bool_decide (wr_status result = WFenced) then _fenced_wait
  else mret (bool_decide (wr_status result = WReady)).

Definition count_by (is_async : bool) (p : pool) (count : Z) (timeout : pyfloat) (filt : list (pystr * value)) :
    W (list nat) :=
  deadline ← deadline_of (Some timeout);
  j ← new_waiter (po_name p) (WCount (filter_value filt) (_native_threshold count));
  result ← waiting is_async j deadline;
  if bool_decide (wr_status result = WFenced) then _fenced_wait
  else match wr_status result, wr_view result with
       | WReady, Some view => on_heap (materialize (po_async p) (po_name p) view)
       | _, _ => throw TimeoutError
       end.

(** [Pool.wait_replacement], [Pool.wait_departure], [Pool.wait] *)
Definition wait_replacement := replacement_by false.
Definition wait_departure := departure_by false.
Definition wait_count := count_by false.

(** [AsyncPool.await_replacement], [AsyncPool.await_departure],
    [AsyncPool.await_ready] *)
Definition await_replacement := replacement_by true.
Definition await_departure := departure_by true.
Definition await_ready := count_by true.

(** ** Freezing a round *)

(** One turn of [Shared::wait_epoch], under the revision's lock; the second
    look at [accepted] sees what this one saw or a refusal that came since. *)
Definition epoch_turn (name : pystr) (minimum : option Z) (deadline : Z) : W (option epoch_result) :=
  s ← native_read id;
  let '(r, done) := epoch_look s name minimum in
  if (done : bool)
  then
    accepted ← native_read sh_accepted;
    if bool_decide (er_status r = WReady) && negb accepted
    then mret (Some (EpochResult WFenced None (er_found r) (er_target r) (er_mismatched r)
                       (er_seen_pool r) (er_silence_ms r)))
    else mret (Some r)
  else if deadline <=? sh_now_ms s then mret (Some (epoch_expired r))
  else
    let stale_at := sh_now_ms s + (lease_ms s - silence_ms s) + 1 in
    sleep_until (sh_revision s) (Some (Z.min deadline stale_at)) ;; mret None.

Definition wait_epoch (name : pystr) (timeout_ms : Z) (minimum : option Z) : W epoch_result :=
  deadline ← native_read (λ s, sh_now_ms s + timeout_ms);
  loop (epoch_turn name minimum deadline).

(** [Pool.epoch] *)
Definition epoch_ (p : pool) (min : option Z) (timeout : pyfloat) : W epoch :=
  now ← monotonic;
  let deadline := fadd now timeout in
  now' ← monotonic;
  ms ← lift_res (_left_ms now' (Some deadline));
  let minimum := _native_threshold <$> min in
  ms ← u64_arg (default 0 ms);
  result ← wait_epoch (po_name p) ms minimum;
  _ ← (if bool_decide (er_status result = WFenced) then _check_fenced p else mret tt);
  match er_status result, er_view result with
  | WStale, _ => throw Stale
  | WNoSize, _ => throw PolicyError
  | WReady, Some view => mret (epoch_from_native (po_name p) view (po_async p))
  | _, _ => throw TimeoutError
  end.

(** ** [Pool.until] and [AsyncPool.auntil] *)

Section Until.
Context (hasher : list hash_item → Z) (to_string : value → pystr).

Definition next_snapshot (is_async : bool) (p : pool) (i : nat) : W snapshot :=
  if is_async then watch_anext hasher to_string p i else watch_next hasher to_string p i.

(** [for snap in w: if predicate(snap): return snap]: [None] when the stream
    has ended.  A turn hands over a snapshot, and the one after the last event
    is over can do so once more. *)
Fixpoint follow (is_async : bool) (fuel : nat) (p : pool) (i : nat) (predicate : snapshot → bool) : W (option snapshot) :=
  match fuel with
  | O => raise Blocked
  | S fuel' =>
      r ← catching (Some <$> next_snapshot is_async p i)
            (λ h, match h with
                  | Exn (Exc StopIteration) => Some (mret None)
                  | _ => None
                  end);
      match r with
      | None => mret None
      | Some snap => if predicate snap then mret (Some snap) else follow is_async fuel' p i predicate
      end
  end.

(** [with self.changes(...) as w: m w]: closed on the way out, whichever way
    that is. *)
Definition with_watch_ {A} (i : nat) (m : W A) : W A := λ w,
  match m w with
  | (Ok a, w1) => (close_watch i ;; mret a) w1
  | (Raise Blocked, w1) => (Raise Blocked, w1)
  | (Raise (Exn e), w1) => (close_watch i ;; raise (Exn e)) w1
  end.

(** [max(0.0, deadline - time.monotonic())] *)
Definition left_seconds (deadline : option pyfloat) : W (option pyfloat) :=
  now ← monotonic;
  mret ((λ d, let left := fsub d now in if SFltb fzero left then left else fzero) <$> deadline).

Definition until_by (is_async : bool) (p : pool) (predicate : snapshot → bool) (since : option Z)
    (timeout : option pyfloat) : W snapshot :=
  deadline ← deadline_of timeout;
  snap ← snapshot_ p true;
  if predicate snap then mret snap
  else
  budget ← left_seconds deadline;
  i ← new_watching hasher to_string p (Some (default (sn_revision snap) since)) budget None;
  found ← with_watch_ i (λ w, follow is_async (S (S (length (w_script w)))) p i predicate w);
  match found with
  | Some snap => mret snap
  | None => throw TimeoutError
  end.

(** [Pool.until], [AsyncPool.auntil] *)
Definition until := until_by false.
Definition auntil := until_by true.
End Until.

(** ** A native wait sleeps only while its condition is not met *)

(** The condition as the cache has it: too few members, the tenure still
    there, nobody but the recorded tenure on the seat. *)
Definition not_met (cache : gmap pystr cached_pool) (wt : cache_waiter) : Prop :=
  match cache !! wt_pool wt with
  | None => True
  | Some p =>
      match wt_condition wt with
      | WCount f target => Z.of_nat (count p f true) < target
      | WDeparture identity => is_Some (cached_get p (wt_pool wt) identity)
      | WReplacement slot Capture => False
      | WReplacement slot (Watching previous) =>
          ∀ m, cached_slot p slot false = Some m →
            ∃ identity, previous = Some identity ∧
              (identity = member_identity (wt_pool wt) m ∨ identity_matches (wt_pool wt) m identity = true)
      end
  end.

Definition asleep_ok (j : nat) (w : world) : Prop :=
  ∃ wt, w_waits w !! j = Some wt ∧ wt_closed wt = false ∧ sh_accepted (w_sh w) = true ∧
        not_met (sh_cache (w_sh w)) wt.

Lemma observe_not_ready s wt r wt' :
  observe s wt = (r, wt') → wr_status r ≠ WReady →
  not_met (sh_cache s) wt' ∧ wt_closed wt' = wt_closed wt ∧ wr_status r = Pending.
Proof.
  unfold observe, not_met. destruct (totals s (wt_pool wt)) as [total version].
  destruct wt as [name [f target|identity|slot [|previous]] closed]; simpl;
    destruct (sh_cache s !! name) as [p|] eqn:Ec; simpl.
  - destruct (Z.leb_spec target (Z.of_nat (count p f true))); intros [= <- <-]; simpl; [done|].
    rewrite Ec. done.
  - intros [= <- <-] _. simpl. by rewrite Ec.
  - case_bool_decide as Hg; intros [= <- <-]; simpl; [done|]. rewrite Ec.
    by apply not_eq_None_Some in Hg.
  - intros [= <- <-] _. simpl. by rewrite Ec.
  - intros [= <- <-] _. simpl. rewrite Ec. split_and!; [|done..]. intros m ->. simpl. eauto.
  - intros [= <- <-] _. simpl. by rewrite Ec.
  - destruct (cached_slot p slot false) as [m|] eqn:Es, previous as [identity|]; simpl.
    + destruct (identity_matches name m identity) eqn:Em; simpl; intros [= <- <-]; simpl; [|done].
      intros _. rewrite Ec, Es. split_and!; [|done..]. intros m' [= <-]. eauto.
    + by intros [= <- <-].
    + intros [= <- <-] _. simpl. by rewrite Ec, Es.
    + intros [= <- <-] _. simpl. by rewrite Ec, Es.
  - intros [= <- <-] _. simpl. by rewrite Ec.
Qed.

(** A look that answers [Pending]. *)
Lemma check_pending s wt initial r wt' :
  check s wt initial = (r, wt') → wr_status r = Pending →
  wt_closed wt' = false ∧ sh_accepted s = true ∧ not_met (sh_cache s) wt'.
Proof.
  unfold check, with_status. destruct (totals s (wt_pool wt)) as [total version].
  destruct (wt_closed wt) eqn:Hc; [by intros [= <- <-]|].
  destruct (negb initial && negb (sh_accepted s)) eqn:Hf; [by intros [= <- <-]|].
  destruct (observe s wt) as [r0 wt0] eqn:Eo. case_decide as Hr; [intros [= <- <-]; congruence|].
  destruct (observe_not_ready _ _ _ _ Eo Hr) as (Hn & Hcl & Hp).
  destruct initial, (sh_accepted s); simpl in *; try done; intros [= <- <-] Hs;
    (split_and!; [congruence|done..]) || done.
Qed.

Lemma wp_get_wait j w Q :
  (∀ wt, w_waits w !! j = Some wt → Q (Ok wt) w) →
  (w_waits w !! j = None → Q (Raise (Exn (Exc AssertionError))) w) → wp (get_wait j) w Q.
Proof. intros H1 H2. unfold wp, get_wait. destruct (w_waits w !! j); simpl; auto. Qed.

(** An open waiter of an accepted client looks at its condition alone. *)
Lemma check_open s wt initial :
  wt_closed wt = false → sh_accepted s = true → check s wt initial = observe s wt.
Proof.
  intros Hc Ha. unfold check. rewrite Hc, Ha, andb_false_r.
  destruct (observe s wt) as [r wt']. rewrite andb_false_r. by case_decide.
Qed.

Lemma wp_look j initial w wt (Q : result halt wait_result → world → Prop) :
  w_waits w !! j = Some wt →
  (∀ r wt', let w1 := with_waits w (<[j := wt']> (w_waits w)) (w_live_waits w) in
     check (w_sh w) wt initial = (r, wt') → w_waits w1 !! j = Some wt' → Q (Ok r) w1) →
  wp (look j initial : W wait_result) w Q.
Proof.
  intros Hj HQ. unfold wp, look. rewrite Hj.
  destruct (check (w_sh w) wt initial) as [r wt'] eqn:Ec. simpl. apply HQ; [done|].
  simpl. apply list_lookup_insert_eq. by eapply lookup_lt_Some.
Qed.

(** Later, with the revision where it was, the sleeper is where it was. *)
Lemma asleep_later j w w1 wt :
  later w w1 → wrev w1 = wrev w → w_waits w !! j = Some wt →
  wt_closed wt = false ∧ sh_accepted (w_sh w) = true ∧ not_met (sh_cache (w_sh w)) wt →
  asleep_ok j w1.
Proof.
  intros Hl Hr Hj (H1 & H2 & H3). exists wt.
  destruct (lt_quiet Hl (eq_sym Hr)) as (-> & -> & _). by rewrite (lt_waits Hl (eq_sym Hr)).
Qed.

Definition wait_inv (j : nat) (w : world) : Prop := script_ok w ∧ is_Some (w_waits w !! j).

Lemma wait_inv_later j w w1 : later w w1 → wait_inv j w → wait_inv j w1.
Proof. intros Hl [? ?]. split; [by eapply later_script_ok|by apply (lt_waits_some Hl)]. Qed.

(** The end of a turn of either wait. *)
Definition turn_post (j : nat) (w : world) (r : result halt (option wait_result)) (w1 : world) : Prop :=
  match r with
  | Ok None => wait_inv j w1 ∧ (length (w_script w1) < length (w_script w))%nat
  | Raise Blocked => asleep_ok j w1
  | _ => True
  end.

Lemma wp_tick w (Q : result halt unit → world → Prop) :
  script_ok w →
  (∀ w1, later w w1 → script_ok w1 → shorter w w1 → (w_script w = [] → w1 = w) → Q (Ok tt) w1) →
  wp tick w Q.
Proof.
  intros Hok HQ. destruct (tick_later w Hok) as (Ht & Hl & Hs & He). unfold wp. rewrite Ht.
  apply HQ; eauto using later_script_ok.
Qed.

Lemma wp_fmap {A B} (f : A → B) (m : W A) w Q :
  wp m w (λ r w1, Q (match r with Ok a => Ok (f a) | Raise e => Raise e end) w1) → wp (f <$> m) w Q.
Proof. unfold wp, fmap, M_fmap. by destruct (m w) as [[a|e] w1]. Qed.

Lemma wp_status_of j st w (Q : result halt (option wait_result) → world → Prop) :
  (∀ r, Q (Ok (Some r)) w) → (∀ e, Q (Raise (Exn e)) w) → wp (Some <$> status_of j st) w Q.
Proof.
  intros H1 H2. apply wp_fmap, wp_bind, wp_get_wait; [|by intros; apply H2].
  intros wt _. by apply wp_gets.
Qed.

Lemma wait_turn_spec j deadline w : wait_inv j w → wp (wait_turn j deadline) w (turn_post j w).
Proof.
  intros [Hok Hj]. unfold wait_turn. apply wp_bind, wp_tick; [done|]. intros w1 Hl Hok1 Hsh He.
  apply wp_bind, wp_get_wait; [|by intros; simpl]. intros wt Hwt. apply wp_bind, wp_get. cbv zeta.
  destruct (wt_closed wt) eqn:Hcl; [by apply wp_status_of|].
  destruct (sh_accepted (w_sh w1)) eqn:Hacc; [|by apply wp_status_of]. cbn [negb].
  destruct (due deadline (w_sh w1)); [by apply wp_status_of|].
  apply wp_bind, (wp_look _ _ _ wt); [done|]. intros r wt' w1' Hch Hj1.
  case_decide as Hr; [by apply wp_ret|].
  assert (script_ok w1') as Hok1' by done.
  apply wp_bind, wp_sleep_until; [done|..].
  - intros w2 Hl2 Hok2 Hlt. apply wp_ret. simpl. split.
    + split; [done|]. apply (lt_waits_some Hl2). by eexists.
    + pose proof (later_le _ _ Hl). simpl in Hlt. lia.
  - intros w2 Hl2 Hok2 He2 Hrev. simpl. eapply (asleep_later j w1' w2 wt'); [done|by apply Hrev|done|].
    apply (check_pending (w_sh w1) wt false r); [done|]. rewrite check_open in Hch by done.
    by apply (observe_not_ready _ _ _ _ Hch Hr).
Qed.

(** One look through the client. *)
Lemma wp_native_check j initial w (Q : result halt wait_result → world → Prop) :
  wait_inv j w →
  (∀ r w1 wt', later w w1 → script_ok w1 → shorter w w1 → (w_script w = [] → w1 = w) →
     let w1' := with_waits w1 (<[j := wt']> (w_waits w1)) (w_live_waits w1) in
     w_waits w1' !! j = Some wt' →
     (wr_status r = Pending →
      wt_closed wt' = false ∧ sh_accepted (w_sh w1) = true ∧ not_met (sh_cache (w_sh w1)) wt') →
     Q (Ok r) w1') →
  wp (native_check j initial) w Q.
Proof.
  intros [Hok Hj] HQ. unfold native_check. apply wp_bind, wp_tick; [done|]. intros w1 Hl Hok1 Hsh He.
  destruct (lt_waits_some Hl j Hj) as [wt Hwt].
  apply (wp_look _ _ _ wt); [done|]. intros r wt' w1' Hch Hj1. apply HQ; try done.
  by apply (check_pending (w_sh w1) wt initial).
Qed.

Lemma await_turn_spec j deadline initial w :
  wait_inv j w → wp (await_turn j deadline initial) w (turn_post j w).
Proof.
  intros Hw. unfold await_turn, loop_bell. apply wp_bind, wp_bind, wp_gets.
  destruct (w_current w); [|done]. cbn [negb].
  apply wp_native_read; [apply Hw|]. intros w0 Hl0 Hok0 Hs0 He0. cbv beta.
  apply wp_bind, wp_native_check; [by apply (wait_inv_later _ _ _ Hl0)|].
  intros r w1 wt' Hl1 Hok1 Hs1 He1 w1' Hj1 Hpend.
  (* the branch that goes to sleep *)
  assert (wp (if negb (bool_decide (wr_status r = Pending)) then mret (Some r)
              else now ← monotonic; left ← lift_res (_left_ms now deadline);
                   match left with
                   | None => mret (Some (_timed_out r))
                   | Some ms => bell_sleep (sh_revision (w_sh w0)) ms ;; mret None
                   end) w1' (turn_post j w)) as Hanswer.
  { case_bool_decide as Hp; [|by apply wp_ret]. cbn [negb].
    apply wp_bind, wp_gets, wp_bind, wp_lift_res; [|done]. intros [ms|] _; [|by apply wp_ret].
    unfold bell_sleep. apply wp_bind, wp_bind, wp_gets.
    pose proof (later_le _ _ Hl0). pose proof (later_le _ _ Hl1).
    assert (script_ok w1') as Hok1' by done.
    destruct (Z.eqb_spec (sh_revision (w_sh w1')) (sh_revision (w_sh w0))) as [Hr|Hr]; cbn [negb]; cycle 1.
    { apply wp_ret, wp_ret. split; [split; [done|by eexists]|]. simpl. unfold shorter in *.
      destruct (w_script w) as [|b l] eqn:E; simpl in *; [|lia].
      destruct Hr. rewrite (He1 ltac:(by rewrite (He0 eq_refl))). done. }
    apply wp_sleep; [done|..].
    - intros w2 Hl2 Hok2 Hlt. apply wp_ret. split; [split; [done|]|].
      + apply (lt_waits_some Hl2). by eexists.
      + simpl in Hlt. lia.
    - intros w2 Hl2 Hok2 He2 Hrev. simpl. eapply (asleep_later j w1' w2 wt'); [done| |done|by apply Hpend].
      rewrite (Hrev Hr). done. }
  destruct (negb initial && _); [|exact Hanswer].
  apply wp_bind, wp_gets, wp_bind, wp_lift_res; [|done]. intros [ms|] _; [exact Hanswer|by apply wp_ret].
Qed.

Lemma wp_finally {A} (m : W A) f w (Q : result halt A → world → Prop) :
  wp m w (λ r w1, Q r (f w1)) → wp (finally m f) w Q.
Proof. unfold wp, finally. by destruct (m w). Qed.

Lemma wp_turns (body : W (option wait_result)) j w Q :
  (∀ w, wait_inv j w → wp body w (turn_post j w)) → wait_inv j w →
  (∀ w1, asleep_ok j w1 → Q (Raise Blocked) w1) → (∀ e w1, Q (Raise (Exn e)) w1) →
  (∀ r w1, Q (Ok r) w1) →
  wp (loop body) w Q.
Proof.
  intros Hbody Hw Hblk Hexn Hret. apply (wp_loop _ (wait_inv j)); [done|]. intros w0 Hw0.
  eapply wp_mono; [by apply Hbody|]. intros [[r|]|[e|]] w1; simpl; auto.
Qed.

Lemma waiting_spec is_async j deadline w :
  wait_inv j w →
  wp (waiting is_async j deadline) w (λ r w1, r = Raise Blocked → asleep_ok j w1).
Proof.
  intros Hw. destruct is_async; cbn [waiting].
  - unfold _await_native. apply wp_bind, wp_modify, wp_finally, wp_bind.
    eapply wp_mono; [apply (await_turn_spec j deadline true); exact Hw|].
    intros [[r|]|[e|]] w1; simpl; try done. intros [Hw1 _].
    apply (wp_turns _ j); [by intros; apply await_turn_spec|done|done|done|done].
  - unfold _wait_native. apply wp_bind, wp_modify, wp_finally, wp_bind, wp_native_check; [exact Hw|].
    intros r w1 wt' Hl1 Hok1 Hs1 He1 w1' Hj1 Hp. case_bool_decide as Hr; cbn [negb]; [|done].
    assert (∀ ms, wp (native_wait j ms) w1' (λ r w1, r = Raise Blocked → asleep_ok j (live_discard j w1))) as Hn.
    { intros ms. unfold native_wait. apply wp_bind, wp_tick; [done|]. intros w2 Hl2 Hok2 _ _.
      apply wp_bind, wp_gets. apply (wp_turns _ j); [by intros; apply wait_turn_spec| |done|done|done].
      split; [done|]. apply (lt_waits_some Hl2). by eexists. }
    destruct deadline as [d|]; [|apply Hn].
    apply wp_bind, wp_gets, wp_bind, wp_lift_res; [|done]. intros ms _.
    apply wp_bind, wp_u64_arg; [apply Hn|done].
Qed.

(** ** Properties *)

(** C10: a wait on the native side never sleeps through the moment its
    condition comes true: [_wait_native] and [_await_native], still waiting
    when nothing more will happen, have an open waiter, a seat that is still
    held, and a condition the cache does not meet. *)
Theorem native_wait_not_missed (is_async : bool) (j : nat) (deadline : option pyfloat) (w w' : world) :
  script_ok w → is_Some (w_waits w !! j) →
  waiting is_async j deadline w = (Raise Blocked, w') →
  ∃ wt, w_waits w' !! j = Some wt ∧ wt_closed wt = false ∧ sh_accepted (w_sh w') = true ∧
        not_met (sh_cache (w_sh w')) wt.
Proof.
  intros Hok Hj Hw. pose proof (waiting_spec is_async j deadline w (conj Hok Hj)) as H.
  unfold wp in H. rewrite Hw in H. by apply H.
Qed.

Definition waiting_world (script : list (list event)) : world :=
  with_waits (sample_world script) [CacheWaiter (u "engine") (WCount (Object []) 2) false] [].

Lemma native_wait_not_missed_witness :
  let w' := (waiting true 0 None (waiting_world [[EvRing]; []; [EvSpurious]; []])).2 in
  ∃ wt, w_waits w' !! 0%nat = Some wt ∧ wt_closed wt = false ∧ sh_accepted (w_sh w') = true ∧
        not_met (sh_cache (w_sh w')) wt.
Proof.
  apply (native_wait_not_missed true 0 None (waiting_world [[EvRing]; []; [EvSpurious]; []])).
  - repeat constructor.
  - by eexists.
  - vm_compute. reflexivity.
Defined.

(** ** Rounds *)

Definition caches_ok (s : shared) : Prop := ∀ n c, sh_cache s !! n = Some c → cache_ok c.

Lemma apply_pools_caches restarted pools cache changed :
  (∀ n c, cache !! n = Some c → cache_ok c) →
  ∀ n c, (fold_left (apply_pool restarted) pools (cache, changed)).1 !! n = Some c → cache_ok c.
Proof.
  revert cache changed. induction pools as [|[name d] pools IH]; intros cache changed Hc; [done|].
  cbn [fold_left apply_pool]. destruct (restarted && negb (d_full d)); [by apply IH|].
  assert (cache_ok (default empty_pool (cache !! name))) as Hd.
  { destruct (cache !! name) eqn:E; simpl; [by eapply Hc|auto with tinyray]. }
  destruct (_ <? _); apply IH; intros n c [[<- <-]|[_ ?]]%lookup_insert_Some; eauto with tinyray.
Qed.

Lemma apply_ack_caches s ack : caches_ok s → caches_ok (apply_ack s ack).2.
Proof.
  intros Hc. unfold apply_ack.
  set (restarted := negb (sh_seen_epoch s =? 0) && negb (sh_seen_epoch s =? ack_epoch ack)).
  assert (∀ n c, (if restarted then ∅ else sh_cache s) !! n = Some c → cache_ok c) as Hc'.
  { intros n c. destruct restarted; [by rewrite lookup_empty|apply Hc]. }
  destruct (ack_accepted ack); simpl; [|exact Hc'].
  pose proof (apply_pools_caches restarted (ack_pools ack) _
                (restarted && negb (bool_decide (sh_cache s = ∅))) Hc') as Hp.
  destruct (fold_left _ _ _) as [cache' changed']. exact Hp.
Qed.

Lemma happen_caches w e : caches_ok (w_sh w) → caches_ok (w_sh (happen w e)).
Proof.
  intros Hc. destruct e as [|k ack|k|mono ms| | |i|]; simpl; try done.
  - destruct (take_off k _) as [[showing fl]|]; [|done]. simpl. unfold beat_landed.
    pose proof (apply_ack_caches (w_sh w) ack Hc) as Hp.
    destruct (apply_ack (w_sh w) ack) as [[alive []] s1]; exact Hp.
  - by destruct (take_off k _) as [[showing fl]|].
  - generalize (leave_rings w). intros n. by induction n.
  - destruct (w_watches w !! i) as [wa|]; [|done]. by destruct (wa_closed wa).
Qed.

Lemma batch_caches batch w : caches_ok (w_sh w) → caches_ok (w_sh (fold_left happen batch w)).
Proof.
  intros Hc. apply (fold_left_ind (λ w, caches_ok (w_sh w))); [done|]. intros. by apply happen_caches.
Qed.

Definition keeps {A} (m : W A) : Prop := ∀ w, caches_ok (w_sh w) → caches_ok (w_sh (m w).2).

Lemma tick_keeps : keeps tick.
Proof. intros w Hc. unfold tick. destruct (w_script w); [done|]. by apply batch_caches. Qed.

Lemma native_read_keeps {A} (f : shared → A) : keeps (native_read f).
Proof.
  intros w Hc. unfold native_read. rewrite M_bind_unfold. pose proof (tick_keeps w Hc) as Ht.
  by destruct (tick w) as [[]  w1].
Qed.

Lemma sleep_keeps since d : keeps (sleep_until since d).
Proof.
  intros w Hc. unfold sleep_until. revert w Hc. cut (∀ script w, caches_ok (w_sh w) →
    caches_ok (w_sh (sleep_go sh_revision since d script w).2)); [auto|].
  induction script as [|batch rest IH]; intros w Hc; [done|]. cbn [sleep_go].
  pose proof (batch_caches batch (with_script w rest) Hc) as Hb. destruct (_ || _); [done|]. by apply IH.
Qed.

(** What a round is handed over with. *)
Record round_ok (minimum : option Z) (view : frozen_pool) : Prop := {
  ro_roster : fp_roster view =
    fold_left Z.lxor (map roster_hash (fm_members (fp_members view))) 0;
  ro_ready : Forall (λ m, m_ready m = true) (fm_members (fp_members view));
  ro_count : ∃ target, (minimum = Some target ∨ minimum = None ∧ fp_size view = Some target) ∧
    target ≤ Z.of_nat (length (fm_members (fp_members view)))
}.

Lemma epoch_look_ready s name minimum r view :
  caches_ok s → (epoch_look s name minimum).1 = r → er_status r = WReady → er_view r = Some view →
  round_ok minimum view.
Proof.
  intros Hc <-. unfold epoch_look.
  destruct (sh_accepted s); simpl; [|done]. destruct (lease_ms s <? silence_ms s); simpl; [done|].
  destruct (sh_cache s !! name) as [c|] eqn:Ec; simpl; [|done]. pose proof (Hc _ _ Ec) as Hok.
  destruct (match minimum with Some m => Some m | None => cp_size c end) as [target|] eqn:Et; simpl; [|done].
  destruct (Z.leb_spec target (Z.of_nat (length (fm_members (native c true))))) as [Hle|]; simpl; [|done].
  destruct (Z.eqb_spec (fm_roster (native c true)) (cp_roster c)) as [Hr|]; simpl; [|done].
  intros _ [= <-]. split; simpl.
  - by rewrite <-Hr, native_spec, freeze_roster.
  - rewrite native_spec by done. apply Forall_forall. intros m. rewrite freeze_elem. unfold members_of.
    rewrite ids_spec by done. intros (i & Hi & Hm)%list_elem_of_omap.
    apply list_elem_of_filter in Hi as [Hi _]. unfold is_ready in Hi. by rewrite Hm in Hi.
  - exists target. split; [|done]. destruct minimum; simplify_eq; auto.
Qed.

Lemma epoch_turn_spec name minimum deadline w :
  caches_ok (w_sh w) →
  wp (epoch_turn name minimum deadline) w (λ r w1,
    caches_ok (w_sh w1) ∧
    match r with
    | Ok (Some er) => ∀ view, er_status er = WReady → er_view er = Some view → round_ok minimum view
    | _ => True
    end).
Proof.
  intros Hc. unfold epoch_turn, wp. rewrite M_bind_unfold.
  pose proof (native_read_keeps id w Hc) as H1.
  assert (∀ s w1, native_read id w = (Ok s, w1) → s = w_sh w1) as Hs.
  { intros s w1. unfold native_read. rewrite M_bind_unfold. destruct (tick w) as [[] ?]; by intros [= <- <-]. }
  destruct (native_read id w) as [[s|e] w1]; [|done]. rewrite (Hs s w1 eq_refl). simpl in H1.
  destruct (epoch_look (w_sh w1) name minimum) as [r fin] eqn:El.
  assert (∀ view, er_status r = WReady → er_view r = Some view → round_ok minimum view) as Hr.
  { intros view. apply (epoch_look_ready (w_sh w1) name); [done|by rewrite El]. }
  destruct fin.
  - rewrite M_bind_unfold. pose proof (native_read_keeps sh_accepted w1 H1) as H2.
    destruct (native_read sh_accepted w1) as [[acc|e] w2]; [|done].
    destruct (bool_decide _ && _); simpl; (split; [done|]); [done|exact Hr].
  - destruct (_ <=? _); simpl; [split; [done|]|].
    + intros view. unfold epoch_expired. simpl. by destruct (_ && _).
    + rewrite M_bind_unfold. pose proof (sleep_keeps (sh_revision (w_sh w1))
        (Some (Z.min deadline (sh_now_ms (w_sh w1) + (lease_ms (w_sh w1) - silence_ms (w_sh w1)) + 1))) w1 H1)
        as H2.
      destruct (sleep_until _ _ w1) as [[]  w2]; done.
Qed.

Lemma wait_epoch_spec name ms minimum w er w' :
  caches_ok (w_sh w) → wait_epoch name ms minimum w = (Ok er, w') →
  ∀ view, er_status er = WReady → er_view er = Some view → round_ok minimum view.
Proof.
  intros Hc. unfold wait_epoch. rewrite M_bind_unfold.
  pose proof (native_read_keeps (λ s, sh_now_ms s + ms) w Hc) as H1.
  destruct (native_read _ w) as [[d|e] w1]; [|done]. simpl in H1. unfold loop.
  generalize (S (length (w_script w1))). intros n. revert w1 H1.
  induction n as [|n IH]; intros w1 H1; [done|]. cbn [loop_go]. rewrite M_bind_unfold.
  pose proof (epoch_turn_spec name minimum d w1 H1) as Ht. unfold wp in Ht.
  destruct (epoch_turn name minimum d w1) as [[[r|]|e] w2]; destruct Ht as [H2 Ht]; simpl in *.
  - by intros [= <- <-].
  - by apply IH.
  - done.
Qed.

(** C33: a round is only handed over carrying the fingerprint its own list adds
    up to: an epoch that [Pool.epoch] returns is a list of ready members, at
    least as many as were asked for, and its fingerprint is the exclusive or
    of their seat-and-tenure hashes -- so a pool with an occupant that is not
    ready never freezes under the fingerprint of all of them. *)
Theorem epoch_fingerprint_describes_list (p : pool) (min : option Z) (timeout : pyfloat)
    (w w' : world) (e : epoch) :
  (∀ n c, sh_cache (w_sh w) !! n = Some c → cache_ok c) →
  epoch_ p min timeout w = (Ok e, w') →
  ∃ view, ep_view e = Some view ∧ ep_roster e = fp_roster view ∧
          round_ok (_native_threshold <$> min) view.
Proof.
  intros Hc. unfold epoch_. rewrite M_bind_unfold. unfold monotonic, gets. cbv beta iota.
  rewrite M_bind_unfold. cbv beta iota. rewrite M_bind_unfold.
  destruct (_left_ms _ _) as [ms|ex]; [|done]. unfold lift_res, mret at 1, M_ret at 1.
  rewrite M_bind_unfold. unfold u64_arg. destruct (_ && _) in |- *; [|done].
  unfold mret at 1, M_ret at 1. rewrite M_bind_unfold. destruct (wait_epoch _ _ _ w) as [[er|ex] w1] eqn:Ew; [|done].
  rewrite M_bind_unfold. destruct ((if bool_decide (er_status er = WFenced) then _check_fenced p else mret tt) w1) as [[[]|ex] w2];
    [|done].
  pose proof (wait_epoch_spec _ _ _ _ _ _ Hc Ew) as Hr.
  destruct (er_status er), (er_view er) as [view|]; try done.
  intros [= <- <-]. exists view. simpl. split_and!; [done|done|by apply Hr].
Qed.

Lemma epoch_fingerprint_describes_list_witness :
  let view := frozen (apply empty_pool (sample_delta 5 member_a)) true in
  ∃ v, ep_view (epoch_from_native (u "engine") view false) = Some v ∧
       ep_roster (epoch_from_native (u "engine") view false) = fp_roster v ∧
       round_ok (_native_threshold <$> Some 1) v.
Proof.
  intros view.
  apply (epoch_fingerprint_describes_list sample_pool (Some 1) (round_int 30) (sample_world [])
    (epoch_ sample_pool (Some 1) (round_int 30) (sample_world [])).2).
  - intros n c. change (sh_cache (w_sh (sample_world [])))
      with ({[u "engine" := apply empty_pool (sample_delta 5 member_a)]} : gmap pystr cached_pool).
    intros [_ <-]%lookup_singleton_Some. apply apply_cache_ok, empty_pool_ok.
  - vm_compute. reflexivity.
Defined.
