(* ===== verification/Member.v ===== *)
(** * This process's own registration

    [Member] of [__init__.py]: what this process publishes about itself, and
    the waits on its own standing.  A publication goes through JSON: it is
    written with [json.dumps], measured, read back and handed to the native
    side, which stores it under a new version if it differs. *)

From S2P Require Import Prelude PyStr PyFloat Errors Identity Config Timing Json Cache Shared Views World Lookup Watch.
From Stdlib Require Import SpecFloat.

Local Open Scope Z_scope.

(** ** [json.dumps] and [json.loads] *)

Section JsonText.
(** [float.__repr__] *)
Context (float_repr : pyfloat → pystr).

(** [json.encoder.py_encode_basestring_ascii], one character *)
Definition escape_char (c : N) : pystr :=
  (if c =? 34 then u "\" ++ [34]
   else if c =? 92 then u "\\"
   else if c =? 10 then u "\n" else if c =? 13 then u "\r" else if c =? 9 then u "\t"
   else if c =? 12 then u "\f" else if c =? 8 then u "\b"
   else if (32 <=? c) && (c <=? 126) then [c]
   else if c <? 65536 then u "\u" ++ hex_pad 4 (Z.of_N c)
   else let v := c - 65536 in
        u "\u" ++ hex_pad 4 (Z.of_N (55296 + v / 1024)) ++ u "\u" ++ hex_pad 4 (Z.of_N (56320 + v mod 1024)))%N.

Definition json_string (s : pystr) : pystr := 34%N :: flat_map escape_char s ++ [34%N].

Definition json_int (z : Z) : res pystr :=
  match checked_str_of_int z with Some s => Ok s | None => Raise (Exc ValueError) end.

(** [allow_nan=False] *)
Definition json_float (x : pyfloat) : res pystr :=
  if isfinite x then Ok (float_repr x) else Raise (Exc ValueError).

(** How a key is spelled. *)
Definition json_key (k : pyval) : res pystr :=
  match k with
  | VStr s => Ok s
  | VBool b => Ok (if b then u "true" else u "false")
  | VNone => Ok (u "null")
  | VInt z => json_int z
  | VFloat x => json_float x
  | _ => Raise (Exc TypeError)
  end.

Fixpoint join_with (sep : pystr) (l : list pystr) : pystr :=
  match l with [] => [] | [x] => x | x :: l' => x ++ sep ++ join_with sep l' end.

(** [json.dumps(v, allow_nan=False)] *)
Fixpoint json_dumps (v : pyval) : res pystr :=
  match v with
  | VNone => Ok (u "null")
  | VBool b => Ok (if b then u "true" else u "false")
  | VInt z => json_int z
  | VFloat x => json_float x
  | VStr s => Ok (json_string s)
  | VList l | VTuple l =>
      items ← (fix go (l : list pyval) : res (list pystr) :=
                 match l with
                 | [] => Ok []
                 | x :: l' => t ← json_dumps x; ts ← go l'; Ok (t :: ts)
                 end) l;
      Ok (u "[" ++ join_with (u ", ") items ++ u "]")
  | VDict kvs =>
      items ← (fix go (kvs : list (pyval * pyval)) : res (list pystr) :=
                 match kvs with
                 | [] => Ok []
                 | (k, x) :: kvs' =>
                     key ← json_key k; t ← json_dumps x; ts ← go kvs';
                     Ok ((json_string key ++ u ": " ++ t) :: ts)
                 end) kvs;
      Ok (u "{" ++ join_with (u ", ") items ++ u "}")
  | _ => Raise (Exc TypeError)
  end.

(** [json.loads(json.dumps(v))]: what the text says, keys as strings, tuples
    as lists, the last of two equal keys. *)
Fixpoint reload (v : pyval) : res value :=
  match v with
  | VNone => Ok Null
  | VBool b => Ok (Bool b)
  | VInt z => _ ← json_int z; Ok (Int z)
  | VFloat x => _ ← json_float x; Ok (Float x)
  | VStr s => Ok (Str s)
  | VList l | VTuple l =>
      items ← (fix go (l : list pyval) : res (list value) :=
                 match l with
                 | [] => Ok []
                 | x :: l' => t ← reload x; ts ← go l'; Ok (t :: ts)
                 end) l;
      Ok (Array items)
  | VDict kvs =>
      items ← (fix go (kvs : list (pyval * pyval)) : res (list (pystr * value)) :=
                 match kvs with
                 | [] => Ok []
                 | (k, x) :: kvs' =>
                     key ← json_key k; t ← reload x; ts ← go kvs'; Ok ((key, t) :: ts)
                 end) kvs;
      Ok (Object (assoc_all items))
  | _ => Raise (Exc TypeError)
  end.
End JsonText.

(** ** Crossing to the native side *)

Definition is_surrogate (c : N) : bool := (55296 <=? c)%N && (c <? 57344)%N.

(** What [msgspec] refuses to encode of a JSON value: an integer of more than
    64 bits, a string with a lone surrogate. *)
Fixpoint wire_error (v : value) : option exc_class :=
  match v with
  | Int z => if (- 2 ^ 63 <=? z) && (z <? 2 ^ 64) then None else Some OverflowError
  | Str s => if existsb is_surrogate s then Some UnicodeError else None
  | Array l =>
      (fix go (l : list value) : option exc_class :=
         match l with
         | [] => None
         | x :: l' => match wire_error x with Some c => Some c | None => go l' end
         end) l
  | Object kvs =>
      (fix go (kvs : list (pystr * value)) : option exc_class :=
         match kvs with
         | [] => None
         | (k, x) :: kvs' =>
             if existsb is_surrogate k then Some UnicodeError
             else match wire_error x with Some c => Some c | None => go kvs' end
         end) kvs
  | _ => None
  end.

(** [MAX_VALUE_DEPTH] *)
Definition MAX_VALUE_DEPTH : nat := 128.

(** [value_within_depth_limit] *)
Fixpoint depth_ok (fuel : nat) (v : value) : bool :=
  match v with
  | Array l =>
      match fuel with
      | O => bool_decide (l = [])
      | S f => forallb (depth_ok f) l
      end
  | Object kvs =>
      match fuel with
      | O => bool_decide (kvs = [])
      | S f => forallb (λ kv, depth_ok f kv.2) kvs
      end
  | _ => true
  end.

(** ** The object *)

(** [class Member]; the lock is not here: every operation below is one
    critical section of it. *)
Record member_obj := MemberObj {
  mb_pool : pystr;
  mb_slot : option Z;
  mb_incarnation : Z;
  mb_ident : Z;
  mb_state : list (pyval * pyval);
  mb_left : bool;
  mb_pid : Z
}.

(** [Member.__init__] *)
Definition new_member (pool_name : pystr) (slot : option Z) (incarnation ident pid : Z) : member_obj :=
  MemberObj pool_name slot incarnation ident [] false pid.

(** [Member.identity] *)
Definition own_identity (mb : member_obj) : pystr :=
  _identity (mb_pool mb) (mb_slot mb) (mb_ident mb) (mb_incarnation mb).

(** The label in [Member.__repr__] *)
Definition member_label (mb : member_obj) : pystr :=
  mb_pool mb ++ slash :: match mb_slot mb with Some s => str_of_int s | None => u "-" end ++
  hash_sign :: hex_pad 3 (Z.land (mb_incarnation mb) 4095).

(** [MAX_STATE = 16 << 10] *)
Definition MAX_STATE : Z := Z.shiftl 16 10.

(** [d[key] = v] on a dict of Python values with string keys. *)
Fixpoint dict_set (key : pystr) (v : pyval) (kvs : list (pyval * pyval)) : list (pyval * pyval) :=
  match kvs with
  | [] => [(VStr key, v)]
  | (VStr k, w) :: kvs' =>
      if bool_decide (k = key) then (VStr k, v) :: kvs' else (VStr k, w) :: dict_set key v kvs'
  | kv :: kvs' => kv :: dict_set key v kvs'
  end.

(** [{**a, **kw}] *)
Definition dict_merge (a : list (pyval * pyval)) (kw : list (pystr * pyval)) : list (pyval * pyval) :=
  fold_left (λ acc kv, dict_set kv.1 kv.2 acc) kw a.

(** The member and the client it publishes through. *)
Record registration := Registration { rg_member : member_obj; rg_shared : shared }.

Notation R := (M registration exn).

Definition with_state (mb : member_obj) (st : list (pyval * pyval)) : member_obj :=
  MemberObj (mb_pool mb) (mb_slot mb) (mb_incarnation mb) (mb_ident mb) st (mb_left mb) (mb_pid mb).

Section Publish.
Context (float_repr : pyfloat → pystr) (getpid : Z).

(** [Member._mine] *)
Definition _mine : R unit :=
  r ← get; if getpid =? mb_pid (rg_member r) then mret tt else raise (Exc RuntimeError).

(** [Member._encode_state]: the JSON text is measured, and what it says is
    encoded for the native side. *)
Definition _encode_state (state : list (pyval * pyval)) : res value :=
  raw ← json_dumps float_repr (VDict state);
  if MAX_STATE <? Z.of_nat (length raw) then Raise (Exc ValueError)
  else v ← reload float_repr (VDict state);
       match wire_error v with Some c => Raise (Exc c) | None => Ok v end.

(** [decode_value] on the other side. *)
Definition decode_value (v : value) : res value :=
  if depth_ok MAX_VALUE_DEPTH v then Ok v else Raise (Exc RuntimeError).

(** [self._c.set_state(raw, ready)], [self._c.set_state_only(raw)] *)
Definition client_set_state (v : value) (ready : bool) : R unit :=
  st ← lift (decode_value v);
  modify (λ r, Registration (rg_member r) (set_state (rg_shared r) st ready).2).

Definition client_set_state_only (v : value) : R unit :=
  st ← lift (decode_value v);
  modify (λ r, Registration (rg_member r) (set_state_only (rg_shared r) st).2).

Definition assign_state (st : list (pyval * pyval)) : R unit :=
  modify (λ r, Registration (with_state (rg_member r) st) (rg_shared r)).

(** [Member.ready] *)
Definition ready (state : list (pystr * pyval)) : R unit :=
  _mine ;;
  r ← get;
  let merged := dict_merge (mb_state (rg_member r)) state in
  raw ← lift (_encode_state merged);
  client_set_state raw true ;;
  assign_state merged.

(** [Member.update] *)
Definition update (state : list (pystr * pyval)) : R unit :=
  _mine ;;
  r ← get;
  let merged := dict_merge (mb_state (rg_member r)) state in
  raw ← lift (_encode_state merged);
  client_set_state_only raw ;;
  assign_state merged.

(** [Member.replace]; [None] is no argument. *)
Definition replace (state : option (list (pyval * pyval))) : R unit :=
  _mine ;;
  let fresh := default [] state in
  raw ← lift (_encode_state fresh);
  client_set_state_only raw ;;
  assign_state fresh.

(** [Member.set_ready] *)
Definition set_ready (state : option (list (pyval * pyval))) : R unit :=
  _mine ;;
  let fresh := default [] state in
  raw ← lift (_encode_state fresh);
  client_set_state raw true ;;
  assign_state fresh.

(** [Member.unready] *)
Definition unready : R unit :=
  _mine ;;
  r ← get;
  raw ← lift (_encode_state (mb_state (rg_member r)));
  client_set_state raw false.

(** [Member.is_ready], [Member.state] *)
Definition member_is_ready : R bool := gets (λ r, pb_ready (sh_published (rg_shared r))).
Definition member_state : R (list (pyval * pyval)) := gets (λ r, mb_state (rg_member r)).

(** What the owner of a member can do with it. *)
Inductive publication :=
| PReady (state : list (pystr * pyval))
| PUpdate (state : list (pystr * pyval))
| PReplace (state : option (list (pyval * pyval)))
| PSetReady (state : option (list (pyval * pyval)))
| PUnready.

Definition publish (p : publication) : R unit :=
  match p with
  | PReady st => ready st
  | PUpdate st => update st
  | PReplace st => replace st
  | PSetReady st => set_ready st
  | PUnready => unready
  end.

(** ** What a publication does *)

(** The dict a publication would leave. *)
Definition next_state (r : registration) (p : publication) : list (pyval * pyval) :=
  match p with
  | PReady st | PUpdate st => dict_merge (mb_state (rg_member r)) st
  | PReplace st | PSetReady st => default [] st
  | PUnready => mb_state (rg_member r)
  end.

Definition next_ready (r : registration) (p : publication) : bool :=
  match p with
  | PReady _ | PSetReady _ => true
  | PUpdate _ | PReplace _ => pb_ready (sh_published (rg_shared r))
  | PUnready => false
  end.

(** The published pair after storing [v]: unchanged when it is already this. *)
Definition stored (s : shared) (v : value) (rd : bool) : shared :=
  if value_eq (pb_state (sh_published s)) v && Bool.eqb (pb_ready (sh_published s)) rd then s
  else with_published s (Published v rd (pb_url (sh_published s)) (pb_version (sh_published s) + 1)).

Lemma set_state_stored s v rd : (set_state s v rd).2 = stored s v rd.
Proof. unfold set_state, stored. by destruct (_ && _). Qed.

Lemma set_state_only_stored s v : (set_state_only s v).2 = stored s v (pb_ready (sh_published s)).
Proof. unfold set_state_only, stored. rewrite eqb_reflx, andb_true_r. by destruct (value_eq _ _). Qed.

(** Every publication is: the process is the right one, the state encodes, the
    native side takes it; then both sides are assigned.  Otherwise it raises
    and changes nothing. *)
Lemma publish_spec p r :
  publish p r =
  if negb (getpid =? mb_pid (rg_member r)) then (Raise (Exc RuntimeError), r)
  else match v ← _encode_state (next_state r p); decode_value v with
       | Raise e => (Raise e, r)
       | Ok v => (Ok tt, Registration (with_state (rg_member r) (next_state r p))
                           (stored (rg_shared r) v (next_ready r p)))
       end.
Proof.
  assert (rg_member r = with_state (rg_member r) (mb_state (rg_member r))) as Heta
    by (by destruct r as [[] ?]).
  destruct p as [st|st|st|st|]; simpl;
    unfold ready, update, replace, set_ready, unready, _mine; rewrite !M_bind_unfold; unfold get at 1;
    destruct (getpid =? mb_pid (rg_member r)); cbn [negb]; try done; unfold mret at 1, M_ret at 1;
    rewrite ?M_bind_unfold; unfold get, lift; cbv zeta;
    rewrite ?M_bind_unfold;
    destruct (_encode_state _) as [v|e]; cbn [mbind result_bind]; try done;
    rewrite ?M_bind_unfold; unfold client_set_state, client_set_state_only, assign_state;
    rewrite ?M_bind_unfold; unfold lift, modify;
    destruct (decode_value v) as [v'|e]; try done;
    cbn [rg_member rg_shared]; rewrite ?set_state_stored, ?set_state_only_stored; try done.
  by rewrite <-Heta.
Qed.
End Publish.

(** ** What was published is the state *)

(** A value JSON can carry: finite floats, one entry per key. *)
Inductive wf_value : value → Prop :=
| wf_null : wf_value Null
| wf_bool b : wf_value (Bool b)
| wf_int z : wf_value (Int z)
| wf_float x : isfinite x = true → wf_value (Float x)
| wf_str s : wf_value (Str s)
| wf_array l : Forall wf_value l → wf_value (Array l)
| wf_object kvs : NoDup kvs.*1 → Forall (λ kv, wf_value kv.2) kvs → wf_value (Object kvs).

Lemma SFeqb_refl x : isfinite x = true → SFeqb x x = true.
Proof.
  destruct x as [s|s| |s m e]; try done. intros _. unfold SFeqb, SFcompare.
  rewrite Z.compare_refl. change (Pos.compare_cont Eq m m) with (Pos.compare m m).
  rewrite Pos.compare_refl. by destruct s.
Qed.

(** The entry-by-entry comparison of two objects. *)
Lemma value_eq_object x y :
  value_eq (Object x) (Object y) =
  (length x =? length y)%nat &&
  forallb (λ kv, match assoc kv.1 y with Some w => value_eq kv.2 w | None => false end) x.
Proof.
  cbn [value_eq]. f_equal. induction x as [|[k v] x IH]; [done|]. cbn [forallb fst snd]. by rewrite <-IH.
Qed.

Lemma value_eq_refl v : wf_value v → value_eq v v = true.
Proof.
  induction v as [| | | | |l IH|kvs IH] using value_nested_ind; intros Hwf; inversion Hwf; subst; simpl.
  - done.
  - by apply eqb_reflx.
  - apply Z.eqb_refl.
  - by apply SFeqb_refl.
  - by apply bool_decide_true.
  - match goal with H : Forall wf_value l |- _ => revert IH; induction H as [|x l Hx Hl IHl] end; [done|].
    intros [Hx' Hl']%Forall_cons. rewrite Hx' by done. simpl. apply IHl; [|done].
    by constructor.
  - change (value_eq (Object kvs) (Object kvs) = true). rewrite value_eq_object, Nat.eqb_refl. simpl.
    apply forallb_Forall, Forall_forall. intros [k v] Hin. simpl.
    rewrite (assoc_elem k v) by done.
    rewrite Forall_forall in IH. apply (IH (k, v) Hin).
    match goal with H : Forall (λ kv, wf_value kv.2) kvs |- _ =>
      rewrite Forall_forall in H; exact (H (k, v) Hin) end.
Qed.

Lemma assoc_all_wf kvs : Forall (λ kv : pystr * value, wf_value kv.2) kvs → wf_value (Object (assoc_all kvs)).
Proof.
  intros HF. unfold assoc_all.
  assert (∀ acc : list (pystr * value), NoDup acc.*1 → Forall (λ kv, wf_value kv.2) acc →
    let r := fold_left (λ acc kv, assoc_set kv.1 kv.2 acc) kvs acc in
    NoDup r.*1 ∧ Forall (λ kv, wf_value kv.2) r) as H.
  { induction HF as [|[k v] kvs Hv HF IH]; intros acc H1 H2; [done|]. simpl. apply IH.
    - by apply assoc_set_keys.
    - by apply assoc_set_forall. }
  destruct (H []) as [? ?]; [constructor|constructor|]. by constructor.
Qed.

Lemma reload_wf fr v x : reload fr v = Ok x → wf_value x.
Proof.
  revert x. induction v as [|b|z|f|s|b|l IH|l IH|l IH|l IH|kvs IH|c d|o|o] using pyval_nested_ind;
    intros x; cbn [reload]; intros H; simplify_res; try (by constructor).
  - unfold json_float in *. destruct (isfinite f) eqn:E; simplify_res. by constructor.
  - constructor. revert x0 H. induction IH as [|y l Hy Hl IHl]; intros ys H; simplify_res; [by constructor|].
    constructor; [by apply Hy|by apply IHl].
  - constructor. revert x0 H. induction IH as [|y l Hy Hl IHl]; intros ys H; simplify_res; [by constructor|].
    constructor; [by apply Hy|by apply IHl].
  - apply assoc_all_wf. revert x0 H. induction IH as [|[k y] kvs [_ Hy] Hl IHl]; intros ys H; simplify_res;
      [by constructor|]. constructor; [by apply Hy|by apply IHl].
Qed.

(** What is published is already this. *)
Definition published_already (pb : published) (v : value) (rd : bool) : Prop :=
  value_eq (pb_state pb) v = true ∧ pb_ready pb = rd.

Lemma stored_same s v rd : published_already (sh_published s) v rd → stored s v rd = s.
Proof. intros [He <-]. unfold stored. by rewrite He, eqb_reflx. Qed.

Lemma stored_new s v rd :
  ¬ published_already (sh_published s) v rd →
  sh_published (stored s v rd) = Published v rd (pb_url (sh_published s)) (pb_version (sh_published s) + 1).
Proof.
  intros Hn. unfold stored. destruct (_ && _) eqn:Hs; [|done]. destruct Hn.
  by apply andb_true_iff in Hs as [He Hr%eqb_prop].
Qed.

Lemma stored_published s v rd : wf_value v → published_already (sh_published (stored s v rd)) v rd.
Proof.
  intros Hwf. unfold stored. destruct (_ && _) eqn:Hs.
  - by apply andb_true_iff in Hs as [He Hr%eqb_prop].
  - split; [by apply value_eq_refl|done].
Qed.

Lemma encode_state_wf fr st v : _encode_state fr st = Ok v → wf_value v.
Proof.
  unfold _encode_state. intros H. apply bind_ok in H as (raw & _ & H).
  destruct (_ <? _); [done|]. apply bind_ok in H as (x & Hx & H). destruct (wire_error x); simplify_res.
  by eapply reload_wf.
Qed.

(** ** Properties *)

(** C36: a publication is all or nothing.  When [ready], [update], [replace],
    [set_ready] or [unready] raises (a state over the limit, a value JSON has
    no form for, a forked child), neither the member nor what it publishes
    has changed.  When it returns, the dict is the merged or replaced one, the
    state peers will see is its JSON image, readiness is what that call is
    about -- [update] and [replace] leave it alone --, and the publication has
    the next version exactly when it differs from the last one: repeating
    what is already published changes nothing of the shared state. *)
Theorem publication_all_or_nothing (float_repr : pyfloat → pystr) (getpid : Z) (p : publication)
    (r : registration) :
  match publish float_repr getpid p r with
  | (Raise e, r') => r' = r
  | (Ok _, r') =>
      mb_state (rg_member r') = next_state r p ∧
      ∃ v, _encode_state float_repr (next_state r p) = Ok v ∧
        published_already (sh_published (rg_shared r')) v (next_ready r p) ∧
        (published_already (sh_published (rg_shared r)) v (next_ready r p) → rg_shared r' = rg_shared r) ∧
        (¬ published_already (sh_published (rg_shared r)) v (next_ready r p) →
         pb_version (sh_published (rg_shared r')) = pb_version (sh_published (rg_shared r)) + 1 ∧
         pb_url (sh_published (rg_shared r')) = pb_url (sh_published (rg_shared r)))
  end.
Proof.
  rewrite publish_spec. destruct (negb _); [done|].
  destruct (_encode_state float_repr (next_state r p)) as [v|e] eqn:Ee; cbn [mbind result_bind]; [|done].
  unfold decode_value. destruct (depth_ok _ v); [|done]. cbn [rg_shared rg_member mb_state].
  split; [done|]. exists v. split_and!; [done|eapply stored_published, encode_state_wf, Ee|apply stored_same|].
  intros Hn. by rewrite stored_new.
Qed.
