(* ===== verification/RegistryServer.v ===== *)
(** * The registry's socket server, and the client's exchange with it

    [tinyray-registry/src/server.rs] and [post] of
    [tinyray-membership/src/heartbeat.rs]: a connection carries one request at
    a time, framed as in [Wire]; the server reads a frame, decodes its envelope
    a little at a time so that an error can name the request it is about, acts,
    and replies; the client reads the reply and checks that it is one to its
    own request.  [exchange_answers_this_beat] puts the two together over
    streams that deliver bytes in any pieces and may break anywhere: an answer
    the client accepts is the answer to the beat it sent.

    A write whose deadline passes is a writer that breaks; that a frame is not
    complete in time is part of the script of a connection ([turn]). *)

From S2P Require Import Prelude PyStr PyFloat Text Errors Identity Json Cache Shared Sha256 Wire Heartbeat Registry Sync Member.

Local Open Scope Z_scope.

(** ** Messages *)

(** [OP_BEAT] and the others *)
Definition OP_BEAT : pystr := u "beat".
Definition OP_BEAT_ACK : pystr := u "beat_ack".
Definition OP_HEALTH : pystr := u "health".
Definition OP_HEALTH_ACK : pystr := u "health_ack".
Definition OP_DEBUG_POOLS : pystr := u "debug_pools".
Definition OP_DEBUG_POOLS_ACK : pystr := u "debug_pools_ack".
Definition OP_ERROR : pystr := u "error".

(** [struct RegistryEnvelope] *)
Record envelope (T : Type) := Envelope { en_request_id : Z; en_operation : pystr; en_payload : T }.
Arguments Envelope {T}.
Arguments en_request_id {T}.
Arguments en_operation {T}.
Arguments en_payload {T}.

(** [struct RegistryRequestIdHeader] *)
Record id_header := IdHeader { ih_request_id : Z }.
(** [struct RegistryEnvelopeHeader] *)
Record envelope_header := EnvelopeHeader { eh_request_id : Z; eh_operation : pystr }.
(** [struct RegistryProtocolError], by its code *)
Record protocol_error := ProtocolError { pe_code : pystr }.
(** [struct Beat] as it is sent, with the time it may be held. *)
Record held_beat := HeldBeat { hb_beat : beat; hb_hold_ms : Z }.
(** [struct ServerStats] *)
Record server_stats := ServerStats { ss_accepted : Z; ss_active : Z; ss_frames : Z }.

(** What the server replies with: [BeatAck], [RegistryHealth], [DebugPools],
    [RegistryProtocolError]. *)
Inductive payload :=
| PAck (ack : beat_ack)
| PHealth (stats : server_stats)
| PPools (pools : gmap pystr (Z * Z * nat))
| PError (error : protocol_error).

(** How each type the two sides read or write is encoded. *)
Class Envelopes := {
  msg_id_header :: Message id_header;
  msg_header :: Message envelope_header;
  msg_request :: Message (envelope held_beat);
  msg_unit :: Message (envelope unit);
  msg_reply :: Message (envelope payload);
  msg_ack :: Message (envelope beat_ack);
  msg_error :: Message (envelope protocol_error)
}.

(** Named fields: a shorter struct is read from the same bytes, and what was
    written as a payload is read as its type. *)
Class EnvelopeLaws `{Envelopes} : Prop := {
  request_id_header : ∀ (e : envelope held_beat) b, to_vec_named e = Some b →
    deserialize b = Some (IdHeader (en_request_id e), len b);
  request_header : ∀ (e : envelope held_beat) b, to_vec_named e = Some b →
    deserialize b = Some (EnvelopeHeader (en_request_id e) (en_operation e), len b);
  request_whole : ∀ (e : envelope held_beat) b, to_vec_named e = Some b → deserialize b = Some (e, len b);
  reply_header : ∀ (e : envelope payload) b, to_vec_named e = Some b →
    deserialize b = Some (EnvelopeHeader (en_request_id e) (en_operation e), len b);
  reply_ack : ∀ id op a b, to_vec_named (Envelope id op (PAck a)) = Some b →
    deserialize b = Some (Envelope id op a, len b)
}.

(** ** The server *)

Section Server.
Context (json_len : value → Z) (why : rpool → beat → pystr) (version_text : pystr).
Context `{Envelopes}.

(** The loop of [hold]: park, look, wait.  [later] is what others do to the
    registry until the bell rings, once per turn; when it is over the deadline
    passes.  [None] is a panic. *)
Fixpoint hold_loop (ack : beat_ack) (b : beat) (bell : nat) (r : registry)
    (later : list (registry → registry)) : option (beat_ack * registry) :=
  '(fresh, r1) ← deltas_shared_for (park r (b_watch b) bell) b;
  if negb (bool_decide (fresh = ∅)) then Some (with_pools ack fresh, r1)
  else match later with
       | [] => Some (ack, r1)
       | others :: later' => hold_loop ack b bell (others r1) later'
       end.

(** [hold] *)
Definition hold (r : registry) (now : Z) (hb : held_beat) (bell : nat) (later : list (registry → registry)) :
    option (beat_ack * registry) :=
  let b := hb_beat hb in
  '(ack, r1, _) ← beat_shared json_len why version_text r now b;
  let budget := hold_budget (rg_ttl r) (hb_hold_ms hb) in
  if (budget =? 0) || negb (ack_accepted ack) || negb (bool_decide (ack_pools ack = [])) ||
     bool_decide (b_watch b = [])
  then Some (ack, r1)
  else hold_loop ack b bell r1 later.

(** [send]: whether it succeeded, and the writer. *)
Definition send (w : writer) (request_id : Z) (operation : pystr) (p : payload) : bool * writer :=
  match write_frame w (Envelope request_id operation p) MAX_RESPONSE_FRAME_BYTES with
  | (Ok _, w') => (true, w')
  | (Raise (FrameTooLarge _ _), w') =>
      if bool_decide (operation = OP_ERROR) then (false, w')
      else let fallback := Envelope request_id OP_ERROR (PError (ProtocolError (u "response_too_large"))) in
           let '(r, w'') := write_frame w' fallback MAX_RESPONSE_FRAME_BYTES in (is_ok r, w'')
  | (Raise _, w') => (false, w')
  end.

(** [send_error] *)
Definition send_error (w : writer) (request_id : Z) (code : pystr) : bool * writer :=
  send w request_id OP_ERROR (PError (ProtocolError code)).

(** [decode_request], the error by its code *)
Definition decode_request {T} `{Message (envelope T)} (frame : list N) (header : envelope_header) :
    result pystr T :=
  match decode_message (envelope T) frame with
  | Raise _ => Raise (u "malformed_request")
  | Ok e =>
      if negb (en_request_id e =? eh_request_id header) then Raise (u "correlation_mismatch")
      else if negb (bool_decide (en_operation e = eh_operation header)) then Raise (u "operation_mismatch")
      else Ok (en_payload e)
  end.

(** [enum PeerEvent] *)
Inductive peer := PeerClosed | ExtraData.

(** [peer_event] *)
Definition peer_event (r : reader) : result io_kind peer * reader :=
  match read 1 r with
  | (Ok [], r') => (Ok PeerClosed, r')
  | (Ok _, r') => (Ok ExtraData, r')
  | (Raise kind, r') =>
      (if bool_decide (kind = ConnectionReset) || bool_decide (kind = BrokenPipe) ||
          bool_decide (kind = NotConnected) || bool_decide (kind = UnexpectedEof)
       then Ok PeerClosed else Raise kind, r')
  end.

(** A connection, with the registry and the counters it shares with the others. *)
Record conn := Conn {
  cn_reader : reader;
  cn_writer : writer;
  cn_registry : registry;
  cn_stats : server_stats;
  cn_first : bool
}.

(** What happens around one request: whether its frame comes too late, when it
    is handled, what others do meanwhile, and whether the peer is heard from
    before the answer is there. *)
Record turn := Turn {
  t_late : bool;
  t_now : Z;
  t_bell : nat;
  t_later : list (registry → registry);
  t_peer_first : bool
}.

(** How a turn ends: the connection goes on, is closed, fails, or the task
    panics. *)
Inductive turn_end := Again | Closed | FailedConn | Panicked.

Definition with_io (c : conn) (r : reader) (w : writer) : conn :=
  Conn r w (cn_registry c) (cn_stats c) (cn_first c).

(** The code a framing error is reported under. *)
Definition frame_code (e : frame_error) : pystr :=
  match e with
  | FrameTooLarge _ _ => u "frame_too_large"
  | TruncatedPrefix _ | TruncatedBody _ _ => u "truncated_frame"
  | EmptyFrame => u "empty_frame"
  | _ => u "malformed_frame"
  end.

(** [read_request_frame] *)
Definition read_request_frame (c : conn) (late : bool) : option (list N) * conn :=
  if late
  then (None, if cn_first c
              then with_io c (cn_reader c) (send_error (cn_writer c) 0 (u "request_timeout")).2
              else c)
  else match read_frame (cn_reader c) MAX_REQUEST_FRAME_BYTES with
       | (Ok (Some frame), r') => (Some frame, with_io c r' (cn_writer c))
       | (Ok None, r') => (None, with_io c r' (cn_writer c))
       | (Raise e, r') => (None, with_io c r' (send_error (cn_writer c) 0 (frame_code e)).2)
       end.

(** [send_error(...).await?; return Ok(())] *)
Definition refuse (c : conn) (request_id : Z) (code : pystr) : turn_end * conn :=
  let '(ok, w') := send_error (cn_writer c) request_id code in
  (if ok then Closed else FailedConn, with_io c (cn_reader c) w').

(** [send(...).await?; return Ok(())] *)
Definition reply_and_close (c : conn) (request_id : Z) (operation : pystr) (p : payload) : turn_end * conn :=
  let '(ok, w') := send (cn_writer c) request_id operation p in
  (if ok then Closed else FailedConn, with_io c (cn_reader c) w').

(** The arm for [OP_BEAT]. *)
Definition serve_beat (c : conn) (t : turn) (frame : list N) (header : envelope_header) : turn_end * conn :=
  match decode_request (T := held_beat) frame header with
  | Raise code => refuse c (eh_request_id header) code
  | Ok hb =>
      if negb (depth_ok MAX_VALUE_DEPTH (b_state (hb_beat hb)))
      then refuse c (eh_request_id header) (u "malformed_request")
      else match hold (cn_registry c) (t_now t) hb (t_bell t) (t_later t) with
           | None => (Panicked, c)
           | Some (ack, r') =>
               let c1 := Conn (cn_reader c) (cn_writer c) r' (cn_stats c) (cn_first c) in
               if t_peer_first t
               then match peer_event (cn_reader c) with
                    | (Raise _, rd) => (FailedConn, with_io c1 rd (cn_writer c1))
                    | (Ok PeerClosed, rd) => (Closed, with_io c1 rd (cn_writer c1))
                    | (Ok ExtraData, rd) =>
                        refuse (with_io c1 rd (cn_writer c1)) (eh_request_id header) (u "multiple_requests")
                    end
               else let '(ok, w') := send (cn_writer c1) (eh_request_id header) OP_BEAT_ACK (PAck ack) in
                    (if ok then Again else FailedConn, with_io c1 (cn_reader c1) w')
           end
  end.

(** One turn of the loop of [serve_connection]. *)
Definition serve_turn (c : conn) (t : turn) : turn_end * conn :=
  match read_request_frame c (t_late t) with
  | (None, c1) => (Closed, c1)
  | (Some frame, c0) =>
      let stats := cn_stats c0 in
      let c1 := Conn (cn_reader c0) (cn_writer c0) (cn_registry c0)
                  (ServerStats (ss_accepted stats) (ss_active stats) (ss_frames stats + 1)) false in
      match decode_message id_header frame with
      | Raise _ => refuse c1 0 (u "malformed_frame")
      | Ok h =>
          match decode_message envelope_header frame with
          | Raise _ => refuse c1 (ih_request_id h) (u "malformed_request")
          | Ok header =>
              let id := eh_request_id header in
              if bool_decide (eh_operation header = OP_BEAT) then serve_beat c1 t frame header
              else if bool_decide (eh_operation header = OP_HEALTH)
              then match decode_request (T := unit) frame header with
                   | Raise code => refuse c1 id code
                   | Ok _ => reply_and_close c1 id OP_HEALTH_ACK (PHealth (cn_stats c1))
                   end
              else if bool_decide (eh_operation header = OP_DEBUG_POOLS)
              then match decode_request (T := unit) frame header with
                   | Raise code => refuse c1 id code
                   | Ok _ => reply_and_close c1 id OP_DEBUG_POOLS_ACK (PPools (snapshot (cn_registry c1)))
                   end
              else refuse c1 id (u "unknown_operation")
          end
      end
  end.

(** [serve_connection]: turns until one does not go on. *)
Fixpoint serve_connection (c : conn) (turns : list turn) : turn_end * conn :=
  match turns with
  | [] => (Again, c)
  | t :: turns' =>
      match serve_turn c t with
      | (Again, c') => serve_connection c' turns'
      | ended => ended
      end
  end.

(** ** The client's side *)

(** What [post] reports, by kind. *)
Inductive post_error :=
| WriteFailed (e : frame_error)
| BadReply (e : frame_error)
| NoReply
| BodyBroke (e : frame_error)
| NotEnvelope
| OtherRequest (got : Z)
| NotAck
| BadProtocolError
| Refused (code : pystr)
| OtherOperation (operation : pystr).

(** [post], from the first byte of the reply on. *)
Definition read_reply (request_id : Z) (r : reader) : result post_error beat_ack * reader :=
  match read_frame_length r MAX_RESPONSE_FRAME_BYTES with
  | (Raise e, r') => (Raise (BadReply e), r')
  | (Ok None, r') => (Raise NoReply, r')
  | (Ok (Some length), r') =>
      match read_frame_body r' length with
      | (Raise e, r'') => (Raise (BodyBroke e), r'')
      | (Ok bytes, r'') =>
          (match decode_message envelope_header bytes with
           | Raise _ => Raise NotEnvelope
           | Ok header =>
               if negb (eh_request_id header =? request_id) then Raise (OtherRequest (eh_request_id header))
               else if bool_decide (eh_operation header = OP_BEAT_ACK)
               then match decode_message (envelope beat_ack) bytes with
                    | Raise _ => Raise NotAck
                    | Ok e => Ok (en_payload e)
                    end
               else if bool_decide (eh_operation header = OP_ERROR)
               then match decode_message (envelope protocol_error) bytes with
                    | Raise _ => Raise BadProtocolError
                    | Ok e => Raise (Refused (pe_code (en_payload e)))
                    end
               else Raise (OtherOperation (eh_operation header))
           end, r'')
      end
  end.

(** [post], the request. *)
Definition send_request (w : writer) (request_id : Z) (hb : held_beat) : result post_error unit * writer :=
  match write_frame w (Envelope request_id OP_BEAT hb) MAX_REQUEST_FRAME_BYTES with
  | (Ok _, w') => (Ok tt, w')
  | (Raise e, w') => (Raise (WriteFailed e), w')
  end.
End Server.

(** ** What goes over the wire *)

Section Exchange.
#[local] Set Default Proof Using "Type*".
Context (json_len : value → Z) (why : rpool → beat → pystr) (version_text : pystr).
Context `{!Envelopes, !EnvelopeLaws}.
#[local] Notation hold := (hold json_len why version_text).
#[local] Notation serve_beat := (serve_beat json_len why version_text).
#[local] Notation serve_turn := (serve_turn json_len why version_text).

(** What one reply adds to the stream: nothing, or the start of one of these
    envelopes. *)
Definition adds (possible : envelope payload → Prop) (w w' : writer) : Prop :=
  ∃ out, w_sent w' = w_sent w ++ out ∧
    (out = [] ∨ ∃ e body, possible e ∧ to_vec_named e = Some body ∧
       frame_limits body MAX_RESPONSE_FRAME_BYTES = Ok tt ∧ out `prefix_of` frame body).

Lemma adds_nothing possible w : adds possible w w.
Proof. exists []. rewrite app_nil_r. auto. Qed.

Lemma adds_mono (P Q : envelope payload → Prop) w w' : (∀ e, P e → Q e) → adds P w w' → adds Q w w'.
Proof.
  intros HPQ (out & Hs & Ho). exists out. split; [done|].
  destruct Ho as [->|(e & body & ? & ?)]; [by left|right]. exists e, body. auto.
Qed.

(** An envelope that is an error. *)
Definition is_error (e : envelope payload) : Prop := en_operation e = OP_ERROR.

Lemma send_adds w request_id operation p :
  adds (λ e, e = Envelope request_id operation p ∨ is_error e) w (send w request_id operation p).2.
Proof.
  unfold send. destruct (write_frame w _ _) as [r w'] eqn:Hw.
  destruct (write_frame_adds _ _ _ _ _ Hw) as (out & Hs & Ho & _).
  assert (adds (λ e, e = Envelope request_id operation p ∨ is_error e) w w') as Hadd.
  { exists out. split; [done|]. destruct Ho as [->|(body & ? & ? & ?)]; [by left|right]. eexists _, body. eauto. }
  destruct r as [[]|[]]; try done. apply write_frame_too_large in Hw as ->.
  case_bool_decide; [done|].
  destruct (write_frame w _ MAX_RESPONSE_FRAME_BYTES) as [r2 w2] eqn:Hw2.
  destruct (write_frame_adds _ _ _ _ _ Hw2) as (out2 & Hs2 & Ho2 & _). cbn [snd].
  exists out2. split; [done|]. destruct Ho2 as [->|(body & ? & ? & ?)]; [by left|right].
  exists (Envelope request_id OP_ERROR (PError (ProtocolError (u "response_too_large")))), body.
  split; [by right|]. eauto.
Qed.

Lemma send_error_adds w request_id code : adds is_error w (send_error w request_id code).2.
Proof. eapply adds_mono; [|apply send_adds]. by intros e [->|?]. Qed.

Lemma refuse_adds c request_id code :
  adds is_error (cn_writer c) (cn_writer (refuse c request_id code).2) ∧
  cn_registry (refuse c request_id code).2 = cn_registry c.
Proof.
  unfold refuse. pose proof (send_error_adds (cn_writer c) request_id code) as Ha.
  by destruct (send_error (cn_writer c) request_id code) as [ok w'].
Qed.

(** A reply the client accepts is a whole envelope of an answer to its
    request. *)
Lemma read_reply_accepts possible w w' out request_id rr broken ack :
  adds possible w w' → w_sent w' = w_sent w ++ out → arriving rr → pending rr = (out, broken) →
  (read_reply request_id rr).1 = Ok ack →
  ∃ e body answer, possible e ∧ to_vec_named e = Some body ∧ en_request_id e = request_id ∧
    en_operation e = OP_BEAT_ACK ∧ deserialize body = Some (answer, len body) ∧ en_payload answer = ack.
Proof.
  intros (out' & Hs' & Hadd) Hs Har Hp. rewrite Hs in Hs'. apply app_inv_head in Hs' as <-.
  destruct (read_frame_spec rr MAX_RESPONSE_FRAME_BYTES Har) as [Hparse _]. rewrite Hp in Hparse.
  unfold read_frame in Hparse. unfold read_reply.
  destruct (read_frame_length rr MAX_RESPONSE_FRAME_BYTES) as [[[length0|]|?] r1]; [|done|done].
  destruct (read_frame_body r1 length0) as [[bytes|?] r2]; [|done]. cbn [fst fmap result_fmap] in *.
  destruct Hadd as [->|(e & body & Hpos & Hvec & Hlim & Hpre)]; [by destruct broken|].
  destruct (decide (out = frame body)) as [->|Hne].
  2: { rewrite (parse_frame_cut _ body) in Hparse by done.
       destruct broken; cbn [cut_short] in Hparse; repeat case_match; done. }
  rewrite <-(app_nil_r (frame body)), (parse_frame_frame _ body) in Hparse by done.
  injection Hparse as ->. unfold decode_message at 1. rewrite (reply_header _ _ Hvec), Z.eqb_refl.
  cbn [negb eh_request_id eh_operation]. destruct (Z.eqb_spec (en_request_id e) request_id) as [Hid|]; [|done].
  cbn [negb]. case_bool_decide as Hop.
  2: { case_bool_decide; [|done]. by destruct (decode_message _ _). }
  unfold decode_message. destruct (deserialize body) as [[answer n]|] eqn:Hd; [|done].
  destruct (Z.eqb_spec n (len body)) as [->|]; [|done]. cbn [negb]. intros [= <-].
  exists e, body, answer. by split_and!.
Qed.

(** A request the server reads is the one that was sent. *)
Lemma request_read c w request_id hb w' part more broken :
  send_request w request_id hb = (Ok tt, w') → w_sent w' = w_sent w ++ part →
  arriving (cn_reader c) → pending (cn_reader c) = (part ++ more, broken) →
  ∃ body rd, read_frame (cn_reader c) MAX_REQUEST_FRAME_BYTES = (Ok (Some body), rd) ∧
    to_vec_named (Envelope request_id OP_BEAT hb) = Some body.
Proof.
  unfold send_request. destruct (write_frame w _ _) as [[[]|?] w1] eqn:Hw; [|done]. intros [= <-] Hs Har Hp.
  destruct (write_frame_adds _ _ _ _ _ Hw) as (part' & Hs' & _ & Hok).
  rewrite Hs in Hs'. apply app_inv_head in Hs' as <-. destruct (Hok eq_refl) as (body & Hvec & Hlim & ->).
  destruct (read_frame_spec (cn_reader c) MAX_REQUEST_FRAME_BYTES Har) as [Hparse _].
  rewrite Hp, (parse_frame_frame _ body) in Hparse by done.
  destruct (read_frame (cn_reader c) MAX_REQUEST_FRAME_BYTES) as [r rd]. cbn [fst] in Hparse. subst r.
  by exists body, rd.
Qed.

(** The server's turn on that request: it is handled as the beat it is. *)
Lemma serve_turn_beat c t body rd request_id hb :
  t_late t = false → read_frame (cn_reader c) MAX_REQUEST_FRAME_BYTES = (Ok (Some body), rd) →
  to_vec_named (Envelope request_id OP_BEAT hb) = Some body →
  ∃ stats, serve_turn c t =
    serve_beat (Conn rd (cn_writer c) (cn_registry c) stats false) t body (EnvelopeHeader request_id OP_BEAT) ∧
    decode_request (T := held_beat) body (EnvelopeHeader request_id OP_BEAT) = Ok hb.
Proof.
  intros Hlate Hread Hvec. unfold RegistryServer.serve_turn, read_request_frame. rewrite Hlate, Hread.
  unfold decode_message at 1 2.
  rewrite (request_id_header _ _ Hvec), (request_header _ _ Hvec), Z.eqb_refl. cbn [negb eh_operation en_operation].
  rewrite bool_decide_true by done. eexists. split; [done|].
  unfold decode_request, decode_message. rewrite (request_whole _ _ Hvec), Z.eqb_refl. cbn.
  by rewrite Z.eqb_refl, bool_decide_true.
Qed.

Lemma serve_beat_adds c t frame header hb :
  decode_request frame header = Ok hb →
  let c' := (serve_beat c t frame header).2 in
  adds is_error (cn_writer c) (cn_writer c') ∨
  ∃ ack r', hold (cn_registry c) (t_now t) hb (t_bell t) (t_later t) = Some (ack, r') ∧ cn_registry c' = r' ∧
    adds (λ e, e = Envelope (eh_request_id header) OP_BEAT_ACK (PAck ack) ∨ is_error e) (cn_writer c) (cn_writer c').
Proof.
  intros Hd. unfold RegistryServer.serve_beat. rewrite Hd.
  destruct (negb (depth_ok _ _)); [left; apply refuse_adds|].
  destruct (RegistryServer.hold _ _ _ _ _ _ _ _) as [[ack r']|] eqn:Hh; [|left; apply adds_nothing].
  destruct (t_peer_first t).
  - left. destruct (peer_event (cn_reader c)) as [[[|]|?] rd]; cbn [snd]; try apply adds_nothing.
    apply (refuse_adds (with_io (Conn (cn_reader c) (cn_writer c) r' (cn_stats c) (cn_first c)) rd (cn_writer c))).
  - right. exists ack, r'. split; [done|]. cbn [cn_writer].
    pose proof (send_adds (cn_writer c) (eh_request_id header) OP_BEAT_ACK (PAck ack)) as Ha.
    by destruct (send (cn_writer c) (eh_request_id header) OP_BEAT_ACK (PAck ack)) as [ok w'].
Qed.

Lemma serve_turn_late c t : t_late t = true → adds is_error (cn_writer c) (cn_writer (serve_turn c t).2).
Proof.
  intros Hlate. unfold RegistryServer.serve_turn, read_request_frame. rewrite Hlate.
  destruct (cn_first c); cbn [snd]; [apply send_error_adds|apply adds_nothing].
Qed.
End Exchange.

(** A reply that fits into a frame, through a writer that does not break. *)
Lemma send_unbroken `{!Envelopes} w request_id operation p body :
  w_script w = [] → encode_message (Envelope request_id operation p) MAX_RESPONSE_FRAME_BYTES = Ok body →
  ∃ w', send w request_id operation p = (true, w') ∧ w_sent w' = w_sent w ++ frame body.
Proof.
  intros Hw He. unfold send.
  assert (∃ w', write_frame w (Envelope request_id operation p) MAX_RESPONSE_FRAME_BYTES = (Ok tt, w') ∧
                w_sent w' = w_sent w ++ frame body) as (w' & Hwf & Hs).
  { destruct (write_frame w (Envelope request_id operation p) MAX_RESPONSE_FRAME_BYTES) as [r w'] eqn:Hwf.
    destruct (write_frame_adds _ _ _ _ _ Hwf) as (part & Hs & _ & Hok).
    unfold encode_message in He. destruct (to_vec_named _) as [body'|] eqn:Hv; [|done].
    apply bind_ok in He as ([] & Hlim & [= ->]).
    assert (r = Ok tt) as ->.
    { unfold write_frame, encode_message in Hwf. rewrite Hv, Hlim in Hwf. cbn in Hwf.
      unfold write_frame_bytes in Hwf. rewrite Hlim in Hwf.
      by rewrite <-(write_loop_unbroken w (to_be_bytes (len body)) body Hw), Hwf. }
    destruct (Hok eq_refl) as (body2 & Hv2 & _ & ->). exists w'. split; [done|]. congruence. }
  rewrite Hwf. eauto.
Qed.

Lemma read_reply_whole `{!Envelopes, !EnvelopeLaws} request_id ack body rr broken :
  encode_message (Envelope request_id OP_BEAT_ACK (PAck ack)) MAX_RESPONSE_FRAME_BYTES = Ok body →
  arriving rr → pending rr = (frame body, broken) → (read_reply request_id rr).1 = Ok ack.
Proof.
  intros He Har Hp. unfold encode_message in He. destruct (to_vec_named _) as [body'|] eqn:Hv; [|done].
  apply bind_ok in He as ([] & Hlim & [= ->]).
  destruct (read_frame_spec rr MAX_RESPONSE_FRAME_BYTES Har) as [Hparse _].
  rewrite Hp, <-(app_nil_r (frame body)), (parse_frame_frame _ body) in Hparse by done.
  unfold read_frame in Hparse. unfold read_reply.
  destruct (read_frame_length rr MAX_RESPONSE_FRAME_BYTES) as [[[length0|]|?] r1]; [|done|done].
  destruct (read_frame_body r1 length0) as [[bytes|?] r2]; [|done]. cbn [fst fmap result_fmap] in *.
  injection Hparse as ->. unfold decode_message.
  rewrite (reply_header _ _ Hv), Z.eqb_refl. cbn [negb eh_request_id eh_operation en_request_id en_operation].
  rewrite Z.eqb_refl. cbn [negb]. rewrite bool_decide_true by done. by rewrite (reply_ack _ _ _ _ Hv), Z.eqb_refl.
Qed.

(** ** Properties *)

(** An exchange completes: when the request arrives in time, its state is not
    nested too deeply, the peer is silent while it is held and the server's
    writer does not break, the client gets the answer, whatever pieces it
    arrives in, and the connection goes on. *)
Theorem exchange_completes (json_len : value → Z) (why : rpool → beat → pystr) (version_text : pystr)
    `{!Envelopes, !EnvelopeLaws} (request_id : Z) (hb : held_beat) (w w' : writer) (c : conn) (t : turn)
    (request more reply body : list N) (broken broken' : option io_kind) (rr : reader) (ack : beat_ack)
    (r' : registry) :
  send_request w request_id hb = (Ok tt, w') → w_sent w' = w_sent w ++ request →
  arriving (cn_reader c) → pending (cn_reader c) = (request ++ more, broken) →
  t_late t = false → t_peer_first t = false → depth_ok MAX_VALUE_DEPTH (b_state (hb_beat hb)) = true →
  hold json_len why version_text (cn_registry c) (t_now t) hb (t_bell t) (t_later t) = Some (ack, r') →
  w_script (cn_writer c) = [] →
  encode_message (Envelope request_id OP_BEAT_ACK (PAck ack)) MAX_RESPONSE_FRAME_BYTES = Ok body →
  let '(ended, c') := serve_turn json_len why version_text c t in
  w_sent (cn_writer c') = w_sent (cn_writer c) ++ reply →
  arriving rr → pending rr = (reply, broken') →
  ended = Again ∧ (read_reply request_id rr).1 = Ok ack ∧ cn_registry c' = r'.
Proof.
  intros Hsend Hw Har Hp Hlate Hpeer Hdepth Hhold Hscript Henc.
  destruct (request_read c w request_id hb w' request more broken Hsend Hw Har Hp) as (rbody & rd & Hread & Hvec).
  destruct (serve_turn_beat json_len why version_text c t rbody rd request_id hb Hlate Hread Hvec) as (stats & -> & Hd).
  unfold serve_beat. rewrite Hd, Hdepth, Hpeer. cbn [negb cn_registry cn_writer cn_reader eh_request_id].
  rewrite Hhold. cbv zeta. cbn [cn_writer cn_reader].
  destruct (send_unbroken (cn_writer c) request_id OP_BEAT_ACK (PAck ack) body Hscript Henc) as (w2 & -> & Hs2).
  cbn [with_io cn_writer cn_registry]. intros Hr Harr Hpr. split_and!; [done| |done].
  rewrite Hs2 in Hr. apply app_inv_head in Hr as <-. by eapply read_reply_whole.
Qed.

(** C26: an exchange answers the beat that was sent.  The client's request reaches a
    connection in any pieces, with anything behind it; the server takes one
    turn, and what it wrote -- all of it, or a part before the stream broke --
    comes back in any pieces.  If the client takes an answer from that, then
    the registry handled this very beat, and the answer is what [hold] gave for
    it: not another request's, not a part of one, and not an error. *)
Theorem exchange_answers_this_beat (json_len : value → Z) (why : rpool → beat → pystr) (version_text : pystr)
    `{!Envelopes, !EnvelopeLaws} (request_id : Z) (hb : held_beat) (w w' : writer) (c : conn) (t : turn)
    (request more reply : list N) (broken broken' : option io_kind) (rr : reader) (ack : beat_ack) :
  send_request w request_id hb = (Ok tt, w') → w_sent w' = w_sent w ++ request →
  arriving (cn_reader c) → pending (cn_reader c) = (request ++ more, broken) →
  let c' := (serve_turn json_len why version_text c t).2 in
  w_sent (cn_writer c') = w_sent (cn_writer c) ++ reply →
  arriving rr → pending rr = (reply, broken') →
  (read_reply request_id rr).1 = Ok ack →
  hold json_len why version_text (cn_registry c) (t_now t) hb (t_bell t) (t_later t) = Some (ack, cn_registry c').
Proof.
  intros Hsend Hw Har Hp c' Hw' Harr Hpr Hack.
  assert (¬ adds is_error (cn_writer c) (cn_writer c')) as Hnot.
  { intros Ha. destruct (read_reply_accepts _ _ _ _ _ _ _ _ Ha Hw' Harr Hpr Hack) as (e & body & an & He & _ & _ & Hop & _).
    unfold is_error in He. by rewrite Hop in He. }
  destruct (t_late t) eqn:Hlate; [by destruct Hnot; apply serve_turn_late|].
  destruct (request_read c w request_id hb w' request more broken Hsend Hw Har Hp) as (body & rd & Hread & Hvec).
  destruct (serve_turn_beat json_len why version_text c t body rd request_id hb Hlate Hread Hvec) as (stats & Hst & Hd).
  pose proof (serve_beat_adds json_len why version_text
    (Conn rd (cn_writer c) (cn_registry c) stats false) t body _ hb Hd) as Hb.
  cbv zeta in Hb. rewrite <-Hst in Hb. fold c' in Hb. destruct Hb as [Hb|(ack0 & r' & Hh & <- & Ha)]; [done|].
  destruct (read_reply_accepts _ _ _ _ _ _ _ _ Ha Hw' Harr Hpr Hack) as (e & rbody & an & He & Hv & _ & Hop & Han & Hpay).
  destruct He as [->|He]; [|unfold is_error in He; by rewrite Hop in He].
  rewrite (reply_ack _ _ _ _ Hv) in Han. injection Han as <-. cbn in Hpay. subst ack0. exact Hh.
Qed.

(** *** One exchange, with an encoding of its two messages *)

(** An encoding of a single value. *)
Definition only {A} (x : A) (dec : ∀ y, Decision (y = x)) (bytes : list N) : Message A :=
  {| to_vec_named := λ y, if dec y then Some bytes else None;
     deserialize := λ b, if decide (b = bytes) then Some (x, len bytes) else None |}.

Definition sample_beat : held_beat :=
  HeldBeat (Beat (u "p") None 7 1 (Some 0) [] None None Null true false false [] [] ∅) 50.
Definition sample_ack : beat_ack := BeatAck 3 PROTOCOL [] 1000 true None [].

#[global] Instance sample_beat_dec (y : envelope held_beat) : Decision (y = Envelope 1 OP_BEAT sample_beat).
Proof.
  destruct y as [id op [[pool slot i inc pub policy size url [| | | | | |] ready leaving exc methods watch seen] h]];
    try (right; discriminate).
  destruct (decide ((id, op, (pool, slot, i, inc, pub), (policy, size, url, ready, leaving, exc), (methods, watch, seen, h)) =
    (1, OP_BEAT, (u "p", None, 7, 1, Some 0), ([], None, None, true, false, false), ([], [], ∅, 50)))) as [E|E].
  - left. by simplify_eq.
  - right. intros [=]. apply E. by subst.
Defined.

#[global] Instance sample_ack_dec (y : envelope payload) : Decision (y = Envelope 1 OP_BEAT_ACK (PAck sample_ack)).
Proof.
  destruct y as [id op [[epoch protocol version ttl accepted refused [|? ?]]| | |]]; try (right; discriminate).
  destruct (decide ((id, op, epoch, protocol, version, ttl, accepted, refused) =
    (1, OP_BEAT_ACK, 3, PROTOCOL, [], 1000, true, None))) as [E|E].
  - left. by simplify_eq.
  - right. intros [=]. apply E. by subst.
Defined.

#[local] Instance sample_envelopes : Envelopes := {|
  msg_id_header := {| to_vec_named := λ _, None;
                      deserialize := λ b, if decide (b = [1%N]) then Some (IdHeader 1, 1) else None |};
  msg_header := {| to_vec_named := λ _, None;
                   deserialize := λ b, if decide (b = [1%N]) then Some (EnvelopeHeader 1 OP_BEAT, 1)
                                       else if decide (b = [2%N]) then Some (EnvelopeHeader 1 OP_BEAT_ACK, 1) else None |};
  msg_request := only (Envelope 1 OP_BEAT sample_beat) _ [1%N];
  msg_unit := {| to_vec_named := λ _, None; deserialize := λ _, None |};
  msg_reply := only (Envelope 1 OP_BEAT_ACK (PAck sample_ack)) _ [2%N];
  msg_ack := {| to_vec_named := λ _, None;
                deserialize := λ b, if decide (b = [2%N]) then Some (Envelope 1 OP_BEAT_ACK sample_ack, 1) else None |};
  msg_error := {| to_vec_named := λ _, None; deserialize := λ _, None |}
|}.

#[local] Instance sample_laws : EnvelopeLaws.
Proof.
  split; cbn [to_vec_named deserialize msg_id_header msg_header msg_request msg_reply msg_ack sample_envelopes only].
  - intros e b. destruct (sample_beat_dec e) as [->|]; [|done]. intros [= <-]. reflexivity.
  - intros e b. destruct (sample_beat_dec e) as [->|]; [|done]. intros [= <-]. reflexivity.
  - intros e b. destruct (sample_beat_dec e) as [->|]; [|done]. intros [= <-]. reflexivity.
  - intros e b. destruct (sample_ack_dec e) as [->|]; [|done]. intros [= <-]. reflexivity.
  - intros id op a b. destruct (sample_ack_dec (Envelope id op (PAck a))) as [E|]; [|done].
    injection E as -> -> ->. intros [= <-]. reflexivity.
Qed.

(** The request arrives in two pieces, with the first byte of another behind
    it; the reply comes back a byte at a time. *)
Definition sample_conn : conn :=
  Conn [Bytes [0; 0]%N; Bytes [0; 1; 1; 9]%N] (Writer [] []) (new_registry 1000 3) (ServerStats 1 1 0) true.
Definition sample_turn : turn := Turn false 5 1 [] false.
Definition sample_reply : reader := map (λ b, Bytes [b]) [0; 0; 0; 1; 2]%N.

Lemma exchange_completes_witness :
  (serve_turn demo_len demo_why [] sample_conn sample_turn).1 = Again ∧
  (read_reply 1 sample_reply).1 = Ok sample_ack.
Proof.
  pose proof (exchange_completes demo_len demo_why [] 1 sample_beat (Writer [] []) (Writer [] [0; 0; 0; 1; 1]%N)
    sample_conn sample_turn [0; 0; 0; 1; 1]%N [9]%N [0; 0; 0; 1; 2]%N [2]%N None None sample_reply sample_ack
    (match hold demo_len demo_why [] (new_registry 1000 3) 5 sample_beat 1 [] with Some (_, r) => r | None => new_registry 1000 3 end)) as H.
  assert (∃ c', serve_turn demo_len demo_why [] sample_conn sample_turn = (Again, c') ∧
    w_sent (cn_writer c') = [0; 0; 0; 1; 2]%N) as (c' & Hc & Hs) by (eexists; split; vm_compute; reflexivity).
  rewrite Hc in *. destruct H as (Ha & Hb & _).
  1, 2, 4, 5, 6, 7, 9, 10: vm_compute; reflexivity.
  - repeat (constructor; [done|]). constructor.
  - vm_compute. reflexivity.
  - exact Hs.
  - repeat (constructor; [done|]). constructor.
  - vm_compute. reflexivity.
  - split; [exact Ha|exact Hb].
Defined.

Lemma exchange_answers_this_beat_witness :
  hold demo_len demo_why [] (cn_registry sample_conn) (t_now sample_turn) sample_beat (t_bell sample_turn)
    (t_later sample_turn) =
  Some (sample_ack, cn_registry (serve_turn demo_len demo_why [] sample_conn sample_turn).2).
Proof.
  apply (exchange_answers_this_beat demo_len demo_why [] 1 sample_beat (Writer [] []) (Writer [] [0; 0; 0; 1; 1]%N)
    sample_conn sample_turn [0; 0; 0; 1; 1]%N [9]%N [0; 0; 0; 1; 2]%N None None sample_reply sample_ack).
  - vm_compute. reflexivity.
  - reflexivity.
  - repeat (constructor; [done|]). constructor.
  - reflexivity.
  - vm_compute. reflexivity.
  - repeat (constructor; [done|]). constructor.
  - vm_compute. reflexivity.
  - vm_compute. reflexivity.
Defined.
