(* ===== verification/Standing.v ===== *)
(** * Where this process stands

    The waits and readings of [Member] about its own registration: [flush],
    which waits until the registry has taken what was published,
    [wait_fenced] and [await_fenced], which wait until the seat is lost, and
    the figures it reports. *)

From S2P Require Import Prelude PyStr PyFloat Errors Identity Config Timing Codec Binding Serve MethodServer Json Cache Shared Views World Lookup Watch Waits Member.
From Stdlib Require Import SpecFloat.

Local Open Scope Z_scope.

(** ** Native side *)

(** [Client::publish_versions] *)
Definition publish_versions (s : shared) : Z * Z := (pb_version (sh_published s), sh_confirmed s).

(** Asleep on the bell of the beats. *)
Definition beat_sleep (since deadline : Z) : W unit := λ w,
  sleep_go sh_beat_revision since (Some deadline) (w_script w) w.

(** One turn of [Shared::wait_publication]: the look and the start of the
    sleep are one critical section of the beat's lock. *)
Definition publication_turn (wanted deadline : Z) : W (option unit) :=
  s ← native_read (λ s, s);
  if (wanted <=? sh_confirmed s) || negb (sh_accepted s) then mret (Some tt)
  else if deadline <=? sh_now_ms s then mret (Some tt)
  else beat_sleep (sh_beat_revision s) deadline ;; mret None.

(** [Client::wait_publication] *)
Definition wait_publication (wanted timeout_ms : Z) : W (Z * bool) :=
  now ← gets (λ w, sh_now_ms (w_sh w));
  loop (publication_turn wanted (now + timeout_ms)) ;;
  confirmed ← native_read sh_confirmed;
  accepted ← native_read sh_accepted;
  mret (confirmed, accepted).

(** One turn of [Shared::wait_registered], and the wait. *)
Definition registered_turn (deadline : Z) : W (option bool) :=
  s ← native_read (λ s, s);
  if 0 <? sh_beats_ok s then mret (Some true)
  else if deadline <=? sh_now_ms s then mret (Some false)
  else beat_sleep (sh_beat_revision s) deadline ;; mret None.

Definition wait_registered (timeout_ms : Z) : W bool :=
  now ← gets (λ w, sh_now_ms (w_sh w));
  loop (registered_turn (now + timeout_ms)).

(** ** [Member] *)

Section Standing.
Context (getpid : Z) (mb : member_obj).

(** [Member._mine], of a member that does not change here. *)
Definition mine_ : W unit := if getpid =? mb_pid mb then mret tt else throw RuntimeError.

(** [Member.flush] *)
Definition flush (timeout : pyfloat) : W unit :=
  mine_ ;;
  '(mine, _) ← native_read publish_versions;
  now ← monotonic;
  let deadline := fadd now timeout in
  now ← monotonic;
  ms ← lift_res (_left_ms now (Some deadline));
  ms ← u64_arg (default 0 ms);
  '(confirmed, accepted) ← wait_publication mine ms;
  if mine <=? confirmed then mret tt
  else if negb accepted then throw SeatTaken
  else throw TimeoutError.

(** One turn of [Member.wait_fenced], and the wait. *)
Definition fenced_turn (deadline : option pyfloat) : W (option bool) :=
  rev ← native_read sh_revision;
  accepted ← native_read sh_accepted;
  if negb accepted then mret (Some true)
  else
  now ← monotonic;
  ms ← lift_res (_left_ms now deadline);
  match ms with
  | None => mret (Some false)
  | Some ms => wait_revision rev ms ;; mret None
  end.

Definition wait_fenced (timeout : option pyfloat) : W bool :=
  mine_ ;; deadline ← deadline_of timeout; loop (fenced_turn deadline).

(** One turn of [Member.await_fenced], and the wait. *)
Definition afenced_turn (deadline : option pyfloat) : W (option bool) :=
  registered ← loop_bell;
  accepted ← native_read sh_accepted;
  if negb accepted then mret (Some true)
  else
  now ← monotonic;
  ms ← lift_res (_left_ms now deadline);
  match ms with
  | None => mret (Some false)
  | Some ms => bell_sleep registered ms ;; mret None
  end.

Definition await_fenced (timeout : option pyfloat) : W bool :=
  mine_ ;; deadline ← deadline_of timeout; loop (afenced_turn deadline).

(** Either of them. *)
Definition fenced_wait (is_async : bool) : option pyfloat → W bool :=
  if is_async then await_fenced else wait_fenced.

(** [Member.registry], [Member.accepted], [Member.silence_ms] *)
Definition member_registry : W registry_info :=
  '(protocol, version) ← native_read (λ s, (sh_protocol s, sh_registry_version s));
  mret (RegistryInfo protocol version).

Definition member_accepted : W bool := native_read sh_accepted.
Definition member_silence_ms : W Z := native_read silence_ms.

(** [Member.stats]: [native] is what the client counted, [server] the
    counters and the limit of the method server, when there is one. *)
Definition stats (native : list (pystr * Z)) (server : option (counters * option Z)) : res (list (pystr * Z)) :=
  if negb (getpid =? mb_pid mb) then Raise (Exc RuntimeError)
  else Ok match server with
          | None => native
          | Some (c, limit) =>
              let out := fold_left (λ acc kv, assoc_set kv.1 kv.2 acc) (Serve.snapshot c) native in
              match limit with
              | None => out
              | Some n => assoc_set (u "concurrency_limit") n out
              end
          end.
End Standing.

(** ** What happened meanwhile *)

(** What no event of the other threads does: take back a publication, a
    moment or a refusal, or change what is confirmed or accepted without
    ringing the bell of the beats. *)
Record beats (s s' : shared) : Prop := {
  bt_published : sh_published s' = sh_published s;
  bt_now : sh_now_ms s ≤ sh_now_ms s';
  bt_confirmed : sh_confirmed s ≤ sh_confirmed s';
  bt_refused : sh_accepted s = false → sh_accepted s' = false;
  bt_rev : sh_beat_revision s ≤ sh_beat_revision s';
  bt_quiet : sh_beat_revision s = sh_beat_revision s' →
    sh_confirmed s' = sh_confirmed s ∧ sh_accepted s' = sh_accepted s
}.

#[global] Instance beats_preorder : PreOrder beats.
Proof.
  split; [done|]. intros s1 s2 s3 [P1 N1 C1 A1 R1 Q1] [P2 N2 C2 A2 R2 Q2].
  split; [congruence|lia|lia|auto|lia|].
  intros Heq. destruct (Q1 ltac:(lia)) as [? ?], (Q2 ltac:(lia)) as [? ?]. split; congruence.
Qed.

Lemma apply_ack_beats s ack :
  let s' := (apply_ack s ack).2 in
  sh_published s' = sh_published s ∧ sh_now_ms s' = sh_now_ms s ∧
  sh_confirmed s' = sh_confirmed s ∧
  sh_beat_revision s' = sh_beat_revision s ∧ (sh_accepted s = false → sh_accepted s' = false).
Proof.
  unfold apply_ack. destruct (ack_accepted ack); simpl; [|done].
  by destruct (fold_left _ _ _) as [cache' changed'].
Qed.

Lemma beat_landed_beats s showing fl ack : beats s (beat_landed s showing fl ack).
Proof.
  unfold beat_landed. pose proof (apply_ack_beats s ack) as (E1 & E2 & E3 & E4 & E5).
  destruct (apply_ack s ack) as [[alive changed] s1]. simpl in *.
  destruct changed, alive; (split; simpl; first [done | lia | by intros; lia]).
Qed.

Lemma happen_beats w e : beats (w_sh w) (w_sh (happen w e)).
Proof.
  destruct e as [|k ack|k|mono ms| | |i|]; simpl; try done.
  - destruct (take_off k _) as [[showing fl]|]; [apply beat_landed_beats|done].
  - destruct (take_off k _) as [[showing fl]|]; [|done]. split; simpl; first [done | lia].
  - split; simpl; first [done | lia].
  - induction (leave_rings w) as [|n IH]; [done|]. simpl. etransitivity; [exact IH|]. done.
  - destruct (w_watches w !! i) as [wa|]; [|done]. by destruct (wa_closed wa).
Qed.

Lemma happens_beats es w : beats (w_sh w) (w_sh (fold_left happen es w)).
Proof.
  revert w. induction es as [|e es IH]; intros w; [done|]. simpl. etransitivity; [|apply IH].
  apply happen_beats.
Qed.

Lemma elapsed_beats w w' : elapsed w w' → beats (w_sh w) (w_sh w').
Proof. intros (pre & _ & ->). apply happens_beats. Qed.

(** Among these events the registry accepted a beat that showed publication
    [v] or a later one. *)
Definition acked (v : Z) (w : world) (es : list event) : Prop :=
  ∃ before k ack after showing rest,
    es = before ++ EvAck k ack :: after ∧
    take_off k (sh_in_flight (w_sh (fold_left happen before w))) = Some (showing, rest) ∧
    ack_accepted ack = true ∧ v ≤ showing.

(** A single event that raises what is confirmed is such an answer. *)
Lemma happen_confirmed v w e :
  sh_confirmed (w_sh w) < v ≤ sh_confirmed (w_sh (happen w e)) → acked v w [e].
Proof.
  intros [Hlt Hge]. destruct e as [|k ack|k|mono ms| | |i|]; simpl in Hge; try lia.
  - destruct (take_off k _) as [[showing fl]|] eqn:Ht; [|lia]. simpl in Hge. unfold beat_landed in Hge.
    exists [], k, ack, [], showing, fl. split_and!; [done|done|..].
    all: unfold apply_ack in Hge; destruct (ack_accepted ack) eqn:Ha; simpl in Hge; try done.
    all: try (destruct (fold_left _ _ _) as [cache' []] in Hge; simpl in Hge; lia).
    all: destruct (_ || _) in Hge; simpl in Hge; lia.
  - destruct (take_off k _) as [[showing fl]|]; simpl in Hge; lia.
  - assert (∀ n s, sh_confirmed (Nat.iter n ring s) = sh_confirmed s) as Hr.
    { intros n s. by induction n. } rewrite Hr in Hge. lia.  - destruct (w_watches w !! i) as [wa|]; [destruct (wa_closed wa)|]; simpl in Hge; lia.
Qed.

Lemma happens_confirmed v es w :
  sh_confirmed (w_sh w) < v ≤ sh_confirmed (w_sh (fold_left happen es w)) → acked v w es.
Proof.
  revert w. induction es as [|e es IH]; intros w [Hlt Hge]; simpl in Hge; [lia|].
  destruct (Z.lt_ge_cases (sh_confirmed (w_sh (happen w e))) v) as [Hs|Hs].
  - destruct (IH (happen w e)) as (before & k & ack & after & showing & rest & -> & ?); [done|].
    by exists (e :: before), k, ack, after, showing, rest.
  - destruct (happen_confirmed v w e) as (before & k & ack & after & showing & rest & He & ?); [done|].
    exists before, k, ack, (after ++ es), showing, rest. split; [|done].
    change (e :: es) with ([e] ++ es). rewrite He. by rewrite <-app_assoc.
Qed.

(** ** Reasoning about the waits *)

Lemma elapsed_script_ok w w1 : elapsed w w1 → script_ok w → script_ok w1.
Proof. intros (pre & Hs & _). unfold script_ok. rewrite Hs. by intros [_ ?]%Forall_app. Qed.

Lemma elapsed_le w w1 : elapsed w w1 → (length (w_script w1) <= length (w_script w))%nat.
Proof. intros (pre & -> & _). rewrite length_app. lia. Qed.

Lemma wp_read {A} (f : shared → A) w Q :
  (∀ w1, elapsed w w1 → Q (Ok (f (w_sh w1))) w1) → wp (native_read f) w Q.
Proof.
  intros HQ. unfold native_read, wp. rewrite M_bind_unfold. pose proof (elapsed_tick w) as He.
  assert ((tick w).1 = Ok tt) as Ht by (unfold tick; by destruct (w_script w)).
  destruct (tick w) as [r w1]. simpl in *. subst r. by apply HQ.
Qed.

(** Asleep on the bell of the beats from a look at [w]: it wakes, or nothing
    was confirmed or refused since. *)
Lemma wp_beat_sleep deadline w (Q : result halt unit → world → Prop) :
  script_ok w →
  (∀ w1, elapsed w w1 → (length (w_script w1) < length (w_script w))%nat → Q (Ok tt) w1) →
  (∀ w1, elapsed w w1 → sh_confirmed (w_sh w1) = sh_confirmed (w_sh w) →
     sh_accepted (w_sh w1) = sh_accepted (w_sh w) → Q (Raise Blocked) w1) →
  wp (beat_sleep (sh_beat_revision (w_sh w)) deadline) w Q.
Proof.
  intros Hok Hwake Hblock. unfold wp, beat_sleep.
  pose proof (elapsed_sleep sh_beat_revision (sh_beat_revision (w_sh w)) (Some deadline) w) as He.
  pose proof (sleep_go_spec sh_beat_revision (sh_beat_revision (w_sh w)) (Some deadline) w Hok) as Hs.
  destruct (sleep_go _ _ _ _ w) as [[[]|h] w1]; simpl in *.
  - apply Hwake; [done|apply Hs].
  - destruct Hs as (-> & _ & _ & Hr). destruct (bt_quiet _ _ (elapsed_beats _ _ He)) as [? ?]; [by rewrite Hr|].
    by apply Hblock.
Qed.

(** What [wait_publication] can see when it stops. *)
Definition settled (wanted deadline : Z) (s : shared) : Prop :=
  wanted ≤ sh_confirmed s ∨ sh_accepted s = false ∨ deadline ≤ sh_now_ms s.

Lemma publication_turn_spec wanted deadline w :
  script_ok w →
  wp (publication_turn wanted deadline) w (λ r w1,
    elapsed w w1 ∧
    match r with
    | Ok (Some _) => settled wanted deadline (w_sh w1)
    | Ok None => (length (w_script w1) < length (w_script w))%nat
    | Raise e => e = Blocked ∧ sh_confirmed (w_sh w1) < wanted ∧ sh_accepted (w_sh w1) = true
    end).
Proof.
  intros Hok. unfold publication_turn. apply wp_bind, wp_read. intros w1 He1.
  destruct (Z.leb_spec wanted (sh_confirmed (w_sh w1))) as [Hc|Hc]; simpl.
  { apply wp_ret. split; [done|by left]. }
  destruct (sh_accepted (w_sh w1)) eqn:Ha; simpl; [|apply wp_ret; split; [done|by right; left]].
  destruct (Z.leb_spec deadline (sh_now_ms (w_sh w1))) as [Hd|Hd]; simpl.
  { apply wp_ret. split; [done|by right; right]. }
  pose proof (elapsed_le _ _ He1).
  apply wp_bind, wp_beat_sleep; [by eapply elapsed_script_ok|..]; intros w2 He2.
  - intros Hlen. apply wp_ret. split; [by transitivity w1|lia].
  - intros Hc2 Ha2. split_and!; [by transitivity w1|done|lia|congruence].
Qed.

(** How [wait_publication] ends: it has seen the end of the wait at some
    moment, and reports what it reads after it. *)
Lemma wait_publication_spec wanted ms w :
  script_ok w →
  wp (wait_publication wanted ms) w (λ r w',
    elapsed w w' ∧
    match r with
    | Ok (c, a) => ∃ w1 w2, elapsed w w1 ∧ elapsed w1 w2 ∧ elapsed w2 w' ∧
        settled wanted (sh_now_ms (w_sh w) + ms) (w_sh w1) ∧
        c = sh_confirmed (w_sh w2) ∧ a = sh_accepted (w_sh w')
    | Raise e => e = Blocked ∧ sh_confirmed (w_sh w') < wanted ∧ sh_accepted (w_sh w') = true
    end).
Proof.
  intros Hok. unfold wait_publication. apply wp_bind, wp_gets, wp_bind.
  apply (wp_loop _ (λ w1, script_ok w1 ∧ elapsed w w1)); [by split|].
  intros w1 [Hok1 He1]. eapply wp_mono; [by apply publication_turn_spec|].
  intros [[u|]|e] w2 [He2 Hr].
  - apply wp_bind, wp_read. intros w3 He3. apply wp_bind, wp_read. intros w4 He4. apply wp_ret.
    assert (elapsed w w2) by (by transitivity w1).
    split; [by transitivity w2; [|transitivity w3]|]. by exists w2, w3.
  - split; [|done]. split; [by eapply elapsed_script_ok|by transitivity w1].
  - split; [by transitivity w1|done].
Qed.

(** Between two moments, what is confirmed reached [v] only through an accepted
    beat that showed it. *)
Lemma elapsed_confirmed v w w1 w' :
  elapsed w w1 → elapsed w1 w' → v ≤ sh_confirmed (w_sh w1) →
  ∃ pre, w_script w = pre ++ w_script w' ∧ (v ≤ sh_confirmed (w_sh w) ∨ acked v w (concat pre)).
Proof.
  intros (p1 & H1 & E1) (p2 & H2 & E2) Hv. exists (p1 ++ p2). split; [by rewrite H1, H2, app_assoc|].
  destruct (Z.le_gt_cases v (sh_confirmed (w_sh w))) as [?|Hlt]; [by left|right].
  rewrite E1 in Hv. destruct (happens_confirmed v (concat p1) w) as (b & k & ack & a & sg & rest & Hes & ?).
  { split; [lia|exact Hv]. }
  exists b, k, ack, (a ++ concat p2), sg, rest. split; [|done]. by rewrite concat_app, Hes, <-app_assoc.
Qed.

(** What an end of [flush] begun at [w] says. *)
Definition flush_end (timeout : pyfloat) (w : world) (r : result halt unit) (w' : world) : Prop :=
  let mine := pb_version (sh_published (w_sh w)) in
  match r with
  | Ok _ => ∃ pre, w_script w = pre ++ w_script w' ∧
                   (mine ≤ sh_confirmed (w_sh w) ∨ acked mine w (concat pre))
  | Raise (Exn (Exc SeatTaken)) => sh_accepted (w_sh w') = false
  | Raise (Exn (Exc TimeoutError)) =>
      sh_accepted (w_sh w') = true ∧
      ∃ w1 ms, elapsed w w1 ∧ elapsed w1 w' ∧
        _left_ms (w_mono w1) (Some (fadd (w_mono w1) timeout)) = Ok ms ∧
        sh_now_ms (w_sh w1) + default 0 ms ≤ sh_now_ms (w_sh w')
  | Raise Blocked => sh_confirmed (w_sh w') < mine ∧ sh_accepted (w_sh w') = true
  | Raise _ => True
  end.

Lemma flush_spec getpid mb timeout w :
  script_ok w → wp (flush getpid mb timeout) w (flush_end timeout w).
Proof.
  intros Hok. unfold flush, mine_. apply wp_bind. destruct (_ =? _); [|done]. apply wp_ret.
  apply wp_bind, wp_read. intros w1 He1. unfold publish_versions. cbv beta iota.
  rewrite (bt_published _ _ (elapsed_beats _ _ He1)).
  apply wp_bind, wp_gets, wp_bind, wp_gets, wp_bind, wp_lift_res.
  2: { intros e He. by destruct (left_ms_raises _ _ _ He) as [->| ->]. }
  intros ms Hms. apply wp_bind, wp_u64_arg; [|done]. apply wp_bind.
  eapply wp_mono; [apply wait_publication_spec; by eapply elapsed_script_ok|].
  intros [[c a]|e] w' [He' Hr]; [|by destruct Hr as [-> Hr]].
  destruct Hr as (w2 & w3 & He2 & He3 & He4 & Hset & -> & ->).
  destruct (Z.leb_spec (pb_version (sh_published (w_sh w))) (sh_confirmed (w_sh w3))) as [Hc|Hc].
  { apply wp_ret, (elapsed_confirmed _ w w3 w'); [|done|done].
    transitivity w1; [done|]. by transitivity w2. }
  destruct (sh_accepted (w_sh w')) eqn:Ha; cbn [negb]; apply wp_throw; simpl; [|done].
  split; [done|]. exists w1, ms. split_and!; [done|done|done|].
  assert (beats (w_sh w2) (w_sh w')) as Hb by (apply elapsed_beats; by transitivity w3).
  pose proof (bt_now _ _ Hb). destruct Hset as [Hcf|[Hac|Hd]]; [|by rewrite (bt_refused _ _ Hb Hac) in Ha|lia].
  pose proof (bt_confirmed _ _ (elapsed_beats _ _ He3)). lia.
Qed.

(** The turns of the two waits for a fence: on an answer of true the seat is
    lost; asleep for good, it is held. *)
Definition fenced_end (w w1 : world) (r : result halt (option bool)) : Prop :=
  match r with
  | Ok (Some b) => b = true → sh_accepted (w_sh w1) = false
  | Ok None => script_ok w1 ∧ (length (w_script w1) < length (w_script w))%nat
  | Raise Blocked => sh_accepted (w_sh w1) = true
  | Raise _ => True
  end.

Lemma fenced_turn_spec deadline w : script_ok w → wp (fenced_turn deadline) w (λ r w1, fenced_end w w1 r).
Proof.
  intros Hok. unfold fenced_turn. wread w1. wread w2.
  destruct (sh_accepted (w_sh w2)) eqn:Ha; cbn [negb]; [|by apply wp_ret; intros _].
  apply wp_bind, wp_gets, wp_bind, wp_lift_res; [|by intros e _; exact I]. intros [ms|] _; [|by apply wp_ret; simpl].
  apply wp_bind, wp_wait_revision; [done|..|exact I].
  - intros r w3 Hl3 Hok3 Hle Hlt. apply wp_ret. split; [done|].
    pose proof (later_le _ _ Hlw1). pose proof (later_le _ _ Hlw2). unfold shorter in Hsw1.
    destruct (w_script w) as [|b l] eqn:E; simpl in *; [|lia].
    assert (w1 = w) as -> by auto. assert (w2 = w) as -> by auto. rewrite E in Hlt. by apply Hlt.
  - intros w3 Hl3 Hok3 Hrev. pose proof (lt_rev Hlw2). pose proof (lt_rev Hl3).
    destruct (lt_quiet Hl3) as (_ & Hacc & _); [unfold wrev in *; lia|]. simpl. congruence.
Qed.

Lemma afenced_turn_spec deadline w : script_ok w → wp (afenced_turn deadline) w (λ r w1, fenced_end w w1 r).
Proof.
  intros Hok. unfold afenced_turn, loop_bell. apply wp_bind, wp_bind, wp_gets.
  destruct (w_current w); cbn [negb]; [|exact I]. apply wp_native_read; [done|].
  intros w1 Hl1 Hok1 Hs1 He1. wread w2.
  destruct (sh_accepted (w_sh w2)) eqn:Ha; cbn [negb]; [|by apply wp_ret; intros _].
  apply wp_bind, wp_gets, wp_bind, wp_lift_res; [|by intros e _; exact I]. intros [ms|] _; [|by apply wp_ret; simpl].
  apply wp_bind. unfold bell_sleep. apply wp_bind, wp_gets.
  pose proof (later_le _ _ Hl1). pose proof (later_le _ _ Hlw2). unfold shorter in Hs1.
  destruct (Z.eqb_spec (sh_revision (w_sh w2)) (sh_revision (w_sh w1))) as [Hr|Hr]; cbn [negb].
  - apply wp_sleep; [done|..].
    + intros w3 Hl3 Hok3 Hlen. apply wp_ret. split; [done|].
      destruct (w_script w) as [|b l] eqn:E; simpl in *; lia.
    + intros w3 Hl3 Hok3 He3 Hrev. destruct (lt_quiet Hl3) as (_ & Hacc & _).
      { unfold wrev in *. lia. } simpl. congruence.
  - apply wp_ret, wp_ret. split; [done|]. destruct (w_script w) as [|b l] eqn:E; simpl in *; [|lia].
    rewrite (He1 eq_refl) in *. rewrite Hew2 in Hr; done.
Qed.

Lemma fenced_wait_spec getpid mb is_async timeout w :
  script_ok w →
  wp (fenced_wait getpid mb is_async timeout) w (λ r w',
    match r with
    | Ok b => b = true → sh_accepted (w_sh w') = false
    | Raise Blocked => sh_accepted (w_sh w') = true
    | Raise _ => True
    end).
Proof.
  intros Hok. destruct is_async; cbn [fenced_wait]; unfold wait_fenced, await_fenced, mine_, deadline_of;
    apply wp_bind; destruct (_ =? _); try done; apply wp_ret, wp_bind, wp_bind, wp_gets, wp_ret;
    apply (wp_loop _ script_ok); try done; intros w0 Hok0;
    (eapply wp_mono; [by first [apply afenced_turn_spec|apply fenced_turn_spec]|]);
    by intros [[b|]|[e|]] w1.
Qed.

(** ** Properties *)

(** C15: [flush] returns only when the registry has accepted a beat that showed
    what was published, or a later publication; it says [SeatTaken] only when
    the seat is lost, [TimeoutError] only when the time it was given is up
    and the seat still held; and it never sleeps through the answer: still
    waiting when nothing more will happen, the publication is unconfirmed
    and the seat held. *)
Theorem flush_means_taken (getpid : Z) (mb : member_obj) (timeout : pyfloat) (w w' : world)
    (r : result halt unit) :
  script_ok w → flush getpid mb timeout w = (r, w') → flush_end timeout w r w'.
Proof.
  intros Hok Hf. pose proof (flush_spec getpid mb timeout w Hok) as H. unfold wp in H. by rewrite Hf in H.
Qed.

(** [wait_fenced] and [await_fenced] say true only when the seat is lost,
    and never sleep through the loss of it: still waiting when nothing more
    will happen, the seat is held. *)
Theorem fenced_wait_not_missed (getpid : Z) (mb : member_obj) (is_async : bool) (timeout : option pyfloat)
    (w w' : world) (r : result halt bool) :
  script_ok w → fenced_wait getpid mb is_async timeout w = (r, w') →
  match r with
  | Ok true => sh_accepted (w_sh w') = false
  | Raise Blocked => sh_accepted (w_sh w') = true
  | _ => True
  end.
Proof.
  intros Hok Hf. pose proof (fenced_wait_spec getpid mb is_async timeout w Hok) as H.
  unfold wp in H. rewrite Hf in H. simpl in H. destruct r as [[]|[]]; auto.
Qed.

Definition sample_member : member_obj := new_member (u "engine") (Some 3) 42 3 7.

(** Publication 1 is stored, publication 0 is on the wire. *)
Definition publishing_world (script : list (list event)) : world :=
  let w := sample_world script in with_sh w (set_state (w_sh w) (Object [(u "step", Int 1)]) true).2.

Lemma flush_means_taken_witness :
  let script := [[]; [EvAck 0 (sample_ack 9 6 member_a)]; [EvSend]; [EvAck 0 (sample_ack 9 7 member_a)]] in
  let w := publishing_world script in
  let run := flush 7 sample_member (round_int 10) w in
  run.1 = Ok tt ∧ flush_end (round_int 10) w (Ok tt) run.2.
Proof.
  intros script w run. split; [vm_compute; reflexivity|].
  apply (flush_means_taken 7 sample_member (round_int 10) w run.2 (Ok tt)).
  - repeat first [by simpl | constructor].
  - vm_compute. reflexivity.
Defined.

Lemma fenced_wait_not_missed_witness :
  let w := sample_world [[]; []; [EvRing]; []; [EvAck 0 sample_refusal]] in
  let run := fenced_wait 7 sample_member true None w in
  run.1 = Ok true ∧ sh_accepted (w_sh run.2) = false.
Proof.
  intros w run. split; [vm_compute; reflexivity|].
  apply (fenced_wait_not_missed 7 sample_member true None w run.2 (Ok true)).
  - repeat first [by simpl | constructor].
  - vm_compute. reflexivity.
Defined.
