(* ===== verification/Session.v ===== *)
(** * A process and its membership

    The module-level state of [__init__.py] and the code that changes it:
    [join], [Member.leave] with its exit hook, [_after_fork],
    [_require_client], [pool] and [apool].  What the process asks of the
    extension module is kept in a log, so that the theorems can say what was
    opened and what was released. *)

From S2P Require Import Prelude PyStr PyFloat Errors Identity Config Timing RequestId Codec Binding Serve MethodServer Json Cache Shared Views World Lookup Watch Waits Member Standing.
From Stdlib Require Import SpecFloat.

Local Open Scope Z_scope.

(** What is asked of a client. *)
Inductive client_call := ClientNew | ClientLeave | ClientAbandon.

(** The log: calls to the [i]-th client and the [j]-th listener made. *)
Inductive act :=
| ActClient (i : nat) (c : client_call)
| ActServer (j : nat) (c : MethodServer.native_call).

(** What the exit stack of [join] holds. *)
Inductive cleanup := CloseServer (j : nat) | LeaveClient (i : nat).

(** A [Member] with the client and the server it holds. *)
Record registered := Registered {
  rd_member : member_obj;
  rd_client : nat;
  rd_server : option nat
}.

(** The process: [pr_w] is the world of its newest client, the other fields
    the globals [_client], [_method_server], [_left], [_owner_pid], the state
    of [_rpc], the exit hooks, every member made, and the log. *)
Record process (F : Type) := Process {
  pr_w : world;
  pr_clients : nat;
  pr_servers : list (method_server F);
  pr_client : option nat;
  pr_method_server : option nat;
  pr_left : bool;
  pr_owner_pid : Z;
  pr_pid : Z;
  pr_rpc : rpc_state;
  pr_members : list registered;
  pr_atexit : list nat;
  pr_cleanup : list cleanup;
  pr_log : list act
}.
Arguments Process {F}.
Arguments pr_w {F} _.
Arguments pr_clients {F} _.
Arguments pr_servers {F} _.
Arguments pr_client {F} _.
Arguments pr_method_server {F} _.
Arguments pr_left {F} _.
Arguments pr_owner_pid {F} _.
Arguments pr_pid {F} _.
Arguments pr_rpc {F} _.
Arguments pr_members {F} _.
Arguments pr_atexit {F} _.
Arguments pr_cleanup {F} _.
Arguments pr_log {F} _.

(** [POLICIES], [_RANK_VARS], [_SIZE_VARS] *)
Definition POLICIES : list pystr := [u "churn"; u "serving"; u "stateful"; u "collective"].
Definition _RANK_VARS : list pystr := [u "TINYRAY_SLOT"; u "RANK"; u "SLURM_PROCID"; u "OMPI_COMM_WORLD_RANK"].
Definition _SIZE_VARS : list pystr :=
  [u "TINYRAY_SIZE"; u "WORLD_SIZE"; u "SLURM_NTASKS"; u "OMPI_COMM_WORLD_SIZE"].

(** [_FIRST_BEAT_S = 5.0] *)
Definition _FIRST_BEAT_S : pyfloat := Eval vm_compute in round_int 5.

(** [coalesce_ms] as it was passed: an int, a bool, something else. *)
Inductive coalesce_arg := CoalesceInt (ms : Z) | CoalesceBool | CoalesceOther.

(** The arguments of [join]. *)
Record join_args (F : Type) := JoinArgs {
  ja_pool : pystr;
  ja_policy : pystr;
  ja_slot : option Z;
  ja_size : option Z;
  ja_url : option pystr;
  ja_serves : option (list (Serve.attribute F));
  ja_exclusive : bool;
  ja_max_concurrency : option Z;
  ja_timeout : pyfloat;
  ja_registry_url : option pystr;
  ja_coalesce_ms : coalesce_arg
}.
Arguments JoinArgs {F}.
Arguments ja_pool {F} _.
Arguments ja_policy {F} _.
Arguments ja_slot {F} _.
Arguments ja_size {F} _.
Arguments ja_url {F} _.
Arguments ja_serves {F} _.
Arguments ja_exclusive {F} _.
Arguments ja_max_concurrency {F} _.
Arguments ja_timeout {F} _.
Arguments ja_registry_url {F} _.
Arguments ja_coalesce_ms {F} _.

(** What [join] finds around it: the environment, [random.getrandbits(63)],
    [random.getrandbits(20)], [time.time_ns()], the address of [_advertise]'s
    probe, the port the listener got, and whether a warning is an error. *)
Record surroundings := Surroundings {
  su_env : environ;
  su_bits63 : Z;
  su_bits20 : Z;
  su_time_ns : Z;
  su_probe : option pystr;
  su_port : Z;
  su_warnings_as_errors : bool
}.

(** The seat and the size, or the refusal. *)
Definition join_seat {F : Type} (env : environ) (a : join_args F) : res (option Z * option Z) :=
  let slotted := bool_decide (ja_policy a ∈ [u "stateful"; u "collective"]) in
  slot ← (if slotted && bool_decide (ja_slot a = None)
          then s ← _from_env env _RANK_VARS;
               match s with None => Raise (Exc PolicyError) | Some s => Ok (Some s) end
          else Ok (ja_slot a));
  size ← (if slotted && bool_decide (ja_size a = None) then _from_env env _SIZE_VARS else Ok (ja_size a));
  if match slot with Some s => negb ((0 <=? s) && (s <=? _MAX_SEAT)) | None => false end
  then Raise (Exc PolicyError)
  else if match size with Some n => negb ((1 <=? n) && (n <=? _MAX_SEAT)) | None => false end
  then Raise (Exc PolicyError)
  else match slot, size with
       | Some s, Some n => if n <=? s then Raise (Exc PolicyError) else Ok (slot, size)
       | _, _ => Ok (slot, size)
       end.

(** [incarnation]: milliseconds, and twenty random bits to break ties. *)
Definition tenure (time_ns bits20 : Z) : Z := Z.lor (Z.shiftl (time_ns / 1000000) 20) bits20.

Section Session.
Context {F : Type}.
Notation P := (M (process F) halt).
Implicit Types p : process F.

Definition fail {A} (c : exc_class) : P A := raise (Exn (Exc c)).
Definition pure_res {A} (r : res A) : P A :=
  match r with Ok a => mret a | Raise e => raise (Exn e) end.

(** ** Field updates *)

Definition with_world p (w : world) : process F :=
  Process w (pr_clients p) (pr_servers p) (pr_client p) (pr_method_server p) (pr_left p)
    (pr_owner_pid p) (pr_pid p) (pr_rpc p) (pr_members p) (pr_atexit p) (pr_cleanup p) (pr_log p).

Definition with_left p (b : bool) : process F :=
  Process (pr_w p) (pr_clients p) (pr_servers p) (pr_client p) (pr_method_server p) b
    (pr_owner_pid p) (pr_pid p) (pr_rpc p) (pr_members p) (pr_atexit p) (pr_cleanup p) (pr_log p).

Definition with_cleanup p (l : list cleanup) : process F :=
  Process (pr_w p) (pr_clients p) (pr_servers p) (pr_client p) (pr_method_server p) (pr_left p)
    (pr_owner_pid p) (pr_pid p) (pr_rpc p) (pr_members p) (pr_atexit p) l (pr_log p).

Definition with_servers p (l : list (method_server F)) (log : list act) : process F :=
  Process (pr_w p) (pr_clients p) l (pr_client p) (pr_method_server p) (pr_left p)
    (pr_owner_pid p) (pr_pid p) (pr_rpc p) (pr_members p) (pr_atexit p) (pr_cleanup p) log.

Definition on_world {A} (m : W A) : P A := λ p,
  let '(r, w) := m (pr_w p) in (r, with_world p w).

(** ** Clients and listeners *)

Definition server_calls (j : nat) (calls : list MethodServer.native_call) : list act :=
  map (ActServer j) calls.

(** [_MethodServer(...)], [cleanup.callback(server.close)] *)
Definition open_server (m : method_server F) (calls : list MethodServer.native_call) : P nat := λ p,
  let j := length (pr_servers p) in
  (Ok j, with_cleanup (with_servers p (pr_servers p ++ [m]) (pr_log p ++ server_calls j calls))
           (CloseServer j :: pr_cleanup p)).

Definition update_server (j : nat) (f : method_server F → method_server F * list MethodServer.native_call)
    p : process F :=
  match pr_servers p !! j with
  | None => p
  | Some m => let '(m', calls) := f m in
              with_servers p (<[j := m']> (pr_servers p)) (pr_log p ++ server_calls j calls)
  end.

(** [server.close()] *)
Definition close_server (j : nat) : process F → process F := update_server j close.

(** [server.track_endpoint(url)], [server.url(advertise)] *)
Definition track (j : nat) (endpoint : pystr) : P unit :=
  modify (update_server j (λ m, (track_endpoint endpoint m, []))).

Definition server_endpoint (j : nat) (advertise : pystr) : P pystr := λ p,
  match pr_servers p !! j with
  | None => fail AssertionError p
  | Some m => (Ok (url advertise m).1, update_server j (λ m, ((url advertise m).2, [])) p)
  end.

(** [_Client(...)], [cleanup.callback(c.leave)] *)
Definition open_client (pool : pystr) (url : option pystr) : P nat := λ p,
  let i := pr_clients p in
  (Ok i, Process (with_sh (pr_w p) (new_shared pool url)) (S i) (pr_servers p) (pr_client p)
           (pr_method_server p) (pr_left p) (pr_owner_pid p) (pr_pid p) (pr_rpc p) (pr_members p)
           (pr_atexit p) (LeaveClient i :: pr_cleanup p) (pr_log p ++ [ActClient i ClientNew])).

Definition log_client (i : nat) (c : client_call) p : process F :=
  with_servers p (pr_servers p) (pr_log p ++ [ActClient i c]).

(** [Client::leave]: say goodbye if anybody ever answered. *)
Definition farewell (w : world) : world :=
  if 0 <? sh_beats_ok (w_sh w) then (tick (with_sh w (beat_sent (w_sh w)))).2 else w.

Definition leave_client (i : nat) p : process F :=
  log_client i ClientLeave (with_world p (farewell (pr_w p))).

(** [Client::start]: one beat of its own beside the loop's; true once any
    beat was answered. *)
Definition start (budget_ms : Z) : W bool :=
  _ ← u64_arg budget_ms;
  modify (λ w, with_sh w (beat_sent (w_sh w))) ;;
  native_read (λ s, 0 <? sh_beats_ok s).

(** ** [join] *)

(** [with _ExitStack() as cleanup]: an exception runs the callbacks, last one
    first; [cleanup.pop_all()] at the end leaves none to run. *)
Definition release p (c : cleanup) : process F :=
  match c with CloseServer j => close_server j p | LeaveClient i => leave_client i p end.

Definition with_exit_stack {A} (body : P A) : P A := λ p,
  match body (with_cleanup p []) with
  | (Ok a, p') => (Ok a, with_cleanup p' (pr_cleanup p))
  | (Raise Blocked, p') => (Raise Blocked, p')
  | (Raise e, p') => (Raise e, with_cleanup (fold_left release (pr_cleanup p') p') (pr_cleanup p))
  end.

(** The listener, and the address peers are given. *)
Definition join_server (a : join_args F) (su : surroundings) (identity : pystr) :
    P (option nat * option pystr) :=
  match ja_serves a with
  | Some attrs =>
      '(m, calls) ← pure_res (new_method_server attrs identity (u "0.0.0.0") (ja_max_concurrency a) (su_port su));
      j ← open_server m calls;
      url ← match ja_url a with
            | Some url => pure_res (_checked_method_endpoint url)
            | None => advertise ← pure_res (_advertise (su_env su) (su_probe su)); server_endpoint j advertise
            end;
      track j url ;;
      mret (Some j, Some url)
  | None =>
      match ja_url a with
      | Some url => url ← pure_res (_checked_method_endpoint url); mret (None, Some url)
      | None => mret (None, None)
      end
  end.

(** The first exchange with the registry. *)
Definition join_register (pool : pystr) (timeout : pyfloat) : W unit :=
  client_watch [pool] ;;
  now ← monotonic;
  let deadline := fadd now timeout in
  budget ← lift_res (conv (trunc (fmul (if SFltb _FIRST_BEAT_S timeout then _FIRST_BEAT_S else timeout) f1000)));
  started ← start budget;
  if (started : bool) then mret tt
  else
    now ← monotonic;
    ms ← lift_res (_left_ms now (Some deadline));
    _ ← match ms with
        | Some ms => ms ← u64_arg ms; wait_registered ms
        | None => mret false
        end;
    beats_ok ← native_read sh_beats_ok;
    if beats_ok =? 0 then throw Unreachable else mret tt.

(** Whether the seat was given. *)
Definition join_accepted : W unit :=
  accepted ← native_read sh_accepted;
  if (accepted : bool) then mret tt
  else
    refused ← native_read sh_refused;
    match refused with
    | [] => throw SeatTaken
    | _ => throw PolicyError
    end.

(** The features the registry lacks. *)
Definition missing_features (seen : registry_info) : list pystr :=
  List.filter (λ feature, match supports seen feature with Ok b => negb b | Raise _ => true end) FEATURES.*1.

(** The end of [join]: nothing below raises. *)
Definition join_commit (mb : member_obj) (i : nat) (j : option nat) : P nat := λ p,
  let k := length (pr_members p) in
  let w := pr_w p in
  (Ok k, Process
     (World (w_sh w) (w_mono w) (w_watches w) (w_live_watches w) (w_waits w) (w_live_waits w) true
        (w_heap w) (w_script w))
     (pr_clients p) (pr_servers p) (Some i) j (pr_left p) (pr_pid p) (pr_pid p)
     (set_identity (own_identity mb) (pr_rpc p)) (pr_members p ++ [Registered mb i j])
     (pr_atexit p ++ [k]) [] (pr_log p)).

(** [join]: the number of the member it returns. *)
Definition join (a : join_args F) (su : surroundings) : P nat :=
  modify (λ p, with_left p false) ;;
  p ← get;
  if (pr_client p : option nat) then fail RuntimeError
  else
  if match ja_coalesce_ms a with CoalesceInt ms => ms <? 0 | _ => true end then fail ValueError
  else
  pool ← pure_res (_checked_pool_name (ja_pool a));
  if negb (bool_decide (ja_policy a ∈ POLICIES)) then fail PolicyError
  else
  '(slot, size) ← pure_res (join_seat (su_env su) a);
  let ident := default (su_bits63 su) slot in
  let incarnation := tenure (su_time_ns su) (su_bits20 su) in
  endpoint ← pure_res (_endpoint (su_env su) (ja_registry_url a));
  with_exit_stack (
    '(server, url) ← join_server a su (_identity pool slot ident incarnation);
    c ← open_client pool url;
    on_world (join_register pool (ja_timeout a)) ;;
    on_world join_accepted ;;
    seen ← on_world member_registry;
    (if bool_decide (missing_features seen = []) || negb (su_warnings_as_errors su)
     then mret tt else fail OldRegistryWarning) ;;
    p ← get;
    join_commit (new_member pool slot incarnation ident (pr_pid p)) c server).

(** ** [leave], the exit hook, fork *)

Definition set_left_flag (rd : registered) : registered :=
  let mb := rd_member rd in
  Registered (MemberObj (mb_pool mb) (mb_slot mb) (mb_incarnation mb) (mb_ident mb) (mb_state mb) true (mb_pid mb))
    (rd_client rd) (rd_server rd).

(** The watches and native waits still live are closed; the client is no
    longer the current one if it was. *)
Definition close_all (w : world) (current : bool) : world :=
  let w' := happen w EvLeave in
  World (w_sh w') (w_mono w') (w_watches w') (w_live_watches w') (w_waits w') (w_live_waits w') current
    (w_heap w') (w_script w').

(** [Member.leave] past its guards. *)
Definition leave_now (k : nat) (rd : registered) p : process F :=
  let mine := bool_decide (pr_client p = Some (rd_client rd)) in
  let p1 := Process (close_all (pr_w p) (if mine then false else w_current (pr_w p))) (pr_clients p)
              (pr_servers p)
              (if mine then None else pr_client p) (if mine then None else pr_method_server p)
              (if mine then true else pr_left p) (pr_owner_pid p) (pr_pid p) (pr_rpc p)
              (<[k := set_left_flag rd]> (pr_members p)) (filter (λ h, h ≠ k) (pr_atexit p))
              (pr_cleanup p) (pr_log p) in
  let p2 := leave_client (rd_client rd) p1 in
  match rd_server rd with Some j => close_server j p2 | None => p2 end.

(** [Member.leave] *)
Definition leave (k : nat) : P unit := λ p,
  match pr_members p !! k with
  | None => fail AssertionError p
  | Some rd =>
      if negb (pr_pid p =? mb_pid (rd_member rd)) then fail RuntimeError p
      else if mb_left (rd_member rd) then (Ok tt, p)
      else (Ok tt, leave_now k rd p)
  end.

(** [Member.__exit__]: whatever the block raised goes on. *)
Definition member_exit (k : nat) : P unit := leave k.

(** [Member._leave_at_exit] *)
Definition _leave_at_exit (k : nat) : P unit := λ p,
  match pr_members p !! k with
  | None => fail AssertionError p
  | Some rd => if pr_pid p =? mb_pid (rd_member rd) then leave k p else (Ok tt, p)
  end.

(** Interpreter exit: the hooks, last one first. *)
Definition run_atexit p : process F := fold_left (λ p k, (_leave_at_exit k p).2) (rev (pr_atexit p)) p.

(** [_after_fork], in the child: what [abandon] does to each side, and the
    globals. *)
Definition abandon_client p : process F :=
  match pr_client p with Some i => log_client i ClientAbandon p | None => p end.

Definition abandon_server p : process F :=
  match pr_method_server p with Some j => update_server j abandon p | None => p end.

Definition _after_fork p : process F :=
  let p := abandon_server (abandon_client p) in
  let w := pr_w p in
  Process (World (w_sh w) (w_mono w) (w_watches w) [] (w_waits w) [] false (w_heap w) (w_script w))
    (pr_clients p) (pr_servers p) None None false (pr_owner_pid p) (pr_pid p) (pr_rpc p)
    (pr_members p) (pr_atexit p) (pr_cleanup p) (pr_log p).

(** [os.fork()] returning in the child. *)
Definition fork_child (pid : Z) p : process F :=
  _after_fork (Process (pr_w p) (pr_clients p) (pr_servers p) (pr_client p) (pr_method_server p) (pr_left p)
    (pr_owner_pid p) pid (pr_rpc p) (pr_members p) (pr_atexit p) (pr_cleanup p) (pr_log p)).

(** ** Lookups *)

(** [_require_client] *)
Definition _require_client : P nat :=
  p ← get;
  match pr_client p with
  | Some i => if pr_pid p =? pr_owner_pid p then mret i else fail RuntimeError
  | None => fail RuntimeError
  end.

(** [pool], [apool] *)
Definition open_pool (is_async : bool) (name : pystr) : P pool :=
  name ← pure_res (_checked_pool_name name);
  _require_client ;;
  on_world (new_pool name is_async).

(** ** What [join] has open *)

(** The part of the process a failing [join] does not touch. *)
Definition kept p :=
  (pr_client p, pr_method_server p, pr_left p, pr_owner_pid p, pr_pid p, pr_rpc p, pr_members p, pr_atexit p).

Definition server_log (j : nat) (srv : option (method_server F * list MethodServer.native_call)) : list act :=
  match srv with Some (_, calls) => server_calls j calls | None => [] end.

Definition client_log (i : nat) (cli : bool) : list act := if cli then [ActClient i ClientNew] else [].

(** Between [p0] and [p] the listener [srv] and, if [cli], a client were
    opened and put on the exit stack, and nothing else changed. *)
Record staged p0 (srv : option (method_server F * list MethodServer.native_call)) (cli : bool) p : Prop := {
  st_kept : kept p = kept p0;
  st_clients : pr_clients p = if cli then S (pr_clients p0) else pr_clients p0;
  st_servers : pr_servers p = pr_servers p0 ++ option_list (fst <$> srv);
  st_open : ∀ m calls, srv = Some (m, calls) →
    ms_closed m = false ∧ ∃ names host limit, calls = [NativeListen names host limit];
  st_cleanup : pr_cleanup p = (if cli then [LeaveClient (pr_clients p0)] else []) ++
    match srv with Some _ => [CloseServer (length (pr_servers p0))] | None => [] end;
  st_log : pr_log p = pr_log p0 ++ server_log (length (pr_servers p0)) srv ++ client_log (pr_clients p0) cli
}.

Lemma staged_world p0 srv cli p w : staged p0 srv cli p → staged p0 srv cli (with_world p w).
Proof. intros []. by split. Qed.

Lemma wp_on_world {A} (m : W A) p Q :
  (∀ r w, Q r (with_world p w)) → wp (on_world m) p Q.
Proof. intros HQ. unfold wp, on_world. destruct (m (pr_w p)) as [r w]. apply HQ. Qed.

Lemma wp_pure_res {A} (r : res A) p Q :
  (∀ a, r = Ok a → Q (Ok a) p) → (∀ e, r = Raise e → Q (Raise (Exn e)) p) → wp (pure_res r) p Q.
Proof. intros H1 H2. destruct r; [by apply H1|by apply H2]. Qed.

Lemma insert_last {A} (l : list A) x y : <[length l := y]> (l ++ [x]) = l ++ [y].
Proof. induction l as [|z l IH]; [done|]. simpl. by rewrite IH. Qed.

(** A change of the listener that was just opened. *)
Lemma staged_server p0 m calls cli p f :
  staged p0 (Some (m, calls)) cli p → (f m).2 = [] → ms_closed (f m).1 = ms_closed m →
  staged p0 (Some ((f m).1, calls)) cli (update_server (length (pr_servers p0)) f p).
Proof.
  intros [Hk Hc Hs Ho Hcl Hl] Hf Hm. unfold update_server. simpl in Hs.
  rewrite Hs, list_lookup_middle by done. destruct (f m) as [m' c']. simpl in *. subst c'.
  split; simpl; [done|done| | |done|by rewrite app_nil_r].
  - by apply insert_last.
  - intros m1 calls1 [= <- <-]. rewrite Hm. by apply Ho.
Qed.

Lemma staged_open_server p0 p m calls :
  staged p0 None false p → ms_closed m = false → (∃ names host limit, calls = [NativeListen names host limit]) →
  wp (open_server m calls) p (λ r p', r = Ok (length (pr_servers p0)) ∧ staged p0 (Some (m, calls)) false p').
Proof.
  intros [Hk Hc Hs Ho Hcl Hl] Hm Hcalls. unfold wp, open_server. simpl. simpl in Hs, Hl.
  rewrite app_nil_r in Hs, Hl. rewrite Hs. split; [done|].
  split; simpl; [done|done|done| | |].
  - by intros ? ? [= <- <-].
  - by rewrite Hcl.
  - by rewrite Hl, app_nil_r.
Qed.

Lemma new_method_server_open attrs who host limit port m calls :
  new_method_server (F := F) attrs who host limit port = Ok (m, calls) →
  ms_closed m = false ∧ ∃ names host limit, calls = [NativeListen names host limit].
Proof.
  unfold new_method_server. destruct (match limit with Some n => n <=? 0 | None => false end); [done|].
  intros H. simplify_res. eauto.
Qed.

Lemma join_server_spec a su who p0 p :
  staged p0 None false p →
  wp (join_server a su who) p (λ r p',
    match r with
    | Ok (j, _) => ∃ srv, staged p0 srv false p' ∧ j = (λ _, length (pr_servers p0)) <$> srv
    | Raise e => e ≠ Blocked ∧ ∃ srv, staged p0 srv false p'
    end).
Proof.
  intros Hst. unfold join_server. destruct (ja_serves a) as [attrs|].
  - apply wp_bind, wp_pure_res; [|by eauto]. intros [m calls] [Hm Hc]%new_method_server_open.
    apply wp_bind. eapply wp_mono; [by apply staged_open_server|]. intros r p1 [-> Hst1].
    assert (∀ url p2 m2, staged p0 (Some (m2, calls)) false p2 →
      wp (track (length (pr_servers p0)) url ;; mret (Some (length (pr_servers p0)), Some url)) p2 (λ r p',
        match r with
        | Ok (j, _) => ∃ srv, staged p0 srv false p' ∧ j = (λ _, length (pr_servers p0)) <$> srv
        | Raise e => e ≠ Blocked ∧ ∃ srv, staged p0 srv false p'
        end)) as Htrack.
    { intros url p2 m2 Hst2. apply wp_bind, wp_modify, wp_ret.
      exists (Some (track_endpoint url m2, calls)). split; [|done].
      by apply (staged_server _ m2 calls _ _ (λ m, (track_endpoint url m, []))). }
    apply wp_bind. destruct (ja_url a) as [url|].
    + apply wp_pure_res; [|by eauto]. intros url' _. by eapply Htrack.
    + apply wp_bind, wp_pure_res; [|by eauto]. intros adv _. unfold wp, server_endpoint.
      pose proof (st_servers _ _ _ _ Hst1) as Hs. simpl in Hs.
      rewrite Hs, list_lookup_middle by done. cbn [fst snd].
      apply (Htrack _ _ (url adv m).2). by apply (staged_server _ m calls _ _ (λ m, ((url adv m).2, []))).
  - destruct (ja_url a) as [url|].
    + apply wp_bind, wp_pure_res; [|by eauto]. intros url' _. apply wp_ret. by exists None.
    + apply wp_ret. by exists None.
Qed.

Lemma open_client_spec pool url p0 srv p :
  staged p0 srv false p →
  wp (open_client pool url) p (λ r p', r = Ok (pr_clients p0) ∧ staged p0 srv true p').
Proof.
  intros [Hk Hc Hs Ho Hcl Hl]. unfold wp, open_client. simpl. rewrite Hc. split; [done|].
  split; simpl; [exact Hk|done|done|done|by rewrite Hcl|].
  rewrite Hl. simpl. by rewrite app_nil_r, <-app_assoc.
Qed.

(** What the exit stack does to what is open. *)
Definition leave_log (i : nat) (cli : bool) : list act := if cli then [ActClient i ClientLeave] else [].

Definition close_log (j : nat) (srv : option (method_server F * list MethodServer.native_call)) : list act :=
  match srv with Some (m, _) => server_calls j (close m).2 | None => [] end.

Lemma release_staged p0 srv cli p :
  staged p0 srv cli p →
  let p' := fold_left release (pr_cleanup p) p in
  kept p' = kept p0 ∧ pr_clients p' = pr_clients p ∧
  pr_servers p' = pr_servers p0 ++ option_list ((λ s, (close s.1).1) <$> srv) ∧
  pr_log p' = pr_log p ++ leave_log (pr_clients p0) cli ++ close_log (length (pr_servers p0)) srv.
Proof.
  intros [Hk Hc Hs Ho Hcl Hl]. rewrite Hcl. destruct srv as [[m calls]|]; simpl in Hs.
  - assert (∀ q, pr_servers q = pr_servers p0 ++ [m] →
      close_server (length (pr_servers p0)) q =
      with_servers q (pr_servers p0 ++ [(close m).1])
        (pr_log q ++ server_calls (length (pr_servers p0)) (close m).2)) as Hclose.
    { intros q Hq. unfold close_server, update_server. rewrite Hq, list_lookup_middle by done.
      destruct (close m) as [m' c']. by rewrite insert_last. }
    destruct cli; simpl; rewrite Hclose by done; simpl; rewrite <-?app_assoc; done.
  - destruct cli; simpl; rewrite ?Hs, ?app_nil_r; done.
Qed.

(** What a failed [join] asked of the extension module: everything it opened
    was released, in the opposite order. *)
Inductive released (i j : nat) : list act → Prop :=
| released_none : released i j []
| released_client : released i j [ActClient i ClientNew; ActClient i ClientLeave]
| released_server names host limit drops :
    released i j (ActServer j (NativeListen names host limit) :: ActServer j NativeClose ::
                  map (λ e, ActServer j (NativeDrop e)) drops)
| released_both names host limit drops :
    released i j (ActServer j (NativeListen names host limit) :: ActClient i ClientNew ::
                  ActClient i ClientLeave :: ActServer j NativeClose ::
                  map (λ e, ActServer j (NativeDrop e)) drops).

Lemma staged_released p0 srv cli p :
  staged p0 srv cli p →
  released (pr_clients p0) (length (pr_servers p0))
    (server_log (length (pr_servers p0)) srv ++ client_log (pr_clients p0) cli ++
     leave_log (pr_clients p0) cli ++ close_log (length (pr_servers p0)) srv).
Proof.
  intros Hst. destruct srv as [[m calls]|].
  - destruct (st_open _ _ _ _ Hst m calls eq_refl) as (Hm & names & host & limit & ->).
    unfold server_log, close_log, close. rewrite Hm. cbn [snd]. unfold server_calls. cbn [map].
    rewrite map_map. destruct cli; constructor.
  - destruct cli; constructor.
Qed.

(** The member [join] would commit, and what it had opened before. *)
Definition committed p0 (k : nat) p' : Prop :=
  ∃ p1 srv mb, staged p0 srv true p1 ∧ mb_pid mb = pr_pid p0 ∧ mb_left mb = false ∧
    (Ok k, p') = join_commit mb (pr_clients p0) ((λ _, length (pr_servers p0)) <$> srv) p1.

(** The statement in the exit stack. *)
Definition body_end p0 (r : result halt nat) p' : Prop :=
  match r with
  | Ok k => committed p0 k p'
  | Raise Blocked => True
  | Raise _ => ∃ srv cli, staged p0 srv cli p'
  end.

Lemma join_body_spec a su pool slot ident incarnation p0 p :
  staged p0 None false p →
  wp ('(server, url) ← join_server a su (_identity pool slot ident incarnation);
      c ← open_client pool url;
      on_world (join_register pool (ja_timeout a)) ;;
      on_world join_accepted ;;
      seen ← on_world member_registry;
      (if bool_decide (missing_features seen = []) || negb (su_warnings_as_errors su)
       then mret tt else fail OldRegistryWarning) ;;
      p ← get;
      join_commit (new_member pool slot incarnation ident (pr_pid p)) c server) p (body_end p0).
Proof.
  intros Hst. apply wp_bind. eapply wp_mono; [by apply join_server_spec|].
  intros [[j url]|[e|]] p1; simpl; [|by intros [_ [srv ?]]; exists srv, false|done].
  intros (srv & Hst1 & ->).
  apply wp_bind. eapply wp_mono; [by apply open_client_spec|]. intros r p2 [-> Hst2].
  apply wp_bind, wp_on_world. intros [[]|[e|]] w2; [|by exists srv, true; apply staged_world|done].
  apply wp_bind, wp_on_world. intros [[]|[e|]] w3; [|by exists srv, true; do 2 apply staged_world|done].
  apply wp_bind, wp_on_world. intros [seen|[e|]] w4; [|by exists srv, true; do 3 apply staged_world|done].
  assert (staged p0 srv true (with_world (with_world (with_world p2 w2) w3) w4)) as Hst4
    by (by do 3 apply staged_world).
  apply wp_bind. destruct (_ || _); [|by apply wp_raise; exists srv, true]. apply wp_ret, wp_bind, wp_get.
  eexists _, srv, _. split; [exact Hst4|]. split; [|split; [|reflexivity]]; [|done].
  pose proof (st_kept _ _ _ _ Hst4) as Hk. unfold kept in Hk. simpl in Hk. simpl. congruence.
Qed.

Lemma staged_start p : pr_cleanup p = [] → staged p None false (with_cleanup p []).
Proof. intros Hc. split; simpl; rewrite ?app_nil_r; done. Qed.

(** How [join] ends. *)
Definition join_end p (r : result halt nat) p' : Prop :=
  match r with
  | Ok k => pr_client p = None ∧ committed (with_left p false) k p'
  | Raise Blocked => True
  | Raise _ =>
      kept p' = kept (with_left p false) ∧ pr_cleanup p' = [] ∧
      ∃ srv cli p1, staged (with_left p false) srv cli p1 ∧
        pr_clients p' = pr_clients p1 ∧
        pr_servers p' = pr_servers p ++ option_list ((λ s, (close s.1).1) <$> srv) ∧
        pr_log p' = pr_log p1 ++ leave_log (pr_clients p) cli ++ close_log (length (pr_servers p)) srv
  end.

(** [join] giving up before it opened anything. *)
Lemma join_early p e : e ≠ Blocked → pr_cleanup p = [] → join_end p (Raise e) (with_left p false).
Proof.
  intros He Hc. destruct e as [e|]; [|done]. split_and!; [done|done|].
  exists None, false, (with_left p false). split_and!; [|done|by rewrite app_nil_r..].
  split; simpl; rewrite ?app_nil_r; done.
Qed.

Lemma join_spec a su p : pr_cleanup p = [] → wp (join a su) p (join_end p).
Proof.
  intros Hc. unfold join. apply wp_bind, wp_modify, wp_bind, wp_get. simpl.
  destruct (pr_client p) as [i|] eqn:Hcl; [by apply wp_raise, join_early|].
  destruct (match ja_coalesce_ms a with CoalesceInt ms => ms <? 0 | _ => true end);
    [by apply wp_raise, join_early|].
  apply wp_bind, wp_pure_res; [|by intros; apply join_early]. intros pool _.
  destruct (negb _); [by apply wp_raise, join_early|].
  apply wp_bind, wp_pure_res; [|by intros; apply join_early]. intros [slot size] _.
  apply wp_bind, wp_pure_res; [|by intros; apply join_early]. intros endpoint _.
  pose proof (join_body_spec a su pool slot (default (su_bits63 su) slot)
    (tenure (su_time_ns su) (su_bits20 su)) (with_left p false) (with_cleanup (with_left p false) [])
    (staged_start (with_left p false) Hc)) as Hb.
  unfold wp, with_exit_stack in *. cbv zeta in *.
  match type of Hb with body_end _ ?x.1 _ => destruct x as [r p'] end. simpl in Hb. rewrite ?Hc.
  destruct r as [k|[e|]]; simpl in *; [| |done].
  - destruct Hb as (p1 & srv & mb & Hst & ? & ? & Hcm). split; [done|]. exists p1, srv, mb.
    split_and!; [done|done|done|]. injection Hcm as -> ->. cbn. by rewrite Hc.
  - destruct Hb as (srv & cli & Hst). pose proof (release_staged _ _ _ _ Hst) as (H1 & H2 & H3 & H4).
    split_and!; [done|done|]. by exists srv, cli, p'.
Qed.

(** ** The life of a process *)

(** A client that was made and neither left nor abandoned. *)
Definition client_open (i : nat) (log : list act) : Prop :=
  ActClient i ClientNew ∈ log ∧ ActClient i ClientLeave ∉ log ∧ ActClient i ClientAbandon ∉ log.

Definition is_leave (i : nat) (a : act) : bool :=
  match a with ActClient i' ClientLeave => (i =? i')%nat | _ => false end.

Definition leaves (i : nat) (log : list act) : nat := length (List.filter (is_leave i) log).

(** A process that has imported the package. *)
Definition fresh_process (w : world) (pid : Z) (rpc : rpc_state) : process F :=
  Process w 0 [] None None false pid pid rpc [] [] [] [].

(** What can happen in it: joining, leaving a member, the interpreter's exit,
    a fork into a child whose pid no member was made under, and everything
    that only concerns the world. *)
Inductive step p : process F → Prop :=
| step_join a su r p' : join a su p = (r, p') → r ≠ Raise Blocked → step p p'
| step_leave k : step p (leave k p).2
| step_exit : step p (run_atexit p)
| step_fork pid : Forall (λ rd, mb_pid (rd_member rd) ≠ pid) (pr_members p) → step p (fork_child pid p)
| step_world w : step p (with_world p w).

Inductive reach : process F → Prop :=
| reach_fresh w pid rpc : reach (fresh_process w pid rpc)
| reach_step p p' : reach p → step p p' → reach p'.

(** The member is this process's, and has not left. *)
Definition live_member p (k : nat) (rd : registered) : Prop :=
  pr_members p !! k = Some rd ∧ mb_left (rd_member rd) = false ∧ mb_pid (rd_member rd) = pr_pid p.

(** What holds of it between two statements. *)
Record session_ok p : Prop := {
  so_cleanup : pr_cleanup p = [];
  so_clients : ∀ i c, ActClient i c ∈ pr_log p → (i < pr_clients p)%nat;
  so_client : ∀ i, client_open i (pr_log p) ↔ pr_client p = Some i;
  so_none : pr_client p = None → pr_method_server p = None;
  so_server : ∀ j m, pr_servers p !! j = Some m → (ms_closed m = false ↔ pr_method_server p = Some j);
  so_server_made : ∀ j, pr_method_server p = Some j → (j < length (pr_servers p))%nat;
  so_member : ∀ k rd, live_member p k rd →
    pr_client p = Some (rd_client rd) ∧ pr_method_server p = rd_server rd;
  so_unique : ∀ k k' rd rd', live_member p k rd → live_member p k' rd' → k = k';
  so_once : ∀ i, (leaves i (pr_log p) <= 1)%nat
}.

Lemma leaves_app i l1 l2 : leaves i (l1 ++ l2) = (leaves i l1 + leaves i l2)%nat.
Proof. unfold leaves. by rewrite List.filter_app, length_app. Qed.

Lemma leaves_server i j calls : leaves i (server_calls j calls) = 0%nat.
Proof. unfold leaves, server_calls. by induction calls. Qed.

Lemma leaves_none i l : ActClient i ClientLeave ∉ l → leaves i l = 0%nat.
Proof.
  intros Hn. unfold leaves. induction l as [|a l IH]; [done|]. simpl.
  apply not_elem_of_cons in Hn as [Ha Hl]. destruct a as [i' []|]; simpl; auto.
  destruct (Nat.eqb_spec i i') as [->|]; [done|]. auto.
Qed.

Lemma client_not_server i c j calls : ActClient i c ∉ server_calls j calls.
Proof. unfold server_calls. intros (? & ? & ?)%list_elem_of_In%in_map_iff. done. Qed.

(** An addition to the log that says nothing of client [i]. *)
Lemma client_open_app i l l' :
  (∀ c, ActClient i c ∉ l') → client_open i (l ++ l') ↔ client_open i l.
Proof. intros Hn. unfold client_open. rewrite !elem_of_app. naive_solver. Qed.

Lemma fresh_ok w pid rpc : session_ok (fresh_process w pid rpc).
Proof.
  split; simpl; try done.
  - by intros i c ?%not_elem_of_nil.
  - intros i. split; [|done]. by intros [?%not_elem_of_nil _].
  - by intros k rd [? _].
  - by intros k k' rd rd' [? _].
  - intros i. unfold leaves. simpl. lia.
Qed.

Lemma world_ok p w : session_ok p → session_ok (with_world p w).
Proof. intros []. by split. Qed.

Lemma elem_drops i c j drops : ActClient i c ∉ map (λ e, ActServer j (NativeDrop e)) drops.
Proof. intros (? & ? & ?)%list_elem_of_In%in_map_iff. done. Qed.

Lemma leaves_drops i j drops : leaves i (map (λ e, ActServer j (NativeDrop e)) drops) = 0%nat.
Proof. apply leaves_none, elem_drops. Qed.

(** A log whose only client is [n], and which does not leave it open. *)
Record closed_log (n : nat) (l : list act) : Prop := {
  cl_only : ∀ i c, ActClient i c ∈ l → i = n;
  cl_closed : ActClient n ClientNew ∈ l → ActClient n ClientLeave ∈ l;
  cl_once : (leaves n l <= 1)%nat
}.

Lemma released_closed n j l : released n j l → closed_log n l.
Proof.
  intros []; split;
    try (intros i c; rewrite ?elem_of_cons; intros H;
         repeat destruct H as [[= ]|H]; subst; try done; first [by apply elem_drops in H|by apply not_elem_of_nil in H]);
    try (unfold leaves; simpl; rewrite ?Nat.eqb_refl; simpl; try (change (length _) with (leaves n (map (λ e, ActServer j (NativeDrop e)) drops)); rewrite leaves_drops); lia);
    rewrite ?elem_of_cons; try tauto.
  - by intros ?%not_elem_of_nil.
  - intros [?|[?|H]]; [done|done|by apply elem_drops in H].
Qed.

(** Adding such a log for the next client. *)
Lemma closed_log_open n l l' i :
  (∀ i c, ActClient i c ∈ l → (i < n)%nat) → closed_log n l' →
  client_open i (l ++ l') ↔ client_open i l.
Proof.
  intros Hl Hc. destruct (decide (i = n)) as [->|Hne].
  - unfold client_open. rewrite !elem_of_app. split.
    + intros ([Hn|Hn] & Hlv & _); [apply Hl in Hn; lia|]. apply (cl_closed _ _ Hc) in Hn. tauto.
    + intros (Hn & _). apply Hl in Hn. lia.
  - apply client_open_app. intros c Hin. by apply (cl_only _ _ Hc) in Hin.
Qed.

Lemma closed_log_once n l l' i :
  (∀ i c, ActClient i c ∈ l → (i < n)%nat) → closed_log n l' → (leaves i l <= 1)%nat →
  (leaves i (l ++ l') <= 1)%nat.
Proof.
  intros Hl Hc Hi. rewrite leaves_app. destruct (decide (i = n)) as [->|Hne].
  - pose proof (cl_once _ _ Hc). rewrite (leaves_none n l); [lia|]. intros Hin%Hl. lia.
  - rewrite (leaves_none i l'); [lia|]. intros Hin. by apply (cl_only _ _ Hc) in Hin.
Qed.

Lemma kept_fields p p' :
  kept p' = kept p →
  pr_client p' = pr_client p ∧ pr_method_server p' = pr_method_server p ∧ pr_pid p' = pr_pid p ∧
  pr_members p' = pr_members p ∧ pr_atexit p' = pr_atexit p ∧ pr_rpc p' = pr_rpc p.
Proof. unfold kept. intros H. injection H as ? ? ? ? ? ? ? ?. auto 10. Qed.

Lemma close_closed (m : method_server F) : ms_closed (close m).1 = true.
Proof. unfold close. by destruct (ms_closed m) eqn:E. Qed.

(** A listener appended to the others. *)
Lemma lookup_appended {A} (l : list A) (o : option A) j x :
  (l ++ option_list o) !! j = Some x → l !! j = Some x ∨ j = length l ∧ o = Some x.
Proof.
  intros [H|[Hlen H]]%lookup_app_Some; [by left|right]. destruct o as [y|]; [|done].
  apply list_lookup_singleton_Some in H as [? ->]. split; [lia|done].
Qed.

(** A failing [join] keeps the process in order. *)
Lemma join_failed_ok p e p' : session_ok p → join_end p (Raise (Exn e)) p' → session_ok p'.
Proof.
  intros Hp (Hk & Hcl & srv & cli & p1 & Hst & Hn & Hs & Hl).
  apply kept_fields in Hk as (Ec & Es & Ep & Em & Ea & Er). simpl in *.
  pose proof (released_closed _ _ _ (staged_released _ _ _ _ Hst)) as Hc. simpl in Hc.
  rewrite (st_log _ _ _ _ Hst), <-!app_assoc in Hl. simpl in Hl.
  assert (pr_clients p ≤ pr_clients p')%nat as Hle.
  { rewrite Hn, (st_clients _ _ _ _ Hst). destruct cli; simpl; lia. }
  split; [done|..].
  - intros i c. rewrite Hl. intros [Hin|Hin]%elem_of_app; [apply (so_clients _ Hp) in Hin; lia|].
    assert (i = pr_clients p) as -> by (by eapply cl_only). rewrite Hn, (st_clients _ _ _ _ Hst). destruct cli; simpl; [lia|].
    exfalso. revert Hin. unfold server_log, client_log, leave_log, close_log.
    destruct srv as [[m calls]|]; simpl; [|by intros ?%not_elem_of_nil].
    by intros [?%client_not_server|?%client_not_server]%elem_of_app.
  - intros i. rewrite Hl, (closed_log_open (pr_clients p)), Ec; [apply (so_client _ Hp)|apply (so_clients _ Hp)|done].
  - rewrite Ec, Es. apply (so_none _ Hp).
  - intros j m. rewrite Hs, Es. intros [Hj|[-> Ho]]%lookup_appended; [by apply (so_server _ Hp)|].
    apply fmap_Some in Ho as ([m0 calls] & -> & ->). rewrite close_closed. split; [done|].
    intros Hj%(so_server_made _ Hp). lia.
  - intros j. rewrite Es, Hs, length_app. intros Hj%(so_server_made _ Hp). lia.
  - intros k rd. unfold live_member. rewrite Em, Ep, Ec, Es. apply (so_member _ Hp).
  - intros k k' rd rd'. unfold live_member. rewrite Em, Ep. apply (so_unique _ Hp).
  - intros i. rewrite Hl. apply (closed_log_once (pr_clients p)); [apply (so_clients _ Hp)|done|apply (so_once _ Hp)].
Qed.

(** So does one that succeeds. *)
Lemma join_done_ok p k p' : session_ok p → join_end p (Ok k) p' → session_ok p'.
Proof.
  intros Hp (Hnone & p1 & srv & mb & Hst & Hpid & Hleft & [= -> ->]).
  destruct (kept_fields _ _ (st_kept _ _ _ _ Hst)) as (Ec & Es & Ep & Em & Ea & Er). simpl in *.
  pose proof (st_log _ _ _ _ Hst) as Hl. pose proof (st_clients _ _ _ _ Hst) as Hn.
  pose proof (st_servers _ _ _ _ Hst) as Hs. simpl in *.
  assert (∀ i c, ActClient i c ∈ server_log (length (pr_servers p)) srv ++ [ActClient (pr_clients p) ClientNew] →
    i = pr_clients p ∧ c = ClientNew) as Hnew.
  { intros i c. destruct srv as [[m calls]|]; simpl.
    - intros [?%client_not_server|?%list_elem_of_singleton]%elem_of_app; [done|]. by simplify_eq.
    - intros ?%list_elem_of_singleton. by simplify_eq. }
  assert (∀ k rd, live_member (join_commit mb (pr_clients p) ((λ _, length (pr_servers p)) <$> srv) p1).2 k rd →
    k = length (pr_members p) ∧
    rd = Registered mb (pr_clients p) ((λ _, length (pr_servers p)) <$> srv)) as Hlive.
  { intros k rd (Hk & Hlf & Hpd). simpl in Hk, Hpd. rewrite Em in Hk. rewrite Ep in Hpd.
    apply lookup_app_Some in Hk as [Hk|[Hk1 Hk]].
    - destruct (so_member _ Hp k rd) as [? _]; [done|congruence].
    - apply list_lookup_singleton_Some in Hk as [Hk2 <-]. split; [lia|done]. }
  split; simpl; [done|..].
  - intros i c. rewrite Hl, Hn. intros [Hin|[-> _]%Hnew]%elem_of_app; [|lia].
    apply (so_clients _ Hp) in Hin. lia.
  - intros i. rewrite Hl. destruct (decide (i = pr_clients p)) as [->|Hne].
    + split; [done|intros _]. unfold client_open. rewrite !elem_of_app. split_and!.
      * right. right. left.
      * intros [Hin%(so_clients _ Hp)|Hin]; [lia|]. by apply elem_of_app, Hnew in Hin as [_ ?].
      * intros [Hin%(so_clients _ Hp)|Hin]; [lia|]. by apply elem_of_app, Hnew in Hin as [_ ?].
    + rewrite client_open_app by (by intros c [? _]%Hnew). rewrite (so_client _ Hp), Hnone.
      split; [done|congruence].
  - done.
  - intros j m. rewrite Hs. intros [Hj|[-> Ho]]%lookup_appended.
    + rewrite (so_server _ Hp j m Hj), (so_none _ Hp Hnone). apply lookup_lt_Some in Hj.
      split; [done|]. intros (s & _ & [= ->])%fmap_Some. lia.
    + apply fmap_Some in Ho as ([m0 calls] & -> & ->). simpl. split; [done|intros _].
      by apply (st_open _ _ _ _ Hst m0 calls).
  - intros j (s & -> & [= ->])%fmap_Some. rewrite Hs. simpl. rewrite length_app. simpl. lia.
  - intros k rd [-> ->]%Hlive. done.
  - by intros k k' rd rd' [-> _]%Hlive [-> _]%Hlive.
  - intros i. rewrite Hl, leaves_app, (leaves_none i (_ ++ _)); [|by intros [_ ?]%Hnew].
    pose proof (so_once _ Hp i). lia.
Qed.

(** What leaving a live member leaves. *)
Lemma leave_live p k rd :
  session_ok p → live_member p k rd →
  let p' := leave_now k rd p in
  pr_client p' = None ∧ pr_method_server p' = None ∧ pr_left p' = true ∧ pr_pid p' = pr_pid p ∧
  pr_clients p' = pr_clients p ∧ pr_cleanup p' = pr_cleanup p ∧ pr_rpc p' = pr_rpc p ∧
  pr_members p' = <[k := set_left_flag rd]> (pr_members p) ∧
  pr_atexit p' = filter (λ h, h ≠ k) (pr_atexit p) ∧
  (∃ calls, pr_log p' = pr_log p ++ ActClient (rd_client rd) ClientLeave ::
     match rd_server rd with Some j => server_calls j calls | None => [] end) ∧
  length (pr_servers p') = length (pr_servers p) ∧
  ∀ j m, pr_servers p' !! j = Some m → ms_closed m = true.
Proof.
  intros Hp Hlive. destruct (so_member _ Hp k rd Hlive) as [Hc Hs]. unfold leave_now.
  rewrite Hc, bool_decide_true by done.
  assert (∀ j m, pr_servers p !! j = Some m → rd_server rd ≠ Some j → ms_closed m = true) as Hcl.
  { intros j m Hj Hne. apply not_false_iff_true. rewrite (so_server _ Hp j m Hj). congruence. }
  destruct (rd_server rd) as [j|]; cbv zeta; simpl.
  - unfold close_server, update_server. simpl.
    destruct (lookup_lt_is_Some_2 (pr_servers p) j) as [m Hm]; [by apply (so_server_made _ Hp)|].
    rewrite Hm. pose proof (close_closed m) as Hm'. destruct (close m) as [m' calls]. simpl in *.
    split_and!; try done; [exists calls; by rewrite <-app_assoc|by rewrite length_insert|].
    intros j' m0 [(-> & <- & _)|[Hne Hj']]%list_lookup_insert_Some; [done|].
    apply (Hcl j'); [done|congruence].
  - split_and!; try done; [by exists []|]. intros j m Hj. by apply (Hcl j).
Qed.

Lemma leave_now_ok p k rd : session_ok p → live_member p k rd → session_ok (leave_now k rd p).
Proof.
  intros Hp Hlive.
  destruct (leave_live p k rd Hp Hlive) as (Ec & Es & _ & Ep & En & Ecl & _ & Em & _ & (calls & Hl) & Hlen & Hall).
  destruct (so_member _ Hp k rd Hlive) as [Hc Hs].
  assert (∀ i c, ActClient i c ∈ ActClient (rd_client rd) ClientLeave ::
     match rd_server rd with Some j => server_calls j calls | None => [] end →
     i = rd_client rd ∧ c = ClientLeave) as Hnew.
  { intros i c [?|Hin]%elem_of_cons; [by simplify_eq|]. exfalso. revert Hin.
    destruct (rd_server rd); [apply client_not_server|apply not_elem_of_nil]. }
  assert (∀ k' rd', ¬ live_member (leave_now k rd p) k' rd') as Hnone.
  { intros k' rd' (Hk & Hlf & Hpd). rewrite Em in Hk. rewrite Ep in Hpd.
    apply list_lookup_insert_Some in Hk as [(<- & <- & _)|[Hne Hk]]; [done|].
    by apply Hne, (so_unique _ Hp _ _ rd rd'). }
  split; [by rewrite Ecl, (so_cleanup _ Hp)|..].
  - intros i c. rewrite Hl, En. intros [Hin|[-> _]%Hnew]%elem_of_app; [by eapply so_clients|].
    apply (so_client _ Hp) in Hc as [Hin _]. by eapply so_clients.
  - intros i. rewrite Ec. split; [|done]. intros Ho. exfalso. rewrite Hl in Ho.
    destruct (decide (i = rd_client rd)) as [->|Hne].
    + destruct Ho as (_ & Hn & _). apply Hn, elem_of_app. right. left.
    + rewrite client_open_app in Ho by (by intros c [? _]%Hnew). apply (so_client _ Hp) in Ho. congruence.
  - done.
  - intros j m Hj. rewrite Es, (Hall j m Hj). done.
  - intros j. by rewrite Es.
  - by intros k' rd' ?%Hnone.
  - by intros k1 k2 rd1 rd2 ?%Hnone.
  - intros i. rewrite Hl, leaves_app. destruct (decide (i = rd_client rd)) as [->|Hne].
    + apply (so_client _ Hp) in Hc as (_ & Hn & _). rewrite (leaves_none _ _ Hn).
      unfold leaves. simpl. rewrite Nat.eqb_refl. simpl.
      destruct (rd_server rd) as [j|]; [|simpl; lia]. pose proof (leaves_server (rd_client rd) j calls) as H0.
      unfold leaves in H0. rewrite H0. lia.
    + rewrite (leaves_none i (_ :: _)); [pose proof (so_once _ Hp i); lia|]. by intros [? _]%Hnew.
Qed.

Lemma leave_ok k p : session_ok p → session_ok (leave k p).2.
Proof.
  intros Hp. unfold leave. destruct (pr_members p !! k) as [rd|] eqn:Hk; [|done].
  destruct (Z.eqb_spec (pr_pid p) (mb_pid (rd_member rd))) as [Hpid|]; simpl; [|done].
  destruct (mb_left (rd_member rd)) eqn:Hl; [done|]. by apply leave_now_ok.
Qed.

Lemma exit_ok p : session_ok p → session_ok (run_atexit p).
Proof.
  unfold run_atexit. generalize (rev (pr_atexit p)). intros hooks. revert p.
  induction hooks as [|k hooks IH]; intros p Hp; [done|]. simpl. apply IH. unfold _leave_at_exit.
  destruct (pr_members p !! k) as [rd|]; [|done]. destruct (_ =? _); [by apply leave_ok|done].
Qed.

Lemma update_server_fields j f p :
  kept (update_server j f p) = kept p ∧ pr_clients (update_server j f p) = pr_clients p ∧
  pr_cleanup (update_server j f p) = pr_cleanup p ∧ pr_w (update_server j f p) = pr_w p ∧
  length (pr_servers (update_server j f p)) = length (pr_servers p) ∧
  (∃ calls, pr_log (update_server j f p) = pr_log p ++ server_calls j calls) ∧
  ∀ j' m, pr_servers (update_server j f p) !! j' = Some m →
    j' ≠ j ∧ pr_servers p !! j' = Some m ∨ ∃ m0, m = (f m0).1.
Proof.
  unfold update_server. destruct (pr_servers p !! j) as [m0|] eqn:Hj.
  - destruct (f m0) as [m' calls] eqn:Hf. simpl. split_and!; try done; [by rewrite length_insert|by exists calls|].
    intros j' m [(-> & <- & _)|[Hne Hj']]%list_lookup_insert_Some; [right; exists m0; by rewrite Hf|].
    left. auto.
  - split_and!; try done; [exists []; by rewrite app_nil_r|]. intros j' m Hj'. left. split; [congruence|done].
Qed.

(** The child of a fork. *)
Lemma fork_fields pid p :
  let p' := fork_child pid p in
  pr_client p' = None ∧ pr_method_server p' = None ∧ pr_left p' = false ∧ pr_pid p' = pid ∧
  pr_clients p' = pr_clients p ∧ pr_cleanup p' = pr_cleanup p ∧ pr_rpc p' = pr_rpc p ∧
  pr_members p' = pr_members p ∧ pr_atexit p' = pr_atexit p ∧
  length (pr_servers p') = length (pr_servers p) ∧
  (∃ j calls, pr_log p' = pr_log p ++
     match pr_client p with Some i => [ActClient i ClientAbandon] | None => [] end ++ server_calls j calls) ∧
  ∀ j m, pr_servers p' !! j = Some m →
    pr_method_server p ≠ Some j ∧ pr_servers p !! j = Some m ∨ ms_closed m = true.
Proof.
  cbv zeta. unfold fork_child, _after_fork.
  set (q := Process (pr_w p) (pr_clients p) (pr_servers p) (pr_client p) (pr_method_server p) (pr_left p)
    (pr_owner_pid p) pid (pr_rpc p) (pr_members p) (pr_atexit p) (pr_cleanup p) (pr_log p)).
  assert (kept (abandon_client q) = kept q ∧ pr_clients (abandon_client q) = pr_clients p ∧
    pr_cleanup (abandon_client q) = pr_cleanup p ∧ pr_servers (abandon_client q) = pr_servers p ∧
    pr_log (abandon_client q) = pr_log p ++
      match pr_client p with Some i => [ActClient i ClientAbandon] | None => [] end) as (K1 & N1 & C1 & S1 & L1).
  { unfold abandon_client, q. simpl. destruct (pr_client p); simpl; by rewrite ?app_nil_r. }
  set (a := abandon_client q) in *. destruct (kept_fields _ _ K1) as (_ & Es & Ep & Em & Ea & Er).
  simpl in Es, Ep, Em, Ea, Er. cbv zeta. cbn [pr_client pr_method_server pr_left pr_pid pr_clients pr_cleanup pr_rpc pr_members pr_atexit
    pr_servers pr_log]. unfold abandon_server. rewrite Es.
  destruct (pr_method_server p) as [j|].
  - destruct (update_server_fields j abandon a) as (K2 & N2 & C2 & _ & S2 & (calls & L2) & H2).
    destruct (kept_fields _ _ K2) as (_ & _ & Ep2 & Em2 & Ea2 & Er2).
    split_and!; try first [done | congruence].
    + exists j, calls. by rewrite L2, L1, app_assoc.
    + intros j' m [[Hne Hj]|[m0 ->]]%H2; [left; rewrite <-S1; split; [congruence|done]|by right].
  - split_and!; try first [done | congruence].
    + exists 0%nat, []. by rewrite L1, app_nil_r.
    + intros j m. rewrite S1. by left.
Qed.

Lemma fork_ok pid p :
  session_ok p → Forall (λ rd, mb_pid (rd_member rd) ≠ pid) (pr_members p) → session_ok (fork_child pid p).
Proof.
  intros Hp Hpids. destruct (fork_fields pid p) as (Ec & Es & _ & Ep & En & Ecl & _ & Em & _ & Hlen & (j0 & calls & Hl) & Hs).
  rewrite app_assoc in Hl.
  assert (∀ i l, client_open i (l ++ server_calls j0 calls) ↔ client_open i l) as Hopen.
  { intros i l. apply client_open_app. intros c. apply client_not_server. }
  assert (∀ k rd, ¬ live_member (fork_child pid p) k rd) as Hnone.
  { intros k rd (Hk & _ & Hpd). rewrite Em in Hk. rewrite Ep in Hpd. rewrite Forall_lookup in Hpids.
    by apply (Hpids k rd). }
  split; [by rewrite Ecl, (so_cleanup _ Hp)|..].
  - intros i c. rewrite Hl, En, elem_of_app. intros [Hin|Hin]; [|by apply client_not_server in Hin].
    apply elem_of_app in Hin as [Hin|Hin]; [by eapply so_clients|].
    destruct (pr_client p) as [i'|] eqn:Hc; [|by apply not_elem_of_nil in Hin].
    apply list_elem_of_singleton in Hin. simplify_eq. apply (so_client _ Hp) in Hc as [Hin _]. by eapply so_clients.
  - intros i. rewrite Ec, Hl, Hopen. split; [|done]. intros Ho. exfalso.
    destruct (pr_client p) as [i'|] eqn:Hc.
    + destruct (decide (i = i')) as [->|Hne].
      * destruct Ho as (_ & _ & Ha). apply Ha, elem_of_app. right. left.
      * rewrite client_open_app in Ho.
        -- apply (so_client _ Hp) in Ho. congruence.
        -- intros c Hin. apply list_elem_of_singleton in Hin. congruence.
    + rewrite app_nil_r in Ho. apply (so_client _ Hp) in Ho. congruence.
  - done.
  - intros j m Hj. rewrite Es. split; [|done]. intros Hopn. destruct (Hs j m Hj) as [[Hne Hj']|?]; [|congruence].
    apply (so_server _ Hp j m Hj') in Hopn. congruence.
  - intros j. by rewrite Es.
  - by intros k rd ?%Hnone.
  - by intros k k' rd rd' ?%Hnone.
  - intros i. rewrite Hl, !leaves_app, leaves_server. pose proof (so_once _ Hp i).
    destruct (pr_client p); unfold leaves in *; simpl; lia.
Qed.

Lemma reach_ok p : reach p → session_ok p.
Proof.
  induction 1 as [w pid rpc|p p' _ Hp Hs]; [apply fresh_ok|].
  destruct Hs as [a su r p' Hj Hb|k| |pid Hpid|w].
  - pose proof (join_spec a su p (so_cleanup _ Hp)) as He. unfold wp in He. rewrite Hj in He. simpl in He.
    destruct r as [k|[e|]]; [by eapply join_done_ok|by eapply join_failed_ok|done].
  - by apply leave_ok.
  - by apply exit_ok.
  - by apply fork_ok.
  - by apply world_ok.
Qed.
End Session.

(** ** Closed watches stay closed *)

(** Every one of these watches and native waits is closed. *)
Definition all_closed (watches waits : list nat) (w : world) : Prop :=
  (∀ i, i ∈ watches → wa_closed <$> w_watches w !! i ≠ Some false) ∧
  (∀ i, i ∈ waits → wt_closed <$> w_waits w !! i ≠ Some false).

Lemma close_live_keeps {A} (closed : A → bool) close live (l : list A) i :
  (∀ a, closed (close a) = true) →
  closed <$> l !! i ≠ Some false → closed <$> close_live close live l !! i ≠ Some false.
Proof.
  intros Hc Hi. unfold close_live. rewrite list_lookup_imap. destruct (l !! i) as [a|]; [|done]. simpl in *.
  case_bool_decide; [by rewrite Hc|done].
Qed.

Lemma close_live_all {A} (closed : A → bool) close live (l : list A) i :
  (∀ a, closed (close a) = true) → i ∈ live → closed <$> close_live close live l !! i ≠ Some false.
Proof.
  intros Hc Hi. unfold close_live. rewrite list_lookup_imap. destruct (l !! i) as [a|]; [|done]. simpl.
  rewrite bool_decide_true by done. simpl. by rewrite Hc.
Qed.

Lemma happen_all_closed watches waits w e : all_closed watches waits w → all_closed watches waits (happen w e).
Proof.
  intros [H1 H2]. destruct e as [|k ack|k|mono ms| | |i|]; simpl; try (by split).
  - by destruct (take_off k _) as [[showing fl]|].
  - by destruct (take_off k _) as [[showing fl]|].
  - split; simpl; intros j Hj; apply close_live_keeps; auto.
  - destruct (w_watches w !! i) as [wa|] eqn:Ei; [|by split]. destruct (wa_closed wa); [by split|].
    split; simpl; [|done]. intros j Hj. destruct (decide (j = i)) as [->|Hne]; [by rewrite list_lookup_alter_eq, Ei|].
    rewrite list_lookup_alter_ne by done. by apply H1.
Qed.

Lemma farewell_all_closed watches waits w : all_closed watches waits w → all_closed watches waits (farewell w).
Proof.
  intros Hw. unfold farewell. destruct (_ <? _); [|done]. unfold tick. simpl.
  destruct (w_script w) as [|batch rest]; [done|]. simpl.
  set (w0 := with_script _ rest). assert (all_closed watches waits w0) as H0 by done.
  clearbody w0. revert w0 H0. induction batch as [|e batch IH]; intros w0 H0; [done|].
  simpl. by apply IH, happen_all_closed.
Qed.

Lemma leave_closes {F} k rd (p : process F) :
  all_closed (w_live_watches (pr_w p)) (w_live_waits (pr_w p)) (pr_w (leave_now k rd p)).
Proof.
  assert (∀ cur, all_closed (w_live_watches (pr_w p)) (w_live_waits (pr_w p)) (farewell (close_all (pr_w p) cur)))
    as Hf.
  { intros cur. apply farewell_all_closed. split; simpl; intros i Hi; by apply close_live_all. }
  unfold leave_now. destruct (rd_server rd) as [j|]; cbv zeta; [|apply Hf].
  match goal with |- context [close_server j ?q] => destruct (update_server_fields j close q) as (_ & _ & _ & E & _) end.
  unfold close_server. rewrite E. apply Hf.
Qed.

(** A process without a client answers no lookup. *)
Lemma no_client_no_lookup {F} (p : process F) :
  pr_client p = None → _require_client p = (Raise (Exn (Exc RuntimeError)), p).
Proof. intros Hc. unfold _require_client. rewrite M_bind_unfold. unfold get. by rewrite Hc. Qed.

Lemma exit_of_strangers {F} (p : process F) :
  Forall (λ rd, mb_pid (rd_member rd) ≠ pr_pid p) (pr_members p) → run_atexit p = p.
Proof.
  intros HF. unfold run_atexit. generalize (rev (pr_atexit p)). intros hooks.
  induction hooks as [|k hooks IH]; [done|]. simpl.
  assert ((_leave_at_exit k p).2 = p) as ->; [|done]. unfold _leave_at_exit.
  destruct (pr_members p !! k) as [rd|] eqn:Hk; [|done]. rewrite Forall_lookup in HF.
  specialize (HF k rd Hk). by destruct (Z.eqb_spec (pr_pid p) (mb_pid (rd_member rd))).
Qed.

Lemma tenure_sum t b : 0 ≤ b < 2 ^ 20 → tenure t b = t / 1000000 * 2 ^ 20 + b.
Proof.
  intros Hb. unfold tenure. rewrite Z.shiftl_mul_pow2 by lia.
  rewrite <-Z.lxor_lor; [rewrite <-Z.add_nocarry_lxor; [done|]|].
  all: apply Z.bits_inj'; intros n Hn; rewrite Z.land_spec, Z.bits_0;
    destruct (Z.lt_ge_cases n 20) as [Hlt|Hge];
    [rewrite Z.mul_pow2_bits_low by lia; done|rewrite (Z.testbit_eqb b) by lia;
     rewrite (Z.div_small b) by (pose proof (Z.pow_le_mono_r 2 20 n); lia);
     rewrite Z.mod_0_l by lia; apply andb_false_r].
Qed.

(** ** Properties *)

(** C7: a [join] that raises leaves the process as it was: the globals, the
    members, the exit hooks and this process's identity are untouched, and
    whatever it had opened -- a listener, a client, or both -- it has
    released, each once, the last one opened first.  A [join] that returns
    has made exactly one member, is now known under its identity, will leave
    at exit, and has released nothing. *)
Theorem join_all_or_nothing {F} (a : join_args F) (su : surroundings) (p p' : process F)
    (r : result halt nat) :
  pr_cleanup p = [] → join a su p = (r, p') →
  match r with
  | Raise Blocked => True
  | Raise _ =>
      kept p' = kept (with_left p false) ∧ pr_cleanup p' = [] ∧
      ∃ log, pr_log p' = pr_log p ++ log ∧ released (pr_clients p) (length (pr_servers p)) log
  | Ok k =>
      pr_client p = None ∧ pr_client p' = Some (pr_clients p) ∧ k = length (pr_members p) ∧
      pr_atexit p' = pr_atexit p ++ [k] ∧ pr_cleanup p' = [] ∧
      (∃ rd, pr_members p' = pr_members p ++ [rd] ∧ live_member p' k rd ∧
             rd_client rd = pr_clients p ∧ rd_server rd = pr_method_server p' ∧
             rs_identity (pr_rpc p') = own_identity (rd_member rd)) ∧
      (∀ i, leaves i (pr_log p') = leaves i (pr_log p))
  end.
Proof.
  intros Hc Hj. pose proof (join_spec a su p Hc) as H. unfold wp in H. rewrite Hj in H. simpl in H.
  destruct r as [k|[e|]]; [| |done].
  - destruct H as (Hn & p1 & srv & mb & Hst & Hpid & Hleft & [= -> ->]).
    destruct (kept_fields _ _ (st_kept _ _ _ _ Hst)) as (Ec & Es & Ep & Em & Ea & Er). simpl in *.
    rewrite Em, Ea. split_and!; try done.
    + eexists. split; [done|]. split_and!; try done. split; [|split]; simpl; [|done|congruence].
      by rewrite list_lookup_middle.
    + intros i. rewrite (st_log _ _ _ _ Hst), !leaves_app. simpl.
      destruct srv as [[m calls]|]; simpl; rewrite ?leaves_server; unfold leaves; simpl; lia.
  - destruct H as (Hk & Hcl & srv & cli & p1 & Hst & _ & _ & Hl). split_and!; [done|done|].
    rewrite (st_log _ _ _ _ Hst), <-!app_assoc in Hl. eexists. split; [exact Hl|].
    apply (staged_released _ _ _ _ Hst).
Qed.

(** C5: through any sequence of joins, failed joins, leaves, exits and forks,
    a process holds what it is a member with and nothing else: exactly the
    client behind [_client] is open, exactly the listener behind
    [_method_server] is, at most one member is live and it is the one they
    belong to, and no client ever says goodbye twice. *)
Theorem session_owns_one {F} (p : process F) :
  reach p →
  (∀ i, client_open i (pr_log p) ↔ pr_client p = Some i) ∧
  (∀ j m, pr_servers p !! j = Some m → (ms_closed m = false ↔ pr_method_server p = Some j)) ∧
  (∀ k rd, live_member p k rd → pr_client p = Some (rd_client rd) ∧ pr_method_server p = rd_server rd) ∧
  (∀ k k' rd rd', live_member p k rd → live_member p k' rd' → k = k') ∧
  (∀ i, (leaves i (pr_log p) <= 1)%nat).
Proof. intros [] %reach_ok. auto. Qed.

(** Leaving gives everything back: the client has said goodbye and is not
    open, every listener is closed, every watch and native wait that was live
    is closed, the exit hook is gone, lookups are refused, and leaving again
    changes nothing. *)
Theorem leave_releases {F} (p : process F) (k : nat) (rd : registered) :
  reach p → live_member p k rd →
  let p' := (leave k p).2 in
  (leave k p).1 = Ok tt ∧
  ¬ client_open (rd_client rd) (pr_log p') ∧ leaves (rd_client rd) (pr_log p') = 1%nat ∧
  (∀ j m, pr_servers p' !! j = Some m → ms_closed m = true) ∧
  all_closed (w_live_watches (pr_w p)) (w_live_waits (pr_w p)) (pr_w p') ∧
  k ∉ pr_atexit p' ∧
  _require_client p' = (Raise (Exn (Exc RuntimeError)), p') ∧
  leave k p' = (Ok tt, p').
Proof.
  intros Hp%reach_ok Hlive p'. pose proof Hlive as (Hk & Hlf & Hpid).
  assert (leave k p = (Ok tt, leave_now k rd p)) as Hleave.
  { unfold leave. by rewrite Hk, Hpid, Z.eqb_refl, Hlf. }
  subst p'. rewrite Hleave. simpl.
  destruct (leave_live p k rd Hp Hlive) as (Ec & Es & _ & Ep & _ & _ & _ & Em & Ea & (calls & Hl) & _ & Hall).
  pose proof (leave_now_ok p k rd Hp Hlive) as Hp'. pose proof (so_once _ Hp' (rd_client rd)) as Honce.
  split_and!; [done| | |done|apply leave_closes| |by apply no_client_no_lookup|].
  - rewrite (so_client _ Hp'), Ec. done.
  - rewrite Hl in *. rewrite leaves_app in *. revert Honce. unfold leaves. simpl.
    rewrite Nat.eqb_refl. simpl. lia.
  - rewrite Ea. by intros [? _]%list_elem_of_filter.
  - unfold leave. rewrite Em, list_lookup_insert_eq by (by eapply lookup_lt_Some). simpl.
    by rewrite Ep, Hpid, Z.eqb_refl.
Qed.

(** The child of a fork is nobody: it has no client, so every lookup and
    every operation of an inherited member is refused, the inherited exit
    hooks do nothing, and a [join] of its own is not taken for a second one;
    the parent's client is abandoned in it, never told goodbye. *)
Theorem fork_child_is_nobody {F} (p : process F) (pid : Z) :
  reach p → Forall (λ rd, mb_pid (rd_member rd) ≠ pid) (pr_members p) →
  let c := fork_child pid p in
  _require_client c = (Raise (Exn (Exc RuntimeError)), c) ∧
  (∀ k, (k < length (pr_members c))%nat → leave k c = (Raise (Exn (Exc RuntimeError)), c)) ∧
  run_atexit c = c ∧
  (∀ i, ¬ client_open i (pr_log c)) ∧
  (∀ i, leaves i (pr_log c) = leaves i (pr_log p)) ∧
  (∀ j m, pr_servers c !! j = Some m → ms_closed m = true) ∧
  pr_client c = None.
Proof.
  intros Hp%reach_ok Hpids c. pose proof (fork_ok pid p Hp Hpids) as Hc. fold c in Hc.
  destruct (fork_fields pid p) as (Ec & Es & _ & Ep & _ & _ & _ & Em & _ & _ & (j0 & calls & Hl) & _).
  fold c in Ec, Es, Ep, Em, Hl.
  split_and!; [by apply no_client_no_lookup| | | | | |done].
  - intros k [rd Hk]%lookup_lt_is_Some_2. unfold leave. rewrite Hk, Ep. rewrite Em in Hk.
    rewrite Forall_lookup in Hpids. specialize (Hpids k rd Hk).
    by destruct (Z.eqb_spec pid (mb_pid (rd_member rd))).
  - apply exit_of_strangers. by rewrite Em, Ep.
  - intros i. rewrite (so_client _ Hc), Ec. done.
  - intros i. rewrite Hl, !leaves_app, leaves_server. destruct (pr_client p); unfold leaves; simpl; lia.
  - intros j m Hj. apply not_false_iff_true. rewrite (so_server _ Hc j m Hj), Es. done.
Qed.

(** [_after_fork] leaves the identity and the sequence of [_rpc] alone, so
    the next request id a forked child generates is the one its parent
    generates next: the two processes name different calls alike. *)
Theorem fork_shares_request_ids {F} (p : process F) (pid : Z) :
  (_request_id (pr_rpc (fork_child pid p))).1 = (_request_id (pr_rpc p)).1.
Proof. destruct (fork_fields pid p) as (_ & _ & _ & _ & _ & _ & -> & _). done. Qed.

(** A seat taken again at a later millisecond is held under a greater
    tenure, and within one millisecond the random bits decide: the tenure
    orders by time first and by those bits second, and fits the wire as long
    as the clock reads before the year 2527. *)
Theorem tenure_order (t1 t2 b1 b2 : Z) :
  0 ≤ b1 < 2 ^ 20 → 0 ≤ b2 < 2 ^ 20 → 0 ≤ t1 < 2 ^ 44 * 1000000 →
  (tenure t1 b1 < tenure t2 b2 ↔
   t1 / 1000000 < t2 / 1000000 ∨ t1 / 1000000 = t2 / 1000000 ∧ b1 < b2) ∧
  0 ≤ tenure t1 b1 < 2 ^ 64.
Proof.
  intros H1 H2 Ht. rewrite (tenure_sum t1 b1 H1), (tenure_sum t2 b2 H2).
  assert (0 ≤ t1 / 1000000 < 2 ^ 44).
  { split; [apply Z.div_pos; lia|]. apply Z.div_lt_upper_bound; lia. }
  lia.
Qed.

Lemma tenure_order_witness :
  tenure 1700000000000999999 1048575 < tenure 1700000000001000000 0 ∧
  0 ≤ tenure 1700000000000999999 1048575 < 2 ^ 64.
Proof.
  destruct (tenure_order 1700000000000999999 1700000000001000000 1048575 0) as [H1 H2]; [lia..|].
  split; [|exact H2]. apply H1. left. reflexivity.
Defined.

(** A process, what it serves, and a registry that answers the first beat. *)
Definition sample_args (policy : pystr) (slot : option Z) : join_args Z :=
  JoinArgs (u "engine") policy slot None None (Some (sample_attributes 3)) false None (round_int 30) None
    (CoalesceInt 50).

Definition sample_surroundings : surroundings :=
  Surroundings ∅ 99 5 1700000000000000000 (Some (u "10.0.0.7")) 4100 true.

Definition sample_rpc : rpc_state := RpcState [] 1 None false [].

Definition empty_world (script : list (list event)) : world :=
  World (new_shared [] None) fzero [] [] [] [] false (Heap [] []) script.

Definition sample_process (script : list (list event)) : process Z :=
  fresh_process (empty_world script) 7 sample_rpc.

(** Joined, then refused the seat. *)
Definition joined : process Z :=
  (join (sample_args (u "stateful") (Some 3)) sample_surroundings
     (sample_process [[]; [EvAck 0 (sample_ack 9 5 member_a)]])).2.

Definition turned_away : result halt nat * process Z :=
  join (sample_args (u "stateful") (Some 3)) sample_surroundings
    (sample_process [[]; [EvAck 0 sample_refusal]]).

Lemma join_all_or_nothing_witness :
  turned_away.1 = Raise (Exn (Exc SeatTaken)) ∧
  kept turned_away.2 = kept (with_left (sample_process [[]; [EvAck 0 sample_refusal]]) false) ∧
  pr_cleanup turned_away.2 = [] ∧
  ∃ log, pr_log turned_away.2 = [] ++ log ∧ released 0 0 log.
Proof.
  split; [vm_compute; reflexivity|].
  apply (join_all_or_nothing (sample_args (u "stateful") (Some 3)) sample_surroundings
    (sample_process [[]; [EvAck 0 sample_refusal]]) turned_away.2 (Raise (Exn (Exc SeatTaken)))).
  - reflexivity.
  - vm_compute. reflexivity.
Defined.

Definition joined_member : registered :=
  Registered (new_member (u "engine") (Some 3) (tenure 1700000000000000000 5) 3 7) 0 (Some 0%nat).

Lemma joined_reach : reach joined.
Proof.
  eapply reach_step; [apply (reach_fresh (empty_world [[]; [EvAck 0 (sample_ack 9 5 member_a)]]) 7 sample_rpc)|].
  eapply (step_join _ (sample_args (u "stateful") (Some 3)) sample_surroundings (Ok 0%nat)); [|done].
  vm_compute. reflexivity.
Qed.

Lemma joined_live : live_member joined 0 joined_member.
Proof. split_and!; vm_compute; reflexivity. Qed.

Lemma session_owns_one_witness :
  pr_client joined = Some 0%nat ∧
  (∀ i, client_open i (pr_log joined) ↔ pr_client joined = Some i) ∧
  (∀ i, (leaves i (pr_log joined) <= 1)%nat).
Proof.
  destruct (session_owns_one joined joined_reach) as (H1 & _ & _ & _ & H5).
  split; [vm_compute; reflexivity|]. split; [exact H1|exact H5].
Defined.

Lemma leave_releases_witness :
  let p' := (leave 0 joined).2 in
  (leave 0 joined).1 = Ok tt ∧ leaves 0 (pr_log p') = 1%nat ∧ leave 0 p' = (Ok tt, p').
Proof.
  destruct (leave_releases joined 0 joined_member joined_reach joined_live) as (H1 & _ & H3 & _ & _ & _ & _ & H8).
  split; [exact H1|]. split; [exact H3|exact H8].
Defined.

Lemma fork_child_is_nobody_witness :
  let c := fork_child 8 joined in
  leave 0 c = (Raise (Exn (Exc RuntimeError)), c) ∧ run_atexit c = c.
Proof.
  destruct (fork_child_is_nobody joined 8 joined_reach) as (_ & H2 & H3 & _).
  - replace (pr_members joined) with [joined_member] by (vm_compute; reflexivity).
    apply Forall_singleton. discriminate.
  - split; [|exact H3]. apply H2. vm_compute. apply le_n.
Defined.
