(* ===== verification/Bell.v ===== *)
(** * The bell of an event loop

    [_LoopBell] of [__init__.py]: a pipe the client's bell writes a byte to,
    and the futures of the coroutines that wait for it.  One bell serves many
    concurrent [wait()]s, each of which can be woken, time out or be
    cancelled at any moment between two steps of the loop, so the bell is a
    state machine: [bell_step] has one rule per callback the loop can run. *)

From S2P Require Import Prelude PyStr Errors RequestId.
From stdpp Require Import relations.

(** An [asyncio] future, and how a call of [wait()] ended. *)
Inductive fut_state := FPending | FDone | FCancelled.
Inductive wait_end := Returned | RaisedCancelled.

#[global] Instance fut_state_eq_dec : EqDecision fut_state.
Proof. solve_decision. Defined.

(** One call of [wait()]: its future, whether its task was asked to stop while
    the future was already complete, and how it ended. *)
Record wait_call := WaitCall {
  wc_fut : fut_state;
  wc_must_cancel : bool;
  wc_end : option wait_end
}.

(** [class _LoopBell]: the calls are numbered in the order they came, and a
    number names the call's future in [_waiters] and its timer in the loop. *)
Record bell := Bell {
  bl_client : Z;
  bl_calls : list wait_call;
  bl_waiters : list nat;
  bl_timers : list nat;
  bl_pipe : nat;
  bl_wake_fd : bool;
  bl_reader : bool;
  bl_fds_open : bool
}.

(** [_LoopBell.__init__] *)
Definition new_bell (client : Z) : bell := Bell client [] [] [] 0 true true true.

Definition with_calls (b : bell) (calls : list wait_call) (waiters timers : list nat) : bell :=
  Bell (bl_client b) calls waiters timers (bl_pipe b) (bl_wake_fd b) (bl_reader b) (bl_fds_open b).

(** [if not f.done(): f.set_result(None)] *)
Definition set_result (c : wait_call) : wait_call :=
  if decide (wc_fut c = FPending) then WaitCall FDone (wc_must_cancel c) (wc_end c) else c.

(** [_LoopBell._fire] *)
Definition _fire (b : bell) : bell :=
  Bell (bl_client b)
    (imap (λ i c, if bool_decide (i ∈ bl_waiters b) then set_result c else c) (bl_calls b))
    [] (bl_timers b) (bl_pipe b - 4096) (bl_wake_fd b) (bl_reader b) (bl_fds_open b).

(** [_LoopBell._expire], run by the timer of call [i]. *)
Definition _expire (b : bell) (i : nat) : bell :=
  with_calls b (alter set_result i (bl_calls b)) (bl_waiters b) (filter (λ j, j ≠ i) (bl_timers b)).

(** [_LoopBell.wait] up to the [await]. *)
Definition wait_enter (b : bell) : bell :=
  let i := length (bl_calls b) in
  with_calls b (bl_calls b ++ [WaitCall FPending false None]) (bl_waiters b ++ [i]) (bl_timers b ++ [i]).

(** [list.remove], a missing element ignored. *)
Fixpoint remove_first (i : nat) (l : list nat) : list nat :=
  match l with
  | [] => []
  | j :: l' => if decide (j = i) then l' else j :: remove_first i l'
  end.

(** [Task.cancel] of the task suspended in call [i]: the cancellation lands on
    the future when it is still pending, on the task's next step otherwise. *)
Definition cancel_call (c : wait_call) : wait_call :=
  match wc_end c with
  | Some _ => c
  | None => if decide (wc_fut c = FPending)
            then WaitCall FCancelled (wc_must_cancel c) None
            else WaitCall (wc_fut c) true None
  end.

Definition task_cancel (b : bell) (i : nat) : bell :=
  with_calls b (alter cancel_call i (bl_calls b)) (bl_waiters b) (bl_timers b).

(** The rest of [wait()] once its future is complete: the [await] returns or
    raises, and [finally] runs either way. *)
Definition end_call (c : wait_call) : wait_call :=
  WaitCall (wc_fut c) (wc_must_cancel c)
    (Some (if wc_must_cancel c || bool_decide (wc_fut c = FCancelled)
           then RaisedCancelled else Returned)).

Definition wait_exit (b : bell) (i : nat) : bell :=
  with_calls b (alter end_call i (bl_calls b)) (remove_first i (bl_waiters b))
    (filter (λ j, j ≠ i) (bl_timers b)).

(** [Shared::ring] reaches the bell while its descriptor is registered. *)
Definition ring_bell (b : bell) : bell :=
  Bell (bl_client b) (bl_calls b) (bl_waiters b) (bl_timers b)
    (if bl_wake_fd b then S (bl_pipe b) else bl_pipe b) (bl_wake_fd b) (bl_reader b) (bl_fds_open b).

(** [_LoopBell.close] *)
Definition close_bell (loop_closed : bool) (b : bell) : bell :=
  let b1 := Bell (bl_client b) (bl_calls b) (bl_waiters b) (bl_timers b) (bl_pipe b) false
              (bl_reader b) (bl_fds_open b) in
  let b2 := if loop_closed then b1 else _fire b1 in
  Bell (bl_client b2) (bl_calls b2) [] (bl_timers b2) (bl_pipe b2) false
    (if loop_closed then bl_reader b2 else false) false.

(** What the loop, the tasks on it and the client can do to an open loop's
    bell. *)
Inductive bell_step : bell → bell → Prop :=
| step_wait b : bl_fds_open b = true → bell_step b (wait_enter b)
| step_ring b : bell_step b (ring_bell b)
| step_fire b : bl_reader b = true → (0 < bl_pipe b)%nat → bell_step b (_fire b)
| step_expire b i : i ∈ bl_timers b → bell_step b (_expire b i)
| step_cancel b i : is_Some (bl_calls b !! i) → bell_step b (task_cancel b i)
| step_exit b i c :
    bl_calls b !! i = Some c → wc_fut c ≠ FPending → wc_end c = None →
    bell_step b (wait_exit b i)
| step_close b : bl_fds_open b = true → bell_step b (close_bell false b).

(** ** [_loop_bell] *)

(** The bell of the running loop, the cache of bells, and the bells closed on
    the way. *)
Definition _loop_bell (current : option Z) (client : Z) (st : loop_status) (loop : event_loop)
    (bells : list (Z * (Z * bell))) : res (bell * list (Z * (Z * bell)) * list bell) :=
  if bool_decide (current = Some client)
  then Ok (per_loop st loop (λ b, bool_decide (bl_client b = client)) (new_bell client) bells)
  else Raise (Exc RuntimeError).

(** ** The invariant *)

Definition suspended (b : bell) (i : nat) : Prop :=
  ∃ c, bl_calls b !! i = Some c ∧ wc_end c = None.

(** The list of waiters and the timers hold suspended calls only, and every
    call whose future is pending is in both. *)
Record bell_ok (b : bell) : Prop := {
  bo_waiters : ∀ i, i ∈ bl_waiters b → suspended b i;
  bo_timers : ∀ i, i ∈ bl_timers b → suspended b i;
  bo_nodup : NoDup (bl_waiters b);
  bo_pending : ∀ i c, bl_calls b !! i = Some c → wc_fut c = FPending →
    i ∈ bl_waiters b ∧ i ∈ bl_timers b ∧ wc_end c = None
}.

Lemma remove_first_elem i j l : NoDup l → j ∈ remove_first i l ↔ j ∈ l ∧ j ≠ i.
Proof.
  induction 1 as [|k l Hk Hl IH]; simpl; [set_solver|].
  case_decide as Hd; rewrite ?elem_of_cons, ?IH; set_solver.
Qed.

Lemma remove_first_NoDup i l : NoDup l → NoDup (remove_first i l).
Proof.
  induction 1 as [|k l Hk Hl IH]; simpl; [constructor|]. case_decide; [done|].
  constructor; [|done]. rewrite remove_first_elem by done. tauto.
Qed.

Lemma set_result_end c : wc_end (set_result c) = wc_end c.
Proof. unfold set_result. by case_decide. Qed.

Lemma set_result_fut c : wc_fut (set_result c) ≠ FPending.
Proof. unfold set_result. by case_decide. Qed.

(** The calls after a change to one of them that keeps it suspended. *)
Lemma suspended_alter b f i j calls :
  calls = alter f i (bl_calls b) → (∀ c, wc_end c = None → wc_end (f c) = None) →
  suspended b j → ∃ c, calls !! j = Some c ∧ wc_end c = None.
Proof.
  intros -> Hf (c & Hc & He). destruct (decide (j = i)) as [->|Hne].
  - exists (f c). rewrite list_lookup_alter_eq, Hc. auto.
  - exists c. by rewrite list_lookup_alter_ne.
Qed.

Lemma fire_suspended b i : suspended b i → suspended (_fire b) i.
Proof.
  intros (c & Hc & He). unfold suspended. simpl. rewrite list_lookup_imap, Hc. simpl.
  eexists. split; [done|]. case_bool_decide; [by rewrite set_result_end|done].
Qed.

Lemma fire_complete b i c :
  bell_ok b → bl_calls (_fire b) !! i = Some c → wc_fut c ≠ FPending.
Proof.
  intros Hb. simpl. rewrite list_lookup_imap. destruct (bl_calls b !! i) as [c0|] eqn:E; [|done].
  intros [= <-]. case_bool_decide as Hi; [apply set_result_fut|].
  intros Hp. by destruct (bo_pending b Hb i c0 E Hp) as [? _].
Qed.

Lemma fire_ok b : bell_ok b → bell_ok (_fire b).
Proof.
  intros Hb. split; simpl.
  - intros i Hi. by apply not_elem_of_nil in Hi.
  - intros i Hi. by apply fire_suspended, bo_timers.
  - constructor.
  - intros i c Hc Hp. by destruct (fire_complete b i c Hb Hc).
Qed.

Lemma wait_enter_ok b : bell_ok b → bell_ok (wait_enter b).
Proof.
  intros [Hw Ht Hn Hp].
  assert (∀ i, suspended b i ∨ i = length (bl_calls b) → suspended (wait_enter b) i) as Hs.
  { intros i [(c & Hc & He)| ->].
    - exists c. simpl. rewrite lookup_app_l; [done|]. by apply lookup_lt_Some in Hc.
    - eexists. simpl. rewrite list_lookup_middle by done. done. }
  split; simpl.
  - intros i [Hi|Hi%list_elem_of_singleton]%elem_of_app; auto.
  - intros i [Hi|Hi%list_elem_of_singleton]%elem_of_app; auto.
  - apply NoDup_app. split_and!; [done| |apply NoDup_singleton].
    intros i Hi ->%list_elem_of_singleton. destruct (Hw _ Hi) as (c & Hc & _).
    apply lookup_lt_Some in Hc. lia.
  - intros i c [Hc|[Hlen Hc]]%lookup_app_Some Hf.
    + destruct (Hp i c Hc Hf) as (? & ? & ?). set_solver.
    + apply list_lookup_singleton_Some in Hc as [Hi <-].
      assert (i = length (bl_calls b)) as -> by lia. set_solver.
Qed.

(** A change to call [i] that neither ends it nor makes its future pending. *)
Lemma alter_ok b f i timers :
  bell_ok b → (∀ c, wc_end c = None → wc_end (f c) = None) →
  (∀ c, wc_fut (f c) = FPending → f c = c) →
  (∀ j, j ∈ timers → j ∈ bl_timers b) →
  (∀ j, j ∈ bl_timers b → j ∉ timers → j = i ∧ ∀ c, wc_fut (f c) ≠ FPending) →
  bell_ok (with_calls b (alter f i (bl_calls b)) (bl_waiters b) timers).
Proof.
  intros [Hw Ht Hn Hp] He Hf Hsub Hgone. split; simpl; [..|done|].
  - intros j Hj. eapply suspended_alter; [done|done|by apply Hw].
  - intros j Hj. eapply suspended_alter; [done|done|by apply Ht, Hsub].
  - intros j c Hc Hpend.
    assert (∃ c0, bl_calls b !! j = Some c0 ∧ wc_fut c0 = FPending ∧ wc_end c0 = wc_end c ∧
                  (j = i → c = f c0)) as (c0 & Hc0 & Hp0 & He0 & Hji).
    { destruct (decide (j = i)) as [->|Hne].
      - rewrite list_lookup_alter_eq in Hc. destruct (bl_calls b !! i) as [c0|]; [|done].
        simplify_eq/=. pose proof (Hf c0 Hpend) as Hfc. exists c0.
        split_and!; [done|by rewrite <-Hfc|by rewrite Hfc|done].
      - rewrite list_lookup_alter_ne in Hc by done. exists c. split_and!; done. }
    destruct (Hp j c0 Hc0 Hp0) as (H1 & H2 & H3). split_and!; [done| |congruence].
    destruct (decide (j ∈ timers)); [done|]. destruct (Hgone j H2) as [-> Hno]; [done|].
    rewrite (Hji eq_refl) in Hpend. by destruct (Hno c0).
Qed.

Lemma expire_ok b i : bell_ok b → bell_ok (_expire b i).
Proof.
  intros Hb. apply alter_ok; [done|..].
  - intros c. by rewrite set_result_end.
  - intros c Hc. by destruct (set_result_fut c).
  - intros j. rewrite list_elem_of_filter. tauto.
  - intros j Hj Hn. rewrite list_elem_of_filter in Hn. split; [|apply set_result_fut].
    destruct (decide (j = i)); tauto.
Qed.

Lemma cancel_ok b i : bell_ok b → bell_ok (task_cancel b i).
Proof.
  intros Hb. apply alter_ok; [done|..|done|done].
  - intros c Hc. unfold cancel_call. rewrite Hc. by case_decide.
  - intros c. unfold cancel_call. destruct (wc_end c); [done|]. case_decide; [done|]. by simpl.
Qed.

Lemma wait_exit_ok b i c :
  bell_ok b → bl_calls b !! i = Some c → wc_fut c ≠ FPending → bell_ok (wait_exit b i).
Proof.
  intros [Hw Ht Hn Hp] Hc Hf.
  assert (∀ j, suspended b j → j ≠ i → suspended (wait_exit b i) j) as Hs.
  { intros j (c' & Hc' & He) Hne. exists c'. simpl. by rewrite list_lookup_alter_ne. }
  split; simpl.
  - intros j [Hj Hne]%remove_first_elem; auto.
  - intros j [Hne Hj]%list_elem_of_filter. auto.
  - by apply remove_first_NoDup.
  - intros j c' Hc' Hp'. destruct (decide (j = i)) as [->|Hne].
    + rewrite list_lookup_alter_eq, Hc in Hc'. simplify_eq/=.
    + rewrite list_lookup_alter_ne in Hc' by done. destruct (Hp j c' Hc' Hp') as (? & ? & ?).
      rewrite remove_first_elem, list_elem_of_filter by done. done.
Qed.

Lemma close_ok b : bell_ok b → bell_ok (close_bell false b).
Proof.
  intros Hb. assert (bell_ok (Bell (bl_client b) (bl_calls b) (bl_waiters b) (bl_timers b) (bl_pipe b)
    false (bl_reader b) (bl_fds_open b))) as Hb1 by (by destruct Hb; split).
  destruct (fire_ok _ Hb1); by split.
Qed.

Lemma bell_step_ok b b' : bell_ok b → bell_step b b' → bell_ok b'.
Proof.
  intros Hb Hs. destruct Hs; eauto using wait_enter_ok, fire_ok, expire_ok, cancel_ok, wait_exit_ok, close_ok.
  by destruct Hb; split.
Qed.

Lemma new_bell_ok client : bell_ok (new_bell client).
Proof.
  split; simpl; [..|constructor|done]; intros i Hi; by apply not_elem_of_nil in Hi.
Qed.

Lemma bell_steps_ok b b' : rtc bell_step b b' → bell_ok b → bell_ok b'.
Proof. induction 1; eauto using bell_step_ok. Qed.

(** ** A cancellation is never turned into an answer *)

Definition stopping (c : wait_call) : Prop :=
  (wc_end c = None ∧ (wc_fut c = FCancelled ∨ wc_must_cancel c = true)) ∨
  wc_end c = Some RaisedCancelled.

Definition stops (b : bell) (i : nat) : Prop := ∃ c, bl_calls b !! i = Some c ∧ stopping c.

Lemma set_result_stopping c : stopping c → stopping (set_result c).
Proof.
  unfold set_result. case_decide as Hd; [|done]. unfold stopping. simpl. rewrite Hd.
  intros [[He [?|Hm]]|He]; [done|left; auto|by right].
Qed.

Lemma cancel_call_stopping c : stopping c → stopping (cancel_call c).
Proof.
  unfold cancel_call, stopping. intros [[He Hs]|He]; rewrite He; [|by right].
  case_decide; simpl; auto.
Qed.

Lemma end_call_stopping c : wc_end c = None → stopping c → stopping (end_call c).
Proof.
  intros He [[_ Hs]|Hs]; [|congruence]. right. unfold end_call. simpl. f_equal.
  destruct Hs as [-> | ->]; [rewrite bool_decide_true by done|]; by rewrite ?orb_true_r.
Qed.

Lemma stops_alter b f i j :
  (∀ c, bl_calls b !! j = Some c → stopping c → stopping (f c)) → stops b i →
  ∃ c, alter f j (bl_calls b) !! i = Some c ∧ stopping c.
Proof.
  intros Hf (c & Hc & Hs). destruct (decide (i = j)) as [->|Hne].
  - exists (f c). rewrite list_lookup_alter_eq, Hc. auto.
  - exists c. by rewrite list_lookup_alter_ne.
Qed.

Lemma fire_stops b i : stops b i → stops (_fire b) i.
Proof.
  intros (c & Hc & Hs). unfold stops. simpl. rewrite list_lookup_imap, Hc. simpl. eexists.
  split; [done|]. case_bool_decide; auto using set_result_stopping.
Qed.

Lemma stops_step b b' i : bell_step b b' → stops b i → stops b' i.
Proof.
  intros Hs Hi. destruct Hs as [b Ho|b|b Hr Hp|b j Hj|b j Hj|b j c Hc Hf He|b Ho].
  - destruct Hi as (c & Hc & Hst). exists c. simpl. split; [|done].
    rewrite lookup_app_l; [done|]. by apply lookup_lt_Some in Hc.
  - done.
  - by apply fire_stops.
  - apply stops_alter; [|done]. intros. by apply set_result_stopping.
  - apply stops_alter; [|done]. intros. by apply cancel_call_stopping.
  - apply stops_alter; [|done]. intros c' Hc' Hst. apply end_call_stopping; [congruence|done].
  - by apply (fire_stops (Bell (bl_client b) (bl_calls b) (bl_waiters b) (bl_timers b) (bl_pipe b)
      false (bl_reader b) (bl_fds_open b))).
Qed.

Lemma stops_steps b b' i : rtc bell_step b b' → stops b i → stops b' i.
Proof. induction 1; eauto using stops_step. Qed.

Lemma cancel_stops b i : suspended b i → stops (task_cancel b i) i.
Proof.
  intros (c & Hc & He). exists (cancel_call c). simpl. rewrite list_lookup_alter_eq, Hc.
  split; [done|]. unfold cancel_call. rewrite He. case_decide; left; simpl; auto.
Qed.

(** ** Properties *)

(** The bell loses nobody and keeps nobody: however waits, timeouts,
    cancellations and rings interleave, firing the bell completes every call
    that is still waiting, and a call that has ended is in neither the list
    of waiters nor the loop's timers. *)
Theorem bell_wakes_every_waiter (client : Z) (b : bell) :
  rtc bell_step (new_bell client) b →
  (∀ i c, bl_calls (_fire b) !! i = Some c → wc_fut c ≠ FPending) ∧
  (∀ i c, bl_calls b !! i = Some c → wc_end c ≠ None → i ∉ bl_waiters b ∧ i ∉ bl_timers b).
Proof.
  intros Hr. assert (bell_ok b) as Hb by (eapply bell_steps_ok; [done|apply new_bell_ok]).
  split; [by intros; eapply fire_complete|]. intros i c Hc He. split; intros Hi.
  - destruct (bo_waiters b Hb i Hi) as (c' & ? & ?). congruence.
  - destruct (bo_timers b Hb i Hi) as (c' & ? & ?). congruence.
Qed.

Definition sample_bell : bell := wait_exit (_expire (wait_enter (wait_enter (new_bell 1))) 0) 0.

Lemma bell_wakes_every_waiter_witness :
  (∀ i c, bl_calls (_fire sample_bell) !! i = Some c → wc_fut c ≠ FPending) ∧
  (∀ i c, bl_calls sample_bell !! i = Some c → wc_end c ≠ None →
     i ∉ bl_waiters sample_bell ∧ i ∉ bl_timers sample_bell).
Proof.
  apply (bell_wakes_every_waiter 1).
  eapply rtc_l; [by apply step_wait|]. eapply rtc_l; [by apply step_wait|].
  eapply rtc_l; [by apply (step_expire _ 0); left|].
  eapply rtc_l; [by eapply (step_exit _ 0)|]. apply rtc_refl.
Defined.

(** Cancelling a wait always cancels it: once a suspended [wait()] has
    been asked to stop, even in the same turn of the loop as the bell or its
    timeout, it can only end by raising the cancellation, never by
    returning. *)
Theorem bell_cancel_not_swallowed (b b' : bell) (i : nat) :
  suspended b i → rtc bell_step (task_cancel b i) b' →
  ∃ c, bl_calls b' !! i = Some c ∧ (wc_end c = None ∨ wc_end c = Some RaisedCancelled).
Proof.
  intros Hs Hr. destruct (stops_steps _ _ i Hr (cancel_stops b i Hs)) as (c & Hc & [[? _]|?]);
    exists c; auto.
Qed.

(** The bell rings, the timer of the same call fires, and only then the task
    is cancelled. *)
Definition rung_then_cancelled : bell := _fire (ring_bell (wait_enter (new_bell 1))).

Lemma bell_cancel_not_swallowed_witness :
  ∃ c, bl_calls (wait_exit (task_cancel rung_then_cancelled 0) 0) !! 0%nat = Some c ∧
       (wc_end c = None ∨ wc_end c = Some RaisedCancelled).
Proof.
  apply (bell_cancel_not_swallowed rung_then_cancelled).
  - eexists. split; reflexivity.
  - eapply rtc_l; [by eapply (step_exit _ 0)|]. apply rtc_refl.
Defined.

(** A membership that has left has no bell. *)
Lemma loop_bell_refused current client st loop bells :
  current ≠ Some client → _loop_bell current client st loop bells = Raise (Exc RuntimeError).
Proof. intros H. unfold _loop_bell. by rewrite bool_decide_false. Qed.
