(* ===== verification/LineCount.v ===== *)
(** * Counting lines

    [lines.py]: how many lines of each source are code, comment and blank.
    The tree is a function from a path to its text, if there is one. *)

From S2P Require Import Prelude PyStr Text.

Local Open Scope nat_scope.

(** [(code, comment, blank)], and whether a docstring is open. *)
Record counts := Counts { ct_code : nat; ct_comment : nat; ct_blank : nat; ct_in_doc : bool }.

Definition no_lines : counts := Counts 0 0 0 false.

Definition code_line (n : counts) : counts := Counts (S (ct_code n)) (ct_comment n) (ct_blank n) (ct_in_doc n).
Definition blank_line (n : counts) : counts := Counts (ct_code n) (ct_comment n) (S (ct_blank n)) (ct_in_doc n).
Definition comment_line (n : counts) (in_doc : bool) : counts :=
  Counts (ct_code n) (S (ct_comment n)) (ct_blank n) in_doc.

Definition triple : pystr := [34; 34; 34]%N.

(** One iteration of the loop in [split]. *)
Definition split_line (rust : bool) (n : counts) (line : pystr) : counts :=
  let t := strip line in
  if bool_decide (t = []) then blank_line n
  else if rust then if startswith (u "//") t then comment_line n (ct_in_doc n) else code_line n
  else if startswith (u "#") t then comment_line n (ct_in_doc n)
  else let quotes := str_count triple t in
       if ct_in_doc n then comment_line n (Nat.even quotes)
       else if startswith triple t || startswith (u "r" ++ triple) t || (0 <? quotes)
       then comment_line n (Nat.odd quotes)
       else code_line n.

(** [split] on a path and the text behind it. *)
Definition split (path text : pystr) : nat * nat * nat :=
  let n := fold_left (split_line (endswith (u ".rs") path)) (splitlines text) no_lines in
  (ct_code n, ct_comment n, ct_blank n).

(** One file of [tally]: [None] is the exception of reading a file that is
    not there. *)
Definition tally_file (read : pystr → option pystr) (acc : option (nat * nat * nat)) (rel : pystr) :
    option (nat * nat * nat) :=
  '(c, m, b) ← acc; text ← read rel;
  let '(c', m', b') := split rel text in Some (c + c', m + m', b + b').

(** [tally] *)
Definition tally (read : pystr → option pystr) (paths : list pystr) : option (nat * nat * nat) :=
  fold_left (tally_file read) paths (Some (0, 0, 0)).

(** [SOURCE] *)
Definition SOURCE : list pystr :=
  [u "crates/tinyray-proto/src/lib.rs"; u "crates/tinyray-registry/src/lib.rs"; u "crates/tinyray-registry/src/main.rs";
   u "crates/tinyray-registry/src/server.rs"; u "crates/tinyray-registry/src/state.rs";
   u "crates/tinyray-client/src/lib.rs"; u "crates/tinyray-client/src/beat.rs"; u "python/tinyray/__init__.py";
   u "python/tinyray/_errors.py"; u "python/tinyray/_rpc.py"; u "python/tinyray/_serve.py"; u "python/tinyray/registry.py"].

(** The rows [main] prints: Rust, Python, all sources, the tests. *)
Definition main (read : pystr → option pystr) (tests : list pystr) : option (list (nat * nat * nat)) :=
  rust ← tally read (List.filter (endswith (u ".rs")) SOURCE);
  python ← tally read (List.filter (endswith (u ".py")) SOURCE);
  all ← tally read SOURCE;
  t ← tally read tests;
  Some [rust; python; all; t].

(** ** Theorems *)

Definition total (n : nat * nat * nat) : nat := n.1.1 + n.1.2 + n.2.

(** The lines of a file, none if it is not there. *)
Definition lines_of (read : pystr → option pystr) (rel : pystr) : nat :=
  match read rel with Some text => length (splitlines text) | None => 0 end.

Lemma split_line_total rust n line :
  ct_code (split_line rust n line) + ct_comment (split_line rust n line) + ct_blank (split_line rust n line) =
  S (ct_code n + ct_comment n + ct_blank n).
Proof. unfold split_line. repeat case_match; simpl; lia. Qed.

(** Every line is counted once. *)
Lemma split_total path text : total (split path text) = length (splitlines text).
Proof.
  unfold split, total. simpl. generalize (endswith (u ".rs") path). intros rust.
  assert (∀ l n, ct_code (fold_left (split_line rust) l n) + ct_comment (fold_left (split_line rust) l n) +
    ct_blank (fold_left (split_line rust) l n) = ct_code n + ct_comment n + ct_blank n + length l) as H.
  { induction l as [|x l IH]; intros n; simpl; [lia|]. rewrite IH, split_line_total. lia. }
  apply (H _ no_lines).
Qed.

Lemma tally_none read paths : fold_left (tally_file read) paths None = None.
Proof. by induction paths. Qed.

Lemma tally_from read paths acc n :
  fold_left (tally_file read) paths (Some acc) = Some n →
  Forall (λ rel, is_Some (read rel)) paths ∧ total n = total acc + sum_list_with (lines_of read) paths.
Proof.
  revert acc. induction paths as [|rel paths IH]; intros acc; cbn [fold_left sum_list_with].
  { intros [= <-]. split; [done|lia]. }
  destruct acc as [[c m] b]. unfold tally_file at 2. cbn [mbind option_bind]. unfold lines_of at 1.
  destruct (read rel) as [text|] eqn:Hr; cbn [mbind option_bind]; [|by rewrite tally_none].
  rewrite <-(split_total rel text). destruct (split rel text) as [[c' m'] b'].
  intros [Hf Hn]%IH. split; [apply Forall_cons; split; [by eexists|done]|].
  rewrite Hn. unfold total. simpl. lia.
Qed.

(** What [main] prints as the total of all sources is the number of lines
    those files have, and the Rust and Python rows add up to it -- if it
    prints anything: it needs every file it names to be there. *)
Theorem rows_add_up read tests rs :
  main read tests = Some rs →
  ∃ rust python all t, rs = [rust; python; all; t] ∧
    total all = sum_list_with (lines_of read) SOURCE ∧ total rust + total python = total all ∧
    ∀ rel, rel ∈ SOURCE → is_Some (read rel).
Proof.
  unfold main, tally. intros H.
  destruct (fold_left _ (List.filter (endswith (u ".rs")) SOURCE) _) as [rust|] eqn:H1; [|done].
  destruct (fold_left _ (List.filter (endswith (u ".py")) SOURCE) _) as [python|] eqn:H2; [|done].
  destruct (fold_left _ SOURCE _) as [all|] eqn:H3; [|done].
  destruct (fold_left _ tests _) as [t|] eqn:H4; [|done]. simpl in H. injection H as <-.
  apply tally_from in H1 as [_ H1]. apply tally_from in H2 as [_ H2]. apply tally_from in H3 as [Hf H3].
  exists rust, python, all, t. split_and!; [done|done| |by apply Forall_forall].
  rewrite H1, H2, H3. simpl. lia.
Qed.
