(* ===== verification/MutationCheck.v ===== *)
(** * The mutation check

    [mutation_check.py]: patch one line of the sources at a time, build if the
    line is Rust, run the test that should notice, put the file back.  The
    state is the disk with the second each file was written in, the bytecode
    the interpreter has cached next to its sources, the sources the native
    module was last built from, and what was run and reported.  Which test
    fails on which sources, which modules it loads and which sources compile
    are parameters: the check is right or wrong whatever they are. *)

From S2P Require Import Prelude PyStr PyFloat Text Errors.

Local Open Scope Z_scope.

(** ** Data *)

(** An entry of [MUTANTS]. *)
Record mutant := Mutant {
  mu_label : pystr;
  mu_rel : pystr;
  mu_find : pystr;
  mu_repl : pystr;
  mu_test : pystr
}.

(** A file: its text and the second it was written in. *)
Record file := File { fi_text : pystr; fi_mtime : Z }.

(** A [.pyc]: the second and size of the source it was compiled from, which
    it is recognised by, and that source. *)
Record bytecode := Bytecode { bc_mtime : Z; bc_size : Z; bc_text : pystr }.

(** A run of the test suite: the test, the texts on disk, the texts of the
    modules as the interpreter loaded them, the sources the native module was
    built from. *)
Record call := Call {
  ca_test : pystr;
  ca_disk : gmap pystr pystr;
  ca_loaded : gmap pystr pystr;
  ca_native : gmap pystr pystr
}.

(** What [main] says. *)
Inductive broken :=
| BadAnchor (label rel : pystr) (n : nat)
| NoTest (label test : pystr)
| NoCrate (name : pystr)
| NoSuite
| NoMetadata.

Inductive line :=
| LCount (n : nat)
| LBroken (b : broken)
| LNotCompiled (label : pystr)
| LCaught (label : pystr)
| LMissed (label : pystr)
| LApplied (b : bool)
| LMissedAgain (label : pystr)
| LTotal (caught n : nat).

Record workspace := Workspace {
  wk_files : gmap pystr file;
  wk_pyc : gmap pystr bytecode;
  wk_native : gmap pystr pystr;
  wk_tick : nat;
  wk_calls : list call;
  wk_out : list line
}.

Definition check := M workspace exn.

(** The texts on disk. *)
Definition texts (w : workspace) : gmap pystr pystr := fi_text <$> wk_files w.

Definition say (l : line) : check unit :=
  modify (λ w, Workspace (wk_files w) (wk_pyc w) (wk_native w) (wk_tick w) (wk_calls w) (wk_out w ++ [l])).

(** [path.parent] *)
Definition parent (rel : pystr) : pystr := match rsplit_once 47%N rel with Some (d, _) => d | None => [] end.

(** [for stale in (path.parent / "__pycache__").glob("*.pyc"): stale.unlink()] *)
Definition clear_pyc (rel : pystr) (w : workspace) : workspace :=
  Workspace (wk_files w) (filter (λ kv, parent kv.1 ≠ parent rel) (wk_pyc w)) (wk_native w) (wk_tick w)
    (wk_calls w) (wk_out w).

(** The text the interpreter runs for a module on disk: the cached bytecode
    if its source was written in the same second and has the same size. *)
Definition load (w : workspace) (rel : pystr) : option pystr :=
  f ← wk_files w !! rel;
  Some match wk_pyc w !! rel with
       | Some b => if (bc_mtime b =? fi_mtime f) && (bc_size b =? byte_len (fi_text f)) then bc_text b else fi_text f
       | None => fi_text f
       end.

Definition cargo (test : pystr) : bool := startswith (u "cargo:") test.

(** [test.split(":", 2)[1]] *)
Definition crate_of (test : pystr) : pystr := default [] (split_max 58%N 2 test !! 1%nat).

Section Check.
(** The second of each write, which modules a test loads, whether sources
    compile, how a run ends; what [pytest --collect-only] prints and
    [cargo metadata] lists. *)
Context (second : nat → Z) (imports : pystr → list pystr) (compiles : gmap pystr pystr → bool)
  (verdict : call → res Z) (collected : pystr) (crates : option (list pystr)).

(** [path.read_text()] *)
Definition read_text (rel : pystr) : check pystr :=
  w ← get; match wk_files w !! rel with Some f => mret (fi_text f) | None => raise (Exc OSError) end.

(** [path.write_text(text)] *)
Definition write_file (rel text : pystr) (w : workspace) : workspace :=
  Workspace (<[rel := File text (second (wk_tick w))]> (wk_files w)) (wk_pyc w) (wk_native w) (S (wk_tick w))
    (wk_calls w) (wk_out w).

(** [build] *)
Definition build (w : workspace) : bool * workspace :=
  if compiles (texts w)
  then (true, Workspace (wk_files w) (wk_pyc w) (texts w) (wk_tick w) (wk_calls w) (wk_out w))
  else (false, w).

Definition build_now : check bool := λ w, let '(b, w') := build w in (Ok b, w').

(** A run of [pytest] loads the modules, and caches what it compiled; a run
    of [cargo test] compiles what is on disk. *)
Definition start_test (test : pystr) (w : workspace) : call * workspace :=
  let ms := if cargo test then [] else imports test in
  let loaded := omap (λ m, (λ t, (m, t)) <$> load w m) ms in
  let c := Call test (texts w) (list_to_map loaded) (if cargo test then texts w else wk_native w) in
  (c, Workspace (wk_files w)
        (fold_left (λ pyc '(m, t), match wk_files w !! m with
                                   | Some f => <[m := Bytecode (fi_mtime f) (byte_len (fi_text f)) t]> pyc
                                   | None => pyc
                                   end) loaded (wk_pyc w))
        (wk_native w) (wk_tick w) (wk_calls w ++ [c]) (wk_out w)).

(** [subprocess.run([...test...]).returncode] *)
Definition run_test (test : pystr) : check Z := λ w, let '(c, w') := start_test test w in (verdict c, w').

(** ** Before anything is patched *)

(** [check_anchors] *)
Fixpoint check_anchors (ms : list mutant) : check (list broken) :=
  match ms with
  | [] => mret []
  | m :: ms' =>
      text ← read_text (mu_rel m);
      let n := str_count (mu_find m) text in
      rest ← check_anchors ms';
      mret (if (n =? 1)%nat then rest else BadAnchor (mu_label m) (mu_rel m) n :: rest)
  end.

(** [ids] of [check_selectors] *)
Definition collected_ids : list pystr := map strip (List.filter (contains (u "::")) (splitlines collected)).

(** Whether a selector picks something: a test, a test with cases, a file. *)
Definition selects (test : pystr) : bool :=
  bool_decide (test ∈ collected_ids) || existsb (startswith (test ++ u "[")) collected_ids ||
  existsb (startswith (test ++ u "::")) collected_ids.

(** [check_cargo_packages] *)
Definition check_cargo_packages (ms : list mutant) : list broken :=
  let wanted := remove_dups (map crate_of (List.filter cargo (map mu_test ms))) in
  match wanted with
  | [] => []
  | _ => match crates with
         | None => [NoMetadata]
         | Some have => map NoCrate (sorted_strs (List.filter (λ c, negb (bool_decide (c ∈ have))) wanted))
         end
  end.

(** [check_selectors] *)
Definition check_selectors (ms : list mutant) : list broken :=
  match List.filter (λ m, negb (cargo (mu_test m))) ms with
  | [] => []
  | named =>
      match collected_ids with
      | [] => [NoSuite]
      | _ => map (λ m, NoTest (mu_label m) (mu_test m)) (List.filter (λ m, negb (selects (mu_test m))) named) ++
             check_cargo_packages ms
      end
  end.

(** ** One mutant *)

Definition rust (rel : pystr) : bool := endswith (u ".rs") rel.

(** The test, and what is said of it: whether the mutant was missed. *)
Definition run_mutant (m : mutant) : check bool :=
  rc ← run_test (mu_test m);
  if negb (rc =? 0) then _ ← say (LCaught (mu_label m)); mret false
  else
    _ ← say (LMissed (mu_label m));
    now ← read_text (mu_rel m);
    _ ← say (LApplied (negb (contains (mu_find m) now) && (bool_decide (mu_repl m = []) || contains (mu_repl m) now)));
    mret true.

(** The body of the [try]. *)
Definition try_mutant (m : mutant) : check bool :=
  built ← (if rust (mu_rel m) then build_now else mret true : check bool);
  if negb built then _ ← say (LNotCompiled (mu_label m)); mret false else run_mutant m.

(** The [finally]: the file back, and the native module with it. *)
Definition restore (m : mutant) (original : pystr) (w : workspace) : workspace :=
  let w1 := write_file (mu_rel m) original w in
  if rust (mu_rel m) then (build w1).2 else w1.

(** One iteration of the loop of [main]. *)
Definition one_mutant (m : mutant) : check bool :=
  original ← read_text (mu_rel m);
  _ ← modify (λ w, clear_pyc (mu_rel m) (write_file (mu_rel m) (replace_once (mu_find m) (mu_repl m) original) w));
  finally (try_mutant m) (restore m original).

(** The loop: the labels of the mutants that were missed. *)
Fixpoint all_mutants (ms : list mutant) (bad : list pystr) : check (list pystr) :=
  match ms with
  | [] => mret bad
  | m :: ms' => missed ← one_mutant m; all_mutants ms' (if (missed : bool) then bad ++ [mu_label m] else bad)
  end.

Fixpoint say_all (ls : list line) : check unit :=
  match ls with [] => mret tt | l :: ls' => _ ← say l; say_all ls' end.

(** [main] *)
Definition main (argv : list pystr) (MUTANTS : list mutant) : check Z :=
  if bool_decide (u "--count" ∈ argv) then _ ← say (LCount (length MUTANTS)); mret 0
  else
    anchors ← check_anchors MUTANTS;
    let ambiguous := anchors ++ check_selectors MUTANTS in
    _ ← say_all (map LBroken ambiguous);
    if negb (bool_decide (ambiguous = [])) then mret 1
    else
      bad ← all_mutants MUTANTS [];
      _ ← say_all (map LMissedAgain bad);
      _ ← say (LTotal (length MUTANTS - length bad) (length MUTANTS));
      mret (if bool_decide (bad = []) then 0 else 1).

(** ** Theorems *)

(** The sources with the one mutant in them. *)
Definition patched (d : gmap pystr pystr) (m : mutant) : gmap pystr pystr :=
  match d !! mu_rel m with
  | Some original => <[mu_rel m := replace_once (mu_find m) (mu_repl m) original]> d
  | None => d
  end.

(** The selector names something that exists: of the collected tests the one
    it names, a case of it or a test of the file it names; of the crates of
    the workspace the one it names, which is looked up only when some entry
    names a Python test. *)
Definition names_a_test (ms : list mutant) (test : pystr) : Prop :=
  if cargo test
  then (∃ m', m' ∈ ms ∧ cargo (mu_test m') = false) → ∃ have, crates = Some have ∧ crate_of test ∈ have
  else ∃ i, i ∈ collected_ids ∧
         (i = test ∨ startswith (test ++ u "[") i = true ∨ startswith (test ++ u "::") i = true).

(** The mutant [m] of the sources [d] was noticed: by the compiler, or by its
    test, run with exactly that mutant on disk, the native module built from
    what is on disk (or untouched, when nothing of it was mutated), and the
    mutated module loaded as it stands on disk. *)
Definition caught (d : gmap pystr pystr) (m : mutant) (calls : list call) : Prop :=
  let d' := patched d m in
  rust (mu_rel m) = true ∧ compiles d' = false ∨
  ∃ c rc, c ∈ calls ∧ ca_test c = mu_test m ∧ ca_disk c = d' ∧ verdict c = Ok rc ∧ rc ≠ 0 ∧
    ca_native c = (if rust (mu_rel m) || cargo (mu_test m) then d' else d) ∧
    (cargo (mu_test m) = false → mu_rel m ∈ imports (mu_test m) → ca_loaded c !! mu_rel m = d' !! mu_rel m).

Lemma texts_write rel text w : texts (write_file rel text w) = <[rel := text]> (texts w).
Proof. unfold texts, write_file. simpl. by rewrite fmap_insert. Qed.

Lemma loaded_lookup ms w rel t :
  rel ∈ ms → load w rel = Some t →
  (list_to_map (omap (λ m, (λ t, (m, t)) <$> load w m) ms) : gmap pystr pystr) !! rel = Some t.
Proof.
  intros Hin Hl. apply elem_of_list_to_map_1'.
  - intros y (m & _ & Hm)%list_elem_of_omap. apply fmap_Some in Hm as (t' & Ht' & [= -> ->]). congruence.
  - apply list_elem_of_omap. exists rel. split; [done|]. by rewrite Hl.
Qed.

Lemma load_cleared rel text w : load (clear_pyc rel (write_file rel text w)) rel = Some text.
Proof.
  unfold load, clear_pyc. simpl. rewrite lookup_insert_eq. simpl. f_equal.
  destruct (filter _ (wk_pyc w) !! rel) as [b|] eqn:E; [|done].
  apply map_lookup_filter_Some in E as [_ E]. by destruct E.
Qed.

(** A run of the test of [m] that failed: from the disk, the bytecode and the
    native module of [w]. *)
Definition failed_run (m : mutant) (w : workspace) (calls : list call) : Prop :=
  ∃ c rc, c ∈ calls ∧ ca_test c = mu_test m ∧ ca_disk c = texts w ∧ verdict c = Ok rc ∧ rc ≠ 0 ∧
    ca_native c = (if cargo (mu_test m) then texts w else wk_native w) ∧
    (cargo (mu_test m) = false → ∀ rel t, rel ∈ imports (mu_test m) → load w rel = Some t →
       ca_loaded c !! rel = Some t).

(** What a step leaves as it was. *)
Definition untouched (w w' : workspace) : Prop :=
  wk_files w' = wk_files w ∧ wk_native w' = wk_native w ∧ wk_calls w `prefix_of` wk_calls w'.

#[local] Instance untouched_preorder : PreOrder untouched.
Proof.
  split; [by intros w|]. intros x y z (H1 & H2 & H3) (H4 & H5 & H6).
  split_and!; [congruence|congruence|by transitivity (wk_calls y)].
Qed.

Lemma wp_say l w (Q : res unit → workspace → Prop) :
  (∀ w', untouched w w' → wk_calls w' = wk_calls w → Q (Ok tt) w') → wp (say l) w Q.
Proof. intros H. unfold wp, say. simpl. by apply H. Qed.

Lemma wp_read_text rel w (Q : res pystr → workspace → Prop) :
  (∀ r, Q r w) → wp (read_text rel) w Q.
Proof.
  intros H. unfold read_text. apply wp_bind, wp_get. destruct (wk_files w !! rel); [apply wp_ret|apply wp_raise]; apply H.
Qed.

Lemma run_mutant_spec m w :
  wp (run_mutant m) w (λ r w', untouched w w' ∧ (r = Ok false → failed_run m w (wk_calls w'))).
Proof.
  unfold run_mutant. apply wp_bind. unfold run_test, wp at 1. cbn [fst snd].
  set (c := (start_test (mu_test m) w).1). set (w1 := (start_test (mu_test m) w).2).
  assert (start_test (mu_test m) w = (c, w1)) as -> by reflexivity. cbn [fst snd].
  assert (untouched w w1) as Hu by (split_and!; [done|done|by eexists]).
  destruct (verdict c) as [rc|e] eqn:Hv; [|by split].
  destruct (Z.eqb_spec rc 0) as [->|Hrc]; cbn [negb]; apply wp_bind, wp_say; intros w2 Hu2 Hc2.
  - assert (untouched w w2) as Hu' by (by transitivity w1).
    apply wp_bind, wp_read_text. intros [now|e]; [|by split]. apply wp_bind, wp_say. intros w3 Hu3 _.
    apply wp_ret. split; [by transitivity w2|done].
  - apply wp_ret. split; [by transitivity w1|].
    intros _. exists c, rc. split_and!; try done; [rewrite Hc2; apply elem_of_app; right; by left|].
    intros Hcargo rel t Hin Hl. simpl. rewrite Hcargo. by apply loaded_lookup.
Qed.

Lemma try_mutant_spec m w :
  wp (try_mutant m) w (λ r w',
    wk_files w' = wk_files w ∧ wk_calls w `prefix_of` wk_calls w' ∧
    wk_native w' = (if rust (mu_rel m) && compiles (texts w) then texts w else wk_native w) ∧
    (r = Ok false → rust (mu_rel m) = true ∧ compiles (texts w) = false ∨
     (rust (mu_rel m) = true → compiles (texts w) = true) ∧
     failed_run m (Workspace (wk_files w) (wk_pyc w) (wk_native w') (wk_tick w) (wk_calls w) (wk_out w)) (wk_calls w'))).
Proof.
  unfold try_mutant. apply wp_bind.
  destruct (rust (mu_rel m)) eqn:Hrs; [unfold build_now, build, wp at 1; destruct (compiles (texts w)) eqn:Hc|apply wp_ret];
    cbn [fst snd negb andb].
  - eapply wp_mono; [apply run_mutant_spec|]. intros r w' [(Hf & Hn & Hp) Hr]. simpl in *.
    split_and!; [done|done|done|]. intros Hok. right. rewrite Hn. split; [done|by apply Hr].
  - split_and!; try done. by left.
  - eapply wp_mono; [apply run_mutant_spec|]. intros r w' [(Hf & Hn & Hp) Hr]. simpl in *.
    split_and!; [done|done|done|]. intros Hok. right. rewrite Hn. specialize (Hr Hok). split; [done|by destruct w].
Qed.

(** A workspace whose native module is built from its sources. *)
Definition fresh (w : workspace) : Prop := wk_native w = texts w ∧ compiles (texts w) = true.

(** One mutant: the file is back however it ended, the native module too. *)
Lemma one_mutant_spec m w :
  wp (one_mutant m) w (λ r w',
    texts w' = texts w ∧ wk_calls w `prefix_of` wk_calls w' ∧ (fresh w → fresh w') ∧
    (r = Ok false → fresh w → caught (texts w) m (wk_calls w'))).
Proof.
  unfold one_mutant. apply wp_bind. unfold read_text. apply wp_bind, wp_get.
  destruct (wk_files w !! mu_rel m) as [f|] eqn:Hf; [|apply wp_raise; simpl; by split_and!].
  apply wp_ret. apply wp_bind, wp_modify. set (text := replace_once _ _ _).
  set (w1 := clear_pyc (mu_rel m) (write_file (mu_rel m) text w)).
  assert (texts w !! mu_rel m = Some (fi_text f)) as Ht by (unfold texts; by rewrite lookup_fmap, Hf).
  assert (texts w1 = patched (texts w) m) as Hp.
  { unfold patched. rewrite Ht. apply (texts_write (mu_rel m) text w). }
  pose proof (try_mutant_spec m w1) as Htry. unfold wp in *. unfold finally.
  destruct (try_mutant m w1) as [r w2]. cbn [fst snd] in *. destruct Htry as (Hfiles & Hcalls & Hnat & Hr).
  assert (texts (write_file (mu_rel m) (fi_text f) w2) = texts w) as Hback.
  { rewrite texts_write. unfold texts at 1. rewrite Hfiles. fold (texts w1). rewrite Hp. unfold patched. rewrite Ht.
    by rewrite insert_insert_eq, insert_id. }
  assert (texts (restore m (fi_text f) w2) = texts w ∧ wk_calls (restore m (fi_text f) w2) = wk_calls w2 ∧
    (fresh w → fresh (restore m (fi_text f) w2))) as (H1 & H2 & H3).
  { unfold restore. cbv zeta. set (w3 := write_file (mu_rel m) (fi_text f) w2) in *.
    destruct (rust (mu_rel m)) eqn:Hrs; unfold build.
    - destruct (compiles (texts w3)) eqn:Hc; cbn [snd].
      + split_and!; [done|done|]. intros [_ Hcw]. split; [done|]. exact Hc.
      + split_and!; [done|done|]. intros [_ Hcw]. congruence.
    - split_and!; [done|done|]. intros [Hn Hcw]. split; [|by rewrite Hback]. rewrite Hback. exact (eq_trans Hnat Hn). }
  split_and!; [done|by rewrite H2|done|]. intros Hok [Hn _]. rewrite H2.
  destruct (Hr Hok) as [[Hrs Hc]|(Hcomp & c & rc & Hin & Hct & Hcd & Hv & Hrc & Hcn & Hcl)].
  - left. split; [done|]. by rewrite <-Hp.
  - right. exists c, rc. rewrite <-Hp. split_and!; try done.
    + rewrite Hcn. cbn [wk_native texts]. destruct (cargo (mu_test m)); [by rewrite orb_true_r|]. rewrite orb_false_r, Hnat.
      destruct (rust (mu_rel m)) eqn:Hrs; cbn [andb]; [|exact Hn].
      by rewrite (Hcomp eq_refl).
    + intros Hcg Him. rewrite (Hcl Hcg (mu_rel m) text Him); [|apply (load_cleared (mu_rel m) text w)].
      change (texts w1) with (texts (write_file (mu_rel m) text w)). by rewrite texts_write, lookup_insert_eq.
Qed.

Lemma caught_prefix d m calls calls' : calls `prefix_of` calls' → caught d m calls → caught d m calls'.
Proof.
  intros [l ->] [H|(c & rc & Hin & H)]; [by left|right]. exists c, rc. split; [|done]. apply elem_of_app. by left.
Qed.

Lemma all_mutants_spec ms bad w :
  wp (all_mutants ms bad) w (λ r w',
    texts w' = texts w ∧ wk_calls w `prefix_of` wk_calls w' ∧
    (r = Ok [] → fresh w → bad = [] ∧ ∀ m, m ∈ ms → caught (texts w) m (wk_calls w'))).
Proof.
  revert bad w. induction ms as [|m ms IH]; intros bad w; cbn [all_mutants].
  { apply wp_ret. split_and!; [done|done|]. intros [= ->] _. split; [done|]. by intros m ?%not_elem_of_nil. }
  apply wp_bind. eapply wp_mono; [apply one_mutant_spec|]. intros [missed|e] w1 (Ht & Hc & Hf & Hr); [|by split_and!].
  eapply wp_mono; [apply IH|]. intros r w2 (Ht2 & Hc2 & Hr2).
  split_and!; [congruence|by transitivity (wk_calls w1)|]. intros Hok Hfr.
  destruct (Hr2 Hok (Hf Hfr)) as [Hbad Hall]. destruct missed; [by destruct bad|].
  split; [done|]. intros m' [->|Hin]%elem_of_cons.
  - apply (caught_prefix _ _ (wk_calls w1)); [done|]. by apply Hr.
  - rewrite <-Ht. by apply Hall.
Qed.

Lemma check_anchors_spec ms w :
  wp (check_anchors ms) w (λ r w', w' = w ∧
    (r = Ok [] → ∀ m, m ∈ ms → ∃ text, texts w !! mu_rel m = Some text ∧ str_count (mu_find m) text = 1%nat)).
Proof.
  induction ms as [|m ms IH]; cbn [check_anchors].
  { apply wp_ret. split; [done|]. by intros _ m ?%not_elem_of_nil. }
  apply wp_bind. unfold read_text. apply wp_bind, wp_get.
  destruct (wk_files w !! mu_rel m) as [f|] eqn:Hf; [|apply wp_raise; by split].
  apply wp_ret. apply wp_bind. eapply wp_mono; [apply IH|]. intros [rest|e] w1 [-> Hr]; [|by split].
  apply wp_ret. split; [done|]. destruct (Nat.eqb_spec (str_count (mu_find m) (fi_text f)) 1) as [Hn|Hn]; [|done].
  intros Hok m' [->|Hin]%elem_of_cons; [|by apply Hr].
  exists (fi_text f). split; [|done]. unfold texts. by rewrite lookup_fmap, Hf.
Qed.

Lemma say_all_spec ls w (Q : res unit → workspace → Prop) :
  (∀ w', untouched w w' → wk_calls w' = wk_calls w → Q (Ok tt) w') → wp (say_all ls) w Q.
Proof.
  revert w. induction ls as [|l ls IH]; intros w HQ; cbn [say_all]; [apply wp_ret; by apply HQ|].
  apply wp_bind, wp_say. intros w1 Hu Hc. apply IH. intros w2 Hu2 Hc2. apply HQ; [by transitivity w1|congruence].
Qed.

Lemma untouched_texts w w' : untouched w w' → texts w' = texts w ∧ (fresh w → fresh w').
Proof.
  intros (Hf & Hn & _). assert (texts w' = texts w) as Ht by (unfold texts; by rewrite Hf).
  split; [done|]. unfold fresh. by rewrite Hn, Ht.
Qed.

Lemma selects_names ms test : cargo test = false → selects test = true → names_a_test ms test.
Proof.
  unfold names_a_test, selects. intros ->. rewrite !orb_true_iff. intros [[Hs|Hs]|Hs].
  - apply bool_decide_eq_true in Hs. eauto.
  - apply existsb_exists in Hs as (i & Hi%list_elem_of_In & Hs). eauto.
  - apply existsb_exists in Hs as (i & Hi%list_elem_of_In & Hs). eauto 6.
Qed.

Lemma check_cargo_packages_spec ms m :
  check_cargo_packages ms = [] → m ∈ ms → cargo (mu_test m) = true →
  ∃ have, crates = Some have ∧ crate_of (mu_test m) ∈ have.
Proof.
  unfold check_cargo_packages. intros H Hm Hc.
  assert (crate_of (mu_test m) ∈ remove_dups (map crate_of (List.filter cargo (map mu_test ms)))) as Hw.
  { apply elem_of_remove_dups, list_elem_of_In, in_map, filter_In. split; [|done].
    by apply in_map, list_elem_of_In. }
  destruct (remove_dups _) as [|w wanted] eqn:E; [by apply not_elem_of_nil in Hw|].
  destruct crates as [have|]; [|done]. exists have. split; [done|].
  apply map_eq_nil in H. destruct (decide (crate_of (mu_test m) ∈ have)) as [|Hno]; [done|].
  assert (crate_of (mu_test m) ∈ sorted_strs (List.filter (λ c, negb (bool_decide (c ∈ have))) (w :: wanted))) as Hin.
  { rewrite sorted_strs_perm. apply list_elem_of_In, filter_In. split; [by apply list_elem_of_In|].
    by rewrite bool_decide_eq_false_2. }
  rewrite H in Hin. by apply not_elem_of_nil in Hin.
Qed.

Lemma check_selectors_spec ms m :
  check_selectors ms = [] → m ∈ ms → names_a_test ms (mu_test m).
Proof.
  unfold check_selectors. intros H Hm.
  assert (∀ m, m ∈ ms → cargo (mu_test m) = false →
            m ∈ List.filter (λ m, negb (cargo (mu_test m))) ms) as Hn.
  { intros m1 Hm1 Hc. apply list_elem_of_In, filter_In. split; [by apply list_elem_of_In|]. by rewrite Hc. }
  destruct (List.filter (λ m, negb (cargo (mu_test m))) ms) as [|m0 named] eqn:E.
  { unfold names_a_test. destruct (cargo (mu_test m)) eqn:Hc; [|by apply Hn, not_elem_of_nil in Hc].
    intros (m' & Hm' & Hc'). by apply Hn, not_elem_of_nil in Hc'. }
  destruct collected_ids eqn:Hids; [done|]. apply app_eq_nil in H as [H Hcp].
  destruct (cargo (mu_test m)) eqn:Hc.
  { unfold names_a_test. rewrite Hc. intros _. by eapply check_cargo_packages_spec. }
  apply selects_names; [done|]. destruct (selects (mu_test m)) eqn:Hs; [done|exfalso]. apply map_eq_nil in H.
  assert (m ∈ List.filter (λ m, negb (selects (mu_test m))) (m0 :: named)) as Hb.
  { apply list_elem_of_In, filter_In. split; [by apply list_elem_of_In, Hn|]. by rewrite Hs. }
  rewrite H in Hb. by apply not_elem_of_nil in Hb.
Qed.

(** How [main] ends. *)
Lemma main_spec argv ms w :
  wp (main argv ms) w (λ r w', texts w' = texts w ∧
    (r = Ok 0 → u "--count" ∉ argv → fresh w → ∀ m, m ∈ ms →
      (∃ text, texts w !! mu_rel m = Some text ∧ str_count (mu_find m) text = 1%nat) ∧
      names_a_test ms (mu_test m) ∧
      caught (texts w) m (wk_calls w'))).
Proof.
  unfold main. case_bool_decide as Hcount.
  { apply wp_bind, wp_say. intros w1 Hu _. apply wp_ret. split; [by apply untouched_texts|done]. }
  apply wp_bind. eapply wp_mono; [apply check_anchors_spec|]. intros [anchors|e] w1 [-> Ha]; [|by split].
  apply wp_bind, say_all_spec. intros w1 Hu1 _. destruct (untouched_texts _ _ Hu1) as [Ht1 Hf1].
  case_bool_decide as Hamb; cbn [negb]; [|by apply wp_ret].
  apply app_eq_nil in Hamb as [-> Hsel]. specialize (Ha eq_refl).
  apply wp_bind. eapply wp_mono; [apply all_mutants_spec|].
  intros [bad|e] w2 (Ht2 & _ & Hall); [|split; [congruence|done]].
  apply wp_bind, say_all_spec. intros w3 Hu3 Hc3. apply wp_bind, wp_say. intros w4 Hu4 Hc4. apply wp_ret.
  assert (texts w4 = texts w) as Ht4.
  { rewrite (proj1 (untouched_texts _ _ Hu4)), (proj1 (untouched_texts _ _ Hu3)). congruence. }
  split; [done|]. case_bool_decide as Hbad; [|done]. subst bad. intros _ _ Hfr m Hm.
  destruct (Hall eq_refl (Hf1 Hfr)) as [_ Hcaught]. split_and!; [by apply Ha|by apply check_selectors_spec|].
  rewrite Hc4, Hc3, <-Ht1. by apply Hcaught.
Qed.

(** The sources are put back: however the check ends -- every mutant caught,
    some missed, an anchor gone, an exception or an interrupt out of a test
    run -- every file has the text it had. *)
Theorem sources_restored argv ms w : texts (main argv ms w).2 = texts w.
Proof. apply (main_spec argv ms w). Qed.

(** C37: exit 0 means what it says, when [--count] was not given (it only prints
    a number) and the native module was built beforehand from the sources,
    which compile ([main] does not build before the first mutant).  Then for
    every entry its anchor was in its file exactly once; its selector names a
    test that was collected, or a crate of the workspace as long as some
    entry names a Python test; and the mutant was noticed: it did not
    compile, or its test failed with exactly that one patch on disk, in the
    native module when it is a Rust patch, and in the module the test loads
    when it is a Python one. *)
Theorem exit_zero_means_caught argv ms w w' :
  main argv ms w = (Ok 0, w') → u "--count" ∉ argv → fresh w →
  ∀ m, m ∈ ms →
    (∃ text, texts w !! mu_rel m = Some text ∧ str_count (mu_find m) text = 1%nat) ∧
    names_a_test ms (mu_test m) ∧
    caught (texts w) m (wk_calls w').
Proof.
  intros H Hcount Hf. pose proof (main_spec argv ms w) as Hs. unfold wp in Hs. rewrite H in Hs.
  destruct Hs as [_ Hs]. by apply Hs.
Qed.
End Check.

(** ** Examples *)

(** Two modules, and a test of the second that imports the first; all of it
    within one second. *)
Definition lib_py : pystr := u "python/lib.py".
Definition app_py : pystr := u "tests/app.py".
Definition demo_test : pystr := u "tests/app.py::test".

Definition demo_imports (test : pystr) : list pystr := [lib_py; app_py].

(** The test fails exactly when the first module it loaded is not "a<b". *)
Definition demo_verdict (c : call) : res Z :=
  Ok (if bool_decide (ca_loaded c !! lib_py = Some (u "a<b")) then 0 else 1).

Definition demo_workspace : workspace :=
  Workspace (<[lib_py := File (u "a<b") 0]> (<[app_py := File (u "c+d") 0]> ∅)) ∅
    (<[lib_py := u "a<b"]> (<[app_py := u "c+d"]> ∅)) 0 [] [].

Definition lib_mutant : mutant := Mutant (u "lib") lib_py (u "<") (u ">") demo_test.
Definition app_mutant : mutant := Mutant (u "app") app_py (u "+") (u "-") demo_test.

Definition demo_main (second : nat → Z) (ms : list mutant) : res Z * workspace :=
  main second demo_imports (λ _, true) demo_verdict demo_test (Some []) [] ms demo_workspace.

(** The test does not notice the second mutant, and the check says so when
    the second mutant is tried alone.  Right after the first one, in another
    directory and within the same second, the check calls it caught: the
    bytecode of the first mutant, which has the size and the second of the
    restored file, is still there and is what the test loads. *)
Theorem stale_bytecode_counts_as_caught :
  (demo_main (λ _, 0) [app_mutant]).1 = Ok 1 ∧
  (demo_main (λ _, 0) [lib_mutant; app_mutant]).1 = Ok 0 ∧
  (demo_main Z.of_nat [lib_mutant; app_mutant]).1 = Ok 1.
Proof. split_and!; vm_compute; reflexivity. Qed.

(** With no entry that names a Python test the crates are not looked up: a
    selector whose crate does not exist counts as a test that fails. *)
Theorem unknown_crate_counts_as_caught :
  let m := Mutant (u "lib") lib_py (u "<") (u ">") (u "cargo:nosuch:t") in
  (main Z.of_nat demo_imports (λ _, true) (λ _, Ok 101) demo_test (Some []) [] [m] demo_workspace).1 = Ok 0 ∧
  (main Z.of_nat demo_imports (λ _, true) (λ _, Ok 101) demo_test (Some []) [] [m; lib_mutant] demo_workspace).1
  = Ok 1.
Proof. split; vm_compute; reflexivity. Qed.

Lemma exit_zero_means_caught_witness :
  names_a_test demo_test (Some []) [lib_mutant] demo_test ∧
  caught demo_imports (λ _, true) demo_verdict (texts demo_workspace) lib_mutant
    (wk_calls (demo_main Z.of_nat [lib_mutant]).2).
Proof.
  destruct (demo_main Z.of_nat [lib_mutant]) as [r w'] eqn:E.
  assert (r = Ok 0) as -> by (vm_compute in E; congruence).
  refine (proj2 (exit_zero_means_caught Z.of_nat demo_imports (λ _, true) demo_verdict demo_test (Some []) []
    [lib_mutant] demo_workspace w' E _ _ lib_mutant _));
    [by intros ?%not_elem_of_nil|split; vm_compute; reflexivity|by left].
Defined.
