(* ===== verification/Bench.v ===== *)
(** * The benchmark gate

    [bench.py]: running the scenarios and comparing their numbers with a
    recorded baseline.  What a scenario measures is a parameter; what is
    modelled is what becomes of its result -- checked, recorded, flattened,
    compared metric by metric in floating point -- and the exit code. *)

From S2P Require Import Prelude PyStr PyFloat Text Errors Json.
From Stdlib Require Import SpecFloat.

Local Open Scope Z_scope.

(** ** Numbers *)

(** A decimal literal with [e] digits after the point: the quotient of two
    integers that are floats is the nearest float. *)
Definition decimal (m e : Z) : pyfloat := SFdiv prec emax (round_int m) (round_int (10 ^ e)).

Definition fdiv : pyfloat → pyfloat → pyfloat := SFdiv prec emax.

(** [math.copysign(math.inf, x)] *)
Definition signed_inf (x : pyfloat) : pyfloat :=
  match x with
  | S754_zero s | S754_infinity s | S754_finite s _ _ => S754_infinity s
  | S754_nan => S754_infinity false
  end.

(** [float(n)] of an integer *)
Definition float_of_int (n : Z) : res pyfloat :=
  let x := round_int n in if isfinite x then Ok x else Raise (Exc OverflowError).

(** [bool(v)] *)
Definition truthy (v : value) : bool :=
  match v with
  | Null => false
  | Bool b => b
  | Int z => negb (z =? 0)
  | Float x => negb (SFeqb x fzero)
  | Str s => negb (bool_decide (s = []))
  | Array l => match l with [] => false | _ => true end
  | Object kvs => match kvs with [] => false | _ => true end
  end.

(** [v == n] for an integer [n] a float can hold. *)
Definition equals_int (v : value) (n : Z) : bool :=
  match v with
  | Bool b => (if b then 1 else 0) =? n
  | Int z => z =? n
  | Float x => SFeqb x (round_int n)
  | _ => false
  end.

(** ** Metrics *)

(** The loop of [flatten]; [sub] flattens a nested object. *)
Definition flatten_into (sub : pystr → value → res (gmap pystr pyfloat)) (prefix : pystr) :=
  fix go (kvs : list (pystr * value)) (out : gmap pystr pyfloat) : res (gmap pystr pyfloat) :=
    match kvs with
    | [] => Ok out
    | (key, v) :: kvs' =>
        match v with
        | Object _ => inner ← sub (prefix ++ key ++ u ".") v; go kvs' (inner ∪ out)
        | Int z => x ← float_of_int z; go kvs' (<[prefix ++ key := x]> out)
        | Float x => go kvs' (<[prefix ++ key := x]> out)
        | _ => go kvs' out
        end
    end.

(** [flatten] *)
Fixpoint flatten (scenarios : value) (prefix : pystr) : res (gmap pystr pyfloat) :=
  match scenarios with
  | Object kvs => flatten_into (λ pre v, flatten v pre) prefix kvs ∅
  | _ => Ok ∅
  end.

(** [SCENARIOS]: their names. *)
Definition SCENARIOS : list pystr :=
  [u "rpc_latency"; u "rpc_throughput"; u "rpc_payload_64k"; u "rpc_error";
   u "async_call"; u "publish"; u "lookup_scaling"; u "filter_index";
   u "watch_wakeup"; u "discovery"; u "idle_beat_rate"; u "idle_waiters";
   u "registry_connections"; u "join_cold_start"; u "rpc_latency_separate"; u "rpc_concurrency";
   u "rust_service"; u "blobref"; u "rpc_batch"; u "rpc_models";
   u "rpc_copy_profile"; u "point_lookup"; u "rust_discovery"; u "rust_runtime";
   u "discovery_spaced"].

(** [WATCHED]: the metrics compared, and the smallest change of each worth
    reporting. *)
Definition WATCHED : list (pystr * pyfloat) :=
  [(u "rpc_latency.p50_ms", decimal 5 2);
   (u "rpc_latency.p90_ms", decimal 5 2);
   (u "rpc_payload_64k.p50_ms", decimal 1 1);
   (u "rpc_error.raising_p50_ms", decimal 5 2);
   (u "async_call.p50_ms", decimal 1 1);
   (u "publish.flush_p50_ms", decimal 1 1);
   (u "idle_beat_rate.connections_opened", decimal 1 0);
   (u "idle_waiters.rechecks", decimal 1 0);
   (u "idle_waiters.watch_wakeups", decimal 1 0);
   (u "registry_connections.persistent_connections", decimal 100 0);
   (u "registry_connections.persistent_failures", decimal 1 0);
   (u "registry_connections.persistent_live_members", decimal 1 0);
   (u "registry_connections.persistent_p50_ratio", decimal 25 2);
   (u "registry_connections.accept_reduction", decimal 5 2);
   (u "lookup_scaling.100.all_ms", decimal 2 3);
   (u "lookup_scaling.100.snapshot_ms", decimal 2 3);
   (u "lookup_scaling.1000.all_ms", decimal 1 1);
   (u "lookup_scaling.1000.snapshot_ms", decimal 1 1);
   (u "lookup_scaling.1000.epoch_ms", decimal 1 1);
   (u "lookup_scaling.1000.field_digest_ms", decimal 5 5);
   (u "lookup_scaling.1000.pick_filtered_ms", decimal 2 3);
   (u "lookup_scaling.1000.all_filtered_ms", decimal 2 2);
   (u "lookup_scaling.1000.pick_ms", decimal 2 4);
   (u "point_lookup.5000.slot_ms", decimal 1 4);
   (u "point_lookup.5000.pick_ms", decimal 1 4);
   (u "point_lookup.5000.all_ms", decimal 1 1);
   (u "point_lookup.5000.all_state_ms", decimal 3 1);
   (u "point_lookup.5000.cached_all_state_ms", decimal 2 2);
   (u "point_lookup.5000.snapshot_ms", decimal 1 3);
   (u "point_lookup.5000.snapshot_materialize_ms", decimal 2 1);
   (u "point_lookup.5000.snapshot_state_ms", decimal 3 1);
   (u "point_lookup.5000.cached_snapshot_state_ms", decimal 3 2);
   (u "point_lookup.5000.snapshot_len_ms", decimal 2 4);
   (u "point_lookup.5000.snapshot_slot_ms", decimal 2 4);
   (u "point_lookup.5000.snapshot_get_ms", decimal 2 4);
   (u "point_lookup.5000.wait_count_ms", decimal 1 1);
   (u "point_lookup.5000.epoch_ms", decimal 1 3);
   (u "filter_index.5000.count_warm_ms", decimal 2 3);
   (u "filter_index.5000.pick_warm_ms", decimal 2 3);
   (u "filter_index.5000.all_warm_ms", decimal 2 2);
   (u "filter_index.5000.wait_warm_ms", decimal 2 2);
   (u "filter_index.5000.index_bytes", decimal 4096 0);
   (u "blobref.python_same.65536.ordinary_call_ms", decimal 1 1);
   (u "blobref.python_same.16777216.blob_call_ms", decimal 5 2);
   (u "blobref.python_separate.16777216.blob_call_ms", decimal 5 2);
   (u "blobref.rust_same.16777216.blob_call_ms", decimal 5 2);
   (u "blobref.rust_separate.16777216.blob_call_ms", decimal 5 2);
   (u "blobref.rust_same.16777216.blob_wire_bytes", decimal 32 0);
   (u "rpc_models.round_trip.dataclass.p50_ms", decimal 5 2);
   (u "rpc_models.round_trip.typed_container.p50_ms", decimal 5 2);
   (u "rpc_models.bulk_round_trip.automatic.p50_ms", decimal 1 1);
   (u "rpc_models.codec.encode_plain_us", decimal 2 1);
   (u "rpc_models.codec.encode_dataclass_us", decimal 2 1);
   (u "rpc_models.codec.encode_typed_container_us", decimal 2 1);
   (u "rpc_models.codec.restore_dataclass_us", decimal 2 1);
   (u "rpc_models.codec.restore_typed_container_us", decimal 25 2);
   (u "rpc_latency_separate.p50_ms", decimal 5 2);
   (u "rpc_batch.batch_total_ms", decimal 1 1);
   (u "rpc_concurrency.callers.8.calls_per_s", decimal 500 0);
   (u "rpc_concurrency.callers.8.p50_ms", decimal 2 1);
   (u "rpc_concurrency.callers.8.p99_ms", decimal 94 2);
   (u "rpc_concurrency.callers.128.connection_reduction", decimal 5 2);
   (u "rpc_concurrency.connections", decimal 1 0);
   (u "rpc_copy_profile.65536.borrowed_decode_us", decimal 5 1);
   (u "rpc_copy_profile.65536.decode_speedup", decimal 5 0);
   (u "rpc_copy_profile.1048576.borrowed_decode_us", decimal 10 0);
   (u "rust_service.python.no_op.p50_ms", decimal 2 2);
   (u "rust_service.rust.no_op.p50_ms", decimal 1 2);
   (u "rust_service.rust.concurrency.8.calls_per_s", decimal 5000 0);
   (u "rust_service.rust.concurrency.128.connections", decimal 1 0);
   (u "rust_service.throughput_8_speedup", decimal 5 1);
   (u "rust_discovery.5000.refs_ms", decimal 2 2);
   (u "rust_discovery.5000.owned_ms", decimal 5 1);
   (u "rust_discovery.5000.clone_speedup", decimal 5 0);
   (u "rust_runtime.rpc_workers", decimal 1 0);
   (u "rust_runtime.total_native_workers", decimal 1 0);
   (u "discovery_spaced.p50_ms", decimal 1 1);
   (u "discovery.p50_ms", decimal 5 0);
   (u "watch_wakeup.wakeup.p50_ms", decimal 5 0)].

(** [BIGGER_IS_BETTER] *)
Definition BIGGER_IS_BETTER : list pystr :=
  [u "registry_connections.accept_reduction";
   u "registry_connections.persistent_live_members";
   u "rpc_concurrency.callers.8.calls_per_s";
   u "rpc_concurrency.callers.128.connection_reduction";
   u "rpc_copy_profile.65536.decode_speedup";
   u "rust_service.rust.concurrency.8.calls_per_s";
   u "rust_service.throughput_8_speedup";
   u "rust_discovery.5000.clone_speedup"].

(** [TOLERANCE] *)
Definition TOLERANCE : pyfloat := decimal 2 1.

(** ** Comparing *)

(** What is said of a metric; the wording of the lines is left out. *)
Inductive judgement :=
| NoBaseline
| NoResult
| NotANumber
| Changed (change : pyfloat)
| NothingChecked.

(** [change] *)
Definition change_of (a b : pyfloat) : pyfloat :=
  if negb (SFeqb a fzero) then fdiv (fsub b a) (SFabs a)
  else if SFeqb b a then fzero else signed_inf (fsub b a).

(** The verdict on one metric: worse, better or neither. *)
Inductive verdict := Worse (j : judgement) | Better (j : judgement) | Same.

(** The body of the loop of [compare], for a metric of a selected scenario. *)
Definition judge (was is_ : gmap pystr pyfloat) (key : pystr) (floor : pyfloat) : verdict :=
  match was !! key with
  | None => Worse NoBaseline
  | Some a0 =>
      match is_ !! key with
      | None => Worse NoResult
      | Some b0 =>
          if negb (isfinite a0) || negb (isfinite b0) || SFltb a0 fzero || SFltb b0 fzero then Worse NotANumber
          else
            let '(a, b) := if bool_decide (key ∈ BIGGER_IS_BETTER) then (SFopp a0, SFopp b0) else (a0, b0) in
            let change := change_of a b in
            if SFltb (SFabs (fsub b a)) floor then Same
            else if SFltb TOLERANCE change then Worse (Changed change)
            else if SFltb change (SFopp TOLERANCE) then Better (Changed change)
            else Same
      end
  end.

(** [key.split(".", 1)[0]] *)
Definition scenario_of (key : pystr) : pystr := default [] (head (split_max 46%N 1 key)).

(** The metrics of the scenarios that were run. *)
Definition selected (now : list (pystr * value)) : list (pystr * pyfloat) :=
  List.filter (λ kf, bool_decide (is_Some (assoc (scenario_of kf.1) now))) WATCHED.

(** [compare] on the two ["scenarios"] objects *)
Definition compare (baseline now : list (pystr * value)) :
    res (list (pystr * judgement) * list (pystr * judgement) * nat) :=
  was ← flatten (Object baseline) [];
  is_ ← flatten (Object now) [];
  let judged := map (λ kf, (kf.1, judge was is_ kf.1 kf.2)) (selected now) in
  let worse := omap (λ kv, match kv.2 with Worse j => Some (kv.1, j) | _ => None end) judged in
  let better := omap (λ kv, match kv.2 with Better j => Some (kv.1, j) | _ => None end) judged in
  Ok (worse ++ (if (length judged =? 0)%nat then [([], NothingChecked)] else []), better, length judged).

(** ** Running *)

(** How a scenario's function ended. *)
Inductive outcome :=
| Returned (v : value)
| UnsupportedScenario (reason : pystr)
| Failed (e : exn)
| Interrupted (e : exn).

Definition TTL_MS : Z := 2000.
Definition FORMAT_VERSION : Z := 2.

(** The parsed command line. *)
Record bench_args := BenchArgs {
  ba_only : option (list pystr);
  ba_coalesce_ms : option Z;
  ba_check : bool
}.

Section Bench.
(** The scenarios, the time one took, the text of an exception; whether
    [join] takes [coalesce_ms]; the baseline file, if there is one and its
    JSON is valid. *)
Context (run : pystr → outcome) (took : pystr → pyfloat) (describe : exn → pystr) (coalesces : bool)
  (baseline_file : option (option value)).

(** [baseline["settings"] == {"ttl_ms": TTL_MS, "coalesce_ms": COALESCE_MS}] *)
Definition same_settings (settings : list (pystr * value)) (coalesce_ms : option Z) : bool :=
  (length settings =? 2)%nat &&
  match assoc (u "ttl_ms") settings with Some v => equals_int v TTL_MS | None => false end &&
  match assoc (u "coalesce_ms") settings, coalesce_ms with
  | Some v, Some n => equals_int v n
  | Some Null, None => true
  | _, _ => false
  end.

(** The checks of the arguments and of the baseline: [None] is [ap.error];
    what is kept is the baseline's scenarios, if they will be compared. *)
Definition prepare (args : bench_args) : option (option (list (pystr * value))) :=
  _ ← match ba_coalesce_ms args with
      | Some n => if (n <? 0) || negb coalesces then None else Some ()
      | None => Some ()
      end;
  if negb (ba_check args) then Some None
  else
    text ← baseline_file;
    baseline ← text;
    _ ← guard (match value_get baseline (u "format_version") with
               | Some v => equals_int v FORMAT_VERSION
               | None => false
               end = true);
    scenarios ← match value_get baseline (u "scenarios") with Some (Object s) => Some s | _ => None end;
    settings ← match value_get baseline (u "settings") with Some (Object s) => Some s | _ => None end;
    _ ← guard (same_settings settings (ba_coalesce_ms args) = true);
    Some (Some scenarios).

(** The [try] around a scenario: its result object, and whether it failed or
    is unsupported. *)
Definition scenario_result (name : pystr) : res (list (pystr * value) * bool * bool) :=
  let error e := Ok ([(u "status", Str (u "error")); (u "error", Str (describe e))], true, false) in
  match run name with
  | Interrupted e => Raise e
  | Failed e => error e
  | UnsupportedScenario reason =>
      Ok ([(u "status", Str (u "unsupported")); (u "reason", Str reason)], false, true)
  | Returned (Object got) =>
      match flatten (Object got) [] with
      | Raise e => error e
      | Ok metrics =>
          if existsb (λ kx, negb (isfinite kx.2) || SFltb kx.2 fzero) (map_to_list metrics)
          then error (Exc ValueError)
          else match assoc (u "error") got with
               | Some v => if truthy v then Ok (assoc_set (u "status") (Str (u "error")) got, true, false)
                           else Ok (got, false, false)
               | None => Ok (got, false, false)
               end
      end
  | Returned _ => error (Exc TypeError)
  end.

(** The loop over the scenarios. *)
Fixpoint run_all (wanted : list pystr) (done : list (pystr * value)) (failed unsupported : bool) :
    res (list (pystr * value) * bool * bool) :=
  match wanted with
  | [] => Ok (done, failed, unsupported)
  | name :: wanted' =>
      '(got, f, n) ← scenario_result name;
      run_all wanted' (assoc_set name (Object (assoc_set (u "took_s") (Float (took name)) got)) done)
        (failed || f) (unsupported || n)
  end.

(** [args.only or SCENARIOS] *)
Definition wanted_of (args : bench_args) : list pystr :=
  match ba_only args with Some (n :: l) => n :: l | _ => SCENARIOS end.

(** [main]: the exit code; 2 is [ap.error]. *)
Definition main (args : bench_args) : res Z :=
  match prepare args with
  | None => Ok 2
  | Some baseline =>
      let wanted := wanted_of args in
      '(scenarios, failed, unsupported) ← run_all wanted [] false false;
      match baseline with
      | None => Ok (if failed then 1 else 0)
      | Some base =>
          '(worse, better, checked) ← compare base scenarios;
          Ok (if negb (bool_decide (worse = [])) || failed || unsupported then 1 else 0)
      end
  end.
End Bench.

(** ** Theorems *)

(** *** The numbers of a report *)

(** [n] is the number at the dotted path [p] of a result. *)
Inductive number_at : value → pystr → value → Prop :=
| at_key kvs k v :
    (k, v) ∈ kvs → match v with Int _ | Float _ => True | _ => False end → number_at (Object kvs) k v
| at_path kvs k v p n :
    (k, v) ∈ kvs → number_at v p n → number_at (Object kvs) (k ++ u "." ++ p) n.

Definition as_float (n : value) : res pyfloat :=
  match n with Int z => float_of_int z | Float x => Ok x | _ => Raise (Exc TypeError) end.

(** The metric [p] of a result is [x]; no two have the same dotted name; every
    number has a float. *)
Definition metric (v : value) (p : pystr) (x : pyfloat) : Prop := ∃ n, number_at v p n ∧ as_float n = Ok x.
Definition unambiguous (v : value) : Prop := ∀ p n n', number_at v p n → number_at v p n' → n = n'.
Definition convertible (v : value) : Prop := ∀ p n, number_at v p n → ∃ x, as_float n = Ok x.

Lemma number_at_cons k v kvs p n :
  number_at (Object ((k, v) :: kvs)) p n ↔
  (p = k ∧ n = v ∧ match v with Int _ | Float _ => True | _ => False end) ∨
  (∃ rest, p = k ++ u "." ++ rest ∧ number_at v rest n) ∨ number_at (Object kvs) p n.
Proof.
  split.
  - inversion 1 as [kvs' k' v' Hin Hn|kvs' k' v' q n' Hin Hn]; subst; apply elem_of_cons in Hin as [[= -> ->]|Hin].
    + by left.
    + right. right. by apply at_key.
    + right. left. by exists q.
    + right. right. by eapply at_path.
  - intros [(-> & -> & Hn)|[(rest & -> & Hn)|Hn]].
    + apply at_key; [by left|done].
    + eapply at_path; [by left|done].
    + inversion Hn; subst; [apply at_key|eapply at_path]; try done; by right.
Qed.

Lemma number_at_nil p n : ¬ number_at (Object []) p n.
Proof. inversion 1 as [? ? ? H1|? ? ? ? ? H1]; by apply not_elem_of_nil in H1. Qed.

(** What [flatten] makes of a result: floats at dotted paths only, one for
    every number; it raises when a number has no float. *)
Definition flattened (v : value) (pre : pystr) (r : res (gmap pystr pyfloat)) : Prop :=
  match r with
  | Ok m => (∀ k x, m !! k = Some x → ∃ p, k = pre ++ p ∧ metric v p x) ∧
            (∀ p n, number_at v p n → is_Some (m !! (pre ++ p)) ∧ ∃ x, as_float n = Ok x)
  | Raise e => ∃ p n, number_at v p n ∧ as_float n = Raise e
  end.

(** The same of the loop, on top of what was collected before. *)
Definition collected_on (out : gmap pystr pyfloat) (v : value) (pre : pystr) (r : res (gmap pystr pyfloat)) : Prop :=
  match r with
  | Ok m => (∀ k x, m !! k = Some x → out !! k = Some x ∨ ∃ p, k = pre ++ p ∧ metric v p x) ∧
            (∀ k, is_Some (out !! k) → is_Some (m !! k)) ∧
            (∀ p n, number_at v p n → is_Some (m !! (pre ++ p)) ∧ ∃ x, as_float n = Ok x)
  | Raise e => ∃ p n, number_at v p n ∧ as_float n = Raise e
  end.

(** One entry, whose numbers [m1] holds and the loop then has in [out']. *)
Lemma collected_cons (out out' : gmap pystr pyfloat) k v kvs pre r :
  (∀ q x, out' !! q = Some x → out !! q = Some x ∨ ∃ p, q = pre ++ p ∧ metric (Object [(k, v)]) p x) →
  (∀ q, is_Some (out !! q) → is_Some (out' !! q)) →
  (∀ p n, number_at (Object [(k, v)]) p n → is_Some (out' !! (pre ++ p)) ∧ ∃ x, as_float n = Ok x) →
  collected_on out' (Object kvs) pre r → collected_on out (Object ((k, v) :: kvs)) pre r.
Proof.
  intros H1 H2 H3. unfold collected_on.
  assert (∀ p n, number_at (Object [(k, v)]) p n → number_at (Object ((k, v) :: kvs)) p n) as Hhd.
  { intros p n. rewrite !number_at_cons. intros [?|[?|?%number_at_nil]]; [tauto|tauto|done]. }
  assert (∀ p n, number_at (Object kvs) p n → number_at (Object ((k, v) :: kvs)) p n) as Htl
    by (intros p n Hn; rewrite number_at_cons; tauto).
  destruct r as [m|e].
  - intros (G1 & G2 & G3). split_and!.
    + intros q x Hq. destruct (G1 q x Hq) as [Ho|(p & -> & n & Hn & Hx)].
      * destruct (H1 q x Ho) as [?|(p & -> & n & Hn & Hx)]; [by left|]. right. exists p. split; [done|]. exists n. auto.
      * right. exists p. split; [done|]. exists n. auto.
    + auto.
    + intros p n. rewrite number_at_cons. intros Hn.
      assert (number_at (Object [(k, v)]) p n ∨ number_at (Object kvs) p n) as [Hn1|Hn1]
        by (rewrite (number_at_cons k v []); tauto).
      * destruct (H3 p n Hn1) as [Hs Hx]. auto.
      * by apply G3.
  - intros (p & n & Hn & He). exists p, n. auto.
Qed.

Definition flatten_loop (pre : pystr) := flatten_into (λ pre v, flatten v pre) pre.

(** A number, and a nested object, in front of the rest. *)
Lemma collected_number k w x kvs pre out r :
  match w with Int _ | Float _ => True | _ => False end → as_float w = Ok x →
  collected_on (<[pre ++ k := x]> out) (Object kvs) pre r → collected_on out (Object ((k, w) :: kvs)) pre r.
Proof.
  intros Hw Hx. apply collected_cons.
  - intros q y. rewrite lookup_insert. case_decide as Hq; [|by left]. intros [= <-]. right. exists k.
    split; [done|]. exists w. split; [|done]. rewrite number_at_cons. by left.
  - intros q Hq. rewrite lookup_insert. by case_decide.
  - intros p n'. rewrite number_at_cons. intros [(-> & -> & _)|[(r' & _ & Hr)|?%number_at_nil]]; [|by destruct w; inversion Hr|done].
    rewrite lookup_insert_eq. eauto.
Qed.

Lemma collected_object k v kvs pre inner out r :
  match v with Object _ => True | _ => False end → flattened v (pre ++ k ++ u ".") (Ok inner) →
  collected_on (inner ∪ out) (Object kvs) pre r → collected_on out (Object ((k, v) :: kvs)) pre r.
Proof.
  intros Hv [H1 H2]. apply collected_cons.
  - intros q y [Hq|[_ Hq]]%lookup_union_Some_raw; [|by left]. destruct (H1 q y Hq) as (p & -> & n & Hn & Hy).
    right. exists (k ++ u "." ++ p). rewrite !app_assoc. split; [done|]. exists n. split; [|done].
    rewrite number_at_cons. right. left. exists p. by rewrite !app_assoc.
  - intros q Hq. rewrite lookup_union. destruct (inner !! q), (out !! q); simpl; by eauto.
  - intros p n. rewrite number_at_cons. intros [(_ & -> & Hn)|[(rest & -> & Hn)|?%number_at_nil]]; [by destruct v| |done].
    destruct (H2 rest n Hn) as [[y Hy] Hx]. split; [|done]. rewrite !app_assoc in *.
    exists y. apply lookup_union_Some_raw. by left.
Qed.

Lemma flatten_loop_spec kvs pre :
  Forall (λ kv, ∀ pre, flattened kv.2 pre (flatten kv.2 pre)) kvs →
  ∀ out, collected_on out (Object kvs) pre (flatten_loop pre kvs out).
Proof.
  induction 1 as [|[k v] kvs IHv _ IHk]; intros out.
  { split_and!; [by left|done|]. by intros p n ?%number_at_nil. }
  cbn [snd] in IHv. destruct v as [|b|z|x|s|l|kvs0].
  3: { change (flatten_loop pre ((k, Int z) :: kvs) out)
         with (x ← float_of_int z; flatten_loop pre kvs (<[pre ++ k := x]> out)).
       destruct (float_of_int z) as [x|e] eqn:Hz; cbn [mbind result_bind].
       - eapply collected_number; [done..|apply IHk].
       - exists k, (Int z). split; [|done]. rewrite number_at_cons. by left. }
  3: { eapply collected_number; [done..|apply IHk]. }
  5: { specialize (IHv (pre ++ k ++ u ".")). change (flatten_loop pre ((k, Object kvs0) :: kvs) out)
         with (inner ← flatten (Object kvs0) (pre ++ k ++ u "."); flatten_loop pre kvs (inner ∪ out)).
       destruct (flatten (Object kvs0) _) as [inner|e]; cbn [mbind result_bind].
       - eapply collected_object; [done..|apply IHk].
       - destruct IHv as (p & n & Hn & He). exists (k ++ u "." ++ p), n. split; [|done].
         rewrite number_at_cons. right. left. eauto. }
  all: apply (collected_cons out out); [by left|done| |apply IHk].
  all: intros p n; rewrite number_at_cons; intros [(_ & _ & [])|[(rest & _ & Hr)|?%number_at_nil]]; [inversion Hr|done].
Qed.

Lemma flatten_spec v : ∀ pre, flattened v pre (flatten v pre).
Proof.
  induction v as [| | | | |l IH|kvs IH] using value_nested_ind; intros pre;
    try (split; [intros k y Hk; by rewrite lookup_empty in Hk|inversion 1]).
  pose proof (flatten_loop_spec kvs pre IH ∅) as H. change (flatten (Object kvs) pre) with (flatten_loop pre kvs ∅).
  destruct (flatten_loop pre kvs ∅) as [m|e]; [|done]. destruct H as (H1 & _ & H3).
  split; [|done]. intros k x Hk. destruct (H1 k x Hk) as [He|?]; [by rewrite lookup_empty in He|done].
Qed.

(** A flattened result answers for the metrics, when their names are unambiguous. *)
Lemma flatten_metric v m :
  unambiguous v → flatten v [] = Ok m → convertible v ∧ ∀ k x, m !! k = Some x ↔ metric v k x.
Proof.
  intros Hu Hm. pose proof (flatten_spec v []) as H. rewrite Hm in H. destruct H as [H1 H2].
  split; [intros p n Hn; by apply (H2 p n)|]. intros k x. split.
  - intros Hk. by destruct (H1 k x Hk) as (p & -> & Hp).
  - intros (n & Hn & Hx). destruct (H2 k n Hn) as [[y Hy] _]. cbn in Hy.
    destruct (H1 k y Hy) as (p & Hp & n' & Hn' & Hy'). cbn in Hp. subst p.
    rewrite (Hu k n n' Hn Hn') in Hx. congruence.
Qed.

Lemma flatten_convertible v : convertible v → ∃ m, flatten v [] = Ok m.
Proof.
  intros Hc. pose proof (flatten_spec v []) as H. destruct (flatten v []) as [m|e]; [by exists m|].
  destruct H as (p & n & Hn & He). destruct (Hc p n Hn). congruence.
Qed.

(** *** What a scenario must have done *)

(** Names without a dot end at the first one. *)
Lemma undotted_inj (a b x y : pystr) :
  46%N ∉ a → 46%N ∉ b → a ++ u "." ++ x = b ++ u "." ++ y → a = b ∧ x = y.
Proof.
  revert b. induction a as [|c a IH]; intros [|d b] Ha Hb; simpl; intros [= ]; subst; try done; try set_solver.
  destruct (IH b) as [-> ->]; [set_solver|set_solver|done|done].
Qed.

Section Reports.
Context (run : pystr → outcome) (took : pystr → pyfloat) (describe : exn → pystr).

(** A number the gate takes: finite and not negative. *)
Definition good (x : pyfloat) : Prop := isfinite x = true ∧ SFltb x fzero = false.

(** The scenario returned a dict whose numbers are all good and that reports no
    error. *)
Definition ran_clean (name : pystr) (got : list (pystr * value)) : Prop :=
  run name = Returned (Object got) ∧ convertible (Object got) ∧
  (∀ p x, metric (Object got) p x → good x) ∧ (∀ v, assoc (u "error") got = Some v → truthy v = false).

(** Its entry in the report. *)
Definition timed (name : pystr) (got : list (pystr * value)) : value :=
  Object (assoc_set (u "took_s") (Float (took name)) got).

(** The number [x] is reported under [key] by one of the scenarios. *)
Definition reported (wanted : list pystr) (key : pystr) (x : pyfloat) : Prop :=
  ∃ name got rest, name ∈ wanted ∧ run name = Returned (Object got) ∧
    key = name ++ u "." ++ rest ∧ metric (timed name got) rest x.

(** A dict: no key twice, and no two numbers with one dotted name. *)
Definition tidy (v : value) : Prop :=
  unambiguous v ∧ match v with Object kvs => NoDup kvs.*1 | _ => True end.
Context (Htidy : ∀ name v, run name = Returned v → tidy v).

Lemma scenario_result_ok name got :
  scenario_result run describe name = Ok (got, false, false) ↔ ran_clean name got.
Proof using Htidy.
  unfold scenario_result, ran_clean. destruct (run name) as [v|reason|e|e] eqn:Hrun; try (split; [done|by intros (? & _)]).
  destruct v as [| | | | | |kvs]; try (split; [done|by intros (? & _)]).
  destruct (Htidy _ _ Hrun) as [Hu _].
  destruct (flatten (Object kvs) []) as [m|e] eqn:Hm.
  2: { split; [done|]. intros ([= <-] & Hc & _). destruct (flatten_convertible _ Hc). congruence. }
  destruct (flatten_metric _ m Hu Hm) as [Hconv Hmet].
  destruct (existsb _ (map_to_list m)) eqn:Hex.
  { split; [done|]. intros ([= <-] & _ & Hg & _). apply existsb_exists in Hex as ([k x] & Hin & Hbad).
    apply list_elem_of_In, elem_of_map_to_list, Hmet, Hg in Hin as [H1 H2]. cbn [snd] in Hbad. by rewrite H1, H2 in Hbad. }
  assert (∀ p x, metric (Object kvs) p x → good x) as Hgood.
  { intros p x Hx%Hmet. apply elem_of_map_to_list, list_elem_of_In in Hx.
    destruct (negb (isfinite x) || SFltb x fzero) eqn:Hb.
    - assert (existsb (λ kx, negb (isfinite kx.2) || SFltb kx.2 fzero) (map_to_list m) = true); [|congruence].
      apply existsb_exists. by exists (p, x).
    - apply orb_false_iff in Hb as [?%negb_false_iff ?]. by split. }
  destruct (assoc (u "error") kvs) as [w|] eqn:He; [destruct (truthy w) eqn:Hw|].
  all: split; [intros Hok; try done|intros ([= <-] & _ & _ & Herr)].
  - by rewrite (Herr w He) in Hw.
  - injection Hok as <-. split_and!; [done..|]. intros v. rewrite He. by intros [= <-].
  - done.
  - injection Hok as <-. split_and!; [done..|]. intros v. by rewrite He.
  - done.
Qed.

(** What the scenarios returned, and the report of them. *)
Definition got_of (name : pystr) : list (pystr * value) :=
  match run name with Returned (Object got) => got | _ => [] end.
Definition report (wanted : list pystr) (acc : list (pystr * value)) : list (pystr * value) :=
  fold_left (λ acc name, assoc_set name (timed name (got_of name)) acc) wanted acc.

Lemma run_all_ok wanted acc failed unsupported sc :
  run_all run took describe wanted acc failed unsupported = Ok (sc, false, false) ↔
  failed = false ∧ unsupported = false ∧ (∀ name, name ∈ wanted → ran_clean name (got_of name)) ∧
  sc = report wanted acc.
Proof using Htidy.
  revert acc failed unsupported. induction wanted as [|name wanted IH]; intros acc failed unsupported; simpl.
  { split; [intros [= <- <- <-]; split_and!; try done; by intros ? ?%not_elem_of_nil|by intros (-> & -> & _ & ->)]. }
  assert (∀ got, ran_clean name got → got_of name = got) as Hgot by (by intros got [Hr _]; unfold got_of; rewrite Hr).
  assert (ran_clean name (got_of name) ↔ ∃ got, ran_clean name got) as Hiff.
  { split; [by eauto|]. intros [got Hg]. by rewrite (Hgot got Hg). }
  destruct (scenario_result run describe name) as [[[got f] n]|e] eqn:Hs; cbn [mbind result_bind].
  2: { split; [done|]. intros (_ & _ & Hall & _). specialize (Hall name ltac:(by left)).
       apply scenario_result_ok in Hall. congruence. }
  rewrite IH, !orb_false_iff. split.
  - intros ([-> ->] & [-> ->] & Hall & ->). apply scenario_result_ok in Hs. rewrite (Hgot got Hs).
    split_and!; try done. intros x [->|Hx]%elem_of_cons; [apply Hiff; eauto|auto].
  - intros (-> & -> & Hall & ->). pose proof (Hall name ltac:(by left)) as Hn.
    apply scenario_result_ok in Hn. rewrite Hs in Hn. injection Hn as -> -> ->.
    split_and!; try done. intros x Hx. apply Hall. by right.
Qed.

Lemma report_keys wanted acc : NoDup acc.*1 → NoDup (report wanted acc).*1.
Proof using Type.
  clear Htidy. revert acc. induction wanted as [|name wanted IH]; intros acc Hn; [done|]. simpl. apply IH.
  by apply assoc_set_keys.
Qed.

Lemma report_lookup wanted acc name :
  assoc name (report wanted acc) = if bool_decide (name ∈ wanted) then Some (timed name (got_of name)) else assoc name acc.
Proof using Type.
  clear Htidy. revert acc. induction wanted as [|name' wanted IH]; intros acc; simpl; [done|].
  rewrite IH, assoc_set_lookup. repeat case_bool_decide; subst; try done; exfalso; set_solver.
Qed.

Lemma report_elem wanted name v :
  (name, v) ∈ report wanted [] ↔ name ∈ wanted ∧ v = timed name (got_of name).
Proof using Type.
  clear Htidy. assert (NoDup (report wanted []).*1) as Hn by (apply report_keys; constructor). split.
  - intros Hin%(assoc_elem _ _ _ Hn). rewrite report_lookup in Hin. case_bool_decide; [|done]. naive_solver.
  - intros [Hin ->]. apply assoc_key. rewrite report_lookup. by rewrite bool_decide_eq_true_2.
Qed.

(** The numbers of the report are those of the scenarios, under their names. *)
Lemma report_number wanted key n :
  number_at (Object (report wanted [])) key n ↔
  ∃ name rest, name ∈ wanted ∧ key = name ++ u "." ++ rest ∧ number_at (timed name (got_of name)) rest n.
Proof using Type.
  clear Htidy. split.
  - inversion 1 as [? ? ? Hin Hn|? name v rest ? Hin Hn]; subst; apply report_elem in Hin as [Hw ->]; [done|]. eauto.
  - intros (name & rest & Hw & -> & Hn). eapply at_path; [|done]. by apply report_elem.
Qed.

Lemma timed_number name got p n :
  NoDup got.*1 → number_at (timed name got) p n →
  (p = u "took_s" ∧ n = Float (took name)) ∨ (p ≠ u "took_s" ∧ number_at (Object got) p n).
Proof using Type.
  clear Htidy. intros Hnd. unfold timed.
  assert (∀ k v, (k, v) ∈ assoc_set (u "took_s") (Float (took name)) got →
            (k = u "took_s" ∧ v = Float (took name)) ∨ (k ≠ u "took_s" ∧ (k, v) ∈ got)) as Hset.
  { intros k v Hin. apply assoc_elem in Hin; [|by apply assoc_set_keys]. rewrite assoc_set_lookup in Hin.
    case_bool_decide as Hk; [left; split; [done|congruence]|right]. split; [congruence|by apply assoc_key]. }
  inversion 1 as [? k v Hin Hn|? k v q m Hin Hn]; subst; apply Hset in Hin as [[-> ->]|[Hk Hin]].
  - by left.
  - right. split; [done|]. by apply at_key.
  - inversion Hn.
  - right. split; [|by eapply at_path]. intros Hq.
    assert (46%N ∈ u "took_s") as Hdot by (rewrite <-Hq; apply elem_of_app; right; left).
    by apply (bool_decide_pack _) in Hdot.
Qed.

Lemma timed_tidy name : unambiguous (timed name (got_of name)).
Proof using Htidy.
  assert (unambiguous (Object (got_of name)) ∧ NoDup (got_of name).*1) as [Hu Hn].
  { unfold got_of. destruct (run name) as [v| | |] eqn:Hr; [destruct v; try (split; [|constructor])|..].
    all: try (intros p n n' Hx; by apply number_at_nil in Hx). all: try (split; [|constructor]).
    all: try (intros p n n' Hx; by apply number_at_nil in Hx). by apply (Htidy _ _ Hr). }
  intros p n n' H1%timed_number H2%timed_number; [|done..].
  destruct H1 as [[-> ->]|[Hp1 H1]], H2 as [[Hp2 ->]|[Hp2 H2]]; try done. by eapply Hu.
Qed.

Lemma report_unambiguous wanted :
  (∀ name, name ∈ wanted → 46%N ∉ name) → unambiguous (Object (report wanted [])).
Proof using Htidy.
  intros Hw p n n' (a & x & Ha & -> & Hn)%report_number (b & y & Hb & Heq & Hn')%report_number.
  apply undotted_inj in Heq as [-> ->]; auto. by eapply timed_tidy.
Qed.

Lemma report_convertible wanted :
  (∀ name, name ∈ wanted → ran_clean name (got_of name)) → convertible (Object (report wanted [])).
Proof using Htidy.
  intros Hall p n (name & rest & Hw & -> & Hn)%report_number. destruct (Hall name Hw) as (Hr & Hc & _).
  apply timed_number in Hn as [[_ ->]|[_ Hn]]; [by eexists|by eapply Hc|]. by apply (Htidy _ _ Hr).
Qed.

Lemma report_metric wanted key x :
  (∀ name, name ∈ wanted → ran_clean name (got_of name)) →
  metric (Object (report wanted [])) key x ↔ reported wanted key x.
Proof using Type.
  clear Htidy. intros Hall. unfold metric. setoid_rewrite report_number. split.
  - intros (n & (name & rest & Hw & -> & Hn) & Hx). exists name, (got_of name), rest.
    destruct (Hall name Hw) as (Hr & _). split_and!; [done..|]. by exists n.
  - intros (name & got & rest & Hw & Hr & -> & n & Hn & Hx). exists n. split; [|done].
    exists name, rest. split_and!; [done..|]. unfold got_of. by rewrite Hr.
Qed.
End Reports.

(** *** What a metric must have done *)

(** By how much a metric is worse, and whether that is let pass: it is less
    than the noise floor, or no more than the tolerated part of the old value;
    a metric that was zero must stay zero unless more of it is better. *)
Definition loss (key : pystr) (a b : pyfloat) : pyfloat :=
  if bool_decide (key ∈ BIGGER_IS_BETTER) then fsub a b else fsub b a.
Definition tolerable (key : pystr) (floor a b : pyfloat) : Prop :=
  SFltb (SFabs (loss key a b)) floor = true ∨
  (if SFeqb a fzero then SFeqb b fzero = true ∨ key ∈ BIGGER_IS_BETTER
   else SFltb TOLERANCE (fdiv (loss key a b) a) = false).

Lemma fsub_opp a b : fsub (SFopp b) (SFopp a) = fsub a b.
Proof.
  destruct a as [s|s| |s m e], b as [s'|s'| |s' m' e']; try destruct s; try destruct s'; try done;
    unfold fsub, SFsub; cbn [SFopp negb]; rewrite (Z.min_comm e' e); f_equal; cbn [cond_Zopp]; lia.
Qed.

Lemma good_cases x : good x → (∃ s, x = S754_zero s) ∨ ∃ m e, x = S754_finite false m e.
Proof. destruct x as [s|s| |[] m e]; intros [H1 H2]; try done; eauto. Qed.

(** The change in the direction of the metric against the loss. *)
Lemma change_tolerable key floor a b :
  good a → good b →
  (let '(x, y) := if bool_decide (key ∈ BIGGER_IS_BETTER) then (SFopp a, SFopp b) else (a, b) in
   SFltb (SFabs (fsub y x)) floor = true ∨ SFltb TOLERANCE (change_of x y) = false) ↔ tolerable key floor a b.
Proof.
  intros Ha Hb. unfold tolerable, loss, change_of. case_bool_decide as Hk; rewrite ?fsub_opp.
  - destruct (good_cases a Ha) as [[s ->]|(m & e & ->)], (good_cases b Hb) as [[s' ->]|(m' & e' & ->)];
      cbn [SFopp SFabs]; try done.
    all: split; [|intros _; right; by destruct s]; intros _; right; by right.
  - destruct (good_cases a Ha) as [[s ->]|(m & e & ->)], (good_cases b Hb) as [[s' ->]|(m' & e' & ->)];
      cbn [SFabs]; try done.
    + split; [intros _; right; by left|intros _; by right].
    + split; intros [Hl|Hr]; [by left|done|by left|]. by destruct Hr as [Hr|Hr].
Qed.

(** The metric held: in both results, a good number, and worse by a tolerable
    amount at most. *)
Definition held (was is_ : gmap pystr pyfloat) (key : pystr) (floor : pyfloat) : Prop :=
  ∃ a b, was !! key = Some a ∧ is_ !! key = Some b ∧ good a ∧ good b ∧ tolerable key floor a b.

Lemma judge_held was is_ key floor :
  (∀ j, judge was is_ key floor ≠ Worse j) ↔ held was is_ key floor.
Proof.
  unfold judge, held. destruct (was !! key) as [a|]; [|split; [intros H; by destruct (H NoBaseline)|by intros (? & ? & ? & _)]].
  destruct (is_ !! key) as [b|]; [|split; [intros H; by destruct (H NoResult)|by intros (? & ? & _ & ? & _)]].
  destruct (negb (isfinite a) || negb (isfinite b) || SFltb a fzero || SFltb b fzero) eqn:Hbad.
  { split; [intros H; by destruct (H NotANumber)|].
    intros (x & y & [= <-] & [= <-] & [Ha Hna] & [Hb Hnb] & _). by rewrite Ha, Hna, Hb, Hnb in Hbad. }
  rewrite !orb_false_iff, !negb_false_iff in Hbad. destruct Hbad as [[[Ha Hb] Hna] Hnb].
  pose proof (change_tolerable key floor a b (conj Ha Hna) (conj Hb Hnb)) as Ht.
  destruct (if bool_decide (key ∈ BIGGER_IS_BETTER) then (SFopp a, SFopp b) else (a, b)) as [x y].
  split.
  - intros H. exists a, b. split_and!; try done. apply Ht.
    destruct (SFltb (SFabs (fsub y x)) floor); [by left|right].
    destruct (SFltb TOLERANCE (change_of x y)); [|done]. by destruct (H (Changed (change_of x y))).
  - intros (a' & b' & [= <-] & [= <-] & _ & _ & H%Ht) j.
    destruct H as [-> | H]; [done|]. destruct (SFltb (SFabs (fsub y x)) floor); [done|]. rewrite H.
    by destruct (SFltb (change_of x y) (SFopp TOLERANCE)).
Qed.

(** [compare] finds nothing worse exactly when something was compared and
    every metric of the scenarios that ran held. *)
Lemma compare_clean baseline now was is_ :
  flatten (Object baseline) [] = Ok was → flatten (Object now) [] = Ok is_ →
  ∃ worse better, compare baseline now = Ok (worse, better, length (selected now)) ∧
    (worse = [] ↔ selected now ≠ [] ∧ Forall (λ kf, held was is_ kf.1 kf.2) (selected now)).
Proof.
  intros Hw Hi. unfold compare. rewrite Hw, Hi. cbn [mbind result_bind]. rewrite length_map.
  eexists _, _. split; [reflexivity|]. generalize (selected now). intros l.
  assert (∀ l : list (pystr * pyfloat), omap (λ kv : pystr * verdict, match kv.2 with Worse j => Some (kv.1, j) | _ => None end)
    (map (λ kf, (kf.1, judge was is_ kf.1 kf.2)) l) = [] ↔ Forall (λ kf, held was is_ kf.1 kf.2) l) as Hl.
  { intros k. induction k as [|[key floor] k IH]; [done|]. rewrite Forall_cons, <-IH, <-judge_held. simpl.
    destruct (judge was is_ key floor) as [j|j|]; simpl; split; try done.
    - intros [H _]. by destruct (H j).
    - intros [_ H]. done.
    - intros [_ H]. done. }
  rewrite <-Hl. destruct l as [|kf l]; [simpl; split; [done|by intros [? _]]|].
  cbn [length Nat.eqb]. rewrite app_nil_r. split; [done|by intros [_ ?]].
Qed.

Section Gate.
Context (run : pystr → outcome) (took : pystr → pyfloat) (describe : exn → pystr) (coalesces : bool)
  (baseline_file : option (option value)).

Context (Htidy : ∀ name v, run name = Returned v → tidy v).

Lemma undotted_scenarios name : name ∈ SCENARIOS → 46%N ∉ name.
Proof using Type.
  assert (forallb (λ name, negb (bool_decide (46%N ∈ name))) SCENARIOS = true) as H by (vm_compute; reflexivity).
  rewrite forallb_forall in H. intros Hin%list_elem_of_In%H%negb_true_iff.
  by apply bool_decide_eq_false in Hin.
Qed.

Lemma selected_report wanted kf :
  kf ∈ selected (report run took wanted []) ↔ kf ∈ WATCHED ∧ scenario_of kf.1 ∈ wanted.
Proof using Type.
  unfold selected. generalize WATCHED. intros l.
  rewrite list_elem_of_In, filter_In, <-list_elem_of_In, bool_decide_eq_true, report_lookup.
  case_bool_decide as Hin; [|split; [by intros [_ [? ?]]|by intros [_ ?]]].
  split; [intros [? _]|intros [? _]]; (split; [done|]); [done|by eexists].
Qed.

(** The comparison, against the report of scenarios that all ran. *)
Lemma compare_report base wanted :
  unambiguous (Object base) → (∀ name, name ∈ wanted → name ∈ SCENARIOS) →
  (∀ name, name ∈ wanted → ran_clean run name (got_of run name)) →
  (∃ better n, compare base (report run took wanted []) = Ok ([], better, n)) ↔
  convertible (Object base) ∧ (∃ kf, kf ∈ WATCHED ∧ scenario_of kf.1 ∈ wanted) ∧
  ∀ key floor, (key, floor) ∈ WATCHED → scenario_of key ∈ wanted →
    ∃ a b, metric (Object base) key a ∧ reported run took wanted key b ∧ good a ∧ good b ∧ tolerable key floor a b.
Proof using Htidy.
  intros Hb Hw Hall. destruct (flatten_convertible _ (report_convertible run took Htidy _ Hall)) as [is_ Hi].
  destruct (flatten_metric _ is_ (report_unambiguous run took Htidy _ (λ name H, undotted_scenarios name (Hw name H))) Hi)
    as [_ His].
  assert (∀ m, flatten (Object base) [] = Ok m → ∀ key floor, held m is_ key floor ↔
            ∃ a b, metric (Object base) key a ∧ reported run took wanted key b ∧ good a ∧ good b ∧
                   tolerable key floor a b) as Hheld.
  { intros m Hm key floor. destruct (flatten_metric _ m Hb Hm) as [_ Hmet]. unfold held.
    setoid_rewrite Hmet. setoid_rewrite His. by setoid_rewrite (report_metric run took wanted key _ Hall). }
  assert (∀ l : list (pystr * pyfloat), l ≠ [] ↔ ∃ kf, kf ∈ l) as Hne.
  { intros [|kf l]; split; try done; [by intros [? ?%not_elem_of_nil]|]. intros _. exists kf. by left. }
  split.
  - intros (better & n & Hc). destruct (flatten (Object base) []) as [m|e] eqn:Hm;
      [|unfold compare in Hc; by rewrite Hm in Hc].
    destruct (compare_clean base _ m is_ Hm Hi) as (worse & better' & Hc' & Hiff).
    rewrite Hc' in Hc. injection Hc as -> _ _. destruct (proj1 Hiff eq_refl) as [Hsel HF].
    split_and!; [by apply (flatten_metric _ m)| |].
    + apply Hne in Hsel as [kf Hkf]. exists kf. by apply selected_report.
    + intros key floor Hin Hk. apply (Hheld m eq_refl). rewrite Forall_forall in HF.
      apply (HF (key, floor)). by apply selected_report.
  - intros (Hconv & (kf & Hkf) & Hmet). destruct (flatten_convertible _ Hconv) as [m Hm].
    destruct (compare_clean base _ m is_ Hm Hi) as (worse & better & Hc & Hiff).
    exists better, (length (selected (report run took wanted []))). rewrite Hc. repeat f_equal. apply Hiff. split.
    + apply Hne. exists kf. by apply selected_report.
    + apply Forall_forall. intros [key floor] [Hin Hk]%selected_report. apply (Hheld m Hm). by apply Hmet.
Qed.

(** C38: what a comparison that passes means.  With [--check], arguments and a
    baseline that are in order, and results whose numbers have distinct
    dotted names, exit code 0 means exactly this: every scenario asked for
    returned a dict, with no error in it and only finite numbers that are not
    negative; at least one watched metric belongs to them; and every watched
    metric that does is in the baseline and in what its scenario reports, and
    is worse by less than its noise floor or by no more than a fifth of its
    old value -- from zero, not at all. *)
Theorem gate_passes_exactly args base :
  prepare coalesces baseline_file args = Some (Some base) →
  unambiguous (Object base) → (∀ name, name ∈ wanted_of args → name ∈ SCENARIOS) →
  main run took describe coalesces baseline_file args = Ok 0 ↔
  (∀ name, name ∈ wanted_of args → ∃ got, ran_clean run name got) ∧
  convertible (Object base) ∧
  (∃ kf, kf ∈ WATCHED ∧ scenario_of kf.1 ∈ wanted_of args) ∧
  ∀ key floor, (key, floor) ∈ WATCHED → scenario_of key ∈ wanted_of args →
    ∃ a b, metric (Object base) key a ∧ reported run took (wanted_of args) key b ∧
      good a ∧ good b ∧ tolerable key floor a b.
Proof using Htidy.
  intros Hp Hb Hw. unfold main. rewrite Hp.
  assert ((∀ name, name ∈ wanted_of args → ∃ got, ran_clean run name got) ↔
          ∀ name, name ∈ wanted_of args → ran_clean run name (got_of run name)) as ->.
  { split; intros H name Hin; [|by eauto]. destruct (H name Hin) as (got & Hgot). unfold got_of.
    by rewrite (proj1 Hgot). }
  split.
  - destruct (run_all run took describe _ [] false false) as [[[sc failed] unsup]|e] eqn:Hr; [|done].
    cbn [mbind result_bind]. destruct (compare base sc) as [[[worse better] n]|e] eqn:Hc; [|done].
    cbn [mbind result_bind]. case_bool_decide as Hworse; [|done]. destruct failed, unsup; try done. intros _. subst.
    apply (run_all_ok run took describe Htidy) in Hr as (_ & _ & Hall & ->). split; [done|].
    apply compare_report; eauto.
  - intros [Hall Hrest]. destruct (proj2 (compare_report base _ Hb Hw Hall) Hrest) as (better & n & Hc).
    rewrite (proj2 (run_all_ok run took describe Htidy (wanted_of args) [] false false
      (report run took (wanted_of args) []))) by done.
    cbn [mbind result_bind]. by rewrite Hc.
Qed.
End Gate.

(** A finite number less itself is a zero. *)
Lemma fsub_self x : isfinite x = true → SFabs (fsub x x) = fzero.
Proof.
  destruct x as [s|s| |s m e]; try done; intros _; [by destruct s|].
  unfold fsub, SFsub. rewrite Z.sub_diag. done.
Qed.

(** Every noise floor is above zero, every watched metric belongs to a
    scenario, and the direction is given for watched metrics only. *)
Lemma tables_consistent :
  forallb (λ kf, SFltb fzero kf.2 && bool_decide (scenario_of kf.1 ∈ SCENARIOS)) WATCHED = true ∧
  forallb (λ k, bool_decide (k ∈ WATCHED.*1)) BIGGER_IS_BETTER = true.
Proof. split; vm_compute; reflexivity. Qed.

Lemma floor_positive now kf : kf ∈ selected now → SFltb fzero kf.2 = true.
Proof.
  unfold selected. intros Hin. apply list_elem_of_In, filter_In in Hin as [Hin _].
  pose proof (proj1 tables_consistent) as Ht. revert Ht Hin. generalize WATCHED. intros l Ht Hin.
  rewrite forallb_forall in Ht. specialize (Ht kf Hin). by apply andb_true_iff in Ht as [? _].
Qed.

(** A metric compared with itself. *)
Lemma held_self was key floor x :
  was !! key = Some x → isfinite x = true → SFltb x fzero = false → SFltb fzero floor = true → held was was key floor.
Proof.
  intros Hx Hf Hn Hfl. exists x, x. split_and!; try done. left. unfold loss.
  case_bool_decide; by rewrite fsub_self.
Qed.

(** A build compared with its own numbers passes. *)
Theorem same_numbers_pass scenarios was :
  flatten (Object scenarios) [] = Ok was → selected scenarios ≠ [] →
  Forall (λ kf, ∃ x, was !! kf.1 = Some x ∧ isfinite x = true ∧ SFltb x fzero = false) (selected scenarios) →
  ∃ better, compare scenarios scenarios = Ok ([], better, length (selected scenarios)).
Proof.
  intros Hw Hne Hall. destruct (compare_clean scenarios scenarios was was Hw Hw) as (worse & better & Hc & Hiff).
  assert (worse = []) as ->; [|by exists better]. apply Hiff. split; [exact Hne|].
  pose proof (floor_positive scenarios) as Hpos. clear Hiff Hc Hne. revert Hall Hpos.
  generalize (selected scenarios). intros l Hall Hpos. rewrite Forall_forall in Hall |- *. intros kf Hin.
  destruct (Hall kf Hin) as (x & Hx & Hf & Hn). apply (held_self was kf.1 kf.2 x); auto.
Qed.

(** ** Examples *)

Definition demo_result : list (pystr * value) :=
  [(u "p50_ms", Float (decimal 12 1)); (u "p90_ms", Int 3)].

Definition demo_scenarios : list (pystr * value) :=
  [(u "rpc_latency", Object (demo_result ++ [(u "took_s", Float (decimal 5 1))]))].

Definition demo_run (name : pystr) : outcome := Returned (Object demo_result).
Definition demo_baseline : value :=
  Object [(u "format_version", Int 2); (u "settings", Object [(u "ttl_ms", Int 2000); (u "coalesce_ms", Null)]);
          (u "scenarios", Object demo_scenarios)].
Definition demo_args : bench_args := BenchArgs (Some [u "rpc_latency"]) None true.

Definition demo_main (run : pystr → outcome) : res Z :=
  main run (λ _, decimal 5 1) (λ _, []) true (Some (Some demo_baseline)) demo_args.

Lemma demo_tidy name v : demo_run name = Returned v → tidy v.
Proof.
  intros [= <-]. split; [|apply NoDup_cons; split; [|apply NoDup_singleton]; by intros ?%list_elem_of_singleton].
  intros p n n'. unfold demo_result. rewrite !number_at_cons.
  intros [(-> & -> & _)|[(r & -> & Hr)|[(-> & -> & _)|[(r & -> & Hr)|?%number_at_nil]]]]; try done; try (by inversion Hr).
  all: intros [(Hp & -> & _)|[(r & Hp & Hr)|[(Hp & -> & _)|[(r & Hp & Hr)|?%number_at_nil]]]]; try done;
    by inversion Hr.
Qed.

Lemma demo_unambiguous : unambiguous (Object demo_scenarios).
Proof.
  apply (report_unambiguous demo_run (λ _, decimal 5 1) demo_tidy [u "rpc_latency"]).
  by intros name ->%list_elem_of_singleton ?%(bool_decide_pack _).
Qed.

(** The one scenario run returned clean numbers, and its latency is tolerable. *)
Lemma gate_passes_exactly_witness :
  (∃ got, ran_clean demo_run (u "rpc_latency") got) ∧
  ∃ a b, metric (Object demo_scenarios) (u "rpc_latency.p50_ms") a ∧
    reported demo_run (λ _, decimal 5 1) [u "rpc_latency"] (u "rpc_latency.p50_ms") b ∧
    good a ∧ good b ∧ tolerable (u "rpc_latency.p50_ms") (decimal 5 2) a b.
Proof.
  destruct (proj1 (gate_passes_exactly demo_run (λ _, decimal 5 1) (λ _, []) true (Some (Some demo_baseline))
    demo_tidy demo_args demo_scenarios eq_refl demo_unambiguous
    ltac:(intros name ->%list_elem_of_singleton; by apply (bool_decide_unpack _))) eq_refl)
    as (Hran & _ & _ & Hmet).
  split; [apply Hran; by left|]. apply Hmet; [|by left].
  unfold WATCHED. left.
Defined.

(** A quarter slower, or a scenario that could not run, and the gate closes. *)
Example gate_closes :
  demo_main demo_run = Ok 0 ∧
  demo_main (λ _, Returned (Object [(u "p50_ms", Float (decimal 15 1)); (u "p90_ms", Int 3)])) = Ok 1 ∧
  demo_main (λ _, Returned (Object [(u "p50_ms", Float (decimal 12 1))])) = Ok 1 ∧
  demo_main (λ _, UnsupportedScenario []) = Ok 1 ∧
  demo_main (λ _, Failed (Exc RuntimeError)) = Ok 1.
Proof. split_and!; vm_compute; reflexivity. Qed.
