(* ===== verification/BenchHarness.v ===== *)
(** * The registries a benchmark runs against

    [Registry], [joined] and [leave_members] of [bench.py]: nested contexts, each
    with a registry process, the members joined while it was the innermost
    one, and the [TINYRAY_REGISTRY] it put in the place of the one before.
    Whether a registry answers before its deadline, whether stopping it fails
    and which of the joins and leaves raise are parameters. *)

From S2P Require Import Prelude PyStr Errors.

Local Open Scope Z_scope.

(** [class Registry]: the object, its endpoint, the members of its
    [ExitStack], newest first, and [previous_endpoint]. *)
Record registry := Registry {
  rg_id : nat;
  rg_endpoint : pystr;
  rg_members : list nat;
  rg_previous : option pystr
}.

(** The process: [TINYRAY_REGISTRY], [_registries] with the innermost first,
    how many registries and members there have been, and what was stopped and
    who left, in order. *)
Record world := World {
  w_env : option pystr;
  w_registries : list registry;
  w_next : nat;
  w_joined : nat;
  w_stopped : list nat;
  w_left : list nat
}.

Notation B := (M world exn).

Section Harness.
(** The address of a registry, whether it comes up, and what fails. *)
Context (endpoint_of : nat → pystr) (comes_up : nat → bool) (stop_fails : nat → option exn)
  (join_fails : nat → option exn) (leave_fails : nat → option exn).

(** [Registry.stop] *)
Definition stop (i : nat) : B unit :=
  _ ← modify (λ w, World (w_env w) (w_registries w) (w_next w) (w_joined w) (w_stopped w ++ [i]) (w_left w));
  match stop_fails i with Some e => raise e | None => mret tt end.

(** [member.leave] *)
Definition leave (m : nat) : B unit :=
  _ ← modify (λ w, World (w_env w) (w_registries w) (w_next w) (w_joined w) (w_stopped w) (w_left w ++ [m]));
  match leave_fails m with Some e => raise e | None => mret tt end.

(** [ExitStack.close]: every callback runs, and the last exception is raised. *)
Fixpoint close_members (pending : option exn) (members : list nat) : B unit :=
  match members with
  | [] => match pending with Some e => raise e | None => mret tt end
  | m :: members =>
      r ← attempt (leave m);
      close_members (match r with Ok _ => pending | Raise e => Some e end) members
  end.

(** [__enter__]: the object [i] is entered under the endpoint in force. *)
Definition enter_ : B registry :=
  i ← gets w_next;
  _ ← modify (λ w, World (w_env w) (w_registries w) (S (w_next w)) (w_joined w) (w_stopped w) (w_left w));
  if comes_up i then
    previous ← gets w_env;
    let r := Registry i (endpoint_of i) [] previous in
    _ ← modify (λ w, World (Some (endpoint_of i)) (r :: w_registries w) (w_next w) (w_joined w) (w_stopped w) (w_left w));
    mret r
  else _ ← stop i; raise (Exc RuntimeError).

(** The innermost [finally] of [__exit__]. *)
Definition pop_registry (i : nat) : B unit :=
  rs ← gets w_registries;
  match rs with
  | [] => raise (Exc IndexError)
  | r :: rs =>
      _ ← modify (λ w, World (w_env w) rs (w_next w) (w_joined w) (w_stopped w) (w_left w));
      if negb (bool_decide (rg_id r = i)) then raise (Exc RuntimeError)
      else modify (λ w, World (rg_previous r) (w_registries w) (w_next w) (w_joined w) (w_stopped w) (w_left w))
  end.

(** [try: m finally: f] when [f] may raise too. *)
Definition finally_do {A} (m : B A) (f : B unit) : B A :=
  r ← attempt m; _ ← f; lift r.

(** [self.members], and the objects once they have been closed. *)
Definition members_of (i : nat) (rs : list registry) : list nat :=
  concat ((λ r, if bool_decide (rg_id r = i) then rg_members r else []) <$> rs).
Definition emptied (i : nat) (rs : list registry) : list registry :=
  (λ r, if bool_decide (rg_id r = i) then Registry (rg_id r) (rg_endpoint r) [] (rg_previous r) else r) <$> rs.

(** [self.members.close()] *)
Definition close_stack (i : nat) : B unit :=
  rs ← gets w_registries;
  _ ← modify (λ w, World (w_env w) (emptied i rs) (w_next w) (w_joined w) (w_stopped w) (w_left w));
  close_members None (members_of i rs).

(** [__exit__] *)
Definition exit_ (i : nat) : B unit :=
  finally_do (close_stack i) (finally_do (stop i) (pop_registry i)).

(** [joined]: [join_fails] is the check of what this build's [join] takes, or
    [tinyray.join] itself. *)
Definition joined : B nat :=
  rs ← gets w_registries;
  match rs with
  | [] => raise (Exc RuntimeError)
  | r :: rs =>
      m ← gets w_joined;
      match join_fails m with
      | Some e => raise e
      | None =>
          _ ← modify (λ w, World (w_env w) (Registry (rg_id r) (rg_endpoint r) (m :: rg_members r) (rg_previous r) :: rs)
                        (w_next w) (S (w_joined w)) (w_stopped w) (w_left w));
          mret m
      end
  end.

(** [leave_members] *)
Definition leave_members : B unit :=
  rs ← gets w_registries;
  match rs with [] => mret tt | r :: _ => close_stack (rg_id r) end.

(** What a scenario does with them. *)
Inductive scenario :=
| Skip
| Raises (e : exn)
| Joins
| Leaves
| Then (a b : scenario)
| Tries (a : scenario)
| With (body : scenario).

Fixpoint perform (p : scenario) : B unit :=
  match p with
  | Skip => mret tt
  | Raises e => raise e
  | Joins => _ ← joined; mret tt
  | Leaves => leave_members
  | Then a b => _ ← perform a; perform b
  | Tries a => _ ← attempt (perform a); mret tt
  | With body => r ← enter_; finally_do (perform body) (exit_ (rg_id r))
  end.

(** ** Lemmas *)

(** What a context must find as it left it. *)
Definition shape (w : world) : option pystr * list (nat * pystr * option pystr) :=
  (w_env w, (λ r, (rg_id r, rg_endpoint r, rg_previous r)) <$> w_registries w).

(** Every member that joined is in a context or has left, once; and every
    registry that was started is in use or was stopped, once. *)
Record tidy (w : world) : Prop := Tidy {
  t_members : w_left w ++ concat (rg_members <$> w_registries w) ≡ₚ seq 0 (w_joined w);
  t_registries : w_stopped w ++ (rg_id <$> w_registries w) ≡ₚ seq 0 (w_next w)
}.

Lemma leave_unfold m w :
  leave m w = (match leave_fails m with Some e => Raise e | None => Ok tt end,
               World (w_env w) (w_registries w) (w_next w) (w_joined w) (w_stopped w) (w_left w ++ [m])).
Proof. unfold leave. rewrite M_bind_unfold. simpl. by destruct (leave_fails m). Qed.

Lemma close_members_spec ms : ∀ pending w,
  (close_members pending ms w).2 = World (w_env w) (w_registries w) (w_next w) (w_joined w) (w_stopped w) (w_left w ++ ms).
Proof.
  induction ms as [|m ms IH]; intros pending w; cbn [close_members].
  - rewrite app_nil_r. by destruct pending, w.
  - rewrite M_bind_unfold. unfold attempt. rewrite leave_unfold, IH. simpl. by rewrite <- app_assoc.
Qed.

Lemma close_stack_spec i w :
  (close_stack i w).2 = World (w_env w) (emptied i (w_registries w)) (w_next w) (w_joined w) (w_stopped w)
                          (w_left w ++ members_of i (w_registries w)).
Proof. apply close_members_spec. Qed.

Lemma emptied_ids i rs : (λ r, (rg_id r, rg_endpoint r, rg_previous r)) <$> emptied i rs = (λ r, (rg_id r, rg_endpoint r, rg_previous r)) <$> rs.
Proof. induction rs as [|r rs IH]; [done|]. simpl. f_equal; [by case_bool_decide|done]. Qed.

Lemma emptied_members i rs : members_of i rs ++ concat (rg_members <$> emptied i rs) ≡ₚ concat (rg_members <$> rs).
Proof.
  induction rs as [|r rs IH]; [done|]. unfold members_of, emptied in *. simpl. rewrite <- IH. case_bool_decide; simpl; solve_Permutation.
Qed.

Lemma shape_ids w v : shape w = shape v → (rg_id <$> w_registries w) = rg_id <$> w_registries v.
Proof.
  intros [= _ Hs]. assert (∀ rs : list registry, rg_id <$> rs = (λ x : nat * pystr * option pystr, x.1.1) <$>
    ((λ r, (rg_id r, rg_endpoint r, rg_previous r)) <$> rs)) as Hr by (intros rs; by rewrite <- list_fmap_compose).
  by rewrite (Hr (w_registries w)), Hs, <- Hr.
Qed.

Lemma close_tidy i w : tidy w → tidy (close_stack i w).2 ∧ shape (close_stack i w).2 = shape w.
Proof.
  intros [H1 H2]. rewrite close_stack_spec. assert (shape (World (w_env w) (emptied i (w_registries w)) (w_next w) (w_joined w)
    (w_stopped w) (w_left w ++ members_of i (w_registries w))) = shape w) as Hs by (unfold shape; simpl; by rewrite emptied_ids).
  split; [|done]. split; simpl.
  - by rewrite <- app_assoc, emptied_members.
  - apply shape_ids in Hs. simpl in Hs. by rewrite Hs.
Qed.

Lemma finally_do_state {A} (m : B A) (f : B unit) w : (finally_do m f w).2 = (f (m w).2).2.
Proof.
  unfold finally_do, attempt, mbind, M_bind, lift. destruct (m w) as [r w1]. cbn [snd]. by destruct (f w1) as [[[]|e] w2].
Qed.

Lemma stop_state i w :
  (stop i w).2 = World (w_env w) (w_registries w) (w_next w) (w_joined w) (w_stopped w ++ [i]) (w_left w).
Proof. unfold stop. rewrite M_bind_unfold. simpl. by destruct (stop_fails i). Qed.

(** [__exit__] of the innermost context. *)
Lemma exit_tidy i e prev env rest w :
  tidy w → shape w = (env, (i, e, prev) :: rest) → NoDup (i :: rest.*1.*1) →
  tidy (exit_ i w).2 ∧ shape (exit_ i w).2 = (prev, rest).
Proof.
  intros Hw Hs Hn. unfold exit_. rewrite !finally_do_state, stop_state. destruct (close_tidy i w Hw) as [[T1 T2] Hsh].
  rewrite Hs in Hsh. pose proof (close_stack_spec i w) as Hc. set (v := (close_stack i w).2) in *.
  unfold pop_registry. rewrite M_bind_unfold. cbn [gets w_registries].
  unfold shape in Hsh. destruct (w_registries v) as [|r rs] eqn:Hrs; [done|]. simpl in Hsh. injection Hsh as Henv Hid Hep Hpv Hrest.
  rewrite M_bind_unfold. cbn [modify]. rewrite Hid, bool_decide_true by done. simpl.
  assert (rg_members r = []) as Hm.
  { rewrite Hc in Hrs. simpl in Hrs. unfold emptied in Hrs. destruct (w_registries w) as [|r0 rs0]; [done|]. simpl in Hrs.
    injection Hrs as Hr _. rewrite <- Hr in Hid |- *. case_bool_decide; [done|]. by destruct H. }
  split; [split; simpl|].
  - simpl in T1. by rewrite Hm in T1.
  - simpl in T2. rewrite Hid in T2. by rewrite <- app_assoc.
  - unfold shape. cbn [w_env w_registries]. rewrite Hpv. by f_equal.
Qed.

Lemma tidy_ids w : tidy w → NoDup (rg_id <$> w_registries w) ∧ ∀ i, i ∈ (rg_id <$> w_registries w) → (i < w_next w)%nat.
Proof.
  intros [_ H2]. assert (NoDup (w_stopped w ++ (rg_id <$> w_registries w))) as Hn by (rewrite H2; apply NoDup_seq).
  split; [by apply NoDup_app in Hn as (_ & _ & ?)|]. intros i Hi. assert (i ∈ seq 0 (w_next w)) as Hs.
  { rewrite <- H2. apply elem_of_app. by right. }
  apply elem_of_seq in Hs. lia.
Qed.

Lemma enter_tidy w :
  tidy w →
  match enter_ w with
  | (Ok r, v) => tidy v ∧ shape v = (Some (rg_endpoint r), (rg_id r, rg_endpoint r, w_env w) :: (shape w).2) ∧ rg_id r = w_next w
  | (Raise _, v) => tidy v ∧ shape v = shape w
  end.
Proof.
  intros [H1 H2]. assert (w_stopped w ++ w_next w :: (rg_id <$> w_registries w) ≡ₚ seq 0 (S (w_next w))) as H3.
  { rewrite seq_S, <- H2. simpl. solve_Permutation. }
  unfold enter_, stop, mbind, M_bind, gets, modify, raise, mret, M_ret. destruct (comes_up (w_next w)); [by split_and!|].
  destruct (stop_fails (w_next w)); (split; [split|]); try done;
    cbn [w_stopped w_registries w_next]; rewrite <- app_assoc; exact H3.
Qed.

Lemma joined_tidy w : tidy w → tidy (joined w).2 ∧ shape (joined w).2 = shape w.
Proof.
  intros [H1 H2]. unfold joined, mbind, M_bind, gets, modify, raise, mret, M_ret.
  destruct (w_registries w) as [|r rs] eqn:Hr; [by split; [split; simpl; rewrite ?Hr|]|].
  destruct (join_fails (w_joined w)); [by split; [split; simpl; rewrite ?Hr|]|]. split; [split|].
  - cbn [snd w_left w_registries w_joined]. rewrite seq_S, <- H1. simpl. solve_Permutation.
  - done.
  - unfold shape. simpl. by rewrite Hr.
Qed.

Lemma perform_tidy p : ∀ w, tidy w → tidy (perform p w).2 ∧ shape (perform p w).2 = shape w.
Proof.
  induction p as [|e| | |a IHa b IHb|a IHa|body IH]; intros w Hw; cbn [perform].
  - done.
  - done.
  - pose proof (joined_tidy w Hw) as Hj. rewrite M_bind_unfold. by destruct (joined w) as [[m|e] v].
  - unfold leave_members. rewrite M_bind_unfold. cbn [gets]. destruct (w_registries w); [done|]. by apply close_tidy.
  - specialize (IHa w Hw). rewrite M_bind_unfold. destruct (perform a w) as [[[]|e] v]; [|done]. cbn [snd] in IHa. destruct IHa as [Hv Hs].
    destruct (IHb v Hv) as [? Hs']. split; [done|congruence].
  - specialize (IHa w Hw). rewrite M_bind_unfold. unfold attempt. by destruct (perform a w) as [r v].
  - pose proof (enter_tidy w Hw) as He. rewrite M_bind_unfold. destruct (enter_ w) as [[r|e] v]; [|done].
    destruct He as (Hv & Hs & Hid). rewrite finally_do_state. destruct (IH v Hv) as [Hb Hsb]. rewrite Hs in Hsb.
    destruct (exit_tidy (rg_id r) _ _ _ _ _ Hb Hsb) as [Ht Hsh]; [|by split; [|rewrite Hsh; by destruct w]].
    destruct (tidy_ids w Hw) as [Hn Hlt]. apply NoDup_cons. unfold shape. simpl. rewrite <- !list_fmap_compose. split; [|done].
    intros Hin. rewrite Hid in Hin. apply Hlt in Hin. lia.
Qed.

(** ** Theorem *)

(** However registries are nested, whatever fails on the way, coming up,
    joining, leaving, stopping or the scenario itself: when the outermost context
    is left, [TINYRAY_REGISTRY] is what it was, no context is open, every registry
    that was started has been stopped and every member that joined has left, once
    each. *)
Theorem contexts_leave_nothing_behind p env :
  let w := (perform p (World env [] 0 0 [] [])).2 in
  w_env w = env ∧ w_registries w = [] ∧ w_left w ≡ₚ seq 0 (w_joined w) ∧ w_stopped w ≡ₚ seq 0 (w_next w).
Proof.
  cbv zeta. destruct (perform_tidy p (World env [] 0 0 [] [])) as [[H1 H2] Hs]; [by split|]. set (w := (perform p _).2) in *.
  injection Hs as He Hr. apply fmap_nil_inv in Hr. rewrite Hr in H1, H2. simpl in *. rewrite !app_nil_r in *. done.
Qed.

End Harness.

(** A member whose [leave] raises, inside a context inside another whose
    registry does not stop. *)
Example nested_contexts :
  let '(r, w) := perform (λ i, u "127.0.0.1:700" ++ dec (N.of_nat i)) (λ _, true)
                   (λ i, if bool_decide (i = 0%nat) then Some (Exc TimeoutError) else None) (λ _, None)
                   (λ m, if bool_decide (m = 1%nat) then Some (Exc KeyError) else None)
                   (With (Then Joins (With (Then Joins Joins)))) (World (Some (u "10.0.0.1:9")) [] 0 0 [] []) in
  r = Raise (Exc TimeoutError) ∧ w_env w = Some (u "10.0.0.1:9") ∧ w_left w = [2; 1; 0]%nat ∧ w_stopped w = [1; 0]%nat.
Proof. vm_compute. by split_and!. Qed.
