(* ===== verification/AgentPool.v ===== *)
(** * The agent pool example

    [examples/agent_pool/pool.py]: a work queue served as a member of a pool.
    Attempts are submitted, pulled by workers, completed, cancelled, and taken
    back from workers that have been gone for a grace period.  The state is
    the dataclass; [attempts] keeps the order its entries were made in, which
    is the order [reclaim] queues them again in.  The call that tells a worker
    to stop is a parameter: it returns, or raises whatever a call can raise. *)

From S2P Require Import Prelude PyStr PyFloat Errors Json.
From Stdlib Require Import SpecFloat.

Local Open Scope Z_scope.

(** [State] *)
Inductive state := Pending | Running | Completed | Cancelled.

#[global] Instance state_eq_dec : EqDecision state.
Proof. solve_decision. Defined.

(** [class Attempt] *)
Record attempt := Attempt {
  at_id : pystr;
  at_payload : value;
  at_state : state;
  at_worker : option pystr;
  at_result : option value
}.

(** [class Catalog] *)
Record catalog := Catalog { cg_capability : pystr; cg_fingerprint : pystr; cg_num_tasks : Z }.

#[global] Instance catalog_eq_dec : EqDecision catalog.
Proof. solve_decision. Defined.

(** [class AgentPool] *)
Record agent_pool := AgentPool {
  ap_capacity : Z;
  ap_catalog : catalog;
  ap_queue : list pystr;
  ap_attempts : list (pystr * attempt);
  ap_stopping : bool;
  ap_last_seen : gmap pystr pyfloat
}.

Definition handler := M agent_pool exn.

Definition with_work (p : agent_pool) (queue : list pystr) (attempts : list (pystr * attempt)) : agent_pool :=
  AgentPool (ap_capacity p) (ap_catalog p) queue attempts (ap_stopping p) (ap_last_seen p).

(** [self.attempts[attempt_id]] *)
Definition record_of (attempt_id : pystr) : handler attempt :=
  p ← get;
  match assoc attempt_id (ap_attempts p) with Some r => mret r | None => raise (Exc KeyError) end.

(** Writing to the fields of a record. *)
Definition write_record (r : attempt) : handler unit :=
  modify (λ p, with_work p (ap_queue p) (assoc_set (at_id r) r (ap_attempts p))).

(** [AgentPool.announce] *)
Definition announce (capability fingerprint : pystr) (num_tasks : Z) : handler Z :=
  p ← get;
  if bool_decide (Catalog capability fingerprint num_tasks = ap_catalog p)
  then mret (cg_num_tasks (ap_catalog p)) else raise (Exc ValueError).

(** [AgentPool.submit_attempt] *)
Definition submit_attempt (attempt_id : pystr) (payload : value) : handler Z :=
  p ← get;
  if ap_capacity p <=? Z.of_nat (length (ap_queue p)) then raise (Exc RuntimeError)
  else
    let queue := ap_queue p ++ [attempt_id] in
    _ ← modify (λ p, with_work p queue (assoc_set attempt_id (Attempt attempt_id payload Pending None None) (ap_attempts p)));
    mret (Z.of_nat (length queue)).

(** [AgentPool.pull_work] *)
Definition pull_work (worker : pystr) : handler (option (pystr * value)) :=
  p ← get;
  if ap_stopping p then mret None
  else match ap_queue p with
       | [] => mret None
       | attempt_id :: queue =>
           _ ← modify (λ p, with_work p queue (ap_attempts p));
           r ← record_of attempt_id;
           _ ← write_record (Attempt (at_id r) (at_payload r) Running (Some worker) (at_result r));
           mret (Some (at_id r, at_payload r))
       end.

Definition open_attempt (r : attempt) : bool :=
  match at_state r with Pending | Running => true | _ => false end.

(** [AgentPool.outstanding] *)
Definition outstanding (p : agent_pool) : nat := length (List.filter (λ kr, open_attempt kr.2) (ap_attempts p)).

(** [AgentPool.submit_result] *)
Definition submit_result (worker attempt_id : pystr) (result : value) : handler (state * nat) :=
  r ← record_of attempt_id;
  if negb (bool_decide (at_worker r = Some worker)) then raise (Exc ValueError)
  else if negb (open_attempt r) then n ← gets outstanding; mret (at_state r, n)
  else
    _ ← write_record (Attempt (at_id r) (at_payload r) Completed (at_worker r) (Some result));
    n ← gets outstanding;
    mret (Completed, n).

Section Cancel.
(** [tinyray.pool("agent").pick(worker=...).kill(attempt_id)] *)
Context (kill : pystr → pystr → res unit).

(** [AgentPool.cancel] *)
Definition cancel (attempt_id detail : pystr) : handler state :=
  r ← record_of attempt_id;
  if negb (open_attempt r) then mret (at_state r)
  else
    _ ← write_record (Attempt (at_id r) (at_payload r) Cancelled (at_worker r)
          (Some (Object [(u "status", Str (u "cancelled")); (u "detail", Str detail)])));
    _ ← match at_worker r with
        | Some ((_ :: _) as w) =>
            lift (catch (kill w attempt_id)
                    (λ e, if matches [NotDelivered; NotFound; OutcomeUnknown; Fenced] e then Some (Ok tt) else None))
        | _ => mret tt
        end;
    mret Cancelled.
End Cancel.

(** [for worker in live: if worker: self.last_seen[worker] = now] *)
Definition note_live (now : pyfloat) (live : list (option pystr)) (seen : gmap pystr pyfloat) : gmap pystr pyfloat :=
  fold_left (λ seen w, match w with Some ((_ :: _) as w) => <[w := now]> seen | _ => seen end) live seen.

(** Whether [reclaim] takes an attempt back. *)
Definition lost (now grace : pyfloat) (live : list (option pystr)) (seen : gmap pystr pyfloat) (r : attempt) : bool :=
  bool_decide (at_state r = Running) && negb (bool_decide (at_worker r ∈ live)) &&
  match at_worker r with
  | Some w => match seen !! w with Some t => negb (SFltb (fsub now t) grace) | None => false end
  | None => false
  end.

(** [AgentPool.reclaim] *)
Definition reclaim (now grace : pyfloat) (live : list (option pystr)) : handler nat :=
  p ← get;
  let seen := note_live now live (ap_last_seen p) in
  let gone := List.filter (λ kr, lost now grace live seen kr.2) (ap_attempts p) in
  _ ← modify (λ p, AgentPool (ap_capacity p) (ap_catalog p) (ap_queue p ++ map (λ kr, at_id kr.2) gone)
        (map (λ kr, if lost now grace live seen kr.2
                    then (kr.1, Attempt (at_id kr.2) (at_payload kr.2) Pending None (at_result kr.2)) else kr)
           (ap_attempts p)) (ap_stopping p) seen);
  mret (length gone).

(** The loop that opens [serve]: attempts "a-0", "a-1", ... *)
Fixpoint submit_from (i n : nat) : handler unit :=
  match n with
  | O => mret tt
  | S n' => _ ← submit_attempt (u "a-" ++ dec (N.of_nat i)) (Object [(u "task", Int (Z.of_nat i))]);
            submit_from (S i) n'
  end.

Definition new_agent_pool (capacity : Z) (c : catalog) : agent_pool := AgentPool capacity c [] [] false ∅.

(** ** How a pool moves *)

(** Whatever arrives, one request at a time; an id is submitted once. *)
Inductive pool_step (p : agent_pool) : agent_pool → Prop :=
| on_submit i payload : assoc i (ap_attempts p) = None → pool_step p (submit_attempt i payload p).2
| on_pull worker : pool_step p (pull_work worker p).2
| on_result worker i result : pool_step p (submit_result worker i result p).2
| on_cancel kill i detail : pool_step p (cancel kill i detail p).2
| on_reclaim now grace live : pool_step p (reclaim now grace live p).2
| on_stop : pool_step p (AgentPool (ap_capacity p) (ap_catalog p) (ap_queue p) (ap_attempts p) true (ap_last_seen p)).

(** The invariant: one entry per id, under its own id; the queue has no id
    twice and holds every attempt that is pending, and besides those only
    cancelled ones, none of them with a worker; a running attempt has one. *)
Record pool_ok (p : agent_pool) : Prop := {
  pk_keys : NoDup (ap_attempts p).*1;
  pk_ids : ∀ i r, assoc i (ap_attempts p) = Some r → at_id r = i;
  pk_queue : NoDup (ap_queue p);
  pk_queued : ∀ i, i ∈ ap_queue p → ∃ r, assoc i (ap_attempts p) = Some r ∧ at_worker r = None ∧
    (at_state r = Pending ∨ at_state r = Cancelled);
  pk_pending : ∀ i r, assoc i (ap_attempts p) = Some r → at_state r = Pending → i ∈ ap_queue p;
  pk_running : ∀ i r, assoc i (ap_attempts p) = Some r → at_state r = Running → is_Some (at_worker r)
}.

(** An entry written over, its id being the key. *)
Lemma write_ok p q i r :
  pool_ok p → NoDup q → at_id r = i →
  (∀ j, j ≠ i → j ∈ q ↔ j ∈ ap_queue p) →
  (i ∈ q → at_worker r = None ∧ (at_state r = Pending ∨ at_state r = Cancelled)) →
  (at_state r = Pending → i ∈ q) → (at_state r = Running → is_Some (at_worker r)) →
  pool_ok (with_work p q (assoc_set i r (ap_attempts p))).
Proof.
  intros [Hk Hi Hn Hq Hp Hr] Hnq Hid Hsame Hin Hpend Hrun. split; cbn [ap_attempts ap_queue with_work].
  - by apply assoc_set_keys.
  - intros j r'. rewrite assoc_set_lookup. case_bool_decide as He; [subst; by intros [= <-]|apply Hi].
  - done.
  - intros j Hj. rewrite assoc_set_lookup. case_bool_decide as He; [subst; exists r; naive_solver|].
    apply Hq. apply Hsame; [congruence|done].
  - intros j r'. rewrite assoc_set_lookup. case_bool_decide as He; [subst j; intros [= <-]; auto|].
    intros Ha Hs. apply Hsame; [congruence|]. by eapply Hp.
  - intros j r'. rewrite assoc_set_lookup. case_bool_decide as He; [intros [= <-]; auto|apply Hr].
Qed.

Lemma submit_ok i payload p :
  pool_ok p → assoc i (ap_attempts p) = None → pool_ok (submit_attempt i payload p).2.
Proof.
  intros Hp Hnew. unfold submit_attempt, mbind, M_bind, get. destruct (_ <=? _); [done|]. cbn [modify snd].
  assert (i ∉ ap_queue p) as Hni by (intros (r & Hr & _)%(pk_queued _ Hp); congruence).
  apply write_ok; simpl; try done; auto.
  - apply NoDup_app. split_and!; [apply Hp|intros x Hx ->%list_elem_of_singleton; done|apply NoDup_singleton].
  - intros j Hne. rewrite elem_of_app, list_elem_of_singleton. naive_solver.
  - intros _. apply elem_of_app. right. by left.
Qed.

Lemma pull_ok worker p : pool_ok p → pool_ok (pull_work worker p).2.
Proof.
  intros Hp. unfold pull_work, mbind, M_bind, get. destruct (ap_stopping p); [done|].
  destruct (ap_queue p) as [|i q] eqn:Hq; [done|]. cbn [modify fst snd]. unfold record_of, mbind, M_bind, get.
  cbn [ap_attempts with_work]. destruct (pk_queued _ Hp i) as (r & Hr & _); [rewrite Hq; by left|]. rewrite Hr.
  cbn [mret M_ret write_record modify snd]. pose proof (pk_ids _ Hp i r Hr) as Hid.
  pose proof (pk_queue _ Hp) as Hn. rewrite Hq in Hn. apply NoDup_cons in Hn as [Hni Hn].
  change (with_work (with_work p q (ap_attempts p)) _ _) with
    (with_work p q (assoc_set (at_id r) (Attempt (at_id r) (at_payload r) Running (Some worker) (at_result r)) (ap_attempts p))).
  rewrite Hid. apply write_ok; simpl; try done.
  - intros j Hne. rewrite Hq, elem_of_cons. naive_solver.
Qed.

(** Writing to an attempt that the queue does not depend on. *)
Lemma settle_ok p i r r' :
  pool_ok p → assoc i (ap_attempts p) = Some r → at_id r' = i → at_worker r' = at_worker r →
  (at_state r' = Cancelled ∨ at_state r' = Completed ∧ is_Some (at_worker r)) →
  pool_ok (with_work p (ap_queue p) (assoc_set i r' (ap_attempts p))).
Proof.
  intros Hp Hr Hid Hw Hs. apply write_ok; try done; [apply Hp| | |].
  - intros Hin. destruct (pk_queued _ Hp i Hin) as (r0 & Hr0 & Hw0 & _). rewrite Hr in Hr0. injection Hr0 as <-.
    rewrite Hw. split; [done|]. destruct Hs as [?|[? [w Hsome]]]; [by right|congruence].
  - intros Hst. destruct Hs as [?|[? _]]; congruence.
  - intros Hst. destruct Hs as [?|[? _]]; congruence.
Qed.

Lemma result_ok worker i result p : pool_ok p → pool_ok (submit_result worker i result p).2.
Proof.
  intros Hp. unfold submit_result, mbind, M_bind, record_of, mbind, M_bind, get.
  destruct (assoc i (ap_attempts p)) as [r|] eqn:Hr; [|done]. cbn [mret M_ret].
  case_bool_decide as Hw; cbn [negb]; [|done]. destruct (open_attempt r); cbn [negb]; [|done].
  cbn [write_record modify snd gets]. pose proof (pk_ids _ Hp i r Hr) as Hid. simpl. rewrite Hid.
  eapply settle_ok; [done|exact Hr|done|done|]. right. split; [done|]. by rewrite Hw.
Qed.

Lemma agent_cancel_ok kill i detail p : pool_ok p → pool_ok (cancel kill i detail p).2.
Proof.
  intros Hp. unfold cancel, mbind, M_bind, record_of, mbind, M_bind, get.
  destruct (assoc i (ap_attempts p)) as [r|] eqn:Hr; [|done]. cbn [mret M_ret].
  destruct (open_attempt r); cbn [negb]; [|done]. cbn [write_record modify].
  pose proof (pk_ids _ Hp i r Hr) as Hid.
  set (p1 := with_work p _ _). assert (pool_ok p1) as Hp1.
  { unfold p1. simpl. rewrite Hid. eapply settle_ok; [done|exact Hr|done|done|by left]. }
  destruct (at_worker r) as [[|c w]|]; [done| |done]. unfold lift. by destruct (catch _ _).
Qed.

(** ** Taking work back *)

Section Reclaim.
Context (lose : attempt → bool) (back : attempt → attempt).

(** What [reclaim] makes of an entry. *)
Definition taken (kr : pystr * attempt) : pystr * attempt := if lose kr.2 then (kr.1, back kr.2) else kr.

Lemma taken_keys l : (map taken l).*1 = l.*1.
Proof. induction l as [|[k r] l IH]; [done|]. cbn [map fmap list_fmap]. rewrite <-IH. f_equal. unfold taken. by destruct (lose _). Qed.

Lemma taken_lookup i l : assoc i (map taken l) = (λ r, if lose r then back r else r) <$> assoc i l.
Proof.
  induction l as [|[k r] l IH]; [done|]. cbn [map assoc]. unfold taken at 1. cbn [fst snd].
  destruct (lose r) eqn:E; cbn [assoc]; case_bool_decide; simpl; rewrite ?E; done.
Qed.

Lemma gone_ids l i :
  NoDup l.*1 → (∀ k r, (k, r) ∈ l → at_id r = k) →
  i ∈ map (λ kr, at_id kr.2) (List.filter (λ kr, lose kr.2) l) ↔ ∃ r, assoc i l = Some r ∧ lose r = true.
Proof.
  intros Hn Hid. rewrite list_elem_of_In, in_map_iff. split.
  - intros ([k r] & Hk & [Hin Hl]%filter_In). simpl in *. apply list_elem_of_In in Hin.
    rewrite (Hid k r Hin) in Hk. subst k. exists r. split; [by apply assoc_elem|done].
  - intros (r & Hr & Hl). apply assoc_key in Hr. exists (i, r). split; [by apply Hid|].
    apply filter_In. split; [by apply list_elem_of_In|done].
Qed.

Lemma gone_nodup l :
  NoDup l.*1 → (∀ k r, (k, r) ∈ l → at_id r = k) →
  NoDup (map (λ kr, at_id kr.2) (List.filter (λ kr, lose kr.2) l)).
Proof.
  induction l as [|[k r] l IH]; intros Hn Hid; [constructor|]. cbn [fmap list_fmap fst] in Hn.
  apply NoDup_cons in Hn as [Hk Hn]. assert (∀ k0 r0, (k0, r0) ∈ l → at_id r0 = k0) as Hid' by (intros; apply Hid; by right).
  cbn [List.filter snd]. destruct (lose r); [|by apply IH]. cbn [map snd]. apply NoDup_cons. split; [|by apply IH].
  rewrite (Hid k r) by left. intros (r' & Hr' & _)%gone_ids; [|done|done].
  apply Hk. apply assoc_key in Hr'. apply list_elem_of_fmap. by exists (k, r').
Qed.
End Reclaim.

(** The entries after [reclaim]. *)
Lemma reclaim_lookup now grace live p i :
  assoc i (ap_attempts (reclaim now grace live p).2) =
  (λ r, if lost now grace live (note_live now live (ap_last_seen p)) r
        then Attempt (at_id r) (at_payload r) Pending None (at_result r) else r) <$> assoc i (ap_attempts p).
Proof.
  exact (taken_lookup (lost now grace live (note_live now live (ap_last_seen p)))
    (λ r, Attempt (at_id r) (at_payload r) Pending None (at_result r)) i (ap_attempts p)).
Qed.

Lemma reclaim_ok now grace live p : pool_ok p → pool_ok (reclaim now grace live p).2.
Proof.
  intros Hp. pose proof Hp as [Hk Hi Hn Hq Hpe Hr]. unfold reclaim, mbind, M_bind, get. cbn [modify mret M_ret snd].
  set (seen := note_live _ _ _). set (lose := lost now grace live seen).
  set (back := λ r, Attempt (at_id r) (at_payload r) Pending None (at_result r)).
  assert (∀ k r, (k, r) ∈ ap_attempts p → at_id r = k) as Hid.
  { intros k r Hin. apply Hi. by apply assoc_elem. }
  assert (∀ r, lose r = true → at_state r = Running) as Hrun.
  { intros r Hl. unfold lose, lost in Hl. apply andb_true_iff in Hl as [Hl _]. apply andb_true_iff in Hl as [Hl _].
    by apply bool_decide_eq_true in Hl. }
  set (l := map _ (ap_attempts p)). assert (l = map (taken lose back) (ap_attempts p)) as El by done. clearbody l.
  assert (∀ i, i ∈ map (λ kr, at_id kr.2) (List.filter (λ kr, lose kr.2) (ap_attempts p)) → i ∉ ap_queue p) as Hdis.
  { intros i (r & Hr1 & Hl)%gone_ids Hin; [|done|done]. destruct (Hq i Hin) as (r0 & Hr0 & _ & Hs).
    rewrite Hr1 in Hr0. injection Hr0 as <-. apply Hrun in Hl. destruct Hs; congruence. }
  subst l. split; cbn [ap_attempts ap_queue].
  - by rewrite taken_keys.
  - intros i r. rewrite taken_lookup. intros (r0 & Hr0 & ->)%fmap_Some. destruct (lose r0); exact (Hi i r0 Hr0).
  - apply NoDup_app. split_and!; [done|intros x Hx Hg; by apply (Hdis x)|by apply gone_nodup].
  - intros i [Hin|Hin]%elem_of_app.
    + destruct (Hq i Hin) as (r & Hr1 & Hw & Hs). rewrite taken_lookup, Hr1. exists r.
      destruct (lose r) eqn:Hl; [apply Hrun in Hl; destruct Hs; congruence|]. simpl. by rewrite Hl.
    + apply gone_ids in Hin as (r & Hr1 & Hl); [|done|done]. rewrite taken_lookup, Hr1. simpl. rewrite Hl.
      eexists. split_and!; [done|done|by left].
  - intros i r. rewrite taken_lookup. intros (r0 & Hr0 & ->)%fmap_Some. destruct (lose r0) eqn:Hl; intros Hs; apply elem_of_app.
    + right. apply gone_ids; [done|done|]. by exists r0.
    + left. by eapply Hpe.
  - intros i r. rewrite taken_lookup. intros (r0 & Hr0 & ->)%fmap_Some. destruct (lose r0); [done|by apply (Hr i)].
Qed.

Lemma step_ok p p' : pool_ok p → pool_step p p' → pool_ok p'.
Proof.
  intros Hp [i payload Hnew|worker|worker i result|kill i detail|now grace live| ];
    eauto using submit_ok, pull_ok, result_ok, agent_cancel_ok, reclaim_ok. by destruct Hp.
Qed.

Lemma new_pool_ok capacity c : pool_ok (new_agent_pool capacity c).
Proof. split; simpl; try done; try apply NoDup_nil_2; intros i H; by apply not_elem_of_nil in H. Qed.

Lemma steps_ok p p' : pool_ok p → rtc pool_step p p' → pool_ok p'.
Proof. intros Hp Hs. induction Hs; eauto using step_ok. Qed.

(** ** Theorems *)

(** What [pull_work] hands out. *)
Lemma pull_hands worker p i payload :
  pool_ok p → (pull_work worker p).1 = Ok (Some (i, payload)) →
  i ∈ ap_queue p ∧
  ∃ r, assoc i (ap_attempts (pull_work worker p).2) = Some r ∧ at_state r = Running ∧ at_worker r = Some worker.
Proof.
  intros Hp. unfold pull_work, mbind, M_bind, get. destruct (ap_stopping p); [done|].
  destruct (ap_queue p) as [|j q] eqn:Hq; [done|]. cbn [modify fst snd]. unfold record_of, mbind, M_bind, get.
  cbn [ap_attempts with_work]. destruct (pk_queued _ Hp j) as (r & Hr & _); [rewrite Hq; by left|]. rewrite Hr.
  cbn [mret M_ret write_record modify fst snd]. rewrite (pk_ids _ Hp j r Hr). intros [= <- <-].
  split; [by left|]. eexists. split.
  - cbn [ap_attempts with_work at_id]. rewrite assoc_set_lookup. by rewrite bool_decide_true.
  - by split.
Qed.

(** Nothing is lost and nothing is handed out twice: whatever sequence of
    submissions, pulls, results, cancellations and reclaims a pool went
    through, every attempt that is pending is in the queue, once, to be
    pulled; and an attempt that a worker has, or that is completed, is never
    handed to another, unless it was taken back first. *)
Theorem work_handed_out_once capacity c p :
  rtc pool_step (new_agent_pool capacity c) p →
  NoDup (ap_queue p) ∧
  (∀ i r, assoc i (ap_attempts p) = Some r → at_state r = Pending → i ∈ ap_queue p) ∧
  ∀ worker i payload, (pull_work worker p).1 = Ok (Some (i, payload)) →
    ∃ r, assoc i (ap_attempts p) = Some r ∧ at_worker r = None ∧ at_state r ≠ Running ∧ at_state r ≠ Completed.
Proof.
  intros Hs. pose proof (steps_ok _ _ (new_pool_ok capacity c) Hs) as Hp.
  split_and!; [apply Hp|apply (pk_pending _ Hp)|]. intros worker i payload Hpull.
  destruct (pull_hands _ _ _ _ Hp Hpull) as [Hin _]. destruct (pk_queued _ Hp i Hin) as (r & Hr & Hw & Hst).
  exists r. split_and!; [done|done|destruct Hst; congruence..].
Qed.

(** An entry that a step does not write. *)
Lemma assoc_write i j r (p : agent_pool) q :
  j ≠ i → assoc i (ap_attempts (with_work p q (assoc_set j r (ap_attempts p)))) = assoc i (ap_attempts p).
Proof. intros Hne. simpl. rewrite assoc_set_lookup. by rewrite bool_decide_false. Qed.

Lemma completed_step p p' i r :
  pool_ok p → pool_step p p' → assoc i (ap_attempts p) = Some r → at_state r = Completed →
  assoc i (ap_attempts p') = Some r.
Proof.
  intros Hp Hst Hr Hc. assert (open_attempt r = false) as Hclosed by (unfold open_attempt; by rewrite Hc).
  destruct Hst as [j payload Hnew|worker|worker j result|kill j detail|now grace live| ]; [..|done].
  - unfold submit_attempt, mbind, M_bind, get. destruct (_ <=? _); [done|]. cbn [modify mret M_ret snd].
    rewrite assoc_write; [done|]. intros ->. congruence.
  - unfold pull_work, mbind, M_bind, get. destruct (ap_stopping p); [done|].
    destruct (ap_queue p) as [|j q] eqn:Hq; [done|]. cbn [modify fst snd]. unfold record_of, mbind, M_bind, get.
    cbn [ap_attempts with_work]. destruct (pk_queued _ Hp j) as (r0 & Hr0 & _ & Hs0); [rewrite Hq; by left|].
    rewrite Hr0. cbn [mret M_ret write_record modify snd ap_attempts with_work]. rewrite assoc_set_lookup.
    rewrite bool_decide_false; [done|]. simpl. rewrite (pk_ids _ Hp j r0 Hr0). intros ->. destruct Hs0; congruence.
  - unfold submit_result, mbind, M_bind, record_of, mbind, M_bind, get.
    destruct (assoc j (ap_attempts p)) as [r0|] eqn:Hr0; [|done]. cbn [mret M_ret].
    case_bool_decide; cbn [negb]; [|done]. destruct (open_attempt r0) eqn:Ho; cbn [negb]; [|done].
    simpl. rewrite assoc_set_lookup, bool_decide_false; [done|].
    rewrite (pk_ids _ Hp j r0 Hr0). intros ->. congruence.
  - unfold cancel, mbind, M_bind, record_of, mbind, M_bind, get.
    destruct (assoc j (ap_attempts p)) as [r0|] eqn:Hr0; [|done]. cbn [mret M_ret].
    destruct (open_attempt r0) eqn:Ho; cbn [negb]; [|done]. cbn [write_record modify at_id].
    assert (∀ x q, assoc i (ap_attempts (with_work p q (assoc_set (at_id r0) x (ap_attempts p)))) = Some r) as Hkeep.
    { intros x q. rewrite assoc_write; [done|]. rewrite (pk_ids _ Hp j r0 Hr0). intros ->. congruence. }
    destruct (at_worker r0) as [[|ch w]|]; [apply Hkeep| |apply Hkeep]. unfold lift. destruct (catch _ _); apply Hkeep.
  - rewrite reclaim_lookup, Hr. simpl. unfold lost. by rewrite Hc.
Qed.

(** What is completed stays completed, with its result. *)
Theorem completed_is_final capacity c p p' i r :
  rtc pool_step (new_agent_pool capacity c) p → rtc pool_step p p' →
  assoc i (ap_attempts p) = Some r → at_state r = Completed → assoc i (ap_attempts p') = Some r.
Proof.
  intros Hs Hs'. pose proof (steps_ok _ _ (new_pool_ok capacity c) Hs) as Hp. revert r.
  induction Hs' as [p|p p1 p2 H1 _ IH]; intros r Hr Hc; [done|].
  apply IH; [by eapply rtc_r|by eapply step_ok|by eapply completed_step|done].
Qed.

(** ** Examples *)

Definition demo_catalog : catalog := Catalog (u "rl") (u "f") 1.

Definition demo_pool : agent_pool := (submit_attempt (u "a-0") Null (new_agent_pool 4 demo_catalog)).2.

Definition no_kill : pystr → pystr → res unit := λ _ _, Ok tt.

(** What is cancelled does not stay cancelled: an attempt cancelled while it
    is still queued is handed to the next worker that asks, runs, and is
    completed. *)
Theorem cancelled_comes_back :
  let p1 := (cancel no_kill (u "a-0") [] demo_pool).2 in
  let p2 := (pull_work (u "w") p1).2 in
  let p3 := (submit_result (u "w") (u "a-0") Null p2).2 in
  at_state <$> assoc (u "a-0") (ap_attempts p1) = Some Cancelled ∧
  (pull_work (u "w") p1).1 = Ok (Some (u "a-0", Null)) ∧
  at_state <$> assoc (u "a-0") (ap_attempts p3) = Some Completed.
Proof. split_and!; vm_compute; reflexivity. Qed.

Lemma demo_pool_steps : rtc pool_step (new_agent_pool 4 demo_catalog) demo_pool.
Proof. apply rtc_once. by apply on_submit. Qed.

Lemma work_handed_out_once_witness :
  (pull_work (u "w") demo_pool).1 = Ok (Some (u "a-0", Null)) ∧ NoDup (ap_queue demo_pool).
Proof.
  split; [vm_compute; reflexivity|]. apply (work_handed_out_once 4 demo_catalog demo_pool demo_pool_steps).
Defined.
