(* ===== verification/Fleet.v ===== *)
(** * The dispatcher of the fleet example

    [examples/async_rl_fleet.py]: work that is leased, not given away.  Agents
    call [take] and [submit]; the process that serves them asks [outstanding]
    until nothing is left.  Handlers run on threads of the native listener,
    beside the main thread, and share the object without a lock: what is
    atomic is a single operation on a list or a dict.  So each method is a
    thread with a program counter, a step is one such operation, and a list of
    events is an interleaving.  A clock reading is part of the event. *)

From S2P Require Import Prelude PyStr PyFloat Errors Json.
From Stdlib Require Import SpecFloat.

Local Open Scope Z_scope.

(** [LEASE = 3.0] *)
Definition LEASE : pyfloat := Eval vm_compute in round_int 3.

(** An entry of [done]. *)
Record collected := Collected { co_task : pystr; co_reward : pyfloat; co_version : Z }.

(** What a [_reclaim] returns to. *)
Inductive after := ThenTake (worker : pystr) | ThenCount.

(** What a call ends with. *)
Inductive outcome :=
| Took (work : option (pystr * pystr))
| Counted (n : Z)
| Progress (remaining collected : Z)
| Failed (e : exn).

(** The point a thread has reached; [items] is what is left of the copy that
    [_reclaim] iterates over. *)
Inductive thread :=
| AtNow (k : after)
| AtItems (k : after) (now : pyfloat)
| AtScan (k : after) (now : pyfloat) (items : list (pystr * (pystr * pyfloat)))
| AtDelete (k : after) (now : pyfloat) (task : pystr) (items : list (pystr * (pystr * pyfloat)))
| AtAppend (k : after) (now : pyfloat) (task : pystr) (items : list (pystr * (pystr * pyfloat)))
| AtLoad (k : after) (now : pyfloat) (items : list (pystr * (pystr * pyfloat)))
| AtStore (k : after) (now : pyfloat) (n : Z) (items : list (pystr * (pystr * pyfloat)))
| AtCheck (worker : pystr)
| AtPop (worker : pystr)
| AtClock (worker task : pystr)
| AtLease (worker task : pystr) (deadline : pyfloat)
| AtQueueLen
| AtLeasedLen (n : Z)
| AtUnlease (task : pystr) (reward : pyfloat) (version : Z)
| AtCollect (task : pystr) (reward : pyfloat) (version : Z)
| AtRemaining
| AtCollected (remaining : Z)
| Ended (o : outcome).

(** [class Dispatcher], and the calls in progress. *)
Record dispatcher := Dispatcher {
  dp_queue : list pystr;
  dp_leased : list (pystr * (pystr * pyfloat));
  dp_done : list collected;
  dp_requeued : Z;
  dp_threads : gmap nat thread
}.

(** The names of [__init__]. *)
Definition task_name (dp_rank : N) (i : nat) : pystr := u "dp" ++ dec dp_rank ++ u "-task-" ++ dec (N.of_nat i).
Definition tasks (dp_rank : N) (total_tasks : Z) : list pystr := task_name dp_rank <$> seq 0 (Z.to_nat total_tasks).

(** [__init__] *)
Definition new_dispatcher (dp_rank : N) (total_tasks : Z) : dispatcher :=
  Dispatcher (tasks dp_rank total_tasks) [] [] 0 ∅.

Definition goes (n : nat) (t : thread) (d : dispatcher) : dispatcher :=
  Dispatcher (dp_queue d) (dp_leased d) (dp_done d) (dp_requeued d) (<[n := t]> (dp_threads d)).
Definition with_queue (q : list pystr) (d : dispatcher) : dispatcher :=
  Dispatcher q (dp_leased d) (dp_done d) (dp_requeued d) (dp_threads d).
Definition with_leased (l : list (pystr * (pystr * pyfloat))) (d : dispatcher) : dispatcher :=
  Dispatcher (dp_queue d) l (dp_done d) (dp_requeued d) (dp_threads d).
Definition with_done (l : list collected) (d : dispatcher) : dispatcher :=
  Dispatcher (dp_queue d) (dp_leased d) l (dp_requeued d) (dp_threads d).
Definition with_requeued (n : Z) (d : dispatcher) : dispatcher :=
  Dispatcher (dp_queue d) (dp_leased d) (dp_done d) n (dp_threads d).

(** [del self.leased[task]] and [self.leased.pop(task, None)] *)
Definition unlease (task : pystr) (l : list (pystr * (pystr * pyfloat))) : list (pystr * (pystr * pyfloat)) :=
  List.filter (λ kv, negb (bool_decide (kv.1 = task))) l.

(** The call after its [_reclaim]. *)
Definition resume (k : after) : thread := match k with ThenTake worker => AtCheck worker | ThenCount => AtQueueLen end.

(** [_reclaim] *)
Definition _reclaim (clock : pyfloat) (n : nat) (t : thread) (d : dispatcher) : option dispatcher :=
  match t with
  | AtNow k => Some (goes n (AtItems k clock) d)
  | AtItems k now => Some (goes n (AtScan k now (dp_leased d)) d)
  | AtScan k now [] => Some (goes n (resume k) d)
  | AtScan k now ((task, (_, deadline)) :: items) =>
      Some (goes n (if SFleb deadline now then AtDelete k now task items else AtScan k now items) d)
  | AtDelete k now task items =>
      Some match assoc task (dp_leased d) with
           | Some _ => goes n (AtAppend k now task items) (with_leased (unlease task (dp_leased d)) d)
           | None => goes n (Ended (Failed (Exc KeyError))) d
           end
  | AtAppend k now task items => Some (goes n (AtLoad k now items) (with_queue (dp_queue d ++ [task]) d))
  | AtLoad k now items => Some (goes n (AtStore k now (dp_requeued d) items) d)
  | AtStore k now m items => Some (goes n (AtScan k now items) (with_requeued (m + 1) d))
  | _ => None
  end.

(** [take], after its [_reclaim] *)
Definition take_ (clock : pyfloat) (n : nat) (t : thread) (d : dispatcher) : option dispatcher :=
  match t with
  | AtCheck worker => Some (goes n (if dp_queue d is [] then Ended (Took None) else AtPop worker) d)
  | AtPop worker =>
      Some match dp_queue d with
           | task :: q => goes n (AtClock worker task) (with_queue q d)
           | [] => goes n (Ended (Failed (Exc IndexError))) d
           end
  | AtClock worker task => Some (goes n (AtLease worker task (fadd clock LEASE)) d)
  | AtLease worker task deadline =>
      Some (goes n (Ended (Took (Some (task, worker)))) (with_leased (assoc_set task (worker, deadline) (dp_leased d)) d))
  | _ => None
  end.

(** [submit], up to its last line, which is that of [progress] *)
Definition submit (n : nat) (t : thread) (d : dispatcher) : option dispatcher :=
  match t with
  | AtUnlease task reward version =>
      Some (goes n (AtCollect task reward version) (with_leased (unlease task (dp_leased d)) d))
  | AtCollect task reward version =>
      Some (goes n AtRemaining (with_done (dp_done d ++ [Collected task reward version]) d))
  | _ => None
  end.

(** [progress] *)
Definition progress (n : nat) (t : thread) (d : dispatcher) : option dispatcher :=
  match t with
  | AtRemaining => Some (goes n (AtCollected (len (dp_queue d))) d)
  | AtCollected remaining => Some (goes n (Ended (Progress remaining (len (dp_done d)))) d)
  | _ => None
  end.

(** [outstanding], after its [_reclaim] *)
Definition outstanding (n : nat) (t : thread) (d : dispatcher) : option dispatcher :=
  match t with
  | AtQueueLen => Some (goes n (AtLeasedLen (len (dp_queue d))) d)
  | AtLeasedLen m => Some (goes n (Ended (Counted (m + len (dp_leased d)))) d)
  | _ => None
  end.

(** A call arrives, or a thread goes one operation further. *)
Inductive event :=
| Take (n : nat) (worker : pystr)
| Submit (n : nat) (task : pystr) (reward : pyfloat) (version : Z)
| AskProgress (n : nat)
| AskOutstanding (n : nat)
| Go (n : nat) (clock : pyfloat).

Definition starts (n : nat) (t : thread) (d : dispatcher) : option dispatcher :=
  match dp_threads d !! n with Some _ => None | None => Some (goes n t d) end.

(** The one method whose operation this is. *)
Definition or_else (a b : option dispatcher) : option dispatcher := match a with Some d => Some d | None => b end.

Definition step (d : dispatcher) (e : event) : option dispatcher :=
  match e with
  | Take n worker => starts n (AtNow (ThenTake worker)) d
  | Submit n task reward version => starts n (AtUnlease task reward version) d
  | AskProgress n => starts n AtRemaining d
  | AskOutstanding n => starts n (AtNow ThenCount) d
  | Go n clock =>
      t ← dp_threads d !! n;
      or_else (_reclaim clock n t d) (or_else (take_ clock n t d)
        (or_else (submit n t d) (or_else (progress n t d) (outstanding n t d))))
  end.

Fixpoint run (d : dispatcher) (es : list event) : option dispatcher :=
  match es with [] => Some d | e :: es => d ← step d e; run d es end.

(** ** Where a task is *)

(** A thread holds a task between taking it out of one container and putting
    it into the other. *)
Definition holds (x : pystr) (t : thread) : Z :=
  match t with
  | AtAppend _ _ y _ | AtClock _ y | AtLease _ y _ => if bool_decide (y = x) then 1 else 0
  | _ => 0
  end.

(** How often a task is queued, leased or held. *)
Definition copies (x : pystr) (d : dispatcher) : Z :=
  times x (dp_queue d) + times x (dp_leased d).*1 + map_sum (holds x) (dp_threads d).

(** It has been submitted: it is in [done], or about to be. *)
Definition submitted (x : pystr) (d : dispatcher) : Prop :=
  (∃ c, c ∈ dp_done d ∧ co_task c = x) ∨ ∃ n r v, dp_threads d !! n = Some (AtCollect x r v).

Record kept (all : list pystr) (d : dispatcher) : Prop := Kept {
  k_most : ∀ x, copies x d ≤ if bool_decide (x ∈ all) then 1 else 0;
  k_least : ∀ x, x ∈ all → submitted x d ∨ copies x d = 1
}.

Lemma holds_nonneg x t : 0 ≤ holds x t.
Proof. unfold holds. by repeat case_match. Qed.

Lemma held_nonneg x d : 0 ≤ map_sum (holds x) (dp_threads d).
Proof. apply map_sum_nonneg. intros n t _. apply holds_nonneg. Qed.

(** Taking a lease back, of a task that is leased once. *)
Lemma unlease_cons y k v l : unlease y ((k, v) :: l) = if bool_decide (k = y) then unlease y l else (k, v) :: unlease y l.
Proof. unfold unlease. simpl. by case_bool_decide. Qed.

Lemma times_unlease x y l : times x (unlease y l).*1 = if bool_decide (x = y) then 0 else times x l.*1.
Proof.
  induction l as [|[k v] l IH]; [by case_bool_decide|]. rewrite unlease_cons, fmap_cons, times_cons. cbn [fst].
  destruct (decide (k = y)) as [->|Hk].
  - rewrite (bool_decide_true (y = y)), IH by done. case_bool_decide; [done|]. by rewrite bool_decide_false by congruence.
  - rewrite (bool_decide_false (k = y)) by done. rewrite fmap_cons, times_cons, IH. cbn [fst].
    case_bool_decide; case_bool_decide; congruence || lia.
Qed.

Lemma times_assoc_set x y v (l : list (pystr * (pystr * pyfloat))) :
  times y l.*1 = 0 → times x (assoc_set y v l).*1 = times x l.*1 + if bool_decide (y = x) then 1 else 0.
Proof.
  induction l as [|[k w] l IH]; cbn [assoc_set fmap list_fmap fst]; intros Hy; [rewrite times_cons; simpl; lia|].
  rewrite times_cons in Hy. pose proof (times_nonneg y l.*1).
  case_bool_decide as Hk; [lia|]. cbn [fmap list_fmap fst]. rewrite !times_cons, IH by lia. lia.
Qed.

Lemma assoc_times y l : is_Some (assoc (A := pystr * pyfloat) y l) → 1 ≤ times y l.*1.
Proof.
  intros [v Hv]. apply times_pos. induction l as [|[k w] l IH]; [done|]. cbn [assoc] in Hv. simpl.
  case_bool_decide; [subst; by left|right; by apply IH].
Qed.

(** A thread moves; [v] is what the operation made of [d]. *)
Lemma copies_goes x n t t' v :
  dp_threads v !! n = Some t →
  copies x (goes n t' v) =
    times x (dp_queue v) + times x (dp_leased v).*1 + map_sum (holds x) (dp_threads v) - holds x t + holds x t'.
Proof. intros Ht. unfold copies. simpl. rewrite (map_sum_replace _ _ _ t) by done. lia. Qed.

Definition stored (x : pystr) (d : dispatcher) : Z := times x (dp_queue d) + times x (dp_leased d).*1.

(** Only [submit] lets go of a task, and then it is about to collect it. *)
Lemma kept_goes all n t t' d v :
  kept all d → dp_threads d !! n = Some t → dp_threads v = dp_threads d →
  (∀ c, c ∈ dp_done d → c ∈ dp_done v) →
  (∀ x r m, t = AtCollect x r m → ∃ c, c ∈ dp_done v ∧ co_task c = x) →
  (∀ x, stored x v + holds x t' = stored x d + holds x t ∨
        stored x v + holds x t' ≤ stored x d + holds x t ∧ ∃ r m, t' = AtCollect x r m) →
  kept all (goes n t' v).
Proof.
  intros [Hm Hl] Ht Hv Hd Hc Hx.
  assert (∀ x, copies x (goes n t' v) = copies x d + (stored x v + holds x t') - (stored x d + holds x t)) as Hcop.
  { intros x. rewrite (copies_goes x n t t' v) by congruence. rewrite Hv. unfold copies, stored. lia. }
  split.
  - intros x. rewrite Hcop. specialize (Hm x). destruct (Hx x) as [?|[? _]]; lia.
  - intros x Ha. rewrite Hcop. destruct (Hx x) as [He|[_ (r & m & ->)]].
    2: { left. right. exists n, r, m. simpl. apply lookup_insert_eq. }
    destruct (Hl x Ha) as [[(c & Hin & Hco)|(k & r & m & Hk)]|Hone]; [left; left; exists c; by auto| |right; lia].
    left. destruct (decide (k = n)) as [->|Hne].
    + left. simpl. apply (Hc x r m). congruence.
    + right. exists k, r, m. simpl. rewrite lookup_insert_ne, Hv by done. done.
Qed.

(** No container changes. *)
Lemma kept_reads all n t t' d :
  kept all d → dp_threads d !! n = Some t → (∀ x r m, t ≠ AtCollect x r m) → (∀ x, holds x t' = holds x t) →
  kept all (goes n t' d).
Proof.
  intros Hk Ht Hne Hh. eapply kept_goes; try done; [by intros x r m ?%Hne|]. intros x. left. by rewrite Hh.
Qed.

Lemma kept_starts all n t d v :
  kept all d → (∀ x, holds x t = 0) → starts n t d = Some v → kept all v.
Proof.
  intros [Hm Hl] Hh. unfold starts. destruct (dp_threads d !! n) eqn:Hn; [done|]. intros [= <-].
  assert (∀ x, copies x (goes n t d) = copies x d) as Hc.
  { intros x. unfold copies. simpl. rewrite map_sum_insert by done. rewrite Hh. lia. }
  split; intros x; rewrite Hc; [apply Hm|]. intros Ha. destruct (Hl x Ha) as [[(c & Hin & Hco)|(k & r & m & Hk)]|?]; [..|by right].
  - left. left. by exists c.
  - left. right. exists k, r, m. simpl. rewrite lookup_insert_ne; [done|]. congruence.
Qed.

Lemma copies_most all d x : kept all d → copies x d ≤ 1.
Proof. intros [Hm _]. specialize (Hm x). case_bool_decide; lia. Qed.

Lemma copies_held x n t d : dp_threads d !! n = Some t → stored x d + holds x t ≤ copies x d.
Proof.
  intros Ht. unfold copies, stored. pose proof (map_sum_delete (holds x) (dp_threads d) n t Ht) as Hd.
  assert (0 ≤ map_sum (holds x) (delete n (dp_threads d))); [|lia].
  apply map_sum_nonneg. intros. apply holds_nonneg.
Qed.

Lemma kept_reclaim all clock n t d v :
  kept all d → dp_threads d !! n = Some t → _reclaim clock n t d = Some v → kept all v.
Proof.
  intros Hk Ht. destruct t; try done; cbn [_reclaim].
  - intros [= <-]. by eapply kept_reads.
  - intros [= <-]. by eapply kept_reads.
  - destruct items as [|[task [w dl]] items]; intros [= <-]; eapply kept_reads; try done.
    + intros x. by destruct k.
    + intros x. by destruct (SFleb dl now).
  - destruct (assoc task (dp_leased d)) eqn:Ha; intros [= <-]; [|by eapply kept_reads].
    eapply kept_goes; try done. intros x. left. unfold stored. simpl. rewrite times_unlease.
    pose proof (copies_most all d x Hk). pose proof (copies_held x n _ d Ht) as Hh. simpl in Hh. unfold stored in Hh.
    pose proof (times_nonneg x (dp_queue d)).
    pose proof (assoc_times task (dp_leased d) ltac:(eauto)).
    destruct (decide (task = x)) as [->|Hne]; [rewrite !bool_decide_true by done; lia|].
    rewrite !bool_decide_false by congruence. lia.
  - intros [= <-]. eapply kept_goes; try done. intros x. left. unfold stored. simpl. rewrite times_app, times_cons.
    change (times x []) with 0. lia.
  - intros [= <-]. by eapply kept_reads.
  - intros [= <-]. by eapply kept_goes; try done; intros x; left.
Qed.

Lemma kept_take all clock n t d v :
  kept all d → dp_threads d !! n = Some t → take_ clock n t d = Some v → kept all v.
Proof.
  intros Hk Ht. destruct t; try done; cbn [take_].
  - intros [= <-]. eapply kept_reads; try done. intros x. by destruct (dp_queue d).
  - destruct (dp_queue d) as [|task q] eqn:Hq; intros [= <-]; [by eapply kept_reads|].
    eapply kept_goes; try done. intros x. left. unfold stored. simpl. rewrite Hq, times_cons. lia.
  - intros [= <-]. by eapply kept_reads.
  - intros [= <-]. eapply kept_goes; try done. intros x. left. unfold stored. simpl.
    pose proof (copies_most all d task Hk). pose proof (copies_held task n _ d Ht) as Hh. simpl in Hh. unfold stored in Hh.
    rewrite bool_decide_true in Hh by done.
    pose proof (times_nonneg task (dp_queue d)). pose proof (times_nonneg task (dp_leased d).*1).
    rewrite times_assoc_set by lia. lia.
Qed.

Lemma kept_submit all n t d v :
  kept all d → dp_threads d !! n = Some t → submit n t d = Some v → kept all v.
Proof.
  intros Hk Ht. destruct t; try done; cbn [submit].
  - intros [= <-]. eapply kept_goes; try done. intros x. unfold stored. simpl. rewrite times_unlease.
    pose proof (times_nonneg x (dp_leased d).*1). case_bool_decide as Hx; [right|left; lia].
    split; [lia|]. subst. by eauto.
  - intros [= <-]. eapply kept_goes; try done; simpl.
    + intros c Hc. apply elem_of_app. by left.
    + intros x r m [= -> -> ->]. eexists. split; [apply elem_of_app; right; by left|done].
    + intros x. by left.
Qed.

Lemma kept_event all d e v : kept all d → step d e = Some v → kept all v.
Proof.
  intros Hk. destruct e; cbn [step]; try (by apply kept_starts).
  destruct (dp_threads d !! n) as [t|] eqn:Ht; [|done]. cbn [mbind option_bind]. unfold or_else.
  destruct (_reclaim clock n t d) eqn:H1; [intros [= <-]; by eapply kept_reclaim|].
  destruct (take_ clock n t d) eqn:H2; [intros [= <-]; by eapply kept_take|].
  destruct (submit n t d) eqn:H3; [intros [= <-]; by eapply kept_submit|].
  destruct t; try done; intros [= <-]; by eapply kept_reads.
Qed.

Lemma kept_run all es d v : kept all d → run d es = Some v → kept all v.
Proof.
  revert d. induction es as [|e es IH]; intros d Hk; simpl; [by intros [= <-]|].
  destruct (step d e) as [x|] eqn:Hx; [|done]. simpl. apply IH. by eapply kept_event.
Qed.

Lemma tasks_NoDup dp_rank total : NoDup (tasks dp_rank total).
Proof.
  apply NoDup_fmap; [|apply NoDup_seq]. intros i j Hij. unfold task_name in Hij.
  apply app_inv_head, app_inv_head, app_inv_head, dec_inj in Hij. lia.
Qed.

Lemma kept_new dp_rank total : kept (tasks dp_rank total) (new_dispatcher dp_rank total).
Proof.
  assert (∀ x, copies x (new_dispatcher dp_rank total) = if bool_decide (x ∈ tasks dp_rank total) then 1 else 0) as Hc.
  { intros x. unfold copies. simpl. rewrite map_sum_empty, times_NoDup by apply tasks_NoDup. change (times x []) with 0. lia. }
  split; intros x; rewrite Hc; [done|]. intros Hx. right. by rewrite bool_decide_true.
Qed.

(** ** Theorems *)

Definition finished (t : thread) : Prop := match t with Ended _ => True | _ => False end.

#[global] Instance finished_dec t : Decision (finished t).
Proof. unfold Decision. destruct t; (by left) || (right; intros []). Defined.

Lemma quiet_held x d : (∀ m t, dp_threads d !! m = Some t → holds x t = 0) → map_sum (holds x) (dp_threads d) = 0.
Proof.
  induction (dp_threads d) as [|i y m Hi IH] using map_ind; intros Hq; [apply map_sum_empty|].
  rewrite map_sum_insert by done. rewrite (Hq i y) by apply lookup_insert_eq. rewrite IH; [done|].
  intros j z Hj. apply (Hq j). rewrite lookup_insert_ne; [done|]. congruence.
Qed.

(** C39: nothing is stranded, however the calls of agents and of the main thread
    interleave, whichever agents die with work in hand, whatever is submitted
    and whatever the clock says: a task that nobody has submitted is queued, or
    leased, or on its way between the two in exactly one running call, and no
    task is ever in two of these places or twice in one.  So when nothing is
    running and the count is zero every task has been collected. *)
Theorem no_task_stranded dp_rank total es d :
  run (new_dispatcher dp_rank total) es = Some d →
  (∀ x, copies x d ≤ 1) ∧
  (∀ x, x ∈ tasks dp_rank total → submitted x d ∨ copies x d = 1) ∧
  ((∀ m t, dp_threads d !! m = Some t → finished t) → len (dp_queue d) + len (dp_leased d) = 0 →
   ∀ x, x ∈ tasks dp_rank total → ∃ c, c ∈ dp_done d ∧ co_task c = x).
Proof.
  intros Hr. pose proof (kept_run _ _ _ _ (kept_new dp_rank total) Hr) as Hk.
  split_and!; [intros x; by eapply copies_most|apply Hk|]. intros Hf Hz x Hx.
  pose proof (len_nonneg (dp_queue d)). pose proof (len_nonneg (dp_leased d)).
  assert (dp_queue d = []) as Hq by (apply len_zero; lia). assert (dp_leased d = []) as Hl by (apply len_zero; lia).
  destruct (k_least _ _ Hk x Hx) as [[?|(m & r & v & Hm)]|Hc]; [done|by destruct (Hf m _ Hm)|].
  exfalso. unfold copies in Hc. rewrite Hq, Hl, quiet_held in Hc; [done|].
  intros m t Hm. specialize (Hf m t Hm). by destruct t.
Qed.

(** One call after another: [go n k clock] is [k] operations of call [n]. *)
Definition go (n k : nat) (clock : Z) : list event := replicate k (Go n (round_int clock)).

(** An agent takes the only task and dies; another takes it once the lease is
    over and submits it; then nothing is outstanding. *)
Definition sample_fleet : list event :=
  Take 0 (u "n1-w0") :: go 0 7 10 ++ Take 1 (u "n0-w1") :: go 1 12 14 ++
  Submit 2 (task_name 0 0) fzero 1 :: go 2 4 15 ++ AskOutstanding 3 :: go 3 5 15.

Lemma no_task_stranded_witness :
  ∃ d, run (new_dispatcher 0 1) sample_fleet = Some d ∧
    dp_threads d !! 3%nat = Some (Ended (Counted 0)) ∧ dp_requeued d = 1 ∧
    ∃ c, c ∈ dp_done d ∧ co_task c = task_name 0 0.
Proof.
  destruct (run (new_dispatcher 0 1) sample_fleet) as [d|] eqn:Hr; [|exfalso; revert Hr; vm_compute; done].
  destruct (no_task_stranded 0 1 sample_fleet d Hr) as (_ & _ & H3).
  exists d. split; [done|]. split; [revert Hr; vm_compute; by intros [= <-]|].
  split; [revert Hr; vm_compute; by intros [= <-]|]. apply H3.
  - assert (map_Forall (λ _ t, finished t) (dp_threads d)) as Hf; [|exact Hf].
    eapply bool_decide_unpack. revert Hr. vm_compute. by intros [= <-].
  - revert Hr. vm_compute. by intros [= <-].
  - vm_compute. left.
Defined.

(** The main thread can count nothing while a call is between [queue.pop(0)]
    and the entry in [leased]: it stops with the task not collected. *)
Theorem counted_zero_too_early :
  ∃ d, run (new_dispatcher 0 1) (Take 0 (u "n0-w0") :: go 0 5 1 ++ AskOutstanding 1 :: go 1 5 1) = Some d ∧
    dp_threads d !! 1%nat = Some (Ended (Counted 0)) ∧ dp_done d = [].
Proof. eexists. split; [vm_compute; reflexivity|]. by vm_compute. Qed.

(** An agent that submits after its lease was taken back is not refused: the
    task stays in the queue, is handed out again and is collected twice. *)
Theorem late_submission_collected_twice :
  ∃ d, run (new_dispatcher 0 1)
      (Take 0 (u "n0-w0") :: go 0 7 1 ++ AskOutstanding 1 :: go 1 10 5 ++ Submit 2 (task_name 0 0) fzero 1 :: go 2 4 5 ++
       Take 3 (u "n0-w1") :: go 3 7 6 ++ Submit 4 (task_name 0 0) fzero 1 :: go 4 4 6) = Some d ∧
    map co_task (dp_done d) = [task_name 0 0; task_name 0 0].
Proof. eexists. split; [vm_compute; reflexivity|]. by vm_compute. Qed.

(** Two calls that take back the same lease: the second raises [KeyError], on
    the main thread too; and two agents that find one task: the second raises
    [IndexError]. *)
Theorem unlocked_calls_raise :
  (∃ d, run (new_dispatcher 0 1)
      (Take 0 (u "n0-w0") :: go 0 7 1 ++ [AskOutstanding 1; Take 2 (u "n0-w1")] ++ go 1 3 5 ++ go 2 3 5 ++ go 2 1 5 ++ go 1 1 5) = Some d ∧
    dp_threads d !! 1%nat = Some (Ended (Failed (Exc KeyError)))) ∧
  ∃ d, run (new_dispatcher 0 1)
      ([Take 0 (u "n0-w0"); Take 1 (u "n0-w1")] ++ go 0 4 1 ++ go 1 4 1 ++ go 0 1 1 ++ go 1 1 1) = Some d ∧
    dp_threads d !! 1%nat = Some (Ended (Failed (Exc IndexError))).
Proof. split; (eexists; split; [vm_compute; reflexivity|]; by vm_compute). Qed.
