(* ===== verification/Backpressure.v ===== *)
(** * The bounded queue example

    [examples/10_backpressure.py]: a queue that refuses instead of letting
    producers wait.  Producers offer items one after the other and offer a
    refused one again; the process that serves the queue takes items out of
    it.  Handlers run on threads of the listener, at most [limit] at a time
    ([max_concurrency]), and share the object without a lock, so a step is one
    operation on it: a look at a list or a field, a change of it.

    Items stay in order and none is lost or doubled, whatever the
    interleaving.  The bound holds when calls are served one at a time; beyond
    that it is missed by what passed the check together. *)

From S2P Require Import Prelude PyStr Errors.

Local Open Scope Z_scope.

Definition CAPACITY : Z := 8.
Definition PRODUCERS : Z := 3.
Definition PER_PRODUCER : Z := 40.

(** ** The service *)

(** [class Queue] *)
Record queue := Queue { qu_items : list pystr; qu_accepted : Z; qu_refused : Z; qu_done : Z }.

(** [Queue.__init__] *)
Definition new_queue : queue := Queue [] 0 0 0.

(** Where a call of [offer] is; [AtAdd] and [AtFullAdd] hold the value that
    [+= 1] has read. *)
Inductive offer_at :=
| AtCheck
| AtFull
| AtFullAdd (v : Z)
| AtAppend
| AtCount
| AtAdd (v : Z)
| AtDepth
| Answered (r : res Z).

(** [Queue.offer], one operation. *)
Definition offer (item : pystr) (q : queue) (a : offer_at) : queue * offer_at :=
  match a with
  | AtCheck => (q, if CAPACITY <=? len (qu_items q) then AtFull else AtAppend)
  | AtFull => (q, AtFullAdd (qu_refused q))
  | AtFullAdd v => (Queue (qu_items q) (qu_accepted q) (v + 1) (qu_done q), Answered (Raise (Exc RuntimeError)))
  | AtAppend => (Queue (qu_items q ++ [item]) (qu_accepted q) (qu_refused q) (qu_done q), AtCount)
  | AtCount => (q, AtAdd (qu_accepted q))
  | AtAdd v => (Queue (qu_items q) (v + 1) (qu_refused q) (qu_done q), AtDepth)
  | AtDepth => (q, Answered (Ok (len (qu_items q))))
  | Answered r => (q, Answered r)
  end.

(** [Queue.stats] *)
Definition stats (q : queue) : list (pystr * Z) :=
  [(u "accepted", qu_accepted q); (u "refused", qu_refused q); (u "depth", len (qu_items q)); (u "done", qu_done q)].

(** ** The process that serves it *)

(** Where [run_queue] is in its loop; [take] looks before it pops. *)
Inductive consumer_at := CLoop | CTake | CPop | CWork (item : pystr) | COver.

(** One turn of [run_queue]: [late] is whether the deadline has passed.
    [None] is the [IndexError] of [pop]. *)
Definition consume (late : bool) (q : queue) (a : consumer_at) : option (queue * consumer_at) :=
  match a with
  | CLoop => Some (q, if (qu_done q <? PRODUCERS * PER_PRODUCER) && negb late then CTake else COver)
  | CTake => Some (q, match qu_items q with [] => CLoop | _ => CPop end)
  | CPop => match qu_items q with
            | [] => None
            | item :: rest => Some (Queue rest (qu_accepted q) (qu_refused q) (qu_done q), CWork item)
            end
  | CWork _ => Some (Queue (qu_items q) (qu_accepted q) (qu_refused q) (qu_done q + 1), CLoop)
  | COver => Some (q, COver)
  end.

(** The assertions at its end. *)
Definition asserts (q : queue) : bool := (0 <? qu_refused q) && (len (qu_items q) <=? CAPACITY).

(** ** The producers *)

(** [run_producer]: the item it is at, what it counts, and its call. *)
Record producer := Producer { pr_next : nat; pr_sent : Z; pr_retried : Z; pr_call : option offer_at; pr_alive : bool }.

Definition new_producer : producer := Producer 0 0 0 None true.

(** [f"p{i}"] and [f"{name}-{i}"] *)
Definition name_of (p : nat) : pystr := u "p" ++ dec (N.of_nat p).
Definition item_of (p i : nat) : pystr := name_of p ++ u "-" ++ dec (N.of_nat i).

(** What it does with an answer: the next item, or the same one again. *)
Definition answered (r : res Z) (p : producer) : producer :=
  match r with
  | Ok _ => Producer (S (pr_next p)) (pr_sent p + 1) (pr_retried p) None (pr_alive p)
  | Raise _ => Producer (pr_next p) (pr_sent p) (pr_retried p + 1) None (pr_alive p)
  end.

(** ** All of it *)

(** [taken] and [appended] record what happened: the items taken, and whose
    item was appended when. *)
Record world := World {
  w_queue : queue;
  w_consumer : consumer_at;
  w_producers : gmap nat producer;
  w_taken : list pystr;
  w_appended : list (nat * nat)
}.

Inductive event :=
| Offers (p : nat)
| Serves (p : nat)
| Hears (p : nat)
| Dies (p : nat)
| Consumes (late : bool).

(** A call that occupies a handler. *)
Definition serving (p : producer) : Z := match pr_call p with None | Some (Answered _) => 0 | Some _ => 1 end.

Definition with_producer (n : nat) (p : producer) (w : world) : world :=
  World (w_queue w) (w_consumer w) (<[n := p]> (w_producers w)) (w_taken w) (w_appended w).

Definition step (limit : Z) (w : world) (e : event) : option world :=
  match e with
  | Offers n =>
      p ← w_producers w !! n;
      match pr_call p with
      | None =>
          if pr_alive p && (Z.of_nat (pr_next p) <? PER_PRODUCER) && (map_sum serving (w_producers w) <? limit)
          then Some (with_producer n (Producer (pr_next p) (pr_sent p) (pr_retried p) (Some AtCheck) true) w) else None
      | Some _ => None
      end
  | Serves n =>
      p ← w_producers w !! n;
      match pr_call p with
      | None | Some (Answered _) => None
      | Some a =>
          let '(q, b) := offer (item_of n (pr_next p)) (w_queue w) a in
          Some (World q (w_consumer w)
            (<[n := Producer (pr_next p) (pr_sent p) (pr_retried p) (Some b) (pr_alive p)]> (w_producers w))
            (w_taken w) (w_appended w ++ match a with AtAppend => [(n, pr_next p)] | _ => [] end))
      end
  | Hears n =>
      p ← w_producers w !! n;
      match pr_call p with
      | Some (Answered r) => if pr_alive p then Some (with_producer n (answered r p) w) else None
      | _ => None
      end
  | Dies n =>
      p ← w_producers w !! n;
      Some (with_producer n (Producer (pr_next p) (pr_sent p) (pr_retried p) (pr_call p) false) w)
  | Consumes late =>
      '(q, a) ← consume late (w_queue w) (w_consumer w);
      Some (World q a (w_producers w)
        (w_taken w ++ match w_consumer w, a with CPop, CWork item => [item] | _, _ => [] end) (w_appended w))
  end.

Fixpoint run (limit : Z) (w : world) (es : list event) : option world :=
  match es with [] => Some w | e :: es => w ← step limit w e; run limit w es end.

(** [driver]: as many producers as it starts. *)
Definition start (producers : nat) : world :=
  World new_queue CLoop (list_to_map ((λ n, (n, new_producer)) <$> seq 0 producers)) [] [].

(** ** The invariant *)

(** Past the check, not yet in the list. *)
Definition appending (p : producer) : Z := match pr_call p with Some AtAppend => 1 | _ => 0 end.

(** The items of a producer that are in the list or have been. *)
Definition put (p : producer) : nat :=
  match pr_call p with
  | Some (AtCount | AtAdd _ | AtDepth | Answered (Ok _)) => S (pr_next p)
  | _ => pr_next p
  end.

Record sound (limit : Z) (w : world) : Prop := Sound {
  k_limit : map_sum serving (w_producers w) ≤ limit;
  k_bound : len (qu_items (w_queue w)) + map_sum appending (w_producers w) ≤ CAPACITY - 1 + limit;
  k_order : w_taken w ++ qu_items (w_queue w) = (λ x, item_of x.1 x.2) <$> w_appended w;
  k_each : ∀ n p, w_producers w !! n = Some p → filter (λ x, x.1 = n) (w_appended w) = (λ i, (n, i)) <$> seq 0 (put p);
  k_whose : ∀ n i, (n, i) ∈ w_appended w → is_Some (w_producers w !! n);
  k_pop : w_consumer w = CPop → qu_items (w_queue w) ≠ []
}.

Lemma appending_serving p : 0 ≤ appending p ≤ serving p.
Proof. unfold appending, serving. destruct (pr_call p) as [[]|]; lia. Qed.

Lemma sum_appending (ps : gmap nat producer) : map_sum appending ps ≤ map_sum serving ps.
Proof. apply map_sum_le. intros n p _. apply appending_serving. Qed.

(** A producer goes on, and the list stays as it is. *)
Lemma sound_producer limit n p p' w :
  sound limit w → w_producers w !! n = Some p → put p' = put p → appending p' ≤ appending p →
  map_sum serving (w_producers w) - serving p + serving p' ≤ limit → sound limit (with_producer n p' w).
Proof.
  intros [H1 H2 H3 H4 H5 H6] Hp Hput Ha Hs. split; simpl; try done.
  - by rewrite (map_sum_replace _ _ _ p).
  - rewrite (map_sum_replace _ _ _ p) by done. lia.
  - intros m x [[<- <-]|[_ Hx]]%lookup_insert_Some; [rewrite Hput|]; by apply H4.
  - intros m i Hm. destruct (decide (n = m)) as [->|Hne]; [rewrite lookup_insert_eq; eauto|]. rewrite lookup_insert_ne by done. eauto.
Qed.

(** Only the counters of the queue differ. *)
Lemma sound_counters limit q w :
  sound limit w → qu_items q = qu_items (w_queue w) → sound limit (World q (w_consumer w) (w_producers w) (w_taken w) (w_appended w)).
Proof. intros [H1 H2 H3 H4 H5 H6] Hq. split; simpl; rewrite ?Hq; done. Qed.

(** [self.items.append(item)] *)
Lemma sound_append limit n p w :
  sound limit w → w_producers w !! n = Some p → pr_call p = Some AtAppend →
  sound limit (World (offer (item_of n (pr_next p)) (w_queue w) AtAppend).1 (w_consumer w)
    (<[n := Producer (pr_next p) (pr_sent p) (pr_retried p) (Some AtCount) (pr_alive p)]> (w_producers w))
    (w_taken w) (w_appended w ++ [(n, pr_next p)])).
Proof.
  intros [H1 H2 H3 H4 H5 H6] Hp Hc. split; simpl.
  - rewrite (map_sum_replace _ _ _ p) by done. unfold serving at 2 3. rewrite Hc. simpl. lia.
  - rewrite (map_sum_replace _ _ _ p), len_app by done. unfold appending at 2 3. rewrite Hc. simpl. change (len [_]) with 1. lia.
  - by rewrite fmap_app, app_assoc, H3.
  - intros m x Hx. rewrite filter_app. destruct (decide (m = n)) as [->|Hne].
    + rewrite lookup_insert_eq in Hx. injection Hx as <-. rewrite (H4 n p Hp). unfold put. rewrite Hc.
      cbn [pr_call pr_next]. rewrite filter_cons, filter_nil, decide_True by done. by rewrite seq_S, fmap_app.
    + rewrite lookup_insert_ne in Hx by done. rewrite (H4 m x Hx), filter_cons, filter_nil, decide_False by (simpl; congruence).
      by rewrite app_nil_r.
  - intros m i [Hm|[= -> ->]%list_elem_of_singleton]%elem_of_app; [|rewrite lookup_insert_eq; eauto].
    destruct (decide (n = m)) as [->|Hne]; [rewrite lookup_insert_eq; eauto|]. rewrite lookup_insert_ne by done. eauto.
  - intros _ Hn. by apply app_eq_nil in Hn as [_ ?].
Qed.

(** [if len(self.items) >= CAPACITY] *)
Lemma sound_check limit n p w :
  sound limit w → w_producers w !! n = Some p → pr_call p = Some AtCheck →
  sound limit (with_producer n (Producer (pr_next p) (pr_sent p) (pr_retried p)
    (Some (offer (item_of n (pr_next p)) (w_queue w) AtCheck).2) (pr_alive p)) w).
Proof.
  intros Hw Hp Hc. simpl. destruct (Z.leb_spec CAPACITY (len (qu_items (w_queue w)))) as [Hf|Hf].
  - eapply sound_producer; [done..|unfold put; by rewrite Hc|unfold appending; by rewrite Hc|].
    unfold serving at 2 3. rewrite Hc. simpl. pose proof (k_limit _ _ Hw). lia.
  - pose proof Hw as [H1 H2 H3 H4 H5 H6]. set (p' := Producer _ _ _ _ _).
    assert (map_sum serving (<[n := p']> (w_producers w)) ≤ limit) as Hl.
    { rewrite (map_sum_replace _ _ _ p) by done. unfold serving at 2 3. rewrite Hc. simpl. lia. }
    split; simpl; try done.
    + pose proof (sum_appending (<[n := p']> (w_producers w))). unfold CAPACITY in *. lia.
    + intros m x [[<- <-]|[_ Hx]]%lookup_insert_Some; [|by apply H4]. rewrite (H4 n p Hp). unfold put. by rewrite Hc.
    + intros m i Hm. destruct (decide (n = m)) as [->|Hne]; [rewrite lookup_insert_eq; eauto|]. rewrite lookup_insert_ne by done. eauto.
Qed.

Lemma sound_serves limit n w w' : sound limit w → step limit w (Serves n) = Some w' → sound limit w'.
Proof.
  intros Hw H. cbn [step] in H. destruct (w_producers w !! n) as [p|] eqn:Hp; [|done]. cbn [mbind option_bind] in H.
  destruct (pr_call p) as [a|] eqn:Hc; [|done]. pose proof (k_limit _ _ Hw) as Hl.
  destruct a; try done; cbn [offer] in H; injection H as <-; rewrite ?app_nil_r.
  all: try (by apply (sound_check limit n p)); try (by apply (sound_append limit n p)).
  all: match goal with |- sound _ (World ?q _ (<[_ := ?p']> _) _ _) =>
    apply (sound_counters limit q (with_producer n p' w)); [|done];
    eapply sound_producer; [done..|unfold put; by rewrite Hc|unfold appending; by rewrite Hc|];
    unfold serving at 2 3; rewrite Hc; simpl; lia end.
Qed.

Lemma sound_consumes limit late w w' : sound limit w → step limit w (Consumes late) = Some w' → sound limit w'.
Proof.
  intros [H1 H2 H3 H4 H5 H6] H. cbn [step] in H. unfold consume in H. destruct (w_consumer w) eqn:Hc.
  - simpl in H. injection H as <-. rewrite app_nil_r. split; simpl; try done. by destruct (_ && _).
  - simpl in H. injection H as <-. rewrite app_nil_r. split; simpl; try done. by destruct (qu_items (w_queue w)).
  - destruct (qu_items (w_queue w)) as [|x items] eqn:Hi; [done|]. simpl in H. injection H as <-. split; simpl; try done.
    + rewrite len_cons in H2. lia.
    + by rewrite <- app_assoc.
  - simpl in H. injection H as <-. rewrite app_nil_r. by split.
  - simpl in H. injection H as <-. rewrite app_nil_r. by split.
Qed.

Lemma queue_sound_step limit w e w' : sound limit w → step limit w e = Some w' → sound limit w'.
Proof.
  intros Hw. destruct e as [n|n|n|n|late]; try (by apply sound_serves); try (by apply sound_consumes); cbn [step]; intros H;
    (destruct (w_producers w !! n) as [p|] eqn:Hp; [|done]); cbn [mbind option_bind] in H; pose proof (k_limit _ _ Hw) as Hl.
  - destruct (pr_call p) eqn:Hc; [done|]. destruct (pr_alive p && _) eqn:Hg; [|done]. simpl in H.
    destruct (Z.ltb_spec (map_sum serving (w_producers w)) limit) as [Hlt|]; [|done]. injection H as <-.
    eapply sound_producer; [done..|unfold put; by rewrite Hc|unfold appending; by rewrite Hc|].
    unfold serving at 2 3. rewrite Hc. simpl. lia.
  - destruct (pr_call p) as [[]|] eqn:Hc; try done. destruct (pr_alive p); [|done]. injection H as <-.
    eapply sound_producer; [done..|unfold put; rewrite Hc; by destruct r|unfold appending; rewrite Hc; by destruct r|].
    unfold serving at 2 3. rewrite Hc. destruct r; simpl; lia.
  - injection H as <-. eapply sound_producer; [done..|]. change (serving (Producer _ _ _ _ _)) with (serving p). lia.
Qed.

Lemma queue_sound_run limit es w w' : sound limit w → run limit w es = Some w' → sound limit w'.
Proof.
  revert w. induction es as [|e es IH]; intros w Hw; simpl; [by intros [= <-]|].
  destruct (step limit w e) as [x|] eqn:Hx; [|done]. simpl. apply IH. by eapply queue_sound_step.
Qed.

Lemma new_producers (k : nat) (n : nat) p :
  (list_to_map ((λ n, (n, new_producer)) <$> seq 0 k) : gmap nat producer) !! n = Some p → p = new_producer.
Proof.
  intros Hp%elem_of_list_to_map_2. apply list_elem_of_fmap in Hp as (m & [= _ ->] & _). done.
Qed.

Lemma sum_zero (f : producer → Z) (ps : gmap nat producer) : (∀ n p, ps !! n = Some p → f p = 0) → map_sum f ps = 0.
Proof.
  intros Hf. assert (map_sum f ps ≤ map_sum (λ _, 0) ps ∧ map_sum (λ _, 0) ps ≤ map_sum f ps) as [H1 H2].
  { split; apply map_sum_le; intros n p Hp; by rewrite (Hf n p Hp). }
  assert (map_sum (λ _, 0) ps = 0) as H0; [|lia]. clear. induction ps as [|n p ps Hn IH] using map_ind; [done|].
  by rewrite map_sum_insert.
Qed.

Lemma sound_start limit k : 1 ≤ limit → sound limit (start k).
Proof.
  intros Hl. split; simpl; try done.
  - rewrite sum_zero; [lia|]. intros n p ->%new_producers. done.
  - rewrite sum_zero; [unfold CAPACITY; change (len []) with 0; lia|]. intros n p ->%new_producers. done.
  - intros n p ->%new_producers. done.
  - by intros n i ?%not_elem_of_nil.
Qed.

(** ** Theorems *)

(** Whatever the producers, the handlers and the consumer do and in whatever
    order, the consumer gets the items in the order they were appended, each
    producer's in the order it made them, none twice and none left out: what a
    producer was told is in was taken or is in the list.  [pop] never finds the
    list empty, and the list is longer than [CAPACITY] by at most the handlers
    that run beside one another. *)
Theorem queue_keeps_its_items limit k es w :
  1 ≤ limit → run limit (start k) es = Some w →
  w_taken w ++ qu_items (w_queue w) = (λ x, item_of x.1 x.2) <$> w_appended w ∧
  (∀ n p, w_producers w !! n = Some p → filter (λ x, x.1 = n) (w_appended w) = (λ i, (n, i)) <$> seq 0 (put p)) ∧
  (∀ late, is_Some (step limit w (Consumes late))) ∧
  len (qu_items (w_queue w)) ≤ CAPACITY + (limit - 1).
Proof.
  intros Hl Hr. destruct (queue_sound_run _ _ _ _ (sound_start limit k Hl) Hr) as [H1 H2 H3 H4 H5 H6]. split_and!; try done.
  - intros late. cbn [step]. unfold consume. destruct (w_consumer w) eqn:Hc; simpl; eauto.
    destruct (qu_items (w_queue w)) eqn:Hi; [by destruct (H6 eq_refl)|]. simpl. eauto.
  - assert (0 ≤ map_sum appending (w_producers w)); [|lia]. apply map_sum_nonneg. intros n p _. apply appending_serving.
Qed.

(** Calls of [offer] from the check to the answer. *)
Definition offers (p : nat) : list event := Offers p :: replicate 5 (Serves p).
Definition fills (p : nat) (k : nat) : list event := concat (replicate k (offers p ++ [Hears p])).

Definition after (limit : Z) (es : list event) : world := default (start 3) (run limit (start 3) es).

Lemma queue_keeps_its_items_witness :
  len (qu_items (w_queue (after 1 (fills 0 8 ++ Offers 1 :: replicate 3 (Serves 1))))) ≤ CAPACITY + (1 - 1) ∧
  qu_refused (w_queue (after 1 (fills 0 8 ++ Offers 1 :: replicate 3 (Serves 1)))) = 1.
Proof.
  split; [|vm_compute; reflexivity].
  apply (queue_keeps_its_items 1 3 (fills 0 8 ++ Offers 1 :: replicate 3 (Serves 1))); [lia|vm_compute; reflexivity].
Defined.

(** Three handlers that look before any of them appends: ten items in a queue
    for eight. *)
Theorem capacity_exceeded :
  ∃ es w, run PRODUCERS (start 3) es = Some w ∧ len (qu_items (w_queue w)) = CAPACITY + 2.
Proof.
  exists (fills 0 7 ++ [Offers 0; Offers 1; Offers 2; Serves 0; Serves 1; Serves 2; Serves 0; Serves 1; Serves 2]). eexists.
  split; vm_compute; reflexivity.
Qed.
