(* ===== verification/Harness.v ===== *)
(** * The harness of the examples

    [examples/_harness.py]: a registry and a set of child processes that are
    all cleaned up, whatever the driver in between does.  A process is
    running or has ended with a code; when one ends by itself, and whether a
    [wait] with a timeout returns in time, is up to the operating system and
    part of the input.  [expect] is what [wait_all] was told to expect. *)

From S2P Require Import Prelude PyStr Errors Json.

Local Open Scope Z_scope.

(** The processes this one has started: [None] while one runs. *)
Notation processes := (gmap nat (option Z)).

(** [class Fleet], with the processes it started. *)
Record fleet := Fleet {
  fl_registry : option nat;
  fl_procs : list (pystr * nat);
  fl_started : processes
}.

Definition new_fleet : fleet := Fleet None [] ∅.

Definition with_started (ps : processes) (f : fleet) : fleet := Fleet (fl_registry f) (fl_procs f) ps.

(** [subprocess.Popen]: a process of its own. *)
Definition popen (f : fleet) : nat * fleet :=
  let pid := fresh (dom (fl_started f)) in (pid, with_started (<[pid := None]> (fl_started f)) f).

(** [Popen.kill]: the signal cannot be caught. *)
Definition kill (pid : nat) (ps : processes) : processes :=
  alter (λ s, Some (default (-9) s)) pid ps.

(** [Popen.wait(timeout=...)]: it ends with [code] in time, or
    [TimeoutExpired] is raised; a process that has ended has its code. *)
Definition wait (pid : nat) (ends : option Z) (f : fleet) : option Z * fleet :=
  match fl_started f !! pid with
  | Some (Some code) => (Some code, f)
  | Some None => (ends, with_started (<[pid := ends]> (fl_started f)) f)
  | None => (None, f)
  end.

(** [start_registry] *)
Definition start_registry (f : fleet) : fleet :=
  let '(pid, f) := popen f in Fleet (Some pid) (fl_procs f) (fl_started f).

(** [stop_registry]: [ends] is how its process takes the signal.  [false] is
    the [TimeoutExpired] of [wait]. *)
Definition stop_registry (ends : option Z) (f : fleet) : bool * fleet :=
  match fl_registry f with
  | None => (true, f)
  | Some pid =>
      match wait pid ends f with
      | (Some _, f) => (true, Fleet None (fl_procs f) (fl_started f))
      | (None, f) => (false, f)
      end
  end.

(** [spawn]; [label or " ".join(...)] is the label. *)
Definition spawn (label : pystr) (f : fleet) : fleet :=
  let '(pid, f) := popen f in Fleet (fl_registry f) (fl_procs f ++ [(label, pid)]) (fl_started f).

(** The loop of [wait_all]: [ends] is what becomes of a process that is still
    running. *)
Fixpoint wait_from (ends : nat → option Z) (expect_nonzero : list pystr) (rc : Z) (procs : list (pystr * nat)) (f : fleet)
    : Z * fleet :=
  match procs with
  | [] => (rc, f)
  | (label, pid) :: procs =>
      match wait pid (ends pid) f with
      | (None, f) => wait_from ends expect_nonzero 1 procs (with_started (kill pid (fl_started f)) f)
      | (Some code, f) =>
          wait_from ends expect_nonzero
            (if negb (code =? 0) && negb (bool_decide (label ∈ expect_nonzero)) then 1 else rc) procs f
      end
  end.

(** [wait_all] *)
Definition wait_all (ends : nat → option Z) (expect_nonzero : list pystr) (f : fleet) : Z * fleet :=
  wait_from ends expect_nonzero 0 (fl_procs f) f.

(** The loop of [__exit__]: [poll] first. *)
Fixpoint kill_all (procs : list (pystr * nat)) (f : fleet) : fleet :=
  match procs with
  | [] => f
  | (_, pid) :: procs =>
      kill_all procs
        (match fl_started f !! pid with Some None => with_started (kill pid (fl_started f)) f | _ => f end)
  end.

(** [__exit__] *)
Definition exit_ (ends : option Z) (f : fleet) : bool * fleet := stop_registry ends (kill_all (fl_procs f) f).

(** What a driver does inside [with Fleet() as fleet]. *)
Inductive act :=
| Spawn (label : pystr)
| EndsByItself (pid : nat) (code : Z)
| StopRegistry (ends : option Z)
| StartRegistry
| WaitAll (ends : nat → option Z) (expect : list pystr).

Definition act_step (f : fleet) (a : act) : fleet :=
  match a with
  | Spawn label => spawn label f
  | EndsByItself pid code => with_started (alter (λ s, Some (default code s)) pid (fl_started f)) f
  | StopRegistry ends => (stop_registry ends f).2
  | StartRegistry => start_registry f
  | WaitAll ends expect => (wait_all ends expect f).2
  end.

(** The whole [with] statement: its body does any of this, and then ends or
    raises; [__exit__] runs either way. *)
Definition with_fleet (acts : list act) (ends : option Z) : bool * fleet :=
  exit_ ends (foldl act_step (start_registry new_fleet) acts).

(** [role_main] *)
Definition role_main {R} (argv : list pystr) (roles : list (pystr * (list pystr → R))) (driver : Z) : option R * Z :=
  match argv with
  | _ :: name :: rest => match assoc name roles with Some role => (Some (role rest), 0) | None => (None, driver) end
  | _ => (None, driver)
  end.

(** ** Lemmas *)

(** What is still running is known, and every child is a process. *)
Record kept (f : fleet) : Prop := Kept {
  f_running : ∀ pid, fl_started f !! pid = Some None → fl_registry f = Some pid ∨ pid ∈ (fl_procs f).*2;
  f_known : ∀ pid, pid ∈ (fl_procs f).*2 → is_Some (fl_started f !! pid);
  f_once : NoDup (fl_procs f).*2
}.

(** Processes end, and none goes back to running. *)
Definition ending (ps qs : processes) : Prop :=
  ∀ pid, match ps !! pid, qs !! pid with
         | None, None => True
         | Some s, Some s' => s' = None → s = None
         | _, _ => False
         end.

#[global] Instance ending_preorder : PreOrder ending.
Proof.
  split.
  - intros ps pid. by destruct (ps !! pid).
  - intros ps qs rs H1 H2 pid. specialize (H1 pid). specialize (H2 pid).
    destruct (ps !! pid), (qs !! pid), (rs !! pid); try done. auto.
Qed.

Lemma ending_alter (g : option Z → option Z) pid ps : (∀ s, g s = None → s = None) → ending ps (alter g pid ps).
Proof.
  intros Hg q. destruct (decide (pid = q)) as [->|Hne].
  - rewrite lookup_alter_eq. destruct (ps !! q); simpl; auto.
  - rewrite lookup_alter_ne by done. by destruct (ps !! q).
Qed.

Lemma ending_kill pid ps : ending ps (kill pid ps).
Proof. by apply ending_alter. Qed.

Lemma wait_ending pid ends f : ending (fl_started f) (fl_started (wait pid ends f).2).
Proof.
  unfold wait. destruct (fl_started f !! pid) as [[code|]|] eqn:Hp; try done. simpl. intros q.
  destruct (decide (pid = q)) as [->|Hne]; [by rewrite lookup_insert_eq, Hp|]. rewrite lookup_insert_ne by done. by destruct (fl_started f !! q).
Qed.

Lemma wait_frame pid ends f : fl_registry (wait pid ends f).2 = fl_registry f ∧ fl_procs (wait pid ends f).2 = fl_procs f.
Proof. unfold wait. by repeat case_match. Qed.

Lemma kept_ending ps f : kept f → ending (fl_started f) ps → kept (with_started ps f).
Proof.
  intros [H1 H2 H3] He. split; simpl; [..|done].
  - intros pid Hp. apply H1. specialize (He pid). rewrite Hp in He. destruct (fl_started f !! pid) as [[]|]; try done. by specialize (He eq_refl).
  - intros pid Hp. destruct (H2 pid Hp) as [s Hs]. specialize (He pid). rewrite Hs in He. destruct (ps !! pid); [eauto|done].
Qed.

Lemma wait_from_ending ends expect procs : ∀ rc f,
  ending (fl_started f) (fl_started (wait_from ends expect rc procs f).2) ∧
  fl_registry (wait_from ends expect rc procs f).2 = fl_registry f ∧ fl_procs (wait_from ends expect rc procs f).2 = fl_procs f.
Proof.
  induction procs as [|[label pid] procs IH]; intros rc f; [done|]. cbn [wait_from].
  pose proof (wait_ending pid (ends pid) f) as He. destruct (wait_frame pid (ends pid) f) as [Hr Hp].
  destruct (wait pid (ends pid) f) as [[code|] g]; cbn [snd] in *.
  - destruct (IH (if negb (code =? 0) && negb (bool_decide (label ∈ expect)) then 1 else rc) g) as (E1 & E2 & E3).
    split_and!; [by etrans|congruence..].
  - destruct (IH 1 (with_started (kill pid (fl_started g)) g)) as (E1 & E2 & E3).
    split_and!; [|by rewrite E2|by rewrite E3]. etrans; [exact He|]. etrans; [apply (ending_kill pid)|exact E1].
Qed.

Lemma kill_all_spec procs : ∀ f,
  ending (fl_started f) (fl_started (kill_all procs f)) ∧ fl_registry (kill_all procs f) = fl_registry f ∧
  fl_procs (kill_all procs f) = fl_procs f ∧ ∀ pid, pid ∈ procs.*2 → fl_started (kill_all procs f) !! pid ≠ Some None.
Proof.
  induction procs as [|[label pid] procs IH]; intros f; [by split_and!; [..|intros pid ?%not_elem_of_nil]|]. cbn [kill_all].
  set (g := match fl_started f !! pid with Some None => _ | _ => f end).
  assert (ending (fl_started f) (fl_started g) ∧ fl_registry g = fl_registry f ∧ fl_procs g = fl_procs f ∧
    fl_started g !! pid ≠ Some None) as (G1 & G2 & G3 & G4).
  { subst g. destruct (fl_started f !! pid) as [[]|] eqn:Hp; try (split_and!; try done; congruence). simpl.
    split_and!; try done; [apply ending_kill|]. unfold kill. by rewrite lookup_alter_eq, Hp. }
  destruct (IH g) as (E1 & E2 & E3 & E4). split_and!; [by etrans|congruence..|].
  intros q [-> |Hq]%elem_of_cons; [|by apply E4]. intros Hn. specialize (E1 pid). simpl in Hn. rewrite Hn in E1.
  destruct (fl_started g !! pid) as [[]|] eqn:Hg; try done. by specialize (E1 eq_refl).
Qed.

(** A new process. *)
Lemma popen_fresh f : fl_started f !! (popen f).1 = None.
Proof. apply not_elem_of_dom, is_fresh. Qed.

Lemma kept_spawn label f : kept f → kept (spawn label f).
Proof.
  intros [H1 H2 H3]. pose proof (popen_fresh f) as Hn. unfold spawn. destruct (popen f) as [pid g] eqn:Hp.
  unfold popen in Hp. injection Hp as <- <-. simpl in Hn. set (pid := fresh (dom (fl_started f))) in *. split; simpl.
  - rewrite fmap_app. intros q [[<- _]|[_ Hq]]%lookup_insert_Some; [right; apply elem_of_app; right; by left|].
    destruct (H1 q Hq); [by left|]. right. apply elem_of_app. by left.
  - rewrite fmap_app. intros q [Hq|Hq]%elem_of_app.
    + destruct (decide (pid = q)) as [<-|Hne]; [rewrite lookup_insert_eq; eauto|]. rewrite lookup_insert_ne by done. auto.
    + simpl in Hq. apply list_elem_of_singleton in Hq as ->. rewrite lookup_insert_eq. eauto.
  - rewrite fmap_app. apply NoDup_app. split_and!; [done| |apply NoDup_singleton].
    intros q Hq Hq'. simpl in Hq'. apply list_elem_of_singleton in Hq' as ->. destruct (H2 pid Hq). congruence.
Qed.

Lemma kept_start f : kept f → fl_registry f = None → kept (start_registry f).
Proof.
  intros [H1 H2 H3] Hr. unfold start_registry, popen. simpl. set (pid := fresh (dom (fl_started f))) in *. split; simpl; [..|done].
  - intros q [[<- _]|[_ Hq]]%lookup_insert_Some; [by left|]. destruct (H1 q Hq) as [?|?]; [congruence|by right].
  - intros q Hq. destruct (decide (pid = q)) as [<-|Hne]; [rewrite lookup_insert_eq; eauto|]. rewrite lookup_insert_ne by done. auto.
Qed.

Lemma kept_stop ends f : kept f → kept (stop_registry ends f).2.
Proof.
  intros Hf. unfold stop_registry. destruct (fl_registry f) as [pid|] eqn:Hr; [|done].
  pose proof (wait_ending pid ends f) as He. destruct (wait_frame pid ends f) as [Er Ep]. pose proof (kept_ending _ _ Hf He) as [K1 K2 K3].
  simpl in *. destruct (wait pid ends f) as [[code|] g] eqn:Hw; cbn [snd] in *.
  - split; simpl; rewrite ?Ep; try done. intros q Hq. destruct (K1 q Hq) as [Hq'|?]; [|by right]. exfalso.
    assert (q = pid) as -> by congruence. unfold wait in Hw.
    destruct (fl_started f !! pid) as [[c|]|] eqn:Hp; injection Hw as ? <-; [congruence| |congruence].
    subst ends. simpl in Hq. by rewrite lookup_insert_eq in Hq.
  - destruct g. simpl in *. subst. by split.
Qed.

(** The registry is started again only after it was stopped. *)
Definition in_turn (f : fleet) (a : act) : Prop := match a with StartRegistry => fl_registry f = None | _ => True end.

Lemma kept_act f a : kept f → in_turn f a → kept (act_step f a).
Proof.
  intros Hf Ha. destruct a; cbn [act_step].
  - by apply kept_spawn.
  - apply kept_ending; [done|]. by apply ending_alter.
  - by apply kept_stop.
  - by apply kept_start.
  - unfold wait_all. destruct (wait_from_ending ends expect (fl_procs f) 0 f) as (E1 & E2 & E3).
    pose proof (kept_ending _ _ Hf E1) as Hk. destruct (wait_from ends expect 0 (fl_procs f) f) as [rc g]. cbn [snd] in *.
    destruct g. simpl in *. subst. by destruct Hk.
Qed.

Fixpoint all_in_turn (f : fleet) (acts : list act) : Prop :=
  match acts with [] => True | a :: acts => in_turn f a ∧ all_in_turn (act_step f a) acts end.

Lemma kept_acts acts : ∀ f, kept f → all_in_turn f acts → kept (foldl act_step f acts).
Proof.
  induction acts as [|a acts IH]; intros f Hf; simpl; [done|]. intros [Ha Hr]. apply IH; [by apply kept_act|done].
Qed.

Lemma kept_new_fleet : kept new_fleet.
Proof. split; simpl; [done|by intros pid ?%not_elem_of_nil|constructor]. Qed.

(** ** Theorems *)

(** Whatever the driver did inside [with Fleet()], and however it ended, no
    process it spawned is running afterwards; and neither is the registry,
    unless it ignored its signal and the statement raised [TimeoutExpired]. *)
Theorem nothing_left_running acts ends :
  all_in_turn (start_registry new_fleet) acts →
  let '(ok, f) := with_fleet acts ends in
  (∀ pid, pid ∈ (fl_procs f).*2 → ∃ code, fl_started f !! pid = Some (Some code)) ∧
  (ok = true → ∀ pid s, fl_started f !! pid = Some s → s ≠ None).
Proof.
  intros Ha. unfold with_fleet, exit_.
  pose proof (kept_acts acts _ (kept_start _ kept_new_fleet eq_refl) Ha) as Hk. set (f := foldl act_step _ acts) in *.
  destruct (kill_all_spec (fl_procs f) f) as (E1 & E2 & E3 & E4). set (g := kill_all (fl_procs f) f) in *.
  assert (kept g) as Hg.
  { pose proof (kept_ending _ _ Hk E1) as [K1 K2 K3]. simpl in *. split; rewrite ?E2, ?E3; done. }
  assert (ending (fl_started g) (fl_started (stop_registry ends g).2) ∧ fl_procs (stop_registry ends g).2 = fl_procs g ∧
    ((stop_registry ends g).1 = true → fl_registry (stop_registry ends g).2 = None)) as (S1 & S2 & S3).
  { unfold stop_registry. destruct (fl_registry g) as [pid|] eqn:Hgr; [|by split_and!]. pose proof (wait_ending pid ends g) as He.
    destruct (wait_frame pid ends g) as [_ Hp]. by destruct (wait pid ends g) as [[code|] h]. }
  pose proof (kept_stop ends g Hg) as Hs. destruct (stop_registry ends g) as [ok h]. cbn [fst snd] in *.
  assert (∀ pid, pid ∈ (fl_procs h).*2 → fl_started h !! pid ≠ Some None) as Hdead.
  { intros pid Hp Hn. specialize (S1 pid). rewrite Hn in S1. destruct (fl_started g !! pid) as [[]|] eqn:Hgp; try done; [by specialize (S1 eq_refl)|].
    apply (E4 pid); [|done]. by rewrite <- E3, <- S2. }
  split.
  - intros pid Hp. destruct (f_known _ Hs pid Hp) as [[code|] Hc]; [by exists code|]. by destruct (Hdead pid Hp).
  - intros Hok pid s Hps ->. destruct (f_running _ Hs pid Hps) as [Hr|Hr]; [rewrite S3 in Hr by done; done|]. by apply (Hdead pid).
Qed.

(** How a process that [wait_all] comes to ends. *)
Definition ends_with (ends : nat → option Z) (f : fleet) (pid : nat) : option Z :=
  match fl_started f !! pid with Some (Some code) => Some code | Some None => ends pid | None => None end.

Definition fine (ends : nat → option Z) (expect : list pystr) (f : fleet) (x : pystr * nat) : Prop :=
  ∃ code, ends_with ends f x.2 = Some code ∧ (code = 0 ∨ x.1 ∈ expect).

Lemma imp_iff_strong (P Q R : Prop) : (P → Q ↔ R) → (P → Q) ↔ (P → R).
Proof. tauto. Qed.

Lemma wait_from_zero ends expect procs : ∀ rc f,
  NoDup procs.*2 → (rc = 0 ∨ rc = 1) →
  (wait_from ends expect rc procs f).1 = 0 ↔ rc = 0 ∧ Forall (fine ends expect f) procs.
Proof.
  induction procs as [|[label pid] procs IH]; intros rc f Hn Hrc; [simpl; split; [intros ->; by split|by intros [-> _]]|].
  cbn [wait_from]. apply NoDup_cons in Hn as [Hpid Hn].
  assert (∀ g, (∀ q, q ≠ pid → fl_started g !! q = fl_started f !! q) → Forall (fine ends expect g) procs ↔ Forall (fine ends expect f) procs) as Hsame.
  { intros g Hg. rewrite !Forall_forall. apply forall_proper. intros [l q]. apply imp_iff_strong. intros Hin.
    unfold fine, ends_with. simpl. rewrite Hg; [done|]. intros ->. apply Hpid. apply list_elem_of_fmap. by exists (l, pid). }
  assert ((wait pid (ends pid) f).1 = ends_with ends f pid ∧
    ∀ q, q ≠ pid → fl_started (wait pid (ends pid) f).2 !! q = fl_started f !! q) as [Hw Hws].
  { unfold wait, ends_with. destruct (fl_started f !! pid) as [[]|]; try done. simpl. split; [done|].
    intros q Hq. by rewrite lookup_insert_ne. }
  rewrite Forall_cons. unfold fine at 1. cbn [fst snd]. rewrite <- Hw.
  destruct (wait pid (ends pid) f) as [[code|] g]; cbn [fst snd] in *.
  - rewrite IH, (Hsame g Hws) by (done || destruct (_ && _); auto). destruct (Z.eqb_spec code 0) as [->|Hc]; simpl.
    + split; [intros [-> ?]; split_and!; eauto|by intros (-> & _ & ?)].
    + case_bool_decide as Hl; simpl.
      * split; [intros [-> ?]; split_and!; eauto|by intros (-> & _ & ?)].
      * split; [by intros [? _]|]. intros (_ & (c & [= <-] & [?|?]) & _); done.
  - rewrite IH by auto. split; [by intros [? _]|]. by intros (_ & (c & ? & _) & _).
Qed.

(** [wait_all] returns 0 exactly when every process ended in time, with 0 or
    under a label that was expected to fail. *)
Theorem wait_all_zero_exactly ends expect f :
  NoDup (fl_procs f).*2 →
  (wait_all ends expect f).1 = 0 ↔
  ∀ label pid, (label, pid) ∈ fl_procs f → ∃ code, ends_with ends f pid = Some code ∧ (code = 0 ∨ label ∈ expect).
Proof.
  intros Hn. unfold wait_all. rewrite wait_from_zero by auto. rewrite Forall_forall. split.
  - intros [_ H] label pid Hin. apply (H (label, pid) Hin).
  - intros H. split; [done|]. intros [label pid] Hin. by apply H.
Qed.

(** A driver whose second child never ends by itself. *)
Example driver_cleans_up :
  let '(ok, f) := with_fleet [Spawn (u "queue"); Spawn (u "p0"); EndsByItself 1 0; WaitAll (λ _, None) []] (Some 0) in
  ok = true ∧ fl_registry f = None ∧ fl_started f = {[0%nat := Some 0; 1%nat := Some 0; 2%nat := Some (-9)]}.
Proof. vm_compute. by split_and!. Qed.
