(* ===== verification/ShardRouter.v ===== *)
(** * The shard router example

    [examples/03_shard_router.py]: keys are spread over seats by a digest, and
    an empty seat is an error, never another member.  [hashlib.blake2b] is a
    parameter, read as the number its hex digest stands for.  A member is its
    store; the pool gives the one in a seat or raises [NotFound]. *)

From S2P Require Import Prelude PyStr Errors.

Local Open Scope Z_scope.

Definition SHARDS : Z := 4.
Definition KEYS : Z := 200.

Section Router.
Context (blake2b : pystr → Z).

(** [shard_of] *)
Definition shard_of (key : pystr) : Z := blake2b key `mod` SHARDS.

(** [class Shard] *)
Notation shard := (gmap pystr pystr).

(** [Shard.put] of the shard in seat [index] *)
Definition put (index : Z) (key value : pystr) (store : shard) : res (Z * shard) :=
  if negb (shard_of key =? index) then Raise (Exc AssertionError)
  else let store := <[key := value]> store in Ok (Z.of_nat (size store), store).

(** [Shard.get] and [Shard.size] *)
Definition get (key : pystr) (store : shard) : option pystr := store !! key.
Definition shard_size (store : shard) : Z := Z.of_nat (size store).

(** The seats of the pool "kv". *)
Notation seats := (gmap Z shard).

(** [kv.slot(k)] *)
Definition slot (k : Z) (kv : seats) : res shard :=
  match kv !! k with Some store => Ok store | None => Raise (Exc NotFound) end.

(** [kv.slot(shard_of(key)).put(key=key, value=value)] *)
Definition put_key (key value : pystr) (kv : seats) : res seats :=
  store ← slot (shard_of key) kv;
  '(_, store) ← put (shard_of key) key value store;
  Ok (<[shard_of key := store]> kv).

(** [kv.slot(shard_of(key)).get(key=key)] *)
Definition get_key (key : pystr) (kv : seats) : res (option pystr) :=
  store ← slot (shard_of key) kv; Ok (get key store).

Definition key_of (i : nat) : pystr := u "key-" ++ dec (N.of_nat i).
Definition value_of (i : nat) : pystr := u "v" ++ dec (N.of_nat i).

(** The first loop of [run_client]. *)
Fixpoint write_keys (is_ : list nat) (kv : seats) : res seats :=
  match is_ with
  | [] => Ok kv
  | i :: is_ => kv ← put_key (key_of i) (value_of i) kv; write_keys is_ kv
  end.

(** Its sum over what cannot be read back. *)
Fixpoint misses (is_ : list nat) (kv : seats) : res Z :=
  match is_ with
  | [] => Ok 0
  | i :: is_ =>
      v ← get_key (key_of i) kv;
      n ← misses is_ kv;
      Ok (n + match v with None => 1 | Some _ => 0 end)
  end.

(** [run_client], from the first write to [me.ready(done=True)]. *)
Definition run_client (kv : seats) : res seats :=
  kv ← write_keys (seq 0 (Z.to_nat KEYS)) kv;
  n ← misses (seq 0 (Z.to_nat KEYS)) kv;
  if negb (n =? 0) then Raise (Exc AssertionError)
  else match (store ← slot (SHARDS + 1) kv; Ok (get (u "key-0") store)) with
       | Ok _ => Raise (Exc AssertionError)
       | Raise e => if matches [NotFound] e then Ok kv else Raise e
       end.

(** ** Lemmas *)

(** Every seat that a key can have is taken; and what a shard holds is its own. *)
Definition open (kv : seats) : Prop := ∀ k, 0 ≤ k < SHARDS → is_Some (kv !! k).
Definition placed (kv : seats) : Prop := ∀ k store key, kv !! k = Some store → is_Some (store !! key) → shard_of key = k.

(** What was read stays readable. *)
Definition reads (key : pystr) (kv : seats) : Prop := ∃ v, get_key key kv = Ok (Some v).

Lemma shard_of_range key : 0 ≤ shard_of key < SHARDS.
Proof. by apply Z.mod_pos_bound. Qed.

Lemma put_key_spec key value kv :
  open kv → placed kv →
  ∃ kv', put_key key value kv = Ok kv' ∧ open kv' ∧ placed kv' ∧ get_key key kv' = Ok (Some value) ∧
    (∀ key', reads key' kv → reads key' kv') ∧ dom kv' = dom kv.
Proof.
  intros Ho Hp. destruct (Ho _ (shard_of_range key)) as [store Hs]. unfold put_key, slot. rewrite Hs. cbn [mbind].
  unfold put. rewrite Z.eqb_refl. simpl. eexists. split; [done|]. split_and!.
  - intros k Hk. destruct (decide (shard_of key = k)) as [<-|Hne]; [rewrite lookup_insert_eq; eauto|]. rewrite lookup_insert_ne by done. auto.
  - intros k st x [[<- <-]|[_ Hk]]%lookup_insert_Some Hx; [|by eapply Hp].
    destruct (decide (key = x)) as [<-|Hne]; [done|]. rewrite lookup_insert_ne in Hx by done. by eapply Hp.
  - unfold get_key, slot. rewrite lookup_insert_eq. simpl. unfold get. by rewrite lookup_insert_eq.
  - intros x (v & Hv). unfold reads, get_key, slot in *. destruct (decide (shard_of x = shard_of key)) as [He|Hne].
    + rewrite He, lookup_insert_eq. rewrite He, Hs in Hv. simpl in *. injection Hv as Hv. unfold get in *.
      destruct (decide (key = x)) as [->|Hk]; [rewrite lookup_insert_eq; eauto|]. rewrite lookup_insert_ne by done. rewrite Hv. eauto.
    + rewrite lookup_insert_ne by done. eauto.
  - rewrite dom_insert_L. apply (elem_of_dom_2) in Hs. set_solver.
Qed.

Lemma write_keys_spec is_ : ∀ kv,
  open kv → placed kv →
  ∃ kv', write_keys is_ kv = Ok kv' ∧ open kv' ∧ placed kv' ∧ (∀ i, i ∈ is_ → reads (key_of i) kv') ∧
    (∀ key, reads key kv → reads key kv') ∧ dom kv' = dom kv.
Proof.
  induction is_ as [|i is_ IH]; intros kv Ho Hp; [exists kv; split_and!; try done; by intros i ?%not_elem_of_nil|].
  cbn [write_keys]. destruct (put_key_spec (key_of i) (value_of i) kv Ho Hp) as (k1 & -> & Ho1 & Hp1 & Hr & Hk & Hd1).
  destruct (IH k1 Ho1 Hp1) as (k2 & E & Ho2 & Hp2 & Hr2 & Hk2 & Hd2). exists k2. cbn [mbind]. split_and!; try done.
  - intros j [->|Hj]%elem_of_cons; [|by apply Hr2]. apply Hk2. by exists (value_of i).
  - auto.
  - congruence.
Qed.

Lemma misses_none is_ kv : (∀ i, i ∈ is_ → reads (key_of i) kv) → misses is_ kv = Ok 0.
Proof.
  induction is_ as [|i is_ IH]; intros Hr; [done|]. cbn [misses]. destruct (Hr i) as (v & ->); [by left|]. cbn [mbind].
  rewrite IH; [done|]. intros j Hj. apply Hr. by right.
Qed.

(** ** Theorem *)

(** With every shard in its seat and no seat beyond them, the client writes all
    of its keys, no shard refuses one, every key can be read back, each shard
    holds keys of its own only, and the empty seat is refused. *)
Theorem router_loses_nothing kv :
  open kv → placed kv → kv !! (SHARDS + 1) = None →
  ∃ kv', run_client kv = Ok kv' ∧ placed kv' ∧ ∀ i, (i < Z.to_nat KEYS)%nat → reads (key_of i) kv'.
Proof.
  intros Ho Hp He. destruct (write_keys_spec (seq 0 (Z.to_nat KEYS)) kv Ho Hp) as (k & Hw & _ & Hpl & Hr & _ & Hd).
  assert (∀ i, (i < Z.to_nat KEYS)%nat → reads (key_of i) k) as Hread by (intros i Hi; apply Hr, elem_of_seq; lia).
  pose proof (misses_none _ _ Hr) as Hm. exists k. unfold run_client. revert Hw Hm. generalize (seq 0 (Z.to_nat KEYS)).
  intros l -> Hm. simpl. rewrite Hm. simpl.
  assert (k !! (SHARDS + 1) = None) as Hk by (apply not_elem_of_dom; rewrite Hd; by apply not_elem_of_dom).
  unfold slot. change 5 with (SHARDS + 1). rewrite Hk. simpl. done.
Qed.

End Router.

(** The four shards, empty, and a digest. *)
Example router_runs :
  match run_client (λ key, Z.of_nat (length key) + Z.of_N (default 0%N (last key))) {[0 := ∅; 1 := ∅; 2 := ∅; 3 := ∅]} with
  | Ok kv' => (shard_size <$> kv' !! 0) = Some 50
  | Raise _ => False
  end.
Proof. vm_compute. reflexivity. Qed.
