(* ===== verification/Lifecycle.v ===== *)
(** * Waiting for peers that come and go

    An empty pool means two opposite things, that its members have not started
    and that they have finished and left, and a registry cannot tell them
    apart.  The examples do, with one bit each: [run_shard] of
    [03_shard_router.py], [run_dataworker] of [dataloader_to_trainer.py] and
    [run_agent] of [async_rl_fleet.py] remember whether they have met anybody.
    What a turn of such a loop sees is its input: the members the pool lists,
    whether the deadline has passed, what the calls of the turn return. *)

From S2P Require Import Prelude PyStr Errors.

Local Open Scope Z_scope.

(** ** Until everybody is done *)

(** The members of a pool, each with its [done] or [finished]; and whether
    the deadline has passed. *)
Record view := View { vw_alive : list bool; vw_late : bool }.

(** The loop of [run_dataworker]: the number of the turn it leaves in, [None]
    while it goes on. *)
Fixpoint run_dataworker (met : bool) (views : list view) : option nat :=
  match views with
  | [] => None
  | v :: views =>
      match vw_alive v with
      | [] => if met || vw_late v then Some 0%nat else S <$> run_dataworker met views
      | _ => if forallb id (vw_alive v) then Some 0%nat else S <$> run_dataworker true views
      end
  end.

(** The loop of [run_shard], which has no deadline. *)
Fixpoint run_shard (met : bool) (views : list (list bool)) : option nat :=
  match views with
  | [] => None
  | alive :: views =>
      match alive with
      | [] => if met then Some 0%nat else S <$> run_shard met views
      | _ => if forallb id alive then Some 0%nat else S <$> run_shard true views
      end
  end.

(** Why a turn ends the wait. *)
Definition leaves (met : bool) (v : view) : bool :=
  match vw_alive v with [] => met || vw_late v | _ => forallb id (vw_alive v) end.
Definition met_any (views : list view) : bool := existsb (λ v, match vw_alive v with [] => false | _ => true end) views.

(** A data worker leaves in the first turn in which everybody it sees is done,
    or in which it sees nobody and has met somebody before or waited until the
    deadline; and in no other. *)
Theorem dataworker_leaves_exactly met views j :
  run_dataworker met views = Some j ↔
  (∃ v, views !! j = Some v ∧ leaves (met || met_any (take j views)) v = true) ∧
  ∀ i v, (i < j)%nat → views !! i = Some v → leaves (met || met_any (take i views)) v = false.
Proof.
  revert met j. induction views as [|v views IH]; intros met j; [simpl; split; [done|by intros [(v & ? & _) _]]|].
  assert (run_dataworker met (v :: views) =
    if leaves met v then Some 0%nat else S <$> run_dataworker (met || met_any [v]) views) as ->.
  { cbn [run_dataworker]. unfold leaves, met_any. cbn [existsb]. destruct (vw_alive v); by rewrite ?orb_false_r, ?orb_true_r. }
  assert (∀ i, met || met_any (take (S i) (v :: views)) = (met || met_any [v]) || met_any (take i views)) as Hm.
  { intros i. simpl. by rewrite orb_false_r, orb_assoc. }
  destruct (leaves met v) eqn:Hl.
  - split.
    + intros [= <-]. split; [exists v; simpl; by rewrite orb_false_r|]. intros i w Hi. lia.
    + intros [_ Hno]. destruct j; [done|]. specialize (Hno 0%nat v ltac:(lia) eq_refl). simpl in Hno. by rewrite orb_false_r, Hl in Hno.
  - destruct j as [|j].
    + split; [by destruct (run_dataworker _ views)|]. intros [(w & [= <-] & Hw) _]. simpl in Hw. by rewrite orb_false_r, Hl in Hw.
    + transitivity (run_dataworker (met || met_any [v]) views = Some j).
      { destruct (run_dataworker _ views); simpl; naive_solver. }
      rewrite IH. split; intros [(w & Hw & Hlw) Hno]; (split; [exists w; by rewrite Hm in *|]).
      * intros [|i] x Hi Hx; [simpl in Hx; injection Hx as <-; simpl; by rewrite orb_false_r|]. rewrite Hm. apply Hno; [lia|done].
      * intros i x Hi Hx. rewrite <- Hm. apply Hno; [lia|done].
Qed.

(** A shard waits like a data worker that has no deadline. *)
Theorem shard_is_dataworker met views :
  run_shard met views = run_dataworker met ((λ alive, View alive false) <$> views).
Proof.
  revert met. induction views as [|alive views IH]; intros met; [done|]. cbn [run_shard fmap list_fmap run_dataworker vw_alive vw_late].
  rewrite orb_false_r. destruct alive; rewrite <- IH; done.
Qed.

(** ** The agents of the fleet *)

(** What a turn of [run_agent] meets: the dispatchers and their [finished],
    the clock, what [take] gives for each of the dispatchers in the order of
    the sample, what the engine and [submit] give. *)
Record turn := Turn {
  tn_alive : list bool;
  tn_late : bool;
  tn_takes : list (nat * res (option pystr));
  tn_generate : res Z;
  tn_submit : res unit
}.

(** [except (tinyray.NotFound, tinyray.Unreachable, tinyray.Fenced)] *)
Definition stale : list exc_class := [NotFound; Unreachable; Fenced].

(** The loop over the dispatchers: the work and who gave it. *)
Fixpoint find_work (takes : list (nat * res (option pystr))) : res (option (nat * pystr)) :=
  match takes with
  | [] => Ok None
  | (dp, Ok (Some task)) :: _ => Ok (Some (dp, task))
  | (_, Ok None) :: takes => find_work takes
  | (_, Raise e) :: takes => if matches stale e then find_work takes else Raise e
  end.

(** How an agent goes on: with what it has counted, or it is over: it left,
    an exception ended it, or it killed itself as it was told to. *)
Inductive next := Goes (met : bool) (handled : Z) | Left | Failed (e : exn) | Killed.

(** One turn of [run_agent]; the list is what was submitted, to whom. *)
Definition agent_turn (crash_after : Z) (met : bool) (handled : Z) (t : turn) : list (nat * pystr * Z) * next :=
  match tn_alive t with
  | [] => ([], if met then Left else if tn_late t then Left else Goes met handled)
  | alive =>
      match find_work (tn_takes t) with
      | Raise e => ([], Failed e)
      | Ok None => ([], if forallb id alive then Left else Goes true handled)
      | Ok (Some (dp, task)) =>
          match tn_generate t with
          | Raise e => ([], if matches stale e then Goes true handled else Failed e)
          | Ok version =>
              ([(dp, task, version)],
               match tn_submit t with
               | Raise e => Failed e
               | Ok _ => if negb (crash_after =? 0) && (crash_after <=? handled + 1) then Killed else Goes true (handled + 1)
               end)
          end
      end
  end.

(** [run_agent] *)
Fixpoint run_agent (crash_after : Z) (met : bool) (handled : Z) (turns : list turn) : list (nat * pystr * Z) * next :=
  match turns with
  | [] => ([], Goes met handled)
  | t :: turns =>
      let '(out, n) := agent_turn crash_after met handled t in
      match n with
      | Goes met handled => let '(rest, n) := run_agent crash_after met handled turns in (out ++ rest, n)
      | _ => (out, n)
      end
  end.

Lemma find_work_taken takes dp task : find_work takes = Ok (Some (dp, task)) → (dp, Ok (Some task)) ∈ takes.
Proof.
  induction takes as [|[d [[w|]|e]] takes IH]; simpl; [done|intros [= -> ->]; by left|intros H; right; auto|].
  destruct (matches stale e); [|done]. intros H. right. auto.
Qed.

(** A submission was taken from the dispatcher it goes to, in the same turn. *)
Lemma agent_turn_submits crash_after met handled t out n :
  agent_turn crash_after met handled t = (out, n) →
  (out = [] ∨ ∃ dp task version, out = [(dp, task, version)] ∧ (dp, Ok (Some task)) ∈ tn_takes t ∧ tn_generate t = Ok version) ∧
  (n = Left → out = [] ∧ (tn_alive t = [] ∧ (met = true ∨ tn_late t = true) ∨ forallb id (tn_alive t) = true)) ∧
  (∀ met' handled', n = Goes met' handled' → handled' = handled + len out ∧ (met = true → met' = true)).
Proof.
  unfold agent_turn. destruct (tn_alive t) as [|b alive] eqn:Ha.
  - intros [= <- <-]. split_and!; [by left|..]; destruct met, (tn_late t); try done; try (intros; split; [done|left; auto]);
      intros met' handled' [= <- <-]; split; try done; change (len []) with 0; lia.
  - destruct (find_work (tn_takes t)) as [[[dp task]|]|e] eqn:Hw.
    + apply find_work_taken in Hw. destruct (tn_generate t) as [version|e] eqn:Hg; intros [= <- <-].
      * split; [right; by exists dp, task, version|]. destruct (tn_submit t) as [[]|e]; [|done].
        destruct (negb _ && _); [done|]. split; [done|]. intros met' handled' [= <- <-]. split; [|done]. change (len [_]) with 1. lia.
      * split; [by left|]. destruct (matches stale e); [|done]. split; [done|]. intros met' handled' [= <- <-]. change (len []) with 0. split; [lia|done].
    + destruct (forallb id (b :: alive)) eqn:Hf; intros [= <- <-]; (split; [by left|]).
      * split; [|done]. intros _. split; [done|]. by right.
      * split; [done|]. intros met' handled' [= <- <-]. change (len []) with 0. split; [lia|done].
    + intros [= <- <-]. split; [by left|done].
Qed.

(** An agent submits only what it took, to the dispatcher that gave it, once
    for each turn, and counts what it submitted; and it leaves by itself only
    when the dispatchers it met are gone, when all of them have finished and have
    no work for it, or when none came before the deadline. *)
Theorem agent_submits_what_it_took crash_after met handled turns out n :
  run_agent crash_after met handled turns = (out, n) →
  (∀ dp task version, (dp, task, version) ∈ out →
     ∃ t, t ∈ turns ∧ (dp, Ok (Some task)) ∈ tn_takes t ∧ tn_generate t = Ok version) ∧
  len out ≤ len turns ∧
  (∀ met' handled', n = Goes met' handled' → handled' = handled + len out) ∧
  (n = Left → ∃ t, t ∈ turns ∧ (tn_alive t = [] ∨ forallb id (tn_alive t) = true)).
Proof.
  revert met handled out. induction turns as [|t turns IH]; intros met handled out.
  { intros [= <- <-]. split_and!; try done; [by intros dp task v ?%not_elem_of_nil|]. intros m h [= <- <-]. change (len []) with 0. lia. }
  cbn [run_agent]. destruct (agent_turn crash_after met handled t) as [o1 n1] eqn:Ht.
  destruct (agent_turn_submits _ _ _ _ _ _ Ht) as (Hs & Hleft & Hgo). assert (len o1 ≤ 1) as H1.
  { destruct Hs as [-> |(dp & task & v & -> & _)]; [done|]. done. }
  assert (∀ dp task v, (dp, task, v) ∈ o1 → (dp, Ok (Some task)) ∈ tn_takes t ∧ tn_generate t = Ok v) as Hin.
  { intros dp task v Hv. destruct Hs as [-> |(dp' & task' & v' & -> & ? & ?)]; [by apply not_elem_of_nil in Hv|].
    by apply list_elem_of_singleton in Hv as [= -> -> ->]. }
  assert (∀ n2, (o1, n1) = (out, n2) → (∀ m h, n1 ≠ Goes m h) →
    (∀ dp task v, (dp, task, v) ∈ out → ∃ t', t' ∈ t :: turns ∧ (dp, Ok (Some task)) ∈ tn_takes t' ∧ tn_generate t' = Ok v) ∧
    len out ≤ len (t :: turns) ∧ (∀ m h, n2 = Goes m h → h = handled + len out) ∧
    (n2 = Left → ∃ t', t' ∈ t :: turns ∧ (tn_alive t' = [] ∨ forallb id (tn_alive t') = true))) as Hend.
  { intros n2 [= <- <-] Hng. rewrite len_cons. pose proof (len_nonneg turns). split_and!; [|lia|by intros m h ?%Hng|].
    - intros dp task v Hv. exists t. split; [by left|]. by apply Hin.
    - intros Hn. destruct (Hleft Hn) as (_ & [[? _]|?]); exists t; (split; [by left|]); auto. }
  destruct n1 as [met1 handled1| |e|]; [|by intros H; apply Hend..].
  destruct (Hgo _ _ eq_refl) as [-> _]. destruct (run_agent crash_after met1 (handled + len o1) turns) as [o2 n2] eqn:Hr. intros [= <- <-].
  destruct (IH _ _ _ Hr) as (E1 & E2 & E3 & E4). rewrite len_app, len_cons. split_and!.
  - intros dp task v [Hv|Hv]%elem_of_app; [exists t; split; [by left|]; by apply Hin|].
    destruct (E1 dp task v Hv) as (t' & ? & ?). exists t'. split; [by right|done].
  - lia.
  - intros m h Hn. rewrite (E3 m h Hn). lia.
  - intros Hn. destruct (E4 Hn) as (t' & ? & ?). exists t'. split; [by right|done].
Qed.
