(* ===== verification/Supervisor.v ===== *)
(** * The restart supervisor example

    The loop of [driver] in [examples/20_restart_supervisor.py]: three pools,
    each with its own rule for when a member is missing and what to do about
    it, each acted upon once.  What a turn sees is its input: the clock and
    the number of members each pool lists when it is asked. *)

From S2P Require Import Prelude PyStr Errors.

Local Open Scope Z_scope.

Inductive group := Env | Engine | Trainer.

#[global] Instance group_eq_dec : EqDecision group.
Proof. solve_decision. Defined.

(** A turn: whether the deadline has passed, and [len(pools[g].all())]. *)
Record sight := Sight { si_late : bool; si_members : group → Z }.

(** [seen], a dict whose values are all true, by its keys; [replaced]; the
    labels given to [fleet.spawn]. *)
Record supervisor := Supervisor {
  su_seen : list group;
  su_replaced : Z;
  su_spawned : list pystr
}.

Definition new_supervisor : supervisor := Supervisor [] 0 [].

(** [not pools["env"].all()], [len(pools["trainer"].all()) < 2] *)
Definition missing (v : sight) (g : group) : bool :=
  match g with
  | Env | Engine => si_members v g =? 0
  | Trainer => si_members v g <? 2
  end.

(** What is done about it: a member is replaced, a round is declared void. *)
Definition respond (g : group) (s : supervisor) : supervisor :=
  match g with
  | Env => Supervisor (su_seen s) (su_replaced s + 1) (su_spawned s ++ [u "env1"])
  | Engine => Supervisor (su_seen s) (su_replaced s + 1) (su_spawned s ++ [u "engine1"])
  | Trainer => s
  end.

(** One of the three [if]s of a turn. *)
Definition watch_over (v : sight) (g : group) (s : supervisor) : supervisor :=
  if bool_decide (g ∈ su_seen s) || negb (missing v g) then s
  else respond g (Supervisor (su_seen s ++ [g]) (su_replaced s) (su_spawned s)).

Definition supervise_turn (v : sight) (s : supervisor) : supervisor :=
  watch_over v Trainer (watch_over v Engine (watch_over v Env s)).

(** The loop; [None] while it goes on. *)
Fixpoint supervise (vs : list sight) (s : supervisor) : option supervisor :=
  match vs with
  | [] => None
  | v :: vs =>
    if si_late v then Some s
    else
      let s := supervise_turn v s in
      if bool_decide (length (su_seen s) = 3%nat) then Some s else supervise vs s
  end.

(** The loop and the [assert] after it. *)
Definition supervised (vs : list sight) : option (res supervisor) :=
  s ← supervise vs new_supervisor;
  Some (if bool_decide (length (su_seen s) = 3%nat) then Ok s else Raise (Exc AssertionError)).

(** ** What is done for a group is done once *)

Definition label_of (g : group) : option pystr :=
  match g with Env => Some (u "env1") | Engine => Some (u "engine1") | Trainer => None end.

Definition once (s : supervisor) : Prop :=
  NoDup (su_seen s) ∧ su_spawned s = omap label_of (su_seen s) ∧ su_replaced s = Z.of_nat (length (su_spawned s)).

Lemma watch_over_once v g s : once s → once (watch_over v g s).
Proof.
  intros (Hnd & Hsp & Hre). unfold watch_over. case_bool_decide as Hin; [done|]. destruct (missing v g); [|done]. simpl.
  split_and!.
  - assert (NoDup (su_seen s ++ [g])); [|by destruct g]. apply NoDup_app. split_and!; [done| |apply NoDup_singleton].
    intros x Hx ->%list_elem_of_singleton. done.
  - destruct g; simpl; rewrite omap_app, Hsp; simpl; by rewrite ?app_nil_r.
  - destruct g; simpl; rewrite ?length_app, ?Hre; simpl; lia.
Qed.

Lemma watch_over_seen v g s x : x ∈ su_seen (watch_over v g s) ↔ x ∈ su_seen s ∨ x = g ∧ missing v g = true.
Proof.
  unfold watch_over. case_bool_decide as Hin; [naive_solver|]. destruct (missing v g) eqn:Hm; simpl; [|naive_solver].
  assert (su_seen (respond g (Supervisor (su_seen s ++ [g]) (su_replaced s) (su_spawned s))) = su_seen s ++ [g]) as -> by by destruct g.
  rewrite elem_of_app, list_elem_of_singleton. naive_solver.
Qed.

Lemma turn_once v s : once s → once (supervise_turn v s).
Proof. intros. by repeat apply watch_over_once. Qed.

Lemma turn_seen v s x : x ∈ su_seen (supervise_turn v s) ↔ x ∈ su_seen s ∨ missing v x = true.
Proof. unfold supervise_turn. rewrite !watch_over_seen. destruct x; naive_solver. Qed.

(** The turns that run: those before the deadline, up to the one after which
    nothing is left to see. *)
Lemma supervise_spec vs s s' :
  once s → supervise vs s = Some s' →
  once s' ∧ (∃ k, Forall (λ v, si_late v = false) (take k vs) ∧
    (∀ x, x ∈ su_seen s' ↔ x ∈ su_seen s ∨ Exists (λ v, missing v x = true) (take k vs)) ∧
    (length (su_seen s') = 3%nat ∨ ∃ v, vs !! k = Some v ∧ si_late v = true)).
Proof.
  revert s. induction vs as [|v vs IH]; intros s Hs; simpl; [done|]. destruct (si_late v) eqn:Hl.
  - intros [= <-]. split; [done|]. exists 0%nat. simpl. split_and!; [constructor| |by eauto].
    intros x. rewrite Exists_nil. naive_solver.
  - case_bool_decide as H3; [intros [= <-]|intros Hr].
    + split; [by apply turn_once|]. exists 1%nat. simpl. rewrite take_0. split_and!; [by repeat constructor| |by left].
      intros x. rewrite turn_seen, Exists_cons, Exists_nil. naive_solver.
    + destruct (IH _ (turn_once v s Hs) Hr) as (Ho & k & Hf & Hseen & Hend). split; [done|]. exists (S k). simpl.
      split_and!; [by constructor| |done]. intros x. rewrite Hseen, turn_seen, Exists_cons. naive_solver.
Qed.

(** Three different groups are all of them. *)
Lemma all_groups (l : list group) : NoDup l → length l = 3%nat ↔ ∀ g, g ∈ l.
Proof.
  intros Hnd. assert (l ⊆+ [Env; Engine; Trainer]) as Hsub.
  { apply NoDup_submseteq; [done|]. intros x _. destruct x; set_solver. }
  split; intros Hl.
  - intros g. apply submseteq_length_Permutation in Hsub; [|simpl; lia]. rewrite Hsub. destruct g; set_solver.
  - apply (Permutation_length (l' := [Env; Engine; Trainer])), NoDup_Permutation; [done|repeat constructor; set_solver|].
    intros x. split; intros _; [destruct x; set_solver|apply Hl].
Qed.

Lemma groups_permutation (l : list group) : NoDup l → length l = 3%nat → l ≡ₚ [Env; Engine; Trainer].
Proof.
  intros Hnd Hl. apply NoDup_Permutation; [done|repeat constructor; set_solver|].
  intros x. split; intros _; [destruct x; set_solver|by apply all_groups].
Qed.

Lemma some_group_unseen (l : list group) : NoDup l → length l ≠ 3%nat → ∃ g, g ∉ l.
Proof.
  intros Hnd Hl. destruct (decide (Env ∈ l)); [|by eauto]. destruct (decide (Engine ∈ l)); [|by eauto].
  destruct (decide (Trainer ∈ l)); [|by eauto]. destruct Hl. apply all_groups; [done|]. by intros [].
Qed.

Lemma new_once : once new_supervisor.
Proof. split_and!; [apply NoDup_nil_2|done..]. Qed.

(** The supervisor passes its [assert] when each of the pools was seen short
    of members before the deadline, and it has then started one replacement
    for the environment and one for the engine, in some order, and nothing for
    the trainers; it fails it when the deadline passed with some pool never
    seen short. *)
Theorem supervisor_acts_once vs r :
  supervised vs = Some r →
  match r with
  | Ok s =>
      su_spawned s ≡ₚ [u "env1"; u "engine1"] ∧ su_replaced s = 2 ∧
      ∀ g, Exists (λ v, missing v g = true ∧ si_late v = false) vs
  | Raise e =>
      e = Exc AssertionError ∧
      ∃ k g, Forall (λ v, missing v g = false) (take k vs) ∧ ∃ v, vs !! k = Some v ∧ si_late v = true
  end.
Proof.
  unfold supervised. intros (s & Hs & Hr)%bind_Some. injection Hr as <-.
  destruct (supervise_spec _ _ _ new_once Hs) as ((Hnd & Hsp & Hre) & k & Hf & Hseen & Hend).
  case_bool_decide as H3.
  - assert (su_spawned s ≡ₚ [u "env1"; u "engine1"]) as Hps by (by rewrite Hsp, (groups_permutation _ Hnd H3)).
    split_and!; [done|by rewrite Hre, Hps|]. intros g.
    destruct (proj1 (Hseen g) (proj1 (all_groups _ Hnd) H3 g)) as [[]%not_elem_of_nil|Hex].
    apply Exists_exists in Hex as (v & Hv & Hm). apply Exists_exists. exists v. rewrite Forall_forall in Hf.
    split; [|split; [done|by apply Hf]]. rewrite <- (take_drop k vs). apply elem_of_app. by left.
  - destruct Hend as [?|Hlate]; [done|]. split; [done|]. destruct (some_group_unseen _ Hnd H3) as (g & Hg).
    exists k, g. split; [|done]. apply Forall_forall. intros v Hv. apply not_true_is_false. intros Hm. apply Hg, Hseen. right.
    apply Exists_exists. eauto.
Qed.

(** The run of the example: the environment goes first, a trainer last. *)
Definition counts (env engine trainer : Z) : sight :=
  Sight false (λ g, match g with Env => env | Engine => engine | Trainer => trainer end).

Lemma supervisor_acts_once_witness :
  ∃ s, supervised [counts 1 1 2; counts 0 1 2; counts 0 0 2; counts 1 0 1] = Some (Ok s) ∧
    su_spawned s ≡ₚ [u "env1"; u "engine1"] ∧ su_replaced s = 2.
Proof.
  eexists. split; [vm_compute; reflexivity|].
  pose proof (supervisor_acts_once [counts 1 1 2; counts 0 1 2; counts 0 0 2; counts 1 0 1] _ eq_refl) as (? & ? & _). done.
Defined.
